(* ===== verification/_CoqProject ===== *)
-Q . S2P
Prelude.v
VersionsDB.v
BuildTables.v
BuildTablesSpec.v
GroupResolver.v
GroupResolverSpec.v
Algorithm.v
AlgorithmSpec.v
Tables.v
JobTables.v
JobTablesSpec.v
Scheduler.v
SchedulerSpec.v
SchedulerTables.v
Vars.v
VarsSpec.v
Repository.v
RepositorySpec.v
ExecWorld.v
Parallel.v
ParallelSpec.v
Exec.v
Engine.v
ExecSpec.v
ExecWitness.v
GoText.v
Steps.v
StepValidator.v
StepValidatorSpec.v
Planner.v
PlannerSpec.v
ConfigValidate.v
ConfigValidateSpec.v
BuildLogs.v
BuildLogsSpec.v
Routes.v
Access.v
AccessSpec.v
PodName.v
PodNameSpec.v
CanonicalJSON.v
CanonicalText.v
CanonicalJSONSpec.v
Lock.v
LockSpec.v
WorkflowConfig.v
WorkflowConfigSpec.v
WorkflowTypes.v
WorkflowFunction.v
WorkflowRun.v
WorkflowTypesSpec.v
WorkflowSound.v
WorkflowWitness.v
ResourceVersions.v
ResourceVersionsSpec.v
Checks.v
ChecksSpec.v
CheckStep.v
CheckStepSpec.v
Scanner.v
Containers.v
Reaper.v
ReaperSpec.v
DaemonPaths.v
ReadGuard.v
ReadGuardInv.v
ReadGuardSpec.v
ReadGuardLive.v
DaemonRegistry.v
DaemonRegistrySpec.v
Mirror.v
MirrorSpec.v
