(* ===== verification/Prelude.v ===== *)
(** * A verification of the core of Concourse, JetBridge edition

    Concourse is a continuous-integration server.  Teams own pipelines; a
    pipeline has resources, whose versions are found by checks, and jobs, whose
    steps get resources, run tasks and put resources.  The server (the ATC)
    validates and stores pipelines, decides which versions the next build of a
    job takes, starts builds within the limits of their jobs, runs their steps
    in containers (pods, in this edition) and collects what is old; an HTTP API
    lets the members of a team see and change all this.  The code is Go, below
    [src/]; this library translates the parts that decide, and proves what they
    promise to each other.

    ** How code is translated

    A Go function becomes a function of the same name.  A function that may
    return an error, panic or loop has a result in [outcome] (below): [Ret],
    [Fail], [Panic] or [NoFuel].  Code that changes a store is a function from
    the store to a result and a new store ([stateful]); code that runs next to
    other goroutines is a step relation or takes a world whose operations may
    change anything in between.  SQL statements are functions on tables, a
    transaction works on a copy that a commit publishes.  Integers are [Z], with
    the wrap-around written out where the code can reach it.  A Go map is a
    [gmap], or the list of its entries in the order of an iteration when the
    order shows.  Code outside the repository, and code of the repository below
    an interface, is the operations of a type class; what is assumed of them
    are the laws of a second class or named hypotheses, and a concrete instance
    satisfies them.

    ** Files

    The files come in pairs: definitions, then (in [...Spec]) theorems.

    Choosing the versions of a build
    - [VersionsDB] and [BuildTables]: the interface of the versions database and
      the tables, queries and lazy pagination behind it
      ([atc/db/versions_db.go], [atc/db/input_mapping.go]).
    - [GroupResolver] and [Algorithm]: the input algorithm
      ([atc/scheduler/algorithm/]): grouping of inputs, pinned, individual and
      group resolvers, the backtracking search, the mapping of the next build.

    Scheduling
    - [Tables], [JobTables]: the rows of jobs and builds and the operations that
      create, schedule, start, finish, abort and rerun builds ([atc/db/job.go],
      [atc/db/build.go], [atc/db/job_factory.go], [atc/db/pipeline*.go]).
    - [Scheduler]: [Schedule], the build starter, [scheduleJob]
      ([atc/scheduler/]) against the class [SchedulerDB]; [SchedulerTables]
      discharges its laws with the tables and the algorithm.

    Pipelines and plans
    - [GoText], [Steps]: text as Go reads it, and the configuration of a
      pipeline ([atc/steps.go], [atc/job_config.go], [atc/config.go],
      [atc/step_recursor.go]).
    - [StepValidator], [ConfigValidate]: the validation of steps and pipelines
      ([atc/step_validator.go], [atc/configvalidate/validate.go]).
    - [Planner]: the plans of a build ([atc/builds/planner.go], [atc/plan.go],
      [atc/plan_factory.go]).

    Running a build
    - [Vars]: variables, templates and the tracking of secrets ([vars/]).
    - [Repository]: the artifacts of a build and their scopes
      ([atc/exec/build/repository.go]) on a heap, with interleaved commits.
    - [ExecWorld], [Parallel], [Exec], [Engine]: errors and contexts, the
      parallel executor with its goroutines and channels, the control-flow
      steps ([atc/exec/]), the translation of plans to steps and the status of a
      build ([atc/engine/]); [ExecWitness] is a world to run them in.

    Checking resources
    - [ResourceVersions]: the versions of a resource config scope and their
      order ([atc/db/resource_config_scope.go]).
    - [Checks]: a periodic check inside one web node: the check factory and the
      scopes in flight ([atc/db/check_factory.go], [atc/db/resource_type.go]),
      in-memory builds ([atc/db/build_in_memory_check.go]) and the tracker
      ([atc/builds/tracker.go]), as steps of the node.
    - [CheckStep]: the check step and its delegate ([atc/exec/check_step.go],
      [atc/engine/check_delegate.go]) as programs that make calls; [pool_step]
      interleaves the calls of builds on any number of nodes, which may lose
      their locks.
    - [Scanner]: the scanner and its native resolution of registry images
      ([atc/lidar/scanner.go]).

    Around it
    - [BuildLogs]: the collector of build logs ([atc/gc/], the pages of builds of
      [atc/db/build_factory.go]).
    - [Routes], [Access]: the routes, roles and checks of the API
      ([atc/routes.go], [atc/api/accessor/], [atc/api/auth/], [atc/wrappa/]),
      the policy check ([atc/policy/checker.go], [atc/api/policychecker/]) and
      the limit of concurrent requests.  The verifier of tokens is the one the
      command installs, [jwks_verifier.go].
    - [Containers], [Reaper]: the table of containers
      ([atc/db/container.go], [atc/db/container_repository.go]), its collector
      ([atc/gc/container_collector.go]) and the reaper of pods
      ([atc/worker/jetbridge/reaper.go]), whose calls are interleaved with the
      steps of everything else that touches containers, pods and builds.
    - [PodName]: the names of pods ([atc/worker/jetbridge/podname.go]).
    - [Lock]: the locks processes share through the database
      ([atc/db/lock/lock.go]), as a step relation of goroutines on several
      processes with errors and broken connections.

    The artifact daemon of a node ([cmd/artifact-daemon/])
    - [DaemonPaths]: the lexical paths of Go and the keys, paths and lock names
      of the daemon ([security.go], [server.go]).
    - [ReadGuard]: the reader-writer lock per step handle ([guard.go]) and the
      goroutines of the requests, the sweeper and the mirror that take it, and
      of the [PUT] that does not, one atomic call at a time; [ReadGuardInv] is their invariant, [ReadGuardSpec]
      and [ReadGuardLive] what follows from it.
    - [DaemonRegistry]: the registry of artifacts, the file of its aliases and
      the sweeper ([registry.go], [alias_store.go], [sweeper.go]).
    - [Mirror]: the choice of peers, the status of the copies, the evacuation and
      the pool of workers ([mirror.go]).

    Agents
    - [WorkflowConfig], [WorkflowTypes], [WorkflowFunction]: compiled workflow
      functions, the type checker of the snapshots their steps exchange and the
      annotation of public outputs ([agent/workflow/function_config.go],
      [agent/workflow/resource_source.go], [agent/workflow/typecheck.go]);
      [WorkflowRun] is the semantics of runs they are checked for, and
      [WorkflowTypesSpec], [WorkflowSound] and [WorkflowWitness] relate the two.
    - [CanonicalJSON] and [CanonicalText]: the canonical form of JSON documents
      over which the digests of snapshot contracts are computed
      ([agent/snapshot/contracts/canonical_json.go]).

    This file has what they share: outcomes and their monads, the tactics that
    take them apart, the hint database [go], and lemmas on lists, sums and
    sorting.

    ** What is proved

    - Versions: the search returns without a panic, every input it resolves has
      a version its rule allows, vouched for by succeeded builds of the passed
      jobs with compatible versions; the pages of builds are the unpaged query;
      the groups of inputs share no job when sharing is transitive.
    - Scheduling: with the queries and the commit of [ScheduleBuild] taken apart,
      the limit of builds in flight holds for a job alone in its serial group in
      every run, and for a larger group in every run in which its jobs are not
      scheduled at once; pending builds start in order; an aborted build never
      starts; a request is acknowledged only by a complete run; a build takes
      exactly the inputs the algorithm saved.
    - Pipelines: the search for cycles is exact; a pipeline that is accepted can
      be planned, and every plan runs; all plans of a build have different IDs;
      ordered var sources come after those they need.
    - Running: what is started after an abort makes the build aborted, through
      every step but across; for an error that is not to be retried exactly one
      outcome hook runs, then [ensure]; a retry that no other goroutine
      disturbs publishes the attempt that succeeded; the parallel executor cannot
      deadlock, runs each substep it starts once, respects its limit and returns
      what its substeps returned; a commit of a scope loses no update;
      references round-trip and templates evaluate within their nesting.
    - Checking: checks of one resource config that do not lose their lock exclude
      each other and periodic checks of a scope are apart by their interval, up
      to the skew of the clocks, over all nodes; the tracker
      runs one check of a resource at a time, and a check it runs clears its
      scope whatever fails; new versions become the latest, in the order of the
      check; the chain of types of a checkable is read in at most one step per
      type, if it ends.
    - Around it: the log collector keeps what the retention asks for, if no build
      is a rerun; the reaper deletes only pods that nothing needs, and a sweep
      that nothing disturbs leaves none of those; a protected route is served
      exactly to those entitled, with a token that verifies against the signing
      keys, if the policy and the limit of requests let it; without a token only what is
      public can be seen; every route has a check; the names of pods are DNS
      labels; two goroutines never hold a lock that neither of them lost, and
      the identities of most locks fit the database's integers.
    - The artifact daemon: a goroutine that holds a handle exclusively is alone
      with it, the files a reader reads are not replaced under it by the
      requests that take its lock (two kinds do not), the locks
      neither deadlock nor leak; an alias that was saved is found after every
      restart; the peers of a key are distinct, as many as asked for and
      independent of the order of discovery, and an evacuation with enough time
      leaves a copy of every artifact.
    - Agents: a workflow that type-checks, whose hooks and parallel branches
      neither read nor write what their main step or another branch writes, and
      whose ensure hooks write nothing under a try, never gets stuck and produces its public outputs with their types; two
      documents have the same canonical payload exactly if they differ in the
      order of members only, payloads are their own payloads, and framed
      serialisations are prefix-free.
    - Some theorems state where the code does something else than it means to
      (the ones that show two nodes starting builds of one serial group, a
      scheduling request that is lost, pages that skip builds, hooks that run
      for an error that is retried, workflows that are accepted and get stuck,
      a put under a reader, a new pod that is deleted for an old one, and the
      like); each holds for the code as it is.

    ** Bounds

    Fuel stands for recursion that is not structural, and theorems show that it
    suffices: the search of a group resolver by the builds and inputs left, the
    pages of a query by its rows, templates by the nesting of the document, the
    search for cycles by the number of jobs ([cycle_fuel]), the images of custom
    types by the number of types, shell patterns by the length of the text, the
    pages of the log collector by the rows of the job ([collect_fuel]), the
    parallel executor by the steps its goroutines have left, the closure of the
    types of resource sources by the number of types ([visit_fuel]), canonical
    documents by twice their length ([tree_fuel]), the chain of types of a
    checkable by the number of types.  The loop of a check that waits for its
    lock ends when the lock is free: the theorems hold for any fuel.  [RerunBuild]
    retries on a conflict for as long as it takes, and the theorems about it
    hold for any fuel.

    ** What is not modelled

    The core steps, which run containers and stream volumes, and everything
    that is mostly calls to another service (Kubernetes, object stores, git,
    secret stores, OIDC), stay parameters or outside; so do the decoding of
    configurations from JSON and YAML, logging, tracing, metrics and the caches in
    front of queries.  Failures of the database are part of the scheduler's, the
    checks' and the API's models, and not of the operations on tables.  Not yet
    modelled: the other collectors, the life cycles of workers and
    volumes, the secrets and artifacts the reaper cleans up, checks that go
    through the table of builds, the archives, snapshots and handlers of the
    artifact daemon, the event stream, of the agent platform the parsing and rendering of
    workflows, their graph, budgets and experiments, and the goroutines of the
    scheduler's runner.  The
    web interface (Elm), the command line, the migrations, tests and fakes are
    not part of this development. *)
From stdpp Require Import base gmap sets list strings sorting.
From Stdlib Require Import ZArith Lia.

(** ** Outcomes of Go functions

    A Go function that can return an [error], index out of range or loop is
    modelled as a function into [outcome].  [Ret] is a normal return, [Fail]
    an [error] value, [Panic] a run-time panic (nil dereference, index out of
    range) and [NoFuel] the exhaustion of the model's recursion bound, which
    the termination theorems rule out. *)
Inductive outcome (E A : Type) : Type :=
| Ret (a : A)
| Fail (e : E)
| Panic
| NoFuel.
Arguments Ret {E A} _.
Arguments Fail {E A} _.
Arguments Panic {E A}.
Arguments NoFuel {E A}.

#[global] Instance outcome_ret {E} : MRet (outcome E) := @Ret E.

#[global] Instance outcome_bind {E} : MBind (outcome E) :=
  fun A B f m =>
    match m with
    | Ret a => f a
    | Fail e => Fail e
    | Panic => Panic
    | NoFuel => NoFuel
    end.

(** An index expression [l[i]]: out of range panics. *)
Definition at_or_panic {E A} (l : list A) (i : nat) : outcome E A :=
  match l !! i with
  | Some x => Ret x
  | None => Panic
  end.

(** A dereference [*p] of a pointer modelled by [option]. *)
Definition deref {E A} (p : option A) : outcome E A :=
  match p with
  | Some x => Ret x
  | None => Panic
  end.

(** [returns m] : the call returned, with a value or with an [error]. *)
Definition returns {E A} (m : outcome E A) : Prop :=
  match m with
  | Ret _ | Fail _ => True
  | Panic | NoFuel => False
  end.

(** ** Stateful Go functions

    [stateful St E A]: a function that also reads and writes [St]; what it
    wrote before it failed stays written. *)
Definition stateful (St E A : Type) : Type := St -> outcome E A * St.

#[global] Instance stateful_ret {St E} : MRet (stateful St E) := fun A a st => (Ret a, st).

#[global] Instance stateful_bind {St E} : MBind (stateful St E) :=
  fun A B f m st =>
    match m st with
    | (Ret a, st') => f a st'
    | (Fail e, st') => (Fail e, st')
    | (Panic, st') => (Panic, st')
    | (NoFuel, st') => (NoFuel, st')
    end.

Definition fail {St E A} (e : E) : stateful St E A := fun st => (Fail e, st).

(** A Go [error] of type [E] and the context [fmt.Errorf] puts around it. *)
Inductive wrapped (E : Type) : Type :=
| Plain (e : E)
| Wrap (context : string) (e : wrapped E).
Arguments Plain {E} _.
Arguments Wrap {E} _ _.

(** [errors.As]: the error at the bottom of the chain. *)
Fixpoint unwrap {E} (e : wrapped E) : E :=
  match e with
  | Plain e => e
  | Wrap _ e => unwrap e
  end.

(** [fmt.Errorf("context: %w", err)] around a failing call. *)
Definition wrap {St E A} (context : string) (m : stateful St (wrapped E) A)
    : stateful St (wrapped E) A :=
  fun st =>
    match m st with
    | (Fail e, st') => (Fail (Wrap context e), st')
    | r => r
    end.

(** ** Generic lemmas *)

Lemma bind_Ret {E A B} (m : outcome E A) (f : A -> outcome E B) b :
  (m ≫= f) = Ret b <-> exists a, m = Ret a /\ f a = Ret b.
Proof.
  destruct m; cbn; split; try (intros H; discriminate);
    try (intros (a' & H & _); discriminate).
  - eauto.
  - intros (a' & [= ->] & H); done.
Qed.

Lemma bind_Fail {E A B} (m : outcome E A) (f : A -> outcome E B) e :
  (m ≫= f) = Fail e <-> m = Fail e \/ exists a, m = Ret a /\ f a = Fail e.
Proof. destruct m; cbn; naive_solver. Qed.

Lemma returns_bind {E A B} (m : outcome E A) (f : A -> outcome E B) :
  returns m -> (forall a, m = Ret a -> returns (f a)) -> returns (m ≫= f).
Proof. destruct m; cbn; naive_solver. Qed.

Lemma stateful_bind_Ret {St E A B} (m : stateful St E A) (f : A -> stateful St E B) st b st' :
  (m ≫= f) st = (Ret b, st') <-> exists a st1, m st = (Ret a, st1) /\ f a st1 = (Ret b, st').
Proof.
  unfold mbind, stateful_bind. destruct (m st) as [[a|e| |] st1]; split;
    try (intros H; discriminate); try (intros (a' & st1' & H & _); discriminate).
  - eauto.
  - intros (a' & st1' & [= -> ->] & H). done.
Qed.

Lemma wrap_Ret {St E A} c (m : stateful St (wrapped E) A) st a st' :
  wrap c m st = (Ret a, st') <-> m st = (Ret a, st').
Proof. unfold wrap. destruct (m st) as [[]]; split; intros; congruence. Qed.

(** [tracks R m]: whatever [m] returns, the states before and after it are
    related by [R]. *)
Definition tracks {St E A} (R : St -> St -> Prop) (m : stateful St E A) : Prop :=
  forall st, R st (m st).2.

Section Tracks.
Context {St E : Type} (R : St -> St -> Prop) `{!PreOrder R}.

Lemma tracks_ret {A} (a : A) : tracks R (mret a : stateful St E A).
Proof. intros st. reflexivity. Qed.

Lemma tracks_fail {A} (e : E) : tracks R (fail e : stateful St E A).
Proof. intros st. reflexivity. Qed.

Lemma tracks_bind {A B} (m : stateful St E A) (f : A -> stateful St E B) :
  tracks R m -> (forall a, tracks R (f a)) -> tracks R (m ≫= f).
Proof.
  intros Hm Hf st. specialize (Hm st). unfold mbind, stateful_bind.
  destruct (m st) as [[a|e| |] st']; cbn in *; try done. etrans; [exact Hm|]. apply Hf.
Qed.
End Tracks.

Lemma tracks_wrap {St E A} (R : St -> St -> Prop) c (m : stateful St (wrapped E) A) :
  tracks R m -> tracks R (wrap c m).
Proof. intros Hm st. specialize (Hm st). unfold wrap. by destruct (m st) as [[] ?]. Qed.

Lemma at_or_panic_Ret {E A} (l : list A) i x :
  at_or_panic (E:=E) l i = Ret x <-> l !! i = Some x.
Proof. unfold at_or_panic. destruct (l !! i); split; congruence. Qed.

Lemma at_or_panic_lt {E A} (l : list A) i :
  i < length l -> exists x, l !! i = Some x /\ at_or_panic (E:=E) l i = Ret x.
Proof.
  intros H. destruct (lookup_lt_is_Some_2 l i H) as [x Hx].
  exists x. split; [done|]. by apply at_or_panic_Ret.
Qed.

Lemma string_app_nil (s : string) : s +:+ "" = s.
Proof. induction s as [|c s IH]; [done|]. change (String c (s +:+ "") = String c s). by rewrite IH. Qed.

Lemma string_app_assoc (s t u : string) : (s +:+ t) +:+ u = s +:+ (t +:+ u).
Proof.
  induction s as [|c s IH]; [done|]. change (String c ((s +:+ t) +:+ u) = String c (s +:+ (t +:+ u))). by rewrite IH.
Qed.

Lemma string_length_app (s t : string) : String.length (s +:+ t) = (String.length s + String.length t)%nat.
Proof.
  induction s as [|c s IH]; [done|]. change (S (String.length (s +:+ t)) = S (String.length s + String.length t)).
  by rewrite IH.
Qed.

Lemma string_app_inj (s t u : string) : s +:+ t = s +:+ u -> t = u.
Proof.
  induction s as [|c s IH]; [done|]. change (String c (s +:+ t) = String c (s +:+ u) -> t = u). intros [= H]. auto.
Qed.

Lemma filter_all {A} (P : A -> Prop) `{!forall x, Decision (P x)} (l : list A) :
  Forall P l -> filter P l = l.
Proof. induction 1; [done|]. rewrite filter_cons_True by done. by f_equal. Qed.

Lemma filter_none {A} (P : A -> Prop) `{!forall x, Decision (P x)} (l : list A) :
  Forall (fun x => ~ P x) l -> filter P l = [].
Proof. induction 1; [done|]. by rewrite filter_cons_False. Qed.

Lemma filter_iff_in {A} (P Q : A -> Prop) `{!forall x, Decision (P x), !forall x, Decision (Q x)}
    (l : list A) :
  (forall x, x ∈ l -> P x <-> Q x) -> filter P l = filter Q l.
Proof.
  induction l as [|x l IH]; intros Hl; [done|]. rewrite !filter_cons, IH by set_solver.
  destruct (decide (P x)) as [HP|HP], (decide (Q x)) as [HQ|HQ]; try done; set_solver.
Qed.

Lemma elem_of_concat {A} (x : A) (ls : list (list A)) :
  x ∈ concat ls <-> exists l, l ∈ ls /\ x ∈ l.
Proof. rewrite list_elem_of_In, in_concat. setoid_rewrite list_elem_of_In. done. Qed.

Lemma filter_fmap {A B} (f : A -> B) (P : B -> Prop) `{!forall x, Decision (P x)} (l : list A) :
  filter P (f <$> l) = f <$> filter (fun x => P (f x)) l.
Proof. induction l as [|x l IH]; [done|]. rewrite fmap_cons, !filter_cons. by case_decide; cbn; rewrite IH. Qed.

Lemma NoDup_fmap_filter {A B} (f : A -> B) (P : A -> Prop) `{!forall x, Decision (P x)} (l : list A) :
  NoDup (f <$> l) -> NoDup (f <$> filter P l).
Proof.
  intros Hl. eapply sublist_NoDup; [exact Hl|]. apply fmap_sublist, sublist_filter.
Qed.

(** ** Automation

    [go_inv] decomposes an equation between a bound computation and a
    returned value into the equations of its steps. *)
Ltac go_inv_step :=
  match goal with
  | H : Ret _ = Ret _ |- _ => injection H as H
  | H : Fail _ = Fail _ |- _ => injection H as H
  | H : Ret _ = Fail _ |- _ => discriminate H
  | H : Fail _ = Ret _ |- _ => discriminate H
  | H : Panic = _ |- _ => discriminate H
  | H : NoFuel = _ |- _ => discriminate H
  | H : _ ≫= _ = Ret _ |- _ =>
      let a := fresh "a" in let H1 := fresh H in
      apply bind_Ret in H; destruct H as (a & H1 & H)
  | H : at_or_panic _ _ = Ret _ |- _ => apply at_or_panic_Ret in H
  | H : deref ?p = Ret _ |- _ =>
      destruct p eqn:?; cbn in H
  | p : _ * _ |- _ => destruct p
  | H : (_, _) = (_, _) |- _ => injection H as H
  end.
Ltac go_inv := repeat (go_inv_step; simplify_eq/=).

(** [go_bool] turns the boolean tests of the code into propositions. *)
Ltac go_bool :=
  repeat match goal with
  | H : negb _ = true |- _ => apply negb_true_iff in H
  | H : negb _ = false |- _ => apply negb_false_iff in H
  | H : bool_decide _ = true |- _ => apply bool_decide_eq_true in H
  | H : bool_decide _ = false |- _ => apply bool_decide_eq_false in H
  | H : Z.eqb _ _ = true |- _ => apply Z.eqb_eq in H
  | H : Z.eqb _ _ = false |- _ => apply Z.eqb_neq in H
  | H : String.eqb _ _ = true |- _ => apply String.eqb_eq in H
  | H : String.eqb _ _ = false |- _ => apply String.eqb_neq in H
  | H : andb _ _ = true |- _ => apply andb_true_iff in H; destruct H
  | H : orb _ _ = false |- _ => apply orb_false_iff in H; destruct H
  end.

(** [go_cases] runs [go_inv] and splits on the branches the code takes. *)
Ltac go_cases :=
  repeat (first
    [ go_inv_step
    | match goal with
      | H : match ?x with _ => _ end = _ |- _ => destruct x eqn:?
      end ]; simplify_eq/=); go_bool.

Create HintDb go.
#[export] Hint Resolve returns_bind : go.
#[export] Hint Resolve tracks_ret tracks_fail tracks_bind tracks_wrap : go.
