(* ===== verification/VersionsDB.v ===== *)
(** * The versions database as the input algorithm sees it

    The data of [atc/db/input_mapping.go] and of [atc/db/job.go]
    ([InputConfig]), and the interface [VersionsDB] of
    [atc/db/versions_db.go]: one operation per method the resolvers call.
    The resolvers of [Algorithm.v] are proved against this interface and the
    laws [VersionsDBLaws]; [BuildTables.v] instantiates both with the tables
    and the paginated queries the Go code runs. *)
From S2P Require Import Prelude.
From stdpp Require Import base gmap sets list strings.
From Stdlib Require Import ZArith.
Open Scope Z_scope.

(** Go's [error] values are opaque to this code: it only tests them for nil
    and returns them. *)
Abbreviation error := string (only parsing).

(** ** Data (atc/db/input_mapping.go, atc/db/job.go) *)

(** [type ResourceVersion string]: the digest of a version. *)
Abbreviation ResourceVersion := string (only parsing).

(** [type ResolutionFailure string]; [""] means that there is no failure. *)
Abbreviation ResolutionFailure := string (only parsing).

(** [atc.Version]: [map[string]string], nil modelled by [None] where it is
    optional. *)
Abbreviation Version := (gmap string string) (only parsing).

(** [type JobSet map[int]bool], in which only [true] is ever stored: the set
    of its keys. *)
Abbreviation JobSet := (gset Z) (only parsing).

Definition LatestVersionNotFound : ResolutionFailure :=
  "latest version of resource not found".
Definition VersionNotFound : ResolutionFailure :=
  "version of resource not found".
Definition NoSatisfiableBuilds : ResolutionFailure :=
  "no satisfiable builds from passed jobs found for set of inputs".

(** [PinnedVersionNotFound.String]; the order in which Go visits the map is
    unspecified and is the order of [map_to_list] here. *)
Definition PinnedVersionNotFound (v : Version) : ResolutionFailure :=
  let text := foldl (fun t '(k, x) => t +:+ (" " +:+ k +:+ ":" +:+ x)) "" (map_to_list v) in
  "pinned version" +:+ text +:+ " not found".

Record InputConfig := {
  Name : string;
  Trigger : bool;
  Passed : JobSet;
  UseEveryVersion : bool;
  PinnedVersion : option Version;
  ResourceID : Z;
  JobID : Z;
}.

Abbreviation InputConfigs := (list InputConfig) (only parsing).

Record AlgorithmVersion := {
  av_ResourceID : Z;
  av_Version : ResourceVersion;
}.

#[global] Instance AlgorithmVersion_eq_dec : EqDecision AlgorithmVersion.
Proof. solve_decision. Defined.

Record AlgorithmInput := {
  ai_AlgorithmVersion : AlgorithmVersion;
  FirstOccurrence : bool;
}.

(** [InputResult]: [Input] is a pointer, nil when the input is unresolved. *)
Record InputResult := {
  Input : option AlgorithmInput;
  PassedBuildIDs : list Z;
  ResolveError : ResolutionFailure;
}.

Abbreviation InputMapping := (gmap string InputResult) (only parsing).

(** [BuildCursor]: a build and, when it is a rerun, the build it reruns
    ([sql.NullInt64]). *)
Record BuildCursor := {
  bc_ID : Z;
  bc_RerunOf : option Z;
}.

#[global] Instance BuildCursor_eq_dec : EqDecision BuildCursor.
Proof. solve_decision. Defined.

(** ** The interface

    [Next] is the method of [PaginatedBuilds], a cursor that it advances; the
    other operations are the methods of [VersionsDB] in the order of
    versions_db.go.  The "found" booleans of the Go signatures are the
    [option]s of the results. *)
Class VersionsDB := {
  PaginatedBuilds : Type;
  Next : PaginatedBuilds -> outcome error (option Z * PaginatedBuilds);
  HasNext : PaginatedBuilds -> bool;
  IsFirstOccurrence : Z -> string -> ResourceVersion -> Z -> outcome error bool;
  VersionIsDisabled : Z -> ResourceVersion -> outcome error bool;
  LatestVersionOfResource : Z -> outcome error (option ResourceVersion);
  SuccessfulBuilds : Z -> PaginatedBuilds;
  SuccessfulBuildsVersionConstrained :
    Z -> gmap string (list string) -> outcome error PaginatedBuilds;
  SuccessfulBuildOutputs : Z -> outcome error (list AlgorithmVersion);
  VersionExists : Z -> ResourceVersion -> outcome error bool;
  FindVersionOfResource : Z -> Version -> outcome error (option ResourceVersion);
  NextEveryVersion : Z -> Z -> outcome error (option (ResourceVersion * bool));
  LatestBuildPipes : Z -> outcome error (gmap Z BuildCursor);
  LatestBuildUsingLatestVersion : Z -> Z -> outcome error (option Z);
  UnusedBuilds : Z -> BuildCursor -> outcome error PaginatedBuilds;
  UnusedBuildsVersionConstrained :
    Z -> BuildCursor -> gmap string (list string) -> outcome error PaginatedBuilds;
}.

(** ** What the algorithm relies on

    [lists j pb]: the cursor [pb] only ever yields builds of job
    [j] that succeeded.  [remaining pb] bounds the builds a cursor still has to
    yield. *)
Class VersionsDBLaws (db : VersionsDB) := {
  (** [b] is a build of job [j] that succeeded *)
  succeeded : Z -> Z -> Prop;
  lists : Z -> PaginatedBuilds -> Prop;
  remaining : PaginatedBuilds -> nat;
  max_builds : nat;

  Next_lists : forall j pb b pb',
    lists j pb -> Next pb = Ret (Some b, pb') -> succeeded j b /\ lists j pb';
  Next_remaining : forall j pb b pb',
    lists j pb -> Next pb = Ret (Some b, pb') -> (remaining pb' < remaining pb)%nat;
  remaining_bound : forall j pb, lists j pb -> (remaining pb <= max_builds)%nat;

  SuccessfulBuilds_lists : forall j, lists j (SuccessfulBuilds j);
  SuccessfulBuildsVersionConstrained_lists : forall j c pb,
    SuccessfulBuildsVersionConstrained j c = Ret pb -> lists j pb;
  UnusedBuilds_lists : forall j b pb, UnusedBuilds j b = Ret pb -> lists j pb;
  UnusedBuildsVersionConstrained_lists : forall j b c pb,
    UnusedBuildsVersionConstrained j b c = Ret pb -> lists j pb;
}.

(** The queries return, with rows or with an [error]: none of them panics. *)
Class VersionsDBReturns (db : VersionsDB) : Prop := {
  Next_returns : forall pb, returns (Next pb);
  IsFirstOccurrence_returns : forall j n v r, returns (IsFirstOccurrence j n v r);
  VersionIsDisabled_returns : forall r v, returns (VersionIsDisabled r v);
  LatestVersionOfResource_returns : forall r, returns (LatestVersionOfResource r);
  SuccessfulBuildsVersionConstrained_returns : forall j c,
    returns (SuccessfulBuildsVersionConstrained j c);
  SuccessfulBuildOutputs_returns : forall b, returns (SuccessfulBuildOutputs b);
  VersionExists_returns : forall r v, returns (VersionExists r v);
  FindVersionOfResource_returns : forall r v, returns (FindVersionOfResource r v);
  NextEveryVersion_returns : forall j r, returns (NextEveryVersion j r);
  LatestBuildPipes_returns : forall b, returns (LatestBuildPipes b);
  LatestBuildUsingLatestVersion_returns : forall j r,
    returns (LatestBuildUsingLatestVersion j r);
  UnusedBuilds_returns : forall j b, returns (UnusedBuilds j b);
  UnusedBuildsVersionConstrained_returns : forall j b c,
    returns (UnusedBuildsVersionConstrained j b c);
}.

#[export] Hint Resolve SuccessfulBuilds_lists SuccessfulBuildsVersionConstrained_lists
  UnusedBuilds_lists UnusedBuildsVersionConstrained_lists : go.
#[export] Hint Resolve Next_returns IsFirstOccurrence_returns VersionIsDisabled_returns
  LatestVersionOfResource_returns SuccessfulBuildsVersionConstrained_returns
  SuccessfulBuildOutputs_returns VersionExists_returns FindVersionOfResource_returns
  NextEveryVersion_returns LatestBuildPipes_returns
  LatestBuildUsingLatestVersion_returns UnusedBuilds_returns
  UnusedBuildsVersionConstrained_returns : go.
