(* ===== verification/BuildTables.v ===== *)
(** * The tables behind the versions database (atc/db/versions_db.go)

    [VersionsDB] and [PaginatedBuilds] run SQL over a handful of tables.
    Here a connection is the contents of those tables ([Conn]), a query is
    the function its SQL text denotes, and [PaginatedBuilds.Next] pages
    through a query with a row limit exactly as the Go code does, lazily
    migrating pre-v6 builds when a page comes back empty.

    A [SELECT] without an [ORDER BY] takes rows in table order.  The
    in-process cache of [VersionsDB] (a third-party package) is not
    modelled: every query reads the tables. *)
From S2P Require Import Prelude VersionsDB.
From stdpp Require Import base gmap sets list strings sorting pretty.
From Stdlib Require Import Ascii ZArith Lia.
Open Scope Z_scope.

(** ** Tables *)

(** [builds], restricted to the columns the queries read;
    [bd_succeeded] is [status = 'succeeded']. *)
Record BuildRow := {
  bd_id : Z;
  bd_job_id : Z;
  bd_succeeded : bool;
  bd_rerun_of : option Z;
  bd_rerun_of_old : option Z;
  bd_needs_v6_migration : bool;
}.

(** [successful_build_outputs]; [outputs] is a JSON object from resource ids
    to arrays of version digests. *)
Record OutputRow := {
  ot_build_id : Z;
  ot_job_id : Z;
  ot_outputs : gmap string (list string);
  ot_rerun_of : option Z;
}.

(** [resource_config_versions] *)
Record VersionRow := {
  rcv_scope : Z;
  rcv_version : gmap string string;
  rcv_md5 : option string;
  rcv_sha256 : string;
  rcv_check_order : Z;
}.

(** [build_resource_config_version_inputs] and [.._outputs] *)
Record BuildVersionRow := {
  bv_build_id : Z;
  bv_resource_id : Z;
  bv_digest : string;
  bv_name : string;
}.

Record Conn := {
  t_builds : list BuildRow;
  t_successful_build_outputs : list OutputRow;
  t_resource_config_versions : list VersionRow;
  (** [resources]: id and [resource_config_scope_id] *)
  t_resources : gmap Z (option Z);
  (** [resource_disabled_versions]: resource id and digest *)
  t_disabled : list (Z * string);
  t_inputs : list BuildVersionRow;
  t_outputs : list BuildVersionRow;
  (** [build_pipes]: from_build_id and to_build_id *)
  t_pipes : list (Z * Z);
}.

Definition set_migrated (bs : list BuildRow) (os : list OutputRow) (c : Conn) : Conn :=
  {| t_builds := bs; t_successful_build_outputs := os;
     t_resource_config_versions := t_resource_config_versions c;
     t_resources := t_resources c; t_disabled := t_disabled c;
     t_inputs := t_inputs c; t_outputs := t_outputs c; t_pipes := t_pipes c |}.

(** SQL's [COALESCE]. *)
Definition coalesce {A} (x : option A) (d : A) : A := default d x.

(** [ORDER BY COALESCE(rerun_of, rerun_of_old, id) DESC, id DESC]: the row
    [(k1, i1)] comes before [(k2, i2)], or is the same. *)
Definition newest_first (a b : Z * Z) : Prop := b.1 < a.1 \/ (b.1 = a.1 /\ b.2 <= a.2).
#[global] Instance newest_first_dec a b : Decision (newest_first a b).
Proof. unfold newest_first. apply _. Defined.

(** ** Cursors (BuildCursor) *)

(** A row of a paginated query: its id column, the selected [rerun_of], the
    sort key and the raw [rerun_of] column its [WHERE] clauses read. *)
Record PageRow := {
  pg_id : Z;
  pg_rerun : option Z;
  pg_key : Z;
  pg_rerun_col : option Z;
}.

Definition cursor_of (p : PageRow) : BuildCursor :=
  {| bc_ID := pg_id p; bc_RerunOf := pg_rerun p |}.

(** [OlderBuilds(idCol)] *)
Definition OlderBuilds (cursor : BuildCursor) (p : PageRow) : bool :=
  match bc_RerunOf cursor with
  | Some rerunOf =>
      (coalesce (pg_rerun_col p) (pg_id p) <? rerunOf)
      || (pg_id p =? rerunOf)
      || (bool_decide (pg_rerun_col p = Some rerunOf) && (pg_id p <? bc_ID cursor))
  | None => coalesce (pg_rerun_col p) (pg_id p) <? bc_ID cursor
  end.

(** [NewerBuilds(idCol)], over the [builds] table *)
Definition NewerBuilds (cursor : BuildCursor) (b : BuildRow) : bool :=
  let key := coalesce (bd_rerun_of b) (coalesce (bd_rerun_of_old b) (bd_id b)) in
  match bc_RerunOf cursor with
  | Some rerunOf =>
      let isRerun :=
        bool_decide (bd_rerun_of b = Some rerunOf)
        || (negb (2147483647 <? rerunOf) && bool_decide (bd_rerun_of_old b = Some rerunOf)) in
      (rerunOf <? key) || (isRerun && (bc_ID cursor <? bd_id b))
  | None => bc_ID cursor <? key
  end.

(** ** Paginated queries *)

(** The two [SelectBuilder]s of the file: over [builds] and, constrained by
    versions, over [successful_build_outputs].  [since] is the
    [id = lastUsed OR OlderBuilds(lastUsed)] clause of the unused-builds
    variants. *)
Inductive builder :=
| SelectBuilds (jobID : Z) (since : option BuildCursor)
| SelectOutputs (jobID : Z) (constraints : gmap string (list string))
    (since : option BuildCursor).

(** jsonb containment [outputs @> c] of objects of arrays. *)
Definition json_contains (outputs c : gmap string (list string)) : bool :=
  bool_decide (map_Forall (fun k vs =>
    Forall (fun v => v ∈ default [] (outputs !! k)) vs /\ is_Some (outputs !! k)) c).

Definition build_page_row (b : BuildRow) : PageRow :=
  let rerun := match bd_rerun_of b with Some x => Some x | None => bd_rerun_of_old b end in
  {| pg_id := bd_id b; pg_rerun := rerun; pg_key := coalesce rerun (bd_id b);
     pg_rerun_col := bd_rerun_of b |}.

Definition output_page_row (o : OutputRow) : PageRow :=
  {| pg_id := ot_build_id o; pg_rerun := ot_rerun_of o;
     pg_key := coalesce (ot_rerun_of o) (ot_build_id o); pg_rerun_col := ot_rerun_of o |}.

Definition since_ok (since : option BuildCursor) (p : PageRow) : bool :=
  match since with
  | Some lastUsed => (pg_id p =? bc_ID lastUsed) || OlderBuilds lastUsed p
  | None => true
  end.

Definition page_before (p q : PageRow) : Prop :=
  newest_first (pg_key p, pg_id p) (pg_key q, pg_id q).
#[global] Instance page_before_dec p q : Decision (page_before p q).
Proof. unfold page_before. apply _. Defined.

(** All the rows of a query, in order. *)
Definition select (c : Conn) (bld : builder) : list PageRow :=
  merge_sort page_before
    match bld with
    | SelectBuilds jobID since =>
        filter (fun p => since_ok since p = true)
          (build_page_row <$>
             filter (fun b => bd_job_id b = jobID /\ bd_succeeded b = true) (t_builds c))
    | SelectOutputs jobID constraints since =>
        filter (fun p => since_ok since p = true)
          (output_page_row <$>
             filter (fun o => ot_job_id o = jobID /\ json_contains (ot_outputs o) constraints = true)
               (t_successful_build_outputs c))
    end.

Record Pages := {
  pb_builder : builder;
  unusedBuilds : bool;
  pb_builds : list BuildCursor;
  offset : nat;
  pb_jobID : Z;
  limitRows : nat;
}.

(** ** Lazy migration *)

(** [json_object_agg(resource_id, json_agg(version_digest))] of a build's
    outputs and inputs; [None] when the join is empty. *)
Definition aggregate_outputs (c : Conn) (buildID : Z) : option (gmap string (list string)) :=
  let rows := filter (fun v => bv_build_id v = buildID) (t_outputs c ++ t_inputs c) in
  match rows with
  | [] => None
  | _ => Some (foldl (fun m v =>
           let k := pretty (bv_resource_id v) in
           <[k := default [] (m !! k) ++ [bv_digest v]]> m) ∅ rows)
  end.

(** [INSERT .. ON CONFLICT (build_id) DO NOTHING] of a migrated build *)
Definition insert_migrated (c : Conn) (os : list OutputRow) (b : BuildRow) : list OutputRow :=
  match aggregate_outputs c (bd_id b) with
  | None => os
  | Some out =>
      if bool_decide (bd_id b ∈ ot_build_id <$> os) then os
      else os ++ [{| ot_build_id := bd_id b; ot_job_id := bd_job_id b; ot_outputs := out;
                     ot_rerun_of := pg_rerun (build_page_row b) |}]
  end.

Definition to_migrate (c : Conn) (jobID : Z) : list BuildRow :=
  filter (fun b => bd_job_id b = jobID /\ bd_needs_v6_migration b = true /\ bd_succeeded b = true)
    (t_builds c).

Definition build_before (a b : BuildRow) : Prop :=
  page_before (build_page_row a) (build_page_row b).
#[global] Instance build_before_dec a b : Decision (build_before a b).
Proof. unfold build_before. apply _. Defined.

(** [migrateLimit]: [None] when no row was affected. *)
Definition migrateLimit (bs : Pages) (c : Conn) : option Conn :=
  let builds_to_migrate := take (limitRows bs) (merge_sort build_before (to_migrate c (pb_jobID bs))) in
  match builds_to_migrate with
  | [] => None
  | _ =>
      let ids := bd_id <$> builds_to_migrate in
      Some (set_migrated
        ((fun b => if bool_decide (bd_id b ∈ ids)
                   then {| bd_id := bd_id b; bd_job_id := bd_job_id b;
                           bd_succeeded := bd_succeeded b; bd_rerun_of := bd_rerun_of b;
                           bd_rerun_of_old := bd_rerun_of_old b;
                           bd_needs_v6_migration := false |}
                   else b) <$> t_builds c)
        (foldl (insert_migrated c) (t_successful_build_outputs c) builds_to_migrate)
        c)
  end.

(** The page query of [Next]: the builder's rows past the page boundary. *)
Definition page (bs : Pages) (c : Conn) : list BuildCursor :=
  let rows := select c (pb_builder bs) in
  let rows :=
    match last (pb_builds bs) with
    | Some pageBoundary => filter (fun p => OlderBuilds pageBoundary p = true) rows
    | None => rows
    end in
  cursor_of <$> take (limitRows bs) rows.

(** The [for] loop of [Next]; each round but the last migrates builds. *)
Fixpoint nextPage (fuel : nat) (bs : Pages) (c : Conn)
    : outcome error (option Pages * Conn) :=
  match fuel with
  | O => NoFuel
  | S fuel =>
      match page bs c with
      | [] =>
          match migrateLimit bs c with
          | None => Ret (None, c)
          | Some c => nextPage fuel bs c
          end
      | builds =>
          Ret (Some {| pb_builder := pb_builder bs; unusedBuilds := false;
                       pb_builds := builds; offset := 0; pb_jobID := pb_jobID bs;
                       limitRows := limitRows bs |}, c)
      end
  end.

(** [PaginatedBuilds.Next]: the build id (none at the end), the advanced
    cursor and the connection after any migration.  The number of builds
    still to migrate bounds the rounds of the loop. *)
Definition Pages_Next (bs : Pages) (c : Conn) : outcome error (option Z * Pages * Conn) :=
  '(pages, c) ←
    (if bool_decide (length (pb_builds bs) < offset bs + 1)%nat
     then nextPage (S (length (to_migrate c (pb_jobID bs)))) bs c
     else Ret (Some bs, c));
  match (pages : option Pages) with
  | None => Ret (None, bs, c)
  | Some bs =>
      build ← at_or_panic (pb_builds bs) (offset bs);
      Ret (Some (bc_ID build),
           {| pb_builder := pb_builder bs; unusedBuilds := unusedBuilds bs;
              pb_builds := pb_builds bs; offset := S (offset bs);
              pb_jobID := pb_jobID bs; limitRows := limitRows bs |}, c)
  end.

Definition Pages_HasNext (bs : Pages) : bool :=
  unusedBuilds bs && (0 <? Z.of_nat (length (pb_builds bs)) - Z.of_nat (offset bs) + 1).

(** ** The methods of [VersionsDB]

    Methods that only read take the connection and return their result; a
    database failure other than "no rows" does not occur over in-memory
    tables. *)
Definition errNoRows : error := "sql: no rows in result set".

Definition IsFirstOccurrence_sql (c : Conn) (jobID : Z) (inputName : string)
    (version : ResourceVersion) (resourceId : Z) : bool :=
  let builds_of_job := bd_id <$> filter (fun b => bd_job_id b = jobID) (t_builds c) in
  negb (existsb (fun i =>
    bool_decide (bv_build_id i ∈ builds_of_job) && String.eqb (bv_name i) inputName
    && String.eqb (bv_digest i) version && (bv_resource_id i =? resourceId)) (t_inputs c)).

Definition VersionIsDisabled_sql (c : Conn) (resourceID : Z) (version : ResourceVersion) : bool :=
  bool_decide ((resourceID, version) ∈ t_disabled c).

(** [version_digest IN (version_md5, version_sha256)] *)
Definition digest_matches (v : VersionRow) (digest : string) : bool :=
  String.eqb digest (rcv_sha256 v) || bool_decide (rcv_md5 v = Some digest).

Definition digest (v : VersionRow) : ResourceVersion := coalesce (rcv_md5 v) (rcv_sha256 v).

(** the versions of a resource that are not disabled *)
Definition enabled (c : Conn) (resourceID : Z) (v : VersionRow) : bool :=
  negb (existsb (fun '(r, d) => (r =? resourceID) && digest_matches v d) (t_disabled c)).

Definition check_order_desc (v w : VersionRow) : Prop := rcv_check_order w <= rcv_check_order v.
#[global] Instance check_order_desc_dec v w : Decision (check_order_desc v w).
Proof. unfold check_order_desc. apply _. Defined.
Definition check_order_asc (v w : VersionRow) : Prop := rcv_check_order v <= rcv_check_order w.
#[global] Instance check_order_asc_dec v w : Decision (check_order_asc v w).
Proof. unfold check_order_asc. apply _. Defined.

(** [(SELECT resource_config_scope_id FROM resources WHERE id = ?)]; a NULL
    scope or a missing resource matches no version *)
Definition versions_of (c : Conn) (resourceID : Z) : list VersionRow :=
  match t_resources c !! resourceID with
  | Some (Some scope) => filter (fun v => rcv_scope v = scope) (t_resource_config_versions c)
  | _ => []
  end.

(** [latestVersionOfResource] and [LatestVersionOfResource] (the transaction
    only reads) *)
Definition LatestVersionOfResource_sql (c : Conn) (resourceID : Z) : option ResourceVersion :=
  digest <$> head (merge_sort check_order_desc
    (filter (fun v => enabled c resourceID v = true) (versions_of c resourceID))).

(** [strconv.Atoi] *)
Fixpoint atoi_digits (acc : Z) (s : string) : option Z :=
  match s with
  | EmptyString => Some acc
  | String ch s =>
      match Ascii.is_nat ch with
      | Some d => atoi_digits (acc * 10 + Z.of_nat d) s
      | None => None
      end
  end.

Definition atoi (s : string) : option Z :=
  match s with
  | EmptyString => None
  | String "-"%char (String _ _ as s) => Z.opp <$> atoi_digits 0 s
  | String "+"%char (String _ _ as s) => atoi_digits 0 s
  | s => atoi_digits 0 s
  end.

Definition id_le (a b : Z * list string) : Prop := a.1 <= b.1.
#[global] Instance id_le_dec a b : Decision (id_le a b).
Proof. unfold id_le. apply _. Defined.

(** [SuccessfulBuildOutputs]: a build without a row is migrated first
    ([migrateSingle]) *)
Definition SuccessfulBuildOutputs_sql (c : Conn) (buildID : Z)
    : outcome error (list AlgorithmVersion) :=
  outputs ←
    (match list_find (fun o => ot_build_id o = buildID) (t_successful_build_outputs c) with
     | Some (_, o) => Ret (ot_outputs o)
     | None =>
         match aggregate_outputs c buildID with
         | Some out =>
             if bool_decide (buildID ∈ bd_id <$> t_builds c) then Ret out else Fail errNoRows
         | None => Fail errNoRows
         end
     end);
  byResourceID ←
    (match mapM (fun '(k, vs) => (fun r : Z => (r, vs : list string)) <$> atoi k)
             (map_to_list outputs) with
     | Some l => Ret l
     | None => Fail "strconv.Atoi: parsing: invalid syntax"
     end);
  Ret (concat
    ((fun '(r, vs) => (fun v => {| av_ResourceID := r; av_Version := v |}) <$> (vs : list string))
       <$> merge_sort id_le byResourceID)).

(** [VersionExists]: digests shorter than a hex SHA-256 are looked up in the
    MD5 column *)
Definition VersionExists_sql (c : Conn) (resourceID : Z) (version : ResourceVersion) : bool :=
  existsb (fun v =>
    if (String.length version <? 64)%nat
    then bool_decide (rcv_md5 v = Some version)
    else String.eqb (rcv_sha256 v) version) (versions_of c resourceID).

(** [FindVersionOfResource]: [rcv.version @> versionJSON] *)
Definition FindVersionOfResource_sql (c : Conn) (resourceID : Z) (v : Version)
    : option ResourceVersion :=
  digest <$> head (filter (fun row => v ⊆ rcv_version row) (versions_of c resourceID)).

(** the input rows of the builds of a job *)
Definition inputs_of_job (c : Conn) (jobID resourceID : Z) : list BuildVersionRow :=
  filter (fun i => bv_resource_id i = resourceID /\
    bv_build_id i ∈ bd_id <$> filter (fun b => bd_job_id b = jobID) (t_builds c)) (t_inputs c).

Definition used_versions (c : Conn) (jobID resourceID : Z) : list VersionRow :=
  merge_sort check_order_desc
    (filter (fun v => existsb (fun i => digest_matches v (bv_digest i))
                        (inputs_of_job c jobID resourceID) = true)
       (versions_of c resourceID)).

(** [NextEveryVersion]: (version, hasNext) *)
Definition NextEveryVersion_sql (c : Conn) (jobID resourceID : Z)
    : option (ResourceVersion * bool) :=
  match used_versions c jobID resourceID with
  | [] => (fun v => (v, false)) <$> LatestVersionOfResource_sql c resourceID
  | used :: _ =>
      let checkOrder := rcv_check_order used in
      let avail := filter (fun v => enabled c resourceID v = true) (versions_of c resourceID) in
      match take 2 (merge_sort check_order_asc
                      (filter (fun v => checkOrder < rcv_check_order v) avail)) with
      | next :: more => Some (digest next, match more with [] => false | _ => true end)
      | [] =>
          (fun v => (digest v, false)) <$>
            head (merge_sort check_order_desc
              (filter (fun v => rcv_check_order v <= checkOrder) avail))
      end
  end.

(** [LatestBuildPipes]: the source builds of a build, by job *)
Definition LatestBuildPipes_sql (c : Conn) (buildID : Z) : gmap Z BuildCursor :=
  foldl (fun m '(from, _) =>
      match list_find (fun b => bd_id b = from) (t_builds c) with
      | Some (_, b) => <[bd_job_id b := cursor_of (build_page_row b)]> m
      | None => m
      end) ∅ (filter (fun '(_, to) => to = buildID) (t_pipes c)).

Definition LatestBuildUsingLatestVersion_sql (c : Conn) (jobID resourceID : Z) : option Z :=
  match used_versions c jobID resourceID with
  | [] => None
  | v :: _ =>
      bv_build_id <$> head (filter (fun i => digest_matches v (bv_digest i) = true)
                              (inputs_of_job c jobID resourceID))
  end.

Definition oldest_first (a b : BuildRow) : Prop := build_before b a.
#[global] Instance oldest_first_dec a b : Decision (oldest_first a b).
Proof. unfold oldest_first. apply _. Defined.

(** [newerBuilds]: oldest first *)
Definition newerBuilds (c : Conn) (jobID : Z) (lastUsed : BuildCursor) : list BuildCursor :=
  (fun b => cursor_of (build_page_row b)) <$>
    merge_sort oldest_first
      (filter (fun b => bd_job_id b = jobID /\ bd_succeeded b = true /\ NewerBuilds lastUsed b = true)
         (t_builds c)).

Definition SuccessfulBuilds_sql (limit : nat) (jobID : Z) : Pages :=
  {| pb_builder := SelectBuilds jobID None; unusedBuilds := false; pb_builds := [];
     offset := 0; pb_jobID := jobID; limitRows := limit |}.

Definition SuccessfulBuildsVersionConstrained_sql (limit : nat) (jobID : Z)
    (constraints : gmap string (list string)) : Pages :=
  {| pb_builder := SelectOutputs jobID constraints None; unusedBuilds := false;
     pb_builds := []; offset := 0; pb_jobID := jobID; limitRows := limit |}.

Definition UnusedBuilds_sql (limit : nat) (c : Conn) (jobID : Z) (lastUsed : BuildCursor) : Pages :=
  {| pb_builder := SelectBuilds jobID (Some lastUsed); unusedBuilds := true;
     pb_builds := newerBuilds c jobID lastUsed; offset := 0; pb_jobID := jobID;
     limitRows := limit |}.

Definition UnusedBuildsVersionConstrained_sql (limit : nat) (c : Conn) (jobID : Z)
    (lastUsed : BuildCursor) (constraints : gmap string (list string)) : Pages :=
  {| pb_builder := SelectOutputs jobID constraints (Some lastUsed); unusedBuilds := true;
     pb_builds := newerBuilds c jobID lastUsed; offset := 0; pb_jobID := jobID;
     limitRows := limit |}.

(** ** The interface over fixed, migrated tables

    Scheduling reads the tables; the instance fixes their contents, and
    [Next] drops the connection it returns, which is unchanged when no build
    awaits migration ([Pages_Next_conn]). *)
Definition migrated (c : Conn) : Prop :=
  Forall (fun b => bd_needs_v6_migration b = false) (t_builds c).

Definition tables_db (limit : nat) (c : Conn) : VersionsDB := {|
  PaginatedBuilds := Pages;
  Next := fun pb => '(b, pb, _) ← Pages_Next pb c; Ret (b, pb);
  HasNext := Pages_HasNext;
  IsFirstOccurrence := fun j n v r => Ret (IsFirstOccurrence_sql c j n v r);
  VersionIsDisabled := fun r v => Ret (VersionIsDisabled_sql c r v);
  LatestVersionOfResource := fun r => Ret (LatestVersionOfResource_sql c r);
  SuccessfulBuilds := SuccessfulBuilds_sql limit;
  SuccessfulBuildsVersionConstrained := fun j k =>
    Ret (SuccessfulBuildsVersionConstrained_sql limit j k);
  SuccessfulBuildOutputs := SuccessfulBuildOutputs_sql c;
  VersionExists := fun r v => Ret (VersionExists_sql c r v);
  FindVersionOfResource := fun r v => Ret (FindVersionOfResource_sql c r v);
  NextEveryVersion := fun j r => Ret (NextEveryVersion_sql c j r);
  LatestBuildPipes := fun b => Ret (LatestBuildPipes_sql c b);
  LatestBuildUsingLatestVersion := fun j r => Ret (LatestBuildUsingLatestVersion_sql c j r);
  UnusedBuilds := fun j b => Ret (UnusedBuilds_sql limit c j b);
  UnusedBuildsVersionConstrained := fun j b k =>
    Ret (UnusedBuildsVersionConstrained_sql limit c j b k);
|}.
