(* ===== verification/BuildTablesSpec.v ===== *)
(** * Pagination lists every build once, in order

    [Pages_Next] fetches a page at a time and remembers only the last build
    of the current page; the next page is what is [OlderBuilds] than it.  The
    theorems of this file show that paging is invisible: whatever the row
    limit, the cursor yields the rows of the unpaged query in its order.  The
    laws [VersionsDBLaws] and [VersionsDBReturns] follow for [tables_db]. *)
From S2P Require Import Prelude VersionsDB BuildTables.
From stdpp Require Import base gmap sets list strings sorting.
From Stdlib Require Import ZArith Lia.
Open Scope Z_scope.

(** ** Well-formed rows *)

(** A rerun is younger than what it reruns, and the sort key is the one the
    [WHERE] clauses of [OlderBuilds] compute (no unmigrated [rerun_of_old]). *)
Record row_wf (p : PageRow) : Prop := {
  rw_col : pg_rerun_col p = pg_rerun p;
  rw_key : pg_key p = coalesce (pg_rerun p) (pg_id p);
  rw_lt : forall o, pg_rerun p = Some o -> o < pg_id p;
}.

Record rows_wf (rows : list PageRow) : Prop := {
  rs_rows : Forall row_wf rows;
  rs_ids : NoDup (pg_id <$> rows);
  rs_flat : forall p q, p ∈ rows -> q ∈ rows -> pg_rerun p = Some (pg_id q) -> pg_rerun q = None;
}.

#[global] Instance page_before_trans : Transitive page_before.
Proof. intros p q r. unfold page_before, newest_first. cbn. lia. Qed.
#[global] Instance page_before_total : Total page_before.
Proof. intros p q. unfold page_before, newest_first. cbn. lia. Qed.

#[global] Instance oldest_first_trans : Transitive oldest_first.
Proof. intros a b d. unfold oldest_first, build_before, page_before, newest_first. cbn. lia. Qed.
#[global] Instance oldest_first_total : Total oldest_first.
Proof. intros a b. unfold oldest_first, build_before, page_before, newest_first. cbn. lia. Qed.

(** [OlderBuilds] is "strictly later in the query's order". *)
Lemma older_iff p q :
  row_wf p -> row_wf q -> (pg_rerun p = Some (pg_id q) -> pg_rerun q = None) ->
  (pg_id p = pg_id q -> pg_rerun p = pg_rerun q) ->
  OlderBuilds (cursor_of p) q = true <-> page_before p q /\ pg_id p <> pg_id q.
Proof.
  intros [_ Hkp Hlp] [Hcq Hkq Hlq] Hflat Hsame.
  unfold OlderBuilds, page_before, newest_first; cbn. rewrite Hcq, Hkp, Hkq.
  destruct (pg_rerun p) as [o|]; cbn; [specialize (Hlp o eq_refl)|].
  - destruct (pg_rerun q) as [o'|]; cbn; [specialize (Hlq o' eq_refl)|].
    + assert (pg_id q <> o) by (intros Hq; rewrite Hq in Hflat; by specialize (Hflat eq_refl)).
      rewrite !orb_true_iff, andb_true_iff, bool_decide_eq_true, !Z.ltb_lt, Z.eqb_eq.
      split; [|intros [[?|[-> ?]] ?]; [by left; left|right; split; [done|lia]]].
      intros [[?|?]|[[= ->] ?]]; [|lia..]. split; [lia|].
      intros Hid. specialize (Hsame Hid). simplify_eq. lia.
    + rewrite !orb_true_iff, andb_true_iff, !Z.ltb_lt, Z.eqb_eq, bool_decide_eq_true.
      split; [intros [[?|?]|[? _]]; [lia|lia|done]|]. intros [[?|?] ?]; left; lia.
  - rewrite Z.ltb_lt. destruct (pg_rerun q) as [o'|]; cbn; [specialize (Hlq o' eq_refl)|lia].
    assert (pg_id p <> pg_id q) by (intros Hid; discriminate (Hsame Hid)). lia.
Qed.

(** ... and what is older than a cursor is a suffix of the order. *)
Lemma older_closed x p q :
  row_wf p -> row_wf q -> page_before p q ->
  OlderBuilds x p = true -> OlderBuilds x q = true.
Proof.
  intros [Hcp Hkp Hlp] [Hcq Hkq Hlq]. unfold OlderBuilds, page_before, newest_first; cbn.
  rewrite Hcp, Hcq, Hkp, Hkq.
  destruct (bc_RerunOf x) as [o|]; cbn; [|rewrite !Z.ltb_lt; lia].
  rewrite !orb_true_iff, !andb_true_iff, !bool_decide_eq_true, !Z.ltb_lt, !Z.eqb_eq.
  destruct (pg_rerun p) as [op|]; cbn; [specialize (Hlp op eq_refl)|];
    (destruct (pg_rerun q) as [oq|]; cbn; [specialize (Hlq oq eq_refl)|]);
    intros Hb [[?|?]|[? ?]]; simplify_eq; try lia.
  all: destruct (decide (oq = o)) as [->|]; [right; split; [done|lia]|left; lia].
Qed.

(** ** Suffixes of a sorted list *)

Lemma filter_suffix {A} (R : relation A) (f : A -> bool) (l : list A) :
  StronglySorted R l ->
  (forall x y, x ∈ l -> y ∈ l -> R x y -> f x = true -> f y = true) ->
  exists pre, l = pre ++ filter (fun x => f x = true) l.
Proof.
  induction 1 as [|x l Hl IH Hx]; intros Hf; [by exists []|].
  destruct (f x) eqn:Hfx.
  - exists []. change ([] ++ ?k) with k. symmetry. apply filter_all. constructor; [done|].
    rewrite Forall_forall in Hx |- *. intros y Hy.
    apply (Hf x y); [left|by right|by apply Hx|done].
  - destruct IH as [pre IH]; [intros y z ? ?; apply Hf; by right|].
    exists (x :: pre). rewrite filter_cons_False by congruence. cbn. by f_equal.
Qed.

Lemma select_sorted c bld : StronglySorted page_before (select c bld).
Proof. unfold select. destruct bld; apply (StronglySorted_merge_sort page_before). Qed.

Lemma rows_wf_same rows p q :
  rows_wf rows -> p ∈ rows -> q ∈ rows -> pg_id p = pg_id q -> p = q.
Proof.
  intros [_ Hnd _] (i & Hi)%list_elem_of_lookup (j & Hj)%list_elem_of_lookup Hid.
  assert (i = j); [|congruence].
  eapply NoDup_lookup; [done|by rewrite list_lookup_fmap, Hi|].
  rewrite list_lookup_fmap, Hj. cbn. by f_equal.
Qed.

(** The rows older than a row of the query are those after it. *)
Lemma older_after c bld l1 x l2 :
  rows_wf (select c bld) -> select c bld = l1 ++ x :: l2 ->
  filter (fun p => OlderBuilds (cursor_of x) p = true) (select c bld) = l2.
Proof.
  intros Hwf Heq. assert (Hs := select_sorted c bld).
  assert (Hold : forall p, p ∈ select c bld ->
    OlderBuilds (cursor_of x) p = true <-> page_before x p /\ pg_id x <> pg_id p).
  { intros p Hp. assert (Hx : x ∈ select c bld) by (rewrite Heq; set_solver).
    destruct Hwf as [Hrows Hids Hflat]. rewrite Forall_forall in Hrows.
    apply older_iff; [by apply Hrows|by apply Hrows|by apply Hflat|].
    intros Hid. by rewrite (rows_wf_same (select c bld) x p ltac:(by split; try apply Forall_forall) Hx Hp Hid). }
  assert (Hnd := rs_ids _ Hwf). rewrite Heq in Hs, Hold, Hnd |- *. clear Heq Hwf.
  rewrite fmap_app, fmap_cons in Hnd.
  apply NoDup_app in Hnd as (_ & Hdisj & [Hx _]%NoDup_cons).
  apply StronglySorted_app in Hs as (Hl1 & _ & [Hl2 _]%StronglySorted_cons).
  rewrite filter_app, filter_cons_False.
  2: { rewrite Hold by set_solver. intros [_ []]. done. }
  rewrite (filter_none _ l1), (filter_all _ l2); [done| |].
  - rewrite Forall_forall in Hl2 |- *. intros p Hp. apply Hold; [set_solver|].
    split; [by apply Hl2|]. intros Hid. apply Hx. rewrite Hid. by apply list_elem_of_fmap_2.
  - rewrite Forall_forall. intros p Hp. rewrite Hold by set_solver.
    intros [Hxp Hid]. specialize (Hl1 p x Hp ltac:(set_solver)).
    apply Hid. unfold page_before, newest_first in *. cbn in *. lia.
Qed.

(** ** One step of a cursor *)

(** The rows past the current page, and all the builds still to come. *)
Definition rest (bs : Pages) (c : Conn) : list PageRow :=
  match last (pb_builds bs) with
  | Some b => filter (fun p => OlderBuilds b p = true) (select c (pb_builder bs))
  | None => select c (pb_builder bs)
  end.

Definition pending (bs : Pages) (c : Conn) : list BuildCursor :=
  drop (offset bs) (pb_builds bs) ++ (cursor_of <$> rest bs c).

Record pages_ok (bs : Pages) (c : Conn) : Prop := {
  po_rows : rows_wf (select c (pb_builder bs));
  po_offset : (offset bs <= length (pb_builds bs))%nat;
  po_limit : (0 < limitRows bs)%nat;
}.

Lemma rest_suffix bs c :
  rows_wf (select c (pb_builder bs)) -> exists pre, select c (pb_builder bs) = pre ++ rest bs c.
Proof.
  intros [Hrows _ _]. unfold rest. destruct (last (pb_builds bs)) as [b|]; [|by exists []].
  apply (filter_suffix page_before); [apply select_sorted|].
  rewrite Forall_forall in Hrows. intros x y Hx Hy. apply older_closed; auto.
Qed.

(** Loading a page moves its rows from [rest] to [pb_builds]. *)
Lemma rest_page bs c n o :
  rows_wf (select c (pb_builder bs)) -> rest bs c <> [] -> (0 < n)%nat ->
  rest {| pb_builder := pb_builder bs; unusedBuilds := false;
          pb_builds := cursor_of <$> take n (rest bs c); offset := o;
          pb_jobID := pb_jobID bs; limitRows := limitRows bs |} c = drop n (rest bs c).
Proof.
  intros Hwf Hne Hn. destruct (rest_suffix bs c Hwf) as [pre Hpre].
  unfold rest at 1; cbn [pb_builds pb_builder]. rewrite fmap_last.
  destruct (last (take n (rest bs c))) as [x|] eqn:Hlast.
  - cbn. apply last_Some in Hlast as [l1 Hl1].
    eapply (older_after c _ (pre ++ l1)); [done|].
    by rewrite Hpre, <- (take_drop n (rest bs c)) at 1; rewrite Hl1, <- !app_assoc.
  - apply last_None in Hlast. destruct (rest bs c); [done|]. by destruct n; [lia|].
Qed.

Lemma migrated_to_migrate c j : migrated c -> to_migrate c j = [].
Proof.
  intros Hm. apply filter_none. eapply Forall_impl; [exact Hm|]. cbn. intros b Hb.
  rewrite Hb. naive_solver.
Qed.

Lemma migrated_migrateLimit bs c : migrated c -> migrateLimit bs c = None.
Proof. intros Hm. unfold migrateLimit. rewrite migrated_to_migrate by done. cbn. by rewrite take_nil. Qed.

(** On migrated tables [Next] yields the first pending build and leaves the
    others pending. *)
Lemma Pages_Next_spec bs c :
  migrated c -> pages_ok bs c ->
  match pending bs c with
  | [] => Pages_Next bs c = Ret (None, bs, c)
  | b :: l => exists bs', Pages_Next bs c = Ret (Some (bc_ID b), bs', c) /\
      pages_ok bs' c /\ pending bs' c = l /\ pb_builder bs' = pb_builder bs
  end.
Proof.
  intros Hm [Hrows Hoff Hlim]. unfold Pages_Next, pending. case_bool_decide as Ho.
  - rewrite drop_ge by lia. rewrite (migrated_to_migrate c) by done. cbn [nextPage length app].
    assert (Hpage : page bs c = cursor_of <$> take (limitRows bs) (rest bs c)).
    { unfold page, rest. by destruct (last (pb_builds bs)). }
    rewrite Hpage. destruct (rest bs c) as [|x l] eqn:Hrest.
    { rewrite take_nil. cbn. by rewrite migrated_migrateLimit. }
    assert (Hnext := rest_page bs c (limitRows bs) 1 Hrows ltac:(by rewrite Hrest) Hlim).
    rewrite Hrest in Hnext. destruct (limitRows bs) as [|n] eqn:Hn; [lia|]. cbn in Hnext |- *.
    eexists. split; [done|]. split_and!; cbn; [|by rewrite Hnext, drop_0, <- fmap_app, take_drop|done].
    split; cbn; [done|lia|lia].
  - assert (Hlt : (offset bs < length (pb_builds bs))%nat) by lia.
    destruct (lookup_lt_is_Some_2 _ _ Hlt) as [b Hb].
    rewrite (drop_S _ _ _ Hb). cbn. unfold at_or_panic. rewrite Hb. cbn.
    eexists. split; [done|]. split_and!; cbn; [|done|done]. split; cbn; [done|lia|done].
Qed.

(** ** Draining a cursor *)

(** Call [Next] until it reports the end. *)
Fixpoint drain (fuel : nat) (bs : Pages) (c : Conn) : outcome error (list Z) :=
  match fuel with
  | O => NoFuel
  | S fuel =>
      '(b, bs, c) ← Pages_Next bs c;
      match (b : option Z) with
      | None => Ret []
      | Some b => l ← drain fuel bs c; Ret (b :: l)
      end
  end.

Lemma drain_pending fuel bs c :
  migrated c -> pages_ok bs c -> (length (pending bs c) < fuel)%nat ->
  drain fuel bs c = Ret (bc_ID <$> pending bs c).
Proof.
  intros Hm. revert bs. induction fuel as [|fuel IH]; intros bs Hok Hlt; [lia|].
  assert (Hnext := Pages_Next_spec bs c Hm Hok). cbn.
  destruct (pending bs c) as [|b l] eqn:Hp; [by rewrite Hnext|].
  destruct Hnext as (bs' & -> & Hok' & Hp' & _). cbn in *.
  rewrite IH; [|done|rewrite Hp'; lia]. by rewrite Hp'.
Qed.

(** The succeeded builds of a job, as rows and as pages. *)
Definition succeeded_builds (c : Conn) (j : Z) : list BuildRow :=
  filter (fun b => bd_job_id b = j /\ bd_succeeded b = true) (t_builds c).

Record job_wf (c : Conn) (j : Z) : Prop := {
  jw_rows : rows_wf (build_page_row <$> succeeded_builds c j);
  jw_old : Forall (fun b => bd_rerun_of_old b = None) (succeeded_builds c j);
}.

Lemma rows_wf_perm l l' : l ≡ₚ l' -> rows_wf l -> rows_wf l'.
Proof.
  intros Hp [Hr Hn Hf]. split.
  - by rewrite <- Hp.
  - by rewrite <- Hp.
  - intros p q. rewrite <- Hp. apply Hf.
Qed.

Lemma rows_wf_filter (P : PageRow -> Prop) `{!forall p, Decision (P p)} l :
  rows_wf l -> rows_wf (filter P l).
Proof.
  intros [Hr Hn Hf]. split.
  - rewrite Forall_forall in Hr |- *. intros p [_ Hp]%list_elem_of_filter. by apply Hr.
  - by apply NoDup_fmap_filter.
  - intros p q [_ Hp]%list_elem_of_filter [_ Hq]%list_elem_of_filter. by apply Hf.
Qed.

Lemma select_builds_wf c j since : job_wf c j -> rows_wf (select c (SelectBuilds j since)).
Proof.
  intros [H _]. eapply rows_wf_perm; [symmetry; apply merge_sort_Permutation|].
  by apply rows_wf_filter.
Qed.

Lemma sorted_rows_fmap (l : list BuildRow) :
  StronglySorted page_before (build_page_row <$> l) -> StronglySorted build_before l.
Proof.
  induction l as [|b l IH]; cbn; [constructor|].
  rewrite StronglySorted_cons, Forall_fmap. intros [Hb Hl]. constructor; eauto.
Qed.

(** A sorted query over [builds] comes from a permutation of the rows. *)
Lemma select_builds_rows c j since :
  exists rows, select c (SelectBuilds j since) = build_page_row <$> rows /\
    rows ≡ₚ filter (fun b => since_ok since (build_page_row b) = true) (succeeded_builds c j) /\
    StronglySorted build_before rows.
Proof.
  assert (Hp : select c (SelectBuilds j since) ≡ₚ build_page_row <$>
    filter (fun b => since_ok since (build_page_row b) = true) (succeeded_builds c j)).
  { cbn. rewrite merge_sort_Permutation. fold (succeeded_builds c j).
    by rewrite filter_fmap. }
  apply Permutation_map_inv in Hp as (rows & Heq & Hperm).
  exists rows. split_and!; [done|done|]. apply sorted_rows_fmap.
  change (map build_page_row rows) with (build_page_row <$> rows) in Heq.
  rewrite <- Heq. apply select_sorted.
Qed.

Lemma SuccessfulBuilds_pending limit c j :
  pending (SuccessfulBuilds_sql limit j) c = cursor_of <$> select c (SelectBuilds j None).
Proof. done. Qed.

(** Paging through [SuccessfulBuilds] with any positive row limit yields
    every succeeded build of the job exactly once, newest first. *)
Theorem SuccessfulBuilds_pages limit c j :
  migrated c -> job_wf c j -> (0 < limit)%nat ->
  exists rows, rows ≡ₚ succeeded_builds c j /\ StronglySorted build_before rows /\
    drain (S (length (succeeded_builds c j))) (SuccessfulBuilds_sql limit j) c
      = Ret (bd_id <$> rows).
Proof.
  intros Hm Hwf Hlim. destruct (select_builds_rows c j None) as (rows & Hsel & Hperm & Hsort).
  rewrite filter_all in Hperm by (by apply Forall_true).
  exists rows. split_and!; [done|done|].
  assert (Hp : pending (SuccessfulBuilds_sql limit j) c = cursor_of <$> (build_page_row <$> rows))
    by (by rewrite SuccessfulBuilds_pending, Hsel).
  rewrite drain_pending, Hp; [by rewrite <- !list_fmap_compose|done| |].
  - split; [by apply select_builds_wf|done|done].
  - rewrite Hp, !length_fmap, Hperm. lia.
Qed.

Lemma bool_decide_Some (a b : Z) `{!Decision (Some a = Some b)} :
  bool_decide (Some a = Some b) = (a =? b).
Proof. destruct (Z.eqb_spec a b); case_bool_decide; congruence. Qed.
Lemma bool_decide_None (b : Z) `{!Decision (None = Some b)} : bool_decide (None = Some b) = false.
Proof. by apply bool_decide_eq_false. Qed.

(** A build is newer than the last used one, or in the other listing. *)
Lemma newer_iff u b :
  row_wf (build_page_row u) -> row_wf (build_page_row b) ->
  bd_rerun_of_old u = None -> bd_rerun_of_old b = None ->
  bd_rerun_of b <> Some (bd_id u) ->
  (bd_rerun_of u = Some (bd_id b) -> bd_rerun_of b = None) ->
  (bd_id u = bd_id b -> bd_rerun_of u = bd_rerun_of b) ->
  NewerBuilds (cursor_of (build_page_row u)) b
  = negb (since_ok (Some (cursor_of (build_page_row u))) (build_page_row b)).
Proof.
  intros [_ _ Hlu] [_ _ Hlb] Hou Hob Hno Hflat Hsame.
  unfold NewerBuilds, since_ok, OlderBuilds. cbn in *. rewrite Hou, Hob in *.
  destruct (bd_rerun_of u) as [o|]; cbn; [specialize (Hlu o eq_refl)|];
    (destruct (bd_rerun_of b) as [o'|]; cbn; [specialize (Hlb o' eq_refl)|]);
    rewrite ?bool_decide_Some, ?bool_decide_None.
  - assert (o <> bd_id b) by (intros ->; by specialize (Hflat eq_refl)).
    assert (bd_id u = bd_id b -> o = o') by (intros Hid; by injection (Hsame Hid)). lia.
  - assert (bd_id u <> bd_id b) by (intros Hid; discriminate (Hsame Hid)). lia.
  - assert (bd_id u <> bd_id b) by (intros Hid; discriminate (Hsame Hid)).
    assert (o' <> bd_id u) by congruence. lia.
  - lia.
Qed.

Section Unused.
Context (c : Conn) (j : Z) (Hwf : job_wf c j).
Context (u : BuildRow) (Hu : u ∈ succeeded_builds c j).
Context (Hfinal : forall b, b ∈ succeeded_builds c j -> bd_rerun_of b <> Some (bd_id u)).

Local Abbreviation lastUsed := (cursor_of (build_page_row u)).
Local Abbreviation is_newer b := (NewerBuilds lastUsed b).
Local Abbreviation is_older b := (since_ok (Some lastUsed) (build_page_row b)).

Lemma job_row_same a b :
  a ∈ succeeded_builds c j -> b ∈ succeeded_builds c j -> bd_id a = bd_id b ->
  build_page_row a = build_page_row b.
Proof.
  intros Ha Hb Hid. apply (rows_wf_same (build_page_row <$> succeeded_builds c j));
    [by apply jw_rows|by apply list_elem_of_fmap_2..|done].
Qed.

Lemma job_row_older a b :
  a ∈ succeeded_builds c j -> b ∈ succeeded_builds c j ->
  OlderBuilds (cursor_of (build_page_row a)) (build_page_row b) = true <->
  build_before a b /\ bd_id a <> bd_id b.
Proof.
  intros Ha Hb. destruct (jw_rows _ _ Hwf) as [Hr Hn Hf]. rewrite Forall_forall in Hr.
  apply older_iff; [by apply Hr, list_elem_of_fmap_2..| |].
  - apply Hf; by apply list_elem_of_fmap_2.
  - intros Hid. by rewrite (job_row_same a b Ha Hb Hid).
Qed.

Lemma newer_not_older b : b ∈ succeeded_builds c j -> is_newer b = negb (is_older b).
Proof.
  intros Hb. destruct Hwf as [[Hr Hn Hf] Ho]. rewrite Forall_forall in Hr. rewrite Forall_forall in Ho.
  assert (Hrow : forall a, a ∈ succeeded_builds c j -> pg_rerun (build_page_row a) = bd_rerun_of a).
  { intros a Ha. cbn. rewrite (Ho a Ha). by destruct (bd_rerun_of a). }
  apply newer_iff; [by apply Hr, list_elem_of_fmap_2..|by apply Ho|by apply Ho|by apply Hfinal| |].
  - rewrite <- !Hrow by done. apply (Hf (build_page_row u) (build_page_row b));
      by apply list_elem_of_fmap_2.
  - intros Hid. rewrite <- !Hrow by done. by rewrite (job_row_same u b Hu Hb Hid).
Qed.

(** Newer builds come before the last used one and older ones after it. *)
Lemma newer_before_older n o :
  n ∈ succeeded_builds c j -> o ∈ succeeded_builds c j ->
  is_newer n = true -> is_older o = true -> build_before n o /\ bd_id n <> bd_id o.
Proof.
  intros Hn Ho Hnew Hold.
  assert (Hnold : is_older n = false) by (rewrite newer_not_older in Hnew by done; by destruct (is_older n)).
  split.
  - assert (Huo : build_before u o).
    { unfold since_ok in Hold. apply orb_true_iff in Hold as [Hid|Hold].
      - apply Z.eqb_eq in Hid. unfold build_before.
        rewrite (job_row_same u o Hu Ho (eq_sym Hid)). right. cbn. lia.
      - by apply job_row_older in Hold as [? _]. }
    unfold since_ok in Hnold. apply orb_false_iff in Hnold as [Hid Hnold].
    apply Z.eqb_neq in Hid. cbn in Hid.
    assert (~ build_before u n).
    { intros Hun. rewrite (proj2 (job_row_older u n Hu Hn)) in Hnold; [done|by split]. }
    destruct (total page_before (build_page_row n) (build_page_row u)) as [H1|H1]; [|done].
    unfold build_before in *. by etrans.
  - intros Hid. rewrite (job_row_same n o Hn Ho Hid) in Hnold. congruence.
Qed.

End Unused.

Lemma newerBuilds_rows c j lastUsed :
  exists newer, newerBuilds c j lastUsed = (fun b => cursor_of (build_page_row b)) <$> newer /\
    newer ≡ₚ filter (fun b => NewerBuilds lastUsed b = true) (succeeded_builds c j) /\
    StronglySorted oldest_first newer.
Proof.
  eexists. split; [reflexivity|]. split.
  - rewrite merge_sort_Permutation. unfold succeeded_builds. rewrite list_filter_filter.
    erewrite list_filter_iff; [reflexivity|]. naive_solver.
  - apply (StronglySorted_merge_sort oldest_first).
Qed.

(** [UnusedBuilds], started at the last used build [u], lists the builds
    newer than it (oldest first), then [u] and the older ones (newest first):
    all the succeeded builds of the job, unless [u] has been rerun. *)
Theorem UnusedBuilds_pages limit c j u :
  migrated c -> job_wf c j -> (0 < limit)%nat ->
  u ∈ succeeded_builds c j ->
  (forall b, b ∈ succeeded_builds c j -> bd_rerun_of b <> Some (bd_id u)) ->
  exists newer older,
    newer ++ older ≡ₚ succeeded_builds c j /\
    StronglySorted oldest_first newer /\ StronglySorted build_before older /\
    (forall n o, n ∈ newer -> o ∈ older -> build_before n o /\ bd_id n <> bd_id o) /\
    u ∈ older /\ (forall o, o ∈ older -> build_before u o) /\
    drain (S (length (succeeded_builds c j)))
      (UnusedBuilds_sql limit c j (cursor_of (build_page_row u))) c
    = Ret (bd_id <$> newer ++ older).
Proof.
  intros Hm Hwf Hlim Hu Hfinal.
  destruct (newerBuilds_rows c j (cursor_of (build_page_row u))) as (newer & Hnew & Hnperm & Hnsort).
  destruct (select_builds_rows c j (Some (cursor_of (build_page_row u))))
    as (older & Hold & Hoperm & Hosort).
  assert (Hn : forall n, n ∈ newer -> n ∈ succeeded_builds c j /\
    NewerBuilds (cursor_of (build_page_row u)) n = true).
  { intros n. rewrite Hnperm, list_elem_of_filter. tauto. }
  assert (Ho : forall o, o ∈ older -> o ∈ succeeded_builds c j /\
    since_ok (Some (cursor_of (build_page_row u))) (build_page_row o) = true).
  { intros o. rewrite Hoperm, list_elem_of_filter. tauto. }
  assert (Hord : forall n o, n ∈ newer -> o ∈ older -> build_before n o /\ bd_id n <> bd_id o).
  { intros n o [? ?]%Hn [? ?]%Ho. by apply (newer_before_older c j Hwf u Hu Hfinal). }
  assert (Hperm : newer ++ older ≡ₚ succeeded_builds c j).
  { rewrite Hnperm, Hoperm.
    rewrite <- (filter_app_complement
      (fun b => NewerBuilds (cursor_of (build_page_row u)) b = true) (succeeded_builds c j)) at 3.
    apply Permutation_app; [done|]. apply reflexive_eq, filter_iff_in. intros b Hb.
    rewrite (newer_not_older c j Hwf u Hu Hfinal b Hb). by destruct (since_ok _ _). }
  exists newer, older. split_and!; try done.
  - rewrite Hoperm, list_elem_of_filter. split; [|done]. cbn. by rewrite Z.eqb_refl.
  - intros o [Hoj Hoo]%Ho. unfold since_ok in Hoo.
    apply orb_true_iff in Hoo as [Hid%Z.eqb_eq|Hoo].
    + unfold build_before. rewrite (job_row_same c j Hwf u o Hu Hoj (eq_sym Hid)). right. cbn. lia.
    + by apply (job_row_older c j Hwf u o Hu Hoj) in Hoo as [? _].
  - set (pb := UnusedBuilds_sql _ _ _ _).
    assert (Hp : pending pb c = (fun b => cursor_of (build_page_row b)) <$> newer ++ older).
    { unfold pending. cbn [offset pb_builds pb UnusedBuilds_sql]. rewrite drop_0, Hnew, fmap_app.
      f_equal. unfold rest. cbn [pb_builds pb_builder pb UnusedBuilds_sql].
      rewrite Hnew, fmap_last, Hold. destruct (last newer) as [m|] eqn:Hlast;
        cbn -[cursor_of build_page_row]; [|by rewrite <- list_fmap_compose].
      rewrite filter_all, <- list_fmap_compose; [done|].
      apply last_Some in Hlast as [l ->]. apply Forall_fmap, Forall_forall. intros o Hoo.
      assert (Hmo := Hord m o ltac:(set_solver) Hoo).
      apply (job_row_older c j Hwf m o); [|by apply Ho|done]. apply Hn. set_solver. }
    rewrite drain_pending, Hp; [by rewrite <- list_fmap_compose|done| |].
    + split; [by apply select_builds_wf|cbn; lia|done].
    + rewrite Hp, length_fmap, Hperm. lia.
Qed.

(** ** The laws of the interface, for well-formed tables *)

Record tables_wf (c : Conn) : Prop := {
  tw_migrated : migrated c;
  tw_builds : rows_wf (build_page_row <$> t_builds c);
  tw_old : Forall (fun b => bd_rerun_of_old b = None) (t_builds c);
  tw_outputs : rows_wf (output_page_row <$> t_successful_build_outputs c);
  tw_output_builds : Forall (fun o => Exists (fun b =>
      bd_id b = ot_build_id o /\ bd_job_id b = ot_job_id o /\ bd_succeeded b = true) (t_builds c))
    (t_successful_build_outputs c);
}.

Lemma rows_wf_fmap_filter {A} (f : A -> PageRow) (P : A -> Prop) `{!forall x, Decision (P x)} l :
  rows_wf (f <$> l) -> rows_wf (f <$> filter P l).
Proof.
  intros [Hr Hn Hf].
  assert (Hin : forall p, p ∈ f <$> filter P l -> p ∈ f <$> l).
  { intros p (x & -> & [_ Hx]%list_elem_of_filter)%list_elem_of_fmap. by apply list_elem_of_fmap_2. }
  split.
  - rewrite Forall_forall in Hr |- *. auto.
  - rewrite <- list_fmap_compose in *. by apply NoDup_fmap_filter.
  - intros p q Hp Hq. apply Hf; auto.
Qed.

Section Laws.
Context (limit : nat) (c : Conn) (Hlim : (0 < limit)%nat) (Hwf : tables_wf c).

Lemma tables_job_wf j : job_wf c j.
Proof.
  split; [by apply rows_wf_fmap_filter, tw_builds|].
  assert (Ho := tw_old _ Hwf). rewrite Forall_forall in Ho |- *.
  intros b [_ Hb]%list_elem_of_filter. auto.
Qed.

Lemma tables_select_wf bld : rows_wf (select c bld).
Proof.
  destruct bld as [j since|j k since]; [by apply select_builds_wf, tables_job_wf|].
  eapply rows_wf_perm; [symmetry; apply merge_sort_Permutation|].
  apply rows_wf_filter, rows_wf_fmap_filter. by apply tw_outputs.
Qed.

Definition succeeded_build (j b : Z) : Prop :=
  exists row, row ∈ succeeded_builds c j /\ bd_id row = b.

Definition builder_job (bld : builder) : Z :=
  match bld with SelectBuilds j _ | SelectOutputs j _ _ => j end.

Lemma select_succeeded bld p :
  p ∈ select c bld -> succeeded_build (builder_job bld) (pg_id p).
Proof.
  destruct bld as [j since|j k since]; cbn; rewrite merge_sort_Permutation;
    intros [_ (x & -> & Hx)%list_elem_of_fmap]%list_elem_of_filter.
  - exists x. done.
  - apply list_elem_of_filter in Hx as [[<- _] Hx].
    assert (Hob := tw_output_builds _ Hwf). rewrite Forall_forall in Hob.
    apply Hob, Exists_exists in Hx as (b & Hb & Hid & Hjob & Hs).
    exists b. split; [|done]. apply list_elem_of_filter. done.
Qed.

Lemma newerBuilds_succeeded j u b :
  b ∈ newerBuilds c j u -> succeeded_build j (bc_ID b).
Proof.
  destruct (newerBuilds_rows c j u) as (newer & -> & Hp & _).
  intros (x & -> & Hx)%list_elem_of_fmap. rewrite Hp in Hx.
  apply list_elem_of_filter in Hx as [_ Hx]. by exists x.
Qed.

Definition bound : nat :=
  (length (t_builds c) + (length (t_builds c) + length (t_successful_build_outputs c)))%nat.

Definition tables_lists (j : Z) (pb : Pages) : Prop :=
  pages_ok pb c /\ (forall b, b ∈ pending pb c -> succeeded_build j (bc_ID b)) /\
  (length (pending pb c) <= bound)%nat.

Lemma length_filter_le {A} (P : A -> Prop) `{!forall x, Decision (P x)} (l : list A) :
  (length (filter P l) <= length l)%nat.
Proof. apply sublist_length, sublist_filter. Qed.

Lemma length_select bld :
  (length (select c bld) <= length (t_builds c) + length (t_successful_build_outputs c))%nat.
Proof.
  destruct bld; cbn; rewrite merge_sort_Permutation;
    (etrans; [apply length_filter_le|]); rewrite length_fmap;
    (etrans; [apply length_filter_le|]); lia.
Qed.

Lemma tables_lists_init bld u builds f :
  builds = [] \/ builds = newerBuilds c (builder_job bld) u ->
  tables_lists (builder_job bld)
    {| pb_builder := bld; unusedBuilds := f; pb_builds := builds; offset := 0;
       pb_jobID := builder_job bld; limitRows := limit |}.
Proof.
  intros Hb. set (pb := {| pb_builder := bld |}).
  destruct (rest_suffix pb c (tables_select_wf bld)) as [pre Hpre].
  change (pb_builder pb) with bld in Hpre.
  split_and!.
  - split; [apply tables_select_wf|cbn; lia|done].
  - intros b [Hin|(p & -> & Hp)%list_elem_of_fmap]%elem_of_app.
    + cbn in Hin. destruct Hb as [->| ->]; [by apply elem_of_nil in Hin|].
      by eapply newerBuilds_succeeded.
    + apply (select_succeeded bld). rewrite Hpre. set_solver.
  - unfold pending, bound. rewrite length_app, length_fmap, length_drop. cbn [offset pb pb_builds].
    assert (length builds <= length (t_builds c))%nat.
    { destruct Hb as [->| ->]; [cbn; lia|]. unfold newerBuilds.
      rewrite length_fmap, merge_sort_Permutation. apply length_filter_le. }
    assert (Hlen := length_select bld). rewrite Hpre, length_app in Hlen. lia.
Qed.

Lemma Pages_Next_lists j pb b pb' c' :
  tables_lists j pb -> Pages_Next pb c = Ret (Some b, pb', c') ->
  succeeded_build j b /\ tables_lists j pb' /\
  (length (pending pb' c) < length (pending pb c))%nat.
Proof.
  intros (Hok & Hs & Hl) Hnext.
  assert (Hspec := Pages_Next_spec pb c (tw_migrated _ Hwf) Hok).
  destruct (pending pb c) as [|x l] eqn:Hp; [congruence|].
  destruct Hspec as (pb1 & Heq & Hok1 & Hp1 & _). rewrite Hnext in Heq. simplify_eq.
  split_and!; [apply Hs; set_solver| |cbn; lia].
  split_and!; [done|intros; apply Hs; set_solver|cbn in Hl; lia].
Qed.

(** [migrated] tables are not changed by [Next], and it returns. *)
Lemma Pages_Next_conn pb : exists b pb', Pages_Next pb c = Ret (b, pb', c).
Proof.
  unfold Pages_Next. rewrite (migrated_to_migrate c) by apply tw_migrated, Hwf.
  case_bool_decide as Ho; cbn [nextPage length].
  - rewrite migrated_migrateLimit by apply tw_migrated, Hwf.
    destruct (page pb c) as [|x l]; cbn; eauto.
  - cbn. destruct (lookup_lt_is_Some_2 (pb_builds pb) (offset pb)) as [x Hx]; [lia|].
    unfold at_or_panic. rewrite Hx. cbn. eauto.
Qed.

Definition tables_laws : VersionsDBLaws (tables_db limit c).
Proof.
  refine (Build_VersionsDBLaws (tables_db limit c) succeeded_build tables_lists
    (fun pb => length (pending pb c)) bound _ _ _ _ _ _ _).
  - intros j pb b pb' Hl H. cbn in H. apply bind_Ret in H as ([[? ?] ?] & H & ?). simplify_eq.
    by apply Pages_Next_lists with (1 := Hl) in H as (? & ? & _).
  - intros j pb b pb' Hl H. cbn in H. apply bind_Ret in H as ([[? ?] ?] & H & ?). simplify_eq.
    by apply Pages_Next_lists with (1 := Hl) in H as (_ & _ & ?).
  - by intros j pb (_ & _ & ?).
  - intros j. apply (tables_lists_init (SelectBuilds j None) (Build_BuildCursor 0 None)). by left.
  - intros j k pb [= <-].
    apply (tables_lists_init (SelectOutputs j k None) (Build_BuildCursor 0 None)). by left.
  - intros j b pb [= <-]. apply (tables_lists_init (SelectBuilds j (Some b)) b). by right.
  - intros j b k pb [= <-]. apply (tables_lists_init (SelectOutputs j k (Some b)) b). by right.
Defined.

Lemma tables_returns : VersionsDBReturns (tables_db limit c).
Proof.
  split; try done.
  - intros pb. cbn. destruct (Pages_Next_conn pb) as (b & pb' & ->). done.
  - intros b. cbn. unfold SuccessfulBuildOutputs_sql.
    apply returns_bind; [by repeat case_match|]. intros outs _.
    apply returns_bind; [by case_match|done].
Qed.
End Laws.

(** ** A small database

    Job 7 has three succeeded builds of which the third reruns the second;
    resource 10 has versions "v1" and "v2"; job 9 used version "v1", that came
    from build 1. *)
Definition example_build (id : Z) (rerun_of : option Z) : BuildRow :=
  {| bd_id := id; bd_job_id := 7; bd_succeeded := true; bd_rerun_of := rerun_of;
     bd_rerun_of_old := None; bd_needs_v6_migration := false |}.
Definition example_output (id : Z) (rerun_of : option Z) (v : string) : OutputRow :=
  {| ot_build_id := id; ot_job_id := 7; ot_outputs := {["10" := [v]]}; ot_rerun_of := rerun_of |}.
Definition example_version (v : string) (order : Z) : VersionRow :=
  {| rcv_scope := 1; rcv_version := {["ref" := v]}; rcv_md5 := Some v; rcv_sha256 := "";
     rcv_check_order := order |}.
Definition example_conn : Conn := {|
  t_builds := [example_build 1 None; example_build 2 None; example_build 3 (Some 2);
    {| bd_id := 4; bd_job_id := 9; bd_succeeded := true; bd_rerun_of := None;
       bd_rerun_of_old := None; bd_needs_v6_migration := false |}];
  t_successful_build_outputs :=
    [example_output 1 None "v1"; example_output 2 None "v2"; example_output 3 (Some 2) "v2"];
  t_resource_config_versions := [example_version "v1" 1; example_version "v2" 2];
  t_resources := {[10 := Some 1]};
  t_disabled := [];
  t_inputs := [{| bv_build_id := 4; bv_resource_id := 10; bv_digest := "v1"; bv_name := "in" |}];
  t_outputs := [];
  t_pipes := [(1, 4)];
|}.

(** [rows_wf] is decided by this test. *)
Definition row_wfb (p : PageRow) : bool :=
  bool_decide (pg_rerun_col p = pg_rerun p) && (pg_key p =? coalesce (pg_rerun p) (pg_id p)) &&
  match pg_rerun p with Some o => o <? pg_id p | None => true end.
Definition rows_wfb (rows : list PageRow) : bool :=
  forallb row_wfb rows && bool_decide (NoDup (pg_id <$> rows)) &&
  forallb (fun p => forallb (fun q =>
    negb (bool_decide (pg_rerun p = Some (pg_id q))) || bool_decide (pg_rerun q = None)) rows) rows.

Lemma rows_wfb_sound rows : rows_wfb rows = true -> rows_wf rows.
Proof.
  unfold rows_wfb. rewrite !andb_true_iff, !forallb_forall, bool_decide_eq_true.
  intros [[Hr Hn] Hf]. split; [|done|].
  - apply Forall_forall. intros p Hp%list_elem_of_In%Hr. unfold row_wfb in Hp. go_bool.
    split; [done|done|]. intros o Ho. rewrite Ho in *. lia.
  - intros p q Hp%list_elem_of_In Hq%list_elem_of_In Hrer.
    specialize (Hf p Hp). rewrite forallb_forall in Hf. specialize (Hf q Hq).
    rewrite Hrer, bool_decide_true in Hf by done. cbn in Hf. by apply bool_decide_eq_true in Hf.
Qed.

Lemma example_wf : tables_wf example_conn.
Proof.
  split.
  - repeat constructor.
  - apply rows_wfb_sound. vm_compute. reflexivity.
  - repeat constructor.
  - apply rows_wfb_sound. vm_compute. reflexivity.
  - apply (bool_decide_eq_true_1 _). vm_compute. reflexivity.
Qed.

Lemma example_job_wf : job_wf example_conn 7.
Proof. by apply tables_job_wf, example_wf. Qed.

(** The theorems at the example, with pages of one row. *)
Lemma SuccessfulBuilds_pages_witness :
  exists rows, rows ≡ₚ succeeded_builds example_conn 7 /\ StronglySorted build_before rows /\
    drain 4 (SuccessfulBuilds_sql 1 7) example_conn = Ret (bd_id <$> rows).
Proof.
  apply (SuccessfulBuilds_pages 1 example_conn 7);
    [apply tw_migrated, example_wf|apply example_job_wf|lia].
Defined.

Example SuccessfulBuilds_pages_ex :
  drain 4 (SuccessfulBuilds_sql 1 7) example_conn = Ret [3; 2; 1].
Proof. vm_compute. reflexivity. Qed.

Lemma UnusedBuilds_pages_witness :
  exists newer older,
    newer ++ older ≡ₚ succeeded_builds example_conn 7 /\
    StronglySorted oldest_first newer /\ StronglySorted build_before older /\
    (forall n o, n ∈ newer -> o ∈ older -> build_before n o /\ bd_id n <> bd_id o) /\
    example_build 1 None ∈ older /\ (forall o, o ∈ older -> build_before (example_build 1 None) o) /\
    drain 4 (UnusedBuilds_sql 1 example_conn 7 (cursor_of (build_page_row (example_build 1 None))))
      example_conn = Ret (bd_id <$> newer ++ older).
Proof.
  apply (UnusedBuilds_pages 1 example_conn 7 (example_build 1 None)).
  - apply tw_migrated, example_wf.
  - apply example_job_wf.
  - lia.
  - vm_compute. by left.
  - intros b Hb. vm_compute in Hb. set_solver.
Defined.

(** Three successful builds, the last a rerun recorded in the old column. *)
Definition old_rerun_conn : Conn := {|
  t_builds := [example_build 1 None; example_build 2 None;
    {| bd_id := 3; bd_job_id := 7; bd_succeeded := true; bd_rerun_of := None;
       bd_rerun_of_old := Some 1; bd_needs_v6_migration := false |}];
  t_successful_build_outputs := []; t_resource_config_versions := []; t_resources := ∅;
  t_disabled := []; t_inputs := []; t_outputs := []; t_pipes := [] |}.

(** [OlderBuilds] reads only the column [rerun_of], but the queries over
    [builds] are ordered by [rerun_of_old] as well: paging skips a build whose
    rerun is still recorded in the old column. *)
Theorem rerun_of_old_skipped :
  pg_id <$> select old_rerun_conn (SelectBuilds 7 None) = [2; 3; 1] /\
  drain 4 (SuccessfulBuilds_sql 1 7) old_rerun_conn = Ret [2; 1].
Proof. vm_compute. done. Qed.
