(* ===== verification/GroupResolver.v ===== *)
(** * The group resolver (atc/scheduler/algorithm/group_resolver.go)

    [groupResolver] chooses versions for a set of inputs with [passed]
    constraints: a backtracking search over the successful builds of the
    passed jobs.  Its mutable fields are the record [groupResolver]; every
    method is a function from that record to an [outcome] with the new
    record. *)
From S2P Require Import Prelude VersionsDB.
From stdpp Require Import base gmap sets list strings sorting pretty.
From Stdlib Require Import ZArith Lia.
Open Scope Z_scope.

(** ** Version candidates *)

(** [VouchedForBy map[int]bool] only ever stores [true]: a set.  Candidates
    are never mutated once they are shared, so pointers to them are [option]
    values. *)
Record versionCandidate := {
  vc_Version : ResourceVersion;
  VouchedForBy : gset Z;
  SourceBuildIds : list Z;
  HasNextEveryVersion : bool;
}.

Definition newCandidateVersion (version : ResourceVersion) : versionCandidate :=
  {| vc_Version := version; VouchedForBy := ∅; SourceBuildIds := [];
     HasNextEveryVersion := false |}.

(** ** State

    [inputConfigs] never changes and is an argument of the methods; the
    remaining fields of the Go struct that the code uses are these. *)
Record groupResolver := {
  pins : list ResourceVersion;
  candidates : list (option versionCandidate);
  doomedCandidates : list (option versionCandidate);
  lastUsedPassedBuilds : option (gmap Z BuildCursor);
}.

Definition NewGroupResolver (inputConfigs : InputConfigs) : groupResolver :=
  {| pins := replicate (length inputConfigs) "";
     candidates := replicate (length inputConfigs) None;
     doomedCandidates := replicate (length inputConfigs) None;
     lastUsedPassedBuilds := None |}.

Definition set_pins p r :=
  {| pins := p; candidates := candidates r; doomedCandidates := doomedCandidates r;
     lastUsedPassedBuilds := lastUsedPassedBuilds r |}.
Definition set_candidates c r :=
  {| pins := pins r; candidates := c; doomedCandidates := doomedCandidates r;
     lastUsedPassedBuilds := lastUsedPassedBuilds r |}.
Definition set_lastUsed l r :=
  {| pins := pins r; candidates := candidates r; doomedCandidates := doomedCandidates r;
     lastUsedPassedBuilds := l |}.

(** ** Helpers without database access *)

Definition orderJobs (jobIDs : JobSet) : list Z :=
  merge_sort Z.le (elements jobIDs).

Definition vouchForCandidate (oldCandidate : option versionCandidate)
    (version : ResourceVersion) (passedJobID passedBuildID : Z) (hasNext : bool)
    : versionCandidate :=
  let newCandidate :=
    match oldCandidate with
    | Some old =>
        {| vc_Version := version; VouchedForBy := VouchedForBy old;
           SourceBuildIds := SourceBuildIds old;
           HasNextEveryVersion := HasNextEveryVersion old |}
    | None => newCandidateVersion version
    end in
  {| vc_Version := vc_Version newCandidate;
     VouchedForBy := {[passedJobID]} ∪ VouchedForBy newCandidate;
     SourceBuildIds := SourceBuildIds newCandidate ++ [passedBuildID];
     HasNextEveryVersion := HasNextEveryVersion newCandidate || hasNext |}.

Definition doomCandidates (r : groupResolver) : groupResolver :=
  {| pins := pins r; candidates := candidates r; doomedCandidates := candidates r;
     lastUsedPassedBuilds := lastUsedPassedBuilds r |}.

Definition same_doom (c doomed : option versionCandidate) : bool :=
  match c, doomed with
  | None, None => true
  | Some c, Some doomed => bool_decide (vc_Version c = vc_Version doomed)
  | _, _ => false
  end.

Definition candidatesAreDoomed (r : groupResolver) : bool :=
  forallb (fun '(c, doomed) => same_doom c doomed)
    (zip (candidates r) (doomedCandidates r)).

Definition constrainingCandidates (inputConfigs : InputConfigs) (r : groupResolver)
    (passedJobID : Z) : gmap string (list string) :=
  foldl (fun acc '(passedInput, candidate) =>
      match candidate with
      | Some c =>
          if bool_decide (passedJobID ∈ Passed passedInput)
          then let resID := pretty (ResourceID passedInput) in
               <[resID := default [] (acc !! resID) ++ [vc_Version c]]> acc
          else acc
      | None => acc
      end) ∅ (zip inputConfigs (candidates r)).

(** Undo the vouching of a build: [for c, candidate := range restore]. *)
Definition restoreCandidates (restore : gmap nat (option versionCandidate))
    (cands : list (option versionCandidate)) : list (option versionCandidate) :=
  imap (fun c candidate =>
    match restore !! c with Some old => old | None => candidate end) cands.

Section Resolver.
Context {db : VersionsDB}.
Context (inputConfigs : InputConfigs).

(** ** Methods *)

(** [outputIsRelatedAndMatches]: (related, mismatch). *)
Definition outputIsRelatedAndMatches (r : groupResolver) (output : AlgorithmVersion)
    (candidateIdx : nat) (passedJobID : Z) : outcome error (bool * bool) :=
  inputConfig ← at_or_panic inputConfigs candidateIdx;
  candidate ← at_or_panic (candidates r) candidateIdx;
  if negb (ResourceID inputConfig =? av_ResourceID output) then Ret (false, false)
  else if negb (bool_decide (passedJobID ∈ Passed inputConfig)) then Ret (false, false)
  else if match candidate with
          | Some c => negb (String.eqb (vc_Version c) (av_Version output))
          | None => false
          end then Ret (false, true)
  else
    disabled ← VersionIsDisabled (av_ResourceID output) (av_Version output);
    if (disabled : bool) then Ret (false, false)
    else
      match PinnedVersion inputConfig with
      | Some _ =>
          pin ← at_or_panic (pins r) candidateIdx;
          if negb (String.eqb pin (av_Version output)) then Ret (false, false)
          else Ret (true, false)
      | None => Ret (true, false)
      end.

(** [paginatedBuilds]: the builds to try, or [None] for "skip". *)
Definition paginatedBuilds (r : groupResolver) (currentInputConfig : InputConfig)
    (currentCandidate : option versionCandidate) (currentJobID passedJobID : Z)
    : outcome error (option PaginatedBuilds * groupResolver) :=
  let constraints := constrainingCandidates inputConfigs r passedJobID in
  let latest r :=
    match currentCandidate with
    | Some _ =>
        pb ← SuccessfulBuildsVersionConstrained passedJobID constraints;
        Ret (Some pb, r)
    | None => Ret (Some (SuccessfulBuilds passedJobID), r)
    end in
  if UseEveryVersion currentInputConfig then
    r ← match lastUsedPassedBuilds r with
        | Some _ => Ret r
        | None =>
            found ← LatestBuildUsingLatestVersion currentJobID (ResourceID currentInputConfig);
            match (found : option Z) with
            | Some buildID =>
                lastUsedBuildIDs ← LatestBuildPipes buildID;
                Ret (set_lastUsed (Some lastUsedBuildIDs) r)
            | None => Ret r
            end
        end;
    let relatedPassedBuilds : gmap Z BuildCursor :=
      filter (fun kv => kv.1 ∈ Passed currentInputConfig)
        (default ∅ (lastUsedPassedBuilds r)) in
    match relatedPassedBuilds !! passedJobID with
    | Some lastUsedBuild =>
        pb ← match currentCandidate with
             | Some _ => UnusedBuildsVersionConstrained passedJobID lastUsedBuild constraints
             | None => UnusedBuilds passedJobID lastUsedBuild
             end;
        Ret (Some pb, r)
    | None =>
        match currentCandidate with
        | None => if bool_decide (relatedPassedBuilds ≠ ∅) then Ret (None, r) else latest r
        | Some _ => latest r
        end
    end
  else latest r.

(** The loops of [tryBuildOutputs].  [scan] is their local state: the
    resolver, the [restore] map, [mismatch], and whether [break outputs] was
    executed. *)
Record scan := {
  sc_r : groupResolver;
  restore : gmap nat (option versionCandidate);
  mismatch : bool;
  broke : bool;
}.

(** [for c, candidate := range r.candidates], from index [c] on. *)
Fixpoint tryOutput (jobID buildID : Z) (hasNext : bool) (output : AlgorithmVersion)
    (cs : list nat) (s : scan) : outcome error scan :=
  match cs with
  | [] => Ret s
  | c :: cs =>
      match restore s !! c with
      | Some _ => tryOutput jobID buildID hasNext output cs s
      | None =>
          candidate ← at_or_panic (candidates (sc_r s)) c;
          '(related, mm) ← outputIsRelatedAndMatches (sc_r s) output c jobID;
          let s := {| sc_r := sc_r s; restore := restore s; mismatch := mm;
                      broke := broke s |} in
          let break := Ret {| sc_r := sc_r s; restore := restore s;
                              mismatch := mismatch s; broke := true |} in
          let vouch :=
            tryOutput jobID buildID hasNext output cs
              {| sc_r := set_candidates
                   (<[c := Some (vouchForCandidate candidate (av_Version output)
                                   jobID buildID hasNext)]> (candidates (sc_r s)))
                   (sc_r s);
                 restore := <[c := candidate]> (restore s);
                 mismatch := mismatch s; broke := broke s |} in
          if (mm : bool) then break
          else if negb related then tryOutput jobID buildID hasNext output cs s
          else match candidate with
               | None =>
                   exists_ ← VersionExists (av_ResourceID output) (av_Version output);
                   if negb exists_ then break else vouch
               | Some _ => vouch
               end
      end
  end.

(** [for _, output := range outputs] *)
Fixpoint tryOutputs (jobID buildID : Z) (hasNext : bool) (outputs : list AlgorithmVersion)
    (s : scan) : outcome error scan :=
  match outputs with
  | [] => Ret s
  | output :: outputs =>
      s ← tryOutput jobID buildID hasNext output
            (seq 0 (length (candidates (sc_r s)))) s;
      if broke s then Ret s else tryOutputs jobID buildID hasNext outputs s
  end.

(** A boolean returned with the resolver's new state. *)
Abbreviation call := (groupResolver -> outcome error (bool * groupResolver)) (only parsing).

Definition tryBuildOutputs (tryResolve : call) (resolvingIdx : nat) (jobID buildID : Z)
    (hasNext : bool) (r : groupResolver) : outcome error (bool * groupResolver) :=
  outputs ← SuccessfulBuildOutputs buildID;
  s ← tryOutputs jobID buildID hasNext outputs
        {| sc_r := r; restore := ∅; mismatch := false; broke := false |};
  let giveUp r := Ret (false, set_candidates (restoreCandidates (restore s) (candidates r)) r) in
  let r := sc_r s in
  candidate ← at_or_panic (candidates r) resolvingIdx;
  if match candidate with
     | Some c => bool_decide (jobID ∈ VouchedForBy c) && negb (mismatch s)
     | None => false
     end
  then
    if candidatesAreDoomed r then giveUp r
    else
      '(worked, r) ← tryResolve r;
      if (worked : bool) then Ret (true, r) else giveUp (doomCandidates r)
  else giveUp r.

(** [tryJobBuilds]: the loop over the builds of a passed job.  [fuel] bounds
    the builds it reads. *)
Fixpoint tryJobBuilds (tryResolve : call) (fuel : nat) (inputIndex : nat)
    (passedJobID : Z) (builds : PaginatedBuilds) (r : groupResolver)
    : outcome error (bool * groupResolver) :=
  match fuel with
  | O => NoFuel
  | S fuel =>
      '(build, builds) ← Next builds;
      match (build : option Z) with
      | None => Ret (false, r)
      | Some buildID =>
          '(worked, r) ← tryBuildOutputs tryResolve inputIndex passedJobID buildID
                           (HasNext builds) r;
          if (worked : bool) then Ret (true, r)
          else tryJobBuilds tryResolve fuel inputIndex passedJobID builds r
      end
  end.

(** [trySatisfyPassedConstraintsForInput]: the loop over the passed jobs. *)
Fixpoint tryJobs (tryResolve : call) (bfuel : nat) (inputIndex : nat)
    (inputConfig : InputConfig) (currentCandidate : option versionCandidate)
    (orderedJobs : list Z) (r : groupResolver) : outcome error (bool * groupResolver) :=
  match orderedJobs with
  | [] => Ret (true, r)
  | passedJobID :: orderedJobs =>
      if match currentCandidate with
         | Some c => bool_decide (passedJobID ∈ VouchedForBy c)
         | None => false
         end
      then tryJobs tryResolve bfuel inputIndex inputConfig currentCandidate orderedJobs r
      else
        '(builds, r) ← paginatedBuilds r inputConfig currentCandidate
                         (JobID inputConfig) passedJobID;
        match builds with
        | None => tryJobs tryResolve bfuel inputIndex inputConfig currentCandidate orderedJobs r
        | Some builds => tryJobBuilds tryResolve bfuel inputIndex passedJobID builds r
        end
  end.

Definition trySatisfyPassedConstraintsForInput (tryResolve : call) (bfuel : nat)
    (inputIndex : nat) (r : groupResolver)
    : outcome error (bool * ResolutionFailure * groupResolver) :=
  inputConfig ← at_or_panic inputConfigs inputIndex;
  currentCandidate ← at_or_panic (candidates r) inputIndex;
  '(worked, r) ← tryJobs tryResolve bfuel inputIndex inputConfig currentCandidate
                   (orderJobs (Passed inputConfig)) r;
  Ret (worked, if (worked : bool) then "" else NoSatisfiableBuilds, r).

(** The loop of [tryResolve] over the inputs. *)
Fixpoint tryInputs (tryResolve : call) (bfuel : nat) (inputs : list nat)
    (r : groupResolver) : outcome error (bool * ResolutionFailure * groupResolver) :=
  match inputs with
  | [] => Ret (true, "", r)
  | inputIndex :: inputs =>
      '(worked, failure, r) ←
        trySatisfyPassedConstraintsForInput tryResolve bfuel inputIndex r;
      if (worked : bool) then tryInputs tryResolve bfuel inputs r
      else Ret (false, failure, r)
  end.

(** [tryResolve]; [fuel] bounds the depth of its recursion through
    [tryBuildOutputs] (which ignores the inner failure). *)
Fixpoint tryResolve (bfuel fuel : nat) (r : groupResolver)
    : outcome error (bool * ResolutionFailure * groupResolver) :=
  match fuel with
  | O => NoFuel
  | S fuel =>
      tryInputs (fun r => '(worked, _, r) ← tryResolve bfuel fuel r; Ret (worked, r))
        bfuel (seq 0 (length inputConfigs)) r
  end.

(** The first loop of [Resolve]: look the pinned versions up; [inl] is the
    failure of a pin that does not exist. *)
Fixpoint resolvePins (i : nat) (cfgs : InputConfigs) (r : groupResolver)
    : outcome error (ResolutionFailure + groupResolver) :=
  match cfgs with
  | [] => Ret (inr r)
  | cfg :: cfgs =>
      match PinnedVersion cfg with
      | None => resolvePins (S i) cfgs r
      | Some v =>
          found ← FindVersionOfResource (ResourceID cfg) v;
          match (found : option ResourceVersion) with
          | None => Ret (inl (PinnedVersionNotFound v))
          | Some version => resolvePins (S i) cfgs (set_pins (<[i := version]> (pins r)) r)
          end
      end
  end.

(** [finalCandidates[input.Name] = r.candidates[i]] *)
Definition finalCandidates (r : groupResolver) : gmap string (option versionCandidate) :=
  foldl (fun m '(input, c) => <[Name input := c]> m) ∅ (zip inputConfigs (candidates r)).

(** [Resolve]: the candidates (a nil map when there is a failure) and the
    failure. *)
Definition group_Resolve (bfuel fuel : nat)
    : outcome error (gmap string (option versionCandidate) * ResolutionFailure) :=
  pinned ← resolvePins 0 inputConfigs (NewGroupResolver inputConfigs);
  match (pinned : ResolutionFailure + groupResolver) with
  | inl failure => Ret (∅, failure)
  | inr r =>
      '(resolved, failure, r) ← tryResolve bfuel fuel r;
      if (resolved : bool) then Ret (finalCandidates r, "") else Ret (∅, failure)
  end.

End Resolver.
