(* ===== verification/GroupResolverSpec.v ===== *)
(** * Correctness of the group resolver

    [inv] is the invariant of the search state: every candidate is backed by
    builds of the jobs that vouch for it.  The lemmas follow the call
    structure of [GroupResolver.v] bottom-up; each method preserves [inv],
    leaves the candidates as they were when it reports failure, and has
    satisfied every input when [tryResolve] reports success. *)
From S2P Require Import Prelude VersionsDB BuildTables BuildTablesSpec GroupResolver.
From stdpp Require Import base gmap sets list strings sorting.
From Stdlib Require Import ZArith Lia.
Open Scope Z_scope.

Lemma elem_of_orderJobs j jobs : j ∈ orderJobs jobs <-> j ∈ jobs.
Proof. unfold orderJobs. by rewrite merge_sort_Permutation, elem_of_elements. Qed.

Section Spec.
Context {db : VersionsDB} {laws : VersionsDBLaws db}.
Context (inputConfigs : InputConfigs).

(** [provides j b cfg v]: build [b] of job [j] succeeded and put out version
    [v] of the resource of input [cfg]. *)
Definition provides (j b : Z) (cfg : InputConfig) (v : ResourceVersion) : Prop :=
  succeeded j b /\
  exists outs, SuccessfulBuildOutputs b = Ret outs /\
    {| av_ResourceID := ResourceID cfg; av_Version := v |} ∈ outs.

(** A candidate for input [cfg] whose pin, if it has one, resolved to [pin]. *)
Record cand_ok (pin : ResourceVersion) (cfg : InputConfig) (c : versionCandidate) : Prop := {
  co_jobs : VouchedForBy c ⊆ Passed cfg;
  co_vouched : forall j, j ∈ VouchedForBy c ->
    exists b, b ∈ SourceBuildIds c /\ provides j b cfg (vc_Version c);
  co_sources : forall b, b ∈ SourceBuildIds c ->
    exists j, j ∈ VouchedForBy c /\ provides j b cfg (vc_Version c);
  co_enabled : VersionIsDisabled (ResourceID cfg) (vc_Version c) = Ret false;
  co_exists : VersionExists (ResourceID cfg) (vc_Version c) = Ret true;
  co_pin : PinnedVersion cfg <> None -> vc_Version c = pin;
}.

Record inv (r : groupResolver) : Prop := {
  inv_candidates : length (candidates r) = length inputConfigs;
  inv_pins : length (pins r) = length inputConfigs;
  inv_ok : forall i cfg pin c,
    inputConfigs !! i = Some cfg -> pins r !! i = Some pin ->
    candidates r !! i = Some (Some c) -> cand_ok pin cfg c;
}.

Definition vouched (c : option versionCandidate) : gset Z :=
  match c with Some c => VouchedForBy c | None => ∅ end.

(** Every input has a candidate that all of its passed jobs vouch for. *)
Definition solved (r : groupResolver) : Prop :=
  forall i cfg, inputConfigs !! i = Some cfg ->
    exists c, candidates r !! i = Some (Some c) /\ Passed cfg ⊆ VouchedForBy c.

(** What a call reports and what it did to the candidates. *)
Definition call_ok (r r' : groupResolver) (ok : bool) : Prop :=
  inv r' /\ pins r' = pins r /\
  if ok then solved r' else candidates r' = candidates r.

(** ** One build's outputs *)

Lemma related_spec r output i j mm :
  outputIsRelatedAndMatches inputConfigs r output i j = Ret (true, mm) ->
  mm = false /\
  exists cfg c, inputConfigs !! i = Some cfg /\ candidates r !! i = Some c /\
    ResourceID cfg = av_ResourceID output /\ j ∈ Passed cfg /\
    (forall c', c = Some c' -> vc_Version c' = av_Version output) /\
    VersionIsDisabled (ResourceID cfg) (av_Version output) = Ret false /\
    (PinnedVersion cfg <> None -> pins r !! i = Some (av_Version output)).
Proof.
  unfold outputIsRelatedAndMatches. intros H. go_cases.
  all: split; [done|]; do 2 eexists; repeat split; eauto; congruence.
Qed.

(** The state of the loops over a build's outputs, started in [r0]. *)
Record scan_ok (r0 : groupResolver) (s : scan) : Prop := {
  so_inv : inv (sc_r s);
  so_pins : pins (sc_r s) = pins r0;
  so_old : forall i old, restore s !! i = Some old -> candidates r0 !! i = Some old;
  so_new : forall i, restore s !! i = None ->
    candidates (sc_r s) !! i = candidates r0 !! i;
  so_mono : forall i old, candidates r0 !! i = Some old ->
    exists new, candidates (sc_r s) !! i = Some new /\ vouched old ⊆ vouched new;
}.

Lemma scan_ok_init r : inv r ->
  scan_ok r {| sc_r := r; restore := ∅; mismatch := false; broke := false |}.
Proof. split; cbn; eauto; set_solver. Qed.

Lemma scan_ok_flags r s m b : scan_ok r s ->
  scan_ok r {| sc_r := sc_r s; restore := restore s; mismatch := m; broke := b |}.
Proof. by intros []. Qed.

(** Vouching keeps a candidate backed by builds. *)
Lemma vouch_ok pin cfg c v j b n :
  (forall c', c = Some c' -> cand_ok pin cfg c' /\ vc_Version c' = v) ->
  j ∈ Passed cfg -> provides j b cfg v ->
  VersionIsDisabled (ResourceID cfg) v = Ret false ->
  VersionExists (ResourceID cfg) v = Ret true ->
  (PinnedVersion cfg <> None -> pin = v) ->
  cand_ok pin cfg (vouchForCandidate c v j b n).
Proof.
  intros Hc Hj Hb Hd He Hp.
  destruct c as [c|]; [destruct (Hc c eq_refl) as [[? Hv Hs] <-]|]; clear Hc;
    split; cbn; try done; try set_solver; try (intros; symmetry; auto; fail).
Qed.

Lemma scan_ok_vouch r s i cfg c v j b n m :
  scan_ok r s -> restore s !! i = None ->
  inputConfigs !! i = Some cfg -> candidates (sc_r s) !! i = Some c ->
  (forall c', c = Some c' -> vc_Version c' = v) ->
  j ∈ Passed cfg -> provides j b cfg v ->
  VersionIsDisabled (ResourceID cfg) v = Ret false ->
  VersionExists (ResourceID cfg) v = Ret true ->
  (PinnedVersion cfg <> None -> pins (sc_r s) !! i = Some v) ->
  scan_ok r
    {| sc_r := set_candidates (<[i := Some (vouchForCandidate c v j b n)]> (candidates (sc_r s))) (sc_r s);
       restore := <[i := c]> (restore s); mismatch := m; broke := broke s |}.
Proof.
  intros [[Hl Hp Hok] Hpins Hold Hnew Hmono] Hr Hcfg Hc Hv Hj Hb Hd He Hpin.
  assert (Hlt := lookup_lt_Some _ _ _ Hc).
  split; cbn.
  - split; cbn; [by rewrite length_insert|done|].
    intros k cfg' pin c' Hk Hpk Hck.
    destruct (decide (i = k)) as [<-|Hne].
    + rewrite list_lookup_insert_eq in Hck by done. simplify_eq.
      apply vouch_ok; try done; [|naive_solver congruence].
      intros c' ->. eauto.
    + rewrite list_lookup_insert_ne in Hck by done. eauto.
  - done.
  - intros k old Hk. destruct (decide (i = k)) as [<-|Hne]; simplify_map_eq; [|eauto].
    by rewrite <- Hnew.
  - intros k Hk. destruct (decide (i = k)) as [<-|Hne]; simplify_map_eq.
    rewrite list_lookup_insert_ne by done. eauto.
  - intros k old Hk. destruct (decide (i = k)) as [<-|Hne].
    + rewrite list_lookup_insert_eq by done. eexists; split; [done|].
      rewrite <- Hnew in Hk by done. simplify_eq. destruct c; cbn; set_solver.
    + rewrite list_lookup_insert_ne by done. eauto.
Qed.

(** A related output of the build vouches for its candidate. *)
Lemma scan_ok_related r s i c j b n output outs mm :
  scan_ok r s -> succeeded j b ->
  SuccessfulBuildOutputs b = Ret outs -> output ∈ outs ->
  restore s !! i = None -> candidates (sc_r s) !! i = Some c ->
  outputIsRelatedAndMatches inputConfigs (sc_r s) output i j = Ret (true, mm) ->
  (c = None -> VersionExists (av_ResourceID output) (av_Version output) = Ret true) ->
  scan_ok r
    {| sc_r := set_candidates
         (<[i := Some (vouchForCandidate c (av_Version output) j b n)]> (candidates (sc_r s)))
         (sc_r s);
       restore := <[i := c]> (restore s); mismatch := mm; broke := broke s |}.
Proof.
  intros Hs Hb Houts Hout Hr Hc Hrel He.
  apply related_spec in Hrel as (_ & cfg & c' & Hcfg & Hc' & Hres & Hj & Hv & Hd & Hpin).
  simplify_eq. eapply scan_ok_vouch; eauto.
  - split; [done|]. exists outs; split; [done|]. rewrite Hres. by destruct output.
  - destruct c as [c|]; [|rewrite Hres; auto].
    destruct (so_inv _ _ Hs) as [Hl Hp Hok].
    destruct (lookup_lt_is_Some_2 (pins (sc_r s)) i) as [pin Hpi].
    { rewrite Hp, <- Hl. by eapply lookup_lt_Some. }
    rewrite <- (Hv c eq_refl). by eapply co_exists, Hok.
Qed.

(** ** The loops over a build's outputs preserve [scan_ok] *)
Lemma tryOutput_ok r j b n output outs cs s s' :
  scan_ok r s -> succeeded j b ->
  SuccessfulBuildOutputs b = Ret outs -> output ∈ outs ->
  tryOutput inputConfigs j b n output cs s = Ret s' -> scan_ok r s'.
Proof.
  intros Hs Hb Houts Hout. revert s Hs.
  induction cs as [|i cs IH]; cbn; intros s Hs H; [by simplify_eq|].
  destruct (restore s !! i) as [?|] eqn:Hr; [eauto|].
  apply bind_Ret in H as (c & Hc & H). apply at_or_panic_Ret in Hc.
  apply bind_Ret in H as ([related mm] & Hrel & H).
  destruct mm; [simplify_eq; by apply scan_ok_flags|].
  destruct related; cbn in H; [|by eapply IH, H; apply scan_ok_flags].
  destruct c as [c|].
  - eapply IH, H. by eapply scan_ok_related.
  - apply bind_Ret in H as (e & He & H). destruct e; cbn in H.
    + eapply IH, H. by eapply scan_ok_related.
    + simplify_eq. by apply scan_ok_flags.
Qed.

Lemma tryOutputs_ok r j b n outs outputs s s' :
  scan_ok r s -> succeeded j b ->
  SuccessfulBuildOutputs b = Ret outs -> (forall o, o ∈ outputs -> o ∈ outs) ->
  tryOutputs inputConfigs j b n outputs s = Ret s' -> scan_ok r s'.
Proof.
  intros Hs Hb Houts. revert s Hs.
  induction outputs as [|o outputs IH]; cbn; intros s Hs Hsub H; [by simplify_eq|].
  apply bind_Ret in H as (s1 & H1 & H).
  assert (Hs1 : scan_ok r s1) by (eapply tryOutput_ok; eauto; set_solver).
  destruct (broke s1); [by simplify_eq|]. eapply IH; eauto. set_solver.
Qed.

Lemma scan_ok_restore r s : scan_ok r s ->
  restoreCandidates (restore s) (candidates (sc_r s)) = candidates r.
Proof.
  intros [_ _ Hold Hnew Hmono]. apply list_eq. intros i.
  unfold restoreCandidates. rewrite list_lookup_imap.
  destruct (restore s !! i) as [old|] eqn:Hr.
  - destruct (Hmono i old) as (new & -> & _); [eauto|]. cbn. by rewrite (Hold i old Hr).
  - rewrite Hnew by done. by destruct (candidates r !! i).
Qed.

(** ** The search *)

Lemma inv_same r r' : inv r ->
  pins r' = pins r -> candidates r' = candidates r -> inv r'.
Proof. intros [] Hp Hc. split; rewrite ?Hp, ?Hc; eauto. Qed.

(** A recursive call that behaves. *)
Definition rec_ok (rec : groupResolver -> outcome error (bool * groupResolver)) : Prop :=
  forall r ok r', inv r -> rec r = Ret (ok, r') -> call_ok r r' ok.

Lemma call_ok_undo r s r' :
  inv r -> scan_ok r s -> pins r' = pins (sc_r s) -> candidates r' = candidates (sc_r s) ->
  call_ok r (set_candidates (restoreCandidates (restore s) (candidates r')) r') false.
Proof.
  intros Hi Hs Hp Hc.
  assert (Hc' : restoreCandidates (restore s) (candidates r') = candidates r)
    by (rewrite Hc; by apply scan_ok_restore).
  assert (Hp' : pins r' = pins r) by (rewrite Hp; by apply so_pins).
  rewrite Hc'. split_and!; [by eapply inv_same|done|done].
Qed.

Lemma tryBuildOutputs_ok rec i j b n r ok r' :
  rec_ok rec -> inv r -> succeeded j b ->
  tryBuildOutputs inputConfigs rec i j b n r = Ret (ok, r') -> call_ok r r' ok.
Proof.
  unfold tryBuildOutputs. intros Hrec Hi Hb H.
  apply bind_Ret in H as (outs & Houts & H). apply bind_Ret in H as (s & Hs & H).
  assert (Hok : scan_ok r s) by (eapply tryOutputs_ok; eauto using scan_ok_init).
  apply bind_Ret in H as (c & _ & H).
  destruct (match c with Some c0 => _ | None => _ end).
  2: { simplify_eq. by eapply call_ok_undo. }
  destruct (candidatesAreDoomed _).
  { simplify_eq. by eapply call_ok_undo. }
  apply bind_Ret in H as ([worked r1] & Hr1 & H).
  apply Hrec in Hr1 as (Hi1 & Hp1 & Hr1); [|by eapply so_inv].
  destruct worked; simplify_eq.
  - split_and!; [done|by rewrite Hp1, (so_pins _ _ Hok)|done].
  - by eapply (call_ok_undo _ _ (doomCandidates r1)).
Qed.

Lemma tryJobBuilds_ok rec fuel i j pb r ok r' :
  rec_ok rec -> inv r -> lists j pb ->
  tryJobBuilds inputConfigs rec fuel i j pb r = Ret (ok, r') -> call_ok r r' ok.
Proof.
  intros Hrec. revert pb r. induction fuel as [|fuel IH]; cbn; intros pb r Hi Hpb H; [done|].
  apply bind_Ret in H as ([[b|] pb'] & Hnext & H); [|by simplify_eq].
  apply Next_lists with (j := j) in Hnext as [Hb Hpb']; [|done].
  apply bind_Ret in H as ([worked r1] & Hr1 & H).
  apply tryBuildOutputs_ok in Hr1 as (Hi1 & Hp1 & Hc1); try done.
  destruct worked; simplify_eq; [done|].
  apply IH in H as (Hi' & Hp' & Hr'); try done.
  split_and!; [done|congruence|]. destruct ok; [done|congruence].
Qed.

(** [paginatedBuilds] lists builds of the passed job, or defers to another
    passed job of which a build was used before. *)
Definition deferred (cfg : InputConfig) (c : option versionCandidate) (j : Z)
    (r : groupResolver) : Prop :=
  c = None /\ exists m, lastUsedPassedBuilds r = Some m /\ m !! j = None /\
    exists k, k ∈ Passed cfg /\ is_Some (m !! k).

Lemma paginatedBuilds_ok r cfg c cj j pb r' :
  j ∈ Passed cfg ->
  paginatedBuilds inputConfigs r cfg c cj j = Ret (pb, r') ->
  pins r' = pins r /\ candidates r' = candidates r /\
  (forall m, lastUsedPassedBuilds r = Some m -> lastUsedPassedBuilds r' = Some m) /\
  match pb with
  | Some pb => lists j pb
  | None => deferred cfg c j r'
  end.
Proof.
  unfold paginatedBuilds. intros Hj H.
  destruct (UseEveryVersion cfg).
  2: { destruct c; go_inv; eauto with go. }
  apply bind_Ret in H as (r1 & Hr1 & H).
  assert (pins r1 = pins r /\ candidates r1 = candidates r /\
    forall m, lastUsedPassedBuilds r = Some m -> lastUsedPassedBuilds r1 = Some m)
    as (Hp & Hc & Hl).
  { destruct (lastUsedPassedBuilds r) eqn:E; go_cases; split_and!; cbn; congruence. }
  destruct (_ !! j) as [b|] eqn:Hlast.
  { destruct c; go_inv; eauto with go. }
  destruct c; [go_inv; eauto with go|].
  destruct (bool_decide _) eqn:Hne; go_inv; eauto with go.
  split_and!; try done.
  apply bool_decide_eq_true, map_choose in Hne as (k & b & Hk).
  apply map_lookup_filter_Some in Hk as [Hk Hkp]; cbn in Hkp.
  destruct (lastUsedPassedBuilds r') as [m|] eqn:Hm; cbn in *; [|by rewrite lookup_empty in Hk].
  split; [done|]. exists m. split_and!; try done.
  - apply map_lookup_filter_None in Hlast as [?|Hlast]; [done|].
    destruct (m !! j) eqn:E; [|done]. by destruct (Hlast _ eq_refl).
  - exists k. split; [done|]. by eexists.
Qed.

(** [tryJobs] ends either in a recursive success, or without having touched
    the candidates after finding each job vouching or deferred. *)
Lemma tryJobs_ok rec bfuel i cfg c jobs r ok r' :
  rec_ok rec -> inv r -> (forall j, j ∈ jobs -> j ∈ Passed cfg) ->
  tryJobs inputConfigs rec bfuel i cfg c jobs r = Ret (ok, r') ->
  call_ok r r' ok \/
  (ok = true /\ inv r' /\ pins r' = pins r /\ candidates r' = candidates r /\
   (forall m, lastUsedPassedBuilds r = Some m -> lastUsedPassedBuilds r' = Some m) /\
   forall j, j ∈ jobs -> j ∈ vouched c \/ deferred cfg c j r').
Proof.
  intros Hrec. revert r. induction jobs as [|j jobs IH]; cbn; intros r Hi Hsub H.
  { simplify_eq. right. split_and!; try done. intros j Hj. by apply elem_of_nil in Hj. }
  destruct (match c with Some c0 => _ | None => _ end) eqn:Hv.
  - assert (Hvj : j ∈ vouched c) by (destruct c; [by apply bool_decide_eq_true in Hv|done]).
    destruct (IH r Hi ltac:(set_solver) H) as [?|(-> & ? & ? & ? & ? & Hall)]; [by left|right].
    split_and!; try done. intros j' [->|?]%elem_of_cons; eauto.
  - apply bind_Ret in H as ([pb r1] & Hpb & H).
    apply paginatedBuilds_ok in Hpb as (Hp1 & Hc1 & Hl1 & Hpb); [|set_solver].
    assert (Hi1 : inv r1) by (by eapply inv_same).
    destruct pb as [pb|].
    + left. apply tryJobBuilds_ok in H as (? & ? & H); try done.
      split_and!; [done|congruence|]. destruct ok; [done|congruence].
    + apply IH in H; [|done|set_solver].
      destruct H as [(? & ? & H)|(-> & ? & ? & ? & Hl & Hall)].
      * left. split_and!; [done|congruence|]. destruct ok; [done|congruence].
      * right. split_and!; try congruence; try done; [eauto|].
        intros j' [->|?]%elem_of_cons; [|eauto]. right.
        destruct Hpb as (-> & m & Hm & ? & ?). split; [done|]. exists m. eauto.
Qed.

(** The input at [i] has a candidate vouched for by all of its jobs. *)
Definition satisfied (r : groupResolver) (i : nat) : Prop :=
  forall cfg, inputConfigs !! i = Some cfg ->
    exists c, candidates r !! i = Some (Some c) /\ Passed cfg ⊆ VouchedForBy c.

Lemma trySatisfy_ok rec bfuel i r ok f r' :
  rec_ok rec -> inv r -> Forall (fun cfg => Passed cfg <> ∅) inputConfigs ->
  trySatisfyPassedConstraintsForInput inputConfigs rec bfuel i r = Ret (ok, f, r') ->
  (call_ok r r' ok \/
   (ok = true /\ inv r' /\ pins r' = pins r /\ candidates r' = candidates r /\ satisfied r' i)) /\
  f = (if ok then "" else NoSatisfiableBuilds).
Proof.
  unfold trySatisfyPassedConstraintsForInput. intros Hrec Hi Hne H.
  apply bind_Ret in H as (cfg & Hcfg & H). apply at_or_panic_Ret in Hcfg.
  apply bind_Ret in H as (c & Hc & H). apply at_or_panic_Ret in Hc.
  apply bind_Ret in H as ([worked r1] & H1 & H). simplify_eq. split; [|done].
  apply tryJobs_ok in H1; try done; [|by intros j; rewrite elem_of_orderJobs].
  destruct H1 as [?|(-> & Hi' & Hp & Hc' & Hl & Hall)]; [by left|right].
  split_and!; try done. intros cfg' ?; simplify_eq.
  assert (Hall' : forall j, j ∈ Passed cfg -> j ∈ vouched c \/ deferred cfg c j r').
  { intros j Hj. by apply Hall, elem_of_orderJobs. } clear Hall.
  rewrite Hc', Hc. destruct c as [c|].
  - exists c. split; [done|]. intros j Hj. destruct (Hall' j Hj) as [?|[? _]]; [done|discriminate].
  - exfalso. eapply Forall_lookup_1 in Hne; [|done]; cbn in Hne.
    apply set_choose_L in Hne as [j Hj].
    destruct (Hall' j Hj) as [?|(_ & m & Hm & _ & k & Hk & Hmk)]; [set_solver|].
    destruct (Hall' k Hk) as [?|(_ & m' & Hm' & Hmk' & _)]; [set_solver|].
    simplify_eq. rewrite Hmk' in Hmk. by destruct Hmk.
Qed.

(** Once every input is satisfied the remaining inputs pass unchanged. *)
Lemma tryJobs_vouched rec bfuel i cfg c jobs r :
  (forall j, j ∈ jobs -> j ∈ VouchedForBy c) ->
  tryJobs inputConfigs rec bfuel i cfg (Some c) jobs r = Ret (true, r).
Proof.
  induction jobs as [|j jobs IH]; cbn; intros H; [done|].
  rewrite bool_decide_eq_true_2 by set_solver. apply IH. set_solver.
Qed.

Lemma tryInputs_solved rec bfuel idxs r :
  solved r -> (forall i, i ∈ idxs -> i < length inputConfigs)%nat ->
  tryInputs inputConfigs rec bfuel idxs r = Ret (true, "", r).
Proof.
  intros Hs. induction idxs as [|i idxs IH]; cbn; intros Hlt; [done|].
  destruct (lookup_lt_is_Some_2 inputConfigs i) as [cfg Hcfg]; [apply Hlt; set_solver|].
  destruct (Hs i cfg Hcfg) as (c & Hc & Hp).
  unfold trySatisfyPassedConstraintsForInput, at_or_panic. rewrite Hcfg, Hc. cbn.
  rewrite tryJobs_vouched; cbn.
  - apply IH. intros; apply Hlt; set_solver.
  - intros j. rewrite elem_of_orderJobs. set_solver.
Qed.

Lemma tryInputs_ok rec bfuel idxs r ok f r' :
  rec_ok rec -> inv r -> Forall (fun cfg => Passed cfg <> ∅) inputConfigs ->
  (forall i, i ∈ idxs -> i < length inputConfigs)%nat ->
  (forall i, i ∉ idxs -> satisfied r i) ->
  tryInputs inputConfigs rec bfuel idxs r = Ret (ok, f, r') ->
  call_ok r r' ok /\ f = (if ok then "" else NoSatisfiableBuilds).
Proof.
  intros Hrec. revert r. induction idxs as [|i idxs IH]; cbn; intros r Hi Hne Hlt Hdone H.
  { simplify_eq. split; [|done]. split_and!; try done. intros i cfg. eapply Hdone. set_solver. }
  apply bind_Ret in H as ([[worked f1] r1] & H1 & H).
  apply trySatisfy_ok in H1 as [H1 ->]; try done.
  destruct worked; [|simplify_eq; by destruct H1 as [H1|[? _]]].
  destruct H1 as [(Hi1 & Hp1 & Hs1)|(_ & Hi1 & Hp1 & Hc1 & Hs1)].
  - rewrite tryInputs_solved in H by (done || set_solver). by simplify_eq.
  - apply IH in H as [(Hi' & Hp' & H) ->]; try done; [|set_solver|].
    + split; [|done]. split_and!; [done|congruence|]. destruct ok; [done|congruence].
    + intros i' Hi'. destruct (decide (i' = i)) as [->|Hd]; [done|].
      intros cfg Hcfg. rewrite Hc1. apply (Hdone i'); [set_solver|done].
Qed.

Lemma tryResolve_ok bfuel fuel r ok f r' :
  inv r -> Forall (fun cfg => Passed cfg <> ∅) inputConfigs ->
  tryResolve inputConfigs bfuel fuel r = Ret (ok, f, r') ->
  call_ok r r' ok /\ f = (if ok then "" else NoSatisfiableBuilds).
Proof.
  revert r ok f r'. induction fuel as [|fuel IH]; cbn; intros r ok f r' Hi Hne H; [done|].
  eapply tryInputs_ok; [..|exact H]; try done.
  - intros r1 ok1 r1' Hi1 H1. apply bind_Ret in H1 as ([[worked f1] r2] & H1 & ?).
    simplify_eq. by apply IH in H1 as [? _].
  - intros i. rewrite elem_of_seq. lia.
  - intros i Hnot cfg Hcfg%lookup_lt_Some. destruct Hnot. apply elem_of_seq. lia.
Qed.

(** ** The pins and the initial state *)

(** Every pin found so far is in [pins]. *)
Lemma resolvePins_ok i cfgs r res :
  drop i inputConfigs = cfgs -> length (pins r) = length inputConfigs ->
  resolvePins i cfgs r = Ret res ->
  match res with
  | inl f => exists cfg v, cfg ∈ cfgs /\ PinnedVersion cfg = Some v /\
      FindVersionOfResource (ResourceID cfg) v = Ret None /\ f = PinnedVersionNotFound v
  | inr r' => candidates r' = candidates r /\ length (pins r') = length (pins r) /\
      (forall k, (k < i)%nat -> pins r' !! k = pins r !! k) /\
      forall k cfg v, (i <= k)%nat -> inputConfigs !! k = Some cfg -> PinnedVersion cfg = Some v ->
        exists pin, pins r' !! k = Some pin /\ FindVersionOfResource (ResourceID cfg) v = Ret (Some pin)
  end.
Proof.
  revert i r. induction cfgs as [|cfg cfgs IH]; cbn; intros i r Hdrop Hlen H.
  { simplify_eq. split_and!; try done. intros k cfg v Hk Hcfg%lookup_lt_Some.
    assert (length (drop i inputConfigs) = 0)%nat by (by rewrite Hdrop).
    rewrite length_drop in *. lia. }
  assert (Hi : inputConfigs !! i = Some cfg) by (by rewrite <- (Nat.add_0_r i), <- lookup_drop, Hdrop).
  assert (Hdrop' : drop (S i) inputConfigs = cfgs)
    by (rewrite (drop_S _ _ _ Hi) in Hdrop; by simplify_eq).
  destruct (PinnedVersion cfg) as [v|] eqn:Hpin.
  - apply bind_Ret in H as (found & Hfind & H). destruct found as [pin|].
    + apply IH in H; [|done|cbn; by rewrite length_insert]. destruct res as [f|r'].
      * destruct H as (cfg' & v' & ? & ?). exists cfg', v'. set_solver.
      * destruct H as (Hc & Hl & Hlt & Hge). cbn in *. rewrite length_insert in Hl.
        split_and!; try done.
        -- intros k Hk. rewrite Hlt by lia. by rewrite list_lookup_insert_ne by lia.
        -- intros k cfg' v' Hk Hcfg' Hv'. destruct (decide (k = i)) as [->|]; [|eapply Hge; eauto; lia].
           simplify_eq. exists pin. rewrite Hlt by lia. split; [|done].
           apply list_lookup_insert_eq. rewrite Hlen. by eapply lookup_lt_Some.
    + simplify_eq. exists cfg, v. set_solver.
  - apply IH in H; [|done|done]. destruct res as [f|r'].
    + destruct H as (cfg' & v' & ? & ?). exists cfg', v'. set_solver.
    + destruct H as (Hc & Hl & Hlt & Hge). split_and!; try done.
      * intros k Hk. apply Hlt. lia.
      * intros k cfg' v' Hk Hcfg' Hv'. destruct (decide (k = i)) as [->|]; [congruence|].
        eapply Hge; eauto. lia.
Qed.

Lemma finalCandidates_lookup r cfg i c :
  NoDup (Name <$> inputConfigs) ->
  inputConfigs !! i = Some cfg -> candidates r !! i = Some c ->
  finalCandidates inputConfigs r !! Name cfg = Some c.
Proof.
  intros Hnd Hcfg Hc. unfold finalCandidates.
  assert (Hgen : forall (cfgs : InputConfigs) cs (m : gmap string (option versionCandidate)) i,
    NoDup (Name <$> cfgs) -> cfgs !! i = Some cfg -> cs !! i = Some c ->
    foldl (fun m '(input, c) => <[Name input := c]> m) m (zip cfgs cs) !! Name cfg = Some c).
  2: by eapply Hgen.
  assert (Hkeep : forall (cfgs : InputConfigs) cs (m : gmap string (option versionCandidate)),
    Name cfg ∉ Name <$> cfgs -> m !! Name cfg = Some c ->
    foldl (fun m '(input, c) => <[Name input := c]> m) m (zip cfgs cs) !! Name cfg = Some c).
  { induction cfgs as [|cfg0 cfgs IH]; intros [|c0 cs] m Hni Hm; cbn; try done.
    apply IH; [set_solver|]. rewrite lookup_insert_ne; [done|set_solver]. }
  induction cfgs as [|cfg0 cfgs IH]; intros [|c0 cs] m [|k] Hn Hk Hck; cbn in *; try done; simplify_eq.
  - apply Hkeep; [by apply NoDup_cons in Hn as [? _]|]. by rewrite lookup_insert_eq.
  - apply NoDup_cons in Hn as [_ Hn]. by eapply IH.
Qed.

Lemma resolvePins_inv r :
  resolvePins 0 inputConfigs (NewGroupResolver inputConfigs) = Ret (inr r) ->
  inv r /\ forall k cfg v, inputConfigs !! k = Some cfg -> PinnedVersion cfg = Some v ->
    exists pin, pins r !! k = Some pin /\ FindVersionOfResource (ResourceID cfg) v = Ret (Some pin).
Proof.
  intros H. apply resolvePins_ok in H as (Hc & Hl & _ & Hp); [|done|cbn; by rewrite length_replicate].
  cbn in Hc, Hl. split; [|intros; eapply Hp; eauto; lia].
  split; rewrite ?Hc, ?Hl; [by rewrite length_replicate..|].
  intros i cfg pin c _ _ H. apply lookup_replicate in H as [? _]. done.
Qed.

(** ** Termination

    [missing r] counts the (input, passed job) pairs that no build vouches for
    yet.  Every recursive call of [tryResolve] is made after a build vouched
    for a missing pair, so it bounds the depth of the recursion. *)
Definition missing (r : groupResolver) : nat :=
  sum_list (zip_with (fun cfg c => size (Passed cfg ∖ vouched c)) inputConfigs (candidates r)).

Lemma sum_zip_le (cfgs : list InputConfig) cs cs' :
  length cs = length cs' ->
  (forall i c, cs !! i = Some c -> exists c', cs' !! i = Some c' /\ vouched c ⊆ vouched c') ->
  (sum_list (zip_with (fun cfg c => size (Passed cfg ∖ vouched c)) cfgs cs')
   <= sum_list (zip_with (fun cfg c => size (Passed cfg ∖ vouched c)) cfgs cs))%nat.
Proof.
  revert cs cs'. induction cfgs as [|cfg cfgs IH]; intros [|c cs] [|c' cs'] Hl H; cbn; try lia; try done.
  destruct (H 0%nat c eq_refl) as (c0 & [= <-] & Hsub).
  assert (size (Passed cfg ∖ vouched c') <= size (Passed cfg ∖ vouched c))%nat
    by (apply subseteq_size; set_solver).
  cbn in Hl. specialize (IH cs cs' ltac:(lia) (fun i => H (S i))). lia.
Qed.

Lemma sum_zip_lt (cfgs : list InputConfig) cs cs' i cfg c c' j :
  length cs = length cs' ->
  (forall i c, cs !! i = Some c -> exists c', cs' !! i = Some c' /\ vouched c ⊆ vouched c') ->
  cfgs !! i = Some cfg -> cs !! i = Some c -> cs' !! i = Some c' ->
  j ∈ Passed cfg -> j ∉ vouched c -> j ∈ vouched c' ->
  (sum_list (zip_with (fun cfg c => size (Passed cfg ∖ vouched c)) cfgs cs')
   < sum_list (zip_with (fun cfg c => size (Passed cfg ∖ vouched c)) cfgs cs))%nat.
Proof.
  revert cs cs' i. induction cfgs as [|cfg0 cfgs IH];
    intros [|c0 cs] [|c0' cs'] [|i] Hl H Hcfg Hc Hc' Hj Hn Hv; cbn in *; try done; simplify_eq.
  - assert (size (Passed cfg ∖ vouched c') < size (Passed cfg ∖ vouched c))%nat.
    { destruct (H 0%nat c eq_refl) as (? & [= <-] & ?). apply subset_size. set_solver. }
    assert (Hle := sum_zip_le cfgs cs cs' ltac:(lia) (fun i => H (S i))). lia.
  - destruct (H 0%nat c0 eq_refl) as (? & [= <-] & ?).
    assert (size (Passed cfg0 ∖ vouched c0') <= size (Passed cfg0 ∖ vouched c0))%nat
      by (apply subseteq_size; set_solver).
    specialize (IH cs cs' i ltac:(lia) (fun i => H (S i))). specialize (IH Hcfg Hc Hc' Hj Hn Hv). lia.
Qed.

Context {ret : VersionsDBReturns db}.

Lemma related_returns r o i j :
  inv r -> (i < length inputConfigs)%nat ->
  returns (outputIsRelatedAndMatches inputConfigs r o i j).
Proof.
  intros [Hl Hp _] Hi. unfold outputIsRelatedAndMatches.
  destruct (at_or_panic_lt (E:=error) inputConfigs i Hi) as (cfg & _ & ->); cbn.
  destruct (at_or_panic_lt (E:=error) (candidates r) i) as (c & _ & ->); [lia|]; cbn.
  destruct (at_or_panic_lt (E:=error) (pins r) i) as (p & _ & ->); [lia|].
  repeat case_match; try done; apply returns_bind; eauto with go; intros [] _; cbn; by repeat case_match.
Qed.

Lemma tryOutput_returns r j b n output outs cs s :
  scan_ok r s -> succeeded j b -> SuccessfulBuildOutputs b = Ret outs -> output ∈ outs ->
  (forall i, i ∈ cs -> i < length inputConfigs)%nat ->
  returns (tryOutput inputConfigs j b n output cs s).
Proof.
  intros Hs Hb Houts Hout. revert s Hs.
  induction cs as [|i cs IH]; cbn; intros s Hs Hlt; [done|].
  destruct (restore s !! i) as [?|] eqn:Hr; [apply IH; set_solver|].
  assert (Hi : (i < length inputConfigs)%nat) by (apply Hlt; set_solver).
  destruct (at_or_panic_lt (E:=error) (candidates (sc_r s)) i) as (c & Hc & ->);
    [by rewrite (inv_candidates _ (so_inv _ _ Hs))|]; cbn.
  apply returns_bind; [apply related_returns; [by eapply so_inv|done]|].
  intros [related mm] Hrel. destruct mm; [done|].
  destruct related; cbn; [|apply IH; [by apply scan_ok_flags|set_solver]].
  destruct c as [c|].
  - apply IH; [by eapply scan_ok_related|set_solver].
  - apply returns_bind; [eauto with go|]. intros [] He; [|done].
    apply IH; [by eapply scan_ok_related|set_solver].
Qed.

Lemma tryOutputs_returns r j b n outs outputs s :
  scan_ok r s -> succeeded j b -> SuccessfulBuildOutputs b = Ret outs ->
  (forall o, o ∈ outputs -> o ∈ outs) ->
  returns (tryOutputs inputConfigs j b n outputs s).
Proof.
  intros Hs Hb Houts. revert s Hs.
  induction outputs as [|o outputs IH]; cbn; intros s Hs Hsub; [done|].
  apply returns_bind.
  - eapply tryOutput_returns; eauto; [set_solver|].
    intros i. rewrite elem_of_seq, (inv_candidates _ (so_inv _ _ Hs)). lia.
  - intros s1 H1. destruct (broke s1); [done|].
    apply IH; [eapply tryOutput_ok; eauto; set_solver|set_solver].
Qed.

Definition rec_returns (n : nat) (rec : groupResolver -> outcome error (bool * groupResolver)) : Prop :=
  forall r, inv r -> (missing r < n)%nat -> returns (rec r).

(** The pair (input [i], job [j]) is still missing. *)
Definition unvouched (r : groupResolver) (i : nat) (j : Z) : Prop :=
  exists cfg c, inputConfigs !! i = Some cfg /\ candidates r !! i = Some c /\
    j ∈ Passed cfg /\ j ∉ vouched c.

Lemma scan_missing r s i j c :
  inv r -> scan_ok r s -> unvouched r i j ->
  candidates (sc_r s) !! i = Some c -> j ∈ vouched c -> (missing (sc_r s) < missing r)%nat.
Proof.
  intros Hi Hs (cfg & c0 & Hcfg & Hc0 & Hj & Hn) Hc Hv.
  eapply sum_zip_lt; eauto; [|apply (so_mono _ _ Hs)].
  by rewrite (inv_candidates _ Hi), (inv_candidates _ (so_inv _ _ Hs)).
Qed.

Lemma tryBuildOutputs_returns n rec i j b h r :
  rec_returns n rec -> rec_ok rec -> inv r -> succeeded j b ->
  unvouched r i j -> (missing r <= n)%nat ->
  returns (tryBuildOutputs inputConfigs rec i j b h r).
Proof.
  intros Hrec Hok Hi Hb Hu Hn. unfold tryBuildOutputs.
  apply returns_bind; [eauto with go|]. intros outs Houts.
  apply returns_bind; [eapply tryOutputs_returns; eauto using scan_ok_init|]. intros s Hs.
  assert (Hso : scan_ok r s) by (eapply tryOutputs_ok; eauto using scan_ok_init).
  destruct Hu as (cfg & c0 & Hcfg & Hc0 & Hj & Hnv).
  destruct (so_mono _ _ Hso i c0 Hc0) as (c & Hc & _).
  unfold at_or_panic. rewrite Hc. cbn.
  destruct c as [c|]; [|done]. destruct (_ && _) eqn:Hv; [|done].
  destruct (candidatesAreDoomed _); [done|]. go_bool.
  apply returns_bind; [|by intros [[] ?]].
  apply Hrec; [by eapply so_inv|]. eapply Nat.lt_le_trans; [|exact Hn].
  eapply scan_missing; eauto. by exists cfg, c0.
Qed.

Lemma tryJobBuilds_returns n rec fuel i j pb r :
  rec_returns n rec -> rec_ok rec -> inv r -> lists j pb -> (remaining pb < fuel)%nat ->
  unvouched r i j -> (missing r <= n)%nat ->
  returns (tryJobBuilds inputConfigs rec fuel i j pb r).
Proof.
  intros Hrec Hok. revert pb r.
  induction fuel as [|fuel IH]; cbn; intros pb r Hi Hpb Hf Hu Hn; [lia|].
  apply returns_bind; [eauto with go|]. intros [[b|] pb'] Hnext; [|done].
  assert (Hleft := Next_remaining _ _ _ _ Hpb Hnext).
  apply Next_lists with (j := j) in Hnext as [Hb Hpb']; [|done].
  apply returns_bind; [by eapply tryBuildOutputs_returns|]. intros [[] r1] H1; [done|].
  apply tryBuildOutputs_ok in H1 as (Hi1 & Hp1 & Hc1); try done.
  apply IH; try done; [lia| |].
  - destruct Hu as (cfg & c & ? & ? & ?). exists cfg, c. by rewrite Hc1.
  - unfold missing. by rewrite Hc1.
Qed.

Lemma paginatedBuilds_returns r cfg c cj j :
  returns (paginatedBuilds inputConfigs r cfg c cj j).
Proof.
  unfold paginatedBuilds.
  assert (forall r, returns (match c with
    | Some _ => pb ← SuccessfulBuildsVersionConstrained j
                       (constrainingCandidates inputConfigs r j); Ret (Some pb, r)
    | None => Ret (Some (SuccessfulBuilds j), r) end)).
  { intros r0. destruct c; [|done]. apply returns_bind; eauto with go; done. }
  destruct (UseEveryVersion cfg); [|done].
  apply returns_bind.
  { destruct (lastUsedPassedBuilds r); [done|].
    apply returns_bind; [eauto with go|]. intros [b|] _; [|done].
    apply returns_bind; eauto with go; done. }
  intros r1 _. destruct (_ !! j).
  - apply returns_bind; [destruct c; eauto with go|done].
  - destruct c; [apply returns_bind; eauto with go; done|]. by destruct (bool_decide _).
Qed.

Lemma tryJobs_returns n rec bfuel i cfg c jobs r :
  rec_returns n rec -> rec_ok rec -> inv r -> (max_builds < bfuel)%nat ->
  inputConfigs !! i = Some cfg -> candidates r !! i = Some c ->
  (forall j, j ∈ jobs -> j ∈ Passed cfg) -> (missing r <= n)%nat ->
  returns (tryJobs inputConfigs rec bfuel i cfg c jobs r).
Proof.
  intros Hrec Hok Hi Hb Hcfg. revert r Hi.
  induction jobs as [|j jobs IH]; cbn; intros r Hi Hc Hsub Hn; [done|].
  destruct (match c with Some c0 => _ | None => _ end) eqn:Hv; [apply IH; set_solver|].
  apply returns_bind; [apply paginatedBuilds_returns|]. intros [pb r1] Hpb.
  apply paginatedBuilds_ok in Hpb as (Hp1 & Hc1 & _ & Hpb); [|set_solver].
  assert (Hi1 : inv r1) by (by eapply inv_same).
  assert (Hn1 : (missing r1 <= n)%nat) by (unfold missing; by rewrite Hc1).
  destruct pb as [pb|]; [|apply IH; [done|congruence|set_solver|done]].
  eapply tryJobBuilds_returns; eauto; [by eapply Nat.le_lt_trans, Hb; eapply remaining_bound|].
  exists cfg, c. split_and!; [done|congruence|set_solver|].
  destruct c; cbn; [by apply bool_decide_eq_false in Hv|set_solver].
Qed.

Lemma tryInputs_returns n rec bfuel idxs r :
  rec_returns n rec -> rec_ok rec -> inv r -> (max_builds < bfuel)%nat ->
  Forall (fun cfg => Passed cfg <> ∅) inputConfigs ->
  (forall i, i ∈ idxs -> i < length inputConfigs)%nat -> (missing r <= n)%nat ->
  returns (tryInputs inputConfigs rec bfuel idxs r).
Proof.
  intros Hrec Hok Hi Hb Hne. revert r Hi.
  induction idxs as [|i idxs IH]; cbn; intros r Hi Hlt Hn; [done|].
  assert (Hil : (i < length inputConfigs)%nat) by (apply Hlt; set_solver).
  apply returns_bind.
  - unfold trySatisfyPassedConstraintsForInput.
    destruct (at_or_panic_lt (E:=error) inputConfigs i Hil) as (cfg & Hcfg & ->); cbn.
    destruct (at_or_panic_lt (E:=error) (candidates r) i) as (c & Hc & ->);
      [by rewrite (inv_candidates _ Hi)|]; cbn.
    apply returns_bind; [|by intros []].
    eapply tryJobs_returns; eauto. intros j. by rewrite elem_of_orderJobs.
  - intros [[worked f] r1] H1. destruct worked; [|done].
    apply trySatisfy_ok in H1 as [[(Hi1 & _ & Hs)|(_ & Hi1 & _ & Hc & _)] _]; try done.
    + rewrite tryInputs_solved; [done|done|set_solver].
    + apply IH; [done|set_solver|]. unfold missing. by rewrite Hc.
Qed.

Lemma tryResolve_returns bfuel fuel r :
  inv r -> (max_builds < bfuel)%nat ->
  Forall (fun cfg => Passed cfg <> ∅) inputConfigs -> (missing r < fuel)%nat ->
  returns (tryResolve inputConfigs bfuel fuel r).
Proof.
  revert r. induction fuel as [|fuel IH]; cbn; intros r Hi Hb Hne Hn; [lia|].
  apply (tryInputs_returns fuel); try done; [| | |lia].
  - intros r1 Hi1 Hn1. apply returns_bind; [by apply IH|by intros [[] ?]].
  - intros r1 ok1 r1' Hi1 H1. apply bind_Ret in H1 as ([[worked f1] r2] & H1 & ?).
    simplify_eq. by apply tryResolve_ok in H1 as [? _].
  - intros i. rewrite elem_of_seq. lia.
Qed.

Lemma resolvePins_returns i cfgs r : returns (resolvePins i cfgs r).
Proof.
  revert i r. induction cfgs as [|cfg cfgs IH]; cbn; intros i r; [done|].
  destruct (PinnedVersion cfg); [|done]. apply returns_bind; [eauto with go|].
  by intros [pin|] _.
Qed.

Lemma missing_bound r :
  inv r -> (missing r <= sum_list ((fun cfg => size (Passed cfg)) <$> inputConfigs))%nat.
Proof.
  intros Hi. unfold missing. assert (Hl := inv_candidates _ Hi). revert Hl. clear.
  generalize (candidates r). induction inputConfigs as [|cfg cfgs IH]; intros [|c cs] Hl;
    cbn in *; try lia.
  assert (size (Passed cfg ∖ vouched c) <= size (Passed cfg))%nat by (apply subseteq_size; set_solver).
  specialize (IH cs ltac:(lia)). lia.
Qed.


End Spec.

(** ** Main theorems *)

(** What a chosen candidate promises for its input: all of the input's passed
    jobs vouch for it, each with a succeeded build that put the version out
    (recorded among the source builds, which contain nothing else); the
    version exists, is enabled and is the pinned one if there is a pin. *)
Record resolves {db : VersionsDB} {laws : VersionsDBLaws db}
    (cfg : InputConfig) (c : versionCandidate) : Prop := {
  rs_jobs : VouchedForBy c = Passed cfg;
  rs_passed : forall j, j ∈ Passed cfg ->
    exists b, b ∈ SourceBuildIds c /\ provides j b cfg (vc_Version c);
  rs_sources : forall b, b ∈ SourceBuildIds c ->
    exists j, j ∈ Passed cfg /\ provides j b cfg (vc_Version c);
  rs_enabled : VersionIsDisabled (ResourceID cfg) (vc_Version c) = Ret false;
  rs_exists : VersionExists (ResourceID cfg) (vc_Version c) = Ret true;
  rs_pin : forall v, PinnedVersion cfg = Some v ->
    FindVersionOfResource (ResourceID cfg) v = Ret (Some (vc_Version c));
}.

(** When the group resolver reports no failure, every input of the group has
    a candidate that [resolves] it. *)
Lemma group_Resolve_sound {db : VersionsDB} {laws : VersionsDBLaws db}
    (inputConfigs : InputConfigs) bfuel fuel cands :
  Forall (fun cfg => Passed cfg <> ∅) inputConfigs ->
  NoDup (Name <$> inputConfigs) ->
  group_Resolve inputConfigs bfuel fuel = Ret (cands, "") ->
  forall cfg, cfg ∈ inputConfigs ->
    exists c, cands !! Name cfg = Some (Some c) /\ resolves cfg c.
Proof.
  unfold group_Resolve. intros Hne Hnd H cfg (i & Hi)%list_elem_of_lookup.
  apply bind_Ret in H as ([f|r] & Hpins & H).
  { apply (resolvePins_ok inputConfigs) in Hpins as (? & v & _ & _ & _ & ->);
      [|done|cbn; by rewrite length_replicate].
    simplify_eq. }
  apply resolvePins_inv in Hpins as [Hinv Hpins].
  apply bind_Ret in H as ([[ok f] r'] & Hres & H).
  apply tryResolve_ok in Hres as [(Hinv' & Hpins' & Hsol) ->]; [|done..].
  destruct ok; simplify_eq. destruct (Hsol i cfg Hi) as (c & Hc & Hsub).
  exists c. split; [by eapply finalCandidates_lookup|].
  destruct (lookup_lt_is_Some_2 (pins r') i) as [pin Hpin].
  { rewrite (inv_pins _ _ Hinv'). by eapply lookup_lt_Some. }
  destruct (inv_ok _ _ Hinv' i cfg pin c Hi Hpin Hc) as [Hj Hv Hs He Hx Hp].
  assert (Hjobs : VouchedForBy c = Passed cfg) by set_solver.
  split; rewrite <- ?Hjobs; try done.
  intros v Hv'. destruct (Hpins i cfg v Hi Hv') as (pin' & Hpin1 & Hfind).
  rewrite Hpins' in Hpin. simplify_eq. rewrite Hp by congruence. done.
Qed.

(** A reported candidate is never nil. *)
Lemma finalCandidates_some inputConfigs r :
  solved inputConfigs r ->
  map_Forall (fun _ c => is_Some c) (finalCandidates inputConfigs r).
Proof.
  intros Hs. unfold finalCandidates.
  assert (Hgen : forall (cfgs : InputConfigs) cs (m : gmap string (option versionCandidate)),
    map_Forall (fun _ c => is_Some c) m ->
    (forall i cfg c, cfgs !! i = Some cfg -> cs !! i = Some c -> is_Some c) ->
    map_Forall (fun _ c => is_Some c)
      (foldl (fun m '(input, c) => <[Name input := c]> m) m (zip cfgs cs))).
  { induction cfgs as [|cfg cfgs IH]; intros [|c cs] m Hm H; cbn; try done.
    apply IH; [|intros i; exact (H (S i))].
    apply map_Forall_insert_2; [exact (H 0%nat _ _ eq_refl eq_refl)|done]. }
  apply Hgen; [apply map_Forall_empty|]. intros i cfg c Hcfg Hc.
  destruct (Hs i cfg Hcfg) as (c' & Hc' & _). simplify_eq. done.
Qed.

Lemma group_Resolve_some {db : VersionsDB} {laws : VersionsDBLaws db}
    (inputConfigs : InputConfigs) bfuel fuel cands failure :
  Forall (fun cfg => Passed cfg <> ∅) inputConfigs ->
  group_Resolve inputConfigs bfuel fuel = Ret (cands, failure) ->
  map_Forall (fun _ c => is_Some c) cands.
Proof.
  unfold group_Resolve. intros Hne H.
  apply bind_Ret in H as ([f|r] & Hpins & H); [simplify_eq; apply map_Forall_empty|].
  apply resolvePins_inv in Hpins as [Hinv _].
  apply bind_Ret in H as ([[ok f] r'] & Hres & H).
  apply tryResolve_ok in Hres as [(_ & _ & Hs) ->]; [|done..].
  destruct ok; simplify_eq; [by apply finalCandidates_some|apply map_Forall_empty].
Qed.

(** The group resolver terminates: with fuel for the number of (input, passed
    job) pairs and for the builds a cursor can list, it returns a result or a
    database error; it neither diverges nor panics. *)
Lemma group_Resolve_returns {db : VersionsDB} {laws : VersionsDBLaws db}
    {ret : VersionsDBReturns db} (inputConfigs : InputConfigs) bfuel fuel :
  Forall (fun cfg => Passed cfg <> ∅) inputConfigs ->
  (max_builds < bfuel)%nat ->
  (sum_list ((fun cfg => size (Passed cfg)) <$> inputConfigs) < fuel)%nat ->
  returns (group_Resolve inputConfigs bfuel fuel).
Proof.
  intros Hne Hb Hf. unfold group_Resolve.
  apply returns_bind; [apply resolvePins_returns|]. intros [f|r] Hpins; [done|].
  apply resolvePins_inv in Hpins as [Hinv _].
  apply returns_bind; [|by intros [[[] ?] ?]].
  apply tryResolve_returns; try done. eapply Nat.le_lt_trans; [by apply missing_bound|done].
Qed.

(** A failure comes without candidates and is either an unsatisfiable search
    or a pinned version that does not exist. *)
Lemma group_Resolve_failure {db : VersionsDB} {laws : VersionsDBLaws db}
    (inputConfigs : InputConfigs) bfuel fuel cands failure :
  Forall (fun cfg => Passed cfg <> ∅) inputConfigs ->
  group_Resolve inputConfigs bfuel fuel = Ret (cands, failure) ->
  failure <> "" ->
  cands = ∅ /\
  (failure = NoSatisfiableBuilds \/
   exists cfg v, cfg ∈ inputConfigs /\ PinnedVersion cfg = Some v /\
     FindVersionOfResource (ResourceID cfg) v = Ret None /\ failure = PinnedVersionNotFound v).
Proof.
  unfold group_Resolve. intros Hne H Hf.
  apply bind_Ret in H as ([f|r] & Hpins & H).
  { apply (resolvePins_ok inputConfigs) in Hpins; [|done|cbn; by rewrite length_replicate].
    simplify_eq. eauto. }
  apply resolvePins_inv in Hpins as [Hinv _].
  apply bind_Ret in H as ([[ok f] r'] & Hres & H).
  apply tryResolve_ok in Hres as [_ ->]; [|done..].
  destruct ok; simplify_eq. eauto.
Qed.

(** ** At the example database: input "in" of job 9, passed job 7 *)
Definition example_input (every : bool) (pin : option Version) : InputConfig :=
  {| Name := "in"; Trigger := true; Passed := {[7]}; UseEveryVersion := every;
     PinnedVersion := pin; ResourceID := 10; JobID := 9 |}.

Definition example_db : VersionsDB := tables_db 1 example_conn.
Definition example_laws : VersionsDBLaws example_db :=
  tables_laws 1 example_conn Nat.lt_0_1 example_wf.
Definition example_returns : VersionsDBReturns example_db :=
  tables_returns 1 example_conn Nat.lt_0_1 example_wf.

(** The latest version comes from build 3; "every" continues after build 1,
    with build 2, and reports that there are more builds. *)
Example group_latest :
  group_Resolve (db := example_db) [example_input false None] 20 2
  = Ret ({["in" := Some {| vc_Version := "v2"; VouchedForBy := {[7]}; SourceBuildIds := [3];
                           HasNextEveryVersion := false |}]}, "").
Proof. vm_compute. reflexivity. Qed.

Example group_every :
  group_Resolve (db := example_db) [example_input true None] 20 2
  = Ret ({["in" := Some {| vc_Version := "v2"; VouchedForBy := {[7]}; SourceBuildIds := [2];
                           HasNextEveryVersion := true |}]}, "").
Proof. vm_compute. reflexivity. Qed.
