(* ===== verification/Algorithm.v ===== *)
(** * The input algorithm (atc/scheduler/algorithm)

    The resolvers for single inputs (individual_resolver.go,
    pinned_resolver.go), the split of a job's inputs into resolvers
    (resolver.go) and [Algorithm.Compute] (compute.go), which runs them and
    builds the job's next input mapping. *)
From S2P Require Import Prelude VersionsDB GroupResolver.
From stdpp Require Import base gmap sets list strings.
From Stdlib Require Import ZArith Lia.
Open Scope Z_scope.

(** The [Resolver] interface has three implementations. *)
Inductive Resolver :=
| IndividualResolver (inputConfig : InputConfig)
| PinnedResolver (inputConfig : InputConfig)
| GroupResolver (inputConfigs : InputConfigs).

Definition Resolver_InputConfigs (r : Resolver) : InputConfigs :=
  match r with
  | IndividualResolver cfg | PinnedResolver cfg => [cfg]
  | GroupResolver cfgs => cfgs
  end.

(** ** Splitting the inputs (resolver.go) *)

Record relatedInputConfigs := {
  passedJobs : JobSet;
  rel_inputConfigs : InputConfigs;
}.

Section Grouping.
(** The order in which Go ranges over the keys of a [JobSet]. *)
Context (range : JobSet -> list Z).

(** The search loops: [index] is the group of the last match. *)
Definition findGroup (groups : list relatedInputConfigs) (inputConfig : InputConfig) : option nat :=
  foldl (fun found passedJob =>
      foldl (fun found '(groupIndex, group) =>
          if bool_decide (passedJob ∈ passedJobs group) then Some groupIndex else found)
        found (imap (fun i g => (i, g)) groups))
    None (range (Passed inputConfig)).

Definition addToGroups (groups : list relatedInputConfigs) (inputConfig : InputConfig)
    : list relatedInputConfigs :=
  match findGroup groups inputConfig with
  | Some index =>
      alter (fun g => {| passedJobs := passedJobs g ∪ Passed inputConfig;
                         rel_inputConfigs := rel_inputConfigs g ++ [inputConfig] |}) index groups
  | None =>
      groups ++ [{| passedJobs := Passed inputConfig; rel_inputConfigs := [inputConfig] |}]
  end.

Definition groupInputsConfigsByPassedJobs (passedInputConfigs : InputConfigs)
    : list relatedInputConfigs :=
  foldl addToGroups [] passedInputConfigs.

Definition constructResolvers (inputs : InputConfigs) : list Resolver :=
  let '(resolvers, inputConfigsWithPassed) :=
    foldl (fun '(resolvers, withPassed) input =>
        if bool_decide (size (Passed input) = 0%nat) then
          (resolvers ++ [match PinnedVersion input with
                         | Some _ => PinnedResolver input
                         | None => IndividualResolver input
                         end], withPassed)
        else (resolvers, withPassed ++ [input]))
      ([], []) inputs in
  resolvers ++ ((fun g => GroupResolver (rel_inputConfigs g)) <$>
    groupInputsConfigsByPassedJobs inputConfigsWithPassed).
End Grouping.

(** ** Resolving (individual_resolver.go, pinned_resolver.go) *)
Section Compute.
Context {db : VersionsDB}.

Abbreviation Candidates := (gmap string (option versionCandidate)) (only parsing).

Definition individual_Resolve (inputConfig : InputConfig)
    : outcome error (Candidates * ResolutionFailure) :=
  let found version hasNext :=
    let candidate := newCandidateVersion version in
    let candidate := {| vc_Version := vc_Version candidate; VouchedForBy := VouchedForBy candidate;
                        SourceBuildIds := SourceBuildIds candidate;
                        HasNextEveryVersion := hasNext |} in
    Ret ({[Name inputConfig := Some candidate]}, "") in
  if UseEveryVersion inputConfig then
    next ← NextEveryVersion (JobID inputConfig) (ResourceID inputConfig);
    match (next : option (ResourceVersion * bool)) with
    | None => Ret (∅, VersionNotFound)
    | Some (version, hasNext) => found version hasNext
    end
  else
    latest ← LatestVersionOfResource (ResourceID inputConfig);
    match (latest : option ResourceVersion) with
    | None => Ret (∅, LatestVersionNotFound)
    | Some version => found version false
    end.

Definition pinned_Resolve (inputConfig : InputConfig)
    : outcome error (Candidates * ResolutionFailure) :=
  let pin := default ∅ (PinnedVersion inputConfig) in
  found ← FindVersionOfResource (ResourceID inputConfig) pin;
  match (found : option ResourceVersion) with
  | None => Ret (∅, PinnedVersionNotFound pin)
  | Some version => Ret ({[Name inputConfig := Some (newCandidateVersion version)]}, "")
  end.

(** [bfuel] bounds the builds read by one cursor; the depth of the group
    search is bounded by its number of (input, passed job) pairs. *)
Definition Resolve (bfuel : nat) (r : Resolver) : outcome error (Candidates * ResolutionFailure) :=
  match r with
  | IndividualResolver cfg => individual_Resolve cfg
  | PinnedResolver cfg => pinned_Resolve cfg
  | GroupResolver cfgs =>
      group_Resolve cfgs bfuel (S (sum_list ((fun cfg => size (Passed cfg)) <$> cfgs)))
  end.

(** ** Compute (compute.go) *)

Definition finalizeHasNext (versionCandidates : Candidates) : outcome error bool :=
  foldl (fun acc '(_, candidate) =>
      hasNextCombined ← acc;
      if (hasNextCombined : bool) then Ret true
      else candidate ← deref candidate; Ret (HasNextEveryVersion candidate))
    (Ret false) (map_to_list versionCandidates).

Fixpoint candidatesToInputMapping (mapping : InputMapping) (inputConfigs : InputConfigs)
    (candidates : Candidates) (resolveErr : ResolutionFailure) : outcome error InputMapping :=
  match inputConfigs with
  | [] => Ret mapping
  | input :: inputConfigs =>
      if negb (String.eqb resolveErr "") then
        candidatesToInputMapping
          (<[Name input := {| Input := None; PassedBuildIDs := []; ResolveError := resolveErr |}]> mapping)
          inputConfigs candidates resolveErr
      else
        candidate ← deref (mjoin (candidates !! Name input));
        firstOcc ← IsFirstOccurrence (JobID input) (Name input) (vc_Version candidate) (ResourceID input);
        candidatesToInputMapping
          (<[Name input :=
               {| Input := Some {| ai_AlgorithmVersion :=
                    {| av_ResourceID := ResourceID input; av_Version := vc_Version candidate |};
                    FirstOccurrence := firstOcc |};
                  PassedBuildIDs := SourceBuildIds candidate; ResolveError := "" |}]> mapping)
          inputConfigs candidates resolveErr
  end.

(** The loop of [computeResolvers]: (mapping, resolved, hasNext). *)
Fixpoint computeResolvers (bfuel : nat) (resolvers : list Resolver)
    (finalMapping : InputMapping) (finalResolved finalHasNext : bool)
    : outcome error (InputMapping * bool * bool) :=
  match resolvers with
  | [] => Ret (finalMapping, finalResolved, finalHasNext)
  | resolver :: resolvers =>
      '(versionCandidates, resolveErr) ← Resolve bfuel resolver;
      let finalResolved := finalResolved && String.eqb resolveErr "" in
      finalMapping ← candidatesToInputMapping finalMapping (Resolver_InputConfigs resolver)
                       versionCandidates resolveErr;
      finalHasNext ← (if finalHasNext then Ret true else finalizeHasNext versionCandidates);
      computeResolvers bfuel resolvers finalMapping finalResolved finalHasNext
  end.

Definition Algorithm_Compute (range : JobSet -> list Z) (bfuel : nat) (inputs : InputConfigs)
    : outcome error (InputMapping * bool * bool) :=
  computeResolvers bfuel (constructResolvers range inputs) ∅ true false.
End Compute.
