(* ===== verification/AlgorithmSpec.v ===== *)
(** * Correctness of the input algorithm

    The split into resolvers is a partition of the job's inputs; [Algorithm_Compute]
    returns, and when it reports the job as resolved every input has a version
    chosen by the rule of its resolver. *)
From S2P Require Import Prelude VersionsDB BuildTables BuildTablesSpec GroupResolver GroupResolverSpec Algorithm.
From stdpp Require Import base gmap sets list strings.
From Stdlib Require Import ZArith Lia.
Open Scope Z_scope.

Section Grouping.
Context (range : JobSet -> list Z) (Hrange : forall s, range s ≡ₚ elements s).

Lemma elem_of_range j s : j ∈ range s <-> j ∈ s.
Proof. by rewrite Hrange, elem_of_elements. Qed.

(** The inner loop keeps [found] or moves it to a group that has the job. *)
Lemma foldl_groups found j groups n :
  let loop := foldl (fun found '(groupIndex, group) =>
      if bool_decide (j ∈ passedJobs group) then Some groupIndex else found)
    found (imap (fun i g => (n + i, g)%nat) groups) in
  (loop = found /\ Forall (fun g => j ∉ passedJobs g) groups) \/
  exists i g, loop = Some (n + i)%nat /\ groups !! i = Some g /\ j ∈ passedJobs g.
Proof.
  cbn. revert found n. induction groups as [|g groups IH]; intros found n; [by left|].
  cbn. rewrite Nat.add_0_r.
  assert (Himap : imap ((fun i g => (n + i, g)%nat) ∘ S) groups = imap (fun i g => (S n + i, g)%nat) groups).
  { apply imap_ext. intros. cbn. f_equal. lia. }
  rewrite Himap.
  destruct (IH (if bool_decide (j ∈ passedJobs g) then Some n else found) (S n))
    as [[-> Hno]|(i & g' & -> & Hi & Hj)].
  - case_bool_decide; [|by left; split; [done|constructor]].
    right. exists 0%nat, g. by rewrite Nat.add_0_r.
  - right. exists (S i), g'. split; [f_equal; lia|done].
Qed.

Lemma findGroup_spec groups cfg :
  match findGroup range groups cfg with
  | Some i => exists g j, groups !! i = Some g /\ j ∈ Passed cfg /\ j ∈ passedJobs g
  | None => Forall (fun g => Passed cfg ## passedJobs g) groups
  end.
Proof.
  unfold findGroup.
  assert (Hgen : forall js found,
    (forall j, j ∈ js -> j ∈ Passed cfg) ->
    match found with
    | Some i => exists g j, groups !! i = Some g /\ j ∈ Passed cfg /\ j ∈ passedJobs g
    | None => forall j g, j ∈ Passed cfg -> j ∉ js -> g ∈ groups -> j ∉ passedJobs g
    end ->
    match foldl (fun found passedJob =>
      foldl (fun found '(groupIndex, group) =>
          if bool_decide (passedJob ∈ passedJobs group) then Some groupIndex else found)
        found (imap (fun i g => (i, g)) groups)) found js with
    | Some i => exists g j, groups !! i = Some g /\ j ∈ Passed cfg /\ j ∈ passedJobs g
    | None => Forall (fun g => Passed cfg ## passedJobs g) groups
    end).
  { induction js as [|j js IH]; intros found Hjs Hf; cbn.
    - destruct found; [done|]. apply Forall_forall. intros g Hg j Hj Hjg.
      eapply Hf; eauto. set_solver.
    - apply IH; [set_solver|].
      assert (Hl := foldl_groups found j groups 0). cbn in Hl.
      destruct Hl as [[-> Hno]|(i & g & -> & Hi & Hj)].
      + destruct found; [done|]. rewrite Forall_forall in Hno.
        intros j' g Hj' Hnj Hg. destruct (decide (j' = j)) as [->|]; [by apply Hno|].
        eapply Hf; eauto. set_solver.
      + exists g, j. split_and!; [done|apply Hjs; set_solver|done]. }
  apply Hgen; [intros j; by rewrite elem_of_range|].
  intros j g Hj Hnj. by rewrite elem_of_range in Hnj.
Qed.

(** Every group is non-empty and knows the jobs of its inputs. *)
Record group_ok (g : relatedInputConfigs) : Prop := {
  go_nonempty : rel_inputConfigs g <> [];
  go_jobs : forall j, j ∈ passedJobs g <-> exists cfg, cfg ∈ rel_inputConfigs g /\ j ∈ Passed cfg;
}.

Lemma addToGroups_ok groups cfg inputs :
  Forall group_ok groups -> concat (rel_inputConfigs <$> groups) ≡ₚ inputs ->
  Forall group_ok (addToGroups range groups cfg) /\
  concat (rel_inputConfigs <$> addToGroups range groups cfg) ≡ₚ inputs ++ [cfg].
Proof.
  intros Hok Hp. unfold addToGroups. assert (Hf := findGroup_spec groups cfg).
  destruct (findGroup range groups cfg) as [i|].
  - destruct Hf as (g & _ & Hg & _ & _).
    apply list_elem_of_split_length in Hg as (l1 & l2 & -> & ->).
    rewrite alter_app_r_alt, Nat.sub_diag by lia. cbn.
    apply Forall_app in Hok as [H1 [[Hne Hjobs] H2]%Forall_cons]. split.
    + apply Forall_app. split; [done|]. constructor; [|done]. split; cbn; [by destruct (rel_inputConfigs g)|].
      intros j. rewrite elem_of_union, Hjobs. set_solver.
    + rewrite <- Hp, !fmap_app, !concat_app. cbn. solve_Permutation.
  - split.
    + apply Forall_app. split; [done|]. repeat constructor; cbn; [done|set_solver..].
    + by rewrite fmap_app, concat_app, Hp.
Qed.

(** The groups partition the inputs. *)
Lemma groups_ok inputs :
  Forall group_ok (groupInputsConfigsByPassedJobs range inputs) /\
  concat (rel_inputConfigs <$> groupInputsConfigsByPassedJobs range inputs) ≡ₚ inputs.
Proof.
  unfold groupInputsConfigsByPassedJobs. induction inputs as [|cfg inputs IH] using rev_ind; [done|].
  rewrite foldl_snoc. destruct IH as [Hok Hp]. by apply addToGroups_ok.
Qed.

(** The configuration each kind of resolver is made for. *)
Definition resolver_ok (r : Resolver) : Prop :=
  match r with
  | IndividualResolver cfg => Passed cfg = ∅ /\ PinnedVersion cfg = None
  | PinnedResolver cfg => Passed cfg = ∅ /\ PinnedVersion cfg <> None
  | GroupResolver cfgs => Forall (fun cfg => Passed cfg <> ∅) cfgs /\ cfgs <> []
  end.

Lemma constructResolvers_ok inputs :
  Forall resolver_ok (constructResolvers range inputs) /\
  concat (Resolver_InputConfigs <$> constructResolvers range inputs) ≡ₚ inputs.
Proof.
  unfold constructResolvers.
  set (split := foldl _ ([], []) inputs).
  assert (Hsplit : Forall resolver_ok split.1 /\ Forall (fun cfg => Passed cfg <> ∅) split.2 /\
    concat (Resolver_InputConfigs <$> split.1) ++ split.2 ≡ₚ inputs).
  { unfold split. clear split. induction inputs as [|cfg inputs IH] using rev_ind; [done|].
    rewrite foldl_snoc. destruct (foldl _ ([], []) inputs) as [rs withPassed].
    destruct IH as (H1 & H2 & H3); cbn in *. case_bool_decide as Hsz; cbn.
    - apply size_empty_inv in Hsz. apply leibniz_equiv in Hsz. split_and!; [|done|].
      + apply Forall_app. split; [done|]. constructor; [|done].
        destruct (PinnedVersion cfg) eqn:E; cbn; by rewrite E.
      + rewrite <- H3, fmap_app, concat_app. destruct (PinnedVersion cfg); cbn; solve_Permutation.
    - split_and!; [done| |by rewrite <- H3, app_assoc].
      apply Forall_app. split; [done|]. constructor; [|done]. intros He. apply Hsz. by rewrite He. }
  destruct split as [rs withPassed]; cbn in *. destruct Hsplit as (H1 & H2 & H3).
  destruct (groups_ok withPassed) as [Hg Hp]. split.
  - apply Forall_app. split; [done|]. apply Forall_fmap, Forall_forall. intros g Hin. cbn.
    rewrite Forall_forall in Hg. split; [|by apply go_nonempty, Hg].
    apply Forall_forall. intros cfg Hcfg. rewrite Forall_forall in H2. apply H2.
    rewrite <- Hp. apply elem_of_concat.
    eexists. split; [by apply list_elem_of_fmap_2|done].
  - rewrite fmap_app, concat_app, <- list_fmap_compose. cbn.
    change (Resolver_InputConfigs ∘ _) with rel_inputConfigs. by rewrite Hp.
Qed.
End Grouping.

Section ComputeSpec.
Context {db : VersionsDB} {laws : VersionsDBLaws db}.

(** The rule by which the version of an input is chosen, with the builds it
    came from. *)
Inductive chosen (cfg : InputConfig) : ResourceVersion -> list Z -> Prop :=
| chosen_pinned pin v :
    Passed cfg = ∅ -> PinnedVersion cfg = Some pin ->
    FindVersionOfResource (ResourceID cfg) pin = Ret (Some v) -> chosen cfg v []
| chosen_every v hasNext :
    Passed cfg = ∅ -> PinnedVersion cfg = None -> UseEveryVersion cfg = true ->
    NextEveryVersion (JobID cfg) (ResourceID cfg) = Ret (Some (v, hasNext)) -> chosen cfg v []
| chosen_latest v :
    Passed cfg = ∅ -> PinnedVersion cfg = None -> UseEveryVersion cfg = false ->
    LatestVersionOfResource (ResourceID cfg) = Ret (Some v) -> chosen cfg v []
| chosen_passed c :
    Passed cfg <> ∅ -> resolves cfg c -> chosen cfg (vc_Version c) (SourceBuildIds c).

Lemma Resolve_ok bfuel r cands :
  resolver_ok r -> NoDup (Name <$> Resolver_InputConfigs r) ->
  Resolve bfuel r = Ret (cands, "") ->
  forall cfg, cfg ∈ Resolver_InputConfigs r -> exists c,
    cands !! Name cfg = Some (Some c) /\ chosen cfg (vc_Version c) (SourceBuildIds c).
Proof.
  destruct r as [cfg0|cfg0|cfgs]; cbn; intros Hok Hnd H cfg Hin.
  - apply list_elem_of_singleton in Hin as ->. destruct Hok as [Hp Hpin].
    unfold individual_Resolve in H. destruct (UseEveryVersion cfg0) eqn:Hev; go_cases;
      eexists; (split; [apply lookup_singleton_eq|]).
    + by eapply chosen_every.
    + by eapply chosen_latest.
  - apply list_elem_of_singleton in Hin as ->. destruct Hok as [Hp Hpin].
    unfold pinned_Resolve in H. destruct (PinnedVersion cfg0) as [pin|] eqn:E; [|done].
    go_cases. eexists; (split; [apply lookup_singleton_eq|]). by eapply chosen_pinned.
  - destruct Hok as [Hne _].
    eapply group_Resolve_sound in H as (c & Hc & Hr); eauto. exists c. split; [done|].
    apply chosen_passed; [|done]. rewrite Forall_forall in Hne. auto.
Qed.

Lemma Resolve_some bfuel r cands failure :
  resolver_ok r -> Resolve bfuel r = Ret (cands, failure) ->
  map_Forall (fun _ c => is_Some c) cands.
Proof.
  destruct r as [cfg|cfg|cfgs]; cbn; intros Hok H.
  - unfold individual_Resolve in H. destruct (UseEveryVersion cfg); go_cases;
      (apply map_Forall_empty || (apply map_Forall_singleton; done)).
  - unfold pinned_Resolve in H. go_cases;
      (apply map_Forall_empty || (apply map_Forall_singleton; done)).
  - by eapply group_Resolve_some; [apply Hok|].
Qed.

(** A resolved entry of the mapping. *)
Definition input_ok (cfg : InputConfig) (res : InputResult) : Prop :=
  exists v first,
    Input res = Some {| ai_AlgorithmVersion := {| av_ResourceID := ResourceID cfg; av_Version := v |};
                        FirstOccurrence := first |} /\
    IsFirstOccurrence (JobID cfg) (Name cfg) v (ResourceID cfg) = Ret first /\
    ResolveError res = "" /\ chosen cfg v (PassedBuildIDs res).

(** An entry for an input whose resolver failed. *)
Definition input_failed (res : InputResult) : Prop :=
  Input res = None /\ PassedBuildIDs res = [] /\ ResolveError res <> "".

Lemma candidatesToInputMapping_ok cfgs cands err m m' :
  NoDup (Name <$> cfgs) ->
  (err = "" -> forall cfg, cfg ∈ cfgs -> exists c,
     cands !! Name cfg = Some (Some c) /\ chosen cfg (vc_Version c) (SourceBuildIds c)) ->
  candidatesToInputMapping m cfgs cands err = Ret m' ->
  (forall n, n ∉ Name <$> cfgs -> m' !! n = m !! n) /\
  forall cfg, cfg ∈ cfgs -> exists res, m' !! Name cfg = Some res /\
    if String.eqb err "" then input_ok cfg res else input_failed res.
Proof.
  revert m. induction cfgs as [|cfg cfgs IH]; cbn [candidatesToInputMapping]; intros m Hnd Hc H.
  { simplify_eq. split; [done|]. intros cfg Hin. by apply elem_of_nil in Hin. }
  rewrite fmap_cons in *. apply NoDup_cons in Hnd as [Hni Hnd].
  destruct (String.eqb_spec err "") as [->|Hne]; cbn in H.
  - destruct (Hc eq_refl cfg ltac:(left)) as (c & Hcc & Hch).
    rewrite Hcc in H. cbn in H. apply bind_Ret in H as (first & Hfirst & H).
    apply IH in H as [Hout Hin]; [|done|intros _ cfg' ?; apply Hc; [done|by right]].
    split.
    + intros n Hn. rewrite Hout, lookup_insert_ne; set_solver.
    + intros cfg' [->|Hcfg']%elem_of_cons; [|by apply Hin].
      rewrite Hout, lookup_insert_eq by done. eexists. split; [done|].
      by exists (vc_Version c), first.
  - apply IH in H as [Hout Hin]; [|done|done]. split.
    + intros n Hn. rewrite Hout, lookup_insert_ne; set_solver.
    + intros cfg' [->|Hcfg']%elem_of_cons; [|by apply Hin].
      rewrite Hout, lookup_insert_eq by done. eexists. split; [done|]. by split_and!.
Qed.

Abbreviation inputs_of rs := (concat (Resolver_InputConfigs <$> rs)).

Lemma computeResolvers_ok bfuel rs m resolved hasNext m' resolved' hasNext' :
  Forall resolver_ok rs -> NoDup (Name <$> inputs_of rs) ->
  computeResolvers bfuel rs m resolved hasNext = Ret (m', resolved', hasNext') ->
  (forall n, n ∉ Name <$> inputs_of rs -> m' !! n = m !! n) /\
  (forall cfg, cfg ∈ inputs_of rs -> exists res, m' !! Name cfg = Some res /\
     (input_ok cfg res \/ input_failed res)) /\
  (resolved' = true <-> resolved = true /\
     forall cfg, cfg ∈ inputs_of rs -> exists res, m' !! Name cfg = Some res /\ input_ok cfg res).
Proof.
  revert m resolved hasNext. induction rs as [|r rs IH]; intros m resolved hasNext Hok Hnd H.
  { cbn in H. simplify_eq. split_and!; [done|set_solver|]. split; [set_solver|tauto]. }
  apply Forall_cons in Hok as [Hr Hok].
  rewrite fmap_cons in *. cbn [concat computeResolvers] in *. rewrite fmap_app in *.
  apply NoDup_app in Hnd as (Hnd1 & Hdisj & Hnd2).
  apply bind_Ret in H as ([cands err] & Hres & H). apply bind_Ret in H as (m1 & Hm1 & H).
  apply bind_Ret in H as (h1 & _ & H).
  apply candidatesToInputMapping_ok in Hm1 as [Hout1 Hin1]; [|done|].
  2: { intros ->. by eapply Resolve_ok. }
  apply IH in H as (Hout & Hin & Hall); [|done|done].
  assert (Hkeep : forall cfg, cfg ∈ Resolver_InputConfigs r -> m' !! Name cfg = m1 !! Name cfg).
  { intros cfg Hcfg. apply Hout, Hdisj. by apply list_elem_of_fmap_2. }
  split_and!.
  - intros n Hn. rewrite elem_of_app in Hn. rewrite Hout, Hout1; tauto.
  - intros cfg [Hcfg|Hcfg]%elem_of_app; [|by apply Hin].
    rewrite Hkeep by done. destruct (Hin1 cfg Hcfg) as (res & Hm & Hres').
    exists res. split; [done|]. destruct (String.eqb err ""); auto.
  - rewrite Hall, andb_true_iff. split.
    + intros [[Hr1 Herr] Hrest]. split; [done|]. rewrite Herr in Hin1.
      intros cfg [Hcfg|Hcfg]%elem_of_app; [|by apply Hrest]. rewrite Hkeep by done. by apply Hin1.
    + intros [Hr1 Hrest]. split_and!; [done| |intros cfg Hcfg; apply Hrest, elem_of_app; by right].
      destruct (String.eqb err "") eqn:Herr; [done|]. exfalso.
      assert (Hne : Resolver_InputConfigs r <> []) by (destruct r; try done; apply Hr).
      destruct (Resolver_InputConfigs r) as [|cfg cfgs]; [done|].
      destruct (Hin1 cfg ltac:(left)) as (res & Hm & Hf).
      destruct (Hrest cfg ltac:(set_solver)) as (res' & Hm' & Hres').
      rewrite Hkeep in Hm' by left. simplify_eq.
      destruct Hf as (_ & _ & Hf). destruct Hres' as (? & ? & _ & _ & ? & _). done.
Qed.

Context {ret : VersionsDBReturns db}.

Lemma Resolve_returns bfuel r :
  resolver_ok r -> (max_builds < bfuel)%nat -> returns (Resolve bfuel r).
Proof.
  intros Hok Hb. destruct r as [cfg|cfg|cfgs]; cbn.
  - unfold individual_Resolve. destruct (UseEveryVersion cfg);
      (apply returns_bind; [eauto with go|]); [intros [[? ?]|] _|intros [?|] _]; done.
  - unfold pinned_Resolve. apply returns_bind; [eauto with go|]. by intros [?|] _.
  - apply group_Resolve_returns; [apply Hok|done|lia].
Qed.

Lemma candidatesToInputMapping_returns cfgs (cands : gmap string (option versionCandidate)) err m :
  (err = "" -> forall cfg, cfg ∈ cfgs -> exists c, cands !! Name cfg = Some (Some c)) ->
  returns (candidatesToInputMapping m cfgs cands err).
Proof.
  revert m. induction cfgs as [|cfg cfgs IH]; cbn [candidatesToInputMapping]; intros m Hc; [done|].
  destruct (String.eqb_spec err "") as [->|Hne]; cbn [negb]; [|by apply IH].
  destruct (Hc eq_refl cfg ltac:(left)) as (c & ->). cbn.
  apply returns_bind; [eauto with go|]. intros first _. apply IH. intros _ cfg' ?. apply Hc; [done|by right].
Qed.

Lemma finalizeHasNext_returns (cands : gmap string (option versionCandidate)) :
  map_Forall (fun _ c => is_Some c) cands -> exists b, finalizeHasNext cands = Ret b.
Proof.
  intros Hs. unfold finalizeHasNext.
  assert (Hl : Forall (fun kc => is_Some kc.2) (map_to_list cands)).
  { apply Forall_forall. intros [k c] Hin%elem_of_map_to_list. by apply (Hs k c). }
  generalize false. induction Hl as [|[k c] l [c' Hc] Hl IH]; intros b; cbn in *; [eauto|].
  rewrite Hc. destruct b; cbn; apply IH.
Qed.

Lemma computeResolvers_returns bfuel rs m resolved hasNext :
  Forall resolver_ok rs -> NoDup (Name <$> inputs_of rs) -> (max_builds < bfuel)%nat ->
  returns (computeResolvers bfuel rs m resolved hasNext).
Proof.
  intros Hok Hnd Hb. revert m resolved hasNext.
  induction Hok as [|r rs Hr Hok IH]; intros m resolved hasNext; [done|].
  rewrite fmap_cons in Hnd. cbn [concat computeResolvers] in *. rewrite fmap_app in Hnd.
  apply NoDup_app in Hnd as (Hnd1 & _ & Hnd2).
  apply returns_bind; [by apply Resolve_returns|]. intros [cands err] Hres.
  apply returns_bind.
  { apply candidatesToInputMapping_returns. intros -> cfg Hcfg.
    eapply Resolve_ok in Hres as (c & ? & _); eauto. }
  intros m1 _. destruct (finalizeHasNext_returns cands) as [b Hfin]; [by eapply Resolve_some|].
  destruct hasNext; rewrite ?Hfin; cbn; by apply IH.
Qed.
End ComputeSpec.

(** ** Main theorems *)

(** C1: When [Algorithm_Compute] reports the job as resolved, every input has a mapping
    entry whose version was chosen by the rule for its configuration. *)
Theorem Compute_resolved {db : VersionsDB} {laws : VersionsDBLaws db} range bfuel inputs
    mapping resolved hasNext :
  (forall s, range s ≡ₚ elements s) -> NoDup (Name <$> inputs) ->
  Algorithm_Compute range bfuel inputs = Ret (mapping, resolved, hasNext) ->
  dom mapping = list_to_set (Name <$> inputs) /\
  (forall cfg, cfg ∈ inputs -> exists res, mapping !! Name cfg = Some res /\
     (input_ok cfg res \/ input_failed res)) /\
  (resolved = true <->
     forall cfg, cfg ∈ inputs -> exists res, mapping !! Name cfg = Some res /\ input_ok cfg res).
Proof.
  intros Hrange Hnd H. destruct (constructResolvers_ok range Hrange inputs) as [Hok Hp].
  apply computeResolvers_ok in H as (Hout & Hin & Hall); [|done|by rewrite Hp].
  setoid_rewrite Hp in Hin. setoid_rewrite Hp in Hall. setoid_rewrite Hp in Hout.
  split_and!; [|done|tauto].
  apply set_eq. intros n. rewrite elem_of_dom, elem_of_list_to_set. split.
  - intros [res Hres]. destruct (decide (n ∈ Name <$> inputs)) as [|Hn]; [done|].
    by rewrite Hout in Hres.
  - intros (cfg & -> & Hcfg)%list_elem_of_fmap. destruct (Hin cfg Hcfg) as (res & -> & _). done.
Qed.

(** C2: [Algorithm_Compute] returns: the search terminates within the fuel of the model, no
    nil candidate is dereferenced and no index is out of range. *)
Theorem Compute_returns {db : VersionsDB} {laws : VersionsDBLaws db} {ret : VersionsDBReturns db}
    range bfuel inputs :
  (forall s, range s ≡ₚ elements s) -> NoDup (Name <$> inputs) -> (max_builds < bfuel)%nat ->
  returns (Algorithm_Compute range bfuel inputs).
Proof.
  intros Hrange Hnd Hb. destruct (constructResolvers_ok range Hrange inputs) as [Hok Hp].
  apply computeResolvers_returns; [done|by rewrite Hp|done].
Qed.

(** ** How inputs with passed constraints are grouped *)

Definition share (a b : InputConfig) : Prop := exists j, j ∈ Passed a /\ j ∈ Passed b.

Lemma addToGroups_disjoint range groups inputs cfg :
  (forall s, range s ≡ₚ elements s) ->
  Forall group_ok groups -> concat (rel_inputConfigs <$> groups) ≡ₚ inputs ->
  (forall a b, a ∈ inputs -> b ∈ inputs -> share a cfg -> share cfg b -> share a b) ->
  (forall i k g h, groups !! i = Some g -> groups !! k = Some h -> i <> k ->
     passedJobs g ## passedJobs h) ->
  forall i k g h, addToGroups range groups cfg !! i = Some g ->
    addToGroups range groups cfg !! k = Some h -> i <> k -> passedJobs g ## passedJobs h.
Proof.
  intros Hrange Hok Hp Htr Hdis.
  assert (Hmem : forall i g j, groups !! i = Some g -> j ∈ passedJobs g ->
    exists a, a ∈ inputs /\ j ∈ Passed a /\ a ∈ rel_inputConfigs g).
  { intros i g j Hg Hj. rewrite Forall_forall in Hok.
    apply (go_jobs g) in Hj as (a & Ha & Hja); [|by eapply Hok, list_elem_of_lookup_2].
    exists a. split_and!; [|done|done]. rewrite <- Hp. apply elem_of_concat.
    eexists. split; [by eapply list_elem_of_fmap_2, list_elem_of_lookup_2|done]. }
  assert (Hjob : forall i g a j, groups !! i = Some g -> a ∈ rel_inputConfigs g -> j ∈ Passed a ->
    j ∈ passedJobs g).
  { intros i g a j Hg Ha Hj. rewrite Forall_forall in Hok.
    apply go_jobs; [by eapply Hok, list_elem_of_lookup_2|]. eauto. }
  unfold addToGroups. assert (Hf := findGroup_spec range Hrange groups cfg).
  destruct (findGroup range groups cfg) as [x|].
  - destruct Hf as (gx & jx & Hgx & Hjc & Hjx).
    (* a group other than [x] has no job of [cfg] *)
    assert (Hother : forall k h, groups !! k = Some h -> k <> x -> Passed cfg ## passedJobs h).
    { intros k h Hh Hne j Hj Hjh.
      destruct (Hmem x gx jx Hgx Hjx) as (a & Ha & Hja & Hag).
      destruct (Hmem k h j Hh Hjh) as (b & Hb & Hjb & Hbh).
      destruct (Htr a b Ha Hb) as (j' & Hj'a & Hj'b); [by exists jx|by exists j|].
      apply (Hdis x k gx h Hgx Hh ltac:(done) j'); eauto. }
    intros i k g h Hg Hh Hne. destruct (decide (x = i)) as [<-|Hi], (decide (x = k)) as [<-|Hk]; [done|..].
    + rewrite list_lookup_alter_eq, Hgx in Hg. rewrite list_lookup_alter_ne in Hh by done.
      cbn in Hg. simplify_eq. cbn.
      assert (passedJobs gx ## passedJobs h) by (eapply Hdis; eauto).
      assert (Passed cfg ## passedJobs h) by (eapply Hother; eauto). set_solver.
    + rewrite list_lookup_alter_eq, Hgx in Hh. rewrite list_lookup_alter_ne in Hg by done.
      cbn in Hh. simplify_eq. cbn.
      assert (passedJobs g ## passedJobs gx) by (eapply Hdis; eauto).
      assert (Passed cfg ## passedJobs g) by (eapply Hother; eauto). set_solver.
    + rewrite list_lookup_alter_ne in Hg, Hh by done. eapply Hdis; eauto.
  - rewrite Forall_forall in Hf.
    intros i k g h Hg Hh Hne.
    apply lookup_app_Some in Hg as [Hg|[Hi Hg]], Hh as [|[Hk Hh]]; [by eapply Hdis|..].
    + apply list_lookup_singleton_Some in Hh as [_ <-]. cbn.
      symmetry. by eapply Hf, list_elem_of_lookup_2.
    + apply list_lookup_singleton_Some in Hg as [_ <-]. cbn. by eapply Hf, list_elem_of_lookup_2.
    + apply list_lookup_singleton_Some in Hh as [? <-], Hg as [? <-]. lia.
Qed.

(** If sharing a passed job is transitive among the inputs, no two groups
    share a passed job, whatever the order in which Go visits the maps. *)
Theorem groups_disjoint range inputs :
  (forall s, range s ≡ₚ elements s) ->
  (forall a b c, a ∈ inputs -> b ∈ inputs -> c ∈ inputs -> share a b -> share b c -> share a c) ->
  forall i k g h,
    groupInputsConfigsByPassedJobs range inputs !! i = Some g ->
    groupInputsConfigsByPassedJobs range inputs !! k = Some h ->
    i <> k -> passedJobs g ## passedJobs h.
Proof.
  intros Hrange. induction inputs as [|cfg inputs IH] using rev_ind; intros Htr; [done|].
  destruct (groups_ok range Hrange inputs) as [Hok Hp].
  unfold groupInputsConfigsByPassedJobs in *. rewrite foldl_snoc.
  apply (addToGroups_disjoint range _ inputs); try done.
  - intros a b Ha Hb. apply Htr; set_solver.
  - apply IH. intros a b c ? ? ?. apply Htr; set_solver.
Qed.

(** An input that passed a set of jobs. *)
Definition passed_input (name : string) (passed : JobSet) : InputConfig :=
  {| Name := name; Trigger := true; Passed := passed; UseEveryVersion := false;
     PinnedVersion := None; ResourceID := 10; JobID := 9 |}.

(** Without transitivity the groups are not merged: inputs "a" (passed 1),
    "b" (passed 2) and "c" (passed 1 and 2) end in two groups that share a
    passed job, so they are resolved independently of each other. *)
Theorem groups_not_merged range :
  (forall s, range s ≡ₚ elements s) ->
  exists g h, groupInputsConfigsByPassedJobs range
      [passed_input "a" {[1]}; passed_input "b" {[2]}; passed_input "c" {[1; 2]}] = [g; h] /\
    ~ passedJobs g ## passedJobs h.
Proof.
  intros Hrange.
  assert (H1 : range {[1]} = [1]).
  { apply Permutation_singleton_r. by rewrite Hrange, elements_singleton. }
  assert (H2 : range {[2]} = [2]).
  { apply Permutation_singleton_r. by rewrite Hrange, elements_singleton. }
  unfold groupInputsConfigsByPassedJobs. cbn [foldl].
  unfold addToGroups at 3, findGroup; cbn [passed_input Passed]. rewrite H1. cbn [foldl imap].
  unfold addToGroups at 2, findGroup; cbn [passed_input Passed]. rewrite H2. cbn [foldl imap app].
  cbn [passedJobs]. rewrite bool_decide_eq_false_2 by set_solver.
  unfold addToGroups. assert (Hf := findGroup_spec range Hrange
    [{| passedJobs := {[1]}; rel_inputConfigs := [passed_input "a" {[1]}] |};
     {| passedJobs := {[2]}; rel_inputConfigs := [passed_input "b" {[2]}] |}]
    (passed_input "c" {[1; 2]})).
  cbn [app]. destruct (findGroup range _ (passed_input "c" {[1; 2]})) as [[|[|i]]|].
  - do 2 eexists. split; [reflexivity|]. cbn. set_solver.
  - do 2 eexists. split; [reflexivity|]. cbn. set_solver.
  - destruct Hf as (g & j & Hg & _). done.
  - apply Forall_cons in Hf as [Hf _]. cbn in Hf. exfalso. apply (Hf 1); set_solver.
Qed.

(** ** At the example database *)

Definition example_inputs : InputConfigs :=
  [example_input true None;
   {| Name := "latest"; Trigger := false; Passed := ∅; UseEveryVersion := false;
      PinnedVersion := None; ResourceID := 10; JobID := 9 |}].

Lemma example_inputs_names : NoDup (Name <$> example_inputs).
Proof. apply (bool_decide_eq_true_1 _). vm_compute. reflexivity. Qed.

Lemma example_compute : exists mapping,
  Algorithm_Compute (db := example_db) elements 20 example_inputs = Ret (mapping, true, true).
Proof. eexists. vm_compute. reflexivity. Qed.

Lemma Compute_resolved_witness :
  exists mapping, Algorithm_Compute (db := example_db) elements 20 example_inputs = Ret (mapping, true, true) /\
    (forall cfg, cfg ∈ example_inputs -> exists res, mapping !! Name cfg = Some res /\
       input_ok (laws := example_laws) cfg res).
Proof.
  destruct example_compute as [m Hm]. exists m. split; [exact Hm|].
  apply (Compute_resolved (laws := example_laws) elements 20 example_inputs m true true);
    [done|apply example_inputs_names|exact Hm|reflexivity].
Defined.

Lemma Compute_returns_witness :
  returns (Algorithm_Compute (db := example_db) elements 20 example_inputs).
Proof.
  apply (Compute_returns (laws := example_laws) (ret := example_returns));
    [done|apply example_inputs_names|vm_compute; lia].
Defined.

Lemma groups_disjoint_witness :
  let groups := groupInputsConfigsByPassedJobs elements
    [passed_input "a" {[1]}; passed_input "b" {[2]}; passed_input "c" {[1]}] in
  exists g h, groups = [g; h] /\ passedJobs g ## passedJobs h.
Proof.
  cbn zeta. set (inputs := [passed_input "a" {[1]}; passed_input "b" {[2]}; passed_input "c" {[1]}]).
  destruct (groupInputsConfigsByPassedJobs elements inputs) as [|g [|h [|? ?]]] eqn:E;
    [vm_compute in E; discriminate..| |vm_compute in E; discriminate].
  exists g, h. split; [done|].
  apply (groups_disjoint elements inputs) with (i := 0%nat) (k := 1%nat); rewrite ?E; try done.
  assert (Hone : forall x, x ∈ inputs -> exists n, Passed x = {[n]}).
  { intros x [->|[->|[->|[]%elem_of_nil]%elem_of_cons]%elem_of_cons]%elem_of_cons; by eexists. }
  intros a b c [na Ea]%Hone [nb Eb]%Hone [nc Ec]%Hone. unfold share. rewrite Ea, Eb, Ec.
  intros (j & ->%elem_of_singleton & ->%elem_of_singleton) (k & ->%elem_of_singleton & ->%elem_of_singleton).
  exists nc. by rewrite elem_of_singleton.
Defined.

Lemma groups_not_merged_witness :
  exists g h, groupInputsConfigsByPassedJobs elements
      [passed_input "a" {[1]}; passed_input "b" {[2]}; passed_input "c" {[1; 2]}] = [g; h] /\
    ~ passedJobs g ## passedJobs h.
Proof. apply (groups_not_merged elements). done. Defined.
