(* ===== verification/Tables.v ===== *)
(** * The tables of jobs and builds

    The rows of the tables the scheduler reads and writes, restricted to the
    columns the operations of [JobTables] use, and the functions that replace
    one column of a row.  A table is a map from primary keys to rows, or the
    list of its rows where it has no key of its own. *)
From stdpp Require Import base gmap sets list strings.
From Stdlib Require Import ZArith.
Open Scope Z_scope.

(** ** Rows *)

Inductive BuildStatus :=
| BuildStatusPending
| BuildStatusStarted
| BuildStatusAborted
| BuildStatusSucceeded
| BuildStatusFailed
| BuildStatusErrored.

#[global] Instance BuildStatus_eq_dec : EqDecision BuildStatus.
Proof. solve_decision. Defined.

(** [jobs] *)
Record JobRow := {
  jr_name : string;
  jr_pipeline_id : Z;
  jr_paused : bool;
  jr_active : bool;
  jr_has_config : bool;
  jr_inputs_determined : bool;
  jr_has_new_inputs : bool;
  jr_max_in_flight : Z;
  jr_max_in_flight_reached : bool;
  jr_build_number_seq : Z;
  jr_schedule_requested : Z;
  jr_last_scheduled : Z;
  jr_next_build_id : option Z;
  jr_latest_completed_build_id : option Z;
  jr_transition_build_id : option Z;
}.

(** [builds]; the columns of the plan are [br_has_plan]. *)
Record BuildsRow := {
  br_name : string;
  br_job_id : option Z;
  br_pipeline_id : option Z;
  br_status : BuildStatus;
  br_scheduled : bool;
  br_completed : bool;
  br_aborted : bool;
  br_interceptible : bool;
  br_manually_triggered : bool;
  br_inputs_ready : bool;
  br_has_plan : bool;
  br_rerun_of : option Z;
  br_rerun_of_old : option Z;
  br_rerun_number : option Z;
  br_create_time : Z;
  br_created_by : option string;
}.

(** [pipelines] *)
Record PipelineRow := {
  pr_paused : bool;
  pr_paused_by : option string;
  pr_archived : bool;
  pr_version : Z;
  pr_parent_job_id : option Z;
  pr_parent_build_id : option Z;
  (** [p.template AND p.instance_vars IS NULL] *)
  pr_base_template : bool;
}.

(** [job_inputs]; [ji_version] is the parsed [version] column. *)
Record VersionConfig := { vc_Every : bool; vc_Pinned : option (gmap string string) }.

#[global] Instance VersionConfig_eq_dec : EqDecision VersionConfig.
Proof. solve_decision. Defined.

Record JobInputRow := {
  ji_job_id : Z;
  ji_name : string;
  ji_resource_id : Z;
  ji_passed_job_id : option Z;
  ji_version : option VersionConfig;
  ji_trigger : bool;
}.

(** [resources] joined with [resource_config_scopes]: the scope and the end
    of its last check. *)
Record ResourceRow := {
  rr_scope : option Z;
  rr_last_check_end_time : Z;
  rr_has_config : bool;
  rr_pipeline_id : Z;
}.

(** [resource_config_versions] *)
Record ScopeVersionRow := {
  sv_scope : Z;
  sv_version : gmap string string;
  sv_md5 : option string;
  sv_sha256 : string;
}.

(** [next_build_inputs] *)
Record NextInputRow := {
  ni_job_id : Z;
  ni_input_name : string;
  ni_version_digest : option string;
  ni_resource_id : option Z;
  ni_first_occurrence : option bool;
  ni_resolve_error : option string;
}.

(** [build_resource_config_version_inputs] *)
Record InputRow := {
  in_build_id : Z;
  in_resource_id : Z;
  in_version_digest : string;
  in_name : string;
  in_first_occurrence : bool;
}.

(** [successful_build_outputs] *)
Record SuccessRow := {
  su_build_id : Z;
  su_job_id : Z;
  su_rerun_of : option Z;
  su_outputs : gmap string (list string);
}.

(** [NOTIFY]s, delivered on commit. *)
Inductive Notification :=
| NotifyScheduler (payload : list Z)
| NotifyChannel (channel : string).

Record Tables := {
  tb_jobs : gmap Z JobRow;
  tb_builds : gmap Z BuildsRow;
  tb_builds_id_seq : Z;
  tb_pipelines : gmap Z PipelineRow;
  (** [jobs_serial_groups]: (job_id, serial_group) *)
  tb_serial_groups : list (Z * string);
  tb_job_inputs : list JobInputRow;
  tb_resources : gmap Z ResourceRow;
  (** [resource_pins]: (resource_id, version) *)
  tb_resource_pins : list (Z * gmap string string);
  tb_versions : list ScopeVersionRow;
  tb_next_build_inputs : list NextInputRow;
  (** [next_build_pipes]: (from_build_id, to_job_id) *)
  tb_next_build_pipes : list (Z * Z);
  tb_build_inputs : list InputRow;
  (** [build_resource_config_version_outputs]: (build_id, resource_id, digest) *)
  tb_build_outputs : list (Z * Z * string);
  (** [build_pipes]: (from_build_id, to_build_id) *)
  tb_build_pipes : list (Z * Z);
  tb_successful_build_outputs : list SuccessRow;
  (** [build_image_resource_caches]: (job_id, build_id) *)
  tb_image_caches : list (Z * Z);
  (** the [Status] events saved for builds *)
  tb_status_events : list (Z * BuildStatus);
  tb_notifications : list Notification;
}.

(** ** Column updates *)

Definition set_tb_jobs (f : (gmap Z JobRow) -> (gmap Z JobRow)) (st : Tables) : Tables :=
  Build_Tables (f (tb_jobs st)) (tb_builds st) (tb_builds_id_seq st) (tb_pipelines st)
    (tb_serial_groups st) (tb_job_inputs st) (tb_resources st) (tb_resource_pins st)
    (tb_versions st) (tb_next_build_inputs st) (tb_next_build_pipes st) (tb_build_inputs st)
    (tb_build_outputs st) (tb_build_pipes st) (tb_successful_build_outputs st)
    (tb_image_caches st) (tb_status_events st) (tb_notifications st).
Definition set_tb_builds (f : (gmap Z BuildsRow) -> (gmap Z BuildsRow)) (st : Tables) : Tables :=
  Build_Tables (tb_jobs st) (f (tb_builds st)) (tb_builds_id_seq st) (tb_pipelines st)
    (tb_serial_groups st) (tb_job_inputs st) (tb_resources st) (tb_resource_pins st)
    (tb_versions st) (tb_next_build_inputs st) (tb_next_build_pipes st) (tb_build_inputs st)
    (tb_build_outputs st) (tb_build_pipes st) (tb_successful_build_outputs st)
    (tb_image_caches st) (tb_status_events st) (tb_notifications st).
Definition set_tb_builds_id_seq (f : Z -> Z) (st : Tables) : Tables :=
  Build_Tables (tb_jobs st) (tb_builds st) (f (tb_builds_id_seq st)) (tb_pipelines st)
    (tb_serial_groups st) (tb_job_inputs st) (tb_resources st) (tb_resource_pins st)
    (tb_versions st) (tb_next_build_inputs st) (tb_next_build_pipes st) (tb_build_inputs st)
    (tb_build_outputs st) (tb_build_pipes st) (tb_successful_build_outputs st)
    (tb_image_caches st) (tb_status_events st) (tb_notifications st).
Definition set_tb_pipelines (f : (gmap Z PipelineRow) -> (gmap Z PipelineRow)) (st : Tables) : Tables :=
  Build_Tables (tb_jobs st) (tb_builds st) (tb_builds_id_seq st) (f (tb_pipelines st))
    (tb_serial_groups st) (tb_job_inputs st) (tb_resources st) (tb_resource_pins st)
    (tb_versions st) (tb_next_build_inputs st) (tb_next_build_pipes st) (tb_build_inputs st)
    (tb_build_outputs st) (tb_build_pipes st) (tb_successful_build_outputs st)
    (tb_image_caches st) (tb_status_events st) (tb_notifications st).
Definition set_tb_resources (f : (gmap Z ResourceRow) -> (gmap Z ResourceRow)) (st : Tables) : Tables :=
  Build_Tables (tb_jobs st) (tb_builds st) (tb_builds_id_seq st) (tb_pipelines st)
    (tb_serial_groups st) (tb_job_inputs st) (f (tb_resources st)) (tb_resource_pins st)
    (tb_versions st) (tb_next_build_inputs st) (tb_next_build_pipes st) (tb_build_inputs st)
    (tb_build_outputs st) (tb_build_pipes st) (tb_successful_build_outputs st)
    (tb_image_caches st) (tb_status_events st) (tb_notifications st).
Definition set_tb_next_build_inputs (f : (list NextInputRow) -> (list NextInputRow)) (st : Tables) : Tables :=
  Build_Tables (tb_jobs st) (tb_builds st) (tb_builds_id_seq st) (tb_pipelines st)
    (tb_serial_groups st) (tb_job_inputs st) (tb_resources st) (tb_resource_pins st)
    (tb_versions st) (f (tb_next_build_inputs st)) (tb_next_build_pipes st) (tb_build_inputs
    st) (tb_build_outputs st) (tb_build_pipes st) (tb_successful_build_outputs st)
    (tb_image_caches st) (tb_status_events st) (tb_notifications st).
Definition set_tb_next_build_pipes (f : (list (Z * Z)) -> (list (Z * Z))) (st : Tables) : Tables :=
  Build_Tables (tb_jobs st) (tb_builds st) (tb_builds_id_seq st) (tb_pipelines st)
    (tb_serial_groups st) (tb_job_inputs st) (tb_resources st) (tb_resource_pins st)
    (tb_versions st) (tb_next_build_inputs st) (f (tb_next_build_pipes st)) (tb_build_inputs
    st) (tb_build_outputs st) (tb_build_pipes st) (tb_successful_build_outputs st)
    (tb_image_caches st) (tb_status_events st) (tb_notifications st).
Definition set_tb_build_inputs (f : (list InputRow) -> (list InputRow)) (st : Tables) : Tables :=
  Build_Tables (tb_jobs st) (tb_builds st) (tb_builds_id_seq st) (tb_pipelines st)
    (tb_serial_groups st) (tb_job_inputs st) (tb_resources st) (tb_resource_pins st)
    (tb_versions st) (tb_next_build_inputs st) (tb_next_build_pipes st) (f (tb_build_inputs
    st)) (tb_build_outputs st) (tb_build_pipes st) (tb_successful_build_outputs st)
    (tb_image_caches st) (tb_status_events st) (tb_notifications st).
Definition set_tb_build_pipes (f : (list (Z * Z)) -> (list (Z * Z))) (st : Tables) : Tables :=
  Build_Tables (tb_jobs st) (tb_builds st) (tb_builds_id_seq st) (tb_pipelines st)
    (tb_serial_groups st) (tb_job_inputs st) (tb_resources st) (tb_resource_pins st)
    (tb_versions st) (tb_next_build_inputs st) (tb_next_build_pipes st) (tb_build_inputs st)
    (tb_build_outputs st) (f (tb_build_pipes st)) (tb_successful_build_outputs st)
    (tb_image_caches st) (tb_status_events st) (tb_notifications st).
Definition set_tb_successful_build_outputs (f : (list SuccessRow) -> (list SuccessRow)) (st : Tables) : Tables :=
  Build_Tables (tb_jobs st) (tb_builds st) (tb_builds_id_seq st) (tb_pipelines st)
    (tb_serial_groups st) (tb_job_inputs st) (tb_resources st) (tb_resource_pins st)
    (tb_versions st) (tb_next_build_inputs st) (tb_next_build_pipes st) (tb_build_inputs st)
    (tb_build_outputs st) (tb_build_pipes st) (f (tb_successful_build_outputs st))
    (tb_image_caches st) (tb_status_events st) (tb_notifications st).
Definition set_tb_image_caches (f : (list (Z * Z)) -> (list (Z * Z))) (st : Tables) : Tables :=
  Build_Tables (tb_jobs st) (tb_builds st) (tb_builds_id_seq st) (tb_pipelines st)
    (tb_serial_groups st) (tb_job_inputs st) (tb_resources st) (tb_resource_pins st)
    (tb_versions st) (tb_next_build_inputs st) (tb_next_build_pipes st) (tb_build_inputs st)
    (tb_build_outputs st) (tb_build_pipes st) (tb_successful_build_outputs st) (f
    (tb_image_caches st)) (tb_status_events st) (tb_notifications st).
Definition set_tb_status_events (f : (list (Z * BuildStatus)) -> (list (Z * BuildStatus))) (st : Tables) : Tables :=
  Build_Tables (tb_jobs st) (tb_builds st) (tb_builds_id_seq st) (tb_pipelines st)
    (tb_serial_groups st) (tb_job_inputs st) (tb_resources st) (tb_resource_pins st)
    (tb_versions st) (tb_next_build_inputs st) (tb_next_build_pipes st) (tb_build_inputs st)
    (tb_build_outputs st) (tb_build_pipes st) (tb_successful_build_outputs st)
    (tb_image_caches st) (f (tb_status_events st)) (tb_notifications st).
Definition set_tb_notifications (f : (list Notification) -> (list Notification)) (st : Tables) : Tables :=
  Build_Tables (tb_jobs st) (tb_builds st) (tb_builds_id_seq st) (tb_pipelines st)
    (tb_serial_groups st) (tb_job_inputs st) (tb_resources st) (tb_resource_pins st)
    (tb_versions st) (tb_next_build_inputs st) (tb_next_build_pipes st) (tb_build_inputs st)
    (tb_build_outputs st) (tb_build_pipes st) (tb_successful_build_outputs st)
    (tb_image_caches st) (tb_status_events st) (f (tb_notifications st)).
Definition set_jr_paused (f : bool -> bool) (r : JobRow) : JobRow :=
  Build_JobRow (jr_name r) (jr_pipeline_id r) (f (jr_paused r)) (jr_active r) (jr_has_config
    r) (jr_inputs_determined r) (jr_has_new_inputs r) (jr_max_in_flight r)
    (jr_max_in_flight_reached r) (jr_build_number_seq r) (jr_schedule_requested r)
    (jr_last_scheduled r) (jr_next_build_id r) (jr_latest_completed_build_id r)
    (jr_transition_build_id r).
Definition set_jr_has_config (f : bool -> bool) (r : JobRow) : JobRow :=
  Build_JobRow (jr_name r) (jr_pipeline_id r) (jr_paused r) (jr_active r) (f (jr_has_config
    r)) (jr_inputs_determined r) (jr_has_new_inputs r) (jr_max_in_flight r)
    (jr_max_in_flight_reached r) (jr_build_number_seq r) (jr_schedule_requested r)
    (jr_last_scheduled r) (jr_next_build_id r) (jr_latest_completed_build_id r)
    (jr_transition_build_id r).
Definition set_jr_inputs_determined (f : bool -> bool) (r : JobRow) : JobRow :=
  Build_JobRow (jr_name r) (jr_pipeline_id r) (jr_paused r) (jr_active r) (jr_has_config r)
    (f (jr_inputs_determined r)) (jr_has_new_inputs r) (jr_max_in_flight r)
    (jr_max_in_flight_reached r) (jr_build_number_seq r) (jr_schedule_requested r)
    (jr_last_scheduled r) (jr_next_build_id r) (jr_latest_completed_build_id r)
    (jr_transition_build_id r).
Definition set_jr_has_new_inputs (f : bool -> bool) (r : JobRow) : JobRow :=
  Build_JobRow (jr_name r) (jr_pipeline_id r) (jr_paused r) (jr_active r) (jr_has_config r)
    (jr_inputs_determined r) (f (jr_has_new_inputs r)) (jr_max_in_flight r)
    (jr_max_in_flight_reached r) (jr_build_number_seq r) (jr_schedule_requested r)
    (jr_last_scheduled r) (jr_next_build_id r) (jr_latest_completed_build_id r)
    (jr_transition_build_id r).
Definition set_jr_max_in_flight_reached (f : bool -> bool) (r : JobRow) : JobRow :=
  Build_JobRow (jr_name r) (jr_pipeline_id r) (jr_paused r) (jr_active r) (jr_has_config r)
    (jr_inputs_determined r) (jr_has_new_inputs r) (jr_max_in_flight r) (f
    (jr_max_in_flight_reached r)) (jr_build_number_seq r) (jr_schedule_requested r)
    (jr_last_scheduled r) (jr_next_build_id r) (jr_latest_completed_build_id r)
    (jr_transition_build_id r).
Definition set_jr_build_number_seq (f : Z -> Z) (r : JobRow) : JobRow :=
  Build_JobRow (jr_name r) (jr_pipeline_id r) (jr_paused r) (jr_active r) (jr_has_config r)
    (jr_inputs_determined r) (jr_has_new_inputs r) (jr_max_in_flight r)
    (jr_max_in_flight_reached r) (f (jr_build_number_seq r)) (jr_schedule_requested r)
    (jr_last_scheduled r) (jr_next_build_id r) (jr_latest_completed_build_id r)
    (jr_transition_build_id r).
Definition set_jr_schedule_requested (f : Z -> Z) (r : JobRow) : JobRow :=
  Build_JobRow (jr_name r) (jr_pipeline_id r) (jr_paused r) (jr_active r) (jr_has_config r)
    (jr_inputs_determined r) (jr_has_new_inputs r) (jr_max_in_flight r)
    (jr_max_in_flight_reached r) (jr_build_number_seq r) (f (jr_schedule_requested r))
    (jr_last_scheduled r) (jr_next_build_id r) (jr_latest_completed_build_id r)
    (jr_transition_build_id r).
Definition set_jr_last_scheduled (f : Z -> Z) (r : JobRow) : JobRow :=
  Build_JobRow (jr_name r) (jr_pipeline_id r) (jr_paused r) (jr_active r) (jr_has_config r)
    (jr_inputs_determined r) (jr_has_new_inputs r) (jr_max_in_flight r)
    (jr_max_in_flight_reached r) (jr_build_number_seq r) (jr_schedule_requested r) (f
    (jr_last_scheduled r)) (jr_next_build_id r) (jr_latest_completed_build_id r)
    (jr_transition_build_id r).
Definition set_jr_next_build_id (f : (option Z) -> (option Z)) (r : JobRow) : JobRow :=
  Build_JobRow (jr_name r) (jr_pipeline_id r) (jr_paused r) (jr_active r) (jr_has_config r)
    (jr_inputs_determined r) (jr_has_new_inputs r) (jr_max_in_flight r)
    (jr_max_in_flight_reached r) (jr_build_number_seq r) (jr_schedule_requested r)
    (jr_last_scheduled r) (f (jr_next_build_id r)) (jr_latest_completed_build_id r)
    (jr_transition_build_id r).
Definition set_jr_latest_completed_build_id (f : (option Z) -> (option Z)) (r : JobRow) : JobRow :=
  Build_JobRow (jr_name r) (jr_pipeline_id r) (jr_paused r) (jr_active r) (jr_has_config r)
    (jr_inputs_determined r) (jr_has_new_inputs r) (jr_max_in_flight r)
    (jr_max_in_flight_reached r) (jr_build_number_seq r) (jr_schedule_requested r)
    (jr_last_scheduled r) (jr_next_build_id r) (f (jr_latest_completed_build_id r))
    (jr_transition_build_id r).
Definition set_jr_transition_build_id (f : (option Z) -> (option Z)) (r : JobRow) : JobRow :=
  Build_JobRow (jr_name r) (jr_pipeline_id r) (jr_paused r) (jr_active r) (jr_has_config r)
    (jr_inputs_determined r) (jr_has_new_inputs r) (jr_max_in_flight r)
    (jr_max_in_flight_reached r) (jr_build_number_seq r) (jr_schedule_requested r)
    (jr_last_scheduled r) (jr_next_build_id r) (jr_latest_completed_build_id r) (f
    (jr_transition_build_id r)).
Definition set_br_status (f : BuildStatus -> BuildStatus) (r : BuildsRow) : BuildsRow :=
  Build_BuildsRow (br_name r) (br_job_id r) (br_pipeline_id r) (f (br_status r))
    (br_scheduled r) (br_completed r) (br_aborted r) (br_interceptible r)
    (br_manually_triggered r) (br_inputs_ready r) (br_has_plan r) (br_rerun_of r)
    (br_rerun_of_old r) (br_rerun_number r) (br_create_time r) (br_created_by r).
Definition set_br_scheduled (f : bool -> bool) (r : BuildsRow) : BuildsRow :=
  Build_BuildsRow (br_name r) (br_job_id r) (br_pipeline_id r) (br_status r) (f
    (br_scheduled r)) (br_completed r) (br_aborted r) (br_interceptible r)
    (br_manually_triggered r) (br_inputs_ready r) (br_has_plan r) (br_rerun_of r)
    (br_rerun_of_old r) (br_rerun_number r) (br_create_time r) (br_created_by r).
Definition set_br_completed (f : bool -> bool) (r : BuildsRow) : BuildsRow :=
  Build_BuildsRow (br_name r) (br_job_id r) (br_pipeline_id r) (br_status r) (br_scheduled
    r) (f (br_completed r)) (br_aborted r) (br_interceptible r) (br_manually_triggered r)
    (br_inputs_ready r) (br_has_plan r) (br_rerun_of r) (br_rerun_of_old r) (br_rerun_number
    r) (br_create_time r) (br_created_by r).
Definition set_br_aborted (f : bool -> bool) (r : BuildsRow) : BuildsRow :=
  Build_BuildsRow (br_name r) (br_job_id r) (br_pipeline_id r) (br_status r) (br_scheduled
    r) (br_completed r) (f (br_aborted r)) (br_interceptible r) (br_manually_triggered r)
    (br_inputs_ready r) (br_has_plan r) (br_rerun_of r) (br_rerun_of_old r) (br_rerun_number
    r) (br_create_time r) (br_created_by r).
Definition set_br_interceptible (f : bool -> bool) (r : BuildsRow) : BuildsRow :=
  Build_BuildsRow (br_name r) (br_job_id r) (br_pipeline_id r) (br_status r) (br_scheduled
    r) (br_completed r) (br_aborted r) (f (br_interceptible r)) (br_manually_triggered r)
    (br_inputs_ready r) (br_has_plan r) (br_rerun_of r) (br_rerun_of_old r) (br_rerun_number
    r) (br_create_time r) (br_created_by r).
Definition set_br_inputs_ready (f : bool -> bool) (r : BuildsRow) : BuildsRow :=
  Build_BuildsRow (br_name r) (br_job_id r) (br_pipeline_id r) (br_status r) (br_scheduled
    r) (br_completed r) (br_aborted r) (br_interceptible r) (br_manually_triggered r) (f
    (br_inputs_ready r)) (br_has_plan r) (br_rerun_of r) (br_rerun_of_old r)
    (br_rerun_number r) (br_create_time r) (br_created_by r).
Definition set_br_has_plan (f : bool -> bool) (r : BuildsRow) : BuildsRow :=
  Build_BuildsRow (br_name r) (br_job_id r) (br_pipeline_id r) (br_status r) (br_scheduled
    r) (br_completed r) (br_aborted r) (br_interceptible r) (br_manually_triggered r)
    (br_inputs_ready r) (f (br_has_plan r)) (br_rerun_of r) (br_rerun_of_old r)
    (br_rerun_number r) (br_create_time r) (br_created_by r).
Definition set_rr_has_config (f : bool -> bool) (r : ResourceRow) : ResourceRow :=
  Build_ResourceRow (rr_scope r) (rr_last_check_end_time r) (f (rr_has_config r))
    (rr_pipeline_id r).
