(* ===== verification/JobTables.v ===== *)
(** * Jobs and builds in the database (atc/db/job.go, atc/db/build.go)

    The operations of [Job] and [Build] on the tables of [Tables].  An SQL
    statement is the function its text denotes.  A transaction runs on a copy
    of the tables that replaces them when the code commits ([transaction]);
    the argument [now] of an operation is the value of SQL's [now()], which
    Postgres fixes when the transaction begins.

    The objects [Job] and [Build] of the Go code are snapshots of rows
    ([scanJob], [scanBuild]): an operation reads a field of the snapshot
    where the code does, and the row where the code queries it.

    Failures of the connection are not part of this file: the scheduler is
    proved against an interface whose operations may fail (Scheduler.v). *)
From S2P Require Import Prelude VersionsDB Tables.
From stdpp Require Import base gmap sets list strings sorting pretty.
From Stdlib Require Import ZArith Lia.
Open Scope Z_scope.

(** ** Errors and transactions *)

Inductive dberror :=
| SqlErrNoRows
| ConstraintViolation
| NonOneRowAffectedError (rows : Z)
| InputVersionEmptyError (input : string)
| AgentWorkflowRunCancelingError
| AgentWorkflowRunProvenanceError
| OtherError (message : string).

(** A transaction body returns its result and the tables it commits, or
    [None] when it returns without committing (the deferred [Rollback]). *)
Definition transaction {A} (body : Tables -> outcome dberror (A * option Tables))
    (st : Tables) : outcome dberror A * Tables :=
  match body st with
  | Ret (a, Some st') => (Ret a, st')
  | Ret (a, None) => (Ret a, st)
  | Fail e => (Fail e, st)
  | Panic => (Panic, st)
  | NoFuel => (NoFuel, st)
  end.

Definition notify (n : Notification) (st : Tables) : Tables :=
  set_tb_notifications (fun l => l ++ [n]) st.

Definition notify_all (channels : list string) (st : Tables) : Tables :=
  foldl (fun st c => notify (NotifyChannel c) st) st channels.

Definition update_job (id : Z) (f : JobRow -> JobRow) : Tables -> Tables :=
  set_tb_jobs (alter f id).
Definition update_build (id : Z) (f : BuildsRow -> BuildsRow) : Tables -> Tables :=
  set_tb_builds (alter f id).

(** [result.RowsAffected() != 1] after an [UPDATE .. WHERE id = $1]. *)
Definition one_row {A} (table : gmap Z A) (id : Z) : outcome dberror unit :=
  match table !! id with
  | Some _ => Ret ()
  | None => Fail (NonOneRowAffectedError 0)
  end.

Definition query_row {A} (o : option A) : outcome dberror A :=
  match o with
  | Some a => Ret a
  | None => Fail SqlErrNoRows
  end.

(** ** The agent-workflow component, as jobs and builds call it

    The functions of atc/db/agent_workflow_runs_factory.go and
    workflow_run_owned_pipeline.go that these transactions call: each may
    veto the transaction; the agent_workflow tables they write are their own. *)
Class WorkflowRuns := {
  rejectWorkflowRunOwnedPipeline : Z -> outcome dberror unit;
  rejectWorkflowResourceSourceMutation : Z -> outcome dberror unit;
  captureWorkflowPlan : Z -> outcome dberror unit;
  captureAgentWorkflowRunExecutionStatus : Z -> BuildStatus -> outcome dberror unit;
  terminalizeAgentWorkflowRunPlanningError : Z -> string -> outcome dberror unit;
}.

(** ** Snapshots of rows *)

Record Job := {
  j_id : Z;
  j_name : string;
  j_pipelineID : Z;
  j_paused : bool;
  j_hasNewInputs : bool;
  j_scheduleRequestedTime : Z;
  j_maxInFlight : Z;
}.

Record Build := {
  b_id : Z;
  b_name : string;
  b_jobID : Z;
  b_status : BuildStatus;
  b_scheduled : bool;
  b_isManuallyTriggered : bool;
  b_aborted : bool;
  b_completed : bool;
  b_inputsReady : bool;
  b_rerunOf : Z;
  b_createTime : Z;
}.

Record BuildInput := {
  bi_Name : string;
  bi_Version : gmap string string;
  bi_ResourceID : Z;
  bi_FirstOccurrence : bool;
  bi_ResolveError : string;
}.

Definition scanJob (id : Z) (r : JobRow) : Job :=
  {| j_id := id; j_name := jr_name r; j_pipelineID := jr_pipeline_id r;
     j_paused := jr_paused r; j_hasNewInputs := jr_has_new_inputs r;
     j_scheduleRequestedTime := jr_schedule_requested r; j_maxInFlight := jr_max_in_flight r |}.

(** [COALESCE(b.rerun_of, b.rerun_of_old)] *)
Definition coalesce_rerun (r : BuildsRow) : option Z :=
  match br_rerun_of r with
  | Some x => Some x
  | None => br_rerun_of_old r
  end.

(** A NULL integer scans to 0. *)
Definition scanBuild (id : Z) (r : BuildsRow) : Build :=
  {| b_id := id; b_name := br_name r; b_jobID := default 0 (br_job_id r); b_status := br_status r;
     b_scheduled := br_scheduled r; b_isManuallyTriggered := br_manually_triggered r;
     b_aborted := br_aborted r; b_completed := br_completed r;
     b_inputsReady := br_inputs_ready r; b_rerunOf := default 0 (coalesce_rerun r);
     b_createTime := br_create_time r |}.

(** ** Ordering of builds

    [COALESCE(rerun_of, rerun_of_old, id) ASC, id ASC]: a rerun takes the
    place of the build it reruns. *)
Definition order_key (b : Z * BuildsRow) : Z := default b.1 (coalesce_rerun b.2).

Definition build_le (b1 b2 : Z * BuildsRow) : Prop :=
  order_key b1 < order_key b2 \/ (order_key b1 = order_key b2 /\ b1.1 <= b2.1).

#[global] Instance build_le_dec b1 b2 : Decision (build_le b1 b2).
Proof. unfold build_le. apply _. Defined.

Definition order_builds (l : list (Z * BuildsRow)) : list (Z * BuildsRow) :=
  merge_sort build_le l.

(** ** Scheduling requests *)

Definition requestSchedule (now : Z) (jobID : Z) (tx : Tables) : outcome dberror Tables :=
  let tx' := update_job jobID (set_jr_schedule_requested (fun _ => now)) tx in
  _ ← one_row (tb_jobs tx) jobID;
  Ret (notify (NotifyScheduler [jobID]) tx').

Definition RequestSchedule (now : Z) (j : Job) : Tables -> outcome dberror unit * Tables :=
  transaction (fun tx => tx ← requestSchedule now (j_id j) tx; Ret ((), Some tx)).

(** [SELECT DISTINCT job_id FROM job_inputs WHERE passed_job_id = $1 ORDER BY
    job_id DESC] *)
Definition downstream_jobs (tx : Tables) (jobID : Z) : list Z :=
  merge_sort Z.ge (remove_dups
    (ji_job_id <$> filter (fun ji => ji_passed_job_id ji = Some jobID) (tb_job_inputs tx))).

Definition requestScheduleOnDownstreamJobs (now : Z) (jobID : Z) (tx : Tables) : Tables :=
  let jobIDs := downstream_jobs tx jobID in
  let tx := foldl (fun tx jID =>
      update_job jID (set_jr_schedule_requested (fun _ => now)) tx) tx jobIDs in
  if (0 <? length jobIDs)%nat then notify (NotifyScheduler jobIDs) tx else tx.

Definition UpdateLastScheduled (j : Job) (requestedTime : Z) (st : Tables)
    : outcome dberror unit * Tables :=
  (Ret (), update_job (j_id j) (set_jr_last_scheduled (fun _ => requestedTime)) st).

(** The query of [jobsToSchedule]: the jobs with a request that is newer than
    the one last scheduled. *)
Definition needs_scheduling (st : Tables) (r : JobRow) : Prop :=
  jr_last_scheduled r < jr_schedule_requested r /\
  jr_active r = true /\ jr_paused r = false /\
  match tb_pipelines st !! jr_pipeline_id r with
  | Some p => pr_paused p = false /\ pr_base_template p = false
  | None => False
  end.

#[global] Instance needs_scheduling_dec st r : Decision (needs_scheduling st r).
Proof. unfold needs_scheduling. destruct (tb_pipelines st !! jr_pipeline_id r); apply _. Defined.

Definition JobsToSchedule (st : Tables) : list Job :=
  (fun '(id, r) => scanJob id r) <$>
    filter (fun p : Z * JobRow => needs_scheduling st p.2) (map_to_list (tb_jobs st)).

Definition Reload (j : Job) (st : Tables) : outcome dberror (option Job) * Tables :=
  (Ret (scanJob (j_id j) <$> tb_jobs st !! j_id j), st).

Definition SetHasNewInputs (j : Job) (hasNewInputs : bool) (st : Tables)
    : outcome dberror unit * Tables :=
  match one_row (tb_jobs st) (j_id j) with
  | Ret _ => (Ret (), update_job (j_id j) (set_jr_has_new_inputs (fun _ => hasNewInputs)) st)
  | e => (e, st)
  end.

(** ** Max in flight *)

Definition getSerialGroups (j : Job) (tx : Tables) : list string :=
  snd <$> filter (fun p => p.1 = j_id j) (tb_serial_groups tx).

(** [JOIN jobs_serial_groups jsg ON j.id = jsg.job_id WHERE jsg.serial_group IN
    ($groups) AND j.pipeline_id = $pipeline]: the job rows behind a build. *)
Definition in_serial_groups (tx : Tables) (groups : list string) (pipelineID : Z)
    (job_id : option Z) (P : JobRow -> bool) : bool :=
  match job_id with
  | None => false
  | Some id =>
      match tb_jobs tx !! id with
      | None => false
      | Some r =>
          bool_decide (jr_pipeline_id r = pipelineID) && P r &&
          existsb (fun p => bool_decide (p.1 = id) && bool_decide (p.2 ∈ groups))
            (tb_serial_groups tx)
      end
  end.

Definition running_in_groups (tx : Tables) (groups : list string) (pipelineID : Z)
    (b : Z * BuildsRow) : Prop :=
  in_serial_groups tx groups pipelineID (br_job_id b.2) (fun _ => true) = true /\
  br_completed b.2 = false /\ br_scheduled b.2 = true.

Definition getRunningBuildsBySerialGroup (j : Job) (tx : Tables) (serialGroups : list string)
    : list Build :=
  (fun '(id, r) => scanBuild id r) <$>
    map_to_list (filter (running_in_groups tx serialGroups (j_pipelineID j)) (tb_builds tx)).

Definition pending_in_groups (tx : Tables) (groups : list string) (pipelineID : Z)
    (b : Z * BuildsRow) : Prop :=
  in_serial_groups tx groups pipelineID (br_job_id b.2)
    (fun r => negb (jr_paused r) && jr_inputs_determined r) = true /\
  br_status b.2 = BuildStatusPending.

Definition getNextPendingBuildBySerialGroup (j : Job) (tx : Tables) (serialGroups : list string)
    : option Build :=
  (fun '(id, r) => scanBuild id r) <$>
    head (order_builds (map_to_list
      (filter (pending_in_groups tx serialGroups (j_pipelineID j)) (tb_builds tx)))).

(** [isMaxInFlightReached]; under READ COMMITTED each query sees what was
    committed when it starts: [tx1] is what the count of running builds sees,
    [tx2] what the query for the next pending build sees. *)
Definition isMaxInFlightReached (j : Job) (tx1 tx2 : Tables) (buildID : Z) : bool :=
  if j_maxInFlight j =? 0 then false
  else
    let serialGroups := getSerialGroups j tx1 in
    let builds := getRunningBuildsBySerialGroup j tx1 serialGroups in
    if j_maxInFlight j <=? Z.of_nat (length builds) then true
    else
      match getNextPendingBuildBySerialGroup j tx2 serialGroups with
      | None => true
      | Some next => negb (b_id next =? buildID)
      end.

Definition isPipelineOrJobPaused (j : Job) (tx : Tables) : outcome dberror bool :=
  if j_paused j then Ret true
  else p ← query_row (tb_pipelines tx !! j_pipelineID j); Ret (pr_paused p).

(** The updates of [ScheduleBuild], committed at once; [reached] is what its
    queries found. *)
Definition commitSchedule (reached : bool) (j : Job) (build : Build)
    : Tables -> outcome dberror bool * Tables :=
  transaction (fun tx =>
    _ ← one_row (tb_jobs tx) (j_id j);
    let tx := update_job (j_id j) (set_jr_max_in_flight_reached (fun _ => reached)) tx in
    if reached then Ret (false, Some tx)
    else
      _ ← one_row (tb_builds tx) (b_id build);
      Ret (true, Some (update_build (b_id build) (set_br_scheduled (fun _ => true)) tx))).

(** [ScheduleBuild]; [concurrent] is the effect of the transactions other
    nodes commit between its two queries. *)
Definition ScheduleBuild_at (concurrent : Tables -> Tables) (j : Job) (build : Build)
    (st : Tables) : outcome dberror bool * Tables :=
  if b_scheduled build then (Ret true, st)
  else
    match isPipelineOrJobPaused j st with
    | Ret true => (Ret false, st)
    | Ret false =>
        commitSchedule (isMaxInFlightReached j st (concurrent st) (b_id build)) j build (concurrent st)
    | e => (e, st)
    end.

Definition ScheduleBuild : Job -> Build -> Tables -> outcome dberror bool * Tables :=
  ScheduleBuild_at id.

(** ** Creating builds *)

(** [getNewBuildName]: [UPDATE jobs SET build_number_seq = build_number_seq + 1
    .. RETURNING build_number_seq], by name and pipeline. *)
Definition find_job_row (tx : Tables) (name : string) (pipelineID : Z) : option (Z * JobRow) :=
  head (filter (fun p : Z * JobRow => jr_name p.2 = name /\ jr_pipeline_id p.2 = pipelineID)
    (map_to_list (tb_jobs tx))).

Definition getNewBuildName (j : Job) (tx : Tables) : outcome dberror (string * Tables) :=
  '(id, r) ← query_row (find_job_row tx (j_name j) (j_pipelineID j));
  Ret (pretty (jr_build_number_seq r + 1),
       update_job id (set_jr_build_number_seq (Z.add 1)) tx).

Definition is_completed_status (s : BuildStatus) : bool :=
  negb (bool_decide (s = BuildStatusPending) || bool_decide (s = BuildStatusStarted)).

Definition max_id (P : Z * BuildsRow -> bool) (builds : gmap Z BuildsRow) : option Z :=
  foldr (fun b m => if P b then Some (match m with Some x => Z.max x b.1 | None => b.1 end) else m)
    None (map_to_list builds).

Definition min_id (P : Z * BuildsRow -> bool) (builds : gmap Z BuildsRow) : option Z :=
  foldr (fun b m => if P b then Some (match m with Some x => Z.min x b.1 | None => b.1 end) else m)
    None (map_to_list builds).

(** [max(id)] over no rows is NULL, which does not scan into an int; the code
    ignores that error and returns 0. *)
Definition latestCompletedNonRerunBuild (tx : Tables) (jobID : Z) : Z :=
  default 0 (max_id (fun b =>
    is_completed_status (br_status b.2) && bool_decide (br_job_id b.2 = Some jobID) &&
    bool_decide (br_rerun_of b.2 = None) && bool_decide (br_rerun_of_old b.2 = None))
    (tb_builds tx)).

Definition next_build (tx : Tables) (jobID latestNonRerunId : Z) : option Z :=
  min_id (fun b =>
    bool_decide (br_job_id b.2 = Some jobID) && bool_decide (is_Some (tb_jobs tx !! jobID)) &&
    negb (is_completed_status (br_status b.2)) &&
    ((bool_decide (br_rerun_of b.2 = None) && bool_decide (br_rerun_of_old b.2 = None)) ||
     (bool_decide (br_rerun_of b.2 = Some latestNonRerunId) ||
      bool_decide (br_rerun_of_old b.2 = Some latestNonRerunId))))
    (tb_builds tx).

Definition updateNextBuildForJob (jobID latestNonRerunId : Z) (tx : Tables) : Tables :=
  update_job jobID (set_jr_next_build_id (fun _ => next_build tx jobID latestNonRerunId)) tx.

(** [INSERT INTO builds], with the id from the sequence; [(job_id, name)] is
    unique. *)
Definition name_taken (tx : Tables) (job_id : option Z) (name : string) : bool :=
  existsb (fun b : Z * BuildsRow => bool_decide (br_job_id b.2 = job_id) &&
      bool_decide (job_id <> None) && bool_decide (br_name b.2 = name))
    (map_to_list (tb_builds tx)).

Definition insert_build (r : BuildsRow) (tx : Tables) : outcome dberror (Z * Tables) :=
  let buildID := tb_builds_id_seq tx in
  if name_taken tx (br_job_id r) (br_name r) then Fail ConstraintViolation
  else Ret (buildID, set_tb_builds_id_seq Z.succ (set_tb_builds (<[buildID := r]>) tx)).

Definition pending_row (now : Z) (j : Job) (name : string) : BuildsRow :=
  {| br_name := name; br_job_id := Some (j_id j); br_pipeline_id := Some (j_pipelineID j);
     br_status := BuildStatusPending; br_scheduled := false; br_completed := false;
     br_aborted := false; br_interceptible := true; br_manually_triggered := false;
     br_inputs_ready := false; br_has_plan := false; br_rerun_of := None;
     br_rerun_of_old := None; br_rerun_number := None; br_create_time := now;
     br_created_by := None |}.

Definition set_manual (createdBy : string) (r : BuildsRow) : BuildsRow :=
  {| br_name := br_name r; br_job_id := br_job_id r; br_pipeline_id := br_pipeline_id r;
     br_status := br_status r; br_scheduled := br_scheduled r; br_completed := br_completed r;
     br_aborted := br_aborted r; br_interceptible := br_interceptible r;
     br_manually_triggered := true; br_inputs_ready := br_inputs_ready r;
     br_has_plan := br_has_plan r; br_rerun_of := br_rerun_of r;
     br_rerun_of_old := br_rerun_of_old r; br_rerun_number := br_rerun_number r;
     br_create_time := br_create_time r; br_created_by := Some createdBy |}.

Definition set_rerun (rerunOf rerunNumber : Z) (createdBy : string) (r : BuildsRow) : BuildsRow :=
  {| br_name := br_name r; br_job_id := br_job_id r; br_pipeline_id := br_pipeline_id r;
     br_status := br_status r; br_scheduled := br_scheduled r; br_completed := br_completed r;
     br_aborted := br_aborted r; br_interceptible := br_interceptible r;
     br_manually_triggered := br_manually_triggered r; br_inputs_ready := br_inputs_ready r;
     br_has_plan := br_has_plan r; br_rerun_of := Some rerunOf;
     br_rerun_of_old := br_rerun_of_old r; br_rerun_number := Some rerunNumber;
     br_create_time := br_create_time r; br_created_by := Some createdBy |}.

Definition has_pending (tx : Tables) (jobID : Z) : bool :=
  existsb (fun b : Z * BuildsRow => bool_decide (br_job_id b.2 = Some jobID) &&
      bool_decide (br_status b.2 = BuildStatusPending))
    (map_to_list (tb_builds tx)).

Definition EnsurePendingBuildExists (now : Z) (j : Job) : Tables -> outcome dberror unit * Tables :=
  transaction (fun tx =>
    '(buildName, tx) ← getNewBuildName j tx;
    if has_pending tx (j_id j) then Ret ((), None)
    else
      '(_, tx) ← insert_build (pending_row now j buildName) tx;
      let latestNonRerunID := latestCompletedNonRerunBuild tx (j_id j) in
      Ret ((), Some (updateNextBuildForJob (j_id j) latestNonRerunID tx))).

Definition GetPendingBuilds (j : Job) (st : Tables) : outcome dberror (list Build) * Tables :=
  (Ret ((fun '(id, r) => scanBuild id r) <$>
     order_builds (map_to_list (filter (fun b : Z * BuildsRow =>
       br_job_id b.2 = Some (j_id j) /\ br_status b.2 = BuildStatusPending) (tb_builds st)))), st).

(** [j.createBuild]: a manually triggered build, in the caller's transaction. *)
Definition createBuild (now : Z) (j : Job) (createdBy : string) (tx : Tables)
    : outcome dberror (Build * Tables) :=
  '(buildName, tx) ← getNewBuildName j tx;
  '(buildID, tx) ← insert_build (set_manual createdBy (pending_row now j buildName)) tx;
  row ← query_row (tb_builds tx !! buildID);
  let latestNonRerunID := latestCompletedNonRerunBuild tx (j_id j) in
  let tx := updateNextBuildForJob (j_id j) latestNonRerunID tx in
  tx ← requestSchedule now (j_id j) tx;
  Ret (scanBuild buildID row, tx).

Definition CreateBuild `{WorkflowRuns} (now : Z) (j : Job) (createdBy : string)
    : Tables -> outcome dberror Build * Tables :=
  transaction (fun tx =>
    _ ← rejectWorkflowRunOwnedPipeline (j_pipelineID j);
    '(build, tx) ← createBuild now j createdBy tx;
    Ret (build, Some tx)).

Definition MaxInt32 : Z := 2147483647.

(** [getNewRerunBuildName]: [name.n], n one more than the reruns there are. *)
Definition getNewRerunBuildName (tx : Tables) (buildID : Z) : outcome dberror (string * Z) :=
  row ← query_row (tb_builds tx !! buildID);
  let is_rerun (b : Z * BuildsRow) :=
    if MaxInt32 <? buildID then bool_decide (br_rerun_of b.2 = Some buildID)
    else bool_decide (br_rerun_of b.2 = Some buildID) ||
         bool_decide (br_rerun_of_old b.2 = Some buildID) in
  let rerunNum :=
    Z.of_nat (length (filter (fun b => is_rerun b = true) (map_to_list (tb_builds tx)))) + 1 in
  Ret (br_name row +:+ "." +:+ pretty rerunNum, rerunNum).

Definition tryRerunBuild `{WorkflowRuns} (now : Z) (j : Job) (buildToRerun : Build)
    (createdBy : string) : Tables -> outcome dberror Build * Tables :=
  transaction (fun tx =>
    _ ← rejectWorkflowRunOwnedPipeline (j_pipelineID j);
    let buildToRerunID :=
      if negb (b_rerunOf buildToRerun =? 0) then b_rerunOf buildToRerun else b_id buildToRerun in
    '(rerunBuildName, rerunNumber) ← getNewRerunBuildName tx buildToRerunID;
    '(buildID, tx) ← insert_build
        (set_rerun buildToRerunID rerunNumber createdBy (pending_row now j rerunBuildName)) tx;
    row ← query_row (tb_builds tx !! buildID);
    let latestNonRerunID := latestCompletedNonRerunBuild tx (j_id j) in
    let tx := updateNextBuildForJob (j_id j) latestNonRerunID tx in
    tx ← requestSchedule now (j_id j) tx;
    Ret (scanBuild buildID row, Some tx)).

(** [RerunBuild] retries on a unique violation for as long as it takes. *)
Fixpoint RerunBuild `{WorkflowRuns} (fuel : nat) (now : Z) (j : Job) (buildToRerun : Build)
    (createdBy : string) (st : Tables) : outcome dberror Build * Tables :=
  match fuel with
  | O => (NoFuel, st)
  | S fuel =>
      match tryRerunBuild now j buildToRerun createdBy st with
      | (Fail ConstraintViolation, st) => RerunBuild fuel now j buildToRerun createdBy st
      | r => r
      end
  end.

(** ** Pausing *)

Definition Pause `{WorkflowRuns} (j : Job) : Tables -> outcome dberror unit * Tables :=
  transaction (fun tx =>
    _ ← rejectWorkflowResourceSourceMutation (j_pipelineID j);
    Ret ((), Some (update_job (j_id j) (set_jr_paused (fun _ => true)) tx))).

Definition Unpause `{WorkflowRuns} (now : Z) (j : Job) : Tables -> outcome dberror unit * Tables :=
  transaction (fun tx =>
    _ ← rejectWorkflowResourceSourceMutation (j_pipelineID j);
    match tb_jobs tx !! j_id j with
    | Some r =>
        if jr_paused r then
          tx ← requestSchedule now (j_id j) (update_job (j_id j) (set_jr_paused (fun _ => false)) tx);
          Ret ((), Some tx)
        else Ret ((), Some tx)
    | None => Ret ((), Some tx)
    end).

(** ** The inputs of the next build *)

Definition AlgorithmInputs_rows (st : Tables) (jobID : Z)
    : list (string * Z * option VersionConfig * bool) :=
  remove_dups ((fun ji => (ji_name ji, ji_resource_id ji, ji_version ji, ji_trigger ji)) <$>
    filter (fun ji => ji_job_id ji = jobID) (tb_job_inputs st)).

Definition pin_of (st : Tables) (resourceID : Z) : option (gmap string string) :=
  snd <$> head (filter (fun p => p.1 = resourceID) (tb_resource_pins st)).

(** [AlgorithmInputs]: the rows of [job_inputs] grouped by everything but the
    passed job; a version pinned in the configuration overrides a pin of the
    resource. *)
Definition AlgorithmInputs (j : Job) (st : Tables) : outcome dberror InputConfigs * Tables :=
  (Ret ((fun '(name, resourceID, version, trigger) =>
      {| Name := name; Trigger := trigger;
         Passed := list_to_set (omap ji_passed_job_id
           (filter (fun ji => (ji_job_id ji, ji_name ji, ji_resource_id ji) =
                              (j_id j, name, resourceID) /\
                              (ji_version ji, ji_trigger ji) = (version, trigger))
              (tb_job_inputs st)));
         UseEveryVersion := match version with Some v => vc_Every v | None => false end;
         PinnedVersion :=
           match (version ≫= vc_Pinned) with
           | Some v => Some v
           | None => pin_of st resourceID
           end;
         ResourceID := resourceID; JobID := j_id j |})
    <$> AlgorithmInputs_rows st (j_id j)), st).

(** The row [SaveNextInputMapping] inserts for an entry of the mapping. *)
Definition next_input_row (jobID : Z) (inputName : string) (r : InputResult)
    : outcome dberror NextInputRow :=
  if negb (String.eqb (ResolveError r) "") then
    Ret {| ni_job_id := jobID; ni_input_name := inputName; ni_version_digest := None;
           ni_resource_id := None; ni_first_occurrence := None;
           ni_resolve_error := Some (ResolveError r) |}
  else
    match Input r with
    | None => Fail (InputVersionEmptyError inputName)
    | Some i =>
        Ret {| ni_job_id := jobID; ni_input_name := inputName;
               ni_version_digest := Some (av_Version (ai_AlgorithmVersion i));
               ni_resource_id := Some (av_ResourceID (ai_AlgorithmVersion i));
               ni_first_occurrence := Some (FirstOccurrence i); ni_resolve_error := None |}
    end.

Fixpoint next_input_rows (jobID : Z) (mapping : list (string * InputResult))
    : outcome dberror (list NextInputRow) :=
  match mapping with
  | [] => Ret []
  | (name, r) :: mapping =>
      row ← next_input_row jobID name r;
      rows ← next_input_rows jobID mapping;
      Ret (row :: rows)
  end.

(** [INSERT .. ON CONFLICT DO NOTHING] into a table of unique pairs. *)
Definition insert_pipes (new table : list (Z * Z)) : list (Z * Z) :=
  foldl (fun table p => if decide (p ∈ table) then table else table ++ [p]) table new.

Definition SaveNextInputMapping (j : Job) (inputMapping : InputMapping) (inputsDetermined : bool)
    : Tables -> outcome dberror unit * Tables :=
  transaction (fun tx =>
    let tx := update_job (j_id j) (set_jr_inputs_determined (fun _ => inputsDetermined)) tx in
    let tx := set_tb_next_build_inputs (filter (fun i => ni_job_id i <> j_id j)) tx in
    rows ← next_input_rows (j_id j) (map_to_list inputMapping);
    let tx := set_tb_next_build_inputs (fun l => l ++ rows) tx in
    let tx := set_tb_next_build_pipes (filter (fun p => p.2 <> j_id j)) tx in
    let pipes := '(_, r) ← map_to_list inputMapping; (fun b => (b, j_id j)) <$> PassedBuildIDs r in
    Ret ((), Some (set_tb_next_build_pipes (insert_pipes pipes) tx))).

Definition resource_scope (tx : Tables) (resourceID : Z) : option Z :=
  tb_resources tx !! resourceID ≫= rr_scope.

(** The versions of a resource with a digest, by md5 or sha256. *)
Definition versions_by_digest (tx : Tables) (resourceID : Z) (digest : string)
    (by_md5 by_sha256 : bool) : list ScopeVersionRow :=
  match resource_scope tx resourceID with
  | None => []
  | Some scope =>
      filter (fun v => sv_scope v = scope /\
          ((by_md5 = true /\ sv_md5 v = Some digest) \/ (by_sha256 = true /\ sv_sha256 v = digest)))
        (tb_versions tx)
  end.

(** [getNextBuildInputs]: a row for each version the digest matches, and a
    row with no version when it matches none (the LEFT JOIN). *)
Definition getNextBuildInputs (jobID : Z) (tx : Tables) : list BuildInput :=
  i ← filter (fun i => ni_job_id i = jobID) (tb_next_build_inputs tx);
  let versions :=
    match ni_resource_id i, ni_version_digest i with
    | Some r, Some d => sv_version <$> versions_by_digest tx r d true true
    | _, _ => []
    end in
  v ← (match versions with [] => [∅] | _ => versions end);
  [{| bi_Name := ni_input_name i; bi_Version := v; bi_ResourceID := default 0 (ni_resource_id i);
      bi_FirstOccurrence := default false (ni_first_occurrence i);
      bi_ResolveError := default "" (ni_resolve_error i) |}].

Definition GetFullNextBuildInputs (j : Job)
    : Tables -> outcome dberror (option (list BuildInput)) * Tables :=
  transaction (fun tx =>
    r ← query_row (tb_jobs tx !! j_id j);
    if negb (jr_inputs_determined r) then Ret (None, None)
    else Ret (Some (getNextBuildInputs (j_id j) tx), Some tx)).

(** [ResourcesChecked]: no unpinned input resource was last checked before the
    build was created. *)
Definition ResourcesChecked (b : Build) (st : Tables) : outcome dberror bool * Tables :=
  let notChecked := existsb (fun ji =>
      bool_decide (ji_job_id ji = b_jobID b) &&
      match tb_resources st !! ji_resource_id ji with
      | Some r =>
          bool_decide (is_Some (rr_scope r)) && (rr_last_check_end_time r <? b_createTime b)
      | None => false
      end &&
      negb (existsb (fun p => bool_decide (p.1 = ji_resource_id ji)) (tb_resource_pins st)))
    (tb_job_inputs st) in
  (Ret (negb notChecked), st).

Definition MarkAsAborted (now : Z) (b : Build) (st : Tables) : outcome dberror unit * Tables :=
  match transaction (fun tx =>
      let tx := update_build (b_id b) (set_br_aborted (fun _ => true)) tx in
      if bool_decide (b_status b = BuildStatusPending) then
        tx ← requestSchedule now (b_jobID b) tx; Ret ((), Some tx)
      else Ret ((), Some tx)) st with
  | (Ret _, st) => (Ret (), notify (NotifyChannel ("build_abort_" +:+ pretty (b_id b))) st)
  | r => r
  end.

(** ** Adopting inputs *)

(** The version a build input refers to; a digest shorter than a SHA-256 in
    hex is an MD5. *)
Definition input_version (tx : Tables) (r : InputRow) : option (gmap string string) :=
  let md5 := (String.length (in_version_digest r) <? 64)%nat in
  sv_version <$> head (versions_by_digest tx (in_resource_id r) (in_version_digest r) md5 (negb md5)).

Definition inputs_by_name (rows : list InputRow) : gmap string InputRow :=
  foldl (fun m r => <[in_name r := r]> m) ∅ rows.

(** The loop over the adopted inputs: [inr inputs], or [inl name] for the
    first one whose version is gone.  Go visits the map in an unspecified
    order, here that of [map_to_list]. *)
Fixpoint adopted_inputs (tx : Tables) (rows : list (string * InputRow))
    : string + list BuildInput :=
  match rows with
  | [] => inr []
  | (name, r) :: rows =>
      match input_version tx r with
      | None => inl name
      | Some v =>
          match adopted_inputs tx rows with
          | inl n => inl n
          | inr l =>
              inr ({| bi_Name := name; bi_Version := v; bi_ResourceID := in_resource_id r;
                      bi_FirstOccurrence := in_first_occurrence r; bi_ResolveError := "" |} :: l)
          end
      end
  end.

Definition set_ni_resolve_error (message : string) (r : NextInputRow) : NextInputRow :=
  {| ni_job_id := ni_job_id r; ni_input_name := ni_input_name r;
     ni_version_digest := ni_version_digest r; ni_resource_id := ni_resource_id r;
     ni_first_occurrence := ni_first_occurrence r; ni_resolve_error := Some message |}.

Definition mark_unavailable (jobID : Z) (inputName : string) : Tables -> Tables :=
  set_tb_next_build_inputs (fmap (fun r =>
    if bool_decide (ni_job_id r = jobID /\ ni_input_name r = inputName)
    then set_ni_resolve_error ("chosen version of input " +:+ inputName +:+ " not available") r
    else r)).

(** A row of [next_build_inputs] as an input of the build; its columns are
    NOT NULL there. *)
Definition adopt_row (buildID : Z) (r : NextInputRow) : outcome dberror InputRow :=
  match ni_resource_id r, ni_version_digest r, ni_first_occurrence r with
  | Some res, Some d, Some f =>
      Ret {| in_build_id := buildID; in_resource_id := res; in_version_digest := d;
             in_name := ni_input_name r; in_first_occurrence := f |}
  | _, _, _ => Fail ConstraintViolation
  end.

Fixpoint adopt_rows (buildID : Z) (rows : list NextInputRow) : outcome dberror (list InputRow) :=
  match rows with
  | [] => Ret []
  | r :: rows => r' ← adopt_row buildID r; l ← adopt_rows buildID rows; Ret (r' :: l)
  end.

(** What both adoptions do once the rows of the build are known: replace its
    inputs, look their versions up, replace its pipes, mark it ready.  The
    rows differ in name, or in the unique columns of the source build, so the
    conflict clauses of the inserts do not apply after the [DELETE].
    [inl name]: a version is gone and nothing is committed. *)
Definition adopt (b : Build) (rows : list InputRow) (pipes : list (Z * Z)) (tx : Tables)
    : string + (list BuildInput * Tables) :=
  let tx := set_tb_build_inputs (filter (fun r => in_build_id r <> b_id b)) tx in
  let tx := set_tb_build_inputs (fun l => l ++ rows) tx in
  match adopted_inputs tx (map_to_list (inputs_by_name rows)) with
  | inl name => inl name
  | inr buildInputs =>
      let tx := set_tb_build_pipes (filter (fun p => p.2 <> b_id b)) tx in
      let tx := set_tb_build_pipes (insert_pipes pipes) tx in
      inr (buildInputs, update_build (b_id b) (set_br_inputs_ready (fun _ => true)) tx)
  end.

Definition AdoptInputsAndPipes (b : Build) (st : Tables)
    : outcome dberror (option (list BuildInput)) * Tables :=
  match query_row (tb_jobs st !! b_jobID b) with
  | Ret r =>
      if negb (jr_inputs_determined r) then (Ret None, st)
      else
        match adopt_rows (b_id b) (filter (fun i => ni_job_id i = b_jobID b) (tb_next_build_inputs st)) with
        | Ret rows =>
            let pipes := (fun p => (p.1, b_id b)) <$>
              filter (fun p => p.2 = b_jobID b) (tb_next_build_pipes st) in
            match adopt b rows pipes st with
            | inl name => (Ret None, mark_unavailable (b_jobID b) name st)
            | inr (buildInputs, st) => (Ret (Some buildInputs), st)
            end
        | Fail e => (Fail e, st)
        | Panic => (Panic, st)
        | NoFuel => (NoFuel, st)
        end
  | Fail e => (Fail e, st)
  | Panic => (Panic, st)
  | NoFuel => (NoFuel, st)
  end.

Definition rerun_row (buildID : Z) (r : InputRow) : InputRow :=
  {| in_build_id := buildID; in_resource_id := in_resource_id r;
     in_version_digest := in_version_digest r; in_name := in_name r;
     in_first_occurrence := false |}.

Definition AdoptRerunInputsAndPipes (now : Z) (b : Build) (st : Tables)
    : outcome dberror (option (list BuildInput)) * Tables :=
  match query_row (tb_builds st !! b_rerunOf b) with
  | Ret r =>
      if negb (br_inputs_ready r) then (Ret None, st)
      else
        let tx := set_tb_build_inputs (filter (fun r => in_build_id r <> b_id b)) st in
        let rows := rerun_row (b_id b) <$>
          filter (fun r => in_build_id r = b_rerunOf b) (tb_build_inputs tx) in
        let pipes := (fun p => (p.1, b_id b)) <$>
          filter (fun p => p.2 = b_rerunOf b) (filter (fun p => p.2 <> b_id b) (tb_build_pipes st)) in
        match adopt b rows pipes st with
        | inl name =>
            match MarkAsAborted now b (mark_unavailable (b_jobID b) name st) with
            | (Ret _, st) => (Ret None, st)
            | (Fail e, st) => (Fail e, st)
            | (Panic, st) => (Panic, st)
            | (NoFuel, st) => (NoFuel, st)
            end
        | inr (buildInputs, st) => (Ret (Some buildInputs), st)
        end
  | Fail e => (Fail e, st)
  | Panic => (Panic, st)
  | NoFuel => (NoFuel, st)
  end.

(** ** Starting and finishing a build *)

Definition saveEvent (b : Build) (status : BuildStatus) : Tables -> Tables :=
  set_tb_status_events (fun l => l ++ [(b_id b, status)]).

(** [start], in the caller's transaction: only a pending build that is not
    aborted starts. *)
Definition start `{WorkflowRuns} (b : Build) (tx : Tables) : outcome dberror (bool * Tables) :=
  match tb_builds tx !! b_id b with
  | Some r =>
      if bool_decide (br_status r = BuildStatusPending) && negb (br_aborted r) then
        let tx := update_build (b_id b)
          (fun r => set_br_has_plan (fun _ => true) (set_br_status (fun _ => BuildStatusStarted) r)) tx in
        let tx := saveEvent b BuildStatusStarted tx in
        _ ← captureWorkflowPlan (b_id b);
        Ret (true, tx)
      else Ret (false, tx)
  | None => Ret (false, tx)
  end.

Definition build_events_channel (id : Z) : string := "build_events_" +:+ pretty id.

Definition Start `{WorkflowRuns} (b : Build) (st : Tables) : outcome dberror bool * Tables :=
  match transaction (fun tx => '(started, tx) ← start b tx; Ret (started, Some tx)) st with
  | (Ret true, st) =>
      (Ret true, notify_all ["agent_workflow_run_reconciler"; build_events_channel (b_id b);
                             "tracker"] st)
  | r => r
  end.

(** The outputs of a successful build: its outputs, then its inputs, each
    resource version once. *)
Definition output_versions (tx : Tables) (buildID : Z) : gmap string (list string) :=
  let versions :=
    ((fun o => (o.1.2, o.2)) <$> filter (fun o => o.1.1 = buildID) (tb_build_outputs tx)) ++
    ((fun i => (in_resource_id i, in_version_digest i)) <$>
      filter (fun i => in_build_id i = buildID) (tb_build_inputs tx)) in
  (foldl (fun '(m, seen) p =>
      if decide (p ∈ seen) then (m, seen)
      else (<[pretty p.1 := default [] (m !! pretty p.1) ++ [p.2]]> m, p :: seen))
    (∅, []) versions).1.

(** The recursive query [pipelines_to_archive]: the child pipelines older
    builds of the job set, and everything below them. *)
Definition archive_base (tx : Tables) (jobID buildID : Z) : gset Z :=
  dom (filter (fun p : Z * PipelineRow => pr_archived p.2 = false /\
      pr_parent_job_id p.2 = Some jobID /\
      match pr_parent_build_id p.2 with Some b => b <? buildID | None => false end = true)
    (tb_pipelines tx)).

Definition archive_below (tx : Tables) (s : gset Z) : gset Z :=
  dom (filter (fun p : Z * PipelineRow =>
      match pr_parent_job_id p.2 ≫= (fun j => tb_jobs tx !! j) with
      | Some r => bool_decide (jr_pipeline_id r ∈ s)
      | None => false
      end = true) (tb_pipelines tx)).

(** The fixed point is reached after as many rounds as there are pipelines. *)
Definition pipelines_to_archive (tx : Tables) (jobID buildID : Z) : gset Z :=
  Nat.iter (size (tb_pipelines tx)) (fun s => s ∪ archive_below tx s)
    (archive_base tx jobID buildID).

(** [pipeline.archive]: pause the pipeline for good and drop the configuration
    of its objects. *)
Definition archive (tx : Tables) (pipelineID : Z) : Tables :=
  let tx := set_tb_pipelines (alter (fun r =>
    {| pr_paused := true; pr_paused_by := Some "automatic-pipeline-archiver";
       pr_archived := true; pr_version := 0; pr_parent_job_id := pr_parent_job_id r;
       pr_parent_build_id := pr_parent_build_id r; pr_base_template := pr_base_template r |})
    pipelineID) tx in
  let tx := set_tb_jobs (fmap (fun r =>
    if jr_pipeline_id r =? pipelineID then set_jr_has_config (fun _ => false) r else r)) tx in
  set_tb_resources (fmap (fun r =>
    if rr_pipeline_id r =? pipelineID then set_rr_has_config (fun _ => false) r else r)) tx.

Definition archivePipelines (tx : Tables) (pipelines : list Z) : Tables :=
  foldl archive tx pipelines.

Definition updateLatestCompletedBuildForJob (jobID latestNonRerunId : Z) (tx : Tables) : Tables :=
  let latestRerunId := max_id (fun b =>
    is_completed_status (br_status b.2) && bool_decide (br_job_id b.2 = Some jobID) &&
    (if MaxInt32 <? latestNonRerunId then bool_decide (br_rerun_of b.2 = Some latestNonRerunId)
     else bool_decide (br_rerun_of b.2 = Some latestNonRerunId) ||
          bool_decide (br_rerun_of_old b.2 = Some latestNonRerunId)))
    (tb_builds tx) in
  update_job jobID
    (set_jr_latest_completed_build_id (fun _ => Some (default latestNonRerunId latestRerunId))) tx.

Definition isNotRerunBuild (rerunID : Z) : bool := rerunID =? 0.

(** [updateTransitionBuildForJob]; with no completed build before, [latestID]
    is 0 and [latestStatus] the empty string. *)
Definition updateTransitionBuildForJob (jobID buildID : Z) (buildStatus : BuildStatus) (rerunID : Z)
    (tx : Tables) : Tables :=
  let latest :=
    latestID ← tb_jobs tx !! jobID ≫= jr_latest_completed_build_id;
    r ← tb_builds tx !! latestID;
    Some (latestID, br_status r) in
  let latestID := default 0 (fst <$> latest) in
  let latestStatus := snd <$> latest in
  let shouldUpdateTransition := bool_decide (latest = None) in
  if buildID <? latestID then tx
  else
    let shouldUpdateTransition := shouldUpdateTransition ||
      (bool_decide (latestStatus <> Some buildStatus) &&
       (isNotRerunBuild rerunID || (rerunID =? latestID))) in
    if shouldUpdateTransition
    then update_job jobID (set_jr_transition_build_id (fun _ => Some buildID)) tx
    else tx.

(** The part of [finish] for a build that succeeded. *)
Definition finish_succeeded (b : Build) (tx : Tables) : Tables :=
  let tx := set_tb_image_caches
    (filter (fun c => ~ (c.1 = b_jobID b /\ c.2 < b_id b))) tx in
  let tx := set_tb_successful_build_outputs (fun l => l ++
    [{| su_build_id := b_id b; su_job_id := b_jobID b;
        su_rerun_of := if b_rerunOf b =? 0 then None else Some (b_rerunOf b);
        su_outputs := output_versions tx (b_id b) |}]) tx in
  archivePipelines tx (elements (pipelines_to_archive tx (b_jobID b) (b_id b))).

(** The part of [finish] for a build of a job. *)
Definition finish_job (now : Z) (b : Build) (status : BuildStatus) (tx : Tables) : Tables :=
  let tx := requestScheduleOnDownstreamJobs now (b_jobID b) tx in
  let tx := updateTransitionBuildForJob (b_jobID b) (b_id b) status (b_rerunOf b) tx in
  let latestNonRerunID := latestCompletedNonRerunBuild tx (b_jobID b) in
  let tx := updateLatestCompletedBuildForJob (b_jobID b) latestNonRerunID tx in
  updateNextBuildForJob (b_jobID b) latestNonRerunID tx.

Definition finish_row (status : BuildStatus) (r : BuildsRow) : BuildsRow :=
  let r := set_br_has_plan (fun _ => false)
    (set_br_completed (fun _ => true) (set_br_status (fun _ => status) r)) in
  if bool_decide (status <> BuildStatusSucceeded)
  then set_br_interceptible (fun _ => false) r else r.

Definition finish_channels (b : Build) : list string :=
  ["agent_workflow_run_reconciler"; build_events_channel (b_id b); "reaper"; "drainer";
   "collector_builds"; "collector_resource_cache_uses"; "collector_resource_caches";
   "collector_checks"; "collector_containers"; "k8s_worker_reaper"; "pipeline_run_lifecycler"].

Definition finish `{WorkflowRuns} (now : Z) (b : Build) (status : BuildStatus)
    (planningError : option string) (st : Tables) : outcome dberror unit * Tables :=
  match transaction (fun tx =>
      _ ← query_row (tb_builds tx !! b_id b);
      let tx := update_build (b_id b) (finish_row status) tx in
      let tx := saveEvent b status tx in
      _ ← match planningError with
          | Some message => terminalizeAgentWorkflowRunPlanningError (b_id b) message
          | None => captureAgentWorkflowRunExecutionStatus (b_id b) status
          end;
      let tx :=
        if negb (b_jobID b =? 0) && bool_decide (status = BuildStatusSucceeded)
        then finish_succeeded b tx else tx in
      let tx := if negb (b_jobID b =? 0) then finish_job now b status tx else tx in
      Ret ((), Some tx)) st with
  | (Ret _, st) => (Ret (), notify_all (finish_channels b) st)
  | r => r
  end.

Definition Finish `{WorkflowRuns} (now : Z) (b : Build) (status : BuildStatus) :=
  finish now b status None.
Definition FinishWorkflowPlanningError `{WorkflowRuns} (now : Z) (b : Build) (message : string) :=
  finish now b BuildStatusErrored (Some message).
