(* ===== verification/JobTablesSpec.v ===== *)
(** * Properties of the operations on jobs and builds

    First what each operation leaves alone (the static columns of a job, the
    builds that run), then the invariants that follow: the limit on builds in
    flight of a serial group, over runs in which the queries and the commit of
    [ScheduleBuild] are separate steps ([sched_step]). *)
From S2P Require Import Prelude VersionsDB Tables JobTables.
From stdpp Require Import base gmap sets list strings sorting pretty.
From Stdlib Require Import ZArith Lia.
Open Scope Z_scope.

(** ** Frames *)

Lemma fmap_alter_same {A B} (g : A -> B) (f : A -> A) (i : Z) (m : gmap Z A) :
  (forall x, g (f x) = g x) -> g <$> alter f i m = g <$> m.
Proof.
  intros Hf. apply map_eq. intros k. rewrite !lookup_fmap.
  destruct (decide (k = i)) as [->|]; [|by rewrite lookup_alter_ne].
  rewrite lookup_alter_eq. destruct (m !! i); cbn; [by rewrite Hf|done].
Qed.

(** The columns of a job no operation of this file changes. *)
Definition job_static (r : JobRow) : string * Z * Z * bool :=
  (jr_name r, jr_pipeline_id r, jr_max_in_flight r, jr_active r).

(** Those, and the one only [UpdateLastScheduled] changes. *)
Definition job_full (r : JobRow) : string * Z * Z * bool * Z :=
  (job_static r, jr_last_scheduled r).

(** A build's row may change as long as it keeps its job, does not become
    scheduled and does not become incomplete. *)
Definition row_le (r r' : BuildsRow) : Prop :=
  br_job_id r' = br_job_id r /\
  (br_scheduled r' = true -> br_scheduled r = true) /\
  (br_completed r = true -> br_completed r' = true).

(** A build that was aborted stays aborted, and does not start. *)
Definition row_kept (r r' : BuildsRow) : Prop :=
  br_aborted r = true -> br_aborted r' = true /\
    (br_status r <> BuildStatusStarted -> br_status r' <> BuildStatusStarted).

(** Ids of builds come from the sequence. *)
Definition ids_fresh (st : Tables) : Prop :=
  forall id, is_Some (tb_builds st !! id) -> id < tb_builds_id_seq st.

(** [quiet_on g st st']: the columns [g] of jobs are the same, no build
    entered flight and every build is kept. *)
Record quiet_on {B} (g : JobRow -> B) (st st' : Tables) : Prop := {
  quiet_jobs : g <$> tb_jobs st' = g <$> tb_jobs st;
  quiet_groups : tb_serial_groups st' = tb_serial_groups st;
  quiet_builds : forall id r', tb_builds st' !! id = Some r' ->
    br_scheduled r' = false \/ exists r, tb_builds st !! id = Some r /\ row_le r r';
  quiet_fresh : ids_fresh st -> ids_fresh st';
  quiet_seq : tb_builds_id_seq st <= tb_builds_id_seq st';
  quiet_kept : forall id r, tb_builds st !! id = Some r -> id < tb_builds_id_seq st ->
    exists r', tb_builds st' !! id = Some r' /\ row_kept r r';
}.

Abbreviation quiet := (quiet_on job_full).
Abbreviation calm := (quiet_on job_static).

#[global] Instance quiet_preorder {B} (g : JobRow -> B) : PreOrder (quiet_on g).
Proof.
  split.
  - intros st. split; try done.
    + intros id r Hr. right. exists r. by repeat split.
    + intros id r Hr _. exists r. by repeat split.
  - intros x y z [J1 G1 B1 F1 Q1 K1] [J2 G2 B2 F2 Q2 K2]. split; [congruence..| |tauto|lia|].
    + intros id r'' Hr''. destruct (B2 _ _ Hr'') as [|(r' & Hr' & E1 & S1 & C1)]; [by left|].
      destruct (B1 _ _ Hr') as [Hf|(r & Hr & E2 & S2 & C2)].
      * left. apply not_true_is_false. intros E. apply S1 in E. congruence.
      * right. exists r. split; [done|]. unfold row_le. naive_solver congruence.
    + intros id r Hr Hid. destruct (K1 _ _ Hr Hid) as (r' & Hr' & A1).
      destruct (K2 _ _ Hr') as (r'' & Hr'' & A2); [lia|]. exists r''. split; [done|].
      unfold row_kept in *. naive_solver.
Qed.

Lemma quiet_calm st st' : quiet st st' -> calm st st'.
Proof.
  intros [J G Bd F Q K]. split; [|done..]. apply (f_equal (fmap fst)) in J.
  by rewrite <- !map_fmap_compose in J.
Qed.

(** Tables other than [jobs], [builds] and [jobs_serial_groups] do not matter. *)
Lemma quiet_builds_same {B} (g : JobRow -> B) st st' :
  g <$> tb_jobs st' = g <$> tb_jobs st -> tb_builds st' = tb_builds st ->
  tb_serial_groups st' = tb_serial_groups st -> tb_builds_id_seq st' = tb_builds_id_seq st ->
  quiet_on g st st'.
Proof.
  intros HJ HB HG HQ. unfold ids_fresh. split; [done|done|..]; unfold ids_fresh; rewrite ?HB, ?HQ; try done.
  - intros id r Hr. right. exists r. by repeat split.
  - intros id r Hr _. exists r. by repeat split.
Qed.

Lemma quiet_same st st' :
  tb_jobs st' = tb_jobs st -> tb_builds st' = tb_builds st ->
  tb_serial_groups st' = tb_serial_groups st -> tb_builds_id_seq st' = tb_builds_id_seq st ->
  quiet st st'.
Proof. intros HJ. apply quiet_builds_same. by rewrite HJ. Qed.

(** The elementary updates are quiet. *)
Lemma quiet_update_job {B} (g : JobRow -> B) id f st :
  (forall r, g (f r) = g r) -> quiet_on g st (update_job id f st).
Proof. intros Hf. apply quiet_builds_same; try done. by apply fmap_alter_same. Qed.

Lemma quiet_update_build {B} (g : JobRow -> B) id f st :
  (forall r, tb_builds st !! id = Some r -> row_le r (f r) /\ row_kept r (f r)) ->
  quiet_on g st (update_build id f st).
Proof.
  intros Hf. split; cbn; try done.
  - intros i r' Hr'. right. destruct (decide (i = id)) as [->|].
    + rewrite lookup_alter_eq in Hr'. destruct (tb_builds st !! id) as [r|]; [|done].
      injection Hr' as <-. exists r. split; [done|]. by apply Hf.
    + rewrite lookup_alter_ne in Hr' by done. exists r'. by repeat split.
  - intros Hfr i. cbn. rewrite lookup_alter_is_Some. apply Hfr.
  - intros i r Hr _. destruct (decide (i = id)) as [->|].
    + exists (f r). rewrite lookup_alter_eq, Hr. split; [done|]. by apply Hf.
    + exists r. rewrite lookup_alter_ne by done. split; [done|]. by split.
Qed.

Lemma quiet_insert r st :
  br_scheduled r = false ->
  quiet st (set_tb_builds_id_seq Z.succ (set_tb_builds (<[tb_builds_id_seq st := r]>) st)).
Proof.
  intros Hs. split; cbn; try done.
  - intros i r'. rewrite lookup_insert_Some.
    intros [[<- <-]|[_ Hr']]; [by left|]. right. exists r'. by repeat split.
  - intros Hfr i. cbn. rewrite lookup_insert_is_Some. intros [<-|[_ Hi]]; [lia|].
    specialize (Hfr i Hi). lia.
  - lia.
  - intros i r' Hr' Hi. exists r'. rewrite lookup_insert_ne by lia. split; [done|]. by split.
Qed.

Lemma row_le_refl r : row_le r r.
Proof. by repeat split. Qed.

Create HintDb quiet.
#[export] Hint Resolve quiet_same quiet_insert : quiet.
#[export] Hint Extern 1 (quiet _ (update_job _ _ _)) => (apply quiet_update_job; done) : quiet.
#[export] Hint Extern 1 (quiet _ (update_build _ _ _)) =>
  (apply quiet_update_build; intros ? _; by repeat split; auto) : quiet.

(** [quiet_step] peels the last update of the final tables. *)
Ltac quiet_step :=
  match goal with
  | |- quiet ?a ?a => reflexivity
  | |- quiet ?st (update_job ?i ?f ?st') =>
      transitivity st'; [|apply quiet_update_job; done]
  | |- quiet ?st (update_build ?i ?f ?st') =>
      transitivity st'; [|apply quiet_update_build; intros ? _; by repeat split; auto]
  | |- quiet ?st (notify ?n ?st') => transitivity st'; [|by apply quiet_same]
  | |- quiet ?st (set_tb_next_build_inputs ?f ?st') => transitivity st'; [|by apply quiet_same]
  | |- quiet ?st (set_tb_next_build_pipes ?f ?st') => transitivity st'; [|by apply quiet_same]
  | |- quiet ?st (set_tb_build_inputs ?f ?st') => transitivity st'; [|by apply quiet_same]
  | |- quiet ?st (set_tb_build_pipes ?f ?st') => transitivity st'; [|by apply quiet_same]
  | |- quiet ?st (set_tb_status_events ?f ?st') => transitivity st'; [|by apply quiet_same]
  | |- quiet ?st (set_tb_image_caches ?f ?st') => transitivity st'; [|by apply quiet_same]
  | |- quiet ?st (set_tb_successful_build_outputs ?f ?st') => transitivity st'; [|by apply quiet_same]
  | |- quiet ?st (set_tb_resources ?f ?st') => transitivity st'; [|by apply quiet_same]
  | |- quiet ?st (set_tb_pipelines ?f ?st') => transitivity st'; [|by apply quiet_same]
  end.
Ltac quieten := repeat quiet_step; auto with quiet.

Lemma transaction_rel {A} (R : Tables -> Tables -> Prop) `{!Reflexive R}
    (body : Tables -> outcome dberror (A * option Tables)) st :
  (forall a st', body st = Ret (a, Some st') -> R st st') -> R st (transaction body st).2.
Proof.
  intros Hb. unfold transaction. destruct (body st) as [[a [st'|]]|e| |] eqn:E; cbn; try done. eauto.
Qed.

Lemma requestSchedule_quiet now jobID st st' :
  requestSchedule now jobID st = Ret st' -> quiet st st'.
Proof. unfold requestSchedule. intros H. go_inv. quieten. Qed.
#[export] Hint Resolve requestSchedule_quiet : quiet.

Lemma getNewBuildName_quiet j st name st' : getNewBuildName j st = Ret (name, st') -> quiet st st'.
Proof. unfold getNewBuildName. intros H. go_inv. quieten. Qed.

Lemma insert_build_quiet r st id st' :
  insert_build r st = Ret (id, st') -> br_scheduled r = false -> quiet st st'.
Proof. unfold insert_build. intros H Hs. case_match; go_inv. by apply quiet_insert. Qed.

Lemma updateNextBuild_quiet j l st : quiet st (updateNextBuildForJob j l st).
Proof. unfold updateNextBuildForJob. quieten. Qed.

Lemma RequestSchedule_quiet now j st : quiet st (RequestSchedule now j st).2.
Proof. apply (transaction_rel quiet). intros a st' H. cbv zeta in H. go_inv. by eapply requestSchedule_quiet. Qed.

Lemma UpdateLastScheduled_calm j t st : calm st (UpdateLastScheduled j t st).2.
Proof. by apply quiet_update_job. Qed.

Lemma SetHasNewInputs_quiet j b st : quiet st (SetHasNewInputs j b st).2.
Proof. unfold SetHasNewInputs. case_match; cbn; quieten. Qed.

Lemma EnsurePending_quiet now j st : quiet st (EnsurePendingBuildExists now j st).2.
Proof.
  apply (transaction_rel quiet). intros a st' H. cbv zeta in H. go_cases.
  etrans; [by eapply getNewBuildName_quiet|]. etrans; [by eapply insert_build_quiet|].
  apply updateNextBuild_quiet.
Qed.

Lemma createBuild_quiet now j by_ st b st' : createBuild now j by_ st = Ret (b, st') -> quiet st st'.
Proof.
  unfold createBuild. intros H. go_inv. etrans; [by eapply getNewBuildName_quiet|].
  etrans; [by eapply insert_build_quiet|]. etrans; [apply updateNextBuild_quiet|eauto with quiet].
Qed.

Lemma CreateBuild_quiet `{WorkflowRuns} now j by_ st : quiet st (CreateBuild now j by_ st).2.
Proof. apply (transaction_rel quiet). intros a st' H'. cbv zeta in H'. go_inv. by eapply createBuild_quiet. Qed.

Lemma tryRerunBuild_quiet `{WorkflowRuns} now j b by_ st : quiet st (tryRerunBuild now j b by_ st).2.
Proof.
  apply (transaction_rel quiet). intros a st' H'. cbv zeta in H'. go_inv.
  etrans; [by eapply insert_build_quiet|]. etrans; [apply updateNextBuild_quiet|eauto with quiet].
Qed.

Lemma RerunBuild_quiet `{WorkflowRuns} fuel now j b by_ st : quiet st (RerunBuild fuel now j b by_ st).2.
Proof.
  revert st. induction fuel as [|fuel IH]; intros st; cbn; [reflexivity|].
  pose proof (tryRerunBuild_quiet now j b by_ st) as Hq.
  destruct (tryRerunBuild now j b by_ st) as [[|[]| |] st1]; cbn in *; try done. etrans; [done|]. apply IH.
Qed.

Lemma Pause_quiet `{WorkflowRuns} j st : quiet st (Pause j st).2.
Proof. apply (transaction_rel quiet). intros a st' H'. cbv zeta in H'. go_inv. quieten. Qed.

Lemma Unpause_quiet `{WorkflowRuns} now j st : quiet st (Unpause now j st).2.
Proof.
  apply (transaction_rel quiet). intros a st' H'. cbv zeta in H'. go_cases; try quieten.
  etrans; [|by eapply requestSchedule_quiet]. quieten.
Qed.

Lemma SaveNextInputMapping_quiet j m d st : quiet st (SaveNextInputMapping j m d st).2.
Proof. apply (transaction_rel quiet). intros a st' H'. cbv zeta in H'. go_inv. quieten. Qed.

Lemma GetFull_quiet j st : quiet st (GetFullNextBuildInputs j st).2.
Proof. apply (transaction_rel quiet). intros a st' H'. cbv zeta in H'. go_cases; quieten. Qed.

Lemma MarkAsAborted_quiet now b st : quiet st (MarkAsAborted now b st).2.
Proof.
  unfold MarkAsAborted. match goal with |- context [transaction ?body st] =>
    assert (Hq : quiet st (transaction body st).2) end.
  { apply (transaction_rel quiet). intros a st' H'. cbv zeta in H'. go_cases; [|quieten].
    etrans; [|by eapply requestSchedule_quiet]. quieten. }
  destruct (transaction _ st) as [[] st1]; cbn in *; try done. etrans; [done|]. quieten.
Qed.

Lemma mark_unavailable_quiet j n st : quiet st (mark_unavailable j n st).
Proof. unfold mark_unavailable. quieten. Qed.

Lemma adopt_quiet b rows pipes st inputs st' : adopt b rows pipes st = inr (inputs, st') -> quiet st st'.
Proof. unfold adopt. intros H. case_match; simplify_eq. quieten. Qed.

Lemma AdoptInputs_quiet b st : quiet st (AdoptInputsAndPipes b st).2.
Proof.
  unfold AdoptInputsAndPipes. repeat case_match; simplify_eq; cbn; try reflexivity.
  - apply mark_unavailable_quiet.
  - by eapply adopt_quiet.
Qed.

Lemma AdoptRerun_quiet now b st : quiet st (AdoptRerunInputsAndPipes now b st).2.
Proof.
  unfold AdoptRerunInputsAndPipes. destruct (query_row _) as [r|e| |]; try reflexivity.
  case_match; [reflexivity|]. cbv zeta. destruct (adopt _ _ _ _) as [name|[inputs st1]] eqn:Ha.
  - pose proof (MarkAsAborted_quiet now b (mark_unavailable (b_jobID b) name st)) as Hm.
    destruct (MarkAsAborted now b _) as [[] st1]; cbn in *;
      (etrans; [apply (mark_unavailable_quiet (b_jobID b) name)|done]).
  - by eapply adopt_quiet.
Qed.

Lemma notify_all_quiet cs st : quiet st (notify_all cs st).
Proof.
  unfold notify_all. revert st. induction cs as [|c cs IH]; intros st; cbn; [reflexivity|].
  etrans; [|apply IH]. quieten.
Qed.

Lemma Start_quiet `{WorkflowRuns} b st : quiet st (Start b st).2.
Proof.
  unfold Start. match goal with |- context [transaction ?body st] =>
    assert (Hq : quiet st (transaction body st).2) end.
  { apply (transaction_rel quiet). intros a st' H'. cbv zeta in H'. unfold start in H'. go_cases; try reflexivity.
    unfold saveEvent. quiet_step. apply quiet_update_build. intros r Hr.
    assert (br_aborted r = false) by congruence. split; [by repeat split|]. intros ?. congruence. }
  destruct (transaction _ st) as [[[]|e| |] st1]; cbn -[notify_all] in *; try done.
  etrans; [done|]. apply notify_all_quiet.
Qed.

Lemma archive_quiet st ps : quiet st (archivePipelines st ps).
Proof.
  revert st. induction ps as [|p ps IH]; intros st; [reflexivity|]. cbn.
  etrans; [|apply IH]. unfold archive. repeat quiet_step. etrans; [|apply quiet_same; reflexivity].
  apply quiet_builds_same; try done. cbn. rewrite <- map_fmap_compose. apply map_fmap_ext.
  intros i r _. cbn. by case_match.
Qed.

Lemma downstream_quiet now j st : quiet st (requestScheduleOnDownstreamJobs now j st).
Proof.
  unfold requestScheduleOnDownstreamJobs.
  assert (Hf : forall l st, quiet st (foldl (fun tx jID =>
    update_job jID (set_jr_schedule_requested (fun _ => now)) tx) st l)).
  { induction l as [|x l IH]; intros st0; cbn; [reflexivity|]. etrans; [|apply IH]. quieten. }
  case_match; [quiet_step|]; apply Hf.
Qed.

Lemma finish_row_le s r : s <> BuildStatusStarted -> row_le r (finish_row s r) /\ row_kept r (finish_row s r).
Proof. intros Hs. unfold finish_row. case_match; by repeat split; auto. Qed.

Lemma finish_succeeded_quiet b st : quiet st (finish_succeeded b st).
Proof. unfold finish_succeeded. etrans; [|apply archive_quiet]. quieten. Qed.

Lemma finish_job_quiet now b s st : quiet st (finish_job now b s st).
Proof.
  unfold finish_job. etrans; [apply downstream_quiet|]. etrans; [|apply updateNextBuild_quiet].
  unfold updateLatestCompletedBuildForJob. quiet_step.
  unfold updateTransitionBuildForJob. repeat case_match; quieten.
Qed.

Lemma finish_quiet `{WorkflowRuns} now b s pe st :
  s <> BuildStatusStarted -> quiet st (finish now b s pe st).2.
Proof.
  intros Hs.
  unfold finish. match goal with |- context [transaction ?body st] =>
    assert (Hq : quiet st (transaction body st).2) end.
  { apply (transaction_rel quiet). intros a st' H'. cbv zeta in H'.
    apply bind_Ret in H' as (r & _ & H'). apply bind_Ret in H' as (u & _ & [= <- <-]).
    etrans; [apply (quiet_update_build job_full (b_id b) (finish_row s)); auto using finish_row_le|].
    set (st1 := update_build _ _ _).
    transitivity (saveEvent b s st1); [by apply quiet_same|].
    destruct (negb (b_jobID b =? 0)); cbn; [|reflexivity].
    case_match; [etrans; [apply finish_succeeded_quiet|]|]; apply finish_job_quiet. }
  destruct (transaction _ st) as [[] st1]; cbn -[notify_all] in *; try done.
  etrans; [done|]. apply notify_all_quiet.
Qed.

(** ** Steps of the system

    [step] is one committed transaction of any component on the tables: the
    scheduler, the API (which creates, reruns, aborts and pauses) or the build
    tracker (which finishes builds).  [ScheduleBuild] is its commit, whatever its
    queries saw before; [sched_step] adds its queries, which other transactions
    come between. *)

(** [j] is a snapshot of a job whose configuration has not changed since. *)
Definition snapshot (j : Job) (st : Tables) : Prop :=
  exists r, tb_jobs st !! j_id j = Some r /\
    jr_pipeline_id r = j_pipelineID j /\ jr_max_in_flight r = j_maxInFlight j.

Definition build_of (b : Build) (j : Job) (st : Tables) : Prop :=
  forall r, tb_builds st !! b_id b = Some r -> br_job_id r = Some (j_id j).

(** The transactions other than that of [ScheduleBuild]. *)
Inductive other_step `{WorkflowRuns} : Tables -> Tables -> Prop :=
| step_Start b st : other_step st (Start b st).2
| step_finish now b s pe st : s <> BuildStatusStarted -> other_step st (finish now b s pe st).2
| step_MarkAsAborted now b st : other_step st (MarkAsAborted now b st).2
| step_EnsurePending now j st : other_step st (EnsurePendingBuildExists now j st).2
| step_CreateBuild now j by_ st : other_step st (CreateBuild now j by_ st).2
| step_RerunBuild fuel now j b by_ st : other_step st (RerunBuild fuel now j b by_ st).2
| step_Save j m d st : other_step st (SaveNextInputMapping j m d st).2
| step_RequestSchedule now j st : other_step st (RequestSchedule now j st).2
| step_UpdateLastScheduled j t st : other_step st (UpdateLastScheduled j t st).2
| step_SetHasNewInputs j b st : other_step st (SetHasNewInputs j b st).2
| step_Adopt b st : other_step st (AdoptInputsAndPipes b st).2
| step_AdoptRerun now b st : other_step st (AdoptRerunInputsAndPipes now b st).2
| step_Pause j st : other_step st (Pause j st).2
| step_Unpause now j st : other_step st (Unpause now j st).2.

Inductive step `{WorkflowRuns} : Tables -> Tables -> Prop :=
| step_other st st' : other_step st st' -> step st st'
| step_commitSchedule reached j b st : step st (commitSchedule reached j b st).2.

(** A call of [ScheduleBuild] that has begun: what its first query saw, and what
    it found when it has made the second. *)
Record attempt := { at_job : Job; at_build : Build; at_seen : Tables; at_reached : option bool }.

(** The system with the calls of [ScheduleBuild] taken apart: a call, made with
    the scheduling lock of its job, counts the builds in flight; it looks for
    the next pending build; it commits its updates; or it fails.  The other
    transactions come in between.  (The looks at the job and at whether it is
    paused come before and only keep a call from beginning.)  Not among the steps:
    a new configuration of the pipeline, and the loss of a scheduling lock. *)
Inductive sched_step `{WorkflowRuns} : Tables * gmap Z attempt -> Tables * gmap Z attempt -> Prop :=
| sched_other st st' A : other_step st st' -> sched_step (st, A) (st', A)
| sched_count j b st A :
    A !! j_id j = None -> snapshot j st -> b_scheduled b = false ->
    sched_step (st, A)
      (st, <[j_id j := {| at_job := j; at_build := b; at_seen := st; at_reached := None |}]> A)
| sched_next id a st A :
    A !! id = Some a -> at_reached a = None ->
    sched_step (st, A)
      (st, <[id := {| at_job := at_job a; at_build := at_build a; at_seen := at_seen a;
                      at_reached := Some (isMaxInFlightReached (at_job a) (at_seen a) st (b_id (at_build a))) |}]> A)
| sched_commit id a reached st A :
    A !! id = Some a -> at_reached a = Some reached ->
    snapshot (at_job a) st -> build_of (at_build a) (at_job a) st ->
    sched_step (st, A) ((commitSchedule reached (at_job a) (at_build a) st).2, delete id A)
| sched_fail id st A : sched_step (st, A) (st, delete id A).

Lemma other_calm `{WorkflowRuns} st st' : other_step st st' -> calm st st'.
Proof.
  destruct 1;
    auto using quiet_calm, UpdateLastScheduled_calm, Start_quiet, finish_quiet, MarkAsAborted_quiet, EnsurePending_quiet,
      CreateBuild_quiet, RerunBuild_quiet, SaveNextInputMapping_quiet, RequestSchedule_quiet,
      SetHasNewInputs_quiet, AdoptInputs_quiet, AdoptRerun_quiet,
      Pause_quiet, Unpause_quiet.
Qed.

(** ** Builds in flight *)

(** The builds in flight of the jobs in some serial groups of a pipeline. *)
Definition running_set (st : Tables) (groups : list string) (pipelineID : Z) : gset Z :=
  dom (filter (running_in_groups st groups pipelineID) (tb_builds st)).

(** Every job of the serial group has a limit, of at most [m]. *)
Definition group_limit (st : Tables) (pipelineID : Z) (g : string) (m : Z) : Prop :=
  forall id r, tb_jobs st !! id = Some r -> jr_pipeline_id r = pipelineID ->
    (id, g) ∈ tb_serial_groups st -> 0 < jr_max_in_flight r <= m.

Lemma elem_of_running_set st groups p id :
  id ∈ running_set st groups p <->
  exists r, tb_builds st !! id = Some r /\ running_in_groups st groups p (id, r).
Proof.
  unfold running_set. rewrite elem_of_dom. unfold is_Some.
  split; intros [r Hr]; exists r; by rewrite map_lookup_filter_Some in *.
Qed.

Lemma in_serial_groups_true st groups p jid P :
  in_serial_groups st groups p jid P = true <->
  exists id r g, jid = Some id /\ tb_jobs st !! id = Some r /\ jr_pipeline_id r = p /\ P r = true /\
    (id, g) ∈ tb_serial_groups st /\ g ∈ groups.
Proof.
  unfold in_serial_groups. destruct jid as [id|]; [|naive_solver].
  destruct (tb_jobs st !! id) as [r|] eqn:Hr; [|naive_solver].
  rewrite !andb_true_iff, existsb_exists. setoid_rewrite andb_true_iff. rewrite bool_decide_eq_true.
  setoid_rewrite bool_decide_eq_true. setoid_rewrite <- list_elem_of_In. split.
  - intros [[Hp HP] [[id' g] (Hin & E & Hg)]]. cbn in *. subst. naive_solver.
  - intros (id' & r' & g & [= <-] & Hr' & Hp & HP & Hin & Hg). rewrite Hr in Hr'. injection Hr' as <-.
    split; [done|]. by exists (id, g).
Qed.

Lemma quiet_job st st' id r' : calm st st' -> tb_jobs st' !! id = Some r' ->
  exists r, tb_jobs st !! id = Some r /\ job_static r' = job_static r.
Proof.
  intros [HJ _ _] Hr'. apply (f_equal (lookup id)) in HJ. rewrite !lookup_fmap, Hr' in HJ.
  destruct (tb_jobs st !! id) as [r|]; [|done]. exists r. split; [done|]. by apply (inj Some) in HJ.
Qed.

Lemma quiet_limit st st' p g m : calm st st' -> group_limit st p g m -> group_limit st' p g m.
Proof.
  intros Hq Hl id r' Hr' Hp Hin. destruct (quiet_job _ _ _ _ Hq Hr') as (r & Hr & [= ? ? ? ?]).
  rewrite (quiet_groups _ _ _ Hq) in Hin. destruct (Hl id r); [done|congruence|done|]. lia.
Qed.

Lemma quiet_running st st' groups p : calm st st' -> running_set st' groups p ⊆ running_set st groups p.
Proof.
  intros Hq id. rewrite !elem_of_running_set. intros (r' & Hr' & Hin & Hc & Hs). cbn in *.
  destruct (quiet_builds _ _ _ Hq _ _ Hr') as [|(r & Hr & E & S & C)]; [congruence|].
  exists r. split; [done|]. repeat split; cbn; [|destruct (br_completed r); [by rewrite C in Hc|done]|auto].
  rewrite in_serial_groups_true in *. destruct Hin as (jid & j' & g & Hj & Hj' & Hp & _ & Hg & Hin).
  destruct (quiet_job _ _ _ _ Hq Hj') as (jr & Hjr & [= ? ? ? ?]).
  rewrite (quiet_groups _ _ _ Hq) in Hg. exists jid, jr, g. split_and!; congruence || done.
Qed.

Lemma running_mono st g groups p : g ∈ groups -> running_set st [g] p ⊆ running_set st groups p.
Proof.
  intros Hg id. rewrite !elem_of_running_set. intros (r & Hr & Hin & Hrest). exists r.
  split; [done|]. split; [|done]. rewrite in_serial_groups_true in *.
  destruct Hin as (jid & jr & g' & ? & ? & ? & ? & ? & Hg'). apply list_elem_of_singleton in Hg' as ->.
  exists jid, jr, g. split_and!; done.
Qed.

Lemma getRunning_length j st groups :
  length (getRunningBuildsBySerialGroup j st groups) = size (running_set st groups (j_pipelineID j)).
Proof.
  unfold getRunningBuildsBySerialGroup, running_set. by rewrite length_fmap, length_map_to_list, size_dom.
Qed.

Lemma elem_of_getSerialGroups j st g : g ∈ getSerialGroups j st <-> (j_id j, g) ∈ tb_serial_groups st.
Proof.
  unfold getSerialGroups. rewrite list_elem_of_fmap. setoid_rewrite list_elem_of_filter. split.
  - by intros ([id g'] & -> & <- & Hin).
  - intros Hin. by exists (j_id j, g).
Qed.

(** What the commit of [ScheduleBuild] does to the tables: at most the flag of
    the job, or that and the build, when the limit was not reached. *)
Lemma commit_cases reached j b st :
  quiet st (commitSchedule reached j b st).2 \/
  reached = false /\
  (commitSchedule reached j b st).2 = update_build (b_id b) (set_br_scheduled (fun _ => true))
    (update_job (j_id j) (set_jr_max_in_flight_reached (fun _ => false)) st).
Proof.
  unfold commitSchedule, transaction. destruct (one_row (tb_jobs st) (j_id j)); cbn; try (left; reflexivity).
  destruct reached; cbn; [left; quieten|].
  destruct (one_row (tb_builds st) (b_id b)); cbn; [right; done|left; reflexivity..].
Qed.

Lemma ScheduleBuild_cases j b st :
  quiet st (ScheduleBuild j b st).2 \/
  isMaxInFlightReached j st st (b_id b) = false /\
  (ScheduleBuild j b st).2 = update_build (b_id b) (set_br_scheduled (fun _ => true))
    (update_job (j_id j) (set_jr_max_in_flight_reached (fun _ => false)) st).
Proof.
  unfold ScheduleBuild, ScheduleBuild_at. destruct (b_scheduled b); [left; reflexivity|].
  destruct (isPipelineOrJobPaused j st) as [[]|e| |]; try (left; reflexivity). apply commit_cases.
Qed.

(** The builds in flight after a build was scheduled. *)
Lemma running_scheduled st b flag j groups p :
  running_set (update_build b (set_br_scheduled (fun _ => true))
    (update_job j (set_jr_max_in_flight_reached (fun _ => flag)) st)) groups p
  ⊆ running_set st groups p ∪
    (if from_option (fun r => in_serial_groups st groups p (br_job_id r) (fun _ => true)) false
          (tb_builds st !! b)
     then {[b]} else ∅).
Proof.
  set (st' := update_job _ _ st).
  assert (Hq : calm st st') by (apply quiet_update_job; done).
  intros id. rewrite elem_of_union, !elem_of_running_set. intros (r' & Hr' & Hin & Hc & Hs).
  change (tb_builds (update_build b (set_br_scheduled (fun _ => true)) st'))
    with (alter (set_br_scheduled (fun _ => true)) b (tb_builds st')) in Hr'. cbn in Hin, Hc, Hs.
  assert (Hin' : in_serial_groups st groups p (br_job_id r') (fun _ => true) = true).
  { rewrite in_serial_groups_true in *. destruct Hin as (jid & jr & g & Hj & Hjr & Hp & _ & Hg & Hgs).
    destruct (quiet_job _ st' jid jr Hq Hjr) as (jr0 & Hjr0 & [= ? ? ? ?]).
    exists jid, jr0, g. split_and!; congruence || done. }
  destruct (decide (id = b)) as [->|Hne].
  - rewrite lookup_alter_eq in Hr'. cbn in Hr'. destruct (tb_builds st !! b) as [r|] eqn:Hr; [|done].
    injection Hr' as <-. right. cbn in *. rewrite Hin'. set_solver.
  - left. rewrite lookup_alter_ne in Hr' by done. by exists r'.
Qed.

(** The job is one of the serial group. *)
Definition in_group (st : Tables) (p : Z) (g : string) (id : Z) : Prop :=
  exists r, tb_jobs st !! id = Some r /\ jr_pipeline_id r = p /\ (id, g) ∈ tb_serial_groups st.

Definition same_jobs (st st' : Tables) : Prop :=
  job_static <$> tb_jobs st' = job_static <$> tb_jobs st /\ tb_serial_groups st' = tb_serial_groups st.

Lemma calm_same_jobs st st' : calm st st' -> same_jobs st st'.
Proof. intros Hq. split; [apply Hq|apply (quiet_groups _ _ _ Hq)]. Qed.

Lemma commit_same_jobs reached j b st : same_jobs st (commitSchedule reached j b st).2.
Proof.
  destruct (commit_cases reached j b st) as [Hq|[_ ->]]; [by apply calm_same_jobs, quiet_calm|].
  assert (Hq : calm st (update_job (j_id j) (set_jr_max_in_flight_reached (fun _ => false)) st))
    by (apply quiet_update_job; done).
  exact (calm_same_jobs _ _ Hq).
Qed.

Lemma same_jobs_lookup st st' id r' : same_jobs st st' -> tb_jobs st' !! id = Some r' ->
  exists r, tb_jobs st !! id = Some r /\ job_static r' = job_static r.
Proof.
  intros [HJ _] Hr'. apply (f_equal (lookup id)) in HJ. rewrite !lookup_fmap, Hr' in HJ.
  destruct (tb_jobs st !! id) as [r|]; [|done]. exists r. split; [done|]. by apply (inj Some) in HJ.
Qed.

Lemma same_jobs_group st st' p g id : same_jobs st st' -> in_group st' p g id -> in_group st p g id.
Proof.
  intros Hj (r' & Hr' & Hp & Hin). destruct (same_jobs_lookup _ _ _ _ Hj Hr') as (r & Hr & [= ? ? ? ?]).
  exists r. rewrite <- (proj2 Hj). split_and!; [done|congruence|done].
Qed.

Lemma same_jobs_limit st st' p g m : same_jobs st st' -> group_limit st p g m -> group_limit st' p g m.
Proof.
  intros Hj Hl id r' Hr' Hp Hin. destruct (same_jobs_lookup _ _ _ _ Hj Hr') as (r & Hr & [= ? ? ? ?]).
  rewrite (proj2 Hj) in Hin. destruct (Hl id r); [done|congruence|done|]. lia.
Qed.

(** The commit of a job that is not in the group adds nothing to it. *)
Lemma commit_outside reached j b st p g :
  build_of b j st -> ~ in_group st p g (j_id j) ->
  running_set (commitSchedule reached j b st).2 [g] p ⊆ running_set st [g] p.
Proof.
  intros Hof Hout. destruct (commit_cases reached j b st) as [Hq|[_ ->]]; [by apply quiet_running, quiet_calm|].
  etrans; [apply running_scheduled|]. destruct (tb_builds st !! b_id b) as [r|] eqn:Hr; cbn; [|set_solver].
  destruct (in_serial_groups _ _ _ _ _) eqn:Hin; [|set_solver]. exfalso. apply Hout.
  rewrite (Hof r Hr) in Hin. apply in_serial_groups_true in Hin
    as (jid & jr & g' & [= <-] & Hjr & Hp & _ & Hg & ->%list_elem_of_singleton). by exists jr.
Qed.

(** A commit adds at most one build to the group. *)
Lemma commit_one reached j b st p g :
  (size (running_set (commitSchedule reached j b st).2 [g] p) <= S (size (running_set st [g] p)))%nat /\
  (reached = true -> running_set (commitSchedule reached j b st).2 [g] p ⊆ running_set st [g] p).
Proof.
  destruct (commit_cases reached j b st) as [Hq|[-> ->]].
  { apply quiet_calm in Hq. pose proof (quiet_running _ _ [g] p Hq) as Hr. split; [|done].
    apply subseteq_size in Hr. lia. }
  split; [|done]. pose proof (running_scheduled st (b_id b) false (j_id j) [g] p) as Hsub.
  apply subseteq_size in Hsub. etrans; [exact Hsub|]. clear Hsub. rewrite size_union_alt.
  assert (Hone : (size ((if from_option (fun r => in_serial_groups st [g] p (br_job_id r) (fun _ => true)) false
          (tb_builds st !! b_id b) then {[b_id b]} else ∅ : gset Z) ∖ running_set st [g] p) <= 1)%nat); [|lia].
  rewrite <- (size_singleton (C := gset Z) (b_id b)). apply subseteq_size. case_match; set_solver.
Qed.

(** What a call of [ScheduleBuild] for a job of the group has seen: no build of
    the group was scheduled since, and when it found room there was room. *)
Definition seen_ok (p : Z) (g : string) (st : Tables) (a : attempt) : Prop :=
  running_set st [g] p ⊆ running_set (at_seen a) [g] p /\
  (j_id (at_job a), g) ∈ tb_serial_groups (at_seen a) /\
  (at_reached a = Some false -> j_maxInFlight (at_job a) = 0 \/
     Z.of_nat (size (running_set (at_seen a) (getSerialGroups (at_job a) (at_seen a)) (j_pipelineID (at_job a))))
       < j_maxInFlight (at_job a)).

(** No two jobs of the group are between the first query of [ScheduleBuild] and
    its commit. *)
Definition alone (p : Z) (g : string) (s : Tables * gmap Z attempt) : Prop :=
  forall id id', is_Some (s.2 !! id) -> is_Some (s.2 !! id') ->
    in_group s.1 p g id -> in_group s.1 p g id' -> id = id'.

Record sched_inv (p : Z) (g : string) (m : Z) (s : Tables * gmap Z attempt) : Prop := {
  si_limit : group_limit s.1 p g m;
  si_running : Z.of_nat (size (running_set s.1 [g] p)) <= m;
  si_job : forall id a, s.2 !! id = Some a -> j_id (at_job a) = id;
  si_seen : forall id a, s.2 !! id = Some a -> in_group s.1 p g id -> seen_ok p g s.1 a }.

Lemma sched_inv_calm p g m st st' A : calm st st' -> sched_inv p g m (st, A) -> sched_inv p g m (st', A).
Proof.
  intros Hq [H1 H2 H3 H4]. cbn in *. pose proof (calm_same_jobs _ _ Hq) as Hj.
  pose proof (quiet_running _ _ [g] p Hq) as Hr. split; cbn.
  - by eapply same_jobs_limit.
  - apply subseteq_size in Hr. lia.
  - done.
  - intros id a Ha Hg. destruct (H4 id a Ha) as (Hs & Hin & Hroom); [by eapply same_jobs_group|].
    split_and!; [by etrans|done..].
Qed.

Lemma sched_inv_delete p g m st A id : sched_inv p g m (st, A) -> sched_inv p g m (st, delete id A).
Proof.
  intros [H1 H2 H3 H4]. split; cbn in *; [done|done|..]; intros id' a [_ Ha]%lookup_delete_Some; eauto.
Qed.

(** The commit of a call, when no other job of the group is in one. *)
Lemma sched_inv_commit p g m st A id a reached :
  sched_inv p g m (st, A) -> alone p g (st, A) -> A !! id = Some a -> at_reached a = Some reached ->
  snapshot (at_job a) st -> build_of (at_build a) (at_job a) st ->
  sched_inv p g m ((commitSchedule reached (at_job a) (at_build a) st).2, delete id A).
Proof.
  intros [H1 H2 H3 H4] Hal Ha Hre Hsnap Hof. cbn in *. pose proof (H3 _ _ Ha) as Hid.
  pose proof (commit_same_jobs reached (at_job a) (at_build a) st) as Hj.
  assert (Hkeep : in_group st p g id \/
    running_set (commitSchedule reached (at_job a) (at_build a) st).2 [g] p ⊆ running_set st [g] p).
  { destruct (decide (Exists (fun q : Z * string => q = (id, g)) (tb_serial_groups st))) as [Hin|Hout].
    - destruct Hsnap as (jr & Hjr & Hp & _). rewrite Hid in Hjr. destruct (decide (jr_pipeline_id jr = p)) as [Hpp|Hpp].
      + left. exists jr. split_and!; [done..|]. apply Exists_exists in Hin as (q & Hq & ->). done.
      + right. apply commit_outside; [done|]. rewrite Hid. intros (jr' & Hjr' & Hp' & _). congruence.
    - right. apply commit_outside; [done|]. rewrite Hid. intros (_ & _ & _ & Hin). apply Hout.
      apply Exists_exists. eauto. }
  split; cbn; [by eapply same_jobs_limit| |intros id' a' [_ Ha']%lookup_delete_Some; eauto|].
  - destruct Hkeep as [Hg|Hr]; [|apply subseteq_size in Hr; lia].
    destruct (commit_one reached (at_job a) (at_build a) st p g) as [Hone Htrue].
    destruct reached; [specialize (Htrue eq_refl); apply subseteq_size in Htrue; lia|].
    destruct (H4 _ _ Ha Hg) as (Hs & Hin & Hroom). destruct Hg as (jr & Hjr & Hp & Hgr).
    destruct Hsnap as (jr' & Hjr' & Hp' & Hmax). rewrite Hid in Hjr'. rewrite Hjr in Hjr'. injection Hjr' as <-.
    destruct (H1 _ _ Hjr Hp Hgr) as [Hpos Hm]. destruct (Hroom Hre) as [|Hlt]; [lia|].
    rewrite <- Hp', Hp in Hlt. apply subseteq_size in Hs.
    assert (Hmono : (size (running_set (at_seen a) [g] p)
        <= size (running_set (at_seen a) (getSerialGroups (at_job a) (at_seen a)) p))%nat).
    { apply subseteq_size, running_mono. by apply elem_of_getSerialGroups. }
    lia.
  - intros id' a' [Hne Ha']%lookup_delete_Some Hg'. apply (same_jobs_group _ _ _ _ _ Hj) in Hg'.
    destruct (H4 _ _ Ha' Hg') as (Hs & Hin & Hroom). split_and!; [|done..].
    destruct Hkeep as [Hg|Hr]; [|by etrans]. by destruct Hne; apply Hal; cbn; eauto.
Qed.

Lemma sched_step_inv `{WorkflowRuns} p g m s s' :
  sched_step s s' -> alone p g s -> sched_inv p g m s -> sched_inv p g m s'.
Proof.
  intros Hs Hal Hinv. destruct Hs as [st st' A Ho|j b st A Hn Hsnap _|id a st A Ha Hre|id a reached st A Ha Hre Hsnap Hof|id st A].
  - eapply sched_inv_calm; [by apply other_calm|done].
  - destruct Hinv as [H1 H2 H3 H4]. cbn in *. split; cbn; [done..| |].
    + intros id a [[<- <-]|[_ Ha]]%lookup_insert_Some; [done|eauto].
    + intros id a [[<- <-]|[_ Ha]]%lookup_insert_Some; [|eauto].
      intros (r & _ & _ & Hin). by split_and!.
  - destruct Hinv as [H1 H2 H3 H4]. cbn in *. split; cbn; [done..| |].
    + intros id' a' [[<- <-]|[_ Ha']]%lookup_insert_Some; cbn; eauto.
    + intros id' a' [[<- <-]|[_ Ha']]%lookup_insert_Some; [|eauto]. intros Hg.
      destruct (H4 _ _ Ha Hg) as (Hs & Hin & _). split_and!; [done..|]. cbn. intros [= Hf].
      unfold isMaxInFlightReached in Hf. destruct (j_maxInFlight (at_job a) =? 0) eqn:Hz; [left; lia|right].
      destruct (j_maxInFlight (at_job a) <=? _) eqn:Hcount; [done|]. apply Z.leb_gt in Hcount.
      by rewrite getRunning_length in Hcount.
  - by eapply sched_inv_commit.
  - by apply sched_inv_delete.
Qed.

Lemma sched_inv_init st p g m :
  group_limit st p g m -> Z.of_nat (size (running_set st [g] p)) <= m -> sched_inv p g m (st, ∅).
Proof. intros Hl Hr. split; cbn; [done|done|..]; intros id a Ha; by rewrite lookup_empty in Ha. Qed.

(** The membership of groups does not change. *)
Lemma sched_same_jobs `{WorkflowRuns} s s' : sched_step s s' -> same_jobs s.1 s'.1.
Proof. destruct 1; cbn; [by apply calm_same_jobs, other_calm|done|done|apply commit_same_jobs|done]. Qed.

(** ** Aborted builds *)

Lemma ids_fresh_check st :
  forallb (fun p => p.1 <? tb_builds_id_seq st) (map_to_list (tb_builds st)) = true -> ids_fresh st.
Proof.
  rewrite forallb_forall. intros Hf id [r Hr]. apply Z.ltb_lt. apply (Hf (id, r)).
  by apply list_elem_of_In, elem_of_map_to_list.
Qed.

Lemma step_kept `{WorkflowRuns} st st' : step st st' -> ids_fresh st ->
  ids_fresh st' /\ forall id r, tb_builds st !! id = Some r ->
    exists r', tb_builds st' !! id = Some r' /\ row_kept r r'.
Proof.
  intros Hs Hf.
  assert (Hcalm : forall st', calm st st' -> ids_fresh st' /\ forall id r, tb_builds st !! id = Some r ->
    exists r', tb_builds st' !! id = Some r' /\ row_kept r r').
  { intros st1 Hq. split; [by eapply quiet_fresh|]. intros id r Hr. eapply quiet_kept; [done..|]. apply Hf. by eexists. }
  destruct Hs as [st st' Ho|reached j b st]; [by apply Hcalm, other_calm|].
  destruct (commit_cases reached j b st) as [Hq|[_ ->]]; [by apply Hcalm, quiet_calm|]. split.
  - intros id. cbn. rewrite lookup_alter_is_Some. apply Hf.
  - intros id r Hr. cbn. destruct (decide (id = b_id b)) as [->|].
    + rewrite lookup_alter_eq, Hr. eexists. split; [done|]. by split.
    + rewrite lookup_alter_ne by done. exists r. split; [done|]. by split.
Qed.

(** ** Saving and adopting inputs *)

(** What the algorithm chose for an input: a version and the passed builds. *)
Abbreviation choice := (AlgorithmInput * list Z)%type (only parsing).

Definition chosen_result (c : choice) : InputResult :=
  {| Input := Some c.1; PassedBuildIDs := c.2; ResolveError := "" |}.

Definition chosen_next (jobID : Z) (p : string * choice) : NextInputRow :=
  {| ni_job_id := jobID; ni_input_name := p.1;
     ni_version_digest := Some (av_Version (ai_AlgorithmVersion p.2.1));
     ni_resource_id := Some (av_ResourceID (ai_AlgorithmVersion p.2.1));
     ni_first_occurrence := Some (FirstOccurrence p.2.1); ni_resolve_error := None |}.

Definition chosen_row (buildID : Z) (p : string * choice) : InputRow :=
  {| in_build_id := buildID; in_resource_id := av_ResourceID (ai_AlgorithmVersion p.2.1);
     in_version_digest := av_Version (ai_AlgorithmVersion p.2.1); in_name := p.1;
     in_first_occurrence := FirstOccurrence p.2.1 |}.

(** The version a choice refers to. *)
Definition chosen_version (st : Tables) (c : choice) : option (gmap string string) :=
  input_version st (chosen_row 0 ("", c)).

Definition chosen_input (p : string * choice) (v : gmap string string) : BuildInput :=
  {| bi_Name := p.1; bi_Version := v; bi_ResourceID := av_ResourceID (ai_AlgorithmVersion p.2.1);
     bi_FirstOccurrence := FirstOccurrence p.2.1; bi_ResolveError := "" |}.

Lemma next_input_rows_chosen jobID (l : list (string * choice)) :
  next_input_rows jobID (prod_map id chosen_result <$> l) = Ret (chosen_next jobID <$> l).
Proof. induction l as [|[n c] l IH]; [done|]. cbn in *. by rewrite IH. Qed.

Lemma adopt_rows_chosen jobID buildID (l : list (string * choice)) :
  adopt_rows buildID (chosen_next jobID <$> l) = Ret (chosen_row buildID <$> l).
Proof. induction l as [|[n c] l IH]; [done|]. cbn in *. by rewrite IH. Qed.

Lemma inputs_by_name_lookup rows n r :
  NoDup (in_name <$> rows) ->
  inputs_by_name rows !! n = Some r <-> r ∈ rows /\ in_name r = n.
Proof.
  intros Hnd.
  assert (Hg : forall m0 : gmap string InputRow,
    foldl (fun m r => <[in_name r := r]> m) m0 rows !! n = Some r <->
    (r ∈ rows /\ in_name r = n) \/ ((n ∉ in_name <$> rows) /\ m0 !! n = Some r)).
  { induction rows as [|x rows IH]; intros m0; cbn -[fmap]; [set_solver|].
    rewrite fmap_cons in *. apply NoDup_cons in Hnd as [Hx Hnd]. rewrite (IH Hnd).
    rewrite lookup_insert_Some, elem_of_cons, not_elem_of_cons. split.
    - intros [[]|[Hn [[<- <-]|[Hne Hm]]]]; [tauto|left; tauto|]. right. split; [|done].
      split; [congruence|done].
    - intros [[[->|Hr] <-]|[[Hne Hn] Hm]]; [right; split; [done|by left]|tauto|].
      right. split; [done|right; split; congruence]. }
  unfold inputs_by_name. rewrite Hg, lookup_empty. naive_solver.
Qed.

(** When every version is there, the adopted inputs are exactly the rows. *)
Lemma adopted_inputs_spec tx rows :
  (forall n r, (n, r) ∈ rows -> is_Some (input_version tx r)) ->
  exists inputs, adopted_inputs tx rows = inr inputs /\
    forall bi, bi ∈ inputs <-> exists n r v, (n, r) ∈ rows /\ input_version tx r = Some v /\
      bi = {| bi_Name := n; bi_Version := v; bi_ResourceID := in_resource_id r;
              bi_FirstOccurrence := in_first_occurrence r; bi_ResolveError := "" |}.
Proof.
  induction rows as [|[n r] rows IH]; intros Hv; cbn.
  { exists []. split; [done|]. set_solver. }
  destruct (Hv n r) as [v Hnv]; [by left|]. rewrite Hnv.
  destruct IH as (inputs & -> & Hin); [intros; apply (Hv n0); by right|].
  eexists. split; [done|]. intros bi. rewrite elem_of_cons, Hin. split.
  - intros [->|(n' & r' & v' & ? & ?)]; [exists n, r, v|exists n', r', v'];
      (split; [by constructor|done]).
  - intros (n' & r' & v' & Hel & Hv' & ->). apply elem_of_cons in Hel as [[= -> ->]|Hel]; [left|right; eauto 8].
    congruence.
Qed.

Lemma insert_pipes_spec new table p : p ∈ insert_pipes new table <-> p ∈ new \/ p ∈ table.
Proof.
  unfold insert_pipes. revert table. induction new as [|q new IH]; intros table; cbn; [set_solver|].
  rewrite IH. case_decide; set_solver.
Qed.

(** The tables after saving choices for a job. *)
Lemma SaveNextInputMapping_chosen j (m : gmap string choice) d st :
  exists st1, SaveNextInputMapping j (chosen_result <$> m) d st = (Ret (), st1) /\
    tb_jobs st1 = alter (set_jr_inputs_determined (fun _ => d)) (j_id j) (tb_jobs st) /\
    tb_resources st1 = tb_resources st /\ tb_versions st1 = tb_versions st /\
    tb_build_pipes st1 = tb_build_pipes st /\ tb_build_inputs st1 = tb_build_inputs st /\
    filter (fun i => ni_job_id i = j_id j) (tb_next_build_inputs st1) =
      chosen_next (j_id j) <$> map_to_list m /\
    forall from, (from, j_id j) ∈ tb_next_build_pipes st1 <->
      exists name c, m !! name = Some c /\ from ∈ c.2.
Proof.
  unfold SaveNextInputMapping, transaction. rewrite map_to_list_fmap, next_input_rows_chosen. cbn.
  eexists. split; [reflexivity|]. cbn. split_and!; [done..| |].
  - rewrite filter_app, filter_none, filter_all; [done| |].
    + apply Forall_fmap, Forall_forall. done.
    + apply Forall_forall. intros x Hx. by apply list_elem_of_filter in Hx as [? _].
  - intros from. rewrite insert_pipes_spec, list_elem_of_filter. cbn. split.
    + intros [Hp|[[] _]]; [|done]. apply list_elem_of_bind in Hp as ([n r] & Hp & Hn).
      apply list_elem_of_fmap in Hn as ([n' c] & [= -> ->] & Hc). apply elem_of_map_to_list in Hc.
      apply list_elem_of_fmap in Hp as (b & [= ->] & Hb). eauto.
    + intros (n & c & Hc & Hf). left. apply list_elem_of_bind.
      exists (n, chosen_result c). split; [by apply (list_elem_of_fmap_2 (fun b => (b, j_id j)))|].
      apply list_elem_of_fmap. exists (n, c). split; [done|]. by apply elem_of_map_to_list.
Qed.

(** ** Claims *)

(** C4: The limit on the builds in flight of a serial group, with the queries
    and the commit of [ScheduleBuild] taken apart and the transactions of all
    components in between.  In a pipeline, let every job of the group have a
    positive [max_in_flight] of at most [m]; if at most [m] builds of the group
    are scheduled and not completed, this stays so in every run in which calls of
    [ScheduleBuild] of different jobs of the group do not overlap, a job has
    one at a time (it is made with the job's scheduling lock, which is not lost
    meanwhile), and the configuration of jobs does not change. *)
Theorem max_in_flight_invariant `{WorkflowRuns} st st' A p g m :
  rtc (fun s s' => sched_step s s' /\ alone p g s') (st, ∅) (st', A) ->
  group_limit st p g m ->
  Z.of_nat (size (running_set st [g] p)) <= m ->
  Z.of_nat (size (running_set st' [g] p)) <= m.
Proof.
  intros Hrun Hl Hr. change st' with (st', A).1. apply (si_running p g m).
  pose proof (sched_inv_init _ _ _ _ Hl Hr) as Hinv.
  assert (Hal : alone p g (st, ∅)) by (intros id id' [a Ha]; cbn in Ha; by rewrite lookup_empty in Ha).
  revert Hal Hinv. induction Hrun as [|s s1 s2 [Hs Hal1] _ IH]; [done|].
  intros Hal Hinv. apply IH; [done|]. by eapply sched_step_inv.
Qed.


(** C32: An aborted build never starts.  Once a build that has not started is
    marked aborted, no sequence of transactions, the scheduler's included,
    makes it started or clears the mark. *)
Theorem aborted_never_starts `{WorkflowRuns} st st' id r :
  rtc step st st' -> ids_fresh st ->
  tb_builds st !! id = Some r -> br_aborted r = true -> br_status r <> BuildStatusStarted ->
  exists r', tb_builds st' !! id = Some r' /\ br_aborted r' = true /\
    br_status r' <> BuildStatusStarted.
Proof.
  intros Hsteps. revert r. induction Hsteps as [st|st st1 st' Hs _ IH]; intros r Hf Hr Ha Hst; [eauto|].
  destruct (step_kept _ _ Hs Hf) as [Hf1 Hk]. destruct (Hk id r Hr) as (r1 & Hr1 & Hk1).
  destruct (Hk1 Ha) as [Ha1 Hst1]. by apply (IH r1); auto.
Qed.

(** A committed request makes a job due exactly when its transaction
    began after the request the job was last scheduled for: [RequestSchedule]
    stores the time its transaction began, and the runner lists the active
    unpaused jobs whose stored request is later than the acknowledged one. *)
Theorem RequestSchedule_due now j st r :
  tb_jobs st !! j_id j = Some r ->
  exists st', RequestSchedule now j st = (Ret (), st') /\
    (j_id j ∈ j_id <$> JobsToSchedule st' <->
     needs_scheduling st (set_jr_schedule_requested (fun _ => now) r)).
Proof.
  intros Hr. eexists. unfold RequestSchedule, transaction, requestSchedule, one_row. rewrite Hr. cbn.
  split; [reflexivity|]. unfold JobsToSchedule. rewrite <- list_fmap_compose, list_elem_of_fmap.
  setoid_rewrite list_elem_of_filter. split.
  - intros ([id r'] & E & Hn & Hl). apply elem_of_map_to_list in Hl. cbn in *. subst id. rewrite lookup_alter_eq, Hr in Hl.
    by injection Hl as <-.
  - intros Hn. exists (j_id j, set_jr_schedule_requested (fun _ => now) r).
    split_and!; [done|exact Hn|]. apply elem_of_map_to_list. cbn.
    by rewrite lookup_alter_eq, Hr.
Qed.

(** C30: A build adopts exactly what the algorithm chose.  When every chosen
    version is in the database, saving the choices of a job and adopting them
    for one of its builds succeeds, returns one input per choice with its
    version, resource and first-occurrence flag, and connects the build to
    exactly the builds the choices passed through. *)
Theorem adopt_saved j b (m : gmap string (AlgorithmInput * list Z)) st r :
  tb_jobs st !! j_id j = Some r -> b_jobID b = j_id j ->
  (forall name c, m !! name = Some c -> is_Some (chosen_version st c)) ->
  exists st1 inputs st2,
    SaveNextInputMapping j (chosen_result <$> m) true st = (Ret (), st1) /\
    AdoptInputsAndPipes b st1 = (Ret (Some inputs), st2) /\
    (forall bi, bi ∈ inputs <-> exists c v, m !! bi_Name bi = Some c /\
       chosen_version st c = Some v /\ bi = chosen_input (bi_Name bi, c) v) /\
    (forall from, (from, b_id b) ∈ tb_build_pipes st2 <->
       exists name c, m !! name = Some c /\ from ∈ c.2).
Proof.
  intros Hr Hb Hv. destruct (SaveNextInputMapping_chosen j m true st)
    as (st1 & Hsave & Hjobs & Hres & Hver & Hpipes & Hbi & Hnext & Hnp).
  set (rows := chosen_row (b_id b) <$> map_to_list m).
  assert (Hrows : NoDup (in_name <$> rows)).
  { unfold rows. rewrite <- list_fmap_compose. apply NoDup_fst_map_to_list. }
  assert (Hrow : forall n x, (n, x) ∈ map_to_list (inputs_by_name rows) <->
    exists c, m !! n = Some c /\ x = chosen_row (b_id b) (n, c)).
  { intros n x. rewrite elem_of_map_to_list, inputs_by_name_lookup by done. unfold rows.
    rewrite list_elem_of_fmap. split.
    - intros [([n' c] & -> & Hc) <-]. apply elem_of_map_to_list in Hc. eauto.
    - intros (c & Hc & ->). split; [|done]. exists (n, c). by rewrite elem_of_map_to_list. }
  assert (Hiv : forall n c st', tb_resources st' = tb_resources st -> tb_versions st' = tb_versions st ->
    input_version st' (chosen_row (b_id b) (n, c)) = chosen_version st c).
  { intros n c st' E1 E2. unfold chosen_version, input_version, versions_by_digest, resource_scope.
    cbn. by rewrite E1, E2. }
  exists st1. unfold AdoptInputsAndPipes. rewrite Hjobs, Hb, lookup_alter_eq, Hr. cbn.
  rewrite Hnext, adopt_rows_chosen. unfold adopt. fold rows.
  match goal with |- context [adopted_inputs ?tx ?l] =>
    destruct (adopted_inputs_spec tx l) as (inputs & Hin & Hspec) end.
  { intros n x Hx. apply Hrow in Hx as (c & Hc & ->). rewrite Hiv by done. by eapply Hv. }
  rewrite Hin. exists inputs. eexists. split_and!; [done|reflexivity| |].
  - intros bi. rewrite Hspec. setoid_rewrite Hrow. split.
    + intros (n & x & v & (c & Hc & ->) & Hx & ->). rewrite Hiv in Hx by done. by exists c, v.
    + intros (c & v & Hc & Hx & E). exists (bi_Name bi), (chosen_row (b_id b) (bi_Name bi, c)), v.
      split_and!; [by eexists|by rewrite Hiv|exact E].
  - intros from. cbn. rewrite insert_pipes_spec, !list_elem_of_filter, list_elem_of_fmap. cbn.
    setoid_rewrite list_elem_of_filter. rewrite <- Hnp. split.
    + intros [([f t] & [= ->] & [Ht Hf])|[[] _]]; [cbn in Ht; by subst t|done].
    + intros Hf. left. exists (from, j_id j). done.
Qed.

(** ** Examples

    Two jobs of pipeline 1 in the serial group "deploy", one pending build
    each. *)
#[local] Instance ordinary_builds : WorkflowRuns := {|
  rejectWorkflowRunOwnedPipeline := fun _ => Ret ();
  rejectWorkflowResourceSourceMutation := fun _ => Ret ();
  captureWorkflowPlan := fun _ => Ret ();
  captureAgentWorkflowRunExecutionStatus := fun _ _ => Ret ();
  terminalizeAgentWorkflowRunPlanningError := fun _ _ => Ret ();
|}.

Definition example_job (name : string) : JobRow :=
  {| jr_name := name; jr_pipeline_id := 1; jr_paused := false; jr_active := true;
     jr_has_config := true; jr_inputs_determined := true; jr_has_new_inputs := false;
     jr_max_in_flight := 1; jr_max_in_flight_reached := false; jr_build_number_seq := 1;
     jr_schedule_requested := 6; jr_last_scheduled := 0; jr_next_build_id := None;
     jr_latest_completed_build_id := None; jr_transition_build_id := None |}.

Definition example_jobs : gmap Z JobRow := {[ 1 := example_job "a"; 2 := example_job "b" ]}.

Definition example_snapshot (id : Z) (name : string) : Job := scanJob id (example_job name).

Definition example_build (job : string) (id : Z) : BuildsRow :=
  pending_row 3 (example_snapshot id job) "1".

Definition example_with (serial_groups : list (Z * string)) : Tables :=
  {| tb_jobs := example_jobs;
     tb_builds := {[ 11 := example_build "a" 1; 12 := example_build "b" 2 ]};
     tb_builds_id_seq := 13;
     tb_pipelines := {[ 1 := {| pr_paused := false; pr_paused_by := None; pr_archived := false;
        pr_version := 1; pr_parent_job_id := None; pr_parent_build_id := None;
        pr_base_template := false |} ]};
     tb_serial_groups := serial_groups;
     tb_job_inputs := [{| ji_job_id := 2; ji_name := "in"; ji_resource_id := 7;
        ji_passed_job_id := Some 1; ji_version := None; ji_trigger := true |}];
     tb_resources := ∅; tb_resource_pins := []; tb_versions := []; tb_next_build_inputs := [];
     tb_next_build_pipes := []; tb_build_inputs := []; tb_build_outputs := [];
     tb_build_pipes := []; tb_successful_build_outputs := []; tb_image_caches := [];
     tb_status_events := []; tb_notifications := [] |}.

Definition example_tables : Tables := example_with [(1, "deploy"); (2, "deploy")].

(** Job "a" schedules its build; another transaction comes between its queries
    and its commit. *)
Definition example_attempt (reached : option bool) : attempt :=
  {| at_job := example_snapshot 1 "a"; at_build := scanBuild 11 (example_build "a" 1);
     at_seen := example_tables; at_reached := reached |}.
Definition example_between : Tables := (RequestSchedule 9 (example_snapshot 2 "b") example_tables).2.
Definition example_scheduled : Tables :=
  (commitSchedule false (example_snapshot 1 "a") (scanBuild 11 (example_build "a" 1)) example_between).2.

Lemma example_lone id x : is_Some (({[1 := x]} : gmap Z attempt) !! id) -> id = 1.
Proof. intros [y [<- _]%lookup_singleton_Some]. done. Qed.

Lemma max_in_flight_invariant_witness :
  Z.of_nat (size (running_set example_scheduled ["deploy"] 1)) <= 1 /\
  running_set example_scheduled ["deploy"] 1 = {[ 11 ]}.
Proof.
  split; [|by vm_compute].
  assert (Hlone : forall st x, alone 1 "deploy" (st, {[1 := x]})).
  { intros st x id id' ->%example_lone ->%example_lone _ _. done. }
  apply (max_in_flight_invariant example_tables example_scheduled ∅ 1 "deploy" 1).
  - eapply (rtc_l _ _ (example_tables, {[1 := example_attempt None]})).
    { split; [|apply Hlone]. apply sched_count; [done| |done]. exists (example_job "a"). by vm_compute. }
    eapply (rtc_l _ _ (example_between, {[1 := example_attempt None]})).
    { split; [|apply Hlone]. apply sched_other, step_RequestSchedule. }
    eapply (rtc_l _ _ (example_between, {[1 := example_attempt (Some false)]})).
    { split; [|apply Hlone]. by apply (sched_next 1 (example_attempt None)). }
    apply rtc_once. split.
    + apply (sched_commit 1 (example_attempt (Some false)) false); [done|done| |].
      * eexists. by vm_compute.
      * intros r. vm_compute. by intros [= <-].
    + intros id id' [x Hx]. cbn in Hx. by rewrite lookup_empty in Hx.
  - intros id r Hr Hp Hin. assert (Hid : id = 1 \/ id = 2) by (cbn in Hin; set_solver).
    destruct Hid as [-> | ->]; vm_compute in Hr; injection Hr as <-; cbn; lia.
  - vm_compute. done.
Defined.


Lemma aborted_never_starts_witness :
  let b := scanBuild 11 (example_build "a" 1) in
  let st := (MarkAsAborted 4 b example_tables).2 in
  exists r', tb_builds (Start b st).2 !! 11 = Some r' /\ br_aborted r' = true /\
    br_status r' <> BuildStatusStarted.
Proof.
  eapply (aborted_never_starts _ _ 11).
  - apply rtc_once, step_other, step_Start.
  - by apply ids_fresh_check.
  - vm_compute. reflexivity.
  - done.
  - done.
Defined.

Lemma RequestSchedule_due_witness :
  exists st', RequestSchedule 8 (example_snapshot 1 "a") example_tables = (Ret (), st') /\
    1 ∈ j_id <$> JobsToSchedule st'.
Proof.
  destruct (RequestSchedule_due 8 (example_snapshot 1 "a") example_tables (example_job "a"))
    as (st' & Hr & Hdue); [by vm_compute|]. exists st'. split; [exact Hr|]. apply Hdue.
  vm_compute. done.
Defined.

(** The limit is checked with two queries, and the lock the runner holds is
    the job's, not the group's.  When another node schedules and starts the
    group's other build between the two queries of [ScheduleBuild], both
    builds are in flight in a serial group whose jobs allow one. *)
Theorem serial_group_race :
  let a := scanBuild 11 (example_build "a" 1) in
  let b := scanBuild 12 (example_build "b" 2) in
  let other st := (Start a (ScheduleBuild (example_snapshot 1 "a") a st).2).2 in
  let '(r, st') := ScheduleBuild_at other (example_snapshot 2 "b") b example_tables in
  r = Ret true /\ running_set st' ["deploy"] 1 = {[ 11; 12 ]} /\
  group_limit st' 1 "deploy" 1.
Proof.
  vm_compute ScheduleBuild_at. split_and!; [done|by vm_compute|].
  intros id r Hr _ Hin. assert (Hid : id = 1 \/ id = 2) by (cbn in Hin; set_solver).
  destruct Hid as [-> | ->]; vm_compute in Hr; injection Hr as <-; cbn; lia.
Qed.

(** A request can be lost: [requestSchedule] and
    [requestScheduleOnDownstreamJobs] store the time their transaction began.
    When a build finishes in a transaction that began before the request the
    runner has meanwhile acknowledged, the jobs downstream of it are not due,
    although they would be if the transaction had begun later. *)
Theorem late_request_lost :
  let acknowledged := (UpdateLastScheduled (example_snapshot 2 "b") 6 example_tables).2 in
  let finish_at now :=
    (Finish now (scanBuild 11 (example_build "a" 1)) BuildStatusSucceeded acknowledged).2 in
  (2 ∉ j_id <$> JobsToSchedule (finish_at 5)) /\ (2 ∈ j_id <$> JobsToSchedule (finish_at 7)).
Proof. split; vm_compute; set_solver. Qed.

Definition example_choice : AlgorithmInput * list Z :=
  ({| ai_AlgorithmVersion := {| av_ResourceID := 7; av_Version := "d1" |}; FirstOccurrence := true |},
   [9]).

Definition example_versions : Tables :=
  {| tb_jobs := example_jobs; tb_builds := tb_builds example_tables; tb_builds_id_seq := 13;
     tb_pipelines := tb_pipelines example_tables; tb_serial_groups := tb_serial_groups example_tables;
     tb_job_inputs := tb_job_inputs example_tables;
     tb_resources := {[ 7 := {| rr_scope := Some 70; rr_last_check_end_time := 1;
       rr_has_config := true; rr_pipeline_id := 1 |} ]};
     tb_resource_pins := [];
     tb_versions := [{| sv_scope := 70; sv_version := {["ref" := "v1"]}; sv_md5 := Some "d1";
       sv_sha256 := "" |}];
     tb_next_build_inputs := []; tb_next_build_pipes := []; tb_build_inputs := [];
     tb_build_outputs := []; tb_build_pipes := []; tb_successful_build_outputs := [];
     tb_image_caches := []; tb_status_events := []; tb_notifications := [] |}.

Lemma adopt_saved_witness :
  exists st1 inputs st2,
    SaveNextInputMapping (example_snapshot 1 "a") (chosen_result <$> {["repo" := example_choice]}) true
      example_versions = (Ret (), st1) /\
    AdoptInputsAndPipes (scanBuild 11 (example_build "a" 1)) st1 = (Ret (Some inputs), st2) /\
    inputs <> [].
Proof.
  destruct (adopt_saved (example_snapshot 1 "a") (scanBuild 11 (example_build "a" 1))
    {["repo" := example_choice]} example_versions (example_job "a"))
    as (st1 & inputs & st2 & Hs & Ha & Hin & _); [by vm_compute|done| |].
  - intros name c. rewrite lookup_singleton_Some. intros [<- <-]. exists {["ref" := "v1"]}; by vm_compute.
  - exists st1, inputs, st2. split_and!; [done..|]. intros ->.
    assert (Hel : chosen_input ("repo", example_choice) {["ref" := "v1"]} ∈ []); [|by apply not_elem_of_nil in Hel].
    apply Hin. exists example_choice, {["ref" := "v1"]}. split_and!; by vm_compute.
Defined.
