(* ===== verification/Scheduler.v ===== *)
(** * The scheduler (atc/scheduler)

    [Scheduler.Schedule] computes the inputs of the next build of a job,
    makes sure a pending build exists when there is something new to build,
    and tries to start the pending builds in order; the runner does so for
    every job with an outstanding request.  The code is written against the
    interface [SchedulerDB]: the methods of [db.SchedulerJob] and [db.Build],
    the input algorithm and the build planner.  Any of them may fail.

    Logging, tracing spans and the metrics counters are not modelled. *)
From S2P Require Import Prelude VersionsDB Tables JobTables.
From stdpp Require Import base gmap sets list strings.
From Stdlib Require Import ZArith.
Open Scope Z_scope.

(** ** The interface *)

Abbreviation dberr := (wrapped dberror) (only parsing).

Class SchedulerDB := {
  St : Type;
  (** [atc.JobConfig] and [atc.Plan] *)
  JobConfig : Type;
  Plan : Type;
  (** the input algorithm *)
  Compute_inputs : Job -> InputConfigs -> stateful St dberr (InputMapping * bool * bool);
  (** the build planner; [true] for a manually triggered build *)
  planner_Create : Job -> JobConfig -> list BuildInput -> bool -> outcome dberr Plan;
  job_Config : Job -> stateful St dberr JobConfig;
  job_Reload : Job -> stateful St dberr (option Job);
  job_AlgorithmInputs : Job -> stateful St dberr InputConfigs;
  job_RequestSchedule : Job -> stateful St dberr unit;
  job_UpdateLastScheduled : Job -> Z -> stateful St dberr unit;
  job_SaveNextInputMapping : Job -> InputMapping -> bool -> stateful St dberr unit;
  job_GetFullNextBuildInputs : Job -> stateful St dberr (option (list BuildInput));
  job_EnsurePendingBuildExists : Job -> stateful St dberr unit;
  job_SetHasNewInputs : Job -> bool -> stateful St dberr unit;
  job_GetPendingBuilds : Job -> stateful St dberr (list Build);
  job_ScheduleBuild : Job -> Build -> stateful St dberr bool;
  build_ResourcesChecked : Build -> stateful St dberr bool;
  build_AdoptInputsAndPipes : Build -> stateful St dberr (option (list BuildInput));
  build_AdoptRerunInputsAndPipes : Build -> stateful St dberr (option (list BuildInput));
  build_Start : Build -> Plan -> stateful St dberr bool;
  build_Finish : Build -> BuildStatus -> stateful St dberr unit;
  build_FinishWorkflowPlanningError : Build -> string -> stateful St dberr unit;
}.

Section Scheduler.
Context `{db : SchedulerDB}.

Abbreviation M A := (stateful St dberr A) (only parsing).

(** ** The builds of the scheduler (build.go) *)

Inductive SchedulableBuild :=
| manualTriggerBuild (b : Build) (job : Job) (jobInputs : InputConfigs)
| schedulerBuild (b : Build)
| rerunBuild (b : Build).

Definition theBuild (b : SchedulableBuild) : Build :=
  match b with
  | manualTriggerBuild b _ _ | schedulerBuild b | rerunBuild b => b
  end.

Definition IsReadyToDetermineInputs (b : SchedulableBuild) : M bool :=
  match b with
  | manualTriggerBuild b _ _ => build_ResourcesChecked b
  | schedulerBuild _ | rerunBuild _ => mret true
  end.

(** [None] stands for [nil, false]. *)
Definition BuildInputs (b : SchedulableBuild) : M (option (list BuildInput)) :=
  match b with
  | manualTriggerBuild b job jobInputs =>
      '(inputMapping, resolved, hasNextInputs) ←
        wrap "compute inputs" (Compute_inputs job jobInputs);
      _ ← (if hasNextInputs : bool then wrap "request schedule" (job_RequestSchedule job)
           else mret ());
      _ ← wrap "save next input mapping" (job_SaveNextInputMapping job inputMapping resolved);
      wrap "adopt inputs and pipes" (build_AdoptInputsAndPipes b)
  | schedulerBuild b => wrap "adopt inputs and pipes" (build_AdoptInputsAndPipes b)
  | rerunBuild b => wrap "adopt rerun inputs and pipes" (build_AdoptRerunInputsAndPipes b)
  end.

(** ** The build starter (buildstarter.go) *)

Definition constructBuild (job : Job) (jobInputs : InputConfigs) (b : Build) : SchedulableBuild :=
  if b_isManuallyTriggered b then manualTriggerBuild b job jobInputs
  else if negb (b_rerunOf b =? 0) then rerunBuild b
  else schedulerBuild b.

Definition constructBuilds (job : Job) (jobInputs : InputConfigs) (builds : list Build)
    : list SchedulableBuild :=
  constructBuild job jobInputs <$> builds.

Record startResults := {
  finished : bool;
  scheduled : bool;
  readyToDetermineInputs : bool;
  inputsDetermined : bool;
}.

Definition results_finished : startResults :=
  {| finished := true; scheduled := false; readyToDetermineInputs := false;
     inputsDetermined := false |}.

(** A call that returns its error as a value, for the code that inspects it. *)
Definition try {A} (m : M A) : M (dberr + A) :=
  fun st =>
    match m st with
    | (Ret a, st') => (Ret (inr a), st')
    | (Fail e, st') => (Ret (inl e), st')
    | (Panic, st') => (Panic, st')
    | (NoFuel, st') => (NoFuel, st')
    end.

(** What happens when [Start] returned an error. *)
Definition startFailed (b : Build) (err : dberr) : M startResults :=
  match unwrap err with
  | AgentWorkflowRunCancelingError =>
      _ ← wrap "finish canceling workflow build" (build_Finish b BuildStatusAborted);
      mret results_finished
  | AgentWorkflowRunProvenanceError =>
      _ ← wrap "finish invalid workflow plan"
            (build_FinishWorkflowPlanningError b "workflow plan provenance validation failed");
      mret results_finished
  | _ => fail (Wrap "start build" err)
  end.

(** From the build's inputs on: create the plan and start the build. *)
Definition startWithInputs (b : Build) (job : Job) (buildInputs : list BuildInput)
    : M startResults :=
  config ← wrap "config" (job_Config job);
  match planner_Create job config buildInputs (b_isManuallyTriggered b) with
  | Ret plan =>
      started ← try (build_Start b plan);
      match started with
      | inl err => startFailed b err
      | inr false =>
          _ ← wrap "finish build" (build_Finish b BuildStatusAborted);
          mret results_finished
      | inr true => mret results_finished
      end
  | Fail err =>
      _ ← wrap "finish build"
            (build_FinishWorkflowPlanningError b "workflow plan creation failed");
      mret results_finished
  | Panic => fun st => (Panic, st)
  | NoFuel => fun st => (NoFuel, st)
  end.

Definition tryStartNextPendingBuild (nextPendingBuild : SchedulableBuild) (job : Job)
    : M startResults :=
  let b := theBuild nextPendingBuild in
  if b_aborted b then
    _ ← wrap "finish aborted build" (build_Finish b BuildStatusAborted);
    mret results_finished
  else
    isScheduled ← wrap "schedule build" (job_ScheduleBuild job b);
    if negb isScheduled then
      mret {| finished := false; scheduled := false; readyToDetermineInputs := false;
              inputsDetermined := false |}
    else
      ready ← wrap "ready to determine inputs" (IsReadyToDetermineInputs nextPendingBuild);
      if negb ready then
        mret {| finished := false; scheduled := true; readyToDetermineInputs := false;
                inputsDetermined := false |}
      else
        buildInputs ← wrap "get build inputs" (BuildInputs nextPendingBuild);
        match buildInputs with
        | None =>
            mret {| finished := false; scheduled := true; readyToDetermineInputs := true;
                    inputsDetermined := false |}
        | Some buildInputs => startWithInputs b job buildInputs
        end.

(** The loop of [TryStartPendingBuildsForJob]: whether a retry is needed. *)
Fixpoint tryStartBuilds (job : Job) (builds : list SchedulableBuild) : M bool :=
  match builds with
  | [] => mret false
  | b :: builds =>
      results ← tryStartNextPendingBuild b job;
      if finished results then tryStartBuilds job builds
      else if negb (scheduled results) || negb (readyToDetermineInputs results) then mret true
      else if negb (inputsDetermined results) then
        if negb (b_rerunOf (theBuild b) =? 0) then tryStartBuilds job builds else mret false
      else tryStartBuilds job builds
  end.

Definition TryStartPendingBuildsForJob (job : Job) (jobInputs : InputConfigs) : M bool :=
  nextPendingBuilds ← wrap "get pending builds" (job_GetPendingBuilds job);
  tryStartBuilds job (constructBuilds job jobInputs nextPendingBuilds).

(** ** The scheduler (scheduler.go) *)

Definition next_inputs (buildInputs : list BuildInput) : gmap string BuildInput :=
  foldl (fun m i => <[bi_Name i := i]> m) ∅ buildInputs.

(** The loop over the inputs: whether there are new ones; it creates the
    pending build at the first new input that triggers, and stops there. *)
Fixpoint scanInputs (job : Job) (inputMapping : gmap string BuildInput) (hasNewInputs : bool)
    (jobInputs : InputConfigs) : M bool :=
  match jobInputs with
  | [] => mret hasNewInputs
  | inputConfig :: jobInputs =>
      match inputMapping !! Name inputConfig with
      | Some inputSource =>
          if bi_FirstOccurrence inputSource then
            if Trigger inputConfig then
              _ ← wrap "ensure pending build exists" (job_EnsurePendingBuildExists job);
              mret true
            else scanInputs job inputMapping true jobInputs
          else scanInputs job inputMapping hasNewInputs jobInputs
      | None => scanInputs job inputMapping hasNewInputs jobInputs
      end
  end.

Definition ensurePendingBuildExists (job : Job) (jobInputs : InputConfigs) : M unit :=
  buildInputs ← wrap "get next build inputs" (job_GetFullNextBuildInputs job);
  match buildInputs with
  | None => mret ()
  | Some buildInputs =>
      hasNewInputs ← scanInputs job (next_inputs buildInputs) false jobInputs;
      if negb (Bool.eqb hasNewInputs (j_hasNewInputs job))
      then wrap "set has new inputs" (job_SetHasNewInputs job hasNewInputs)
      else mret ()
  end.

Definition Schedule (job : Job) : M bool :=
  jobInputs ← wrap "inputs" (job_AlgorithmInputs job);
  '(inputMapping, resolved, runAgain) ← wrap "compute inputs" (Compute_inputs job jobInputs);
  _ ← (if runAgain : bool then wrap "request schedule" (job_RequestSchedule job) else mret ());
  _ ← wrap "save next input mapping" (job_SaveNextInputMapping job inputMapping resolved);
  _ ← ensurePendingBuildExists job jobInputs;
  TryStartPendingBuildsForJob job jobInputs.

(** ** The runner (runner.go) *)

Definition scheduleJob (job : Job) : M unit :=
  let requestedTime := j_scheduleRequestedTime job in
  found ← wrap "reload job" (job_Reload job);
  match found with
  | None => mret ()
  | Some job =>
      needsRetry ← wrap "schedule job" (Schedule job);
      if negb needsRetry
      then wrap "update last scheduled" (job_UpdateLastScheduled job requestedTime)
      else mret ()
  end.

End Scheduler.
