(* ===== verification/SchedulerSpec.v ===== *)
(** * Correctness of the scheduler against its interface

    What the scheduler relies on is the class [SchedulerDBLaws]: which
    operation may change the status of which build and the time a job was
    last scheduled.  Against it: pending builds are started in order, a
    scheduling request is acknowledged only by a run that started after it,
    and a pending build is asked for exactly when an input that triggers is
    new.  [SchedulerTables.v] discharges the laws with the tables. *)
From S2P Require Import Prelude VersionsDB Tables JobTables Scheduler.
From stdpp Require Import base gmap sets list strings.
From Stdlib Require Import ZArith Lia.
Open Scope Z_scope.

(** ** The laws *)

(** The operations that leave the status of every build alone. *)
Inductive silent_op `{db : SchedulerDB} : forall {A}, stateful St (wrapped dberror) A -> Prop :=
| silent_Compute job inputs : silent_op (Compute_inputs job inputs)
| silent_Config job : silent_op (job_Config job)
| silent_Reload job : silent_op (job_Reload job)
| silent_AlgorithmInputs job : silent_op (job_AlgorithmInputs job)
| silent_RequestSchedule job : silent_op (job_RequestSchedule job)
| silent_Save job m r : silent_op (job_SaveNextInputMapping job m r)
| silent_GetFull job : silent_op (job_GetFullNextBuildInputs job)
| silent_SetHasNew job b : silent_op (job_SetHasNewInputs job b)
| silent_GetPending job : silent_op (job_GetPendingBuilds job)
| silent_ScheduleBuild job b : silent_op (job_ScheduleBuild job b)
| silent_ResourcesChecked b : silent_op (build_ResourcesChecked b)
| silent_Adopt b : silent_op (build_AdoptInputsAndPipes b)
| silent_AdoptRerun b : silent_op (build_AdoptRerunInputsAndPipes b).

(** The operations that do not touch when a job was last scheduled: all but
    [UpdateLastScheduled]. *)
Inductive unscheduled_op `{db : SchedulerDB} : forall {A}, stateful St (wrapped dberror) A -> Prop :=
| unscheduled_silent {A} (m : stateful St _ A) : silent_op m -> unscheduled_op m
| unscheduled_Ensure job : unscheduled_op (job_EnsurePendingBuildExists job)
| unscheduled_Start b plan : unscheduled_op (build_Start b plan)
| unscheduled_Finish b : unscheduled_op (build_Finish b BuildStatusAborted)
| unscheduled_Planning b m : unscheduled_op (build_FinishWorkflowPlanningError b m).

Class SchedulerDBLaws (db : SchedulerDB) := {
  build_status : St -> Z -> option BuildStatus;
  last_scheduled : St -> Z -> option Z;

  silent_status : forall A (m : stateful St _ A), silent_op m ->
    forall st id, build_status (m st).2 id = build_status st id;

  (** a build that is not the operation's own keeps its status *)
  Start_others : forall b plan st id, id <> b_id b ->
    build_status (build_Start b plan st).2 id = build_status st id;
  Finish_others : forall b s st id, id <> b_id b ->
    build_status (build_Finish b s st).2 id = build_status st id;
  Planning_others : forall b m st id, id <> b_id b ->
    build_status (build_FinishWorkflowPlanningError b m st).2 id = build_status st id;

  (** [Start] and [Finish] on their own build, when they return *)
  Start_started : forall b plan st st',
    build_Start b plan st = (Ret true, st') ->
    build_status st' (b_id b) = Some BuildStatusStarted;
  Start_kept : forall b plan st,
    build_status (build_Start b plan st).2 (b_id b) <> build_status st (b_id b) ->
    build_status (build_Start b plan st).2 (b_id b) = Some BuildStatusStarted;
  Finish_status : forall b s st st',
    build_Finish b s st = (Ret tt, st') -> build_status st' (b_id b) = Some s;
  Finish_failed : forall b s st,
    build_status (build_Finish b s st).2 (b_id b) <> build_status st (b_id b) ->
    build_status (build_Finish b s st).2 (b_id b) = Some s;
  Planning_status : forall b m st st',
    build_FinishWorkflowPlanningError b m st = (Ret tt, st') ->
    build_status st' (b_id b) = Some BuildStatusErrored;
  Planning_failed : forall b m st,
    build_status (build_FinishWorkflowPlanningError b m st).2 (b_id b) <> build_status st (b_id b) ->
    build_status (build_FinishWorkflowPlanningError b m st).2 (b_id b) = Some BuildStatusErrored;

  (** [GetPendingBuilds] returns builds that are pending, each once *)
  GetPending_pending : forall job st builds st',
    job_GetPendingBuilds job st = (Ret builds, st') ->
    NoDup (b_id <$> builds) /\
    forall b, b ∈ builds -> build_status st' (b_id b) = Some BuildStatusPending;

  unscheduled_last : forall A (m : stateful St _ A), unscheduled_op m ->
    forall st id, last_scheduled (m st).2 id = last_scheduled st id;
  UpdateLast_last : forall job t st id,
    last_scheduled (job_UpdateLastScheduled job t st).2 id = last_scheduled st id \/
    last_scheduled (job_UpdateLastScheduled job t st).2 id = Some t /\ id = j_id job;
  Reload_id : forall job st job' st',
    job_Reload job st = (Ret (Some job'), st') -> j_id job' = j_id job;
}.

#[export] Hint Constructors silent_op unscheduled_op : go.

(** ** Starting builds in order *)

Section InOrder.
Context `{laws : SchedulerDBLaws}.

(** [keeps b]: no build but [b] changes status, and [b] does not become
    pending. *)
Definition keeps (b : Z) (st st' : St) : Prop :=
  (forall id, id <> b -> build_status st' id = build_status st id) /\
  (build_status st b <> Some BuildStatusPending -> build_status st' b <> Some BuildStatusPending).

#[local] Instance keeps_preorder b : PreOrder (keeps b).
Proof.
  split; [by split|]. intros x y z [H1 H2] [H3 H4]. split; [|tauto].
  intros id Hid. by rewrite H3, H1.
Qed.

Lemma silent_keeps {A} (m : stateful St (wrapped dberror) A) b : silent_op m -> tracks (keeps b) m.
Proof. intros Hm st. split; intros; by rewrite (silent_status _ m Hm) in *. Qed.

Lemma tracks_try {A} R (m : stateful St (wrapped dberror) A) : tracks R m -> tracks R (try m).
Proof. intros Hm st. specialize (Hm st). unfold try. by destruct (m st) as [[] ?]. Qed.

Lemma Finish_keeps b s : s <> BuildStatusPending -> tracks (keeps (b_id b)) (build_Finish b s).
Proof.
  intros Hs st. split; [intros; by apply Finish_others|]. intros Hp.
  destruct (decide (build_status (build_Finish b s st).2 (b_id b) = build_status st (b_id b)))
    as [->|Hne]; [done|]. rewrite (Finish_failed _ _ _ Hne). congruence.
Qed.

Lemma Planning_keeps b m : tracks (keeps (b_id b)) (build_FinishWorkflowPlanningError b m).
Proof.
  intros st. split; [intros; by apply Planning_others|]. intros Hp.
  destruct (decide (build_status (build_FinishWorkflowPlanningError b m st).2 (b_id b) =
    build_status st (b_id b))) as [->|Hne]; [done|]. by rewrite (Planning_failed _ _ _ Hne).
Qed.

Lemma Start_keeps b plan : tracks (keeps (b_id b)) (build_Start b plan).
Proof.
  intros st. split; [intros; by apply Start_others|]. intros Hp.
  destruct (decide (build_status (build_Start b plan st).2 (b_id b) = build_status st (b_id b)))
    as [->|Hne]; [done|]. by rewrite (Start_kept _ _ _ Hne).
Qed.

Hint Resolve tracks_try silent_keeps Finish_keeps Planning_keeps Start_keeps : go.

Lemma IsReady_keeps b c : tracks (keeps c) (IsReadyToDetermineInputs b).
Proof. destruct b; cbn; auto with go typeclass_instances. Qed.

Lemma BuildInputs_keeps b c : tracks (keeps c) (BuildInputs b).
Proof.
  destruct b; cbn; [|auto with go..].
  apply tracks_bind; [apply _|auto with go|]. intros [[mapping resolved] []];
    repeat (apply tracks_bind; [apply _|auto with go typeclass_instances|intros]); auto with go.
Qed.

Lemma startFailed_keeps b e : tracks (keeps (b_id b)) (startFailed b e).
Proof.
  unfold startFailed. destruct (unwrap e); auto with go typeclass_instances;
    (apply tracks_bind; [apply _|auto with go|intros; auto with go typeclass_instances]).
Qed.

Lemma startWithInputs_keeps b job inputs : tracks (keeps (b_id b)) (startWithInputs b job inputs).
Proof.
  unfold startWithInputs. apply tracks_bind; [apply _|auto with go|]. intros config.
  destruct (planner_Create _ _ _ _) as [plan|e| |]; [| |by intros st|by intros st].
  - apply tracks_bind; [apply _|auto with go|]. intros [e|[]];
      [apply startFailed_keeps|auto with go typeclass_instances|].
    apply tracks_bind; [apply _|auto with go|auto with go typeclass_instances].
  - apply tracks_bind; [apply _|auto with go|auto with go typeclass_instances].
Qed.
Lemma tryStart_keeps b job : tracks (keeps (b_id (theBuild b))) (tryStartNextPendingBuild b job).
Proof.
  unfold tryStartNextPendingBuild. destruct (b_aborted _).
  { apply tracks_bind; [apply _|auto with go|auto with go typeclass_instances]. }
  apply tracks_bind; [apply _|auto with go|]. intros []; cbn; [|auto with go typeclass_instances].
  apply tracks_bind; [apply _|auto using IsReady_keeps with go|].
  intros []; cbn; [|auto with go typeclass_instances].
  apply tracks_bind; [apply _|auto using BuildInputs_keeps with go|].
  intros [inputs|]; [apply startWithInputs_keeps|auto with go typeclass_instances].
Qed.

(** A build for which [tryStartNextPendingBuild] reports [finished] is no
    longer pending. *)
Definition done_with (b : Build) (r : startResults) (st : St) : Prop :=
  r = results_finished /\ build_status st (b_id b) <> Some BuildStatusPending.

Lemma Finish_done b s c st r st' :
  (wrap c (build_Finish b s) ≫= fun _ => mret results_finished) st = (Ret r, st') ->
  s <> BuildStatusPending -> done_with b r st'.
Proof.
  intros H Hs. apply stateful_bind_Ret in H as ([] & st1 & H1 & [= <- <-]). apply wrap_Ret in H1.
  split; [done|]. rewrite (Finish_status _ _ _ _ H1). congruence.
Qed.

Lemma Planning_done b m c st r st' :
  (wrap c (build_FinishWorkflowPlanningError b m) ≫= fun _ => mret results_finished) st = (Ret r, st') ->
  done_with b r st'.
Proof.
  intros H. apply stateful_bind_Ret in H as ([] & st1 & H1 & [= <- <-]). apply wrap_Ret in H1.
  split; [done|]. by rewrite (Planning_status _ _ _ _ H1).
Qed.

Lemma startWithInputs_done b job inputs st r st' :
  startWithInputs b job inputs st = (Ret r, st') -> done_with b r st'.
Proof.
  unfold startWithInputs. intros H. apply stateful_bind_Ret in H as (config & st1 & _ & H).
  destruct (planner_Create _ _ _ _) as [plan|e| |]; [|by eapply Planning_done|done|done].
  apply stateful_bind_Ret in H as (started & st2 & Htry & H). unfold try in Htry.
  destruct (build_Start b plan st1) as [[[]|e| |] st3] eqn:Hst; simplify_eq.
  - injection H as <- <-. split; [done|]. by rewrite (Start_started _ _ _ _ Hst).
  - by eapply Finish_done.
  - unfold startFailed in H. destruct (unwrap e); try done;
      [by eapply Finish_done|by eapply Planning_done].
Qed.

Lemma tryStart_finished b job st r st' :
  tryStartNextPendingBuild b job st = (Ret r, st') ->
  if finished r then build_status st' (b_id (theBuild b)) <> Some BuildStatusPending
  else inputsDetermined r = false.
Proof.
  unfold tryStartNextPendingBuild. destruct (b_aborted _); intros H.
  { by apply Finish_done in H as [-> ?]. }
  apply stateful_bind_Ret in H as (sch & st1 & _ & H).
  destruct sch; cbn in H; [|by injection H as <- <-].
  apply stateful_bind_Ret in H as (ready & st2 & _ & H).
  destruct ready; cbn in H; [|by injection H as <- <-].
  apply stateful_bind_Ret in H as ([inputs|] & st3 & _ & H); [|by injection H as <- <-].
  by apply startWithInputs_done in H as [-> ?].
Qed.

(** The builds a run does not get to keep their status. *)
Lemma tryStartBuilds_others job builds st id :
  id ∉ (fun b => b_id (theBuild b)) <$> builds ->
  build_status (tryStartBuilds job builds st).2 id = build_status st id.
Proof.
  revert st. induction builds as [|b builds IH]; intros st Hid; [done|].
  apply not_elem_of_cons in Hid as [Hb Hid]. cbn. unfold mbind at 1, stateful_bind at 1.
  pose proof (tryStart_keeps b job st) as [Hk _].
  destruct (tryStartNextPendingBuild b job st) as [[r|e| |] st1]; cbn in *; try (by apply Hk).
  rewrite <- (Hk id) by done.
  repeat (case_match; cbn; auto).
Qed.

Lemma constructBuild_build job inputs b : theBuild (constructBuild job inputs b) = b.
Proof. unfold constructBuild. by repeat case_match. Qed.

Lemma tryStartBuilds_in_order job inputs builds st i k bi bk :
  NoDup (b_id <$> builds) ->
  (forall b, b ∈ builds -> build_status st (b_id b) = Some BuildStatusPending) ->
  builds !! i = Some bi -> builds !! k = Some bk -> (i < k)%nat ->
  let st' := (tryStartBuilds job (constructBuilds job inputs builds) st).2 in
  build_status st' (b_id bk) <> Some BuildStatusPending ->
  build_status st' (b_id bi) <> Some BuildStatusPending \/ b_rerunOf bi <> 0.
Proof.
  revert st i k. induction builds as [|b builds IH]; [done|]. intros st i k Hnd Hp Hi Hk Hlt.
  destruct k as [|k]; [lia|]. cbn in Hk. rewrite fmap_cons in Hnd.
  apply NoDup_cons in Hnd as [Hb Hnd]. cbn zeta.
  change (constructBuilds job inputs (b :: builds))
    with (constructBuild job inputs b :: constructBuilds job inputs builds).
  cbn [tryStartBuilds]. rewrite constructBuild_build.
  assert (Hbk : b_id bk <> b_id b).
  { intros E. apply Hb. rewrite <- E. apply list_elem_of_fmap_2. by eapply list_elem_of_lookup_2. }
  pose proof (tryStart_keeps (constructBuild job inputs b) job st) as [Hothers _].
  rewrite constructBuild_build in Hothers. unfold mbind at 1 2, stateful_bind at 1 2.
  destruct (tryStartNextPendingBuild (constructBuild job inputs b) job st) as [[r|e| |] st1] eqn:Hr;
    cbn [fst snd] in *; try (intros Hst'; exfalso; apply Hst';
      rewrite Hothers by done; apply Hp; right; by eapply list_elem_of_lookup_2).
  apply tryStart_finished in Hr. rewrite constructBuild_build in Hr.
  assert (Hp1 : forall b', b' ∈ builds -> build_status st1 (b_id b') = Some BuildStatusPending).
  { intros b' Hb'. rewrite Hothers; [apply Hp; by right|]. intros E. apply Hb. rewrite <- E.
    by apply list_elem_of_fmap_2. }
  assert (Hstay : build_status st1 (b_id bk) = Some BuildStatusPending)
    by (apply Hp1; by eapply list_elem_of_lookup_2).
  assert (Hb' : b_id b ∉ (fun b => b_id (theBuild b)) <$> constructBuilds job inputs builds).
  { unfold constructBuilds. rewrite <- list_fmap_compose. unfold compose.
    setoid_rewrite constructBuild_build. done. }
  destruct i as [|i]; cbn in Hi; simplify_eq.
  - pose proof (tryStartBuilds_others job (constructBuilds job inputs builds) st1 _ Hb') as Ho.
    intros Hst'. destruct (finished r); [left; by rewrite Ho|].
    destruct (negb (scheduled r) || negb (readyToDetermineInputs r)); cbn in Hst'; [done|].
    rewrite Hr in Hst'. cbn in Hst'. destruct (b_rerunOf bi =? 0) eqn:Hre; cbn in Hst'; [done|].
    right. by apply Z.eqb_neq.
  - assert (Hrec := IH st1 i k Hnd Hp1 Hi Hk ltac:(lia)). cbn zeta in Hrec. intros Hst'.
    repeat case_match; cbn in *; auto.
Qed.
End InOrder.

(** ** Relations between the states of a run

    A preorder that every operation of a run respects relates the states
    before and after the run.  [mine] are the builds the starter works on. *)

Section Runs.
Context `{db : SchedulerDB} (job : Job) (mine : Build -> Prop).

(** The operations of the build starter. *)
Inductive starter_op : forall {A}, stateful St (wrapped dberror) A -> Prop :=
| starter_Compute inputs : starter_op (Compute_inputs job inputs)
| starter_Config : starter_op (job_Config job)
| starter_RequestSchedule : starter_op (job_RequestSchedule job)
| starter_Save m r : starter_op (job_SaveNextInputMapping job m r)
| starter_ScheduleBuild b : mine b -> starter_op (job_ScheduleBuild job b)
| starter_ResourcesChecked b : mine b -> starter_op (build_ResourcesChecked b)
| starter_Adopt b : mine b -> starter_op (build_AdoptInputsAndPipes b)
| starter_AdoptRerun b : mine b -> starter_op (build_AdoptRerunInputsAndPipes b)
| starter_Start b plan : mine b -> starter_op (build_Start b plan)
| starter_Finish b : mine b -> starter_op (build_Finish b BuildStatusAborted)
| starter_Planning b m : mine b -> starter_op (build_FinishWorkflowPlanningError b m).

(** The operations before it. *)
Inductive prepare_op : forall {A}, stateful St (wrapped dberror) A -> Prop :=
| prepare_Inputs : prepare_op (job_AlgorithmInputs job)
| prepare_Compute inputs : prepare_op (Compute_inputs job inputs)
| prepare_RequestSchedule : prepare_op (job_RequestSchedule job)
| prepare_Save m r : prepare_op (job_SaveNextInputMapping job m r)
| prepare_GetFull : prepare_op (job_GetFullNextBuildInputs job)
| prepare_Ensure : prepare_op (job_EnsurePendingBuildExists job)
| prepare_SetHasNew b : prepare_op (job_SetHasNewInputs job b)
| prepare_GetPending : prepare_op (job_GetPendingBuilds job).

Context (R : St -> St -> Prop) `{!PreOrder R}.

Section Starter.
Context (ops : forall A (m : stateful St _ A), starter_op m -> tracks R m).

Hint Resolve ops tracks_try : go.
Hint Constructors starter_op : go.

(** [track] goes through a sequence of calls. *)
Ltac track :=
  repeat first
    [ apply tracks_bind; [apply _|solve [eauto with go typeclass_instances]|intros ?]
    | solve [eauto with go typeclass_instances] ].

Lemma startWithInputs_tracks b inputs : mine b -> tracks R (startWithInputs b job inputs).
Proof.
  intros Hb. unfold startWithInputs. track. case_match; [|track|by intros ?..].
  track. case_match; [unfold startFailed; case_match; track|case_match; track].
Qed.

Lemma IsReady_tracks inputs b : mine b ->
  tracks R (IsReadyToDetermineInputs (constructBuild job inputs b)).
Proof. intros Hb. unfold constructBuild. repeat case_match; cbn; track. Qed.

Lemma BuildInputs_tracks inputs b : mine b -> tracks R (BuildInputs (constructBuild job inputs b)).
Proof.
  intros Hb. unfold constructBuild. destruct (b_isManuallyTriggered b); [|case_match; cbn; track].
  cbn. apply tracks_bind; [apply _|track|]. intros [[mapping resolved] []]; track.
Qed.

Lemma tryStart_tracks inputs b : mine b ->
  tracks R (tryStartNextPendingBuild (constructBuild job inputs b) job).
Proof.
  intros Hb. unfold tryStartNextPendingBuild. rewrite constructBuild_build. case_match; [track|].
  apply tracks_bind; [apply _|track|intros []; cbn; [|track]].
  apply tracks_bind; [apply _|auto using IsReady_tracks with go|intros []; cbn; [|track]].
  apply tracks_bind; [apply _|auto using BuildInputs_tracks with go|].
  intros [buildInputs|]; [by apply startWithInputs_tracks|track].
Qed.

Lemma tryStartBuilds_tracks inputs builds : Forall mine builds ->
  tracks R (tryStartBuilds job (constructBuilds job inputs builds)).
Proof.
  unfold constructBuilds. induction 1 as [|b builds Hb _ IH]; [cbn; track|]. rewrite fmap_cons. cbn -[fmap].
  apply tracks_bind; [apply _|by apply tryStart_tracks|]. intros r. repeat case_match; track.
Qed.
End Starter.

Section Prepare.
Context (ops : forall A (m : stateful St _ A), prepare_op m -> tracks R m).

Hint Resolve ops : go.
Hint Constructors prepare_op : go.

Lemma scanInputs_tracks mapping acc inputs : tracks R (scanInputs job mapping acc inputs).
Proof.
  revert acc. induction inputs as [|i inputs IH]; intros acc; cbn; [auto with go typeclass_instances|].
  repeat case_match; auto. apply tracks_bind; auto with go typeclass_instances.
Qed.

Lemma ensurePending_tracks inputs : tracks R (ensurePendingBuildExists job inputs).
Proof.
  unfold ensurePendingBuildExists. apply tracks_bind; [apply _|auto with go|].
  intros [l|]; [|auto with go typeclass_instances].
  apply tracks_bind; [apply _|apply scanInputs_tracks|].
  intros has. case_match; auto with go typeclass_instances.
Qed.

(** The part of [Schedule] before the builds are started. *)
Definition prepare : stateful St (wrapped dberror) (InputConfigs * list Build) :=
  jobInputs ← wrap "inputs" (job_AlgorithmInputs job);
  '(inputMapping, resolved, runAgain) ← wrap "compute inputs" (Compute_inputs job jobInputs);
  _ ← (if runAgain : bool then wrap "request schedule" (job_RequestSchedule job) else mret ());
  _ ← wrap "save next input mapping" (job_SaveNextInputMapping job inputMapping resolved);
  _ ← ensurePendingBuildExists job jobInputs;
  builds ← wrap "get pending builds" (job_GetPendingBuilds job);
  mret (jobInputs, builds).

Lemma prepare_tracks : tracks R prepare.
Proof.
  unfold prepare. apply tracks_bind; [apply _|auto with go|intros inputs].
  apply tracks_bind; [apply _|auto with go|]. intros [[mapping resolved] runAgain].
  apply tracks_bind; [apply _|destruct runAgain; auto with go typeclass_instances|intros _].
  apply tracks_bind; [apply _|auto with go|intros _].
  apply tracks_bind; [apply _|apply ensurePending_tracks|intros _].
  apply tracks_bind; [apply _|auto with go|auto with go typeclass_instances].
Qed.
End Prepare.

Lemma Schedule_prepare st :
  Schedule job st =
    ('(jobInputs, builds) ← prepare;
     tryStartBuilds job (constructBuilds job jobInputs builds)) st.
Proof.
  unfold Schedule, prepare, TryStartPendingBuildsForJob, mbind, stateful_bind, mret, stateful_ret.
  repeat case_match; simplify_eq; done.
Qed.
End Runs.

(** ** Acknowledging requests *)

Section Acknowledge.
Context `{laws : SchedulerDBLaws}.

(** [same_last]: no job's time of last scheduling changes. *)
Definition same_last (st st' : St) : Prop :=
  forall id, last_scheduled st' id = last_scheduled st id.

#[local] Instance same_last_preorder : PreOrder same_last.
Proof. split; [done|]. intros x y z H1 H2 id. by rewrite H2. Qed.

Lemma Schedule_same job : tracks same_last (Schedule job).
Proof.
  intros st. rewrite Schedule_prepare. apply tracks_bind; [apply _| |].
  - apply prepare_tracks; [apply _|]. intros A m Hm st0 id. apply unscheduled_last. destruct Hm; auto with go.
  - intros [inputs builds]. apply (tryStartBuilds_tracks job (fun _ => True)); [apply _| |by apply Forall_true].
    intros A m Hm st0 id. apply unscheduled_last. destruct Hm; auto with go.
Qed.
End Acknowledge.

(** ** Asking for a pending build *)

Section Ensure.
Context `{db : SchedulerDB}.

(** The input has a version no build of the job has used. *)
Definition is_new (mapping : gmap string BuildInput) (i : InputConfig) : bool :=
  match mapping !! Name i with
  | Some source => bi_FirstOccurrence source
  | None => false
  end.

Lemma scanInputs_spec job mapping acc inputs st :
  scanInputs job mapping acc inputs st =
    if existsb (fun i => is_new mapping i && Trigger i) inputs
    then (wrap "ensure pending build exists" (job_EnsurePendingBuildExists job) ≫= fun _ => mret true) st
    else (Ret (acc || existsb (is_new mapping) inputs), st).
Proof.
  revert acc. induction inputs as [|i inputs IH]; intros acc; cbn; [by rewrite orb_false_r|].
  unfold is_new at 1 3. destruct (mapping !! Name i) as [source|]; [|by rewrite IH].
  destruct (bi_FirstOccurrence source); [|by rewrite IH].
  destruct (Trigger i); [done|]. rewrite IH. cbn. by rewrite !orb_true_r.
Qed.
End Ensure.

(** ** Claims *)

(** C5: Pending builds start in order.  After a run of the build starter,
    whatever it returns and whichever calls failed, a build that was pending
    before the run and is not any more had every build before it in the
    order of [GetPendingBuilds] dealt with first: the earlier build is not
    pending any more either, or it is a rerun (which may be skipped when its
    inputs cannot be determined). *)
Theorem TryStart_in_order `{laws : SchedulerDBLaws} job jobInputs st builds st1 i k bi bk :
  job_GetPendingBuilds job st = (Ret builds, st1) ->
  builds !! i = Some bi -> builds !! k = Some bk -> (i < k)%nat ->
  let st' := (TryStartPendingBuildsForJob job jobInputs st).2 in
  build_status st' (b_id bk) <> Some BuildStatusPending ->
  build_status st' (b_id bi) <> Some BuildStatusPending \/ b_rerunOf bi <> 0.
Proof.
  intros Hget Hi Hk Hlt. destruct (GetPending_pending _ _ _ _ Hget) as [Hnd Hp].
  unfold TryStartPendingBuildsForJob, mbind, stateful_bind, wrap. rewrite Hget.
  by eapply tryStartBuilds_in_order.
Qed.

(** C25: A request to schedule a job is acknowledged only by a complete run:
    [scheduleJob] moves the time the job was last scheduled only when
    [Schedule] returned without asking for a retry, and then to the time of
    the request read before the job was reloaded, not to that of a request made
    during the run; no other job's time moves. *)
Theorem scheduleJob_acknowledges `{laws : SchedulerDBLaws} job st id :
  let st' := (scheduleJob job st).2 in
  last_scheduled st' id <> last_scheduled st id ->
  id = j_id job /\ last_scheduled st' id = Some (j_scheduleRequestedTime job) /\
  exists job' st1 st2, job_Reload job st = (Ret (Some job'), st1) /\
    Schedule job' st1 = (Ret false, st2).
Proof.
  unfold scheduleJob, mbind, stateful_bind, wrap.
  pose proof (unscheduled_last _ _ (unscheduled_silent _ (silent_Reload job)) st id) as Hr.
  destruct (job_Reload job st) as [[[job'|]|e| |] st1] eqn:Hre; cbn in *; try done.
  pose proof (Schedule_same job' st1 id) as Hs.
  destruct (Schedule job' st1) as [[[]|e| |] st2] eqn:Hsch; cbn in *; try congruence.
  destruct (UpdateLast_last job' (j_scheduleRequestedTime job) st2 id) as [Hu|[Hu ->]];
    destruct (job_UpdateLastScheduled _ _ st2) as [[] st3]; cbn in *; try congruence;
    intros Hne; rewrite (Reload_id _ _ _ _ Hre) in *; eauto 8.
Qed.
