(* ===== verification/SchedulerTables.v ===== *)
(** * The scheduler on the tables

    The interface of the scheduler implemented by the operations of
    [JobTables], each a transaction at a later time than the one before, with
    the input algorithm of [Algorithm] running on a versions database that
    may depend on the tables.  The laws of the scheduler hold. *)
From S2P Require Import Prelude VersionsDB BuildTables BuildTablesSpec GroupResolver Algorithm Tables JobTables JobTablesSpec.
From S2P Require Import Scheduler SchedulerSpec.
From stdpp Require Import base gmap sets list strings sorting pretty.
From Stdlib Require Import ZArith Lia.
Open Scope Z_scope.

(** The tables and the clock of the database. *)
Record Clocked := { ck_now : Z; ck_tables : Tables }.

Definition plain_error {A} (r : outcome dberror A) : outcome (wrapped dberror) A :=
  match r with
  | Ret a => Ret a
  | Fail e => Fail (Plain e)
  | Panic => Panic
  | NoFuel => NoFuel
  end.

(** One operation, as a transaction that begins now. *)
Definition run_at {A} (m : Z -> Tables -> outcome dberror A * Tables)
    : stateful Clocked (wrapped dberror) A :=
  fun c =>
    (plain_error (m (ck_now c) (ck_tables c)).1,
     {| ck_now := ck_now c + 1; ck_tables := (m (ck_now c) (ck_tables c)).2 |}).

(** The errors of the versions database. *)
Definition query_error {A} (r : outcome string A) : outcome dberror A :=
  match r with
  | Ret a => Ret a
  | Fail e => Fail (OtherError e)
  | Panic => Panic
  | NoFuel => NoFuel
  end.

Section Instance.
Context `{WorkflowRuns}.
(** the versions database over the tables, and how Go ranges over a set *)
Context (vdb : Tables -> VersionsDB) (range : gset Z -> list Z) (bfuel : nat).
(** the planner *)
Context {P C : Type} (config_of : Job -> outcome dberror C)
  (plan_create : Job -> C -> list BuildInput -> bool -> outcome (wrapped dberror) P).

Definition tables_scheduler : SchedulerDB := {|
  St := Clocked; JobConfig := C; Plan := P;
  Compute_inputs := fun job inputs =>
    run_at (fun _ st => (query_error (Algorithm_Compute (db := vdb st) range bfuel inputs), st));
  planner_Create := plan_create;
  job_Config := fun job => run_at (fun _ st => (config_of job, st));
  job_Reload := fun job => run_at (fun _ => Reload job);
  job_AlgorithmInputs := fun job => run_at (fun _ => AlgorithmInputs job);
  job_RequestSchedule := fun job => run_at (fun now => RequestSchedule now job);
  job_UpdateLastScheduled := fun job t => run_at (fun _ => UpdateLastScheduled job t);
  job_SaveNextInputMapping := fun job m d => run_at (fun _ => SaveNextInputMapping job m d);
  job_GetFullNextBuildInputs := fun job => run_at (fun _ => GetFullNextBuildInputs job);
  job_EnsurePendingBuildExists := fun job => run_at (fun now => EnsurePendingBuildExists now job);
  job_SetHasNewInputs := fun job b => run_at (fun _ => SetHasNewInputs job b);
  job_GetPendingBuilds := fun job => run_at (fun _ => GetPendingBuilds job);
  job_ScheduleBuild := fun job b => run_at (fun _ => ScheduleBuild job b);
  build_ResourcesChecked := fun b => run_at (fun _ => ResourcesChecked b);
  build_AdoptInputsAndPipes := fun b => run_at (fun _ => AdoptInputsAndPipes b);
  build_AdoptRerunInputsAndPipes := fun b => run_at (fun now => AdoptRerunInputsAndPipes now b);
  build_Start := fun b plan => run_at (fun _ => Start b);
  build_Finish := fun b s => run_at (fun now => Finish now b s);
  build_FinishWorkflowPlanningError := fun b m =>
    run_at (fun now => FinishWorkflowPlanningError now b m);
|}.

(** ** Statuses *)

Definition status_of (st : Tables) (id : Z) : option BuildStatus := br_status <$> tb_builds st !! id.

(** The status and the job of every build are the same. *)
Definition build_core (r : BuildsRow) : BuildStatus * option Z := (br_status r, br_job_id r).

Definition same_status (st st' : Tables) : Prop :=
  build_core <$> tb_builds st' = build_core <$> tb_builds st.

Definition same_job (st st' : Tables) : Prop :=
  br_job_id <$> tb_builds st' = br_job_id <$> tb_builds st.

#[local] Instance same_status_preorder : PreOrder same_status.
Proof. split; [done|]. intros x y z H1 H2. unfold same_status in *. congruence. Qed.

Lemma same_status_of st st' id : same_status st st' -> status_of st' id = status_of st id.
Proof.
  unfold same_status, status_of. intros E. apply (f_equal (fmap fst)) in E.
  rewrite <- !map_fmap_compose in E. apply (f_equal (lookup id)) in E. by rewrite !lookup_fmap in E.
Qed.

Lemma same_status_job st st' : same_status st st' -> same_job st st'.
Proof.
  unfold same_status, same_job. intros E. apply (f_equal (fmap snd)) in E.
  by rewrite <- !map_fmap_compose in E.
Qed.

Lemma requestSchedule_builds now j st st' :
  requestSchedule now j st = Ret st' -> tb_builds st' = tb_builds st.
Proof. unfold requestSchedule. intros E. by go_inv. Qed.

Lemma RequestSchedule_status now j st : same_status st (RequestSchedule now j st).2.
Proof.
  apply (transaction_rel same_status). intros a st' E. go_inv.
  unfold same_status. by erewrite requestSchedule_builds.
Qed.

Lemma Save_status j m d st : same_status st (SaveNextInputMapping j m d st).2.
Proof. apply (transaction_rel same_status). intros a st' E. cbv zeta in E. by go_inv. Qed.

Lemma GetFull_status j st : same_status st (GetFullNextBuildInputs j st).2.
Proof. apply (transaction_rel same_status). intros a st' E. cbv zeta in E. by go_cases. Qed.

Lemma SetHasNew_status j b st : same_status st (SetHasNewInputs j b st).2.
Proof. unfold SetHasNewInputs. by case_match. Qed.

Lemma ScheduleBuild_status j b st : same_status st (ScheduleBuild j b st).2.
Proof.
  unfold ScheduleBuild, ScheduleBuild_at. destruct (b_scheduled b); [done|].
  destruct (isPipelineOrJobPaused j st) as [[]|e| |]; try done.
  apply (transaction_rel same_status). intros a st' E. cbv zeta in E. go_cases; [done|].
  by apply fmap_alter_same.
Qed.

Lemma MarkAsAborted_status now b st : same_status st (MarkAsAborted now b st).2.
Proof.
  unfold MarkAsAborted. match goal with |- context [transaction ?body st] =>
    assert (Hq : same_status st (transaction body st).2) end.
  { apply (transaction_rel same_status). intros a st' E. cbv zeta in E. go_cases.
    - unfold same_status. erewrite requestSchedule_builds by done. by apply fmap_alter_same.
    - by apply fmap_alter_same. }
  by destruct (transaction _ st) as [[] st1].
Qed.

Lemma adopt_status b rows pipes st inputs st' :
  adopt b rows pipes st = inr (inputs, st') -> same_status st st'.
Proof. unfold adopt. intros E. case_match; simplify_eq. by apply fmap_alter_same. Qed.

Lemma AdoptInputs_status b st : same_status st (AdoptInputsAndPipes b st).2.
Proof.
  unfold AdoptInputsAndPipes. repeat case_match; simplify_eq; cbn; try done. by eapply adopt_status.
Qed.

Lemma AdoptRerun_status now b st : same_status st (AdoptRerunInputsAndPipes now b st).2.
Proof.
  unfold AdoptRerunInputsAndPipes. destruct (query_row _) as [r|e| |]; try done.
  case_match; [done|]. cbv zeta. destruct (adopt _ _ _ _) as [name|[inputs st1]] eqn:Ha.
  - pose proof (MarkAsAborted_status now b (mark_unavailable (b_jobID b) name st)) as Hm.
    by destruct (MarkAsAborted now b _) as [[] st1].
  - by eapply adopt_status.
Qed.

Lemma archivePipelines_builds st ps : tb_builds (archivePipelines st ps) = tb_builds st.
Proof. revert st. induction ps as [|p ps IH]; intros st; [done|]. cbn. by rewrite IH. Qed.

Lemma downstream_builds now j st : tb_builds (requestScheduleOnDownstreamJobs now j st) = tb_builds st.
Proof.
  unfold requestScheduleOnDownstreamJobs.
  assert (Hf : forall l st, tb_builds (foldl (fun tx jID =>
    update_job jID (set_jr_schedule_requested (fun _ => now)) tx) st l) = tb_builds st).
  { induction l as [|x l IH]; intros st0; cbn; [done|]. by rewrite IH. }
  case_match; cbn; apply Hf.
Qed.

Lemma finish_job_builds now b s st : tb_builds (finish_job now b s st) = tb_builds st.
Proof.
  unfold finish_job, updateNextBuildForJob, updateLatestCompletedBuildForJob. cbn.
  unfold updateTransitionBuildForJob. repeat case_match; cbn; apply downstream_builds.
Qed.

Lemma notify_all_builds cs st : tb_builds (notify_all cs st) = tb_builds st.
Proof. unfold notify_all. revert st. induction cs as [|c cs IH]; intros st; [done|]. cbn. by rewrite IH. Qed.

(** [finish] changes its own build's row, or nothing. *)
Lemma finish_builds now b s pe st :
  match finish now b s pe st with
  | (Ret _, st') => tb_builds st' = alter (finish_row s) (b_id b) (tb_builds st) /\
                    is_Some (tb_builds st !! b_id b)
  | (_, st') => tb_builds st' = tb_builds st
  end.
Proof.
  unfold finish, transaction. destruct (tb_builds st !! b_id b) as [r|] eqn:Hr; cbn [query_row mbind outcome_bind]; [|done].
  destruct (match pe with Some message => _ | None => _ end); cbn -[notify_all]; try done.
  rewrite notify_all_builds. split; [|done].
  destruct (negb (b_jobID b =? 0)); cbn -[finish_job]; [|done]. rewrite finish_job_builds.
  case_match; [|done]. unfold finish_succeeded. by rewrite archivePipelines_builds.
Qed.

Lemma finish_row_status s r : br_status (finish_row s r) = s.
Proof. unfold finish_row. by case_match. Qed.

Lemma finish_others now b s pe st id : id <> b_id b ->
  status_of (finish now b s pe st).2 id = status_of st id.
Proof.
  intros Hid. unfold status_of. pose proof (finish_builds now b s pe st) as Hf.
  destruct (finish now b s pe st) as [[] st']; cbn; try (by rewrite Hf).
  destruct Hf as [-> _]. by rewrite lookup_alter_ne.
Qed.

Lemma finish_status now b s pe st st' :
  finish now b s pe st = (Ret tt, st') -> status_of st' (b_id b) = Some s.
Proof.
  intros E. pose proof (finish_builds now b s pe st) as Hf. rewrite E in Hf.
  destruct Hf as [Hb [r Hr]]. unfold status_of. rewrite Hb, lookup_alter_eq, Hr. cbn.
  by rewrite finish_row_status.
Qed.

Lemma finish_changed now b s pe st :
  status_of (finish now b s pe st).2 (b_id b) <> status_of st (b_id b) ->
  status_of (finish now b s pe st).2 (b_id b) = Some s.
Proof.
  pose proof (finish_builds now b s pe st) as Hf. pose proof (finish_status now b s pe st) as Hs.
  destruct (finish now b s pe st) as [[[]|e| |] st']; cbn; [by intros; apply Hs|..];
    unfold status_of; by rewrite Hf.
Qed.

(** [Start] changes its own build's status, to started, or nothing. *)
Lemma Start_builds b st :
  match Start b st with
  | (Ret true, st') => exists r, tb_builds st !! b_id b = Some r /\ br_aborted r = false /\
      br_status r = BuildStatusPending /\
      tb_builds st' = alter (fun r => set_br_has_plan (fun _ => true)
        (set_br_status (fun _ => BuildStatusStarted) r)) (b_id b) (tb_builds st)
  | (_, st') => tb_builds st' = tb_builds st
  end.
Proof.
  unfold Start, transaction, start. destruct (tb_builds st !! b_id b) as [r|] eqn:Hr; [|done].
  destruct (bool_decide (br_status r = BuildStatusPending) && negb (br_aborted r)) eqn:Hc; [|done].
  go_bool. destruct (captureWorkflowPlan (b_id b)); cbn -[notify_all]; try done.
  rewrite notify_all_builds. by exists r.
Qed.

Lemma Start_status b st :
  (forall id, id <> b_id b -> status_of (Start b st).2 id = status_of st id) /\
  (status_of (Start b st).2 (b_id b) <> status_of st (b_id b) ->
   status_of (Start b st).2 (b_id b) = Some BuildStatusStarted) /\
  (forall st', Start b st = (Ret true, st') -> status_of st' (b_id b) = Some BuildStatusStarted).
Proof.
  pose proof (Start_builds b st) as Hs. unfold status_of.
  destruct (Start b st) as [[[]|e| |] st']; cbn;
    try (rewrite Hs; split_and!; [done|done|intros st'' [=]]).
  destruct Hs as (r & Hr & _ & _ & Hb). split_and!.
  - intros id Hid. by rewrite Hb, lookup_alter_ne.
  - by rewrite Hb, lookup_alter_eq, Hr.
  - intros st'' [= <-]. by rewrite Hb, lookup_alter_eq, Hr.
Qed.

(** ** The time a job was last scheduled *)

Definition last_of (st : Tables) (id : Z) : option Z := jr_last_scheduled <$> tb_jobs st !! id.

Lemma quiet_last st st' id : quiet st st' -> last_of st' id = last_of st id.
Proof.
  intros [J _ _]. unfold last_of. apply (f_equal (fmap snd)) in J.
  rewrite <- !map_fmap_compose in J. apply (f_equal (lookup id)) in J.
  by rewrite !lookup_fmap in J.
Qed.

Lemma ScheduleBuild_last j b st id : last_of (ScheduleBuild j b st).2 id = last_of st id.
Proof.
  destruct (ScheduleBuild_cases j b st) as [Hq|[_ ->]]; [by apply quiet_last|].
  apply (quiet_last st (update_job (j_id j) (set_jr_max_in_flight_reached (fun _ => false)) st)).
  by apply quiet_update_job.
Qed.

Lemma GetPending_spec j st :
  let builds := (fun '(id, r) => scanBuild id r) <$> order_builds (map_to_list (filter
    (fun b : Z * BuildsRow => br_job_id b.2 = Some (j_id j) /\ br_status b.2 = BuildStatusPending)
    (tb_builds st))) in
  NoDup (b_id <$> builds) /\
  forall b, b ∈ builds -> exists r, tb_builds st !! b_id b = Some r /\ b = scanBuild (b_id b) r /\
    br_status r = BuildStatusPending /\ br_job_id r = Some (j_id j).
Proof.
  unfold order_builds. cbn zeta. split.
  - rewrite <- list_fmap_compose.
    rewrite (list_fmap_ext _ fst) by (by intros ? []). rewrite merge_sort_Permutation.
    apply NoDup_fst_map_to_list.
  - intros b. rewrite list_elem_of_fmap. intros ([id r] & -> & Hin).
    rewrite merge_sort_Permutation in Hin. apply elem_of_map_to_list in Hin.
    apply map_lookup_filter_Some in Hin as [Hr [Hj Hs]]. by exists r.
Qed.

(** ** The laws *)

#[refine] Instance tables_scheduler_laws : SchedulerDBLaws tables_scheduler := {|
  build_status := fun st id => status_of (ck_tables (st : @St tables_scheduler)) id;
  last_scheduled := fun st id => last_of (ck_tables (st : @St tables_scheduler)) id;
|}.
Proof.
  - intros A m Hm st id. destruct Hm; cbn -[ScheduleBuild AdoptInputsAndPipes AdoptRerunInputsAndPipes];
      try done; apply same_status_of;
      auto using RequestSchedule_status, Save_status, GetFull_status, SetHasNew_status,
        ScheduleBuild_status, AdoptInputs_status, AdoptRerun_status.
  - intros b plan st. exact (proj1 (Start_status b (ck_tables st))).
  - intros b s0 st. exact (finish_others (ck_now st) b s0 None (ck_tables st)).
  - intros b m st. exact (finish_others (ck_now st) b BuildStatusErrored (Some m) (ck_tables st)).
  - intros b plan st st' E. cbn in E. unfold run_at in E. injection E as E <-. cbn.
    destruct (Start_status b (ck_tables st)) as (_ & _ & Hs).
    destruct (Start b (ck_tables st)) as [[[]|e| |] t] eqn:Et; try done. by apply Hs.
  - intros b plan st. exact (proj1 (proj2 (Start_status b (ck_tables st)))).
  - intros b s0 st st' E. cbn in E. unfold run_at in E. injection E as E <-. cbn -[Finish].
    unfold Finish in *. apply (finish_status (ck_now st) b s0 None (ck_tables st)).
    by destruct (finish _ b s0 None (ck_tables st)) as [[[]|e| |] t].
  - intros b s0 st. exact (finish_changed (ck_now st) b s0 None (ck_tables st)).
  - intros b m st st' E. cbn in E. unfold run_at in E. injection E as E <-. cbn -[finish].
    unfold FinishWorkflowPlanningError in *.
    apply (finish_status (ck_now st) b BuildStatusErrored (Some m) (ck_tables st)).
    by destruct (finish _ b _ (Some m) (ck_tables st)) as [[[]|e| |] t].
  - intros b m st. exact (finish_changed (ck_now st) b BuildStatusErrored (Some m) (ck_tables st)).
  - intros j st builds st' E. cbn in E. unfold run_at in E. injection E as <- <-. cbn.
    destruct (GetPending_spec j (ck_tables st)) as [Hnd Hp]. split; [exact Hnd|].
    intros b Hb. destruct (Hp b Hb) as (r & Hr & _ & Hs & _). unfold status_of. rewrite Hr. cbn. by f_equal.
  - intros A m Hm st id. destruct Hm as [A m []| | | |]; cbn -[ScheduleBuild];
      try done; try apply ScheduleBuild_last; apply quiet_last;
      auto using RequestSchedule_quiet, SaveNextInputMapping_quiet, GetFull_quiet,
        SetHasNewInputs_quiet, AdoptInputs_quiet, AdoptRerun_quiet, EnsurePending_quiet,
        Start_quiet; by apply finish_quiet.
  - intros j t st id. cbn. unfold last_of. destruct (decide (id = j_id j)) as [->|Hne].
    + cbn. rewrite lookup_alter_eq. destruct (tb_jobs _ !! _); cbn; auto.
    + left. cbn. by rewrite lookup_alter_ne.
  - intros j st job' st' E. cbn in E. unfold run_at, Reload in E. cbn in E. injection E as E <-.
    destruct (tb_jobs _ !! _); cbn in E; [|done]. by injection E as <-.
Defined.

(** ** A run is a sequence of steps *)

Lemma finish_same_job now b s0 pe st : same_job st (finish now b s0 pe st).2.
Proof.
  pose proof (finish_builds now b s0 pe st) as Hf. unfold same_job.
  destruct (finish now b s0 pe st) as [[] st']; cbn; try (by rewrite Hf).
  destruct Hf as [-> _]. apply fmap_alter_same. intros r. unfold finish_row. by case_match.
Qed.

Lemma Start_same_job b st : same_job st (Start b st).2.
Proof.
  pose proof (Start_builds b st) as Hf. unfold same_job.
  destruct (Start b st) as [[[]|e| |] st']; cbn; try (by rewrite Hf).
  destruct Hf as (r & _ & _ & _ & ->). by apply fmap_alter_same.
Qed.

End Instance.

(** ** Claims *)

Section Ensure.
Context `{WorkflowRuns} (vdb : Tables -> VersionsDB) (range : gset Z -> list Z) (bfuel : nat).
Context {P C : Type} (config_of : Job -> outcome dberror C)
  (plan_create : Job -> C -> list BuildInput -> bool -> outcome (wrapped dberror) P).

Lemma has_pending_spec st id :
  has_pending st id = true <->
  exists b r, tb_builds st !! b = Some r /\ br_job_id r = Some id /\ br_status r = BuildStatusPending.
Proof.
  unfold has_pending. rewrite existsb_exists. split.
  - intros ([b r] & Hin & Hb). go_bool. cbn in *. exists b, r. split_and!; [|done..].
    by apply elem_of_map_to_list, list_elem_of_In.
  - intros (b & r & Hr & Hj & Hs). exists (b, r). split.
    + by apply list_elem_of_In, elem_of_map_to_list.
    + cbn. by rewrite !bool_decide_eq_true_2.
Qed.

(** [EnsurePendingBuildExists] creates a pending build when there is none, and
    does nothing when there is one. *)
Lemma EnsurePending_cases now j st st' :
  EnsurePendingBuildExists now j st = (Ret (), st') ->
  has_pending st' (j_id j) = true /\
  (jr_has_new_inputs <$> tb_jobs st' = jr_has_new_inputs <$> tb_jobs st) /\
  (has_pending st (j_id j) = true -> st' = st).
Proof.
  unfold EnsurePendingBuildExists, transaction, getNewBuildName.
  destruct (find_job_row _ _ _) as [[id r]|]; cbn; [|done].
  change (has_pending (update_job id (set_jr_build_number_seq (Z.add 1)) st) (j_id j))
    with (has_pending st (j_id j)).
  destruct (has_pending st (j_id j)) eqn:Hp; [by intros [= <-]|].
  unfold insert_build. destruct (name_taken _ _ _); cbn; [done|]. intros [= <-]. split_and!; [| |done].
  - apply has_pending_spec. cbn. exists (tb_builds_id_seq st). eexists.
    rewrite lookup_insert_eq. done.
  - cbn. rewrite !(fmap_alter_same jr_has_new_inputs) by done. done.
Qed.
End Ensure.

(** C26: [ensurePendingBuildExists] keeps its promise.  When it returns normally
    for a job whose inputs are determined: if an input that triggers has a
    version no build used, the job has a pending build; otherwise no build is
    created; and the job's [has_new_inputs] says whether any input has such a
    version. *)
Theorem ensurePending_spec `{WorkflowRuns} vdb range bfuel {P C} config_of plan_create
    job jobInputs c c' r :
  let db := tables_scheduler vdb range bfuel (P := P) (C := C) config_of plan_create in
  ensurePendingBuildExists (db := db) job jobInputs c = (Ret (), c') ->
  tb_jobs (ck_tables c) !! j_id job = Some r ->
  jr_inputs_determined r = true -> j_hasNewInputs job = jr_has_new_inputs r ->
  let mapping := next_inputs (getNextBuildInputs (j_id job) (ck_tables c)) in
  (if existsb (fun i => is_new mapping i && Trigger i) jobInputs
   then has_pending (ck_tables c') (j_id job) = true
   else tb_builds (ck_tables c') = tb_builds (ck_tables c)) /\
  (jr_has_new_inputs <$> tb_jobs (ck_tables c') !! j_id job) = Some (existsb (is_new mapping) jobInputs).
Proof.
  intros db E Hr Hdet Hnew mapping. unfold ensurePendingBuildExists in E.
  apply stateful_bind_Ret in E as (inputs & c1 & Hget & E). apply wrap_Ret in Hget.
  cbn in Hget. unfold run_at, GetFullNextBuildInputs, transaction in Hget.
  rewrite Hr in Hget. cbn in Hget. rewrite Hdet in Hget. cbn in Hget. injection Hget as <- <-.
  fold mapping in E. apply stateful_bind_Ret in E as (has & c2 & Hscan & E).
  rewrite scanInputs_spec in Hscan. set (triggers := existsb (fun i => is_new mapping i && Trigger i) jobInputs) in *.
  assert (Hhas : has = existsb (is_new mapping) jobInputs /\
    (if triggers then has_pending (ck_tables c2) (j_id job) = true
     else tb_builds (ck_tables c2) = tb_builds (ck_tables c)) /\
    (jr_has_new_inputs <$> tb_jobs (ck_tables c2) !! j_id job) = Some (jr_has_new_inputs r)).
  { destruct triggers eqn:Ht.
    - apply stateful_bind_Ret in Hscan as ([] & c3 & Hens & [= <- <-]). apply wrap_Ret in Hens.
      cbn -[EnsurePendingBuildExists] in Hens. unfold run_at in Hens. cbn -[EnsurePendingBuildExists] in Hens.
      destruct (EnsurePendingBuildExists _ job _) as [[[]|e| |] st'] eqn:Eens;
        try discriminate Hens. injection Hens as <-.
      destruct (EnsurePending_cases _ _ _ _ Eens) as (Hp & Hj & _). cbn.
      split_and!; [|exact Hp|by rewrite <- lookup_fmap, Hj, lookup_fmap, Hr].
      symmetry. apply existsb_exists in Ht as (i & Hi & Hn). apply existsb_exists. exists i. go_bool. done.
    - injection Hscan as <- <-. cbn. by rewrite Hr. }
  destruct Hhas as (-> & Hb & Hj). rewrite Hnew in E.
  destruct (Bool.eqb _ _) eqn:Heq; cbn [negb] in E.
  - injection E as <-. split; [exact Hb|]. rewrite Hj. f_equal. symmetry. by apply eqb_prop.
  - apply wrap_Ret in E. cbn in E. unfold run_at, SetHasNewInputs, one_row in E.
    destruct (tb_jobs (ck_tables c2) !! j_id job) as [r2|] eqn:Hr2; [|done]. injection E as <-.
    cbn. split; [destruct triggers; exact Hb|]. by rewrite lookup_alter_eq, Hr2.
Qed.

(** ** Examples

    Job "a" without a limit and with two pending builds, on the tables of
    [JobTablesSpec]. *)
#[local] Existing Instance ordinary_builds.

Definition example_scheduler : SchedulerDB :=
  tables_scheduler (fun _ => tables_db 100 example_conn) elements 20 (P := unit) (C := unit)
    (fun _ => Ret ()) (fun _ _ _ _ => Ret ()).

Definition example_two : Tables :=
  set_tb_jobs (alter (fun r =>
    {| jr_name := jr_name r; jr_pipeline_id := jr_pipeline_id r; jr_paused := jr_paused r;
       jr_active := jr_active r; jr_has_config := jr_has_config r;
       jr_inputs_determined := jr_inputs_determined r; jr_has_new_inputs := jr_has_new_inputs r;
       jr_max_in_flight := 0; jr_max_in_flight_reached := jr_max_in_flight_reached r;
       jr_build_number_seq := jr_build_number_seq r; jr_schedule_requested := jr_schedule_requested r;
       jr_last_scheduled := jr_last_scheduled r; jr_next_build_id := jr_next_build_id r;
       jr_latest_completed_build_id := jr_latest_completed_build_id r;
       jr_transition_build_id := jr_transition_build_id r |}) 1)
    (set_tb_builds (<[13 := pending_row 5 (example_snapshot 1 "a") "2"]>) example_tables).

Definition example_clocked (st : Tables) : @St example_scheduler :=
  {| ck_now := 10; ck_tables := st |} : Clocked.

Definition example_unlimited : Job :=
  {| j_id := 1; j_name := "a"; j_pipelineID := 1; j_paused := false; j_hasNewInputs := false;
     j_scheduleRequestedTime := 6; j_maxInFlight := 0 |}.

Definition example_laws_scheduler : SchedulerDBLaws example_scheduler :=
  tables_scheduler_laws _ _ _ _ _.

Lemma TryStart_in_order_witness :
  let st' := (TryStartPendingBuildsForJob (db := example_scheduler) example_unlimited []
    (example_clocked example_two)).2 in
  build_status (SchedulerDBLaws := example_laws_scheduler) st' 11 <> Some BuildStatusPending.
Proof.
  destruct (TryStart_in_order (laws := example_laws_scheduler) example_unlimited []
    (example_clocked example_two) [scanBuild 11 (example_build "a" 1);
      scanBuild 13 (pending_row 5 (example_snapshot 1 "a") "2")]
    {| ck_now := 11; ck_tables := example_two |} 0 1
    (scanBuild 11 (example_build "a" 1)) (scanBuild 13 (pending_row 5 (example_snapshot 1 "a") "2")))
    as [Hst|Hre]; [by vm_compute|done|done|lia|by vm_compute|exact Hst|by destruct Hre].
Defined.

Lemma scheduleJob_acknowledges_witness :
  let st' := (scheduleJob (db := example_scheduler) example_unlimited (example_clocked example_two)).2 in
  last_scheduled (SchedulerDBLaws := example_laws_scheduler) st' 1 = Some 6.
Proof.
  apply (scheduleJob_acknowledges (laws := example_laws_scheduler) example_unlimited
    (example_clocked example_two) 1). by vm_compute.
Defined.

(** Job "b" has a new version on an input that triggers, and no build. *)
Definition example_new : Tables :=
  set_tb_builds (delete 12)
    (set_tb_next_build_inputs (fun _ => [chosen_next 2 ("in", example_choice)]) example_versions).

Definition example_input : InputConfig :=
  {| Name := "in"; Trigger := true; Passed := {[ 1 ]}; UseEveryVersion := false;
     PinnedVersion := None; ResourceID := 7; JobID := 2 |}.

Definition example_after : Clocked :=
  (ensurePendingBuildExists (db := example_scheduler) (example_snapshot 2 "b") [example_input]
    (example_clocked example_new)).2.

Lemma ensurePending_spec_witness :
  has_pending (ck_tables example_after) (j_id (example_snapshot 2 "b")) = true.
Proof.
  destruct (ensurePending_spec (fun _ => tables_db 100 example_conn) elements 20 (P := unit) (C := unit)
    (fun _ => Ret ()) (fun _ _ _ _ => Ret ()) (example_snapshot 2 "b") [example_input]
    (example_clocked example_new) example_after (example_job "b"))
    as [Hp _]; [by vm_compute|done|done|done|].
  match type of Hp with context [existsb ?f ?l] =>
    assert (Ht : existsb f l = true) by (by vm_compute); rewrite Ht in Hp end.
  exact Hp.
Defined.
