(* ===== verification/Vars.v ===== *)
(** * Variables and their interpolation (vars/)

    References to variables and their syntax (variables.go), the sources of
    variables (static_vars.go, named_vars.go, multi_vars.go), the
    interpolation of templates (template.go) and the tracking of secrets
    (tracker.go).

    Strings are byte strings; the classes of characters are those of ASCII.
    A Go map is the list of its entries, in the order in which the iteration
    at hand visits them.  Reading and writing YAML is left to the caller: the
    model starts from the decoded document. *)
From S2P Require Import Prelude.
From stdpp Require Import base gmap sets list strings sorting.
From Stdlib Require Import Ascii ZArith.
Set Warnings "-register-all".
Open Scope Z_scope.

(** ** Values

    The [any] values of decoded documents.  [VInt] stands for the integer
    types, with the text [%v] prints; [VNumber] for [json.Number]. *)
Inductive value :=
| VNil
| VBool (b : bool)
| VInt (text : string)
| VNumber (text : string)
| VFloat (text : string)
| VStr (s : string)
| VList (l : list value)
(** [map[any]any] *)
| VMap (m : list (value * value))
(** [map[string]any] *)
| VSMap (m : list (string * value)).

(** ** References (variables.go) *)

Record Reference := { Source : string; Path : string; Fields : list string }.

#[global] Instance Reference_eq_dec : EqDecision Reference.
Proof. solve_decision. Defined.

(** The errors of the package (errors.go), and those of [fmt.Errorf]. *)
Inductive var_error :=
| UndefinedVarsError (vars : list string)
| UnusedVarsError (vars : list string)
| MissingSourceError (name source : string)
| MissingFieldError (name field : string)
| InvalidFieldError (name field : string) (v : value)
| InvalidInterpolationError (name : string) (v : value)
| InvalidVar (name reason : string)
| MultiError (errs : list var_error)
| OtherVarError (message : string).

Definition WithoutSource (r : Reference) : Reference :=
  {| Source := ""; Path := Path r; Fields := Fields r |}.

Definition quote : ascii := "034".

(** [findUnquoted s c]: the text before and after the first [c] outside
    quotes. *)
Fixpoint findUnquoted (quoted : bool) (s : string) (c : ascii) : option (string * string) :=
  match s with
  | EmptyString => None
  | String x s =>
      if Ascii.eqb x c && negb quoted then Some ("", s)
      else
        let quoted := if Ascii.eqb x c then quoted else if Ascii.eqb x quote then negb quoted else quoted in
        '(before, after) ← findUnquoted quoted s c;
        Some (String x before, after)
  end.

(** [strings.TrimSpace], on ASCII *)
Definition is_space (c : ascii) : bool :=
  existsb (Ascii.eqb c) ["009"; "010"; "011"; "012"; "013"; " "]%char.

Fixpoint trim_left (s : string) : string :=
  match s with
  | String c s' => if is_space c then trim_left s' else s
  | EmptyString => EmptyString
  end.

Fixpoint trim_right (s : string) : string :=
  match s with
  | EmptyString => EmptyString
  | String c s' =>
      match trim_right s' with
      | EmptyString => if is_space c then EmptyString else String c EmptyString
      | t => String c t
      end
  end.

Definition TrimSpace (s : string) : string := trim_right (trim_left s).

(** [strings.ReplaceAll(s, c, "")] for one character *)
Fixpoint remove_char (c : ascii) (s : string) : string :=
  match s with
  | EmptyString => EmptyString
  | String x s => if Ascii.eqb x c then remove_char c s else String x (remove_char c s)
  end.

Fixpoint contains_char (c : ascii) (s : string) : bool :=
  match s with
  | EmptyString => false
  | String x s => Ascii.eqb x c || contains_char c s
  end.

(** [readPathSegment]: the first segment, and the rest when there is one. *)
Definition readPathSegment (raw : string) : string * option string :=
  let '(field, rest) :=
    match findUnquoted false raw "." with
    | Some (before, after) => (before, Some after)
    | None => (raw, None)
    end in
  (remove_char quote (TrimSpace field), rest).

(** The loop of [ParseReference]; each round consumes a separator. *)
Fixpoint readSegments (fuel : nat) (name input : string) : outcome var_error (list string) :=
  match fuel with
  | O => NoFuel
  | S fuel =>
      let '(field, rest) := readPathSegment input in
      if String.eqb field "" then Fail (InvalidVar name "empty field")
      else
        match rest with
        | None => Ret [field]
        | Some input => fields ← readSegments fuel name input; Ret (field :: fields)
        end
  end.

Definition ParseReference (name : string) : outcome var_error Reference :=
  '(source, input) ←
    match findUnquoted false name ":" with
    | Some (source, input) =>
        if contains_char quote source then Fail (InvalidVar name "source must not be quoted")
        else Ret (source, input)
    | None => Ret ("", name)
    end;
  fields ← readSegments (S (String.length input)) name input;
  match fields with
  | [] => Fail (InvalidVar name "no fields")
  | path :: fields => Ret {| Source := source; Path := path; Fields := fields |}
  end.

(** [fmt.Sprintf("%q", seg)] for printable ASCII: quotes and backslashes are
    escaped. *)
Fixpoint escape (s : string) : string :=
  match s with
  | EmptyString => EmptyString
  | String x s =>
      if Ascii.eqb x quote || Ascii.eqb x "\" then String "\" (String x (escape s))
      else String x (escape s)
  end.

Definition special (c : ascii) : bool := existsb (Ascii.eqb c) [","; "."; ":"; "/"; " "]%char.

Fixpoint contains_special (s : string) : bool :=
  match s with
  | EmptyString => false
  | String x s => special x || contains_special s
  end.

Definition refSegmentString (seg : string) : string :=
  if contains_special seg then String quote (escape seg +:+ String quote "") else seg.

Fixpoint fieldsString (fields : list string) : string :=
  match fields with
  | [] => ""
  | f :: fields => "." +:+ refSegmentString f +:+ fieldsString fields
  end.

Definition Reference_String (r : Reference) : string :=
  (if negb (String.eqb (Source r) "") then Source r +:+ ":" else "") +:+
  refSegmentString (Path r) +:+ fieldsString (Fields r).

(** ** Maps *)

(** [m[k]] for string keys *)
Fixpoint alookup {A} (m : list (string * A)) (k : string) : option A :=
  match m with
  | [] => None
  | (k', v) :: m => if String.eqb k' k then Some v else alookup m k
  end.

(** [m[k] = v] *)
Fixpoint ainsert {A} (m : list (string * A)) (k : string) (v : A) : list (string * A) :=
  match m with
  | [] => [(k, v)]
  | (k', v') :: m => if String.eqb k' k then (k, v) :: m else (k', v') :: ainsert m k v
  end.

(** [v[seg]] for a [map[any]any] and a string key *)
Fixpoint any_lookup (m : list (value * value)) (k : string) : option value :=
  match m with
  | [] => None
  | (VStr k', v) :: m => if String.eqb k' k then Some v else any_lookup m k
  | _ :: m => any_lookup m k
  end.

(** ** Sources of variables *)

(** The interface [Variables]; a source that can also name the secret behind
    a variable implements [GetSecretRef]. *)
Record SecretRef := { sr_Namespace : string; sr_Name : string; sr_Key : string; sr_Optional : bool }.

Record Variables := {
  Get : Reference -> outcome var_error (option value);
  List : outcome var_error (list Reference);
  GetSecretRef : option (Reference -> option SecretRef);
}.

(** *** static_vars.go *)

Fixpoint Traverse (v : value) (name : string) (fields : list string) : outcome var_error value :=
  match fields with
  | [] => Ret v
  | seg :: fields =>
      match v with
      | VMap m =>
          match any_lookup m seg with
          | Some v => Traverse v name fields
          | None => Fail (MissingFieldError name seg)
          end
      | VSMap m =>
          match alookup m seg with
          | Some v => Traverse v name fields
          | None => Fail (MissingFieldError name seg)
          end
      | _ => Fail (InvalidFieldError name seg v)
      end
  end.

Abbreviation StaticVariables := (list (string * value)) (only parsing).

Definition static_Get (v : StaticVariables) (ref : Reference) : outcome var_error (option value) :=
  if negb (String.eqb (Source ref) "") then Ret None
  else
    match alookup v (Path ref) with
    | None => Ret None
    | Some x => x ← Traverse x (Reference_String ref) (Fields ref); Ret (Some x)
    end.

Definition static_List (v : StaticVariables) : outcome var_error (list Reference) :=
  Ret ((fun p => {| Source := ""; Path := p.1; Fields := [] |}) <$> v).

Definition static (v : StaticVariables) : Variables :=
  {| Get := static_Get v; List := static_List v; GetSecretRef := None |}.

(** [constructValue]: wrap the value in a map per field, the last field first. *)
Definition constructValue (fields : list string) (v : value) : value :=
  foldl (fun v f => VSMap [(f, v)]) v (reverse fields).

Fixpoint upsert (out : list (string * value)) (path : string) (fields : list string) (v : value)
    : list (string * value) :=
  match alookup out path with
  | Some (VSMap nodeMap) =>
      match fields with
      | [] => ainsert out path v
      | f :: fields => ainsert out path (VSMap (upsert nodeMap f fields v))
      end
  | _ => ainsert out path (constructValue fields v)
  end.

Record KVPair := { Ref : Reference; Value : value }.

Definition Expand (p : list KVPair) : StaticVariables :=
  foldl (fun out pair => upsert out (Path (Ref pair)) (Fields (Ref pair)) (Value pair)) [] p.

(** *** Flattening, with Go's slices

    [flatten] extends the slice of fields with [append], and the references
    it returns keep those slices: an [append] that fits in the capacity
    writes into the array the slice shares.  [heap] holds the arrays. *)
Record slice := { sl_array : nat; sl_len : nat; sl_cap : nat }.

Abbreviation heap := (list (list string)) (only parsing).

Definition nil_slice : slice := {| sl_array := 0; sl_len := 0; sl_cap := 0 |}.

Definition read (h : heap) (s : slice) : list string := take (sl_len s) (default [] (h !! sl_array s)).

(** The capacity of the array [append] allocates (below 256 elements). *)
Definition grow (cap : nat) : nat := if (cap =? 0)%nat then 1 else 2 * cap.

Definition append (h : heap) (s : slice) (x : string) : slice * heap :=
  if (sl_len s <? sl_cap s)%nat then
    ({| sl_array := sl_array s; sl_len := S (sl_len s); sl_cap := sl_cap s |},
     alter (fun a => <[sl_len s := x]> a) (sl_array s) h)
  else
    ({| sl_array := length h; sl_len := S (sl_len s); sl_cap := grow (sl_cap s) |},
     h ++ [read h s ++ x :: replicate (grow (sl_cap s) - S (sl_len s)) ""]).

Fixpoint flatten (path : string) (fields : slice) (v : value) (h : heap)
    : list (string * slice * value) * heap :=
  match v with
  | VSMap m =>
      (fix go m h :=
        match m with
        | [] => ([], h)
        | (k, v) :: m =>
            let '(s, h) := append h fields k in
            let '(l, h) := flatten path s v h in
            let '(l', h) := go m h in
            (l ++ l', h)
        end) m h
  | VMap m =>
      (fix go m h :=
        match m with
        | [] => ([], h)
        | (VStr k, v) :: m =>
            let '(s, h) := append h fields k in
            let '(l, h) := flatten path s v h in
            let '(l', h) := go m h in
            (l ++ l', h)
        | _ :: m => go m h
        end) m h
  | _ => ([(path, fields, v)], h)
  end.

Fixpoint flatten_all (v : StaticVariables) (h : heap) : list (string * slice * value) * heap :=
  match v with
  | [] => ([], h)
  | (k, x) :: v =>
      let '(l, h) := flatten k nil_slice x h in
      let '(l', h) := flatten_all v h in
      (l ++ l', h)
  end.

(** [Flatten]: the references as the caller reads them. *)
Definition Flatten (v : StaticVariables) : list KVPair :=
  let '(l, h) := flatten_all v [] in
  (fun '(path, s, x) =>
    {| Ref := {| Source := ""; Path := path; Fields := read h s |}; Value := x |}) <$> l.

(** *** named_vars.go and multi_vars.go *)

Abbreviation NamedVariables := (list (string * Variables)) (only parsing).

Definition named_Get (m : NamedVariables) (ref : Reference) : outcome var_error (option value) :=
  if String.eqb (Source ref) "" then Ret None
  else
    match alookup m (Source ref) with
    | Some vars => Get vars (WithoutSource ref)
    | None => Fail (MissingSourceError (Reference_String ref) (Source ref))
    end.

Fixpoint named_List (m : NamedVariables) : outcome var_error (list Reference) :=
  match m with
  | [] => Ret []
  | (source, vars) :: m =>
      refs ← List vars;
      allRefs ← named_List m;
      Ret (((fun r => {| Source := source; Path := Path r; Fields := Fields r |}) <$> refs) ++ allRefs)
  end.

Definition named (m : NamedVariables) : Variables :=
  {| Get := named_Get m; List := named_List m; GetSecretRef := None |}.

Fixpoint multi_Get (varss : list Variables) (ref : Reference) : outcome var_error (option value) :=
  match varss with
  | [] => Ret None
  | vars :: varss =>
      match Get vars ref with
      | Ret None => multi_Get varss ref
      | r => r
      end
  end.

Fixpoint multi_GetSecretRef (varss : list Variables) (ref : Reference) : option SecretRef :=
  match varss with
  | [] => None
  | vars :: varss =>
      match Get vars ref with
      | Ret (Some _) =>
          match GetSecretRef vars with
          | Some resolve => resolve ref
          | None => None
          end
      | _ => multi_GetSecretRef varss ref
      end
  end.

Fixpoint multi_List (varss : list Variables) : outcome var_error (list Reference) :=
  match varss with
  | [] => Ret []
  | vars :: varss => defs ← List vars; rest ← multi_List varss; Ret (defs ++ rest)
  end.

Definition multi (varss : list Variables) : Variables :=
  {| Get := multi_Get varss; List := multi_List varss; GetSecretRef := Some (multi_GetSecretRef varss) |}.

(** ** Finding variables in text (template.go)

    The syntax is [((name))] with name a run of the characters below; the
    optional [source:] of the regular expression is part of that run. *)
Definition in_range (lo hi c : ascii) : bool :=
  (nat_of_ascii lo <=? nat_of_ascii c)%nat && (nat_of_ascii c <=? nat_of_ascii hi)%nat.

Definition is_var_char (c : ascii) : bool :=
  in_range "0" "9" c || in_range "A" "Z" c || in_range "a" "z" c || Ascii.eqb c "_" ||
  existsb (Ascii.eqb c) ["-"; "/"; "."; ":"; "@"; quote]%char.

Fixpoint span_var (s : string) : string * string :=
  match s with
  | String c s' =>
      if is_var_char c then let '(name, rest) := span_var s' in (String c name, rest)
      else ("", s)
  | EmptyString => ("", "")
  end.

(** [interpolationRegex] at the start of the text: the name and what follows. *)
Definition match_var (s : string) : option (string * string) :=
  match s with
  | String "(" (String "(" s) =>
      match span_var s with
      | (EmptyString, _) => None
      | (name, String ")" (String ")" rest)) => Some (name, rest)
      | _ => None
      end
  | _ => None
  end.

(** [FindAllSubmatch]: the matches from left to right, without overlap. *)
Fixpoint extract (fuel : nat) (s : string) : list string :=
  match fuel with
  | O => []
  | S fuel =>
      match match_var s with
      | Some (name, rest) => name :: extract fuel rest
      | None => match s with String _ s => extract fuel s | EmptyString => [] end
      end
  end.

Definition extractVarNames (s : string) : list string := extract (S (String.length s)) s.

Definition ExtractVarRefs (s : string) : list Reference :=
  (fun name =>
    match ParseReference name with
    | Ret ref => ref
    | _ => {| Source := ""; Path := name; Fields := [] |}
    end) <$> extractVarNames s.

(** [interpolationAnchoredRegex] *)
Definition is_var (s : string) : bool :=
  match match_var s with
  | Some (_, EmptyString) => true
  | _ => false
  end.

Fixpoint strip_prefix (p s : string) : option string :=
  match p, s with
  | EmptyString, _ => Some s
  | String a p, String b s => if Ascii.eqb a b then strip_prefix p s else None
  | _, _ => None
  end.

(** [strings.ReplaceAll], for a non-empty [old] *)
Fixpoint replace_all (fuel : nat) (s old new : string) : string :=
  match fuel with
  | O => s
  | S fuel =>
      match strip_prefix old s with
      | Some rest => new +:+ replace_all fuel rest old new
      | None => match s with String c s => String c (replace_all fuel s old new) | EmptyString => "" end
      end
  end.

Definition ReplaceAll (s old new : string) : string := replace_all (S (String.length s)) s old new.

(** ** Tracking what a template uses *)

(** [varsTracker]; [again] are the choices of the Go runtime when a loop over
    a map creates an entry: whether the loop visits it. *)
Record varsTracker := {
  vars : Variables;
  expectAllFound : bool;
  expectAllUsed : bool;
  missing : gset string;
  visited : gset string;
  again : list bool;
}.

Definition newVarsTracker (vars : Variables) (expectAllFound expectAllUsed : bool) (again : list bool)
    : varsTracker :=
  {| vars := vars; expectAllFound := expectAllFound; expectAllUsed := expectAllUsed;
     missing := ∅; visited := ∅; again := again |}.

Definition identifier (r : Reference) : string :=
  if negb (String.eqb (Source r) "") then Source r +:+ ":" +:+ Path r else Path r.

Definition set_visited (id : string) (t : varsTracker) : varsTracker :=
  {| vars := vars t; expectAllFound := expectAllFound t; expectAllUsed := expectAllUsed t;
     missing := missing t; visited := {[id]} ∪ visited t; again := again t |}.
Definition set_missing (name : string) (t : varsTracker) : varsTracker :=
  {| vars := vars t; expectAllFound := expectAllFound t; expectAllUsed := expectAllUsed t;
     missing := {[name]} ∪ missing t; visited := visited t; again := again t |}.
Definition set_again (choices : list bool) (t : varsTracker) : varsTracker :=
  {| vars := vars t; expectAllFound := expectAllFound t; expectAllUsed := expectAllUsed t;
     missing := missing t; visited := visited t; again := choices |}.

Definition tracker_Get (varName : string) (t : varsTracker)
    : outcome var_error (option value * varsTracker) :=
  varRef ← ParseReference varName;
  let t := set_visited (identifier varRef) t in
  found ← Get (vars t) varRef;
  match found with
  | None => Ret (None, set_missing (Reference_String varRef) t)
  | Some v => Ret (Some v, t)
  end.

(** [names]: the keys of a set, sorted. *)
Definition names (s : gset string) : list string := merge_sort String.le (elements s).

Definition MissingError (t : varsTracker) : option var_error :=
  if negb (expectAllFound t) || bool_decide (missing t = ∅) then None
  else Some (UndefinedVarsError (names (missing t))).

Definition ExtraError (t : varsTracker) : outcome var_error (option var_error) :=
  if negb (expectAllUsed t) then Ret None
  else
    match List (vars t) with
    | Ret allRefs =>
        let unused := list_to_set (filter (fun id => id ∉ visited t) (identifier <$> allRefs)) : gset string in
        if bool_decide (unused = ∅) then Ret None else Ret (Some (UnusedVarsError (names unused)))
    | Fail err => Ret (Some err)
    | Panic => Panic
    | NoFuel => NoFuel
    end.

Definition tracker_Error (t : varsTracker) : outcome var_error unit :=
  extraErr ← ExtraError t;
  match MissingError t, extraErr with
  | Some m, Some e => Fail (MultiError [m; e])
  | Some m, None => Fail m
  | None, Some e => Fail e
  | None, None => Ret ()
  end.

(** ** Interpolation *)

(** The text [%v] prints for the values that may be part of a string. *)
Definition primitive_text (v : value) : option string :=
  match v with
  | VStr s | VInt s | VNumber s => Some s
  | _ => None
  end.

(** The loop over the variables found in a string. *)
Fixpoint interpolateString (names : list string) (typedNode : string) (t : varsTracker)
    : outcome var_error (value * varsTracker) :=
  match names with
  | [] => Ret (VStr typedNode, t)
  | name :: names =>
      '(found, t) ← tracker_Get name t;
      match found with
      | None => interpolateString names typedNode t
      | Some foundVal =>
          if is_var typedNode then Ret (foundVal, t)
          else
            match primitive_text foundVal with
            | Some text =>
                interpolateString names (ReplaceAll typedNode ("((" +:+ name +:+ "))") text) t
            | None => Fail (InvalidInterpolationError name foundVal)
            end
      end
  end.

(** Keys of a [map[any]any]: a list or a map cannot be one. *)
Definition hashable (v : value) : bool :=
  match v with
  | VList _ | VMap _ | VSMap _ => false
  | _ => true
  end.

Definition key_eqb (a b : value) : bool :=
  match a, b with
  | VNil, VNil => true
  | VBool x, VBool y => Bool.eqb x y
  | VInt x, VInt y | VNumber x, VNumber y | VFloat x, VFloat y | VStr x, VStr y => String.eqb x y
  | _, _ => false
  end.

Definition has_key (k : value) (m : list (value * value)) : bool := existsb (fun p => key_eqb p.1 k) m.

Definition set_key (k v : value) (m : list (value * value)) : list (value * value) :=
  (fun p => if key_eqb p.1 k then (p.1, v) else p) <$> m.

Section Loops.
Context (interpolate : value -> varsTracker -> outcome var_error (value * varsTracker)).

(** The loop over a map, which deletes the entry it visits and inserts the
    evaluated one: [todo] are the entries it has not reached, [seen] the others.
    Assigning to a key that is there keeps its place; an entry that is created
    may be visited or not. *)
Fixpoint interpolateMap (fuel : nat) (todo seen : list (value * value)) (t : varsTracker)
    : outcome var_error (list (value * value) * varsTracker) :=
  match fuel with
  | O => NoFuel
  | S fuel =>
      match todo with
      | [] => Ret (seen, t)
      | (k, v) :: todo =>
          '(evaluatedValue, t) ← interpolate v t;
          '(evaluatedKey, t) ← interpolate k t;
          if negb (hashable evaluatedKey) then Panic
          else if has_key evaluatedKey todo then
            interpolateMap fuel (set_key evaluatedKey evaluatedValue todo) seen t
          else if has_key evaluatedKey seen then
            interpolateMap fuel todo (set_key evaluatedKey evaluatedValue seen) t
          else
            match again t with
            | true :: choices =>
                interpolateMap fuel (todo ++ [(evaluatedKey, evaluatedValue)]) seen (set_again choices t)
            | _ :: choices =>
                interpolateMap fuel todo (seen ++ [(evaluatedKey, evaluatedValue)]) (set_again choices t)
            | [] => interpolateMap fuel todo (seen ++ [(evaluatedKey, evaluatedValue)]) t
            end
      end
  end.

Fixpoint interpolateList (l : list value) (t : varsTracker)
    : outcome var_error (list value * varsTracker) :=
  match l with
  | [] => Ret ([], t)
  | x :: l => '(x, t) ← interpolate x t; '(l, t) ← interpolateList l t; Ret (x :: l, t)
  end.
End Loops.

Fixpoint Interpolate (fuel : nat) (node : value) (t : varsTracker)
    : outcome var_error (value * varsTracker) :=
  match fuel with
  | O => NoFuel
  | S fuel =>
      match node with
      | VMap m =>
          '(m, t) ← interpolateMap (Interpolate fuel) (S (length m + length (again t))) m [] t;
          Ret (VMap m, t)
      | VList l => '(l, t) ← interpolateList (Interpolate fuel) l t; Ret (VList l, t)
      | VStr s => interpolateString (extractVarNames s) s t
      | _ => Ret (node, t)
      end
  end.

(** The nesting of a document bounds the recursion. *)
Fixpoint depth (v : value) : nat :=
  match v with
  | VList l => S (fold_right (fun x n => Nat.max (depth x) n) 0%nat l)
  | VMap m => S (fold_right (fun p n => Nat.max (Nat.max (depth p.1) (depth p.2)) n) 0%nat m)
  | _ => 1%nat
  end.

Definition interpolateRoot (fuel : nat) (obj : value) (t : varsTracker) : outcome var_error value :=
  '(obj, t) ← Interpolate fuel obj t;
  _ ← tracker_Error t;
  Ret obj.

Record EvaluateOpts := { ExpectAllKeys : bool; ExpectAllVarsUsed : bool }.

(** [Evaluate], between the decoding and the encoding of the document. *)
Definition Evaluate (fuel : nat) (obj : value) (vars : Variables) (opts : EvaluateOpts)
    (choices : list bool) : outcome var_error value :=
  interpolateRoot fuel obj (newVarsTracker vars (ExpectAllKeys opts) (ExpectAllVarsUsed opts) choices).

(** [TemplateResolver.Resolve] *)
Definition TemplateResolver_Resolve (fuel : nat) (configPayload : value) (params : list Variables)
    (expectAllKeys : bool) (choices : list bool) : outcome var_error value :=
  Evaluate fuel configPayload (multi params)
    {| ExpectAllKeys := expectAllKeys; ExpectAllVarsUsed := false |} choices.

(** ** Tracking secrets (tracker.go) *)

Record Tracker := {
  interpolatedCreds : gmap string string;
  secretRefs : gmap string SecretRef;
}.

Definition NewTracker : Tracker := {| interpolatedCreds := ∅; secretRefs := ∅ |}.

Definition set_cred (k v : string) (t : Tracker) : Tracker :=
  {| interpolatedCreds := <[k := v]> (interpolatedCreds t); secretRefs := secretRefs t |}.

(** [track]; the fields are only extended on the way down and read at once.
    A key that is not a string panics ([kk.(string)]). *)
Fixpoint track (path : string) (fields : list string) (v : value) (t : Tracker)
    : outcome var_error Tracker :=
  match v with
  | VMap m =>
      (fix go m t :=
        match m with
        | [] => Ret t
        | (VStr k, v) :: m => t ← track path (fields ++ [k]) v t; go m t
        | _ :: _ => Panic
        end) m t
  | VSMap m =>
      (fix go m t :=
        match m with
        | [] => Ret t
        | (k, v) :: m => t ← track path (fields ++ [k]) v t; go m t
        end) m t
  | VStr s => Ret (set_cred (String.concat "." (path :: fields)) s t)
  | _ => Ret t
  end.

Definition Track (ref : Reference) (v : value) (t : Tracker) : outcome var_error Tracker :=
  track (Path ref) (Fields ref) v t.

Definition TrackSecretRef (ref : Reference) (r : SecretRef) (t : Tracker) : Tracker :=
  {| interpolatedCreds := interpolatedCreds t; secretRefs := <[Path ref := r]> (secretRefs t) |}.

Definition CredVarsTracker_Get (CredVars : Variables) (ref : Reference) (t : Tracker)
    : outcome var_error (option value * Tracker) :=
  found ← Get CredVars ref;
  match found with
  | None => Ret (None, t)
  | Some v =>
      t ← Track ref v t;
      let t :=
        match GetSecretRef CredVars ≫= (fun resolve => resolve ref) with
        | Some r => TrackSecretRef ref r t
        | None => t
        end in
      Ret (Some v, t)
  end.

(** [TrackedVarsMap.YieldCred]: the first value of a name is kept. *)
Definition YieldCred (it : gmap string string) (k v : string) : gmap string string :=
  match it !! k with
  | Some _ => it
  | None => <[k := v]> it
  end.

Definition IterateInterpolatedCreds (t : Tracker) (it : gmap string string) : gmap string string :=
  foldl (fun it p => YieldCred it p.1 p.2) it (map_to_list (interpolatedCreds t)).
