(* ===== verification/VarsSpec.v ===== *)
(** * Properties of variables and interpolation

    The syntax of references round-trips, static variables store what is
    expanded into them, interpolation visits what it should, and where the
    order of a loop over a map or the sharing of a slice shows. *)
From S2P Require Import Prelude Vars.
From stdpp Require Import base gmap sets list strings sorting.
From Stdlib Require Import Ascii ZArith Lia.
Open Scope Z_scope.

#[local] Arguments String.append !_ _ / : simpl nomatch.

(** ** Syntax of references *)

(** Every character of the string satisfies [P]. *)
Fixpoint all_chars (P : ascii -> bool) (s : string) : bool :=
  match s with
  | EmptyString => true
  | String c s => P c && all_chars P s
  end.

(** Printable ASCII without quotes and backslashes. *)
Definition plain (c : ascii) : bool :=
  in_range " " "~" c && negb (Ascii.eqb c quote) && negb (Ascii.eqb c "\").

Definition segment_ok (seg : string) : bool := negb (String.eqb seg "") && all_chars plain seg.

Definition source_ok (s : string) : bool :=
  all_chars (fun c => negb (Ascii.eqb c quote) && negb (Ascii.eqb c ":")) s.

Definition ref_ok (r : Reference) : bool :=
  source_ok (Source r) && segment_ok (Path r) && forallb segment_ok (Fields r).

Lemma escape_plain s : all_chars plain s = true -> escape s = s.
Proof.
  induction s as [|c s IH]; [done|]. cbn. intros H. go_bool. unfold plain in H. go_bool.
  rewrite IH by done. by rewrite H1, H2.
Qed.

(** A character that separates segments is special and not a quote. *)
Definition separator (c : ascii) : bool := special c && negb (Ascii.eqb c quote).

(** Prepend to what was found before the separator. *)
Definition prepend (p : string) (r : option (string * string)) : option (string * string) :=
  (fun x => (p +:+ x.1, x.2)) <$> r.

Lemma prepend_app p q r : prepend p (prepend q r) = prepend (p +:+ q) r.
Proof. destruct r as [[b a]|]; cbn; [|done]. by rewrite string_app_assoc. Qed.

(** Text without the separator and without quotes is skipped. *)
Lemma find_skip s tail c quoted :
  all_chars (fun x => negb (Ascii.eqb x c) && negb (Ascii.eqb x quote)) s = true ->
  findUnquoted quoted (s +:+ tail) c = prepend s (findUnquoted quoted tail c).
Proof.
  induction s as [|x s IH]; intros H; cbn in *.
  { by destruct (findUnquoted quoted tail c) as [[]|]. }
  go_bool. rewrite H, H1. cbn. rewrite IH by done.
  by destruct (findUnquoted quoted tail c) as [[]|].
Qed.

(** Quoted text is skipped. *)
Lemma find_quoted s tail c :
  all_chars plain s = true -> Ascii.eqb quote c = false ->
  findUnquoted true (s +:+ String quote tail) c = prepend (s +:+ String quote "") (findUnquoted false tail c).
Proof.
  intros Hs Hc. induction s as [|x s IH].
  { cbn -[Ascii.eqb]. rewrite Hc. cbn. by destruct (findUnquoted false tail c) as [[]|]. }
  cbn -[Ascii.eqb] in *. go_bool. unfold plain in H. go_bool. rewrite andb_false_r, H2.
  replace (if Ascii.eqb x c then true else true) with true by (by destruct (Ascii.eqb x c)).
  rewrite IH by done. by destruct (findUnquoted false tail c) as [[]|].
Qed.

Lemma no_special_skip s c : separator c = true -> all_chars plain s = true -> contains_special s = false ->
  all_chars (fun x => negb (Ascii.eqb x c) && negb (Ascii.eqb x quote)) s = true.
Proof.
  intros Hc. unfold separator in Hc. go_bool.
  induction s as [|x s IH]; [done|]. cbn -[special Ascii.eqb]. intros Hp Hs.
  apply andb_true_iff in Hp as [Hx Hp]. apply orb_false_iff in Hs as [Hsx Hs].
  unfold plain in Hx. go_bool. rewrite IH, andb_true_r, H3 by done. cbn -[Ascii.eqb].
  rewrite andb_true_r. apply negb_true_iff, not_true_iff_false. intros Hx%Ascii.eqb_eq. congruence.
Qed.

Lemma find_segment seg tail c :
  all_chars plain seg = true -> separator c = true ->
  findUnquoted false (refSegmentString seg +:+ tail) c =
    prepend (refSegmentString seg) (findUnquoted false tail c).
Proof.
  intros Hp Hc. unfold refSegmentString. destruct (contains_special seg) eqn:Hs.
  - assert (Hq : Ascii.eqb quote c = false).
    { unfold separator in Hc. go_bool. by rewrite Ascii.eqb_sym. }
    rewrite escape_plain by done. cbn -[Ascii.eqb]. rewrite Hq. cbn -[Ascii.eqb].
    rewrite string_app_assoc. cbn -[Ascii.eqb]. rewrite find_quoted by done. by destruct (findUnquoted false tail c) as [[]|].
  - apply find_skip. by apply no_special_skip.
Qed.

(** Reading back one segment. *)
Lemma trim_right_plain s : all_chars (fun c => negb (is_space c)) s = true -> trim_right s = s.
Proof.
  induction s as [|c s IH]; [done|]. cbn -[is_space]. intros H. go_bool. rewrite IH by done.
  destruct s; [by rewrite H|done].
Qed.

Lemma trim_left_plain s : all_chars (fun c => negb (is_space c)) s = true -> trim_left s = s.
Proof. destruct s as [|c s]; [done|]. cbn -[is_space]. intros H. go_bool. by rewrite H. Qed.

Lemma trim_right_quote s : trim_right (s +:+ String quote "") = s +:+ String quote "".
Proof.
  induction s as [|c s IH]; [done|]. cbn -[is_space]. rewrite IH. by destruct s.
Qed.

Lemma remove_quote_plain s : all_chars plain s = true -> remove_char quote s = s.
Proof.
  induction s as [|c s IH]; [done|]. cbn -[Ascii.eqb]. intros H. go_bool. unfold plain in H. go_bool.
  by rewrite H2, IH.
Qed.

Lemma remove_quote_app s t : remove_char quote (s +:+ t) = remove_char quote s +:+ remove_char quote t.
Proof.
  induction s as [|c s IH]; [done|]. cbn -[Ascii.eqb]. rewrite IH. by destruct (Ascii.eqb c quote).
Qed.

(** A plain character that is not special is not white space. *)
Lemma plain_no_space s : all_chars plain s = true -> contains_special s = false ->
  all_chars (fun c => negb (is_space c)) s = true.
Proof.
  induction s as [|c s IH]; [done|]. cbn -[is_space special]. intros Hp Hs.
  apply andb_true_iff in Hp as [Hc Hp]. apply orb_false_iff in Hs as [Hsc Hs].
  rewrite IH, andb_true_r by done. revert Hc Hsc. clear.
  destruct c as [[] [] [] [] [] [] [] []]; by vm_compute.
Qed.

Lemma read_segment_text seg : segment_ok seg = true ->
  remove_char quote (TrimSpace (refSegmentString seg)) = seg.
Proof.
  unfold segment_ok, TrimSpace, refSegmentString. intros H. go_bool.
  destruct (contains_special seg) eqn:Hs.
  - rewrite escape_plain by done.
    change (trim_left (String quote (seg +:+ String quote "")))
      with (String quote seg +:+ String quote "").
    rewrite trim_right_quote, remove_quote_app. cbn. rewrite remove_quote_plain by done.
    apply string_app_nil.
  - assert (Hn := plain_no_space _ H0 Hs).
    by rewrite trim_left_plain, trim_right_plain, remove_quote_plain.
Qed.

Lemma readPathSegment_spec seg tail : segment_ok seg = true ->
  readPathSegment (refSegmentString seg +:+ tail) =
    match findUnquoted false tail "." with
    | Some (before, after) => (remove_char quote (TrimSpace (refSegmentString seg +:+ before)), Some after)
    | None => (remove_char quote (TrimSpace (refSegmentString seg +:+ tail)), None)
    end.
Proof.
  intros H. unfold readPathSegment. pose proof H as Hp. unfold segment_ok in Hp. go_bool.
  rewrite find_segment by done. by destruct (findUnquoted false tail ".") as [[]|].
Qed.

Lemma fieldsString_length fields : (length fields <= String.length (fieldsString fields))%nat.
Proof. induction fields as [|f fields IH]; [done|]. cbn. rewrite string_length_app. lia. Qed.

Lemma readSegments_spec fuel name seg fields :
  segment_ok seg = true -> forallb segment_ok fields = true -> (length fields < fuel)%nat ->
  readSegments fuel name (refSegmentString seg +:+ fieldsString fields) = Ret (seg :: fields).
Proof.
  revert seg fields. induction fuel as [|fuel IH]; intros seg fields Hseg Hf Hfuel; [lia|].
  assert (Hne : String.eqb seg "" = false) by (unfold segment_ok in Hseg; go_bool; by apply String.eqb_neq).
  cbn [readSegments]. rewrite readPathSegment_spec by done. destruct fields as [|f fields].
  - cbn. rewrite string_app_nil, read_segment_text, Hne by done. done.
  - cbn in Hf, Hfuel. apply andb_true_iff in Hf as [Hf1 Hf2]. cbn -[readSegments].
    rewrite string_app_nil, read_segment_text, Hne by done. rewrite IH by (done || lia). done.
Qed.

Lemma find_fields_none fields : forallb segment_ok fields = true ->
  findUnquoted false (fieldsString fields) ":" = None.
Proof.
  induction fields as [|f fields IH]; [done|]. cbn -[findUnquoted]. intros H. go_bool.
  change ("." +:+ (refSegmentString f +:+ fieldsString fields))
    with (String "." (refSegmentString f +:+ fieldsString fields)). cbn.
  pose proof H as Hp. unfold segment_ok in Hp. go_bool. rewrite find_segment by done. by rewrite IH.
Qed.

(** ** Maps and expansion *)

Lemma alookup_ainsert {A} (m : list (string * A)) k v k' :
  alookup (ainsert m k v) k' = if String.eqb k k' then Some v else alookup m k'.
Proof.
  induction m as [|[k0 v0] m IH]; cbn; [done|]. destruct (String.eqb k0 k) eqn:E; cbn.
  - apply String.eqb_eq in E as ->. by destruct (String.eqb k k').
  - rewrite IH. destruct (String.eqb k0 k') eqn:E'; [|done].
    apply String.eqb_eq in E' as ->. by rewrite String.eqb_sym, E.
Qed.

Lemma constructValue_cons f fields v : constructValue (f :: fields) v = VSMap [(f, constructValue fields v)].
Proof. unfold constructValue. by rewrite reverse_cons, foldl_snoc. Qed.

Lemma Traverse_constructValue fields v name : Traverse (constructValue fields v) name fields = Ret v.
Proof.
  induction fields as [|f fields IH]; [done|]. rewrite constructValue_cons. cbn.
  by rewrite String.eqb_refl.
Qed.

(** What was upserted last is found. *)
Lemma upsert_found out path fields v name :
  exists x, alookup (upsert out path fields v) path = Some x /\ Traverse x name fields = Ret v.
Proof.
  revert out path. induction fields as [|f fields IH]; intros out path; cbn.
  - destruct (alookup out path) as [[]|]; rewrite alookup_ainsert, String.eqb_refl; by eexists.
  - assert (Hc : exists x, alookup (ainsert out path (constructValue (f :: fields) v)) path = Some x /\
      Traverse x name (f :: fields) = Ret v).
    { rewrite alookup_ainsert, String.eqb_refl. eexists. split; [done|]. apply Traverse_constructValue. }
    destruct (alookup out path) as [[]|]; try exact Hc.
    rewrite alookup_ainsert, String.eqb_refl. eexists. split; [done|]. cbn.
    destruct (IH m f) as (x & -> & Hx). done.
Qed.

(** [lookup_path]: following string maps only. *)
Fixpoint lookup_path (out : list (string * value)) (path : string) (fields : list string) : option value :=
  match alookup out path with
  | None => None
  | Some v =>
      match fields with
      | [] => Some v
      | f :: fields => match v with VSMap m => lookup_path m f fields | _ => None end
      end
  end.

(** Two paths part: after a common prefix they differ. *)
Inductive parts : list string -> list string -> Prop :=
| parts_here a b l l' : a <> b -> parts (a :: l) (b :: l')
| parts_later a l l' : parts l l' -> parts (a :: l) (a :: l').

Lemma lookup_path_Traverse out path fields v name :
  lookup_path out path fields = Some v ->
  exists x, alookup out path = Some x /\ Traverse x name fields = Ret v.
Proof.
  revert out path. induction fields as [|f fields IH]; intros out path; cbn.
  - destruct (alookup out path); [|done]. intros [= ->]. eauto.
  - destruct (alookup out path) as [[]|]; try done. intros H.
    destruct (IH _ _ H) as (x & Hx & Ht). eexists. split; [done|]. cbn. by rewrite Hx.
Qed.

(** A path that parts from the upserted one keeps its value. *)
Lemma upsert_other out path fields v path' fields' :
  parts (path :: fields) (path' :: fields') ->
  lookup_path out path' fields' <> None ->
  lookup_path (upsert out path fields v) path' fields' = lookup_path out path' fields'.
Proof.
  revert out path path' fields'. induction fields as [|f fields IH]; intros out path path' fields' Hp Hl.
  - inversion Hp as [? ? ? ? Hne|? ? ? Hq]; subst; [|inversion Hq]. cbn.
    assert (E : String.eqb path path' = false) by (by apply String.eqb_neq).
    destruct (alookup out path) as [[]|]; destruct fields'; cbn; by rewrite alookup_ainsert, E.
  - destruct (decide (path = path')) as [->|Hne].
    + inversion Hp as [? ? ? ? Hne|? ? ? Hq]; subst; [done|]. destruct fields' as [|f' fields']; [inversion Hq|].
      cbn in *. destruct (alookup out path') as [[]|] eqn:E; try done.
      rewrite alookup_ainsert, String.eqb_refl. by apply IH.
    + assert (E : String.eqb path path' = false) by (by apply String.eqb_neq). cbn.
      destruct (alookup out path) as [[]|]; destruct fields'; cbn; by rewrite alookup_ainsert, E.
Qed.

(** ** Flattening *)

(** Induction over nested values. *)
Section ValueInd.
Context (P : value -> Prop).
Context (Hleaf : forall v, (match v with VList _ | VMap _ | VSMap _ => False | _ => True end) -> P v).
Context (Hlist : forall l, Forall P l -> P (VList l)).
Context (Hmap : forall m, Forall (fun p => P p.1 /\ P p.2) m -> P (VMap m)).
Context (Hsmap : forall m, Forall (fun p => P p.2) m -> P (VSMap m)).

Fixpoint value_induction (v : value) : P v :=
  match v with
  | VList l => Hlist l (list_ind (Forall P) (Forall_nil_2 P)
      (fun x l IH => Forall_cons_2 P x l (value_induction x) IH) l)
  | VMap m => Hmap m (list_ind (Forall _) (Forall_nil_2 _)
      (fun p m IH => Forall_cons_2 _ p m (conj (value_induction p.1) (value_induction p.2)) IH) m)
  | VSMap m => Hsmap m (list_ind (Forall _) (Forall_nil_2 _)
      (fun p m IH => Forall_cons_2 _ p m (value_induction p.2) IH) m)
  | v => Hleaf v I
  end.
End ValueInd.

(** What [flatten] would return if every reference had fields of its own. *)
Fixpoint flat (path : string) (fields : list string) (v : value) : list (string * list string * value) :=
  match v with
  | VSMap m => m ≫= (fun p => flat path (fields ++ [p.1]) p.2)
  | VMap m =>
      m ≫= (fun p => match p.1 with VStr k => flat path (fields ++ [k]) p.2 | _ => [] end)
  | _ => [(path, fields, v)]
  end.

(** The number of fields below a value. *)
Fixpoint field_depth (v : value) : nat :=
  match v with
  | VSMap m => S (fold_right (fun p n => Nat.max (field_depth p.2) n) 0%nat m)
  | VMap m => S (fold_right (fun p n => Nat.max (field_depth p.2) n) 0%nat m)
  | _ => 0%nat
  end.

Definition valid (h : list (list string)) (s : slice) : Prop :=
  sl_len s = 0%nat \/ exists a, h !! sl_array s = Some a /\ (sl_len s <= length a)%nat.

(** Up to three fields the capacity is used up and [append] copies. *)
Definition own (s : slice) : Prop := (sl_len s < 3)%nat -> sl_cap s = sl_len s.

Lemma read_mono h h' s : valid h s -> h `prefix_of` h' -> read h' s = read h s.
Proof.
  intros Hv [k ->]. unfold read. destruct Hv as [->|(a & Ha & _)]; [done|].
  by rewrite lookup_app, Ha.
Qed.

Lemma valid_mono h h' s : valid h s -> h `prefix_of` h' -> valid h' s.
Proof.
  intros [H|(a & Ha & Hl)] [k ->]; [by left|right]. exists a. by rewrite lookup_app, Ha.
Qed.

Lemma read_length h s : valid h s -> length (read h s) = sl_len s.
Proof.
  intros [H|(a & Ha & Hl)]; unfold read; rewrite length_take; [lia|]. rewrite Ha. cbn. lia.
Qed.

Lemma append_own h s x : own s -> valid h s -> (sl_len s < 3)%nat ->
  let '(s', h') := append h s x in
  h `prefix_of` h' /\ own s' /\ valid h' s' /\ sl_len s' = S (sl_len s) /\
  read h' s' = read h s ++ [x].
Proof.
  intros Hown Hv Hl. specialize (Hown Hl). unfold append. rewrite Hown, Nat.ltb_irrefl.
  pose proof (read_length h s Hv) as Hrl.
  split_and!; [by eexists| | |done|].
  - unfold own. cbn. unfold grow. destruct (sl_len s) as [|[|[|]]]; cbn; lia.
  - right. cbn. rewrite lookup_app_r, Nat.sub_diag by lia. cbn. eexists. split; [done|].
    rewrite length_app. cbn. lia.
  - unfold read at 1. cbn. rewrite lookup_app_r, Nat.sub_diag by lia. cbn.
    change (x :: replicate (grow (sl_len s) - S (sl_len s)) "")
      with ([x] ++ replicate (grow (sl_len s) - S (sl_len s)) "").
    rewrite app_assoc, take_app_le by (rewrite length_app; cbn; lia).
    apply take_ge. rewrite length_app. cbn. lia.
Qed.

(** The pairs as they are read in the final heap. *)
Definition pairs_in (h : list (list string)) (l : list (string * slice * value))
    : list (string * list string * value) :=
  (fun '(path, s, v) => (path, read h s, v)) <$> l.

Definition flattened (h : list (list string)) (r : list (string * slice * value) * list (list string))
    (expected : list (string * list string * value)) : Prop :=
  h `prefix_of` r.2 /\ Forall (fun x => valid r.2 x.1.2) r.1 /\ pairs_in r.2 r.1 = expected.

Lemma flattened_app h l1 h1 e1 l2 h2 e2 :
  flattened h (l1, h1) e1 -> flattened h1 (l2, h2) e2 -> flattened h (l1 ++ l2, h2) (e1 ++ e2).
Proof.
  intros (P1 & V1 & E1) (P2 & V2 & E2). cbn in *. split_and!; cbn; [by etrans| |].
  - apply Forall_app. split; [|done]. eapply Forall_impl; [exact V1|]. intros x Hx. exact (valid_mono _ _ _ Hx P2).
  - unfold pairs_in in *. rewrite fmap_app, E2. f_equal. rewrite <- E1.
    apply list_fmap_ext. intros k [[p sl] v] Hk. f_equal. f_equal. apply read_mono; [|done].
    by apply (proj1 (Forall_lookup _ _) V1 k _ Hk).
Qed.

Lemma fold_max_le {A} (f : A -> nat) l n :
  (fold_right (fun p m => Nat.max (f p) m) 0%nat l <= n)%nat <-> Forall (fun p => (f p <= n)%nat) l.
Proof. induction l as [|x l IH]; cbn; [split; [done|lia]|]. rewrite Forall_cons. rewrite <- IH. lia. Qed.

(** The entries of a map that a loop with string keys visits. *)
Definition string_entries (m : list (value * value)) : list (string * value) :=
  omap (fun p => match p.1 with VStr k => Some (k, p.2) | _ => None end) m.

Fixpoint entries_loop (f : slice -> value -> list (list string) ->
      list (string * slice * value) * list (list string)) (s : slice)
    (es : list (string * value)) (h : list (list string))
    : list (string * slice * value) * list (list string) :=
  match es with
  | [] => ([], h)
  | (k, v) :: es =>
      let '(s', h) := append h s k in
      let '(l, h) := f s' v h in
      let '(l', h) := entries_loop f s es h in
      (l ++ l', h)
  end.

Lemma flatten_VSMap path s m h : flatten path s (VSMap m) h = entries_loop (flatten path) s m h.
Proof.
  revert h. induction m as [|[k v] m IH]; intros h; [done|]. cbn in *.
  destruct (append h s k) as [s' h1]. destruct (flatten path s' v h1) as [l h2]. by rewrite IH.
Qed.

Lemma flatten_VMap path s m h :
  flatten path s (VMap m) h = entries_loop (flatten path) s (string_entries m) h.
Proof.
  revert h. induction m as [|[k v] m IH]; intros h; [done|]. destruct k; try apply IH. cbn in *.
  destruct (append h s s0) as [s' h1]. destruct (flatten path s' v h1) as [l h2]. by rewrite IH.
Qed.

Lemma flat_VMap path fields m :
  flat path fields (VMap m) = string_entries m ≫= (fun p => flat path (fields ++ [p.1]) p.2).
Proof. cbn. induction m as [|[k v] m IH]; [done|]. destruct k; cbn; rewrite IH; done. Qed.

Lemma entries_loop_flat path es : forall s h,
  Forall (fun p => forall s h, own s -> valid h s -> (field_depth p.2 + sl_len s <= 3)%nat ->
    flattened h (flatten path s p.2 h) (flat path (read h s) p.2)) es ->
  own s -> valid h s -> Forall (fun p => (S (field_depth p.2) + sl_len s <= 3)%nat) es ->
  flattened h (entries_loop (flatten path) s es h)
    (es ≫= (fun p => flat path (read h s ++ [p.1]) p.2)).
Proof.
  induction es as [|[k v] es IHes]; intros s h IH Ho Hv Hd.
  { split_and!; cbn; [done|by constructor|done]. }
  apply Forall_cons in IH as [IHv IH]. apply Forall_cons in Hd as [Hdv Hd]. cbn [fst snd] in *.
  cbn [entries_loop]. pose proof (append_own h s k Ho Hv ltac:(lia)) as Ha.
  destruct (append h s k) as [s' h1]. destruct Ha as (P1 & O1 & V1 & L1 & R1).
  specialize (IHv s' h1 O1 V1 ltac:(lia)). rewrite R1 in IHv.
  destruct (flatten path s' v h1) as [l1 h2].
  assert (P : h `prefix_of` h2) by (etrans; [done|apply IHv]).
  specialize (IHes s h2 IH Ho (valid_mono _ _ _ Hv P) Hd). rewrite (read_mono h h2 s Hv P) in IHes.
  destruct (entries_loop (flatten path) s es h2) as [l2 h3].
  eapply flattened_app; [|exact IHes]. destruct IHv as (P2 & V2 & E2). split_and!; done.
Qed.

Lemma flatten_flat path v : forall s h, own s -> valid h s -> (field_depth v + sl_len s <= 3)%nat ->
  flattened h (flatten path s v h) (flat path (read h s) v).
Proof.
  induction v as [v Hleaf|l _|m IH|m IH] using value_induction; intros s h Ho Hv Hd.
  - destruct v; try done; (split_and!; cbn; [done|by apply Forall_singleton|done]).
  - split_and!; cbn; [done|by apply Forall_singleton|done].
  - rewrite flatten_VMap, flat_VMap. cbn in Hd.
    assert (Hm : Forall (fun p => (field_depth p.2 <= 2 - sl_len s)%nat) m) by (apply fold_max_le; lia).
    apply entries_loop_flat; [|done..|]; apply Forall_forall; intros [k x] Hx;
      apply list_elem_of_omap in Hx as ([k0 x0] & Hin & E); destruct k0; simplify_eq/=.
    + intros s1 h1. by apply (proj1 (Forall_forall _ _) IH _ Hin).
    + pose proof (proj1 (Forall_forall _ _) Hm _ Hin) as Hx. cbn in Hx. lia.
  - rewrite flatten_VSMap. cbn [flat]. cbn in Hd.
    assert (Hm : Forall (fun p => (field_depth p.2 <= 2 - sl_len s)%nat) m) by (apply fold_max_le; lia).
    apply entries_loop_flat; [|done..|].
    + eapply Forall_impl; [exact IH|]. intros [k x] Hx. apply Hx.
    + eapply Forall_impl; [exact Hm|]. intros [k x]. cbn. lia.
Qed.

Lemma flatten_all_flat vs : forall h, Forall (fun p => (field_depth p.2 <= 3)%nat) vs ->
  flattened h (flatten_all vs h) (vs ≫= (fun p => flat p.1 [] p.2)).
Proof.
  induction vs as [|[k v] vs IH]; intros h Hd.
  { split_and!; cbn; [done|by constructor|done]. }
  apply Forall_cons in Hd as [Hv Hd]. cbn in Hv. cbn [flatten_all].
  pose proof (flatten_flat k v nil_slice h ltac:(by intros ?) ltac:(by left) ltac:(cbn; lia)) as Hf.
  destruct (flatten k nil_slice v h) as [l h1]. specialize (IH h1 Hd).
  destruct (flatten_all vs h1) as [l' h2]. eapply flattened_app; [|exact IH]. exact Hf.
Qed.

(** Maps have each key once. *)
Fixpoint keys_ok (v : value) : Prop :=
  match v with
  | VSMap m => NoDup (m.*1) /\ fold_right (fun p acc => keys_ok p.2 /\ acc) True m
  | VMap m => NoDup ((string_entries m).*1) /\ fold_right (fun p acc => keys_ok p.2 /\ acc) True m
  | _ => True
  end.

Lemma fold_and_Forall {A} (P : A -> Prop) l : fold_right (fun p acc => P p /\ acc) True l <-> Forall P l.
Proof. induction l as [|x l IH]; cbn; [split; [constructor|done]|]. rewrite Forall_cons. tauto. Qed.

Lemma alookup_in {A} (m : list (string * A)) k v : NoDup (m.*1) -> (k, v) ∈ m -> alookup m k = Some v.
Proof.
  induction m as [|[k' v'] m IH]; [set_solver|]. rewrite fmap_cons. intros [Hk Hnd]%NoDup_cons Hin. cbn in *.
  apply elem_of_cons in Hin as [[= -> ->]|Hin]; [by rewrite String.eqb_refl|].
  destruct (String.eqb k' k) eqn:E; [|by apply IH]. apply String.eqb_eq in E as ->.
  destruct Hk. by apply (list_elem_of_fmap_2 fst) in Hin.
Qed.

Lemma any_lookup_entries m k : any_lookup m k = alookup (string_entries m) k.
Proof. induction m as [|[k' v] m IH]; [done|]. destruct k'; cbn; try done. by rewrite IH. Qed.

(** Every pair of [flat] is found under its fields. *)
Lemma flat_Traverse path v name : forall fields p fs x,
  keys_ok v -> (p, fs, x) ∈ flat path fields v ->
  p = path /\ exists rest, fs = fields ++ rest /\ Traverse v name rest = Ret x.
Proof.
  assert (Hentries : forall (es : list (string * value)),
    Forall (fun q => forall fields p fs x, keys_ok q.2 -> (p, fs, x) ∈ flat path fields q.2 ->
      p = path /\ exists rest, fs = fields ++ rest /\ Traverse q.2 name rest = Ret x) es ->
    NoDup (es.*1) -> Forall (fun q => keys_ok q.2) es ->
    forall fields p fs x, (p, fs, x) ∈ es ≫= (fun q => flat path (fields ++ [q.1]) q.2) ->
    p = path /\ exists k rest v, fs = fields ++ k :: rest /\ alookup es k = Some v /\ Traverse v name rest = Ret x).
  { intros es IH Hnd Hok fields p fs x Hin. apply list_elem_of_bind in Hin as ([k v0] & Hin & Hq). cbn in Hin.
    destruct (proj1 (Forall_forall _ _) IH _ Hq _ _ _ _ (proj1 (Forall_forall _ _) Hok _ Hq) Hin)
      as (-> & rest & -> & Ht). split; [done|]. exists k, rest, v0. rewrite <- app_assoc.
    split_and!; [done| |done]. by apply alookup_in. }
  induction v as [v Hleaf|l _|m IH|m IH] using value_induction; intros fields p fs x Hok Hin.
  - assert (E : flat path fields v = [(path, fields, v)]) by (by destruct v). rewrite E in Hin.
    apply list_elem_of_singleton in Hin as [= -> -> ->]. split; [done|]. exists []. by rewrite app_nil_r.
  - apply list_elem_of_singleton in Hin as [= -> -> ->]. split; [done|]. exists []. by rewrite app_nil_r.
  - rewrite flat_VMap in Hin. destruct Hok as [Hnd Hok%fold_and_Forall].
    destruct (Hentries (string_entries m)) with fields p fs x as (-> & k & rest & v & -> & Hl & Ht); try done.
    + apply Forall_forall. intros [k v] Hq. apply list_elem_of_omap in Hq as ([k0 v0] & Hin0 & E).
      destruct k0; simplify_eq/=. by apply (proj1 (Forall_forall _ _) IH _ Hin0).
    + apply Forall_forall. intros [k v] Hq. apply list_elem_of_omap in Hq as ([k0 v0] & Hin0 & E).
      destruct k0; simplify_eq/=. exact (proj1 (Forall_forall _ _) Hok _ Hin0).
    + split; [done|]. exists (k :: rest). split; [done|]. cbn. by rewrite any_lookup_entries, Hl.
  - destruct Hok as [Hnd Hok%fold_and_Forall].
    destruct (Hentries m) with fields p fs x as (-> & k & rest & v & -> & Hl & Ht); try done.
    split; [done|]. exists (k :: rest). split; [done|]. cbn. by rewrite Hl.
Qed.

(** ** Interpolation *)

Fixpoint distinct_keys (m : list (value * value)) : bool :=
  match m with
  | [] => true
  | (k, _) :: m => negb (has_key k m) && distinct_keys m
  end.

(** A document without variables: no string in it contains one; the keys of
    its maps are keys. *)
Fixpoint literal (v : value) : bool :=
  match v with
  | VStr s => match extractVarNames s with [] => true | _ => false end
  | VList l => forallb literal l
  | VMap m => forallb (fun p => literal p.1 && literal p.2 && hashable p.1) m && distinct_keys m
  | _ => true
  end.

Lemma key_eqb_sym a b : key_eqb a b = key_eqb b a.
Proof. destruct a, b; cbn; try done; [by destruct b, b0|..]; apply String.eqb_sym. Qed.

Lemma has_key_app k m m' : has_key k (m ++ m') = has_key k m || has_key k m'.
Proof. apply existsb_app. Qed.

(** A loop whose visits change nothing leaves the map as it is. *)
Lemma interpolateMap_same f fuel todo seen t :
  again t = [] -> (length todo < fuel)%nat ->
  (forall k v, (k, v) ∈ todo -> f v t = Ret (v, t) /\ f k t = Ret (k, t) /\ hashable k = true) ->
  distinct_keys todo = true -> (forall k v, (k, v) ∈ todo -> has_key k seen = false) ->
  interpolateMap f fuel todo seen t = Ret (seen ++ todo, t).
Proof.
  intros Ha. revert fuel seen. induction todo as [|[k v] todo IH]; intros fuel seen Hf Hid Hd Hs;
    (destruct fuel as [|fuel]; [cbn in Hf; lia|]).
  { cbn. by rewrite app_nil_r. }
  cbn in Hd. go_bool. destruct (Hid k v) as (Hv & Hk & Hh); [by left|]. cbn.
  rewrite Hv. cbn. rewrite Hk. cbn. rewrite Hh. cbn. rewrite H, (Hs k v), Ha by (by left).
  rewrite IH; [by rewrite <- app_assoc|cbn in Hf; lia|intros; apply Hid; by right|done|].
  intros k' v' Hin. rewrite has_key_app, (Hs k' v') by (by right). cbn. rewrite orb_false_r.
  apply not_true_iff_false. intros Hkk. rewrite key_eqb_sym in Hkk.
  assert (Ht : has_key k todo = true); [|congruence]. apply existsb_exists. exists (k', v').
  split; [by apply list_elem_of_In|done].
Qed.

Lemma interpolateList_same f l t :
  Forall (fun v => f v t = Ret (v, t)) l -> interpolateList f l t = Ret (l, t).
Proof. induction 1 as [|v l Hv _ IH]; [done|]. cbn. rewrite Hv. cbn. by rewrite IH. Qed.

Lemma depth_list l n : (fold_right (fun x n => Nat.max (depth x) n) 0%nat l <= n)%nat <->
  Forall (fun x => (depth x <= n)%nat) l.
Proof. apply fold_max_le. Qed.

Lemma Interpolate_literal_aux v : forall fuel t, again t = [] -> literal v = true -> (depth v <= fuel)%nat ->
  Interpolate fuel v t = Ret (v, t).
Proof.
  induction v as [v Hleaf|l IH|m IH|m _] using value_induction; intros fuel t Ha Hl Hd;
    (destruct fuel as [|fuel]; [destruct v || idtac; cbn in Hd; lia|]).
  - destruct v; try done. cbn [literal] in Hl. destruct (extractVarNames s) eqn:E; [|done].
    cbn [Interpolate]. by rewrite E.
  - cbn in *. apply le_S_n, fold_max_le in Hd. rewrite interpolateList_same; [done|].
    apply Forall_forall. intros x Hx. rewrite forallb_forall in Hl.
    apply (proj1 (Forall_forall _ _) IH x Hx); [done|by apply Hl, list_elem_of_In|].
    exact (proj1 (Forall_forall _ _) Hd x Hx).
  - cbn in Hl, Hd. apply andb_true_iff in Hl as [Hl Hdist]. apply le_S_n in Hd.
    apply (fold_max_le (fun p => Nat.max (depth p.1) (depth p.2))) in Hd. rewrite forallb_forall in Hl.
    cbn [Interpolate]. rewrite interpolateMap_same; [done|done|lia| |done|done].
    intros k x Hin. destruct (proj1 (Forall_forall _ _) IH _ Hin) as [IHk IHx].
    pose proof (proj1 (Forall_forall _ _) Hd _ Hin) as Hdx.
    specialize (Hl (k, x) ltac:(by apply list_elem_of_In)). cbn in *. go_bool.
    split_and!; [apply IHx|apply IHk|]; done || lia.
  - done.
Qed.

(** *** Termination *)

Lemma findUnquoted_shorter q s c b a : findUnquoted q s c = Some (b, a) ->
  (String.length a < String.length s)%nat.
Proof.
  revert q b. induction s as [|x s IH]; intros q b; cbn -[Ascii.eqb]; [done|].
  destruct (Ascii.eqb x c && negb q); [intros [= _ <-]; lia|]. intros H.
  apply bind_Some in H as ([b' a'] & H & [= _ <-]). apply IH in H. lia.
Qed.

Lemma readSegments_returns fuel name input : (String.length input < fuel)%nat ->
  returns (readSegments fuel name input).
Proof.
  revert input. induction fuel as [|fuel IH]; intros input Hf; [lia|]. cbn [readSegments].
  unfold readPathSegment. destruct (findUnquoted false input ".") as [[b a]|] eqn:E.
  - case_match; [done|]. apply returns_bind; [|done]. apply IH.
    apply findUnquoted_shorter in E. lia.
  - by case_match.
Qed.

Lemma ParseReference_returns name : returns (ParseReference name).
Proof.
  unfold ParseReference. apply returns_bind.
  { repeat case_match; done. }
  intros [source input] _. apply returns_bind; [apply readSegments_returns; lia|].
  intros fields _. by destruct fields.
Qed.

(** What a lookup keeps of the tracker. *)
Definition same_source (t t' : varsTracker) : Prop :=
  vars t' = vars t /\ again t' = again t /\ expectAllUsed t' = expectAllUsed t.

(** [settles m]: the computation returns and keeps the source of variables. *)
Definition settles {A} (t : varsTracker) (m : outcome var_error (A * varsTracker)) : Prop :=
  returns m /\ forall a t', m = Ret (a, t') -> same_source t t'.

Lemma settles_bind {A B} t (m : outcome var_error (A * varsTracker)) (f : A * varsTracker -> _) :
  settles t m -> (forall a t', same_source t t' -> settles t' (f (a, t'))) ->
  settles (A := B) t (m ≫= f).
Proof.
  intros [Hr Hs] Hf. destruct m as [[a t']|e| |]; try done.
  destruct (Hf a t' (Hs a t' eq_refl)) as [Hr' Hs']. split; [exact Hr'|]. intros b t'' E.
  specialize (Hs' b t'' E). specialize (Hs a t' eq_refl). unfold same_source in *. naive_solver congruence.
Qed.

Lemma settles_ret {A} t (a : A) : settles t (Ret (a, t)).
Proof. split; [done|]. by intros ? ? [= <- <-]. Qed.

Section Returns.
Context (source : Variables) (Hget : forall r, returns (Get source r)).

Lemma tracker_Get_settles name t : vars t = source -> settles t (tracker_Get name t).
Proof.
  intros Hv. unfold tracker_Get. pose proof (ParseReference_returns name) as Hp.
  destruct (ParseReference name) as [ref|e| |]; try done. cbn. rewrite Hv.
  pose proof (Hget ref) as Hg. destruct (Get source ref) as [[v|]|e| |]; try done;
    (split; [done|]); by intros ? ? [= <- <-].
Qed.

Lemma interpolateString_settles names s t : vars t = source -> settles t (interpolateString names s t).
Proof.
  revert s t. induction names as [|name names IH]; intros s t Hv; [apply settles_ret|].
  cbn [interpolateString]. apply settles_bind; [by apply tracker_Get_settles|].
  intros found t' (Hv' & _). assert (Hs : vars t' = source) by congruence.
  destruct found as [v|]; [|by apply IH]. case_match; [apply settles_ret|].
  destruct (primitive_text v); [by apply IH|done].
Qed.

Lemma interpolateList_settles f l t : vars t = source -> again t = [] ->
  Forall (fun v => forall t, vars t = source -> again t = [] -> settles t (f v t)) l ->
  settles t (interpolateList f l t).
Proof.
  intros Hv Ha Hl. revert t Hv Ha. induction Hl as [|v l Hf _ IH]; intros t Hv Ha; [apply settles_ret|].
  cbn. apply settles_bind; [by apply Hf|]. intros x t' (Hv' & Ha' & _).
  apply settles_bind; [apply IH; congruence|]. intros y t'' _. apply settles_ret.
Qed.

(** The loop over a map whose keys are literal. *)
Lemma interpolateMap_settles f fuel todo seen t : vars t = source -> again t = [] ->
  (length todo < fuel)%nat ->
  (forall k v, (k, v) ∈ todo -> (forall t, vars t = source -> again t = [] -> settles t (f v t)) /\
     (forall t, again t = [] -> f k t = Ret (k, t)) /\ hashable k = true) ->
  distinct_keys todo = true ->
  settles t (interpolateMap f fuel todo seen t).
Proof.
  revert fuel seen t. induction todo as [|[k v] todo IH]; intros fuel seen t Hv Ha Hfuel Hid Hd;
    (destruct fuel as [|fuel]; [cbn in Hfuel; lia|]); [apply settles_ret|].
  cbn in Hd. apply andb_true_iff in Hd as [Hk Hd]. apply negb_true_iff in Hk.
  destruct (Hid k v) as (Hfv & Hfk & Hh); [by left|]. cbn [interpolateMap].
  apply settles_bind; [by apply Hfv|]. intros v' t' (Hv' & Ha' & _).
  assert (E1 : vars t' = source) by congruence. assert (E2 : again t' = []) by congruence.
  rewrite Hfk by done. cbn. rewrite Hh, Hk. cbn. cbn in Hfuel. rewrite E2.
  destruct (has_key k seen); (apply IH; [done|done|lia|intros; apply Hid; by right|done]).
Qed.
End Returns.

(** A document whose keys are literal: its maps may contain variables in
    values only. *)
Fixpoint literal_keys (v : value) : bool :=
  match v with
  | VList l => forallb literal_keys l
  | VMap m => forallb (fun p => literal p.1 && literal_keys p.2 && hashable p.1) m && distinct_keys m
  | _ => true
  end.

Lemma Interpolate_settles source v : (forall r, returns (Get source r)) ->
  forall fuel t, vars t = source -> again t = [] -> literal_keys v = true -> (depth v <= fuel)%nat ->
  settles t (Interpolate fuel v t).
Proof.
  intros Hget. induction v as [v Hleaf|l IH|m IH|m _] using value_induction; intros fuel t Hv Ha Hl Hd;
    (destruct fuel as [|fuel]; [destruct v || idtac; cbn in Hd; lia|]).
  - destruct v; try done; try apply settles_ret. by apply (interpolateString_settles source).
  - cbn in *. apply le_S_n, fold_max_le in Hd. rewrite forallb_forall in Hl.
    apply settles_bind; [|intros; apply settles_ret].
    apply (interpolateList_settles source); [done..|]. apply Forall_forall. intros x Hx t' Hv' Ha'.
    apply (proj1 (Forall_forall _ _) IH x Hx); [done..|by apply Hl, list_elem_of_In|].
    exact (proj1 (Forall_forall _ _) Hd x Hx).
  - cbn in Hl, Hd. apply andb_true_iff in Hl as [Hl Hdist]. apply le_S_n in Hd.
    apply (fold_max_le (fun p => Nat.max (depth p.1) (depth p.2))) in Hd. rewrite forallb_forall in Hl.
    cbn [Interpolate]. apply settles_bind; [|intros; apply settles_ret].
    apply (interpolateMap_settles source); [done|done|lia| |done].
    intros k x Hin. destruct (proj1 (Forall_forall _ _) IH _ Hin) as [_ IHx].
    pose proof (proj1 (Forall_forall _ _) Hd _ Hin) as Hdx.
    specialize (Hl (k, x) ltac:(by apply list_elem_of_In)). cbn in IHx, Hdx, Hl. go_bool. split_and!; [| |done].
    + intros t' Hv' Ha'. apply IHx; [done..|lia].
    + intros t' Ha'. apply Interpolate_literal_aux; [done..|lia].
  - apply settles_ret.
Qed.

(** ** Claims *)

(** C39: Printing a reference and parsing it back gives the reference, for sources
    without quotes and colons and for non-empty segments of printable
    characters other than quotes and backslashes, however many dots, colons
    or spaces the segments contain. *)
Theorem ParseReference_String r : ref_ok r = true -> ParseReference (Reference_String r) = Ret r.
Proof.
  destruct r as [source path fields]. unfold ref_ok. cbn [Source Path Fields]. intros H. go_bool.
  unfold ParseReference, Reference_String. cbn [Source Path Fields].
  assert (Hread : forall name, readSegments (S (String.length (refSegmentString path +:+ fieldsString fields)))
      name (refSegmentString path +:+ fieldsString fields) = Ret (path :: fields)).
  { intros name. apply readSegments_spec; [done..|]. rewrite string_length_app.
    pose proof (fieldsString_length fields). lia. }
  assert (Hp : all_chars plain path = true) by (unfold segment_ok in H1; by go_bool).
  destruct (String.eqb source "") eqn:Hs.
  - apply String.eqb_eq in Hs as ->. cbn -[readSegments].
    rewrite find_segment, find_fields_none by done. cbn -[readSegments]. by rewrite Hread.
  - cbn -[readSegments]. rewrite string_app_assoc, find_skip.
    + cbn -[readSegments]. rewrite string_app_nil.
      assert (Hq : contains_char quote source = false).
      { revert H. unfold source_ok. clear. induction source as [|c s IH]; [done|]. cbn -[Ascii.eqb].
        intros H. go_bool. by rewrite H, IH. }
      rewrite Hq. cbn -[readSegments]. by rewrite Hread.
    + revert H. unfold source_ok. clear. induction source as [|c s IH]; [done|]. cbn -[Ascii.eqb].
      intros H. go_bool. by rewrite IH, H, H1.
Qed.

(** Expanding a list of references and values stores each value where its
    reference says: the last pair is found under its reference, and an
    earlier value whose path parts from the last one's is still found. *)
Theorem Expand_Get ps p r v :
  Source (Ref p) = "" -> Source r = "" ->
  parts (Path (Ref p) :: Fields (Ref p)) (Path r :: Fields r) ->
  lookup_path (Expand ps) (Path r) (Fields r) = Some v ->
  static_Get (Expand (ps ++ [p])) (Ref p) = Ret (Some (Value p)) /\
  static_Get (Expand (ps ++ [p])) r = Ret (Some v).
Proof.
  intros Hs Hr Hp Hl. unfold Expand in *. rewrite foldl_app. cbn.
  set (out := foldl _ [] ps) in *. unfold static_Get. rewrite Hs, Hr. cbn. split.
  - destruct (upsert_found out (Path (Ref p)) (Fields (Ref p)) (Value p) (Reference_String (Ref p)))
      as (x & -> & Ht). cbn. by rewrite Ht.
  - rewrite <- (upsert_other out (Path (Ref p)) (Fields (Ref p)) (Value p)) in Hl by (done || by rewrite Hl).
    destruct (lookup_path_Traverse _ _ _ _ (Reference_String r) Hl) as (x & -> & Ht). cbn. by rewrite Ht.
Qed.

(** Up to three fields deep, [Flatten] is faithful: every reference it returns
    leads back to the value it is paired with. *)
Theorem Flatten_sound vs p :
  Forall (fun q => (field_depth q.2 <= 3)%nat /\ keys_ok q.2) vs -> NoDup (vs.*1) ->
  p ∈ Flatten vs -> static_Get vs (Ref p) = Ret (Some (Value p)).
Proof.
  intros Hvs Hnd. unfold Flatten.
  destruct (flatten_all_flat vs []) as (_ & _ & E).
  { eapply Forall_impl; [exact Hvs|]. by intros ? []. }
  destruct (flatten_all vs []) as [l h]. cbn [fst snd] in E. intros Hin.
  apply list_elem_of_fmap in Hin as ([[path sl] x] & -> & Hin).
  assert (Hp : (path, read h sl, x) ∈ pairs_in h l) by (apply list_elem_of_fmap; by exists (path, sl, x)).
  clear Hin. rewrite E in Hp. apply list_elem_of_bind in Hp as ([k v] & Hin & Hq). cbn in Hin.
  destruct (proj1 (Forall_forall _ _) Hvs _ Hq) as [_ Hok]. cbn in Hok. unfold static_Get.
  cbn [Ref Source Path Fields Value]. rewrite String.eqb_refl. cbn [negb].
  match goal with |- context [Reference_String ?r] => generalize (Reference_String r) end. intros name.
  destruct (flat_Traverse k v name _ _ _ _ Hok Hin) as (-> & rest & E' & Ht).
  rewrite E'. rewrite (alookup_in _ _ _ Hnd Hq). cbn. by rewrite Ht.
Qed.

(** Four fields deep, the references of siblings share an array: [Flatten] pairs
    both values of the map below with the reference of the last one, so the
    first value is lost. *)
Theorem Flatten_alias :
  let vs := [("a", VSMap [("b", VSMap [("c", VSMap [("d", VSMap [("x", VStr "1"); ("y", VStr "2")])])])])] in
  (fun p => (Fields (Ref p), Value p)) <$> Flatten vs =
    [(["b"; "c"; "d"; "y"], VStr "1"); (["b"; "c"; "d"; "y"], VStr "2")].
Proof. reflexivity. Qed.

(** Interpolation leaves a document without variables as it is, whatever its
    nesting, and looks nothing up. *)
Theorem Interpolate_literal vars opts v fuel :
  literal v = true -> (depth v <= fuel)%nat -> ExpectAllVarsUsed opts = false ->
  Evaluate fuel v vars opts [] = Ret v.
Proof.
  intros Hl Hd Hu. unfold Evaluate, interpolateRoot. rewrite Interpolate_literal_aux by done. cbn.
  unfold tracker_Error, ExtraError, MissingError. cbn. rewrite Hu. cbn. by rewrite orb_true_r.
Qed.

(** The loop over a map deletes and inserts entries of the map it ranges over,
    and Go may visit an inserted entry: the same document and variables
    evaluate to different results, and a value that looks like a variable
    is interpolated a second time. *)
Theorem Interpolate_twice :
  let doc := VMap [(VStr "key", VStr "((a))")] in
  let vars := static [("a", VStr "((b))"); ("b", VStr "secret")] in
  let opts := {| ExpectAllKeys := false; ExpectAllVarsUsed := false |} in
  Evaluate 3 doc vars opts [] = Ret (VMap [(VStr "key", VStr "((b))")]) /\
  Evaluate 3 doc vars opts [true] = Ret (VMap [(VStr "key", VStr "secret")]).
Proof. split; vm_compute; reflexivity. Qed.

(** A key of a map that is a variable whose value is a list or a map panics:
    such a value cannot be a key. *)
Theorem Interpolate_key_panics l :
  Evaluate 3 (VMap [(VStr "((a))", VStr "x")]) (static [("a", VList l)])
    {| ExpectAllKeys := true; ExpectAllVarsUsed := false |} [] = Panic.
Proof. reflexivity. Qed.

(** Evaluation terminates, with a document or an error, within the nesting of
    the document, on documents whose keys are literal and any source of
    variables that itself returns. *)
Theorem Evaluate_returns source opts v fuel :
  (forall r, returns (Get source r)) -> returns (List source) ->
  literal_keys v = true -> (depth v <= fuel)%nat ->
  returns (Evaluate fuel v source opts []).
Proof.
  intros Hget Hlist Hl Hd. unfold Evaluate, interpolateRoot.
  destruct (Interpolate_settles source v Hget fuel (newVarsTracker source (ExpectAllKeys opts)
    (ExpectAllVarsUsed opts) [])) as [Hr Hs]; [done..|].
  destruct (Interpolate _ _ _) as [[obj t]|e| |]; try done. cbn.
  destruct (Hs obj t eq_refl) as (Hv & _ & _). apply returns_bind; [|done].
  unfold tracker_Error. apply returns_bind; [|intros extra _; by destruct (MissingError t), extra].
  unfold ExtraError. case_match; [done|]. rewrite Hv. cbn. destruct (List source); try done.
  by case_match.
Qed.

(** ** Examples *)

Lemma ParseReference_String_witness :
  ParseReference (Reference_String {| Source := "vault"; Path := "a.b"; Fields := ["c d"; "e"] |}) =
    Ret {| Source := "vault"; Path := "a.b"; Fields := ["c d"; "e"] |}.
Proof. apply ParseReference_String. reflexivity. Defined.

(** A quote inside a segment is printed as it is, and lost when it is read back. *)
Example quoted_path_lost :
  let path := String "a" (String quote "b") in
  ParseReference (Reference_String {| Source := ""; Path := path; Fields := [] |}) <>
    Ret {| Source := ""; Path := path; Fields := [] |}.
Proof. vm_compute. discriminate. Qed.

Definition example_pairs : list KVPair :=
  [{| Ref := {| Source := ""; Path := "a"; Fields := ["b"; "c"] |}; Value := VStr "1" |}].

Lemma Expand_Get_witness :
  static_Get (Expand (example_pairs ++
    [{| Ref := {| Source := ""; Path := "a"; Fields := ["b"; "d"] |}; Value := VInt "2" |}]))
    {| Source := ""; Path := "a"; Fields := ["b"; "c"] |} = Ret (Some (VStr "1")).
Proof.
  apply (Expand_Get example_pairs
    {| Ref := {| Source := ""; Path := "a"; Fields := ["b"; "d"] |}; Value := VInt "2" |}
    {| Source := ""; Path := "a"; Fields := ["b"; "c"] |} (VStr "1")); try reflexivity.
  apply parts_later, parts_later, parts_here. done.
Defined.

Lemma Flatten_sound_witness :
  let vs := [("a", VSMap [("b", VMap [(VStr "c", VSMap [("x", VStr "1"); ("y", VStr "2")])])])] in
  static_Get vs {| Source := ""; Path := "a"; Fields := ["b"; "c"; "x"] |} = Ret (Some (VStr "1")).
Proof.
  intros vs. apply (Flatten_sound vs
    {| Ref := {| Source := ""; Path := "a"; Fields := ["b"; "c"; "x"] |}; Value := VStr "1" |}).
  - apply Forall_singleton. split; [cbn; lia|].
    cbn. split_and!; try done; repeat (apply NoDup_cons; split; [set_solver|]); apply NoDup_nil_2.
  - apply NoDup_singleton.
  - unfold vs. cbn. left.
Defined.

Definition example_doc (text : string) : value :=
  VMap [(VStr "jobs", VList [VMap [(VStr "name", VStr text); (VStr "serial", VBool true)]])].

Definition no_opts : EvaluateOpts := {| ExpectAllKeys := true; ExpectAllVarsUsed := false |}.

Lemma Interpolate_literal_witness :
  Evaluate 4 (example_doc "unit") (static []) no_opts [] = Ret (example_doc "unit").
Proof. apply Interpolate_literal; [reflexivity|cbn; lia|reflexivity]. Defined.

Lemma Evaluate_returns_witness :
  returns (Evaluate 4 (example_doc "((name))") (static [("name", VStr "unit")]) no_opts []).
Proof.
  apply Evaluate_returns; [|exact I|reflexivity|cbn; lia].
  intros r. cbn. unfold static_Get. repeat (case_match; cbn; try done).
  revert v H0. intros v _. generalize (Reference_String r). intros name.
  revert v. induction (Fields r) as [|f fs IH]; intros v; [exact I|]. cbn.
  destruct v; try exact I; (case_match; [apply IH|exact I]).
Defined.
