(* ===== verification/Repository.v ===== *)
(** * The artifact repository of a build

    [atc/exec/build/repository.go]: the map from artifact names to artifacts
    that the steps of a build share, its local scopes and their single-use
    commit to the parent scope, and the snapshot references of
    [agent/snapshot/types.go] it validates.

    Repositories are shared by pointer, so they live in a [Heap] and are named
    by their address; [parent] is a pointer.  Every region the code runs under
    a repository's mutex is one atomic operation here.  [CommitToParent] has
    three such regions, and other goroutines run between them: they are
    [commit_begin], [commitSnapshot] and [commit_end], and [act] is the machine
    that interleaves them with the operations of other goroutines.

    The code hands out and stores deep copies of the [Snapshot] pointers, so an
    entry is a value. *)
From stdpp Require Import base gmap sets list strings sorting.
From Stdlib Require Import ZArith Lia Ascii.
From S2P Require Import Prelude.

Open Scope Z_scope.

(** ** Snapshot references ([agent/snapshot/types.go]) *)

Definition in_range (lo hi c : Ascii.ascii) : bool :=
  (Ascii.N_of_ascii lo <=? Ascii.N_of_ascii c)%N && (Ascii.N_of_ascii c <=? Ascii.N_of_ascii hi)%N.

(** [typeRefPattern] as an automaton: segments of lower-case letters, digits
    and dashes that start with a letter, separated by dots, then a slash, a v
    and a decimal number without a leading zero. *)
Inductive type_ref_state := SegmentStart | Segment | VersionV | VersionFirst | VersionRest.

Definition is_lower := in_range "a"%char "z"%char.
Definition is_digit := in_range "0"%char "9"%char.

Definition type_ref_next (s : type_ref_state) (c : Ascii.ascii) : option type_ref_state :=
  match s with
  | SegmentStart => if is_lower c then Some Segment else None
  | Segment =>
      if is_lower c || is_digit c || Ascii.eqb c "-"%char then Some Segment
      else if Ascii.eqb c "."%char then Some SegmentStart
      else if Ascii.eqb c "/"%char then Some VersionV
      else None
  | VersionV => if Ascii.eqb c "v"%char then Some VersionFirst else None
  | VersionFirst => if in_range "1"%char "9"%char c then Some VersionRest else None
  | VersionRest => if is_digit c then Some VersionRest else None
  end.

Fixpoint type_ref_matches (s : type_ref_state) (raw : string) : bool :=
  match raw with
  | EmptyString => match s with VersionRest => true | _ => false end
  | String c rest =>
      match type_ref_next s c with
      | Some s' => type_ref_matches s' rest
      | None => false
      end
  end.

Inductive snapshot_error :=
| IDNotPositive
| InvalidTypeReference (raw : string)
| InvalidDigest.

Definition SnapshotID_Validate (id : Z) : outcome snapshot_error unit :=
  if id <=? 0 then Fail IDNotPositive else Ret ().

Definition TypeRef_Validate (r : string) : outcome snapshot_error unit :=
  if type_ref_matches SegmentStart r then Ret () else Fail (InvalidTypeReference r).

Fixpoint all_chars (p : Ascii.ascii -> bool) (s : string) : bool :=
  match s with
  | EmptyString => true
  | String c rest => p c && all_chars p rest
  end.

Definition Digest_Validate (raw : string) : outcome snapshot_error unit :=
  if negb (String.length raw =? 7 + 64)%nat || negb (String.prefix "sha256:" raw) then
    Fail InvalidDigest
  else if all_chars (fun c => is_digit c || in_range "a"%char "f"%char c) (String.substring 7 64 raw) then
    Ret ()
  else Fail InvalidDigest.

Record SnapshotRef := { sr_ID : Z; sr_Type : string; sr_Digest : string }.

Definition SnapshotRef_Validate (r : SnapshotRef) : outcome snapshot_error unit :=
  _ ← SnapshotID_Validate (sr_ID r);
  _ ← TypeRef_Validate (sr_Type r);
  Digest_Validate (sr_Digest r).

(** ** The repository *)

Inductive repo_error :=
| ErrArtifactAlreadyRegistered (name : string)
| ErrArtifactCommitConflict (name : string)
| ErrArtifactScopeCommitted
| ErrArtifactScopeClosed
| ErrArtifactScopeHasNoParent
| ErrSnapshot (name : string) (e : snapshot_error).

Inductive commitState :=
| commitStateOpen
| commitStateAttempting
| commitStateCommitted
| commitStateFailed.
#[global] Instance commitState_eq_dec : EqDecision commitState.
Proof. solve_decision. Defined.

Abbreviation addr := nat.

(** [nextRevisions[name]++] on a [uint64]. *)
Definition two64 : Z := 2 ^ 64.
Definition revision (name : string) (revs : gmap string Z) : Z := default 0 (revs !! name).
Definition bump (name : string) (revs : gmap string Z) : gmap string Z :=
  <[name := (revision name revs + 1) mod two64]> revs.
Definition bump_all (names : gset string) (revs : gmap string Z) : gmap string Z :=
  set_fold bump revs names.

(** [sortedNames] and [sortedEntryNames]. *)
Definition sortedNames (names : gset string) : list string :=
  merge_sort String.le (elements names).

Section Repository.
Context {Artifact : Type}.

Record ArtifactEntry := {
  ae_Artifact : Artifact;
  ae_FromCache : bool;
  ae_Snapshot : option SnapshotRef }.

Record Repository := {
  entries : gmap string ArtifactEntry;
  imageRefs : gmap string string;
  revisions : gmap string Z;
  parent : option addr;
  baseRevisions : gmap string Z;
  dirtyEntries : gset string;
  dirtyImages : gset string;
  commit_state : commitState }.

#[local] Abbreviation Heap := (gmap addr Repository).
Definition repoM := stateful Heap repo_error.

(** Reading and writing the repository a pointer leads to. *)
Definition load (repo : addr) : repoM Repository := fun h => (deref (h !! repo), h).
Definition store (repo : addr) (r : Repository) : repoM unit := fun h => (Ret (), <[repo := r]> h).

Definition alloc (r : Repository) : repoM addr :=
  fun h => let a := fresh (dom h) in (Ret a, <[a := r]> h).

(** [NewRepository]. *)
Definition empty_repository : Repository :=
  {| entries := ∅; imageRefs := ∅; revisions := ∅; parent := None; baseRevisions := ∅;
     dirtyEntries := ∅; dirtyImages := ∅; commit_state := commitStateOpen |}.
Definition NewRepository : repoM addr := alloc empty_repository.

Definition set_commit_state (s : commitState) (r : Repository) : Repository :=
  {| entries := entries r; imageRefs := imageRefs r; revisions := revisions r;
     parent := parent r; baseRevisions := baseRevisions r; dirtyEntries := dirtyEntries r;
     dirtyImages := dirtyImages r; commit_state := s |}.

Definition ensureWritable (r : Repository) : outcome repo_error unit :=
  match commit_state r with
  | commitStateCommitted => Fail ErrArtifactScopeCommitted
  | commitStateAttempting | commitStateFailed => Fail ErrArtifactScopeClosed
  | commitStateOpen => Ret ()
  end.

(** A computation that touches no repository. *)
Definition lift {A} (o : outcome repo_error A) : repoM A := fun h => (o, h).

(** [prepareEntries]: the snapshots are validated in the order of the names. *)
Fixpoint validate_entries (es : gmap string ArtifactEntry) (ns : list string)
    : outcome repo_error unit :=
  match ns with
  | [] => Ret ()
  | name :: ns =>
      _ ← match es !! name ≫= ae_Snapshot with
          | Some ref =>
              match SnapshotRef_Validate ref with
              | Fail e => Fail (ErrSnapshot name e)
              | _ => Ret ()
              end
          | None => Ret ()
          end;
      validate_entries es ns
  end.

Definition prepareEntries (es : gmap string ArtifactEntry)
    : outcome repo_error (gmap string ArtifactEntry) :=
  _ ← validate_entries es (sortedNames (dom es));
  Ret es.

Definition has_parent (r : Repository) : bool :=
  match parent r with Some _ => true | None => false end.

(** The entries, revisions and dirty names after a batch is published. *)
Definition with_entries (prepared : gmap string ArtifactEntry) (r : Repository) : Repository :=
  {| entries := prepared ∪ entries r;
     imageRefs := imageRefs r;
     revisions := bump_all (dom prepared) (revisions r);
     parent := parent r;
     baseRevisions := baseRevisions r;
     dirtyEntries := if has_parent r then dirtyEntries r ∪ dom prepared else dirtyEntries r;
     dirtyImages := dirtyImages r;
     commit_state := commit_state r |}.

Definition first_dirty (dirty : gset string) (ns : list string) : option string :=
  head (filter (fun n => n ∈ dirty) ns).

Definition RegisterArtifacts (repo : addr) (es : gmap string ArtifactEntry) : repoM unit :=
  prepared ← lift (prepareEntries es);
  r ← load repo;
  _ ← lift (ensureWritable r);
  _ ← lift (if has_parent r then
              match first_dirty (dirtyEntries r) (sortedNames (dom prepared)) with
              | Some name => Fail (ErrArtifactAlreadyRegistered name)
              | None => Ret ()
              end
            else Ret ());
  if bool_decide (prepared = ∅) then mret ()
  else store repo (with_entries prepared r).

(** [RegisterArtifact] ignores the error. *)
Definition RegisterArtifact (repo : addr) (name : string) (a : Artifact) (fromCache : bool)
    : repoM unit :=
  fun h =>
    match RegisterArtifacts repo
            {[name := {| ae_Artifact := a; ae_FromCache := fromCache; ae_Snapshot := None |}]} h with
    | (Fail _, h') => (Ret (), h')
    | res => res
    end.

Definition with_image (name imageURL : string) (r : Repository) : Repository :=
  {| entries := entries r;
     imageRefs := <[name := imageURL]> (imageRefs r);
     revisions := bump name (revisions r);
     parent := parent r;
     baseRevisions := baseRevisions r;
     dirtyEntries := dirtyEntries r;
     dirtyImages := if has_parent r then {[name]} ∪ dirtyImages r else dirtyImages r;
     commit_state := commit_state r |}.

Definition RegisterImageRef (repo : addr) (name imageURL : string) : repoM unit :=
  r ← load repo;
  match ensureWritable r with
  | Ret _ =>
      if has_parent r && bool_decide (name ∈ dirtyImages r) then mret ()
      else store repo (with_image name imageURL r)
  | _ => mret ()
  end.

Definition ImageRefFor (repo : addr) (name : string) : repoM (option string) :=
  r ← load repo; mret (imageRefs r !! name).

Definition ArtifactEntryFor (repo : addr) (name : string) : repoM (option ArtifactEntry) :=
  r ← load repo; mret (entries r !! name).

Definition ArtifactFor (repo : addr) (name : string) : repoM (option (Artifact * bool)) :=
  entry ← ArtifactEntryFor repo name;
  mret ((fun e => (ae_Artifact e, ae_FromCache e)) <$> entry).

Definition SnapshotFor (repo : addr) (name : string) : repoM (option SnapshotRef) :=
  entry ← ArtifactEntryFor repo name;
  mret (entry ≫= ae_Snapshot).

Definition AsMap (repo : addr) : repoM (gmap string ArtifactEntry) :=
  r ← load repo; mret (entries r).

(** A scope captures the generation of its parent. *)
Definition local_scope (repo : addr) (r : Repository) : Repository :=
  {| entries := entries r;
     imageRefs := imageRefs r;
     revisions := revisions r;
     parent := Some repo;
     baseRevisions := revisions r;
     dirtyEntries := ∅;
     dirtyImages := ∅;
     commit_state := commitStateOpen |}.

Definition Repository_NewLocalScope (repo : addr) : repoM addr :=
  r ← load repo; alloc (local_scope repo r).

(** ** The commit of a scope *)

(** What [CommitToParent] copied under the scope's lock. *)
Record Commit := {
  c_parent : addr;
  c_baseRevisions : gmap string Z;
  c_dirtyEntries : gset string;
  c_dirtyImages : gset string;
  c_entries : gmap string ArtifactEntry;
  c_imageRefs : gmap string string }.

Definition commit_begin (repo : addr) : repoM Commit :=
  r ← load repo;
  match parent r with
  | None => fail ErrArtifactScopeHasNoParent
  | Some p =>
      match commit_state r with
      | commitStateCommitted => fail ErrArtifactScopeCommitted
      | commitStateAttempting | commitStateFailed => fail ErrArtifactScopeClosed
      | commitStateOpen =>
          _ ← store repo (set_commit_state commitStateAttempting r);
          mret {| c_parent := p; c_baseRevisions := baseRevisions r;
                  c_dirtyEntries := dirtyEntries r; c_dirtyImages := dirtyImages r;
                  c_entries := entries r; c_imageRefs := imageRefs r |}
      end
  end.

Definition dirtyNames (c : Commit) : gset string := c_dirtyEntries c ∪ c_dirtyImages c.

Definition first_conflict (c : Commit) (r : Repository) : option string :=
  head (filter (fun n => revision n (revisions r) <> revision n (c_baseRevisions c))
               (sortedNames (dirtyNames c))).

(** The parent after the dirty names of the scope are copied to it.  A dirty
    name always has an entry (the invariant [wf_repo] of [RepositorySpec]). *)
Definition with_commit (c : Commit) (r : Repository) : Repository :=
  {| entries := filter (fun '(n, _) => n ∈ c_dirtyEntries c) (c_entries c) ∪ entries r;
     imageRefs := filter (fun '(n, _) => n ∈ c_dirtyImages c) (c_imageRefs c) ∪ imageRefs r;
     revisions := bump_all (dirtyNames c) (revisions r);
     parent := parent r;
     baseRevisions := baseRevisions r;
     dirtyEntries := if has_parent r then dirtyEntries r ∪ c_dirtyEntries c else dirtyEntries r;
     dirtyImages := if has_parent r then dirtyImages r ∪ c_dirtyImages c else dirtyImages r;
     commit_state := commit_state r |}.

Definition commitSnapshot (c : Commit) : repoM unit :=
  r ← load (c_parent c);
  _ ← lift (ensureWritable r);
  match first_conflict c r with
  | Some name => fail (ErrArtifactCommitConflict name)
  | None => store (c_parent c) (with_commit c r)
  end.

Definition commit_end (repo : addr) (commitErr : outcome repo_error unit) : repoM unit :=
  r ← load repo;
  store repo (set_commit_state
                match commitErr with
                | Ret _ => commitStateCommitted
                | _ => commitStateFailed
                end r).

(** The error of [m] as a value. *)
Definition result {A} (m : repoM A) : repoM (outcome repo_error A) :=
  fun h => let (o, h') := m h in (Ret o, h').

Definition CommitToParent (repo : addr) : repoM unit :=
  c ← commit_begin repo;
  commitErr ← result (commitSnapshot c);
  _ ← commit_end repo commitErr;
  lift commitErr.

(** ** Interleavings

    [inflight] has, for every scope whose [CommitToParent] is running, where it
    is: between the first and the second region, or between the second and the
    third. *)
Inductive commit_pc :=
| Snapshotted (c : Commit)
| Published (r : outcome repo_error unit).

Record Machine := { heap : Heap; inflight : gmap addr commit_pc }.

Inductive action :=
| ARegisterArtifacts (repo : addr) (es : gmap string ArtifactEntry)
| ARegisterImageRef (repo : addr) (name imageURL : string)
| ANewLocalScope (repo : addr)
| ACommitBegin (repo : addr)
| ACommitPublish (repo : addr)
| ACommitEnd (repo : addr).

(** One atomic region; [None] when no goroutine is at it. *)
Definition act (a : action) (m : Machine) : option Machine :=
  let on_heap {A} (op : repoM A) := Some {| heap := (op (heap m)).2; inflight := inflight m |} in
  match a with
  | ARegisterArtifacts repo es => on_heap (RegisterArtifacts repo es)
  | ARegisterImageRef repo name imageURL => on_heap (RegisterImageRef repo name imageURL)
  | ANewLocalScope repo => on_heap (Repository_NewLocalScope repo)
  | ACommitBegin repo =>
      match commit_begin repo (heap m) with
      | (Ret c, h) => Some {| heap := h; inflight := <[repo := Snapshotted c]> (inflight m) |}
      | (_, h) => Some {| heap := h; inflight := inflight m |}
      end
  | ACommitPublish repo =>
      match inflight m !! repo with
      | Some (Snapshotted c) =>
          let '(r, h) := commitSnapshot c (heap m) in
          Some {| heap := h; inflight := <[repo := Published r]> (inflight m) |}
      | _ => None
      end
  | ACommitEnd repo =>
      match inflight m !! repo with
      | Some (Published r) =>
          Some {| heap := (commit_end repo r (heap m)).2; inflight := delete repo (inflight m) |}
      | _ => None
      end
  end.

Fixpoint acts (l : list action) (m : Machine) : option Machine :=
  match l with
  | [] => Some m
  | a :: l => m' ← act a m; acts l m'
  end.

End Repository.

Arguments ArtifactEntry : clear implicits.
Arguments Repository : clear implicits.
Abbreviation Heap A := (gmap addr (Repository A)).
Arguments Commit : clear implicits.
Arguments Machine : clear implicits.
Arguments action : clear implicits.
