(* ===== verification/RepositorySpec.v ===== *)
(** * Properties of the artifact repository

    Optimistic concurrency of the scopes: a scope sees the generation it was
    taken from and its own writes only, and its commit publishes all of its
    writes or none, and publishes only when nobody else wrote the same names
    since the scope was taken. *)
From stdpp Require Import base gmap sets list strings sorting.
From Stdlib Require Import ZArith Lia.
From S2P Require Import Prelude Repository.

Open Scope Z_scope.

(** ** Revisions *)

Lemma revision_bump n k revs :
  revision n (bump k revs) = if decide (n = k) then (revision n revs + 1) mod two64 else revision n revs.
Proof.
  unfold revision, bump. case_decide; subst; [by rewrite lookup_insert_eq|by rewrite lookup_insert_ne].
Qed.

Lemma revision_bump_all n (names : gset string) revs :
  revision n (bump_all names revs) =
    if decide (n ∈ names) then (revision n revs + 1) mod two64 else revision n revs.
Proof.
  unfold bump_all. revert names.
  apply (set_fold_ind_L (fun acc X => revision n acc =
           if decide (n ∈ X) then (revision n revs + 1) mod two64 else revision n revs)).
  - by rewrite decide_False by set_solver.
  - intros x X acc Hx IH. rewrite revision_bump.
    destruct (decide (n = x)) as [->|Hne].
    + rewrite decide_False in IH by done. rewrite IH. by rewrite decide_True by set_solver.
    + rewrite IH. by apply decide_ext; set_solver.
Qed.

Lemma elem_of_sortedNames n names : n ∈ sortedNames names <-> n ∈ names.
Proof. unfold sortedNames. by rewrite merge_sort_Permutation, elem_of_elements. Qed.

Lemma head_filter_None {A} (P : A -> Prop) `{!forall x, Decision (P x)} (l : list A) x :
  head (filter P l) = None -> x ∈ l -> ~ P x.
Proof.
  intros Hh Hx HP. assert (Hin : x ∈ filter P l) by (apply list_elem_of_filter; done).
  destruct (filter P l); [by apply elem_of_nil in Hin|discriminate].
Qed.

Section Spec.
Context {Artifact : Type}.
Implicit Types (r : Repository Artifact) (h : Heap Artifact) (m : Machine Artifact).

(** ** What each operation does to the heap *)

Lemma RegisterArtifacts_effect repo es h :
  (RegisterArtifacts repo es h).2 = h \/
  exists r, h !! repo = Some r /\ commit_state r = commitStateOpen /\
    (RegisterArtifacts repo es h).2 = <[repo := with_entries es r]> h /\
    (has_parent r = true -> forall n, n ∈ dom es -> n ∉ dirtyEntries r).
Proof.
  unfold RegisterArtifacts, mbind, stateful_bind, lift, load, prepareEntries.
  destruct (validate_entries _ _); cbn; auto.
  destruct (h !! repo) as [r|]; cbn; auto.
  destruct (ensureWritable r) eqn:Hw; cbn; auto.
  destruct (has_parent r) eqn:Hp; cbn.
  - destruct (first_dirty _ _) eqn:Hd; cbn; auto.
    case_bool_decide; cbn; auto. right. exists r. split_and!; try done.
    + unfold ensureWritable in Hw. by destruct (commit_state r).
    + intros _ n Hn. eapply head_filter_None in Hd; [exact Hd|]. by apply elem_of_sortedNames.
  - case_bool_decide; cbn; auto. right. exists r. split_and!; try done; [|congruence].
    unfold ensureWritable in Hw. by destruct (commit_state r).
Qed.

Lemma RegisterImageRef_effect repo name url h :
  (RegisterImageRef repo name url h).2 = h \/
  exists r, h !! repo = Some r /\ commit_state r = commitStateOpen /\
    (RegisterImageRef repo name url h).2 = <[repo := with_image name url r]> h.
Proof.
  unfold RegisterImageRef, mbind, stateful_bind, load.
  destruct (h !! repo) as [r|]; cbn; auto.
  destruct (ensureWritable r) eqn:Hw; cbn; auto.
  destruct (has_parent r && _); cbn; auto. right. exists r. split_and!; try done.
  unfold ensureWritable in Hw. by destruct (commit_state r).
Qed.

Lemma NewLocalScope_effect repo h :
  (Repository_NewLocalScope repo h).2 = h \/
  exists r, h !! repo = Some r /\
    (Repository_NewLocalScope repo h).2 = <[fresh (dom h) := local_scope repo r]> h.
Proof.
  unfold Repository_NewLocalScope, mbind, stateful_bind, load, alloc.
  destruct (h !! repo) as [r|]; cbn; eauto.
Qed.

(** The commit a scope takes a copy of. *)
Definition commit_of (p : addr) r : Commit Artifact :=
  {| c_parent := p; c_baseRevisions := baseRevisions r; c_dirtyEntries := dirtyEntries r;
     c_dirtyImages := dirtyImages r; c_entries := entries r; c_imageRefs := imageRefs r |}.

Lemma commit_begin_effect repo h :
  ((commit_begin repo h).2 = h /\ forall c, (commit_begin repo h).1 <> Ret c) \/
  exists r p, h !! repo = Some r /\ parent r = Some p /\ commit_state r = commitStateOpen /\
    commit_begin repo h = (Ret (commit_of p r), <[repo := set_commit_state commitStateAttempting r]> h).
Proof.
  unfold commit_begin, mbind, stateful_bind, load.
  destruct (h !! repo) as [r|]; cbn; [|by left].
  destruct (parent r) as [p|] eqn:Hp; cbn; [|by left].
  destruct (commit_state r) eqn:Hs; cbn; try (by left). right. by exists r, p.
Qed.

Lemma commitSnapshot_effect c h :
  ((commitSnapshot c h).2 = h /\ (commitSnapshot c h).1 <> Ret ()) \/
  exists r, h !! c_parent c = Some r /\ commit_state r = commitStateOpen /\
    (forall n, n ∈ dirtyNames c -> revision n (revisions r) = revision n (c_baseRevisions c)) /\
    commitSnapshot c h = (Ret (), <[c_parent c := with_commit c r]> h).
Proof.
  unfold commitSnapshot, mbind, stateful_bind, load, lift.
  destruct (h !! c_parent c) as [r|]; cbn; [|by left].
  destruct (ensureWritable r) eqn:Hw; cbn; try by left.
  destruct (first_conflict c r) eqn:Hc; cbn; [by left|]. right. exists r. split_and!; try done.
  - unfold ensureWritable in Hw. by destruct (commit_state r).
  - intros n Hn. eapply head_filter_None in Hc; [|by apply elem_of_sortedNames].
    by apply dec_stable.
Qed.

Lemma commit_end_effect repo o h :
  (commit_end repo o h).2 = h \/
  exists r s, h !! repo = Some r /\ s <> commitStateOpen /\
    (commit_end repo o h).2 = <[repo := set_commit_state s r]> h.
Proof.
  unfold commit_end, mbind, stateful_bind, load.
  destruct (h !! repo) as [r|]; cbn; auto. right. eexists r, _. split_and!; [done| |done].
  by destruct o.
Qed.

(** ** How one action changes one repository *)

Record evolves r r' : Prop := {
  ev_parent : parent r' = parent r;
  ev_base : baseRevisions r' = baseRevisions r;
  ev_name n :
    (revision n (revisions r') = revision n (revisions r) /\
     entries r' !! n = entries r !! n /\ imageRefs r' !! n = imageRefs r !! n) \/
    revision n (revisions r') = (revision n (revisions r) + 1) mod two64;
  ev_entries : is_Some (parent r) -> dirtyEntries r ⊆ dirtyEntries r' /\
    forall n, n ∉ dirtyEntries r' -> entries r' !! n = entries r !! n;
  ev_images : is_Some (parent r) -> dirtyImages r ⊆ dirtyImages r' /\
    forall n, n ∉ dirtyImages r' -> imageRefs r' !! n = imageRefs r !! n;
  ev_closed : commit_state r <> commitStateOpen ->
    exists s, s <> commitStateOpen /\ r' = set_commit_state s r }.

Lemma evolves_refl r : evolves r r.
Proof.
  split; auto. intros Hs. exists (commit_state r). split; [done|]. by destruct r.
Qed.

Lemma evolves_state s r : s <> commitStateOpen -> evolves r (set_commit_state s r).
Proof. intros Hs. split; cbn; auto. eauto. Qed.

Lemma evolves_entries es r : commit_state r = commitStateOpen -> evolves r (with_entries es r).
Proof.
  intros Hs. split; cbn; auto; try congruence.
  - intros n. rewrite revision_bump_all. case_decide as Hn; [by right|left]. split_and!; try done.
    apply lookup_union_r, not_elem_of_dom. done.
  - intros [p Hp]. unfold has_parent. rewrite Hp. split; [set_solver|]. intros n Hn.
    apply lookup_union_r, not_elem_of_dom. set_solver.
Qed.

Lemma evolves_image name url r : commit_state r = commitStateOpen -> evolves r (with_image name url r).
Proof.
  intros Hs. split; cbn; auto; try congruence.
  - intros n. rewrite revision_bump. case_decide as Hn; [by right|left]. split_and!; try done.
    by rewrite lookup_insert_ne.
  - intros [p Hp]. unfold has_parent. rewrite Hp. split; [set_solver|]. intros n Hn.
    rewrite lookup_insert_ne; [done|set_solver].
Qed.

Lemma filter_union_r {V} (D : gset string) (m1 m2 : gmap string V) n :
  n ∉ D -> (filter (fun '(n, _) => n ∈ D) m1 ∪ m2) !! n = m2 !! n.
Proof.
  intros Hn. apply lookup_union_r, map_lookup_filter_None. right. intros v _ Hin. done.
Qed.

Lemma evolves_commit c r : commit_state r = commitStateOpen -> evolves r (with_commit c r).
Proof.
  intros Hs. split; cbn; auto; try congruence.
  - intros n. rewrite revision_bump_all. case_decide as Hn; [by right|left].
    unfold dirtyNames in Hn. split_and!; [done|..]; apply filter_union_r; set_solver.
  - intros [p Hp]. unfold has_parent. rewrite Hp. split; [set_solver|]. intros n Hn.
    apply filter_union_r. set_solver.
  - intros [p Hp]. unfold has_parent. rewrite Hp. split; [set_solver|]. intros n Hn.
    apply filter_union_r. set_solver.
Qed.

(** Replacing one repository by one it evolves to. *)
Lemma insert_evolves h a r1 r1' x r :
  h !! a = Some r1 -> evolves r1 r1' -> h !! x = Some r ->
  exists r', <[a := r1']> h !! x = Some r' /\ evolves r r'.
Proof.
  intros Ha He Hx. destruct (decide (a = x)) as [->|Hne].
  - rewrite lookup_insert_eq. simplify_eq. eauto.
  - rewrite lookup_insert_ne by done. eauto using evolves_refl.
Qed.

Lemma act_evolves a m m' x r :
  act a m = Some m' -> heap m !! x = Some r ->
  exists r', heap m' !! x = Some r' /\ evolves r r'.
Proof.
  intros Hact Hx. destruct a as [repo es|repo name url|repo|repo|repo|repo]; cbn in Hact.
  - injection Hact as <-. cbn.
    destruct (RegisterArtifacts_effect repo es (heap m)) as [->|(r1 & H1 & Hs & -> & _)];
      eauto using evolves_refl, insert_evolves, evolves_entries.
  - injection Hact as <-. cbn.
    destruct (RegisterImageRef_effect repo name url (heap m)) as [->|(r1 & H1 & Hs & ->)];
      eauto using evolves_refl, insert_evolves, evolves_image.
  - injection Hact as <-. cbn.
    destruct (NewLocalScope_effect repo (heap m)) as [->|(r1 & H1 & ->)];
      [eauto using evolves_refl|].
    exists r. split; [|apply evolves_refl]. rewrite lookup_insert_ne; [done|]. intros <-.
    apply elem_of_dom_2 in Hx. by apply is_fresh in Hx.
  - destruct (commit_begin_effect repo (heap m)) as [[Hh Hc]|(r1 & p & H1 & Hp & Hs & Heq)].
    + destruct (commit_begin repo (heap m)) as [[c| | |] h]; cbn in *; subst; simplify_eq;
        eauto using evolves_refl.
    + rewrite Heq in Hact. simplify_eq/=. eapply insert_evolves; eauto. by apply evolves_state.
  - destruct (inflight m !! repo) as [[c|]|]; try done.
    destruct (commitSnapshot_effect c (heap m)) as [[Hh _]|(r1 & H1 & Hs & _ & Heq)].
    + destruct (commitSnapshot c (heap m)); cbn in *; simplify_eq/=; eauto using evolves_refl.
    + rewrite Heq in Hact. simplify_eq/=. eauto using insert_evolves, evolves_commit.
  - destruct (inflight m !! repo) as [[|o]|]; try done. injection Hact as <-. cbn.
    destruct (commit_end_effect repo o (heap m)) as [->|(r1 & s & H1 & Hs & ->)];
      eauto using evolves_refl, insert_evolves, evolves_state.
Qed.

(** ** How a sequence of actions changes one repository *)

(** [w] writes of [n] happened between [r] and [r']. *)
Definition writes_of (n : string) (w : Z) r r' : Prop :=
  revision n (revisions r') mod two64 = (revision n (revisions r) + w) mod two64 /\
  (w = 0 -> entries r' !! n = entries r !! n /\ imageRefs r' !! n = imageRefs r !! n).

Record evolved (k : nat) r r' : Prop := {
  evd_parent : parent r' = parent r;
  evd_base : baseRevisions r' = baseRevisions r;
  evd_name n : exists w, 0 <= w <= Z.of_nat k /\ writes_of n w r r';
  evd_entries : is_Some (parent r) -> dirtyEntries r ⊆ dirtyEntries r' /\
    forall n, n ∉ dirtyEntries r' -> entries r' !! n = entries r !! n;
  evd_images : is_Some (parent r) -> dirtyImages r ⊆ dirtyImages r' /\
    forall n, n ∉ dirtyImages r' -> imageRefs r' !! n = imageRefs r !! n;
  evd_closed : commit_state r <> commitStateOpen ->
    exists s, s <> commitStateOpen /\ r' = set_commit_state s r }.

Lemma evolved_refl r : evolved 0 r r.
Proof.
  destruct (evolves_refl r). split; auto. intros n. exists 0. split; [lia|].
  unfold writes_of. by rewrite Z.add_0_r.
Qed.

Lemma evolved_step k r r1 r2 : evolves r r1 -> evolved k r1 r2 -> evolved (S k) r r2.
Proof.
  intros E1 E2. split.
  - by rewrite (evd_parent _ _ _ E2), (ev_parent _ _ E1).
  - by rewrite (evd_base _ _ _ E2), (ev_base _ _ E1).
  - intros n. destruct (evd_name _ _ _ E2 n) as (w & Hw & Hrev & Hsame).
    destruct (ev_name _ _ E1 n) as [(Hr & He & Hi)|Hr].
    + exists w. split; [lia|]. split; [by rewrite Hrev, Hr|]. intros ->.
      destruct Hsame as [-> ->]; auto.
    + exists (w + 1). split; [lia|]. split; [|lia].
      rewrite Hrev, Hr, Zplus_mod_idemp_l. f_equal. lia.
  - intros Hp. assert (Hp1 : is_Some (parent r1)) by by rewrite (ev_parent _ _ E1).
    destruct (ev_entries _ _ E1 Hp) as [Hs1 Hc1]. destruct (evd_entries _ _ _ E2 Hp1) as [Hs2 Hc2].
    split; [set_solver|]. intros n Hn. rewrite Hc2 by done. apply Hc1. set_solver.
  - intros Hp. assert (Hp1 : is_Some (parent r1)) by by rewrite (ev_parent _ _ E1).
    destruct (ev_images _ _ E1 Hp) as [Hs1 Hc1]. destruct (evd_images _ _ _ E2 Hp1) as [Hs2 Hc2].
    split; [set_solver|]. intros n Hn. rewrite Hc2 by done. apply Hc1. set_solver.
  - intros Hc. destruct (ev_closed _ _ E1 Hc) as (s & Hs & ->).
    destruct (evd_closed _ _ _ E2) as (s' & Hs' & ->); [done|]. exists s'. done.
Qed.

Lemma acts_evolved l m m' x r :
  acts l m = Some m' -> heap m !! x = Some r ->
  exists r', heap m' !! x = Some r' /\ evolved (length l) r r'.
Proof.
  revert m r. induction l as [|a l IH]; cbn; intros m r Hl Hx.
  - simplify_eq. eauto using evolved_refl.
  - apply bind_Some in Hl as (m1 & Ha & Hl).
    destruct (act_evolves _ _ _ _ _ Ha Hx) as (r1 & H1 & E1).
    destruct (IH _ _ Hl H1) as (r2 & H2 & E2). eauto using evolved_step.
Qed.

(** An unchanged revision means that nobody wrote the name. *)
Lemma evolved_same_revision k r r' n :
  evolved k r r' -> Z.of_nat k < two64 -> revision n (revisions r') = revision n (revisions r) ->
  entries r' !! n = entries r !! n /\ imageRefs r' !! n = imageRefs r !! n.
Proof.
  intros E Hk Heq. destruct (evd_name _ _ _ E n) as (w & Hw & Hrev & Hsame).
  apply Hsame. rewrite Heq in Hrev. assert (H64 : 0 < two64) by (unfold two64; lia).
  apply Z.cong_iff_0 in Hrev.
  replace (_ - _) with (- w) in Hrev by lia.
  apply Z.mod_opp_l_z in Hrev; [|lia]. rewrite Z.opp_involutive, Z.mod_small in Hrev; lia.
Qed.

(** ** The invariant of the machine *)

Definition wf_repo r : Prop :=
  dirtyEntries r ⊆ dom (entries r) /\ dirtyImages r ⊆ dom (imageRefs r).

(** A commit in flight is of a scope that is closed for writing and unchanged
    since the commit took its copy. *)
Definition wf_commit m (a : addr) (pc : commit_pc) : Prop :=
  exists r, heap m !! a = Some r /\ commit_state r = commitStateAttempting /\
    match pc with
    | Snapshotted c => exists p, parent r = Some p /\ c = commit_of p r
    | Published _ => True
    end.

Record wf_machine m : Prop := {
  wf_heap : map_Forall (fun _ r => wf_repo r) (heap m);
  wf_inflight : map_Forall (wf_commit m) (inflight m) }.

Lemma wf_with_entries es r : wf_repo r -> wf_repo (with_entries es r).
Proof. intros [He Hi]. split; cbn; [|done]. rewrite dom_union_L. destruct (has_parent r); set_solver. Qed.

Lemma wf_with_image name url r : wf_repo r -> wf_repo (with_image name url r).
Proof. intros [He Hi]. split; cbn; [done|]. rewrite dom_insert_L. destruct (has_parent r); set_solver. Qed.

Lemma filter_dom {V} (D : gset string) (m1 : gmap string V) :
  D ⊆ dom m1 -> D ⊆ dom (filter (fun '(n, _) => n ∈ D) m1).
Proof.
  intros HD n Hn. apply elem_of_dom. destruct (m1 !! n) as [v|] eqn:Hv.
  - exists v. by apply map_lookup_filter_Some.
  - apply not_elem_of_dom in Hv. set_solver.
Qed.

Lemma wf_with_commit p r0 r : wf_repo r0 -> wf_repo r -> wf_repo (with_commit (commit_of p r0) r).
Proof.
  intros [He0 Hi0] [He Hi]. split; cbn; rewrite dom_union_L.
  - apply filter_dom in He0. destruct (has_parent r); set_solver.
  - apply filter_dom in Hi0. destruct (has_parent r); set_solver.
Qed.

(** A closed repository changes only when its own commit ends. *)
Lemma act_closed a m m' x r :
  act a m = Some m' -> heap m !! x = Some r -> commit_state r <> commitStateOpen ->
  a <> ACommitEnd x -> heap m' !! x = Some r.
Proof.
  intros Hact Hx Hs Hne.
  assert (Hins : forall y r1 r2, heap m !! y = Some r1 -> commit_state r1 = commitStateOpen ->
            <[y := r2]> (heap m) !! x = Some r).
  { intros y r1 r2 Hy Hy'. rewrite lookup_insert_ne; [done|]. intros ->. congruence. }
  destruct a as [repo es|repo name url|repo|repo|repo|repo]; cbn in Hact.
  - injection Hact as <-. cbn.
    destruct (RegisterArtifacts_effect repo es (heap m)) as [->|(r1 & H1 & H2 & -> & _)]; eauto.
  - injection Hact as <-. cbn.
    destruct (RegisterImageRef_effect repo name url (heap m)) as [->|(r1 & H1 & H2 & ->)]; eauto.
  - injection Hact as <-. cbn.
    destruct (NewLocalScope_effect repo (heap m)) as [->|(r1 & H1 & ->)]; [done|].
    rewrite lookup_insert_ne; [done|]. intros <-. apply elem_of_dom_2 in Hx. by apply is_fresh in Hx.
  - destruct (commit_begin_effect repo (heap m)) as [[Hh Hc]|(r1 & p & H1 & Hp & H2 & Heq)].
    + destruct (commit_begin repo (heap m)) as [[c| | |] h]; cbn in *; subst; by simplify_eq/=.
    + rewrite Heq in Hact. simplify_eq/=. eauto.
  - destruct (inflight m !! repo) as [[c|]|]; try done.
    destruct (commitSnapshot_effect c (heap m)) as [[Hh _]|(r1 & H1 & H2 & _ & Heq)].
    + destruct (commitSnapshot c (heap m)); cbn in *; by simplify_eq/=.
    + rewrite Heq in Hact. simplify_eq/=. eauto.
  - destruct (inflight m !! repo) as [[|o]|]; try done. injection Hact as <-. cbn.
    destruct (commit_end_effect repo o (heap m)) as [->|(r1 & s & H1 & _ & ->)]; [done|].
    rewrite lookup_insert_ne; [done|]. intros ->. done.
Qed.

Lemma wf_heap_act a m m' :
  wf_machine m -> act a m = Some m' -> map_Forall (fun _ r => wf_repo r) (heap m').
Proof.
  intros [Hh Hi] Hact.
  assert (Hins : forall y r1 r2, heap m !! y = Some r1 -> (wf_repo r1 -> wf_repo r2) ->
            map_Forall (fun _ r => wf_repo r) (<[y := r2]> (heap m))).
  { intros y r1 r2 Hy Hwf. apply map_Forall_insert_2; [|done]. apply Hwf. by apply (Hh y). }
  destruct a as [repo es|repo name url|repo|repo|repo|repo]; cbn in Hact.
  - injection Hact as <-. cbn.
    destruct (RegisterArtifacts_effect repo es (heap m)) as [->|(r1 & H1 & _ & -> & _)];
      eauto using wf_with_entries.
  - injection Hact as <-. cbn.
    destruct (RegisterImageRef_effect repo name url (heap m)) as [->|(r1 & H1 & _ & ->)];
      eauto using wf_with_image.
  - injection Hact as <-. cbn.
    destruct (NewLocalScope_effect repo (heap m)) as [->|(r1 & H1 & ->)]; [done|].
    apply map_Forall_insert_2; [|done]. split; cbn; set_solver.
  - destruct (commit_begin_effect repo (heap m)) as [[Hb Hc]|(r1 & p & H1 & Hp & _ & Heq)].
    + destruct (commit_begin repo (heap m)) as [[c| | |] h]; cbn in *; subst; by simplify_eq/=.
    + rewrite Heq in Hact. simplify_eq/=. eauto.
  - destruct (inflight m !! repo) as [[c|]|] eqn:Hf; try done.
    destruct (commitSnapshot_effect c (heap m)) as [[Hb _]|(r1 & H1 & _ & _ & Heq)].
    + destruct (commitSnapshot c (heap m)); cbn in *; by simplify_eq/=.
    + rewrite Heq in Hact. simplify_eq/=. eapply Hins; [done|].
      destruct (Hi _ _ Hf) as (r & Hr & _ & p & Hp & ->). apply wf_with_commit. by apply (Hh repo).
  - destruct (inflight m !! repo) as [[|o]|]; try done. injection Hact as <-. cbn.
    destruct (commit_end_effect repo o (heap m)) as [->|(r1 & s & H1 & _ & ->)]; eauto.
Qed.

(** A commit in flight stays one as long as it does not move. *)
Lemma wf_commit_act a m m' x pc :
  act a m = Some m' -> a <> ACommitEnd x -> wf_commit m x pc -> wf_commit m' x pc.
Proof.
  intros Hact Hne (r & Hr & Hs & Hpc). exists r. split; [|done].
  eapply act_closed; eauto. congruence.
Qed.

Lemma act_wf a m m' : wf_machine m -> act a m = Some m' -> wf_machine m'.
Proof.
  intros Hwf Hact. split; [by eapply wf_heap_act|]. destruct Hwf as [Hh Hi].
  assert (Hold : forall x pc, a <> ACommitEnd x -> inflight m !! x = Some pc -> wf_commit m' x pc)
    by eauto using wf_commit_act.
  destruct a as [repo es|repo name url|repo|repo|repo|repo]; cbn in Hact.
  1-3: injection Hact as <-; intros x pc Hx; by apply Hold.
  - destruct (commit_begin_effect repo (heap m)) as [[Hb Hc]|(r1 & p & H1 & Hp & _ & Heq)].
    + destruct (commit_begin repo (heap m)) as [[c| | |] h]; cbn in *; [by destruct (Hc c)|..];
        simplify_eq/=; intros x pc Hx; by apply Hold.
    + rewrite Heq in Hact. simplify_eq/=. apply map_Forall_insert_2.
      * eexists. cbn. rewrite lookup_insert_eq. split_and!; [done|done|]. by exists p.
      * intros x pc Hx. by apply Hold.
  - destruct (inflight m !! repo) as [[c|]|] eqn:Hf; try done.
    assert (Hw : wf_commit m' repo (Snapshotted c)) by by apply Hold.
    destruct (commitSnapshot c (heap m)) as [o h]. simplify_eq/=. apply map_Forall_insert_2.
    + destruct Hw as (r & Hr & Hs & _). by exists r.
    + intros x pc Hx. by apply Hold.
  - destruct (inflight m !! repo) as [[|o]|] eqn:Hf; try done. simplify_eq/=.
    intros x pc Hx. apply lookup_delete_Some in Hx as [Hne Hx]. apply Hold; [congruence|done].
Qed.

Lemma acts_wf l m m' : wf_machine m -> acts l m = Some m' -> wf_machine m'.
Proof.
  revert m. induction l as [|a l IH]; cbn; intros m Hwf Hl; [by simplify_eq|].
  apply bind_Some in Hl as (m1 & Ha & Hl). eauto using act_wf.
Qed.

(** ** The theorems *)

(** Taking a scope. *)
Lemma act_NewLocalScope m m1 p r0 :
  act (ANewLocalScope p) m = Some m1 -> heap m !! p = Some r0 ->
  heap m1 = <[fresh (dom (heap m)) := local_scope p r0]> (heap m).
Proof.
  intros [= <-] Hp. cbn. unfold Repository_NewLocalScope, mbind, stateful_bind, load, alloc.
  by rewrite Hp.
Qed.

Lemma lookup_filter_union {V} (D : gset string) (m1 m2 : gmap string V) n :
  D ⊆ dom m1 ->
  (filter (fun '(n, _) => n ∈ D) m1 ∪ m2) !! n = (if decide (n ∈ D) then m1 else m2) !! n.
Proof.
  intros HD. case_decide as Hn; [|by apply filter_union_r].
  destruct (m1 !! n) as [v|] eqn:Hv.
  - apply lookup_union_Some_l. by apply map_lookup_filter_Some.
  - apply not_elem_of_dom in Hv. set_solver.
Qed.

(** C18: However the goroutines of a build interleave, when the commit of
    a scope publishes, no name it publishes was written in the parent since the
    scope was taken (no update is lost), and the parent gets the scope's value
    of exactly the names the scope wrote.  The revisions are 64-bit counters,
    so the claim is for fewer than 2^64 actions in between. *)
Theorem commit_no_lost_update m0 p r0 c tr m m' :
  wf_machine m0 -> heap m0 !! p = Some r0 -> c = fresh (dom (heap m0)) ->
  acts (ANewLocalScope p :: tr) m0 = Some m -> Z.of_nat (length tr) < two64 ->
  act (ACommitPublish c) m = Some m' -> inflight m' !! c = Some (Published (Ret ())) ->
  exists rc rp rp',
    heap m !! c = Some rc /\ heap m !! p = Some rp /\ heap m' !! p = Some rp' /\
    forall n,
      (n ∈ dirtyEntries rc ∪ dirtyImages rc ->
       entries rp !! n = entries r0 !! n /\ imageRefs rp !! n = imageRefs r0 !! n) /\
      entries rp' !! n = (if decide (n ∈ dirtyEntries rc) then entries rc else entries rp) !! n /\
      imageRefs rp' !! n = (if decide (n ∈ dirtyImages rc) then imageRefs rc else imageRefs rp) !! n.
Proof.
  intros Hwf0 Hp -> Htr Hlen Hpub Hret. change (acts _ m0) with (act (ANewLocalScope p) m0 ≫= acts tr) in Htr.
  apply bind_Some in Htr as (m1 & H1 & Htr).
  assert (Hwf : wf_machine m) by (eapply acts_wf; [|exact Htr]; by eapply act_wf).
  assert (Hh1 := act_NewLocalScope _ _ _ _ H1 Hp). set (c := fresh (dom (heap m0))) in *.
  assert (Hc1 : heap m1 !! c = Some (local_scope p r0)) by by rewrite Hh1, lookup_insert_eq.
  assert (Hp1 : heap m1 !! p = Some r0).
  { rewrite Hh1, lookup_insert_ne; [done|]. intros Heq. apply elem_of_dom_2 in Hp.
    rewrite <- Heq in Hp. by apply is_fresh in Hp. }
  destruct (acts_evolved _ _ _ _ _ Htr Hc1) as (rc & Hc & Ec).
  destruct (acts_evolved _ _ _ _ _ Htr Hp1) as (rp & Hpm & Ep).
  cbn in Hpub. destruct (inflight m !! c) as [[cm|]|] eqn:Hf; try done.
  destruct (wf_inflight _ Hwf _ _ Hf) as (rc' & Hrc' & _ & p' & Hp' & ->). simplify_eq.
  rewrite (evd_parent _ _ _ Ec) in Hp'. cbn in Hp'. injection Hp' as <-.
  destruct (wf_heap _ Hwf _ _ Hc) as [Hde Hdi].
  destruct (commitSnapshot_effect (commit_of p rc) (heap m)) as [[_ Hno]|(r & Hr & _ & Hrev & Heq)].
  { destruct (commitSnapshot _ _) as [o h]. simplify_eq/=. rewrite lookup_insert_eq in Hret. congruence. }
  rewrite Heq in Hpub. simplify_eq/=. eexists rc, rp, _. rewrite lookup_insert_eq. split_and!; try done.
  intros n. split_and!; cbn.
  - intros Hn. eapply evolved_same_revision; [exact Ep|done|].
    rewrite Hrev by done. by rewrite (evd_base _ _ _ Ec).
  - by apply lookup_filter_union.
  - by apply lookup_filter_union.
Qed.

(** An action through which the scope [c] gets a value of [n]: a registration
    in it, or the commit of one of its own scopes. *)
Definition writes_through (c : addr) (n : string) (a : action Artifact) m : Prop :=
  match a with
  | ARegisterArtifacts repo es => repo = c /\ n ∈ dom es
  | ARegisterImageRef repo name _ => repo = c /\ name = n
  | ACommitPublish d =>
      match inflight m !! d with
      | Some (Snapshotted cm) => c_parent cm = c /\ n ∈ dirtyNames cm
      | _ => False
      end
  | _ => False
  end.

Fixpoint never_through (c : addr) (n : string) (l : list (action Artifact)) m : Prop :=
  match l with
  | [] => True
  | a :: l => ~ writes_through c n a m /\
      match act a m with Some m' => never_through c n l m' | None => True end
  end.

(** The parts of a repository a reader of [n] sees. *)
Definition same_at (n : string) r r' : Prop :=
  entries r' !! n = entries r !! n /\ imageRefs r' !! n = imageRefs r !! n.

Lemma insert_same_at h c n y r1 r2 r :
  h !! c = Some r -> h !! y = Some r1 -> (y = c -> same_at n r1 r2) ->
  exists r', <[y := r2]> h !! c = Some r' /\ same_at n r r'.
Proof.
  intros Hc Hy Hs. destruct (decide (y = c)) as [->|Hne].
  - rewrite lookup_insert_eq. simplify_eq. eauto.
  - rewrite lookup_insert_ne by done. exists r. by split.
Qed.

Lemma act_same_at c n a m m' r :
  act a m = Some m' -> ~ writes_through c n a m -> heap m !! c = Some r ->
  exists r', heap m' !! c = Some r' /\ same_at n r r'.
Proof.
  intros Hact Hno Hc. assert (Hsame : exists r', heap m !! c = Some r' /\ same_at n r r') by (exists r; by split).
  destruct a as [repo es|repo name url|repo|repo|repo|repo]; cbn in Hact, Hno.
  - injection Hact as <-. cbn.
    destruct (RegisterArtifacts_effect repo es (heap m)) as [->|(r1 & H1 & _ & -> & _)]; [done|].
    eapply insert_same_at; [done..|]. intros ->. split; cbn; [|done].
    apply lookup_union_r, not_elem_of_dom. naive_solver.
  - injection Hact as <-. cbn.
    destruct (RegisterImageRef_effect repo name url (heap m)) as [->|(r1 & H1 & _ & ->)]; [done|].
    eapply insert_same_at; [done..|]. intros ->. split; cbn; [done|].
    rewrite lookup_insert_ne; naive_solver.
  - injection Hact as <-. cbn.
    destruct (NewLocalScope_effect repo (heap m)) as [->|(r1 & H1 & ->)]; [done|].
    rewrite lookup_insert_ne; [done|]. intros <-. apply elem_of_dom_2 in Hc. by apply is_fresh in Hc.
  - destruct (commit_begin_effect repo (heap m)) as [[Hb _]|(r1 & p & H1 & _ & _ & Heq)].
    + destruct (commit_begin repo (heap m)) as [[| | |] h]; cbn in *; subst; by simplify_eq/=.
    + rewrite Heq in Hact. simplify_eq/=. eapply insert_same_at; [done..|]. by split.
  - destruct (inflight m !! repo) as [[cm|]|]; try done.
    destruct (commitSnapshot_effect cm (heap m)) as [[Hb _]|(r1 & H1 & _ & _ & Heq)].
    + destruct (commitSnapshot cm (heap m)); cbn in *; by simplify_eq/=.
    + rewrite Heq in Hact. simplify_eq/=. eapply insert_same_at; [done..|]. intros Hcm.
      unfold dirtyNames in Hno. split; cbn; apply filter_union_r; set_solver.
  - destruct (inflight m !! repo) as [[|o]|]; try done. injection Hact as <-. cbn.
    destruct (commit_end_effect repo o (heap m)) as [->|(r1 & s & H1 & _ & ->)]; [done|].
    eapply insert_same_at; [done..|]. by split.
Qed.

Lemma acts_same_at c n l m m' r :
  acts l m = Some m' -> never_through c n l m -> heap m !! c = Some r ->
  exists r', heap m' !! c = Some r' /\ same_at n r r'.
Proof.
  revert m r. induction l as [|a l IH]; cbn; intros m r Hl Hno Hc.
  - simplify_eq. exists r. by split.
  - apply bind_Some in Hl as (m1 & Ha & Hl). rewrite Ha in Hno. destruct Hno as [Hw Hno].
    destruct (act_same_at _ _ _ _ _ _ Ha Hw Hc) as (r1 & H1 & He1 & Hi1).
    destruct (IH _ _ Hl Hno H1) as (r2 & H2 & He2 & Hi2). exists r2. split; [done|].
    split; congruence.
Qed.

(** C38: A scope keeps seeing the artifacts and images its parent had
    when the scope was taken, name by name, until the scope itself or a scope
    taken from it writes the name; what the parent and the other scopes do in
    the meantime, and their commits, are invisible to it. *)
Theorem scope_isolated m0 p r0 c tr m n :
  heap m0 !! p = Some r0 -> c = fresh (dom (heap m0)) ->
  acts (ANewLocalScope p :: tr) m0 = Some m ->
  never_through c n (ANewLocalScope p :: tr) m0 ->
  ArtifactEntryFor c n (heap m) = (Ret (entries r0 !! n), heap m) /\
  ImageRefFor c n (heap m) = (Ret (imageRefs r0 !! n), heap m).
Proof.
  intros Hp -> Htr Hno. cbn in Htr, Hno. destruct Hno as [_ Hno].
  set (m1 := {| heap := _; inflight := inflight m0 |}) in *.
  assert (Hh1 : heap m1 = _) by exact (act_NewLocalScope m0 m1 p r0 eq_refl Hp).
  assert (Hc1 : heap m1 !! fresh (dom (heap m0)) = Some (local_scope p r0))
    by by rewrite Hh1, lookup_insert_eq.
  destruct (acts_same_at _ _ _ _ _ _ Htr Hno Hc1) as (rc & Hc & He & Hi).
  unfold ArtifactEntryFor, ImageRefFor, mbind, stateful_bind, load. rewrite Hc. cbn.
  by rewrite He, Hi.
Qed.

End Spec.

(** ** Witnesses

    A build whose root repository has one artifact; a scope that writes two
    names while another goroutine writes a third one in the root. *)
Definition w_entry (a : string) : ArtifactEntry string :=
  {| ae_Artifact := a; ae_FromCache := false;
     ae_Snapshot := Some {| sr_ID := 4; sr_Type := "repo.source/v2";
       sr_Digest := "sha256:0123456789abcdef0123456789abcdef0123456789abcdef0123456789abcdef" |} |}.
Definition w_root : Machine string :=
  default {| heap := ∅; inflight := ∅ |}
    (acts [ARegisterArtifacts 0%nat {["repo" := w_entry "v1"]}]
       {| heap := {[0%nat := empty_repository]}; inflight := ∅ |}).
Definition w_trace : list (action string) :=
  [ARegisterArtifacts 1%nat {["repo" := w_entry "v2"]}; ARegisterImageRef 1%nat "image" "registry/x";
   ARegisterArtifacts 0%nat {["other" := w_entry "v3"]}; ACommitBegin 1%nat].
Definition w_before : Machine string :=
  default w_root (acts (ANewLocalScope 0%nat :: w_trace) w_root).
Definition w_after : Machine string := default w_root (act (ACommitPublish 1%nat) w_before).

Lemma w_root_wf : wf_machine w_root.
Proof.
  apply (acts_wf [ARegisterArtifacts 0%nat {["repo" := w_entry "v1"]}]
           {| heap := {[0%nat := empty_repository]}; inflight := ∅ |}); [|vm_compute; reflexivity].
  split; [|done]. apply map_Forall_singleton. by split.
Qed.

Lemma commit_no_lost_update_witness :
  exists rc rp rp',
    heap w_before !! 1%nat = Some rc /\ heap w_before !! 0%nat = Some rp /\
    heap w_after !! 0%nat = Some rp' /\
    forall n,
      (n ∈ dirtyEntries rc ∪ dirtyImages rc ->
       entries rp !! n = ({["repo" := w_entry "v1"]} : gmap _ _) !! n /\ imageRefs rp !! n = None) /\
      entries rp' !! n = (if decide (n ∈ dirtyEntries rc) then entries rc else entries rp) !! n /\
      imageRefs rp' !! n = (if decide (n ∈ dirtyImages rc) then imageRefs rc else imageRefs rp) !! n.
Proof.
  destruct (heap w_root !! 0%nat) as [r0|] eqn:Hr0; [|vm_compute in Hr0; discriminate].
  assert (He : entries r0 = {["repo" := w_entry "v1"]} /\ imageRefs r0 = ∅).
  { vm_compute in Hr0. injection Hr0 as <-. split; vm_compute; reflexivity. }
  destruct (commit_no_lost_update w_root 0%nat r0 1%nat w_trace w_before w_after)
    as (rc & rp & rp' & H1 & H2 & H3 & H4).
  - exact w_root_wf.
  - exact Hr0.
  - vm_compute; reflexivity.
  - vm_compute; reflexivity.
  - vm_compute; reflexivity.
  - vm_compute; reflexivity.
  - vm_compute; reflexivity.
  - exists rc, rp, rp'. split; [exact H1|split; [exact H2|split; [exact H3|]]].
    intros n. destruct (H4 n) as (Ha & Hb & Hc). destruct He as [He Hi].
    rewrite He, Hi, lookup_empty in Ha. exact (conj Ha (conj Hb Hc)).
Defined.

Lemma scope_isolated_witness :
  ArtifactEntryFor 1%nat "other" (heap w_before) = (Ret None, heap w_before) /\
  ImageRefFor 1%nat "other" (heap w_before) = (Ret None, heap w_before).
Proof.
  destruct (heap w_root !! 0%nat) as [r0|] eqn:Hr0; [|vm_compute in Hr0; discriminate].
  assert (He : entries r0 !! "other" = None /\ imageRefs r0 !! "other" = None).
  { vm_compute in Hr0. injection Hr0 as <-. split; vm_compute; reflexivity. }
  destruct He as [He Hi].
  destruct (scope_isolated w_root 0%nat r0 1%nat w_trace w_before "other") as [H1 H2].
  - exact Hr0.
  - vm_compute; reflexivity.
  - vm_compute; reflexivity.
  - cbn [never_through w_trace writes_through].
    split; [tauto|]. destruct (act _ _) as [m1|]; [|done].
    split; [intros [_ H]; rewrite dom_singleton_L in H; apply elem_of_singleton in H; discriminate H|].
    destruct (act _ _) as [m2|]; [|done].
    split; [intros [_ H]; discriminate H|]. destruct (act _ _) as [m3|]; [|done].
    split; [intros [H _]; discriminate H|]. destruct (act _ _) as [m4|]; [|done].
    split; [tauto|]. by destruct (act _ _).
  - rewrite He in H1. rewrite Hi in H2. exact (conj H1 H2).
Defined.
