(* ===== verification/ExecWorld.v ===== *)
(** * What the steps of a build run in

    The Go errors the steps of [atc/exec] return and inspect, and the world
    they run in: contexts, the goroutine scheduler, the artifact repositories
    and the scopes of local variables.

    A step is sequential code, so it is a state-passing function; but it is not
    alone.  [ExecWorld] leaves every operation free to change the world, so
    what other goroutines of the build do between two operations of a step is
    part of the operation's effect on the world. *)
From stdpp Require Import base gmap sets list strings.
From Stdlib Require Import ZArith Lia Ascii.
From S2P Require Import Prelude Vars Repository.

Open Scope Z_scope.

(** ** Errors *)

(** [context.Canceled] and [context.DeadlineExceeded]. *)
Inductive ctx_error := CtxCanceled | CtxDeadlineExceeded.

(** The dynamic types of error that [RetryErrorStep.toRetry] asks for. *)
Inductive raised_kind :=
| RetryableError (isRetryable : bool)
| UrlError
| NetError
| OtherError.

Inductive error :=
| Context (c : ctx_error)
| Retriable (cause : error)
| Multi (errs : list error)                (* a multierror.Error with these Errors *)
| RepoError (e : repo_error)               (* of Repository.CommitToParent *)
| DurationError (duration : string)        (* of time.ParseDuration *)
| PanicError (msg : string)                (* of util.DumpPanic *)
| Raised (kind : raised_kind) (msg : string).

Abbreviation Canceled := (Context CtxCanceled).
Abbreviation DeadlineExceeded := (Context CtxDeadlineExceeded).

(** The targets [errors.Is] is called with.  [Retriable{}] has a nil [Cause]. *)
Inductive target := TContext (c : ctx_error) | TRetriableZero.

Definition ctx_error_eqb (a b : ctx_error) : bool :=
  match a, b with
  | CtxCanceled, CtxCanceled | CtxDeadlineExceeded, CtxDeadlineExceeded => true
  | _, _ => false
  end.

(** [errors.Is].  [Retriable] has no [Unwrap] and no [Is] method, so it is
    compared by value: the [Retriable] of a running step has a cause, the
    target has none. *)
Fixpoint errors_Is (e : error) (t : target) : bool :=
  match e with
  | Context c => match t with TContext c' => ctx_error_eqb c c' | TRetriableZero => false end
  | Multi errs => existsb (fun e => errors_Is e t) errs
  | _ => false
  end.

Definition first_some {A B} (f : A -> option B) : list A -> option B :=
  fix go l :=
    match l with
    | [] => None
    | x :: l => match f x with Some y => Some y | None => go l end
    end.

(** [errors.As(err, &exec.Retriable{})]: the cause. *)
Fixpoint errors_AsRetriable (e : error) : option error :=
  match e with
  | Retriable cause => Some cause
  | Multi errs => first_some errors_AsRetriable errs
  | _ => None
  end.

(** [errors.As] for the kinds of [toRetry]: the first error of the chain of a
    type [f] accepts. *)
Fixpoint errors_AsRaised {B} (f : raised_kind -> option B) (e : error) : option B :=
  match e with
  | Raised kind _ => f kind
  | Multi errs => first_some (errors_AsRaised f) errs
  | _ => None
  end.

(** [context.DeadlineExceeded] implements [net.Error]. *)
Fixpoint errors_AsNetError (e : error) : bool :=
  match e with
  | Raised (UrlError | NetError) _ => true
  | Context CtxDeadlineExceeded => true
  | Multi errs => existsb errors_AsNetError errs
  | _ => false
  end.

Definition Is (err : option error) (t : target) : bool :=
  match err with Some e => errors_Is e t | None => false end.

(** [github.com/hashicorp/go-multierror]: [Append(err, e)] makes a multi-error
    of the errors of [err], if any, and of [e]; a multi-error among them is
    flattened one level.  [ErrorFormat] is the text of a multi-error. *)
Definition errors_of (e : error) : list error :=
  match e with Multi errs => errs | e => [e] end.

Class Multierror := {
  Append : option error -> error -> error;
  ErrorFormat : list string -> string }.

Class MultierrorLaws `{Multierror} : Prop := {
  Append_nil e : Append None e = Multi (errors_of e);
  Append_some err e : Append (Some err) e = Multi (errors_of err ++ errors_of e) }.

(** [err.Error()]. *)
Definition quoted (s : string) : string := String quote (escape s ++ String quote "").

Definition repo_error_string (e : repo_error) : string :=
  match e with
  | ErrArtifactAlreadyRegistered name => "artifact already registered in local scope: " ++ quoted name
  | ErrArtifactCommitConflict name => "artifact repository commit conflict: " ++ quoted name
  | ErrArtifactScopeCommitted => "artifact repository scope already committed"
  | ErrArtifactScopeClosed => "artifact repository scope commit already attempted"
  | ErrArtifactScopeHasNoParent => "artifact repository scope has no parent"
  | ErrSnapshot name _ => "artifact " ++ quoted name ++ " snapshot"
  end.

Fixpoint Error_string `{Multierror} (e : error) : string :=
  match e with
  | Context CtxCanceled => "context canceled"
  | Context CtxDeadlineExceeded => "context deadline exceeded"
  | Retriable cause => "retriable: " ++ Error_string cause
  | Multi errs => ErrorFormat (map Error_string errs)
  | RepoError e => repo_error_string e
  | DurationError d => "time: invalid duration " ++ quoted d
  | PanicError msg => msg
  | Raised _ msg => msg
  end.

(** ** The world *)

(** A run state ([atc/exec/run_state.go]) is a pointer to a scope of variables
    and a pointer to an artifact repository; the stepper is an argument of the
    steps that use it. *)
Record runState := { rs_vars : addr; rs_artifacts : addr }.

(** A scope of variables ([atc/exec/build_vars.go]).  The outermost scope has no
    parent scope here: its parent is the tracker of the build's credentials. *)
Record buildVariables := {
  bv_parentScope : option addr;
  bv_localVars : list (string * value);
  bv_tracker : Tracker }.

Class ExecWorld (W : Type) := {
  Ctx : Type;
  Background : Ctx;
  ctx_Err : Ctx -> W -> option ctx_error * W;
  WithCancel : Ctx -> W -> Ctx * W;
  cancel : Ctx -> W -> W;
  WithTimeout : Ctx -> Z -> W -> Ctx * W;
  ParseDuration : string -> option Z;
  schedule : nat -> W -> nat * W;
  elsewhere : W -> W;
  Artifact : Type;
  repositories : W -> Heap Artifact;
  set_repositories : Heap Artifact -> W -> W;
  scopes : W -> gmap addr buildVariables;
  set_scopes : gmap addr buildVariables -> W -> W;
  delegate_Errored : runState -> string -> W -> W }.

(** A step either returns, panics or does not return; its errors are values. *)
Definition stepM (W : Type) := stateful W Empty_set.
Definition step_result : Type := bool * option error.

Definition lift_world {W A} (f : W -> A * W) : stepM W A := fun w => let (a, w') := f w in (Ret a, w').
Definition update_world {W} (f : W -> W) : stepM W unit := fun w => (Ret (), f w).

Definition panics {W A} : stepM W A := fun w => (Panic, w).

(** A critical section on the repositories, after whatever the other goroutines
    did since the last one. *)
Definition on_repositories {W A} `{ExecWorld W} (op : repoM A) : stepM W (outcome repo_error A) :=
  fun w =>
    let w := elsewhere w in
    let (o, h) := op (repositories w) in
    (Ret o, set_repositories h w).
