(* ===== verification/Parallel.v ===== *)
(** * The parallel executor

    [parallelExecutor.run] of [atc/exec/in_parallel.go], which [in_parallel] and
    [across] steps run their substeps with: a loop that starts one goroutine per
    substep, a buffered channel [sem] that bounds how many run at a time, a
    buffered channel [errs] they report on.

    [par] is the state the goroutines share and where each of them is;
    [par_step] is one atomic step of one goroutine: a channel operation, an
    atomic counter update, a read of a context, or a run of a substep.
    [enabled] are the goroutines that are not blocked.  The world's scheduler
    picks among them. *)
From stdpp Require Import base gmap sets list strings.
From Stdlib Require Import ZArith Lia.
From S2P Require Import Prelude Vars Repository ExecWorld.

Open Scope Z_scope.

(** [atc.MaxInFlightConfig]; the pointer may be nil. *)
Record MaxInFlightConfig := { mif_All : bool; mif_Limit : Z }.

Definition EffectiveLimit (c : option MaxInFlightConfig) (numSteps : nat) : Z :=
  match c with
  | None => 1
  | Some c => if mif_All c then Z.of_nat numSteps else mif_Limit c
  end.

(** Where the loop of [run] is. *)
Inductive main_pc :=
| MSend        (* the loop's test, then [sem <- true] *)
| MCheck       (* [runCtx.Err()], then [go func()] *)
| MRecv        (* the second loop's test, then [<-errs] *)
| MEnd.
#[global] Instance main_pc_eq_dec : EqDecision main_pc.
Proof. solve_decision. Defined.

(** Where a goroutine is. *)
Inductive thread_pc :=
| TRun                               (* before [p.runFunc(runCtx, i)] *)
| TReturned (r : step_result)        (* before [numFailures] and [cancel] *)
| TSend (err : option error)         (* before [errs <- err] *)
| TRelease                           (* before the deferred [<-sem] *)
| TPanicRelease (err : error)        (* panicking: before the deferred [<-sem] *)
| TPanicSend (err : error)           (* panicking: before [errs <- err] *)
| TDone.

Record par := {
  p_main : main_pc;
  p_next : nat;                      (* [i] of the first loop *)
  p_sem : nat;                       (* values in [sem] *)
  p_errs : list (option error);      (* values in [errs] *)
  p_failures : Z;                    (* [numFailures], a [uint32] *)
  p_threads : list thread_pc;        (* one per started substep *)
  p_received : nat;                  (* [i] of the second loop *)
  p_result : option error }.

Definition par_init : par :=
  {| p_main := MSend; p_next := 0; p_sem := 0; p_errs := []; p_failures := 0;
     p_threads := []; p_received := 0; p_result := None |}.

Definition executedSteps (p : par) : nat := length (p_threads p).

Definition set_main (m : main_pc) (p : par) : par :=
  {| p_main := m; p_next := p_next p; p_sem := p_sem p; p_errs := p_errs p;
     p_failures := p_failures p; p_threads := p_threads p; p_received := p_received p;
     p_result := p_result p |}.
Definition set_sem (n : nat) (p : par) : par :=
  {| p_main := p_main p; p_next := p_next p; p_sem := n; p_errs := p_errs p;
     p_failures := p_failures p; p_threads := p_threads p; p_received := p_received p;
     p_result := p_result p |}.
Definition set_thread (i : nat) (t : thread_pc) (p : par) : par :=
  {| p_main := p_main p; p_next := p_next p; p_sem := p_sem p; p_errs := p_errs p;
     p_failures := p_failures p; p_threads := <[i := t]> (p_threads p);
     p_received := p_received p; p_result := p_result p |}.
Definition add_failure (p : par) : par :=
  {| p_main := p_main p; p_next := p_next p; p_sem := p_sem p; p_errs := p_errs p;
     p_failures := (p_failures p + 1) mod 2 ^ 32; p_threads := p_threads p;
     p_received := p_received p; p_result := p_result p |}.
Definition send_err (err : option error) (p : par) : par :=
  {| p_main := p_main p; p_next := p_next p; p_sem := p_sem p; p_errs := p_errs p ++ [err];
     p_failures := p_failures p; p_threads := p_threads p; p_received := p_received p;
     p_result := p_result p |}.
Definition spawn (p : par) : par :=
  {| p_main := MSend; p_next := S (p_next p); p_sem := p_sem p; p_errs := p_errs p;
     p_failures := p_failures p; p_threads := p_threads p ++ [TRun];
     p_received := p_received p; p_result := p_result p |}.

Section Parallel.
Context {W : Type} `{ExecWorld W, Multierror}.

(** [parallelExecutor]. *)
Record parallelExecutor := {
  px_stepName : string;
  px_maxInFlight : option MaxInFlightConfig;
  px_failFast : bool;
  px_count : nat;
  px_runFunc : nat -> Ctx -> stepM W step_result }.

Context (x : parallelExecutor) (runCtx : Ctx).

Definition limit : Z := EffectiveLimit (px_maxInFlight x) (px_count x).

(** [err != nil && !errors.Is(err, context.Canceled)]. *)
Definition reported (err : option error) : option error :=
  match err with
  | Some e => if errors_Is e (TContext CtxCanceled) then None else Some e
  | None => None
  end.

Definition receive (err : option error) (rest : list (option error)) (p : par) : par :=
  {| p_main := p_main p; p_next := p_next p; p_sem := p_sem p; p_errs := rest;
     p_failures := p_failures p; p_threads := p_threads p; p_received := S (p_received p);
     p_result :=
       match reported err with
       | Some e => Some (Append (p_result p) e)
       | None => p_result p
       end |}.

Definition main_enabled (p : par) : bool :=
  match p_main p with
  | MSend => negb (p_next p <? px_count x)%nat || (Z.of_nat (p_sem p) <? limit)
  | MCheck => true
  | MRecv => (p_received p =? executedSteps p)%nat || negb (bool_decide (p_errs p = []))
  | MEnd => false
  end.

Definition thread_enabled (p : par) (t : thread_pc) : bool :=
  match t with
  | TRun | TReturned _ => true
  | TSend _ | TPanicSend _ => (length (p_errs p) <? px_count x)%nat
  | TRelease | TPanicRelease _ => (0 <? p_sem p)%nat
  | TDone => false
  end.

(** [None] is the goroutine of [run], [Some i] the one of substep [i]. *)
Definition enabled (p : par) : list (option nat) :=
  (if main_enabled p then [None] else []) ++
  (Some <$> filter (fun i => thread_enabled p (default TDone (p_threads p !! i)) = true)
              (seq 0 (length (p_threads p)))).

Definition main_step (p : par) : stepM W par :=
  match p_main p with
  | MSend =>
      if (p_next p <? px_count x)%nat then mret (set_main MCheck (set_sem (S (p_sem p)) p))
      else mret (set_main MRecv p)
  | MCheck =>
      err ← lift_world (ctx_Err runCtx);
      match err with
      | Some _ => mret (set_main MRecv p)
      | None => mret (spawn p)
      end
  | MRecv =>
      if (p_received p =? executedSteps p)%nat then mret (set_main MEnd p)
      else
        match p_errs p with
        | err :: rest => mret (receive err rest p)
        | [] => mret p
        end
  | MEnd => mret p
  end.

(** A run of a substep, its panic recovered. *)
Definition run_substep (i : nat) (p : par) : stepM W par :=
  fun w =>
    match px_runFunc x i runCtx w with
    | (Ret r, w') => (Ret (set_thread i (TReturned r) p), w')
    | (Fail e, w') => (Fail e, w')
    | (Panic, w') =>
        (Ret (set_thread i (TPanicRelease (PanicError ("panic in " ++ px_stepName x ++ " step"))) p), w')
    | (NoFuel, w') => (NoFuel, w')
    end.

Definition thread_step (i : nat) (p : par) : stepM W par :=
  match default TDone (p_threads p !! i) with
  | TRun => run_substep i p
  | TReturned (succeeded, err) =>
      if succeeded then mret (set_thread i (TSend err) p)
      else
        _ ← (if px_failFast x then update_world (cancel runCtx) else mret ());
        mret (set_thread i (TSend err) (add_failure p))
  | TSend err => mret (set_thread i TRelease (send_err err p))
  | TRelease => mret (set_thread i TDone (set_sem (pred (p_sem p)) p))
  | TPanicRelease err => mret (set_thread i (TPanicSend err) (set_sem (pred (p_sem p)) p))
  | TPanicSend err => mret (set_thread i TDone (send_err (Some err) p))
  | TDone => mret p
  end.

Definition par_step (t : option nat) (p : par) : stepM W par :=
  match t with
  | None => main_step p
  | Some i => thread_step i p
  end.

(** The goroutines run until the loops of [run] are done.  When all of them are
    blocked the call does not return. *)
Fixpoint par_loop (fuel : nat) (p : par) : stepM W par :=
  match fuel with
  | O => fun w => (NoFuel, w)
  | S fuel =>
      match p_main p with
      | MEnd => mret p
      | _ =>
          match enabled p with
          | [] => fun w => (NoFuel, w)
          | t :: _ =>
              k ← lift_world (schedule (length (enabled p)));
              p ← par_step (default t (enabled p !! (k mod length (enabled p))%nat)) p;
              par_loop fuel p
          end
      end
  end.

(** The steps of the loop of [run], and four for each goroutine. *)
Definition par_fuel : nat := 8 * px_count x + 4.

End Parallel.

Arguments parallelExecutor W {_}.

(** [parallelExecutor.run]. *)
Definition parallelExecutor_run {W} `{ExecWorld W, Multierror} (x : parallelExecutor W) (ctx : Ctx)
    : stepM W step_result :=
  if limit x <? 0 then fun w => (Panic, w)
  else
    runCtx ← lift_world (WithCancel ctx);
    p ← par_loop x runCtx (par_fuel x) par_init;
    ctxErr ← lift_world (ctx_Err ctx);
    res ← mret
      match ctxErr with
      | Some e => (false, Some (Context e))
      | None =>
          match p_result p with
          | Some e => (false, Some e)
          | None => (bool_decide (p_failures p = 0), None)
          end
      end;
    _ ← update_world (cancel runCtx);
    mret res.
