(* ===== verification/ParallelSpec.v ===== *)
(** * Properties of the parallel executor

    The invariant of the goroutines of [parallelExecutor.run], proved for every
    step of every goroutine; the bound on how many substeps run at a time; that
    the executor cannot deadlock and returns once its substeps do; that the log of
    a run ([par_log]) shows each started substep once; and what it returns in
    terms of what the substeps returned. *)
From stdpp Require Import base gmap sets list strings relations.
From Stdlib Require Import ZArith Lia.
From S2P Require Import Prelude Vars Repository ExecWorld Parallel.

Open Scope Z_scope.

(** ** What a goroutine did

    [ran] is what became of the substep of a goroutine. *)
Inductive ran := NotYet | Ran (r : step_result) | Panicked (err : error).

Definition pc_ran (t : thread_pc) (h : ran) : Prop :=
  match t with
  | TRun => h = NotYet
  | TReturned r => h = Ran r
  | TSend err => exists ok, h = Ran (ok, err)
  | TRelease => exists r, h = Ran r
  | TPanicRelease err | TPanicSend err => h = Panicked err
  | TDone => h <> NotYet
  end.

(** The goroutine holds one of the values in [sem]. *)
Definition holding (t : thread_pc) : bool :=
  match t with
  | TRun | TReturned _ | TSend _ | TRelease | TPanicRelease _ => true
  | TPanicSend _ | TDone => false
  end.

(** The goroutine has sent to [errs]. *)
Definition sent (t : thread_pc) : bool :=
  match t with TRelease | TDone => true | _ => false end.

Definition count_if {A} (f : A -> bool) (l : list A) : nat := length (filter (fun x => f x = true) l).
#[local] Arguments count_if : simpl never.

(** What a goroutine sent. *)
Definition sent_err (h : ran) : option error :=
  match h with Ran (_, err) => err | Panicked err => Some err | NotYet => None end.

(** The goroutine has counted its failure. *)
Definition counted (t : thread_pc) (h : ran) : bool :=
  match t with
  | TSend _ | TRelease | TDone => match h with Ran (ok, _) => negb ok | _ => false end
  | _ => false
  end.

(** What [run] makes of the errors it received. *)
Definition collect `{Multierror} (recv : list (option error)) : option error :=
  fold_left (fun acc err => match reported err with Some e => Some (Append acc e) | None => acc end)
    recv None.

Definition sent_errs (ts : list thread_pc) (hs : list ran) : list (option error) :=
  omap (fun '(t, h) => if sent t then Some (sent_err h) else None) (zip ts hs).

Definition failures (ts : list thread_pc) (hs : list ran) : nat :=
  count_if (fun '(t, h) => counted t h) (zip ts hs).

Lemma count_if_app {A} (f : A -> bool) l k : count_if f (l ++ k) = (count_if f l + count_if f k)%nat.
Proof. unfold count_if. by rewrite filter_app, length_app. Qed.

Lemma count_if_cons {A} (f : A -> bool) x l :
  count_if f (x :: l) = ((if f x then 1 else 0) + count_if f l)%nat.
Proof. unfold count_if. rewrite filter_cons. case_decide as Hx; destruct (f x); done. Qed.

Lemma count_if_le {A} (f : A -> bool) l : (count_if f l <= length l)%nat.
Proof. apply length_filter. Qed.

Lemma count_if_pos {A} (f : A -> bool) l :
  (0 < count_if f l)%nat -> exists i x, l !! i = Some x /\ f x = true.
Proof.
  unfold count_if. intros Hpos. destruct (filter (fun x => f x = true) l) as [|x k] eqn:Hf; cbn in Hpos; [lia|].
  assert (Hx : x ∈ filter (fun x => f x = true) l) by (rewrite Hf; set_solver).
  apply list_elem_of_filter in Hx as [Hfx Hx]. apply list_elem_of_lookup in Hx as [i Hi]. eauto.
Qed.

Lemma count_if_lt {A} (f : A -> bool) l :
  (count_if f l < length l)%nat -> exists i x, l !! i = Some x /\ f x = false.
Proof.
  induction l as [|x l IH]; cbn; [lia|]. rewrite count_if_cons. intros Hlt.
  destruct (f x) eqn:Hx; [|by exists 0%nat, x]. destruct IH as (i & y & Hy); [lia|]. by exists (S i), y.
Qed.

(** Replacing the element at [i]. *)
Lemma list_split {A} (l : list A) i x :
  l !! i = Some x -> exists l1 l2, l = l1 ++ x :: l2 /\ length l1 = i /\
    forall y, <[i := y]> l = l1 ++ y :: l2.
Proof.
  intros Hi. exists (take i l), (drop (S i) l).
  assert (Hlt := lookup_lt_Some _ _ _ Hi). split_and!.
  - by rewrite take_drop_middle.
  - rewrite length_take. lia.
  - intros y. by rewrite insert_take_drop.
Qed.

Section Spec.
Context {W : Type} `{ExecWorld W, Multierror} (x : parallelExecutor W) (runCtx : Ctx).

(** ** What a run shows

    The runs of substeps with their outcomes, and the looks at the context, in
    the order in which [par_loop] makes them. *)
Inductive observation :=
| Substep (i : nat) (h : ran)
| Looked (err : option ctx_error).

Definition observe (t : option nat) (p : par) (w : W) : list observation :=
  match t with
  | None => match p_main p with MCheck => [Looked (ctx_Err runCtx w).1] | _ => [] end
  | Some i =>
      match default TDone (p_threads p !! i) with
      | TRun =>
          match (px_runFunc x i runCtx w).1 with
          | Ret r => [Substep i (Ran r)]
          | Panic => [Substep i (Panicked (PanicError ("panic in " ++ px_stepName x ++ " step")))]
          | Fail _ | NoFuel => []
          end
      | _ => []
      end
  end.

(** What [par_loop] shows: the same choices, worlds and steps. *)
Fixpoint par_log (fuel : nat) (p : par) (w : W) : list observation :=
  match fuel with
  | O => []
  | S fuel =>
      match p_main p with
      | MEnd => []
      | _ =>
          match enabled x p with
          | [] => []
          | t :: _ =>
              let '(k, w1) := schedule (length (enabled x p)) w in
              let t := default t (enabled x p !! (k mod length (enabled x p))%nat) in
              observe t p w1 ++
              match par_step x runCtx t p w1 with
              | (Ret p', w2) => par_log fuel p' w2
              | _ => []
              end
          end
      end
  end.

Definition substeps (log : list observation) : list (nat * ran) :=
  omap (fun o => match o with Substep i h => Some (i, h) | Looked _ => None end) log.

(** The loop saw that the context was done. *)
Definition stopped (log : list observation) : Prop := exists e, Looked (Some e) ∈ log.

(** The goroutines that have run their substep, with what became of it. *)
Definition finished (hs : list ran) : list (nat * ran) :=
  omap (fun '(i, h) => match h with NotYet => None | _ => Some (i, h) end) (imap pair hs).

Record par_inv (log : list observation) (p : par) (hs : list ran) (recv : list (option error)) : Prop := {
  inv_next : length (p_threads p) = p_next p;
  inv_count : (p_next p <= px_count x)%nat;
  inv_check : p_main p = MCheck -> (p_next p < px_count x)%nat;
  inv_threads : Forall2 pc_ran (p_threads p) hs;
  inv_ran : substeps log ≡ₚ finished hs;
  inv_panic : forall i err, hs !! i = Some (Panicked err) -> err = PanicError ("panic in " ++ px_stepName x ++ " step");
  inv_sem : (count_if holding (p_threads p) <= p_sem p <= S (count_if holding (p_threads p)))%nat;
  inv_sem_send : p_main p = MSend -> p_sem p = count_if holding (p_threads p);
  inv_sem_check : p_main p = MCheck -> p_sem p = S (count_if holding (p_threads p));
  inv_limit : Z.of_nat (p_sem p) <= Z.max 0 (limit x);
  inv_recv : length recv = p_received p;
  inv_early : p_main p = MSend \/ p_main p = MCheck -> p_received p = 0%nat;
  inv_end : p_main p = MEnd -> p_received p = p_next p;
  inv_errs : recv ++ p_errs p ≡ₚ sent_errs (p_threads p) hs;
  inv_result : p_result p = collect recv;
  inv_failures : p_failures p = Z.of_nat (failures (p_threads p) hs) mod 2 ^ 32;
  inv_stop : p_main p = MRecv \/ p_main p = MEnd -> p_next p = px_count x \/ stopped log }.

Lemma finished_app hs h :
  finished (hs ++ [h]) = finished hs ++ match h with NotYet => [] | _ => [(length hs, h)] end.
Proof.
  unfold finished. rewrite imap_app, omap_app. f_equal. cbn. rewrite Nat.add_0_r. by destruct h.
Qed.

Lemma finished_insert hs i h :
  hs !! i = Some NotYet -> h <> NotYet -> finished (<[i := h]> hs) ≡ₚ finished hs ++ [(i, h)].
Proof.
  intros Hi Hh. destruct (list_split _ _ _ Hi) as (hs1 & hs2 & -> & <- & Hins). rewrite Hins. unfold finished.
  rewrite !imap_app, !omap_app. cbn. rewrite Nat.add_0_r. destruct h as [|r|err]; [done| |];
    rewrite <- app_assoc; f_equiv; by rewrite Permutation_cons_append.
Qed.

Lemma finished_all hs : (forall i h, hs !! i = Some h -> h <> NotYet) -> finished hs = imap pair hs.
Proof.
  induction hs as [|h hs IH] using rev_ind; intros Hall; [done|]. rewrite finished_app, imap_app, IH.
  - f_equal. cbn. rewrite Nat.add_0_r. destruct h; [|done..]. by destruct (Hall (length hs) NotYet (list_lookup_middle _ [] _ _ eq_refl)).
  - intros i h' Hi. eapply Hall. by apply lookup_app_l_Some.
Qed.

Lemma substeps_app log log' : substeps (log ++ log') = substeps log ++ substeps log'.
Proof. apply omap_app. Qed.

Lemma stopped_app log log' : stopped log -> stopped (log ++ log').
Proof. intros [e He]. exists e. set_solver. Qed.

Lemma par_inv_init : par_inv [] par_init [] [].
Proof. split; cbn; try done; try lia; naive_solver. Qed.

Lemma sent_errs_length ts hs :
  length ts = length hs -> length (sent_errs ts hs) = count_if sent ts.
Proof.
  unfold sent_errs. revert hs. induction ts as [|t ts IH]; intros [|h hs]; cbn; try done.
  intros [= Hl]. rewrite count_if_cons. destruct (sent t); cbn; by rewrite IH.
Qed.

Lemma zip_split (ts1 ts2 : list thread_pc) (hs : list ran) h :
  hs !! length ts1 = Some h ->
  exists hs1 hs2, hs = hs1 ++ h :: hs2 /\ length hs1 = length ts1 /\
    forall t' h', zip (ts1 ++ t' :: ts2) (<[length ts1 := h']> hs)
                  = zip ts1 hs1 ++ (t', h') :: zip ts2 hs2.
Proof.
  intros Hh. destruct (list_split _ _ _ Hh) as (hs1 & hs2 & -> & Hl & Hins).
  exists hs1, hs2. split_and!; [done|done|]. intros t' h'.
  rewrite Hins, zip_with_app by done. done.
Qed.

(** How the counts change when goroutine [i] moves from [t] to [t']. *)
Lemma thread_move ts hs i t h t' h' :
  Forall2 pc_ran ts hs -> ts !! i = Some t -> hs !! i = Some h -> pc_ran t' h' ->
  (sent t = true -> h' = h) ->
  Forall2 pc_ran (<[i := t']> ts) (<[i := h']> hs) /\
  (count_if holding (<[i := t']> ts) + (if holding t then 1 else 0)
     = count_if holding ts + (if holding t' then 1 else 0))%nat /\
  (failures (<[i := t']> ts) (<[i := h']> hs) + (if counted t h then 1 else 0)
     = failures ts hs + (if counted t' h' then 1 else 0))%nat /\
  (sent t = sent t' -> sent_errs (<[i := t']> ts) (<[i := h']> hs) ≡ₚ sent_errs ts hs) /\
  (sent t = false -> sent t' = true ->
     sent_errs (<[i := t']> ts) (<[i := h']> hs) ≡ₚ sent_errs ts hs ++ [sent_err h']).
Proof.
  intros Hf Ht Hh Hpc Hsame.
  destruct (list_split _ _ _ Ht) as (ts1 & ts2 & -> & <- & Hins).
  destruct (zip_split ts1 ts2 hs h Hh) as (hs1 & hs2 & -> & Hl & Hzip).
  assert (Hz0 : zip (ts1 ++ t :: ts2) (hs1 ++ h :: hs2) = zip ts1 hs1 ++ (t, h) :: zip ts2 hs2)
    by by rewrite zip_with_app.
  split_and!.
  - by apply Forall2_insert.
  - rewrite Hins, !count_if_app, !count_if_cons. destruct (holding t), (holding t'); lia.
  - unfold failures. rewrite Hins, Hzip, Hz0, !count_if_app, !count_if_cons.
    destruct (counted t h), (counted t' h'); lia.
  - intros Hs. unfold sent_errs. rewrite Hins, Hzip, Hz0, !omap_app. cbn. rewrite <- Hs.
    destruct (sent t) eqn:Hst; [|done]. by rewrite Hsame.
  - intros Hst Hst'. unfold sent_errs. rewrite Hins, Hzip, Hz0, !omap_app. cbn. rewrite Hst, Hst'.
    rewrite <- app_assoc. f_equiv. by rewrite Permutation_cons_append.
Qed.

Lemma mod_add_one a b : (a mod 2 ^ 32 + 1) mod 2 ^ 32 = b mod 2 ^ 32 <-> (a + 1) mod 2 ^ 32 = b mod 2 ^ 32.
Proof. by rewrite Zplus_mod_idemp_l. Qed.

Lemma inv_hist log p hs recv i t :
  par_inv log p hs recv -> p_threads p !! i = Some t ->
  exists h, hs !! i = Some h /\ pc_ran t h.
Proof.
  intros Hinv Ht. destruct (Forall2_lookup_l _ _ _ _ _ (inv_threads _ _ _ _ Hinv) Ht) as (h & Hh & Hpc). eauto.
Qed.

(** The substep of goroutine [i] was run. *)
Lemma inv_run log p hs recv i t' h' :
  par_inv log p hs recv -> p_threads p !! i = Some TRun ->
  pc_ran t' h' -> h' <> NotYet ->
  (forall err, h' = Panicked err -> err = PanicError ("panic in " ++ px_stepName x ++ " step")) ->
  holding t' = true -> sent t' = false -> counted t' h' = false ->
  par_inv (log ++ [Substep i h']) (set_thread i t' p) (<[i := h']> hs) recv.
Proof.
  intros Hinv Ht Hpc Hran Hpanic Hhold Hsent Hcount.
  destruct (inv_hist _ _ _ _ _ _ Hinv Ht) as (h & Hh & Hpc0).
  destruct (thread_move _ _ _ _ _ t' h' (inv_threads _ _ _ _ Hinv) Ht Hh Hpc) as (Hf & Hc & Hfl & He & _);
    [done|]. rewrite Hhold in Hc. rewrite Hcount in Hfl. cbn in Hc, Hfl, Hpc0. subst h. destruct Hinv.
  assert (Hc' : count_if holding (<[i := t']> (p_threads p)) = count_if holding (p_threads p)) by lia.
  split; cbn; rewrite ?length_insert, ?Hc'; try done.
  - by rewrite substeps_app, inv_ran0, finished_insert.
  - intros j err Hj. apply list_lookup_insert_Some in Hj as [(_ & -> & _)|[_ Hj]]; eauto.
  - by rewrite He by by rewrite Hsent.
  - rewrite inv_failures0. do 2 f_equal. lia.
  - intros Hm. destruct (inv_stop0 Hm); [by left|right]. by apply stopped_app.
Qed.

(** Goroutine [i] moved on after its substep. *)
Lemma inv_move log p hs recv i t t' h :
  par_inv log p hs recv -> p_threads p !! i = Some t -> hs !! i = Some h -> pc_ran t' h ->
  sent t = sent t' -> holding t = holding t' -> counted t h = false ->
  par_inv log (set_thread i t' (if counted t' h then add_failure p else p)) hs recv.
Proof.
  intros Hinv Ht Hh Hpc Hsent Hhold Hcount.
  destruct (thread_move _ _ _ _ _ t' h (inv_threads _ _ _ _ Hinv) Ht Hh Hpc) as (Hf & Hc & Hfl & He & _);
    [done|]. rewrite (list_insert_id hs i h Hh) in Hf, Hfl, He.
  rewrite Hhold in Hc. rewrite Hcount in Hfl. destruct Hinv.
  assert (Hc' : count_if holding (<[i := t']> (p_threads p)) = count_if holding (p_threads p)).
  { destruct (holding t'); lia. }
  destruct (counted t' h) eqn:Hct; split; cbn; rewrite ?length_insert, ?Hc'; try done;
    try (by rewrite He).
  - rewrite inv_failures0, Zplus_mod_idemp_l. f_equal. lia.
  - rewrite inv_failures0. do 2 f_equal. lia.
Qed.

(** Goroutine [i] took a value from [sem]. *)
Lemma inv_release log p hs recv i t t' h :
  par_inv log p hs recv -> p_threads p !! i = Some t -> hs !! i = Some h -> pc_ran t' h ->
  sent t = sent t' -> holding t = true -> holding t' = false -> counted t h = counted t' h ->
  par_inv log (set_thread i t' (set_sem (pred (p_sem p)) p)) hs recv.
Proof.
  intros Hinv Ht Hh Hpc Hsent Hhold Hhold' Hcount.
  destruct (thread_move _ _ _ _ _ t' h (inv_threads _ _ _ _ Hinv) Ht Hh Hpc) as (Hf & Hc & Hfl & He & _);
    [done|]. rewrite (list_insert_id hs i h Hh) in Hf, Hfl, He.
  rewrite Hhold, Hhold' in Hc. rewrite Hcount in Hfl. destruct Hinv.
  split; cbn; rewrite ?length_insert; try done; try lia.
  - intros Hm. specialize (inv_sem_send0 Hm). lia.
  - intros Hm. specialize (inv_sem_check0 Hm). lia.
  - by rewrite He.
  - rewrite inv_failures0. do 2 f_equal. lia.
Qed.

(** Goroutine [i] reported on [errs]. *)
Lemma inv_send log p hs recv i t t' h :
  par_inv log p hs recv -> p_threads p !! i = Some t -> hs !! i = Some h -> pc_ran t' h ->
  sent t = false -> sent t' = true -> holding t = holding t' -> counted t h = counted t' h ->
  par_inv log (set_thread i t' (send_err (sent_err h) p)) hs recv.
Proof.
  intros Hinv Ht Hh Hpc Hsent Hsent' Hhold Hcount.
  destruct (thread_move _ _ _ _ _ t' h (inv_threads _ _ _ _ Hinv) Ht Hh Hpc) as (Hf & Hc & Hfl & _ & He);
    [by rewrite Hsent|]. rewrite (list_insert_id hs i h Hh) in Hf, Hfl, He.
  rewrite Hhold in Hc. rewrite Hcount in Hfl. destruct Hinv.
  assert (Hc' : count_if holding (<[i := t']> (p_threads p)) = count_if holding (p_threads p)).
  { destruct (holding t'); lia. }
  split; cbn; rewrite ?length_insert, ?Hc'; try done.
  - rewrite He by done. by rewrite app_assoc, inv_errs0.
  - rewrite inv_failures0. do 2 f_equal. lia.
Qed.

Lemma thread_step_inv i log p hs recv w p' w' :
  par_inv log p hs recv -> thread_step x runCtx i p w = (Ret p', w') ->
  exists hs' recv', par_inv (log ++ observe (Some i) p w) p' hs' recv'.
Proof.
  intros Hinv Hstep. unfold thread_step, mret, stateful_ret, mbind, stateful_bind in Hstep.
  destruct (p_threads p !! i) as [t|] eqn:Ht; unfold observe; rewrite Ht; cbn in Hstep |- *; [|rewrite app_nil_r; by simplify_eq; eauto].
  destruct (inv_hist _ _ _ _ _ _ Hinv Ht) as (h & Hh & Hpc).
  destruct t as [|[ok err]|err| |err|err|]; cbn in Hstep, Hpc |- *; rewrite ?app_nil_r.
  - unfold run_substep in Hstep. destruct (px_runFunc x i runCtx w) as [[r|e| |] w1] eqn:Hrun; simplify_eq.
    + eexists _, recv. by eapply inv_run.
    + eexists _, recv. eapply inv_run; try done. by intros ? [= <-].
  - subst h. assert (Hp' : p' = set_thread i (TSend err)
              (if counted (TSend err) (Ran (ok, err)) then add_failure p else p)).
    { destruct ok; cbn in Hstep |- *; [by simplify_eq|].
      destruct (px_failFast x); cbn in Hstep; by simplify_eq. }
    subst p'. exists hs, recv. eapply inv_move; cbn; eauto.
  - destruct Hpc as [ok ->]. simplify_eq. exists hs, recv.
    apply (inv_send log p hs recv i (TSend err) TRelease (Ran (ok, err))); cbn; eauto.
  - destruct Hpc as [r ->]. simplify_eq. exists hs, recv.
    eapply inv_release; cbn; eauto.
  - subst h. simplify_eq. exists hs, recv. eapply inv_release; cbn; eauto.
  - subst h. simplify_eq. exists hs, recv.
    apply (inv_send log p hs recv i (TPanicSend err) TDone (Panicked err)); cbn; eauto.
  - simplify_eq. eauto.
Qed.

(** The loop of [run] took a step. *)
Lemma inv_spawn log p hs recv :
  par_inv log p hs recv -> p_main p = MCheck -> par_inv log (spawn p) (hs ++ [NotYet]) recv.
Proof.
  intros Hinv Hm. assert (Hlen := Forall2_length _ _ _ (inv_threads _ _ _ _ Hinv)).
  destruct Hinv. specialize (inv_check0 Hm). specialize (inv_sem_check0 Hm).
  assert (Hz : zip (p_threads p ++ [TRun]) (hs ++ [NotYet]) = zip (p_threads p) hs ++ [(TRun, NotYet)])
    by by rewrite zip_with_app.
  split; cbn; try done; rewrite ?length_app, ?count_if_app; cbn; try lia; try (intros; discriminate).
  - apply Forall2_app; [done|]. by repeat constructor.
  - by rewrite finished_app, app_nil_r.
  - intros i h Hi. apply lookup_app_Some in Hi as [Hi|[_ Hi]]; [eauto|].
    destruct (i - length hs)%nat; by simplify_eq/=.
  - rewrite count_if_cons. cbn. unfold count_if at 2. cbn. lia.
  - intros _. rewrite count_if_cons. cbn. unfold count_if at 2. cbn. lia.
  - auto.
  - unfold sent_errs in *. rewrite Hz, omap_app. cbn. by rewrite app_nil_r.
  - unfold failures in *. rewrite Hz, count_if_app, count_if_cons. cbn. unfold count_if at 2. cbn.
    by rewrite Nat.add_0_r.
  - intros [Hd|Hd]; discriminate.
Qed.

Lemma collect_snoc recv err :
  collect (recv ++ [err]) =
    match reported err with Some e => Some (Append (collect recv) e) | None => collect recv end.
Proof. unfold collect. by rewrite fold_left_app. Qed.

(** A look at the context changes nothing else. *)
Lemma inv_look log p hs recv err : par_inv log p hs recv -> par_inv (log ++ [Looked err]) p hs recv.
Proof.
  intros []. split; try done; [by rewrite substeps_app, app_nil_r|].
  intros Hm. destruct (inv_stop0 Hm); [by left|right]. by apply stopped_app.
Qed.

Lemma main_step_inv log p hs recv w p' w' :
  par_inv log p hs recv -> main_enabled x p = true -> main_step x runCtx p w = (Ret p', w') ->
  exists hs' recv', par_inv (log ++ observe None p w) p' hs' recv'.
Proof.
  intros Hinv Hen Hstep. unfold main_step, main_enabled, observe, mret, stateful_ret in *.
  destruct (p_main p) eqn:Hm; cbv beta iota in Hen; rewrite ?app_nil_r.
  - exists hs, recv. destruct (p_next p <? px_count x)%nat eqn:Hlt; cbn [negb orb] in Hen; simplify_eq.
    + apply Nat.ltb_lt in Hlt. apply Z.ltb_lt in Hen. destruct Hinv. specialize (inv_sem_send0 Hm).
      split; cbn; try done; try lia; auto; try (intros; discriminate).
      intros [Hd|Hd]; discriminate.
    + apply Nat.ltb_ge in Hlt. destruct Hinv. split; cbn; try done; try (intros; discriminate).
      * intros [Hd|Hd]; discriminate.
      * intros _. left. lia.
  - unfold mbind, stateful_bind, lift_world in Hstep.
    destruct (ctx_Err runCtx w) as [[e|] w1] eqn:He; simplify_eq; [|exists (hs ++ [NotYet]), recv; by apply inv_look, inv_spawn].
    cbn. exists hs, recv. destruct Hinv. split; cbn; try done; try (intros; discriminate).
    + by rewrite substeps_app, app_nil_r.
    + intros [Hd|Hd]; discriminate.
    + intros _. right. exists e. set_solver.
  - destruct (p_received p =? executedSteps p)%nat eqn:Hr; simplify_eq.
    + apply Nat.eqb_eq in Hr. exists hs, recv. destruct Hinv.
      split; cbn; try done; try (intros; discriminate); auto.
      * intros [Hd|Hd]; discriminate.
      * intros _. unfold executedSteps in Hr. lia.
    + destruct (p_errs p) as [|err rest] eqn:Herr; simplify_eq.
      exists hs, (recv ++ [err]). destruct Hinv. split; cbn; try done; try (rewrite Hm; intros; discriminate).
      * rewrite length_app. cbn. lia.
      * rewrite Hm. intros [Hd|Hd]; discriminate.
      * rewrite <- app_assoc. cbn. by rewrite <- Herr.
      * by rewrite collect_snoc, inv_result0.
  - done.
Qed.

Lemma elem_of_enabled p t :
  t ∈ enabled x p <->
  match t with
  | None => main_enabled x p = true
  | Some i => exists pc, p_threads p !! i = Some pc /\ thread_enabled x p pc = true
  end.
Proof.
  unfold enabled. rewrite elem_of_app, list_elem_of_fmap. destruct t as [i|].
  - split.
    + intros [Hn|(j & [= ->] & Hj)]; [destruct (main_enabled x p); set_solver|].
      apply list_elem_of_filter in Hj as [Hj Hin]. destruct (p_threads p !! j); eauto. discriminate.
    + intros (pc & Hpc & He). right. exists i. split; [done|]. apply list_elem_of_filter. rewrite Hpc.
      split; [done|]. apply elem_of_seq. apply lookup_lt_Some in Hpc. lia.
  - split.
    + intros [Hn|(j & Hj & _)]; [|discriminate]. destruct (main_enabled x p); set_solver.
    + intros ->. left. set_solver.
Qed.

Lemma par_step_inv t log p hs recv w p' w' :
  par_inv log p hs recv -> t ∈ enabled x p -> par_step x runCtx t p w = (Ret p', w') ->
  exists hs' recv', par_inv (log ++ observe t p w) p' hs' recv'.
Proof.
  intros Hinv Ht Hstep. apply elem_of_enabled in Ht. destruct t as [i|]; cbn in Hstep.
  - by eapply thread_step_inv.
  - by eapply main_step_inv.
Qed.

(** ** Progress *)

(** A goroutine that has not reported can move. *)
Lemma unsent_enabled log p hs recv i t :
  par_inv log p hs recv -> p_threads p !! i = Some t -> sent t = false -> thread_enabled x p t = true.
Proof.
  intros Hinv Ht Hs.
  assert (Hsent : (length (p_errs p) <= count_if sent (p_threads p))%nat).
  { rewrite <- (sent_errs_length _ hs) by (eapply Forall2_length, inv_threads; done).
    rewrite <- (Permutation_length (inv_errs _ _ _ _ Hinv)), length_app. lia. }
  destruct (list_split _ _ _ Ht) as (ts1 & ts2 & Hts & _).
  assert (Hlt : (count_if sent (p_threads p) < px_count x)%nat).
  { rewrite Hts, count_if_app, count_if_cons, Hs.
    assert (H1 := count_if_le sent ts1). assert (H2 := count_if_le sent ts2).
    assert (Hl : length (p_threads p) = S (length ts1 + length ts2)).
    { rewrite Hts, length_app. cbn. lia. }
    destruct Hinv. lia. }
  assert (Hhold : holding t = true -> (0 < p_sem p)%nat).
  { intros Hh. assert (Hc : (1 <= count_if holding (p_threads p))%nat).
    { rewrite Hts, count_if_app, count_if_cons, Hh. lia. }
    destruct Hinv. lia. }
  destruct t; cbn in Hs, Hhold; try done; unfold thread_enabled; apply Nat.ltb_lt; auto; lia.
Qed.

(** Some goroutine can move: the executor does not deadlock. *)
Lemma par_progress log p hs recv :
  px_count x = 0%nat \/ 1 <= limit x -> par_inv log p hs recv -> p_main p <> MEnd -> enabled x p <> [].
Proof.
  intros Hlim Hinv Hm Hnil.
  assert (Hno : forall t, t ∉ enabled x p) by (rewrite Hnil; set_solver).
  assert (Hmain : main_enabled x p = false).
  { specialize (Hno None). rewrite elem_of_enabled in Hno. by apply not_true_is_false. }
  assert (Hthreads : forall i t, p_threads p !! i = Some t -> sent t = true).
  { intros i t Ht. destruct (sent t) eqn:Hs; [done|]. exfalso. apply (Hno (Some i)), elem_of_enabled.
    exists t. split; [done|]. by eapply unsent_enabled. }
  unfold main_enabled in Hmain. destruct (p_main p) eqn:Hpc; try done.
  - apply orb_false_iff in Hmain as [Hlt Hsem]. apply negb_false_iff, Nat.ltb_lt in Hlt.
    apply Z.ltb_ge in Hsem. assert (Hs := inv_sem_send _ _ _ _ Hinv Hpc).
    destruct (count_if_pos holding (p_threads p)) as (i & t & Ht & Hh); [lia|].
    apply (Hno (Some i)), elem_of_enabled. exists t. split; [done|]. specialize (Hthreads _ _ Ht).
    destruct t; cbn in Hh, Hthreads; try done. unfold thread_enabled. apply Nat.ltb_lt. lia.
  - apply orb_false_iff in Hmain as [Hr He]. apply Nat.eqb_neq in Hr.
    apply negb_false_iff, bool_decide_eq_true in He.
    assert (Hperm := inv_errs _ _ _ _ Hinv). rewrite He, app_nil_r in Hperm.
    apply Permutation_length in Hperm.
    rewrite sent_errs_length in Hperm by (eapply Forall2_length, inv_threads; done).
    rewrite (inv_recv _ _ _ _ Hinv) in Hperm. unfold executedSteps in Hr.
    assert (Hle := count_if_le sent (p_threads p)).
    destruct (count_if_lt sent (p_threads p)) as (i & t & Ht & Hs); [lia|].
    rewrite (Hthreads _ _ Ht) in Hs. discriminate.
Qed.

(** ** Termination *)

Definition thread_weight (t : thread_pc) : nat :=
  match t with
  | TRun => 4
  | TReturned _ => 3
  | TSend _ | TPanicRelease _ => 2
  | TRelease | TPanicSend _ => 1
  | TDone => 0
  end.

Definition main_weight (p : par) : nat :=
  let pending := (length (p_threads p) - p_received p)%nat in
  match p_main p with
  | MSend => 7 * (px_count x - p_next p) + 2 + pending
  | MCheck => 7 * (px_count x - p_next p) + 1 + pending
  | MRecv => 1 + pending
  | MEnd => 0
  end%nat.

Definition par_weight (p : par) : nat :=
  (main_weight p + sum_list (thread_weight <$> p_threads p))%nat.

Lemma sum_list_insert (ts : list thread_pc) i t t' :
  ts !! i = Some t ->
  (sum_list (thread_weight <$> <[i := t']> ts) + thread_weight t
   = sum_list (thread_weight <$> ts) + thread_weight t')%nat.
Proof.
  intros Ht. destruct (list_split _ _ _ Ht) as (ts1 & ts2 & -> & _ & Hins).
  rewrite Hins, !fmap_app, !fmap_cons, !sum_list_with_app. cbn. lia.
Qed.

Lemma thread_step_weight i p w p' w' t :
  p_threads p !! i = Some t -> thread_enabled x p t = true ->
  thread_step x runCtx i p w = (Ret p', w') -> (par_weight p' < par_weight p)%nat.
Proof.
  intros Ht Hen Hstep. unfold thread_step, mret, stateful_ret, mbind, stateful_bind in Hstep.
  rewrite Ht in Hstep. cbn in Hstep.
  assert (Hw : exists t', p_threads p' = <[i := t']> (p_threads p) /\ p_main p' = p_main p /\
            p_next p' = p_next p /\ p_received p' = p_received p /\
            (thread_weight t' < thread_weight t)%nat).
  { destruct t as [|[ok err]|err| |err|err|]; cbn in Hen |- *; try done.
    - unfold run_substep in Hstep. destruct (px_runFunc x i runCtx w) as [[r|e| |] w1]; simplify_eq; cbn;
        eexists; split_and!; try done; cbn; lia.
    - destruct ok; cbn in Hstep; [|destruct (px_failFast x); cbn in Hstep]; simplify_eq; cbn;
        eexists; split_and!; try done; cbn; lia.
    - simplify_eq. cbn. eexists. split_and!; try done; cbn; lia.
    - simplify_eq. cbn. eexists. split_and!; try done; cbn; lia.
    - simplify_eq. cbn. eexists. split_and!; try done; cbn; lia.
    - simplify_eq. cbn. eexists. split_and!; try done; cbn; lia. }
  destruct Hw as (t' & Hth & Hm & Hn & Hr & Hlt). unfold par_weight, main_weight.
  rewrite Hm, Hn, Hr, Hth, length_insert. assert (Hs := sum_list_insert _ _ _ t' Ht). lia.
Qed.

Lemma main_step_weight log p hs recv w p' w' :
  par_inv log p hs recv -> main_enabled x p = true ->
  main_step x runCtx p w = (Ret p', w') -> (par_weight p' < par_weight p)%nat.
Proof.
  intros Hinv Hen Hstep. unfold main_step, main_enabled, mret, stateful_ret in *.
  unfold par_weight, main_weight. destruct (p_main p) eqn:Hm; cbv beta iota in Hen.
  - destruct (p_next p <? px_count x)%nat eqn:Hlt; simplify_eq; cbn; lia.
  - assert (Hlt := inv_check _ _ _ _ Hinv Hm). assert (Hr := inv_early _ _ _ _ Hinv (or_intror Hm)).
    unfold mbind, stateful_bind, lift_world in Hstep.
    destruct (ctx_Err runCtx w) as [[e|] w1]; simplify_eq; cbn; [lia|].
    rewrite length_app, fmap_app, sum_list_with_app. cbn. lia.
  - unfold executedSteps in *. destruct (p_received p =? length (p_threads p))%nat eqn:Hr; simplify_eq; cbn; [lia|].
    destruct (p_errs p) as [|err rest] eqn:Herr; [done|]. simplify_eq. cbn. rewrite Hm.
    assert (Hlen : (S (p_received p) <= length (p_threads p))%nat).
    { assert (Hp := Permutation_length (inv_errs _ _ _ _ Hinv)).
      rewrite Herr, length_app, sent_errs_length in Hp by (eapply Forall2_length, inv_threads; done).
      rewrite (inv_recv _ _ _ _ Hinv) in Hp. cbn in Hp.
      assert (Hle := count_if_le sent (p_threads p)). lia. }
    lia.
  - done.
Qed.

Lemma par_step_weight t log p hs recv w p' w' :
  par_inv log p hs recv -> t ∈ enabled x p -> par_step x runCtx t p w = (Ret p', w') ->
  (par_weight p' < par_weight p)%nat.
Proof.
  intros Hinv Ht Hstep. apply elem_of_enabled in Ht. destruct t as [i|]; cbn in Hstep.
  - destruct Ht as (t & Ht & Hen). by eapply thread_step_weight.
  - by eapply main_step_weight.
Qed.

(** From a world that satisfies [I], every substep that is run returns or
    panics in such a world, and so do the executor's own operations. *)
Record substeps_return (I : W -> Prop) : Prop := {
  sr_run i w : (i < px_count x)%nat -> I w ->
    match px_runFunc x i runCtx w with (Ret _, w') | (Panic, w') => I w' | _ => False end;
  sr_err w : I w -> I (ctx_Err runCtx w).2;
  sr_cancel w : I w -> I (cancel runCtx w);
  sr_schedule n w : I w -> I (schedule n w).2 }.

(** The loop runs an enabled goroutine, and shows what it does. *)
Lemma loop_unfold fuel p w :
  p_main p <> MEnd -> enabled x p <> [] ->
  exists t w1, t ∈ enabled x p /\ w1 = (schedule (length (enabled x p)) w).2 /\
    par_loop x runCtx (S fuel) p w =
      match par_step x runCtx t p w1 with
      | (Ret p', w2) => par_loop x runCtx fuel p' w2
      | (Fail e, w2) => (Fail e, w2)
      | (Panic, w2) => (Panic, w2)
      | (NoFuel, w2) => (NoFuel, w2)
      end /\
    par_log (S fuel) p w =
      observe t p w1 ++
      match par_step x runCtx t p w1 with (Ret p', w2) => par_log fuel p' w2 | _ => [] end.
Proof.
  intros Hm Hen. cbn [par_loop par_log]. destruct (enabled x p) as [|t0 ts] eqn:Hts; [done|].
  unfold mbind, stateful_bind, lift_world. destruct (schedule (length (t0 :: ts)) w) as [k w1] eqn:Hsch.
  set (t := default t0 _). exists t, w1. split_and!; try done.
  - unfold t. destruct (_ !! _) as [u|] eqn:Hu; cbn; [by eapply list_elem_of_lookup_2|set_solver].
  - destruct (p_main p); cbn beta; by rewrite ?Hsch.
  - destruct (p_main p); done.
Qed.

Lemma par_step_returns I t log p hs recv w :
  substeps_return I -> I w -> par_inv log p hs recv -> t ∈ enabled x p ->
  exists p' w', par_step x runCtx t p w = (Ret p', w') /\ I w'.
Proof.
  intros [Hrun Herr Hcancel _] HI Hinv Ht. apply elem_of_enabled in Ht. destruct t as [i|]; cbn.
  - destruct Ht as (t & Ht & _). unfold thread_step, mret, stateful_ret, mbind, stateful_bind. rewrite Ht. cbn.
    destruct t as [|[[] err]|err| |err|err|]; eauto.
    + unfold run_substep. specialize (Hrun i w).
      assert (Hi := lookup_lt_Some _ _ _ Ht). destruct Hinv.
      assert (Hlt : (i < px_count x)%nat) by lia.
      destruct (px_runFunc x i runCtx w) as [[| | |] w1]; try (by destruct Hrun);
        eexists _, _; (split; [done|]); by apply Hrun.
    + destruct (px_failFast x); cbn; eauto.
  - unfold main_step, mret, stateful_ret, mbind, stateful_bind, lift_world. destruct (p_main p); eauto.
    + destruct (p_next p <? px_count x)%nat; eauto.
    + specialize (Herr w HI). destruct (ctx_Err runCtx w) as [[] ?]; eauto.
    + destruct (p_received p =? executedSteps p)%nat; eauto. destruct (p_errs p); eauto.
Qed.

Lemma par_loop_returns I fuel log p hs recv w :
  substeps_return I -> px_count x = 0%nat \/ 1 <= limit x ->
  I w -> par_inv log p hs recv -> (par_weight p < fuel)%nat ->
  exists p' hs' recv' w', par_loop x runCtx fuel p w = (Ret p', w') /\
    par_inv (log ++ par_log fuel p w) p' hs' recv' /\ p_main p' = MEnd /\ I w'.
Proof.
  intros Hsub Hlim. revert log p hs recv w.
  induction fuel as [|fuel IH]; intros log p hs recv w HI Hinv Hf; [lia|].
  destruct (decide (p_main p = MEnd)) as [Hm|Hm].
  { exists p, hs, recv, w. cbn. rewrite Hm. by rewrite app_nil_r. }
  assert (Hen := par_progress _ _ _ _ Hlim Hinv Hm).
  destruct (loop_unfold fuel p w Hm Hen) as (t & w1 & Ht & -> & -> & ->).
  assert (HI1 := sr_schedule _ Hsub (length (enabled x p)) w HI).
  destruct (par_step_returns I t log p hs recv _ Hsub HI1 Hinv Ht) as (p1 & w2 & Hs & HI2). rewrite Hs.
  destruct (par_step_inv _ _ _ _ _ _ _ _ Hinv Ht Hs) as (hs1 & recv1 & Hinv1). rewrite app_assoc.
  apply (IH _ p1 hs1 recv1 w2 HI2 Hinv1).
  assert (Hw := par_step_weight _ _ _ _ _ _ _ _ Hinv Ht Hs). lia.
Qed.

(** ** When the loops of [run] are done *)

Definition succeeded (h : ran) : bool := match h with Ran (ok, _) => ok | _ => false end.

Lemma sent_errs_all ts hs :
  length ts = length hs -> Forall (fun t => sent t = true) ts -> sent_errs ts hs = sent_err <$> hs.
Proof.
  unfold sent_errs. revert hs. induction ts as [|t ts IH]; intros [|h hs]; cbn; try done.
  intros [= Hl] Hf. apply Forall_cons in Hf as [Ht Hf]. rewrite Ht. cbn. by rewrite IH.
Qed.

Lemma failures_all ts hs :
  length ts = length hs -> Forall (fun t => sent t = true) ts ->
  failures ts hs = count_if (fun h => match h with Ran (ok, _) => negb ok | _ => false end) hs.
Proof.
  unfold failures. revert hs. induction ts as [|t ts IH]; intros [|h hs]; cbn; try done.
  intros [= Hl] Hf. apply Forall_cons in Hf as [Ht Hf]. rewrite !count_if_cons, (IH hs) by done.
  f_equal. destruct t; done.
Qed.

Lemma count_if_sent_all (ts : list thread_pc) :
  count_if sent ts = length ts -> Forall (fun t => sent t = true) ts.
Proof.
  induction ts as [|t ts IH]; [constructor|]. rewrite count_if_cons. cbn.
  assert (Hle := count_if_le sent ts). destruct (sent t) eqn:Ht; intros Hc; [|lia].
  constructor; [done|]. apply IH. lia.
Qed.

Lemma par_end log p hs recv :
  par_inv log p hs recv -> p_main p = MEnd ->
  recv ≡ₚ sent_err <$> hs /\ length hs = p_next p /\ (forall i h, hs !! i = Some h -> h <> NotYet) /\
  p_failures p =
    Z.of_nat (count_if (fun h => match h with Ran (ok, _) => negb ok | _ => false end) hs) mod 2 ^ 32.
Proof.
  intros Hinv Hm. assert (Hlen := Forall2_length _ _ _ (inv_threads _ _ _ _ Hinv)).
  assert (Hperm := inv_errs _ _ _ _ Hinv). assert (Hl := Permutation_length Hperm).
  rewrite length_app, sent_errs_length, (inv_recv _ _ _ _ Hinv), (inv_end _ _ _ _ Hinv Hm) in Hl by done.
  assert (Hle := count_if_le sent (p_threads p)). rewrite (inv_next _ _ _ _ Hinv) in Hle.
  assert (Hall : Forall (fun t => sent t = true) (p_threads p)).
  { apply count_if_sent_all. rewrite (inv_next _ _ _ _ Hinv). lia. }
  assert (Hnil : p_errs p = []) by (apply length_zero_iff_nil; lia).
  rewrite Hnil, app_nil_r, sent_errs_all in Hperm by done. split_and!; try done.
  - rewrite <- Hlen. apply Hinv.
  - intros i h Hh. destruct (Forall2_lookup_r _ _ _ _ _ (inv_threads _ _ _ _ Hinv) Hh) as (t & Ht & Hpc).
    eapply Forall_lookup_1 in Hall; [|exact Ht]. destruct t; try done. cbn in Hpc. naive_solver.
  - rewrite (inv_failures _ _ _ _ Hinv), failures_all; done.
Qed.

Lemma count_if_zero {A} (f : A -> bool) l : count_if f l = 0%nat <-> Forall (fun a => f a = false) l.
Proof.
  induction l as [|a l IH]; [by split; [constructor|]|]. rewrite count_if_cons, Forall_cons, <- IH.
  destruct (f a); split; intros; try lia; naive_solver.
Qed.

(** A panic is reported, so nothing panicked when nothing is reported. *)
Lemma collect_None recv err : collect recv = None -> err ∈ recv -> reported err = None.
Proof.
  induction recv as [|e recv IH] using rev_ind; [set_solver|]. rewrite collect_snoc. intros Hc Herr.
  apply elem_of_app in Herr as [Herr|Herr].
  - apply IH; [|done]. by destruct (reported e).
  - apply list_elem_of_singleton in Herr as ->. by destruct (reported e).
Qed.

Lemma par_succeeded log p hs recv :
  par_inv log p hs recv -> p_main p = MEnd -> (Z.of_nat (px_count x) < 2 ^ 32) -> collect recv = None ->
  bool_decide (p_failures p = 0) = forallb succeeded hs.
Proof.
  intros Hinv Hm Hcount Hc. destruct (par_end _ _ _ _ Hinv Hm) as (Hperm & Hlen & Hran & Hfail).
  assert (Hle := count_if_le (fun h => match h with Ran (ok, _) => negb ok | _ => false end) hs).
  assert (Hnext := inv_count _ _ _ _ Hinv).
  rewrite Z.mod_small in Hfail by lia.
  assert (Hnp : forall i err, hs !! i <> Some (Panicked err)).
  { intros i err Hi. assert (Hin : Some err ∈ recv).
    { rewrite Hperm. apply list_elem_of_fmap. exists (Panicked err). split; [done|].
      by eapply list_elem_of_lookup_2. }
    apply (collect_None _ _ Hc) in Hin. rewrite (inv_panic _ _ _ _ Hinv _ _ Hi) in Hin. discriminate. }
  apply eq_bool_prop_intro. rewrite bool_decide_spec, Is_true_true, forallb_forall, Hfail.
  transitivity (count_if (fun h => match h with Ran (ok, _) => negb ok | _ => false end) hs = 0%nat); [lia|].
  rewrite count_if_zero, Forall_forall. setoid_rewrite <- list_elem_of_In. split; intros Hall h Hh.
  - specialize (Hall h Hh). apply list_elem_of_lookup in Hh as [i Hi].
    destruct h as [|[ok e]|e]; [by destruct (Hran _ _ Hi)| |by destruct (Hnp _ _ Hi)].
    cbn. by apply negb_false_iff in Hall.
  - specialize (Hall h Hh). destruct h as [|[ok e]|e]; cbn in *; try done. by rewrite Hall.
Qed.

(** ** The bound on the number of running substeps *)

Definition pstep (p p' : par) : Prop :=
  exists t w w', t ∈ enabled x p /\ par_step x runCtx t p w = (Ret p', w').

Lemma reachable_inv p : rtc pstep par_init p -> exists log hs recv, par_inv log p hs recv.
Proof.
  intros Hr. assert (Hgen : forall p0, rtc pstep p0 p -> (exists log hs recv, par_inv log p0 hs recv) ->
    exists log hs recv, par_inv log p hs recv).
  { clear Hr. induction 1 as [p0|p0 p1 p2 (t & w & w' & Ht & Hs) _ IH]; [done|].
    intros (log & hs & recv & Hinv). apply IH. destruct (par_step_inv _ _ _ _ _ _ _ _ Hinv Ht Hs) as (? & ? & ?). eauto. }
  apply (Hgen _ Hr). exists [], [], []. apply par_inv_init.
Qed.

End Spec.

Section Claims.
Context {W : Type} `{ExecWorld W, Multierror}.

(** C37: In every state the goroutines of an [in_parallel] or [across]
    step can reach, whatever their order and whatever the substeps return, at
    most the configured number of substeps is in flight (started, and its slot
    not given back), and the substeps were started in their order. *)
Theorem parallel_limit (x : parallelExecutor W) runCtx p :
  0 <= limit x -> rtc (pstep x runCtx) par_init p ->
  Z.of_nat (count_if holding (p_threads p)) <= limit x /\ length (p_threads p) = p_next p.
Proof.
  intros Hlim Hr. destruct (reachable_inv _ _ _ Hr) as (log & hs & recv & Hinv).
  split; [|apply Hinv]. assert (Hs := inv_sem _ _ _ _ _ Hinv). assert (Hl := inv_limit _ _ _ _ _ Hinv). lia.
Qed.

(** C16: The parallel executor returns whenever each of its substeps
    returns or panics and its limit is at least one (or it has no substeps): it
    never deadlocks, whatever order the goroutines run in.  The log of that very
    run then shows every started substep run exactly once, with its outcome;
    the started ones are all of them, unless the run looked at its own context
    and found it done.  The executor returns the error of the context it was
    given if that is done at the end, else the errors and panics of its substeps
    that are not a cancellation, else whether all started substeps succeeded. *)
Theorem parallel_run (x : parallelExecutor W) ctx w runCtx w0 :
  px_count x = 0%nat \/ 1 <= limit x -> 0 <= limit x -> Z.of_nat (px_count x) < 2 ^ 32 ->
  WithCancel ctx w = (runCtx, w0) ->
  substeps_return x runCtx (fun _ => True) ->
  exists res w' hs recv p w1 ctxErr w2,
    parallelExecutor_run x ctx w = (Ret res, w') /\
    let log := par_log x runCtx (par_fuel x) par_init w0 in
    par_loop x runCtx (par_fuel x) par_init w0 = (Ret p, w1) /\
    substeps log ≡ₚ imap pair hs /\
    (forall h, h ∈ hs -> h <> NotYet) /\
    (length hs = px_count x \/ stopped log) /\
    recv ≡ₚ sent_err <$> hs /\
    ctx_Err ctx w1 = (ctxErr, w2) /\
    res = match ctxErr with
          | Some e => (false, Some (Context e))
          | None =>
              match collect recv with
              | Some e => (false, Some e)
              | None => (forallb succeeded hs, None)
              end
          end.
Proof.
  intros Hlim Hpos Hcount Hctx0 Hsub. unfold parallelExecutor_run.
  destruct (limit x <? 0) eqn:Hneg; [apply Z.ltb_lt in Hneg; lia|].
  unfold mbind, stateful_bind, lift_world, update_world. rewrite Hctx0.
  destruct (par_loop_returns x runCtx _ (par_fuel x) [] par_init [] [] w0 Hsub Hlim Logic.I (par_inv_init x))
    as (p & hs & recv & w1 & Hloop & Hinv & Hm & _).
  { unfold par_weight, main_weight, par_fuel. cbn. lia. }
  rewrite Hloop. destruct (ctx_Err ctx w1) as [ctxErr w2] eqn:Hctx.
  destruct (par_end _ _ _ _ _ Hinv Hm) as (Hperm & Hlen & Hran & _).
  eexists _, _, hs, recv, p, w1, ctxErr, w2. cbn zeta. split_and!; try done.
  - rewrite (inv_ran _ _ _ _ _ Hinv). by rewrite finished_all.
  - intros h Hh. apply list_elem_of_lookup in Hh as [i Hi]. by eapply Hran.
  - rewrite Hlen. apply (inv_stop _ _ _ _ _ Hinv). by right.
  - destruct ctxErr; [done|]. rewrite (inv_result _ _ _ _ _ Hinv).
    destruct (collect recv) eqn:Hc; [done|]. by erewrite par_succeeded.
Qed.

End Claims.
