(* ===== verification/Exec.v ===== *)
(** * The steps of a build

    The control-flow steps of [atc/exec] (identity, try, on_success, on_failure,
    on_abort, on_error, ensure, timeout, retry, in_parallel, across) and the two
    wrappers of the core steps (log_error, retry_error); the run state and the
    scopes of local variables.

    A [Step] is its [Run] method. *)
From stdpp Require Import base gmap sets list strings.
From Stdlib Require Import ZArith Lia Ascii.
From S2P Require Import Prelude Vars Repository ExecWorld Parallel.

Open Scope Z_scope.

(** ** The control-flow steps *)

Section Steps.
Context {W : Type} `{ExecWorld W, Multierror}.

Definition Step := Ctx -> runState -> stepM W step_result.

Definition IdentityStep : Step := fun _ _ => mret (true, None).

Definition TryStep (step : Step) : Step := fun ctx state =>
  '(_, err) ← step ctx state;
  if Is err (TContext CtxCanceled) then mret (false, err)
  else mret (true, None).

Definition OnAbortStep (step hook : Step) : Step := fun ctx state =>
  '(stepRunOk, stepRunErr) ← step ctx state;
  match stepRunErr with
  | None => mret (stepRunOk, None)
  | Some _ =>
      _ ← (if Is stepRunErr (TContext CtxCanceled)
           then _ ← hook Background state; mret ()
           else mret ());
      mret (stepRunOk, stepRunErr)
  end.

Definition OnErrorStep (step hook : Step) : Step := fun ctx state =>
  '(stepRunOk, stepRunErr) ← step ctx state;
  match stepRunErr with
  | None => mret (stepRunOk, None)
  | Some e =>
      let errs := Append None e in
      if negb (errors_Is e (TContext CtxCanceled) || errors_Is e TRetriableZero) then
        '(_, err) ← hook Background state;
        match err with
        | Some err => mret (stepRunOk, Some (Append (Some errs) err))
        | None => mret (stepRunOk, Some errs)
        end
      else mret (stepRunOk, Some errs)
  end.

Definition OnFailureStep (step hook : Step) : Step := fun ctx state =>
  '(ok, err) ← step ctx state;
  match err with
  | Some _ => mret (false, err)
  | None =>
      if negb ok then
        '(_, err) ← hook ctx state;
        match err with
        | Some _ => mret (false, err)
        | None => mret (ok, None)
        end
      else mret (ok, None)
  end.

Definition OnSuccessStep (step hook : Step) : Step := fun ctx state =>
  '(ok, err) ← step ctx state;
  match err with
  | Some _ => mret (false, err)
  | None => if negb ok then mret (false, None) else hook ctx state
  end.

Definition append_err (errs err : option error) : option error :=
  match err with Some e => Some (Append errs e) | None => errs end.

Definition EnsureStep (step hook : Step) : Step := fun ctx state =>
  '(originalOk, originalErr) ← step ctx state;
  let errors := append_err None originalErr in
  ctxErr ← lift_world (ctx_Err ctx);
  let hookCtx := match ctxErr with Some _ => Background | None => ctx end in
  '(hookOk, hookErr) ← hook hookCtx state;
  let errors := append_err errors hookErr in
  ctxErr ← lift_world (ctx_Err ctx);
  match ctxErr with
  | Some e => mret (false, Some (Context e))
  | None =>
      match errors with
      | Some _ => mret (false, errors)
      | None => mret (originalOk && hookOk, None)
      end
  end.

Definition TimeoutStep (step : Step) (duration : string) : Step := fun ctx state =>
  match ParseDuration duration with
  | None => mret (false, Some (DurationError duration))
  | Some parsedDuration =>
      timeoutCtx ← lift_world (WithTimeout ctx parsedDuration);
      '(ok, err) ← step timeoutCtx state;
      _ ← update_world (cancel timeoutCtx);
      if Is err (TContext CtxDeadlineExceeded) then mret (false, None) else mret (ok, err)
  end.

(** [MaybeTimeout] of the core steps: the context the step runs with, if the
    timeout is one. *)
Definition MaybeTimeout (ctx : Ctx) (timeoutStr : string) (defaultTimeout : Z) : stepM W (option error + Ctx) :=
  if String.eqb timeoutStr "" && (defaultTimeout =? 0) then mret (inr ctx)
  else if String.eqb timeoutStr "" then
    processCtx ← lift_world (WithTimeout ctx defaultTimeout); mret (inr processCtx)
  else
    match ParseDuration timeoutStr with
    | None => mret (inl (Some (DurationError timeoutStr)))
    | Some timeout => processCtx ← lift_world (WithTimeout ctx timeout); mret (inr processCtx)
    end.

(** ** The run state *)

(** [newBuildVariables] and [(b *buildVariables) NewLocalScope]. *)
Definition newBuildVariables : buildVariables :=
  {| bv_parentScope := None; bv_localVars := []; bv_tracker := NewTracker |}.
Definition vars_NewLocalScope (b : addr) : buildVariables :=
  {| bv_parentScope := Some b; bv_localVars := []; bv_tracker := NewTracker |}.

(** [buildVariables.AddLocalVar]; [Track] panics on a map with a key that is
    not a string. *)
Definition AddLocalVar (name : string) (val : value) (redact : bool) (b : buildVariables)
    : outcome var_error buildVariables :=
  let localVars := ainsert (bv_localVars b) name val in
  tracker ← (if redact
             then Track {| Source := "."; Path := name; Fields := [] |} val (bv_tracker b)
             else Ret (bv_tracker b));
  Ret {| bv_parentScope := bv_parentScope b; bv_localVars := localVars; bv_tracker := tracker |}.

(** [buildVariables.Get], through the parent scopes to the credentials. *)
Fixpoint buildVariables_Get (fuel : nat) (creds : Variables) (h : gmap addr buildVariables)
    (b : addr) (ref : Reference) : outcome var_error (option value) :=
  match fuel with
  | O => NoFuel
  | S fuel =>
      bv ← deref (h !! b);
      local ← (if String.eqb (Source ref) "." then static_Get (bv_localVars bv) (WithoutSource ref)
               else Ret None);
      match local with
      | Some v => Ret (Some v)
      | None =>
          match bv_parentScope bv with
          | Some parent => buildVariables_Get fuel creds h parent ref
          | None => Get creds ref
          end
      end
  end.

(** [runState.NewArtifactScope] and [runState.NewLocalScope]. *)
Definition NewArtifactScope (state : runState) : stepM W runState :=
  scope ← on_repositories (Repository_NewLocalScope (rs_artifacts state));
  match scope with
  | Ret a => mret {| rs_vars := rs_vars state; rs_artifacts := a |}
  | _ => panics
  end.

Definition new_scope (b : addr) : stepM W addr := fun w =>
  let w := elsewhere w in
  let a := fresh (dom (scopes w)) in
  (Ret a, set_scopes (<[a := vars_NewLocalScope b]> (scopes w)) w).

Definition NewLocalScope (state : runState) : stepM W runState :=
  b ← new_scope (rs_vars state);
  state ← NewArtifactScope state;
  mret {| rs_vars := b; rs_artifacts := rs_artifacts state |}.

Definition state_AddLocalVar (state : runState) (name : string) (val : value) (redact : bool)
    : stepM W unit := fun w =>
  let w := elsewhere w in
  match scopes w !! rs_vars state with
  | None => (Panic, w)
  | Some b =>
      match AddLocalVar name val redact b with
      | Ret b => (Ret (), set_scopes (<[rs_vars state := b]> (scopes w)) w)
      | _ => (Panic, w)
      end
  end.

(** ** Retry *)

(** [attemptState.ArtifactRepository().CommitToParent()], in its three regions. *)
Definition state_CommitToParent (state : runState) : stepM W (outcome repo_error unit) :=
  let repo := rs_artifacts state in
  c ← on_repositories (commit_begin repo);
  match c with
  | Ret c =>
      commitErr ← on_repositories (commitSnapshot c);
      _ ← on_repositories (commit_end repo commitErr);
      mret commitErr
  | Fail e => mret (Fail e)
  | _ => panics
  end.

Fixpoint retry_attempts (attempts : list Step) (ctx : Ctx) (state : runState) (last : step_result)
    : stepM W step_result :=
  match attempts with
  | [] => mret last
  | attempt :: attempts =>
      attemptState ← NewArtifactScope state;
      '(attemptOk, attemptErr) ← attempt ctx attemptState;
      ctxErr ← lift_world (ctx_Err ctx);
      match ctxErr with
      | Some e => mret (false, Some (Context e))
      | None =>
          match attemptErr with
          | Some _ => retry_attempts attempts ctx state (attemptOk, attemptErr)
          | None =>
              if attemptOk then
                err ← state_CommitToParent attemptState;
                match err with
                | Ret _ => mret (true, None)
                | Fail e => mret (false, Some (RepoError e))
                | _ => panics
                end
              else retry_attempts attempts ctx state (attemptOk, attemptErr)
          end
      end
  end.

Definition RetryStep (attempts : list Step) : Step := fun ctx state =>
  retry_attempts attempts ctx state (false, None).

(** ** In parallel *)

Definition InParallelStep (steps : list Step) (limit : Z) (failFast : bool) : Step := fun ctx state =>
  let maxInFlight := {| mif_All := limit <? 1; mif_Limit := limit |} in
  parallelExecutor_run
    {| px_stepName := "in_parallel";
       px_maxInFlight := Some maxInFlight;
       px_failFast := failFast;
       px_count := length steps;
       px_runFunc := fun i ctx =>
         match steps !! i with
         | Some step => step ctx state
         | None => panics
         end |} ctx.

(** ** The wrappers of the core steps *)

Definition AbortedLogMessage : string := "interrupted".
Definition TimeoutLogMessage : string := "timeout exceeded".

Definition LogErrorStep (step : Step) : Step := fun ctx state =>
  '(runOk, runErr) ← step ctx state;
  match runErr with
  | None => mret (runOk, None)
  | Some e =>
      let message :=
        if errors_Is e (TContext CtxCanceled) then AbortedLogMessage
        else if errors_Is e (TContext CtxDeadlineExceeded) then TimeoutLogMessage
        else Error_string e in
      _ ← update_world (delegate_Errored state message);
      mret (runOk, runErr)
  end.

(** The regular expression [worker .+ disappeared], anywhere in the text. *)
Fixpoint disappeared_after (first : bool) (s : string) : bool :=
  (negb first && String.prefix " disappeared" s) ||
  match s with
  | EmptyString => false
  | String c rest => negb (Ascii.eqb c "010"%char) && disappeared_after false rest
  end.

Fixpoint worker_disappeared (s : string) : bool :=
  (String.prefix "worker " s && disappeared_after true (String.substring 7 (String.length s) s)) ||
  match s with
  | EmptyString => false
  | String _ rest => worker_disappeared rest
  end.

Definition toRetry (e : error) : bool :=
  match errors_AsRaised (fun k => match k with RetryableError b => Some b | _ => None end) e with
  | Some true => true
  | _ =>
      match errors_AsRaised (fun k => match k with UrlError => Some () | _ => None end) e with
      | Some _ => true
      | None => errors_AsNetError e || worker_disappeared (Error_string e)
      end
  end.

Definition RetryErrorStep (step : Step) : Step := fun ctx state =>
  '(runOk, runErr) ← step ctx state;
  ctxErr ← lift_world (ctx_Err ctx);
  match ctxErr with
  | Some _ => mret (runOk, runErr)
  | None =>
      match runErr with
      | Some e =>
          if toRetry e then
            _ ← update_world (delegate_Errored state (Error_string e ++ ", will retry ..."));
            mret (runOk, Some (Retriable e))
          else mret (runOk, runErr)
      | None => mret (runOk, runErr)
      end
  end.

End Steps.

Arguments Step W {_}.
