(* ===== verification/Engine.v ===== *)
(** * Plans, and the engine that runs them

    The plan of a build ([atc/plan.go]), the across step that makes plans while
    it runs ([atc/exec/across_step.go]), the translation of a plan to steps
    ([atc/engine/builder.go], [atc/engine/step_factory.go]) and the status the
    engine records for a build ([atc/engine/engine.go]).

    What the engine needs of the code outside - the core steps, which run
    containers, and the decoding of an across substep's plan from its
    interpolated template, a YAML document - is the class [EngineWorld]. *)
From stdpp Require Import base gmap sets list strings pretty.
From Stdlib Require Import ZArith Lia.
From S2P Require Import Prelude Tables Vars Repository ExecWorld Parallel Exec.

Open Scope Z_scope.

(** ** Plans *)

Inductive core_kind :=
| KAgent (brokerAuthority : bool)
| KRun | KTask | KSetPipeline | KLoadVar | KLoadSnapshot | KAwaitSnapshot | KPublishSnapshot
| KCheck | KGet | KPut | KArtifactInput | KArtifactOutput.

Record AcrossVar := {
  av_Var : string;
  av_Values : value;
  av_MaxInFlight : option MaxInFlightConfig }.

Record AcrossPlan := {
  ap_Vars : list AcrossVar;
  ap_SubStepTemplate : string;
  ap_FailFast : bool }.

(** A plan has one of the fields of [atc.Plan] set; [PNone] is a plan with none
    of those the builder looks at. *)
Inductive Plan :=
| PCore (id : string) (kind : core_kind)
| PInParallel (id : string) (steps : list Plan) (limit : Z) (failFast : bool)
| PAcross (id : string) (p : AcrossPlan)
| PDo (id : string) (steps : list Plan)
| PTimeout (id : string) (step : Plan) (duration : string)
| PTry (id : string) (step : Plan)
| POnAbort (id : string) (step next : Plan)
| POnError (id : string) (step next : Plan)
| POnSuccess (id : string) (step next : Plan)
| POnFailure (id : string) (step next : Plan)
| PEnsure (id : string) (step next : Plan)
| PRetry (id : string) (attempts : list Plan)
| PNone (id : string).

Record VarScopedPlan := { vsp_Step : Plan; vsp_Values : list value }.

(** ** Across *)

(** [cartesianProduct]: by recursion on the last list. *)
Fixpoint cartesian_rev {A} (varValues : list (list A)) : list (list A) :=
  match varValues with
  | [] => [[]]
  | last :: init => subProduct ← cartesian_rev init; (fun val => subProduct ++ [val]) <$> last
  end.
Definition cartesianProduct {A} (varValues : list (list A)) : list (list A) :=
  cartesian_rev (rev varValues).

Class EngineWorld (W : Type) `{ExecWorld W} := {
  core_Run : core_kind -> string -> string -> Step W;
  across_values : runState -> AcrossVar -> W -> (error + list value) * W;
  substep_plan : string -> string -> nat -> list (string * value) -> W -> (error + Plan) * W;
  save_substeps : string -> list VarScopedPlan -> W -> option error * W;
  EnableBuildRerunWhenWorkerDisappears : bool }.

Section Engine.
Context {W : Type} `{EngineWorld W, Multierror}.

(** An operation that returns an error, or a value. *)
Definition try_world {A} (f : W -> (error + A) * W) (k : A -> stepM W step_result) : stepM W step_result :=
  r ← lift_world f;
  match r with
  | inl e => mret (false, Some e)
  | inr a => k a
  end.

Fixpoint evaluate_vars (state : runState) (vars : list AcrossVar)
    (k : list (list value) -> stepM W step_result) : stepM W step_result :=
  match vars with
  | [] => k []
  | v :: vars =>
      try_world (across_values state v) (fun vals =>
        evaluate_vars state vars (fun varValues => k (vals :: varValues)))
  end.

(** [ConstructAcrossSubsteps]. *)
Fixpoint construct_substeps (id template : string) (vars : list AcrossVar) (i : nat)
    (combinations : list (list value)) (k : list VarScopedPlan -> stepM W step_result)
    : stepM W step_result :=
  match combinations with
  | [] => k []
  | values :: combinations =>
      try_world (substep_plan id template i (zip (av_Var <$> vars) values)) (fun subPlan =>
        construct_substeps id template vars (S i) combinations (fun substeps =>
          k ({| vsp_Step := subPlan; vsp_Values := values |} :: substeps)))
  end.

Definition ConstructAcrossSubsteps (id template : string) (vars : list AcrossVar)
    (valueCombinations : list (list value)) (k : list VarScopedPlan -> stepM W step_result)
    : stepM W step_result :=
  construct_substeps id template vars 0 valueCombinations (fun substeps =>
    err ← lift_world (save_substeps id substeps);
    match err with
    | Some e => mret (false, Some e)
    | None => k substeps
    end).

Section Across.
Context (stepper : Plan -> Step W) (plan : AcrossPlan).

(** [scope.AddLocalVar(v.Var, steps[i].Values[j], false)] for every var. *)
Fixpoint add_local_vars (scope : runState) (vars : list AcrossVar) (values : list value)
    : stepM W unit :=
  match vars with
  | [] => mret ()
  | v :: vars =>
      match values with
      | [] => panics
      | val :: values =>
          _ ← state_AddLocalVar scope (av_Var v) val false;
          add_local_vars scope vars values
      end
  end.

Definition acrossStepLeafExecutor (state : runState) (lastVar : AcrossVar)
    (steps : list VarScopedPlan) : parallelExecutor W :=
  {| px_stepName := "across";
     px_maxInFlight := av_MaxInFlight lastVar;
     px_failFast := ap_FailFast plan;
     px_count := length steps;
     px_runFunc := fun i ctx =>
       match steps !! i with
       | None => panics
       | Some step =>
           scope ← NewLocalScope state;
           _ ← add_local_vars scope (ap_Vars plan) (vsp_Values step);
           stepper (vsp_Step step) ctx scope
       end |}.

Definition stepsPerValue (varValues : list (list value)) : nat :=
  foldr (fun l n => length l * n)%nat 1%nat varValues.

(** The slice expression [steps[startIndex:endIndex]]. *)
Definition slice_expr {A} (l : list A) (startIndex endIndex : nat) : option (list A) :=
  if (endIndex <=? length l)%nat then Some (take (endIndex - startIndex) (drop startIndex l)) else None.

(** [vars] and [varValues] are those of the plan from [varIndex] on. *)
Fixpoint acrossStepExecutor (state : runState) (vars : list AcrossVar)
    (varValues : list (list value)) (steps : list VarScopedPlan) : option (parallelExecutor W) :=
  match vars, varValues with
  | [lastVar], _ => Some (acrossStepLeafExecutor state lastVar steps)
  | v :: vars, vals :: rest =>
      let n := stepsPerValue rest in
      Some
        {| px_stepName := "across";
           px_maxInFlight := av_MaxInFlight v;
           px_failFast := ap_FailFast plan;
           px_count := length vals;
           px_runFunc := fun i ctx =>
             match slice_expr steps (i * n) ((i + 1) * n) with
             | None => panics
             | Some substeps =>
                 match acrossStepExecutor state vars rest substeps with
                 | None => panics
                 | Some x => parallelExecutor_run x ctx
                 end
             end |}
  | _, _ => None
  end.

Definition AcrossStep (id : string) : Step W := fun ctx state =>
  evaluate_vars state (ap_Vars plan) (fun varValues =>
    ConstructAcrossSubsteps id (ap_SubStepTemplate plan) (ap_Vars plan) (cartesianProduct varValues)
      (fun substeps =>
        match acrossStepExecutor state (ap_Vars plan) varValues substeps with
        | None => panics
        | Some x =>
            '(succeeded, err) ← parallelExecutor_run x ctx;
            match err with
            | Some _ => mret (false, err)
            | None => mret (succeeded, None)
            end
        end)).
End Across.

(** ** The builder *)

(** [containerMetadata.Attempt] of a core step. *)
Definition Attempt (attempts : list Z) : string := String.concat "." (pretty <$> attempts).

Definition core_attempt (kind : core_kind) (attempts : list Z) : string :=
  let attempt := Attempt attempts in
  match kind with
  | KAgent broker => if String.eqb attempt "" then (if broker then "1" else "0") else attempt
  | KTask => if String.eqb attempt "" then "0" else attempt
  | _ => attempt
  end.

(** The steps of [coreStepFactory], with their wrappers. *)
Definition core_step (kind : core_kind) (id attempt : string) : Step W :=
  let step := core_Run kind id attempt in
  match kind with
  | KAgent _ => RetryErrorStep (LogErrorStep step)
  | KAwaitSnapshot | KPublishSnapshot => LogErrorStep step
  | KArtifactInput | KArtifactOutput => step
  | _ =>
      if EnableBuildRerunWhenWorkerDisappears then RetryErrorStep (LogErrorStep step)
      else LogErrorStep step
  end.

(** [buildStep]: [stepper] runs the plans an across step makes. *)
Fixpoint buildStep (stepper : Plan -> Step W) (attempts : list Z) (plan : Plan) : Step W :=
  match plan with
  | PCore id kind => core_step kind id (core_attempt kind attempts)
  | PInParallel _ steps limit failFast =>
      InParallelStep (map (buildStep stepper attempts) steps) limit failFast
  | PAcross id p => LogErrorStep (AcrossStep stepper p id)
  | PDo _ steps =>
      foldr (fun inner step => OnSuccessStep (buildStep stepper attempts inner) step) IdentityStep steps
  | PTimeout _ step duration => TimeoutStep (buildStep stepper attempts step) duration
  | PTry _ step => TryStep (buildStep stepper attempts step)
  | POnAbort _ step next => OnAbortStep (buildStep stepper attempts step) (buildStep stepper attempts next)
  | POnError _ step next => OnErrorStep (buildStep stepper attempts step) (buildStep stepper attempts next)
  | POnSuccess _ step next =>
      OnSuccessStep (buildStep stepper attempts step) (buildStep stepper attempts next)
  | POnFailure _ step next =>
      OnFailureStep (buildStep stepper attempts step) (buildStep stepper attempts next)
  | PEnsure _ step next => EnsureStep (buildStep stepper attempts step) (buildStep stepper attempts next)
  | PRetry _ plans =>
      RetryStep
        ((fix go (index : Z) (plans : list Plan) : list (Step W) :=
            match plans with
            | [] => []
            | inner :: plans => buildStep stepper (attempts ++ [index + 1]) inner :: go (index + 1) plans
            end) 0 plans)
  | PNone _ => IdentityStep
  end.

(** [runState.Run]: [fuel] bounds how deep across steps nest in the plans that
    across steps make. *)
Fixpoint state_Run (fuel : nat) (plan : Plan) : Step W :=
  match fuel with
  | O => fun _ _ w => (NoFuel, w)
  | S fuel => buildStep (state_Run fuel) [] plan
  end.

End Engine.

(** ** The status of a build *)

(** [engineBuild.finish]. *)
Definition finish_status (err : option error) (succeeded : bool) : BuildStatus :=
  if Is err (TContext CtxCanceled) then BuildStatusAborted
  else
    match err with
    | Some _ => BuildStatusErrored
    | None => if succeeded then BuildStatusSucceeded else BuildStatusFailed
    end.

(** [engineBuild.Run] once the plan is done: [None] leaves the build to be run
    again by the tracker.  [r] is what the plan returned, [None] if it
    panicked. *)
Definition run_status (isCheck : bool) (r : option step_result) (buildID : Z)
    : option BuildStatus :=
  let '(succeeded, runErr) :=
    match r with
    | Some r => r
    | None => (false, Some (PanicError ("panic in running build plan " ++ pretty buildID)))
    end in
  match runErr ≫= errors_AsRetriable with
  | Some _ => if isCheck then Some (finish_status runErr succeeded) else None
  | None => Some (finish_status runErr succeeded)
  end.
