(* ===== verification/ExecSpec.v ===== *)
(** * Properties of the steps of a build

    That every plan returns and that an abort propagates from what is started
    after it to the status of the build; which hooks run; what a retry publishes; and which
    values the substeps of an across step get. *)
From stdpp Require Import base gmap sets list strings.
From Stdlib Require Import ZArith Lia.
From S2P Require Import Prelude Tables Vars Repository RepositorySpec ExecWorld Parallel ParallelSpec Exec Engine.

Open Scope Z_scope.

(** ** Laws of the world *)

(** [canceled c w]: the context [c] was cancelled ([context.Canceled]). *)
Class Contexts (W : Type) `{ExecWorld W} := { canceled : Ctx -> W -> Prop }.

Section World.
Context {W : Type} `{Contexts W}.

(** Every parent pointer leads to a repository. *)
Definition closed (h : Heap Artifact) : Prop :=
  forall a r p, h !! a = Some r -> parent r = Some p -> is_Some (h !! p).

(** A heap grows: nothing that was allocated goes away. *)
Definition heap_le (h h' : Heap Artifact) : Prop :=
  (forall a, is_Some (h !! a) -> is_Some (h' !! a)) /\ (closed h -> closed h').

(** Contexts stay cancelled, and nothing that was allocated goes away. *)
Record le (w w' : W) : Prop := {
  le_canceled c : canceled c w -> canceled c w';
  le_repositories : heap_le (repositories w) (repositories w');
  le_scopes a : is_Some (scopes w !! a) -> is_Some (scopes w' !! a) }.

#[global] Instance le_preorder : PreOrder le.
Proof.
  split.
  - intros w. by repeat split.
  - intros w1 w2 w3 [? [] ?] [? [] ?]. repeat split; auto.
Qed.

(** The pointers of a run state lead somewhere. *)
Definition valid (state : runState) (w : W) : Prop :=
  is_Some (repositories w !! rs_artifacts state) /\ is_Some (scopes w !! rs_vars state) /\
  closed (repositories w).

Lemma valid_le state w w' : le w w' -> valid state w -> valid state w'.
Proof. intros [? [] ?] (? & ? & ?). repeat split; auto. Qed.
End World.

(** The documented behaviour of [context]: an error once set stays, a child of a
    cancelled context is cancelled; and frames. *)
Class WorldLaws (W : Type) `{Contexts W} : Prop := {
  canceled_Err c w : canceled c w -> (ctx_Err c w).1 = Some CtxCanceled;
  canceled_WithCancel c w : canceled c w -> canceled (WithCancel c w).1 (WithCancel c w).2;
  canceled_WithTimeout c d w : canceled c w -> canceled (WithTimeout c d w).1 (WithTimeout c d w).2;
  le_Err c w : le w (ctx_Err c w).2;
  le_WithCancel c w : le w (WithCancel c w).2;
  le_WithTimeout c d w : le w (WithTimeout c d w).2;
  le_cancel c w : le w (cancel c w);
  le_schedule n w : le w (schedule n w).2;
  le_elsewhere w : le w (elsewhere w);
  le_Errored state msg w : le w (delegate_Errored state msg w);
  get_set_repositories h w : repositories (set_repositories h w) = h;
  scopes_set_repositories h w : scopes (set_repositories h w) = scopes w;
  canceled_set_repositories c h w : canceled c w -> canceled c (set_repositories h w) }.

(** An error that the engine takes for an abort. *)
Definition aborted (e : error) : Prop :=
  errors_Is e (TContext CtxCanceled) = true /\
  errors_Is e (TContext CtxDeadlineExceeded) = false /\
  errors_AsRetriable e = None.

Lemma aborted_Canceled : aborted Canceled.
Proof. done. Qed.

Section Aborts.
Context {W : Type} `{WorldLaws W, MultierrorLaws}.

Lemma errors_Is_Append e t : errors_Is (Append None e) t = errors_Is e t.
Proof. rewrite Append_nil. destruct e; cbn; by rewrite ?orb_false_r. Qed.

Lemma errors_AsRetriable_Append e : errors_AsRetriable (Append None e) = errors_AsRetriable e.
Proof. rewrite Append_nil. by destruct e. Qed.

Lemma aborted_Append e : aborted e -> aborted (Append None e).
Proof. unfold aborted. by rewrite !errors_Is_Append, errors_AsRetriable_Append. Qed.

(** The step returns. *)
Definition total (step : Step W) : Prop :=
  forall ctx state w, valid state w -> exists r w', step ctx state w = (Ret r, w') /\ le w w'.

(** Started with a cancelled context, the step returns an abort. *)
Definition aborts (step : Step W) : Prop :=
  forall ctx state w, valid state w -> canceled ctx w ->
    exists ok e w', step ctx state w = (Ret (ok, Some e), w') /\ aborted e /\ le w w'.

(** Unfold the monad. *)
Ltac steps := unfold mbind, stateful_bind, mret, stateful_ret, lift_world, update_world.

Lemma total_Identity : total IdentityStep.
Proof. intros ctx state w Hv. by eexists _, _. Qed.

Lemma total_Try step : total step -> total (TryStep step).
Proof.
  intros Ht ctx state w Hv. destruct (Ht ctx state w Hv) as ([ok err] & w1 & Hr & Hle).
  unfold TryStep. steps. rewrite Hr. destruct (Is err _); eauto.
Qed.

Lemma aborts_Try step : aborts step -> aborts (TryStep step).
Proof.
  intros Ha ctx state w Hv Hc. destruct (Ha ctx state w Hv Hc) as (ok & e & w1 & Hr & He & Hle).
  unfold TryStep. steps. rewrite Hr. cbn. rewrite (proj1 He). eauto 10.
Qed.

Lemma total_OnAbort step hook : total step -> total hook -> total (OnAbortStep step hook).
Proof.
  intros Ht Hh ctx state w Hv. destruct (Ht ctx state w Hv) as ([ok [e|]] & w1 & Hr & Hle);
    unfold OnAbortStep; steps; rewrite Hr; [|by eauto].
  destruct (Is (Some e) _); [|by eauto].
  destruct (Hh Background state w1) as (r2 & w2 & Hr2 & Hle2); [by eapply valid_le|].
  rewrite Hr2. eexists _, _. split; [done|]. by etrans.
Qed.

Lemma aborts_OnAbort step hook : aborts step -> total hook -> aborts (OnAbortStep step hook).
Proof.
  intros Ha Hh ctx state w Hv Hc. destruct (Ha ctx state w Hv Hc) as (ok & e & w1 & Hr & He & Hle).
  unfold OnAbortStep. steps. rewrite Hr. cbn. rewrite (proj1 He).
  destruct (Hh Background state w1) as (r2 & w2 & Hr2 & Hle2); [by eapply valid_le|].
  rewrite Hr2. eexists _, _, _. split; [done|]. split; [done|]. by etrans.
Qed.

Lemma total_OnError step hook : total step -> total hook -> total (OnErrorStep step hook).
Proof.
  intros Ht Hh ctx state w Hv. destruct (Ht ctx state w Hv) as ([ok [e|]] & w1 & Hr & Hle);
    unfold OnErrorStep; steps; rewrite Hr; [|by eauto].
  destruct (negb _); [|by eauto].
  destruct (Hh Background state w1) as ([ok2 [e2|]] & w2 & Hr2 & Hle2); [by eapply valid_le|..];
    rewrite Hr2; eexists _, _; (split; [done|]); by etrans.
Qed.

Lemma aborts_OnError step hook : aborts step -> aborts (OnErrorStep step hook).
Proof.
  intros Ha ctx state w Hv Hc. destruct (Ha ctx state w Hv Hc) as (ok & e & w1 & Hr & He & Hle).
  unfold OnErrorStep. steps. rewrite Hr. cbn. rewrite (proj1 He). cbn.
  eexists _, _, _. split; [done|]. by split; [apply aborted_Append|].
Qed.

Lemma total_OnFailure step hook : total step -> total hook -> total (OnFailureStep step hook).
Proof.
  intros Ht Hh ctx state w Hv. destruct (Ht ctx state w Hv) as ([ok [e|]] & w1 & Hr & Hle);
    unfold OnFailureStep; steps; rewrite Hr; [by eauto|].
  destruct (negb ok); [|by eauto].
  destruct (Hh ctx state w1) as ([ok2 [e2|]] & w2 & Hr2 & Hle2); [by eapply valid_le|..];
    rewrite Hr2; eexists _, _; (split; [done|]); by etrans.
Qed.

Lemma aborts_OnFailure step hook : aborts step -> aborts (OnFailureStep step hook).
Proof.
  intros Ha ctx state w Hv Hc. destruct (Ha ctx state w Hv Hc) as (ok & e & w1 & Hr & He & Hle).
  unfold OnFailureStep. steps. rewrite Hr. eauto 10.
Qed.

Lemma total_OnSuccess step hook : total step -> total hook -> total (OnSuccessStep step hook).
Proof.
  intros Ht Hh ctx state w Hv. destruct (Ht ctx state w Hv) as ([ok [e|]] & w1 & Hr & Hle);
    unfold OnSuccessStep; steps; rewrite Hr; [by eauto|].
  destruct (negb ok); [by eauto|].
  destruct (Hh ctx state w1) as (r2 & w2 & Hr2 & Hle2); [by eapply valid_le|].
  rewrite Hr2. eexists _, _. split; [done|]. by etrans.
Qed.

Lemma aborts_OnSuccess step hook : aborts step -> aborts (OnSuccessStep step hook).
Proof.
  intros Ha ctx state w Hv Hc. destruct (Ha ctx state w Hv Hc) as (ok & e & w1 & Hr & He & Hle).
  unfold OnSuccessStep. steps. rewrite Hr. eauto 10.
Qed.

(** The hook of [ensure] runs in any case. *)
Lemma ensure_runs step hook ctx state w :
  total step -> total hook -> valid state w ->
  exists ok err w1 ctxErr w2 hookOk hookErr w3 ctxErr' w4 r,
    step ctx state w = (Ret (ok, err), w1) /\ ctx_Err ctx w1 = (ctxErr, w2) /\
    hook (match ctxErr with Some _ => Background | None => ctx end) state w2
      = (Ret (hookOk, hookErr), w3) /\
    ctx_Err ctx w3 = (ctxErr', w4) /\ EnsureStep step hook ctx state w = (Ret r, w4) /\
    le w w1 /\ le w1 w2 /\ le w2 w3 /\ le w3 w4 /\
    r = match ctxErr' with
        | Some e => (false, Some (Context e))
        | None =>
            match append_err (append_err None err) hookErr with
            | Some e => (false, Some e)
            | None => (ok && hookOk, None)
            end
        end.
Proof.
  intros Ht Hh Hv. destruct (Ht ctx state w Hv) as ([ok err] & w1 & Hr & Hle1).
  assert (Hle2 := le_Err ctx w1). destruct (ctx_Err ctx w1) as [ctxErr w2] eqn:Hctx. cbn in Hle2.
  destruct (Hh (match ctxErr with Some _ => Background | None => ctx end) state w2)
    as ([hookOk hookErr] & w3 & Hr3 & Hle3); [eapply valid_le; [|done]; by etrans|].
  assert (Hle4 := le_Err ctx w3). destruct (ctx_Err ctx w3) as [ctxErr' w4] eqn:Hctx'. cbn in Hle4.
  eexists ok, err, w1, ctxErr, w2, hookOk, hookErr, w3, ctxErr', w4, _.
  split_and!; try done. unfold EnsureStep. steps. rewrite Hr, Hctx, Hr3, Hctx'.
  destruct ctxErr'; [done|]. by destruct (append_err (append_err None err) hookErr).
Qed.

Lemma total_Ensure step hook : total step -> total hook -> total (EnsureStep step hook).
Proof.
  intros Ht Hh ctx state w Hv.
  destruct (ensure_runs step hook ctx state w Ht Hh Hv)
    as (ok & err & w1 & c1 & w2 & ok2 & err2 & w3 & c2 & w4 & r & _ & _ & _ & _ & Hr & L1 & L2 & L3 & L4 & _).
  exists r, w4. split; [done|]. do 3 (etrans; [eassumption|]). done.
Qed.

Lemma aborts_Ensure step hook : total step -> total hook -> aborts (EnsureStep step hook).
Proof.
  intros Ht Hh ctx state w Hv Hc.
  destruct (ensure_runs step hook ctx state w Ht Hh Hv)
    as (ok & err & w1 & c1 & w2 & ok2 & err2 & w3 & c2 & w4 & r & _ & _ & _ & Hctx & Hr & L1 & L2 & L3 & L4 & ->).
  assert (L : le w w3) by (do 2 (etrans; [eassumption|]); done).
  assert (Hc2 : c2 = Some CtxCanceled).
  { rewrite <- (canceled_Err ctx w3) by by apply (le_canceled _ _ L). by rewrite Hctx. }
  subst c2. eexists _, _, w4. split; [done|]. split; [apply aborted_Canceled|]. by etrans.
Qed.

Lemma total_Timeout step d : total step -> total (TimeoutStep step d).
Proof.
  intros Ht ctx state w Hv. unfold TimeoutStep. steps. destruct (ParseDuration d) as [n|]; [|by eexists _, _].
  assert (Hle := le_WithTimeout ctx n w). destruct (WithTimeout ctx n w) as [ctx' w0]. cbn in Hle.
  destruct (Ht ctx' state w0) as ([ok err] & w1 & Hr & Hle1); [by eapply valid_le|]. rewrite Hr.
  assert (Hle2 := le_cancel ctx' w1).
  destruct (Is err _); eexists _, _; (split; [done|]); do 2 (etrans; [eassumption|]); done.
Qed.

Lemma aborts_Timeout step d :
  is_Some (ParseDuration d) -> aborts step -> aborts (TimeoutStep step d).
Proof.
  intros [n Hd] Ha ctx state w Hv Hc. unfold TimeoutStep. steps. rewrite Hd.
  assert (Hle := le_WithTimeout ctx n w). assert (Hc' := canceled_WithTimeout ctx n w Hc).
  destruct (WithTimeout ctx n w) as [ctx' w0]. cbn in Hle, Hc'.
  destruct (Ha ctx' state w0) as (ok & e & w1 & Hr & He & Hle1); [by eapply valid_le|done|]. rewrite Hr.
  assert (Hle2 := le_cancel ctx' w1). cbn. rewrite (proj1 (proj2 He)).
  eexists _, _, _. split; [done|]. split; [done|]. do 2 (etrans; [eassumption|]). done.
Qed.

(** ** Operations on the repositories *)

Lemma on_repositories_le {A} (op : repoM A) w :
  (forall h, heap_le h (op h).2) ->
  on_repositories op w = (Ret (op (repositories (elsewhere w))).1,
                          set_repositories (op (repositories (elsewhere w))).2 (elsewhere w)) /\
  le w (on_repositories op w).2.
Proof.
  intros Hop. unfold on_repositories. specialize (Hop (repositories (elsewhere w))).
  destruct (op (repositories (elsewhere w))) as [o h]. split; [done|]. cbn in *.
  etrans; [apply le_elsewhere|]. split.
  - intros c. apply canceled_set_repositories.
  - by rewrite get_set_repositories.
  - by rewrite scopes_set_repositories.
Qed.

Lemma heap_le_refl h : heap_le h h.
Proof. by split. Qed.

Lemma heap_le_insert h a r r' :
  h !! a = Some r -> parent r' = parent r -> heap_le h (<[a := r']> h).
Proof.
  intros Ha Hp. assert (Hk : forall b, is_Some (h !! b) -> is_Some (<[a := r']> h !! b)).
  { intros b Hb. destruct (decide (a = b)) as [->|]; [rewrite lookup_insert_eq|rewrite lookup_insert_ne]; eauto. }
  split; [done|]. intros Hcl b r0 p Hb Hr0. apply Hk. destruct (decide (a = b)) as [->|].
  - rewrite lookup_insert_eq in Hb. simplify_eq. eapply Hcl; [done|]. congruence.
  - rewrite lookup_insert_ne in Hb by done. eauto.
Qed.

Lemma heap_le_NewLocalScope repo h : heap_le h (Repository_NewLocalScope (Artifact:=Artifact) repo h).2.
Proof.
  destruct (NewLocalScope_effect repo h) as [->|(r & Hr & ->)]; [apply heap_le_refl|].
  set (a := fresh (dom h)). assert (Ha : h !! a = None) by (apply not_elem_of_dom, is_fresh).
  assert (Hk : forall b, is_Some (h !! b) -> is_Some (<[a := local_scope repo r]> h !! b)).
  { intros b [r' Hb]. rewrite lookup_insert_ne; [eauto|]. congruence. }
  split; [done|]. intros Hcl b r0 p Hb Hp. apply Hk. destruct (decide (a = b)) as [->|].
  - rewrite lookup_insert_eq in Hb. simplify_eq/=. eauto.
  - rewrite lookup_insert_ne in Hb by done. eauto.
Qed.

Lemma heap_le_commit_begin repo h : heap_le h (commit_begin (Artifact:=Artifact) repo h).2.
Proof.
  destruct (commit_begin_effect repo h) as [[-> _]|(r & p & Hr & Hp & _ & ->)];
    [apply heap_le_refl|]. by eapply heap_le_insert.
Qed.

Lemma heap_le_commitSnapshot c h : heap_le h (commitSnapshot (Artifact:=Artifact) c h).2.
Proof.
  destruct (commitSnapshot_effect c h) as [[-> _]|(r & Hr & _ & _ & ->)];
    [apply heap_le_refl|]. by eapply heap_le_insert.
Qed.

Lemma heap_le_commit_end repo o h : heap_le h (commit_end (Artifact:=Artifact) repo o h).2.
Proof.
  destruct (commit_end_effect repo o h) as [->|(r & s & Hr & _ & ->)];
    [apply heap_le_refl|]. by eapply heap_le_insert.
Qed.

Lemma NewArtifactScope_returns state w :
  valid state w -> exists state' w', NewArtifactScope state w = (Ret state', w') /\ le w w' /\ valid state' w'.
Proof.
  intros Hv. unfold NewArtifactScope. steps.
  destruct (on_repositories_le (Repository_NewLocalScope (rs_artifacts state)) w) as [Heq Hle];
    [intros; apply heap_le_NewLocalScope|].
  rewrite Heq. rewrite Heq in Hle. cbn in Hle.
  assert (Hv' : valid state (elsewhere w)) by (eapply valid_le; [apply le_elsewhere|done]).
  destruct Hv' as ([r Hr] & Hs & Hcl).
  assert (Hop : Repository_NewLocalScope (rs_artifacts state) (repositories (elsewhere w))
    = (Ret (fresh (dom (repositories (elsewhere w)))),
       <[fresh (dom (repositories (elsewhere w))) := local_scope (rs_artifacts state) r]>
         (repositories (elsewhere w)))).
  { unfold Repository_NewLocalScope. steps. unfold load, alloc. by rewrite Hr. }
  rewrite Hop in Hle |- *. cbn [fst snd] in *. eexists _, _. split; [done|]. split; [done|].
  assert (Hvs := valid_le _ _ _ Hle Hv). destruct Hvs as (_ & Hs' & Hcl').
  split_and!; [|done|done]. cbn. rewrite get_set_repositories, lookup_insert_eq. eauto.
Qed.

Lemma CommitToParent_returns state w :
  valid state w -> exists o w', state_CommitToParent state w = (Ret o, w') /\ le w w' /\
    match o with Ret _ | Fail _ => True | _ => False end.
Proof.
  intros Hv. unfold state_CommitToParent. steps.
  destruct (on_repositories_le (commit_begin (rs_artifacts state)) w) as [Heq Hle];
    [intros; apply heap_le_commit_begin|].
  rewrite Heq. rewrite Heq in Hle. cbn in Hle. set (w0 := elsewhere w) in *.
  assert (Hv0 : valid state w0) by (eapply valid_le; [apply le_elsewhere|done]).
  destruct Hv0 as ([r Hr] & _ & _).
  destruct (commit_begin (rs_artifacts state) (repositories w0)) as [o h] eqn:Hb. cbn in *.
  assert (Ho : match o with Ret c => exists p, parent r = Some p /\ c_parent c = p | Fail _ => True | _ => False end).
  { unfold commit_begin, load in Hb. revert Hb. steps. rewrite Hr. cbn.
    destruct (parent r); [|by intros [= <- _]].
    destruct (commit_state r); cbn; intros [= <- _]; naive_solver. }
  destruct o as [c|e| |]; try done; [|by eauto 10].
  destruct Ho as (p & Hp & Hcp). set (w1 := set_repositories h w0) in *.
  destruct (on_repositories_le (commitSnapshot c) w1) as [Heq2 Hle2]; [intros; apply heap_le_commitSnapshot|].
  rewrite Heq2. rewrite Heq2 in Hle2. cbn in Hle2.
  assert (Hpv : is_Some (repositories (elsewhere w1) !! p)).
  { assert (Hv1 : valid state w) by done. apply (valid_le _ _ _ (le_elsewhere w)) in Hv1.
    destruct Hv1 as (_ & _ & Hcl). assert (L : le (elsewhere w) (elsewhere w1)).
    { etrans; [|apply le_elsewhere]. unfold w1. split.
      - intros. by apply canceled_set_repositories.
      - rewrite get_set_repositories. replace h with (commit_begin (rs_artifacts state) (repositories w0)).2
          by by rewrite Hb. apply heap_le_commit_begin.
      - by rewrite scopes_set_repositories. }
    apply (le_repositories _ _ L). eapply Hcl; eauto. }
  destruct Hpv as [rp Hrp].
  destruct (commitSnapshot c (repositories (elsewhere w1))) as [o2 h2] eqn:Hs2. cbn in *.
  assert (Ho2 : match o2 with Ret _ | Fail _ => True | _ => False end).
  { unfold commitSnapshot, load, lift in Hs2. revert Hs2. steps. rewrite Hcp, Hrp. cbn. unfold ensureWritable.
    destruct (commit_state rp); cbn; [|by intros [= <- _]..].
    destruct (first_conflict c rp); cbn; by intros [= <- _]. }
  set (w2 := set_repositories h2 (elsewhere w1)) in *.
  destruct (on_repositories_le (commit_end (rs_artifacts state) o2) w2) as [Heq3 Hle3];
    [intros; apply heap_le_commit_end|].
  rewrite Heq3. rewrite Heq3 in Hle3. cbn in Hle3. eexists _, _. split; [done|].
  split; [|done]. do 2 (etrans; [eassumption|]). done.
Qed.

Lemma total_retry attempts ctx state w last :
  Forall total attempts -> valid state w ->
  exists r w', retry_attempts attempts ctx state last w = (Ret r, w') /\ le w w'.
Proof.
  intros Hall. revert w last. induction Hall as [|attempt attempts Ht _ IH]; intros w last Hv; cbn; [by eexists _, _|].
  steps. destruct (NewArtifactScope_returns state w Hv) as (st & w1 & Hs & L1 & Hv1). rewrite Hs.
  destruct (Ht ctx st w1 Hv1) as ([ok err] & w2 & Hr & L2). rewrite Hr.
  assert (L3 := le_Err ctx w2). destruct (ctx_Err ctx w2) as [ctxErr w3]. cbn in L3.
  assert (L : le w w3) by (do 2 (etrans; [eassumption|]); done).
  destruct ctxErr as [e|]; [by eauto|].
  assert (Hrec : forall r, exists r' w', retry_attempts attempts ctx state r w3 = (Ret r', w') /\ le w w').
  { intros r. destruct (IH w3 r) as (r' & w' & Hr' & L'); [by eapply valid_le|].
    exists r', w'. split; [done|]. by etrans. }
  destruct err as [e|]; [by apply Hrec|]. destruct ok; [|by apply Hrec].
  destruct (CommitToParent_returns st w3) as (o & w4 & Ho & L4 & Hok).
  { eapply valid_le; [|done]. by etrans. }
  rewrite Ho. destruct o; try done; eexists _, _; (split; [done|]); by etrans.
Qed.

Lemma total_Retry attempts : Forall total attempts -> total (RetryStep attempts).
Proof. intros Hall ctx state w Hv. by apply total_retry. Qed.

Lemma aborts_Retry attempts : attempts <> [] -> Forall total attempts -> aborts (RetryStep attempts).
Proof.
  intros Hne Hall ctx state w Hv Hc. unfold RetryStep. destruct attempts as [|attempt attempts]; [done|].
  apply Forall_cons in Hall as [Ht _]. cbn. steps.
  destruct (NewArtifactScope_returns state w Hv) as (st & w1 & Hs & L1 & Hv1). rewrite Hs.
  destruct (Ht ctx st w1 Hv1) as ([ok err] & w2 & Hr & L2). rewrite Hr.
  assert (L : le w w2) by by etrans.
  assert (He := canceled_Err ctx w2 (le_canceled _ _ L ctx Hc)). assert (L3 := le_Err ctx w2).
  destruct (ctx_Err ctx w2) as [ctxErr w3]. cbn in He, L3. subst ctxErr.
  eexists _, _, _. split; [done|]. split; [apply aborted_Canceled|]. by etrans.
Qed.

(** ** In parallel *)

Lemma InParallel_limit steps limit failFast (f : nat -> Ctx -> stepM W step_result) :
  let x := {| px_stepName := "in_parallel";
              px_maxInFlight := Some {| mif_All := limit <? 1; mif_Limit := limit |};
              px_failFast := failFast; px_count := length (steps : list (Step W)); px_runFunc := f |} in
  (px_count x = 0%nat \/ 1 <= Parallel.limit x) /\ 0 <= Parallel.limit x.
Proof.
  cbn. unfold Parallel.limit, EffectiveLimit. cbn. destruct (limit <? 1) eqn:Hl.
  - destruct (length steps); lia.
  - apply Z.ltb_ge in Hl. lia.
Qed.

Lemma substeps_total steps ctx state w0 (x : parallelExecutor W) :
  Forall total steps -> valid state w0 -> px_count x = length steps ->
  (forall i c w, px_runFunc x i c w =
     match (steps !! i : option (Step W)) with Some step => step c state w | None => (Panic, w) end) ->
  substeps_return x ctx (fun w => le w0 w).
Proof.
  intros Hall Hv Hc Hrun. split.
  - intros i w Hi HI. rewrite Hc in Hi. destruct (lookup_lt_is_Some_2 _ _ Hi) as [step Hs].
    rewrite Hrun, Hs. eapply Forall_lookup_1 in Hall; [|done].
    destruct (Hall ctx state w) as (r & w' & Hr & L); [by eapply valid_le|]. rewrite Hr. by etrans.
  - intros w HI. etrans; [done|]. apply le_Err.
  - intros w HI. etrans; [done|]. apply le_cancel.
  - intros n w HI. etrans; [done|]. apply le_schedule.
Qed.

Lemma InParallel_returns steps limit failFast ctx state w :
  Forall total steps -> valid state w ->
  exists r w', InParallelStep steps limit failFast ctx state w = (Ret r, w') /\ le w w' /\
    (canceled ctx w -> r = (false, Some Canceled)).
Proof.
  intros Hall Hv. unfold InParallelStep. set (x := {| px_stepName := _ |}).
  destruct (InParallel_limit steps limit failFast (px_runFunc x)) as [Hlim Hpos].
  change (px_count x = 0%nat \/ 1 <= Parallel.limit x) in Hlim. change (0 <= Parallel.limit x) in Hpos.
  unfold parallelExecutor_run. destruct (Parallel.limit x <? 0) eqn:Hneg; [apply Z.ltb_lt in Hneg; lia|].
  steps. assert (L0 := le_WithCancel ctx w). destruct (WithCancel ctx w) as [runCtx w0]. cbn [snd] in L0.
  assert (Hsub : substeps_return x runCtx (fun w' => le w0 w')).
  { apply (substeps_total steps _ state); [done|by eapply valid_le|done|].
    intros i c w1. cbn. by destruct (steps !! i). }
  destruct (par_loop_returns x runCtx _ (par_fuel x) [] par_init [] [] w0 Hsub Hlim (reflexivity _)
              (par_inv_init x)) as (p & hs & recv & w1 & Hloop & _ & _ & L1).
  { unfold par_weight, main_weight, par_fuel. cbn. lia. }
  rewrite Hloop. assert (L2 := le_Err ctx w1). assert (L : le w w1) by by etrans.
  assert (Hc := fun Hc => canceled_Err ctx w1 (le_canceled _ _ L ctx Hc)).
  destruct (ctx_Err ctx w1) as [ctxErr w2]. cbn [fst snd] in *.
  eexists _, _. split; [done|]. split.
  - etrans; [exact L|]. etrans; [exact L2|]. apply le_cancel.
  - intros Hcan. by rewrite (Hc Hcan).
Qed.

Lemma total_InParallel steps limit failFast : Forall total steps -> total (InParallelStep steps limit failFast).
Proof.
  intros Hall ctx state w Hv.
  destruct (InParallel_returns steps limit failFast ctx state w Hall Hv) as (r & w' & Hr & L & _). eauto.
Qed.

Lemma aborts_InParallel steps limit failFast :
  Forall total steps -> aborts (InParallelStep steps limit failFast).
Proof.
  intros Hall ctx state w Hv Hc.
  destruct (InParallel_returns steps limit failFast ctx state w Hall Hv) as (r & w' & Hr & L & Hcan).
  rewrite (Hcan Hc) in Hr. eexists _, _, _. split; [done|]. by split; [apply aborted_Canceled|].
Qed.

(** ** The wrappers *)

Lemma total_LogError step : total step -> total (LogErrorStep step).
Proof.
  intros Ht ctx state w Hv. destruct (Ht ctx state w Hv) as ([ok [e|]] & w1 & Hr & L);
    unfold LogErrorStep; steps; rewrite Hr; [|by eauto].
  eexists _, _. split; [done|]. etrans; [exact L|apply le_Errored].
Qed.

Lemma aborts_LogError step : aborts step -> aborts (LogErrorStep step).
Proof.
  intros Ha ctx state w Hv Hc. destruct (Ha ctx state w Hv Hc) as (ok & e & w1 & Hr & He & L).
  unfold LogErrorStep. steps. rewrite Hr. eexists _, _, _. split; [done|]. split; [done|].
  etrans; [exact L|apply le_Errored].
Qed.

Lemma total_RetryError step : total step -> total (RetryErrorStep step).
Proof.
  intros Ht ctx state w Hv. destruct (Ht ctx state w Hv) as ([ok err] & w1 & Hr & L1).
  unfold RetryErrorStep. steps. rewrite Hr. assert (L2 := le_Err ctx w1).
  destruct (ctx_Err ctx w1) as [[c|] w2]; cbn in L2; [eexists _, _; split; [done|]; by etrans|].
  destruct err as [e|]; [|eexists _, _; split; [done|]; by etrans].
  destruct (toRetry e); eexists _, _; (split; [done|]).
  - etrans; [exact L1|]. etrans; [exact L2|]. apply le_Errored.
  - by etrans.
Qed.

Lemma aborts_RetryError step : aborts step -> aborts (RetryErrorStep step).
Proof.
  intros Ha ctx state w Hv Hc. destruct (Ha ctx state w Hv Hc) as (ok & e & w1 & Hr & He & L1).
  unfold RetryErrorStep. steps. rewrite Hr. assert (L2 := le_Err ctx w1).
  assert (Herr := canceled_Err ctx w1 (le_canceled _ _ L1 ctx Hc)).
  destruct (ctx_Err ctx w1) as [ctxErr w2]. cbn in L2, Herr. subst ctxErr.
  eexists _, _, _. split; [done|]. split; [done|]. by etrans.
Qed.

End Aborts.

(** ** Plans *)

(** An induction principle for plans that reaches the plans in lists. *)
Section PlanInd.
Context (P : Plan -> Prop)
  (HCore : forall id k, P (PCore id k))
  (HInParallel : forall id l lim ff, Forall P l -> P (PInParallel id l lim ff))
  (HAcross : forall id p, P (PAcross id p))
  (HDo : forall id l, Forall P l -> P (PDo id l))
  (HTimeout : forall id p d, P p -> P (PTimeout id p d))
  (HTry : forall id p, P p -> P (PTry id p))
  (HOnAbort : forall id p q, P p -> P q -> P (POnAbort id p q))
  (HOnError : forall id p q, P p -> P q -> P (POnError id p q))
  (HOnSuccess : forall id p q, P p -> P q -> P (POnSuccess id p q))
  (HOnFailure : forall id p q, P p -> P q -> P (POnFailure id p q))
  (HEnsure : forall id p q, P p -> P q -> P (PEnsure id p q))
  (HRetry : forall id l, Forall P l -> P (PRetry id l))
  (HNone : forall id, P (PNone id)).

Fixpoint plan_ind (p : Plan) : P p :=
  let all := fix go (l : list Plan) : Forall P l :=
    match l with
    | [] => Forall_nil_2 P
    | p :: l => Forall_cons_2 P p l (plan_ind p) (go l)
    end in
  match p with
  | PCore id k => HCore id k
  | PInParallel id l lim ff => HInParallel id l lim ff (all l)
  | PAcross id p => HAcross id p
  | PDo id l => HDo id l (all l)
  | PTimeout id p d => HTimeout id p d (plan_ind p)
  | PTry id p => HTry id p (plan_ind p)
  | POnAbort id p q => HOnAbort id p q (plan_ind p) (plan_ind q)
  | POnError id p q => HOnError id p q (plan_ind p) (plan_ind q)
  | POnSuccess id p q => HOnSuccess id p q (plan_ind p) (plan_ind q)
  | POnFailure id p q => HOnFailure id p q (plan_ind p) (plan_ind q)
  | PEnsure id p q => HEnsure id p q (plan_ind p) (plan_ind q)
  | PRetry id l => HRetry id l (all l)
  | PNone id => HNone id
  end.
End PlanInd.

(** The plan makes no plans while it runs. *)
Fixpoint no_across (p : Plan) : bool :=
  match p with
  | PAcross _ _ => false
  | PInParallel _ l _ _ | PDo _ l | PRetry _ l => forallb no_across l
  | PTimeout _ p _ | PTry _ p => no_across p
  | POnAbort _ p q | POnError _ p q | POnSuccess _ p q | POnFailure _ p q | PEnsure _ p q =>
      no_across p && no_across q
  | PCore _ _ | PNone _ => true
  end.

(** The plan starts with a step that can be aborted. *)
Fixpoint abortable {W} `{ExecWorld W} (p : Plan) : bool :=
  match p with
  | PCore _ _ | PInParallel _ _ _ _ | PEnsure _ _ _ => true
  | PAcross _ _ | PNone _ => false
  | PDo _ l => match l with p :: _ => abortable p | [] => false end
  | PTimeout _ p d => abortable p && match ParseDuration d with Some _ => true | None => false end
  | PTry _ p => abortable p
  | POnAbort _ p _ | POnError _ p _ | POnSuccess _ p _ | POnFailure _ p _ => abortable p
  | PRetry _ l => match l with [] => false | _ => true end
  end.

(** What a core step promises ([Step.Run]'s documentation): it returns, and when
    its context is cancelled it returns the context's error. *)
Class CoreSteps (W : Type) `{EngineWorld W} {C : Contexts W} : Prop := {
  core_total kind id attempt : total (core_Run kind id attempt);
  core_aborts kind id attempt : aborts (core_Run kind id attempt) }.

Section Plans.
Context {W : Type} `{CoreSteps W, !WorldLaws W, MultierrorLaws}.
Context (stepper : Plan -> Step W).

Lemma total_core kind id attempt : total (core_step kind id attempt).
Proof.
  assert (Ht := core_total kind id attempt). unfold core_step.
  destruct kind; try destruct EnableBuildRerunWhenWorkerDisappears;
    auto using total_RetryError, total_LogError.
Qed.

Lemma aborts_core kind id attempt : aborts (core_step kind id attempt).
Proof.
  assert (Ha := core_aborts kind id attempt). unfold core_step.
  destruct kind; try destruct EnableBuildRerunWhenWorkerDisappears;
    auto using aborts_RetryError, aborts_LogError.
Qed.

Lemma retry_steps_length attempts plans index :
  length ((fix go (index : Z) (plans : list Plan) : list (Step W) :=
            match plans with
            | [] => []
            | inner :: plans => buildStep stepper (attempts ++ [index + 1]) inner :: go (index + 1) plans
            end) index plans) = length plans.
Proof. revert index. induction plans as [|p plans IH]; intros index; cbn; [done|]. by rewrite IH. Qed.

Lemma retry_steps_total attempts plans index :
  Forall (fun p => forall attempts, total (buildStep stepper attempts p)) plans ->
  Forall total ((fix go (index : Z) (plans : list Plan) : list (Step W) :=
            match plans with
            | [] => []
            | inner :: plans => buildStep stepper (attempts ++ [index + 1]) inner :: go (index + 1) plans
            end) index plans).
Proof. intros Hall. revert index. induction Hall; intros index; constructor; auto. Qed.

Lemma forallb_Forall {A} (f : A -> bool) (Q : A -> Prop) l :
  Forall (fun a => f a = true -> Q a) l -> forallb f l = true -> Forall Q l.
Proof. induction 1; cbn; intros Hf; go_bool; constructor; auto. Qed.

Lemma total_buildStep plan :
  no_across plan = true -> forall attempts, total (buildStep stepper attempts plan).
Proof.
  induction plan as [id k|id l lim ff IH|id p|id l IH|id p d IH|id p IH|id p q IHp IHq|id p q IHp IHq
    |id p q IHp IHq|id p q IHp IHq|id p q IHp IHq|id l IH|id] using plan_ind;
    cbn; intros Hno attempts; go_bool;
    auto using total_core, total_Identity, total_Timeout, total_Try, total_OnAbort, total_OnError,
      total_OnSuccess, total_OnFailure, total_Ensure; try done.
  - apply total_InParallel. apply Forall_map. apply (forallb_Forall no_across); [|done].
    eapply Forall_impl; [exact IH|]. cbn. auto.
  - apply (forallb_Forall no_across) in IH; [|done].
    clear Hno. induction IH; cbn; auto using total_Identity, total_OnSuccess.
  - apply total_Retry, retry_steps_total. by apply (forallb_Forall no_across) in IH.
Qed.

Lemma aborts_buildStep plan :
  no_across plan = true -> abortable plan = true -> forall attempts, aborts (buildStep stepper attempts plan).
Proof.
  induction plan as [id k|id l lim ff IH|id p|id l IH|id p d IH|id p IH|id p q IHp IHq|id p q IHp IHq
    |id p q IHp IHq|id p q IHp IHq|id p q IHp IHq|id l IH|id] using plan_ind;
    cbn; intros Hno Hab attempts; try (apply andb_true_iff in Hno as [Hno1 Hno2]);
    auto using aborts_core, aborts_Try, aborts_OnAbort, aborts_OnError, aborts_OnSuccess, aborts_OnFailure,
      aborts_Ensure, total_buildStep; try done.
  - apply aborts_InParallel, Forall_map. apply (forallb_Forall no_across); [|done].
    apply Forall_true. auto using total_buildStep.
  - destruct l as [|p l]; [done|]. cbn in *. apply andb_true_iff in Hno as [Hno _].
    apply Forall_cons in IH as [IH _]. auto using aborts_OnSuccess.
  - apply andb_true_iff in Hab as [Hab Hd]. apply aborts_Timeout; [|auto].
    destruct (ParseDuration d); [eauto|done].
  - apply aborts_Retry.
    + intros Hnil. apply (f_equal length) in Hnil. rewrite retry_steps_length in Hnil. by destruct l.
    + apply retry_steps_total. apply (forallb_Forall no_across); [|done].
      apply Forall_true. auto using total_buildStep.
Qed.


End Plans.

(** ** Hooks *)

Inductive hook := HSuccess | HFailure | HAbort | HError | HEnsure.

(** The plan of a step with all five hooks: the keys of a step are parsed in the
    order ensure, on_error, on_abort, on_failure, on_success, the first being the
    outermost. *)
Definition hooked_plan (plan : Plan) (hk : hook -> Plan) : Plan :=
  PEnsure "" (POnError "" (POnAbort "" (POnFailure "" (POnSuccess "" plan (hk HSuccess))
    (hk HFailure)) (hk HAbort)) (hk HError)) (hk HEnsure).

Definition hook_for (ok : bool) (err : option error) : hook :=
  match err with
  | Some e => if errors_Is e (TContext CtxCanceled) then HAbort else HError
  | None => if ok then HSuccess else HFailure
  end.

Section Hooks.
Context {W : Type} `{EngineWorld W, MultierrorLaws}.
Context (stepper : Plan -> Step W).

(** The context a hook runs with. *)
Definition hook_ctx (h : hook) (ctx : Ctx) : Ctx :=
  match h with HAbort | HError => Background | _ => ctx end.

Lemma errors_Is_RetriableZero e : errors_Is e TRetriableZero = false.
Proof.
  revert e. fix IH 1. intros [c|cause|errs|re|d|m|k m]; cbn; try done.
  induction errs as [|e errs IHe]; cbn; [done|]. by rewrite IH, IHe.
Qed.

Lemma errors_Is_Multi_of e t : existsb (fun e => errors_Is e t) (errors_of e) = errors_Is e t.
Proof. destruct e; cbn; by rewrite ?orb_false_r. Qed.

Lemma errors_Is_Append_some err e t :
  errors_Is (Append (Some err) e) t = errors_Is err t || errors_Is e t.
Proof. rewrite Append_some. cbn. by rewrite existsb_app, !errors_Is_Multi_of. Qed.

(** What has come out of the hook for the outcome of a step does not set off
    another of the hooks around it. *)
Definition settles (h : hook) (r : step_result) : Prop :=
  match h with
  | HSuccess => r = (true, None)
  | HFailure => r.2 = None
  | HAbort | HError | HEnsure => True
  end.

(** The result of the whole: [err] of the step is still an error, next to those
    of the hooks. *)
Definition hooked_result (ok : bool) (err : option error) (ensureOk : bool) (ensureErr : option error)
    (r : step_result) : Prop :=
  match err, ensureErr with
  | Some e, _ => exists e', r = (false, Some e') /\ forall t, errors_Is e t = true -> errors_Is e' t = true
  | None, Some e => exists e', r = (false, Some e') /\ forall t, errors_Is e' t = errors_Is e t
  | None, None => r = (ok && ensureOk, None)
  end.

(** [OnErrorStep] and [OnAbortStep] around a step that errored. *)
Lemma error_hooks_run step on_abort on_error ctx state (w : W) ok e w1 r w2 :
  step ctx state w = (Ret (ok, Some e), w1) ->
  (if errors_Is e (TContext CtxCanceled) then on_abort else on_error) Background state w1 = (Ret r, w2) ->
  exists e', OnErrorStep (OnAbortStep step on_abort) on_error ctx state w = (Ret (ok, Some e'), w2) /\
    forall t, errors_Is e t = true -> errors_Is e' t = true.
Proof.
  intros Hstep Hh. unfold OnErrorStep, OnAbortStep, mbind, stateful_bind, mret, stateful_ret.
  rewrite Hstep. cbn [Is]. destruct (errors_Is e (TContext CtxCanceled)) eqn:Hcan; cbn [negb orb].
  - rewrite Hh. rewrite Hcan. cbn [negb orb]. eexists. split; [done|]. intros t. by rewrite errors_Is_Append.
  - rewrite Hcan, errors_Is_RetriableZero. cbn [negb orb]. rewrite Hh. destruct r as [hok [he|]];
      eexists; (split; [done|]); intros t Ht; rewrite ?errors_Is_Append_some, ?errors_Is_Append; [|done].
    by rewrite Ht.
Qed.

(** [EnsureStep] around a step that returned. *)
Lemma ensure_hook_runs step hook ctx state (w : W) ok err w2 c w3 ensureOk ensureErr w4 w5 :
  step ctx state w = (Ret (ok, err), w2) -> ctx_Err ctx w2 = (c, w3) ->
  hook (match c with Some _ => Background | None => ctx end) state w3 = (Ret (ensureOk, ensureErr), w4) ->
  ctx_Err ctx w4 = (None, w5) ->
  exists r, EnsureStep step hook ctx state w = (Ret r, w5) /\ hooked_result ok err ensureOk ensureErr r.
Proof.
  intros Hs Hc He Hc'. unfold EnsureStep, mbind, stateful_bind, mret, stateful_ret, lift_world.
  rewrite Hs, Hc, He, Hc'. unfold hooked_result, append_err. destruct err as [e|], ensureErr as [e'|];
    eexists; (split; [done|]); try done; eexists; (split; [done|]); intros t;
    rewrite ?errors_Is_Append_some, ?errors_Is_Append; [|done..]. by intros ->.
Qed.


(** A step that fails with an error to be retried runs its
    [on_error] hook, although the engine leaves the build running and runs it
    again.  The hook is meant to be skipped: its guard asks for an error equal
    to [Retriable{}], which the error of a running step, having a cause, is
    not. *)
Theorem retriable_runs_on_error plan next attempts ctx state (w : W) ok e w1 hookOk hookErr w2 id buildID :
  buildStep stepper attempts plan ctx state w = (Ret (ok, Some (Retriable e)), w1) ->
  buildStep stepper attempts next Background state w1 = (Ret (hookOk, hookErr), w2) ->
  exists r, buildStep stepper attempts (POnError id plan next) ctx state w = (Ret r, w2) /\
    run_status false (Some r) buildID = None.
Proof.
  intros Hs Hh. cbn [buildStep]. unfold OnErrorStep, mbind, stateful_bind. rewrite Hs. cbn. rewrite Hh.
  destruct hookErr as [he|]; eexists; (split; [done|]); unfold run_status; cbn.
  - by rewrite Append_some, Append_nil.
  - by rewrite Append_nil.
Qed.

End Hooks.

(** ** What a retry publishes *)

(** No other goroutine uses the repositories. *)
Class QuietWorld (W : Type) `{ExecWorld W} : Prop := {
  quiet_elsewhere w : repositories (elsewhere w) = repositories w;
  quiet_Err c w : repositories (ctx_Err c w).2 = repositories w;
  quiet_set h w : repositories (set_repositories h w) = h }.

Section RetryPublish.
Context {W : Type} `{QuietWorld W}.

(** The step writes in the repository of its run state and in scopes it takes. *)
Definition scoped (step : Step W) : Prop :=
  forall ctx state w rc,
    repositories w !! rs_artifacts state = Some rc -> commit_state rc = commitStateOpen ->
    exists res w' rc', step ctx state w = (Ret res, w') /\
      repositories w' !! rs_artifacts state = Some rc' /\ parent rc' = parent rc /\
      baseRevisions rc' = baseRevisions rc /\ commit_state rc' = commitStateOpen /\
      forall a, a <> rs_artifacts state -> is_Some (repositories w !! a) ->
        repositories w' !! a = repositories w !! a.

(** [attempt] succeeded in a scope [rc] taken from [r0]. *)
Definition succeeded_in (attempt : Step W) ctx (state : runState) r0 (rc : Repository Artifact) : Prop :=
  exists c w1 w2,
    attempt ctx {| rs_vars := rs_vars state; rs_artifacts := c |} w1 = (Ret (true, None), w2) /\
    repositories w1 !! c = Some (local_scope (rs_artifacts state) r0) /\
    repositories w2 !! c = Some rc.

(** The commit of an open scope of an open parent that did not change. *)
Lemma commit_unchanged state w p r0 rc :
  p <> rs_artifacts state ->
  repositories w !! rs_artifacts state = Some rc -> commit_state rc = commitStateOpen ->
  parent rc = Some p -> baseRevisions rc = revisions r0 ->
  repositories w !! p = Some r0 -> commit_state r0 = commitStateOpen ->
  exists w', state_CommitToParent state w = (Ret (Ret ()), w') /\
    repositories w' !! p = Some (with_commit (commit_of p rc) r0).
Proof.
  intros Hne Hc Hco Hp Hb Hr Hro. unfold state_CommitToParent, on_repositories, mbind, stateful_bind.
  rewrite quiet_elsewhere.
  destruct (commit_begin_effect (rs_artifacts state) (repositories w)) as [[_ Hno]|(r & p' & Hr1 & Hp' & _ & ->)].
  { exfalso. apply (Hno (commit_of p rc)). unfold commit_begin, load, mbind, stateful_bind.
    rewrite Hc. cbn. by rewrite Hp, Hco. }
  simplify_eq. rewrite quiet_elsewhere, quiet_set. set (h1 := <[rs_artifacts state := _]> _).
  assert (Hp1 : h1 !! p = Some r0) by (unfold h1; by rewrite lookup_insert_ne).
  assert (Hs : commitSnapshot (commit_of p rc) h1 = (Ret (), <[p := with_commit (commit_of p rc) r0]> h1)).
  { unfold commitSnapshot, load, lift, ensureWritable, mbind, stateful_bind. cbn [c_parent commit_of].
    rewrite Hp1. cbn. rewrite Hro.
    assert (Hconf : first_conflict (commit_of p rc) r0 = None); [|by rewrite Hconf].
    unfold first_conflict. cbn [c_baseRevisions commit_of]. rewrite Hb, filter_none; [done|].
    apply Forall_forall. intros n _ Hd. by destruct Hd. }
  rewrite Hs. rewrite quiet_elsewhere, quiet_set. unfold commit_end, load, mbind, stateful_bind.
  rewrite lookup_insert_ne by done. unfold h1 at 1. rewrite lookup_insert_eq. cbn.
  eexists. split; [done|]. rewrite quiet_set, lookup_insert_ne by done. by rewrite lookup_insert_eq.
Qed.

Lemma retry_publishes_gen attempts ctx state w p r0 last :
  Forall scoped attempts -> rs_artifacts state = p -> repositories w !! p = Some r0 ->
  commit_state r0 = commitStateOpen -> last <> (true, None) ->
  exists res w', retry_attempts attempts ctx state last w = (Ret res, w') /\
    ((res = (true, None) /\ exists attempt rc, attempt ∈ attempts /\ succeeded_in attempt ctx state r0 rc /\
        repositories w' !! p = Some (with_commit (commit_of p rc) r0)) \/
     (res <> (true, None) /\ repositories w' !! p = Some r0)).
Proof.
  intros Hall Hst. revert w last. induction Hall as [|attempt attempts Hsc _ IH];
    intros w last Hr Hro Hlast; cbn [retry_attempts].
  { eexists _, _. split; [done|]. by right. }
  unfold NewArtifactScope, on_repositories, Repository_NewLocalScope, load, alloc,
    mbind, stateful_bind, lift_world. rewrite quiet_elsewhere, Hst, Hr. cbn.
  set (c := fresh (dom (repositories w))). set (w1 := set_repositories _ _).
  assert (Hcp : c <> p).
  { intros Heq. apply elem_of_dom_2 in Hr. rewrite <- Heq in Hr. by apply is_fresh in Hr. }
  assert (H1 : repositories w1 = <[c := local_scope p r0]> (repositories w)) by apply quiet_set.
  destruct (Hsc ctx {| rs_vars := rs_vars state; rs_artifacts := c |} w1 (local_scope p r0))
    as ([ok err] & w2 & rc & Hrun & Hrc & Hpar & Hbase & Hopen & Hframe);
    [by rewrite H1, lookup_insert_eq|done|]. cbn [rs_artifacts] in Hrc, Hframe. rewrite Hrun.
  assert (Hp2 : repositories w2 !! p = Some r0).
  { assert (Hp1 : repositories w1 !! p = Some r0) by by rewrite H1, lookup_insert_ne.
    rewrite <- Hp1. apply Hframe; [done|]. rewrite Hp1. eauto. }
  assert (H3 := quiet_Err ctx w2). destruct (ctx_Err ctx w2) as [[e|] w3]; cbn [snd] in H3.
  { eexists _, _. split; [done|]. right. split; [done|]. by rewrite H3. }
  assert (Hrec : forall last, last <> (true, None) ->
    exists res w', retry_attempts attempts ctx state last w3 = (Ret res, w') /\
    ((res = (true, None) /\ exists a rc, a ∈ attempt :: attempts /\ succeeded_in a ctx state r0 rc /\
        repositories w' !! p = Some (with_commit (commit_of p rc) r0)) \/
     (res <> (true, None) /\ repositories w' !! p = Some r0))).
  { intros l Hl. destruct (IH w3 l) as (res & w' & Hres & Hout); [by rewrite H3|done|done|].
    exists res, w'. split; [done|]. destruct Hout as [(-> & a & rc' & Ha & Hs & Hw)|Hout]; [left|by right].
    split; [done|]. exists a, rc'. split; [by apply list_elem_of_further|done]. }
  destruct err as [e|]; [by apply Hrec|]. destruct ok; [|by apply Hrec].
  destruct (commit_unchanged {| rs_vars := rs_vars state; rs_artifacts := c |} w3 p r0 rc)
    as (w4 & Hcommit & Hw4); try done; cbn; try congruence; try (by rewrite H3).
  rewrite Hcommit. eexists _, _. split; [done|]. left. split; [done|]. exists attempt, rc.
  split; [apply list_elem_of_here|]. split; [|done]. exists c, w1, w2. rewrite Hst.
  split; [done|]. split; [by rewrite H1, lookup_insert_eq|done].
Qed.

(** C36: A step with [attempts], each of which returns and writes only in its own
    scope, in a build none of whose other goroutines uses the artifacts meanwhile
    ([QuietWorld]; with a parallel step that writes the same name the commit would
    conflict): it publishes to the build's artifacts all that the attempt that
    succeeded wrote, and nothing that an attempt that failed or errored wrote; when
    it does not succeed it publishes nothing. *)
Theorem retry_publishes attempts ctx state w r0 :
  Forall scoped attempts -> repositories w !! rs_artifacts state = Some r0 ->
  commit_state r0 = commitStateOpen ->
  exists res w', RetryStep attempts ctx state w = (Ret res, w') /\
    ((res = (true, None) /\ exists attempt rc, attempt ∈ attempts /\ succeeded_in attempt ctx state r0 rc /\
        repositories w' !! rs_artifacts state = Some (with_commit (commit_of (rs_artifacts state) rc) r0)) \/
     (res <> (true, None) /\ repositories w' !! rs_artifacts state = Some r0)).
Proof. intros Hall Hr Ho. by apply retry_publishes_gen. Qed.

End RetryPublish.

(** ** The combinations of an across step *)

Section Combinations.
Context {A : Type}.

Lemma cartesian_rev_snoc (l : list (list A)) vals :
  cartesian_rev (l ++ [vals]) = vals ≫= (fun v => cons v <$> cartesian_rev l).
Proof.
  induction l as [|last l IH]; cbn.
  - rewrite app_nil_r. induction vals as [|v vals IHv]; [done|]. cbn. by f_equal.
  - rewrite IH. clear IH. induction vals as [|v vals IHv]; [done|]. cbn.
    rewrite bind_app, IHv. f_equal. generalize (cartesian_rev l) as sub. intros sub.
    induction sub as [|s sub IHs]; [done|]. cbn. rewrite fmap_app, IHs. f_equal.
    rewrite <- list_fmap_compose. done.
Qed.

(** The first var varies slowest. *)
Lemma cartesianProduct_cons (vals : list A) rest :
  cartesianProduct (vals :: rest) = vals ≫= (fun v => cons v <$> cartesianProduct rest).
Proof. unfold cartesianProduct. cbn. apply cartesian_rev_snoc. Qed.

Lemma length_bind_uniform {B} (f : A -> list B) n l :
  (forall a, length (f a) = n) -> length (l ≫= f) = (length l * n)%nat.
Proof. intros Hf. induction l as [|a l IH]; [done|]. cbn. by rewrite length_app, Hf, IH. Qed.

Lemma slice_bind_uniform {B} (f : A -> list B) n l i a :
  (forall a, length (f a) = n) -> l !! i = Some a ->
  slice_expr (l ≫= f) (i * n) ((i + 1) * n) = Some (f a).
Proof.
  intros Hf. unfold slice_expr. revert i. induction l as [|b l IH]; intros i Hi; [done|].
  destruct i as [|i]; cbn in Hi.
  - simplify_eq. cbn [mbind list_bind]. rewrite length_app, Hf.
    replace ((0 + 1) * n <=? _)%nat with true by (symmetry; apply Nat.leb_le; lia).
    rewrite Nat.mul_0_l, drop_0. replace ((0 + 1) * n - 0)%nat with (length (f a)) by (rewrite Hf; lia).
    by rewrite take_app_length.
  - specialize (IH i Hi). cbn [mbind list_bind]. rewrite length_app, Hf.
    destruct ((i + 1) * n <=? length (l ≫= f))%nat eqn:Hle; [|done]. apply Nat.leb_le in Hle.
    replace ((S i + 1) * n <=? _)%nat with true by (symmetry; apply Nat.leb_le; cbn [Nat.add Nat.mul]; lia).
    replace (S i * n)%nat with (length (f b) + i * n)%nat by (rewrite Hf; lia).
    rewrite drop_app_add. replace ((S i + 1) * n - (length (f b) + i * n))%nat
      with ((i + 1) * n - i * n)%nat by (rewrite Hf; lia). done.
Qed.

Lemma slice_expr_fmap {B} (f : A -> B) (l : list A) i j :
  slice_expr (f <$> l : list B) i j = option_fmap _ _ (fun k : list A => f <$> k) (slice_expr l i j).
Proof.
  unfold slice_expr. rewrite length_fmap. destruct (j <=? length l)%nat; [|done]. cbn.
  by rewrite fmap_take, fmap_drop.
Qed.
End Combinations.

Lemma length_cartesianProduct (varValues : list (list value)) :
  length (cartesianProduct varValues) = stepsPerValue varValues.
Proof.
  induction varValues as [|vals rest IH]; [done|]. rewrite cartesianProduct_cons. cbn.
  rewrite (length_bind_uniform _ (stepsPerValue rest)); [done|]. intros v. by rewrite length_fmap.
Qed.

(** The values the indices [idx] stand for. *)
Fixpoint pick (varValues : list (list value)) (idx : list nat) : option (list value) :=
  match varValues, idx with
  | [], [] => Some []
  | vals :: varValues, i :: idx => v ← vals !! i; vs ← pick varValues idx; Some (v :: vs)
  | _, _ => None
  end.

Section AcrossSpec.
Context {W : Type} `{EngineWorld W, Multierror}.
Context (stepper : Plan -> Step W) (plan : AcrossPlan) (state : runState).

(** The executor [x] runs, as its substep number [i] and in it the substeps
    with the numbers [idx], the plan of [s] in a scope with its values. *)
Inductive runs_substep : parallelExecutor W -> list nat -> VarScopedPlan -> Prop :=
| runs_leaf x i s :
    (i < px_count x)%nat ->
    (forall ctx w, px_runFunc x i ctx w =
       (scope ← NewLocalScope state;
        _ ← add_local_vars scope (ap_Vars plan) (vsp_Values s);
        stepper (vsp_Step s) ctx scope) w) ->
    runs_substep x [i] s
| runs_node x x' i idx s :
    (i < px_count x)%nat ->
    (forall ctx w, px_runFunc x i ctx w = parallelExecutor_run x' ctx w) ->
    runs_substep x' idx s ->
    runs_substep x (i :: idx) s.

Lemma across_combinations_gen vars varValues steps pre :
  vars <> [] -> length vars = length varValues ->
  vsp_Values <$> steps = app pre <$> cartesianProduct varValues ->
  exists x, acrossStepExecutor stepper plan state vars varValues steps = Some x /\
    forall idx vs, pick varValues idx = Some vs ->
      exists s, s ∈ steps /\ runs_substep x idx s /\ vsp_Values s = pre ++ vs.
Proof.
  revert varValues steps pre. induction vars as [|v vars IH]; intros varValues steps pre Hne Hlen Hsteps; [done|].
  destruct varValues as [|vals rest]; [done|]. cbn in Hlen. rewrite cartesianProduct_cons in Hsteps.
  destruct vars as [|v' vars].
  - destruct rest; [|done]. eexists. split; [done|]. intros [|i [|]] vs Hpick; try done;
      cbn in Hpick; apply bind_Some in Hpick as (a & Ha & Hpick); [|done]. simplify_eq.
    assert (Hi : (vsp_Values <$> steps) !! i = Some (pre ++ [a])).
    { rewrite Hsteps. clear Hsteps. cbn. revert i Ha. induction vals as [|b vals IHv]; intros [|i] Ha; try done.
      - cbn in Ha |- *. by simplify_eq.
      - cbn in Ha |- *. by apply IHv. }
    rewrite list_lookup_fmap in Hi. destruct (steps !! i) as [s|] eqn:Hs; [|done]. injection Hi as Hv.
    exists s. split; [by eapply list_elem_of_lookup_2|]. split; [|done].
    apply runs_leaf; [by eapply lookup_lt_Some|]. intros ctx w. cbn. by rewrite Hs.
  - eexists. split; [done|]. intros [|i idx] vs Hpick; [done|]. cbn [pick] in Hpick.
    apply bind_Some in Hpick as (a & Ha & Hpick). apply bind_Some in Hpick as (vs' & Hvs & [= <-]).
    set (n := stepsPerValue rest).
    assert (Hslice : slice_expr (vsp_Values <$> steps) (i * n) ((i + 1) * n)
                     = Some (app (pre ++ [a]) <$> cartesianProduct rest)).
    { rewrite Hsteps, slice_expr_fmap, (slice_bind_uniform _ n _ _ a);
        [|intros b; by rewrite length_fmap, length_cartesianProduct|done].
      cbn. f_equal. rewrite <- list_fmap_compose. apply list_fmap_ext. intros _ l _. cbn.
      by rewrite <- app_assoc. }
    rewrite slice_expr_fmap in Hslice.
    destruct (slice_expr steps (i * n) ((i + 1) * n)) as [sub|] eqn:Hsub; [|done]. injection Hslice as Hslice.
    destruct (IH rest sub (pre ++ [a])) as (x' & Hx' & Hall); [done|cbn in *; lia|done|].
    destruct (Hall idx vs' Hvs) as (s & Hin & Hruns & Hval). exists s. split; [|split].
    + unfold slice_expr in Hsub. destruct (_ <=? _)%nat; [|done]. injection Hsub as <-.
      rewrite <- (take_drop (i * n) steps). apply elem_of_app. right.
      rewrite <- (take_drop ((i + 1) * n - i * n) (drop (i * n) steps)). apply elem_of_app. by left.
    + eapply (runs_node _ x'); [by eapply lookup_lt_Some| |done]. intros ctx w.
      cbn [px_runFunc]. fold n. rewrite Hsub.
      change (match acrossStepExecutor stepper plan state (v' :: vars) rest sub with
              | None => panics
              | Some x => parallelExecutor_run x ctx
              end w = parallelExecutor_run x' ctx w). by rewrite Hx'.
    + rewrite Hval. by rewrite <- app_assoc.
Qed.

(** An across step runs a substep for every combination of the
    values of its vars: for each choice of one value per var there is a substep
    with exactly these values, and the nested executors run its plan, in a scope
    where the vars have these values, when they reach it by the choice's
    indices. No index is out of range. *)
Theorem across_combinations varValues substeps :
  ap_Vars plan <> [] -> length (ap_Vars plan) = length varValues ->
  vsp_Values <$> substeps = cartesianProduct varValues ->
  exists x, acrossStepExecutor stepper plan state (ap_Vars plan) varValues substeps = Some x /\
    forall idx vs, pick varValues idx = Some vs ->
      exists s, s ∈ substeps /\ runs_substep x idx s /\ vsp_Values s = vs.
Proof.
  intros Hne Hlen Hs. apply (across_combinations_gen _ _ _ []); try done. rewrite Hs. symmetry.
  apply list_fmap_id.
Qed.

End AcrossSpec.
