(* ===== verification/ExecWitness.v ===== *)
(** * A world to run steps in, and witnesses

    A concrete instance of [ExecWorld] and [EngineWorld]: contexts are paths from
    the root, core steps do what their name says, the scheduler takes its choices
    from a list.  It satisfies the laws the theorems about steps assume, and the
    theorems are applied to plans run in it. *)
From stdpp Require Import base gmap sets list strings.
From Stdlib Require Import ZArith Lia.
From S2P Require Import Prelude Tables Vars Repository RepositorySpec ExecWorld Parallel ParallelSpec Exec Engine ExecSpec.

Open Scope Z_scope.

Record sim := {
  sim_canceled : list (list nat);
  sim_next : nat;
  sim_log : list string;
  sim_repos : Heap string;
  sim_scopes : gmap addr buildVariables;
  sim_picks : list nat }.

Definition sim_done (c : list nat) (w : sim) : bool :=
  existsb (fun p => bool_decide (p `prefix_of` c)) (sim_canceled w).

Definition with_log (msg : string) (w : sim) : sim :=
  {| sim_canceled := sim_canceled w; sim_next := sim_next w; sim_log := sim_log w ++ [msg];
     sim_repos := sim_repos w; sim_scopes := sim_scopes w; sim_picks := sim_picks w |}.
Definition with_next (w : sim) : sim :=
  {| sim_canceled := sim_canceled w; sim_next := S (sim_next w); sim_log := sim_log w;
     sim_repos := sim_repos w; sim_scopes := sim_scopes w; sim_picks := sim_picks w |}.
Definition with_canceled (c : list nat) (w : sim) : sim :=
  {| sim_canceled := c :: sim_canceled w; sim_next := sim_next w; sim_log := sim_log w;
     sim_repos := sim_repos w; sim_scopes := sim_scopes w; sim_picks := sim_picks w |}.
Definition with_repos (h : Heap string) (w : sim) : sim :=
  {| sim_canceled := sim_canceled w; sim_next := sim_next w; sim_log := sim_log w;
     sim_repos := h; sim_scopes := sim_scopes w; sim_picks := sim_picks w |}.
Definition with_scopes (s : gmap addr buildVariables) (w : sim) : sim :=
  {| sim_canceled := sim_canceled w; sim_next := sim_next w; sim_log := sim_log w;
     sim_repos := sim_repos w; sim_scopes := s; sim_picks := sim_picks w |}.
Definition next_pick (w : sim) : nat * sim :=
  match sim_picks w with
  | [] => (0%nat, w)
  | k :: picks =>
      (k, {| sim_canceled := sim_canceled w; sim_next := sim_next w; sim_log := sim_log w;
             sim_repos := sim_repos w; sim_scopes := sim_scopes w; sim_picks := picks |})
  end.

#[global] Instance sim_world : ExecWorld sim := {|
  Ctx := list nat;
  Background := [];
  ctx_Err c w := (if sim_done c w then Some CtxCanceled else None, w);
  WithCancel c w := (c ++ [sim_next w], with_next w);
  cancel c w := with_canceled c w;
  WithTimeout c _ w := (c ++ [sim_next w], with_next w);
  ParseDuration s := if String.eqb s "1m" then Some 60000000000 else None;
  schedule _ w := next_pick w;
  elsewhere w := w;
  Artifact := string;
  repositories := sim_repos;
  set_repositories := with_repos;
  scopes := sim_scopes;
  set_scopes := with_scopes;
  delegate_Errored _ msg w := with_log msg w |}.

#[global] Instance sim_multierror : Multierror := {|
  Append err e := Multi (match err with Some err => errors_of err | None => [] end ++ errors_of e);
  ErrorFormat := String.concat "; " |}.

#[global] Instance sim_multierror_laws : MultierrorLaws.
Proof. by split. Qed.

(** A core step does what its name says, unless its context is done. *)
Definition sim_core (kind : core_kind) (id attempt : string) : Step sim := fun ctx _ w =>
  if sim_done ctx w then (Ret (false, Some Canceled), w)
  else
    (Ret (if String.eqb id "fail" then (false, None)
          else if String.eqb id "net" then (false, Some (Raised NetError "connection refused"))
          else (true, None)), with_log id w).

#[global] Instance sim_engine : EngineWorld sim := {|
  core_Run := sim_core;
  across_values _ v w :=
    (match av_Values v with VList l => inr l | _ => inl (Raised OtherError "not a list") end, w);
  substep_plan _ _ _ _ w := (inr (PCore "substep" KTask), w);
  save_substeps _ _ w := (None, w);
  EnableBuildRerunWhenWorkerDisappears := true |}.

#[global] Instance sim_contexts : Contexts sim := {| canceled c w := sim_done c w = true |}.

Lemma sim_done_app c c' w : sim_done c w = true -> sim_done (c ++ c') w = true.
Proof.
  unfold sim_done. rewrite !existsb_exists. intros (p & Hp & Hd). exists p. split; [done|].
  rewrite bool_decide_eq_true in *. by apply prefix_app_r.
Qed.

#[global] Instance sim_laws : WorldLaws sim.
Proof.
  split; cbn; try done.
  - intros c w ->. done.
  - intros c w. apply sim_done_app.
  - intros c _ w. apply sim_done_app.
  - intros c w. split; [|done|done]. intros c0. cbn. unfold sim_done. cbn. intros ->. apply orb_true_r.
  - intros _ w. unfold next_pick. destruct (sim_picks w); done.
Qed.

#[global] Instance sim_core_steps : CoreSteps sim.
Proof.
  split.
  - intros kind id attempt ctx state w Hv. cbn. unfold sim_core.
    destruct (sim_done ctx w); [by eexists _, _|]. eexists _, _. split; [done|]. by split.
  - intros kind id attempt ctx state w Hv Hc. cbn in Hc |- *. unfold sim_core. rewrite Hc.
    eexists _, _, _. split; [done|]. by split.
Qed.

#[global] Instance sim_quiet : QuietWorld sim.
Proof. by split. Qed.

(** A build about to run in the context [[0]]. *)
Definition w_state : runState := {| rs_vars := 0%nat; rs_artifacts := 0%nat |}.
Definition w_start (canceled : list (list nat)) : sim :=
  {| sim_canceled := canceled; sim_next := 1; sim_log := [];
     sim_repos := {[0%nat := empty_repository]}; sim_scopes := {[0%nat := newBuildVariables]};
     sim_picks := [1; 0; 2; 1; 1]%nat |}.
Definition w_stepper : Plan -> Step sim := fun _ => IdentityStep.

Lemma w_start_valid canceled : valid w_state (w_start canceled).
Proof.
  split_and!; cbn.
  - by eexists.
  - by eexists.
  - intros a r p Ha Hp. apply lookup_singleton_Some in Ha as [_ <-]. discriminate.
Qed.

(** ** The parallel executor *)

Definition w_executor : parallelExecutor sim :=
  {| px_stepName := "in_parallel";
     px_maxInFlight := Some {| mif_All := false; mif_Limit := 2 |};
     px_failFast := false;
     px_count := 3;
     px_runFunc := fun i _ w => (Ret (negb (i =? 1)%nat, None), with_log (if (i =? 1)%nat then "bad" else "good") w) |}.

(** Two substeps are running and the loop waits for a slot; the third has not
    started. *)
Definition w_two_running : par :=
  {| p_main := MSend; p_next := 2; p_sem := 2; p_errs := []; p_failures := 0;
     p_threads := [TRun; TRun]; p_received := 0; p_result := None |}.

Lemma parallel_limit_witness :
  main_enabled w_executor w_two_running = false /\
  Z.of_nat (count_if holding (p_threads w_two_running)) <= limit w_executor /\
  length (p_threads w_two_running) = p_next w_two_running.
Proof.
  split; [by vm_compute|].
  apply (parallel_limit w_executor [0%nat]); [by vm_compute|].
  eapply (rtc_l _ _ (set_main MCheck (set_sem 1%nat par_init))).
  { exists None, (w_start []), (w_start []). split; [|done]. apply elem_of_enabled. done. }
  eapply (rtc_l _ _ (spawn (set_main MCheck (set_sem 1%nat par_init)))).
  { exists None, (w_start []), (w_start []). split; [|done]. apply elem_of_enabled. done. }
  eapply (rtc_l _ _ (set_main MCheck (set_sem 2%nat (spawn (set_main MCheck (set_sem 1%nat par_init)))))).
  { exists None, (w_start []), (w_start []). split; [|done]. apply elem_of_enabled. done. }
  eapply rtc_l; [|apply rtc_refl].
  exists None, (w_start []), (w_start []). split; [|done]. apply elem_of_enabled. done.
Defined.

Lemma parallel_run_witness :
  let log := par_log w_executor [0%nat; 1%nat] (par_fuel w_executor) par_init (with_next (w_start [])) in
  substeps log = [(0%nat, Ran (true, None)); (1%nat, Ran (false, None)); (2%nat, Ran (true, None))] /\
  exists res w' hs recv p w1 ctxErr w2,
    parallelExecutor_run w_executor [0%nat] (w_start []) = (Ret res, w') /\
    par_loop w_executor [0%nat; 1%nat] (par_fuel w_executor) par_init (with_next (w_start [])) = (Ret p, w1) /\
    substeps log ≡ₚ imap pair hs /\
    (forall h, h ∈ hs -> h <> NotYet) /\
    (length hs = 3%nat \/ stopped log) /\
    recv ≡ₚ sent_err <$> hs /\
    ctx_Err (W:=sim) [0%nat] w1 = (ctxErr, w2) /\
    res = match ctxErr with
          | Some e => (false, Some (Context e))
          | None =>
              match collect recv with
              | Some e => (false, Some e)
              | None => (forallb succeeded hs, None)
              end
          end.
Proof.
  split; [vm_compute; reflexivity|].
  apply (parallel_run w_executor [0%nat] (w_start []) [0%nat; 1%nat] (with_next (w_start []))).
  - right. by vm_compute.
  - by vm_compute.
  - by vm_compute.
  - reflexivity.
  - by split.
Defined.

(** ** Aborts *)

Definition w_plan : Plan :=
  PEnsure "e" (PTimeout "t" (PTry "y" (PRetry "r" [PDo "d" [PCore "a" KTask; PCore "b" KGet];
    PInParallel "p" [PCore "c" KPut; PNone "n"] 1 true])) "1m") (PCore "cleanup" KTask).


(** ** Hooks *)

Definition hook_name (h : hook) : string :=
  match h with
  | HSuccess => "on_success" | HFailure => "on_failure" | HAbort => "on_abort"
  | HError => "on_error" | HEnsure => "ensure"
  end.


Lemma retriable_runs_on_error_witness :
  exists r, buildStep w_stepper [] (POnError "o" (PCore "net" KTask) (PCore "on_error" KTask)) [0%nat]
      w_state (w_start [])
    = (Ret r, with_log "on_error" (with_log "connection refused, will retry ..."
        (with_log "connection refused" (with_log "net" (w_start []))))) /\
    run_status false (Some r) 7 = None.
Proof.
  eapply (retriable_runs_on_error w_stepper); reflexivity.
Defined.

(** ** Retry *)

(** A step that registers an artifact in its scope. *)
Definition w_writes (name : string) (ok : bool) : Step sim := fun _ state w =>
  (Ret (ok, None), with_repos (RegisterArtifact (rs_artifacts state) name "volume" false (sim_repos w)).2 w).

Lemma w_writes_scoped name ok : scoped (w_writes name ok).
Proof.
  intros ctx state w rc Hrc Ho. unfold w_writes, RegisterArtifact. cbn [repositories sim_world] in *.
  set (es := {[name := _]}).
  assert (Heff := RegisterArtifacts_effect (rs_artifacts state) es (sim_repos w)).
  destruct (RegisterArtifacts (rs_artifacts state) es (sim_repos w)) as [o h]. cbn [snd] in Heff.
  destruct Heff as [->|(r & Hr & _ & -> & _)].
  - exists (ok, None), (with_repos (sim_repos w) w), rc. destruct o; by split_and!.
  - assert (Heq := eq_trans (eq_sym Hrc) Hr). injection Heq as <-.
    exists (ok, None), (with_repos (<[rs_artifacts state := with_entries es rc]> (sim_repos w)) w),
      (with_entries es rc).
    split; [by destruct o|]. cbn [sim_repos with_repos]. split; [by rewrite lookup_insert_eq|].
    split_and!; try done. intros a Hne _. by rewrite lookup_insert_ne.
Qed.

Lemma retry_publishes_witness :
  exists res w', RetryStep [w_writes "half-done" false; w_writes "result" true] [0%nat] w_state (w_start [])
      = (Ret res, w') /\
    ((res = (true, None) /\ exists attempt rc,
        attempt ∈ [w_writes "half-done" false; w_writes "result" true] /\
        succeeded_in attempt [0%nat] w_state empty_repository rc /\
        repositories w' !! 0%nat = Some (with_commit (commit_of 0%nat rc) empty_repository)) \/
     (res <> (true, None) /\ repositories w' !! 0%nat = Some empty_repository)).
Proof.
  apply (retry_publishes [w_writes "half-done" false; w_writes "result" true] [0%nat] w_state (w_start [])
    empty_repository).
  - repeat constructor; apply w_writes_scoped.
  - reflexivity.
  - reflexivity.
Defined.

(** ** Across *)

Definition w_across : AcrossPlan :=
  {| ap_Vars := [{| av_Var := "os"; av_Values := VList [VStr "linux"; VStr "darwin"]; av_MaxInFlight := None |};
                 {| av_Var := "go"; av_Values := VList [VStr "1.24"; VStr "1.25"]; av_MaxInFlight := None |}];
     ap_SubStepTemplate := "{}"; ap_FailFast := false |}.
Definition w_values : list (list value) := [[VStr "linux"; VStr "darwin"]; [VStr "1.24"; VStr "1.25"]].
Definition w_substeps : list VarScopedPlan :=
  (fun vs => {| vsp_Step := PCore "substep" KTask; vsp_Values := vs |}) <$> cartesianProduct w_values.

Lemma across_combinations_witness :
  exists x, acrossStepExecutor w_stepper w_across w_state (ap_Vars w_across) w_values w_substeps = Some x /\
    forall idx vs, pick w_values idx = Some vs ->
      exists s, s ∈ w_substeps /\ runs_substep w_stepper w_across w_state x idx s /\ vsp_Values s = vs.
Proof.
  apply (across_combinations w_stepper w_across w_state w_values w_substeps).
  - discriminate.
  - reflexivity.
  - reflexivity.
Defined.
