(* ===== verification/GoText.v ===== *)
(** * Text as Go sees it

    The parts of Go's standard library that the configuration code reads
    strings with: the decoding of UTF-8 ([utf8.DecodeRuneInString]) and shell
    patterns ([path.Match], with its [scanChunk], [matchChunk] and [getEsc]).
    A string is its bytes. *)
From stdpp Require Import base list strings.
From Stdlib Require Import ZArith Ascii Lia.
From S2P Require Import Prelude.

Open Scope Z_scope.

Definition byte_of (c : ascii) : Z := Z.of_N (N_of_ascii c).
Definition between (lo hi r : Z) : bool := (lo <=? r) && (r <=? hi).

(** ** UTF-8 *)

Definition RuneError : Z := 65533.

(** The continuation bytes of a rune: the first within [lo, hi], the others
    within 0x80-0xBF; their payload, and what follows. *)
Definition continuation (lo hi : Z) (s : string) : option (Z * string) :=
  match s with
  | String c s => if between lo hi (byte_of c) then Some (byte_of c mod 64, s) else None
  | EmptyString => None
  end.

(** [utf8.DecodeRuneInString]: the rune, its width and what follows; an invalid
    encoding is [RuneError] of width 1. *)
Definition DecodeRuneInString (s : string) : Z * Z * string :=
  match s with
  | EmptyString => (RuneError, 0, "")
  | String c rest =>
      let b := byte_of c in
      let bad := (RuneError, 1, rest) in
      let two lo hi :=
        match continuation lo hi rest with
        | Some (x, rest) => (b mod 32 * 64 + x, 2, rest)
        | None => bad
        end in
      let three lo hi :=
        match continuation lo hi rest with
        | Some (x, rest1) =>
            match continuation 128 191 rest1 with
            | Some (y, rest2) => (b mod 16 * 4096 + x * 64 + y, 3, rest2)
            | None => bad
            end
        | None => bad
        end in
      let four lo hi :=
        match continuation lo hi rest with
        | Some (x, rest1) =>
            match continuation 128 191 rest1 with
            | Some (y, rest2) =>
                match continuation 128 191 rest2 with
                | Some (z, rest3) => (b mod 8 * 262144 + x * 4096 + y * 64 + z, 4, rest3)
                | None => bad
                end
            | None => bad
            end
        | None => bad
        end in
      if b <? 128 then (b, 1, rest)
      else if between 194 223 b then two 128 191
      else if b =? 224 then three 160 191
      else if b =? 237 then three 128 159
      else if between 225 239 b then three 128 191
      else if b =? 240 then four 144 191
      else if between 241 243 b then four 128 191
      else if b =? 244 then four 128 143
      else bad
  end.

(** The runes of a string, as [range] and [regexp] read them. *)
Fixpoint runes_from (fuel : nat) (s : string) : list Z :=
  match fuel, s with
  | S fuel, String _ _ => let '(r, _, rest) := DecodeRuneInString s in r :: runes_from fuel rest
  | _, _ => []
  end.
Definition runes (s : string) : list Z := runes_from (String.length s) s.

(** ** Shell patterns *)

Inductive match_error := ErrBadPattern.

Fixpoint strip_stars (star : bool) (pattern : string) : bool * string :=
  match pattern with
  | String c rest => if Ascii.eqb c "*" then strip_stars true rest else (star, pattern)
  | EmptyString => (star, pattern)
  end.

Fixpoint scan (inrange : bool) (pattern : string) : string * string :=
  match pattern with
  | EmptyString => (EmptyString, EmptyString)
  | String c rest =>
      if Ascii.eqb c "\" then
        match rest with
        | EmptyString => (String c EmptyString, EmptyString)
        | String d rest => let (a, b) := scan inrange rest in (String c (String d a), b)
        end
      else if Ascii.eqb c "[" then let (a, b) := scan true rest in (String c a, b)
      else if Ascii.eqb c "]" then let (a, b) := scan false rest in (String c a, b)
      else if Ascii.eqb c "*" && negb inrange then (EmptyString, pattern)
      else let (a, b) := scan inrange rest in (String c a, b)
  end.

Definition scanChunk (pattern : string) : bool * string * string :=
  let (star, pattern) := strip_stars false pattern in
  let (chunk, rest) := scan false pattern in (star, chunk, rest).

Definition getEsc (chunk : string) : outcome match_error (Z * string) :=
  match chunk with
  | EmptyString => Fail ErrBadPattern
  | String c rest =>
      if Ascii.eqb c "-" || Ascii.eqb c "]" then Fail ErrBadPattern
      else
        let chunk := if Ascii.eqb c "\" then rest else chunk in
        match chunk with
        | EmptyString => Fail ErrBadPattern
        | String _ _ =>
            let '(r, n, nchunk) := DecodeRuneInString chunk in
            if (r =? RuneError) && (n =? 1) then Fail ErrBadPattern
            else match nchunk with EmptyString => Fail ErrBadPattern | _ => Ret (r, nchunk) end
        end
  end.

(** The upper end of a range: [lo] itself unless a dash follows. *)
Definition getHi (lo : Z) (chunk : string) : outcome match_error (Z * string) :=
  match chunk with
  | String c rest => if Ascii.eqb c "-" then getEsc rest else Ret (lo, chunk)
  | EmptyString => Panic
  end.

(** The ranges of a character class: whether one holds [r], and the chunk
    after the class. *)
Fixpoint ranges (fuel : nat) (r : Z) (found : bool) (nrange : nat) (chunk : string)
    : outcome match_error (bool * string) :=
  match fuel with
  | O => NoFuel
  | S fuel =>
      match chunk with
      | String c rest =>
          if Ascii.eqb c "]" && (0 <? nrange)%nat then Ret (found, rest)
          else
            '(lo, chunk) ← getEsc chunk;
            '(hi, chunk) ← getHi lo chunk;
            ranges fuel r (found || between lo hi r) (S nrange) chunk
      | EmptyString => Fail ErrBadPattern
      end
  end.

(** [matchChunk]: [None] when the match has failed; the zero rune then stands
    for the one a class would read. *)
Fixpoint matchChunk_from (fuel : nat) (chunk : string) (s : option string)
    : outcome match_error (option string) :=
  match chunk with
  | EmptyString => Ret s
  | String c chunk =>
      match fuel with
      | O => NoFuel
      | S fuel =>
          let s := match s with Some EmptyString => None | s => s end in
          if Ascii.eqb c "[" then
            let '(r, s) :=
              match s with
              | Some s => let '(r, _, rest) := DecodeRuneInString s in (r, Some rest)
              | None => (0, None)
              end in
            let '(negated, chunk) :=
              match chunk with String "^" chunk => (true, chunk) | _ => (false, chunk) end in
            '(found, chunk) ← ranges (S (String.length chunk)) r false 0 chunk;
            matchChunk_from fuel chunk (if Bool.eqb found negated then None else s)
          else if Ascii.eqb c "?" then
            matchChunk_from fuel chunk
              (s ← s;
               match s with
               | String "/" _ => None
               | _ => let '(_, _, rest) := DecodeRuneInString s in Some rest
               end)
          else
            let literal d chunk :=
              matchChunk_from fuel chunk
                (s ← s;
                 match s with
                 | String e rest => if Ascii.eqb d e then Some rest else None
                 | EmptyString => None
                 end) in
            if Ascii.eqb c "\" then
              match chunk with
              | EmptyString => Fail ErrBadPattern
              | String d chunk => literal d chunk
              end
            else literal c chunk
      end
  end.

Definition matchChunk (chunk s : string) : outcome match_error (option string) :=
  matchChunk_from (String.length chunk) chunk (Some s).

Fixpoint has_slash (s : string) : bool :=
  match s with
  | EmptyString => false
  | String c s => Ascii.eqb c "/" || has_slash s
  end.

(** The rest of the pattern is checked before a mismatch is reported. *)
Fixpoint check_rest (fuel : nat) (pattern : string) : outcome match_error unit :=
  match pattern with
  | EmptyString => Ret ()
  | _ =>
      match fuel with
      | O => NoFuel
      | S fuel =>
          let '(_, chunk, pattern) := scanChunk pattern in
          _ ← matchChunk chunk EmptyString;
          check_rest fuel pattern
      end
  end.

(** The loop over [i]: what follows the first match of [chunk] in [name], after
    at least one byte that is not a slash. *)
Fixpoint skip_match (chunk pattern name : string) : outcome match_error (option string) :=
  match name with
  | EmptyString => Ret None
  | String c name =>
      if Ascii.eqb c "/" then Ret None
      else
        t ← matchChunk chunk name;
        match t with
        | Some t =>
            match pattern, t with
            | EmptyString, String _ _ => skip_match chunk pattern name
            | _, _ => Ret (Some t)
            end
        | None => skip_match chunk pattern name
        end
  end.

Fixpoint Match_from (fuel : nat) (pattern name : string) : outcome match_error bool :=
  match pattern with
  | EmptyString => Ret (match name with EmptyString => true | _ => false end)
  | _ =>
      match fuel with
      | O => NoFuel
      | S fuel =>
          let '(star, chunk, pattern) := scanChunk pattern in
          if (star : bool) && String.eqb chunk "" then Ret (negb (has_slash name))
          else
            t ← matchChunk chunk name;
            let mismatch :=
              t ← (if (star : bool) then skip_match chunk pattern name else Ret None);
              match t with
              | Some t => Match_from fuel pattern t
              | None => _ ← check_rest (String.length pattern) pattern; Ret false
              end in
            match t with
            | Some t =>
                match pattern, t with
                | EmptyString, String _ _ => mismatch
                | _, _ => Match_from fuel pattern t
                end
            | None => mismatch
            end
      end
  end.

Definition Match (pattern name : string) : outcome match_error bool :=
  Match_from (String.length pattern) pattern name.

(** [matched, _ := path.Match(pattern, name)]. *)
Definition matched (pattern name : string) : bool :=
  match Match pattern name with Ret b => b | _ => false end.

Example matched_star : matched "deploy-*" "deploy-prod" = true.
Proof. reflexivity. Qed.
Example matched_class : matched "[a-c]?\*" "bz*" = true.
Proof. reflexivity. Qed.
Example matched_bad : Match "a[" "b" = Fail ErrBadPattern.
Proof. reflexivity. Qed.
Example matched_no_backtrack : matched "*[^a]*b" "x/b" = false.
Proof. reflexivity. Qed.

(** ** Termination

    The fuel of each function, the length of what it reads, is enough. *)

Ltac decode_cases :=
  repeat match goal with
  | |- context [if ?b then _ else _] => destruct b
  | |- context [continuation ?lo ?hi ?s] =>
      destruct (continuation lo hi s) as [[? ?]|] eqn:?
  end.

Lemma continuation_length lo hi s x rest :
  continuation lo hi s = Some (x, rest) -> String.length s = S (String.length rest).
Proof. destruct s; cbn; [done|]. case_match; intros [= <- <-]; done. Qed.

Lemma decode_length c s r n rest :
  DecodeRuneInString (String c s) = (r, n, rest) -> (String.length rest <= String.length s)%nat.
Proof.
  cbn -[Z.modulo Z.mul Z.add]. decode_cases; intros [= <- <- <-];
    repeat match goal with H : continuation _ _ _ = Some _ |- _ => apply continuation_length in H end; lia.
Qed.

Lemma getEsc_returns chunk : returns (getEsc chunk).
Proof. unfold getEsc. repeat case_match; done. Qed.

Lemma getEsc_length chunk r nchunk :
  getEsc chunk = Ret (r, nchunk) -> (String.length nchunk < String.length chunk)%nat.
Proof.
  unfold getEsc. destruct chunk as [|c rest]; [done|]. destruct (_ || _); [done|].
  assert (Hsub : (String.length (if Ascii.eqb c "\" then rest else String c rest)
                  <= S (String.length rest))%nat) by (destruct (Ascii.eqb c "\"); cbn; lia).
  destruct (if Ascii.eqb c "\" then rest else String c rest) as [|d rest']; [done|].
  destruct (DecodeRuneInString (String d rest')) as [[r' n] nchunk'] eqn:Hd.
  apply decode_length in Hd. cbn in Hsub. destruct (_ && _); [done|].
  destruct nchunk'; [done|]. intros [= <- <-]. cbn in *. lia.
Qed.

Lemma getEsc_nonempty chunk r nchunk : getEsc chunk = Ret (r, nchunk) -> nchunk <> EmptyString.
Proof.
  unfold getEsc. destruct chunk as [|c rest]; [done|]. destruct (_ || _); [done|].
  destruct (if Ascii.eqb c "\" then rest else String c rest) as [|d rest']; [done|].
  destruct (DecodeRuneInString _) as [[r' n] nchunk']. destruct (_ && _); [done|].
  destruct nchunk'; [done|]. by intros [= <- <-].
Qed.

Lemma getHi_returns lo chunk :
  chunk <> EmptyString -> returns (getHi lo chunk) /\
  forall hi rest, getHi lo chunk = Ret (hi, rest) -> (String.length rest <= String.length chunk)%nat.
Proof.
  destruct chunk as [|c rest]; intros; [done|]. cbn. destruct (Ascii.eqb c "-").
  - split; [apply getEsc_returns|]. intros hi rest' Hr%getEsc_length. lia.
  - split; [done|]. by intros hi rest' [= <- <-].
Qed.

Lemma ranges_returns fuel r found nrange chunk :
  (String.length chunk < fuel)%nat ->
  returns (ranges fuel r found nrange chunk) /\
  forall b rest, ranges fuel r found nrange chunk = Ret (b, rest) ->
    (String.length rest < String.length chunk)%nat.
Proof.
  revert found nrange chunk. induction fuel as [|fuel IH]; intros found nrange chunk Hl; [lia|].
  destruct chunk as [|c rest]; [done|]. cbn [ranges]. destruct (_ && _).
  { cbn. split; [done|]. intros b rest' [= <- <-]. lia. }
  pose proof (getEsc_returns (String c rest)) as Hr1.
  destruct (getEsc (String c rest)) as [[lo chunk1]|e| |] eqn:He; try done.
  pose proof (getEsc_nonempty _ _ _ He) as Hne. apply getEsc_length in He.
  destruct (getHi_returns lo chunk1 Hne) as [Hr2 Hl2]. cbn [mbind outcome_bind].
  destruct (getHi lo chunk1) as [[hi chunk2]|e| |]; try done.
  specialize (Hl2 _ _ eq_refl). cbn [mbind outcome_bind].
  destruct (IH (found || between lo hi r) (S nrange) chunk2) as [IH1 IH2]; [lia|].
  split; [done|]. intros b rest' H. apply IH2 in H. lia.
Qed.

Lemma matchChunk_from_returns fuel chunk s :
  (String.length chunk <= fuel)%nat -> returns (matchChunk_from fuel chunk s).
Proof.
  revert chunk s. induction fuel as [|fuel IH]; intros [|c chunk] s Hl; cbn in Hl; try done; [lia|].
  cbn [matchChunk_from]. destruct (Ascii.eqb c "[").
  - destruct (match _ with Some _ => _ | None => _ end) as [r s'].
    assert (Hneg : forall neg chunk', match chunk with String "^" chunk => (true, chunk) | _ => (false, chunk) end
      = (neg, chunk') -> (String.length chunk' <= String.length chunk)%nat).
    { intros neg chunk'. repeat case_match; intros [= <- <-]; cbn; lia. }
    destruct (match chunk with String "^" chunk => (true, chunk) | _ => (false, chunk) end) as [neg chunk'].
    specialize (Hneg _ _ eq_refl).
    destruct (ranges_returns (S (String.length chunk')) r false 0 chunk') as [Hr Hlt]; [lia|].
    destruct (ranges _ _ _ _ _) as [[b rest]|e| |]; try done. specialize (Hlt _ _ eq_refl).
    apply IH. lia.
  - destruct (Ascii.eqb c "?"); [apply IH; lia|]. destruct (Ascii.eqb c "\"); [|apply IH; lia].
    destruct chunk; [done|]. cbn in Hl. apply IH. lia.
Qed.

Lemma matchChunk_returns chunk s : returns (matchChunk chunk s).
Proof. by apply matchChunk_from_returns. Qed.

Lemma scan_length inrange p chunk rest :
  scan inrange p = (chunk, rest) -> (String.length chunk + String.length rest)%nat = String.length p.
Proof.
  revert inrange chunk rest. induction p as [p IH] using (induction_ltof1 _ String.length). unfold ltof in IH.
  destruct p as [|c p']; intros inrange chunk rest; cbn [scan]; [by intros [= <- <-]|].
  assert (Hrec : forall b d a r, scan b p' = (a, r) ->
    (String d a, r) = (chunk, rest) -> (String.length chunk + String.length rest)%nat = S (String.length p')).
  { intros b d a r Hs [= <- <-]. apply IH in Hs; cbn; lia. }
  destruct (Ascii.eqb c "\").
  { destruct p' as [|d p']; [by intros [= <- <-]|].
    destruct (scan inrange p') eqn:Hs. intros [= <- <-]. apply IH in Hs; cbn; lia. }
  destruct (Ascii.eqb c "["); [destruct (scan true p') eqn:Hs; eauto|].
  destruct (Ascii.eqb c "]"); [destruct (scan false p') eqn:Hs; eauto|].
  destruct (_ && _); [by intros [= <- <-]|]. destruct (scan inrange p') eqn:Hs; eauto.
Qed.

Lemma strip_stars_spec b p star p' :
  strip_stars b p = (star, p') ->
  (p' = p /\ forall q, p <> String "*" q) \/ (String.length p' < String.length p)%nat.
Proof.
  revert b. induction p as [|c p IH]; intros b; cbn; [intros [= <- <-]; by left|].
  destruct (Ascii.eqb_spec c "*") as [->|Hc].
  - intros [[-> _]|?]%IH; right; lia.
  - intros [= <- <-]. left. split; [done|]. by intros q [= -> _].
Qed.

(** A chunk is shorter than the pattern it is taken from. *)
Lemma scanChunk_length pattern star chunk rest :
  pattern <> "" -> scanChunk pattern = (star, chunk, rest) ->
  (String.length rest < String.length pattern)%nat.
Proof.
  intros Hne. unfold scanChunk. destruct (strip_stars false pattern) as [st p'] eqn:Hst.
  destruct (scan false p') as [a b] eqn:Hs. intros [= <- <- <-].
  pose proof (scan_length _ _ _ _ Hs) as Hlen.
  apply strip_stars_spec in Hst as [[-> Hno]|Hlt]; [|lia].
  destruct pattern as [|c p]; [done|].
  destruct a as [|d a]; [|cbn in *; lia]. exfalso. revert Hs. cbn [scan].
  destruct (Ascii.eqb c "\"); [destruct p; [done|]; by destruct (scan _ _)|].
  destruct (Ascii.eqb c "["); [by destruct (scan _ _)|].
  destruct (Ascii.eqb c "]"); [by destruct (scan _ _)|].
  destruct (Ascii.eqb_spec c "*") as [->|]; [by edestruct Hno|]. cbn. by destruct (scan _ _).
Qed.

Lemma check_rest_returns fuel pattern :
  (String.length pattern <= fuel)%nat -> returns (check_rest fuel pattern).
Proof.
  revert pattern. induction fuel as [|fuel IH]; intros [|c p] Hl; cbn in Hl; try done; [lia|].
  cbn [check_rest]. destruct (scanChunk (String c p)) as [[star chunk] rest] eqn:Hs.
  apply scanChunk_length in Hs; [|done]. cbn in Hs.
  pose proof (matchChunk_returns chunk "") as Hm.
  destruct (matchChunk chunk ""); try done. apply IH. lia.
Qed.

Lemma skip_match_returns chunk pattern name : returns (skip_match chunk pattern name).
Proof.
  induction name as [|c name IH]; [done|]. cbn [skip_match]. destruct (Ascii.eqb c "/"); [done|].
  pose proof (matchChunk_returns chunk name) as Hm.
  destruct (matchChunk chunk name) as [[t|]|e| |]; try done. cbn. by destruct pattern, t.
Qed.

Lemma Match_from_returns fuel pattern name :
  (String.length pattern <= fuel)%nat -> returns (Match_from fuel pattern name).
Proof.
  revert pattern name. induction fuel as [|fuel IH]; intros [|c p] name Hl; cbn in Hl; try done; [lia|].
  cbn [Match_from]. destruct (scanChunk (String c p)) as [[star chunk] rest] eqn:Hs.
  apply scanChunk_length in Hs; [|done]. cbn in Hs.
  destruct (_ && _); [done|]. pose proof (matchChunk_returns chunk name) as Hm.
  destruct (matchChunk chunk name) as [t|e| |]; try done.
  assert (Hmis : returns (
    t ← (if star then skip_match chunk rest name else Ret None);
    match t with
    | Some t => Match_from fuel rest t
    | None => _ ← check_rest (String.length rest) rest; Ret false
    end)).
  { apply returns_bind; [destruct star; [apply skip_match_returns|done]|].
    intros [t'|] _; [apply IH; lia|].
    apply returns_bind; [by apply check_rest_returns|done]. }
  cbn [mbind outcome_bind]. destruct t as [t|]; [|done].
  destruct rest, t; try done; apply IH; cbn in *; lia.
Qed.

(** [path.Match] returns, with an answer or [ErrBadPattern]. *)
Lemma Match_returns pattern name : returns (Match pattern name).
Proof. by apply Match_from_returns. Qed.
