(* ===== verification/Steps.v ===== *)
(** * The configuration of a pipeline

    The steps of a job as they are configured ([atc/steps.go]), the jobs and
    the pipeline around them ([atc/job_config.go], [atc/config.go]) and the walk
    over the steps of a job ([atc/step_recursor.go]).

    Documents that this code only carries (params, sources, task
    environments, limits, the authorities the workflow renderer mints) are
    [value]s; a Go map that the code ranges over is the list of its entries in
    the order of the iteration. *)
From stdpp Require Import base gmap sets list strings.
From Stdlib Require Import ZArith Ascii.
From S2P Require Import Prelude Vars Parallel.

Set Warnings "-register-all".
Open Scope Z_scope.

(** ** Core steps *)

Definition Version : Type := gmap string string.
Abbreviation Tags := (list string).

(** A [map[string]any]; [None] is the nil map. *)
Definition document : Type := option (gmap string value).

Record VersionConfig := { v_Every : bool; v_Latest : bool; v_Pinned : option Version }.

Record GetStep := {
  g_Name : string;
  g_Resource : string;
  g_Version : option VersionConfig;
  g_Params : document;
  g_Passed : list string;
  g_Trigger : bool;
  g_Tags : Tags;
  g_Timeout : string;
  g_SkipDownload : bool }.

Definition GetStep_ResourceName (step : GetStep) : string :=
  if negb (String.eqb (g_Resource step) "") then g_Resource step else g_Name step.

Record InputsConfig := { in_All : bool; in_Detect : bool; in_Specified : option (list string) }.

Record PutStep := {
  p_Name : string;
  p_Resource : string;
  p_Params : document;
  p_Inputs : option InputsConfig;
  p_Tags : Tags;
  p_GetParams : document;
  p_Timeout : string;
  p_NoGet : bool }.

Definition PutStep_ResourceName (step : PutStep) : string :=
  if negb (String.eqb (p_Resource step) "") then p_Resource step else p_Name step.

(** [TaskConfig] ([atc/task.go]). *)
Record ImageResource := {
  ir_Name : string;
  ir_Type : string;
  ir_Source : document;
  ir_Version : option Version;
  ir_Params : document;
  ir_Tags : Tags }.

Record TaskInputConfig := { ti_Name : string; ti_Path : string; ti_Optional : bool }.
Record TaskOutputConfig := { to_Name : string; to_Path : string }.

Record TaskConfig := {
  tc_Platform : string;
  tc_RootfsURI : string;
  tc_ImageResource : option ImageResource;
  tc_Limits : option value;
  tc_Requests : option value;
  tc_Params : list (string * string);
  tc_Run : value;
  tc_Inputs : list TaskInputConfig;
  tc_Outputs : list TaskOutputConfig;
  tc_Caches : list string;
  tc_ScratchPaths : list string }.

(** [SnapshotInputConfig] and [SnapshotOutputConfig] ([atc/task.go]). *)
Record SnapshotInputConfig := { si_Type : string; si_Optional : bool }.
Record SnapshotOutputConfig := {
  so_Type : string;
  so_Optional : bool;
  so_Retention : string;
  so_WorkflowPort : string;
  so_WorkflowDefinitionID : Z;
  so_WorkflowRunID : string;
  so_SourceMetadata : string }.

(** [SidecarConfig] and [SidecarSource] ([atc/sidecar.go]). *)
Record SidecarPort := { port_ContainerPort : Z; port_Protocol : string }.
Record SidecarConfig := {
  sc_Name : string;
  sc_Image : string;
  sc_Command : list string;
  sc_Args : list string;
  sc_Env : list (string * string);
  sc_Ports : list SidecarPort;
  sc_Resources : option value;
  sc_WorkingDir : string;
  sc_ImageArtifact : string }.
Record SidecarSource := { ss_File : string; ss_Config : option SidecarConfig }.

(** [DevValidationAuthority] and its base inputs ([atc/task.go]); bytes are a
    string. *)
Record DevValidationBaseInput := { dvb_Name : string; dvb_Type : string }.
Record DevValidationAuthority := {
  dva_ProfileName : string;
  dva_Profile : string;
  dva_ProfileDigest : string;
  dva_ProtectedConfig : string;
  dva_ProtectedConfigDigest : string;
  dva_CapabilityImage : string;
  dva_CapabilityImageDigest : string;
  dva_WorkflowDefinitionID : Z;
  dva_WorkflowVersion : Z;
  dva_CandidateInput : string;
  dva_BaseInputs : list DevValidationBaseInput }.

Record TaskStep := {
  t_Name : string;
  t_FunctionID : string;
  t_DevValidationProfile : string;
  t_DevValidationAuthority : option DevValidationAuthority;
  t_MergePreflightAuthority : option value;
  t_ResourceCaptureAuthority : option value;
  t_Privileged : bool;
  t_Hermetic : bool;
  t_ConfigPath : string;
  t_Limits : option value;
  t_Requests : option value;
  t_Config : option TaskConfig;
  t_Params : list (string * string);
  t_Vars : document;
  t_Tags : Tags;
  t_InputMapping : gmap string string;
  t_OutputMapping : gmap string string;
  t_SnapshotInputs : gmap string SnapshotInputConfig;
  t_SnapshotOutputs : gmap string SnapshotOutputConfig;
  t_ImageArtifactName : string;
  t_Timeout : string;
  t_Sidecars : list SidecarSource }.

Record RunStep := {
  r_Message : string;
  r_Type : string;
  r_Params : document;
  r_Privileged : bool;
  r_Tags : Tags;
  r_Limits : option value;
  r_Requests : option value;
  r_Timeout : string }.

(** [AgentBrokerProfile] ([atc/plan.go]). *)
Record AgentBrokerProfile := {
  bp_FunctionID : string;
  bp_Tool : string;
  bp_Tier : string;
  bp_Effort : string;
  bp_ProfileID : string;
  bp_ProfileRevision : Z;
  bp_ProfileDigest : string;
  bp_WorkerImage : string;
  bp_Profile : string }.

(** [a_BudgetSliceUSD] is a float: its sign and its text. *)
Record AgentStep := {
  a_Name : string;
  a_FunctionID : string;
  a_Hermetic : bool;
  a_RuntimeImage : string;
  a_Prompt : string;
  a_PromptFile : string;
  a_SystemPromptFile : string;
  a_ContextFiles : list string;
  a_Model : string;
  a_MaxTurns : Z;
  a_BudgetSliceUSD : comparison * string;
  a_SystemPrompt : string;
  a_Context : string;
  a_Skills : list string;
  a_SkillFiles : gmap string string;
  a_Sidecars : list SidecarSource;
  a_Inputs : list string;
  a_Outputs : list string;
  a_InputMapping : gmap string string;
  a_OutputMapping : gmap string string;
  a_Capabilities : list string;
  a_SnapshotInputs : gmap string SnapshotInputConfig;
  a_SnapshotOutputs : gmap string SnapshotOutputConfig;
  a_Validation : string;
  a_ReviewValidation : option value;
  a_Env : gmap string string;
  a_Timeout : string;
  a_Limits : option value;
  a_Requests : option value;
  a_BrokerAuthority : list AgentBrokerProfile;
  a_BrokerAuthorityTrusted : bool }.

Record SetPipelineStep := {
  sp_Name : string;
  sp_File : string;
  sp_Team : string;
  sp_Vars : document;
  sp_VarFiles : list string;
  sp_InstanceVars : document }.

Record LoadVarStep := { lv_Name : string; lv_File : string; lv_Format : string; lv_Reveal : bool }.

Record LoadSnapshotStep := {
  ls_Name : string;
  ls_ID : string;
  ls_Type : string;
  ls_Optional : bool;
  ls_WorkflowRunID : string }.

Record MergeApprovalIntent := {
  ma_Input : string;
  ma_Publisher : string;
  ma_Destination : string;
  ma_Parameters : gmap string string;
  ma_ApprovalPolicyVersion : string;
  ma_Prompt : string }.

Record AwaitSnapshotStep := {
  aw_Name : string;
  aw_Question : string;
  aw_MergeApproval : option MergeApprovalIntent;
  aw_Validation : string;
  aw_MergeApprovalValidation : option value;
  aw_Type : string;
  aw_OnTimeout : string;
  aw_DefaultSnapshotID : string;
  aw_WorkflowPort : string;
  aw_WorkflowDefinitionID : Z;
  aw_WorkflowRunID : string }.

Record PublishSnapshotStep := {
  ps_Name : string;
  ps_Publisher : string;
  ps_Input : string;
  ps_InputType : string;
  ps_Destination : string;
  ps_Mode : string;
  ps_Parameters : gmap string string;
  ps_ApprovalPolicyVersion : string;
  ps_Approval : string;
  ps_WorkflowRunID : string;
  ps_Validation : string;
  ps_PublishValidation : option value }.

(** ** Steps *)

Record AcrossVarConfig := {
  acv_Var : string;
  acv_Values : value;
  acv_MaxInFlight : option MaxInFlightConfig }.

(** The envelope [Step]: a step's configuration and the fields of the document
    that no part of the step knows. *)
Record envelope (C : Type) := MkStep { Config : C; UnknownFields : list (string * value) }.
Arguments MkStep {C} _ _.
Arguments Config {C} _.
Arguments UnknownFields {C} _.

Inductive StepConfig :=
| SGet (step : GetStep)
| SPut (step : PutStep)
| STask (step : TaskStep)
| SRun (step : RunStep)
| SAgent (step : AgentStep)
| SSetPipeline (step : SetPipelineStep)
| SLoadVar (step : LoadVarStep)
| SLoadSnapshot (step : LoadSnapshotStep)
| SAwaitSnapshot (step : AwaitSnapshotStep)
| SPublishSnapshot (step : PublishSnapshotStep)
| STry (step : envelope StepConfig)
| SDo (steps : list (envelope StepConfig))
| SInParallel (steps : list (envelope StepConfig)) (limit : Z) (failFast : bool)
| SAcross (step : StepConfig) (vars : list AcrossVarConfig) (failFast : bool)
| STimeout (step : StepConfig) (duration : string)
| SRetry (step : StepConfig) (attempts : Z)
| SOnSuccess (step : StepConfig) (hook : envelope StepConfig)
| SOnFailure (step : StepConfig) (hook : envelope StepConfig)
| SOnAbort (step : StepConfig) (hook : envelope StepConfig)
| SOnError (step : StepConfig) (hook : envelope StepConfig)
| SEnsure (step : StepConfig) (hook : envelope StepConfig).

Definition Step : Type := envelope StepConfig.

(** Induction on steps, through the envelopes and the lists of them. *)
Section StepInd.
Context (P : StepConfig -> Prop).
Context (HGet : forall s, P (SGet s)) (HPut : forall s, P (SPut s)) (HTask : forall s, P (STask s))
  (HRun : forall s, P (SRun s)) (HAgent : forall s, P (SAgent s))
  (HSetPipeline : forall s, P (SSetPipeline s)) (HLoadVar : forall s, P (SLoadVar s))
  (HLoadSnapshot : forall s, P (SLoadSnapshot s)) (HAwait : forall s, P (SAwaitSnapshot s))
  (HPublish : forall s, P (SPublishSnapshot s))
  (HTry : forall s, P (Config s) -> P (STry s))
  (HDo : forall l, Forall (fun s => P (Config s)) l -> P (SDo l))
  (HInParallel : forall l n f, Forall (fun s => P (Config s)) l -> P (SInParallel l n f))
  (HAcross : forall s vars f, P s -> P (SAcross s vars f))
  (HTimeout : forall s d, P s -> P (STimeout s d))
  (HRetry : forall s n, P s -> P (SRetry s n))
  (HOnSuccess : forall s h, P s -> P (Config h) -> P (SOnSuccess s h))
  (HOnFailure : forall s h, P s -> P (Config h) -> P (SOnFailure s h))
  (HOnAbort : forall s h, P s -> P (Config h) -> P (SOnAbort s h))
  (HOnError : forall s h, P s -> P (Config h) -> P (SOnError s h))
  (HEnsure : forall s h, P s -> P (Config h) -> P (SEnsure s h)).

Fixpoint step_ind (s : StepConfig) : P s :=
  let go := fix go (l : list Step) : Forall (fun s => P (Config s)) l :=
    match l with
    | [] => Forall_nil_2 _
    | s :: l => Forall_cons_2 _ _ _ (step_ind (Config s)) (go l)
    end in
  match s with
  | SGet s => HGet s
  | SPut s => HPut s
  | STask s => HTask s
  | SRun s => HRun s
  | SAgent s => HAgent s
  | SSetPipeline s => HSetPipeline s
  | SLoadVar s => HLoadVar s
  | SLoadSnapshot s => HLoadSnapshot s
  | SAwaitSnapshot s => HAwait s
  | SPublishSnapshot s => HPublish s
  | STry s => HTry s (step_ind (Config s))
  | SDo l => HDo l (go l)
  | SInParallel l n f => HInParallel l n f (go l)
  | SAcross s vars f => HAcross s vars f (step_ind s)
  | STimeout s d => HTimeout s d (step_ind s)
  | SRetry s n => HRetry s n (step_ind s)
  | SOnSuccess s h => HOnSuccess s h (step_ind s) (step_ind (Config h))
  | SOnFailure s h => HOnFailure s h (step_ind s) (step_ind (Config h))
  | SOnAbort s h => HOnAbort s h (step_ind s) (step_ind (Config h))
  | SOnError s h => HOnError s h (step_ind s) (step_ind (Config h))
  | SEnsure s h => HEnsure s h (step_ind s) (step_ind (Config h))
  end.
End StepInd.

(** ** The walk over the steps of a step (step_recursor.go) *)

Section Recursor.
Context {St E : Type}.

Abbreviation hook A := (option (A -> stateful St E unit)).

Record StepRecursor := {
  OnTask : hook TaskStep;
  OnGet : hook GetStep;
  OnPut : hook PutStep;
  OnRun : hook RunStep;
  OnAgent : hook AgentStep;
  OnSetPipeline : hook SetPipelineStep;
  OnLoadVar : hook LoadVarStep;
  OnLoadSnapshot : hook LoadSnapshotStep;
  OnAwaitSnapshot : hook AwaitSnapshotStep;
  OnPublishSnapshot : hook PublishSnapshotStep;
  OnAcross : option (list AcrossVarConfig -> bool -> stateful St E unit);
  OnRetry : option (Z -> stateful St E unit) }.

(** A recursor with at most the hooks for gets and puts. *)
Definition on_get_put (onGet : hook GetStep) (onPut : hook PutStep) : StepRecursor :=
  {| OnTask := None; OnGet := onGet; OnPut := onPut; OnRun := None; OnAgent := None;
     OnSetPipeline := None; OnLoadVar := None; OnLoadSnapshot := None; OnAwaitSnapshot := None;
     OnPublishSnapshot := None; OnAcross := None; OnRetry := None |}.

Definition call {A} (h : hook A) (step : A) : stateful St E unit :=
  match h with Some f => f step | None => mret () end.

(** [step.Visit(recursor)] *)
Fixpoint recur (recursor : StepRecursor) (step : StepConfig) : stateful St E unit :=
  let all := fix all (steps : list Step) : stateful St E unit :=
    match steps with
    | [] => mret ()
    | sub :: steps => _ ← recur recursor (Config sub); all steps
    end in
  match step with
  | STask step => call (OnTask recursor) step
  | SGet step => call (OnGet recursor) step
  | SPut step => call (OnPut recursor) step
  | SRun step => call (OnRun recursor) step
  | SAgent step => call (OnAgent recursor) step
  | SSetPipeline step => call (OnSetPipeline recursor) step
  | SLoadVar step => call (OnLoadVar recursor) step
  | SLoadSnapshot step => call (OnLoadSnapshot recursor) step
  | SAwaitSnapshot step => call (OnAwaitSnapshot recursor) step
  | SPublishSnapshot step => call (OnPublishSnapshot recursor) step
  | STry step => recur recursor (Config step)
  | SDo steps => all steps
  | SInParallel steps _ _ => all steps
  | SAcross step vars failFast =>
      _ ← match OnAcross recursor with Some f => f vars failFast | None => mret () end;
      recur recursor step
  | STimeout step _ => recur recursor step
  | SRetry step attempts =>
      _ ← match OnRetry recursor with Some f => f attempts | None => mret () end;
      recur recursor step
  | SOnSuccess step hook | SOnFailure step hook | SOnAbort step hook
  | SOnError step hook | SEnsure step hook =>
      _ ← recur recursor step; recur recursor (Config hook)
  end.

(** [for _, x := range l { if err := f(x); err != nil { return err } }] *)
Definition each {A} (f : A -> stateful St E unit) : list A -> stateful St E unit :=
  fix go l :=
    match l with
    | [] => mret ()
    | x :: l => _ ← f x; go l
    end.
End Recursor.
Arguments StepRecursor : clear implicits.

(** ** Jobs (job_config.go) *)

Record BuildLogRetention := {
  blr_Builds : Z;
  blr_MinimumSucceededBuilds : Z;
  blr_Days : Z }.

Record JobConfig := {
  jc_Name : string;
  jc_OldName : string;
  jc_Public : bool;
  jc_DisableManualTrigger : bool;
  jc_Serial : bool;
  jc_Interruptible : bool;
  jc_SerialGroups : list string;
  jc_RawMaxInFlight : Z;
  jc_BuildLogsToRetain : Z;
  jc_BuildLogRetention : option BuildLogRetention;
  jc_OnSuccess : option Step;
  jc_OnFailure : option Step;
  jc_OnAbort : option Step;
  jc_OnError : option Step;
  jc_Ensure : option Step;
  jc_PlanSequence : list Step }.

Definition JobConfig_StepConfig (config : JobConfig) : StepConfig :=
  let wrap hook (make : StepConfig -> Step -> StepConfig) step :=
    match hook with Some hook => make step hook | None => step end in
  wrap (jc_Ensure config) SEnsure (
  wrap (jc_OnError config) SOnError (
  wrap (jc_OnAbort config) SOnAbort (
  wrap (jc_OnFailure config) SOnFailure (
  wrap (jc_OnSuccess config) SOnSuccess (
  SDo (jc_PlanSequence config)))))).

Definition JobConfig_Step (config : JobConfig) : Step :=
  {| Config := JobConfig_StepConfig config; UnknownFields := [] |}.

Definition JobConfig_MaxInFlight (config : JobConfig) : Z :=
  if jc_Serial config || (0 <? Z.of_nat (length (jc_SerialGroups config))) then 1
  else if negb (jc_RawMaxInFlight config =? 0) then jc_RawMaxInFlight config
  else 0.

Record JobInputParams := {
  jip_Name : string;
  jip_Resource : string;
  jip_Passed : list string;
  jip_Version : option VersionConfig;
  jip_Trigger : bool;
  jip_Params : document;
  jip_Tags : Tags }.

Definition no_error {St A} (m : stateful St Empty_set A) (st : St) : St := (m st).2.

Definition JobConfig_Inputs (config : JobConfig) : list JobInputParams :=
  no_error (recur (on_get_put (Some (fun step inputs =>
      (Ret (), inputs ++
        [{| jip_Name := g_Name step; jip_Resource := GetStep_ResourceName step;
            jip_Passed := g_Passed step; jip_Version := g_Version step;
            jip_Trigger := g_Trigger step; jip_Params := g_Params step; jip_Tags := g_Tags step |}])))
    None) (JobConfig_StepConfig config)) [].

Record JobOutput := { jo_Name : string; jo_Resource : string }.

Definition JobConfig_Outputs (config : JobConfig) : list JobOutput :=
  no_error (recur (on_get_put None (Some (fun step outputs =>
      (Ret (), outputs ++ [{| jo_Name := p_Name step; jo_Resource := PutStep_ResourceName step |}]))))
    (JobConfig_StepConfig config)) [].

(** ** Pipelines (config.go) *)

(** [CheckEvery]; the interval in nanoseconds. *)
Record CheckEvery := { ce_Never : bool; ce_Interval : Z }.

Record GroupConfig := { gc_Name : string; gc_Jobs : list string; gc_Resources : list string }.

Record VarSourceConfig := { vs_Name : string; vs_Type : string; vs_Config : value }.

Record ResourceConfig := {
  rc_Name : string;
  rc_OldName : string;
  rc_Public : bool;
  rc_WebhookToken : string;
  rc_Type : string;
  rc_Source : document;
  rc_CheckEvery : option CheckEvery;
  rc_CheckTimeout : string;
  rc_Tags : Tags;
  rc_Version : option Version;
  rc_Icon : string;
  rc_ExposeBuildCreatedBy : bool }.

Record ParamSchema := {
  pm_Name : string;
  pm_Type : string;
  pm_Format : string;
  pm_Required : bool;
  pm_Default : value;  (* [VNil] for nil *)
  pm_Values : list string;
  pm_Description : string }.

Definition ParamFormatPositiveDecimalInt64 : string := "positive-decimal-int64".
Definition ParamFormatZeroOrPositiveDecimalInt64 : string := "zero-or-positive-decimal-int64".

Record RunRetentionConfig := { rrc_KeepLast : Z; rrc_TTLDays : Z }.

Record ResourceType := {
  rt_Name : string;
  rt_Type : string;
  rt_Image : string;
  rt_Source : document;
  rt_Defaults : document;
  rt_Privileged : bool;
  rt_CheckEvery : option CheckEvery;
  rt_Tags : Tags;
  rt_Params : document }.

Record Prototype := {
  pt_Name : string;
  pt_Type : string;
  pt_Source : document;
  pt_Defaults : document;
  pt_Privileged : bool;
  pt_CheckEvery : option CheckEvery;
  pt_Tags : Tags;
  pt_Params : document }.

Record DisplayConfig := { dc_BackgroundImage : string; dc_BackgroundFilter : string }.

Record PipelineConfig := {
  c_Groups : list GroupConfig;
  c_VarSources : list VarSourceConfig;
  c_Resources : list ResourceConfig;
  c_ResourceTypes : list ResourceType;
  c_Prototypes : list Prototype;
  c_Jobs : list JobConfig;
  c_Display : option DisplayConfig;
  c_Template : bool;
  c_Params : list ParamSchema;
  c_RunRetention : option RunRetentionConfig }.

(** The [Lookup] methods: the first with this name. *)
Definition lookup_by {A} (key : A -> string) (name : string) : list A -> option A :=
  fix go l :=
    match l with
    | [] => None
    | x :: l => if String.eqb (key x) name then Some x else go l
    end.

Definition ResourceConfigs_Lookup (name : string) (l : list ResourceConfig) := lookup_by rc_Name name l.
Definition ResourceTypes_Lookup (name : string) (l : list ResourceType) := lookup_by rt_Name name l.
Definition Prototypes_Lookup (name : string) (l : list Prototype) := lookup_by pt_Name name l.

(** [ResourceTypes.Without] *)
Definition Without (types : list ResourceType) (name : string) : list ResourceType :=
  filter (fun t => negb (String.eqb (rt_Name t) name)) types.

(** ** The gets and puts of a step *)

Definition io : Type := GetStep + PutStep.

Fixpoint ios (s : StepConfig) : list io :=
  match s with
  | SGet step => [inl step]
  | SPut step => [inr step]
  | STry s => ios (Config s)
  | SDo l | SInParallel l _ _ => concat (map (fun s => ios (Config s)) l)
  | SAcross s _ _ | STimeout s _ | SRetry s _ => ios s
  | SOnSuccess s h | SOnFailure s h | SOnAbort s h | SOnError s h | SEnsure s h =>
      ios s ++ ios (Config h)
  | _ => []
  end.

Fixpoint lefts {A B} (l : list (A + B)) : list A :=
  match l with
  | [] => []
  | inl a :: l => a :: lefts l
  | inr _ :: l => lefts l
  end.

Definition gets (s : StepConfig) : list GetStep := lefts (ios s).

Lemma elem_of_lefts {A B} (l : list (A + B)) a : a ∈ lefts l <-> inl a ∈ l.
Proof. induction l as [|[]]; cbn; set_solver. Qed.

Section Walk.
Context {St E : Type}.
Implicit Types st : St.

Lemma stateful_bind_assoc {A B C} (m : stateful St E A) (f : A -> stateful St E B)
    (g : B -> stateful St E C) st :
  ((m ≫= f) ≫= g) st = (m ≫= (fun a => f a ≫= g)) st.
Proof. unfold mbind, stateful_bind. by destruct (m st) as [[]]. Qed.

Lemma stateful_bind_ext {A B} (m m' : stateful St E A) (f f' : A -> stateful St E B) st :
  m st = m' st -> (forall a st, f a st = f' a st) -> (m ≫= f) st = (m' ≫= f') st.
Proof. intros Hm Hf. unfold mbind, stateful_bind. rewrite Hm. by destruct (m' st) as [[]]. Qed.

Lemma each_app {A} (f : A -> stateful St E unit) l l' st :
  each f (l ++ l') st = (_ ← each f l; each f l') st.
Proof.
  revert st. induction l as [|x l IH]; intros st; [done|]. cbn [each app].
  rewrite stateful_bind_assoc. by apply stateful_bind_ext.
Qed.

(** The walk calls the hooks for the gets and puts of the step, in order. *)
Lemma recur_on_get_put (onGet : option (GetStep -> stateful St E unit)) onPut s st :
  recur (on_get_put onGet onPut) s st =
  each (fun x => match x with inl g => call onGet g | inr p => call onPut p end) (ios s) st.
Proof.
  set (f := fun x : io => match x with inl g => call onGet g | inr p => call onPut p end).
  assert (Hone : forall x st, each f [x] st = f x st).
  { intros x st0. cbn. unfold mbind, stateful_bind. by destruct (f x st0) as [[[]| | |]]. }
  assert (Hall : forall l, Forall (fun s => forall st,
      recur (on_get_put onGet onPut) (Config s) st = each f (ios (Config s)) st) l -> forall st,
    (fix all (steps : list Step) : stateful St E unit :=
      match steps with
      | [] => mret ()
      | sub :: steps => _ ← recur (on_get_put onGet onPut) (Config sub); all steps
      end) l st = each f (concat (map (fun s => ios (Config s)) l)) st).
  { induction 1 as [|x l Hx _ IH]; intros st0; [done|]. cbn [map concat]. rewrite each_app.
    by apply stateful_bind_ext. }
  revert st. induction s using step_ind; intros st; cbn [recur ios]; auto;
    try (by rewrite Hone); try (by apply Hall);
    try (rewrite each_app; by apply stateful_bind_ext); try (apply IHs).
Qed.
End Walk.
