(* ===== verification/StepValidator.v ===== *)
(** * The validator of steps (atc/step_validator.go)

    The visitor that collects the errors and the warnings of a job's steps,
    with the checks it calls: identifiers ([atc/configwarning.go]), task
    configurations and snapshot declarations ([atc/task.go]), sidecars
    ([atc/sidecar.go]), the wire checks of the snapshot steps
    ([atc/steps.go]).

    A message is its format string and its arguments.  The Unicode tables,
    [time.ParseDuration], [json.Valid] and the rules of [agent/publisher] are
    the operations of the class [StepChecks]. *)
From stdpp Require Import base gmap sets list strings sorting pretty.
From Stdlib Require Import ZArith Ascii Lia.
From S2P Require Import Prelude Vars Repository Parallel GoText Steps.

Set Warnings "-register-all".
Open Scope Z_scope.

Record message := Msg { m_format : string; m_args : list string }.

(** [letter] tells, of a rune beyond ASCII, whether it is in one of the classes
    Ll, Lt, Lm and Lo. *)
Class StepChecks := {
  letter : Z -> bool;
  duration_ok : string -> bool;
  json_Valid : string -> bool;
  ValidateAuthoredMergeIntent : MergeApprovalIntent -> option message;
  publication_Validate : PublishSnapshotStep -> option message }.

Definition Join (context : list string) : string := String.concat "" context.

(** ** Identifiers (configwarning.go) *)

Record ConfigWarning := { cw_Type : string; cw_Message : option string * message }.

Section Validator.
Context `{StepChecks}.

Definition is_digit_rune (r : Z) : bool := between 48 57 r.
Definition is_letter_rune (r : Z) : bool := if r <? 128 then between 97 122 r else letter r.
Definition starts_identifier (r : Z) : bool := is_letter_rune r || is_digit_rune r.
Definition in_identifier (r : Z) : bool :=
  starts_identifier r || (r =? 45) || (r =? 95) || (r =? 46).

(** [validIdentifiers], [justNumbers] and [startsWithLetterOrNumber]. *)
Definition validIdentifiers (s : string) : bool :=
  match runes s with
  | [] => false
  | r :: rs => starts_identifier r && forallb in_identifier rs
  end.
Definition justNumbers (s : string) : bool :=
  match runes s with [] => false | rs => forallb is_digit_rune rs end.
Definition startsWithLetterOrNumber (s : string) : bool :=
  match runes s with [] => false | r :: _ => negb (starts_identifier r) end.

(** [invalidCharacter.Find]: the bytes of the first rune that may not occur. *)
Fixpoint invalidCharacter (fuel : nat) (s : string) : option string :=
  match fuel, s with
  | S fuel, String _ _ =>
      let '(r, n, rest) := DecodeRuneInString s in
      if in_identifier r then invalidCharacter fuel rest else Some (String.substring 0 (Z.to_nat n) s)
  | _, _ => None
  end.

Definition contains (sub s : string) : bool :=
  match String.index 0 sub s with Some _ => true | None => false end.

(** A step under [across] may be named by its vars. *)
Definition templated_name (context : list string) : bool :=
  match rev context with
  | last :: prev :: _ => (contains "set_pipeline" last || contains "task" last) && String.eqb prev ".across"
  | _ => false
  end.

(** [ValidateIdentifier]: the warning and the error. *)
Definition ValidateIdentifier (identifier : string) (context : list string)
    : option ConfigWarning * option message :=
  let invalid reason :=
    (Some {| cw_Type := "invalid_identifier";
             cw_Message := (None, Msg "%s: '%s' is not a valid identifier: %s"
                                    [Join context; identifier; reason]) |}, None) in
  if String.eqb identifier "" then
    (None, Some (Msg "%s: identifier cannot be an empty string" [Join context]))
  else if templated_name context then (None, None)
  else if justNumbers identifier then invalid "cannot be just numbers"
  else if negb (validIdentifiers identifier) then
    invalid
      (if startsWithLetterOrNumber identifier then "must start with a lowercase letter or a number"
       else
         let tail := String.substring 1 (String.length identifier - 1) identifier in
         match invalidCharacter (String.length tail) tail with
         | Some char => ("illegal character '" ++ char ++ "'")%string
         | None => ""
         end)
  else (None, None).

(** ** The state of the validator *)

Record Validator := {
  Warnings : list ConfigWarning;
  Errors : list (option string * message);
  context : list string;
  seenGetName : gset string;
  localVarScopes : list (gset string) }.

(** [NewStepValidator] *)
Definition NewStepValidator (ctx : list string) : Validator :=
  {| Warnings := []; Errors := []; context := ctx; seenGetName := ∅; localVarScopes := [∅] |}.

Abbreviation V := (stateful Validator Empty_set).

Definition modify (f : Validator -> Validator) : V unit := fun v => (Ret (), f v).
Definition gets_of {A} (f : Validator -> A) : V A := fun v => (Ret (f v), v).

Definition set_errors (f : list (option string * message) -> list (option string * message))
    (v : Validator) : Validator :=
  {| Warnings := Warnings v; Errors := f (Errors v); context := context v;
     seenGetName := seenGetName v; localVarScopes := localVarScopes v |}.
Definition set_warnings (f : list ConfigWarning -> list ConfigWarning) (v : Validator) : Validator :=
  {| Warnings := f (Warnings v); Errors := Errors v; context := context v;
     seenGetName := seenGetName v; localVarScopes := localVarScopes v |}.
Definition set_context (ctx : list string) (v : Validator) : Validator :=
  {| Warnings := Warnings v; Errors := Errors v; context := ctx;
     seenGetName := seenGetName v; localVarScopes := localVarScopes v |}.
Definition set_seen (s : gset string) (v : Validator) : Validator :=
  {| Warnings := Warnings v; Errors := Errors v; context := context v;
     seenGetName := s; localVarScopes := localVarScopes v |}.
Definition set_scopes_of (s : list (gset string)) (v : Validator) : Validator :=
  {| Warnings := Warnings v; Errors := Errors v; context := context v;
     seenGetName := seenGetName v; localVarScopes := s |}.

Definition recordWarning (w : ConfigWarning) : V unit := modify (set_warnings (fun l => l ++ [w])).

(** [validator.Errors = append(validator.Errors, message)] *)
Definition recordBare (m : option string * message) : V unit := modify (set_errors (fun l => l ++ [m])).

(** [annotate] *)
Definition annotate (m : message) (v : Validator) : option string * message := (Some (Join (context v)), m).

Definition recordError (m : message) : V unit :=
  fun v => (Ret (), set_errors (fun l => l ++ [annotate m v]) v).
Abbreviation recordErrorf fmt args := (recordError (Msg fmt args)).

Definition recordErr (err : option message) : V unit :=
  match err with Some m => recordError m | None => mret () end.

Definition recordWarn (w : option ConfigWarning) : V unit :=
  match w with Some w => recordWarning w | None => mret () end.

Definition when (b : bool) (m : V unit) : V unit := if b then m else mret ().

Definition pushContext (ctx : string) : V unit := fun v => (Ret (), set_context (context v ++ [ctx]) v).

(** [context[0:len(context)-1]] *)
Definition popContext : V unit := fun v =>
  match context v with
  | [] => (Panic, v)
  | _ => (Ret (), set_context (removelast (context v)) v)
  end.

Definition pushLocalVarScope : V unit := fun v => (Ret (), set_scopes_of (localVarScopes v ++ [∅]) v).
Definition popLocalVarScope : V unit := fun v =>
  match localVarScopes v with
  | [] => (Panic, v)
  | _ => (Ret (), set_scopes_of (removelast (localVarScopes v)) v)
  end.

(** [pushContext(ctx); defer popContext()] around [m].  A visit returns no
    error, so the deferred call is the next one. *)
Definition within (ctx : string) (m : V unit) : V unit :=
  _ ← pushContext ctx; _ ← m; popContext.

(** [pushLocalVarScope(); defer popLocalVarScope()] around [m]. *)
Definition scoped (m : V unit) : V unit :=
  _ ← pushLocalVarScope; _ ← m; popLocalVarScope.

Definition currentLocalVarScope : V (gset string) := fun v =>
  match last (localVarScopes v) with Some s => (Ret s, v) | None => (Panic, v) end.

Definition localVarIsDeclared (name : string) (v : Validator) : bool :=
  existsb (fun s => bool_decide (name ∈ s)) (localVarScopes v).

(** [currentLocalVarScope()[name] = true] *)
Definition declare_in_last (name : string) (v : Validator) : Validator :=
  set_scopes_of
    (removelast (localVarScopes v) ++ [{[ name ]} ∪ default ∅ (last (localVarScopes v))]) v.

Definition declareLocalVar (name : string) : V unit :=
  scope ← currentLocalVarScope;
  declared ← gets_of (localVarIsDeclared name);
  _ ← (if bool_decide (name ∈ scope) then recordErrorf "repeated var name" []
       else when declared (fun v =>
              recordWarning {| cw_Type := "var_shadowed";
                               cw_Message := annotate (Msg "shadows local var '%s'" [name]) v |} v));
  modify (declare_in_last name).

(** The check of a step's name. *)
Definition check_identifier (name : string) : V unit :=
  ctx ← gets_of context;
  let '(warning, err) := ValidateIdentifier name ctx in
  _ ← recordErr err;
  recordWarn warning.

(** ** The checks of the core steps *)

(** [TaskConfig.Validate] *)
Definition missing_names (fmt : string) (names : list string) : list message :=
  (fun p => Msg fmt [pretty (p : nat * string).1]) <$>
  filter (fun p => p.2 = EmptyString) (zip (seq 0 (length names)) names).

Definition TaskConfig_Validate (config : TaskConfig) : list message :=
  (if String.eqb (tc_Platform config) "" then [Msg "missing 'platform'" []] else []) ++
  missing_names "  input in position %d is missing a name" (ti_Name <$> tc_Inputs config) ++
  missing_names "  output in position %d is missing a name" (to_Name <$> tc_Outputs config).

(** [SidecarConfig.Validate] *)
Definition validSidecarProtocol (p : string) : bool := bool_decide (p ∈ [""; "TCP"; "UDP"; "SCTP"]).

Definition SidecarConfig_Validate (sc : SidecarConfig) : option message :=
  let errors :=
    (if String.eqb (sc_Name sc) "" then [Msg "missing 'name'" []] else []) ++
    (if String.eqb (sc_Image sc) "" && String.eqb (sc_ImageArtifact sc) ""
     then [Msg "missing 'image' or 'image_artifact'" []] else []) ++
    (if negb (String.eqb (sc_Image sc) "") && negb (String.eqb (sc_ImageArtifact sc) "")
     then [Msg "cannot specify both 'image' and 'image_artifact'" []] else []) ++
    ((fun port => Msg "invalid port protocol %q (must be TCP, UDP, or SCTP)" [port_Protocol port]) <$>
     filter (fun port => validSidecarProtocol (port_Protocol port) = false) (sc_Ports sc)) in
  match errors with
  | [] => None
  | _ => Some (Msg ("invalid sidecar configuration: " ++ String.concat ", " (m_format <$> errors))
                   (concat (m_args <$> errors)))
  end.

Definition IsReservedContainerName (name : string) : bool :=
  bool_decide (name ∈ ["main"; "artifact-helper"]).

(** [parsePositiveID] ([agent/snapshot/types.go]). *)
Definition is_digit_char (c : ascii) : bool := is_digit_rune (byte_of c).

Fixpoint decimal (acc : Z) (s : string) : Z :=
  match s with
  | EmptyString => acc
  | String c s => decimal (acc * 10 + (byte_of c - 48)) s
  end.

Definition max_int64 : Z := 2 ^ 63 - 1.

Definition parsePositiveID (raw : string) : option Z :=
  match raw with
  | EmptyString => None
  | String c _ =>
      if Ascii.eqb c "0" then None
      else if negb (all_chars is_digit_char raw) then None
      else if decimal 0 raw <=? max_int64 then Some (decimal 0 raw) else None
  end.

Definition positive_id_error (label : string) : message :=
  Msg "snapshot: %s must be a canonical positive decimal string" [label].

(** [TypeRef.Validate], as an error. *)
Definition type_error (t : string) : option message :=
  match TypeRef_Validate t with
  | Ret _ => None
  | _ => Some (Msg "snapshot: invalid type reference %q" [t])
  end.

Definition maxSnapshotSourceMetadataBytes : Z := 16 * 1024.

Definition validateSnapshotSourceMetadata (metadata : string) : option message :=
  if String.eqb metadata "" then None
  else if maxSnapshotSourceMetadataBytes <? Z.of_nat (String.length metadata) then
    Some (Msg "snapshot: source_metadata exceeds %d bytes" [pretty maxSnapshotSourceMetadataBytes])
  else
    let trimmed := TrimSpace metadata in
    match trimmed with
    | String c _ =>
        if Ascii.eqb c "{" && json_Valid trimmed then None
        else Some (Msg "snapshot: source_metadata must be a JSON object" [])
    | EmptyString => Some (Msg "snapshot: source_metadata must be a JSON object" [])
    end.

Definition SnapshotInputConfig_Validate (config : SnapshotInputConfig) : option message :=
  type_error (si_Type config).

(** The first error of a sequence of checks. *)
Fixpoint first_error (checks : list (option message)) : option message :=
  match checks with
  | [] => None
  | Some m :: _ => Some m
  | None :: checks => first_error checks
  end.

Definition guard_error (b : bool) (m : message) : option message := if b then Some m else None.

Definition invalid_identifier (name : string) : bool :=
  match ValidateIdentifier name [] with (None, None) => false | _ => true end.

Definition SnapshotOutputConfig_Validate (config : SnapshotOutputConfig) : option message :=
  let hasWorkflowMetadata :=
    negb (String.eqb (so_WorkflowPort config) "") || negb (so_WorkflowDefinitionID config =? 0) ||
    negb (String.eqb (so_WorkflowRunID config) "") in
  first_error
    [type_error (so_Type config);
     validateSnapshotSourceMetadata (so_SourceMetadata config);
     if String.eqb (so_Retention config) "" || String.eqb (so_Retention config) "binding" then
       guard_error hasWorkflowMetadata (Msg "snapshot: workflow metadata requires workflow retention" [])
     else if String.eqb (so_Retention config) "workflow" then
       first_error
         [guard_error (String.eqb (so_WorkflowPort config) "")
            (Msg "snapshot: workflow retention requires workflow_port" []);
          guard_error (invalid_identifier (so_WorkflowPort config))
            (Msg "snapshot: workflow_port %q is not a safe artifact identifier" [so_WorkflowPort config]);
          guard_error (so_WorkflowDefinitionID config <=? 0)
            (Msg "snapshot: workflow retention requires a positive workflow_definition_id" []);
          guard_error (String.eqb (so_WorkflowRunID config) "")
            (Msg "snapshot: workflow retention requires workflow_run_id" []);
          if String.eqb (so_WorkflowRunID config) "((workflow_run_id))" then None
          else match parsePositiveID (so_WorkflowRunID config) with
               | Some _ => None
               | None => Some (positive_id_error "workflow run ID")
               end]
     else if String.eqb (so_Retention config) "fixture" || String.eqb (so_Retention config) "pin" then
       Some (Msg "snapshot: retention %q cannot be claimed by a producer" [so_Retention config])
     else Some (Msg "snapshot: unsupported producer retention %q" [so_Retention config])].

(** ** The wire checks of the snapshot steps (steps.go) *)

(** [loadSnapshotParameterPattern]: two opening parentheses, a lower-case name
    and two closing ones. *)
Definition is_param_char (c : ascii) : bool :=
  is_lower c || is_digit c || Ascii.eqb c "_" || Ascii.eqb c "-".

Fixpoint span_param (s : string) : string * string :=
  match s with
  | String c rest =>
      if is_param_char c then let (a, b) := span_param rest in (String c a, b)
      else (EmptyString, s)
  | EmptyString => (EmptyString, EmptyString)
  end.

Definition loadSnapshotParameterName (value : string) : option string :=
  match strip_prefix "((" value with
  | Some (String c rest) =>
      if is_lower c then
        let (name, rest) := span_param rest in
        if String.eqb rest "))" then Some (String c name) else None
      else None
  | _ => None
  end.

Definition workflow_run_id_error (step value : string) : option message :=
  if String.eqb value "" then None
  else
    match loadSnapshotParameterName value with
    | Some parameter =>
        guard_error (negb (String.eqb parameter "workflow_run_id"))
          (Msg (step ++ ": workflow_run_id must use ((workflow_run_id))") [])
    | None =>
        match parsePositiveID value with
        | Some _ => None
        | None => Some (Msg (step ++ ": workflow_run_id: " ++ m_format (positive_id_error ""))
                         ["workflow run ID"])
        end
    end.

Definition LoadSnapshotStep_validateWire (step : LoadSnapshotStep) : option message :=
  first_error
    [type_error (ls_Type step);
     guard_error (String.eqb (ls_ID step) "") (Msg "load_snapshot: id is required" []);
     match loadSnapshotParameterName (ls_ID step) with
     | Some _ => None
     | None =>
         if String.eqb (ls_ID step) "0" then
           guard_error (negb (ls_Optional step)) (Msg "load_snapshot: id 0 requires optional: true" [])
         else match parsePositiveID (ls_ID step) with
              | Some _ => None
              | None => Some (Msg ("load_snapshot: id: " ++ m_format (positive_id_error "")) ["snapshot ID"])
              end
     end;
     workflow_run_id_error "load_snapshot" (ls_WorkflowRunID step)].

Definition contains_nul (s : string) : bool := negb (all_chars (fun c => negb (Ascii.eqb c "000")) s).

Definition MergeApprovalIntent_validateWire (intent : MergeApprovalIntent) : option message :=
  first_error
    [guard_error (String.eqb (TrimSpace (ma_Input intent)) "")
       (Msg "await_snapshot: merge_approval input is required" []);
     guard_error (negb (String.eqb (TrimSpace (ma_Prompt intent)) (ma_Prompt intent)) ||
                  String.eqb (ma_Prompt intent) "" ||
                  (4096 <? Z.of_nat (String.length (ma_Prompt intent))) || contains_nul (ma_Prompt intent))
       (Msg "await_snapshot: merge_approval prompt is invalid" []);
     match ValidateAuthoredMergeIntent intent with
     | Some e => Some (Msg ("await_snapshot: merge_approval intent is invalid: " ++ m_format e) (m_args e))
     | None => None
     end].

Definition AwaitSnapshotStep_validateWire (step : AwaitSnapshotStep) : option message :=
  let hasQuestion := negb (String.eqb (TrimSpace (aw_Question step)) "") in
  let hasMergeApproval := match aw_MergeApproval step with Some _ => true | None => false end in
  first_error
    [guard_error (String.eqb (TrimSpace (aw_Name step)) "") (Msg "await_snapshot: output name is required" []);
     guard_error (Bool.eqb hasQuestion hasMergeApproval)
       (Msg "await_snapshot: exactly one of question or merge_approval is required" []);
     match aw_MergeApproval step with
     | Some intent =>
         first_error
           [MergeApprovalIntent_validateWire intent;
            guard_error (negb (String.eqb (aw_OnTimeout step) "fail") ||
                         negb (String.eqb (aw_DefaultSnapshotID step) ""))
              (Msg "await_snapshot: merge approval must fail on timeout without a default" [])]
     | None => None
     end;
     guard_error (hasQuestion && (negb (String.eqb (aw_Validation step) "") ||
                    match aw_MergeApprovalValidation step with Some _ => true | None => false end))
       (Msg "await_snapshot: validation is only valid for a server-bound approval" []);
     guard_error (match type_error (aw_Type step) with Some _ => true | None => false end ||
                  negb (String.eqb (aw_Type step) "human-answer/v1"))
       (Msg "await_snapshot: type must be human-answer/v1" []);
     if String.eqb (aw_OnTimeout step) "fail" then
       guard_error (negb (String.eqb (aw_DefaultSnapshotID step) ""))
         (Msg "await_snapshot: default_snapshot_id is only valid when on_timeout is default" [])
     else if String.eqb (aw_OnTimeout step) "default" then
       match parsePositiveID (aw_DefaultSnapshotID step) with
       | Some _ => None
       | None => Some (Msg ("await_snapshot: default_snapshot_id: " ++ m_format (positive_id_error ""))
                        ["snapshot ID"])
       end
     else Some (Msg "await_snapshot: on_timeout must be fail or default" []);
     workflow_run_id_error "await_snapshot" (aw_WorkflowRunID step);
     guard_error (aw_WorkflowDefinitionID step <? 0)
       (Msg "await_snapshot: workflow definition ID must not be negative" []);
     guard_error (negb (String.eqb (aw_WorkflowPort step) "") &&
                  ((aw_WorkflowDefinitionID step <=? 0) || String.eqb (aw_WorkflowRunID step) ""))
       (Msg "await_snapshot: workflow output linkage is incomplete" []);
     guard_error ((0 <? aw_WorkflowDefinitionID step) && String.eqb (aw_WorkflowRunID step) "")
       (Msg "await_snapshot: workflow execution linkage is incomplete" [])].

(** The checks of the merge linkage; [publication_Validate] is the validation of
    the request they lead to. *)
Definition PublishSnapshotStep_validateWire (step : PublishSnapshotStep) : option message :=
  first_error
    [guard_error (String.eqb (TrimSpace (ps_Name step)) "") (Msg "publish_snapshot: name is required" []);
     guard_error (String.eqb (TrimSpace (ps_Input step)) "") (Msg "publish_snapshot: input is required" []);
     match type_error (ps_InputType step) with
     | Some e => Some (Msg ("publish_snapshot: input_type: " ++ m_format e) (m_args e))
     | None => None
     end;
     if String.eqb (ps_Mode step) "merge" then
       first_error
         [guard_error (String.eqb (TrimSpace (ps_Approval step)) "" || invalid_identifier (ps_Approval step))
            (Msg "publish_snapshot: merge approval artifact is invalid" []);
          match ps_Parameters step !! "expected_base_sha" with
          | Some _ => Some (Msg "publish_snapshot: expected_base_sha must not be authored" [])
          | None => None
          end;
          if String.eqb (ps_WorkflowRunID step) "" then None
          else
            match loadSnapshotParameterName (ps_WorkflowRunID step) with
            | Some parameter =>
                guard_error (negb (String.eqb parameter "workflow_run_id"))
                  (Msg "publish_snapshot: workflow_run_id uses an invalid template parameter" [])
            | None =>
                match parsePositiveID (ps_WorkflowRunID step) with
                | Some _ => None
                | None => Some (Msg "publish_snapshot: workflow_run_id is invalid" [])
                end
            end]
     else
       guard_error (negb (String.eqb (ps_Approval step) "") || negb (String.eqb (ps_WorkflowRunID step) ""))
         (Msg "publish_snapshot: approval linkage requires merge" []);
     match publication_Validate step with
     | Some e => Some (Msg ("publish_snapshot: " ++ m_format e) (m_args e))
     | None => None
     end].

(** ** The visits *)

Context (config : PipelineConfig).

(** [validateSnapshotInputs] and [validateSnapshotOutputs], by name. *)
Definition validateSnapshots {A} (key : string) (validate : A -> option message)
    (configs : gmap string A) (members : gset string) (membershipKnown : bool) (member : string) : V unit :=
  each (fun name =>
    match configs !! name with
    | None => mret ()
    | Some cfg =>
        _ ← when (String.eqb name "") (recordErrorf (key ++ " key must not be empty") []);
        _ ← match validate cfg with
            | Some e => recordErrorf (key ++ "[%q]: " ++ m_format e) (name :: m_args e)
            | None => mret ()
            end;
        when (membershipKnown && negb (bool_decide (name ∈ members)))
          (recordErrorf (key ++ "[%q] does not name " ++ member) [name])
    end) (names (dom configs)).

Definition validateSnapshotInputs (configs : gmap string SnapshotInputConfig) (members : gset string)
    (membershipKnown : bool) (kind : string) : V unit :=
  validateSnapshots "input_types" SnapshotInputConfig_Validate configs members membershipKnown
    (if String.eqb kind "task" then "an effective task input" else "a declared agent input").

Definition validateSnapshotOutputs (configs : gmap string SnapshotOutputConfig) (members : gset string)
    (membershipKnown : bool) (kind : string) : V unit :=
  validateSnapshots "output_types" SnapshotOutputConfig_Validate configs members membershipKnown
    (if String.eqb kind "task" then "an effective task output" else "a declared agent output").

Definition mapped_name (mapping : gmap string string) (name : string) : string :=
  default name (mapping !! name).

Definition effectiveTaskInputs (step : TaskStep) : list string :=
  match t_Config step with
  | None => []
  | Some cfg => mapped_name (t_InputMapping step) <$> (ti_Name <$> tc_Inputs cfg)
  end.

Definition effectiveTaskOutputs (step : TaskStep) : list string :=
  match t_Config step with
  | None => []
  | Some cfg => mapped_name (t_OutputMapping step) <$> (to_Name <$> tc_Outputs cfg)
  end.

(** [duplicateStrings]: the names that occur more than once, sorted. *)
Fixpoint duplicates (seen : gset string) (values : list string) : gset string :=
  match values with
  | [] => ∅
  | value :: values =>
      (if bool_decide (value ∈ seen) then {[ value ]} else ∅) ∪ duplicates ({[ value ]} ∪ seen) values
  end.
Definition duplicateStrings (values : list string) : list string := names (duplicates ∅ values).

(** The loop over the sidecars, with the index of the first; [dup] says whether
    a repeated name is an error. *)
Fixpoint check_sidecars (dup : bool) (i : nat) (seen : gset string) (sidecars : list SidecarSource) : V unit :=
  match sidecars with
  | [] => mret ()
  | src :: sidecars =>
      match ss_Config src with
      | None => check_sidecars dup (S i) seen sidecars
      | Some cfg =>
          _ ← within (".sidecars[" ++ pretty i ++ "]") (
            _ ← recordErr (SidecarConfig_Validate cfg);
            _ ← when (IsReservedContainerName (sc_Name cfg))
                  (recordErrorf "reserved container name %q" [sc_Name cfg]);
            when (dup && bool_decide (sc_Name cfg ∈ seen))
              (recordErrorf "duplicate sidecar name %q" [sc_Name cfg]));
          check_sidecars dup (S i) ({[ sc_Name cfg ]} ∪ seen) sidecars
      end
  end.

Definition is_nil {A} (o : option A) : bool := match o with None => true | Some _ => false end.

Definition VisitTask (plan : TaskStep) : V unit :=
  within (".task(" ++ t_Name plan ++ ")") (
    _ ← check_identifier (t_Name plan);
    _ ← when (is_nil (t_Config plan) && String.eqb (t_ConfigPath plan) "")
          (recordErrorf "must specify either `file:` or `config:`" []);
    _ ← when (negb (is_nil (t_Config plan)) && negb (String.eqb (t_ConfigPath plan) ""))
          (recordErrorf "must specify one of `file:` or `config:`, not both" []);
    _ ← match t_Config plan with
        | Some cfg =>
            when ((negb (String.eqb (tc_RootfsURI cfg) "") || negb (is_nil (tc_ImageResource cfg))) &&
                  negb (String.eqb (t_ImageArtifactName plan) ""))
              (fun v => recordWarning {| cw_Type := "pipeline";
                 cw_Message := annotate (Msg "specifies image: on the step but also specifies an image under config: - the image: on the step takes precedence" []) v |} v)
        | None => mret ()
        end;
    _ ← when (t_Hermetic plan)
          (fun v => recordWarning {| cw_Type := "pipeline";
             cw_Message := annotate (Msg "specifies `hermetic:` only works with Kubernetes runtime" []) v |} v);
    _ ← match t_Config plan with
        | Some cfg => within ".config" (each recordError (TaskConfig_Validate cfg))
        | None => mret ()
        end;
    _ ← validateSnapshotInputs (t_SnapshotInputs plan) (list_to_set (effectiveTaskInputs plan))
          (negb (is_nil (t_Config plan))) "task";
    _ ← validateSnapshotOutputs (t_SnapshotOutputs plan) (list_to_set (effectiveTaskOutputs plan))
          (negb (is_nil (t_Config plan))) "task";
    _ ← when (negb (is_nil (t_Config plan)) && negb (bool_decide (t_SnapshotOutputs plan = ∅)))
          (each (fun name => recordErrorf "duplicate effective task output %q" [name])
             (duplicateStrings (effectiveTaskOutputs plan)));
    check_sidecars false 0 ∅ (t_Sidecars plan)).

(** Whether a get or a put of [jobConfig] is of the resource. *)
Definition interacts (jobConfig : JobConfig) (resourceName : string) : bool :=
  no_error (recur (on_get_put
      (Some (fun input foundResource =>
         (Ret (), foundResource || String.eqb (GetStep_ResourceName input) resourceName)))
      (Some (fun output foundResource =>
         (Ret (), foundResource || String.eqb (PutStep_ResourceName output) resourceName))))
    (JobConfig_StepConfig jobConfig)) false.

Definition check_passed (resourceName jobGlob : string) : V unit :=
  let found := filter (fun j => matched jobGlob (jc_Name j)) (c_Jobs config) in
  _ ← each (fun jobConfig =>
        when (negb (interacts jobConfig resourceName))
          (recordErrorf "job '%s' does not interact with resource '%s'" [jc_Name jobConfig; resourceName]))
      found;
  match found with
  | [] => recordErrorf "no matching job(s) for '%s'" [jobGlob]
  | _ => mret ()
  end.

Definition VisitGet (step : GetStep) : V unit :=
  within (".get(" ++ g_Name step ++ ")") (
    _ ← check_identifier (g_Name step);
    seen ← gets_of seenGetName;
    _ ← when (bool_decide (g_Name step ∈ seen)) (recordErrorf "repeated name" []);
    _ ← modify (set_seen ({[ g_Name step ]} ∪ seen));
    let resourceName := GetStep_ResourceName step in
    let resource := ResourceConfigs_Lookup resourceName (c_Resources config) in
    _ ← match resource with
        | None => recordErrorf "unknown resource '%s'" [resourceName]
        | Some resource =>
            let isImage :=
              String.eqb (rc_Type resource) "registry-image" ||
              match ResourceTypes_Lookup (rc_Type resource) (c_ResourceTypes config) with
              | Some rt => negb (String.eqb (rt_Image rt) "")
              | None => false
              end in
            when (g_SkipDownload step && negb isImage)
              (recordErrorf "skip_download is only valid for resources of type 'registry-image' or types with 'image:' field" [])
        end;
    within ".passed" (each (check_passed resourceName) (g_Passed step))).

Definition VisitPut (step : PutStep) : V unit :=
  within (".put(" ++ p_Name step ++ ")") (
    _ ← check_identifier (p_Name step);
    when (is_nil (ResourceConfigs_Lookup (PutStep_ResourceName step) (c_Resources config)))
      (recordErrorf "unknown resource '%s'" [PutStep_ResourceName step])).

Definition VisitRun (step : RunStep) : V unit :=
  within (".run(" ++ r_Type step ++ "." ++ r_Message step ++ ")") (
    ctx ← gets_of context;
    let '(warning, err) := ValidateIdentifier (r_Message step) ctx in
    _ ← recordErr err;
    _ ← match warning with Some w => recordError (cw_Message w).2 | None => mret () end;
    when (is_nil (Prototypes_Lookup (r_Type step) (c_Prototypes config)))
      (recordErrorf "unknown prototype '%s'" [r_Type step])).

(** [agentOutputNamePattern], and the name of the environment variable. *)
Definition is_output_char (c : ascii) : bool :=
  is_lower c || is_digit c || between 65 90 (byte_of c) || Ascii.eqb c "_" || Ascii.eqb c "-".
Definition agentOutputNamePattern (s : string) : bool :=
  negb (String.eqb s "") && all_chars is_output_char s.

Fixpoint map_chars (f : ascii -> ascii) (s : string) : string :=
  match s with
  | EmptyString => EmptyString
  | String c s => String (f c) (map_chars f s)
  end.

(** [strings.ToUpper(strings.ReplaceAll(output, "-", "_"))] of an ASCII name. *)
Definition mangle (output : string) : string :=
  map_chars (fun c =>
    if Ascii.eqb c "-" then "_"%char
    else if is_lower c then ascii_of_N (N_of_ascii c - 32) else c) output.

Fixpoint check_outputs (seenOutputEnv : gmap string string) (outputs : list string) : V unit :=
  match outputs with
  | [] => mret ()
  | output :: outputs =>
      if String.eqb output "flight" then
        _ ← recordErrorf "output name 'flight' is reserved for the flight recorder" [];
        check_outputs seenOutputEnv outputs
      else if negb (agentOutputNamePattern output) then
        _ ← recordErrorf "output name %q must contain only letters, digits, '-' and '_'" [output];
        check_outputs seenOutputEnv outputs
      else
        let mangled := mangle output in
        if String.eqb mangled "SCHEMA" then
          _ ← recordErrorf "output name %q collides with the reserved AGENT_OUTPUT_SCHEMA env var" [output];
          check_outputs seenOutputEnv outputs
        else
          match seenOutputEnv !! mangled with
          | Some prev =>
              _ ← recordErrorf "output names %q and %q collide after AGENT_OUTPUT env-name mangling (both become AGENT_OUTPUT_%s)" [prev; output; mangled];
              check_outputs seenOutputEnv outputs
          | None => check_outputs (<[mangled := output]> seenOutputEnv) outputs
          end
  end.

Definition check_env (env : gmap string string) : V unit :=
  each (fun name =>
    each (fun ref =>
      when (negb (String.eqb (Source ref) ""))
        (recordErrorf "env %s references var source %q (((%s))): agent env is static-only and never resolves through runtime var sources"
           [name; Source ref; Reference_String ref]))
      (ExtractVarRefs (default "" (env !! name)))) (names (dom env)).

Definition VisitAgent (step : AgentStep) : V unit :=
  within (".agent(" ++ a_Name step ++ ")") (
    _ ← check_identifier (a_Name step);
    _ ← when (String.eqb (a_Prompt step) "") (recordErrorf "must specify `prompt:`" []);
    _ ← when (negb (String.eqb (a_PromptFile step) ""))
          (recordErrorf "`prompt_file:` must be compiled into `prompt:` by the workflow compiler; it is not resolved at run time" []);
    _ ← when (match (a_BudgetSliceUSD step).1 with Lt => true | _ => false end)
          (recordErrorf "budget_slice_usd must not be negative" []);
    _ ← when (a_MaxTurns step <? 0) (recordErrorf "max_turns must not be negative" []);
    _ ← when (negb (bool_decide (a_Capabilities step = [])))
          (recordErrorf "capabilities must be expanded before execution" []);
    _ ← when (match a_BrokerAuthority step with [] => false | _ => true end &&
              negb (a_BrokerAuthorityTrusted step))
          (recordErrorf "broker_authority is server-derived and cannot be authored" []);
    _ ← when (negb (is_nil (a_Env step !! "CONCOURSE_AGENT_BROKER_MCP")))
          (recordErrorf "CONCOURSE_AGENT_BROKER_MCP is reserved for the managed broker" []);
    _ ← validateSnapshotInputs (a_SnapshotInputs step) (list_to_set (a_Inputs step)) true "agent";
    _ ← validateSnapshotOutputs (a_SnapshotOutputs step) (list_to_set (a_Outputs step)) true "agent";
    _ ← when (negb (bool_decide (dom (a_SnapshotOutputs step) = ∅)))
          (each (fun name => recordErrorf "duplicate agent output %q" [name])
             (duplicateStrings (a_Outputs step)));
    _ ← check_outputs ∅ (a_Outputs step);
    _ ← each (fun logical =>
          recordErrorf "output_mapping maps %q to 'flight', which is reserved for the flight recorder" [logical])
          (names (dom (filter (fun p => p.2 = "flight") (a_OutputMapping step))));
    _ ← check_env (a_Env step);
    check_sidecars true 0 ∅ (a_Sidecars step)).

Definition VisitSetPipeline (step : SetPipelineStep) : V unit :=
  within (".set_pipeline(" ++ sp_Name step ++ ")") (
    _ ← check_identifier (sp_Name step);
    when (String.eqb (sp_File step) "") (recordErrorf "no file specified" [])).

Definition VisitLoadVar (step : LoadVarStep) : V unit :=
  within (".load_var(" ++ lv_Name step ++ ")") (
    _ ← check_identifier (lv_Name step);
    _ ← declareLocalVar (lv_Name step);
    when (String.eqb (lv_File step) "") (recordErrorf "no file specified" [])).

(** An identifier whose warnings are errors; [label] for the steps that name
    several. *)
Definition check_strict_identifier (label : option string) (name : string) : V unit :=
  ctx ← gets_of context;
  let '(warning, err) := ValidateIdentifier name ctx in
  _ ← match err, label with
      | Some e, Some label => recordErrorf ("%s: " ++ m_format e) (label :: m_args e)
      | Some e, None => recordError e
      | None, _ => mret ()
      end;
  match warning with Some w => recordBare (cw_Message w) | None => mret () end.

(** The name of a producer of a build artifact is not repeated. *)
Definition check_producer (name : string) : V unit :=
  seen ← gets_of seenGetName;
  _ ← when (bool_decide (name ∈ seen)) (recordErrorf "repeated producer name" []);
  modify (set_seen ({[ name ]} ∪ seen)).

Definition validateLoadSnapshotParameter (step : LoadSnapshotStep) (value : string) (workflow : bool) : V unit :=
  match loadSnapshotParameterName value with
  | None => mret ()
  | Some name =>
      let field := if workflow then "workflow_run_id" else "id" in
      if negb (c_Template config) then
        recordErrorf "%s parameter reference is only valid in a template pipeline" [field]
      else
        match lookup_by pm_Name name (c_Params config) with
        | None => recordErrorf "%s parameter %q is not declared" [field; name]
        | Some parameter =>
            if negb (String.eqb (pm_Type parameter) "string") then
              recordErrorf "%s parameter %q must have type string" [field; name]
            else
              let nil_default := match pm_Default parameter with VNil => true | _ => false end in
              _ ← when (workflow && negb (pm_Required parameter))
                    (recordErrorf "workflow_run_id parameter must be required" []);
              if negb workflow && negb (pm_Required parameter) && nil_default then
                recordErrorf "snapshot id parameter %q must be required or have a canonical string default" [name]
              else
                match pm_Default parameter with
                | VNil => mret ()
                | VStr defaultValue =>
                    if workflow then
                      match parsePositiveID defaultValue with
                      | Some _ => mret ()
                      | None => recordErrorf "workflow_run_id parameter %q default is invalid: %v" [name; defaultValue]
                      end
                    else if String.eqb defaultValue "0" then
                      when (negb (ls_Optional step))
                        (recordErrorf "snapshot id parameter %q default 0 requires optional: true" [name])
                    else
                      match parsePositiveID defaultValue with
                      | Some _ => mret ()
                      | None => recordErrorf "snapshot id parameter %q default is invalid: %v" [name; defaultValue]
                      end
                | _ => recordErrorf "%s parameter %q default must be a canonical string" [field; name]
                end
        end
  end.

Definition VisitLoadSnapshot (step : LoadSnapshotStep) : V unit :=
  within (".load_snapshot(" ++ ls_Name step ++ ")") (
    _ ← check_strict_identifier None (ls_Name step);
    _ ← check_producer (ls_Name step);
    _ ← recordErr (LoadSnapshotStep_validateWire step);
    _ ← validateLoadSnapshotParameter step (ls_ID step) false;
    when (negb (String.eqb (ls_WorkflowRunID step) ""))
      (validateLoadSnapshotParameter step (ls_WorkflowRunID step) true)).

Definition validateAwaitSnapshotRunParameter (value : string) : V unit :=
  match loadSnapshotParameterName value with
  | None => mret ()
  | Some name =>
      if negb (c_Template config) then
        recordErrorf "workflow_run_id parameter reference is only valid in a template pipeline" []
      else
        match lookup_by pm_Name name (c_Params config) with
        | Some parameter =>
            when (negb (String.eqb (pm_Type parameter) "string") ||
                  negb (String.eqb (pm_Format parameter) ParamFormatPositiveDecimalInt64) ||
                  negb (pm_Required parameter))
              (recordErrorf "workflow_run_id parameter must be a required positive decimal int64 string" [])
        | None => recordErrorf "workflow_run_id parameter is undeclared" []
        end
  end.

(** The two names are the entries of a map, visited here in one of the two
    orders; the order is that of the messages only. *)
Definition VisitAwaitSnapshot (step : AwaitSnapshotStep) : V unit :=
  within (".await_snapshot(" ++ aw_Name step ++ ")") (
    _ ← check_strict_identifier (Some "output") (aw_Name step);
    _ ← match aw_MergeApproval step with
        | Some intent => check_strict_identifier (Some "merge approval input") (ma_Input intent)
        | None => check_strict_identifier (Some "question") (aw_Question step)
        end;
    _ ← check_producer (aw_Name step);
    _ ← recordErr (AwaitSnapshotStep_validateWire step);
    when (negb (String.eqb (aw_WorkflowRunID step) ""))
      (validateAwaitSnapshotRunParameter (aw_WorkflowRunID step))).

Definition VisitPublishSnapshot (step : PublishSnapshotStep) : V unit :=
  within (".publish_snapshot(" ++ ps_Name step ++ ")") (
    _ ← check_strict_identifier (Some "name") (ps_Name step);
    _ ← check_strict_identifier (Some "input") (ps_Input step);
    recordErr (PublishSnapshotStep_validateWire step)).

(** The vars of an across step, with the index of the first. *)
Fixpoint check_across_vars (i : nat) (vars : list AcrossVarConfig) : V unit :=
  match vars with
  | [] => mret ()
  | v :: vars =>
      _ ← within ("[" ++ pretty i ++ "]") (
        _ ← declareLocalVar (acv_Var v);
        within ".max_in_flight" (
          when match acv_MaxInFlight v with
               | Some m => negb (mif_All m) && (mif_Limit m <=? 0)
               | None => false
               end (recordErrorf "must be greater than 0" [])));
      check_across_vars (S i) vars
  end.

(** [Validate] of an envelope, given the visit of its configuration. *)
Definition validate_with (visit : StepConfig -> V unit) (step : Step) : V unit :=
  _ ← match UnknownFields step with
      | [] => mret ()
      | fields => recordErrorf "unknown fields %+q" fields.*1
      end;
  visit (Config step).

(** [step.Visit(validator)] *)
Fixpoint visit (step : StepConfig) : V unit :=
  let all := fix all (label : string) (i : nat) (steps : list Step) : V unit :=
    match steps with
    | [] => mret ()
    | sub :: steps =>
        _ ← within (label ++ "[" ++ pretty i ++ "]") (validate_with visit sub);
        all label (S i) steps
    end in
  let with_hook name step hook :=
    _ ← visit step; within name (validate_with visit hook) in
  match step with
  | STask step => VisitTask step
  | SGet step => VisitGet step
  | SPut step => VisitPut step
  | SRun step => VisitRun step
  | SAgent step => VisitAgent step
  | SSetPipeline step => VisitSetPipeline step
  | SLoadVar step => VisitLoadVar step
  | SLoadSnapshot step => VisitLoadSnapshot step
  | SAwaitSnapshot step => VisitAwaitSnapshot step
  | SPublishSnapshot step => VisitPublishSnapshot step
  | STry step => within ".try" (validate_with visit step)
  | SDo steps => within ".do" (all "" 0%nat steps)
  | SInParallel steps _ _ => within ".in_parallel" (all ".steps" 0%nat steps)
  | SAcross step vars _ =>
      within ".across" (scoped (
        _ ← match vars with [] => recordErrorf "no vars specified" [] | _ => mret () end;
        _ ← check_across_vars 0 vars;
        visit step))
  | STimeout step duration =>
      _ ← visit step;
      within ".timeout" (when (negb (duration_ok duration)) (recordErrorf "invalid duration '%s'" [duration]))
  | SRetry step attempts =>
      _ ← visit step;
      within ".attempts" (when (attempts <=? 0) (recordErrorf "must be greater than 0" []))
  | SOnSuccess step hook => with_hook ".on_success" step hook
  | SOnFailure step hook => with_hook ".on_failure" step hook
  | SOnAbort step hook => with_hook ".on_abort" step hook
  | SOnError step hook => with_hook ".on_error" step hook
  | SEnsure step hook => with_hook ".ensure" step hook
  end.

(** [StepValidator.Validate] *)
Definition Validate (step : Step) : V unit := validate_with visit step.
End Validator.
