(* ===== verification/StepValidatorSpec.v ===== *)
(** * What the validator of steps guarantees

    [certifies m Q]: the visit [m] returns, leaves the validator's context and
    scopes as they were, only adds errors, and if it adds none then [Q]. *)
From stdpp Require Import base gmap sets list strings sorting pretty.
From Stdlib Require Import ZArith Ascii Lia.
From S2P Require Import Prelude Vars Repository Parallel GoText Steps StepValidator.

Open Scope Z_scope.

Create HintDb certify.

Section Certify.
Context `{StepChecks}.

Abbreviation V := (stateful Validator Empty_set).
Implicit Types (v : Validator) (m : V unit).

Record after (v v' : Validator) (es : list (option string * message)) : Prop := {
  after_context : context v' = context v;
  after_scopes : length (localVarScopes v') = length (localVarScopes v);
  after_errors : Errors v' = Errors v ++ es }.

Definition certifies m (Q : Prop) : Prop :=
  forall v, localVarScopes v <> [] ->
    exists v' es, m v = (Ret (), v') /\ after v v' es /\ (es = [] -> Q).

Lemma after_trans v1 v2 v3 es1 es2 : after v1 v2 es1 -> after v2 v3 es2 -> after v1 v3 (es1 ++ es2).
Proof.
  intros [C1 S1 E1] [C2 S2 E2]. split; [congruence|congruence|]. by rewrite E2, E1, <- (assoc_L (++)).
Qed.

Lemma after_nonempty v v' es : after v v' es -> localVarScopes v <> [] -> localVarScopes v' <> [].
Proof.
  intros [_ Hs _] Hne Hnil. rewrite Hnil in Hs. by destruct (localVarScopes v).
Qed.

Lemma certifies_weaken m Q Q' : certifies m Q -> (Q -> Q') -> certifies m Q'.
Proof. intros Hm HQ v Hv. destruct (Hm v Hv) as (v' & es & Hr & Ha & HQ'). exists v', es. auto. Qed.

Lemma certifies_any m Q : certifies m Q -> certifies m True.
Proof. intros Hm. by eapply certifies_weaken. Qed.

Lemma certifies_seq m m' Q Q' : certifies m Q -> certifies m' Q' -> certifies (_ ← m; m') (Q /\ Q').
Proof.
  intros Hm Hm' v Hv. destruct (Hm v Hv) as (v1 & es1 & Hr1 & Ha1 & HQ1).
  destruct (Hm' v1 (after_nonempty _ _ _ Ha1 Hv)) as (v2 & es2 & Hr2 & Ha2 & HQ2).
  exists v2, (es1 ++ es2). unfold mbind, stateful_bind. rewrite Hr1. split; [done|].
  split; [by eapply after_trans|]. intros [-> ->]%app_nil. auto.
Qed.

Lemma certifies_then m m' Q : certifies m True -> certifies m' Q -> certifies (_ ← m; m') Q.
Proof. intros. by eapply certifies_weaken; [by apply certifies_seq|intros []]. Qed.

Lemma certifies_first m m' Q : certifies m Q -> certifies m' True -> certifies (_ ← m; m') Q.
Proof. intros. by eapply certifies_weaken; [by apply certifies_seq|intros []]. Qed.

Lemma certifies_gets {A} (f : Validator -> A) (k : A -> V unit) Q :
  (forall a, certifies (k a) Q) -> certifies (a ← gets_of f; k a) Q.
Proof. intros Hk v Hv. unfold mbind, stateful_bind. cbn. by apply Hk. Qed.

Lemma certifies_scope (k : gset string -> V unit) Q :
  (forall s, certifies (k s) Q) -> certifies (s ← currentLocalVarScope; k s) Q.
Proof.
  intros Hk v Hv. unfold mbind, stateful_bind, currentLocalVarScope.
  destruct (last (localVarScopes v)) as [s|] eqn:Hl; [by apply Hk|]. by apply last_None in Hl.
Qed.

Lemma certifies_ret : certifies (mret ()) True.
Proof. intros v Hv. exists v, []. split; [done|]. split; [|done]. split; [done..|]. by rewrite app_nil_r. Qed.

Lemma certifies_error e Q : certifies (recordError e) Q.
Proof. intros v Hv. eexists _, [_]. split; [done|]. by split; [split|]. Qed.

Lemma certifies_bare e Q : certifies (recordBare e) Q.
Proof. intros v Hv. eexists _, [_]. split; [done|]. by split; [split|]. Qed.

Lemma certifies_warning w : certifies (recordWarning w) True.
Proof. intros v Hv. eexists _, []. split; [done|]. split; [|done]. split; [done..|]. cbn. by rewrite app_nil_r. Qed.

Lemma certifies_warning_at (w : Validator -> ConfigWarning) : certifies (fun v => recordWarning (w v) v) True.
Proof. intros v Hv. by apply certifies_warning. Qed.

Lemma certifies_modify f :
  (forall v, context (f v) = context v /\ Errors (f v) = Errors v /\
     (localVarScopes v <> [] -> length (localVarScopes (f v)) = length (localVarScopes v))) ->
  certifies (modify f) True.
Proof.
  intros Hf v Hv. destruct (Hf v) as (Hc & He & Hs). eexists _, []. split; [done|].
  split; [|done]. split; [done|auto|]. by rewrite He, app_nil_r.
Qed.

Lemma certifies_when b m Q : certifies m Q -> certifies (when b m) (b = true -> Q).
Proof.
  intros Hm. destruct b; cbn; [by eapply certifies_weaken|]. by eapply certifies_weaken; [apply certifies_ret|].
Qed.

(** A check that is silent only if its condition is false. *)
Lemma certifies_unless b e : certifies (when b (recordError e)) (b = false).
Proof.
  eapply certifies_weaken; [apply certifies_when, (certifies_error e False)|].
  destruct b; [|done]. by intros [].
Qed.

Lemma certifies_recordErr e : certifies (recordErr e) (e = None).
Proof. destruct e; cbn; [apply certifies_error|]. by eapply certifies_weaken; [apply certifies_ret|]. Qed.

Lemma certifies_recordWarn w : certifies (recordWarn w) True.
Proof. destruct w; cbn; [apply certifies_warning|apply certifies_ret]. Qed.

Lemma certifies_each {A} (f : A -> V unit) (Q : A -> Prop) l :
  (forall x, certifies (f x) (Q x)) -> certifies (each f l) (Forall Q l).
Proof.
  intros Hf. induction l as [|x l IH]; cbn [each].
  - by eapply certifies_weaken; [apply certifies_ret|].
  - eapply certifies_weaken; [by apply certifies_seq|]. intros []. by constructor.
Qed.

Lemma certifies_within ctx m Q : certifies m Q -> certifies (within ctx m) Q.
Proof.
  intros Hm v Hv. unfold within, mbind, stateful_bind, pushContext.
  destruct (Hm (set_context (context v ++ [ctx]) v) Hv) as (v1 & es & Hr & [Hc Hs He] & HQ).
  rewrite Hr. unfold popContext. cbn in Hc. rewrite Hc.
  destruct (context v ++ [ctx]) as [|c0 cs] eqn:Heq; [by destruct (context v)|]. rewrite <- Heq.
  eexists _, es. split; [done|]. split; [|done]. split; cbn; [|done|done]. by rewrite removelast_last.
Qed.

Lemma certifies_scoped m Q :
  certifies m Q -> certifies (scoped m) Q.
Proof.
  intros Hm v Hv. unfold scoped, mbind, stateful_bind, pushLocalVarScope.
  destruct (Hm (set_scopes_of (localVarScopes v ++ [∅]) v)) as (v1 & es & Hr & [Hc Hs He] & HQ).
  { cbn. by destruct (localVarScopes v). }
  rewrite Hr. unfold popLocalVarScope. cbn in Hs. rewrite length_app in Hs. cbn in Hs.
  destruct (localVarScopes v1) as [|s0 ss] eqn:Heq; [cbn in Hs; lia|].
  eexists _, es. split; [done|]. split; [|done]. split; cbn -[removelast]; [done| |done].
  rewrite <- Heq in *. rewrite removelast_firstn_len, length_take. lia.
Qed.
End Certify.

#[export] Hint Resolve certifies_ret certifies_error certifies_bare certifies_warning
  certifies_warning_at certifies_recordErr certifies_recordWarn : certify.

(** [certify] proves that a visit built from the combinators above is tame. *)
Ltac certify_step :=
  match goal with
  | |- certifies _ ?Q => is_evar Q; unify Q True
  | |- certifies (mbind _ (gets_of _)) _ => apply certifies_gets; intros ?
  | |- certifies (mbind _ currentLocalVarScope) _ => apply certifies_scope; intros ?
  | |- certifies (within _ _) _ => apply certifies_within
  | |- certifies (mret _) True => apply certifies_ret
  | |- certifies (recordError _) _ => apply certifies_error
  | |- certifies (recordBare _) _ => apply certifies_bare
  | |- certifies (fun v => recordWarning _ v) True => apply certifies_warning_at
  | |- certifies (mbind _ _) True => eapply certifies_any; apply certifies_seq
  | |- certifies (when _ _) True => eapply certifies_any; eapply certifies_when
  | |- certifies (each _ _) True => eapply certifies_any; eapply (certifies_each _ (fun _ => True)); intros ?
  | |- certifies (match ?x with _ => _ end) _ => destruct x
  | |- certifies _ True => solve [eauto with certify | eapply certifies_any; eauto with certify]
  end; cbv beta iota zeta.
Ltac certify := repeat certify_step.

Section Visits.
Context `{StepChecks} (config : PipelineConfig).

Lemma certifies_declareLocalVar name : certifies (declareLocalVar name) True.
Proof.
  unfold declareLocalVar. certify. apply certifies_modify. intros v. repeat split.
  intros Hv. unfold declare_in_last. cbn -[removelast]. rewrite length_app, removelast_firstn_len, length_take.
  destruct (localVarScopes v); [done|]. cbn. lia.
Qed.
Hint Resolve certifies_declareLocalVar : certify.

Lemma certifies_identifier name : certifies (check_identifier name) True.
Proof. unfold check_identifier. certify. Qed.
Hint Resolve certifies_identifier : certify.

Lemma certifies_strict label name : certifies (check_strict_identifier label name) True.
Proof. unfold check_strict_identifier. certify. Qed.
Hint Resolve certifies_strict : certify.

Lemma certifies_set_seen s : certifies (modify (set_seen s)) True.
Proof. by apply certifies_modify. Qed.
Hint Resolve certifies_set_seen : certify.

Lemma certifies_producer name : certifies (check_producer name) True.
Proof. unfold check_producer. certify. Qed.
Hint Resolve certifies_producer : certify.

Lemma certifies_snapshots {A} key (validate : A -> option message) configs members known member :
  certifies (validateSnapshots key validate configs members known member) True.
Proof. unfold validateSnapshots. certify. Qed.

Lemma certifies_snapshotInputs configs members known kind :
  certifies (validateSnapshotInputs configs members known kind) True.
Proof. apply certifies_snapshots. Qed.
Lemma certifies_snapshotOutputs configs members known kind :
  certifies (validateSnapshotOutputs configs members known kind) True.
Proof. apply certifies_snapshots. Qed.
Hint Resolve certifies_snapshotInputs certifies_snapshotOutputs : certify.

Lemma certifies_sidecars dup i seen sidecars : certifies (check_sidecars dup i seen sidecars) True.
Proof. revert i seen. induction sidecars; intros; cbn [check_sidecars]; certify. Qed.
Hint Resolve certifies_sidecars : certify.

Lemma certifies_task step : certifies (VisitTask step) True.
Proof. unfold VisitTask. certify. Qed.

Lemma certifies_outputs seen outputs : certifies (check_outputs seen outputs) True.
Proof. revert seen. induction outputs; intros; cbn [check_outputs]; certify. Qed.
Hint Resolve certifies_outputs : certify.

Lemma certifies_env env : certifies (check_env env) True.
Proof. unfold check_env. certify. Qed.
Hint Resolve certifies_env : certify.

Lemma certifies_load_parameter step value workflow :
  certifies (validateLoadSnapshotParameter config step value workflow) True.
Proof. unfold validateLoadSnapshotParameter. certify. Qed.

Lemma certifies_await_parameter value : certifies (validateAwaitSnapshotRunParameter config value) True.
Proof. unfold validateAwaitSnapshotRunParameter. certify. Qed.
Hint Resolve certifies_load_parameter certifies_await_parameter : certify.

(** ** What a silent visit has checked *)

(** A [passed] glob names jobs, and each of them gets or puts the resource. *)
Definition passed_ok (resourceName jobGlob : string) : Prop :=
  (exists job, job ∈ c_Jobs config /\ matched jobGlob (jc_Name job) = true) /\
  forall job, job ∈ c_Jobs config -> matched jobGlob (jc_Name job) = true ->
    interacts job resourceName = true.

Lemma certifies_passed resourceName jobGlob :
  certifies (check_passed config resourceName jobGlob) (passed_ok resourceName jobGlob).
Proof.
  unfold check_passed, passed_ok. cbv zeta.
  set (found := filter (fun j => matched jobGlob (jc_Name j)) (c_Jobs config)).
  assert (Hfound : forall job, job ∈ found <-> job ∈ c_Jobs config /\ matched jobGlob (jc_Name job) = true).
  { intros job. unfold found. rewrite list_elem_of_filter, Is_true_true. tauto. }
  eapply certifies_weaken.
  { apply certifies_seq with (Q' := found <> []).
    - apply certifies_each. intros job. apply certifies_unless.
    - destruct found; [apply certifies_error|]. by eapply certifies_weaken; [apply certifies_ret|]. }
  intros [Hall Hne]. split.
  - destruct found as [|job l]; [done|]. exists job. apply Hfound. set_solver.
  - intros job Hj Hm. rewrite Forall_forall in Hall. apply negb_false_iff, Hall. by apply Hfound.
Qed.

Definition get_ok (step : GetStep) : Prop :=
  is_Some (ResourceConfigs_Lookup (GetStep_ResourceName step) (c_Resources config)) /\
  Forall (passed_ok (GetStep_ResourceName step)) (g_Passed step).

Lemma certifies_get step : certifies (VisitGet config step) (get_ok step).
Proof.
  unfold VisitGet. apply certifies_within, certifies_then; [certify|]. apply certifies_gets; intros seen.
  apply certifies_then; [certify|]. apply certifies_then; [certify|]. cbv zeta.
  apply certifies_seq; [|apply certifies_within, certifies_each, certifies_passed].
  destruct (ResourceConfigs_Lookup _ _); [|apply certifies_error].
  eapply certifies_weaken with True; [certify|by eexists].
Qed.

Lemma is_nil_false {A} (o : option A) : is_nil o = false -> is_Some o.
Proof. destruct o; [by eexists|done]. Qed.

Lemma certifies_put step :
  certifies (VisitPut config step)
    (is_Some (ResourceConfigs_Lookup (PutStep_ResourceName step) (c_Resources config))).
Proof.
  unfold VisitPut. apply certifies_within, certifies_then; [certify|].
  eapply certifies_weaken; [apply certifies_unless|apply is_nil_false].
Qed.

Lemma certifies_run step :
  certifies (VisitRun config step) (is_Some (Prototypes_Lookup (r_Type step) (c_Prototypes config))).
Proof.
  unfold VisitRun. apply certifies_within, certifies_gets; intros ctx.
  destruct (ValidateIdentifier (r_Message step) ctx) as [w e].
  apply certifies_then; [certify|]. apply certifies_then; [certify|].
  eapply certifies_weaken; [apply certifies_unless|apply is_nil_false].
Qed.

Lemma certifies_agent step :
  certifies (VisitAgent step)
    (a_Capabilities step = [] /\ (a_BrokerAuthority step <> [] -> a_BrokerAuthorityTrusted step = true)).
Proof.
  unfold VisitAgent. apply certifies_within. do 5 (apply certifies_then; [certify|]).
  eapply certifies_weaken.
  { eapply certifies_seq; [apply certifies_unless|].
    apply certifies_first; [apply certifies_unless|certify]. }
  intros [Hc Hb]. go_bool. split; [done|]. intros Hne.
  destruct (a_BrokerAuthority step); [done|]. by apply negb_false_iff.
Qed.

Lemma certifies_across_vars i vars :
  certifies (check_across_vars i vars)
    (Forall (fun v => match acv_MaxInFlight v with
                      | Some m => mif_All m = false -> 0 < mif_Limit m
                      | None => True
                      end) vars).
Proof.
  revert i. induction vars as [|v vars IH]; intros i; cbn [check_across_vars].
  - by eapply certifies_weaken; [apply certifies_ret|].
  - eapply certifies_weaken.
    { eapply certifies_seq; [|apply IH]. apply certifies_within, certifies_then; [certify|].
      apply certifies_within, certifies_unless. }
    intros [Hv Hvs]. constructor; [|done]. destruct (acv_MaxInFlight v) as [m|]; [|done].
    intros Hall. rewrite Hall in Hv. cbn in Hv. apply Z.leb_gt in Hv. lia.
Qed.

(** The step is well formed: its resources and prototypes are declared, its
    passed globs name jobs of the resource, its durations, attempts and limits
    make sense, no capability is left to expand. *)
Fixpoint checked (s : StepConfig) : Prop :=
  match s with
  | SGet step => get_ok step
  | SPut step => is_Some (ResourceConfigs_Lookup (PutStep_ResourceName step) (c_Resources config))
  | SRun step => is_Some (Prototypes_Lookup (r_Type step) (c_Prototypes config))
  | SAgent step =>
      a_Capabilities step = [] /\ (a_BrokerAuthority step <> [] -> a_BrokerAuthorityTrusted step = true)
  | STask _ | SSetPipeline _ | SLoadVar _ | SLoadSnapshot _ | SAwaitSnapshot _ | SPublishSnapshot _ => True
  | STry s => checked (Config s)
  | SDo l | SInParallel l _ _ => foldr (fun s P => checked (Config s) /\ P) True l
  | SAcross s vars _ =>
      vars <> [] /\
      Forall (fun v => match acv_MaxInFlight v with
                       | Some m => mif_All m = false -> 0 < mif_Limit m
                       | None => True
                       end) vars /\ checked s
  | STimeout s d => checked s /\ duration_ok d = true
  | SRetry s n => checked s /\ 0 < n
  | SOnSuccess s h | SOnFailure s h | SOnAbort s h | SOnError s h | SEnsure s h =>
      checked s /\ checked (Config h)
  end.

Lemma certifies_validate_with visit step Q :
  certifies (visit (Config step)) Q -> certifies (validate_with visit step) Q.
Proof. intros. unfold validate_with. apply certifies_then; [certify|done]. Qed.

Definition visit_all : string -> nat -> list Step -> stateful Validator Empty_set unit :=
  fix all (label : string) (i : nat) (steps : list Step) : stateful Validator Empty_set unit :=
    match steps with
    | [] => mret ()
    | sub :: steps =>
        _ ← within (label ++ "[" ++ pretty i ++ "]") (validate_with (visit config) sub); all label (S i) steps
    end.

Lemma certifies_all label i l :
  Forall (fun s => certifies (visit config (Config s)) (checked (Config s))) l ->
  certifies (visit_all label i l) (foldr (fun s P => checked (Config s) /\ P) True l).
Proof.
  intros Hl. revert i. induction Hl as [|s l Hs _ IH]; intros i; cbn [visit_all foldr].
  - apply certifies_ret.
  - apply certifies_seq; [|apply IH]. by apply certifies_within, certifies_validate_with.
Qed.

(** A visit that adds no error has found the step well formed. *)
Lemma certifies_visit s : certifies (visit config s) (checked s).
Proof.
  induction s using step_ind; cbn [visit checked].
  all: try (apply certifies_seq; [done|by apply certifies_within, certifies_validate_with]).
  - apply certifies_get.
  - apply certifies_put.
  - apply certifies_task.
  - apply certifies_run.
  - apply certifies_agent.
  - unfold VisitSetPipeline. certify.
  - unfold VisitLoadVar. certify.
  - unfold VisitLoadSnapshot. certify.
  - unfold VisitAwaitSnapshot. certify.
  - unfold VisitPublishSnapshot. certify.
  - by apply certifies_within, certifies_validate_with.
  - apply certifies_within. by exact (certifies_all "" 0 l H0).
  - apply certifies_within. by exact (certifies_all ".steps" 0 l H0).
  - apply certifies_within. eapply certifies_weaken.
    { eapply certifies_scoped. eapply certifies_seq; [|eapply certifies_seq; [apply certifies_across_vars|exact IHs]].
      instantiate (1 := vars <> []). destruct vars; [apply certifies_error|].
      by eapply certifies_weaken; [apply certifies_ret|]. }
    tauto.
  - eapply certifies_weaken; [apply certifies_seq; [done|apply certifies_within, certifies_unless]|].
    intros [? ?%negb_false_iff]. done.
  - eapply certifies_weaken; [apply certifies_seq; [done|apply certifies_within, certifies_unless]|].
    intros [? ?%Z.leb_gt]. done.
Qed.

(** [Validate] returns for any step, with the context it was called with. *)
Lemma Validate_spec step ctx :
  exists v, Validate config step (NewStepValidator ctx) = (Ret (), v) /\ context v = ctx /\
    (Errors v = [] -> checked (Config step)).
Proof.
  destruct (certifies_validate_with _ step _ (certifies_visit (Config step)) (NewStepValidator ctx))
    as (v & es & Hr & [Hc _ He] & HQ); [done|].
  exists v. split; [exact Hr|]. split; [done|]. rewrite He. cbn. done.
Qed.
End Visits.
