(* ===== verification/Planner.v ===== *)
(** * The planner of builds (atc/builds/planner.go)

    The plans a job's steps are turned into ([atc/plan.go]), with the plans that
    fetch the images of custom resource types ([atc/config.go]), the factory
    that numbers them ([atc/plan_factory.go]) and the visitor that makes them.

    What is not the repository's own is an operation of the class
    [PlannerWorld]: the encoding of a plan as JSON, which an across step keeps as
    its template, and the parser of OCI references. *)
From stdpp Require Import base gmap sets list strings pretty.
From Stdlib Require Import ZArith Ascii Lia.
From S2P Require Import Prelude Vars Repository Parallel GoText Steps StepValidator.

Set Warnings "-register-all".
Open Scope Z_scope.

(** ** Plans *)

Record TypeImage (P : Type) := {
  im_CheckPlan : option P;
  im_GetPlan : option P;
  im_BaseType : string;
  im_ImageRef : string;
  im_Privileged : bool }.
Arguments im_CheckPlan {P} _.
Arguments im_GetPlan {P} _.
Arguments im_BaseType {P} _.
Arguments im_ImageRef {P} _.
Arguments im_Privileged {P} _.

Record GetPlan (P : Type) := {
  gp_Name : string;
  gp_Type : string;
  gp_Source : document;
  gp_TypeImage : TypeImage P;
  gp_Version : option Version;
  gp_VersionFrom : option string;
  gp_Params : document;
  gp_Resource : string;
  gp_Tags : Tags;
  gp_Timeout : string;
  gp_SkipDownload : bool }.
Arguments gp_TypeImage {P} _.

Record PutPlan (P : Type) := {
  pp_Name : string;
  pp_Type : string;
  pp_Source : document;
  pp_TypeImage : TypeImage P;
  pp_Params : document;
  pp_Inputs : option InputsConfig;
  pp_Resource : string;
  pp_Tags : Tags;
  pp_Timeout : string;
  pp_ExposeBuildCreatedBy : bool }.
Arguments pp_TypeImage {P} _.

Record CheckPlan (P : Type) := {
  ck_Name : string;
  ck_Type : string;
  ck_Source : document;
  ck_TypeImage : TypeImage P;
  ck_FromVersion : option Version;
  ck_Resource : string;
  ck_ResourceType : string;
  ck_Prototype : string;
  ck_Interval : CheckEvery;
  ck_SkipInterval : bool;
  ck_Timeout : string;
  ck_Tags : Tags }.
Arguments ck_TypeImage {P} _.

Record TaskPlan := {
  tp_Name : string;
  tp_FunctionID : string;
  tp_Privileged : bool;
  tp_Hermetic : bool;
  tp_Tags : Tags;
  tp_ConfigPath : string;
  tp_Config : option TaskConfig;
  tp_Limits : option value;
  tp_Requests : option value;
  tp_ImageArtifactName : string;
  tp_Vars : document;
  tp_Params : list (string * string);
  tp_InputMapping : gmap string string;
  tp_OutputMapping : gmap string string;
  tp_SnapshotInputs : gmap string SnapshotInputConfig;
  tp_SnapshotOutputs : gmap string SnapshotOutputConfig;
  tp_DevValidationAuthority : option DevValidationAuthority;
  tp_MergePreflightAuthority : option value;
  tp_ResourceCaptureAuthority : option value;
  tp_Timeout : string;
  tp_ResourceTypes : list ResourceType;
  tp_CheckSkipInterval : bool;
  tp_Sidecars : list SidecarSource }.

Record RunPlan := {
  rp_Message : string;
  rp_Type : string;
  rp_Object : document;
  rp_Privileged : bool;
  rp_Tags : Tags;
  rp_Limits : option value;
  rp_Requests : option value;
  rp_Timeout : string }.

Record AgentPlan := {
  agp_Name : string;
  agp_FunctionID : string;
  agp_Hermetic : bool;
  agp_RuntimeImage : string;
  agp_Prompt : string;
  agp_Model : string;
  agp_MaxTurns : Z;
  agp_BudgetSliceUSD : comparison * string;
  agp_SystemPrompt : string;
  agp_Context : string;
  agp_Skills : list string;
  agp_SkillFiles : gmap string string;
  agp_Sidecars : list SidecarSource;
  agp_Inputs : list string;
  agp_Outputs : list string;
  agp_InputMapping : gmap string string;
  agp_OutputMapping : gmap string string;
  agp_SnapshotInputs : gmap string SnapshotInputConfig;
  agp_SnapshotOutputs : gmap string SnapshotOutputConfig;
  agp_Validation : string;
  agp_ReviewValidation : option value;
  agp_Env : gmap string string;
  agp_Timeout : string;
  agp_Limits : option value;
  agp_Requests : option value;
  agp_BrokerAuthority : list AgentBrokerProfile }.

(** The configuration of a plan, one constructor for each field of [atc.Plan]
    the planner sets.  The plans of [set_pipeline], [load_var] and the snapshot
    steps have the fields of their steps. *)
Inductive PlanConfig (P : Type) :=
| PlGet (p : GetPlan P)
| PlPut (p : PutPlan P)
| PlCheck (p : CheckPlan P)
| PlTask (p : TaskPlan)
| PlRun (p : RunPlan)
| PlAgent (p : AgentPlan)
| PlSetPipeline (p : SetPipelineStep)
| PlLoadVar (p : LoadVarStep)
| PlLoadSnapshot (p : LoadSnapshotStep)
| PlAwaitSnapshot (p : AwaitSnapshotStep)
| PlPublishSnapshot (p : PublishSnapshotStep)
| PlDo (steps : list P)
| PlInParallel (steps : list P) (limit : Z) (failFast : bool)
| PlAcross (vars : list AcrossVarConfig) (template : string) (failFast : bool)
| PlTry (step : P)
| PlTimeout (step : P) (duration : string)
| PlRetry (attempts : list P)
| PlOnSuccess (step next : P)
| PlOnFailure (step next : P)
| PlOnAbort (step next : P)
| PlOnError (step next : P)
| PlEnsure (step next : P).
Arguments PlGet {P} _.
Arguments PlPut {P} _.
Arguments PlCheck {P} _.
Arguments PlTask {P} _.
Arguments PlRun {P} _.
Arguments PlAgent {P} _.
Arguments PlSetPipeline {P} _.
Arguments PlLoadVar {P} _.
Arguments PlLoadSnapshot {P} _.
Arguments PlAwaitSnapshot {P} _.
Arguments PlPublishSnapshot {P} _.
Arguments PlDo {P} _.
Arguments PlInParallel {P} _ _ _.
Arguments PlAcross {P} _ _ _.
Arguments PlTry {P} _.
Arguments PlTimeout {P} _ _.
Arguments PlRetry {P} _.
Arguments PlOnSuccess {P} _ _.
Arguments PlOnFailure {P} _ _.
Arguments PlOnAbort {P} _ _.
Arguments PlOnError {P} _ _.
Arguments PlEnsure {P} _ _.

Inductive Plan := MkPlan (ID : string) (config : PlanConfig Plan).

Definition ID (p : Plan) : string := let 'MkPlan id _ := p in id.

(** [Plan.Each]: the plans of a plan, in the order they are visited. *)
Fixpoint Each (p : Plan) : list Plan :=
  let each := fix each (l : list Plan) : list Plan :=
    match l with [] => [] | p :: l => Each p ++ each l end in
  let image (t : TypeImage Plan) :=
    match im_CheckPlan t with Some p => Each p | None => [] end ++
    match im_GetPlan t with Some p => Each p | None => [] end in
  let 'MkPlan _ config := p in
  p ::
  match config with
  | PlDo steps | PlInParallel steps _ _ | PlRetry steps => each steps
  | PlOnSuccess step next | PlOnFailure step next | PlOnAbort step next
  | PlOnError step next | PlEnsure step next => Each step ++ Each next
  | PlTry step | PlTimeout step _ => Each step
  | PlGet g => image (gp_TypeImage g)
  | PlPut g => image (pp_TypeImage g)
  | PlCheck g => image (ck_TypeImage g)
  | _ => []
  end.

(** ** The factory (plan_factory.go) *)

Definition two63 : Z := 2 ^ 63.

(** [atomic.AddInt64] *)
Definition AddInt64 (n delta : Z) : Z := (n + delta + two63) mod (2 * two63) - two63.

Definition hex_digit (d : Z) : ascii :=
  ascii_of_N (Z.to_N (if d <? 10 then 48 + d else 87 + d)).

Fixpoint hex_digits (fuel : nat) (n : Z) (acc : string) : string :=
  match fuel with
  | O => acc
  | S fuel =>
      let acc := String (hex_digit (n mod 16)) acc in
      if n <? 16 then acc else hex_digits fuel (n / 16) acc
  end.

(** [fmt.Sprintf] with the verb [x], of an [int64]. *)
Definition hex (n : Z) : string :=
  if n <? 0 then String "-" (hex_digits 16 (- n) EmptyString) else hex_digits 16 n EmptyString.

Inductive plan_error :=
| UnknownResourceError (resource : string)
| UnknownPrototypeError (prototype : string)
| VersionNotProvidedError (input : string)
| UnresolvedCapabilities (agent : string)
| InvalidBrokerAuthority (agent : string) (e : message)
| MarshalError (p : Plan).

(** The counter is the state of a factory. *)
Definition planM := stateful Z plan_error.

Definition NewPlan (step : PlanConfig Plan) : planM Plan := fun currentNum =>
  let num := AddInt64 currentNum 1 in (Ret (MkPlan (hex num) step), num).

(** ** The images of custom types (config.go, resource_types.go) *)

(** [Source.Merge] *)
Definition Merge (src other : document) : document :=
  match src, other with
  | None, None => None
  | Some s, None => if bool_decide (dom s = ∅) then None else Some s
  | None, Some o => Some o
  | Some s, Some o => Some (o ∪ s)
  end.

Class PlannerWorld := {
  Marshal : Plan -> option string;
  NewDigest : string -> option message;
  baseResourceTypeDefaults : gmap string document;
  DefaultCheckInterval : Z }.

Section Planner.
Context `{PlannerWorld, StepChecks}.

Section Fetch.
(** [resourceTypes.ImageForType], for the types of the image. *)
Context (imageForType : string -> string -> Tags -> bool -> TypeImage Plan).

Definition FetchImagePlan (planID : string) (image : ImageResource) (stepTags : Tags)
    (skipInterval : bool) (checkEvery : option CheckEvery) : Plan * option Plan :=
  let getPlanID := (planID ++ "/image-get")%string in
  let checkPlanID := (planID ++ "/image-check")%string in
  let tags := match ir_Tags image with [] => stepTags | tags => tags end in
  let get version versionFrom :=
    MkPlan getPlanID (PlGet
      {| gp_Name := ir_Name image; gp_Type := ir_Type image; gp_Source := ir_Source image;
         gp_TypeImage := imageForType getPlanID (ir_Type image) tags skipInterval;
         gp_Version := version; gp_VersionFrom := versionFrom; gp_Params := ir_Params image;
         gp_Resource := ""; gp_Tags := tags; gp_Timeout := "";
         gp_SkipDownload := String.eqb (ir_Type image) "registry-image" |}) in
  match ir_Version image with
  | None =>
      let interval := default {| ce_Never := false; ce_Interval := DefaultCheckInterval |} checkEvery in
      (get None (Some checkPlanID),
       Some (MkPlan checkPlanID (PlCheck
         {| ck_Name := ir_Name image; ck_Type := ir_Type image; ck_Source := ir_Source image;
            ck_TypeImage := imageForType checkPlanID (ir_Type image) tags skipInterval;
            ck_FromVersion := None; ck_Resource := ""; ck_ResourceType := ""; ck_Prototype := "";
            ck_Interval := interval; ck_SkipInterval := skipInterval; ck_Timeout := "";
            ck_Tags := tags |})))
  | Some version => (get (Some version) None, None)
  end.
End Fetch.

(** [checkPlan.Check.ResourceType = resourceType] *)
Definition set_ResourceType (resourceType : string) (p : Plan) : Plan :=
  match p with
  | MkPlan id (PlCheck c) =>
      MkPlan id (PlCheck
        {| ck_Name := ck_Name _ c; ck_Type := ck_Type _ c; ck_Source := ck_Source _ c;
           ck_TypeImage := ck_TypeImage c; ck_FromVersion := ck_FromVersion _ c;
           ck_Resource := ck_Resource _ c; ck_ResourceType := resourceType;
           ck_Prototype := ck_Prototype _ c; ck_Interval := ck_Interval _ c;
           ck_SkipInterval := ck_SkipInterval _ c; ck_Timeout := ck_Timeout _ c;
           ck_Tags := ck_Tags _ c |})
  | p => p
  end.

Definition plan_image (p : Plan) : option (TypeImage Plan) :=
  match p with
  | MkPlan _ (PlGet g) => Some (gp_TypeImage g)
  | _ => None
  end.

Definition base_image (resourceType : string) : TypeImage Plan :=
  {| im_CheckPlan := None; im_GetPlan := None; im_BaseType := resourceType; im_ImageRef := "";
     im_Privileged := false |}.

(** [ResourceTypes.ImageForType].  Each nested call has the types without the one
    it found, so [length types] bounds the nesting. *)
Fixpoint ImageForType_from (fuel : nat) (types : list ResourceType) (planID resourceType : string)
    (stepTags : Tags) (skipInterval : bool) : TypeImage Plan :=
  match ResourceTypes_Lookup resourceType types with
  | None => base_image resourceType
  | Some parent =>
      if negb (String.eqb (rt_Image parent) "") then
        {| im_CheckPlan := None; im_GetPlan := None; im_BaseType := "";
           im_ImageRef := rt_Image parent; im_Privileged := rt_Privileged parent |}
      else
        match fuel with
        | O => base_image resourceType
        | S fuel =>
            let imageResource :=
              {| ir_Name := rt_Name parent; ir_Type := rt_Type parent; ir_Source := rt_Source parent;
                 ir_Version := None; ir_Params := rt_Params parent; ir_Tags := rt_Tags parent |} in
            let '(getPlan, checkPlan) :=
              FetchImagePlan (ImageForType_from fuel (Without types (rt_Name parent)))
                planID imageResource stepTags skipInterval (rt_CheckEvery parent) in
            {| im_CheckPlan := set_ResourceType resourceType <$> checkPlan;
               im_GetPlan := Some getPlan;
               im_BaseType := from_option im_BaseType "" (plan_image getPlan);
               im_ImageRef := ""; im_Privileged := rt_Privileged parent |}
        end
  end.

Definition ImageForType (types : list ResourceType) : string -> string -> Tags -> bool -> TypeImage Plan :=
  ImageForType_from (length types) types.

(** ** The authority of an agent's broker (steps.go, sidecar.go) *)

Definition hex_char (c : ascii) : bool := between 48 57 (byte_of c) || between 97 102 (byte_of c).

(** What follows the last at-sign, and whether something precedes it. *)
Fixpoint after_last_at (seen : bool) (s : string) : option (bool * string) :=
  match s with
  | EmptyString => None
  | String c rest =>
      match after_last_at true rest with
      | Some r => Some r
      | None => if Ascii.eqb c "@" then Some (seen, rest) else None
      end
  end.

(** [ValidatePinnedOCIImage] *)
Definition ValidatePinnedOCIImage (image : string) : option message :=
  let unpinned := Some (Msg "image must be an OCI reference pinned to an exact sha256 digest" []) in
  match after_last_at false image with
  | Some (true, tail) =>
      match strip_prefix "sha256:" tail with
      | Some digest =>
          if negb (Z.of_nat (String.length digest) =? 64) then unpinned
          else if negb (all_chars hex_char digest) then
            Some (Msg "image digest must contain 64 lowercase hexadecimal characters" [])
          else
            match NewDigest image with
            | Some e => Some (Msg ("image is not a valid OCI digest reference: " ++ m_format e) (m_args e))
            | None => None
            end
      | None => unpinned
      end
  | _ => unpinned
  end.

Definition blank (s : string) : bool := String.eqb (TrimSpace s) "".

(** The loop of [ValidateBrokerAuthority], with the index of the first
    profile. *)
Fixpoint check_profiles (functionID : string) (index : nat) (image : string)
    (seen : gset string) (profiles : list AgentBrokerProfile) : option message :=
  match profiles with
  | [] => None
  | profile :: profiles =>
      let at_index fmt := Some (Msg fmt [pretty index]) in
      let nul := String "000" EmptyString in
      let key := (bp_Tool profile ++ nul ++ bp_Tier profile ++ nul ++ bp_Effort profile)%string in
      if negb (String.eqb (bp_FunctionID profile) functionID) || blank (bp_Tool profile) ||
         blank (bp_Tier profile) || blank (bp_Effort profile) || blank (bp_ProfileID profile) ||
         (bp_ProfileRevision profile <=? 0)
      then at_index "agent broker authority %d has invalid function scope or identity"
      else if negb match Digest_Validate (bp_ProfileDigest profile) with Ret _ => true | _ => false end
           || match strip_prefix "sha256:" (bp_ProfileDigest profile) with Some _ => false | None => true end
      then at_index "agent broker authority %d has invalid profile digest"
      else
        match ValidatePinnedOCIImage (bp_WorkerImage profile) with
        | Some e => Some (Msg ("agent broker authority %d has invalid worker image: " ++ m_format e)
                           (pretty index :: m_args e))
        | None =>
            if String.eqb (bp_Profile profile) "" || negb (json_Valid (bp_Profile profile))
            then at_index "agent broker authority %d has invalid frozen profile"
            else if bool_decide (key ∈ seen)
            then Some (Msg "agent broker authority has duplicate tool selector" [])
            else if String.eqb image "" then
              check_profiles functionID (S index) (bp_WorkerImage profile) ({[ key ]} ∪ seen) profiles
            else if negb (String.eqb image (bp_WorkerImage profile))
            then Some (Msg "agent broker authority profiles must share one worker image" [])
            else check_profiles functionID (S index) image ({[ key ]} ∪ seen) profiles
        end
  end.

Definition ValidateBrokerAuthority (step : AgentStep) : option message :=
  match a_BrokerAuthority step with
  | [] => None
  | profiles =>
      if blank (a_FunctionID step) then Some (Msg "agent broker authority requires function_id" [])
      else check_profiles (a_FunctionID step) 0 "" ∅ profiles
  end.

(** ** The visitor *)

(** [db.SchedulerResource] ([atc/db/job_factory.go]) and [db.BuildInput]. *)
Record SchedulerResource := {
  sr_Name : string;
  sr_Type : string;
  sr_Source : document;
  sr_ExposeBuildCreatedBy : bool }.

Record BuildInput := { bi_Name : string; bi_Version : option Version }.

Context (resources : list SchedulerResource) (resourceTypes : list ResourceType)
  (prototypes : list Prototype) (inputs : list BuildInput) (manuallyTriggered : bool).

(** [SchedulerResource.ApplySourceDefaults] *)
Definition ApplySourceDefaults (r : SchedulerResource) : document :=
  match ResourceTypes_Lookup (sr_Type r) resourceTypes with
  | Some parentType => Merge (rt_Defaults parentType) (sr_Source r)
  | None =>
      match baseResourceTypeDefaults !! sr_Type r with
      | Some defaults => Merge defaults (sr_Source r)
      | None => sr_Source r
      end
  end.

Definition visitTask (step : TaskStep) : planM Plan :=
  NewPlan (PlTask
    {| tp_Name := t_Name step; tp_FunctionID := t_FunctionID step; tp_Privileged := t_Privileged step;
       tp_Hermetic := t_Hermetic step; tp_Tags := t_Tags step; tp_ConfigPath := t_ConfigPath step;
       tp_Config := t_Config step; tp_Limits := t_Limits step; tp_Requests := t_Requests step;
       tp_ImageArtifactName := t_ImageArtifactName step; tp_Vars := t_Vars step;
       tp_Params := t_Params step; tp_InputMapping := t_InputMapping step;
       tp_OutputMapping := t_OutputMapping step; tp_SnapshotInputs := t_SnapshotInputs step;
       tp_SnapshotOutputs := t_SnapshotOutputs step;
       tp_DevValidationAuthority := t_DevValidationAuthority step;
       tp_MergePreflightAuthority := t_MergePreflightAuthority step;
       tp_ResourceCaptureAuthority := t_ResourceCaptureAuthority step; tp_Timeout := t_Timeout step;
       tp_ResourceTypes := resourceTypes; tp_CheckSkipInterval := manuallyTriggered;
       tp_Sidecars := t_Sidecars step |}).

Definition visitRun (step : RunStep) : planM Plan :=
  match Prototypes_Lookup (r_Type step) prototypes with
  | None => fail (UnknownPrototypeError (r_Type step))
  | Some prototype =>
      NewPlan (PlRun
        {| rp_Message := r_Message step; rp_Type := r_Type step;
           rp_Object := Merge (pt_Defaults prototype) (r_Params step);
           rp_Privileged := r_Privileged step; rp_Tags := r_Tags step; rp_Limits := r_Limits step;
           rp_Requests := r_Requests step; rp_Timeout := r_Timeout step |})
  end.

Definition visitAgent (step : AgentStep) : planM Plan :=
  match a_Capabilities step with
  | _ :: _ => fail (UnresolvedCapabilities (a_Name step))
  | [] =>
      match ValidateBrokerAuthority step with
      | Some e => fail (InvalidBrokerAuthority (a_Name step) e)
      | None =>
          NewPlan (PlAgent
            {| agp_Name := a_Name step; agp_FunctionID := a_FunctionID step;
               agp_Hermetic := a_Hermetic step; agp_RuntimeImage := a_RuntimeImage step;
               agp_Prompt := a_Prompt step; agp_Model := a_Model step; agp_MaxTurns := a_MaxTurns step;
               agp_BudgetSliceUSD := a_BudgetSliceUSD step; agp_SystemPrompt := a_SystemPrompt step;
               agp_Context := a_Context step; agp_Skills := a_Skills step;
               agp_SkillFiles := a_SkillFiles step; agp_Sidecars := a_Sidecars step;
               agp_Inputs := a_Inputs step; agp_Outputs := a_Outputs step;
               agp_InputMapping := a_InputMapping step; agp_OutputMapping := a_OutputMapping step;
               agp_SnapshotInputs := a_SnapshotInputs step;
               agp_SnapshotOutputs := a_SnapshotOutputs step; agp_Validation := a_Validation step;
               agp_ReviewValidation := a_ReviewValidation step; agp_Env := a_Env step;
               agp_Timeout := a_Timeout step; agp_Limits := a_Limits step;
               agp_Requests := a_Requests step; agp_BrokerAuthority := a_BrokerAuthority step |})
      end
  end.

Definition set_get_image (image : TypeImage Plan) (g : GetPlan Plan) : GetPlan Plan :=
  {| gp_Name := gp_Name _ g; gp_Type := gp_Type _ g; gp_Source := gp_Source _ g; gp_TypeImage := image;
     gp_Version := gp_Version _ g; gp_VersionFrom := gp_VersionFrom _ g; gp_Params := gp_Params _ g;
     gp_Resource := gp_Resource _ g; gp_Tags := gp_Tags _ g; gp_Timeout := gp_Timeout _ g;
     gp_SkipDownload := gp_SkipDownload _ g |}.

(** A get plan, and its image once its ID is known. *)
Definition new_get (g : GetPlan Plan) (resourceType : string) (tags : Tags) (skipInterval : bool) : planM Plan :=
  plan ← NewPlan (PlGet g);
  mret (MkPlan (ID plan) (PlGet
    (set_get_image (ImageForType resourceTypes (ID plan) resourceType tags skipInterval) g))).

Definition visitGet (step : GetStep) : planM Plan :=
  let resourceName := if String.eqb (g_Resource step) "" then g_Name step else g_Resource step in
  match lookup_by sr_Name resourceName resources with
  | None => fail (UnknownResourceError resourceName)
  | Some resource =>
      match lookup_by bi_Name (g_Name step) inputs ≫= bi_Version with
      | None => fail (VersionNotProvidedError (g_Name step))
      | Some version =>
          new_get
            {| gp_Name := g_Name step; gp_Type := sr_Type resource;
               gp_Source := ApplySourceDefaults resource; gp_TypeImage := base_image "";
               gp_Version := Some version; gp_VersionFrom := None; gp_Params := g_Params step;
               gp_Resource := resourceName; gp_Tags := g_Tags step; gp_Timeout := g_Timeout step;
               gp_SkipDownload := g_SkipDownload step |}
            (sr_Type resource) (g_Tags step) false
      end
  end.

Definition visitPut (step : PutStep) : planM Plan :=
  let logicalName := p_Name step in
  let resourceName := if String.eqb (p_Resource step) "" then logicalName else p_Resource step in
  match lookup_by sr_Name resourceName resources with
  | None => fail (UnknownResourceError resourceName)
  | Some resource =>
      let source := ApplySourceDefaults resource in
      let put image :=
        {| pp_Name := logicalName; pp_Type := sr_Type resource; pp_Source := source;
           pp_TypeImage := image; pp_Params := p_Params step; pp_Inputs := p_Inputs step;
           pp_Resource := resourceName; pp_Tags := p_Tags step; pp_Timeout := p_Timeout step;
           pp_ExposeBuildCreatedBy := sr_ExposeBuildCreatedBy resource |} in
      plan ← NewPlan (PlPut (put (base_image "")));
      let plan := MkPlan (ID plan) (PlPut (put
        (ImageForType resourceTypes (ID plan) (sr_Type resource) (p_Tags step) manuallyTriggered))) in
      if p_NoGet step then mret plan
      else
        dependentGetPlan ← new_get
          {| gp_Name := logicalName; gp_Type := sr_Type resource; gp_Source := source;
             gp_TypeImage := base_image ""; gp_Version := None; gp_VersionFrom := Some (ID plan);
             gp_Params := p_GetParams step; gp_Resource := resourceName; gp_Tags := p_Tags step;
             gp_Timeout := p_Timeout step; gp_SkipDownload := false |}
          (sr_Type resource) (p_Tags step) manuallyTriggered;
        NewPlan (PlOnSuccess plan dependentGetPlan)
  end.

(** The attempts of a retry: the step is visited for each. *)
Fixpoint repeatM {A} (n : nat) (m : planM A) : planM (list A) :=
  match n with
  | O => mret []
  | S n => x ← m; l ← repeatM n m; mret (x :: l)
  end.

(** [step.Visit(visitor)]: the plan it leaves in the visitor. *)
Fixpoint plan_visit (step : StepConfig) : planM Plan :=
  let all := fix all (steps : list Step) : planM (list Plan) :=
    match steps with
    | [] => mret []
    | sub :: steps => p ← plan_visit (Config sub); l ← all steps; mret (p :: l)
    end in
  let with_hook (make : Plan -> Plan -> PlanConfig Plan) step hook :=
    p ← plan_visit step; next ← plan_visit (Config hook); NewPlan (make p next) in
  match step with
  | STask step => visitTask step
  | SGet step => visitGet step
  | SPut step => visitPut step
  | SRun step => visitRun step
  | SAgent step => visitAgent step
  | SSetPipeline step => NewPlan (PlSetPipeline step)
  | SLoadVar step => NewPlan (PlLoadVar step)
  | SLoadSnapshot step => NewPlan (PlLoadSnapshot step)
  | SAwaitSnapshot step => NewPlan (PlAwaitSnapshot step)
  | SPublishSnapshot step => NewPlan (PlPublishSnapshot step)
  | STry step => p ← plan_visit (Config step); NewPlan (PlTry p)
  | SDo steps => l ← all steps; NewPlan (PlDo l)
  | SInParallel steps limit failFast => l ← all steps; NewPlan (PlInParallel l limit failFast)
  | SAcross step vars failFast =>
      p ← plan_visit step;
      match Marshal p with
      | Some template => NewPlan (PlAcross vars template failFast)
      | None => fail (MarshalError p)
      end
  | STimeout step duration => p ← plan_visit step; NewPlan (PlTimeout p duration)
  | SRetry step attempts =>
      if attempts <? 0 then fun n => (Panic, n)
      else l ← repeatM (Z.to_nat attempts) (plan_visit step); NewPlan (PlRetry l)
  | SOnSuccess step hook => with_hook PlOnSuccess step hook
  | SOnFailure step hook => with_hook PlOnFailure step hook
  | SOnAbort step hook => with_hook PlOnAbort step hook
  | SOnError step hook => with_hook PlOnError step hook
  | SEnsure step hook => with_hook PlEnsure step hook
  end.

(** [Planner.Create] *)
Definition Create (planConfig : StepConfig) : planM Plan := plan_visit planConfig.
End Planner.
