(* ===== verification/PlannerSpec.v ===== *)
(** * What the planner guarantees

    Steps the validator accepts are planned, the plan is one the engine can run,
    and every plan in it has an ID of its own. *)
From stdpp Require Import base gmap sets list strings pretty.
From Stdlib Require Import ZArith Ascii Lia.
From S2P Require Import Prelude Vars Repository Parallel Engine GoText Steps StepValidator StepValidatorSpec Planner.

Open Scope Z_scope.

(** ** The plan as the builder of steps reads it *)

Definition across_var (v : AcrossVarConfig) : AcrossVar :=
  {| av_Var := acv_Var v; av_Values := acv_Values v; av_MaxInFlight := acv_MaxInFlight v |}.

Fixpoint builder_plan (p : Plan) : Engine.Plan :=
  let 'MkPlan id config := p in
  match config with
  | PlGet _ => PCore id KGet
  | PlPut _ => PCore id KPut
  | PlCheck _ => PCore id KCheck
  | PlTask _ => PCore id KTask
  | PlRun _ => PCore id KRun
  | PlAgent a => PCore id (KAgent (match agp_BrokerAuthority a with [] => false | _ => true end))
  | PlSetPipeline _ => PCore id KSetPipeline
  | PlLoadVar _ => PCore id KLoadVar
  | PlLoadSnapshot _ => PCore id KLoadSnapshot
  | PlAwaitSnapshot _ => PCore id KAwaitSnapshot
  | PlPublishSnapshot _ => PCore id KPublishSnapshot
  | PlDo l => PDo id (map builder_plan l)
  | PlInParallel l limit failFast => PInParallel id (map builder_plan l) limit failFast
  | PlAcross vars template failFast =>
      PAcross id {| ap_Vars := across_var <$> vars; ap_SubStepTemplate := template; ap_FailFast := failFast |}
  | PlTry p => PTry id (builder_plan p)
  | PlTimeout p d => PTimeout id (builder_plan p) d
  | PlRetry l => PRetry id (map builder_plan l)
  | PlOnSuccess p q => POnSuccess id (builder_plan p) (builder_plan q)
  | PlOnFailure p q => POnFailure id (builder_plan p) (builder_plan q)
  | PlOnAbort p q => POnAbort id (builder_plan p) (builder_plan q)
  | PlOnError p q => POnError id (builder_plan p) (builder_plan q)
  | PlEnsure p q => PEnsure id (builder_plan p) (builder_plan q)
  end.

(** Nothing in the plan makes the engine fail before a step runs: durations
    parse, a retry has an attempt, an across step has vars and its limits let a
    substep run. *)
Fixpoint runnable (duration_ok : string -> bool) (p : Engine.Plan) : bool :=
  match p with
  | PCore _ _ | PNone _ => true
  | PInParallel _ l _ _ | PDo _ l => forallb (runnable duration_ok) l
  | PRetry _ l => negb (bool_decide (length l = 0%nat)) && forallb (runnable duration_ok) l
  | PAcross _ p =>
      negb (bool_decide (length (ap_Vars p) = 0%nat)) &&
      forallb (fun v => match av_MaxInFlight v with
                        | Some m => mif_All m || (0 <? mif_Limit m)
                        | None => true
                        end) (ap_Vars p)
  | PTimeout _ p d => runnable duration_ok p && duration_ok d
  | PTry _ p => runnable duration_ok p
  | POnAbort _ p q | POnError _ p q | POnSuccess _ p q | POnFailure _ p q | PEnsure _ p q =>
      runnable duration_ok p && runnable duration_ok q
  end.

Fixpoint agents (s : StepConfig) : list AgentStep :=
  match s with
  | SAgent step => [step]
  | STry s => agents (Config s)
  | SDo l | SInParallel l _ _ => concat (map (fun s => agents (Config s)) l)
  | SAcross s _ _ | STimeout s _ | SRetry s _ => agents s
  | SOnSuccess s h | SOnFailure s h | SOnAbort s h | SOnError s h | SEnsure s h =>
      agents s ++ agents (Config h)
  | _ => []
  end.

(** ** Planning succeeds *)

Section Plans.
Context `{PlannerWorld, StepChecks}.
Context (config : PipelineConfig) (resources : list SchedulerResource) (inputs : list BuildInput)
  (manuallyTriggered : bool).

Abbreviation planner :=
  (plan_visit resources (c_ResourceTypes config) (c_Prototypes config) inputs manuallyTriggered).

(** [planned m Q]: [m] returns a result with [Q], or a plan in it could not be
    encoded. *)
Definition planned {A} (m : planM A) (Q : A -> Prop) : Prop :=
  forall n, (exists a n', m n = (Ret a, n') /\ Q a) \/
            (exists p n', m n = (Fail (MarshalError p), n') /\ Marshal p = None).

Lemma planned_bind {A B} (m : planM A) (f : A -> planM B) Q R :
  planned m Q -> (forall a, Q a -> planned (f a) R) -> planned (a ← m; f a) R.
Proof.
  intros Hm Hf n. unfold mbind, stateful_bind.
  destruct (Hm n) as [(a & n1 & -> & Ha)|(p & n1 & -> & Hp)]; [by apply Hf|right; eauto].
Qed.

Lemma planned_ret {A} (a : A) (Q : A -> Prop) : Q a -> planned (mret a) Q.
Proof. intros Ha n. left. eexists _, _. split; [done|exact Ha]. Qed.

Lemma planned_new step (Q : Plan -> Prop) :
  (forall id, Q (MkPlan id step)) -> planned (NewPlan step) Q.
Proof. intros HQ n. left. eexists _, _. split; [done|apply HQ]. Qed.

Definition good (p : Plan) : Prop := runnable duration_ok (builder_plan p) = true.

Lemma planned_weaken {A} (m : planM A) (Q R : A -> Prop) :
  planned m Q -> (forall a, Q a -> R a) -> planned m R.
Proof. intros Hm HQR n. destruct (Hm n) as [(a & n' & ? & ?)|?]; [left|by right]. eauto 6. Qed.

Lemma planned_get g t tags skip : planned (new_get (c_ResourceTypes config) g t tags skip) good.
Proof.
  unfold new_get. apply (planned_bind _ _ (fun _ => True)); [by apply planned_new|].
  intros p _. by apply planned_ret.
Qed.

Definition plan_all : list Step -> planM (list Plan) :=
  fix all (steps : list Step) : planM (list Plan) :=
    match steps with
    | [] => mret []
    | sub :: steps => p ← planner (Config sub); l ← all steps; mret (p :: l)
    end.

Lemma planned_all l :
  Forall (fun s => planned (planner (Config s)) good) l -> planned (plan_all l) (Forall good).
Proof.
  induction 1 as [|s l Hs _ IH]; cbn [plan_all]; [by apply planned_ret|].
  eapply planned_bind; [exact Hs|]. intros p Hp. eapply planned_bind; [exact IH|].
  intros ps Hps. apply planned_ret. by constructor.
Qed.

Lemma planned_repeat n (m : planM Plan) :
  planned m good -> planned (repeatM n m) (fun l => Forall good l /\ length l = n).
Proof.
  intros Hm. induction n as [|n IH]; cbn [repeatM]; [by apply planned_ret|].
  eapply planned_bind; [exact Hm|]. intros p Hp. eapply planned_bind; [exact IH|].
  intros ps [Hps <-]. apply planned_ret. split; [by constructor|done].
Qed.

Lemma good_forallb l : Forall good l -> forallb (runnable duration_ok) (map builder_plan l) = true.
Proof. intros Hl. apply forallb_forall. intros q (p & <- & Hp)%in_map_iff. rewrite Forall_forall in Hl.
  apply Hl. by apply list_elem_of_In. Qed.

(** What the planner is given besides the configuration: the resources of the
    pipeline, a version for every get, and broker authorities that the renderer
    made. *)
Record provided (s : StepConfig) : Prop := {
  pv_resources name : is_Some (ResourceConfigs_Lookup name (c_Resources config)) ->
    is_Some (lookup_by sr_Name name resources);
  pv_inputs g : inl g ∈ ios s -> is_Some (lookup_by bi_Name (g_Name g) inputs ≫= bi_Version);
  pv_agents a : a ∈ agents s -> a_BrokerAuthorityTrusted a = true -> ValidateBrokerAuthority a = None }.

Lemma provided_sub s s' :
  (forall x, x ∈ ios s' -> x ∈ ios s) -> (forall a, a ∈ agents s' -> a ∈ agents s) ->
  provided s -> provided s'.
Proof. intros Hi Ha [R I A]. split; eauto. Qed.

Lemma provided_list (l : list Step) (f : list Step -> StepConfig) s' :
  ios (f l) = concat (map (fun s => ios (Config s)) l) ->
  agents (f l) = concat (map (fun s => agents (Config s)) l) ->
  s' ∈ l -> provided (f l) -> provided (Config s').
Proof.
  intros Hi Ha Hs. apply provided_sub.
  - intros x Hx. rewrite Hi, elem_of_concat. eexists. split; [|exact Hx].
    apply list_elem_of_In, in_map_iff. exists s'. by rewrite <- list_elem_of_In.
  - intros x Hx. rewrite Ha, elem_of_concat. eexists. split; [|exact Hx].
    apply list_elem_of_In, in_map_iff. exists s'. by rewrite <- list_elem_of_In.
Qed.

Lemma resource_name r n : (if negb (String.eqb r "") then r else n) = (if String.eqb r "" then n else r).
Proof. by destruct (String.eqb r ""). Qed.

Lemma planned_visitGet step :
  provided (SGet step) -> checked config (SGet step) ->
  planned (visitGet resources (c_ResourceTypes config) inputs step) good.
Proof.
  intros [R I _] [[c Hc] _]. unfold visitGet. unfold GetStep_ResourceName in Hc. rewrite resource_name in Hc.
  destruct (R _ ltac:(by eexists)) as [r Hr]. setoid_rewrite Hr.
  destruct (I step) as [ver Hver]; [cbn; set_solver|]. rewrite Hver. apply planned_get.
Qed.

Lemma planned_visitPut step :
  provided (SPut step) -> checked config (SPut step) ->
  planned (visitPut resources (c_ResourceTypes config) manuallyTriggered step) good.
Proof.
  intros [R _ _] [c Hc]. unfold visitPut. unfold PutStep_ResourceName in Hc. rewrite resource_name in Hc.
  destruct (R _ ltac:(by eexists)) as [r Hr]. setoid_rewrite Hr. cbv zeta.
  eapply (planned_bind _ _ (fun _ => True)); [by apply planned_new|]. intros p _.
  destruct (p_NoGet step); [by apply planned_ret|].
  eapply planned_bind; [apply planned_get|]. intros g Hg. apply planned_new. intros id.
  unfold good. cbn. exact Hg.
Qed.

Lemma planned_visitAgent step :
  provided (SAgent step) -> checked config (SAgent step) -> planned (visitAgent step) good.
Proof.
  intros [_ _ A] [Hcap Htrust]. unfold visitAgent. rewrite Hcap.
  destruct (decide (a_BrokerAuthority step = [])) as [Hnil|Hne].
  - unfold ValidateBrokerAuthority. rewrite Hnil. by apply planned_new.
  - rewrite (A step); [by apply planned_new|cbn; set_solver|by apply Htrust].
Qed.

Lemma checked_list l s :
  s ∈ l -> foldr (fun s P => checked config (Config s) /\ P) True l -> checked config (Config s).
Proof. induction l as [|x l IH]; cbn; [set_solver|]. rewrite elem_of_cons. intros [->|Hs] [Hx Hl]; auto. Qed.

Lemma planned_visit s : provided s -> checked config s -> planned (planner s) good.
Proof.
  assert (Hhook : forall make p q,
    planned (planner p) good -> planned (planner (Config q)) good ->
    (forall id x y, good x -> good y -> good (MkPlan id (make x y))) ->
    planned (x ← planner p; y ← planner (Config q); NewPlan (make x y)) good).
  { intros make p q Hp Hq Hmake. eapply planned_bind; [exact Hp|]. intros x Hx.
    eapply planned_bind; [exact Hq|]. intros y Hy. apply planned_new. auto. }
  induction s using step_ind; intros Hpv Hck; cbn [plan_visit].
  all: try (by apply planned_new).
  all: try (destruct Hck as [Hck1 Hck2]; apply Hhook;
    [apply IHs; [|done]; eapply provided_sub; [| |exact Hpv]; intros x Hx; apply elem_of_app; by left
    |apply IHs0; [|done]; eapply provided_sub; [| |exact Hpv]; intros x Hx; apply elem_of_app; by right
    |intros id x y Hx Hy; unfold good; cbn; unfold good in Hx, Hy; by rewrite Hx, Hy]).
  - by apply planned_visitGet.
  - by apply planned_visitPut.
  - destruct Hck as [pt Hpt]. unfold visitRun. rewrite Hpt. by apply planned_new.
  - by apply planned_visitAgent.
  - eapply planned_bind; [apply IHs; [|done]; by eapply provided_sub; [| |exact Hpv]|].
    intros p Hp. by apply planned_new.
  - eapply planned_bind; [apply planned_all|].
    + apply Forall_forall. intros s Hs. rewrite Forall_forall in H1. apply H1; [done| |].
      * by eapply (provided_list l SDo).
      * by eapply checked_list.
    + intros ps Hps. apply planned_new. intros id. unfold good. cbn. by apply good_forallb.
  - eapply planned_bind; [apply planned_all|].
    + apply Forall_forall. intros s Hs. rewrite Forall_forall in H1. apply H1; [done| |].
      * by eapply (provided_list l (fun l => SInParallel l n f)).
      * by eapply checked_list.
    + intros ps Hps. apply planned_new. intros id. unfold good. cbn. by apply good_forallb.
  - destruct Hck as (Hne & Hlim & Hck).
    eapply planned_bind; [apply IHs; [|done]; by eapply provided_sub; [| |exact Hpv]|].
    intros p Hp. destruct (Marshal p) as [t|] eqn:Hm.
    + apply planned_new. intros id. unfold good. cbn -[length]. apply andb_true_iff. split.
      * apply negb_true_iff, bool_decide_eq_false. rewrite length_fmap. by destruct vars.
      * apply forallb_forall. intros v (w & <- & Hw)%in_map_iff. rewrite Forall_forall in Hlim.
        specialize (Hlim w ltac:(by apply list_elem_of_In)). cbn.
        destruct (acv_MaxInFlight w) as [m|]; [|done]. destruct (mif_All m); [done|]. cbn.
        apply Z.ltb_lt. auto.
    + intros n. right. eexists p, n. done.
  - destruct Hck as [Hck Hd].
    eapply planned_bind; [apply IHs; [|done]; by eapply provided_sub; [| |exact Hpv]|].
    intros p Hp. apply planned_new. intros id. unfold good in *. cbn. by rewrite Hp, Hd.
  - destruct Hck as [Hck Hn]. rewrite (proj2 (Z.ltb_ge n 0)) by lia.
    eapply planned_bind; [apply planned_repeat, IHs; [|done]; by eapply provided_sub; [| |exact Hpv]|].
    intros ps [Hps Hlen]. apply planned_new. intros id. unfold good. cbn -[length].
    apply andb_true_iff. split; [|by apply good_forallb].
    apply negb_true_iff, bool_decide_eq_false. rewrite length_map, Hlen. lia.
Qed.
End Plans.

(** ** IDs *)

(** The number an ID starts with. *)
Definition hex_value (c : ascii) : option Z :=
  let b := byte_of c in
  if between 48 57 b then Some (b - 48) else if between 97 102 b then Some (b - 87) else None.

Fixpoint unhex (acc : Z) (s : string) : Z :=
  match s with
  | EmptyString => acc
  | String c s => match hex_value c with Some d => unhex (16 * acc + d) s | None => acc end
  end.

Lemma hex_value_digit d : 0 <= d < 16 -> hex_value (hex_digit d) = Some d.
Proof.
  intros Hd. assert (d ∈ [0;1;2;3;4;5;6;7;8;9;10;11;12;13;14;15]) as Hin.
  { rewrite !elem_of_cons. lia. }
  revert Hin. rewrite !elem_of_cons, elem_of_nil. intros Hin.
  repeat destruct Hin as [->|Hin]; done.
Qed.

Lemma unhex_digits fuel n acc :
  0 <= n < 16 ^ Z.of_nat fuel -> unhex 0 (hex_digits fuel n acc) = unhex n acc.
Proof.
  revert n acc. induction fuel as [|fuel IH]; intros n acc Hn; [by replace n with 0 by (cbn in Hn; lia)|].
  cbn [hex_digits]. rewrite Nat2Z.inj_succ, Z.pow_succ_r in Hn by lia.
  pose proof (Z.mod_pos_bound n 16 eq_refl) as Hm. destruct (Z.ltb_spec n 16).
  - cbn [unhex]. rewrite hex_value_digit by done. f_equal. rewrite Z.mod_small; lia.
  - rewrite IH.
    + cbn [unhex]. rewrite hex_value_digit by done. f_equal. pose proof (Z.div_mod n 16). lia.
    + split; [apply Z.div_pos; lia|]. apply Z.div_lt_upper_bound; lia.
Qed.

Lemma hex_digits_app fuel n acc s :
  (hex_digits fuel n acc ++ s)%string = hex_digits fuel n (acc ++ s)%string.
Proof.
  revert n acc. induction fuel as [|fuel IH]; intros n acc; [done|]. cbn [hex_digits].
  destruct (n <? 16); [done|]. by rewrite IH.
Qed.

Lemma unhex_hex n : 0 <= n < two63 -> unhex 0 (hex n) = n.
Proof.
  intros Hn. unfold hex. rewrite (proj2 (Z.ltb_ge n 0)) by lia. rewrite unhex_digits; [done|].
  unfold two63 in Hn. change (16 ^ Z.of_nat 16) with (2 ^ 64). lia.
Qed.

(** What follows a slash does not count. *)
Lemma unhex_slash acc s r : unhex acc (s ++ String "/" r)%string = unhex acc s.
Proof.
  revert acc. induction s as [|c s IH]; intros acc; [done|].
  change (String c s ++ String "/" r)%string with (String c (s ++ String "/" r)). cbn [unhex].
  by destruct (hex_value c).
Qed.

Lemma AddInt64_next n : 0 <= n < two63 - 1 -> AddInt64 n 1 = n + 1.
Proof. intros Hn. unfold AddInt64. rewrite Z.mod_small; unfold two63 in *; lia. Qed.

Definition ids (p : Plan) : list string := ID <$> Each p.

Definition image_ids (t : TypeImage Plan) : list string :=
  from_option ids [] (im_CheckPlan t) ++ from_option ids [] (im_GetPlan t).

Definition sub_ids (config : PlanConfig Plan) : list string :=
  match config with
  | PlDo l | PlInParallel l _ _ | PlRetry l => concat (ids <$> l)
  | PlOnSuccess p q | PlOnFailure p q | PlOnAbort p q | PlOnError p q | PlEnsure p q => ids p ++ ids q
  | PlTry p | PlTimeout p _ => ids p
  | PlGet g => image_ids (gp_TypeImage g)
  | PlPut g => image_ids (pp_TypeImage g)
  | PlCheck g => image_ids (ck_TypeImage g)
  | _ => []
  end.

Lemma ids_eq id config : ids (MkPlan id config) = id :: sub_ids config.
Proof.
  assert (Hall : forall l, ID <$> (fix each (l : list Plan) : list Plan :=
    match l with [] => [] | p :: l => Each p ++ each l end) l = concat (ids <$> l)).
  { induction l as [|p l IH]; [done|]. rewrite fmap_app, IH. done. }
  assert (Himg : forall t, ID <$> (match im_CheckPlan t with Some p => Each p | None => [] end ++
    match im_GetPlan t with Some p => Each p | None => [] end) = image_ids t).
  { intros t. rewrite fmap_app. unfold image_ids. by destruct (im_CheckPlan t), (im_GetPlan t). }
  unfold ids. destruct config; cbn [Each sub_ids]; rewrite fmap_cons; f_equal; auto; by rewrite ?fmap_app.
Qed.

(** The plans of an image have IDs that extend the ID of the step's plan, one
    way for the check and another for the get. *)
Definition extends (planID kind i : string) : Prop := exists r, i = (planID ++ kind ++ r)%string.

Lemma extends_disjoint planID i :
  extends planID "/image-check" i -> extends planID "/image-get" i -> False.
Proof. intros (r & ->) (r' & Heq%string_app_inj). done. Qed.

Lemma string_app_longer (a : string) c b : (a ++ String c b)%string <> a.
Proof. intros Heq. rewrite <- (string_app_nil a) in Heq at 2. by apply string_app_inj in Heq. Qed.

Section Ids.
Context `{PlannerWorld, StepChecks}.

Lemma ids_set_ResourceType t p : ids (set_ResourceType t p) = ids p.
Proof. destruct p as [id []]; cbn; rewrite ?ids_eq; done. Qed.

Definition image_ok (planID : string) (t : TypeImage Plan) : Prop :=
  NoDup (image_ids t) /\
  Forall (fun i => extends planID "/image-check" i \/ extends planID "/image-get" i) (image_ids t).

Lemma image_ok_node planID kind config t :
  kind = "/image-check"%string \/ kind = "/image-get"%string ->
  sub_ids config = image_ids t -> image_ok (planID ++ kind) t ->
  NoDup (ids (MkPlan (planID ++ kind) config)) /\
  Forall (extends planID kind) (ids (MkPlan (planID ++ kind) config)).
Proof.
  intros Hk Hsub [Hnd Hall]. rewrite ids_eq, Hsub. split.
  - constructor; [|done]. intros Hin. rewrite Forall_forall in Hall.
    destruct (Hall _ Hin) as [(r & Heq)|(r & Heq)]; symmetry in Heq; by apply string_app_longer in Heq.
  - constructor; [exists ""; by rewrite string_app_nil|].
    eapply Forall_impl; [exact Hall|].
    intros i [(r & ->)|(r & ->)]; eexists; by rewrite string_app_assoc.
Qed.

Lemma ImageForType_ok fuel types planID t tags skip :
  image_ok planID (ImageForType_from fuel types planID t tags skip).
Proof.
  revert types planID t tags. induction fuel as [|fuel IH]; intros types planID t tags;
    cbn [ImageForType_from]; destruct (ResourceTypes_Lookup t types) as [parent|];
    try (by split; [apply NoDup_nil_2|]); destruct (negb _); try (by split; [apply NoDup_nil_2|]).
  cbn [FetchImagePlan ir_Version fst snd]. unfold image_ok, image_ids. cbn [im_CheckPlan im_GetPlan fmap option_fmap option_map from_option].
  rewrite ids_set_ResourceType.
  match goal with |- NoDup (ids (MkPlan _ (PlCheck ?c)) ++ ids (MkPlan _ (PlGet ?g))) /\ _ =>
    destruct (image_ok_node planID "/image-check" (PlCheck c) (ck_TypeImage c)) as [N1 F1];
      [by left|reflexivity|apply IH|];
    destruct (image_ok_node planID "/image-get" (PlGet g) (gp_TypeImage g)) as [N2 F2];
      [by right|reflexivity|apply IH|]
  end.
  split.
  - apply NoDup_app. split; [exact N1|]. split; [|exact N2].
    intros i Hi1 Hi2. rewrite Forall_forall in F1, F2. eapply extends_disjoint; [by apply F1|by apply F2].
  - apply Forall_app. split; (eapply Forall_impl; [eassumption|]); [by left|by right].
Qed.

Lemma Without_shorter t types parent :
  ResourceTypes_Lookup t types = Some parent ->
  (length (Without types (rt_Name parent)) < length types)%nat.
Proof.
  intros Hl. assert (Hin : parent ∈ types).
  { revert Hl. unfold ResourceTypes_Lookup. induction types as [|x l IH]; cbn; [done|].
    destruct (String.eqb _ _); [intros [= <-]|intros ?%IH]; set_solver. }
  apply length_filter_lt with parent; [done|]. rewrite String.eqb_refl. by intros [].
Qed.

(** More fuel than types does not change an image. *)
Lemma ImageForType_enough fuel fuel' types planID t tags skip :
  (length types <= fuel)%nat -> (length types <= fuel')%nat ->
  ImageForType_from fuel types planID t tags skip = ImageForType_from fuel' types planID t tags skip.
Proof.
  revert fuel' types planID t tags. induction fuel as [|fuel IH]; intros fuel' types planID t tags Hf Hf'.
  { destruct types; [|cbn in Hf; lia]. by destruct fuel'. }
  destruct fuel' as [|fuel']; [destruct types; [done|cbn in Hf'; lia]|].
  cbn [ImageForType_from]. destruct (ResourceTypes_Lookup t types) as [parent|] eqn:Hl; [|done].
  apply Without_shorter in Hl. destruct (negb _); [done|].
  unfold FetchImagePlan. cbn [ir_Version]. by rewrite !(IH fuel' (Without types _)) by lia.
Qed.

(** [ids_in lo hi l]: distinct IDs whose numbers are above [lo], up to [hi]. *)
Definition ids_in (lo hi : Z) (l : list string) : Prop :=
  NoDup l /\ Forall (fun i => lo < unhex 0 i <= hi) l.

Lemma ids_in_app a b c l l' : a <= b <= c -> ids_in a b l -> ids_in b c l' -> ids_in a c (l ++ l').
Proof.
  intros Hle [N1 F1] [N2 F2]. split.
  - apply NoDup_app. split; [done|]. split; [|done]. intros i Hi Hi'. rewrite Forall_forall in F1, F2.
    specialize (F1 _ Hi). specialize (F2 _ Hi'). cbn in *. lia.
  - apply Forall_app. split; eapply Forall_impl; eauto; cbn; lia.
Qed.

Lemma ids_in_node a b id config :
  a <= b -> unhex 0 id = b + 1 -> ids_in a b (sub_ids config) -> ids_in a (b + 1) (ids (MkPlan id config)).
Proof.
  intros Hab Hid [N F]. rewrite ids_eq. split; constructor; try done.
  - intros Hin. rewrite Forall_forall in F. specialize (F _ Hin). cbn in F. lia.
  - lia.
  - eapply Forall_impl; [exact F|]. cbn. lia.
Qed.

(** The IDs of a step's image are those of its plan, extended. *)
Lemma ids_in_image a id config t :
  a < unhex 0 id -> sub_ids config = image_ids t -> image_ok id t ->
  ids_in a (unhex 0 id) (ids (MkPlan id config)).
Proof.
  intros Ha Hsub [N F]. rewrite ids_eq, Hsub. rewrite Forall_forall in F. split.
  - constructor; [|done]. intros Hin.
    destruct (F _ Hin) as [(r & Heq)|(r & Heq)]; symmetry in Heq; by apply string_app_longer in Heq.
  - constructor; [lia|]. apply Forall_forall. intros i Hi.
    assert (unhex 0 i = unhex 0 id) as ->; [|lia].
    destruct (F _ Hi) as [(r & ->)|(r & ->)]; apply unhex_slash.
Qed.

(** How many plans a step takes. *)
Fixpoint plan_count (s : StepConfig) : Z :=
  match s with
  | SPut _ => 3
  | STry s => plan_count (Config s) + 1
  | SDo l | SInParallel l _ _ => foldr (fun s n => plan_count (Config s) + n) 0 l + 1
  | SAcross s _ _ | STimeout s _ => plan_count s + 1
  | SRetry s n => Z.max 0 n * plan_count s + 1
  | SOnSuccess s h | SOnFailure s h | SOnAbort s h | SOnError s h | SEnsure s h =>
      plan_count s + plan_count (Config h) + 1
  | _ => 1
  end.

(** [numbers m c Q]: a run of [m] moves the counter by at most [c] and returns a
    result that [Q] relates to the counter before and after. *)
Definition numbers {A} (m : planM A) (c : Z) (Q : Z -> Z -> A -> Prop) : Prop :=
  forall n a n', 0 <= n -> n + c < two63 -> m n = (Ret a, n') -> n <= n' <= n + c /\ Q n n' a.

Lemma numbers_bind {A B} (m : planM A) (f : A -> planM B) c d Q (R : Z -> Z -> B -> Prop) :
  0 <= d -> numbers m c Q ->
  (forall a n, numbers (f a) d (fun n1 n2 b => n <= n1 -> Q n n1 a -> R n n2 b)) ->
  numbers (a ← m; f a) (c + d) R.
Proof.
  intros Hd Hm Hf n b n' Hn Hlt. unfold mbind, stateful_bind.
  destruct (m n) as [[a|e| |] n1] eqn:Hmn; try done. intros Hfa.
  destruct (Hm n a n1 Hn) as [Hle HQ]; [lia|done|].
  destruct (Hf a n n1 b n') as [Hle' HR]; [lia|lia|done|]. split; [lia|]. apply HR; [lia|done].
Qed.

Lemma numbers_weaken {A} (m : planM A) c Q (R : Z -> Z -> A -> Prop) :
  numbers m c Q -> (forall n n' a, 0 <= n -> n <= n' -> Q n n' a -> R n n' a) -> numbers m c R.
Proof. intros Hm HQR n a n' Hn Hlt Hr. destruct (Hm n a n' Hn Hlt Hr). split; [done|]. apply HQR; lia || done. Qed.

Lemma numbers_ret {A} (a : A) (Q : Z -> Z -> A -> Prop) : (forall n, Q n n a) -> numbers (mret a) 0 Q.
Proof. intros HQ n b n' Hn _ [= <- <-]. split; [lia|apply HQ]. Qed.

Lemma numbers_new config (Q : Z -> Z -> Plan -> Prop) :
  (forall n id, 0 <= n -> unhex 0 id = n + 1 -> Q n (n + 1) (MkPlan id config)) -> numbers (NewPlan config) 1 Q.
Proof.
  intros HQ n a n' Hn Hlt [= <- <-]. rewrite AddInt64_next by lia. split; [lia|].
  apply HQ; [done|]. apply unhex_hex. lia.
Qed.

Definition planned_ids (n n' : Z) (p : Plan) : Prop := ids_in n n' (ids p).

Lemma ids_in_nil n : ids_in n n [].
Proof. split; [apply NoDup_nil_2|done]. Qed.

(** A plan made last, around what was planned before it. *)
Lemma numbers_node config lo (Q : Z -> Prop) :
  (forall n, lo <= n -> Q n -> ids_in lo n (sub_ids config)) ->
  numbers (NewPlan config) 1 (fun n1 n2 p => lo <= n1 -> Q n1 -> planned_ids lo n2 p).
Proof. intros Hsub. apply numbers_new. intros n id Hn Hid Hle HQ. apply ids_in_node; auto. Qed.

Lemma numbers_leaf config : sub_ids config = [] -> numbers (NewPlan config) 1 planned_ids.
Proof.
  intros Hsub. apply numbers_new. intros n id Hn Hid. apply ids_in_node; [lia|done|].
  rewrite Hsub. apply ids_in_nil.
Qed.

Lemma numbers_get types g t tags skip : numbers (new_get types g t tags skip) 1 planned_ids.
Proof.
  change 1 with (1 + 0).
  eapply (numbers_bind _ _ _ _ (fun n n' p => unhex 0 (ID p) = n + 1 /\ n' = n + 1)); [done| |].
  { by apply numbers_new. }
  intros [id config] lo. apply numbers_ret. intros n Hle [Hid ->]. cbn in *. unfold planned_ids.
  rewrite <- Hid. eapply ids_in_image; [lia|reflexivity|apply ImageForType_ok].
Qed.

Section Visit.
Context (resources : list SchedulerResource) (types : list ResourceType)
  (prototypes : list Prototype) (inputs : list BuildInput) (manual : bool).

Lemma numbers_fail {A} e c (Q : Z -> Z -> A -> Prop) : numbers (fail e) c Q.
Proof. done. Qed.

Lemma numbers_put step : numbers (visitPut resources types manual step) 3 planned_ids.
Proof.
  unfold visitPut. destruct (lookup_by _ _ _) as [r|]; [|done]. cbv zeta. change 3 with (1 + 2).
  eapply (numbers_bind _ _ _ _ (fun n n' p => unhex 0 (ID p) = n + 1 /\ n' = n + 1)); [done| |].
  { by apply numbers_new. }
  intros [id config] lo. cbn [ID].
  assert (Hput : forall c t, sub_ids c = image_ids t -> image_ok id t -> unhex 0 id = lo + 1 ->
    ids_in lo (lo + 1) (ids (MkPlan id c))).
  { intros c t Hc Ht Hid. rewrite <- Hid. eapply ids_in_image; [lia|done..]. }
  destruct (p_NoGet step).
  - intros n a n' Hn Hlt [= <- <-]. split; [lia|]. intros Hle [Hid ->].
    eapply Hput; [reflexivity|apply ImageForType_ok|done].
  - change 2 with (1 + 1). eapply numbers_bind; [done|apply numbers_get|]. intros g n0.
    apply numbers_new. intros n id' Hn Hid' Hle Hg Hlo [Hid ->].
    apply ids_in_node; [lia|done|]. cbn [sub_ids].
    eapply ids_in_app; [| |exact Hg]; [lia|].
    eapply Hput; [reflexivity|apply ImageForType_ok|done].
Qed.

Abbreviation visit_plan := (plan_visit resources types prototypes inputs manual).

Definition planned_list (n n' : Z) (l : list Plan) : Prop := ids_in n n' (concat (ids <$> l)).

Lemma numbers_cons (m : planM Plan) (ms : planM (list Plan)) c d :
  0 <= d -> numbers m c planned_ids -> numbers ms d planned_list ->
  numbers (p ← m; l ← ms; mret (p :: l)) (c + d) planned_list.
Proof.
  intros Hd Hm Hms. eapply numbers_bind; [done|exact Hm|]. intros p lo.
  replace d with (d + 0) by lia. eapply numbers_bind; [done|exact Hms|]. intros l n1.
  apply numbers_ret. intros n2 Hle Hl Hlo Hp. unfold planned_list. cbn.
  eapply ids_in_app; [|exact Hp|exact Hl]. lia.
Qed.

Lemma plan_count_nonneg s : 0 <= plan_count s.
Proof.
  assert (Hl : forall l, Forall (fun s => 0 <= plan_count (Config s)) l ->
    0 <= foldr (fun s n => plan_count (Config s) + n) 0 l).
  { induction 1; cbn; lia. }
  induction s using step_ind; cbn [plan_count]; try lia;
    try (match goal with H : Forall _ _ |- _ => specialize (Hl _ H) end; lia).
Qed.

Lemma numbers_all l :
  Forall (fun s => numbers (visit_plan (Config s)) (plan_count (Config s)) planned_ids) l ->
  numbers ((fix all (steps : list Step) : planM (list Plan) :=
    match steps with
    | [] => mret []
    | sub :: steps => p ← visit_plan (Config sub); l ← all steps; mret (p :: l)
    end) l) (foldr (fun s n => plan_count (Config s) + n) 0 l) planned_list.
Proof.
  induction 1 as [|s l Hs _ IH]; cbn [foldr]; [apply numbers_ret; intros; apply ids_in_nil|].
  apply numbers_cons; [|done|done].
  clear. induction l as [|x l IH]; cbn; [lia|]. pose proof (plan_count_nonneg (Config x)). lia.
Qed.

Lemma numbers_repeat k (m : planM Plan) c :
  0 <= c -> numbers m c planned_ids -> numbers (repeatM k m) (Z.of_nat k * c) planned_list.
Proof.
  intros Hc Hm. induction k as [|k IH]; cbn [repeatM].
  - apply numbers_ret. intros; apply ids_in_nil.
  - replace (Z.of_nat (S k) * c) with (c + Z.of_nat k * c) by lia. apply numbers_cons; [lia|done|done].
Qed.

Lemma numbers_wrap {A} (m : planM A) (make : A -> PlanConfig Plan) c (Q : Z -> Z -> A -> Prop) :
  numbers m c Q -> (forall n n' a, Q n n' a -> ids_in n n' (sub_ids (make a))) ->
  numbers (a ← m; NewPlan (make a)) (c + 1) planned_ids.
Proof.
  intros Hm Hmake. eapply numbers_bind; [done|exact Hm|]. intros a lo.
  apply (numbers_node _ _ (fun n => Q lo n a)). intros n Hle HQ. by apply Hmake.
Qed.

Lemma numbers_hook s h make :
  (forall p q, sub_ids (make p q) = ids p ++ ids q) ->
  numbers (visit_plan s) (plan_count s) planned_ids ->
  numbers (visit_plan (Config h)) (plan_count (Config h)) planned_ids ->
  numbers (p ← visit_plan s; q ← visit_plan (Config h); NewPlan (make p q))
    (plan_count s + plan_count (Config h) + 1) planned_ids.
Proof.
  intros Hmake Hs Hh. rewrite <- Z.add_assoc.
  eapply numbers_bind; [pose proof (plan_count_nonneg (Config h)); lia|exact Hs|]. intros p lo.
  eapply numbers_bind; [done|exact Hh|]. intros q n1. apply numbers_new.
  intros n id Hn Hid Hle Hq Hlo Hp. apply ids_in_node; [lia|done|]. rewrite Hmake.
  eapply ids_in_app; [|exact Hp|exact Hq]. lia.
Qed.

Lemma numbers_visit s : numbers (visit_plan s) (plan_count s) planned_ids.
Proof.
  induction s using step_ind; cbn [plan_visit plan_count].
  all: try (by apply numbers_leaf).
  all: try (by apply numbers_hook).
  - unfold visitGet. destruct (lookup_by _ _ _); [|done]. destruct (_ ≫= bi_Version); [|done]. apply numbers_get.
  - apply numbers_put.
  - unfold visitRun. destruct (Prototypes_Lookup _ _); [|done]. by apply numbers_leaf.
  - unfold visitAgent. destruct (a_Capabilities _); [|done]. destruct (ValidateBrokerAuthority _); [done|].
    by apply numbers_leaf.
  - by apply (numbers_wrap _ PlTry _ planned_ids).
  - apply (numbers_wrap _ PlDo _ planned_list); [by apply numbers_all|done].
  - apply (numbers_wrap _ (fun l => PlInParallel l n f) _ planned_list); [by apply numbers_all|done].
  - eapply numbers_bind; [done|exact IHs|]. intros p lo. destruct (Marshal p); [|done].
    apply numbers_new. intros n id Hn Hid Hle Hp. apply ids_in_node; [lia|done|].
    split; [apply NoDup_nil_2|done].
  - by apply (numbers_wrap _ (fun p => PlTimeout p d) _ planned_ids).
  - destruct (n <? 0) eqn:Hn; [done|]. apply Z.ltb_ge in Hn.
    apply (numbers_wrap _ PlRetry _ planned_list); [|done].
    rewrite Z.max_r by lia. rewrite <- (Z2Nat.id n Hn) at 2.
    apply numbers_repeat; [apply plan_count_nonneg|done].
Qed.
End Visit.
End Ids.

(** C23: Every plan of a build has an ID of its own: the plans a step is turned
    into, those of each attempt and those that check and fetch the images of
    custom resource types included, have pairwise different IDs, all numbered
    after the counter of the factory, as long as the counter does not overflow. *)
Theorem plan_ids_unique `{PlannerWorld, StepChecks} resources types prototypes inputs manual step n plan n' :
  0 <= n -> n + plan_count step < two63 ->
  Create resources types prototypes inputs manual step n = (Ret plan, n') ->
  NoDup (ID <$> Each plan) /\ Forall (fun i => n < unhex 0 i <= n') (ID <$> Each plan) /\
  n' <= n + plan_count step.
Proof.
  intros Hn Hlt Hc. destruct (numbers_visit resources types prototypes inputs manual step n plan n')
    as [Hle [Hnd Hall]]; [done..|]. split; [done|]. split; [done|lia].
Qed.

(** ** A pipeline *)

Module Example.

#[export] Instance checks : StepChecks := {
  letter _ := false;
  duration_ok d := String.eqb d "1h";
  json_Valid _ := true;
  ValidateAuthoredMergeIntent _ := None;
  publication_Validate _ := None }.

#[export] Instance world : PlannerWorld := {
  Marshal p := Some (ID p);
  NewDigest _ := None;
  baseResourceTypeDefaults := ∅;
  DefaultCheckInterval := 60 }.

Definition get (name : string) : Step :=
  MkStep (SGet {| g_Name := name; g_Resource := ""; g_Version := None; g_Params := None;
                  g_Passed := []; g_Trigger := true; g_Tags := []; g_Timeout := "";
                  g_SkipDownload := false |}) [].
Definition put (name : string) : Step :=
  MkStep (SPut {| p_Name := name; p_Resource := ""; p_Params := None; p_Inputs := None; p_Tags := [];
                  p_GetParams := None; p_Timeout := ""; p_NoGet := false |}) [].
Definition set_pipeline (name : string) : StepConfig :=
  SSetPipeline {| sp_Name := name; sp_File := "src/pipeline.yml"; sp_Team := ""; sp_Vars := None;
                  sp_VarFiles := []; sp_InstanceVars := None |}.

Definition resource (name type : string) : ResourceConfig :=
  {| rc_Name := name; rc_OldName := ""; rc_Public := false; rc_WebhookToken := ""; rc_Type := type;
     rc_Source := None; rc_CheckEvery := None; rc_CheckTimeout := ""; rc_Tags := [];
     rc_Version := None; rc_Icon := ""; rc_ExposeBuildCreatedBy := false |}.
Definition resource_type (name type : string) : ResourceType :=
  {| rt_Name := name; rt_Type := type; rt_Image := ""; rt_Source := None; rt_Defaults := None;
     rt_Privileged := false; rt_CheckEvery := None; rt_Tags := []; rt_Params := None |}.

(** A custom type on top of another one, a get, a put attempted twice in an hour,
    a pipeline set for each of the values of a var. *)
Definition job : JobConfig :=
  {| jc_Name := "ship"; jc_OldName := ""; jc_Public := false; jc_DisableManualTrigger := false;
     jc_Serial := false; jc_Interruptible := false; jc_SerialGroups := []; jc_RawMaxInFlight := 0;
     jc_BuildLogsToRetain := 0; jc_BuildLogRetention := None; jc_OnSuccess := None;
     jc_OnFailure := None; jc_OnAbort := None; jc_OnError := None;
     jc_Ensure := Some (MkStep (STry (put "chat")) []);
     jc_PlanSequence :=
       [get "src";
        MkStep (SInParallel [MkStep (SRetry (STimeout (Config (put "app")) "1h") 2) []] 1 true) [];
        MkStep (SAcross (set_pipeline "((region))")
          [{| acv_Var := "region"; acv_Values := VList [VStr "eu"; VStr "us"];
              acv_MaxInFlight := Some {| mif_All := false; mif_Limit := 1 |} |}] false) []] |}.

Definition config : PipelineConfig :=
  {| c_Groups := []; c_VarSources := [];
     c_Resources := [resource "src" "git"; resource "app" "bundle"; resource "chat" "http"];
     c_ResourceTypes := [resource_type "bundle" "store"; resource_type "store" "registry-image"];
     c_Prototypes := []; c_Jobs := [job]; c_Display := None; c_Template := false; c_Params := [];
     c_RunRetention := None |}.

Definition resources : list SchedulerResource :=
  (fun r => {| sr_Name := rc_Name r; sr_Type := rc_Type r; sr_Source := rc_Source r;
               sr_ExposeBuildCreatedBy := rc_ExposeBuildCreatedBy r |}) <$> c_Resources config.

Definition inputs : list BuildInput := [{| bi_Name := "src"; bi_Version := Some {[ "ref" := "v1" ]} |}].

Definition created : outcome plan_error Plan * Z :=
  Create resources (c_ResourceTypes config) (c_Prototypes config) inputs false (JobConfig_StepConfig job) 1000.

Lemma provided_job : provided config resources inputs (JobConfig_StepConfig job).
Proof.
  split.
  - intros name. unfold ResourceConfigs_Lookup, resources. induction (c_Resources config) as [|r l IH]; [by intros []|].
    cbn. destruct (String.eqb (rc_Name r) name); [by eexists|done].
  - intros g Hg. cbn in Hg. repeat (apply elem_of_cons in Hg as [[= ->]|Hg]; [by eexists|]).
    repeat (apply elem_of_cons in Hg as [Hg|Hg]; [done|]). set_solver.
  - intros a Ha. cbn in Ha. set_solver.
Qed.
End Example.

Section ExampleWitness.
Import Example.

Definition created_plan : Plan :=
  match Example.created with (Ret plan, _) => plan | _ => MkPlan "" (PlDo []) end.

Lemma plan_ids_unique_witness :
  Example.created = (Ret created_plan, 1019) /\ length (Each created_plan) = 42%nat /\
  NoDup (ID <$> Each created_plan).
Proof.
  assert (Hc : Example.created = (Ret created_plan, 1019)) by (vm_compute; reflexivity).
  split; [exact Hc|]. split; [vm_compute; reflexivity|].
  refine (proj1 (plan_ids_unique Example.resources (c_ResourceTypes Example.config)
    (c_Prototypes Example.config) Example.inputs false (JobConfig_StepConfig Example.job) 1000
    created_plan 1019 _ _ Hc)); [lia|vm_compute; reflexivity].
Defined.
End ExampleWitness.
