(* ===== verification/ConfigValidate.v ===== *)
(** * Validation of a pipeline's configuration (atc/configvalidate/validate.go)

    The checks [Validate] makes before a configuration is saved, the order of the
    var sources ([atc/config.go]) and the parameters of a template
    ([atc/run_params.go]).  A message is its format string and its arguments.

    The class [ConfigWorld] has what is not the repository's own: the globs of
    [gobwas/glob], the encoding of YAML, the parsing of URLs and numbers, and the
    credential managers.  [map_order] is the order in which Go ranges over a
    map. *)
From stdpp Require Import base gmap sets list strings pretty.
From Stdlib Require Import ZArith Ascii Lia.
From S2P Require Import Prelude Vars Repository Parallel GoText Steps StepValidator.

Open Scope Z_scope.

(** ** Cycles of jobs *)

Inductive JobState := NotVisited | Visiting | Visited.

#[global] Instance JobState_eq_dec : EqDecision JobState.
Proof. solve_decision. Defined.

Inductive cycle_error := CycleAt (job : string).

(** [visited[name]]: the zero value for a name that is not a key. *)
Definition job_state (visited : gmap string JobState) (name : string) : JobState :=
  default NotVisited (visited !! name).

(** [visited[name] = state] *)
Definition mark (name : string) (state : JobState) : stateful (gmap string JobState) cycle_error unit :=
  fun visited => (Ret (), <[name := state]> visited).

(** [detectCycle]; [visited] is the one map all calls share. *)
Fixpoint detectCycle (fuel : nat) (pipelineConfig : PipelineConfig) (j : JobConfig)
    : stateful (gmap string JobState) cycle_error unit :=
  match fuel with
  | O => fun visited => (NoFuel, visited)
  | S fuel => fun visited =>
      match job_state visited (jc_Name j) with
      | Visiting => (Fail (CycleAt (jc_Name j)), visited)
      | Visited => (Ret (), visited)
      | NotVisited =>
          (_ ← recur (on_get_put (Some (fun step =>
                 each (fun nextJobGlob =>
                   each (fun job =>
                     if matched nextJobGlob (jc_Name job) then detectCycle fuel pipelineConfig job
                     else mret ()) (c_Jobs pipelineConfig)) (g_Passed step))) None)
               (JobConfig_StepConfig j);
           mark (jc_Name j) Visited)
          (<[jc_Name j := Visiting]> visited)
      end
  end.

(** Each nested call is for a job that is not being visited. *)
Definition cycle_fuel (c : PipelineConfig) : nat := S (length (c_Jobs c)).

Fixpoint validateCycle_from (c : PipelineConfig) (jobs : list JobConfig) : outcome cycle_error unit :=
  match jobs with
  | [] => Ret ()
  | job :: jobs => _ ← (detectCycle (cycle_fuel c) c job ∅).1; validateCycle_from c jobs
  end.

Definition validateCycle (c : PipelineConfig) : outcome cycle_error unit :=
  validateCycle_from c (c_Jobs c).

(** ** The other checks *)

Class ConfigWorld := {
  glob_Compile : string -> option (string -> bool);
  yaml_Marshal : value -> message + string;
  url_Scheme : string -> option string;  (* [None] when the URL does not parse *)
  ParseFloat_ok : string -> bool;
  has_manager : string -> bool;
  manager_error : VarSourceConfig -> option message;
  map_order : list string -> list string }.

Record location := { loc_section : string; loc_index : nat }.

Definition location_String (l : location) : string :=
  (loc_section l ++ "[" ++ pretty (loc_index l) ++ "]")%string.

Definition Identifier (l : location) (name : string) : string :=
  if String.eqb name "" then location_String l else (loc_section l ++ "." ++ name)%string.

(** The warnings and the errors of a check. *)
Definition report : Type := list ConfigWarning * list (option string * message).

Definition no_report : report := ([], []).
Definition join (a b : report) : report := (a.1 ++ b.1, a.2 ++ b.2).
Definition err (fmt : string) (args : list string) : report := ([], [(None, Msg fmt args)]).
Definition err_if (b : bool) (fmt : string) (args : list string) : report :=
  if b then err fmt args else no_report.
Definition reports {A} (f : nat -> A -> report) : nat -> list A -> report :=
  fix go i l :=
    match l with
    | [] => no_report
    | x :: l => join (f i x) (go (S i) l)
    end.

Section Validate.
Context `{ConfigWorld, StepChecks}.

Definition identifier_report (name identifier : string) : report :=
  let '(warning, e) := ValidateIdentifier name [identifier] in
  (match warning with Some w => [w] | None => [] end, match e with Some m => [(None, m)] | None => [] end).

(** The names seen so far: [names[name] = location] at the first of each. *)
Abbreviation seen_map := (gmap string location).

Definition see (name : string) (l : location) (seen : seen_map) : seen_map :=
  match seen !! name with
  | Some _ => seen
  | None => if String.eqb name "" then seen else <[name := l]> seen
  end.

Definition repeated (name : string) (l : location) (seen : seen_map) : report :=
  match seen !! name with
  | Some other => err "%s and %s have the same name ('%s')" [location_String other; location_String l; name]
  | None => no_report
  end.

Fixpoint check_named {A} (section : string) (name_of : A -> string) (more : string -> A -> report)
    (seen : seen_map) (i : nat) (l : list A) : report * seen_map :=
  match l with
  | [] => (no_report, seen)
  | x :: l =>
      let loc := {| loc_section := section; loc_index := i |} in
      let name := name_of x in
      let identifier := Identifier loc name in
      let r := join (identifier_report name identifier) (join (repeated name loc seen)
        (join (err_if (String.eqb name "") "%s has no name" [identifier]) (more identifier x))) in
      let '(rest, seen) := check_named section name_of more (see name loc seen) (S i) l in
      (join r rest, seen)
  end.

(** [usedResources] *)
Definition usedResources (c : PipelineConfig) : gset string :=
  foldl (fun used job =>
    no_error (recur (on_get_put
      (Some (fun step used => (Ret (), {[ GetStep_ResourceName step ]} ∪ used)))
      (Some (fun step used => (Ret (), {[ PutStep_ResourceName step ]} ∪ used))))
      (JobConfig_StepConfig job)) used) ∅ (c_Jobs c).

Definition validateResourcesUnused (c : PipelineConfig) : report :=
  reports (fun _ resource =>
    err_if (negb (bool_decide (rc_Name resource ∈ usedResources c))) "resource '%s' is not used" [rc_Name resource])
    0 (c_Resources c).

Definition validateResources (c : PipelineConfig) : report :=
  join (check_named "resources" rc_Name (fun identifier resource =>
          err_if (String.eqb (rc_Type resource) "") "%s has no type" [identifier]) ∅ 0 (c_Resources c)).1
    (validateResourcesUnused c).

Definition validateResourceTypes (c : PipelineConfig) (seenTypes : seen_map) : report * seen_map :=
  check_named "resource_types" rt_Name (fun identifier t =>
    if negb (String.eqb (rt_Image t) "") && negb (String.eqb (rt_Type t) "")
    then err "%s cannot specify both 'image' and 'type'" [identifier]
    else err_if (String.eqb (rt_Image t) "" && String.eqb (rt_Type t) "") "%s has no type" [identifier])
    seenTypes 0 (c_ResourceTypes c).

Definition validatePrototypes (c : PipelineConfig) (seenTypes : seen_map) : report * seen_map :=
  check_named "prototypes" pt_Name (fun identifier t =>
    err_if (String.eqb (pt_Type t) "") "%s has no type" [identifier]) seenTypes 0 (c_Prototypes c).

(** [validateGroups] *)
Definition jobs_matching (c : PipelineConfig) (g : string -> bool) : list string :=
  filter (fun n => g n = true) (jc_Name <$> c_Jobs c).

Definition group_job_report (c : PipelineConfig) (group : GroupConfig) (jobGlob : string) : report :=
  match glob_Compile jobGlob with
  | None => err "invalid glob expression '%s' for group '%s'" [jobGlob; gc_Name group]
  | Some g =>
      match jobs_matching c g with
      | [] => err "no jobs match '%s' for group '%s'" [jobGlob; gc_Name group]
      | _ => no_report
      end
  end.

Definition grouped (c : PipelineConfig) : gset string :=
  list_to_set (group ← c_Groups c; jobGlob ← gc_Jobs group;
    match glob_Compile jobGlob with Some g => jobs_matching c g | None => [] end).

Definition count_of (name : string) (l : list string) : nat := length (filter (fun n => n = name) l).

Definition validateGroups (c : PipelineConfig) : report :=
  let groupNames := gc_Name <$> c_Groups c in
  join (reports (fun i group =>
          let identifier := Identifier {| loc_section := "groups"; loc_index := i |} (gc_Name group) in
          join (identifier_report (gc_Name group) identifier)
            (join (reports (fun _ => group_job_report c group) 0 (gc_Jobs group))
              (reports (fun _ resource =>
                 err_if (is_nil (ResourceConfigs_Lookup resource (c_Resources c)))
                   "group '%s' has unknown resource '%s'" [gc_Name group; resource]) 0 (gc_Resources group))))
          0 (c_Groups c))
    (join
      (reports (fun _ name =>
         err_if (1 <? count_of name groupNames)%nat
           "group '%s' appears %d times. Duplicate names are not allowed." [name; pretty (count_of name groupNames)])
         0 (map_order (remove_dups groupNames)))
      (if bool_decide (length (c_Groups c) = 0%nat) then no_report
       else reports (fun _ job =>
         err_if (negb (bool_decide (job ∈ grouped c))) "job '%s' belongs to no group" [job])
         0 (map_order (remove_dups (jc_Name <$> c_Jobs c))))).

(** ** Jobs *)

Definition retention_report (identifier : string) (job : JobConfig) : report :=
  join
    (if negb (jc_BuildLogsToRetain job =? 0)
     then ([{| cw_Type := "deprecated_field";
               cw_Message := (None, Msg "%s.build_logs_to_retain is deprecated. Use build_log_retention instead." [identifier]) |}], [])
     else no_report)
  (join
    (if negb (is_nil (jc_BuildLogRetention job)) && negb (jc_BuildLogsToRetain job =? 0)
     then err "%s can't use both build_log_retention and build_logs_to_retain" [identifier]
     else err_if (jc_BuildLogsToRetain job <? 0) "%s has negative build_logs_to_retain: %d"
            [identifier; pretty (jc_BuildLogsToRetain job)])
    match jc_BuildLogRetention job with
    | None => no_report
    | Some r =>
        join (err_if (blr_Builds r <? 0) "%s has negative build_log_retention.builds: %d"
                [identifier; pretty (blr_Builds r)])
        (join (err_if (blr_Days r <? 0) "%s has negative build_log_retention.days: %d"
                [identifier; pretty (blr_Days r)])
        (join (err_if (blr_MinimumSucceededBuilds r <? 0)
                "%s has negative build_log_retention.min_success_builds: %d"
                [identifier; pretty (blr_MinimumSucceededBuilds r)])
              (err_if ((0 <? blr_Builds r) && (blr_Builds r <? blr_MinimumSucceededBuilds r))
                "%s has build_log_retention.min_success_builds: %d greater than build_log_retention.min_success_builds: %d"
                [identifier; pretty (blr_MinimumSucceededBuilds r); pretty (blr_Builds r)])))
    end).

(** What the step validator finds in a job. *)
Definition steps_report (c : PipelineConfig) (identifier : string) (job : JobConfig) : report :=
  let validator := no_error (Validate c (JobConfig_Step job)) (NewStepValidator [identifier; ".plan"]) in
  (Warnings validator, Errors validator).

Definition validateJobs (c : PipelineConfig) : report :=
  match c_Jobs c with
  | [] => err "jobs: pipeline must contain at least one job" []
  | _ =>
      (check_named "jobs" jc_Name (fun identifier job =>
         join (retention_report identifier job) (steps_report c identifier job)) ∅ 0 (c_Jobs c)).1
  end.

(** ** Var sources *)

(** The names before the first colon of the variables of a document. *)
Fixpoint before_colon (s : string) : option string :=
  match s with
  | EmptyString => None
  | String c s => if Ascii.eqb c ":" then Some EmptyString else String c <$> before_colon s
  end.

Definition dependencies (text : string) : list string := omap before_colon (extractVarNames text).

Record pendingVarSource := { pv_vs : VarSourceConfig; pv_deps : list string }.

Record ordering := { or_ordered : list VarSourceConfig; or_pending : list pendingVarSource; or_added : gset string }.

Definition missing_dep (added : gset string) (deps : list string) : bool :=
  existsb (fun dep => negb (bool_decide (dep ∈ added))) deps.

Definition add_source (vs : VarSourceConfig) (o : ordering) : ordering :=
  {| or_ordered := or_ordered o ++ [vs]; or_pending := or_pending o; or_added := {[ vs_Name vs ]} ∪ or_added o |}.

(** One pass over the pending sources: those that are ready are added. *)
Definition settle_pending (o : ordering) : ordering :=
  foldl (fun o p =>
    if missing_dep (or_added o) (pv_deps p)
    then {| or_ordered := or_ordered o; or_pending := or_pending o ++ [p]; or_added := or_added o |}
    else add_source (pv_vs p) o)
    {| or_ordered := or_ordered o; or_pending := []; or_added := or_added o |} (or_pending o).

Fixpoint order_from (sources : list VarSourceConfig) (o : ordering) : message + ordering :=
  match sources with
  | [] => inr o
  | vs :: sources =>
      match yaml_Marshal (vs_Config vs) with
      | inl e => inl e
      | inr text =>
          let deps := dependencies text in
          if missing_dep (or_added o) deps
          then order_from sources
                 {| or_ordered := or_ordered o; or_pending := or_pending o ++ [{| pv_vs := vs; pv_deps := deps |}];
                    or_added := or_added o |}
          else order_from sources (settle_pending (add_source vs o))
      end
  end.

Definition OrderByDependency (sources : list VarSourceConfig) : message + list VarSourceConfig :=
  match order_from sources {| or_ordered := []; or_pending := []; or_added := ∅ |} with
  | inl e => inl e
  | inr o =>
      match or_pending o with
      | [] => inr (or_ordered o)
      | pending => inl (Msg "could not resolve inter-dependent var sources: %s"
                         [String.concat ", " ((fun p => vs_Name (pv_vs p)) <$> pending)])
      end
  end.

Definition supported_manager (type : string) : bool :=
  bool_decide (type ∈ ["vault"; "dummy"; "ssm"; "secretsmanager"; "idtoken"]).

Fixpoint check_sources (names : seen_map) (i : nat) (l : list VarSourceConfig) : report :=
  match l with
  | [] => no_report
  | vs :: l =>
      let loc := {| loc_section := "var_sources"; loc_index := i |} in
      let known := has_manager (vs_Type vs) in
      join (identifier_report (vs_Name vs) (Identifier loc (vs_Name vs)))
      (join (if known then
               join (err_if (negb (supported_manager (vs_Type vs)))
                       "credential manager type %s is not supported in pipeline yet" [vs_Type vs])
               (join (repeated (vs_Name vs) loc names)
                     match manager_error vs with
                     | Some m => ([], [(None, m)])
                     | None => no_report
                     end)
             else err "unknown credential manager type: %s" [vs_Type vs])
            (check_sources (if known then <[vs_Name vs := loc]> names else names) (S i) l))
  end.

Definition validateVarSources (c : PipelineConfig) : report :=
  join (check_sources ∅ 0 (c_VarSources c))
    match OrderByDependency (c_VarSources c) with
    | inl m => err ("failed to order by dependency: " ++ m_format m) (m_args m)
    | inr _ => no_report
    end.

(** ** Display and parameters *)

Definition validateDisplay (c : PipelineConfig) : report :=
  match c_Display c with
  | None => no_report
  | Some d =>
      match url_Scheme (dc_BackgroundImage d) with
      | None => err "background_image is not a valid URL: %s" [dc_BackgroundImage d]
      | Some scheme =>
          err_if (negb (bool_decide (scheme ∈ ["https"; "http"; ""])))
            "background_image scheme must be either http, https or relative" []
      end
  end.

(** [validateParamStringFormat] *)
Definition canonical_decimal (value : string) : bool :=
  match parsePositiveID value with Some _ => true | None => false end.

Definition validateParamStringFormat (p : ParamSchema) (value : string) : option message :=
  let check allowZero :=
    guard_error (negb ((String.eqb value "0" && allowZero) || canonical_decimal value))
      (Msg "param %q: %q is not a canonical %s" [pm_Name p; value; pm_Format p]) in
  if String.eqb (pm_Format p) "" then None
  else if String.eqb (pm_Format p) ParamFormatPositiveDecimalInt64 then check false
  else if String.eqb (pm_Format p) ParamFormatZeroOrPositiveDecimalInt64 then check true
  else Some (Msg "param %q: unknown format %q" [pm_Name p; pm_Format p]).

(** [strconv.ParseBool] *)
Definition ParseBool (s : string) : option bool :=
  if bool_decide (s ∈ ["1"; "t"; "T"; "TRUE"; "true"; "True"]) then Some true
  else if bool_decide (s ∈ ["0"; "f"; "F"; "FALSE"; "false"; "False"]) then Some false
  else None.

(** [coerceParam]; a number is the text of a [float64]. *)
Definition coerceParam (p : ParamSchema) (raw : value) : message + value :=
  let expected := inl (Msg "param %q: expected %s" [pm_Name p; pm_Type p]) in
  if String.eqb (pm_Type p) "string" then
    match raw with
    | VStr s => match validateParamStringFormat p s with Some m => inl m | None => inr (VStr s) end
    | _ => expected
    end
  else if String.eqb (pm_Type p) "number" then
    match raw with
    | VInt t => inr (VFloat t)
    | VFloat t => inr (VFloat t)
    | VStr s => if ParseFloat_ok s then inr (VFloat s) else inl (Msg "param %q: %q is not a number" [pm_Name p; s])
    | _ => expected
    end
  else if String.eqb (pm_Type p) "bool" then
    match raw with
    | VBool b => inr (VBool b)
    | VStr s =>
        match ParseBool s with
        | Some b => inr (VBool b)
        | None => inl (Msg "param %q: %q is not a bool" [pm_Name p; s])
        end
    | _ => expected
    end
  else if String.eqb (pm_Type p) "enum" then
    match raw with
    | VStr s => if bool_decide (s ∈ pm_Values p) then inr (VStr s)
                else inl (Msg "param %q: %q is not one of %v" (pm_Name p :: s :: pm_Values p))
    | _ => expected
    end
  else inl (Msg "param %q: unknown type %q" [pm_Name p; pm_Type p]).

Fixpoint check_params (schema : list ParamSchema) (given validated : gmap string value)
    : message + gmap string value :=
  match schema with
  | [] => inr validated
  | p :: schema =>
      match given !! pm_Name p with
      | None =>
          match pm_Default p with
          | VNil =>
              if pm_Required p then inl (Msg "missing required param %q" [pm_Name p])
              else check_params schema given validated
          | d =>
              match coerceParam p d with
              | inl m => inl (Msg ("invalid default: " ++ m_format m) (m_args m))
              | inr coerced => check_params schema given (<[pm_Name p := coerced]> validated)
              end
          end
      | Some raw =>
          match coerceParam p raw with
          | inl m => inl m
          | inr coerced => check_params schema given (<[pm_Name p := coerced]> validated)
          end
      end
  end.

(** [ValidateRunParams]; the unknown name reported is the first in the order of
    the map. *)
Definition ValidateRunParams (schema : list ParamSchema) (given : gmap string value)
    : message + gmap string value :=
  match filter (fun n => ~ n ∈ (pm_Name <$> schema)) (map_order (elements (dom given))) with
  | name :: _ => inl (Msg "unknown param %q" [name])
  | [] => check_params schema given ∅
  end.

Definition param_report (i : nat) (p : ParamSchema) (seen : bool) : report :=
  let at_param fmt args := err ("params[%d] (%q)" ++ fmt) (pretty i :: pm_Name p :: args) in
  let at_param_if (b : bool) fmt args := if b then at_param fmt args else no_report in
  let values :=
    if bool_decide (pm_Type p ∈ ["string"; "number"; "bool"]) then
      Some (at_param_if (negb (bool_decide (pm_Values p = []))) ": values is only allowed for enum params" [])
    else if String.eqb (pm_Type p) "enum" then
      Some (at_param_if (bool_decide (pm_Values p = [])) ": enum params must declare values" [])
    else None in
  if String.eqb (pm_Name p) "" then at_param ": name is required" []
  else
    join (at_param_if (String.eqb (pm_Name p) "run") ": name is reserved for the run number" [])
    (join (at_param_if (String.eqb (pm_Name p) "run_id") ": name is reserved for the pipeline-run id" [])
    (join (at_param_if seen ": duplicate param name" [])
    (join (if String.eqb (pm_Format p) "" then no_report
           else if negb (String.eqb (pm_Type p) "string") then at_param ": format is only allowed for string params" []
           else at_param_if (negb (String.eqb (pm_Format p) ParamFormatPositiveDecimalInt64) &&
                             negb (String.eqb (pm_Format p) ParamFormatZeroOrPositiveDecimalInt64))
                  ": invalid format %q" [pm_Format p])
    match values with
    | None => at_param ": invalid type %q (must be string, number, bool or enum)" [pm_Type p]
    | Some r =>
        join r
          match pm_Default p with
          | VNil => no_report
          | _ =>
              match ValidateRunParams [p] ∅ with
              | inl m => at_param (": " ++ m_format m)%string (m_args m)
              | inr _ => no_report
              end
          end
    end))).

Fixpoint params_report (i : nat) (seen : gset string) (params : list ParamSchema) : report :=
  match params with
  | [] => no_report
  | p :: params =>
      join (param_report i p (bool_decide (pm_Name p ∈ seen)))
        (params_report (S i) (if String.eqb (pm_Name p) "" then seen else {[ pm_Name p ]} ∪ seen) params)
  end.

Definition validateParamsSchema (c : PipelineConfig) : report :=
  join (err_if (negb (bool_decide (length (c_Params c) = 0%nat)) && negb (c_Template c))
          "params schema is only allowed on template pipelines (set template: true)" [])
  (join (err_if (negb (is_nil (c_RunRetention c)) && negb (c_Template c))
          "run_retention is only allowed on template pipelines (set template: true)" [])
  (join match c_RunRetention c with
        | None => no_report
        | Some r =>
            join (err_if (rrc_KeepLast r <? 0) "run_retention.keep_last must not be negative" [])
                 (err_if (rrc_TTLDays r <? 0) "run_retention.ttl_days must not be negative" [])
        end
        (params_report 0 ∅ (c_Params c)))).

(** ** [Validate] *)

(** [formatErr]: the errors of a group, under its name. *)
Definition formatErr (groupName : string) (r : report) : list (string * list (option string * message)) :=
  match r.2 with [] => [] | errors => [(groupName, errors)] end.

Definition cycle_report (c : PipelineConfig) : report :=
  match validateCycle c with
  | Fail (CycleAt job) => err "pipeline contains a cycle that starts at Job '%s'" [job]
  | _ => no_report
  end.

Definition config_Validate (c : PipelineConfig)
    : list ConfigWarning * list (string * list (option string * message)) :=
  let groups := validateGroups c in
  let resources := validateResources c in
  let '(types, seenTypes) := validateResourceTypes c ∅ in
  let '(prototypes, _) := validatePrototypes c seenTypes in
  let sources := validateVarSources c in
  let jobs := validateJobs c in
  let display := validateDisplay c in
  (groups.1 ++ resources.1 ++ types.1 ++ prototypes.1 ++ sources.1 ++ jobs.1 ++ display.1,
   formatErr "groups" groups ++ formatErr "resources" resources ++ formatErr "resource types" types ++
   formatErr "prototypes" prototypes ++ formatErr "variable sources" sources ++ formatErr "jobs" jobs ++
   formatErr "display config" display ++ formatErr "params" (validateParamsSchema c) ++
   formatErr "jobs" (cycle_report c)).
End Validate.
