(* ===== verification/ConfigValidateSpec.v ===== *)
(** * What the validation of a pipeline guarantees

    The search for cycles agrees with the relation [waits_for] between jobs, the
    order of var sources respects their dependencies, and a pipeline without
    errors can be scheduled and planned. *)
From stdpp Require Import base gmap sets list strings relations.
From Stdlib Require Import ZArith Lia.
From S2P Require Import Prelude Vars Repository Parallel GoText Steps StepValidator StepValidatorSpec Planner PlannerSpec ConfigValidate.

Open Scope nat_scope.

(** ** Cycles *)

Section Cycles.
Context (c : PipelineConfig).
Implicit Types j k : JobConfig.

(** The jobs whose outputs a job waits for, in the order they are visited. *)
Definition upstream (j : JobConfig) : list JobConfig :=
  concat (map (fun step =>
    concat (map (fun g => filter (fun job => matched g (jc_Name job)) (c_Jobs c)) (g_Passed step)))
    (gets (JobConfig_StepConfig j))).

(** [waits_for j k]: a get of [j] has a version that passed [k]. *)
Definition waits_for j k : Prop := k ∈ upstream j.

Lemma waits_for_job j k : waits_for j k -> k ∈ c_Jobs c.
Proof.
  unfold waits_for, upstream. rewrite elem_of_concat. intros (l & Hl & Hk).
  apply list_elem_of_In, in_map_iff in Hl as (step & <- & _).
  apply elem_of_concat in Hk as (l' & Hl' & Hk).
  apply list_elem_of_In, in_map_iff in Hl' as (g & <- & _).
  by apply list_elem_of_filter in Hk as [_ Hk].
Qed.

Section Each.
Context {St E : Type}.

Lemma each_filter {A} (P : A -> bool) (f : A -> stateful St E unit) l st :
  each (fun x => if P x then f x else mret ()) l st = each f (filter (fun x => P x) l) st.
Proof.
  revert st. induction l as [|x l IH]; intros st; [done|]. rewrite filter_cons. cbn [each].
  destruct (P x); cbn [each].
  - rewrite decide_True by done. by apply stateful_bind_ext.
  - rewrite decide_False by auto. apply IH.
Qed.

Lemma each_concat {A B} (f : A -> stateful St E unit) (g : B -> list A) l st :
  each (fun x => each f (g x)) l st = each f (concat (map g l)) st.
Proof.
  revert st. induction l as [|x l IH]; intros st; [done|]. cbn [map concat]. rewrite each_app.
  by apply stateful_bind_ext.
Qed.

Lemma each_ext {A} (f g : A -> stateful St E unit) l st :
  (forall x st, f x st = g x st) -> each f l st = each g l st.
Proof. intros Hfg. revert st. induction l; intros st; [done|]. by apply stateful_bind_ext. Qed.

Lemma each_lefts {A B} (f : A -> stateful St E unit) (l : list (A + B)) st :
  each (fun x => match x with inl a => f a | inr _ => mret () end) l st = each f (lefts l) st.
Proof.
  revert st. induction l as [|[a|b] l IH]; intros st; [done|by apply stateful_bind_ext|apply IH].
Qed.
End Each.

(** A call visits the upstream jobs of its job, one after the other. *)
Lemma detectCycle_eq fuel j visited :
  detectCycle (S fuel) c j visited =
  match job_state visited (jc_Name j) with
  | Visiting => (Fail (CycleAt (jc_Name j)), visited)
  | Visited => (Ret (), visited)
  | NotVisited =>
      (_ ← each (detectCycle fuel c) (upstream j);
       mark (jc_Name j) Visited) (<[jc_Name j := Visiting]> visited)
  end.
Proof.
  cbn [detectCycle]. destruct (job_state _ _); try done.
  apply stateful_bind_ext; [|done]. rewrite recur_on_get_put. cbn [call].
  rewrite each_lefts. unfold upstream. rewrite <- each_concat.
  apply each_ext. intros step st. rewrite <- each_concat.
  apply each_ext. intros g st'. apply each_filter.
Qed.

Lemma job_state_insert visited n s m :
  job_state (<[n := s]> visited) m = if decide (n = m) then s else job_state visited m.
Proof. unfold job_state. rewrite lookup_insert. by case_decide. Qed.

(** The names of jobs that have not been visited. *)
Definition fresh (visited : gmap string JobState) : list string :=
  filter (fun n => job_state visited n = NotVisited) (jc_Name <$> c_Jobs c).

Lemma fresh_mono visited visited' :
  (forall n, job_state visited n <> NotVisited -> job_state visited' n <> NotVisited) ->
  length (fresh visited') <= length (fresh visited).
Proof.
  intros Hgrow. unfold fresh. induction (jc_Name <$> c_Jobs c) as [|n l IH]; [done|].
  rewrite !filter_cons. specialize (Hgrow n). repeat case_decide; cbn; try lia. naive_solver.
Qed.

Lemma fresh_insert visited n s :
  s <> NotVisited -> n ∈ (jc_Name <$> c_Jobs c) -> job_state visited n = NotVisited ->
  length (fresh (<[n := s]> visited)) < length (fresh visited).
Proof.
  intros Hs Hin Hn. unfold fresh.
  assert (Hsub : filter (fun m => job_state (<[n := s]> visited) m = NotVisited) (jc_Name <$> c_Jobs c)
            = filter (fun m => m <> n) (fresh visited)).
  { unfold fresh. rewrite list_filter_filter. apply filter_iff_in. intros m _.
    rewrite job_state_insert. case_decide; naive_solver. }
  rewrite Hsub. apply length_filter_lt with n; [|naive_solver]. by apply list_elem_of_filter.
Qed.

(** [settled j]: no infinite chain of upstream jobs starts at [j]. *)
Definition settled : JobConfig -> Prop := Acc (fun k j => waits_for j k).

Definition sound (visited : gmap string JobState) : Prop :=
  forall x, x ∈ c_Jobs c -> job_state visited (jc_Name x) = Visited -> settled x.

(** Every job being visited leads to [j]. *)
Definition leads_to (visited : gmap string JobState) (j : JobConfig) : Prop :=
  forall x, x ∈ c_Jobs c -> job_state visited (jc_Name x) = Visiting -> tc waits_for x j.

Record visited_after (visited visited' : gmap string JobState) : Prop := {
  va_sound : sound visited';
  va_stack n : job_state visited' n = Visiting <-> job_state visited n = Visiting;
  va_grow n : job_state visited n <> NotVisited -> job_state visited' n <> NotVisited }.

Lemma visited_after_trans v1 v2 v3 : visited_after v1 v2 -> visited_after v2 v3 -> visited_after v1 v3.
Proof. intros [S1 K1 G1] [S2 K2 G2]. split; [done|intros; by rewrite K2|auto]. Qed.

Definition on_cycle (n : string) : Prop := exists x, x ∈ c_Jobs c /\ jc_Name x = n /\ tc waits_for x x.

(** What a call, or a sequence of calls for the jobs [js], leads to. *)
Definition visit_result (visited : gmap string JobState) (js : list JobConfig)
    (r : outcome cycle_error unit * gmap string JobState) : Prop :=
  match r with
  | (Ret _, visited') => visited_after visited visited' /\
      Forall (fun j => job_state visited' (jc_Name j) = Visited) js
  | (Fail (CycleAt n), _) => on_cycle n
  | _ => False
  end.

Context (Hnames : NoDup (jc_Name <$> c_Jobs c)).

Lemma job_by_name x y : x ∈ c_Jobs c -> y ∈ c_Jobs c -> jc_Name x = jc_Name y -> x = y.
Proof.
  intros (i & Hi)%list_elem_of_lookup_1 (k & Hk)%list_elem_of_lookup_1 Heq.
  assert (i = k) as ->; [|congruence].
  eapply NoDup_lookup; [exact Hnames| |]; rewrite list_lookup_fmap; [by rewrite Hi|by rewrite Hk, Heq].
Qed.

Lemma visited_stays visited visited' n :
  visited_after visited visited' -> job_state visited n = Visited -> job_state visited' n = Visited.
Proof.
  intros [_ K G] Hn. specialize (K n). specialize (G n). rewrite Hn in *.
  destruct (job_state visited' n) eqn:?; [by destruct G|naive_solver|done].
Qed.

Lemma each_visits fuel js visited :
  (forall j visited, j ∈ js -> length (fresh visited) < fuel -> sound visited -> leads_to visited j ->
     visit_result visited [j] (detectCycle fuel c j visited)) ->
  length (fresh visited) < fuel -> sound visited -> Forall (leads_to visited) js ->
  visit_result visited js (each (detectCycle fuel c) js visited).
Proof.
  intros Hone. revert visited. induction js as [|j js IH]; intros visited Hf Hs Hl; cbn [each].
  { split; [by split|done]. }
  inversion Hl as [|? ? Hj Hjs]; subst. unfold mbind, stateful_bind.
  pose proof (Hone j visited ltac:(set_solver) Hf Hs Hj) as H1.
  destruct (detectCycle fuel c j visited) as [[[]|[n]| |] v1]; try exact H1.
  destruct H1 as [Ha [Hd _]%Forall_cons].
  assert (H2 : visit_result v1 js (each (detectCycle fuel c) js v1)).
  { apply IH; [set_solver| |apply Ha|].
    - eapply Nat.le_lt_trans; [|exact Hf]. by apply fresh_mono, Ha.
    - eapply Forall_impl; [exact Hjs|]. intros k Hk x Hx Hv. apply Hk; [done|]. by apply Ha. }
  fold (each (detectCycle fuel c)).
  destruct (each (detectCycle fuel c) js v1) as [[[]|[n]| |] v2]; try exact H2. destruct H2 as [Hb Hd2].
  split; [by eapply visited_after_trans|]. constructor; [|done]. by eapply visited_stays.
Qed.

Lemma detectCycle_visits fuel j visited :
  j ∈ c_Jobs c -> length (fresh visited) < fuel -> sound visited -> leads_to visited j ->
  visit_result visited [j] (detectCycle fuel c j visited).
Proof.
  revert j visited. induction fuel as [|fuel IH]; intros j visited Hj Hf Hs Hl; [lia|].
  rewrite detectCycle_eq. destruct (job_state visited (jc_Name j)) eqn:Hst; cycle 1.
  { exists j. auto. }
  { split; [by split|by constructor]. }
  set (v1 := <[jc_Name j := Visiting]> visited).
  assert (Hr : visit_result v1 (upstream j) (each (detectCycle fuel c) (upstream j) v1)).
  { apply each_visits.
    - intros k v Hk. apply IH. by eapply waits_for_job.
    - eapply Nat.lt_le_trans; [apply fresh_insert; [done| |done]|lia]. by apply list_elem_of_fmap_2.
    - intros x Hx. unfold v1. rewrite job_state_insert. case_decide; [done|]. by apply Hs.
    - apply Forall_forall. intros k Hk x Hx. unfold v1. rewrite job_state_insert. case_decide as Heq.
      + intros _. apply (job_by_name j x) in Heq as <-; [|done..]. by apply tc_once.
      + intros Hv. eapply tc_r; [by apply Hl|done]. }
  unfold mbind, stateful_bind, mark.
  destruct (each (detectCycle fuel c) (upstream j) v1) as [[[]|[n]| |] v2]; try exact Hr. destruct Hr as [[Ha Hb Hc] Hd].
  assert (Hset : settled j).
  { constructor. intros k Hk. apply Ha; [by eapply waits_for_job|].
    rewrite Forall_forall in Hd. by apply Hd. }
  split; [split|].
  - intros x Hx. rewrite job_state_insert. case_decide as Heq; [|by apply Ha].
    intros _. by apply (job_by_name j x) in Heq as <-.
  - intros n. rewrite job_state_insert. specialize (Hb n). unfold v1 in Hb. rewrite job_state_insert in Hb.
    case_decide; [subst; by rewrite Hst|done].
  - intros n Hn. rewrite job_state_insert. case_decide; [done|]. apply Hc. unfold v1.
    rewrite job_state_insert. by case_decide.
  - constructor; [|done]. rewrite job_state_insert. by rewrite decide_True.
Qed.

Lemma settled_acyclic j : settled j -> ~ tc waits_for j j.
Proof.
  induction 1 as [j _ IH]. intros Hc.
  assert (exists k, waits_for j k /\ tc waits_for k k) as (k & Hk & Hkk); [|by eapply IH].
  inversion Hc as [? ? Hjj|? k ? Hjk Hkj]; subst; [eauto|]. exists k. split; [done|]. by eapply tc_r.
Qed.

Lemma detectCycle_root j :
  j ∈ c_Jobs c -> visit_result ∅ [j] (detectCycle (cycle_fuel c) c j ∅).
Proof.
  intros Hj. apply detectCycle_visits; [done| |by intros x _|by intros x _].
  unfold cycle_fuel, fresh. apply Nat.lt_succ_r. etrans; [apply length_filter|]. by rewrite length_fmap.
Qed.

(** Each root has its own map; a job found settled for one root is settled. *)
Lemma validateCycle_from_spec jobs :
  (forall j, j ∈ jobs -> j ∈ c_Jobs c) ->
  (validateCycle_from c jobs = Ret () /\ Forall settled jobs) \/
  (exists n, validateCycle_from c jobs = Fail (CycleAt n) /\ on_cycle n).
Proof.
  induction jobs as [|j jobs IH]; intros Hin; [by left|]. cbn [validateCycle_from].
  assert (Hj : j ∈ c_Jobs c) by (apply Hin; set_solver).
  pose proof (detectCycle_root j Hj) as H1.
  destruct (detectCycle (cycle_fuel c) c j ∅) as [[[]|[n]| |] v]; try (by destruct H1); cbn.
  - destruct H1 as [Ha [Hd _]%Forall_cons].
    destruct IH as [[-> Hs]|(n & -> & Hn)]; [set_solver| |by right; exists n].
    left. split; [done|]. constructor; [|done]. by apply Ha.
  - right. by exists n.
Qed.

End Cycles.

(** C19: Validation finds the cycles of a pipeline: the search from each job
    returns within its fuel, and it reports an error exactly when some job
    waits, through the [passed] globs of its gets (those in hooks, attempts and
    parallel steps included), for itself; the job the error names is such a
    job. *)
Theorem validateCycle_iff c :
  NoDup (jc_Name <$> c_Jobs c) ->
  (validateCycle c = Ret () \/ exists n, validateCycle c = Fail (CycleAt n)) /\
  (validateCycle c = Ret () <-> ~ exists j, j ∈ c_Jobs c /\ tc (waits_for c) j j) /\
  (forall n, validateCycle c = Fail (CycleAt n) ->
     exists j, j ∈ c_Jobs c /\ jc_Name j = n /\ tc (waits_for c) j j).
Proof.
  intros Hn. unfold validateCycle.
  destruct (validateCycle_from_spec c Hn (c_Jobs c)) as [[-> Hs]|(n & -> & j & Hj & Hjn & Hc)]; [done| |].
  - split; [by left|]. split; [|done]. split; [|done].
    intros _ (j & Hj & Hc). rewrite Forall_forall in Hs. by eapply settled_acyclic; [by apply Hs|].
  - split; [right; by eexists|]. split.
    + split; [done|]. intros Hno. destruct Hno; eauto.
    + intros n' [= <-]. eauto.
Qed.

Definition plain_get (name : string) (passed : list string) : Step :=
  MkStep (SGet {| g_Name := name; g_Resource := ""; g_Version := None; g_Params := None;
                  g_Passed := passed; g_Trigger := false; g_Tags := []; g_Timeout := "";
                  g_SkipDownload := false |}) [].

Definition plain_job (name : string) (steps : list Step) : JobConfig :=
  {| jc_Name := name; jc_OldName := ""; jc_Public := false; jc_DisableManualTrigger := false;
     jc_Serial := false; jc_Interruptible := false; jc_SerialGroups := []; jc_RawMaxInFlight := 0;
     jc_BuildLogsToRetain := 0; jc_BuildLogRetention := None; jc_OnSuccess := None;
     jc_OnFailure := None; jc_OnAbort := None; jc_OnError := None; jc_Ensure := None;
     jc_PlanSequence := steps |}.

Definition plain_pipeline (jobs : list JobConfig) : PipelineConfig :=
  {| c_Groups := []; c_VarSources := []; c_Resources := []; c_ResourceTypes := [];
     c_Prototypes := []; c_Jobs := jobs; c_Display := None; c_Template := false; c_Params := [];
     c_RunRetention := None |}.

(** [test-*] waits for [build], which waits for [test-unit]. *)
Definition looping : PipelineConfig :=
  plain_pipeline
    [plain_job "build" [plain_get "src" ["test-*"]];
     plain_job "test-unit" [MkStep (STimeout (SDo [plain_get "bin" ["build"]]) "1h") []];
     plain_job "deploy" [plain_get "bin" ["test-*"]]].

Lemma validateCycle_iff_witness :
  validateCycle looping = Fail (CycleAt "build") /\
  exists j, j ∈ c_Jobs looping /\ jc_Name j = "build" /\ tc (waits_for looping) j j.
Proof.
  assert (Hn : NoDup (jc_Name <$> c_Jobs looping)) by (apply (bool_decide_unpack _); vm_compute; exact I).
  assert (Hv : validateCycle looping = Fail (CycleAt "build")) by (vm_compute; reflexivity).
  split; [exact Hv|]. exact (proj2 (proj2 (validateCycle_iff looping Hn)) _ Hv).
Defined.

(** ** The order of var sources *)

Section VarSources.
Context `{ConfigWorld}.

(** The sources the configuration of a source refers to. *)
Definition deps_of (vs : VarSourceConfig) : list string :=
  match yaml_Marshal (vs_Config vs) with inr text => dependencies text | inl _ => [] end.

(** Every source comes after those it refers to. *)
Definition dependencies_first (l : list VarSourceConfig) : Prop :=
  forall pre vs post, l = pre ++ vs :: post -> forall d, d ∈ deps_of vs -> d ∈ vs_Name <$> pre.

Record order_inv (seen : list VarSourceConfig) (o : ordering) : Prop := {
  oi_first : dependencies_first (or_ordered o);
  oi_added n : n ∈ or_added o <-> n ∈ vs_Name <$> or_ordered o;
  oi_deps : Forall (fun p => pv_deps p = deps_of (pv_vs p)) (or_pending o);
  oi_perm : or_ordered o ++ (pv_vs <$> or_pending o) ≡ₚ seen }.

Lemma missing_dep_false added deps : missing_dep added deps = false -> Forall (fun d => d ∈ added) deps.
Proof.
  unfold missing_dep. intros Hm. apply Forall_forall. intros d Hd.
  destruct (decide (d ∈ added)) as [|Hno]; [done|]. exfalso.
  assert (existsb (fun dep => negb (bool_decide (dep ∈ added))) deps = true); [|congruence].
  apply existsb_exists. exists d. split; [by apply list_elem_of_In|].
  by apply negb_true_iff, bool_decide_eq_false.
Qed.

Lemma dependencies_first_snoc l vs :
  dependencies_first l -> Forall (fun d => d ∈ vs_Name <$> l) (deps_of vs) -> dependencies_first (l ++ [vs]).
Proof.
  intros Hl Hd pre x post Heq d Hx. destruct post as [|y post] using rev_ind.
  - apply app_inj_tail in Heq as [-> ->]. rewrite Forall_forall in Hd. by apply Hd.
  - clear IHpost. rewrite app_comm_cons, (assoc_L (++)) in Heq. apply app_inj_tail in Heq as [Heq _].
    by eapply Hl.
Qed.

Lemma order_inv_add seen o vs :
  order_inv seen o -> missing_dep (or_added o) (deps_of vs) = false -> order_inv (vs :: seen) (add_source vs o).
Proof.
  intros [F A D P] Hm%missing_dep_false. split; cbn; [| |done|].
  - apply dependencies_first_snoc; [done|]. eapply Forall_impl; [exact Hm|]. intros d. apply A.
  - intros n. rewrite fmap_app. set_solver.
  - rewrite <- (assoc_L (++)), <- P. cbn. symmetry. apply Permutation_middle.
Qed.

Lemma order_inv_defer seen o vs :
  order_inv seen o ->
  order_inv (vs :: seen)
    {| or_ordered := or_ordered o; or_pending := or_pending o ++ [{| pv_vs := vs; pv_deps := deps_of vs |}];
       or_added := or_added o |}.
Proof.
  intros [F A D P]. split; cbn; [done..| |].
  - apply Forall_app. split; [done|]. by constructor.
  - rewrite fmap_app, (assoc_L (++)). cbn. rewrite P. symmetry. apply Permutation_cons_append.
Qed.

Lemma order_inv_settle seen o : order_inv seen o -> order_inv seen (settle_pending o).
Proof.
  intros [F A D P]. unfold settle_pending.
  assert (Hgen : forall l o' seen', Forall (fun p => pv_deps p = deps_of (pv_vs p)) l -> order_inv seen' o' ->
    order_inv ((pv_vs <$> l) ++ seen') (foldl (fun o p =>
    if missing_dep (or_added o) (pv_deps p)
    then {| or_ordered := or_ordered o; or_pending := or_pending o ++ [p]; or_added := or_added o |}
    else add_source (pv_vs p) o) o' l)).
  { induction l as [|[vs deps] l IH]; intros o' seen' Hl Ho'; [done|].
    cbn [foldl pv_deps pv_vs fmap list_fmap app].
    apply Forall_cons in Hl as [Hp Hl]. cbn in Hp. subst deps. cbn [pv_deps pv_vs].
    assert (Hperm : vs :: (pv_vs <$> l) ++ seen' ≡ₚ (pv_vs <$> l) ++ vs :: seen') by apply Permutation_middle.
    destruct (missing_dep (or_added o') (deps_of vs)) eqn:Hm.
    - destruct (IH _ _ Hl (order_inv_defer _ _ vs Ho')) as [F' A' D' P']. split; [done..|]. by rewrite P'.
    - destruct (IH _ _ Hl (order_inv_add _ _ vs Ho' Hm)) as [F' A' D' P']. split; [done..|]. by rewrite P'. }
  destruct (Hgen (or_pending o) {| or_ordered := or_ordered o; or_pending := []; or_added := or_added o |}
    (or_ordered o) D) as [F' A' D' P'].
  { split; cbn; [done|done|done|]. by rewrite app_nil_r. }
  split; [done..|]. rewrite P', (comm (++)). exact P.
Qed.

Lemma order_from_inv sources seen o o' :
  order_inv seen o -> order_from sources o = inr o' -> order_inv (rev sources ++ seen) o'.
Proof.
  revert seen o. induction sources as [|vs sources IH]; intros seen o Ho; cbn [order_from]; [by intros [= <-]|].
  destruct (yaml_Marshal (vs_Config vs)) as [e|text] eqn:Hy; [done|].
  assert (Hd : dependencies text = deps_of vs) by (unfold deps_of; by rewrite Hy). rewrite Hd.
  cbn [rev]. rewrite <- (assoc_L (++)). cbn [app].
  destruct (missing_dep (or_added o) (deps_of vs)) eqn:Hm; intros Hr.
  - eapply IH; [|exact Hr]. by apply order_inv_defer.
  - eapply IH; [|exact Hr]. by apply order_inv_settle, order_inv_add.
Qed.
End VarSources.

(** When the var sources of a pipeline can be ordered, the order has each
    source once and after all the sources its configuration refers to, so a
    source can be set up with the values of those before it. *)
Theorem OrderByDependency_sound `{ConfigWorld} sources ordered :
  OrderByDependency sources = inr ordered ->
  ordered ≡ₚ sources /\ dependencies_first ordered.
Proof.
  unfold OrderByDependency. destruct (order_from _ _) as [e|o] eqn:Ho; [done|].
  apply (order_from_inv _ []) in Ho as [F A D P].
  - destruct (or_pending o) eqn:Hp; [|done]. intros [= <-]. split; [|done].
    cbn in P. rewrite !app_nil_r in P. rewrite P. symmetry. apply Permutation_rev.
  - split; cbn; [|set_solver|done|done]. intros [] ? ? ?; done.
Qed.

(** ** Pipelines that are accepted *)

Lemma join_errors a b : (join a b).2 = [] <-> a.2 = [] /\ b.2 = [].
Proof. destruct a, b. cbn. rewrite app_nil. done. Qed.

Lemma err_if_errors b fmt args : (err_if b fmt args).2 = [] <-> b = false.
Proof. destruct b; cbn; [|done]. split; done. Qed.

Lemma formatErr_nil name r : formatErr name r = [] <-> r.2 = [].
Proof. unfold formatErr. by destruct r.2. Qed.

Section Named.
Context {A : Type} `{StepChecks} (section : string) (name_of : A -> string) (more : string -> A -> report).

(** If the check of named things finds nothing, every name is there once. *)
Lemma check_named_nil seen i l :
  (check_named section name_of more seen i l).1.2 = [] ->
  NoDup (name_of <$> l) /\
  Forall (fun x => name_of x <> "" /\ seen !! name_of x = None /\
                   exists identifier, (more identifier x).2 = []) l.
Proof.
  revert seen i. induction l as [|x l IH]; intros seen i; [intros _; split; [apply NoDup_nil_2|done]|].
  cbn [check_named]. cbv zeta.
  set (loc := {| loc_section := section; loc_index := i |}).
  specialize (IH (see (name_of x) loc seen) (S i)).
  destruct (check_named section name_of more (see (name_of x) loc seen) (S i) l) as [rest seen'].
  cbn [fst]. rewrite !join_errors. intros ((_ & Hrep & Hname & Hmore) & Hrest).
  apply err_if_errors, String.eqb_neq in Hname. destruct (IH Hrest) as [Hnd Hall]. clear IH Hrest.
  assert (Hx : seen !! name_of x = None).
  { unfold repeated in Hrep. destruct (seen !! name_of x); [done|]. done. }
  assert (Hsee : see (name_of x) loc seen = <[name_of x := loc]> seen).
  { unfold see. rewrite Hx. by apply String.eqb_neq in Hname as ->. }
  rewrite Hsee in Hall. split.
  - cbn. constructor; [|done]. intros (y & Heq & Hy)%list_elem_of_fmap.
    rewrite Forall_forall in Hall. destruct (Hall y Hy) as (_ & Hno & _).
    rewrite <- Heq, lookup_insert_eq in Hno. done.
  - constructor; [eauto|]. eapply Forall_impl; [exact Hall|]. intros y (Hne & Hno & Hm).
    apply lookup_insert_None in Hno as [Hno _]. eauto.
Qed.
End Named.

Lemma checked_get `{StepChecks} c s g : checked c s -> inl g ∈ ios s -> get_ok c g.
Proof.
  assert (Hl : forall l, Forall (fun s => checked c (Config s) -> inl g ∈ ios (Config s) -> get_ok c g) l ->
    foldr (fun s P => checked c (Config s) /\ P) True l ->
    inl g ∈ concat (map (fun s => ios (Config s)) l) -> get_ok c g).
  { induction 1 as [|s' l Hs _ IH]; cbn; [intros _ []%not_elem_of_nil|].
    intros [Hc Hcs] [Hg|Hg]%elem_of_app; auto. }
  induction s using step_ind; cbn [checked ios]; try (intros _ []%not_elem_of_nil);
    try (by apply Hl); try (intros [Hc Hd] [Hg|Hg]%elem_of_app; by auto); auto.
  - by intros Hs [[= ->]|[]%not_elem_of_nil]%elem_of_cons.
  - by intros _ [[=]|[]%not_elem_of_nil]%elem_of_cons.
  - intros (_ & _ & Hc). auto.
  - intros [Hc _]. auto.
  - intros [Hc _]. auto.
Qed.

Lemma accepted_jobs `{ConfigWorld, StepChecks} c :
  (validateJobs c).2 = [] ->
  NoDup (jc_Name <$> c_Jobs c) /\
  Forall (fun j => jc_Name j <> "" /\ checked c (JobConfig_StepConfig j)) (c_Jobs c).
Proof.
  unfold validateJobs. destruct (c_Jobs c) as [|j0 js] eqn:Hj; [done|]. rewrite <- Hj.
  intros [Hnd Hall]%check_named_nil. split; [done|]. eapply Forall_impl; [exact Hall|].
  intros j (Hn & _ & identifier & [_ Hs]%join_errors). split; [done|].
  destruct (Validate_spec c (JobConfig_Step j) [identifier; ".plan"]) as (v & Hv & _ & Hck).
  apply Hck. unfold steps_report, no_error in Hs. rewrite Hv in Hs. exact Hs.
Qed.

Lemma accepted_acyclic `{ConfigWorld} c :
  NoDup (jc_Name <$> c_Jobs c) -> (cycle_report c).2 = [] -> ~ exists j, j ∈ c_Jobs c /\ tc (waits_for c) j j.
Proof.
  intros Hnd. unfold cycle_report, validateCycle.
  destruct (validateCycle_from_spec c Hnd (c_Jobs c)) as [[-> Hs]|(n & -> & _)]; [done| |done].
  intros _ (j & Hj & Hc). rewrite Forall_forall in Hs. by eapply settled_acyclic; [by apply Hs|].
Qed.

(** C22: What [Validate] accepts can be scheduled and run.  If it reports no error
    for a pipeline, then its jobs have different names that are not empty, no job
    waits for itself through [passed], every [passed] glob names jobs that get or
    put the resource, and every job can be planned: [Create], given the pipeline's
    resources, a version for every get and the broker authorities the renderer
    made, returns a plan the engine can run, unless the substep of an across step
    cannot be encoded. *)
Theorem accepted_pipeline `{ConfigWorld, PlannerWorld, StepChecks} c :
  (config_Validate c).2 = [] ->
  NoDup (jc_Name <$> c_Jobs c) /\ Forall (fun j => jc_Name j <> "") (c_Jobs c) /\
  (~ exists j, j ∈ c_Jobs c /\ tc (waits_for c) j j) /\
  (forall job g, job ∈ c_Jobs c -> g ∈ gets (JobConfig_StepConfig job) ->
     Forall (passed_ok c (GetStep_ResourceName g)) (g_Passed g)) /\
  (forall job resources inputs manual n, job ∈ c_Jobs c ->
     provided c resources inputs (JobConfig_StepConfig job) ->
     let create := Create resources (c_ResourceTypes c) (c_Prototypes c) inputs manual
                     (JobConfig_StepConfig job) n in
     (exists plan n', create = (Ret plan, n') /\ runnable duration_ok (builder_plan plan) = true) \/
     (exists p n', create = (Fail (MarshalError p), n') /\ Marshal p = None)).
Proof.
  unfold config_Validate. destruct (validateResourceTypes c ∅) as [types seen].
  destruct (validatePrototypes c seen) as [protos seen']. cbn [snd].
  rewrite !app_nil, !formatErr_nil. intros (_ & _ & _ & _ & _ & Hjobs & _ & _ & Hcycle).
  apply accepted_jobs in Hjobs as [Hnd Hall]. rewrite Forall_forall in Hall.
  split; [done|]. split; [apply Forall_forall; intros j Hj; by apply Hall|].
  split; [by apply accepted_acyclic|]. split.
  - intros job g Hj Hg%elem_of_lefts. by eapply checked_get; [apply Hall|].
  - intros job resources inputs manual n Hj Hp. by apply planned_visit; [|apply Hall].
Qed.

(** ** A pipeline *)

Module ConfigExample.
Export Example.

(** YAML of a string is the string. *)
#[export] Instance config_world : ConfigWorld := {
  glob_Compile g := Some (String.eqb g);
  yaml_Marshal v := match v with VStr s => inr s | _ => inr "" end;
  url_Scheme _ := Some "";
  ParseFloat_ok _ := true;
  has_manager _ := true;
  manager_error _ := None;
  map_order l := l }.

Definition source (name config : string) : VarSourceConfig :=
  {| vs_Name := name; vs_Type := "vault"; vs_Config := VStr config |}.
End ConfigExample.

Section Witnesses.
Import ConfigExample.

Lemma accepted_pipeline_witness :
  (config_Validate Example.config).2 = [] /\
  ((exists plan n', Example.created = (Ret plan, n') /\ runnable duration_ok (builder_plan plan) = true) \/
   (exists p n', Example.created = (Fail (MarshalError p), n') /\ Marshal p = None)).
Proof.
  assert (He : (config_Validate Example.config).2 = []) by (vm_compute; reflexivity).
  split; [exact He|].
  refine (proj2 (proj2 (proj2 (proj2 (accepted_pipeline Example.config He)))) Example.job
    Example.resources Example.inputs false 1000%Z _ Example.provided_job).
  apply elem_of_cons. left. reflexivity.
Defined.

Lemma OrderByDependency_sound_witness :
  exists l, OrderByDependency [source "b" "((c:url))"; source "c" "https"] = inr l /\
    l = [source "c" "https"; source "b" "((c:url))"] /\ dependencies_first l.
Proof.
  eexists. assert (He : OrderByDependency [source "b" "((c:url))"; source "c" "https"]
    = inr [source "c" "https"; source "b" "((c:url))"]) by (vm_compute; reflexivity).
  split; [exact He|]. split; [reflexivity|]. exact (proj2 (OrderByDependency_sound _ _ He)).
Defined.

(** A chain of three sources in the opposite order is refused although it has no
    cycle: the pending sources are looked at once after each source is added, so
    [a], which waits for [b], is left behind when [b] is added in that pass. *)
Theorem OrderByDependency_gives_up :
  let sources := [source "a" "((b:url))"; source "b" "((c:url))"; source "c" "https"] in
  OrderByDependency sources = inl (Msg "could not resolve inter-dependent var sources: %s" ["a"]) /\
  dependencies_first (rev sources).
Proof.
  cbv zeta. split; [vm_compute; reflexivity|]. cbn [rev app].
  intros pre vs post Heq. destruct pre as [|x [|y [|z pre]]]; cbn in Heq; injection Heq;
    intros; subst; try (destruct pre; discriminate);
    (match goal with H : _ ∈ deps_of _ |- _ => vm_compute in H end); set_solver.
Qed.
End Witnesses.
