(* ===== verification/BuildLogs.v ===== *)
(** * The collector of build logs

    How many logs a job keeps ([atc/gc/build_log_retention_calculator.go]), the
    pages of its builds ([getBuildsWithPagination] of [atc/db/build_factory.go],
    [ChronoBuilds] of [atc/db/job.go]) and the collector that deletes the events
    of the others ([atc/gc/build_log_collector.go]).

    The rows of the job's builds are a list; a query sorts them.  Times are
    nanoseconds, 0 the zero time; a day is 24 hours (UTC). *)
From stdpp Require Import base gmap sets list sorting.
From Stdlib Require Import ZArith Lia.
From S2P Require Import Prelude Tables Parallel Steps.

Open Scope Z_scope.

(** ** Retention *)

Definition two64 : Z := 2 ^ 64.

(** [int(n)] of a [uint64]. *)
Definition int_of_uint64 (n : Z) : Z := if n <? 2 ^ 63 then n else n - two64.
(** [uint64(n)] of an [int]. *)
Definition uint64_of_int (n : Z) : Z := n mod two64.

Record buildLogRetentionCalculator := {
  defaultBuildLogsToRetain : Z;
  maxBuildLogsToRetain : Z;
  defaultDaysToRetainBuildLogs : Z;
  maxDaysToRetainBuildLogs : Z }.

(** The bound [max], unless a smaller positive number is wanted. *)
Definition capped (max wanted : Z) : Z :=
  if 0 <? max then if (0 <? wanted) && (wanted <? max) then wanted else max else wanted.

Definition BuildLogsToRetain (blrc : buildLogRetentionCalculator) (jobConfig : JobConfig)
    : BuildLogRetention :=
  let '(days, builds, minSuccess) :=
    match jc_BuildLogRetention jobConfig with
    | Some r => (blr_Days r, blr_Builds r, blr_MinimumSucceededBuilds r)
    | None => (0, jc_BuildLogsToRetain jobConfig, 0)
    end in
  let builds := if builds =? 0 then int_of_uint64 (defaultBuildLogsToRetain blrc) else builds in
  let days := if days =? 0 then int_of_uint64 (defaultDaysToRetainBuildLogs blrc) else days in
  if (maxBuildLogsToRetain blrc =? 0) && (maxDaysToRetainBuildLogs blrc =? 0) then
    {| blr_Builds := builds; blr_MinimumSucceededBuilds := minSuccess; blr_Days := days |}
  else
    let keptBuilds := capped (int_of_uint64 (maxBuildLogsToRetain blrc)) builds in
    let keptDays := capped (int_of_uint64 (maxDaysToRetainBuildLogs blrc)) days in
    {| blr_Builds := keptBuilds;
       blr_MinimumSucceededBuilds :=
         if (0 <=? minSuccess) && (minSuccess <=? keptBuilds) then minSuccess else 0;
       blr_Days := keptDays |}.

(** ** Pages of builds *)

(** [lb_rerun_of] is [COALESCE(rerun_of, rerun_of_old)]. *)
Record LogBuild := {
  lb_id : Z;
  lb_rerun_of : option Z;
  lb_completed : bool;
  lb_drained : bool;
  lb_status : BuildStatus;
  lb_end_time : Z;
  lb_reap_time : Z }.

Record Page := { pg_From : option Z; pg_To : option Z; pg_Limit : Z }.
Record Pagination := { Newer : option Page; Older : option Page }.

Inductive page_error := InvalidRange.

(** [COALESCE(b.rerun_of, b.rerun_of_old, b.id)] *)
Definition coalesced (b : LogBuild) : Z := default (lb_id b) (lb_rerun_of b).

Definition by_id (a b : LogBuild) : Prop := lb_id a <= lb_id b.
Definition by_rerun (a b : LogBuild) : Prop :=
  coalesced a < coalesced b \/ (coalesced a = coalesced b /\ lb_id a <= lb_id b).

#[global] Instance by_id_dec : RelDecision by_id.
Proof. intros a b. unfold by_id. apply _. Defined.
#[global] Instance by_rerun_dec : RelDecision by_rerun.
Proof. intros a b. unfold by_rerun. apply _. Defined.

(** [ORDER BY ... ASC] and [ORDER BY ... DESC]: the IDs are a key, so the order
    is total. *)
Definition asc (chronological : bool) (l : list LogBuild) : list LogBuild :=
  if chronological then merge_sort by_id l else merge_sort by_rerun l.
Definition desc (chronological : bool) (l : list LogBuild) : list LogBuild := rev (asc chronological l).

Definition limit_to (limit : Z) (l : list LogBuild) : list LogBuild :=
  take (Z.to_nat (uint64_of_int limit)) l.

Definition id_ge (z : Z) (l : list LogBuild) : list LogBuild := filter (fun b => uint64_of_int z <= lb_id b) l.
Definition id_le (z : Z) (l : list LogBuild) : list LogBuild := filter (fun b => lb_id b <= uint64_of_int z) l.

(** The builds of a page, newest first. *)
Definition page_builds (chronological : bool) (page : Page) (rows : list LogBuild)
    : outcome page_error (list LogBuild) :=
  match pg_From page, pg_To page with
  | None, None => Ret (limit_to (pg_Limit page) (desc chronological rows))
  | Some from, None => Ret (rev (limit_to (pg_Limit page) (asc chronological (id_ge from rows))))
  | None, Some to => Ret (limit_to (pg_Limit page) (desc chronological (id_le to rows)))
  | Some from, Some to =>
      if to <? from then Fail InvalidRange
      else Ret (limit_to (pg_Limit page) (asc chronological (id_le to (id_ge from rows))))
  end.

(** [getBuildsWithPagination]: the first build of the neighbouring pages is
    looked for in the order of reruns, whatever the order of the page. *)
Definition getBuildsWithPagination (rows : list LogBuild) (page : Page) (chronological : bool)
    : outcome page_error (list LogBuild * Pagination) :=
  builds ← page_builds chronological page rows;
  match head builds, last builds with
  | Some newestBuild, Some oldestBuild =>
      let older := head (desc false (filter (fun b => lb_id b < lb_id oldestBuild) rows)) in
      let newer := head (asc false (filter (fun b => lb_id newestBuild < lb_id b) rows)) in
      Ret (builds,
        {| Newer := (fun b => {| pg_From := Some (lb_id b); pg_To := None; pg_Limit := pg_Limit page |}) <$> newer;
           Older := (fun b => {| pg_From := None; pg_To := Some (lb_id b); pg_Limit := pg_Limit page |}) <$> older |})
  | _, _ => Ret (builds, {| Newer := None; Older := None |})
  end.

Definition ChronoBuilds (rows : list LogBuild) (page : Page) : outcome page_error (list LogBuild * Pagination) :=
  getBuildsWithPagination rows page true.

(** ** The collector *)

(** The loop over the pages: the builds that are not reaped, newest first. *)
Fixpoint collect (fuel : nat) (rows : list LogBuild) (page : option Page) (acc : list LogBuild)
    : outcome page_error (list LogBuild) :=
  match page with
  | None => Ret acc
  | Some page =>
      match fuel with
      | O => NoFuel
      | S fuel =>
          '(builds, pagination) ← ChronoBuilds rows page;
          collect fuel rows (Newer pagination) (filter (fun b => lb_reap_time b = 0) builds ++ acc)
      end
  end.

(** Each page after the first starts at a build newer than those before it. *)
Definition collect_fuel (rows : list LogBuild) : nat := S (S (length rows)).

Definition buildsToConsiderDeleting (rows : list LogBuild) (from batchSize : Z)
    : outcome page_error (list LogBuild) :=
  collect (collect_fuel rows) rows (Some {| pg_From := Some from; pg_To := None; pg_Limit := batchSize |}) [].

Definition day : Z := 24 * 60 * 60 * 1000000000.

Record reaping := {
  buildIDsToDelete : list Z;
  candidateBuildIDsToKeep : list Z;
  retainedBuilds : Z;
  retainedSucceededBuilds : Z;
  firstLoggedBuildID : Z }.

Definition reaping_start : reaping :=
  {| buildIDsToDelete := []; candidateBuildIDsToKeep := []; retainedBuilds := 0;
     retainedSucceededBuilds := 0; firstLoggedBuildID := 0 |}.

Section Collector.
Context (drainerConfigured : bool) (now : Z) (logRetention : BuildLogRetention).

Definition buildHasExpired (build : LogBuild) : bool :=
  negb (lb_end_time build =? 0) && (lb_end_time build + blr_Days logRetention * day <? now).

Definition skip (build : LogBuild) (r : reaping) : reaping :=
  {| buildIDsToDelete := buildIDsToDelete r; candidateBuildIDsToKeep := candidateBuildIDsToKeep r;
     retainedBuilds := retainedBuilds r; retainedSucceededBuilds := retainedSucceededBuilds r;
     firstLoggedBuildID := lb_id build |}.
Definition keep_succeeded (build : LogBuild) (r : reaping) : reaping :=
  {| buildIDsToDelete := buildIDsToDelete r; candidateBuildIDsToKeep := candidateBuildIDsToKeep r;
     retainedBuilds := retainedBuilds r + 1; retainedSucceededBuilds := retainedSucceededBuilds r + 1;
     firstLoggedBuildID := lb_id build |}.
Definition keep_candidate (build : LogBuild) (r : reaping) : reaping :=
  {| buildIDsToDelete := buildIDsToDelete r;
     candidateBuildIDsToKeep := candidateBuildIDsToKeep r ++ [lb_id build];
     retainedBuilds := retainedBuilds r + 1; retainedSucceededBuilds := retainedSucceededBuilds r;
     firstLoggedBuildID := lb_id build |}.
Definition to_delete (build : LogBuild) (r : reaping) : reaping :=
  {| buildIDsToDelete := buildIDsToDelete r ++ [lb_id build];
     candidateBuildIDsToKeep := candidateBuildIDsToKeep r;
     retainedBuilds := retainedBuilds r; retainedSucceededBuilds := retainedSucceededBuilds r;
     firstLoggedBuildID := firstLoggedBuildID r |}.

Definition is_succeeded (s : BuildStatus) : bool := match s with BuildStatusSucceeded => true | _ => false end.

(** One turn of the loop over the builds. *)
Definition reap_build (r : reaping) (build : LogBuild) : reaping :=
  if negb (lb_completed build) then skip build r
  else if drainerConfigured && negb (lb_drained build) then skip build r
  else
    let maxBuildsRetained := blr_Builds logRetention <=? retainedBuilds r in
    if negb (blr_Builds logRetention =? 0) && negb (blr_MinimumSucceededBuilds logRetention =? 0) &&
       is_succeeded (lb_status build) &&
       (retainedSucceededBuilds r <? blr_MinimumSucceededBuilds logRetention)
    then keep_succeeded build r
    else if negb (blr_Builds logRetention =? 0) && negb maxBuildsRetained then keep_candidate build r
    else if negb (blr_Days logRetention =? 0) && negb (buildHasExpired build) then keep_candidate build r
    else to_delete build r.

(** The last [delta] candidates, the oldest first; an index below 0 panics. *)
Fixpoint oldest_candidates (delta : nat) (candidates : list Z) : outcome page_error (list Z) :=
  match delta with
  | O => Ret []
  | S delta =>
      match last candidates with
      | None => Panic
      | Some id => rest ← oldest_candidates delta (removelast candidates); Ret (id :: rest)
      end
  end.

(** The builds whose events are deleted, and the new first logged build. *)
Definition reap (builds : list LogBuild) : outcome page_error (list Z * Z) :=
  let r := foldl reap_build reaping_start builds in
  match buildIDsToDelete r with
  | [] => Ret ([], 0)
  | ids =>
      let delta := if negb (blr_Builds logRetention =? 0) then retainedBuilds r - blr_Builds logRetention else 0 in
      trimmed ← oldest_candidates (Z.to_nat delta) (candidateBuildIDsToKeep r);
      Ret (ids ++ trimmed, firstLoggedBuildID r)
  end.
End Collector.

(** [DeleteBuildEventsByBuildIDs] *)
Definition reap_rows (now : Z) (ids : list Z) (rows : list LogBuild) : list LogBuild :=
  (fun b =>
    if bool_decide (lb_id b ∈ ids)
    then {| lb_id := lb_id b; lb_rerun_of := lb_rerun_of b; lb_completed := lb_completed b;
            lb_drained := lb_drained b; lb_status := lb_status b; lb_end_time := lb_end_time b;
            lb_reap_time := now |}
    else b) <$> rows.

(** [reapLogsOfJob]: the rows and the first logged build of the job after it. *)
Definition reapLogsOfJob (blrc : buildLogRetentionCalculator) (drainerConfigured : bool) (batchSize now : Z)
    (jobConfig : JobConfig) (rows : list LogBuild) (jobFirstLogged : Z)
    : outcome page_error (list LogBuild * Z) :=
  let logRetention := BuildLogsToRetain blrc jobConfig in
  if (blr_Builds logRetention =? 0) && (blr_Days logRetention =? 0) then Ret (rows, jobFirstLogged)
  else
    builds ← buildsToConsiderDeleting rows jobFirstLogged batchSize;
    '(ids, firstLogged) ← reap drainerConfigured now logRetention builds;
    match ids with
    | [] => Ret (rows, jobFirstLogged)
    | _ =>
        Ret (reap_rows now ids rows,
             if jobFirstLogged <? firstLogged then firstLogged else jobFirstLogged)
    end.
