(* ===== verification/BuildLogsSpec.v ===== *)
(** * What the collector of build logs keeps

    Without reruns the pages of the collector hold every build that is not
    reaped, newest first; [sorted_out] is the invariant of its loop over them;
    together they say what a pass keeps and deletes. *)
From stdpp Require Import base gmap sets list sorting.
From Stdlib Require Import ZArith Lia.
From stdpp Require Import strings.
From S2P Require Import Prelude Tables Parallel Steps StepValidator ConfigValidate BuildLogs.

Open Scope Z_scope.

(** ** The pages of the collector *)

Section Pages.
Implicit Types (l rows : list LogBuild) (b : LogBuild).

#[local] Instance by_id_trans : Transitive by_id.
Proof. intros a b c. unfold by_id. lia. Qed.
#[local] Instance by_id_total : Total by_id.
Proof. intros a b. unfold by_id. lia. Qed.
#[local] Instance by_rerun_trans : Transitive by_rerun.
Proof. intros a b c. unfold by_rerun. lia. Qed.
#[local] Instance by_rerun_total : Total by_rerun.
Proof. intros a b. unfold by_rerun. lia. Qed.

(** Lists whose IDs increase are determined by their elements. *)
Definition increasing l : Prop := StronglySorted Z.lt (lb_id <$> l).

Lemma increasing_cons b l : increasing (b :: l) <-> Forall (fun c => lb_id b < lb_id c) l /\ increasing l.
Proof.
  unfold increasing. cbn. split.
  - intros Hs. apply StronglySorted_inv in Hs as [Hs Hf]. split; [|done]. by rewrite Forall_fmap in Hf.
  - intros [Hf Hs]. constructor; [done|]. by rewrite Forall_fmap.
Qed.

Lemma increasing_perm l l' : increasing l -> increasing l' -> l ≡ₚ l' -> l = l'.
Proof.
  revert l'. induction l as [|b l IH]; intros l' Hl Hl' Hp; [by apply Permutation_nil in Hp|].
  destruct l' as [|b' l']; [by apply Permutation_sym, Permutation_nil in Hp|].
  apply increasing_cons in Hl as [Hb Hl]. apply increasing_cons in Hl' as [Hb' Hl'].
  rewrite Forall_forall in Hb, Hb'.
  assert (b = b') as <-.
  { assert (Hin : b ∈ b' :: l') by (rewrite <- Hp; set_solver).
    assert (Hin' : b' ∈ b :: l) by (rewrite Hp; set_solver).
    apply elem_of_cons in Hin as [|Hin]; [done|]. apply elem_of_cons in Hin' as [|Hin']; [done|].
    specialize (Hb _ Hin'). specialize (Hb' _ Hin). lia. }
  f_equal. apply IH; [done..|]. by apply Permutation_cons_inv in Hp.
Qed.

Lemma sorted_increasing l : NoDup (lb_id <$> l) -> StronglySorted by_id l -> increasing l.
Proof.
  intros Hnd Hs. induction Hs as [|b l Hs IH Hf]; [constructor|]. cbn in Hnd.
  apply NoDup_cons in Hnd as [Hb Hnd]. apply increasing_cons. split; [|auto].
  apply Forall_forall. intros c Hc. rewrite Forall_forall in Hf. specialize (Hf _ Hc). unfold by_id in Hf.
  assert (lb_id b <> lb_id c); [|lia]. intros Heq. apply Hb. rewrite Heq. by apply list_elem_of_fmap_2.
Qed.

Lemma increasing_filter (P : LogBuild -> Prop) `{!forall b, Decision (P b)} l :
  increasing l -> increasing (filter P l).
Proof.
  induction l as [|b l IH]; [done|]. rewrite increasing_cons. intros [Hb Hl]. rewrite filter_cons.
  case_decide; [|auto]. apply increasing_cons. split; [|auto].
  rewrite Forall_forall in *. intros c [_ Hc]%list_elem_of_filter. auto.
Qed.

Context (rows : list LogBuild) (Hids : NoDup (lb_id <$> rows)).

(** The builds of the job, oldest first. *)
Definition chronological : list LogBuild := merge_sort by_id rows.

Lemma chronological_perm : chronological ≡ₚ rows.
Proof. apply merge_sort_Permutation. Qed.

Lemma sort_increasing l : NoDup (lb_id <$> l) -> increasing (merge_sort by_id l).
Proof.
  intros Hl. apply sorted_increasing.
  - by rewrite merge_sort_Permutation.
  - exact (StronglySorted_merge_sort by_id l).
Qed.

Lemma chronological_increasing : increasing chronological.
Proof. by apply sort_increasing. Qed.

(** Sorting a selection is selecting from the sorted builds. *)
Lemma asc_filter (P : LogBuild -> Prop) `{!forall b, Decision (P b)} :
  asc true (filter P rows) = filter P chronological.
Proof.
  apply increasing_perm.
  - apply sort_increasing. by apply NoDup_fmap_filter.
  - apply increasing_filter, chronological_increasing.
  - cbn. rewrite merge_sort_Permutation. unfold chronological. by rewrite merge_sort_Permutation.
Qed.

Context (Hreruns : Forall (fun b => lb_rerun_of b = None) rows).

(** Without reruns the two orders are the same. *)
Lemma asc_reruns (P : LogBuild -> Prop) `{!forall b, Decision (P b)} :
  asc false (filter P rows) = filter P chronological.
Proof.
  apply increasing_perm.
  - apply sorted_increasing; [cbn; rewrite merge_sort_Permutation; by apply NoDup_fmap_filter|].
    cbn. assert (Hs : StronglySorted by_rerun (merge_sort by_rerun (filter P rows))) by exact (StronglySorted_merge_sort by_rerun _).
    assert (Hall : Forall (fun b => lb_rerun_of b = None) (merge_sort by_rerun (filter P rows))).
    { rewrite merge_sort_Permutation. rewrite Forall_forall in *. intros b [_ Hb]%list_elem_of_filter. auto. }
    induction Hs as [|b l Hs IH Hf]; [constructor|]. apply Forall_cons in Hall as [Hb Hl].
    constructor; [auto|]. rewrite Forall_forall in *. intros c Hc. specialize (Hf _ Hc). specialize (Hl _ Hc).
    unfold by_rerun, coalesced in Hf. rewrite Hb, Hl in Hf. cbn in Hf. unfold by_id. lia.
  - apply increasing_filter, chronological_increasing.
  - cbn. rewrite merge_sort_Permutation. unfold chronological. by rewrite merge_sort_Permutation.
Qed.

Lemma increasing_split A b B :
  increasing (A ++ b :: B) ->
  filter (fun c => lb_id b < lb_id c) (A ++ b :: B) = B /\ filter (fun c => lb_id b <= lb_id c) (A ++ b :: B) = b :: B.
Proof.
  induction A as [|a A IH]; cbn [app]; rewrite increasing_cons; intros [Ha Hs].
  - rewrite filter_cons_False, filter_cons_True by lia.
    rewrite !filter_all; [done| |]; eapply Forall_impl; try exact Ha; cbn; lia.
  - rewrite Forall_forall in Ha. specialize (Ha b ltac:(set_solver)).
    rewrite !filter_cons_False by lia. auto.
Qed.

Context (Hrange : Forall (fun b => 0 <= lb_id b < two64) rows) (limit : Z) (Hlimit : 0 < limit < two64).

Lemma uint64_small z : 0 <= z < two64 -> uint64_of_int z = z.
Proof. intros. unfold uint64_of_int. by apply Z.mod_small. Qed.

Lemma page_builds_from from :
  0 <= from < two64 ->
  page_builds true {| pg_From := Some from; pg_To := None; pg_Limit := limit |} rows =
  Ret (rev (take (Z.to_nat limit) (filter (fun b => from <= lb_id b) chronological))).
Proof.
  intros Hf. unfold page_builds. cbn [pg_From pg_To pg_Limit]. unfold limit_to, id_ge.
  rewrite asc_filter, !uint64_small by (done || lia). done.
Qed.

Lemma head_asc_newer A b B :
  chronological = A ++ b :: B -> asc false (filter (fun c => lb_id b < lb_id c) rows) = B.
Proof.
  intros Heq. rewrite asc_reruns, Heq. apply increasing_split. rewrite <- Heq. apply chronological_increasing.
Qed.

Lemma collect_from fuel A T acc from :
  (length T < fuel)%nat -> chronological = A ++ T -> filter (fun b => from <= lb_id b) chronological = T ->
  0 <= from < two64 ->
  collect fuel rows (Some {| pg_From := Some from; pg_To := None; pg_Limit := limit |}) acc =
  Ret (filter (fun b => lb_reap_time b = 0) (rev T) ++ acc).
Proof.
  revert A T acc from. induction fuel as [|fuel IH]; intros A T acc from Hlen Heq HT Hf; [lia|].
  cbn [collect]. unfold ChronoBuilds, getBuildsWithPagination. rewrite page_builds_from, HT by done.
  cbn [mbind outcome_bind]. set (k := Z.to_nat limit). assert (Hk : (0 < k)%nat) by lia.
  assert (Hsplit : take k T ++ drop k T = T) by apply take_drop.
  assert (Hnil : take k T = [] -> T = []) by (destruct T; [done|]; destruct k; [lia|done]).
  revert Hsplit Hnil. generalize (take k T) (drop k T). intros P' D Hsplit Hnil. clear HT. subst T.
  destruct P' as [|x P _] using rev_ind.
  { rewrite (Hnil eq_refl). by destruct fuel. }
  clear Hnil. rewrite rev_app_distr. cbn [rev app head].
  destruct (last (x :: rev P)) as [oldest|] eqn:Hl; [|by apply last_None in Hl].
  cbn [mbind outcome_bind Newer pg_Limit].
  rewrite (head_asc_newer (A ++ P) x D); cycle 1.
  { rewrite Heq, <- !(assoc_L (++)). done. }
  assert (HrevT : rev ((P ++ [x]) ++ D) = rev D ++ x :: rev P).
  { by rewrite rev_app_distr, rev_app_distr. }
  destruct D as [|y T']; cbn [head fmap option_fmap option_map].
  - rewrite HrevT. cbn. by destruct fuel.
  - assert (Heq' : chronological = (A ++ P ++ [x]) ++ y :: T').
    { rewrite Heq, <- !(assoc_L (++)). done. }
    rewrite (IH (A ++ P ++ [x]) (y :: T')).
    + rewrite HrevT, filter_app, <- (assoc_L (++)). done.
    + rewrite !length_app in Hlen. cbn in Hlen |- *. lia.
    + done.
    + rewrite Heq' at 1. eapply increasing_split. rewrite <- Heq'. apply chronological_increasing.
    + rewrite Forall_forall in Hrange. apply Hrange.
      rewrite <- (chronological_perm : Permutation _ _), Heq'. set_solver.
Qed.

(** Without reruns, the pages hold every build from the first logged one on. *)
Lemma buildsToConsiderDeleting_all from :
  0 <= from < two64 ->
  buildsToConsiderDeleting rows from limit =
  Ret (filter (fun b => lb_reap_time b = 0) (rev (filter (fun b => from <= lb_id b) chronological))).
Proof.
  intros Hf. unfold buildsToConsiderDeleting.
  assert (Hsuf : exists A, chronological = A ++ filter (fun b => from <= lb_id b) chronological).
  { generalize chronological_increasing. generalize chronological. clear. induction l as [|b l IH]; [by exists []|].
    rewrite increasing_cons. intros [Hb Hs]. rewrite filter_cons. case_decide as Hd.
    - exists []. cbn. f_equal. symmetry. apply filter_all. eapply Forall_impl; [exact Hb|]. cbn. lia.
    - destruct (IH Hs) as [A HA]. exists (b :: A). cbn. by rewrite <- HA. }
  destruct Hsuf as [A HA]. rewrite (collect_from _ A (filter (fun b => from <= lb_id b) chronological));
    [by rewrite app_nil_r| |done..].
  unfold collect_fuel. apply Nat.lt_succ_r. etrans; [apply length_filter|].
  rewrite (Permutation_length chronological_perm). lia.
Qed.
End Pages.

(** ** The loop over the builds *)

(** Builds, newest first. *)
Definition decreasing (l : list LogBuild) : Prop := StronglySorted (fun a b => lb_id b < lb_id a) l.

Section Loop.
Context (drainerConfigured : bool) (now : Z) (R : BuildLogRetention).

(** The builds whose events may be deleted. *)
Definition finished (b : LogBuild) : bool := lb_completed b && (negb drainerConfigured || lb_drained b).

Definition finished_succeeded (b : LogBuild) : bool := finished b && is_succeeded (lb_status b).

(** The newest successful builds the retention asks to keep. *)
Definition minimum_succeeded (l : list LogBuild) : list LogBuild :=
  if blr_Builds R =? 0 then []
  else take (Z.to_nat (blr_MinimumSucceededBuilds R)) (filter (fun b => finished_succeeded b = true) l).

(** [C] are the candidates to keep and [D] the builds to delete among [l]. *)
Record sorted_out (l C D : list LogBuild) (r : reaping) : Prop := {
  so_split : filter (fun b => finished b = true) l ≡ₚ minimum_succeeded l ++ C ++ D;
  so_candidates : candidateBuildIDsToKeep r = lb_id <$> C;
  so_delete : buildIDsToDelete r = lb_id <$> D;
  so_succeeded : retainedSucceededBuilds r = Z.of_nat (length (minimum_succeeded l));
  so_retained : retainedBuilds r = Z.of_nat (length (minimum_succeeded l) + length C);
  so_full : D <> [] -> blr_Builds R <> 0 -> blr_Builds R <= retainedBuilds r;
  so_expired : Forall (fun b => blr_Days R <> 0 -> buildHasExpired now R b = true) D;
  so_few : blr_Builds R = 0 -> blr_Days R <> 0 -> Forall (fun b => buildHasExpired now R b = false) C;
  so_first : forall b, b ∈ l -> b ∉ D -> firstLoggedBuildID r <= lb_id b }.

Lemma sorted_out_start : sorted_out [] [] [] reaping_start.
Proof.
  split; cbn; unfold minimum_succeeded; cbn; rewrite ?take_nil; try destruct (_ =? _); cbn; try done.
  all: set_solver.
Qed.

Lemma minimum_succeeded_snoc l b :
  minimum_succeeded (l ++ [b]) =
  minimum_succeeded l ++
  (if negb (blr_Builds R =? 0) && finished_succeeded b &&
      (Z.of_nat (length (minimum_succeeded l)) <? blr_MinimumSucceededBuilds R) then [b] else []).
Proof.
  unfold minimum_succeeded. destruct (blr_Builds R =? 0); [done|]. cbn [negb andb].
  rewrite filter_app. set (F := filter _ l). set (n := blr_MinimumSucceededBuilds R).
  rewrite take_app, length_take. f_equal. rewrite filter_cons, filter_nil.
  destruct (finished_succeeded b) eqn:E; cbn [andb]; [rewrite decide_True by done|by rewrite decide_False, take_nil by done].
  destruct (Z.of_nat _ <? n) eqn:Hlt; [apply Z.ltb_lt in Hlt|apply Z.ltb_ge in Hlt].
  - rewrite take_ge; [done|]. cbn. lia.
  - replace (Z.to_nat n - length F)%nat with O by lia. done.
Qed.

Lemma decreasing_snoc l b : decreasing (l ++ [b]) -> decreasing l /\ Forall (fun c => lb_id b < lb_id c) l.
Proof.
  intros Hs. apply StronglySorted_app in Hs as (Hlt & Hl & _). split; [done|].
  apply Forall_forall. intros c Hc. apply Hlt; set_solver.
Qed.

(** A kept build is the oldest so far. *)
Lemma first_kept l (D : list LogBuild) b :
  Forall (fun c => lb_id b < lb_id c) l -> forall c, c ∈ l ++ [b] -> c ∉ D -> lb_id b <= lb_id c.
Proof.
  rewrite Forall_forall. intros Hb c [Hc|Hc]%elem_of_app _; [specialize (Hb _ Hc); lia|].
  apply list_elem_of_singleton in Hc as ->. lia.
Qed.

(** A build that is not finished leaves the decisions as they were. *)
Lemma skip_sorted_out l C D r b :
  sorted_out l C D r -> Forall (fun c => lb_id b < lb_id c) l -> finished b = false ->
  sorted_out (l ++ [b]) C D (skip b r).
Proof.
  intros [Hsplit Hcand Hdel Hsucc Hret Hfull Hexp Hfew _] Hb Hf.
  assert (Hm : minimum_succeeded (l ++ [b]) = minimum_succeeded l).
  { rewrite minimum_succeeded_snoc. unfold finished_succeeded. rewrite Hf. cbn [andb].
    rewrite andb_false_r. cbn. by rewrite app_nil_r. }
  split; rewrite ?Hm; try done.
  - rewrite filter_app, filter_cons_False by congruence. by rewrite filter_nil, app_nil_r.
  - by apply (first_kept l D b).
Qed.

(** A finished build that is none of the required successful ones. *)
Lemma candidate_sorted_out l C D r b :
  sorted_out l C D r -> Forall (fun c => lb_id b < lb_id c) l -> finished b = true ->
  minimum_succeeded (l ++ [b]) = minimum_succeeded l ->
  (blr_Builds R = 0 -> blr_Days R <> 0 -> buildHasExpired now R b = false) ->
  sorted_out (l ++ [b]) (C ++ [b]) D (keep_candidate b r).
Proof.
  intros [Hsplit Hcand Hdel Hsucc Hret Hfull Hexp Hfew _] Hb Hf Hm Hage.
  split; cbn; rewrite ?Hm; try done.
  - rewrite filter_app, filter_cons_True, Hsplit, filter_nil by done. solve_Permutation.
  - rewrite Hcand, fmap_app. done.
  - rewrite length_app. cbn. lia.
  - intros HD HR. specialize (Hfull HD HR). lia.
  - intros H0 Hdays. apply Forall_app. split; [auto|]. by repeat constructor; auto.
  - by apply (first_kept l D b).
Qed.

Lemma reap_build_sorted_out l C D r b :
  sorted_out l C D r -> decreasing (l ++ [b]) ->
  exists C' D', sorted_out (l ++ [b]) C' D' (reap_build drainerConfigured now R r b).
Proof.
  intros Hso Hdec. apply decreasing_snoc in Hdec as [_ Hb]. unfold reap_build.
  assert (Hfin : finished b = lb_completed b && negb (drainerConfigured && negb (lb_drained b))).
  { unfold finished. by destruct drainerConfigured, (lb_drained b). }
  destruct (lb_completed b); cbn [negb andb] in *; [|exists C, D; by apply skip_sorted_out].
  destruct (drainerConfigured && negb (lb_drained b)); cbn [negb] in Hfin; [exists C, D; by apply skip_sorted_out|].
  set (kept := negb (blr_Builds R =? 0) && negb (blr_MinimumSucceededBuilds R =? 0) && _ && _).
  assert (Hkept : minimum_succeeded (l ++ [b]) = minimum_succeeded l ++ (if kept then [b] else [])).
  { rewrite minimum_succeeded_snoc. unfold kept, finished_succeeded. rewrite Hfin, (so_succeeded _ _ _ _ Hso). cbn [andb].
    do 2 f_equal. destruct (blr_Builds R =? 0); [done|]. destruct (is_succeeded _); cbn [negb andb]; rewrite ?andb_false_r; [|done].
    destruct (Z.eqb_spec (blr_MinimumSucceededBuilds R) 0) as [->|]; cbn [negb andb]; [|done].
    by rewrite (proj2 (Z.ltb_ge _ _)) by lia. }
  clearbody kept. pose proof Hso as [Hsplit Hcand Hdel Hsucc Hret Hfull Hexp Hfew Hfirst]. destruct kept.
  { exists C, D. split; cbn; try done; rewrite ?Hkept, ?length_app; cbn; try lia.
    - rewrite filter_app, filter_cons_True, Hsplit, filter_nil by done. solve_Permutation.
    - intros HD HR. specialize (Hfull HD HR). lia.
    - by apply (first_kept l D b). }
  rewrite app_nil_r in Hkept.
  destruct (negb (blr_Builds R =? 0) && _) eqn:Hroom.
  { exists (C ++ [b]), D. apply candidate_sorted_out; try done. intros H0. by rewrite H0 in Hroom. }
  destruct (negb (blr_Days R =? 0) && _) eqn:Hage.
  { exists (C ++ [b]), D. apply candidate_sorted_out; try done. intros _ _.
    apply andb_true_iff in Hage as [_ Hage]. by apply negb_true_iff. }
  exists C, (D ++ [b]). split; cbn; rewrite ?Hkept; try done.
  - rewrite filter_app, filter_cons_True, Hsplit, filter_nil by done. solve_Permutation.
  - rewrite Hdel, fmap_app. done.
  - intros _ HR. rewrite (proj2 (Z.eqb_neq _ _) HR) in Hroom. cbn in Hroom. apply negb_false_iff, Z.leb_le in Hroom. done.
  - apply Forall_app. split; [done|]. repeat constructor. intros Hdays.
    rewrite (proj2 (Z.eqb_neq _ _) Hdays) in Hage. cbn in Hage. by apply negb_false_iff in Hage.
  - intros c [Hc|Hc]%elem_of_app Hnot; [apply Hfirst; [done|]|]; set_solver.
Qed.

Lemma reap_sorted_out l : decreasing l -> exists C D, sorted_out l C D (foldl (reap_build drainerConfigured now R) reaping_start l).
Proof.
  induction l as [|b l IH] using rev_ind; [exists [], []; apply sorted_out_start|].
  intros Hdec. destruct (decreasing_snoc _ _ Hdec) as [Hl _]. destruct (IH Hl) as (C & D & Hso).
  rewrite foldl_snoc. by apply (reap_build_sorted_out l C D).
Qed.

Lemma oldest_candidates_ret delta ids :
  (delta <= length ids)%nat -> oldest_candidates delta ids = Ret (rev (drop (length ids - delta) ids)).
Proof.
  revert ids. induction delta as [|delta IH]; intros ids Hle.
  { rewrite drop_ge by lia. done. }
  destruct ids as [|id ids _] using rev_ind; [cbn in Hle; lia|]. rewrite length_app in Hle |- *. cbn in Hle |- *.
  rewrite last_snoc, removelast_last, IH by lia. cbn.
  replace (length ids + 1 - S delta)%nat with (length ids - delta)%nat by lia.
  rewrite drop_app_le by lia. by rewrite rev_app_distr.
Qed.

(** What a pass over the builds decides: [K] stays besides the required
    successful builds, [D] is deleted. *)
Lemma reap_spec l :
  decreasing l -> 0 <= blr_Builds R -> blr_MinimumSucceededBuilds R <= blr_Builds R ->
  exists K D ids first,
    reap drainerConfigured now R l = Ret (ids, first) /\ ids ≡ₚ lb_id <$> D /\
    filter (fun b => finished b = true) l ≡ₚ minimum_succeeded l ++ K ++ D /\
    (D <> [] -> blr_Builds R <> 0 -> Z.of_nat (length (minimum_succeeded l ++ K)) = blr_Builds R) /\
    (blr_Builds R = 0 -> blr_Days R <> 0 -> Forall (fun b => buildHasExpired now R b = true) D) /\
    (D <> [] -> forall b, b ∈ l -> b ∉ D -> first <= lb_id b).
Proof.
  intros Hdec HB Hmin. destruct (reap_sorted_out l Hdec) as (C & D & [Hsplit Hcand Hdel _ Hret Hfull Hexp _ Hfirst]).
  unfold reap. set (r := foldl _ _ _) in *. rewrite Hdel.
  destruct D as [|d D]; [exists C, [], [], 0; cbn; by repeat split|].
  specialize (Hfull ltac:(done)). set (D1 := d :: D) in *. change (lb_id <$> D1) with (lb_id d :: (lb_id <$> D)).
  set (delta := if negb (blr_Builds R =? 0) then _ else _).
  set (n := (length C - Z.to_nat delta)%nat).
  assert (Hdelta : 0 <= delta /\ (Z.to_nat delta <= length C)%nat /\
    (blr_Builds R <> 0 -> Z.of_nat (length (minimum_succeeded l) + n) = blr_Builds R) /\
    (blr_Builds R = 0 -> delta = 0)).
  { unfold n, delta. destruct (Z.eqb_spec (blr_Builds R) 0) as [|Hne]; cbn [negb]; [repeat split; lia|].
    specialize (Hfull Hne). assert (Hlen : (length (minimum_succeeded l) <= Z.to_nat (blr_MinimumSucceededBuilds R))%nat).
    { unfold minimum_succeeded. destruct (_ =? 0); [cbn; lia|]. rewrite length_take. lia. }
    repeat split; lia. }
  destruct Hdelta as (Hpos & Hle & Hexact & Hzero).
  rewrite Hcand, oldest_candidates_ret by (by rewrite length_fmap). cbn [mbind outcome_bind].
  rewrite length_fmap. fold n. rewrite <- fmap_drop.
  exists (take n C), (drop n C ++ D1), ((lb_id <$> D1) ++ rev (lb_id <$> drop n C)), (firstLoggedBuildID r).
  repeat split.
  - rewrite fmap_app. rewrite <- Permutation_rev. apply Permutation_app_comm.
  - rewrite Hsplit. rewrite <- (take_drop n C) at 1. by rewrite <- !(assoc_L (++)).
  - intros _ Hne. rewrite length_app, length_take_le by lia. auto.
  - intros H0 Hdays. rewrite (drop_ge C) by (unfold n; rewrite (Hzero H0); cbn; lia). cbn [app].
    eapply Forall_impl; [exact Hexp|]. auto.
  - intros _ b Hb Hnot. apply Hfirst; [done|]. set_solver.
Qed.
End Loop.

(** The builds a pass considers, newest first. *)
Definition considered (rows : list LogBuild) (first : Z) : list LogBuild :=
  filter (fun b => lb_reap_time b = 0) (rev (filter (fun b => first <= lb_id b) (chronological rows))).

Lemma considered_in rows first b : b ∈ considered rows first <-> b ∈ rows /\ lb_reap_time b = 0 /\ first <= lb_id b.
Proof.
  unfold considered. rewrite list_elem_of_filter, <- Permutation_rev, list_elem_of_filter.
  unfold chronological. rewrite (merge_sort_Permutation by_id rows). naive_solver.
Qed.

Lemma increasing_rev l : increasing l -> decreasing (rev l).
Proof.
  unfold decreasing. induction l as [|b l IH]; [constructor|]. rewrite increasing_cons. intros [Hb Hl]. cbn [rev].
  apply StronglySorted_app. split_and!; [|auto|repeat constructor].
  intros c d Hc Hd%list_elem_of_singleton. rewrite <- Permutation_rev in Hc. rewrite Forall_forall in Hb. subst d. auto.
Qed.

Lemma decreasing_filter (P : LogBuild -> Prop) `{!forall b, Decision (P b)} l :
  decreasing l -> decreasing (filter P l).
Proof.
  unfold decreasing. induction 1 as [|b l Hl IH Hb]; [constructor|]. rewrite filter_cons. case_decide; [|done].
  constructor; [done|]. rewrite Forall_forall in *. intros c [_ Hc]%list_elem_of_filter. auto.
Qed.

Lemma considered_decreasing rows first : NoDup (lb_id <$> rows) -> decreasing (considered rows first).
Proof. intros. by apply decreasing_filter, increasing_rev, increasing_filter, chronological_increasing. Qed.

(** With fewer than [n] newer builds, a build is among the newest [n]. *)
Lemma newest_take l n b :
  decreasing l -> b ∈ l -> (length (filter (fun c => (lb_id b < lb_id c)%Z) l) < n)%nat -> b ∈ take n l.
Proof.
  intros Hdec (A & B & ->)%list_elem_of_split Hlen. apply StronglySorted_app in Hdec as (Hlt & _ & _).
  rewrite filter_app, filter_all in Hlen.
  - rewrite length_app in Hlen. rewrite take_app. apply elem_of_app. right.
    destruct (n - length A)%nat eqn:E; [lia|]. cbn. set_solver.
  - apply Forall_forall. intros c Hc. apply Hlt; set_solver.
Qed.

Lemma considered_filter rows first (P : LogBuild -> Prop) `{!forall b, Decision (P b)} :
  length (filter P (considered rows first)) =
  length (filter (fun b => P b /\ lb_reap_time b = 0 /\ first <= lb_id b) rows).
Proof.
  apply Permutation_length. unfold considered. rewrite <- Permutation_rev.
  unfold chronological. rewrite (merge_sort_Permutation by_id rows).
  rewrite !list_filter_filter. erewrite list_filter_iff; [reflexivity|]. naive_solver.
Qed.

(** The IDs are a key of the rows. *)
Lemma id_key rows a b : NoDup (lb_id <$> rows) -> a ∈ rows -> b ∈ rows -> lb_id a = lb_id b -> a = b.
Proof.
  intros Hnd (i & Hi)%list_elem_of_lookup (j & Hj)%list_elem_of_lookup Heq.
  assert (i = j) as ->; [|congruence].
  eapply NoDup_lookup; [exact Hnd|..]; rewrite list_lookup_fmap; [by rewrite Hi|by rewrite Hj, Heq].
Qed.

Lemma reap_rows_nil now rows : reap_rows now [] rows = rows.
Proof.
  unfold reap_rows. rewrite <- (list_fmap_id rows) at 2. apply list_fmap_ext. intros i b _.
  by rewrite bool_decide_eq_false_2 by set_solver.
Qed.

(** What stays of [F] when the builds [D] of it are deleted. *)
Lemma kept_perm (F M D : list LogBuild) ids :
  NoDup (lb_id <$> F) -> F ≡ₚ M ++ D -> ids ≡ₚ lb_id <$> D ->
  Forall (fun b => lb_id b ∉ ids) M /\ filter (fun b => lb_id b ∉ ids) F ≡ₚ M.
Proof.
  intros Hnd HF Hids. rewrite HF, fmap_app in Hnd. apply NoDup_app in Hnd as (_ & Hdis & _).
  assert (HM : Forall (fun b => lb_id b ∉ ids) M).
  { apply Forall_forall. intros b Hb. rewrite Hids. apply Hdis. by apply list_elem_of_fmap_2. }
  split; [done|]. rewrite HF, filter_app, filter_all by done.
  rewrite (filter_none _ D), app_nil_r; [done|]. apply Forall_forall. intros b Hb Hnot. apply Hnot.
  rewrite Hids. by apply list_elem_of_fmap_2.
Qed.


Module LogExample.
Definition job (retention : option BuildLogRetention) : JobConfig :=
  {| jc_Name := "ship"; jc_OldName := ""; jc_Public := false; jc_DisableManualTrigger := false;
     jc_Serial := false; jc_Interruptible := false; jc_SerialGroups := []; jc_RawMaxInFlight := 0;
     jc_BuildLogsToRetain := 0; jc_BuildLogRetention := retention; jc_OnSuccess := None;
     jc_OnFailure := None; jc_OnAbort := None; jc_OnError := None; jc_Ensure := None; jc_PlanSequence := [] |}.

Definition calculator (builds : Z) : buildLogRetentionCalculator :=
  {| defaultBuildLogsToRetain := builds; maxBuildLogsToRetain := 0;
     defaultDaysToRetainBuildLogs := 0; maxDaysToRetainBuildLogs := 0 |}.

Definition build (id : Z) (status : BuildStatus) : LogBuild :=
  {| lb_id := id; lb_rerun_of := None; lb_completed := true; lb_drained := true; lb_status := status;
     lb_end_time := id; lb_reap_time := 0 |}.

Definition rows : list LogBuild :=
  [build 3 BuildStatusFailed; build 1 BuildStatusSucceeded; build 4 BuildStatusFailed;
   build 2 BuildStatusSucceeded; build 5 BuildStatusFailed].
Definition two_builds : JobConfig :=
  job (Some {| blr_Builds := 2; blr_MinimumSucceededBuilds := 1; blr_Days := 0 |}).


(** A page of the builds in the order of their IDs names as its newer page the
    first build in the order of reruns: build 4, a rerun of build 1, comes
    before build 3, which no page holds. *)
Theorem ChronoBuilds_skips :
  let rows := [build 1 BuildStatusFailed; build 2 BuildStatusFailed; build 3 BuildStatusFailed;
    {| lb_id := 4; lb_rerun_of := Some 1; lb_completed := true; lb_drained := true;
       lb_status := BuildStatusFailed; lb_end_time := 4; lb_reap_time := 0 |}] in
  exists builds, buildsToConsiderDeleting rows 1 2 = Ret builds /\ lb_id <$> builds = [4; 2; 1].
Proof. eexists. split; vm_compute; reflexivity. Qed.

(** The same pass deletes builds 1, 3 and 4 and moves the first logged build to 2. *)
Example reap_example :
  reapLogsOfJob (calculator 0) true 2 10 two_builds rows 1 = Ret (reap_rows 10 [3; 1; 4] rows, 2).
Proof. vm_compute. reflexivity. Qed.

(** A job that asks for ten successful builds and leaves the number of builds to
    the default of five passes the validation, and the collector panics: it
    drops more candidates than it has. *)
Theorem reap_panics :
  let j := job (Some {| blr_Builds := 0; blr_MinimumSucceededBuilds := 10; blr_Days := 0 |}) in
  retention_report "jobs.ship" j = no_report /\
  reapLogsOfJob (calculator 5) false 100 100 j
    (build 1 BuildStatusFailed :: ((fun n => build n BuildStatusSucceeded) <$> [2; 3; 4; 5; 6; 7; 8; 9; 10; 11])) 1 = Panic.
Proof. split; vm_compute; reflexivity. Qed.
End LogExample.
