(* ===== verification/Routes.v ===== *)
(** * The routes of the API

    The routes ([atc/routes.go]), the role each action asks for
    ([atc/api/accessor/roles.go]), and how each action is wrapped: the check its
    caller passes ([atc/wrappa/api_auth_wrappa.go]) and whether it is refused for
    an archived pipeline ([atc/wrappa/reject_archived_wrappa.go]). *)
From stdpp Require Import base list strings.

(** [rata.Route] *)
Record Route := { r_Path : string; r_Method : string; r_Name : string }.

#[global] Instance Route_eq_dec : EqDecision Route.
Proof. solve_decision. Defined.

Definition Routes : list Route :=
  (fun '(path, method, name) => {| r_Path := path; r_Method := method; r_Name := name |}) <$> [
   ("/api/v1/teams/:team_name/pipelines/:pipeline_name/config", "PUT", "SaveConfig");
   ("/api/v1/teams/:team_name/pipelines/:pipeline_name/config", "GET", "GetConfig");
   ("/api/v1/teams/:team_name/builds", "POST", "CreateBuild");
   ("/api/v1/builds", "GET", "ListBuilds");
   ("/api/v1/builds/:build_id", "GET", "GetBuild");
   ("/api/v1/builds/:build_id/plan", "GET", "GetBuildPlan");
   ("/api/v1/builds/:build_id/events", "GET", "BuildEvents");
   ("/api/v1/builds/:build_id/resources", "GET", "BuildResources");
   ("/api/v1/builds/:build_id/abort", "PUT", "AbortBuild");
   ("/api/v1/builds/:build_id/preparation", "GET", "GetBuildPreparation");
   ("/api/v1/builds/:build_id/artifacts", "GET", "ListBuildArtifacts");
   ("/api/v1/builds/:build_id/comment", "PUT", "SetBuildComment");
   ("/api/v1/jobs", "GET", "ListAllJobs");
   ("/api/v1/teams/:team_name/pipelines/:pipeline_name/jobs", "GET", "ListJobs");
   ("/api/v1/teams/:team_name/pipelines/:pipeline_name/jobs/:job_name", "GET", "GetJob");
   ("/api/v1/teams/:team_name/pipelines/:pipeline_name/jobs/:job_name/builds", "GET", "ListJobBuilds");
   ("/api/v1/teams/:team_name/pipelines/:pipeline_name/jobs/:job_name/builds", "POST", "CreateJobBuild");
   ("/api/v1/teams/:team_name/pipelines/:pipeline_name/jobs/:job_name/builds/:build_name", "POST", "RerunJobBuild");
   ("/api/v1/teams/:team_name/pipelines/:pipeline_name/jobs/:job_name/inputs", "GET", "ListJobInputs");
   ("/api/v1/teams/:team_name/pipelines/:pipeline_name/jobs/:job_name/builds/:build_name", "GET", "GetJobBuild");
   ("/api/v1/teams/:team_name/pipelines/:pipeline_name/jobs/:job_name/pause", "PUT", "PauseJob");
   ("/api/v1/teams/:team_name/pipelines/:pipeline_name/jobs/:job_name/unpause", "PUT", "UnpauseJob");
   ("/api/v1/teams/:team_name/pipelines/:pipeline_name/jobs/:job_name/schedule", "PUT", "ScheduleJob");
   ("/api/v1/teams/:team_name/pipelines/:pipeline_name/jobs/:job_name/badge", "GET", "JobBadge");
   ("/api/v1/pipelines/:pipeline_name/jobs/:job_name/badge", "GET", "MainJobBadge");
   ("/api/v1/teams/:team_name/pipelines/:pipeline_name/jobs/:job_name/tasks/:step_name/cache", "DELETE", "ClearTaskCache");
   ("/api/v1/pipelines", "GET", "ListAllPipelines");
   ("/api/v1/teams/:team_name/pipelines", "GET", "ListPipelines");
   ("/api/v1/teams/:team_name/pipelines/:pipeline_name", "GET", "GetPipeline");
   ("/api/v1/teams/:team_name/pipelines/:pipeline_name", "DELETE", "DeletePipeline");
   ("/api/v1/teams/:team_name/pipelines/ordering", "PUT", "OrderPipelines");
   ("/api/v1/teams/:team_name/pipelines/:pipeline_name/ordering", "PUT", "OrderPipelinesWithinGroup");
   ("/api/v1/teams/:team_name/pipelines/:pipeline_name/pause", "PUT", "PausePipeline");
   ("/api/v1/teams/:team_name/pipelines/:pipeline_name/archive", "PUT", "ArchivePipeline");
   ("/api/v1/teams/:team_name/pipelines/:pipeline_name/unpause", "PUT", "UnpausePipeline");
   ("/api/v1/teams/:team_name/pipelines/:pipeline_name/expose", "PUT", "ExposePipeline");
   ("/api/v1/teams/:team_name/pipelines/:pipeline_name/hide", "PUT", "HidePipeline");
   ("/api/v1/teams/:team_name/pipelines/:pipeline_name/versions-db", "GET", "GetVersionsDB");
   ("/api/v1/teams/:team_name/pipelines/:pipeline_name/rename", "PUT", "RenamePipeline");
   ("/api/v1/teams/:team_name/pipelines/:pipeline_name/builds", "GET", "ListPipelineBuilds");
   ("/api/v1/teams/:team_name/pipelines/:pipeline_name/builds", "POST", "CreatePipelineBuild");
   ("/api/v1/teams/:team_name/pipelines/:pipeline_name/badge", "GET", "PipelineBadge");
   ("/api/v1/teams/:team_name/pipelines/:pipeline_name/runs", "POST", "CreatePipelineRun");
   ("/api/v1/teams/:team_name/pipelines/:pipeline_name/runs", "GET", "ListPipelineRuns");
   ("/api/v1/teams/:team_name/pipelines/:pipeline_name/runs/:run_number", "GET", "GetPipelineRun");
   ("/api/v1/resources", "GET", "ListAllResources");
   ("/api/v1/teams/:team_name/pipelines/:pipeline_name/resources", "GET", "ListResources");
   ("/api/v1/teams/:team_name/pipelines/:pipeline_name/resources/:resource_name/shared", "GET", "ListSharedForResource");
   ("/api/v1/teams/:team_name/pipelines/:pipeline_name/resource-types/:resource_type_name/shared", "GET", "ListSharedForResourceType");
   ("/api/v1/teams/:team_name/pipelines/:pipeline_name/resource-types", "GET", "ListResourceTypes");
   ("/api/v1/teams/:team_name/pipelines/:pipeline_name/resources/:resource_name", "GET", "GetResource");
   ("/api/v1/teams/:team_name/pipelines/:pipeline_name/resources/:resource_name/check", "POST", "CheckResource");
   ("/api/v1/teams/:team_name/pipelines/:pipeline_name/resources/:resource_name/check/webhook", "POST", "CheckResourceWebHook");
   ("/api/v1/teams/:team_name/pipelines/:pipeline_name/resource-types/:resource_type_name/check", "POST", "CheckResourceType");
   ("/api/v1/teams/:team_name/pipelines/:pipeline_name/prototypes/:prototype_name/check", "POST", "CheckPrototype");
   ("/api/v1/teams/:team_name/pipelines/:pipeline_name/resources/:resource_name/cache", "DELETE", "ClearResourceCache");
   ("/api/v1/teams/:team_name/pipelines/:pipeline_name/resources/:resource_name/versions", "GET", "ListResourceVersions");
   ("/api/v1/teams/:team_name/pipelines/:pipeline_name/resources/:resource_name/versions", "DELETE", "ClearResourceVersions");
   ("/api/v1/teams/:team_name/pipelines/:pipeline_name/resources/:resource_name/copy-versions", "PUT", "CopyResourceVersions");
   ("/api/v1/teams/:team_name/pipelines/:pipeline_name/resources/:resource_name/deprecated-scopes", "GET", "ListDeprecatedScopes");
   ("/api/v1/teams/:team_name/pipelines/:pipeline_name/resource-types/:resource_type_name/versions", "DELETE", "ClearResourceTypeVersions");
   ("/api/v1/teams/:team_name/pipelines/:pipeline_name/resources/:resource_name/versions/:resource_config_version_id", "GET", "GetResourceVersion");
   ("/api/v1/teams/:team_name/pipelines/:pipeline_name/resources/:resource_name/versions/:resource_config_version_id/enable", "PUT", "EnableResourceVersion");
   ("/api/v1/teams/:team_name/pipelines/:pipeline_name/resources/:resource_name/versions/:resource_config_version_id/disable", "PUT", "DisableResourceVersion");
   ("/api/v1/teams/:team_name/pipelines/:pipeline_name/resources/:resource_name/versions/:resource_config_version_id/pin", "PUT", "PinResourceVersion");
   ("/api/v1/teams/:team_name/pipelines/:pipeline_name/resources/:resource_name/unpin", "PUT", "UnpinResource");
   ("/api/v1/teams/:team_name/pipelines/:pipeline_name/resources/:resource_name/pin_comment", "PUT", "SetPinCommentOnResource");
   ("/api/v1/teams/:team_name/pipelines/:pipeline_name/resources/:resource_name/versions/:resource_config_version_id/input_to", "GET", "ListBuildsWithVersionAsInput");
   ("/api/v1/teams/:team_name/pipelines/:pipeline_name/resources/:resource_name/versions/:resource_config_version_id/output_of", "GET", "ListBuildsWithVersionAsOutput");
   ("/api/v1/teams/:team_name/pipelines/:pipeline_name/resources/:resource_name/versions/:resource_config_version_id/downstream", "GET", "GetDownstreamResourceCausality");
   ("/api/v1/teams/:team_name/pipelines/:pipeline_name/resources/:resource_name/versions/:resource_config_version_id/upstream", "GET", "GetUpstreamResourceCausality");
   ("/api/v1/teams/:team_name/cc.xml", "GET", "GetCC");
   ("/api/v1/workers", "GET", "ListWorkers");
   ("/api/v1/workers", "POST", "RegisterWorker");
   ("/api/v1/workers/:worker_name", "DELETE", "DeleteWorker");
   ("/api/v1/log-level", "GET", "GetLogLevel");
   ("/api/v1/log-level", "PUT", "SetLogLevel");
   ("/api/v1/cli", "GET", "DownloadCLI");
   ("/api/v1/info", "GET", "GetInfo");
   ("/api/v1/info/creds", "GET", "GetInfoCreds");
   ("/api/v1/health", "GET", "GetHealth");
   ("/api/v1/user", "GET", "GetUser");
   ("/api/v1/users", "GET", "ListActiveUsersSince");
   ("/api/v1/teams/:team_name/containers", "GET", "ListContainers");
   ("/api/v1/teams/:team_name/containers/:id", "GET", "GetContainer");
   ("/api/v1/teams/:team_name/containers/:id/hijack", "GET", "HijackContainer");
   ("/api/v1/teams/:team_name/volumes", "GET", "ListVolumes");
   ("/api/v1/teams", "GET", "ListTeams");
   ("/api/v1/teams/:team_name", "GET", "GetTeam");
   ("/api/v1/teams/:team_name", "PUT", "SetTeam");
   ("/api/v1/teams/:team_name/rename", "PUT", "RenameTeam");
   ("/api/v1/teams/:team_name", "DELETE", "DestroyTeam");
   ("/api/v1/teams/:team_name/builds", "GET", "ListTeamBuilds");
   ("/api/v1/teams/:team_name/artifacts", "POST", "CreateArtifact");
   ("/api/v1/teams/:team_name/artifacts/:artifact_id", "GET", "GetArtifact");
   ("/api/v1/wall", "GET", "GetWall");
   ("/api/v1/wall", "PUT", "SetWall");
   ("/api/v1/wall", "DELETE", "ClearWall");
   ("/api/v1/teams/:team_name/agent/feedback", "POST", "SubmitAgentFeedback");
   ("/api/v1/agent/user-credentials", "PUT", "SetAgentUserCredential");
   ("/api/v1/agent/user-credentials", "GET", "GetAgentUserCredentialStatus");
   ("/api/v1/agent/user-credentials/:kind", "DELETE", "DeleteAgentUserCredential");
   ("/api/v1/agent/costs", "GET", "GetAgentCostRollup");
   ("/api/v1/builds/:build_id/agent-reviews", "GET", "GetBuildAgentReviews");
   ("/api/v1/teams/:team_name/agent-reviews", "GET", "ListTeamAgentReviews");
   ("/api/v1/agent/snapshots/:snapshot_id/projections/review", "GET", "GetAgentSnapshotReview");
   ("/api/v1/agent/metrics", "GET", "ListRecentAgentRunMetrics");
   ("/api/v1/builds/:build_id/agent-metrics", "GET", "ListBuildAgentRunMetrics");
   ("/api/v1/agent/tickets", "GET", "ListAgentTickets");
   ("/api/v1/agent/tickets", "POST", "CreateAgentTicket");
   ("/api/v1/agent/tickets/:ticket_id", "GET", "GetAgentTicket");
   ("/api/v1/agent/tickets/:ticket_id", "PUT", "UpdateAgentTicket");
   ("/api/v1/agent/tickets/:ticket_id/state", "PUT", "TransitionAgentTicket");
   ("/api/v1/agent/tickets/:ticket_id/dispatch", "POST", "DispatchAgentTicket");
   ("/api/v1/agent/tickets/:ticket_id/runs", "GET", "ListAgentTicketRuns");
   ("/api/v1/agent/workflows", "GET", "ListAgentWorkflows");
   ("/api/v1/agent/workflows/:workflow_name/versions", "GET", "ListAgentWorkflowVersions");
   ("/api/v1/agent/workflows/:workflow_name/versions/:version", "GET", "GetAgentWorkflowVersion");
   ("/api/v1/agent/workflows/:workflow_name/versions", "POST", "CreateAgentWorkflowVersion");
   ("/api/v1/agent/workflows/:workflow_name/versions/:version/live", "PUT", "PromoteAgentWorkflowVersion");
   ("/api/v1/agent/workflows/:workflow_name/stats", "GET", "GetAgentWorkflowStats");
   ("/api/v1/agent/workflows/:workflow_name/overview", "GET", "GetAgentWorkflowOverview");
   ("/api/v1/agent/workflows/:workflow_name", "PUT", "UpdateAgentWorkflow");
   ("/api/v1/agent/workflows/:workflow_name/runs", "POST", "CreateAgentWorkflowRun");
   ("/api/v1/agent/workflows/:workflow_name/runs", "GET", "ListAgentWorkflowRuns");
   ("/api/v1/agent/workflows/:workflow_name/runs/operational-status-counts", "GET", "GetAgentWorkflowRunOperationalStatusCounts");
   ("/api/v1/agent/workflows/:workflow_name/runs/:workflow_run_id", "GET", "GetAgentWorkflowRun");
   ("/api/v1/agent/workflows/:workflow_name/runs/:workflow_run_id/cancel", "POST", "CancelAgentWorkflowRun");
   ("/api/v1/agent/workflows/:workflow_name/runs/:workflow_run_id/retry", "POST", "RetryAgentWorkflowRun");
   ("/api/v1/agent/workflows/:workflow_name/runs/:workflow_run_id/outputs", "GET", "GetAgentWorkflowRunOutputs");
   ("/api/v1/agent/workflows/:workflow_name/runs/:workflow_run_id/graph", "GET", "GetAgentWorkflowRunGraph");
   ("/api/v1/agent/workflows/:workflow_name/runs/:workflow_run_id/waits", "GET", "ListAgentWorkflowRunWaits");
   ("/api/v1/agent/workflows/:workflow_name/runs/:workflow_run_id/waits/:workflow_wait_id/resolve", "PUT", "ResolveAgentWorkflowRunWait");
   ("/api/v1/agent/workflows/:workflow_name/runs/:workflow_run_id/outcomes", "GET", "ListAgentWorkflowRunOutcomes");
   ("/api/v1/agent/workflows/:workflow_name/runs/:workflow_run_id/outputs/:snapshot_id/outcome", "PUT", "SetAgentWorkflowRunOutputOutcome");
   ("/api/v1/agent/workflows/:workflow_name/runs/:workflow_run_id/metrics", "GET", "ListAgentWorkflowRunMetrics");
   ("/api/v1/agent/workflows/:workflow_name/runs/:workflow_run_id/transcripts", "GET", "ListAgentWorkflowRunTranscripts");
   ("/api/v1/agent/workflows/:workflow_name/runs/:workflow_run_id/transcripts/:plan_id", "GET", "GetAgentWorkflowRunTranscript");
   ("/api/v1/agent/workflows/:workflow_name/runs/:workflow_run_id/reviews", "GET", "ListAgentWorkflowRunReviews");
   ("/api/v1/agent/nodes", "GET", "ListAgentNodes");
   ("/api/v1/agent/nodes/:node_name/versions", "GET", "ListAgentNodeVersions");
   ("/api/v1/agent/nodes/:node_name/versions/:version", "GET", "GetAgentNodeVersion");
   ("/api/v1/agent/nodes/:node_name/versions", "POST", "CreateAgentNodeVersion");
   ("/api/v1/agent/nodes/:node_name/versions/:version/release", "PUT", "ReleaseAgentNodeVersion");
   ("/api/v1/agent/nodes/:node_name/versions/:version/deprecation", "PUT", "DeprecateAgentNodeVersion");
   ("/api/v1/agent/nodes/:node_name/versions/:version/runs", "POST", "CreateAgentNodeRun");
   ("/api/v1/agent/nodes/:node_name/versions/:version/runs", "GET", "ListAgentNodeRuns");
   ("/api/v1/agent/nodes/:node_name/runs/:workflow_run_id", "GET", "GetAgentNodeRun");
   ("/api/v1/agent/nodes/:node_name/runs/:workflow_run_id/cancel", "POST", "CancelAgentNodeRun");
   ("/api/v1/agent/nodes/:node_name/versions/:version/consumers", "GET", "ListAgentNodeConsumers");
   ("/api/v1/agent/nodes/:node_name/versions/:version/upgrades", "POST", "UpgradeAgentNodeConsumers");
   ("/api/v1/agent/experiments", "POST", "CreateAgentExperiment");
   ("/api/v1/agent/experiments", "GET", "ListAgentExperiments");
   ("/api/v1/agent/experiments/:experiment_id", "GET", "GetAgentExperiment");
   ("/api/v1/agent/experiments/:experiment_id", "PUT", "UpdateAgentExperiment");
   ("/api/v1/agent/experiments/:experiment_id/validate", "POST", "ValidateAgentExperiment");
   ("/api/v1/agent/experiments/:experiment_id/start", "POST", "StartAgentExperiment");
   ("/api/v1/agent/experiments/:experiment_id/cancel", "POST", "CancelAgentExperiment");
   ("/api/v1/agent/experiments/:experiment_id/cells", "GET", "ListAgentExperimentCells");
   ("/api/v1/agent/experiments/:experiment_id/cells/:cell_id", "GET", "GetAgentExperimentCell");
   ("/api/v1/agent/experiments/:experiment_id/scorecard", "GET", "GetAgentExperimentScorecard");
   ("/api/v1/teams/:team_name/agent/snapshots", "POST", "CreateAgentSnapshot");
   ("/api/v1/teams/:team_name/agent/snapshots/capture-resource", "POST", "CaptureAgentResourceSnapshot");
   ("/api/v1/teams/:team_name/agent/snapshots", "GET", "ListAgentSnapshots");
   ("/api/v1/teams/:team_name/agent/snapshots/:snapshot_id", "GET", "GetAgentSnapshot");
   ("/api/v1/teams/:team_name/agent/snapshots/:snapshot_id/projections/repository-change", "GET", "GetAgentRepositoryChangeProjection");
   ("/api/v1/teams/:team_name/agent/snapshots/:snapshot_id/content", "GET", "DownloadAgentSnapshot");
   ("/api/v1/teams/:team_name/agent/snapshots/:snapshot_id/pin", "PUT", "PinAgentSnapshot");
   ("/api/v1/teams/:team_name/agent/snapshots/:snapshot_id/pin", "DELETE", "UnpinAgentSnapshot");
   ("/api/v1/internal/agent-child-executions/admit", "POST", "AdmitAgentChildExecution");
   ("/api/v1/internal/agent-child-executions/:execution_id/phase", "POST", "PhaseAgentChildExecution");
   ("/api/v1/internal/agent-child-executions/:execution_id/update", "POST", "UpdateAgentChildExecution");
   ("/api/v1/internal/agent-child-executions/:execution_id/terminal", "POST", "TerminalAgentChildExecution");
   ("/api/v1/internal/agent-child-executions/:execution_id/seal", "POST", "SealAgentChildExecution");
   ("/api/v1/internal/agent-child-executions/:execution_id/workspace-capture", "POST", "CaptureWorkspaceAgentChildExecution");
   ("/api/v1/internal/agent-child-executions/:execution_id/workspace-capture-failed", "POST", "CaptureWorkspaceFailureAgentChildExecution");
   ("/api/v1/teams/:team_name/agent-child-executions/:execution_id", "GET", "GetAgentChildExecution");
   ("/api/v1/agent/dispatcher", "GET", "GetAgentDispatcher");
   ("/api/v1/agent/dispatcher", "PUT", "SetAgentDispatcher");
   ("/api/v1/mcp", "POST", "MCPEndpoint");
   ("/.well-known/openid-configuration", "GET", "GetOpenIDConfiguration");
   ("/.well-known/jwks.json", "GET", "GetSigningKeys")].

Definition MemberRole : string := "member".
Definition OwnerRole : string := "owner".
Definition OperatorRole : string := "pipeline-operator".
Definition ViewerRole : string := "viewer".

Definition DefaultRoles : list (string * string) :=
  [("SaveConfig", MemberRole);
   ("GetConfig", ViewerRole);
   ("GetCC", ViewerRole);
   ("GetBuild", ViewerRole);
   ("GetBuildPlan", ViewerRole);
   ("CreateBuild", MemberRole);
   ("ListBuilds", ViewerRole);
   ("BuildEvents", ViewerRole);
   ("BuildResources", ViewerRole);
   ("AbortBuild", OperatorRole);
   ("GetBuildPreparation", ViewerRole);
   ("GetJob", ViewerRole);
   ("CreateJobBuild", OperatorRole);
   ("RerunJobBuild", OperatorRole);
   ("SetBuildComment", OperatorRole);
   ("ListAllJobs", ViewerRole);
   ("ListJobs", ViewerRole);
   ("ListJobBuilds", ViewerRole);
   ("ListJobInputs", ViewerRole);
   ("GetJobBuild", ViewerRole);
   ("PauseJob", OperatorRole);
   ("UnpauseJob", OperatorRole);
   ("ScheduleJob", OperatorRole);
   ("GetVersionsDB", ViewerRole);
   ("JobBadge", ViewerRole);
   ("MainJobBadge", ViewerRole);
   ("ClearTaskCache", OperatorRole);
   ("ListAllResources", ViewerRole);
   ("ListResources", ViewerRole);
   ("ListResourceTypes", ViewerRole);
   ("GetResource", ViewerRole);
   ("UnpinResource", OperatorRole);
   ("SetPinCommentOnResource", OperatorRole);
   ("CheckResource", OperatorRole);
   ("CheckResourceWebHook", OperatorRole);
   ("CheckResourceType", OperatorRole);
   ("CheckPrototype", OperatorRole);
   ("ListResourceVersions", ViewerRole);
   ("GetResourceVersion", ViewerRole);
   ("EnableResourceVersion", OperatorRole);
   ("DisableResourceVersion", OperatorRole);
   ("PinResourceVersion", OperatorRole);
   ("ListBuildsWithVersionAsInput", ViewerRole);
   ("ListBuildsWithVersionAsOutput", ViewerRole);
   ("GetDownstreamResourceCausality", ViewerRole);
   ("GetUpstreamResourceCausality", ViewerRole);
   ("ClearResourceCache", OperatorRole);
   ("CopyResourceVersions", OperatorRole);
   ("ListDeprecatedScopes", ViewerRole);
   ("ListAllPipelines", ViewerRole);
   ("ListPipelines", ViewerRole);
   ("GetPipeline", ViewerRole);
   ("DeletePipeline", MemberRole);
   ("OrderPipelines", MemberRole);
   ("OrderPipelinesWithinGroup", MemberRole);
   ("PausePipeline", OperatorRole);
   ("ArchivePipeline", MemberRole);
   ("UnpausePipeline", OperatorRole);
   ("ExposePipeline", MemberRole);
   ("HidePipeline", MemberRole);
   ("RenamePipeline", MemberRole);
   ("ListPipelineBuilds", ViewerRole);
   ("CreatePipelineBuild", MemberRole);
   ("PipelineBadge", ViewerRole);
   ("RegisterWorker", MemberRole);
   ("ListWorkers", ViewerRole);
   ("DeleteWorker", MemberRole);
   ("SetLogLevel", MemberRole);
   ("GetLogLevel", ViewerRole);
   ("DownloadCLI", ViewerRole);
   ("GetInfo", ViewerRole);
   ("GetInfoCreds", ViewerRole);
   ("GetHealth", ViewerRole);
   ("ListContainers", ViewerRole);
   ("GetContainer", ViewerRole);
   ("HijackContainer", MemberRole);
   ("ListVolumes", ViewerRole);
   ("ListTeams", ViewerRole);
   ("GetTeam", ViewerRole);
   ("SetTeam", OwnerRole);
   ("RenameTeam", OwnerRole);
   ("DestroyTeam", OwnerRole);
   ("ListTeamBuilds", ViewerRole);
   ("CreateArtifact", MemberRole);
   ("GetArtifact", MemberRole);
   ("ListBuildArtifacts", ViewerRole);
   ("GetWall", ViewerRole);
   ("SubmitAgentFeedback", MemberRole);
   ("ListRecentAgentRunMetrics", ViewerRole);
   ("ListBuildAgentRunMetrics", ViewerRole);
   ("ListTeamAgentReviews", ViewerRole);
   ("GetBuildAgentReviews", ViewerRole);
   ("GetAgentSnapshotReview", ViewerRole);
   ("ListAgentWorkflowRunReviews", ViewerRole);
   ("GetAgentCostRollup", ViewerRole);
   ("CreatePipelineRun", MemberRole);
   ("ListPipelineRuns", ViewerRole);
   ("GetPipelineRun", ViewerRole);
   ("ListAgentWorkflows", ViewerRole);
   ("ListAgentWorkflowVersions", ViewerRole);
   ("GetAgentWorkflowVersion", ViewerRole);
   ("CreateAgentWorkflowVersion", MemberRole);
   ("PromoteAgentWorkflowVersion", MemberRole);
   ("GetAgentWorkflowStats", ViewerRole);
   ("GetAgentWorkflowOverview", ViewerRole);
   ("UpdateAgentWorkflow", MemberRole);
   ("CreateAgentWorkflowRun", MemberRole);
   ("ListAgentWorkflowRuns", ViewerRole);
   ("GetAgentWorkflowRunOperationalStatusCounts", ViewerRole);
   ("GetAgentWorkflowRun", ViewerRole);
   ("CancelAgentWorkflowRun", MemberRole);
   ("RetryAgentWorkflowRun", MemberRole);
   ("GetAgentWorkflowRunOutputs", ViewerRole);
   ("GetAgentWorkflowRunGraph", ViewerRole);
   ("ListAgentWorkflowRunWaits", ViewerRole);
   ("ResolveAgentWorkflowRunWait", MemberRole);
   ("ListAgentWorkflowRunOutcomes", ViewerRole);
   ("SetAgentWorkflowRunOutputOutcome", MemberRole);
   ("ListAgentWorkflowRunMetrics", ViewerRole);
   ("ListAgentWorkflowRunTranscripts", ViewerRole);
   ("GetAgentWorkflowRunTranscript", ViewerRole);
   ("ListAgentNodes", ViewerRole);
   ("ListAgentNodeVersions", ViewerRole);
   ("GetAgentNodeVersion", ViewerRole);
   ("CreateAgentNodeVersion", MemberRole);
   ("ReleaseAgentNodeVersion", MemberRole);
   ("DeprecateAgentNodeVersion", MemberRole);
   ("CreateAgentNodeRun", MemberRole);
   ("ListAgentNodeRuns", ViewerRole);
   ("GetAgentNodeRun", ViewerRole);
   ("CancelAgentNodeRun", MemberRole);
   ("ListAgentNodeConsumers", ViewerRole);
   ("UpgradeAgentNodeConsumers", MemberRole);
   ("CreateAgentExperiment", MemberRole);
   ("ListAgentExperiments", ViewerRole);
   ("GetAgentExperiment", ViewerRole);
   ("UpdateAgentExperiment", MemberRole);
   ("ValidateAgentExperiment", ViewerRole);
   ("StartAgentExperiment", MemberRole);
   ("CancelAgentExperiment", MemberRole);
   ("ListAgentExperimentCells", ViewerRole);
   ("GetAgentExperimentCell", ViewerRole);
   ("GetAgentExperimentScorecard", ViewerRole);
   ("CreateAgentSnapshot", MemberRole);
   ("CaptureAgentResourceSnapshot", MemberRole);
   ("ListAgentSnapshots", ViewerRole);
   ("GetAgentSnapshot", ViewerRole);
   ("GetAgentRepositoryChangeProjection", ViewerRole);
   ("DownloadAgentSnapshot", ViewerRole);
   ("PinAgentSnapshot", MemberRole);
   ("UnpinAgentSnapshot", MemberRole);
   ("ListAgentTickets", ViewerRole);
   ("ListAgentTicketRuns", ViewerRole);
   ("CreateAgentTicket", MemberRole);
   ("GetAgentTicket", ViewerRole);
   ("UpdateAgentTicket", MemberRole);
   ("TransitionAgentTicket", MemberRole);
   ("DispatchAgentTicket", MemberRole);
   ("GetAgentChildExecution", ViewerRole)].

(** The handlers that [APIAuthWrappa] puts around an action. *)
Inductive check :=
| AnyJobHandler
| CheckIfPrivateJobHandler
| BuildWriteHandler
| PipelineAccessHandler
| CheckAuthenticationHandler
| CheckAuthenticationIfProvidedHandler
(** the handler checks a capability of its own *)
| Unwrapped
| CheckAdminHandler
| CheckAuthorizationHandler
| CheckAgentAuthorizationHandler.

(** The cases of the switch of [APIAuthWrappa.Wrap]. *)
Definition auth_cases : list (list string * check) :=
  [(["GetBuild"; "BuildResources"],
    AnyJobHandler);
   (["GetBuildPreparation"; "BuildEvents"; "GetBuildPlan"; "ListBuildArtifacts";
   "GetBuildAgentReviews"; "ListBuildAgentRunMetrics"],
    CheckIfPrivateJobHandler);
   (["AbortBuild"; "SetBuildComment"],
    BuildWriteHandler);
   (["GetPipeline"; "GetJobBuild"; "PipelineBadge"; "JobBadge";
   "ListJobs"; "GetJob"; "ListJobBuilds"; "ListPipelineBuilds";
   "GetResource"; "ListBuildsWithVersionAsInput"; "ListBuildsWithVersionAsOutput"; "GetDownstreamResourceCausality";
   "GetUpstreamResourceCausality"; "GetResourceVersion"; "ListResources"; "ListResourceTypes";
   "ListResourceVersions"],
    PipelineAccessHandler);
   (["ListWorkers"; "RegisterWorker"; "DeleteWorker"; "ListTeamBuilds";
   "GetUser"; "SetAgentUserCredential"; "GetAgentUserCredentialStatus"; "DeleteAgentUserCredential";
   "GetAgentDispatcher"; "MCPEndpoint"],
    CheckAuthenticationHandler);
   (["DownloadCLI"; "CheckResourceWebHook"; "GetInfo"; "GetHealth";
   "GetCC"; "ListTeams"; "ListAllPipelines"; "ListPipelines";
   "ListAllJobs"; "ListAllResources"; "ListBuilds"; "MainJobBadge";
   "GetWall"; "GetOpenIDConfiguration"; "GetSigningKeys"],
    CheckAuthenticationIfProvidedHandler);
   (["AdmitAgentChildExecution"; "PhaseAgentChildExecution"; "UpdateAgentChildExecution"; "TerminalAgentChildExecution";
   "SealAgentChildExecution"; "CaptureWorkspaceAgentChildExecution"; "CaptureWorkspaceFailureAgentChildExecution"],
    Unwrapped);
   (["GetLogLevel"; "DestroyTeam"; "ListActiveUsersSince"; "SetLogLevel";
   "GetInfoCreds"; "SetWall"; "ClearWall"; "ClearResourceVersions";
   "ClearResourceTypeVersions"; "ListSharedForResource"; "ListSharedForResourceType"; "SetAgentDispatcher"],
    CheckAdminHandler);
   (["GetTeam"; "SetTeam"; "RenameTeam"; "ListContainers";
   "GetContainer"; "HijackContainer"; "ListVolumes"; "CreateBuild";
   "CheckResource"; "CheckResourceType"; "CheckPrototype"; "CreateJobBuild";
   "RerunJobBuild"; "CreatePipelineBuild"; "DeletePipeline"; "DisableResourceVersion";
   "EnableResourceVersion"; "PinResourceVersion"; "UnpinResource"; "SetPinCommentOnResource";
   "GetConfig"; "GetVersionsDB"; "ListJobInputs"; "OrderPipelines";
   "OrderPipelinesWithinGroup"; "PauseJob"; "UnpauseJob"; "PausePipeline";
   "UnpausePipeline"; "RenamePipeline"; "ExposePipeline"; "HidePipeline";
   "SaveConfig"; "ArchivePipeline"; "ClearTaskCache"; "ClearResourceCache";
   "CreateArtifact"; "ScheduleJob"; "GetArtifact"; "ListTeamAgentReviews";
   "SubmitAgentFeedback"; "CreateAgentSnapshot"; "CaptureAgentResourceSnapshot"; "ListAgentSnapshots";
   "GetAgentSnapshot"; "GetAgentRepositoryChangeProjection"; "DownloadAgentSnapshot"; "PinAgentSnapshot";
   "UnpinAgentSnapshot"; "GetAgentChildExecution"; "CopyResourceVersions"; "CreatePipelineRun";
   "ListPipelineRuns"; "GetPipelineRun"; "ListDeprecatedScopes"],
    CheckAuthorizationHandler);
   (["GetAgentSnapshotReview"; "ListAgentWorkflowRunReviews"; "ListRecentAgentRunMetrics"; "ListAgentWorkflows";
   "ListAgentWorkflowVersions"; "GetAgentWorkflowVersion"; "CreateAgentWorkflowVersion"; "PromoteAgentWorkflowVersion";
   "GetAgentWorkflowStats"; "GetAgentWorkflowOverview"; "UpdateAgentWorkflow"; "CreateAgentWorkflowRun";
   "ListAgentWorkflowRuns"; "GetAgentWorkflowRunOperationalStatusCounts"; "GetAgentWorkflowRun"; "CancelAgentWorkflowRun";
   "RetryAgentWorkflowRun"; "GetAgentWorkflowRunOutputs"; "GetAgentWorkflowRunGraph"; "ListAgentWorkflowRunWaits";
   "ResolveAgentWorkflowRunWait"; "ListAgentWorkflowRunOutcomes"; "SetAgentWorkflowRunOutputOutcome"; "ListAgentWorkflowRunMetrics";
   "ListAgentWorkflowRunTranscripts"; "GetAgentWorkflowRunTranscript"; "ListAgentNodes"; "ListAgentNodeVersions";
   "GetAgentNodeVersion"; "CreateAgentNodeVersion"; "ReleaseAgentNodeVersion"; "DeprecateAgentNodeVersion";
   "CreateAgentNodeRun"; "ListAgentNodeRuns"; "GetAgentNodeRun"; "CancelAgentNodeRun";
   "ListAgentNodeConsumers"; "UpgradeAgentNodeConsumers"; "CreateAgentExperiment"; "ListAgentExperiments";
   "GetAgentExperiment"; "UpdateAgentExperiment"; "ValidateAgentExperiment"; "StartAgentExperiment";
   "CancelAgentExperiment"; "ListAgentExperimentCells"; "GetAgentExperimentCell"; "GetAgentExperimentScorecard";
   "GetAgentCostRollup"; "ListAgentTickets"; "UpdateAgentTicket"; "DispatchAgentTicket";
   "CreateAgentTicket"; "TransitionAgentTicket"; "GetAgentTicket"; "ListAgentTicketRuns"],
    CheckAgentAuthorizationHandler)].

(** The cases of the switch of [RejectArchivedWrappa.Wrap]. *)
Definition reject_archived : list string :=
  ["PausePipeline"; "UnpausePipeline"; "CreateJobBuild"; "ScheduleJob";
   "CheckResource"; "CheckResourceType"; "CheckPrototype"; "DisableResourceVersion";
   "EnableResourceVersion"; "PinResourceVersion"; "UnpinResource"; "SetPinCommentOnResource";
   "RerunJobBuild"; "CreatePipelineRun"].

Definition leave_as_is : list string :=
  ["GetConfig"; "GetBuild"; "BuildResources"; "BuildEvents";
   "ListBuildArtifacts"; "GetBuildPreparation"; "GetBuildPlan"; "AbortBuild";
   "SetBuildComment"; "GetPipeline"; "GetJobBuild"; "PipelineBadge";
   "JobBadge"; "ListJobs"; "GetJob"; "ListJobBuilds";
   "ListPipelineBuilds"; "GetResource"; "ListBuildsWithVersionAsInput"; "ListBuildsWithVersionAsOutput";
   "ListResources"; "ListResourceTypes"; "ListResourceVersions"; "GetDownstreamResourceCausality";
   "GetUpstreamResourceCausality"; "GetResourceVersion"; "CreateBuild"; "GetContainer";
   "HijackContainer"; "ListContainers"; "ListVolumes"; "ListTeamBuilds";
   "ListWorkers"; "RegisterWorker"; "DeleteWorker"; "GetTeam";
   "SetTeam"; "RenameTeam"; "DestroyTeam"; "GetUser";
   "GetInfo"; "GetHealth"; "DownloadCLI"; "CheckResourceWebHook";
   "ListAllPipelines"; "ListBuilds"; "ListPipelines"; "ListAllJobs";
   "ListAllResources"; "ListTeams"; "MainJobBadge"; "GetWall";
   "GetLogLevel"; "SetLogLevel"; "GetInfoCreds"; "ListActiveUsersSince";
   "SetWall"; "ClearWall"; "DeletePipeline"; "GetCC";
   "GetVersionsDB"; "ListJobInputs"; "OrderPipelines"; "OrderPipelinesWithinGroup";
   "ArchivePipeline"; "RenamePipeline"; "SaveConfig"; "PauseJob";
   "UnpauseJob"; "ExposePipeline"; "HidePipeline"; "CreatePipelineBuild";
   "ClearTaskCache"; "CreateArtifact"; "ClearResourceCache"; "GetArtifact";
   "ListSharedForResource"; "ListSharedForResourceType"; "ClearResourceVersions"; "ClearResourceTypeVersions";
   "GetOpenIDConfiguration"; "GetSigningKeys"; "SubmitAgentFeedback"; "GetAgentSnapshotReview";
   "ListAgentWorkflowRunReviews"; "GetBuildAgentReviews"; "ListTeamAgentReviews"; "ListRecentAgentRunMetrics";
   "ListBuildAgentRunMetrics"; "ListAgentTickets"; "CreateAgentTicket"; "GetAgentTicket";
   "UpdateAgentTicket"; "TransitionAgentTicket"; "DispatchAgentTicket"; "ListAgentTicketRuns";
   "SetAgentUserCredential"; "GetAgentUserCredentialStatus"; "DeleteAgentUserCredential"; "GetAgentCostRollup";
   "ListAgentWorkflows"; "ListAgentWorkflowVersions"; "GetAgentWorkflowVersion"; "CreateAgentWorkflowVersion";
   "PromoteAgentWorkflowVersion"; "GetAgentWorkflowStats"; "GetAgentWorkflowOverview"; "UpdateAgentWorkflow";
   "CreateAgentWorkflowRun"; "ListAgentWorkflowRuns"; "GetAgentWorkflowRunOperationalStatusCounts"; "GetAgentWorkflowRun";
   "CancelAgentWorkflowRun"; "RetryAgentWorkflowRun"; "GetAgentWorkflowRunOutputs"; "GetAgentWorkflowRunGraph";
   "ListAgentWorkflowRunWaits"; "ResolveAgentWorkflowRunWait"; "ListAgentWorkflowRunOutcomes"; "SetAgentWorkflowRunOutputOutcome";
   "ListAgentWorkflowRunMetrics"; "ListAgentWorkflowRunTranscripts"; "GetAgentWorkflowRunTranscript"; "ListAgentNodes";
   "ListAgentNodeVersions"; "GetAgentNodeVersion"; "CreateAgentNodeVersion"; "ReleaseAgentNodeVersion";
   "DeprecateAgentNodeVersion"; "CreateAgentNodeRun"; "ListAgentNodeRuns"; "GetAgentNodeRun";
   "CancelAgentNodeRun"; "ListAgentNodeConsumers"; "UpgradeAgentNodeConsumers"; "CreateAgentExperiment";
   "ListAgentExperiments"; "GetAgentExperiment"; "UpdateAgentExperiment"; "ValidateAgentExperiment";
   "StartAgentExperiment"; "CancelAgentExperiment"; "ListAgentExperimentCells"; "GetAgentExperimentCell";
   "GetAgentExperimentScorecard"; "CreateAgentSnapshot"; "CaptureAgentResourceSnapshot"; "ListAgentSnapshots";
   "GetAgentSnapshot"; "GetAgentRepositoryChangeProjection"; "DownloadAgentSnapshot"; "PinAgentSnapshot";
   "UnpinAgentSnapshot"; "GetAgentDispatcher"; "SetAgentDispatcher"; "AdmitAgentChildExecution";
   "PhaseAgentChildExecution"; "UpdateAgentChildExecution"; "TerminalAgentChildExecution"; "SealAgentChildExecution";
   "CaptureWorkspaceAgentChildExecution"; "CaptureWorkspaceFailureAgentChildExecution"; "GetAgentChildExecution"; "CopyResourceVersions";
   "ListDeprecatedScopes"; "ListPipelineRuns"; "GetPipelineRun"; "MCPEndpoint"].

(** A switch on the name of the action; [None] is the default case, a panic. *)
Definition in_case (name : string) (names : list string) : bool := bool_decide (name ∈ names).

Definition wrap_check (name : string) : option check :=
  snd <$> head (filter (fun c => in_case name c.1 = true) auth_cases).

Definition wrap_archived (name : string) : option bool :=
  if in_case name reject_archived then Some true
  else if in_case name leave_as_is then Some false else None.
