(* ===== verification/Access.v ===== *)
(** * Who may call the API

    The access a request gets from its token and the teams
    ([atc/api/accessor]), the checks in front of the handlers ([atc/api/auth],
    [atc/api/pipelineserver/reject_archived_handler_factory.go]), the order in which
    they are composed ([atc/wrappa], [atc/atccmd/command.go]) and the roles an
    operator may change.

    A handler is a function of the request; [Served] means that the request
    reached the handler of the action, behind all the checks: the token, the
    team, the archived pipeline, the policy check and the limit of concurrent
    requests.  The database, the JWT library, the endpoint of the signing keys,
    the policy agent and the pools of the limits are an interface.  Headers and
    bodies of responses, the cookies that a refusal removes, the audit log and
    the logger of a request are left out. *)
From stdpp Require Import base gmap sets list strings.
From Stdlib Require Import ZArith Ascii.
From S2P Require Import Prelude Vars Routes.

Open Scope Z_scope.

(** ** Teams and tokens *)

(** [atc.TeamAuth]: role, then [users] or [groups]. *)
Abbreviation TeamAuth := (gmap string (gmap string (list string))).

Record Team := { t_Name : string; t_Admin : bool; t_Auth : TeamAuth }.

Inductive auth_error := ErrAuthConfigEmpty | ErrAuthConfigInvalid.

Definition users (config : gmap string (list string)) : list string := default [] (config !! "users").
Definition groups_of (config : gmap string (list string)) : list string := default [] (config !! "groups").

Definition allow_all (config : gmap string (list string)) : bool :=
  match users config, groups_of config with [], [] => true | _, _ => false end.

Definition TeamAuth_Validate (auth : TeamAuth) : option auth_error :=
  if bool_decide (auth = ∅) then Some ErrAuthConfigEmpty
  else if existsb (fun '(_, config) => allow_all config) (map_to_list auth) then Some ErrAuthConfigInvalid
  else None.

(** What [Claims.Validate] of the JWT library returns. *)
Inductive jwt_error := ErrExpired | ErrOtherClaim.

(** A lookup of the database. *)
Inductive query (A : Type) := QErr | QNotFound | QFound (a : A).
Arguments QErr {A}.
Arguments QNotFound {A}.
Arguments QFound {A} _.

Record PipelineRow := {
  pr_Public : bool;
  pr_Archived : bool;
  (** [pipeline.Job(name)] and whether the job is public *)
  pr_Job : string -> query bool }.

Record BuildRow := {
  br_AllAssociatedTeamNames : list string;
  br_PipelineID : Z;
  br_JobID : Z;
  br_JobName : string;
  br_Pipeline : query PipelineRow }.

(** ** Policy (policy/checker.go) *)

Record Filter := { f_HttpMethods : list string; f_Actions : list string; f_ActionsToSkip : list string }.

Record PolicyCheckInput (D : Type) := {
  pi_Service : string;
  pi_ClusterName : string;
  pi_ClusterVersion : string;
  pi_HttpMethod : string;
  pi_Action : string;
  pi_User : string;
  pi_Team : string;
  pi_Roles : list string;
  pi_Pipeline : string;
  pi_Data : option D }.

Record PolicyCheckResult := { pc_Allowed : bool; pc_ShouldBlock : bool }.

Definition PassedPolicyCheck : PolicyCheckResult := {| pc_Allowed := true; pc_ShouldBlock := false |}.

(** [AgentChecker] or, when none is configured, [NoopChecker]. *)
Inductive Checker := NoopChecker | AgentChecker (filter : Filter).

Definition inArray (array : list string) (target : string) : bool := existsb (String.eqb target) array.

Definition ShouldCheckHttpMethod (c : Checker) (method : string) : bool :=
  match c with NoopChecker => false | AgentChecker filter => inArray (f_HttpMethods filter) method end.
Definition ShouldCheckAction (c : Checker) (action : string) : bool :=
  match c with NoopChecker => false | AgentChecker filter => inArray (f_Actions filter) action end.
Definition ShouldSkipAction (c : Checker) (action : string) : bool :=
  match c with NoopChecker => true | AgentChecker filter => inArray (f_ActionsToSkip filter) action end.

Class AccessWorld := {
  (** [strings.EqualFold] *)
  EqualFold : string -> string -> bool;
  (** [jwt.ParseSigned] for RS256, the key IDs of the headers of a token, its
      claims when the key verifies its signature, as a map and as the standard
      claims; [Validate] is at the time of the request *)
  SignedToken : Type;
  SigningKey : Type;
  StdClaims : Type;
  ParseSigned : string -> option SignedToken;
  token_KeyIDs : SignedToken -> list string;
  token_Claims : SignedToken -> SigningKey -> option (list (string * value));
  token_StdClaims : SignedToken -> SigningKey -> option StdClaims;
  std_Validate : StdClaims -> option jwt_error;
  std_Audience : StdClaims -> list string;
  (** What [GET] of the JWKS URL answers: the decoded key set, or an error *)
  http_Get_jwks : option (list (string * SigningKey));
  time_Now : Z;
  (** The policy agent: a result, or an error; and the cluster it is told of *)
  PolicyData : Type;
  agent_Check : PolicyCheckInput PolicyData -> option PolicyCheckResult;
  policyChecker : Checker;
  clusterName : string;
  clusterVersion : string;
  (** The pool of an action: its size, and whether [TryAcquire] gets a place *)
  HandlerPool : string -> option (nat * bool);
  GetTeams : option (list Team);
  InstanceVars : Type;
  FindTeam : string -> query unit;
  Team_Pipeline : string -> string -> option InstanceVars -> query PipelineRow;
  BuildForAPI : Z -> query BuildRow }.

Section Access.
Context `{!AccessWorld}.

(** ** The token (jwks_verifier.go, accessor_factory.go) *)

Inductive verify_error :=
| ErrVerificationNoToken
| ErrVerificationInvalidToken
| ErrVerificationTokenExpired
| ErrVerificationInvalidAudience.

(** The keys of [jwksVerifier], when they were fetched. *)
Record jwksVerifier := { v_keys : option (list (string * SigningKey)); v_fetchedAt : Z }.

(** [NewJWKSVerifier], which the command installs. *)
Definition NewJWKSVerifier : jwksVerifier := {| v_keys := None; v_fetchedAt := 0 |}.
Definition cacheTTL : Z := 5 * 60 * 1000000000.

(** [strings.SplitN(header, " ", 2)], when there is a space. *)
Fixpoint cut_space (s : string) : option (string * string) :=
  match s with
  | EmptyString => None
  | String c s =>
      if Ascii.eqb c " " then Some (EmptyString, s)
      else match cut_space s with Some (before, after) => Some (String c before, after) | None => None end
  end.

Definition extractBearerToken (header : string) : outcome verify_error string :=
  if String.eqb header "" then Fail ErrVerificationNoToken
  else match cut_space header with
       | Some (scheme, token) => if EqualFold scheme "bearer" then Ret token else Fail ErrVerificationInvalidToken
       | None => Fail ErrVerificationInvalidToken
       end.

(** The first key of the set with the ID. *)
Definition findKey (v : jwksVerifier) (kid : string) : option SigningKey :=
  keys ← v_keys v; snd <$> head (filter (fun k => k.1 = kid) keys).

Definition fetchKeys (v : jwksVerifier) : option jwksVerifier :=
  keys ← http_Get_jwks; Some {| v_keys := Some keys; v_fetchedAt := time_Now |}.

(** The key, and the verifier after it: the keys are fetched when the key is not
    known and the cache is older than its time. *)
Definition getKey (v : jwksVerifier) (kid : string) : option SigningKey * jwksVerifier :=
  let cacheValid := bool_decide (is_Some (v_keys v)) && (time_Now - v_fetchedAt v <? cacheTTL) in
  match findKey v kid with
  | Some key => (Some key, v)
  | None =>
      if cacheValid then (None, v)
      else match fetchKeys v with
           | None => (None, v)
           | Some v => (findKey v kid, v)
           end
  end.

(** What follows in [Verify] once the key is there. *)
Definition verifyClaims (audience : list string) (token : SignedToken) (key : SigningKey)
    : outcome verify_error (list (string * value)) :=
  match token_Claims token key, token_StdClaims token key with
  | Some rawClaims, Some stdClaims =>
      match std_Validate stdClaims with
      | Some ErrExpired => Fail ErrVerificationTokenExpired
      | Some ErrOtherClaim => Fail ErrVerificationInvalidToken
      | None =>
          if existsb (fun aud => bool_decide (aud ∈ std_Audience stdClaims)) audience then Ret rawClaims
          else Fail ErrVerificationInvalidAudience
      end
  | _, _ => Fail ErrVerificationInvalidToken
  end.

(** [jwksVerifier.Verify] of the [Authorization] header, with the verifier after
    it. *)
Definition Verify (v : jwksVerifier) (audience : list string) (header : string)
    : outcome verify_error (list (string * value)) * jwksVerifier :=
  match extractBearerToken header with
  | Ret rawToken =>
      match ParseSigned rawToken with
      | None => (Fail ErrVerificationInvalidToken, v)
      | Some token =>
          match token_KeyIDs token with
          | [] => (Fail ErrVerificationInvalidToken, v)
          | kid :: _ =>
              match getKey v kid with
              | (None, v) => (Fail ErrVerificationInvalidToken, v)
              | (Some key, v) => (verifyClaims audience token key, v)
              end
          end
      end
  | Fail e => (Fail e, v)
  | Panic => (Panic, v)
  | NoFuel => (NoFuel, v)
  end.

Record Verification := {
  ver_HasToken : bool;
  ver_IsTokenValid : bool;
  ver_RawClaims : list (string * value) }.

Definition verifyToken (v : jwksVerifier) (audience : list string) (header : string) : Verification :=
  match (Verify v audience header).1 with
  | Ret claims => {| ver_HasToken := true; ver_IsTokenValid := true; ver_RawClaims := claims |}
  | Fail ErrVerificationNoToken => {| ver_HasToken := false; ver_IsTokenValid := false; ver_RawClaims := [] |}
  | _ => {| ver_HasToken := true; ver_IsTokenValid := false; ver_RawClaims := [] |}
  end.

(** ** The access (accessor.go) *)

Record access := {
  verification : Verification;
  requiredRole : string;
  systemClaimKey : string;
  systemClaimValues : list string;
  teams : list Team;
  teamRoles : gmap string (list string);
  isAdmin : bool }.

Definition HasToken (a : access) : bool := ver_HasToken (verification a).
Definition IsAuthenticated (a : access) : bool := ver_IsTokenValid (verification a).

Definition lookup_claim (m : list (string * value)) (name : string) : option value :=
  (list_to_map m : gmap string value) !! name.

Definition claims (a : access) : list (string * value) :=
  if IsAuthenticated a then ver_RawClaims (verification a) else [].

Definition federatedClaims (a : access) : list (string * value) :=
  match lookup_claim (claims a) "federated_claims" with Some (VSMap m) => m | _ => [] end.

Definition federatedClaim (a : access) (name : string) : string :=
  match lookup_claim (federatedClaims a) name with Some (VStr s) => s | _ => "" end.

Definition claim (a : access) (name : string) : string :=
  match lookup_claim (claims a) name with Some (VStr s) => s | _ => "" end.

Definition userID (a : access) : string := federatedClaim a "user_id".
Definition userName (a : access) : string :=
  if negb (String.eqb (claim a "preferred_username") "") then claim a "preferred_username" else claim a "name".
Definition connectorID (a : access) : string := federatedClaim a "connector_id".

Definition groups (a : access) : list string :=
  match lookup_claim (claims a) "groups" with
  | Some (VList l) => omap (fun v => match v with VStr s => Some s | _ => None end) l
  | _ => []
  end.

Definition roleOnTeam (userID userName : string) (groups : list string) (roleAuth : gmap string (list string)) : bool :=
  allow_all roleAuth
  || existsb (fun user =>
       negb (String.eqb userID "") && EqualFold user userID
       || negb (String.eqb userName "") && EqualFold user userName) (users roleAuth)
  || existsb (fun group =>
       existsb (fun claimGroup => negb (String.eqb claimGroup "") && EqualFold group claimGroup) groups)
       (groups_of roleAuth).

Definition qualified (connectorID name : string) : string := (connectorID ++ ":" ++ name)%string.

(** Whether the owner of the token is named by the auth of a role. *)
Definition named_by (a : access) (roleAuth : gmap string (list string)) : bool :=
  let connector := if EqualFold (connectorID a) "cloudfoundry" then "cf" else connectorID a in
  let scoped name := if negb (String.eqb name "") then qualified connector name else name in
  roleOnTeam (scoped (userID a)) (scoped (userName a))
    (qualified connector <$> filter (fun g => g <> "") (groups a)) roleAuth.

Definition rolesForTeam (a : access) (auth : TeamAuth) : list string :=
  fst <$> filter (fun '(_, roleAuth) => named_by a roleAuth = true) (map_to_list auth).

(** [computeTeamRoles] *)
Definition computeTeamRoles (a : access) : access :=
  let '(roles, admin) :=
    foldl (fun '(roles, admin) team =>
      let r := rolesForTeam a (t_Auth team) in
      (match r with [] => roles | _ => <[t_Name team := r]> roles end,
       admin || t_Admin team && bool_decide ("owner" ∈ r)))
      (∅ : gmap string (list string), false) (teams a) in
  {| verification := verification a; requiredRole := requiredRole a; systemClaimKey := systemClaimKey a;
     systemClaimValues := systemClaimValues a; teams := teams a; teamRoles := roles; isAdmin := admin |}.

Definition NewAccessor (verification : Verification) (requiredRole systemClaimKey : string)
    (systemClaimValues : list string) (teams : list Team) : access :=
  computeTeamRoles
    {| verification := verification; requiredRole := requiredRole; systemClaimKey := systemClaimKey;
       systemClaimValues := systemClaimValues; teams := teams; teamRoles := ∅; isAdmin := false |}.

(** [&access{}] *)
Definition no_access : access :=
  {| verification := {| ver_HasToken := false; ver_IsTokenValid := false; ver_RawClaims := [] |};
     requiredRole := ""; systemClaimKey := ""; systemClaimValues := []; teams := []; teamRoles := ∅;
     isAdmin := false |}.

Definition hasRequiredRole (a : access) (role : string) : bool :=
  if String.eqb (requiredRole a) OwnerRole then String.eqb role OwnerRole
  else if String.eqb (requiredRole a) MemberRole then String.eqb role OwnerRole || String.eqb role MemberRole
  else if String.eqb (requiredRole a) OperatorRole then
    String.eqb role OwnerRole || String.eqb role MemberRole || String.eqb role OperatorRole
  else if String.eqb (requiredRole a) ViewerRole then
    String.eqb role OwnerRole || String.eqb role MemberRole || String.eqb role OperatorRole || String.eqb role ViewerRole
  else false.

Definition hasPermission (a : access) (roles : list string) : bool := existsb (hasRequiredRole a) roles.

Definition roles_on (a : access) (teamName : string) : list string := default [] (teamRoles a !! teamName).

Definition IsAuthorized (a : access) (teamName : string) : bool :=
  isAdmin a || hasPermission a (roles_on a teamName).

Definition TeamNames (a : access) : list string :=
  t_Name <$> filter (fun team => isAdmin a || hasPermission a (roles_on a (t_Name team)) = true) (teams a).

Definition IsAdmin (a : access) : bool := isAdmin a.

Definition IsSystem (a : access) : bool :=
  let c := claim a (systemClaimKey a) in
  negb (String.eqb c "") && bool_decide (c ∈ systemClaimValues a).

(** ** Handlers *)

Inductive response := Served | Status (code : Z).

Definition StatusBadRequest : Z := 400.
Definition StatusUnauthorized : Z := 401.
Definition StatusForbidden : Z := 403.
Definition StatusNotFound : Z := 404.
Definition StatusConflict : Z := 409.
Definition StatusInternalServerError : Z := 500.
Definition StatusNotImplemented : Z := 501.
Definition StatusServiceUnavailable : Z := 503.

(** The parts of a request that the checks read; the cookies are empty when
    absent, [InstanceVarsFromQueryParams] of the query is [rq_InstanceVars]
    ([None]: an error), [rq_Data] is what the policy check decodes of the body
    ([None]: an error), and the last two fields are the values in its context. *)
Record Request := {
  rq_Method : string;
  rq_Authorization : string;
  rq_AuthCookie : string;
  rq_CSRFCookie : string;
  rq_CSRFHeader : string;
  rq_team_name : string;
  rq_pipeline_name : string;
  rq_build_id : string;
  rq_InstanceVars : option (option InstanceVars);
  rq_Data : option (option PolicyData);
  rq_CSRFRequired : option bool;
  rq_accessor : option access }.

Definition Handler : Type := Request -> response.

Definition GetAccessor (r : Request) : access := default no_access (rq_accessor r).

Definition Unauthorized : response := Status StatusUnauthorized.
Definition Forbidden : response := Status StatusForbidden.

Definition checkAdminHandler (handler : Handler) : Handler := fun r =>
  let acc := GetAccessor r in
  if IsAuthenticated acc then if IsAdmin acc then handler r else Forbidden else Unauthorized.

Definition checkAuthHandler (handler : Handler) : Handler := fun r =>
  if IsAuthenticated (GetAccessor r) then handler r else Unauthorized.

Definition checkAuthIfProvidedHandler (handler : Handler) : Handler := fun r =>
  let acc := GetAccessor r in
  if HasToken acc && negb (IsAuthenticated acc) then Unauthorized else handler r.

Definition checkAuthorizationHandler (handler : Handler) : Handler := fun r =>
  let acc := GetAccessor r in
  if negb (IsAuthenticated acc) then Unauthorized
  else if negb (IsAuthorized acc (rq_team_name r)) then Forbidden else handler r.

Definition DefaultTeamName : string := "main".

Definition checkAgentAuthorizationHandler (handler : Handler) : Handler := fun r =>
  let acc := GetAccessor r in
  if negb (IsAuthenticated acc) then Unauthorized
  else if negb (IsAuthorized acc DefaultTeamName) then Forbidden else handler r.

(** [strconv.Atoi] *)
Fixpoint decimal_digits (s : string) (n : Z) : option Z :=
  match s with
  | EmptyString => Some n
  | String c s =>
      let d := Z.of_N (N_of_ascii c) - 48 in
      if (0 <=? d) && (d <=? 9) then decimal_digits s (10 * n + d) else None
  end.

Definition Atoi (s : string) : option Z :=
  let '(neg, digits) :=
    match s with
    | String c rest => if Ascii.eqb c "-" then (true, rest) else if Ascii.eqb c "+" then (false, rest) else (false, s)
    | EmptyString => (false, s)
    end in
  if String.eqb digits "" then None
  else n ← decimal_digits digits 0;
       let n := if neg then - n else n in
       if (- 2 ^ 63 <=? n) && (n <? 2 ^ 63) then Some n else None.

(** [build.AllAssociatedTeamNames] and the access. *)
Definition authorized_for_build (acc : access) (build : BuildRow) : bool :=
  existsb (IsAuthorized acc) (br_AllAssociatedTeamNames build).

Inductive allow_error := errDisappeared | allow_failed.

(** [checkBuildReadAccessHandler.allow] *)
Definition allow (allowPrivateJob : bool) (build : BuildRow) (acc : access) : outcome allow_error bool :=
  if IsAuthenticated acc && authorized_for_build acc build then Ret true
  else if br_PipelineID build =? 0 then Ret false
  else match br_Pipeline build with
       | QErr => Fail allow_failed
       | QNotFound => Fail errDisappeared
       | QFound pipeline =>
           if negb (pr_Public pipeline) then Ret false
           else if allowPrivateJob then Ret true
           else if br_JobID build =? 0 then Ret false
           else match pr_Job pipeline (br_JobName build) with
                | QErr => Fail allow_failed
                | QNotFound => Fail errDisappeared
                | QFound public => Ret public
                end
       end.

Definition find_build (r : Request) (k : BuildRow -> response) : response :=
  match Atoi (rq_build_id r) with
  | None => Status StatusBadRequest
  | Some id =>
      match BuildForAPI id with
      | QErr => Status StatusInternalServerError
      | QNotFound => Status StatusNotFound
      | QFound build => k build
      end
  end.

Definition checkBuildReadAccessHandler (allowPrivateJob : bool) (delegate : Handler) : Handler := fun r =>
  find_build r (fun build =>
    let acc := GetAccessor r in
    match allow allowPrivateJob build acc with
    | Ret true => delegate r
    | Ret false => if IsAuthenticated acc then Forbidden else Unauthorized
    | Fail errDisappeared => Status StatusNotFound
    | _ => Status StatusInternalServerError
    end).

Definition checkBuildWriteAccessHandler (delegate : Handler) : Handler := fun r =>
  let acc := GetAccessor r in
  if negb (IsAuthenticated acc) then Unauthorized
  else find_build r (fun build => if authorized_for_build acc build then delegate r else Forbidden).

(** The pipeline that the path names. *)
Definition find_pipeline (r : Request) (k : PipelineRow -> response) : response :=
  match rq_InstanceVars r with
  | None => Status StatusBadRequest
  | Some vars =>
      match FindTeam (rq_team_name r) with
      | QErr => Status StatusInternalServerError
      | QNotFound => Status StatusNotFound
      | QFound _ =>
          match Team_Pipeline (rq_team_name r) (rq_pipeline_name r) vars with
          | QErr => Status StatusInternalServerError
          | QNotFound => Status StatusNotFound
          | QFound pipeline => k pipeline
          end
      end
  end.

Definition checkPipelineAccessHandler (delegate : Handler) : Handler := fun r =>
  find_pipeline r (fun pipeline =>
    let acc := GetAccessor r in
    if IsAuthorized acc (rq_team_name r) || pr_Public pipeline then delegate r
    else if negb (IsAuthenticated acc) then Unauthorized else Forbidden).

Definition RejectArchivedHandler (delegate : Handler) : Handler := fun r =>
  find_pipeline r (fun pipeline => if pr_Archived pipeline then Status StatusConflict else delegate r).

(** ** Wrapping (wrappa) *)

Definition check_handler (c : check) (handler : Handler) : Handler :=
  match c with
  | AnyJobHandler => checkBuildReadAccessHandler true handler
  | CheckIfPrivateJobHandler => checkBuildReadAccessHandler false handler
  | BuildWriteHandler => checkBuildWriteAccessHandler handler
  | PipelineAccessHandler => checkPipelineAccessHandler handler
  | CheckAuthenticationHandler => checkAuthHandler handler
  | CheckAuthenticationIfProvidedHandler => checkAuthIfProvidedHandler handler
  | Unwrapped => handler
  | CheckAdminHandler => checkAdminHandler handler
  | CheckAuthorizationHandler => checkAuthorizationHandler handler
  | CheckAgentAuthorizationHandler => checkAgentAuthorizationHandler handler
  end.

(** [APIAuthWrappa.Wrap] of one handler; a name in no case panics. *)
Definition APIAuthWrappa_Wrap (name : string) (handler : Handler) : outcome unit Handler :=
  match wrap_check name with Some c => Ret (check_handler c handler) | None => Panic end.

Definition RejectArchivedWrappa_Wrap (name : string) (handler : Handler) : outcome unit Handler :=
  match wrap_archived name with
  | Some true => Ret (RejectArchivedHandler handler)
  | Some false => Ret handler
  | None => Panic
  end.

Definition set_accessor (a : access) (r : Request) : Request :=
  {| rq_Method := rq_Method r; rq_Authorization := rq_Authorization r; rq_AuthCookie := rq_AuthCookie r;
     rq_CSRFCookie := rq_CSRFCookie r; rq_CSRFHeader := rq_CSRFHeader r; rq_team_name := rq_team_name r;
     rq_pipeline_name := rq_pipeline_name r; rq_build_id := rq_build_id r; rq_InstanceVars := rq_InstanceVars r; rq_Data := rq_Data r;
     rq_CSRFRequired := rq_CSRFRequired r; rq_accessor := Some a |}.

(** ** Behind the checks (policychecker, concurrent_request_limits_wrappa.go) *)

(** [AgentChecker.Check]. *)
Definition checker_Check (c : Checker) (input : PolicyCheckInput PolicyData) : option PolicyCheckResult :=
  match c with
  | NoopChecker => Some PassedPolicyCheck
  | AgentChecker _ =>
      agent_Check
        {| pi_Service := "concourse"; pi_ClusterName := clusterName; pi_ClusterVersion := clusterVersion;
           pi_HttpMethod := pi_HttpMethod _ input; pi_Action := pi_Action _ input; pi_User := pi_User _ input;
           pi_Team := pi_Team _ input; pi_Roles := pi_Roles _ input; pi_Pipeline := pi_Pipeline _ input;
           pi_Data := pi_Data _ input |}
  end.

(** [policychecker.Check] of an action. *)
Definition policychecker_Check (action : string) (acc : access) (r : Request) : option PolicyCheckResult :=
  if IsSystem acc then Some PassedPolicyCheck
  else if ShouldSkipAction policyChecker action then Some PassedPolicyCheck
  else if negb (ShouldCheckHttpMethod policyChecker (rq_Method r)) && negb (ShouldCheckAction policyChecker action)
  then Some PassedPolicyCheck
  else
    data ← rq_Data r;
    checker_Check policyChecker
      {| pi_Service := ""; pi_ClusterName := ""; pi_ClusterVersion := ""; pi_HttpMethod := rq_Method r;
         pi_Action := action; pi_User := claim acc "name"; pi_Team := rq_team_name r;
         pi_Roles := roles_on acc (rq_team_name r); pi_Pipeline := rq_pipeline_name r; pi_Data := data |}.

Definition policyCheckingHandler (action : string) (handler : Handler) : Handler := fun r =>
  match policychecker_Check action (GetAccessor r) r with
  | None => Status StatusBadRequest
  | Some result =>
      if negb (pc_Allowed result) && pc_ShouldBlock result then Status StatusForbidden else handler r
  end.

(** [ConcurrentRequestLimitsWrappa.Wrap] of one handler. *)
Definition limitsHandler (action : string) (handler : Handler) : Handler :=
  match HandlerPool action with
  | None => handler
  | Some (size, free) => fun r =>
      if (size =? 0)%nat then Status StatusNotImplemented
      else if free then handler r else Status StatusServiceUnavailable
  end.

Context (v : jwksVerifier) (audience : list string) (claimKey : string) (claimValues : list string) (customRoles : gmap string string).

(** The role an action asks for ([accessorHandler.ServeHTTP]). *)
Definition role_of (action : string) : string :=
  let custom := default "" (customRoles !! action) in
  if String.eqb custom "" then default "" ((list_to_map DefaultRoles : gmap string string) !! action) else custom.

(** [accessFactory.Create] *)
Definition access_Create (header role : string) : option access :=
  teams ← GetTeams; Some (NewAccessor (verifyToken v audience header) role claimKey claimValues teams).

Definition accessorHandler (action : string) (handler : Handler) : Handler := fun r =>
  match access_Create (rq_Authorization r) (role_of action) with
  | None => Status StatusInternalServerError
  | Some acc => handler (set_accessor acc r)
  end.

(** The wrappers of the API that decide on a request, in the order of the
    command: the first is the innermost. *)
Definition apiWrapper (name : string) (handler : Handler) : outcome unit Handler :=
  let handler := policyCheckingHandler name (limitsHandler name handler) in
  handler ← APIAuthWrappa_Wrap name handler;
  handler ← RejectArchivedWrappa_Wrap name handler;
  Ret (accessorHandler name handler).

(** ** Cookies (web_auth_handler.go, csrf_validation_handler.go) *)

Definition isCSRFRequired (r : Request) : bool :=
  negb (String.eqb (rq_Method r) "GET") && negb (String.eqb (rq_Method r) "HEAD") && negb (String.eqb (rq_Method r) "OPTIONS").

Definition IsCSRFRequired (r : Request) : bool := default false (rq_CSRFRequired r).

Definition csrfValidationHandler (handler : Handler) : Handler := fun r =>
  if IsCSRFRequired r &&
     (String.eqb (rq_CSRFHeader r) "" || String.eqb (rq_CSRFCookie r) "" ||
      negb (String.eqb (rq_CSRFCookie r) (rq_CSRFHeader r)))
  then Status StatusUnauthorized
  else handler r.

Definition WebAuthHandler (handler : Handler) : Handler := fun r =>
  if negb (String.eqb (rq_AuthCookie r) "") then
    handler
      {| rq_Method := rq_Method r;
         rq_Authorization := if String.eqb (rq_Authorization r) "" then rq_AuthCookie r else rq_Authorization r;
         rq_AuthCookie := rq_AuthCookie r; rq_CSRFCookie := rq_CSRFCookie r; rq_CSRFHeader := rq_CSRFHeader r;
         rq_team_name := rq_team_name r; rq_pipeline_name := rq_pipeline_name r; rq_build_id := rq_build_id r;
         rq_InstanceVars := rq_InstanceVars r; rq_Data := rq_Data r; rq_CSRFRequired := Some (isCSRFRequired r); rq_accessor := rq_accessor r |}
  else handler r.

(** The handler of an action below [/api/v1/] ([constructHTTPHandler]). *)
Definition httpHandler (name : string) (handler : Handler) : outcome unit Handler :=
  apiHandler ← apiWrapper name handler;
  Ret (WebAuthHandler (csrfValidationHandler apiHandler)).
End Access.

(** ** Roles of the operator (command.go) *)

Inductive roles_error := UnknownRole (role : string) | UnknownAction (action : string).

(** [validateCustomRoles] of the entries of the file, in the order of the map. *)
Fixpoint validateCustomRoles (data : list (string * list string)) : option roles_error :=
  match data with
  | [] => None
  | (role, actions) :: data =>
      if negb (bool_decide (role ∈ snd <$> DefaultRoles)) then Some (UnknownRole role)
      else match head (filter (fun action => action ∉ fst <$> DefaultRoles) actions) with
           | Some action => Some (UnknownAction action)
           | None => validateCustomRoles data
           end
  end.

Definition parseCustomRoles (data : list (string * list string)) : gmap string string :=
  foldl (fun mapping '(role, actions) =>
    foldl (fun mapping action => <[action := role]> mapping) mapping actions) ∅ data.
