(* ===== verification/AccessSpec.v ===== *)
(** * What the checks of the API guarantee

    [entitled] says in terms of the teams who may act on a team; [grants] what a
    check asks of an access.  The access computed from a token agrees with
    [entitled], each handler with [grants], and the composed handlers with both;
    the table of routes is checked by evaluation. *)
From stdpp Require Import base gmap sets list strings.
From Stdlib Require Import ZArith Lia.
From S2P Require Import Prelude Vars StepValidator Routes Access.

Open Scope Z_scope.

(** ** Roles *)

(** The roles in increasing order; 0 is no role of the code. *)
Definition rank (role : string) : nat :=
  if String.eqb role OwnerRole then 4
  else if String.eqb role MemberRole then 3
  else if String.eqb role OperatorRole then 2
  else if String.eqb role ViewerRole then 1 else 0.

Section Roles.
Context {W : AccessWorld}.
Implicit Types (a : access) (v : Verification) (ts : list Team).

Lemma hasRequiredRole_rank a role :
  hasRequiredRole a role = true <-> (0 < rank (requiredRole a) <= rank role)%nat.
Proof.
  unfold hasRequiredRole, rank.
  destruct (String.eqb (requiredRole a) OwnerRole), (String.eqb (requiredRole a) MemberRole),
    (String.eqb (requiredRole a) OperatorRole), (String.eqb (requiredRole a) ViewerRole);
  destruct (String.eqb role OwnerRole), (String.eqb role MemberRole), (String.eqb role OperatorRole), (String.eqb role ViewerRole);
  cbn; split; intros; try done; lia.
Qed.

(** The owner of a verified token has a role on a team. *)
Definition bare v : access :=
  {| verification := v; requiredRole := ""; systemClaimKey := ""; systemClaimValues := []; teams := [];
     teamRoles := ∅; isAdmin := false |}.

Definition has_role v (t : Team) (role : string) : Prop :=
  exists roleAuth, t_Auth t !! role = Some roleAuth /\ named_by (bare v) roleAuth = true.

(** Owners of an admin team, and holders of a role that ranks high enough. *)
Definition admin v ts : Prop := exists t, t ∈ ts /\ t_Admin t = true /\ has_role v t OwnerRole.
Definition entitled v (role : string) ts (team : string) : Prop :=
  admin v ts \/
  exists t r, t ∈ ts /\ t_Name t = team /\ has_role v t r /\ (0 < rank role <= rank r)%nat.

Lemma named_by_verification a roleAuth : named_by a roleAuth = named_by (bare (verification a)) roleAuth.
Proof. by destruct a. Qed.

Lemma rolesForTeam_in a t r : r ∈ rolesForTeam a (t_Auth t) <-> has_role (verification a) t r.
Proof.
  unfold rolesForTeam, has_role. rewrite list_elem_of_fmap. split.
  - intros ([r' roleAuth] & -> & Hin). apply list_elem_of_filter in Hin as [Hn Hin].
    apply elem_of_map_to_list in Hin. exists roleAuth. split; [done|]. by rewrite <- named_by_verification.
  - intros (roleAuth & Hl & Hn). exists (r, roleAuth). split; [done|]. apply list_elem_of_filter.
    split; [by rewrite named_by_verification|]. by apply elem_of_map_to_list.
Qed.

(** What [computeTeamRoles] has found after some teams. *)
Lemma computed_roles a ts :
  NoDup (t_Name <$> ts) ->
  let '(roles, adm) :=
    foldl (fun '(roles, adm) team =>
      let r := rolesForTeam a (t_Auth team) in
      (match r with [] => roles | _ => <[t_Name team := r]> roles end,
       adm || t_Admin team && bool_decide ("owner" ∈ r)))
      (∅ : gmap string (list string), false) ts in
  (forall name r, r ∈ default [] (roles !! name) <-> exists t, t ∈ ts /\ t_Name t = name /\ has_role (verification a) t r) /\
  (adm = true <-> admin (verification a) ts).
Proof.
  induction ts as [|t ts IH] using rev_ind; intros Hnd.
  { cbn. split; [intros name r; rewrite lookup_empty; cbn|]; unfold admin; set_solver. }
  rewrite fmap_app in Hnd. apply NoDup_app in Hnd as (Hnd & Hdis & _). specialize (IH Hnd).
  rewrite foldl_snoc. destruct (foldl _ _ ts) as [roles adm]. destruct IH as [IHr IHa].
  set (r := rolesForTeam a (t_Auth t)). assert (Hr : forall x, x ∈ r <-> has_role (verification a) t x) by apply rolesForTeam_in.
  split.
  - intros name x.
    assert (Hnew : forall t', t' ∈ ts -> t_Name t' <> t_Name t).
    { intros t' Ht' Heq. apply (Hdis (t_Name t')); [by apply list_elem_of_fmap_2|]. cbn. rewrite Heq. set_solver. }
    destruct (decide (name = t_Name t)) as [->|Hne].
    + assert (Hold : roles !! t_Name t = None \/ default [] (roles !! t_Name t) = []).
      { destruct (roles !! t_Name t) as [[|y l]|] eqn:E; [by right| |by left].
        destruct (proj1 (IHr (t_Name t) y)) as (t' & Ht' & Heq & _); [rewrite E; cbn; set_solver|]. by destruct (Hnew t' Ht'). }
      assert (Hlook : default [] (match r with [] => roles | _ => <[t_Name t := r]> roles end !! t_Name t) = r).
      { destruct r; [|by rewrite lookup_insert_eq]. destruct Hold as [->| ->]; done. }
      rewrite Hlook, Hr. split; [intros; exists t; set_solver|]. intros (t' & [Ht'|Ht']%elem_of_app & Heq & Hx).
      * by destruct (Hnew t' Ht').
      * apply list_elem_of_singleton in Ht' as ->. done.
    + assert (Hlook : match r with [] => roles | _ => <[t_Name t := r]> roles end !! name = roles !! name).
      { destruct r; [done|]. by rewrite lookup_insert_ne. }
      rewrite Hlook, IHr. split; intros (t' & Ht' & Heq & Hx); exists t'; [set_solver|].
      apply elem_of_app in Ht' as [Ht'|Ht'%list_elem_of_singleton]; [done|]. congruence.
  - rewrite orb_true_iff, andb_true_iff, bool_decide_eq_true, IHa, Hr. unfold admin. split.
    + intros [(t' & Ht' & H1 & H2)|[H1 H2]]; [exists t'|exists t]; set_solver.
    + intros (t' & [Ht'|Ht']%elem_of_app & H1 & H2); [left; eauto|].
      apply list_elem_of_singleton in Ht' as ->. by right.
Qed.

Lemma NewAccessor_spec v role key values ts :
  NoDup (t_Name <$> ts) ->
  let a := NewAccessor v role key values ts in
  verification a = v /\ (IsAdmin a = true <-> admin v ts) /\
  (forall team, IsAuthorized a team = true <-> entitled v role ts team).
Proof.
  intros Hnd. unfold NewAccessor, computeTeamRoles. cbn [verification requiredRole teams].
  match goal with |- context [foldl ?f ?i ts] => pose proof (computed_roles
    {| verification := v; requiredRole := role; systemClaimKey := key; systemClaimValues := values; teams := ts;
       teamRoles := ∅; isAdmin := false |} ts Hnd) as Hc; destruct (foldl f i ts) as [roles adm] end.
  cbn in Hc. destruct Hc as [Hr Ha]. cbn [verification]. split; [done|]. split; [done|].
  intros team. unfold IsAuthorized, hasPermission, roles_on. cbn [isAdmin teamRoles].
  rewrite orb_true_iff, Ha, existsb_exists. unfold entitled. apply or_iff_compat_l. split.
  - intros (r & Hin & Hreq). apply list_elem_of_In, Hr in Hin as (t & Ht & Hn & Hh). apply hasRequiredRole_rank in Hreq. cbn in Hreq. eauto 10.
  - intros (t & r & Ht & Hn & Hh & Hrank). exists r. split; [apply list_elem_of_In, Hr; eauto|]. by apply hasRequiredRole_rank.
Qed.
End Roles.

(** ** Routes *)

Section Served.
Context {W : AccessWorld} (jwks : jwksVerifier) (audience : list string) (claimKey : string) (claimValues : list string)
  (customRoles : gmap string string).
Implicit Types (r : Request) (v : Verification) (h : Handler).

(** The request as it arrives: nothing has been added to its context. *)
Definition fresh r : Prop := rq_CSRFRequired r = None /\ rq_accessor r = None.

(** The credentials of a request: its header, or else its cookie. *)
Definition credentials r : string :=
  if String.eqb (rq_Authorization r) "" then rq_AuthCookie r else rq_Authorization r.

Definition csrf_ok r : Prop :=
  rq_AuthCookie r = "" \/ rq_Method r ∈ ["GET"; "HEAD"; "OPTIONS"] \/
  (rq_CSRFCookie r <> "" /\ rq_CSRFHeader r = rq_CSRFCookie r).

(** The pipeline of the request exists and has a property. *)
Definition on_pipeline r (P : PipelineRow -> Prop) : Prop :=
  exists vars pipeline, rq_InstanceVars r = Some vars /\ FindTeam (rq_team_name r) = QFound tt /\
    Team_Pipeline (rq_team_name r) (rq_pipeline_name r) vars = QFound pipeline /\ P pipeline.

Definition on_build r (P : BuildRow -> Prop) : Prop :=
  exists id build, Atoi (rq_build_id r) = Some id /\ BuildForAPI id = QFound build /\ P build.

Lemma find_pipeline_served r k : find_pipeline r k = Served <-> on_pipeline r (fun p => k p = Served).
Proof.
  unfold find_pipeline, on_pipeline. split.
  - intros H. destruct (rq_InstanceVars r) as [vars|]; [|done].
    destruct (FindTeam _) as [| |[]] eqn:E; [done..|]. destruct (Team_Pipeline _ _ _) as [| |p] eqn:E'; [done..|]. by exists vars, p.
  - intros (vars & p & -> & -> & -> & H). done.
Qed.

Lemma find_build_served r k : find_build r k = Served <-> on_build r (fun b => k b = Served).
Proof.
  unfold find_build, on_build. split.
  - intros H. destruct (Atoi _) as [id|]; [|done]. destruct (BuildForAPI id) as [| |b] eqn:E; [done..|]. by exists id, b.
  - intros (id & b & -> & -> & H). done.
Qed.

(** What a check asks of the access. *)
Definition grants (c : check) (acc : access) r : Prop :=
  match c with
  | AnyJobHandler => on_build r (fun b => allow true b acc = Ret true)
  | CheckIfPrivateJobHandler => on_build r (fun b => allow false b acc = Ret true)
  | BuildWriteHandler => IsAuthenticated acc = true /\ on_build r (fun b => authorized_for_build acc b = true)
  | PipelineAccessHandler => on_pipeline r (fun p => IsAuthorized acc (rq_team_name r) = true \/ pr_Public p = true)
  | CheckAuthenticationHandler => IsAuthenticated acc = true
  | CheckAuthenticationIfProvidedHandler => HasToken acc = false \/ IsAuthenticated acc = true
  | Unwrapped => True
  | CheckAdminHandler => IsAuthenticated acc = true /\ IsAdmin acc = true
  | CheckAuthorizationHandler => IsAuthenticated acc = true /\ IsAuthorized acc (rq_team_name r) = true
  | CheckAgentAuthorizationHandler => IsAuthenticated acc = true /\ IsAuthorized acc DefaultTeamName = true
  end.

Definition served : Handler := fun _ => Served.

Lemma allow_served h r allowPrivate acc :
  GetAccessor r = acc ->
  checkBuildReadAccessHandler allowPrivate h r = Served <->
  on_build r (fun b => allow allowPrivate b acc = Ret true) /\ h r = Served.
Proof.
  intros <-. unfold checkBuildReadAccessHandler. rewrite find_build_served. unfold on_build. split.
  - intros (id & b & Hid & Hb & H).
    destruct (allow _ _ _) as [[]|[]| |] eqn:E; try done; [split; [|done]; by exists id, b|by destruct (IsAuthenticated _)].
  - intros [(id & b & Hid & Hb & H) Hh]. exists id, b. by rewrite H.
Qed.

Lemma check_handler_served c h r acc :
  GetAccessor r = acc -> check_handler c h r = Served <-> grants c acc r /\ h r = Served.
Proof.
  intros Hacc. destruct c; cbn [check_handler grants].
  - by apply allow_served.
  - by apply allow_served.
  - unfold checkBuildWriteAccessHandler. rewrite Hacc. destruct (IsAuthenticated acc); cbn [negb]; [|naive_solver].
    rewrite find_build_served. unfold on_build. split.
    + intros (id & b & H1 & H2 & H). destruct (authorized_for_build acc b) eqn:E; [|done].
      split; [|done]. split; [done|]. by exists id, b.
    + intros [(_ & id & b & H1 & H2 & H) Hh]. exists id, b. by rewrite H.
  - unfold checkPipelineAccessHandler. rewrite find_pipeline_served. rewrite Hacc. unfold on_pipeline. split.
    + intros (vars & p & H1 & H2 & H3 & H).
      assert (Hp : IsAuthorized acc (rq_team_name r) = true \/ pr_Public p = true).
      { destruct (IsAuthorized acc _); [by left|]. destruct (pr_Public p); [by right|]. by destruct (IsAuthenticated acc). }
      split; [by exists vars, p|]. destruct Hp as [Hp|Hp]; rewrite Hp, ?orb_true_r in H; exact H.
    + intros [(vars & p & H1 & H2 & H3 & H) Hh]. exists vars, p. repeat split; try done.
      destruct H as [->| ->]; [done|]. by rewrite orb_true_r.
  - unfold checkAuthHandler. rewrite Hacc. destruct (IsAuthenticated acc); naive_solver.
  - unfold checkAuthIfProvidedHandler. rewrite Hacc. destruct (HasToken acc), (IsAuthenticated acc); cbn; naive_solver.
  - naive_solver.
  - unfold checkAdminHandler. rewrite Hacc. destruct (IsAuthenticated acc), (IsAdmin acc); naive_solver.
  - unfold checkAuthorizationHandler. rewrite Hacc. destruct (IsAuthenticated acc), (IsAuthorized acc _); naive_solver.
  - unfold checkAgentAuthorizationHandler. rewrite Hacc. destruct (IsAuthenticated acc), (IsAuthorized acc _); naive_solver.
Qed.

(** The policy lets the action pass: it is not asked, allows it, or only warns. *)
Definition policy_permits (name : string) (acc : access) r : Prop :=
  exists result, policychecker_Check name acc r = Some result /\
    (pc_Allowed result = true \/ pc_ShouldBlock result = false).

(** The pool of the action, if it has one, has a place. *)
Definition has_room (name : string) : Prop :=
  match HandlerPool name with Some (size, free) => size <> 0%nat /\ free = true | None => True end.

Lemma behind_served name r acc :
  GetAccessor r = acc ->
  policyCheckingHandler name (limitsHandler name served) r = Served <-> policy_permits name acc r /\ has_room name.
Proof.
  intros Hacc. unfold policyCheckingHandler, limitsHandler, policy_permits, has_room. rewrite Hacc.
  assert (Hroom : match HandlerPool name with
    | Some (size, free) => fun r => if (size =? 0)%nat then Status StatusNotImplemented
        else if free then served r else Status StatusServiceUnavailable
    | None => served end r = Served <-> match HandlerPool name with Some (size, free) => size <> 0%nat /\ free = true | None => True end).
  { destruct (HandlerPool name) as [[size free]|]; [|done]. destruct (Nat.eqb_spec size 0), free; naive_solver. }
  rewrite <- Hroom. clear Hroom. destruct (policychecker_Check name acc r) as [res|].
  - transitivity ((pc_Allowed res = true \/ pc_ShouldBlock res = false) /\ limitsHandler name served r = Served).
    + fold (limitsHandler name served). destruct (pc_Allowed res), (pc_ShouldBlock res); cbn [negb andb];
        split; intros Hh; try done; try (split; [auto|exact Hh]); by destruct Hh as [[] ?].
    + apply and_iff_compat_r. split; [by eexists|]. by intros (? & [= <-] & ?).
  - split; [done|]. by intros [(? & ? & _) _].
Qed.

(** The access that a request gets. *)
Definition access_for (name : string) r (ts : list Team) : access :=
  NewAccessor (verifyToken jwks audience (credentials r)) (role_of customRoles name) claimKey claimValues ts.

(** The request behind [WebAuthHandler]. *)
Definition arrived r : Request :=
  if String.eqb (rq_AuthCookie r) "" then r
  else {| rq_Method := rq_Method r; rq_Authorization := credentials r; rq_AuthCookie := rq_AuthCookie r;
          rq_CSRFCookie := rq_CSRFCookie r; rq_CSRFHeader := rq_CSRFHeader r; rq_team_name := rq_team_name r;
          rq_pipeline_name := rq_pipeline_name r; rq_build_id := rq_build_id r; rq_InstanceVars := rq_InstanceVars r; rq_Data := rq_Data r;
          rq_CSRFRequired := Some (isCSRFRequired r); rq_accessor := rq_accessor r |}.

Lemma WebAuthHandler_arrived h r : WebAuthHandler h r = h (arrived r).
Proof. unfold WebAuthHandler, arrived, credentials. by destruct (String.eqb (rq_AuthCookie r) ""). Qed.

Lemma arrived_Authorization r : rq_Authorization (arrived r) = credentials r.
Proof.
  unfold arrived, credentials. destruct (String.eqb_spec (rq_AuthCookie r) "") as [->|]; [|done].
  by destruct (String.eqb_spec (rq_Authorization r) "").
Qed.

Lemma isCSRFRequired_false r : isCSRFRequired r = false <-> rq_Method r ∈ ["GET"; "HEAD"; "OPTIONS"].
Proof.
  unfold isCSRFRequired. rewrite !andb_false_iff, !negb_false_iff, !String.eqb_eq. set_solver.
Qed.

Lemma csrf_served h r :
  fresh r -> csrfValidationHandler h (arrived r) = Served <-> csrf_ok r /\ h (arrived r) = Served.
Proof.
  intros [Hf _]. unfold csrfValidationHandler, csrf_ok, arrived, IsCSRFRequired.
  destruct (String.eqb_spec (rq_AuthCookie r) "") as [Hc|Hc]; [rewrite Hf; cbn; naive_solver|].
  cbn [rq_CSRFRequired default rq_CSRFHeader rq_CSRFCookie]. rewrite <- isCSRFRequired_false.
  destruct (isCSRFRequired r); cbn [andb]; [|naive_solver].
  destruct (String.eqb_spec (rq_CSRFHeader r) ""); cbn [orb andb id]; [split; [done|]; intros [[?|[?|[??]]] _]; congruence|].
  destruct (String.eqb_spec (rq_CSRFCookie r) ""); cbn [orb andb]; [split; [done|]; intros [[?|[?|[??]]] _]; congruence|].
  destruct (String.eqb_spec (rq_CSRFCookie r) (rq_CSRFHeader r)); cbn [negb];
    [|split; [done|]; intros [[?|[?|[??]]] _]; congruence].
  split; [intros Hh; split; [right; right; split; congruence|exact Hh]|by intros []].
Qed.

(** The checks read only what the wrappers leave as it is. *)
Lemma grants_arrived c acc acc' r : grants c acc (set_accessor acc' (arrived r)) <-> grants c acc r.
Proof. unfold arrived. by destruct (String.eqb (rq_AuthCookie r) ""), c. Qed.
Lemma on_pipeline_arrived P acc r : on_pipeline (set_accessor acc (arrived r)) P <-> on_pipeline r P.
Proof. unfold arrived. by destruct (String.eqb (rq_AuthCookie r) ""). Qed.

Lemma policy_permits_arrived name acc acc' r :
  policy_permits name acc (set_accessor acc' (arrived r)) <-> policy_permits name acc r.
Proof. unfold arrived. by destruct (String.eqb (rq_AuthCookie r) ""). Qed.

(** A request reaches the handler of an action exactly when it passes the CSRF
    check, the check of the action, the policy and the limit, and the action is
    not one refused for the archived pipeline. *)
Lemma httpHandler_served name c archived r :
  wrap_check name = Some c -> wrap_archived name = Some archived -> fresh r ->
  exists H, httpHandler jwks audience claimKey claimValues customRoles name served = Ret H /\
    (H r = Served <->
     csrf_ok r /\ exists ts, GetTeams = Some ts /\ grants c (access_for name r ts) r /\
       (archived = true -> on_pipeline r (fun p => pr_Archived p = false)) /\
       policy_permits name (access_for name r ts) r /\ has_room name).
Proof.
  intros Hc Ha Hfresh. unfold httpHandler, apiWrapper, APIAuthWrappa_Wrap, RejectArchivedWrappa_Wrap. rewrite Hc, Ha.
  cbn [mbind outcome_bind].
  set (behind := policyCheckingHandler name (limitsHandler name served)).
  set (inner := if archived then RejectArchivedHandler (check_handler c behind) else check_handler c behind).
  exists (WebAuthHandler (csrfValidationHandler (accessorHandler jwks audience claimKey claimValues customRoles name inner))).
  split; [by destruct archived|]. rewrite WebAuthHandler_arrived, csrf_served by done. apply and_iff_compat_l.
  unfold accessorHandler, access_Create. rewrite arrived_Authorization.
  destruct GetTeams as [ts|]; cbn [mbind option_bind]; [|naive_solver].
  fold (access_for name r ts). set (acc := access_for name r ts).
  assert (Hcheck : check_handler c behind (set_accessor acc (arrived r)) = Served <->
    grants c acc r /\ policy_permits name acc r /\ has_room name).
  { rewrite check_handler_served by done. unfold behind. rewrite (behind_served name (set_accessor acc (arrived r)) acc) by done.
    by rewrite policy_permits_arrived, grants_arrived. }
  assert (Hinner : inner (set_accessor acc (arrived r)) = Served <->
    check_handler c behind (set_accessor acc (arrived r)) = Served /\
    (archived = true -> on_pipeline r (fun p => pr_Archived p = false))).
  { unfold inner. destruct archived; [|naive_solver]. unfold RejectArchivedHandler. rewrite find_pipeline_served.
    rewrite <- (on_pipeline_arrived _ acc r). unfold on_pipeline.
    split; [intros (vars & p & H1 & H2 & H3 & H); split; [|intros _; exists vars, p; repeat split; try done]; by destruct (pr_Archived p)|].
    intros [H4 H]. destruct (H eq_refl) as (vars & p & H1 & H2 & H3 & H5). exists vars, p. rewrite H5. done. }
  rewrite Hinner, Hcheck. naive_solver.
Qed.

(** The checks that only a valid token passes. *)
Definition token_required (c : check) : bool :=
  match c with
  | BuildWriteHandler | CheckAuthenticationHandler | CheckAdminHandler | CheckAuthorizationHandler
  | CheckAgentAuthorizationHandler => true
  | _ => false
  end.

(** What the owner of a token must be for such a check, for an action that asks
    for a role: nothing, an admin, or entitled on the team of the path, on the
    main team, or on a team of the build. *)
Definition may_call (c : check) v (role : string) (ts : list Team) r : Prop :=
  match c with
  | CheckAdminHandler => admin v ts
  | CheckAuthorizationHandler => entitled v role ts (rq_team_name r)
  | CheckAgentAuthorizationHandler => entitled v role ts DefaultTeamName
  | BuildWriteHandler =>
      on_build r (fun b => exists team, team ∈ br_AllAssociatedTeamNames b /\ entitled v role ts team)
  | _ => True
  end.

Definition verified (claims : list (string * value)) : Verification :=
  {| ver_HasToken := true; ver_IsTokenValid := true; ver_RawClaims := claims |}.

(** A token verifies when it is signed by a key the verifier knows or gets, its
    claims are valid now, and an audience of it is accepted. *)
Lemma Verify_Ret header claims :
  (Verify jwks audience header).1 = Ret claims <->
  exists scheme raw token kid key std, cut_space header = Some (scheme, raw) /\ header <> "" /\
    EqualFold scheme "bearer" = true /\ ParseSigned raw = Some token /\ head (token_KeyIDs token) = Some kid /\
    (getKey jwks kid).1 = Some key /\ token_Claims token key = Some claims /\ token_StdClaims token key = Some std /\
    std_Validate std = None /\ exists aud, aud ∈ audience /\ aud ∈ std_Audience std.
Proof.
  unfold Verify, extractBearerToken, verifyClaims. split.
  - intros H. destruct (String.eqb_spec header "") as [|Hne]; [done|].
    destruct (cut_space header) as [[scheme raw]|] eqn:E1; [|done]. destruct (EqualFold scheme "bearer") eqn:E2; [|done].
    destruct (ParseSigned raw) as [token|] eqn:E3; [|done]. destruct (token_KeyIDs token) as [|kid kids] eqn:E4; [done|].
    destruct (getKey jwks kid) as [[key|] v'] eqn:E5; [|done]. cbn in H.
    destruct (token_Claims token key) as [cl|] eqn:E6; [|done]. destruct (token_StdClaims token key) as [std|] eqn:E7; [|done].
    destruct (std_Validate std) as [[]|] eqn:E8; [done..|]. destruct (existsb _ audience) eqn:E9; [|done]. injection H as <-.
    apply existsb_exists in E9 as (aud & Hin & Haud). apply bool_decide_eq_true in Haud.
    exists scheme, raw, token, kid, key, std. rewrite E4, E5. split_and!; try done. exists aud. by rewrite list_elem_of_In.
  - intros (scheme & raw & token & kid & key & std & E1 & Hne & E2 & E3 & E4 & E5 & E6 & E7 & E8 & aud & Hin & Haud).
    destruct (String.eqb_spec header ""); [done|]. rewrite E1, E2, E3.
    destruct (token_KeyIDs token) as [|kid' kids]; [done|]. injection E4 as ->.
    destruct (getKey jwks kid) as [ok v']. cbn in E5. subst ok. cbn. rewrite E6, E7, E8.
    assert (Hex : existsb (fun aud => bool_decide (aud ∈ std_Audience std)) audience = true); [|by rewrite Hex].
    apply existsb_exists. exists aud. rewrite bool_decide_eq_true. by rewrite <- list_elem_of_In.
Qed.

Lemma verifyToken_valid header :
  ver_IsTokenValid (verifyToken jwks audience header) = true <->
  exists claims, (Verify jwks audience header).1 = Ret claims /\ verifyToken jwks audience header = verified claims.
Proof.
  unfold verifyToken. destruct ((Verify jwks audience header).1) as [cl|[]| |]; cbn; naive_solver.
Qed.

Lemma grants_token c name r ts :
  token_required c = true -> NoDup (t_Name <$> ts) ->
  grants c (access_for name r ts) r <->
  exists claims, (Verify jwks audience (credentials r)).1 = Ret claims /\
    may_call c (verified claims) (role_of customRoles name) ts r.
Proof.
  intros Hc Hnd. unfold access_for. set (v := verifyToken jwks audience (credentials r)).
  destruct (NewAccessor_spec v (role_of customRoles name) claimKey claimValues ts Hnd) as (Hv & Hadmin & Hauth).
  set (acc := NewAccessor v _ _ _ _) in *.
  assert (Hgrant : grants c acc r <-> ver_IsTokenValid v = true /\ may_call c v (role_of customRoles name) ts r).
  { unfold IsAuthenticated in *. destruct c; try done; cbn [grants may_call]; unfold IsAuthenticated; rewrite Hv;
      rewrite ?Hadmin, ?Hauth; try done; [|naive_solver].
    apply and_iff_compat_l. unfold on_build, authorized_for_build. setoid_rewrite existsb_exists. setoid_rewrite Hauth.
    setoid_rewrite <- list_elem_of_In. done. }
  rewrite Hgrant. unfold v at 1. rewrite verifyToken_valid. fold v. split.
  - intros [(cl & Hcl & Heq) H]. exists cl. split; [done|]. by rewrite <- Heq.
  - intros (cl & Hcl & H). assert (Heq : v = verified cl) by (unfold v, verifyToken; by rewrite Hcl). rewrite Heq. eauto.
Qed.
End Served.


(** ** Without a token *)

Section Anonymous.
Context {W : AccessWorld}.

Lemma existsb_false {A} (f : A -> bool) l : (forall x, f x = false) -> existsb f l = false.
Proof. intros Hf. induction l as [|x l IH]; [done|]. cbn. by rewrite Hf, IH. Qed.

Lemma anonymous_unnamed v roleAuth :
  ver_IsTokenValid v = false -> allow_all roleAuth = false -> named_by (bare v) roleAuth = false.
Proof.
  intros Hv Hall. unfold named_by, roleOnTeam. rewrite Hall.
  assert (Hclaims : claims (bare v) = []) by (unfold claims, IsAuthenticated; cbn; by rewrite Hv).
  assert (Hfed : forall n, federatedClaim (bare v) n = "") by (intros n; unfold federatedClaim, federatedClaims; by rewrite Hclaims).
  assert (Hcl : forall n, claim (bare v) n = "") by (intros n; unfold claim; by rewrite Hclaims).
  assert (Hgroups : groups (bare v) = []) by (unfold groups; by rewrite Hclaims).
  unfold userID, userName, connectorID. rewrite !Hfed, !Hcl, Hgroups. cbn [String.eqb negb orb andb filter].
  rewrite !existsb_false; try done.
Qed.

Lemma anonymous_no_role v t role :
  ver_IsTokenValid v = false -> TeamAuth_Validate (t_Auth t) = None -> ~ has_role v t role.
Proof.
  intros Hv Hval (roleAuth & Hl & Hn). unfold TeamAuth_Validate in Hval. case_bool_decide; [done|].
  destruct (existsb _ _) eqn:E; [done|]. rewrite anonymous_unnamed in Hn; [done|done|].
  destruct (allow_all roleAuth) eqn:Hall; [|done]. rewrite (proj2 (existsb_exists _ _)) in E; [done|].
  exists (role, roleAuth). split; [|done]. by apply list_elem_of_In, elem_of_map_to_list.
Qed.

Lemma anonymous_not_entitled v role ts team :
  ver_IsTokenValid v = false -> Forall (fun t => TeamAuth_Validate (t_Auth t) = None) ts -> ~ entitled v role ts team.
Proof.
  rewrite Forall_forall. intros Hv Hval [(t & Ht & _ & Hr)|(t & r & Ht & _ & Hr & _)]; by apply anonymous_no_role in Hr; auto.
Qed.

(** What a caller without a valid token may see through a check. *)
Definition public (jwks : jwksVerifier) (audience : list string) (c : check) (r : Request) : Prop :=
  match c with
  | AnyJobHandler => on_build r (fun b => exists p, br_Pipeline b = QFound p /\ pr_Public p = true)
  | CheckIfPrivateJobHandler =>
      on_build r (fun b => exists p, br_Pipeline b = QFound p /\ pr_Public p = true /\ pr_Job p (br_JobName b) = QFound true)
  | PipelineAccessHandler => on_pipeline r (fun p => pr_Public p = true)
  | CheckAuthenticationIfProvidedHandler => (Verify jwks audience (credentials r)).1 = Fail ErrVerificationNoToken
  | Unwrapped => True
  | _ => False
  end.

Lemma allow_anonymous allowPrivate b acc :
  IsAuthenticated acc = false -> allow allowPrivate b acc = Ret true ->
  exists p, br_Pipeline b = QFound p /\ pr_Public p = true /\ (allowPrivate = false -> pr_Job p (br_JobName b) = QFound true).
Proof.
  intros Ha. unfold allow. rewrite Ha. cbn [andb]. destruct (_ =? 0); [done|].
  destruct (br_Pipeline b) as [| |p]; [done..|]. destruct (pr_Public p) eqn:Hp; [|done]. cbn [negb].
  destruct allowPrivate; [intros _; by exists p|]. destruct (_ =? 0); [done|].
  destruct (pr_Job p _) as [| |pub] eqn:Hj; [done..|]. intros [= ->]. exists p. by rewrite Hj.
Qed.

Lemma grants_anonymous jwks audience claimKey claimValues customRoles name c r ts :
  NoDup (t_Name <$> ts) -> Forall (fun t => TeamAuth_Validate (t_Auth t) = None) ts ->
  (forall claims, (Verify jwks audience (credentials r)).1 <> Ret claims) ->
  grants c (access_for jwks audience claimKey claimValues customRoles name r ts) r -> public jwks audience c r.
Proof.
  intros Hnd Hval Hno. unfold access_for. set (v := verifyToken jwks audience (credentials r)).
  assert (Hv : ver_IsTokenValid v = false).
  { destruct (ver_IsTokenValid v) eqn:E; [|done]. apply verifyToken_valid in E as (cl & Hcl & _). by destruct (Hno cl). }
  destruct (NewAccessor_spec v (role_of customRoles name) claimKey claimValues ts Hnd) as (Hver & _ & Hauth).
  set (acc := NewAccessor v _ _ _ _) in *.
  assert (Hia : IsAuthenticated acc = false) by (unfold IsAuthenticated; by rewrite Hver).
  destruct c; cbn [grants public]; rewrite ?Hia; try (by intros []); try done.
  - intros (id & b & H1 & H2 & H). exists id, b. repeat split; [done..|]. destruct (allow_anonymous _ _ _ Hia H) as (p & ? & ? & _). eauto.
  - intros (id & b & H1 & H2 & H). exists id, b. repeat split; [done..|]. destruct (allow_anonymous _ _ _ Hia H) as (p & ? & ? & ?). eauto.
  - intros (vars & p & H1 & H2 & H3 & [H|H]); [|by exists vars, p].
    apply Hauth in H. by apply anonymous_not_entitled in H.
  - intros [H|H]; [|done]. unfold HasToken in H. rewrite Hver in H. unfold v, verifyToken in H.
    destruct ((Verify jwks audience (credentials r)).1) as [cl|[]| |] eqn:E; done.
Qed.
End Anonymous.

(** C21: When the auth of every team is valid, a request whose token does not
    verify reaches a handler only for what is public: a public pipeline, a build
    of one (with a public job, for its events and outputs), the actions open to
    everyone when no token is given at all, and the routes whose handlers check
    a capability themselves. *)
Theorem anonymous_sees_public {W : AccessWorld} jwks audience claimKey claimValues customRoles name c archived r H :
  (forall ts, GetTeams = Some ts ->
    NoDup (t_Name <$> ts) /\ Forall (fun t => TeamAuth_Validate (t_Auth t) = None) ts) ->
  wrap_check name = Some c -> wrap_archived name = Some archived -> fresh r ->
  (forall claims, (Verify jwks audience (credentials r)).1 <> Ret claims) ->
  httpHandler jwks audience claimKey claimValues customRoles name served = Ret H -> H r = Served ->
  public jwks audience c r.
Proof.
  intros Hts Hc Ha Hfresh Hno HH Hs.
  destruct (httpHandler_served jwks audience claimKey claimValues customRoles name c archived r Hc Ha Hfresh) as (H' & HH' & Hiff).
  rewrite HH in HH'. injection HH' as <-. apply Hiff in Hs as (_ & ts & Hget & Hg & _).
  destruct (Hts ts Hget) as [Hnd Hval]. by eapply grants_anonymous.
Qed.

(** ** The table of routes *)

Definition reads (route : Route) : bool := String.eqb (r_Method route) "GET".
Definition has_param (param : string) (route : Route) : bool := contains (":" ++ param) (r_Path route).
Definition default_role (name : string) : string := default "" ((list_to_map DefaultRoles : gmap string string) !! name).

(** What the check of a route needs of the route. *)
Definition route_ok (route : Route) : bool :=
  match wrap_check (r_Name route), wrap_archived (r_Name route) with
  | Some c, Some archived =>
      match c with
      | AnyJobHandler | CheckIfPrivateJobHandler =>
          has_param "build_id" route && reads route && (0 <? rank (default_role (r_Name route)))%nat
      | BuildWriteHandler => has_param "build_id" route && (0 <? rank (default_role (r_Name route)))%nat
      | PipelineAccessHandler =>
          has_param "team_name" route && has_param "pipeline_name" route && reads route &&
          (0 <? rank (default_role (r_Name route)))%nat
      | CheckAuthorizationHandler => has_param "team_name" route && (0 <? rank (default_role (r_Name route)))%nat
      | CheckAgentAuthorizationHandler => (0 <? rank (default_role (r_Name route)))%nat
      | CheckAuthenticationIfProvidedHandler => reads route || String.eqb (r_Name route) "CheckResourceWebHook"
      | _ => true
      end && (negb archived || has_param "team_name" route && has_param "pipeline_name" route)
  | _, _ => false
  end.

Lemma routes_ok : forallb route_ok Routes = true.
Proof. vm_compute. reflexivity. Qed.

Lemma role_of_default name : role_of ∅ name = default_role name.
Proof. unfold role_of. rewrite lookup_empty. reflexivity. Qed.

(** The checks that decide by a role. *)
Definition role_checked (c : check) : bool :=
  match c with
  | AnyJobHandler | CheckIfPrivateJobHandler | BuildWriteHandler | PipelineAccessHandler
  | CheckAuthorizationHandler | CheckAgentAuthorizationHandler => true
  | _ => false
  end.
(** The checks that read a parameter of the path. *)
Definition reads_param (c : check) : list string :=
  match c with
  | AnyJobHandler | CheckIfPrivateJobHandler | BuildWriteHandler => ["build_id"]
  | PipelineAccessHandler => ["team_name"; "pipeline_name"]
  | CheckAuthorizationHandler => ["team_name"]
  | _ => []
  end.

(** Considers each element of a list of parameters. *)
Ltac each_param :=
  repeat match goal with
  | H : _ ∈ _ :: _ |- _ => apply elem_of_cons in H as [->|H]
  | H : _ ∈ [] |- _ => by apply elem_of_nil in H
  end.

(** Every route of the API is wrapped (no name panics when the server
    starts); the path of a route has the parameters its checks read; a check
    that decides by a role has a default role to compare with; and a route that
    is no read needs a token, except the webhook of a resource and the routes
    whose handlers check a capability themselves. *)
Theorem every_route_checked {W : AccessWorld} jwks audience claimKey claimValues customRoles handler route :
  route ∈ Routes ->
  exists c archived H, wrap_check (r_Name route) = Some c /\ wrap_archived (r_Name route) = Some archived /\
    apiWrapper jwks audience claimKey claimValues customRoles (r_Name route) handler = Ret H /\
    (forall param, param ∈ reads_param c \/ archived = true /\ param ∈ ["team_name"; "pipeline_name"] ->
      has_param param route = true) /\
    (role_checked c = true -> (0 < rank (role_of ∅ (r_Name route)))%nat) /\
    (r_Method route <> "GET" ->
      token_required c = true \/ c = Unwrapped \/ r_Name route = "CheckResourceWebHook").
Proof.
  intros Hin%list_elem_of_In. pose proof (proj1 (forallb_forall _ _) routes_ok route Hin) as Hok.
  unfold route_ok in Hok. unfold apiWrapper, APIAuthWrappa_Wrap, RejectArchivedWrappa_Wrap.
  destruct (wrap_check _) as [c|]; [|done]. destruct (wrap_archived _) as [archived|]; [|done].
  cbn [mbind outcome_bind].
  assert (Hreads : reads route = true -> r_Method route = "GET") by apply String.eqb_eq.
  apply andb_true_iff in Hok as [Hc Harch]. clear Hin.
  assert (Hrank : (0 <? rank (default_role (r_Name route)))%nat = true -> (0 < rank (role_of ∅ (r_Name route)))%nat).
  { intros Hk. apply Nat.ltb_lt in Hk. rewrite <- role_of_default in Hk. exact Hk. }
  revert Hc Hrank. generalize (0 <? rank (default_role (r_Name route)))%nat (rank (role_of ∅ (r_Name route))).
  intros ranked rk Hc Hrank.
  exists c, archived, (accessorHandler jwks audience claimKey claimValues customRoles (r_Name route)
    (let handler := policyCheckingHandler (r_Name route) (limitsHandler (r_Name route) handler) in
     if archived then RejectArchivedHandler (check_handler c handler) else check_handler c handler)).
  split_and!; [done|done|by destruct archived|..].
  - intros param [Hp|[-> Hp]]; [|cbn [negb orb] in Harch; apply andb_true_iff in Harch as []; by each_param].
    destruct c; cbn [reads_param] in Hp; rewrite ?andb_true_iff in Hc; destruct_and?; by each_param.
  - destruct c; cbn [role_checked]; intros Hr; try discriminate Hr; rewrite ?andb_true_iff in Hc; destruct_and?; auto.
  - intros Hm. destruct c; cbn [token_required]; auto; rewrite ?andb_true_iff, ?orb_true_iff, ?String.eqb_eq in Hc; naive_solver.
Qed.

Module AccessExample.
(** A token of [sub] is its name, signed with the key ["k1"]. *)
Definition raw_claims (sub : string) : list (string * value) :=
  [("name", VStr sub); ("federated_claims", VSMap [("connector_id", VStr "local"); ("user_id", VStr sub)])].

Definition team (name : string) (adm : bool) (role user : string) : Team :=
  {| t_Name := name; t_Admin := adm; t_Auth := {[role := {["users" := [("local:" ++ user)%string]]}]} |}.

Definition pipeline : PipelineRow := {| pr_Public := true; pr_Archived := false; pr_Job := fun _ => QFound false |}.

#[export] Instance world : AccessWorld :=
  {| EqualFold := fun a b => String.eqb a b;
     SignedToken := string; SigningKey := string; StdClaims := list string;
     ParseSigned := fun raw => if String.eqb raw "ada" then Some raw else None;
     token_KeyIDs := fun _ => ["k1"];
     token_Claims := fun sub key => if String.eqb key "public key" then Some (raw_claims sub) else None;
     token_StdClaims := fun _ key => if String.eqb key "public key" then Some ["fly"] else None;
     std_Validate := fun _ => None;
     std_Audience := fun audience => audience;
     http_Get_jwks := Some [("k0", "old key"); ("k1", "public key")];
     time_Now := 1000;
     PolicyData := unit;
     agent_Check := fun input => Some {| pc_Allowed := String.eqb (pi_User _ input) "ada"; pc_ShouldBlock := true |};
     policyChecker := AgentChecker {| f_HttpMethods := ["PUT"]; f_Actions := []; f_ActionsToSkip := [] |};
     clusterName := "test"; clusterVersion := "7";
     HandlerPool := fun action => if String.eqb action "PausePipeline" then Some (2%nat, true) else None;
     GetTeams := Some [team "main" true "owner" "root"; team "dev" false "member" "ada"];
     InstanceVars := unit;
     FindTeam := fun _ => QFound tt;
     Team_Pipeline := fun _ _ _ => QFound pipeline;
     BuildForAPI := fun _ => QNotFound |}.

(** No keys have been fetched. *)
Definition verifier : jwksVerifier := NewJWKSVerifier.

Definition request (method authorization team_name : string) : Request :=
  {| rq_Method := method; rq_Authorization := authorization; rq_AuthCookie := ""; rq_CSRFCookie := "";
     rq_CSRFHeader := ""; rq_team_name := team_name; rq_pipeline_name := "app"; rq_build_id := "";
     rq_InstanceVars := Some None; rq_Data := Some None; rq_CSRFRequired := None; rq_accessor := None |}.
End AccessExample.

Section Witnesses.
Import AccessExample.

Lemma teams_of ts :
  GetTeams = Some ts -> NoDup (t_Name <$> ts) /\ Forall (fun t => TeamAuth_Validate (t_Auth t) = None) ts.
Proof. intros [= <-]. split; [|repeat constructor]. cbn. repeat constructor; set_solver. Qed.


Lemma anonymous_sees_public_witness : public verifier ["fly"] PipelineAccessHandler (request "GET" "" "dev").
Proof.
  destruct (httpHandler_served verifier ["fly"] "sub" [] ∅ "GetPipeline" PipelineAccessHandler false (request "GET" "" "dev"))
    as (H & HH & Hiff); [vm_compute; reflexivity|vm_compute; reflexivity|done|].
  apply (anonymous_sees_public verifier ["fly"] "sub" [] ∅ "GetPipeline" PipelineAccessHandler false (request "GET" "" "dev") H).
  - apply teams_of.
  - vm_compute. reflexivity.
  - vm_compute. reflexivity.
  - done.
  - intros claims. by vm_compute.
  - exact HH.
  - apply Hiff. split; [by left|]. eexists. split; [reflexivity|]. split; [exists None, pipeline; repeat split; try done; by right|].
    split; [done|]. split; [|done]. eexists. split; [vm_compute; reflexivity|by left].
Defined.

Lemma every_route_checked_witness :
  exists c archived H, wrap_check "GetPipeline" = Some c /\ wrap_archived "GetPipeline" = Some archived /\
    apiWrapper verifier ["fly"] "sub" [] ∅ "GetPipeline" served = Ret H.
Proof.
  destruct (every_route_checked verifier ["fly"] "sub" [] ∅ served
    {| r_Path := "/api/v1/teams/:team_name/pipelines/:pipeline_name"; r_Method := "GET"; r_Name := "GetPipeline" |})
    as (c & archived & H & H1 & H2 & H3 & _).
  - apply (bool_decide_eq_true_1 _). vm_compute. reflexivity.
  - exists c, archived, H. split; [exact H1|]. split; [exact H2|exact H3].
Defined.

(** The auth of a role that names nobody lets everyone in, and the check of a
    pipeline does not ask for a token: what [TeamAuth_Validate] refuses would
    open the private pipelines of the team to anonymous readers. *)
Lemma invalid_auth_opens_team v :
  named_by (bare v) ∅ = true.
Proof. reflexivity. Qed.
End Witnesses.

(** An action listed below two roles passes the validation, and the role it ends
    up with depends on the order in which Go visits the map. *)
Theorem parseCustomRoles_order :
  let a := ("owner", ["SaveConfig"]) in
  let b := ("viewer", ["SaveConfig"]) in
  validateCustomRoles [a; b] = None /\ validateCustomRoles [b; a] = None /\
  parseCustomRoles [a; b] !! "SaveConfig" = Some "viewer" /\ parseCustomRoles [b; a] !! "SaveConfig" = Some "owner".
Proof. vm_compute. done. Qed.
