(* ===== verification/PodName.v ===== *)
(** * Names of pods

    [GeneratePodName] of [atc/worker/jetbridge/podname.go] and the metadata of
    a container ([atc/db/container_metadata.go]), and what Kubernetes asks of a
    DNS label. *)
From stdpp Require Import base list strings.
From Stdlib Require Import ZArith Ascii Lia.
From S2P Require Import Prelude GoText.

Open Scope Z_scope.

(** ** The metadata *)

Record ContainerMetadata := {
  cm_Type : string;
  cm_StepName : string;
  cm_PipelineName : string;
  cm_JobName : string;
  cm_BuildName : string }.

Definition ContainerTypeCheck : string := "check".
Definition ContainerTypeGet : string := "get".
Definition ContainerTypePut : string := "put".

(** ** Segments *)

Definition maxPodNameLen : Z := 63.

(** [unicode.ToLower], exact on the runes whose lower case is ASCII (the Kelvin
    sign and the dotted capital I are the two beyond ASCII); the lower case of
    any other rune is not ASCII, as the rune itself, and is stripped below. *)
Definition lower_rune (r : Z) : Z :=
  if (65 <=? r) && (r <=? 90) then r + 32
  else if r =? 304 then 105
  else if r =? 8490 then 107 else r.

(** The replacements of [_], [.] and the space. *)
Definition separator (r : Z) : Z := if (r =? 95) || (r =? 46) || (r =? 32) then 45 else r.

(** [a-z0-9-] *)
Definition label_rune (r : Z) : bool :=
  (97 <=? r) && (r <=? 122) || (48 <=? r) && (r <=? 57) || (r =? 45).

Definition hyphen (c : ascii) : bool := Ascii.eqb c "-".

(** [multiHyphen.ReplaceAllString(s, "-")] *)
Fixpoint collapse (l : list ascii) : list ascii :=
  match l with
  | c :: l =>
      if hyphen c then match l with d :: _ => if hyphen d then collapse l else c :: collapse l | [] => [c] end
      else c :: collapse l
  | [] => []
  end.

Fixpoint trim_left (l : list ascii) : list ascii :=
  match l with
  | c :: l' => if hyphen c then trim_left l' else l
  | [] => []
  end.
Definition trim_right (l : list ascii) : list ascii := rev (trim_left (rev l)).

Definition ascii_of_rune (r : Z) : ascii := ascii_of_N (Z.to_N r).

(** The segment before it is cut. *)
Definition sanitized (s : string) : list ascii :=
  trim_right (trim_left (collapse
    (ascii_of_rune <$> filter (fun r => label_rune r = true) (separator <$> (lower_rune <$> runes s))))).

Definition sanitizeSegment (s : string) (maxLen : Z) : string :=
  String.string_of_list_ascii (trim_right (take (Z.to_nat maxLen) (sanitized s))).

Definition hexSuffix (handle : string) : string :=
  String.string_of_list_ascii (take 8 (filter (fun c => hyphen c = false) (String.list_ascii_of_string handle))).

Definition len (s : string) : Z := Z.of_nat (String.length s).

(** ** Names *)

Definition GeneratePodName (metadata : ContainerMetadata) (handle : string) : string :=
  let suffix := hexSuffix handle in
  if String.eqb (cm_Type metadata) ContainerTypeCheck then
    if String.eqb (cm_StepName metadata) "" then handle
    else
      let resource := sanitizeSegment (cm_StepName metadata) (maxPodNameLen - 13) in
      if String.eqb resource "" then handle else "chk-" +:+ resource +:+ "-" +:+ suffix
  else
    let no_job := String.eqb (cm_PipelineName metadata) "" || String.eqb (cm_JobName metadata) "" in
    let stepType := cm_Type metadata in
    let step :=
      if no_job && negb (String.eqb (cm_StepName metadata) "") &&
         (String.eqb stepType ContainerTypeGet || String.eqb stepType ContainerTypePut)
      then sanitizeSegment (cm_StepName metadata) (maxPodNameLen - 13 - len stepType)
      else "" in
    if negb (String.eqb step "") then "rt-" +:+ step +:+ "-" +:+ stepType +:+ "-" +:+ suffix
    else if no_job then handle
    else
      let stepType := if String.eqb stepType "" then "task" else stepType in
      let buildPart := if negb (String.eqb (cm_BuildName metadata) "") then "b" +:+ cm_BuildName metadata else "" in
      let fixedLen :=
        4 + len suffix + len stepType + (if negb (String.eqb buildPart "") then len buildPart else -1) in
      let available := maxPodNameLen - fixedLen in
      if available <? 2 then handle
      else
        let maxEach := Z.min 20 (Z.quot available 2) in
        let pipeline := sanitizeSegment (cm_PipelineName metadata) maxEach in
        let job := sanitizeSegment (cm_JobName metadata) maxEach in
        if String.eqb pipeline "" || String.eqb job "" then handle
        else if negb (String.eqb buildPart "")
        then pipeline +:+ "-" +:+ job +:+ "-" +:+ buildPart +:+ "-" +:+ stepType +:+ "-" +:+ suffix
        else pipeline +:+ "-" +:+ job +:+ "-" +:+ stepType +:+ "-" +:+ suffix.

(** ** DNS labels *)

Definition label_char (c : ascii) : bool := label_rune (Z.of_N (N_of_ascii c)).
Definition alphanumeric (c : ascii) : bool := label_char c && negb (hyphen c).

Definition label_text (s : string) : bool := forallb label_char (String.list_ascii_of_string s).

(** Lower-case letters, digits and hyphens, with a letter or a digit at both
    ends, at most 63 of them. *)
Definition dns_label (s : string) : bool :=
  label_text s && (len s <=? maxPodNameLen) &&
  match head (String.list_ascii_of_string s), last (String.list_ascii_of_string s) with
  | Some first, Some final => alphanumeric first && alphanumeric final
  | _, _ => false
  end.
