(* ===== verification/PodNameSpec.v ===== *)
(** * The names of pods are DNS labels

    A sanitized segment is label text that neither begins nor ends with a
    hyphen; the lengths of the segments leave room for the fixed parts. *)
From stdpp Require Import base sets list strings.
From Stdlib Require Import ZArith Ascii Lia.
From S2P Require Import Prelude GoText PodName.

Open Scope Z_scope.
Open Scope list_scope.

(** ** Text *)

Abbreviation chars := String.list_ascii_of_string.

Lemma chars_append s t : chars (s +:+ t) = (chars s ++ chars t)%list.
Proof. induction s as [|c s IH]; [done|]. change (c :: chars (s +:+ t) = (c :: chars s ++ chars t)%list). by rewrite IH. Qed.

Lemma len_chars s : len s = Z.of_nat (length (chars s)).
Proof. unfold len. f_equal. induction s as [|c s IH]; [done|]. cbn. by rewrite IH. Qed.

Lemma len_append s t : len (s +:+ t) = len s + len t.
Proof. rewrite !len_chars, chars_append, length_app. lia. Qed.

Lemma len_nonneg s : 0 <= len s.
Proof. unfold len. lia. Qed.

Lemma label_text_append s t : label_text (s +:+ t) = label_text s && label_text t.
Proof. unfold label_text. by rewrite chars_append, forallb_app. Qed.

Definition starts_alphanumeric (s : string) : Prop := exists c, head (chars s) = Some c /\ alphanumeric c = true.
Definition ends_alphanumeric (s : string) : Prop := exists c, last (chars s) = Some c /\ alphanumeric c = true.

Lemma starts_append s t : starts_alphanumeric s -> starts_alphanumeric (s +:+ t).
Proof. intros (c & Hh & Hc). exists c. split; [|done]. rewrite chars_append. by destruct (chars s). Qed.

Lemma ends_append s t : ends_alphanumeric t -> ends_alphanumeric (s +:+ t).
Proof.
  intros (c & Hh & Hc). exists c. split; [|done]. rewrite chars_append, last_app. by rewrite Hh.
Qed.

Lemma dns_label_intro s :
  label_text s = true -> len s <= maxPodNameLen -> starts_alphanumeric s -> ends_alphanumeric s -> dns_label s = true.
Proof.
  intros Hl Hlen (c & Hc & Hac) (d & Hd & Had). unfold dns_label. rewrite Hl, (proj2 (Z.leb_le _ _) Hlen), Hc, Hd. cbn.
  by rewrite Hac.
Qed.

(** ** Segments *)

Lemma trim_left_suffix l : exists k, l = k ++ trim_left l.
Proof.
  induction l as [|c l [k IH]]; [by exists []|]. cbn. destruct (hyphen c); [|by exists []].
  exists (c :: k). cbn. by rewrite <- IH.
Qed.

Lemma trim_left_head l c : head (trim_left l) = Some c -> hyphen c = false.
Proof. induction l as [|d l IH]; [done|]. cbn. destruct (hyphen d) eqn:E; [auto|]. cbn. by intros [= ->]. Qed.

Lemma trim_right_prefix l : exists k, l = trim_right l ++ k.
Proof.
  destruct (trim_left_suffix (rev l)) as [k Hk]. exists (rev k). unfold trim_right.
  rewrite <- rev_app_distr, <- Hk. by rewrite rev_involutive.
Qed.

Lemma trim_right_last l c : last (trim_right l) = Some c -> hyphen c = false.
Proof.
  unfold trim_right. intros Hl. apply (trim_left_head (rev l)). destruct (trim_left (rev l)) as [|d k]; [done|].
  cbn [rev] in Hl. by rewrite last_snoc in Hl.
Qed.

Lemma collapse_forall (P : ascii -> Prop) l : Forall P l -> Forall P (collapse l).
Proof.
  induction l as [|c l IH]; [done|]. intros [Hc Hl]%Forall_cons. cbn.
  destruct (hyphen c), l as [|d l]; auto. destruct (hyphen d); auto.
Qed.

Lemma ascii_label r : label_rune r = true -> label_char (ascii_of_rune r) = true.
Proof.
  intros Hr. unfold label_char, ascii_of_rune.
  assert (Hrange : 0 <= r < 256) by (unfold label_rune in Hr; lia).
  rewrite N_ascii_embedding by lia. rewrite Z2N.id by lia. done.
Qed.

Lemma sanitized_label s : Forall (fun c => label_char c = true) (sanitized s).
Proof.
  unfold sanitized. set (l := ascii_of_rune <$> _).
  assert (Hl : Forall (fun c => label_char c = true) (collapse l)).
  { apply collapse_forall, Forall_fmap, Forall_forall. intros r [Hr _]%list_elem_of_filter. by apply ascii_label. }
  destruct (trim_left_suffix (collapse l)) as [k Hk]. rewrite Hk, Forall_app in Hl. destruct Hl as [_ Hl].
  destruct (trim_right_prefix (trim_left (collapse l))) as [k' Hk']. rewrite Hk', Forall_app in Hl. by destruct Hl.
Qed.

Lemma sanitized_head s c : head (sanitized s) = Some c -> hyphen c = false.
Proof.
  unfold sanitized. set (l := trim_left _). intros Hh. apply (trim_left_head (collapse
    (ascii_of_rune <$> filter (fun r => label_rune r = true) (separator <$> (lower_rune <$> runes s))))).
  fold l. destruct (trim_right_prefix l) as [k ->]. by destruct (trim_right l).
Qed.

Lemma head_prefix {A} (l k : list A) x : head l = Some x -> head (l ++ k) = Some x.
Proof. by destruct l. Qed.

Lemma last_elem {A} (l : list A) x : last l = Some x -> x ∈ l.
Proof. intros (l' & ->)%last_Some. set_solver. Qed.

(** A segment is a part of a label that neither begins nor ends with a hyphen. *)
Lemma sanitizeSegment_spec s maxLen :
  let seg := sanitizeSegment s maxLen in
  label_text seg = true /\ len seg <= Z.max 0 maxLen /\
  (seg <> "" -> starts_alphanumeric seg /\ ends_alphanumeric seg).
Proof.
  cbv zeta. unfold sanitizeSegment. set (cut := take (Z.to_nat maxLen) (sanitized s)).
  destruct (trim_right_prefix cut) as [k Hk]. pose proof (sanitized_label s) as Hall.
  rewrite <- (take_drop (Z.to_nat maxLen) (sanitized s)) in Hall. fold cut in Hall. rewrite Hk in Hall.
  rewrite !Forall_app in Hall. destruct Hall as [[Hall _] _].
  assert (Hlen : (length (trim_right cut) <= length cut)%nat) by (rewrite Hk at 2; rewrite length_app; lia).
  unfold label_text, starts_alphanumeric, ends_alphanumeric. rewrite len_chars, String.list_ascii_of_string_of_list_ascii.
  split; [|split].
  - apply forallb_forall. intros c Hc. rewrite Forall_forall in Hall. by apply Hall, list_elem_of_In.
  - unfold cut in Hlen at 2. rewrite length_take in Hlen. lia.
  - intros Hne. destruct (trim_right cut) as [|c l] eqn:E; [done|]. rewrite Forall_forall in Hall.
    destruct (last (c :: l)) as [d|] eqn:Hd; [|by apply last_None in Hd].
    split; [exists c|exists d]; (split; [done|]); unfold alphanumeric; apply andb_true_iff; (split; [apply Hall|apply negb_true_iff]).
    + set_solver.
    + apply (sanitized_head s). rewrite <- (take_drop (Z.to_nat maxLen) (sanitized s)). fold cut. apply head_prefix.
      rewrite Hk. by apply head_prefix.
    + by apply last_elem.
    + apply (trim_right_last cut). by rewrite E.
Qed.

(** The suffix is at most eight letters and digits. *)
Lemma hexSuffix_spec handle :
  len (hexSuffix handle) <= 8 /\
  (label_text handle = true -> label_text (hexSuffix handle) = true) /\
  (label_text handle = true -> hexSuffix handle <> "" -> ends_alphanumeric (hexSuffix handle)).
Proof.
  unfold hexSuffix, label_text, ends_alphanumeric. rewrite len_chars, !String.list_ascii_of_string_of_list_ascii.
  set (l := filter _ (chars handle)).
  assert (Hl : forall c, c ∈ take 8 l -> hyphen c = false /\ c ∈ chars handle).
  { intros c Hc. assert (Hin : c ∈ l) by (rewrite <- (take_drop 8 l); set_solver). by apply list_elem_of_filter in Hin. }
  split; [rewrite length_take; lia|]. rewrite !forallb_forall. split.
  - intros H c Hc%list_elem_of_In. apply H, list_elem_of_In. by apply Hl.
  - intros H Hne. destruct (last (take 8 l)) as [c|] eqn:E.
    + exists c. split; [done|]. apply last_elem in E. destruct (Hl c E) as [Hh Hin]. unfold alphanumeric.
      rewrite Hh, (H c) by by apply list_elem_of_In. done.
    + apply last_None in E. by rewrite E in Hne.
Qed.

(** ** Names *)

(** The parts of a name whose text is not made by [sanitizeSegment]. *)
Definition given_labels (metadata : ContainerMetadata) (handle : string) : Prop :=
  label_text handle = true /\ hexSuffix handle <> "" /\
  label_text (cm_Type metadata) = true /\ label_text (cm_BuildName metadata) = true.

(** [GeneratePodName] falls back to the handle or gives a good name. *)
Definition good_name (metadata : ContainerMetadata) (handle name : string) : Prop :=
  name = handle \/
  (len name <= maxPodNameLen /\ (given_labels metadata handle -> dns_label name = true)).

(** A name from a first part and the rest of it, up to the suffix. *)
Lemma good_name_intro metadata handle first middle :
  starts_alphanumeric first -> label_text first = true ->
  len first + len middle + len (hexSuffix handle) <= maxPodNameLen ->
  (given_labels metadata handle -> label_text middle = true) ->
  good_name metadata handle (first +:+ middle +:+ hexSuffix handle).
Proof.
  intros Hs Hf Hlen Hm. right. rewrite !len_append. split; [lia|]. intros Hg.
  destruct (hexSuffix_spec handle) as (_ & Hsl & Hse). pose proof Hg as (Hh & Hne & _).
  apply dns_label_intro.
  - rewrite !label_text_append, Hf, Hm, Hsl; done.
  - rewrite !len_append. lia.
  - by apply starts_append.
  - do 2 apply ends_append. auto.
Qed.

Lemma len_zero s : String.eqb s "" = false -> s <> "".
Proof. by destruct s. Qed.

Lemma check_name_good metadata handle :
  let resource := sanitizeSegment (cm_StepName metadata) (maxPodNameLen - 13) in
  good_name metadata handle ("chk-" +:+ resource +:+ "-" +:+ hexSuffix handle).
Proof.
  cbv zeta. destruct (sanitizeSegment_spec (cm_StepName metadata) (maxPodNameLen - 13)) as (Hl & Hlen & _).
  pose proof (proj1 (hexSuffix_spec handle)) as Hsuf. rewrite <- (string_app_assoc _ "-").
  apply good_name_intro; [by exists "c"%char|done| |].
  - rewrite len_append. unfold maxPodNameLen, len in *. cbn. lia.
  - intros _. by rewrite label_text_append, Hl.
Qed.

Lemma type_name_good metadata handle :
  cm_Type metadata = ContainerTypeGet \/ cm_Type metadata = ContainerTypePut ->
  let step := sanitizeSegment (cm_StepName metadata) (maxPodNameLen - 13 - len (cm_Type metadata)) in
  good_name metadata handle ("rt-" +:+ step +:+ "-" +:+ cm_Type metadata +:+ "-" +:+ hexSuffix handle).
Proof.
  intros Htype. cbv zeta.
  destruct (sanitizeSegment_spec (cm_StepName metadata) (maxPodNameLen - 13 - len (cm_Type metadata))) as (Hl & Hlen & _).
  pose proof (proj1 (hexSuffix_spec handle)) as Hsuf.
  assert (Ht : len (cm_Type metadata) = 3) by (by destruct Htype as [-> | ->]).
  rewrite <- (string_app_assoc (cm_Type metadata) "-"), <- (string_app_assoc "-"), <- (string_app_assoc (sanitizeSegment _ _)).
  apply good_name_intro; [by exists "r"%char|done| |].
  - rewrite !len_append, Ht in *. unfold maxPodNameLen, len in *. cbn. lia.
  - intros (_ & _ & Hty & _). by rewrite !label_text_append, Hl, Hty.
Qed.

(** The name of a container of a build: [middle] is the part between the job and
    the suffix. *)
Lemma build_name_good metadata handle maxEach middle :
  let pipeline := sanitizeSegment (cm_PipelineName metadata) maxEach in
  let job := sanitizeSegment (cm_JobName metadata) maxEach in
  pipeline <> "" -> 0 <= maxEach -> 2 * maxEach + 1 + len middle + len (hexSuffix handle) <= maxPodNameLen ->
  (given_labels metadata handle -> label_text middle = true) ->
  good_name metadata handle (pipeline +:+ "-" +:+ job +:+ middle +:+ hexSuffix handle).
Proof.
  cbv zeta. intros Hp Hmax Hlen Hmid.
  destruct (sanitizeSegment_spec (cm_PipelineName metadata) maxEach) as (Hpl & Hplen & Hends).
  destruct (sanitizeSegment_spec (cm_JobName metadata) maxEach) as (Hjl & Hjlen & _).
  rewrite <- (string_app_assoc (sanitizeSegment (cm_JobName metadata) maxEach)), <- (string_app_assoc "-").
  apply good_name_intro; [by apply Hends|done| |].
  - rewrite !len_append. change (len "-") with 1. lia.
  - intros Hg. by rewrite !label_text_append, Hjl, Hmid.
Qed.

(** C40: The name of a pod is the handle of the container, or at most 63
    characters long; and when the handle, the type and the name of the build
    have only lower-case letters, digits and hyphens, it is a DNS label,
    whatever the pipeline, the job and the step are called. *)
Theorem GeneratePodName_good metadata handle :
  good_name metadata handle (GeneratePodName metadata handle).
Proof.
  unfold GeneratePodName. cbv zeta. assert (Hself : good_name metadata handle handle) by by left.
  destruct (String.eqb_spec (cm_Type metadata) ContainerTypeCheck).
  { destruct (String.eqb _ ""); [done|]. destruct (String.eqb _ ""); [done|]. apply check_name_good. }
  set (no_job := String.eqb (cm_PipelineName metadata) "" || _).
  destruct (negb (String.eqb (if _ && _ && _ then _ else _) "")) eqn:Hrt.
  { destruct (no_job && _ && _) eqn:Hcond; [|done]. apply type_name_good.
    apply andb_true_iff in Hcond as [_ Hcond]. apply orb_true_iff in Hcond as [Ht|Ht]; apply String.eqb_eq in Ht; auto. }
  destruct no_job; [done|]. set (stepType := if String.eqb (cm_Type metadata) "" then "task" else cm_Type metadata).
  assert (Htype : given_labels metadata handle -> label_text stepType = true).
  { intros (_ & _ & Ht & _). unfold stepType. destruct (String.eqb (cm_Type metadata) ""); [reflexivity|exact Ht]. }
  set (buildPart := if negb (String.eqb (cm_BuildName metadata) "") then _ else _).
  assert (Hbuild : given_labels metadata handle -> label_text buildPart = true).
  { intros (_ & _ & _ & Hb). unfold buildPart. destruct (negb (String.eqb (cm_BuildName metadata) "")); [|reflexivity].
    rewrite label_text_append, Hb. reflexivity. }
  set (fixed := if negb (String.eqb buildPart "") then len buildPart else -1).
  set (available := maxPodNameLen - (4 + len (hexSuffix handle) + len stepType + fixed)).
  destruct (Z.ltb_spec available 2) as [|Hav]; [done|]. set (maxEach := Z.min 20 (Z.quot available 2)).
  assert (Hmax : 0 <= maxEach /\ 2 * maxEach <= available).
  { unfold maxEach. rewrite Z.quot_div_nonneg by lia. pose proof (Z.mul_div_le available 2). pose proof (Z.div_pos available 2). lia. }
  destruct (String.eqb (sanitizeSegment (cm_PipelineName metadata) maxEach) "") eqn:Hp; [done|]. apply len_zero in Hp.
  destruct (String.eqb (sanitizeSegment (cm_JobName metadata) maxEach) ""); [done|]. cbn [orb].
  unfold available, fixed in Hmax. destruct (negb (String.eqb buildPart "")).
  - replace ("-" +:+ buildPart +:+ "-" +:+ stepType +:+ "-" +:+ hexSuffix handle)
      with (("-" +:+ buildPart +:+ "-" +:+ stepType +:+ "-") +:+ hexSuffix handle) by by rewrite !string_app_assoc.
    apply build_name_good; [done|lia| |].
    + rewrite !len_append. change (len "-") with 1. lia.
    + intros Hg. by rewrite !label_text_append, Hbuild, Htype.
  - replace ("-" +:+ stepType +:+ "-" +:+ hexSuffix handle)
      with (("-" +:+ stepType +:+ "-") +:+ hexSuffix handle) by by rewrite !string_app_assoc.
    apply build_name_good; [done|lia| |].
    + rewrite !len_append. change (len "-") with 1. lia.
    + intros Hg. by rewrite !label_text_append, Htype.
Qed.

Definition rerun_metadata : ContainerMetadata :=
  {| cm_Type := "task"; cm_StepName := "unit"; cm_PipelineName := "My_App..v2"; cm_JobName := "-Unit tests-";
     cm_BuildName := "5.1" |}.

Definition build_metadata : ContainerMetadata :=
  {| cm_Type := "task"; cm_StepName := "unit"; cm_PipelineName := "My_App..v2"; cm_JobName := "-Unit tests-";
     cm_BuildName := "5" |}.

Lemma GeneratePodName_good_witness :
  len "my-app-v2-unit-tests-b5-task-0a1b2c3d" <= maxPodNameLen /\
  dns_label "my-app-v2-unit-tests-b5-task-0a1b2c3d" = true.
Proof.
  destruct (GeneratePodName_good build_metadata "0a1b2c3d-4e5f") as [Heq|[Hlen Hlabel]]; [vm_compute in Heq; discriminate|].
  split; [exact Hlen|]. apply Hlabel. vm_compute. done.
Defined.

(** The name of a rerun of a build has a dot, which the name keeps: it is no
    DNS label. *)
Theorem rerun_name_dotted :
  GeneratePodName rerun_metadata "0a1b2c3d-4e5f" = "my-app-v2-unit-tests-b5.1-task-0a1b2c3d" /\
  dns_label (GeneratePodName rerun_metadata "0a1b2c3d-4e5f") = false.
Proof. vm_compute. done. Qed.
