(* ===== verification/CanonicalJSON.v ===== *)
(** * Canonical JSON (agent/snapshot/contracts/canonical_json.go)

    The canonical form of a JSON document, over which the digests of snapshot
    contracts are computed: members sorted by key, array order and the spelling
    of numbers kept, one way to write each string.

    The decoder of [encoding/json] is modelled by what the code uses of it: the
    tokens of a document with [UseNumber], one at a time ([Token], [More]), the
    states in which a token is allowed, strings with their escapes, numbers as
    they are spelled.  A document is its bytes. *)
From stdpp Require Import base gmap sets list strings sorting pretty.
From Stdlib Require Import ZArith Ascii Lia.
From S2P Require Import Prelude Vars GoText.

Set Warnings "-register-all".
Open Scope Z_scope.

Definition DQ : ascii := "034".
Definition BS : ascii := "092".

Inductive canonical_error :=
| NotUTF8
| UnpairedSurrogate (codeUnit : Z)
| NotOneValue
| Syntax
| KeyNotString
| DuplicateKey (key : string)
| UnexpectedDelimiter (c : ascii).

(** ** UTF-8 *)

(** [utf8.ValidString]: no byte of the text is decoded as an error. *)
Fixpoint valid_from (fuel : nat) (s : string) : bool :=
  match fuel, s with
  | S fuel, String _ _ =>
      let '(r, n, rest) := DecodeRuneInString s in
      negb ((r =? RuneError) && (n =? 1)) && valid_from fuel rest
  | _, _ => true
  end.
Definition ValidString (s : string) : bool := valid_from (String.length s) s.

Definition byte_char (b : Z) : ascii := ascii_of_N (Z.to_N b).

(** [utf8.EncodeRune] *)
Definition EncodeRune (r : Z) : string :=
  let cont k := byte_char (128 + Z.land (Z.shiftr r k) 63) in
  if r <? 0 then String (byte_char 239) (String (byte_char 191) (String (byte_char 189) ""))
  else if r <? 128 then String (byte_char r) ""
  else if r <? 2048 then String (byte_char (192 + Z.shiftr r 6)) (String (cont 0) "")
  else if (r <? 55296) || ((57344 <=? r) && (r <? 65536)) then
    String (byte_char (224 + Z.shiftr r 12)) (String (cont 6) (String (cont 0) ""))
  else if (65536 <=? r) && (r <=? 1114111) then
    String (byte_char (240 + Z.shiftr r 18)) (String (cont 12) (String (cont 6) (String (cont 0) "")))
  else String (byte_char 239) (String (byte_char 191) (String (byte_char 189) "")).

(** ** Strings *)

Definition hex_digit (c : ascii) : option Z :=
  let b := byte_of c in
  if between 48 57 b then Some (b - 48)
  else if between 97 102 b then Some (b - 97 + 10)
  else if between 65 70 b then Some (b - 65 + 10)
  else None.

(** Four hexadecimal digits, and what follows. *)
Definition readHexCodeUnit (s : string) : option (Z * string) :=
  match s with
  | String a (String b (String c (String d rest))) =>
      a ← hex_digit a; b ← hex_digit b; c ← hex_digit c; d ← hex_digit d;
      Some (((a * 16 + b) * 16 + c) * 16 + d, rest)
  | _ => None
  end.

Definition is_surrogate (u : Z) : bool := (55296 <=? u) && (u <? 57344).
Definition is_low (u : Z) : bool := (56320 <=? u) && (u <=? 57343).

(** [utf16.DecodeRune] of a pair. *)
Definition pair_rune (high low : Z) : Z := (high - 55296) * 1024 + (low - 56320) + 65536.

Definition escape_of (c : ascii) : option ascii :=
  let b := byte_of c in
  if (b =? 34) || (b =? 92) || (b =? 47) then Some c  (* quote, backslash, slash *)
  else if b =? 98 then Some (byte_char 8)
  else if b =? 102 then Some (byte_char 12)
  else if b =? 110 then Some (byte_char 10)
  else if b =? 114 then Some (byte_char 13)
  else if b =? 116 then Some (byte_char 9)
  else None.

Definition prepend (p : string) (r : option (string * string)) : option (string * string) :=
  '(s, rest) ← r; Some (p +:+ s, rest).

(** The text of a string after its opening quote, and what follows the closing
    one: the scanner of [encoding/json] with its [unquote]. *)
Fixpoint unquote (fuel : nat) (s : string) : option (string * string) :=
  match fuel, s with
  | O, _ | _, EmptyString => None
  | S fuel, String c s' =>
      let b := byte_of c in
      if b =? 34 then Some (EmptyString, s')
      else if b =? 92 then
        match s' with
        | EmptyString => None
        | String e s'' =>
            if byte_of e =? 117 then
              '(u, rest) ← readHexCodeUnit s'';
              if is_surrogate u then
                let single := prepend (EncodeRune RuneError) (unquote fuel rest) in
                match rest with
                | String x (String y rest') =>
                    if (byte_of x =? 92) && (byte_of y =? 117) then
                      match readHexCodeUnit rest' with
                      | Some (low, rest'') =>
                          if (u <? 56320) && is_low low
                          then prepend (EncodeRune (pair_rune u low)) (unquote fuel rest'')
                          else single
                      | None => None
                      end
                    else single
                | _ => single
                end
              else prepend (EncodeRune u) (unquote fuel rest)
            else e' ← escape_of e; prepend (String e' "") (unquote fuel s'')
        end
      else if b <? 32 then None
      else if b <? 128 then prepend (String c "") (unquote fuel s')
      else
        let '(r, n, rest) := DecodeRuneInString s in
        prepend (if (r =? RuneError) && (n =? 1) then EncodeRune RuneError else String.substring 0 (Z.to_nat n) s)
          (unquote fuel rest)
  end.

(** ** Numbers *)

(** The states of the scanner inside a number. *)
Inductive number_state := NNeg | N0 | N1 | NDot | NDot0 | NE | NESign | NE0.

Definition is_digit_byte (c : ascii) : bool := between 48 57 (byte_of c).
Definition is_exp (c : ascii) : bool := (byte_of c =? 101) || (byte_of c =? 69).

Definition number_next (st : number_state) (c : ascii) : option number_state :=
  let dot_or_exp :=
    if byte_of c =? 46 then Some NDot else if is_exp c then Some NE else None in
  match st with
  | NNeg => if byte_of c =? 48 then Some N0 else if is_digit_byte c then Some N1 else None
  | N1 => if is_digit_byte c then Some N1 else dot_or_exp
  | N0 => dot_or_exp
  | NDot => if is_digit_byte c then Some NDot0 else None
  | NDot0 => if is_digit_byte c then Some NDot0 else if is_exp c then Some NE else None
  | NE => if (byte_of c =? 43) || (byte_of c =? 45) then Some NESign
          else if is_digit_byte c then Some NE0 else None
  | NESign => if is_digit_byte c then Some NE0 else None
  | NE0 => if is_digit_byte c then Some NE0 else None
  end.

Definition number_ends (st : number_state) : bool :=
  match st with N0 | N1 | NDot0 | NE0 => true | _ => false end.

Fixpoint scan_number (st : number_state) (s : string) : option (string * string) :=
  match s with
  | EmptyString => if number_ends st then Some (EmptyString, EmptyString) else None
  | String c s' =>
      match number_next st c with
      | Some st => prepend (String c "") (scan_number st s')
      | None => if number_ends st then Some (EmptyString, s) else None
      end
  end.

(** A number from its first character. *)
Definition scan_number_start (s : string) : option (string * string) :=
  match s with
  | String c s' =>
      if byte_of c =? 45 then prepend (String c "") (scan_number NNeg s')
      else match number_next NNeg c with
      | Some st => prepend (String c "") (scan_number st s')
      | None => None
      end
  | EmptyString => None
  end.

(** ** Tokens (encoding/json, stream.go) *)

Inductive token :=
| TDelim (c : ascii)
| TString (s : string)
| TNumber (s : string)
| TBool (b : bool)
| TNull.

Inductive tokenState :=
| tokenTopValue
| tokenArrayStart
| tokenArrayValue
| tokenArrayComma
| tokenObjectStart
| tokenObjectKey
| tokenObjectColon
| tokenObjectValue
| tokenObjectComma.
#[export] Instance tokenState_eq_dec : EqDecision tokenState.
Proof. solve_decision. Defined.

Record decoder := { d_buf : string; d_state : tokenState; d_stack : list tokenState }.

Fixpoint skip_space (s : string) : string :=
  match s with
  | String c s' =>
      let b := byte_of c in
      if (b =? 32) || (b =? 9) || (b =? 13) || (b =? 10) then skip_space s' else s
  | EmptyString => EmptyString
  end.

Definition tokenValueAllowed (st : tokenState) : bool :=
  match st with
  | tokenTopValue | tokenArrayStart | tokenArrayValue | tokenObjectValue => true
  | _ => false
  end.

Definition tokenValueEnd (st : tokenState) : tokenState :=
  match st with
  | tokenArrayStart | tokenArrayValue => tokenArrayComma
  | tokenObjectValue => tokenObjectComma
  | st => st
  end.

(** What [Token] answers: a token, the end of the input, or an error. *)
Inductive token_result := Tok (t : token) | TokEOF | TokError.

(** The value of a scalar and what follows it. *)
Definition literal (word : string) (t : token) (s : string) : option (token * string) :=
  if String.prefix word s
  then Some (t, String.substring (String.length word) (String.length s - String.length word) s) else None.

Definition decode_scalar (s : string) : option (token * string) :=
  match s with
  | EmptyString => None
  | String c s' =>
      if byte_of c =? 34 then '(x, rest) ← unquote (String.length s') s'; Some (TString x, rest)
      else if byte_of c =? 116 then literal "true" (TBool true) s
      else if byte_of c =? 102 then literal "false" (TBool false) s
      else if byte_of c =? 110 then literal "null" TNull s
      else '(x, rest) ← scan_number_start s; Some (TNumber x, rest)
  end.

Definition pop (stack : list tokenState) : tokenState * list tokenState :=
  match stack with st :: stack => (tokenValueEnd st, stack) | [] => (tokenTopValue, []) end.

(** The turns of the loop: a comma or a colon is passed over. *)
Fixpoint token_loop (fuel : nat) (d : decoder) : token_result * decoder :=
  let d := {| d_buf := skip_space (d_buf d); d_state := d_state d; d_stack := d_stack d |} in
  let st := d_state d in
  match fuel, d_buf d with
  | O, _ => (TokError, d)
  | S fuel, EmptyString => (TokEOF, d)
  | S fuel, String c rest =>
      let b := byte_of c in
      let move st := {| d_buf := rest; d_state := st; d_stack := d_stack d |} in
      let open st := {| d_buf := rest; d_state := st; d_stack := d_state d :: d_stack d |} in
      let close :=
        let '(st, stack) := pop (d_stack d) in {| d_buf := rest; d_state := st; d_stack := stack |} in
      if b =? 91 then if tokenValueAllowed st then (Tok (TDelim c), open tokenArrayStart) else (TokError, d)
      else if b =? 93 then
        if bool_decide (st = tokenArrayStart) || bool_decide (st = tokenArrayComma) then (Tok (TDelim c), close) else (TokError, d)
      else if b =? 123 then if tokenValueAllowed st then (Tok (TDelim c), open tokenObjectStart) else (TokError, d)
      else if b =? 125 then
        if bool_decide (st = tokenObjectStart) || bool_decide (st = tokenObjectComma) then (Tok (TDelim c), close) else (TokError, d)
      else if b =? 58 then
        if bool_decide (st = tokenObjectColon) then token_loop fuel (move tokenObjectValue) else (TokError, d)
      else if b =? 44 then
        if bool_decide (st = tokenArrayComma) then token_loop fuel (move tokenArrayValue)
        else if bool_decide (st = tokenObjectComma) then token_loop fuel (move tokenObjectKey)
        else (TokError, d)
      else if (b =? 34) && (bool_decide (st = tokenObjectStart) || bool_decide (st = tokenObjectKey)) then
        match decode_scalar (d_buf d) with
        | Some (t, rest) => (Tok t, {| d_buf := rest; d_state := tokenObjectColon; d_stack := d_stack d |})
        | None => (TokError, d)
        end
      else if tokenValueAllowed st then
        match decode_scalar (d_buf d) with
        | Some (t, rest) => (Tok t, {| d_buf := rest; d_state := tokenValueEnd st; d_stack := d_stack d |})
        | None => (TokError, d)
        end
      else (TokError, d)
  end.

(** At most one comma or one colon comes before a token. *)
Definition Token (d : decoder) : token_result * decoder := token_loop 3 d.

Definition More (d : decoder) : bool :=
  match skip_space (d_buf d) with
  | EmptyString => false
  | String c _ => negb (byte_of c =? 93) && negb (byte_of c =? 125)
  end.

(** ** The tree of a document *)

Inductive canon :=
| CObject (members : list (string * canon))
| CArray (elements : list canon)
| CString (s : string)
| CNumber (s : string)
| CBool (b : bool)
| CNull.

Definition canonicalScalar (t : token) : outcome canonical_error canon :=
  match t with
  | TString s => Ret (CString s)
  | TNumber s => Ret (CNumber s)
  | TBool b => Ret (CBool b)
  | TNull => Ret CNull
  | TDelim c => Fail (UnexpectedDelimiter c)
  end.

Abbreviation Dec A := (stateful decoder canonical_error A).

Definition next_token (eof : canonical_error) : Dec token :=
  fun d => match Token d with
           | (Tok t, d) => (Ret t, d)
           | (TokEOF, d) => (Fail eof, d)
           | (TokError, d) => (Fail Syntax, d)
           end.

Definition has_more : Dec bool := fun d => (Ret (More d), d).

(** [decodeCanonicalValue] and the loops over the members and the elements. *)
Fixpoint decodeCanonicalValue (fuel : nat) : Dec canon :=
  match fuel with
  | O => fun d => (NoFuel, d)
  | S fuel =>
      token ← next_token NotOneValue;
      match token with
      | TDelim c =>
          if byte_of c =? 123 then
            members ← decode_members fuel ∅;
            _ ← next_token Syntax;
            mret (CObject members)
          else if byte_of c =? 91 then
            elements ← decode_elements fuel;
            _ ← next_token Syntax;
            mret (CArray elements)
          else fail (UnexpectedDelimiter c)
      | t => fun d => (canonicalScalar t, d)
      end
  end
with decode_members (fuel : nat) (seen : gset string) : Dec (list (string * canon)) :=
  match fuel with
  | O => fun d => (NoFuel, d)
  | S fuel =>
      more ← has_more;
      if (more : bool) then
        token ← next_token Syntax;
        match token with
        | TString key =>
            if bool_decide (key ∈ seen) then fail (DuplicateKey key)
            else
              value ← decodeCanonicalValue fuel;
              members ← decode_members fuel ({[ key ]} ∪ seen);
              mret ((key, value) :: members)
        | _ => fail KeyNotString
        end
      else mret []
  end
with decode_elements (fuel : nat) : Dec (list canon) :=
  match fuel with
  | O => fun d => (NoFuel, d)
  | S fuel =>
      more ← has_more;
      if (more : bool) then
        element ← decodeCanonicalValue fuel;
        elements ← decode_elements fuel;
        mret (element :: elements)
      else mret []
  end.

(** [rejectUnpairedSurrogateEscapes]: the code unit of the first escape of a
    surrogate that is not one of a pair. *)
Fixpoint unpaired (fuel : nat) (inString : bool) (s : string) : option Z :=
  match fuel, s with
  | O, _ | _, EmptyString => None
  | S fuel, String c s' =>
      let b := byte_of c in
      if negb inString then unpaired fuel (b =? 34) s'
      else if b =? 34 then unpaired fuel false s'
      else if b =? 92 then
        match s' with
        | EmptyString => None
        | String e s'' =>
            if negb (byte_of e =? 117) then unpaired fuel true s''
            else match readHexCodeUnit s'' with
            | None => None
            | Some (u, rest) =>
                if negb (is_surrogate u) then unpaired fuel true rest
                else match rest with
                | String x (String y rest') =>
                    match readHexCodeUnit rest' with
                    | Some (low, rest'') =>
                        if (u <? 56320) && (byte_of x =? 92) && (byte_of y =? 117) && is_low low
                        then unpaired fuel true rest'' else Some u
                    | None => Some u
                    end
                | _ => Some u
                end
            end
        end
      else unpaired fuel true s'
  end.
Definition rejectUnpairedSurrogateEscapes (document : string) : option Z :=
  unpaired (String.length document) false document.

(** Every bracket takes one turn for its value and one for its loop. *)
Definition tree_fuel (document : string) : nat := S (2 * String.length document).

Definition canonicalJSONValueTree (document : string) : outcome canonical_error canon :=
  if negb (ValidString document) then Fail NotUTF8
  else match rejectUnpairedSurrogateEscapes document with
  | Some u => Fail (UnpairedSurrogate u)
  | None =>
      match decodeCanonicalValue (tree_fuel document)
              {| d_buf := document; d_state := tokenTopValue; d_stack := [] |} with
      | (Ret value, d) =>
          match Token d with
          | (TokEOF, _) => Ret value
          | _ => Fail NotOneValue
          end
      | (Fail e, _) => Fail e
      | (Panic, _) => Panic
      | (NoFuel, _) => NoFuel
      end
  end.

(** ** The canonical text *)

Definition hex_char (n : Z) : ascii := byte_char (if n <? 10 then 48 + n else 97 + n - 10).

Definition escape_byte (c : ascii) : string :=
  let b := byte_of c in
  let short e := String BS (String e "") in
  if b =? 34 then short DQ
  else if b =? 92 then short BS
  else if b =? 8 then short "b"%char
  else if b =? 9 then short "t"%char
  else if b =? 10 then short "n"%char
  else if b =? 12 then short "f"%char
  else if b =? 13 then short "r"%char
  else if b <? 32 then
    String BS (String "u" (String "0" (String "0"
      (String (hex_char (Z.shiftr b 4)) (String (hex_char (Z.land b 15)) "")))))
  else String c "".

Fixpoint escape_text (s : string) : string :=
  match s with
  | EmptyString => EmptyString
  | String c s => escape_byte c +:+ escape_text s
  end.

Definition writeCanonicalString (s : string) : outcome canonical_error string :=
  if negb (ValidString s) then Fail NotUTF8 else Ret (String DQ (escape_text s +:+ String DQ "")).

Definition key_le {A} (p q : string * A) : Prop := String.le p.1 q.1.
#[export] Instance key_le_dec {A} (p q : string * A) : Decision (key_le p q).
Proof. unfold key_le. apply _. Defined.
#[export] Instance key_le_total {A} : Total (key_le (A:=A)).
Proof. intros p q. apply (total String.le). Qed.

(** The texts, with a comma between any two. *)
Fixpoint join_texts (texts : list (outcome canonical_error string)) : outcome canonical_error string :=
  match texts with
  | [] => Ret EmptyString
  | [text] => text
  | text :: texts => a ← text; b ← join_texts texts; Ret (a +:+ String "," b)
  end.

Definition member_text (m : string * outcome canonical_error string) : outcome canonical_error string :=
  key ← writeCanonicalString m.1;
  value ← m.2;
  Ret (key +:+ String ":" value).

Definition enclose (open close : ascii) (text : outcome canonical_error string) : outcome canonical_error string :=
  body ← text; Ret (String open (body +:+ String close "")).

Fixpoint writeCanonicalValue (value : canon) : outcome canonical_error string :=
  match value with
  | CObject members =>
      enclose "{" "}" (join_texts (member_text <$>
        merge_sort key_le (map (fun m => (m.1, writeCanonicalValue m.2)) members)))
  | CArray elements => enclose "[" "]" (join_texts (map writeCanonicalValue elements))
  | CString s => writeCanonicalString s
  | CNumber s => Ret s
  | CBool b => Ret (if b then "true" else "false")%string
  | CNull => Ret "null"%string
  end.

Definition canonicalJSONPayload (document : string) : outcome canonical_error string :=
  value ← canonicalJSONValueTree document;
  writeCanonicalValue value.

Definition canonicalJSONAlgorithm : string := "snapshot-canonical-json/1".

Definition LF : ascii := "010".

Definition frame (payload : string) : string :=
  canonicalJSONAlgorithm +:+ String LF (pretty (String.length payload) +:+ String LF payload).

Definition canonicalJSONSerialization (document : string) : outcome canonical_error string :=
  payload ← canonicalJSONPayload document;
  Ret (frame payload).
