(* ===== verification/CanonicalText.v ===== *)
(** * The texts of canonical JSON

    What the tokens of a canonical document are: valid UTF-8 as a sequence of
    runes, strings that read back as they were escaped, numbers that read back as
    they were spelled, texts the scan for unpaired surrogates passes. *)
From stdpp Require Import base gmap sets list strings sorting pretty.
From Stdlib Require Import ZArith Ascii Lia.
From S2P Require Import Prelude Vars GoText CanonicalJSON.

Open Scope Z_scope.

(** ** Strings and characters *)

Lemma app_String c s t : String c s +:+ t = String c (s +:+ t).
Proof. done. Qed.
Lemma app_empty t : EmptyString +:+ t = t.
Proof. done. Qed.

Create Rewrite HintDb text.
#[export] Hint Rewrite app_String app_empty string_app_assoc string_app_nil : text.

Lemma byte_of_bounds c : 0 <= byte_of c < 256.
Proof. unfold byte_of. pose proof (N_ascii_bounded c). lia. Qed.

Lemma byte_of_char b : 0 <= b < 256 -> byte_of (byte_char b) = b.
Proof. intros H. unfold byte_of, byte_char. rewrite N_ascii_embedding by lia. lia. Qed.

(** Every character, one by one. *)
Ltac each_char c := destruct c as [[] [] [] [] [] [] [] []]; vm_compute.
(** Every character with [H], a comparison of its byte. *)
Ltac each_char_with c H :=
  destruct c as [[] [] [] [] [] [] [] []]; vm_compute in H; first [discriminate H | solve [destruct (H eq_refl)] | clear H].

(** ** Valid UTF-8 *)

Fixpoint high (s : string) : Prop :=
  match s with
  | EmptyString => True
  | String c s => 128 <= byte_of c /\ high s
  end.

(** The bytes of one rune, whatever follows them. *)
Record rune (p : string) := {
  rune_decodes : exists r n, (forall x, DecodeRuneInString (p +:+ x) = (r, n, x))
                             /\ ~ (r = RuneError /\ n = 1)
                             /\ n = Z.of_nat (String.length p);
  rune_bytes : (exists c, p = String c "" /\ byte_of c < 128) \/ (high p /\ p <> EmptyString);
}.

Inductive utf8 : string -> Prop :=
| utf8_nil : utf8 EmptyString
| utf8_rune p s : rune p -> utf8 s -> utf8 (p +:+ s).

Lemma utf8_app s t : utf8 s -> utf8 t -> utf8 (s +:+ t).
Proof. induction 1; intros Ht; [done|]. rewrite string_app_assoc. constructor; auto. Qed.

Lemma rune_ascii c : byte_of c < 128 -> rune (String c "").
Proof.
  intros Hc. constructor; [|by eauto]. exists (byte_of c), 1. split; [|split; [|done]].
  - intros x. autorewrite with text. unfold DecodeRuneInString. by rewrite (proj2 (Z.ltb_lt _ _) Hc).
  - unfold RuneError. lia.
Qed.

Lemma utf8_ascii c s : byte_of c < 128 -> utf8 s -> utf8 (String c s).
Proof. intros Hc Hs. apply (utf8_rune (String c "")); [by apply rune_ascii|done]. Qed.

Lemma continuation_cons lo hi s x rest :
  continuation lo hi s = Some (x, rest) ->
  exists c, s = String c rest /\ lo <= byte_of c /\ forall y, continuation lo hi (String c y) = Some (x, y).
Proof.
  destruct s as [|c s]; [done|]. cbn. destruct (between lo hi (byte_of c)) eqn:Hb; [|done].
  intros [= <- <-]. exists c. split; [done|]. split; [unfold between in Hb; lia|]. intros y. by rewrite Hb.
Qed.

(** What [DecodeRuneInString] accepts is the bytes of a rune. *)
Lemma decode_rune s r n rest :
  DecodeRuneInString s = (r, n, rest) -> s <> EmptyString -> ~ (r = RuneError /\ n = 1) ->
  exists p, s = p +:+ rest /\ rune p /\ n = Z.of_nat (String.length p).
Proof.
  intros H Hs Hok. destruct s as [|c s]; [done|]. clear Hs. unfold DecodeRuneInString in H.
  repeat match type of H with
  | (if ?b then _ else _) = _ => destruct b eqn:?
  | match continuation ?lo ?hi ?s with _ => _ end = _ =>
      let E := fresh "E" in let F := fresh "F" in let G := fresh "G" in
      destruct (continuation lo hi s) as [[??]|] eqn:E;
      [apply continuation_cons in E as (? & -> & G & F)|]
  end; injection H as <- <- <-; try (exfalso; by apply Hok).
  all: match goal with
  | |- exists p, String ?a (String ?b (String ?c (String ?d ?s))) = p +:+ ?s /\ _ => exists (String a (String b (String c (String d ""))))
  | |- exists p, String ?a (String ?b (String ?c ?s)) = p +:+ ?s /\ _ => exists (String a (String b (String c "")))
  | |- exists p, String ?a (String ?b ?s) = p +:+ ?s /\ _ => exists (String a (String b ""))
  | |- exists p, String ?a ?s = p +:+ ?s /\ _ => exists (String a "")
  end; (split; [done|]); (split; [|done]).
  1: apply rune_ascii; lia.
  all: constructor; [|right; cbn; split_and!; (lia || done)].
  all: eexists _, _; split; [|split; [exact Hok|done]]; intros tail; autorewrite with text;
    unfold DecodeRuneInString; repeat match goal with
    | H : ?b = _ |- context [if ?b then _ else _] => rewrite H
    | F : forall y, continuation _ _ _ = _ |- _ => rewrite F
    end; done.
Qed.

Lemma valid_from_utf8 fuel s :
  (String.length s <= fuel)%nat -> valid_from fuel s = true <-> utf8 s.
Proof.
  revert s. induction fuel as [|fuel IH]; intros [|c s] Hl; cbn in Hl; try lia;
    [by split; [constructor|]..|].
  cbn [valid_from]. destruct (DecodeRuneInString (String c s)) as [[r n] rest] eqn:Hd.
  pose proof (decode_length _ _ _ _ _ Hd) as Hrest. split.
  - intros [Hok Hv]%andb_prop. edestruct (decode_rune _ _ _ _ Hd) as (p & -> & Hp & _); [done| |].
    + intros [-> ->]. done.
    + constructor; [done|]. apply IH; [lia|done].
  - intros Hu. inversion Hu as [|p s' [(r' & n' & Hp & Hok & _) Hb] Hs' Heq]. clear Hu.
    rewrite <- Heq, Hp in Hd. injection Hd as -> -> ->. rewrite (proj2 (IH rest ltac:(lia)) Hs').
    rewrite andb_true_r. apply negb_true_iff. apply andb_false_iff.
    destruct (decide (r = RuneError)); [right|left]; apply Z.eqb_neq; naive_solver.
Qed.

Lemma ValidString_utf8 s : ValidString s = true <-> utf8 s.
Proof. by apply valid_from_utf8. Qed.

Lemma rune_decoded p r n : DecodeRuneInString p = (r, n, EmptyString) -> p <> EmptyString -> 1 < n -> rune p.
Proof.
  intros Hd Hp Hn. destruct (decode_rune _ _ _ _ Hd) as (q & Hq & Hr & _); [done|lia|].
  rewrite string_app_nil in Hq. by subst.
Qed.

Ltac decode_wide :=
  repeat case_match; simplify_eq; rewrite ?byte_of_char in * by lia; try lia; done.

Section Wide.
Let cont (z : Z) : Prop := 128 <= z < 192.

Lemma rune_two a b : 194 <= a < 224 -> cont b -> rune (String (byte_char a) (String (byte_char b) "")).
Proof.
  intros Ha Hb. red in Hb. eapply (rune_decoded _ _ 2); [|done|lia].
  unfold DecodeRuneInString, continuation. rewrite !byte_of_char by lia. unfold between.
  decode_wide.
Qed.

Lemma rune_three a b c :
  224 <= a < 240 -> cont b -> cont c -> (a = 224 -> 160 <= b) -> (a = 237 -> b < 160) ->
  rune (String (byte_char a) (String (byte_char b) (String (byte_char c) ""))).
Proof.
  intros Ha Hb Hc H1 H2. red in Hb, Hc. eapply (rune_decoded _ _ 3); [|done|lia].
  unfold DecodeRuneInString, continuation. rewrite !byte_of_char by lia. unfold between.
  decode_wide.
Qed.

Lemma rune_four a b c d :
  240 <= a < 245 -> cont b -> cont c -> cont d -> (a = 240 -> 144 <= b) -> (a = 244 -> b < 144) ->
  rune (String (byte_char a) (String (byte_char b) (String (byte_char c) (String (byte_char d) "")))).
Proof.
  intros Ha Hb Hc Hd H1 H2. red in Hb, Hc, Hd. eapply (rune_decoded _ _ 4); [|done|lia].
  unfold DecodeRuneInString, continuation. rewrite !byte_of_char by lia. unfold between.
  decode_wide.
Qed.

(** [EncodeRune] writes a rune. *)
Lemma EncodeRune_rune r : rune (EncodeRune r).
Proof.
  unfold EncodeRune. rewrite !Z.shiftr_div_pow2 by lia.
  change 63 with (Z.ones 6). rewrite !Z.land_ones by lia. change (2 ^ 18) with 262144.
  change (2 ^ 12) with 4096. change (2 ^ 6) with 64. change (2 ^ 0) with 1. rewrite Z.div_1_r.
  repeat case_match.
  2: apply rune_ascii; rewrite byte_of_char; lia.
  2: apply rune_two; unfold cont; Z.div_mod_to_equations; lia.
  2: apply rune_three; unfold cont; Z.div_mod_to_equations; lia.
  2: apply rune_four; unfold cont; Z.div_mod_to_equations; lia.
  all: apply rune_three; unfold cont; lia.
Qed.
End Wide.

(** ** Strings *)

Lemma escape_byte_high c : 128 <= byte_of c -> escape_byte c = String c "".
Proof. intros H. each_char_with c H; reflexivity. Qed.

Lemma escape_text_app s t : escape_text (s +:+ t) = escape_text s +:+ escape_text t.
Proof.
  induction s as [|c s IH]; [done|]. rewrite app_String. cbn [escape_text].
  by rewrite IH, string_app_assoc.
Qed.

Lemma escape_text_high s : high s -> escape_text s = s.
Proof.
  induction s as [|c s IH]; [done|]. intros [Hc Hs]. cbn [escape_text].
  by rewrite (escape_byte_high _ Hc), IH, app_String, app_empty.
Qed.

(** One turn of the loop reads one character back. *)
Lemma unquote_escape_byte fuel c rest :
  byte_of c < 128 ->
  unquote (S fuel) (escape_byte c +:+ rest) = prepend (String c "") (unquote fuel rest).
Proof. intros H. each_char_with c H; reflexivity. Qed.

Lemma substring_app p x : String.substring 0 (String.length p) (p +:+ x) = p.
Proof. induction p as [|c p IH]; [by destruct x|]. rewrite app_String. cbn. by rewrite IH. Qed.

Lemma unquote_high fuel p rest :
  rune p -> high p -> p <> EmptyString ->
  unquote (S fuel) (p +:+ rest) = prepend p (unquote fuel rest).
Proof.
  intros [(r & n & Hd & Hok & ->) _] Hh Hp. destruct p as [|c p]; [done|]. destruct Hh as [Hc Hh].
  specialize (Hd rest). pose proof (substring_app (String c p) rest) as Hsub.
  rewrite app_String in *. cbn [unquote].
  destruct (byte_of c =? 34) eqn:?, (byte_of c =? 92) eqn:?, (byte_of c <? 32) eqn:?, (byte_of c <? 128) eqn:?; try lia.
  rewrite Hd, Nat2Z.id, Hsub.
  destruct ((r =? RuneError) && (Z.of_nat (String.length (String c p)) =? 1)) eqn:E; [|done].
  exfalso. apply Hok. lia.
Qed.

(** A string reads back as it was escaped. *)
Lemma unquote_escape s fuel rest :
  utf8 s -> (String.length (escape_text s) < fuel)%nat ->
  unquote fuel (escape_text s +:+ String DQ rest) = Some (s, rest).
Proof.
  intros Hs. revert fuel. induction Hs as [|p s Hp Hs IH]; intros [|fuel] Hf; try (cbn in Hf; lia); [done|].
  rewrite escape_text_app, string_app_assoc in *. rewrite string_length_app in Hf.
  destruct (rune_bytes _ Hp) as [(c & -> & Hc)|[Hh Hne]].
  - cbn [escape_text] in *. rewrite string_app_nil in *. rewrite unquote_escape_byte by done.
    rewrite IH; [done|]. assert (0 < String.length (escape_byte c))%nat; [|lia]. each_char c; lia.
  - rewrite escape_text_high in * by done. rewrite unquote_high by done. rewrite IH; [done|].
    destruct p; [done|]. cbn in Hf. lia.
Qed.

Lemma escape_text_utf8 s : utf8 s -> utf8 (escape_text s).
Proof.
  induction 1 as [|p s Hp Hs IH]; [constructor|]. rewrite escape_text_app. apply utf8_app; [|done].
  destruct (rune_bytes _ Hp) as [(c & -> & Hc)|[Hh _]].
  - cbn [escape_text]. rewrite string_app_nil. apply ValidString_utf8. revert Hc. each_char c; done.
  - rewrite escape_text_high by done. rewrite <- (string_app_nil p). constructor; [done|constructor].
Qed.

Lemma prepend_Some p r s rest :
  prepend p r = Some (s, rest) -> exists s', r = Some (s', rest) /\ s = p +:+ s'.
Proof. destruct r as [[s' rest']|]; cbn; [|done]. intros [= <- <-]. eauto. Qed.

Lemma prepend_char c r s rest :
  prepend (String c "") r = Some (s, rest) -> exists s', r = Some (s', rest) /\ s = String c s'.
Proof. intros (s' & Hr & ->)%prepend_Some. eauto. Qed.

Lemma prepend_utf8 p r s rest :
  prepend p r = Some (s, rest) -> rune p -> (forall s', r = Some (s', rest) -> utf8 s') -> utf8 s.
Proof. intros (s' & Hr & ->)%prepend_Some Hp H. constructor; auto. Qed.

Lemma escape_of_rune e e' : escape_of e = Some e' -> rune (String e' "").
Proof.
  intros H. apply rune_ascii. revert H. unfold escape_of.
  repeat case_match; intros [= <-]; rewrite ?byte_of_char; lia.
Qed.

(** Whatever a string is read from, it is valid UTF-8. *)
Lemma unquote_utf8 fuel s x rest : unquote fuel s = Some (x, rest) -> utf8 x.
Proof.
  revert s x rest. induction fuel as [|fuel IH]; intros [|c s] x rest; try done. cbn [unquote].
  destruct (byte_of c =? 34); [intros [= <- _]; constructor|].
  destruct (byte_of c =? 92).
  - destruct s as [|e s]; [done|]. destruct (byte_of e =? 117).
    + destruct (readHexCodeUnit s) as [[u s1]|]; [|done]. cbn -[EncodeRune readHexCodeUnit].
      repeat case_match; intros Hx; try done; (eapply prepend_utf8; [exact Hx|apply EncodeRune_rune|eauto]).
    + destruct (escape_of e) as [e'|] eqn:He; [|done]. cbn. intros H.
      eapply prepend_utf8; [done|by eapply escape_of_rune|eauto].
  - destruct (byte_of c <? 32); [done|]. destruct (byte_of c <? 128) eqn:H128.
    + intros H. eapply prepend_utf8; [done|apply rune_ascii; lia|eauto].
    + destruct (DecodeRuneInString (String c s)) as [[r n] s'] eqn:Hd.
      destruct ((r =? RuneError) && (n =? 1)) eqn:Hok; intros H.
      * eapply prepend_utf8; [done|apply EncodeRune_rune|eauto].
      * destruct (decode_rune _ _ _ _ Hd) as (p & Hs & Hp & ->); [done|lia|].
        rewrite Hs, Nat2Z.id, substring_app in H. eapply prepend_utf8; [done|done|eauto].
Qed.

(** ** Numbers *)

(** What may follow a value in a canonical text. *)
Definition delimited (rest : string) : Prop :=
  match rest with
  | EmptyString => True
  | String c _ => c = ","%char \/ c = "]"%char \/ c = "}"%char
  end.

Definition good_number (s : string) : Prop := scan_number_start s = Some (s, EmptyString).

Lemma scan_number_app st s rest :
  scan_number st s = Some (s, EmptyString) -> delimited rest -> scan_number st (s +:+ rest) = Some (s, rest).
Proof.
  revert st. induction s as [|c s IH]; intros st.
  - rewrite app_empty. intros H Hr. destruct rest as [|c rest]; [done|]. cbn in H.
    destruct Hr as [->|[->| ->]]; destruct st; done.
  - rewrite app_String. cbn. destruct (number_next st c); [|by case_match].
    intros (s' & Hs & [= <-])%prepend_char Hr. by rewrite IH.
Qed.

Lemma good_number_app s rest :
  good_number s -> delimited rest -> scan_number_start (s +:+ rest) = Some (s, rest).
Proof.
  unfold good_number. destruct s as [|c s]; [done|]. rewrite app_String. unfold scan_number_start.
  repeat case_match; try done; intros (s' & Hs & [= <-])%prepend_char Hr; by rewrite scan_number_app.
Qed.

Lemma scan_number_good st s x rest :
  scan_number st s = Some (x, rest) -> scan_number st x = Some (x, EmptyString).
Proof.
  revert st x. induction s as [|c s IH]; intros st x; cbn.
  - destruct (number_ends st) eqn:He; [|done]. intros [= <- <-]. cbn. by rewrite He.
  - destruct (number_next st c) eqn:Hn.
    + intros (s' & Hs & ->)%prepend_char. cbn. rewrite Hn. by rewrite (IH _ _ Hs).
    + destruct (number_ends st) eqn:He; [|done]. intros [= <- <-]. cbn. by rewrite He.
Qed.

Lemma scan_number_start_good s x rest : scan_number_start s = Some (x, rest) -> good_number x.
Proof.
  unfold good_number. destruct s as [|c s]; [done|]. cbn [scan_number_start].
  destruct (byte_of c =? 45) eqn:H45; [|destruct (number_next NNeg c) eqn:Hn; [|done]];
    intros (s' & Hs & ->)%prepend_char; cbn [scan_number_start]; rewrite H45, ?Hn;
    by rewrite (scan_number_good _ _ _ _ Hs).
Qed.

(** A number is made of its own characters. *)
Definition number_char (c : ascii) : bool :=
  is_digit_byte c || is_exp c || (byte_of c =? 46) || (byte_of c =? 43) || (byte_of c =? 45).

Fixpoint all_number (s : string) : Prop :=
  match s with
  | EmptyString => True
  | String c s => number_char c = true /\ all_number s
  end.

Lemma number_next_char st c st' : number_next st c = Some st' -> number_char c = true.
Proof.
  unfold number_next, number_char. intros H.
  repeat case_match; simplify_eq; rewrite ?orb_true_r; try done; unfold is_digit_byte, between in *; lia.
Qed.

Lemma scan_number_chars st s : scan_number st s = Some (s, EmptyString) -> all_number s.
Proof.
  revert st. induction s as [|c s IH]; intros st; [done|]. cbn.
  destruct (number_next st c) eqn:Hn; [|by case_match].
  intros (s' & Hs & [= <-])%prepend_char. split; [by eapply number_next_char|eauto].
Qed.

Lemma good_number_chars s : good_number s -> all_number s.
Proof.
  unfold good_number. destruct s as [|c s]; [done|]. unfold scan_number_start.
  repeat case_match; try done; intros (s' & Hs & [= <-])%prepend_char; (split; [|by eapply scan_number_chars]).
  - unfold number_char. repeat (apply orb_true_iff; (by right) || left).
  - by eapply number_next_char.
Qed.

(** ** The scan for unpaired surrogates *)

Definition passes (inString : bool) (s : string) : Prop := forall fuel, unpaired fuel inString s = None.

Lemma passes_nil b : passes b EmptyString.
Proof. by intros [|fuel]. Qed.

Lemma passes_plain c s : byte_of c <> 34 -> passes false s -> passes false (String c s).
Proof. intros Hc Hs [|fuel]; [done|]. cbn. rewrite (proj2 (Z.eqb_neq _ _) Hc). apply Hs. Qed.

Lemma passes_open s : passes true s -> passes false (String DQ s).
Proof. intros Hs [|fuel]; [done|]. apply Hs. Qed.

Lemma passes_close s : passes false s -> passes true (String DQ s).
Proof. intros Hs [|fuel]; [done|]. apply Hs. Qed.

Lemma passes_escape_byte c s : passes true s -> passes true (escape_byte c +:+ s).
Proof.
  intros Hs [|fuel]; [done|]. enough (unpaired (S fuel) true (escape_byte c +:+ s) = unpaired fuel true s) as -> by apply Hs.
  destruct c as [[] [] [] [] [] [] [] []]; reflexivity.
Qed.

Lemma passes_escape_text s t : passes true t -> passes true (escape_text s +:+ t).
Proof.
  intros Ht. induction s as [|c s IH]; [done|]. cbn [escape_text]. rewrite string_app_assoc.
  by apply passes_escape_byte.
Qed.

Lemma passes_number s t : all_number s -> passes false t -> passes false (s +:+ t).
Proof.
  intros Hs Ht. induction s as [|c s IH]; [done|]. destruct Hs as [Hc Hs]. rewrite app_String.
  apply passes_plain; [|auto]. intros E. unfold number_char, is_digit_byte, is_exp, between in Hc.
  rewrite E in Hc. done.
Qed.

Lemma all_number_utf8 s : all_number s -> utf8 s.
Proof.
  induction s as [|c s IH]; [constructor|]. intros [Hc Hs]. apply utf8_ascii; [|auto].
  unfold number_char, is_digit_byte, is_exp, between in Hc. lia.
Qed.
