(* ===== verification/CanonicalJSONSpec.v ===== *)
(** * Canonical JSON: what the payload determines

    The reference notions are a compact printer without any sorting ([text]),
    the documents it can print ([wf]) and documents equal up to the order of the
    members of their objects ([same]).  The decoder reads back what the printer
    writes, every document it accepts is well formed, and so the payload is a
    normal form: it is its own payload, and two documents have the same payload
    exactly if they are the same up to the order of members. *)
From stdpp Require Import base gmap sets list strings sorting pretty.
From Stdlib Require Import ZArith Ascii Lia.
From S2P Require Import Prelude Vars GoText CanonicalJSON CanonicalText.

Set Warnings "-register-all".
Open Scope Z_scope.

(** ** Documents *)

Section Induction.
Context (P : canon -> Prop).
Hypothesis (Hobject : forall members, Forall (fun m => P m.2) members -> P (CObject members)).
Hypothesis (Harray : forall elements, Forall P elements -> P (CArray elements)).
Hypothesis (Hstring : forall s, P (CString s)) (Hnumber : forall s, P (CNumber s)).
Hypothesis (Hbool : forall b, P (CBool b)) (Hnull : P CNull).

Fixpoint canon_induction (v : canon) : P v :=
  match v with
  | CObject members =>
      Hobject members
        ((fix go l : Forall (fun m => P m.2) l :=
            match l with
            | [] => Forall_nil_2 _
            | m :: l => Forall_cons_2 (fun m => P m.2) m l (canon_induction m.2) (go l)
            end) members)
  | CArray elements =>
      Harray elements
        ((fix go l : Forall P l :=
            match l with
            | [] => Forall_nil_2 _
            | e :: l => Forall_cons_2 P e l (canon_induction e) (go l)
            end) elements)
  | CString s => Hstring s
  | CNumber s => Hnumber s
  | CBool b => Hbool b
  | CNull => Hnull
  end.
End Induction.

(** Distinct keys, valid UTF-8 in every string, numbers the scanner accepts. *)
Inductive wf : canon -> Prop :=
| wf_object members :
    NoDup members.*1 -> Forall utf8 members.*1 -> Forall (fun m => wf m.2) members -> wf (CObject members)
| wf_array elements : Forall wf elements -> wf (CArray elements)
| wf_string s : utf8 s -> wf (CString s)
| wf_number s : good_number s -> wf (CNumber s)
| wf_bool b : wf (CBool b)
| wf_null : wf CNull.

Definition on_value {A B} (f : A -> B) (m : string * A) : string * B := (m.1, f m.2).

(** The members sorted by key, all the way down. *)
Fixpoint norm (v : canon) : canon :=
  match v with
  | CObject members => CObject (merge_sort key_le (map (fun m => (m.1, norm m.2)) members))
  | CArray elements => CArray (map norm elements)
  | v => v
  end.

(** The same document, up to the order of members. *)
Inductive same : canon -> canon -> Prop :=
| same_object ms ms1 ms2 :
    ms ≡ₚ ms1 -> Forall2 (fun m n => m.1 = n.1 /\ same m.2 n.2) ms1 ms2 -> same (CObject ms) (CObject ms2)
| same_array es es1 : Forall2 same es es1 -> same (CArray es) (CArray es1)
| same_string s : same (CString s) (CString s)
| same_number s : same (CNumber s) (CNumber s)
| same_bool b : same (CBool b) (CBool b)
| same_null : same CNull CNull.

(** The compact text of a document, in the order of its members. *)
Definition quoted (s : string) : string := String DQ (escape_text s +:+ String DQ "").

Fixpoint joined (first : bool) (texts : list string) : string :=
  match texts with
  | [] => EmptyString
  | t :: texts => (if first then "" else ",")%string +:+ (t +:+ joined false texts)
  end.

Fixpoint text (v : canon) : string :=
  match v with
  | CObject members =>
      String "{" (joined true (map (fun m => quoted m.1 +:+ String ":" (text m.2)) members) +:+ "}")
  | CArray elements => String "[" (joined true (map text elements) +:+ "]")
  | CString s => quoted s
  | CNumber s => s
  | CBool b => if b then "true" else "false"
  | CNull => "null"
  end.

(** ** Sorting members *)

Lemma key_le_antisymm {A} (p q : string * A) : key_le p q -> key_le q p -> p.1 = q.1.
Proof. apply (anti_symm String.le). Qed.

#[export] Instance key_le_trans {A} : Transitive (key_le (A:=A)).
Proof. intros p q r. apply (transitivity (R:=String.le)). Qed.

Lemma NoDup_key_inj {A} (l : list (string * A)) p q : NoDup l.*1 -> p ∈ l -> q ∈ l -> p.1 = q.1 -> p = q.
Proof.
  intros Hnd Hp Hq E. induction l as [|x l IH]; [by apply not_elem_of_nil in Hp|].
  apply NoDup_cons in Hnd as [Hx Hnd]. apply elem_of_cons in Hp as [->|Hp], Hq as [->|Hq]; auto; exfalso; apply Hx.
  - rewrite E. by apply list_elem_of_fmap_2.
  - rewrite <- E. by apply list_elem_of_fmap_2.
Qed.

(** With distinct keys there is one way to sort. *)
Lemma sorted_unique {A} (l1 l2 : list (string * A)) :
  NoDup l1.*1 -> l1 ≡ₚ l2 -> StronglySorted key_le l1 -> StronglySorted key_le l2 -> l1 = l2.
Proof.
  intros Hnd Hp H1 H2. apply (StronglySorted_unique_strong key_le); [|done..].
  intros p q Hp1 Hq2 Hle1 Hle2. rewrite <- Hp in Hq2.
  eapply NoDup_key_inj; [done..|]. by apply key_le_antisymm.
Qed.

Lemma merge_sort_perm {A} (l1 l2 : list (string * A)) :
  NoDup l1.*1 -> l1 ≡ₚ l2 -> merge_sort key_le l1 = merge_sort key_le l2.
Proof.
  intros Hnd Hp. apply sorted_unique; try apply (StronglySorted_merge_sort key_le).
  - by rewrite merge_sort_Permutation.
  - by rewrite !merge_sort_Permutation.
Qed.

Lemma fst_on_value {A B} (f : A -> B) l : (map (on_value f) l).*1 = l.*1.
Proof. induction l as [|m l IH]; [done|]. cbn. f_equal. exact IH. Qed.

Lemma sorted_on_value {A B} (f : A -> B) l : StronglySorted key_le l -> StronglySorted key_le (map (on_value f) l).
Proof.
  induction 1 as [|m l Hs IH Hm]; constructor; [done|]. apply Forall_map. eapply Forall_impl; [exact Hm|]. done.
Qed.

Lemma merge_sort_map {A B} (f : A -> B) (l : list (string * A)) :
  NoDup l.*1 -> merge_sort key_le (map (on_value f) l) = map (on_value f) (merge_sort key_le l).
Proof.
  intros Hnd. apply sorted_unique.
  - rewrite merge_sort_Permutation. by rewrite fst_on_value.
  - by rewrite !merge_sort_Permutation.
  - apply (StronglySorted_merge_sort key_le).
  - apply sorted_on_value, (StronglySorted_merge_sort key_le).
Qed.

Lemma norm_object members : norm (CObject members) = CObject (merge_sort key_le (map (on_value norm) members)).
Proof. done. Qed.

Lemma wf_norm v : wf v -> wf (norm v).
Proof.
  induction v as [ms IH|es IH| | | |] using canon_induction; intros Hwf; inversion Hwf as [? Hnd Hu Hall|? Hall| | | |];
    subst; [|cbn; constructor..]; try done.
  - rewrite norm_object. constructor.
    + by rewrite merge_sort_Permutation, fst_on_value.
    + by rewrite merge_sort_Permutation, fst_on_value.
    + rewrite merge_sort_Permutation. apply Forall_map. rewrite Forall_forall in *. intros m Hm. cbn. auto.
  - apply Forall_map. rewrite Forall_forall in *. auto.
Qed.

(** ** Equal up to order *)

Lemma norm_members_same ms ms2 :
  Forall (fun m => forall w, norm m.2 = norm w -> same m.2 w) ms ->
  map (on_value norm) ms = map (on_value norm) ms2 ->
  Forall2 (fun m n => m.1 = n.1 /\ same m.2 n.2) ms ms2.
Proof.
  intros IH. revert ms2. induction IH as [|m ms Hm _ IHms]; intros [|m2 ms2] [=]; constructor; auto.
Qed.

Lemma norm_same v w : norm v = norm w -> same v w.
Proof.
  revert w. induction v as [ms IH|es IH| | | |] using canon_induction; intros w Hw;
    destruct w as [ms2|es2| | | |]; try discriminate Hw; try (injection Hw as ->; constructor); [|constructor|constructor].
  - rewrite !norm_object in Hw. injection Hw as Hw.
    assert (map (on_value norm) ms2 ≡ₚ map (on_value norm) ms) as Hp.
    { rewrite <- (merge_sort_Permutation key_le (map _ ms2)), <- Hw. apply merge_sort_Permutation. }
    apply Permutation_map_inv in Hp as (ms1 & Heq & Hp). apply (same_object _ ms1); [done|].
    apply norm_members_same; [by rewrite <- Hp|done].
  - injection Hw as Hw. revert es2 Hw. induction IH as [|e es He _ IHes]; intros [|e2 es2] [=]; constructor; auto.
Qed.

Lemma same_members_norm ms ms2 :
  Forall (fun m => forall w, wf m.2 -> same m.2 w -> norm m.2 = norm w) ms ->
  Forall (fun m => wf m.2) ms ->
  Forall2 (fun m n => m.1 = n.1 /\ same m.2 n.2) ms ms2 ->
  map (on_value norm) ms = map (on_value norm) ms2.
Proof.
  intros IH Hwf H. induction H as [|m n ms ms2 [Hk Hs] H IHl]; [done|].
  apply Forall_cons in IH as [IHm IH], Hwf as [Hm Hwf]. cbn. f_equal; [|auto].
  unfold on_value. f_equal; auto.
Qed.

Lemma same_norm v w : wf v -> same v w -> norm v = norm w.
Proof.
  revert w. induction v as [ms IH|es IH| | | |] using canon_induction; intros w Hwf Hs;
    inversion Hs as [? ms1 ms2 Hp Hall|? es1 Hall| | | |]; subst; try done; inversion Hwf as [? Hnd _ Hvs|? Hvs| | | |]; subst.
  - rewrite !norm_object. f_equal.
    rewrite (merge_sort_perm _ (map (on_value norm) ms1)); [|by rewrite fst_on_value|by rewrite Hp].
    f_equal. rewrite Hp in IH, Hvs. by apply same_members_norm.
  - cbn. f_equal. clear Hwf Hs. induction Hall as [|e e1 es es1 He Hall IHl]; [done|].
    apply Forall_cons in IH as [IHe IH], Hvs as [Hve Hvs]. cbn. f_equal; auto.
Qed.

(** ** The writer *)

Lemma join_texts_Ret {A} (f : A -> outcome canonical_error string) (g : A -> string) l :
  (forall x, x ∈ l -> f x = Ret (g x)) -> join_texts (map f l) = Ret (joined true (map g l)).
Proof.
  induction l as [|x l IH]; intros H; [done|]. specialize (IH ltac:(set_solver)).
  pose proof (H x ltac:(set_solver)) as Hx. destruct l as [|y l].
  - cbn. by rewrite Hx, string_app_nil, app_empty.
  - change (join_texts (map f (x :: y :: l))) with
      (a ← f x; b ← join_texts (map f (y :: l)); Ret (a +:+ String "," b) : outcome canonical_error string).
    rewrite Hx, IH. cbn. by rewrite !app_empty.
Qed.

Lemma writeCanonicalString_utf8 s : utf8 s -> writeCanonicalString s = Ret (quoted s).
Proof. intros Hs. unfold writeCanonicalString. by rewrite (proj2 (ValidString_utf8 s) Hs). Qed.

(** The payload is the compact text of the sorted document. *)
Lemma write_text v : wf v -> writeCanonicalValue v = Ret (text (norm v)).
Proof.
  induction v as [ms IH|es IH| | | |] using canon_induction; intros Hwf;
    inversion Hwf as [? Hnd Hu Hall|? Hall| | | |]; subst; try done.
  - change (writeCanonicalValue (CObject ms)) with
      (enclose "{" "}" (join_texts (map member_text (merge_sort key_le (map (on_value writeCanonicalValue) ms))))).
    rewrite norm_object, !merge_sort_map by done. cbn [text]. rewrite !map_map.
    erewrite join_texts_Ret; [done|]. intros m Hm. rewrite merge_sort_Permutation in Hm.
    rewrite Forall_forall in *. unfold member_text, on_value. cbn [fst snd].
    rewrite writeCanonicalString_utf8 by (apply (proj1 (Forall_forall _ _) Hu); by apply list_elem_of_fmap_2).
    by rewrite (IH m Hm (Hall m Hm)).
  - cbn. rewrite map_map. erewrite join_texts_Ret; [done|]. rewrite Forall_forall in *. auto.
  - cbn. by apply writeCanonicalString_utf8.
Qed.

(** ** The tokens of a written text *)

(** A value may come next, after a comma or a colon that is due. *)
Inductive lead : tokenState -> string -> tokenState -> Prop :=
| lead_here st : tokenValueAllowed st = true -> lead st EmptyString st
| lead_comma : lead tokenArrayComma "," tokenArrayValue
| lead_colon : lead tokenObjectColon ":" tokenObjectValue.

Definition at_text (buf : string) (st : tokenState) (stack : list tokenState) : decoder :=
  {| d_buf := buf; d_state := st; d_stack := stack |}.

(** Before the first element or member, and after one. *)
Definition array_at (first : bool) : tokenState := if first then tokenArrayStart else tokenArrayComma.
Definition object_at (first : bool) : tokenState := if first then tokenObjectStart else tokenObjectComma.

Lemma Token_open c inner st pre st' stack rest :
  (c = "{"%char /\ inner = tokenObjectStart \/ c = "["%char /\ inner = tokenArrayStart) -> lead st pre st' ->
  Token (at_text (pre +:+ String c rest) st stack) = (Tok (TDelim c), at_text rest inner (st' :: stack)).
Proof. intros [[-> ->]|[-> ->]] [st0 Hst| |]; try (destruct st0; try discriminate Hst); reflexivity. Qed.

Lemma Token_close_array (first : bool) st stack rest :
  Token (at_text (String "]" rest) (array_at first) (st :: stack))
  = (Tok (TDelim "]"), at_text rest (tokenValueEnd st) stack).
Proof. by destruct first. Qed.

Lemma Token_close_object (first : bool) st stack rest :
  Token (at_text (String "}" rest) (object_at first) (st :: stack))
  = (Tok (TDelim "}"), at_text rest (tokenValueEnd st) stack).
Proof. by destruct first. Qed.

(** The first characters of scalars. *)
Definition scalar_start (c : ascii) : bool :=
  (byte_of c =? 34) || (byte_of c =? 116) || (byte_of c =? 102) || (byte_of c =? 110) || number_char c.

Lemma scalar_start_bytes c :
  scalar_start c = true ->
  Forall (fun b => (byte_of c =? b) = false) [32; 9; 13; 10; 91; 93; 123; 125; 58; 44].
Proof.
  unfold scalar_start, number_char, is_digit_byte, is_exp, between. intros H.
  repeat constructor; apply Z.eqb_neq; intros E; rewrite E in H; discriminate H.
Qed.

Ltac scalar_bytes Hc :=
  let Hb := fresh in
  pose proof (scalar_start_bytes _ Hc) as Hb; rewrite !Forall_cons in Hb;
  destruct Hb as (?H32 & ?H9 & ?H13 & ?H10 & ?H91 & ?H93 & ?H123 & ?H125 & ?H58 & ?H44 & _).

Lemma token_loop_scalar fuel st c s t rest stack :
  scalar_start c = true -> tokenValueAllowed st = true -> decode_scalar (String c s) = Some (t, rest) ->
  token_loop (S fuel) (at_text (String c s) st stack) = (Tok t, at_text rest (tokenValueEnd st) stack).
Proof.
  intros Hc Hst Hd. scalar_bytes Hc. unfold at_text. cbn [token_loop d_buf d_state d_stack skip_space].
  rewrite H32, H9, H13, H10. cbn [orb]. rewrite H91, H93, H123, H125, H58, H44, Hst, Hd.
  destruct (byte_of c =? 34); [|done]. destruct st; done.
Qed.

Lemma Token_scalar st pre st' c s t rest stack :
  lead st pre st' -> scalar_start c = true -> decode_scalar (String c s) = Some (t, rest) ->
  Token (at_text (pre +:+ String c s) st stack) = (Tok t, at_text rest (tokenValueEnd st') stack).
Proof.
  intros Hl Hc Hd. destruct Hl as [st Hst| |].
  - by apply token_loop_scalar.
  - by apply (token_loop_scalar 1 tokenArrayValue).
  - by apply (token_loop_scalar 1 tokenObjectValue).
Qed.

Lemma decode_quoted s rest : utf8 s -> decode_scalar (quoted s +:+ rest) = Some (TString s, rest).
Proof.
  intros Hs. unfold quoted. autorewrite with text. cbn -[unquote].
  rewrite unquote_escape; [done..|]. rewrite string_length_app. cbn. lia.
Qed.

Lemma Token_key (first : bool) s stack rest :
  utf8 s ->
  Token (at_text ((if first then "" else ",")%string +:+ (quoted s +:+ rest))
           (object_at first) stack)
  = (Tok (TString s), at_text rest tokenObjectColon stack).
Proof.
  intros Hs. pose proof (decode_quoted s rest Hs) as Hd. unfold quoted in *. autorewrite with text in *.
  revert Hd. generalize (escape_text s +:+ String DQ rest). intros buf Hd.
  transitivity (match decode_scalar (String DQ buf) with
                | Some (t, rest) => (Tok t, at_text rest tokenObjectColon stack)
                | None => (TokError, at_text (String DQ buf) (if first then tokenObjectStart else tokenObjectKey) stack)
                end); [by destruct first|by rewrite Hd].
Qed.

Lemma substring_all s : String.substring 0 (String.length s) s = s.
Proof. induction s as [|c s IH]; [done|]. cbn. by rewrite IH. Qed.

Lemma substring_rest p s : String.substring (String.length p) (String.length s) (p +:+ s) = s.
Proof. induction p as [|c p IH]; [apply substring_all|]. rewrite app_String. cbn. exact IH. Qed.

Lemma prefix_app p s : String.prefix p (p +:+ s) = true.
Proof.
  induction p as [|c p IH]; [by destruct s|]. rewrite app_String. cbn. by destruct (ascii_dec c c).
Qed.

Lemma literal_app word t rest : literal word t (word +:+ rest) = Some (t, rest).
Proof.
  unfold literal. rewrite prefix_app, string_length_app.
  replace (_ + _ - _)%nat with (String.length rest) by lia. by rewrite substring_rest.
Qed.

Lemma decode_number s rest :
  good_number s -> delimited rest -> decode_scalar (s +:+ rest) = Some (TNumber s, rest).
Proof.
  intros Hs Hr. pose proof (good_number_chars _ Hs) as Hcs. pose proof (good_number_app _ _ Hs Hr) as Ha.
  destruct s as [|c s]; [done|]. destruct Hcs as [Hc _]. rewrite app_String in *.
  unfold decode_scalar. rewrite Ha. unfold number_char, is_digit_byte, is_exp, between in Hc.
  repeat case_match; try lia. done.
Qed.

(** ** Decoding a written text *)

Definition reads (v : canon) : Prop :=
  forall fuel st pre st' stack rest,
    lead st pre st' -> delimited rest -> (String.length (text v) < fuel)%nat ->
    decodeCanonicalValue fuel (at_text (pre +:+ (text v +:+ rest)) st stack)
    = (Ret v, at_text rest (tokenValueEnd st') stack).

Lemma reads_scalar v t :
  (forall rest, delimited rest -> exists c s, text v +:+ rest = String c s /\ scalar_start c = true
                                   /\ decode_scalar (String c s) = Some (t, rest)) ->
  canonicalScalar t = Ret v -> reads v.
Proof.
  intros Ht Hv [|fuel] st pre st' stack rest Hl Hr Hf; [lia|]. destruct (Ht rest Hr) as (c & s & -> & Hc & Hd).
  cbn [decodeCanonicalValue]. unfold mbind, stateful_bind, next_token.
  rewrite (Token_scalar _ _ _ _ _ _ _ stack Hl Hc Hd). destruct t; [done|by rewrite Hv..].
Qed.

Lemma reads_string s : utf8 s -> reads (CString s).
Proof.
  intros Hs. apply (reads_scalar _ (TString s)); [|done]. intros rest _.
  eexists DQ, _. split; [done|]. split; [done|]. by apply (decode_quoted s rest).
Qed.

Lemma reads_number s : good_number s -> reads (CNumber s).
Proof.
  intros Hs. apply (reads_scalar _ (TNumber s)); [|done]. intros rest Hr.
  pose proof (decode_number _ _ Hs Hr) as Hd. pose proof (good_number_chars _ Hs) as Hcs.
  cbn [text]. destruct s as [|c s]; [done|]. destruct Hcs as [Hc _]. rewrite app_String in *.
  exists c, (s +:+ rest). split; [done|]. split; [|done]. unfold scalar_start. rewrite Hc. apply orb_true_r.
Qed.

Lemma reads_bool b : reads (CBool b).
Proof.
  apply (reads_scalar _ (TBool b)); [|done]. intros rest _. destruct b; eexists _, _; (split; [reflexivity|]); (split; [done|]).
  - apply (literal_app "true").
  - apply (literal_app "false").
Qed.

Lemma reads_null : reads CNull.
Proof.
  apply (reads_scalar _ TNull); [|done]. intros rest _. eexists _, _; (split; [reflexivity|]); (split; [done|]).
  apply (literal_app "null").
Qed.

Definition opens (c : ascii) : bool := scalar_start c || (byte_of c =? 123) || (byte_of c =? 91) || (byte_of c =? 44).

Lemma More_opens c s st stack : opens c = true -> More (at_text (String c s) st stack) = true.
Proof.
  unfold opens, scalar_start, number_char, is_digit_byte, is_exp, between, More, at_text. intros H.
  cbn [d_buf skip_space]. repeat case_match; simplify_eq; lia.
Qed.

Lemma text_opens v : wf v -> exists c s, text v = String c s /\ opens c = true.
Proof.
  destruct 1 as [ | | |s Hs|b| ]; try (eexists _, _; split; [reflexivity|done]).
  - pose proof (good_number_chars _ Hs) as Hcs. destruct s as [|c s]; [done|]. destruct Hcs as [Hc _].
    exists c, s. split; [done|]. unfold opens, scalar_start. by rewrite Hc, !orb_true_r.
  - destruct b; eexists _, _; split; try reflexivity; done.
Qed.

Lemma joined_opens (first : bool) x l rest :
  (exists c s, x = String c s /\ opens c = true) ->
  exists c s, joined first (x :: l) +:+ rest = String c s /\ opens c = true.
Proof.
  intros (c & s & -> & Hc). destruct first; cbn [joined]; autorewrite with text; eexists _, _; (split; [reflexivity|]); done.
Qed.

Lemma joined_delimited l c rest :
  c = "]"%char \/ c = "}"%char -> delimited (joined false l +:+ String c rest).
Proof. destruct l; cbn [joined]; autorewrite with text; cbn; naive_solver. Qed.

(** The elements that are left, up to the closing bracket. *)
Lemma decode_elements_text es :
  Forall wf es -> Forall reads es ->
  forall fuel first stack rest, (S (String.length (joined first (map text es))) < fuel)%nat ->
  exists first', decode_elements fuel (at_text (joined first (map text es) +:+ String "]" rest) (array_at first) stack)
    = (Ret es, at_text (String "]" rest) (array_at first') stack).
Proof.
  induction 1 as [|e es Hw Hws IH]; intros Hr [|fuel] first stack rest Hf; try lia.
  { exists first. reflexivity. }
  apply Forall_cons in Hr as [He Hr]. cbn [map] in *.
  destruct (joined_opens first (text e) (map text es) (String "]" rest) (text_opens _ Hw)) as (c & s & Hcs & Hc).
  cbn [decode_elements]. unfold has_more. unfold mbind, stateful_bind. rewrite Hcs, More_opens by done. rewrite <- Hcs.
  cbn [joined] in *. rewrite !string_length_app in Hf. rewrite !string_app_assoc.
  assert (Hl : lead (array_at first) (if first then "" else ",")%string (if first then tokenArrayStart else tokenArrayValue))
    by (destruct first; by constructor).
  rewrite (He fuel _ _ _ stack _ Hl); [|by apply joined_delimited; left|lia].
  destruct (text_opens _ Hw) as (c' & s' & Ht & _). rewrite Ht in Hf. cbn in Hf.
  destruct (IH Hr fuel false stack rest) as [first' Hrest]; [lia|].
  replace (tokenValueEnd _) with (array_at false) by by destruct first. rewrite Hrest. by exists first'.
Qed.

Definition member (m : string * canon) : string := quoted m.1 +:+ String ":" (text m.2).

(** The members that are left, up to the closing brace. *)
Lemma decode_members_text ms :
  Forall utf8 ms.*1 -> Forall (fun m => reads m.2) ms -> NoDup ms.*1 ->
  forall fuel first seen stack rest, (S (String.length (joined first (map member ms))) < fuel)%nat ->
  (forall k, k ∈ ms.*1 -> k ∉ seen) ->
  exists first', decode_members fuel seen (at_text (joined first (map member ms) +:+ String "}" rest) (object_at first) stack)
    = (Ret ms, at_text (String "}" rest) (object_at first') stack).
Proof.
  induction ms as [|[k v] ms IH]; intros Hu Hr Hnd [|fuel] first seen stack rest Hf Hseen; try lia.
  { exists first. reflexivity. }
  apply Forall_cons in Hr as [Hv Hr]. apply NoDup_cons in Hnd as [Hk Hnd]. apply Forall_cons in Hu as [Huk Hu].
  cbn [map fst snd] in *.
  destruct (joined_opens first (member (k, v)) (map member ms) (String "}" rest)) as (c & s & Hcs & Hc).
  { eexists DQ, _. split; [reflexivity|done]. }
  cbn [decode_members]. unfold has_more. unfold mbind, stateful_bind. rewrite Hcs, More_opens by done. rewrite <- Hcs.
  cbn [joined] in *. unfold member at 1 in Hf. unfold member at 1. cbn [fst snd] in *.
  rewrite !string_length_app in Hf. cbn [String.length] in Hf. rewrite !string_app_assoc. unfold next_token.
  rewrite (Token_key first k stack _ Huk). rewrite bool_decide_eq_false_2 by (apply Hseen; left).
  rewrite app_String.
  epose proof (Hv fuel _ _ _ stack (joined false (map member ms) +:+ String "}" rest) lead_colon) as Hd.
  rewrite (app_String ":" ""), app_empty in Hd. rewrite Hd; [|by apply joined_delimited; right|lia].
  destruct (IH Hu Hr Hnd fuel false ({[k]} ∪ seen) stack rest) as [first' Hrest]; [lia| |].
  - intros k' Hk' [->%elem_of_singleton|H]%elem_of_union; [done|]. eapply Hseen; [|done]. by right.
  - change (tokenValueEnd tokenObjectValue) with (object_at false). rewrite Hrest. by exists first'.
Qed.

Lemma wf_reads v : wf v -> reads v.
Proof.
  induction v as [ms IH|es IH| | | |] using canon_induction; intros Hwf;
    inversion Hwf as [? Hnd Hu Hall|? Hall| | | |]; subst;
    auto using reads_string, reads_number, reads_bool, reads_null; intros [|fuel] st pre st' stack rest Hl Hr Hf; try lia.
  - assert (Hrs : Forall (fun m => reads m.2) ms) by (rewrite Forall_forall in *; auto).
    cbn [text] in *. change (map (fun m => _) ms) with (map member ms) in *. cbn [String.length] in Hf. rewrite string_length_app in Hf. cbn in Hf.
    destruct (decode_members_text ms Hu Hrs Hnd fuel true ∅ (st' :: stack) rest) as [first' Hm]; [lia|set_solver|].
    rewrite app_String, string_app_assoc, (app_String "}" ""), app_empty.
    cbn [decodeCanonicalValue]. unfold mbind, stateful_bind, next_token.
    rewrite (Token_open _ tokenObjectStart st pre st') by auto. change (byte_of "{" =? 123) with true.
    change (object_at true) with tokenObjectStart in Hm. cbv beta iota. rewrite Hm. by rewrite Token_close_object.
  - assert (Hrs : Forall reads es) by (rewrite Forall_forall in *; auto).
    cbn [text] in *. cbn [String.length] in Hf. rewrite string_length_app in Hf. cbn in Hf.
    destruct (decode_elements_text es Hall Hrs fuel true (st' :: stack) rest) as [first' Hm]; [lia|].
    rewrite app_String, string_app_assoc, (app_String "]" ""), app_empty.
    cbn [decodeCanonicalValue]. unfold mbind, stateful_bind, next_token.
    rewrite (Token_open _ tokenArrayStart st pre st') by auto. change (byte_of "[" =? 123) with false. change (byte_of "[" =? 91) with true.
    change (array_at true) with tokenArrayStart in Hm. cbv beta iota. rewrite Hm. by rewrite Token_close_array.
Qed.

(** ** The checks on the bytes of a written text *)

Lemma joined_utf8 first l : Forall utf8 l -> utf8 (joined first l).
Proof.
  intros H. revert first. induction H as [|x l Hx Hl IH]; intros first; [constructor|].
  cbn [joined]. apply utf8_app; [|by apply utf8_app]. destruct first; [constructor|]. by apply ValidString_utf8.
Qed.

Lemma quoted_utf8 s : utf8 s -> utf8 (quoted s).
Proof.
  intros Hs. apply utf8_ascii; [done|]. apply utf8_app; [by apply escape_text_utf8|]. by apply ValidString_utf8.
Qed.

Lemma text_utf8 v : wf v -> utf8 (text v).
Proof.
  induction v as [ms IH|es IH| | |b|] using canon_induction; intros Hwf;
    inversion Hwf as [? Hnd Hu Hall|? Hall|? Hu|? Hg|?|]; subst; cbn [text]; auto using quoted_utf8, good_number_chars, all_number_utf8.
  3: destruct b; by apply ValidString_utf8.
  3: by apply ValidString_utf8.
  all: apply utf8_ascii; [done|]; apply utf8_app; [|by apply ValidString_utf8]; apply joined_utf8, Forall_map.
  - rewrite Forall_map in Hu. rewrite Forall_forall in *. intros m Hm. apply utf8_app; [by apply quoted_utf8, Hu|].
    apply utf8_ascii; [done|auto].
  - rewrite Forall_forall in *. auto.
Qed.

Definition harmless (s : string) : Prop := forall rest, passes false rest -> passes false (s +:+ rest).

Lemma harmless_app s t : harmless s -> harmless t -> harmless (s +:+ t).
Proof. intros Hs Ht rest Hr. rewrite string_app_assoc. auto. Qed.

Lemma harmless_plain c s : byte_of c <> 34 -> harmless s -> harmless (String c s).
Proof. intros Hc Hs rest Hr. rewrite app_String. apply passes_plain; auto. Qed.

Lemma harmless_nil : harmless EmptyString.
Proof. by intros rest. Qed.

Lemma harmless_quoted s : harmless (quoted s).
Proof.
  intros rest Hr. unfold quoted. autorewrite with text. by apply passes_open, passes_escape_text, passes_close.
Qed.

Lemma joined_harmless first l : Forall harmless l -> harmless (joined first l).
Proof.
  intros H. revert first. induction H as [|x l Hx Hl IH]; intros first; [apply harmless_nil|].
  cbn [joined]. apply harmless_app; [|by apply harmless_app]. destruct first; [|apply harmless_plain; [done|]]; apply harmless_nil.
Qed.

Lemma text_harmless v : wf v -> harmless (text v).
Proof.
  induction v as [ms IH|es IH| | |b|] using canon_induction; intros Hwf;
    inversion Hwf as [? Hnd Hu Hall|? Hall|? Hu|? Hg|?|]; subst; cbn [text]; auto using harmless_quoted.
  3: intros rest Hr; by apply passes_number, Hr; apply good_number_chars.
  3: destruct b; repeat (apply harmless_plain; [done|]); apply harmless_nil.
  3: repeat (apply harmless_plain; [done|]); apply harmless_nil.
  all: apply harmless_plain; [done|]; apply harmless_app; [|apply harmless_plain; [done|]; apply harmless_nil];
    apply joined_harmless, Forall_map; rewrite Forall_forall in *; intros m Hm; auto.
  apply harmless_app; [apply harmless_quoted|]. apply harmless_plain; [done|auto].
Qed.

(** The decoder reads back what the printer writes. *)
Lemma tree_of_text v : wf v -> canonicalJSONValueTree (text v) = Ret v.
Proof.
  intros Hwf. unfold canonicalJSONValueTree. rewrite (proj2 (ValidString_utf8 _) (text_utf8 _ Hwf)). cbn [negb].
  unfold rejectUnpairedSurrogateEscapes. pose proof (text_harmless _ Hwf EmptyString (passes_nil false)) as Hp.
  rewrite string_app_nil in Hp. rewrite Hp.
  pose proof (wf_reads _ Hwf (tree_fuel (text v)) tokenTopValue "" tokenTopValue [] "") as Hd.
  rewrite app_empty, string_app_nil in Hd. unfold at_text in Hd. rewrite Hd; [done|by constructor|done|].
  unfold tree_fuel. lia.
Qed.

(** ** What the decoder accepts *)

Definition good_token (t : token) : Prop :=
  match t with
  | TString s => utf8 s
  | TNumber s => good_number s
  | _ => True
  end.

Lemma decode_scalar_good s t rest : decode_scalar s = Some (t, rest) -> good_token t.
Proof.
  destruct s as [|c s]; [done|]. unfold decode_scalar, literal. intros H.
  repeat case_match; simplify_eq; try done.
  - apply bind_Some in H as ([x r] & Hx & [= <- _]). by eapply unquote_utf8.
  - apply bind_Some in H as ([x r] & Hx & [= <- _]). by eapply scan_number_start_good.
Qed.

Lemma Token_good d t d' : Token d = (Tok t, d') -> good_token t.
Proof.
  unfold Token. generalize 3%nat as fuel. intros fuel. revert d. induction fuel as [|fuel IH]; intros d H; [done|].
  cbn [token_loop d_buf d_state d_stack] in H.
  repeat case_match; simplify_eq; try done; eauto; by eapply decode_scalar_good.
Qed.

Lemma next_token_Ret eof d t d' : next_token eof d = (Ret t, d') -> Token d = (Tok t, d').
Proof. unfold next_token. destruct (Token d) as [[] ?]; naive_solver. Qed.

Definition wf_members (seen : gset string) (ms : list (string * canon)) : Prop :=
  NoDup ms.*1 /\ Forall utf8 ms.*1 /\ Forall (fun m => wf m.2) ms /\ forall k, k ∈ ms.*1 -> k ∉ seen.

Lemma decode_wf fuel :
  (forall d v d', decodeCanonicalValue fuel d = (Ret v, d') -> wf v)
  /\ (forall seen d ms d', decode_members fuel seen d = (Ret ms, d') -> wf_members seen ms)
  /\ (forall d es d', decode_elements fuel d = (Ret es, d') -> Forall wf es).
Proof.
  induction fuel as [|fuel (IHv & IHm & IHe)]; [done|]. split_and!.
  - intros d v d'. cbn [decodeCanonicalValue].
    intros (t & d1 & Ht%next_token_Ret%Token_good & H)%stateful_bind_Ret. destruct t; cbn in H; simplify_eq; try by constructor.
    repeat case_match; [| |done]; apply stateful_bind_Ret in H as (l & d2 & Hl & (? & d3 & _ & [= <- _])%stateful_bind_Ret).
    + apply IHm in Hl as (? & ? & ? & _). by constructor.
    + apply IHe in Hl. by constructor.
  - intros seen d ms d'. cbn [decode_members]. intros (more & d0 & _ & H)%stateful_bind_Ret.
    destruct more; [|injection H as <- _; split_and!; [constructor..|by intros k ?%elem_of_nil]].
    apply stateful_bind_Ret in H as (t & d1 & Ht%next_token_Ret%Token_good & H). destruct t as [|k| | |]; try done.
    case_bool_decide as Hk; [done|].
    apply stateful_bind_Ret in H as (v & d2 & Hv%IHv & (l & d3 & Hl%IHm & [= <- _])%stateful_bind_Ret).
    destruct Hl as (Hnd & Hu & Hwf & Hseen). split_and!; [constructor| constructor| constructor|]; try done.
    + intros Hin. apply (Hseen _ Hin). set_solver.
    + intros k' [->|Hin]%elem_of_cons; [done|]. specialize (Hseen _ Hin). set_solver.
  - intros d es d'. cbn [decode_elements]. intros (more & d0 & _ & H)%stateful_bind_Ret.
    destruct more; [|injection H as <- _; constructor].
    apply stateful_bind_Ret in H as (v & d2 & Hv%IHv & (l & d3 & Hl%IHe & [= <- _])%stateful_bind_Ret). by constructor.
Qed.

Lemma tree_wf document v : canonicalJSONValueTree document = Ret v -> wf v.
Proof.
  unfold canonicalJSONValueTree. repeat case_match; try done. intros [= ->]. by eapply decode_wf.
Qed.

(** ** The decoder's loops end *)

Abbreviation len := String.length.

Lemma readHex_length s u rest : readHexCodeUnit s = Some (u, rest) -> (len rest < len s)%nat.
Proof.
  destruct s as [|a [|b [|c [|d s]]]]; try done. cbn. intros H. repeat case_match; simplify_option_eq; cbn; lia.
Qed.

Lemma unquote_length fuel s x rest : unquote fuel s = Some (x, rest) -> (len rest < len s)%nat.
Proof.
  revert s x. induction fuel as [|fuel IH]; intros [|c s] x; try done. cbn [unquote].
  destruct (byte_of c =? 34); [intros [= _ <-]; cbn; lia|].
  destruct (byte_of c =? 92).
  - destruct s as [|e s]; [done|]. destruct (byte_of e =? 117).
    + destruct (readHexCodeUnit s) as [[u s1]|] eqn:Hx; [|done]. apply readHex_length in Hx. cbn -[EncodeRune readHexCodeUnit].
      repeat case_match; simplify_eq; try done; intros (y & Hy%IH & _)%prepend_Some; cbn in *;
        repeat match goal with H : readHexCodeUnit _ = Some _ |- _ => apply readHex_length in H end; cbn in *; lia.
    + destruct (escape_of e) as [e'|]; [|done]. intros (y & Hy%IH & _)%prepend_Some. cbn. lia.
  - destruct (byte_of c <? 32); [done|]. destruct (byte_of c <? 128).
    + intros (y & Hy%IH & _)%prepend_Some. cbn. lia.
    + destruct (DecodeRuneInString (String c s)) as [[r n] s'] eqn:Hd. apply decode_length in Hd.
      intros (y & Hy%IH & _)%prepend_Some. cbn. lia.
Qed.

Lemma scan_number_length st s x rest : scan_number st s = Some (x, rest) -> (len rest <= len s)%nat.
Proof.
  revert st x. induction s as [|c s IH]; intros st x; cbn; repeat case_match; try done.
  - intros [= _ <-]. done.
  - intros (y & Hy%IH & _)%prepend_Some. lia.
  - intros [= _ <-]. done.
Qed.

Lemma substring_length n k s : (len (String.substring n k s) <= len s - n)%nat.
Proof.
  revert n k. induction s as [|c s IH]; intros [|n] [|k]; cbn; try lia.
  - specialize (IH 0%nat k). lia.
  - apply IH.
  - apply IH.
Qed.

Lemma decode_scalar_length s t rest : decode_scalar s = Some (t, rest) -> (len rest < len s)%nat.
Proof.
  destruct s as [|c s]; [done|]. unfold decode_scalar, literal. intros H.
  repeat case_match; simplify_eq; try done;
    try match goal with |- context [String.substring ?n ?k ?s] => pose proof (substring_length n k s); cbn [len] in *; lia end.
  - apply bind_Some in H as ([x r] & Hx%unquote_length & [= _ <-]). cbn. lia.
  - apply bind_Some in H as ([x r] & Hx & [= _ <-]). cbn in Hx.
    repeat case_match; try done; apply prepend_Some in Hx as (y & Hy%scan_number_length & _); cbn; lia.
Qed.

Lemma skip_space_length s : (len (skip_space s) <= len s)%nat.
Proof. induction s as [|c s IH]; cbn; [done|]. case_match; cbn in *; lia. Qed.

Lemma Token_length d t d' : Token d = (Tok t, d') -> (len (d_buf d') < len (d_buf d))%nat.
Proof.
  unfold Token. generalize 3%nat as fuel. intros fuel. revert d. induction fuel as [|fuel IH]; intros d H; [done|].
  pose proof (skip_space_length (d_buf d)) as Hs. cbn [token_loop d_buf d_state d_stack] in H.
  destruct (skip_space (d_buf d)) as [|c rest]; [done|]. cbn in Hs.
  repeat case_match; simplify_eq; cbn [d_buf]; try lia;
    repeat match goal with
    | H : token_loop _ _ = _ |- _ => apply IH in H; cbn in H
    | H : decode_scalar _ = _ |- _ => apply decode_scalar_length in H; cbn in H
    end; lia.
Qed.

(** [m] returns from [d], and leaves less than [n] bytes when it succeeds. *)
Definition bounded {A} (m : Dec A) (d : decoder) (n : nat) : Prop :=
  returns (m d).1 /\ forall a d', m d = (Ret a, d') -> (len (d_buf d') < n)%nat.

Lemma bounded_bind {A B} (m : Dec A) (f : A -> Dec B) d n k :
  bounded m d n -> (forall a d', (len (d_buf d') < n)%nat -> bounded (f a) d' k) -> bounded (m ≫= f) d k.
Proof.
  intros [Hr Hn] Hf. unfold bounded, mbind, stateful_bind.
  destruct (m d) as [[a|e| |] d'] eqn:Hm; cbn in *; try done. by apply Hf, (Hn a).
Qed.

Lemma bounded_token eof d n : (len (d_buf d) <= n)%nat -> bounded (next_token eof) d n.
Proof.
  intros Hn. unfold bounded. split.
  - unfold next_token. by destruct (Token d) as [[] ?].
  - intros t d' H%next_token_Ret%Token_length. lia.
Qed.

Lemma bounded_ret {A} (a : A) d n : (len (d_buf d) < n)%nat -> bounded (mret a) d n.
Proof. intros Hn. split; [done|]. intros a' d' [= _ <-]. done. Qed.

Lemma bounded_fail {A} e d n : bounded (fail e : Dec A) d n.
Proof. by split. Qed.

Lemma bounded_weaken {A} (m : Dec A) d n k : bounded m d n -> (n <= k)%nat -> bounded m d k.
Proof. intros [Hr Hn] Hk. split; [done|]. intros a d' H%Hn. lia. Qed.

Lemma decode_bounded fuel :
  (forall d, (2 * len (d_buf d) < fuel)%nat -> bounded (decodeCanonicalValue fuel) d (len (d_buf d)))
  /\ (forall seen d, (S (2 * len (d_buf d)) < fuel)%nat -> bounded (decode_members fuel seen) d (S (len (d_buf d))))
  /\ (forall d, (S (2 * len (d_buf d)) < fuel)%nat -> bounded (decode_elements fuel) d (S (len (d_buf d)))).
Proof.
  induction fuel as [|fuel (IHv & IHm & IHe)]; [split_and!; lia|]. split_and!.
  - intros d Hd. cbn [decodeCanonicalValue]. eapply bounded_bind; [by apply bounded_token|].
    intros t d1 H1. destruct t; try (split; [done|]; intros ? ? [= _ <-]; done).
    repeat case_match; try apply bounded_fail.
    + eapply bounded_bind; [apply IHm; lia|]. intros ms d2 H2.
      eapply bounded_bind; [by apply bounded_token, Nat.lt_succ_r|]. intros _ d3 H3. apply bounded_ret. lia.
    + eapply bounded_bind; [apply IHe; lia|]. intros es d2 H2.
      eapply bounded_bind; [by apply bounded_token, Nat.lt_succ_r|]. intros _ d3 H3. apply bounded_ret. lia.
  - intros seen d Hd. cbn [decode_members]. eapply (bounded_bind _ _ _ (S (len (d_buf d)))).
    { split; [done|]. intros ? ? [= _ <-]. lia. }
    intros [] d0 H0; [|by apply bounded_ret]. eapply bounded_bind; [by apply bounded_token, Nat.lt_succ_r|].
    intros t d1 H1. destruct t as [|k| | |]; try apply bounded_fail. case_match; [apply bounded_fail|].
    eapply bounded_bind; [apply IHv; lia|]. intros v d2 H2. eapply bounded_bind; [apply IHm; lia|].
    intros ms d3 H3. apply bounded_ret. lia.
  - intros d Hd. cbn [decode_elements]. eapply (bounded_bind _ _ _ (S (len (d_buf d)))).
    { split; [done|]. intros ? ? [= _ <-]. lia. }
    intros [] d0 H0; [|by apply bounded_ret]. eapply bounded_bind; [apply IHv; lia|].
    intros v d2 H2. eapply bounded_bind; [apply IHe; lia|]. intros es d3 H3. apply bounded_ret. lia.
Qed.

Lemma tree_returns document : returns (canonicalJSONValueTree document).
Proof.
  unfold canonicalJSONValueTree. case_match; [done|]. case_match; [done|].
  destruct (decode_bounded (tree_fuel document)) as (Hv & _).
  specialize (Hv {| d_buf := document; d_state := tokenTopValue; d_stack := [] |}) as [Hv _]; [unfold tree_fuel; cbn; lia|].
  destruct (decodeCanonicalValue _ _) as [[v|e| |] d]; try done. by destruct (Token d) as [[] ?].
Qed.

(** ** The payload *)

Lemma payload_text document v :
  canonicalJSONValueTree document = Ret v -> canonicalJSONPayload document = Ret (text (norm v)).
Proof. intros Hv. unfold canonicalJSONPayload. rewrite Hv. by apply write_text, (tree_wf document). Qed.

Lemma payload_Ret document p :
  canonicalJSONPayload document = Ret p ->
  exists v, canonicalJSONValueTree document = Ret v /\ wf v /\ p = text (norm v).
Proof.
  intros (v & Hv & Hp)%bind_Ret. exists v. pose proof (tree_wf _ _ Hv) as Hwf.
  rewrite (write_text _ Hwf) in Hp. by injection Hp as <-.
Qed.

Lemma map_on_value_norm ms :
  Forall (fun m => norm (norm m.2) = norm m.2) ms -> map (on_value norm) (map (on_value norm) ms) = map (on_value norm) ms.
Proof. induction 1 as [|m ms Hm _ IH]; [done|]. cbn. f_equal; [|done]. unfold on_value. cbn. by rewrite Hm. Qed.

Lemma norm_norm v : wf v -> norm (norm v) = norm v.
Proof.
  induction v as [ms IH|es IH| | | |] using canon_induction; intros Hwf; inversion Hwf as [? Hnd _ Hall|? Hall| | | |]; subst; try done.
  - rewrite !norm_object. f_equal. apply merge_sort_perm.
    + by rewrite fst_on_value, merge_sort_Permutation, fst_on_value.
    + rewrite merge_sort_Permutation, map_on_value_norm; [done|]. rewrite Forall_forall in *. auto.
  - cbn. f_equal. rewrite map_map. apply map_ext_Forall. rewrite List.Forall_forall. intros e He%list_elem_of_In.
    rewrite Forall_forall in IH, Hall. auto.
Qed.

(** Two texts of runes printed alike are the same document. *)
Lemma text_inj v w : wf v -> wf w -> text v = text w -> v = w.
Proof. intros Hv%tree_of_text Hw%tree_of_text E. rewrite E, Hw in Hv. by injection Hv. Qed.

(** C29: A document that is decoded has a payload, and the payload decodes to the
    same document with the members of every object sorted by key; a payload is
    its own payload. *)
Theorem payload_normal_form document v :
  canonicalJSONValueTree document = Ret v ->
  exists payload, canonicalJSONPayload document = Ret payload
    /\ canonicalJSONValueTree payload = Ret (norm v)
    /\ canonicalJSONPayload payload = Ret payload.
Proof.
  intros Hv. pose proof (tree_wf _ _ Hv) as Hwf. pose proof (tree_of_text _ (wf_norm _ Hwf)) as Ht.
  exists (text (norm v)). split; [by apply payload_text|]. split; [done|].
  rewrite (payload_text _ _ Ht). by rewrite norm_norm.
Qed.

(** C15: Two documents have the same payload exactly if they are the same document
    up to the order of the members of their objects. *)
Theorem payload_identifies document other v w :
  canonicalJSONValueTree document = Ret v -> canonicalJSONValueTree other = Ret w ->
  canonicalJSONPayload document = canonicalJSONPayload other <-> same v w.
Proof.
  intros Hv Hw. pose proof (tree_wf _ _ Hv) as Hwv. pose proof (tree_wf _ _ Hw) as Hww.
  rewrite (payload_text _ _ Hv), (payload_text _ _ Hw). split.
  - intros [= E]. apply norm_same, text_inj; auto using wf_norm.
  - intros Hs. by rewrite (same_norm _ _ Hwv Hs).
Qed.

(** C33: Every document is answered, with its payload or with the error of the
    decoder: writing never fails, and the recursion ends. *)
Theorem payload_returns document :
  returns (canonicalJSONPayload document)
  /\ forall e, canonicalJSONPayload document = Fail e <-> canonicalJSONValueTree document = Fail e.
Proof.
  pose proof (tree_returns document) as Hr. unfold canonicalJSONPayload.
  destruct (canonicalJSONValueTree document) as [v|e| |] eqn:Hv; [| |done..]; cycle 1.
  { split; [done|]. intros e'. by split; intros [= ->]. }
  change (mbind _ (Ret v)) with (writeCanonicalValue v). rewrite (write_text _ (tree_wf _ _ Hv)).
  split; [done|]. intros e. by split.
Qed.

(** ** The framing *)

Fixpoint no_LF (s : string) : Prop :=
  match s with
  | EmptyString => True
  | String c s => c <> LF /\ no_LF s
  end.

Lemma pretty_N_go_no_LF x s : no_LF s -> no_LF (pretty_N_go x s).
Proof.
  revert s. induction (N.lt_wf_0 x) as [x _ IH]. intros s Hs.
  assert (x = 0 \/ 0 < x)%N as [->|Hx] by lia; [by rewrite pretty_N_go_0|].
  rewrite pretty_N_go_step by done. apply IH; [by apply N.div_lt|]. split; [|done].
  unfold pretty_N_char. by repeat case_match.
Qed.

Lemma pretty_no_LF (n : nat) : no_LF (pretty n).
Proof. unfold pretty, pretty_nat, pretty, pretty_N. case_decide; [done|]. by apply pretty_N_go_no_LF. Qed.

Lemma split_LF a b x y : no_LF a -> no_LF b -> a +:+ String LF x = b +:+ String LF y -> a = b /\ x = y.
Proof.
  revert b. induction a as [|c a IH]; intros [|d b] Ha Hb; rewrite ?app_String, ?app_empty.
  - intros [= ->]. done.
  - intros [= <- _]. destruct Hb as [Hb _]. done.
  - intros [= -> _]. destruct Ha as [Ha _]. done.
  - intros [= -> E]. destruct (IH b (proj2 Ha) (proj2 Hb) E) as [-> ->]. done.
Qed.

Lemma split_length p q x y : len p = len q -> p +:+ x = q +:+ y -> p = q /\ x = y.
Proof.
  revert q. induction p as [|c p IH]; intros [|d q]; cbn; intros [=]; [done|].
  rewrite !app_String. intros [= -> E]. destruct (IH q) as [-> ->]; done.
Qed.

Lemma frame_prefix_free p q x y : frame p +:+ x = frame q +:+ y -> p = q /\ x = y.
Proof.
  unfold frame. autorewrite with text. intros [_ E]%split_length; [|done]. injection E as E.
  apply split_LF in E as [Hl E]; [|apply pretty_no_LF..]. apply (inj pretty) in Hl. by apply split_length.
Qed.

(** C34: The framed serialisations are prefix-free, and tell their payloads apart:
    whatever follows two of them, the texts are equal only if the payloads and
    what follows are. *)
Theorem serialization_prefix_free document other s t x y :
  canonicalJSONSerialization document = Ret s -> canonicalJSONSerialization other = Ret t ->
  s +:+ x = t +:+ y ->
  s = t /\ x = y /\ canonicalJSONPayload document = canonicalJSONPayload other.
Proof.
  intros (p & Hp & [= <-])%bind_Ret (q & Hq & [= <-])%bind_Ret [-> ->]%frame_prefix_free.
  by rewrite Hp, Hq.
Qed.

(** ** A document *)

Module Sample.
(** The text with a double quote for every apostrophe. *)
Fixpoint quotes (s : string) : string :=
  match s with
  | EmptyString => EmptyString
  | String c s => String (if byte_of c =? 39 then DQ else c) (quotes s)
  end.

Definition document : string := quotes " { 'b' : [1, 2.50e3,-0 , true,null ] , 'a\u0041\n' : {} } ".
Definition shuffled : string := quotes "{'aA\u000a':{},'b':[1,2.50e3,-0,true,null]}".

Definition key : string := String "a" (String "A" (String LF "")).
Definition numbers : canon := CArray [CNumber "1"; CNumber "2.50e3"; CNumber "-0"; CBool true; CNull].
Definition tree : canon := CObject [("b"%string, numbers); (key, CObject [])].
Definition tree' : canon := CObject [(key, CObject []); ("b"%string, numbers)].

Lemma payload_normal_form_witness :
  exists payload, canonicalJSONPayload document = Ret payload
    /\ canonicalJSONValueTree payload = Ret tree'
    /\ canonicalJSONPayload payload = Ret payload.
Proof. apply (payload_normal_form document tree). vm_compute. reflexivity. Defined.

Lemma payload_identifies_witness :
  canonicalJSONPayload document = canonicalJSONPayload shuffled <-> same tree tree'.
Proof. apply payload_identifies; vm_compute; reflexivity. Defined.

Lemma serialization_prefix_free_witness :
  exists s, canonicalJSONSerialization document = Ret s /\ canonicalJSONSerialization shuffled = Ret s
            /\ canonicalJSONPayload document = canonicalJSONPayload shuffled.
Proof.
  destruct (canonicalJSONSerialization document) as [s|e| |] eqn:Hs; [|vm_compute in Hs; discriminate Hs..].
  assert (Ht : canonicalJSONSerialization shuffled = Ret s) by (rewrite <- Hs; vm_compute; reflexivity).
  exists s. split; [reflexivity|]. split; [exact Ht|].
  exact (proj2 (proj2 (serialization_prefix_free document shuffled s s "" "" Hs Ht eq_refl))).
Defined.

(** The order of members is the only difference the payload forgets: numbers
    keep their spelling, and rejected documents have no payload. *)
Example payloads_differ :
  canonicalJSONPayload "[1]" <> canonicalJSONPayload "[1.0]"
  /\ canonicalJSONPayload (quotes "{'a':1,'\u0061':2}") = Fail (DuplicateKey "a")
  /\ canonicalJSONPayload (quotes "'\ud800'") = Fail (UnpairedSurrogate 55296)
  /\ canonicalJSONPayload "[1,]" = Fail Syntax
  /\ canonicalJSONPayload "[[[[" = Fail Syntax.
Proof. vm_compute. split_and!; done. Qed.
End Sample.
