(* ===== verification/Lock.v ===== *)
(** * Locks (atc/db/lock/lock.go)

    The identities of locks, the registry of the locks a process holds, the
    advisory locks of Postgres, and [Acquire] and [Release] as the atomic steps
    that processes and their goroutines interleave.

    A process (a node) has one lock factory per group of lock types, each with a
    database session of its own.  A Postgres session holds an advisory lock as
    many times as it took it and did not release it; the locks of a session are
    dropped when its connection breaks, and the factory goes on with a new
    session. *)
From stdpp Require Import base gmap sets list strings pretty.
From Stdlib Require Import ZArith Ascii Lia.
From S2P Require Import Prelude GoText.

Open Scope Z_scope.

(** ** Lock identities *)

Definition LockTypeResourceConfigChecking : Z := 0.
Definition LockTypeBuildTracking : Z := 1.
Definition LockTypeBatch : Z := 2.
Definition LockTypeVolumeCreating : Z := 3.
Definition LockTypeContainerCreating : Z := 4.
Definition LockTypeDatabaseMigration : Z := 5.
Definition LockTypeResourceScanning : Z := 6.
Definition LockTypeJobScheduling : Z := 7.
Definition LockTypeInMemoryCheckBuildTracking : Z := 8.
Definition LockTypeResourceGet : Z := 9.
Definition LockTypeVolumeStreaming : Z := 10.

Definition factoryDefault : nat := 0.
Definition factoryVolumeCreating : nat := 1.
Definition factoryResourceConfigChecking : nat := 2.
Definition factoryInMemoryCheckBuildTracking : nat := 3.
Definition factoryBuildTracking : nat := 4.
Definition factoryJobScheduling : nat := 5.
Definition FactoryCount : nat := 6.

Definition mapLockTypeToFactory (lockType : Z) : nat :=
  if lockType =? LockTypeVolumeCreating then factoryVolumeCreating
  else if lockType =? LockTypeResourceConfigChecking then factoryResourceConfigChecking
  else if lockType =? LockTypeInMemoryCheckBuildTracking then factoryInMemoryCheckBuildTracking
  else if lockType =? LockTypeBuildTracking then factoryBuildTracking
  else if lockType =? LockTypeJobScheduling then factoryJobScheduling
  else factoryDefault.

Abbreviation LockID := (list Z).

Definition MaxInt32 : Z := 2 ^ 31 - 1.

(** [int32(x)] of an unsigned 32-bit integer. *)
Definition int32_of (x : Z) : Z := if x <? 2 ^ 31 then x else x - 2 ^ 32.

(** [crc32.ChecksumIEEE], one bit at a time: the table of the polynomial
    0xEDB88320 holds what eight steps give. *)
Definition crc_bit (crc : Z) : Z :=
  if Z.odd crc then Z.lxor (Z.shiftr crc 1) 3988292384 else Z.shiftr crc 1.
Definition crc_byte (crc : Z) (b : Z) : Z := Nat.iter 8 crc_bit (Z.lxor crc b).
Fixpoint crc_update (crc : Z) (s : string) : Z :=
  match s with
  | EmptyString => crc
  | String c s => crc_update (crc_byte crc (byte_of c)) s
  end.
Definition ChecksumIEEE (s : string) : Z := Z.lxor (crc_update 4294967295 s) 4294967295.

Definition lockIDFromString (taskName : string) : Z := int32_of (ChecksumIEEE taskName).

(** Go's [%] truncates. *)
Definition NewBuildTrackingLockID (buildID : Z) : LockID := [LockTypeBuildTracking; Z.rem buildID MaxInt32].
Definition NewResourceConfigCheckingLockID (resourceConfigID : Z) : LockID :=
  [LockTypeResourceConfigChecking; resourceConfigID].
Definition NewTaskLockID (taskName : string) : LockID := [LockTypeBatch; lockIDFromString taskName].
Definition NewVolumeCreatingLockID (volumeID : Z) : LockID := [LockTypeVolumeCreating; Z.rem volumeID MaxInt32].
Definition NewDatabaseMigrationLockID : LockID := [LockTypeDatabaseMigration].
Definition NewResourceScanningLockID : LockID := [LockTypeResourceScanning].
Definition NewJobSchedulingLockID (jobID : Z) : LockID := [LockTypeJobScheduling; jobID].
Definition NewInMemoryCheckBuildTrackingLockID (checkableType : string) (checkableId : Z) : LockID :=
  [LockTypeInMemoryCheckBuildTracking; lockIDFromString (checkableType +:+ "-" +:+ pretty checkableId)].
Definition NewVolumeStreamingLockID (resourceCacheID : Z) (worker : string) : LockID :=
  [LockTypeVolumeStreaming; lockIDFromString (pretty resourceCacheID +:+ "-" +:+ worker)].
Definition NewResourceGetLockID (name : string) : LockID := [LockTypeResourceGet; lockIDFromString name].

(** [strings.Join] of the decimal numbers with [+]. *)
Definition toKey (l : LockID) : string := String.concat "+" (pretty <$> l).

(** ** The registry of a factory *)

Abbreviation lockRepo := (gset string).
Definition IsRegistered (id : LockID) (locks : lockRepo) : bool := bool_decide (toKey id ∈ locks).
Definition Register (id : LockID) (locks : lockRepo) : lockRepo := {[ toKey id ]} ∪ locks.
Definition Unregister (id : LockID) (locks : lockRepo) : lockRepo := locks ∖ {[ toKey id ]}.

(** ** Advisory locks *)

(** A factory is its node and its index; a session is a factory and the number of
    connections it lost before. *)
Abbreviation factory := (nat * nat)%type.
Abbreviation session := (factory * nat)%type.

(** The session that holds a lock, and how many times it does beyond the first. *)
Abbreviation advisory := (gmap LockID (session * nat)).

(** Two arguments are [int4], one is a [bigint]. *)
Definition pg_in_range (id : LockID) : bool :=
  match id with
  | [x] => (- 2 ^ 63 <=? x) && (x <? 2 ^ 63)
  | [x; y] => (- 2 ^ 31 <=? x) && (x <? 2 ^ 31) && (- 2 ^ 31 <=? y) && (y <? 2 ^ 31)
  | _ => false
  end.

Definition pg_try_advisory_lock (s : session) (id : LockID) (pg : advisory) : bool * advisory :=
  match pg !! id with
  | None => (true, <[ id := (s, O) ]> pg)
  | Some (holder, n) => if bool_decide (holder = s) then (true, <[ id := (s, S n) ]> pg) else (false, pg)
  end.

Definition pg_advisory_unlock (s : session) (id : LockID) (pg : advisory) : bool * advisory :=
  match pg !! id with
  | Some (holder, n) =>
      if bool_decide (holder = s)
      then (true, match n with O => delete id pg | S n => <[ id := (s, n) ]> pg end)
      else (false, pg)
  | None => (false, pg)
  end.

(** The server drops what a session held. *)
Definition drop_session (s : session) (pg : advisory) : advisory := filter (fun p => p.2.1 <> s) pg.

(** ** Processes *)

(** Where a goroutine is: outside, in [Acquire] before each of its calls, the
    holder of a lock, or in [Release] before each of its calls. *)
Inductive pc :=
| Idle
| Checking (id : LockID)
| Querying (id : LockID)
| Registering (id : LockID)
| Holding (id : LockID)
| Releasing (id : LockID)
| Unregistering (id : LockID) (released : bool).

(** [st_lost] are the goroutines whose lock was dropped with a connection while
    they had it. *)
Record lock_state := {
  st_pg : advisory;
  st_generation : gmap factory nat;
  st_locks : gmap factory lockRepo;
  st_mutex : gmap factory nat;
  st_pc : gmap nat pc;
  st_lost : gset nat }.

Definition initial : lock_state :=
  {| st_pg := ∅; st_generation := ∅; st_locks := ∅; st_mutex := ∅; st_pc := ∅; st_lost := ∅ |}.

Definition pc_of (st : lock_state) (c : nat) : pc := default Idle (st_pc st !! c).
Definition locks_of (st : lock_state) (f : factory) : lockRepo := default ∅ (st_locks st !! f).
Definition session_of (st : lock_state) (f : factory) : session := (f, default O (st_generation st !! f)).

Section System.
(** The node of a goroutine. *)
Context (node_of : nat -> nat).

(** [f[mapLockTypeToFactory(id[0])]]: an empty identity panics. *)
Definition factory_of (c : nat) (id : LockID) : option factory :=
  match id with
  | lockType :: _ => Some (node_of c, mapLockTypeToFactory lockType)
  | [] => None
  end.

Definition at_pc (c : nat) (p : pc) (st : lock_state) : lock_state :=
  {| st_pg := st_pg st; st_generation := st_generation st; st_locks := st_locks st; st_mutex := st_mutex st;
     st_pc := <[ c := p ]> (st_pc st); st_lost := st_lost st |}.
Definition with_pg (pg : advisory) (st : lock_state) : lock_state :=
  {| st_pg := pg; st_generation := st_generation st; st_locks := st_locks st; st_mutex := st_mutex st;
     st_pc := st_pc st; st_lost := st_lost st |}.
Definition with_locks (f : factory) (locks : lockRepo) (st : lock_state) : lock_state :=
  {| st_pg := st_pg st; st_generation := st_generation st; st_locks := <[ f := locks ]> (st_locks st);
     st_mutex := st_mutex st; st_pc := st_pc st; st_lost := st_lost st |}.
Definition with_mutex (mutex : gmap factory nat) (st : lock_state) : lock_state :=
  {| st_pg := st_pg st; st_generation := st_generation st; st_locks := st_locks st; st_mutex := mutex;
     st_pc := st_pc st; st_lost := st_lost st |}.
Definition found (c : nat) (st : lock_state) : lock_state :=
  {| st_pg := st_pg st; st_generation := st_generation st; st_locks := st_locks st; st_mutex := st_mutex st;
     st_pc := st_pc st; st_lost := st_lost st ∖ {[ c ]} |}.

(** A goroutine returns from [Acquire] and unlocks the mutex. *)
Definition leave (c : nat) (f : factory) (p : pc) (st : lock_state) : lock_state :=
  with_mutex (delete f (st_mutex st)) (at_pc c p st).

(** What may happen: a goroutine enters [Acquire] (the mutex is free), or makes
    the next call of [Acquire] or [Release], which fails in the database when
    [fails] says so, before or after the server did what was asked; a connection
    breaks. *)
Inductive failure := Works | FailsBefore | FailsAfter.
Inductive event :=
| Enter (c : nat) (id : LockID)
| Next (c : nat) (fails : failure)
| Free (c : nat)
| Breaks (f : factory).

Definition acquire_db (c : nat) (f : factory) (id : LockID) (fails : failure) (st : lock_state) : lock_state :=
  let '(acquired, pg) := pg_try_advisory_lock (session_of st f) id (st_pg st) in
  if negb (pg_in_range id) then leave c f Idle st
  else match fails with
  | Works => if acquired then with_pg pg (at_pc c (Registering id) st) else leave c f Idle st
  | FailsBefore => leave c f Idle st
  | FailsAfter => with_pg pg (leave c f Idle st)
  end.

Definition release_db (c : nat) (f : factory) (id : LockID) (fails : failure) (st : lock_state) : lock_state :=
  let '(released, pg) := pg_advisory_unlock (session_of st f) id (st_pg st) in
  match fails with
  | Works => with_pg pg (at_pc c (Unregistering id released) st)
  | FailsBefore => at_pc c (Unregistering id false) st
  | FailsAfter => with_pg pg (at_pc c (Unregistering id false) st)
  end.

(** The goroutines that have a lock of the factory. *)
Definition has_lock_of (f : factory) (p : nat * pc) : bool :=
  match p.2 with
  | Registering id | Holding id | Releasing id => bool_decide (factory_of p.1 id = Some f)
  | _ => false
  end.

Definition broken (f : factory) (st : lock_state) : lock_state :=
  {| st_pg := drop_session (session_of st f) (st_pg st);
     st_generation := <[ f := S (session_of st f).2 ]> (st_generation st);
     st_locks := st_locks st; st_mutex := st_mutex st; st_pc := st_pc st;
     st_lost := list_to_set (fst <$> filter (fun p => has_lock_of f p = true) (map_to_list (st_pc st))) ∪ st_lost st |}.

Definition happens (e : event) (st : lock_state) : option lock_state :=
  match e with
  | Enter c id =>
      match pc_of st c, factory_of c id with
      | Idle, Some f =>
          match st_mutex st !! f with
          | None => Some (with_mutex (<[ f := c ]> (st_mutex st)) (at_pc c (Checking id) st))
          | Some _ => None
          end
      | _, _ => None
      end
  | Next c fails =>
      match pc_of st c with
      | Checking id =>
          f ← factory_of c id;
          Some (if IsRegistered id (locks_of st f) then leave c f Idle st else at_pc c (Querying id) st)
      | Querying id => f ← factory_of c id; Some (acquire_db c f id fails st)
      | Registering id =>
          f ← factory_of c id;
          Some (leave c f (Holding id) (with_locks f (Register id (locks_of st f)) st))
      | Releasing id => f ← factory_of c id; Some (release_db c f id fails st)
      | Unregistering id _ =>
          f ← factory_of c id;
          Some (found c (at_pc c Idle (with_locks f (Unregister id (locks_of st f)) st)))
      | Idle | Holding _ => None
      end
  | Free c => match pc_of st c with Holding id => Some (at_pc c (Releasing id) st) | _ => None end
  | Breaks f => Some (broken f st)
  end.

Inductive reachable : lock_state -> Prop :=
| reachable_initial : reachable initial
| reachable_step st e st' : reachable st -> happens e st = Some st' -> reachable st'.

Fixpoint trace (es : list event) (st : lock_state) : option lock_state :=
  match es with
  | [] => Some st
  | e :: es => st' ← happens e st; trace es st'
  end.
End System.
