(* ===== verification/LockSpec.v ===== *)
(** * Locks exclude each other

    The invariant of the interleaved calls of [Acquire] and [Release] over any
    number of processes, and what follows from it: two goroutines that hold the
    same lock and did not lose it are the same, and a holder that did not lose
    its lock releases it. *)
From stdpp Require Import base gmap sets list strings pretty.
From Stdlib Require Import ZArith Ascii Lia.
From S2P Require Import Prelude GoText Lock.

Open Scope Z_scope.

(** ** Keys *)

(** A text without [+]. *)
Fixpoint plusless (s : string) : bool :=
  match s with
  | EmptyString => true
  | String c s => negb (Ascii.eqb c "+") && plusless s
  end.

Lemma plusless_app s t : plusless (s +:+ t) = plusless s && plusless t.
Proof.
  induction s as [|c s IH]; [done|]. change (String c s +:+ t) with (String c (s +:+ t)). cbn. rewrite IH. apply andb_assoc.
Qed.

Lemma pretty_N_plusless x s : plusless s = true -> plusless (pretty_N_go x s) = true.
Proof.
  revert s. induction (N.lt_wf_0 x) as [x _ IH]; intros s Hs. destruct (decide (0 < x)%N) as [Hx|Hx].
  - rewrite pretty_N_go_step by done. apply IH; [by apply N.div_lt|]. cbn. rewrite Hs, andb_true_r.
    unfold pretty_N_char. repeat case_match; done.
  - replace x with 0%N by lia. by rewrite pretty_N_go_0.
Qed.

Lemma pretty_Z_plusless (x : Z) : plusless (pretty x) = true.
Proof.
  assert (HN : forall n : N, plusless (pretty n) = true).
  { intros n. unfold pretty, pretty_N. case_decide; [done|]. by apply pretty_N_plusless. }
  destruct x; [done|apply HN|]. change (plusless ("-" +:+ pretty (Npos p)) = true). rewrite plusless_app. apply HN.
Qed.

Lemma plusless_split s s' t t' :
  plusless s = true -> plusless s' = true -> s +:+ String "+" t = s' +:+ String "+" t' -> s = s' /\ t = t'.
Proof.
  revert s'. induction s as [|c s IH]; intros [|c' s'] Hs Hs' Heq; cbn in Hs, Hs'.
  - by injection Heq.
  - change (String "+" t = String c' (s' +:+ String "+" t')) in Heq. injection Heq as <- _. done.
  - change (String c (s +:+ String "+" t) = String "+" t') in Heq. injection Heq as -> _. done.
  - change (String c (s +:+ String "+" t) = String c' (s' +:+ String "+" t')) in Heq. injection Heq as <- Heq.
    apply andb_true_iff in Hs as [_ Hs]. apply andb_true_iff in Hs' as [_ Hs']. by destruct (IH s' Hs Hs' Heq) as [-> ->].
Qed.

Lemma plus_not_plusless s t : plusless (s +:+ String "+" t) = false.
Proof. rewrite plusless_app. cbn. apply andb_false_r. Qed.

(** Two identities with the same key are the same. *)
Lemma toKey_inj (l l' : list Z) : l <> [] -> l' <> [] -> toKey l = toKey l' -> l = l'.
Proof.
  unfold toKey. revert l'. induction l as [|x l IH]; intros l' Hl Hl' Heq; [done|]. destruct l' as [|x' l']; [done|].
  destruct l as [|y l], l' as [|y' l'].
  - cbn in Heq. by rewrite (inj pretty _ _ Heq).
  - exfalso. change (pretty x = pretty x' +:+ String "+" (String.concat "+" (pretty <$> y' :: l'))) in Heq.
    pose proof (pretty_Z_plusless x) as Hp. by rewrite Heq, plus_not_plusless in Hp.
  - exfalso. change (pretty x +:+ String "+" (String.concat "+" (pretty <$> y :: l)) = pretty x') in Heq.
    pose proof (pretty_Z_plusless x') as Hp. by rewrite <- Heq, plus_not_plusless in Hp.
  - change (pretty x +:+ String "+" (String.concat "+" (pretty <$> y :: l)) =
            pretty x' +:+ String "+" (String.concat "+" (pretty <$> y' :: l'))) in Heq.
    apply plusless_split in Heq as [Hx Htl]; [|apply pretty_Z_plusless..].
    rewrite (inj pretty _ _ Hx). f_equal. by apply IH.
Qed.

(** ** The invariant *)

(** The identity a goroutine works on: inside the mutex, before its lock is
    registered, while it is registered, while it has the advisory lock. *)
Definition in_acquire (p : pc) : option LockID :=
  match p with Checking id | Querying id | Registering id => Some id | _ => None end.
Definition unregistered (p : pc) : option LockID :=
  match p with Querying id | Registering id => Some id | _ => None end.
Definition registered (p : pc) : option LockID :=
  match p with Holding id | Releasing id | Unregistering id _ => Some id | _ => None end.
Definition locked (p : pc) : option LockID :=
  match p with Registering id | Holding id | Releasing id => Some id | _ => None end.

Section Invariant.
Context (node_of : nat -> nat).
#[local] Abbreviation factory_of := (Lock.factory_of node_of).

Record lock_inv (st : lock_state) : Prop := {
  inv_mutex c id : in_acquire (pc_of st c) = Some id ->
    exists f, factory_of c id = Some f /\ st_mutex st !! f = Some c;
  inv_free c id f : unregistered (pc_of st c) = Some id -> factory_of c id = Some f -> toKey id ∉ locks_of st f;
  inv_registered c id : registered (pc_of st c) = Some id ->
    exists f, factory_of c id = Some f /\ toKey id ∈ locks_of st f;
  inv_unique c c' id f : registered (pc_of st c) = Some id -> registered (pc_of st c') = Some id ->
    factory_of c id = Some f -> factory_of c' id = Some f -> c = c';
  inv_pg c id f : locked (pc_of st c) = Some id -> factory_of c id = Some f -> c ∉ st_lost st ->
    exists n, st_pg st !! id = Some (session_of st f, n) }.

Lemma pc_of_at c p st c' : pc_of (at_pc c p st) c' = if decide (c' = c) then p else pc_of st c'.
Proof.
  unfold pc_of, at_pc. cbn. case_decide as Hc; [subst; by rewrite lookup_insert_eq|by rewrite lookup_insert_ne].
Qed.

Lemma locks_of_with f locks st f' : locks_of (with_locks f locks st) f' = if decide (f' = f) then locks else locks_of st f'.
Proof.
  unfold locks_of, with_locks. cbn. case_decide as Hc; [subst; by rewrite lookup_insert_eq|by rewrite lookup_insert_ne].
Qed.

(** The fields each change leaves alone. *)
Lemma pc_of_mutex m st c : pc_of (with_mutex m st) c = pc_of st c.
Proof. done. Qed.
Lemma pc_of_pg pg st c : pc_of (with_pg pg st) c = pc_of st c.
Proof. done. Qed.
Lemma pc_of_locks f locks st c : pc_of (with_locks f locks st) c = pc_of st c.
Proof. done. Qed.
Lemma pc_of_found c st c' : pc_of (found c st) c' = pc_of st c'.
Proof. done. Qed.
Lemma locks_of_mutex m st f : locks_of (with_mutex m st) f = locks_of st f.
Proof. done. Qed.
Lemma locks_of_pg pg st f : locks_of (with_pg pg st) f = locks_of st f.
Proof. done. Qed.
Lemma locks_of_at c p st f : locks_of (at_pc c p st) f = locks_of st f.
Proof. done. Qed.
Lemma locks_of_found c st f : locks_of (found c st) f = locks_of st f.
Proof. done. Qed.
#[local] Create Rewrite HintDb lock.
#[local] Hint Rewrite pc_of_mutex pc_of_pg pc_of_locks pc_of_found locks_of_mutex locks_of_pg locks_of_at locks_of_found
  pc_of_at locks_of_with : lock.

(** One clause of the invariant, for one goroutine after a change. *)
Ltac clause := intros *; autorewrite with lock; cbn [st_mutex st_pg st_lost with_mutex with_pg with_locks at_pc found].

Lemma factory_nonempty c id f : factory_of c id = Some f -> id <> [].
Proof. by destruct id. Qed.

Lemma initial_inv : lock_inv initial.
Proof. split; intros *; unfold pc_of; cbn; rewrite ?lookup_empty; cbn; done. Qed.

(** A goroutine that leaves the mutex without a lock. *)
Lemma leave_inv st c f id : lock_inv st -> in_acquire (pc_of st c) = Some id -> factory_of c id = Some f ->
  lock_inv (leave c f Idle st).
Proof.
  intros Hinv Hc Hf. destruct (inv_mutex _ Hinv _ _ Hc) as (f0 & Hf0 & Hm). assert (f0 = f) as -> by congruence.
  unfold leave. split; intros c1; clause; try (case_decide; [done|]).
  - intros H1. destruct (inv_mutex _ Hinv _ _ H1) as (f1 & Hf1 & Hm1). exists f1. split; [done|].
    rewrite lookup_delete_ne; [done|]. intros <-. congruence.
  - apply Hinv.
  - apply Hinv.
  - case_decide; [done|]. apply Hinv.
  - apply Hinv.
Qed.

(** Taking a lock again, or for another session, leaves the locks of others. *)
Lemma try_lock_keeps s s' id id' n pg : pg !! id' = Some (s', n) ->
  exists n', (pg_try_advisory_lock s id pg).2 !! id' = Some (s', n').
Proof.
  intros Hpg. unfold pg_try_advisory_lock. destruct (decide (id = id')) as [->|Hne].
  - rewrite Hpg. case_bool_decide as Hs; cbn; [subst; rewrite lookup_insert_eq; eauto|eauto].
  - destruct (pg !! id) as [[h m]|]; [case_bool_decide; cbn|cbn]; rewrite ?lookup_insert_ne by done; eauto.
Qed.

Lemma try_lock_grants s id pg : (pg_try_advisory_lock s id pg).1 = true ->
  exists n, (pg_try_advisory_lock s id pg).2 !! id = Some (s, n).
Proof.
  unfold pg_try_advisory_lock. destruct (pg !! id) as [[h m]|]; [case_bool_decide; cbn|cbn]; intros; [|done|];
    rewrite lookup_insert_eq; eauto.
Qed.

Lemma unlock_keeps s s' id id' n pg : pg !! id' = Some (s', n) -> id <> id' \/ s <> s' ->
  (pg_advisory_unlock s id pg).2 !! id' = Some (s', n).
Proof.
  intros Hpg Hne. unfold pg_advisory_unlock. destruct (decide (id = id')) as [->|Hid].
  - rewrite Hpg. destruct Hne as [|Hs]; [done|]. rewrite bool_decide_eq_false_2 by done. done.
  - destruct (pg !! id) as [[h m]|]; [case_bool_decide; cbn|done]; [|done].
    destruct m; [by rewrite lookup_delete_ne|by rewrite lookup_insert_ne].
Qed.

(** The advisory locks may change as long as nobody loses his. *)
Lemma with_pg_inv st pg : lock_inv st ->
  (forall c id f, locked (pc_of st c) = Some id -> factory_of c id = Some f -> c ∉ st_lost st ->
     exists n, pg !! id = Some (session_of st f, n)) ->
  lock_inv (with_pg pg st).
Proof. intros Hinv Hpg. split; cbn; [apply Hinv..|exact Hpg]. Qed.

Lemma acquire_db_inv st c f id fails : lock_inv st -> pc_of st c = Querying id -> factory_of c id = Some f ->
  lock_inv (acquire_db c f id fails st).
Proof.
  intros Hinv Hc Hf. assert (Ha : in_acquire (pc_of st c) = Some id) by (by rewrite Hc).
  pose proof (leave_inv _ _ _ _ Hinv Ha Hf) as Hleave. unfold acquire_db.
  pose proof (try_lock_grants (session_of st f) id (st_pg st)) as Hgrant.
  pose proof (fun s' id' n => try_lock_keeps (session_of st f) s' id id' n (st_pg st)) as Hkeep.
  destruct (pg_try_advisory_lock _ _ _) as [acquired pg]. cbn in Hgrant, Hkeep. destruct (negb _); [done|].
  destruct fails; [destruct acquired; [|done]|done|].
  - split; intros c1; clause.
    + case_decide; [|apply Hinv]. subst c1. intros [= <-]. apply Hinv. by rewrite Hc.
    + case_decide; [|apply Hinv]. subst c1. intros [= <-]. apply Hinv. by rewrite Hc.
    + case_decide; [done|]. apply Hinv.
    + case_decide; [done|]. case_decide; [done|]. apply Hinv.
    + case_decide; [|intros H1 H2 H3; destruct (inv_pg _ Hinv _ _ _ H1 H2 H3); eauto].
      subst c1. intros [= <-] Hf' _. assert (f0 = f) as -> by congruence. by apply Hgrant.
  - apply with_pg_inv; [done|]. intros c1 id1 f1. unfold leave. autorewrite with lock. case_decide; [done|].
    intros H1 H2 H3. destruct (inv_pg _ Hinv _ _ _ H1 H2 H3); eauto.
Qed.

Lemma enter_inv st c id f : lock_inv st -> pc_of st c = Idle -> factory_of c id = Some f -> st_mutex st !! f = None ->
  lock_inv (with_mutex (<[ f := c ]> (st_mutex st)) (at_pc c (Checking id) st)).
Proof.
  intros Hinv Hc Hf Hm. split; intros c1; clause; try (case_decide; [done|]); try (apply Hinv).
  - case_decide as Hc1.
    + subst c1. intros [= <-]. exists f. by rewrite lookup_insert_eq.
    + intros H1. destruct (inv_mutex _ Hinv _ _ H1) as (f1 & Hf1 & Hm1). exists f1. split; [done|].
      rewrite lookup_insert_ne; [done|]. intros <-. congruence.
  - case_decide; [done|]. apply Hinv.
Qed.

Lemma query_inv st c id f : lock_inv st -> pc_of st c = Checking id -> factory_of c id = Some f ->
  toKey id ∉ locks_of st f -> lock_inv (at_pc c (Querying id) st).
Proof.
  intros Hinv Hc Hf Hk. split; intros c1; clause; try (case_decide; [done|]); try (apply Hinv).
  - case_decide as Hc1; [|apply Hinv]. subst c1. intros [= <-]. apply Hinv. by rewrite Hc.
  - case_decide as Hc1; [|apply Hinv]. subst c1. intros [= <-] Hf1. by assert (f0 = f) as -> by congruence.
  - case_decide; [done|]. apply Hinv.
Qed.

Lemma register_inv st c id f : lock_inv st -> pc_of st c = Registering id -> factory_of c id = Some f ->
  lock_inv (leave c f (Holding id) (with_locks f (Register id (locks_of st f)) st)).
Proof.
  intros Hinv Hc Hf. assert (Hfree : toKey id ∉ locks_of st f) by (eapply (inv_free _ Hinv); [by rewrite Hc|done]).
  destruct (inv_mutex _ Hinv c id) as (f0 & Hf0 & Hm); [by rewrite Hc|]. assert (f0 = f) as -> by congruence.
  assert (Hsole : forall c1 id1 f1, registered (pc_of st c1) = Some id1 -> factory_of c1 id1 = Some f1 -> f1 = f -> id1 <> id).
  { intros c1 id1 f1 H1 H2 -> ->. destruct (inv_registered _ Hinv _ _ H1) as (f2 & Hf2 & Hin). congruence. }
  unfold leave. split; intros c1; clause.
  - case_decide; [done|]. intros H1. destruct (inv_mutex _ Hinv _ _ H1) as (f1 & Hf1 & Hm1). exists f1. split; [done|].
    rewrite lookup_delete_ne; [done|]. intros <-. congruence.
  - case_decide; [done|]. intros H1 Hf1. destruct (decide (f0 = f)) as [->|]; [|by eapply (inv_free _ Hinv)].
    exfalso. destruct (inv_mutex _ Hinv c1 id0) as (f2 & Hf2 & Hm2); [by destruct (pc_of st c1)|]. congruence.
  - case_decide as Hc1.
    + subst c1. intros [= <-]. exists f. split; [done|]. autorewrite with lock. rewrite decide_True by done. unfold Register. set_solver.
    + intros H1. destruct (inv_registered _ Hinv _ _ H1) as (f1 & Hf1 & Hin). exists f1. split; [done|].
      autorewrite with lock. case_decide; [subst; unfold Register; set_solver|done].
  - case_decide as Hc1; case_decide as Hc2; subst; [done|..].
    + intros [= <-] H2 Hf1 Hf2. exfalso. eapply (Hsole _ _ f0 H2 Hf2); congruence.
    + intros H1 [= <-] Hf1 Hf2. exfalso. eapply (Hsole _ _ f0 H1 Hf1); congruence.
    + apply Hinv.
  - case_decide as Hc1; [|apply Hinv]. subst c1. intros [= <-] Hf1 Hl. eapply (inv_pg _ Hinv); [by rewrite Hc|done..].
Qed.

Lemma free_inv st c id : lock_inv st -> pc_of st c = Holding id -> lock_inv (at_pc c (Releasing id) st).
Proof.
  intros Hinv Hc. assert (Hr : registered (pc_of st c) = Some id) by (by rewrite Hc).
  split; intros c1; clause; repeat case_decide; subst; try done; try (apply Hinv).
  - intros [= <-]. by apply Hinv.
  - intros [= <-]. by apply Hinv.
  - intros H1 [= <-]. by apply Hinv.
  - intros [= <-]. apply Hinv. by rewrite Hc.
Qed.

Lemma release_db_inv st c f id fails : lock_inv st -> pc_of st c = Releasing id -> factory_of c id = Some f ->
  lock_inv (release_db c f id fails st).
Proof.
  intros Hinv Hc Hf. assert (Hr : registered (pc_of st c) = Some id) by (by rewrite Hc).
  assert (Hun : forall b, lock_inv (at_pc c (Unregistering id b) st)).
  { intros b. split; intros c1; clause; repeat case_decide; subst; try done; try (apply Hinv).
    - intros [= <-]. by apply Hinv.
    - intros [= <-]. by apply Hinv.
    - intros H1 [= <-]. by apply Hinv. }
  assert (Hkeep : forall b c1 id1 f1, locked (pc_of (at_pc c (Unregistering id b) st) c1) = Some id1 ->
    factory_of c1 id1 = Some f1 -> c1 ∉ st_lost st -> exists n, (pg_advisory_unlock (session_of st f) id (st_pg st)).2 !! id1 = Some (session_of st f1, n)).
  { intros b c1 id1 f1. rewrite pc_of_at. case_decide as Hc1; [done|]. intros H1 Hf1 Hl.
    destruct (inv_pg _ Hinv _ _ _ H1 Hf1 Hl) as [n Hn]. exists n. apply unlock_keeps; [done|].
    destruct (decide (id = id1)) as [<-|]; [right|by left]. intros [= Hff _]. subst f1.
    destruct (registered (pc_of st c1)) as [id2|] eqn:H2.
    - assert (id2 = id) as -> by (destruct (pc_of st c1); simplify_eq/=; done). apply Hc1. by eapply (inv_unique _ Hinv).
    - destruct (inv_registered _ Hinv _ _ Hr) as (f2 & Hf2 & Hin). eapply (inv_free _ Hinv c1 id f); [|done|congruence].
      destruct (pc_of st c1); simplify_eq/=; done. }
  unfold release_db. destruct (pg_advisory_unlock _ _ _) as [released pg]. cbn in Hkeep.
  destruct fails; [|apply Hun|]; (apply with_pg_inv; [apply Hun|]); eauto.
Qed.

Lemma unregister_inv st c f id b : lock_inv st -> pc_of st c = Unregistering id b -> factory_of c id = Some f ->
  lock_inv (found c (at_pc c Idle (with_locks f (Unregister id (locks_of st f)) st))).
Proof.
  intros Hinv Hc Hf. assert (Hr : registered (pc_of st c) = Some id) by (by rewrite Hc).
  split; intros c1; clause; try (case_decide as Hc1; [done|]).
  - apply Hinv.
  - intros H1 H2. case_decide; [subst|by eapply (inv_free _ Hinv)]. pose proof (inv_free _ Hinv _ _ _ H1 H2).
    unfold Unregister. set_solver.
  - intros H1. destruct (inv_registered _ Hinv _ _ H1) as (f1 & Hf1 & Hin). exists f1. split; [done|].
    autorewrite with lock. case_decide; [subst|done]. unfold Unregister. rewrite elem_of_difference, elem_of_singleton. split; [done|].
    intros Hk. apply toKey_inj in Hk; [|by eapply factory_nonempty..]. subst. apply Hc1. by eapply (inv_unique _ Hinv).
  - case_decide; [done|]. apply Hinv.
  - intros H1 H2 H3. eapply (inv_pg _ Hinv); [done..|]. set_solver.
Qed.

Lemma session_of_broken st f f' : f' <> f -> session_of (broken node_of f st) f' = session_of st f'.
Proof. intros Hne. unfold session_of. cbn. by rewrite lookup_insert_ne. Qed.

Lemma lost_of_broken st f c id : locked (pc_of st c) = Some id -> factory_of c id = Some f ->
  c ∈ st_lost (broken node_of f st).
Proof.
  intros Hl Hf. cbn. apply elem_of_union. left. apply elem_of_list_to_set, list_elem_of_fmap.
  unfold pc_of in Hl. destruct (st_pc st !! c) as [p|] eqn:Hp; [|done]. exists (c, p). split; [done|].
  apply list_elem_of_filter. split; [|by apply elem_of_map_to_list].
  destruct p; simplify_eq/=; by apply bool_decide_eq_true_2.
Qed.

Lemma broken_inv st f : lock_inv st -> lock_inv (broken node_of f st).
Proof.
  intros Hinv. split; intros c1; intros *; change (pc_of (broken node_of f st)) with (pc_of st);
    change (locks_of (broken node_of f st)) with (locks_of st);
    change (st_mutex (broken node_of f st)) with (st_mutex st); try (apply Hinv).
  intros H1 H2 H3. destruct (decide (f0 = f)) as [->|Hne]; [by destruct H3; eapply lost_of_broken|].
  assert (Hl : c1 ∉ st_lost st). { cbn in H3. set_solver. }
  destruct (inv_pg _ Hinv _ _ _ H1 H2 Hl) as [n Hn]. exists n. rewrite session_of_broken by done. cbn.
  apply map_lookup_filter_Some. split; [done|]. cbn. unfold session_of. intros [= Hff _]. done.
Qed.

Lemma happens_inv st e st' : lock_inv st -> happens node_of e st = Some st' -> lock_inv st'.
Proof.
  intros Hinv. destruct e as [c id|c fails|c|f]; cbn.
  - destruct (pc_of st c) eqn:Hc; try done. destruct (factory_of c id) as [f|] eqn:Hf; [|done].
    destruct (st_mutex st !! f) eqn:Hm; [done|]. intros [= <-]. by eapply enter_inv.
  - destruct (pc_of st c) as [|id|id|id|id|id|id b] eqn:Hc; try done;
      (destruct (factory_of c id) as [f|] eqn:Hf; cbn; [|done]; intros [= <-]).
    + unfold IsRegistered. case_bool_decide; [|by eapply query_inv]. eapply leave_inv; [done|by rewrite Hc|done].
    + by apply acquire_db_inv.
    + by apply register_inv.
    + by apply release_db_inv.
    + by eapply unregister_inv.
  - destruct (pc_of st c) eqn:Hc; try done. intros [= <-]. by apply free_inv.
  - intros [= <-]. by apply broken_inv.
Qed.

Lemma reachable_lock_inv st : reachable node_of st -> lock_inv st.
Proof. induction 1; [apply initial_inv|]. by eapply happens_inv. Qed.

(** C6: Two goroutines, of one process or of two, that hold the same lock and did not
    lose it are the same goroutine. *)
Theorem mutual_exclusion st c c' id :
  reachable node_of st -> pc_of st c = Holding id -> pc_of st c' = Holding id ->
  c ∉ st_lost st -> c' ∉ st_lost st -> c = c'.
Proof.
  intros Hinv%reachable_lock_inv Hc Hc' Hl Hl'.
  destruct (inv_registered _ Hinv c id) as (f & Hf & _); [by rewrite Hc|].
  destruct (inv_registered _ Hinv c' id) as (f' & Hf' & _); [by rewrite Hc'|].
  destruct (inv_pg _ Hinv c id f) as [n Hn]; [by rewrite Hc|done..|].
  destruct (inv_pg _ Hinv c' id f') as [n' Hn']; [by rewrite Hc'|done..|].
  assert (Hs : session_of st f = session_of st f') by congruence. injection Hs as Hff _.
  eapply (inv_unique _ Hinv); [by rewrite Hc|by rewrite Hc'|exact Hf|congruence].
Qed.

(** A goroutine that did not lose its lock is told that it released it, when the
    database answers. *)
Theorem release_confirmed st c id st' :
  reachable node_of st -> pc_of st c = Releasing id -> c ∉ st_lost st ->
  happens node_of (Next c Works) st = Some st' -> pc_of st' c = Unregistering id true.
Proof.
  intros Hinv%reachable_lock_inv Hc Hl. cbn. rewrite Hc. destruct (factory_of c id) as [f|] eqn:Hf; [|done]. cbn.
  intros [= <-]. destruct (inv_pg _ Hinv c id f) as [n Hn]; [by rewrite Hc|done..|].
  unfold release_db, pg_advisory_unlock. rewrite Hn, bool_decide_eq_true_2 by done. autorewrite with lock.
  by rewrite decide_True.
Qed.

(** ** Taking a lock that is free *)

Lemma Enter_free st c id f : pc_of st c = Idle -> factory_of c id = Some f -> st_mutex st !! f = None ->
  happens node_of (Enter c id) st = Some (with_mutex (<[ f := c ]> (st_mutex st)) (at_pc c (Checking id) st)).
Proof. intros Hc Hf Hm. cbn. by rewrite Hc, Hf, Hm. Qed.

Lemma Next_Checking st c id f : pc_of st c = Checking id -> factory_of c id = Some f -> toKey id ∉ locks_of st f ->
  forall fails, happens node_of (Next c fails) st = Some (at_pc c (Querying id) st).
Proof. intros Hc Hf Hk fails. cbn. rewrite Hc, Hf. cbn. unfold IsRegistered. by rewrite bool_decide_eq_false_2. Qed.

Lemma Next_Querying st c id f : pc_of st c = Querying id -> factory_of c id = Some f -> pg_in_range id = true ->
  st_pg st !! id = None -> happens node_of (Next c Works) st =
    Some (with_pg (<[ id := (session_of st f, O) ]> (st_pg st)) (at_pc c (Registering id) st)).
Proof.
  intros Hc Hf Hr Hpg. cbn. rewrite Hc, Hf. cbn. unfold acquire_db, pg_try_advisory_lock. by rewrite Hpg, Hr.
Qed.

Lemma Next_Registering st c id f fails : pc_of st c = Registering id -> factory_of c id = Some f ->
  happens node_of (Next c fails) st = Some (leave c f (Holding id) (with_locks f (Register id (locks_of st f)) st)).
Proof. intros Hc Hf. cbn. by rewrite Hc, Hf. Qed.

Lemma Free_Holding st c id : pc_of st c = Holding id -> happens node_of (Free c) st = Some (at_pc c (Releasing id) st).
Proof. intros Hc. cbn. by rewrite Hc. Qed.

Lemma Next_Releasing st c id f : pc_of st c = Releasing id -> factory_of c id = Some f ->
  st_pg st !! id = Some (session_of st f, O) -> happens node_of (Next c Works) st =
    Some (with_pg (delete id (st_pg st)) (at_pc c (Unregistering id true) st)).
Proof.
  intros Hc Hf Hpg. cbn. rewrite Hc, Hf. cbn. unfold release_db, pg_advisory_unlock.
  by rewrite Hpg, bool_decide_eq_true_2.
Qed.

Lemma Next_Unregistering st c id f b fails : pc_of st c = Unregistering id b -> factory_of c id = Some f ->
  happens node_of (Next c fails) st = Some (found c (at_pc c Idle (with_locks f (Unregister id (locks_of st f)) st))).
Proof. intros Hc Hf. cbn. by rewrite Hc, Hf. Qed.

Lemma pc_of_same c p st : pc_of (at_pc c p st) c = p.
Proof. rewrite pc_of_at. by rewrite decide_True. Qed.

(** A lock that nobody has and that is not registered is acquired. *)
Lemma acquire_free st c id f :
  pc_of st c = Idle -> factory_of c id = Some f -> st_mutex st !! f = None -> toKey id ∉ locks_of st f ->
  st_pg st !! id = None -> pg_in_range id = true ->
  exists st', trace node_of [Enter c id; Next c Works; Next c Works; Next c Works] st = Some st' /\
    pc_of st' c = Holding id /\ st_pg st' = <[ id := (session_of st f, O) ]> (st_pg st) /\
    session_of st' f = session_of st f.
Proof.
  intros Hc Hf Hm Hk Hpg Hr. cbn [trace]. rewrite (Enter_free _ c id f) by done. cbn [mbind option_bind].
  rewrite (Next_Checking _ c id f); [|by rewrite pc_of_mutex, pc_of_same|done|done]. cbn [mbind option_bind].
  rewrite (Next_Querying _ c id f); [|by rewrite pc_of_same|done|done|done]. cbn [mbind option_bind].
  rewrite (Next_Registering _ c id f); [|by rewrite pc_of_pg, pc_of_same|done]. cbn [mbind option_bind].
  eexists. split; [reflexivity|]. split; [|done]. unfold leave. autorewrite with lock. by rewrite decide_True.
Qed.

(** A lock taken once and released is free again. *)
Lemma release_frees st c id f :
  pc_of st c = Holding id -> factory_of c id = Some f -> st_pg st !! id = Some (session_of st f, O) ->
  exists st', trace node_of [Free c; Next c Works; Next c Works] st = Some st' /\
    pc_of st' c = Idle /\ st_pg st' = delete id (st_pg st) /\ toKey id ∉ locks_of st' f.
Proof.
  intros Hc Hf Hpg. cbn [trace]. rewrite (Free_Holding _ c id) by done. cbn [mbind option_bind].
  rewrite (Next_Releasing _ c id f); [|by rewrite pc_of_same|done|done]. cbn [mbind option_bind].
  rewrite (Next_Unregistering _ c id f true); [|by rewrite pc_of_pg, pc_of_same|done]. cbn [mbind option_bind].
  eexists. split; [reflexivity|]. split; [|split; [done|]]; autorewrite with lock; rewrite decide_True by done; [done|].
  unfold Unregister. set_solver.
Qed.

(** Acquiring a free lock and releasing it leaves it free, for every process. *)
Theorem acquire_release st c id f :
  pc_of st c = Idle -> factory_of c id = Some f -> st_mutex st !! f = None -> toKey id ∉ locks_of st f ->
  st_pg st !! id = None -> pg_in_range id = true ->
  exists st1 st2,
    trace node_of [Enter c id; Next c Works; Next c Works; Next c Works] st = Some st1 /\ pc_of st1 c = Holding id /\
    trace node_of [Free c; Next c Works; Next c Works] st1 = Some st2 /\ pc_of st2 c = Idle /\
    st_pg st2 = st_pg st /\ toKey id ∉ locks_of st2 f.
Proof.
  intros Hc Hf Hm Hk Hpg Hr. destruct (acquire_free st c id f) as (st1 & Ht & H1 & Hpg1 & Hs); [done..|].
  destruct (release_frees st1 c id f) as (st2 & Ht2 & H2 & Hpg2 & Hk2); [done|done|by rewrite Hpg1, Hs, lookup_insert_eq|].
  exists st1, st2. repeat split; [done..| |done]. rewrite Hpg2, Hpg1. by apply delete_insert_id.
Qed.
End Invariant.

(** ** Identities stay within the arguments of Postgres *)

Lemma lxor_bound n a b : 0 <= n -> 0 <= a < 2 ^ n -> 0 <= b < 2 ^ n -> 0 <= Z.lxor a b < 2 ^ n.
Proof.
  intros Hn Ha Hb. assert (Hnn : 0 <= Z.lxor a b) by (apply Z.lxor_nonneg; lia). split; [done|].
  destruct (Z.eq_dec (Z.lxor a b) 0) as [->|Hz]; [lia|]. apply Z.log2_lt_pow2; [lia|].
  pose proof (Z.log2_lxor a b ltac:(lia) ltac:(lia)) as Hl.
  assert (Hlog : forall x, 0 <= x < 2 ^ n -> Z.log2 x < n \/ (x = 0 /\ Z.log2 x = 0)).
  { intros x Hx. destruct (Z.eq_dec x 0) as [->|]; [by right|]. left. apply Z.log2_lt_pow2; lia. }
  destruct (Z.eq_dec n 0) as [->|]; [|destruct (Hlog a Ha), (Hlog b Hb); lia].
  assert (a = 0 /\ b = 0) as [-> ->] by lia. done.
Qed.

Definition word (x : Z) : Prop := 0 <= x < 2 ^ 32.

Lemma crc_bit_word x : word x -> word (crc_bit x).
Proof.
  intros Hx. assert (Hs : word (Z.shiftr x 1)).
  { unfold word in *. rewrite Z.shiftr_div_pow2 by lia. split; [apply Z.div_pos; lia|].
    apply Z.div_lt_upper_bound; lia. }
  unfold crc_bit. destruct (Z.odd x); [|done]. apply lxor_bound; [lia|done|]. lia.
Qed.

Lemma crc_byte_word x b : word x -> 0 <= b < 256 -> word (crc_byte x b).
Proof.
  intros Hx Hb. unfold crc_byte. assert (Hl : word (Z.lxor x b)) by (apply lxor_bound; [lia|done|lia]).
  generalize 8%nat. intros n. induction n as [|n IH]; [done|]. cbn. by apply crc_bit_word.
Qed.

Lemma byte_of_range c : 0 <= byte_of c < 256.
Proof. unfold byte_of. pose proof (N_ascii_bounded c). lia. Qed.

Lemma ChecksumIEEE_word s : word (ChecksumIEEE s).
Proof.
  unfold ChecksumIEEE. apply lxor_bound; [lia| |lia].
  assert (Hgen : forall crc, word crc -> word (crc_update crc s)); [|apply Hgen; unfold word; lia].
  induction s as [|c s IH]; intros crc Hc; [done|]. cbn. apply IH, crc_byte_word; [done|apply byte_of_range].
Qed.

Lemma lockIDFromString_int32 s : - 2 ^ 31 <= lockIDFromString s < 2 ^ 31.
Proof.
  unfold lockIDFromString, int32_of. pose proof (ChecksumIEEE_word s) as Hw. unfold word in Hw.
  destruct (Z.ltb_spec (ChecksumIEEE s) (2 ^ 31)); lia.
Qed.

Lemma rem_int32 x : - 2 ^ 31 <= Z.rem x MaxInt32 < 2 ^ 31.
Proof.
  assert (Hm : MaxInt32 <> 0) by done. pose proof (Z.rem_bound_abs x MaxInt32 Hm) as Hb. unfold MaxInt32 in *. lia.
Qed.

(** Whatever the build, the volume or the name, the identity fits the arguments
    of the advisory lock; a resource config or a job with an identifier past
    int32 does not. *)
Theorem lock_ids_in_range n (s : string) worker :
  pg_in_range (NewBuildTrackingLockID n) = true /\ pg_in_range (NewVolumeCreatingLockID n) = true /\
  pg_in_range (NewTaskLockID s) = true /\ pg_in_range (NewInMemoryCheckBuildTrackingLockID s n) = true /\
  pg_in_range (NewVolumeStreamingLockID n worker) = true /\ pg_in_range (NewResourceGetLockID s) = true /\
  pg_in_range NewDatabaseMigrationLockID = true /\ pg_in_range NewResourceScanningLockID = true /\
  (pg_in_range (NewResourceConfigCheckingLockID n) = true <-> - 2 ^ 31 <= n < 2 ^ 31) /\
  (pg_in_range (NewJobSchedulingLockID n) = true <-> - 2 ^ 31 <= n < 2 ^ 31).
Proof.
  assert (Hr : forall t x, 0 <= t <= 10 -> (pg_in_range [t; x] = true <-> - 2 ^ 31 <= x < 2 ^ 31)).
  { intros t x Ht. unfold pg_in_range. rewrite !andb_true_iff, !Z.leb_le, !Z.ltb_lt. lia. }
  unfold NewBuildTrackingLockID, NewVolumeCreatingLockID, NewTaskLockID, NewInMemoryCheckBuildTrackingLockID,
    NewVolumeStreamingLockID, NewResourceGetLockID, NewResourceConfigCheckingLockID, NewJobSchedulingLockID.
  split; [apply Hr; [done|apply rem_int32]|]. split; [apply Hr; [done|apply rem_int32]|].
  do 4 (split; [apply Hr; [done|apply lockIDFromString_int32]|]). split; [done|]. split; [done|].
  split; by apply Hr.
Qed.

(** The check value of the CRC. *)
Example crc_check : ChecksumIEEE "123456789" = 3421780262.
Proof. vm_compute. reflexivity. Qed.

(** ** Runs *)

Lemma trace_reachable node_of es st st' : reachable node_of st -> trace node_of es st = Some st' -> reachable node_of st'.
Proof.
  revert st. induction es as [|e es IH]; intros st Hst Ht; cbn in Ht; [by injection Ht as <-|].
  destruct (happens node_of e st) as [st1|] eqn:He; [|done]. eapply IH; [|exact Ht]. by eapply reachable_step.
Qed.

Module Sample.

(** Goroutines 0 and 1 run on node 0, goroutine 2 on node 1. *)
Definition nodes (c : nat) : nat := match c with O | 1%nat => O | _ => 1%nat end.

Definition job : LockID := NewJobSchedulingLockID 7.
Definition acquire (c : nat) : list event := [Enter c job; Next c Works; Next c Works; Next c Works].

(** Goroutine 0 takes the lock; 1 and 2 are refused. *)
Definition held : list event :=
  acquire 0 ++ [Enter 1 job; Next 1 Works] ++ [Enter 2 job; Next 2 Works; Next 2 Works].

Lemma mutual_exclusion_witness :
  exists st, trace nodes held initial = Some st /\ pc_of st 0 = Holding job /\
    (pc_of st 0 = Holding job -> 0%nat ∉ st_lost st -> 0%nat = 0%nat).
Proof.
  eexists. split; [vm_compute; reflexivity|]. split; [reflexivity|]. intros Hh Hl.
  refine (mutual_exclusion nodes _ 0 0 job _ Hh Hh Hl Hl).
  eapply (trace_reachable nodes held initial); [apply reachable_initial|vm_compute; reflexivity].
Defined.

Lemma release_confirmed_witness :
  exists st st', trace nodes (held ++ [Free 0]) initial = Some st /\
    happens nodes (Next 0 Works) st = Some st' /\ pc_of st' 0 = Unregistering job true.
Proof.
  eexists. eexists. split; [vm_compute; reflexivity|]. split; [vm_compute; reflexivity|].
  refine (release_confirmed nodes _ 0 job _ _ _ _ _).
  - eapply (trace_reachable nodes (held ++ [Free 0]) initial); [apply reachable_initial|vm_compute; reflexivity].
  - reflexivity.
  - vm_compute. intros Hl. inversion Hl.
  - vm_compute. reflexivity.
Defined.

Lemma acquire_release_witness :
  exists st1 st2, trace nodes (acquire 0) initial = Some st1 /\ pc_of st1 0 = Holding job /\
    trace nodes [Free 0; Next 0 Works; Next 0 Works] st1 = Some st2 /\ pc_of st2 0 = Idle /\
    st_pg st2 = st_pg initial /\ toKey job ∉ locks_of st2 (0%nat, factoryJobScheduling).
Proof.
  refine (acquire_release nodes initial 0 job (0%nat, factoryJobScheduling) _ _ _ _ _ _); try reflexivity.
  set_solver.
Defined.

(** Without the connection the lock is gone: goroutine 2 of the other node takes
    it while goroutine 0 still believes it holds it, and is told so when it
    releases. *)
Example lost_lock :
  exists st, trace nodes (acquire 0 ++ [Breaks (0%nat, factoryJobScheduling)] ++ acquire 2 ++ [Free 0; Next 0 Works]) initial = Some st /\
    pc_of st 2 = Holding job /\ pc_of st 0 = Unregistering job false.
Proof. eexists. split; [vm_compute; reflexivity|]. split; vm_compute; reflexivity. Qed.

(** A release that fails in the database leaves the lock with the session: the
    process may take it again, no other process can, although no goroutine has
    it. *)
Example leaked_lock :
  exists st, trace nodes (acquire 0 ++ [Free 0; Next 0 FailsBefore; Next 0 Works] ++ acquire 1 ++
      [Free 1; Next 1 Works; Next 1 Works] ++ [Enter 2 job; Next 2 Works; Next 2 Works]) initial = Some st /\
    pc_of st 0 = Idle /\ pc_of st 1 = Idle /\ pc_of st 2 = Idle /\
    st_pg st !! job = Some (session_of st (0%nat, factoryJobScheduling), O).
Proof. eexists. split; [vm_compute; reflexivity|]. vm_compute. repeat split; reflexivity. Qed.

End Sample.
