(* ===== verification/WorkflowConfig.v ===== *)
(** * Workflow functions (agent/workflow/function_config.go)

    The schema-version-3 grammar of a workflow function: a typed signature over
    an ordinary plan of steps, with the checks of its structure
    ([FunctionConfig.Validate]), of its resource sources
    ([agent/workflow/resource_source.go]) and of its ports
    ([agent/snapshot/types.go]).

    What a compiled profile must satisfy on its own, and the hashes of the
    profiles, are the operations of the class [ProfileChecks]; the profile of an
    operator's broker is a [value]. *)
From stdpp Require Import base gmap sets list strings sorting pretty.
From Stdlib Require Import ZArith Ascii Lia.
From S2P Require Import Prelude Vars Repository Parallel GoText Steps StepValidator Planner.

Set Warnings "-register-all".
Open Scope Z_scope.

(** ** Ports (agent/snapshot/types.go) *)

Record Port := {
  port_Name : string;
  port_Type : string;
  port_Optional : bool;
  port_Description : string }.

(** [fmt.Errorf(format, args..., err)] with a [%w] at the end. *)
Definition wrap_message (format : string) (args : list string) (err : message) : message :=
  Msg format (args ++ m_format err :: m_args err).

Definition under (format : string) (args : list string) (err : option message) : option message :=
  wrap_message format args <$> err.

Definition Port_Validate (p : Port) : option message :=
  if blank (port_Name p) then Some (Msg "snapshot: port name is required" [])
  else under "snapshot: port %q: %w" [port_Name p] (type_error (port_Type p)).

Fixpoint validate_ports (seen : gset string) (ports : list Port) : option message :=
  match ports with
  | [] => None
  | port :: ports =>
      first_error
        [Port_Validate port;
         guard_error (bool_decide (port_Name port ∈ seen)) (Msg "snapshot: duplicate port %q" [port_Name port]);
         validate_ports ({[ port_Name port ]} ∪ seen) ports]
  end.
Definition ValidatePorts (ports : list Port) : option message := validate_ports ∅ ports.

(** ** Functions *)

Record FunctionOutput := { fo_Port : Port; fo_From : string }.

Record ResourceSource := {
  rs_Name : string;
  rs_Resource : string;
  rs_Type : string;
  rs_Trigger : bool;
  rs_Version : option VersionConfig }.

Record DevValidationContract := { dvc_Name : string; dvc_Type : string }.

Record CompiledDevValidationProfile := {
  cdp_Name : string;
  cdp_Candidate : DevValidationContract;
  cdp_BaseInputs : list DevValidationContract;
  cdp_CapabilityImage : string;
  cdp_CapabilityImageDigest : string;
  cdp_Command : list string;
  cdp_Profile : string;
  cdp_ProfileDigest : string;
  cdp_ProtectedConfig : string;
  cdp_ProtectedConfigDigest : string }.

Record Selector := { sel_Tier : string; sel_Effort : string }.
#[export] Instance Selector_eq_dec : EqDecision Selector.
Proof. solve_decision. Defined.

Record CompiledBrokerProfile := {
  cbp_FunctionID : string;
  cbp_Tool : string;
  cbp_Selector : Selector;
  cbp_Profile : value }.

Record FunctionConfig := {
  fc_SignatureVersion : Z;
  fc_DispositionOutput : string;
  fc_Inputs : list Port;
  fc_Outputs : list FunctionOutput;
  fc_Resources : list ResourceConfig;
  fc_ResourceSources : list ResourceSource;
  fc_ResourceTypes : list ResourceType;
  fc_Prototypes : list Prototype;
  fc_VarSources : list VarSourceConfig;
  fc_Plan : list Step;
  fc_DevValidationProfiles : list CompiledDevValidationProfile;
  fc_DevValidationProvenanceHash : string;
  fc_BrokerProfiles : list CompiledBrokerProfile;
  fc_BrokerProfileProvenanceHash : string;
  fc_SkillFiles : gmap string string }.

(** ** Resource sources (resource_source.go) *)

(** The sets [reachable] and [visiting] of the closure. *)
Definition closure : Type := gset string * gset string.

(** [visit]: the custom types a type is built from; at most one call per type is
    open at any time. *)
Fixpoint visit (resourceTypes : list ResourceType) (fuel : nat) (name : string)
    : stateful closure message unit :=
  fun st =>
    let '(reachable, visiting) := st in
    match fuel with
    | O => (NoFuel, st)
    | S fuel =>
        match ResourceTypes_Lookup name resourceTypes with
        | None => (Ret (), st)
        | Some resourceType =>
            if bool_decide (name ∈ reachable) then (Ret (), st)
            else if bool_decide (name ∈ visiting) then
              (Fail (Msg "workflow: resource type cycle reaches %q" [name]), st)
            else
              let st := (reachable, {[ name ]} ∪ visiting) in
              let inner :=
                if String.eqb (rt_Image resourceType) "" && negb (String.eqb (rt_Type resourceType) "")
                then visit resourceTypes fuel (rt_Type resourceType) st
                else (Ret (), st) in
              match inner with
              | (Ret _, (reachable, visiting)) =>
                  (Ret (), ({[ name ]} ∪ reachable, visiting ∖ {[ name ]}))
              | _ => inner
              end
        end
    end.

Definition visit_fuel (resourceTypes : list ResourceType) : nat := S (length resourceTypes).

Definition ResourceSourceResourceTypes (sources : list ResourceSource) (resources : list ResourceConfig)
    (resourceTypes : list ResourceType) : outcome message (list ResourceType) :=
  let walk := each (fun source =>
    match ResourceConfigs_Lookup (rs_Resource source) resources with
    | None => fail (Msg "workflow: resource source %q references unknown resource %q"
                        [rs_Name source; rs_Resource source])
    | Some resource => visit resourceTypes (visit_fuel resourceTypes) (rc_Type resource)
    end) sources in
  match walk (∅, ∅) with
  | (Ret _, (reachable, _)) => Ret (filter (fun t => rt_Name t ∈ reachable) resourceTypes)
  | (Fail e, _) => Fail e
  | (Panic, _) => Panic
  | (NoFuel, _) => NoFuel
  end.

Definition indexed (what : string) (index : nat) : string := what +:+ "[" +:+ pretty index +:+ "]".

(** The loop over the sources, with the names seen and the resources selected. *)
Fixpoint validate_sources (resources : list ResourceConfig) (index : nat) (names : gset string)
    (selected : gmap string string) (sources : list ResourceSource)
    : outcome message (gmap string string) :=
  match sources with
  | [] => Ret selected
  | source :: sources =>
      let name := rs_Name source in
      let at_source format args := Msg ("workflow: resource_sources[%d]" +:+ format) (pretty index :: args) in
      if blank name then Fail (at_source ": name is required" [])
      else if negb (String.eqb (TrimSpace name) name) then Fail (at_source ": name must be canonical" [])
      else if bool_decide (name ∈ names) then
        Fail (Msg "workflow: resource_sources: duplicate source name %q" [name])
      else if blank (rs_Resource source) then Fail (at_source " %q: resource is required" [name])
      else if negb (String.eqb (TrimSpace (rs_Resource source)) (rs_Resource source)) then
        Fail (at_source " %q: resource must be canonical" [name])
      else match type_error (rs_Type source) with
      | Some err => Fail (wrap_message "workflow: resource_sources[%d] %q: %w" [pretty index; name] err)
      | None =>
          match ResourceConfigs_Lookup (rs_Resource source) resources with
          | None => Fail (at_source " %q: unknown resource %q" [name; rs_Resource source])
          | Some _ =>
              match selected !! rs_Resource source with
              | Some previous =>
                  Fail (Msg "workflow: resource %q has more than one source (%q and %q)"
                            [rs_Resource source; previous; name])
              | None =>
                  validate_sources resources (S index) ({[ name ]} ∪ names)
                    (<[ rs_Resource source := name ]> selected) sources
              end
          end
      end
  end.

Definition ValidateResourceSources (sources : list ResourceSource) (resources : list ResourceConfig)
    (resourceTypes : list ResourceType) : outcome message unit :=
  selected ← validate_sources resources 0 ∅ ∅ sources;
  match find (fun r => negb (bool_decide (is_Some (selected !! rc_Name r)))) resources with
  | Some r => Fail (Msg "workflow: resource %q has no resource source" [rc_Name r])
  | None => _ ← ResourceSourceResourceTypes sources resources resourceTypes; Ret ()
  end.

(** ** Unknown fields (parse.go) *)

Section Fields.
Context (reject : StepConfig -> string -> option message).

Definition reject_unknown (step : Step) (path : string) : option message :=
  match names (list_to_set (UnknownFields step).*1) with
  | field :: _ => Some (Msg "workflow: %s: unknown step field %q" [path; field])
  | [] => reject (Config step) path
  end.

Definition reject_all (label : string) : nat -> list Step -> option message :=
  fix go index steps :=
    match steps with
    | [] => None
    | step :: steps =>
        match reject_unknown step (indexed label index) with
        | Some err => Some err
        | None => go (S index) steps
        end
    end.
End Fields.

Fixpoint rejectUnknownStepConfigFields (config : StepConfig) (path : string) : option message :=
  let both step hook label :=
    match rejectUnknownStepConfigFields step (path +:+ ".step") with
    | Some err => Some err
    | None => reject_unknown rejectUnknownStepConfigFields hook (path +:+ label)
    end in
  match config with
  | STry step => reject_unknown rejectUnknownStepConfigFields step (path +:+ ".try")
  | SDo steps => reject_all rejectUnknownStepConfigFields (path +:+ ".do") 0 steps
  | SInParallel steps _ _ => reject_all rejectUnknownStepConfigFields (path +:+ ".in_parallel") 0 steps
  | SAcross step _ _ => rejectUnknownStepConfigFields step (path +:+ ".across")
  | SRetry step _ => rejectUnknownStepConfigFields step (path +:+ ".attempts")
  | STimeout step _ => rejectUnknownStepConfigFields step (path +:+ ".timeout")
  | SOnSuccess step hook => both step hook ".on_success"
  | SOnFailure step hook => both step hook ".on_failure"
  | SOnAbort step hook => both step hook ".on_abort"
  | SOnError step hook => both step hook ".on_error"
  | SEnsure step hook => both step hook ".ensure"
  | _ => None
  end.
Definition rejectUnknownStepFields : Step -> string -> option message :=
  reject_unknown rejectUnknownStepConfigFields.
Definition rejectUnknownPlanFields (steps : list Step) : option message :=
  reject_all rejectUnknownStepConfigFields "plan" 0 steps.

(** ** The structure of a function (function_config.go) *)

Class ProfileChecks := {
  validateCompiledDevValidationProfile : CompiledDevValidationProfile -> option message;
  DevValidationProvenanceHash : list CompiledDevValidationProfile -> outcome message string;
  validateCompiledBrokerProfile : CompiledBrokerProfile -> option message;
  BrokerProfileProvenanceHash : list CompiledBrokerProfile -> outcome message string }.

Section Validate.
Context `{ProfileChecks}.

(** The loop of both validations of compiled profiles: each profile is checked,
    then its key must be new. *)
Definition validate_profiles {P K} `{Countable K} (check : P -> option message) (key : P -> K)
    (each_error : string) (duplicate : P -> message) : nat -> gset K -> list P -> option message :=
  fix go index seen profiles :=
    match profiles with
    | [] => None
    | profile :: profiles =>
        match under each_error [pretty index] (check profile) with
        | Some err => Some err
        | None =>
            if bool_decide (key profile ∈ seen) then Some (duplicate profile)
            else go (S index) ({[ key profile ]} ∪ seen) profiles
        end
    end.

Definition provenance_error (what : string) (hash : outcome message string) (provenance : string)
    : option message :=
  match hash with
  | Ret actual =>
      guard_error (negb (String.eqb actual provenance))
        (Msg ("workflow: " +:+ what +:+ " provenance hash does not match exact authority bytes") [])
  | Fail err => Some err
  | _ => None
  end.

Definition validateCompiledDevValidationProfiles (profiles : list CompiledDevValidationProfile)
    (provenance : string) : option message :=
  match profiles with
  | [] => guard_error (negb (String.eqb provenance ""))
            (Msg "workflow: dev validation provenance hash requires compiled profiles" [])
  | _ =>
      if String.eqb provenance "" then
        Some (Msg "workflow: compiled dev validation profiles require a provenance hash" [])
      else
        first_error
          [validate_profiles validateCompiledDevValidationProfile cdp_Name
             "workflow: compiled dev validation profile %d: %w"
             (fun p => Msg "workflow: duplicate compiled dev validation profile %q" [cdp_Name p]) 0 ∅ profiles;
           provenance_error "compiled dev validation" (DevValidationProvenanceHash profiles) provenance]
  end.

Definition brokerProfileKey (p : CompiledBrokerProfile) : string * string * string * string :=
  (cbp_FunctionID p, cbp_Tool p, sel_Tier (cbp_Selector p), sel_Effort (cbp_Selector p)).

Definition validateCompiledBrokerProfiles (profiles : list CompiledBrokerProfile) (provenance : string)
    : option message :=
  match profiles with
  | [] => guard_error (negb (String.eqb provenance ""))
            (Msg "workflow: broker profile provenance hash requires compiled profiles" [])
  | _ =>
      if String.eqb provenance "" then
        Some (Msg "workflow: compiled broker profiles require a provenance hash" [])
      else
        first_error
          [validate_profiles validateCompiledBrokerProfile brokerProfileKey
             "workflow: compiled broker profile %d: %w"
             (fun p => Msg "workflow: duplicate compiled broker profile for node %q tool %q selector %s/%s"
                         [cbp_FunctionID p; cbp_Tool p; sel_Tier (cbp_Selector p); sel_Effort (cbp_Selector p)])
             0 ∅ profiles;
           provenance_error "broker profile" (BrokerProfileProvenanceHash profiles) provenance]
  end.

Definition on_agent {St E} (f : AgentStep -> stateful St E unit) : StepRecursor St E :=
  {| OnTask := None; OnGet := None; OnPut := None; OnRun := None; OnAgent := Some f;
     OnSetPipeline := None; OnLoadVar := None; OnLoadSnapshot := None; OnAwaitSnapshot := None;
     OnPublishSnapshot := None; OnAcross := None; OnRetry := None |}.

(** The agents of a plan. *)
Definition agent_nodes (plan : list Step) : gset string :=
  no_error (each (fun step : Step => recur (on_agent (fun agent nodes =>
    (Ret (), {[ a_FunctionID agent ]} ∪ nodes))) (Config step)) plan) ∅.

Definition validateCompiledBrokerProfileNodes (plan : list Step) (profiles : list CompiledBrokerProfile)
    : option message :=
  match profiles with
  | [] => None
  | _ =>
      match find (fun p => negb (bool_decide (cbp_FunctionID p ∈ agent_nodes plan))) profiles with
      | Some p => Some (Msg "workflow: compiled broker profile node %q is not an agent function" [cbp_FunctionID p])
      | None => None
      end
  end.

(** The broker authority of an agent is the renderer's. *)
Definition authored_broker_authority (plan : list Step) : option message :=
  match each (fun step : Step => recur (on_agent (fun agent =>
      match a_BrokerAuthority agent with
      | [] => mret ()
      | _ => fail (Msg "workflow: agent %q broker_authority is render-owned" [a_Name agent])
      end)) (Config step)) plan () with
  | (Fail err, _) => Some err
  | _ => None
  end.

Definition MaxCompiledAssetBytes : Z := Z.shiftl 10 20.

Fixpoint asset_budget (remaining : Z) (profiles : list CompiledDevValidationProfile) : option message :=
  let exceeded := Some (Msg "workflow: compiled dev validation assets exceed %d bytes" [pretty MaxCompiledAssetBytes]) in
  match profiles with
  | [] => None
  | profile :: profiles =>
      let n := Z.of_nat (String.length (cdp_Profile profile)) in
      let m := Z.of_nat (String.length (cdp_ProtectedConfig profile)) in
      if remaining <? n then exceeded
      else if remaining - n <? m then exceeded
      else asset_budget (remaining - n - m) profiles
  end.

(** The loop over the outputs: the names seen and the output that is the
    disposition. *)
Fixpoint validate_outputs (disposition : string) (index : nat) (seen : gset string)
    (found : option FunctionOutput) (outputs : list FunctionOutput)
    : outcome message (gset string * option FunctionOutput) :=
  match outputs with
  | [] => Ret (seen, found)
  | output :: outputs =>
      let name := port_Name (fo_Port output) in
      match under "workflow: outputs[%d]: %w" [pretty index] (Port_Validate (fo_Port output)) with
      | Some err => Fail err
      | None =>
          if bool_decide (name ∈ seen) then Fail (Msg "workflow: outputs: duplicate port %q" [name])
          else if blank (fo_From output) then Fail (Msg "workflow: output %q: from is required" [name])
          else validate_outputs disposition (S index) ({[ name ]} ∪ seen)
                 (if String.eqb name disposition then Some output else found) outputs
      end
  end.

Definition source_in (names : gset string) (format : string) (sources : list ResourceSource) : option message :=
  match find (fun s => bool_decide (rs_Name s ∈ names)) sources with
  | Some s => Some (Msg format [rs_Name s])
  | None => None
  end.

Definition validate_disposition (disposition : string) (found : option FunctionOutput) : option message :=
  if String.eqb disposition "" then None
  else if negb (String.eqb (TrimSpace disposition) disposition) then
    Some (Msg "workflow: disposition_output must be a canonical public output name" [])
  else match found with
  | None => Some (Msg "workflow: disposition_output %q is not a declared public output" [disposition])
  | Some output =>
      guard_error (port_Optional (fo_Port output))
        (Msg "workflow: disposition_output %q must be required" [disposition])
  end.

Definition fails (err : option message) : outcome message unit :=
  match err with Some err => Fail err | None => Ret () end.

Definition FunctionConfig_Validate (config : FunctionConfig) : outcome message unit :=
  _ ← fails (guard_error (fc_SignatureVersion config <=? 0)
        (Msg "workflow: signature_version must be a positive integer, got %d" [pretty (fc_SignatureVersion config)]));
  _ ← fails (under "workflow: inputs: %w" [] (ValidatePorts (fc_Inputs config)));
  _ ← match fc_ResourceSources config with
      | [] => Ret ()
      | sources =>
          _ ← ValidateResourceSources sources (fc_Resources config) (fc_ResourceTypes config);
          fails (source_in (list_to_set (port_Name <$> fc_Inputs config))
                   "workflow: resource source %q conflicts with workflow input" sources)
      end;
  '(seen, found) ← validate_outputs (fc_DispositionOutput config) 0 ∅ None (fc_Outputs config);
  _ ← fails (source_in seen "workflow: resource source %q conflicts with public output" (fc_ResourceSources config));
  fails (first_error
    [validate_disposition (fc_DispositionOutput config) found;
     match fc_Plan config with
     | [] => Some (Msg "workflow: plan must contain at least one step" [])
     | _ => None
     end;
     rejectUnknownPlanFields (fc_Plan config);
     validateCompiledDevValidationProfiles (fc_DevValidationProfiles config) (fc_DevValidationProvenanceHash config);
     validateCompiledBrokerProfiles (fc_BrokerProfiles config) (fc_BrokerProfileProvenanceHash config);
     validateCompiledBrokerProfileNodes (fc_Plan config) (fc_BrokerProfiles config);
     authored_broker_authority (fc_Plan config);
     asset_budget MaxCompiledAssetBytes (fc_DevValidationProfiles config)]).
End Validate.
