(* ===== verification/WorkflowConfigSpec.v ===== *)
(** * The structure checks of workflow functions end

    [FunctionConfig.Validate] returns on every function: the walk over the
    custom resource types meets its bound. *)
From stdpp Require Import base gmap sets list strings sorting pretty.
From Stdlib Require Import ZArith Ascii Lia.
From S2P Require Import Prelude Vars Repository Parallel GoText Steps StepValidator Planner WorkflowConfig.

Set Warnings "-register-all".

(** ** The closure of resource types ends *)

Section Closure.
Context (resourceTypes : list ResourceType).

Definition type_names : gset string := list_to_set (rt_Name <$> resourceTypes).

Lemma lookup_by_In {A} (key : A -> string) name l x : lookup_by key name l = Some x -> x ∈ l /\ key x = name.
Proof.
  induction l as [|y l IH]; cbn; [done|]. destruct (String.eqb (key y) name) eqn:Hk.
  - intros [= ->]. split; [set_solver|]. by apply String.eqb_eq.
  - intros Hl%IH. set_solver.
Qed.

Lemma lookup_type_name name t : ResourceTypes_Lookup name resourceTypes = Some t -> name ∈ type_names.
Proof.
  intros [Ht <-]%lookup_by_In. unfold type_names. apply elem_of_list_to_set, list_elem_of_fmap. eauto.
Qed.

(** Every call that is open adds a type, so the calls are at most as deep as
    there are types; a visit that returns closes what it opened. *)
Lemma visit_returns fuel name reachable visiting :
  visiting ⊆ type_names -> (size type_names < fuel + size visiting)%nat ->
  returns (visit resourceTypes fuel name (reachable, visiting)).1 /\
  (forall u, (visit resourceTypes fuel name (reachable, visiting)).1 = Ret u ->
     (visit resourceTypes fuel name (reachable, visiting)).2.2 = visiting).
Proof.
  revert name reachable visiting. induction fuel as [|fuel IH]; intros name reachable visiting Hsub Hfuel.
  { pose proof (subseteq_size _ _ Hsub). lia. }
  cbn [visit]. destruct (ResourceTypes_Lookup name resourceTypes) as [t|] eqn:Ht; [|done].
  destruct (bool_decide (name ∈ reachable)); [done|]. case_bool_decide as Hv; [done|].
  set (inner := if String.eqb (rt_Image t) "" && negb (String.eqb (rt_Type t) "")
    then visit resourceTypes fuel (rt_Type t) (reachable, {[ name ]} ∪ visiting)
    else (Ret (), (reachable, {[ name ]} ∪ visiting))).
  assert (Hin : returns inner.1 /\ forall u, inner.1 = Ret u -> inner.2.2 = {[ name ]} ∪ visiting).
  { unfold inner. destruct (_ && _); [|done]. apply IH; [pose proof (lookup_type_name _ _ Ht); set_solver|].
    rewrite size_union, size_singleton by set_solver. lia. }
  destruct Hin as [Hret Hvis]. destruct inner as [[u|e| |] [r v]]; cbn in *; try done.
  rewrite (Hvis u eq_refl). split; [done|]. intros _ _. set_solver.
Qed.

Lemma types_size : (size type_names <= length resourceTypes)%nat.
Proof.
  unfold type_names. induction resourceTypes as [|t l IH]; cbn; [rewrite size_empty; lia|].
  rewrite size_union_alt, size_singleton.
  assert (Hd : (list_to_set (rt_Name <$> l) : gset string) ∖ {[rt_Name t]} ⊆ list_to_set (rt_Name <$> l)) by set_solver.
  apply subseteq_size in Hd. lia.
Qed.

Lemma ResourceSourceResourceTypes_returns sources resources :
  returns (ResourceSourceResourceTypes sources resources resourceTypes).
Proof.
  unfold ResourceSourceResourceTypes. cut (forall reachable, returns
    (each (fun source => match ResourceConfigs_Lookup (rs_Resource source) resources with
       | None => fail (Msg "workflow: resource source %q references unknown resource %q" [rs_Name source; rs_Resource source])
       | Some resource => visit resourceTypes (visit_fuel resourceTypes) (rc_Type resource)
       end) sources (reachable, ∅)).1).
  { intros Hall. specialize (Hall ∅). destruct (each _ _ _) as [[] [? ?]]; done. }
  induction sources as [|s sources IH]; intros reachable; [done|]. cbn [each]. unfold mbind, stateful_bind.
  destruct (ResourceConfigs_Lookup _ _) as [r|]; [|done].
  pose proof (visit_returns (visit_fuel resourceTypes) (rc_Type r) reachable ∅) as [Hret Hvis];
    [set_solver|rewrite size_empty; unfold visit_fuel; pose proof types_size; lia|].
  destruct (visit _ _ _ _) as [[u|e| |] [r' v']]; cbn in *; try done. rewrite (Hvis u eq_refl). apply IH.
Qed.
End Closure.

Section Total.
Context `{PC : ProfileChecks}.

Lemma fails_returns err : returns (fails err).
Proof. by destruct err. Qed.

Lemma validate_outputs_returns d i seen found outputs : returns (validate_outputs d i seen found outputs).
Proof.
  revert i seen found. induction outputs as [|o l IH]; intros; cbn; [done|]. by repeat case_match.
Qed.

Lemma validate_sources_returns resources i names selected sources :
  returns (validate_sources resources i names selected sources).
Proof.
  revert i names selected. induction sources as [|o l IH]; intros; cbn; [done|]. by repeat case_match.
Qed.

Lemma FunctionConfig_Validate_returns config : returns (FunctionConfig_Validate config).
Proof.
  unfold FunctionConfig_Validate. do 2 (apply returns_bind; [apply fails_returns|intros _ _]).
  apply returns_bind; [|intros _ _].
  { destruct (fc_ResourceSources config) eqn:Hs; [done|]. apply returns_bind; [|intros; apply fails_returns].
    unfold ValidateResourceSources. apply returns_bind; [apply validate_sources_returns|]. intros selected _.
    destruct (find _ _); [done|]. apply returns_bind; [apply ResourceSourceResourceTypes_returns|done]. }
  apply returns_bind; [apply validate_outputs_returns|]. intros [seen found] _.
  apply returns_bind; [apply fails_returns|intros _ _]. apply fails_returns.
Qed.
End Total.
