(* ===== verification/WorkflowTypes.v ===== *)
(** * The type checker of workflow functions (agent/workflow/typecheck.go)

    The flow of typed snapshots through the plan of a workflow function: what
    each step may read and write is checked against an environment that says,
    for every artifact name, which type it has, whether it is certain to be
    there, which step produced it and which development validation covers it.

    The checker's mutable fields are a state that the checks thread
    ([snapshotFlowChecker]); a producer is allocated at a fresh address, which is
    what Go's comparison of pointers compares.  [range] is the order in which Go
    ranges over a map: any order, fixed by the class [MapOrder]. *)
From stdpp Require Import base gmap sets list strings sorting pretty.
From Stdlib Require Import ZArith Ascii Lia.
From S2P Require Import Prelude Vars Repository Parallel ExecWorld GoText Steps StepValidator Planner ConfigValidate WorkflowConfig.

Set Warnings "-register-all".
Open Scope Z_scope.

Class MapOrder := {
  range : forall {V : Type}, gmap string V -> list (string * V);
  range_perm {V : Type} (m : gmap string V) : range m ≡ₚ map_to_list m }.

(** ** Bindings *)

Inductive snapshotPresence := snapshotGuaranteed | snapshotConditional.
#[export] Instance snapshotPresence_eq_dec : EqDecision snapshotPresence.
Proof. solve_decision. Defined.

(** The step a producer points to. *)
Inductive producer_step :=
| PTask (step : TaskStep)
| PAgent (step : AgentStep)
| PAwait (step : AwaitSnapshotStep).

Record snapshotProducer := {
  pr_address : nat;
  pr_functionID : string;
  pr_kind : string;
  pr_path : string;
  pr_outputName : string;
  pr_insideRetry : bool;
  pr_step : producer_step }.

Definition NUL : string := String "000" "".

Definition producer_key (producer : snapshotProducer) : string :=
  pr_kind producer +:+ NUL +:+ pr_path producer +:+ NUL +:+ pr_functionID producer +:+ NUL +:+ pr_outputName producer.

Record validationBindingProvenance := {
  vp_candidate : string;
  vp_bases : gmap string string;
  vp_profile : string }.

Record snapshotBinding := {
  b_typ : string;
  b_presence : snapshotPresence;
  b_typed : bool;
  b_ambiguous : bool;
  b_producer : option snapshotProducer;
  b_writePath : string;
  b_resourceSource : string;
  b_validation : option validationBindingProvenance }.

Abbreviation snapshotEnvironment := (gmap string snapshotBinding).

Record snapshotFlow := {
  fl_env : snapshotEnvironment;
  fl_produced : gmap string snapshotBinding;
  fl_mayProduced : gmap string snapshotBinding;
  fl_allProduced : gmap string snapshotBinding }.

Definition emptySnapshotFlow (entry : snapshotEnvironment) : snapshotFlow :=
  {| fl_env := entry; fl_produced := ∅; fl_mayProduced := ∅; fl_allProduced := ∅ |}.

Definition conditional (b : snapshotBinding) : bool :=
  match b_presence b with snapshotConditional => true | snapshotGuaranteed => false end.

Definition set_presence (presence : snapshotPresence) (b : snapshotBinding) : snapshotBinding :=
  {| b_typ := b_typ b; b_presence := presence; b_typed := b_typed b; b_ambiguous := b_ambiguous b;
     b_producer := b_producer b; b_writePath := b_writePath b; b_resourceSource := b_resourceSource b;
     b_validation := b_validation b |}.

Definition joinWritePaths (left right : string) : string :=
  if String.eqb left "" then right
  else if String.eqb right "" || String.eqb left right then left
  else left +:+ " or " +:+ right.

(** The comparison of two producer pointers. *)
Definition same_producer (left right : option snapshotProducer) : bool :=
  bool_decide (pr_address <$> left = pr_address <$> right).

Definition mergeBindingAlternatives (left right : snapshotBinding) : snapshotBinding :=
  let agree := b_typed left && b_typed right && String.eqb (b_typ left) (b_typ right) in
  {| b_typ := if agree then b_typ left else "";
     b_presence := if conditional left || conditional right then snapshotConditional else snapshotGuaranteed;
     b_typed := agree;
     b_ambiguous := true;
     b_producer := if agree && same_producer (b_producer left) (b_producer right) then b_producer left else None;
     b_writePath := joinWritePaths (b_writePath left) (b_writePath right);
     b_resourceSource := "";
     b_validation := None |}.

Definition mergeProduced (destination source : gmap string snapshotBinding) : gmap string snapshotBinding :=
  source ∪ destination.

Definition mergeMayProduced (destination source : gmap string snapshotBinding) : gmap string snapshotBinding :=
  union_with (fun previous binding => Some (mergeBindingAlternatives previous binding)) destination source.

(** The environment in which the writes may have happened or not: a new name
    becomes conditional, an old one has both bindings as alternatives. *)
Definition possible_write (previous write : option snapshotBinding) : option snapshotBinding :=
  match previous, write with
  | Some previous, Some write => Some (mergeBindingAlternatives previous write)
  | None, Some write => Some (set_presence snapshotConditional write)
  | _, None => previous
  end.
Definition possible_writes (entry writes : gmap string snapshotBinding) : snapshotEnvironment :=
  merge possible_write entry writes.

Definition conditionalTryFlow (entry : snapshotEnvironment) (child : snapshotFlow) : snapshotFlow :=
  {| fl_env := possible_writes entry (fl_allProduced child);
     fl_produced := ∅;
     fl_mayProduced := fl_allProduced child;
     fl_allProduced := fl_allProduced child |}.

Definition conservativeEnsureEnvironment (entry : snapshotEnvironment) (main : snapshotFlow) : snapshotEnvironment :=
  possible_writes entry (fl_allProduced main).

(** What the loop of [applySuccessfulFlow] leaves at one name. *)
Definition apply_name (flow : snapshotFlow) (name : string) (previous : option snapshotBinding)
    : option snapshotBinding :=
  match fl_mayProduced flow !! name with
  | None => previous
  | Some write =>
      match fl_produced flow !! name with
      | Some binding =>
          match fl_env flow !! name with Some final => Some final | None => Some binding end
      | None =>
          match previous with
          | None => None
          | Some previous => Some (mergeBindingAlternatives previous write)
          end
      end
  end.
Definition applySuccessfulFlow (base : snapshotEnvironment) (flow : snapshotFlow) : snapshotEnvironment :=
  foldl (fun env name => partial_alter (fun _ => apply_name flow name (base !! name)) name env)
    base (names (dom (fl_mayProduced flow))).

(** ** The checker *)

Record nodeIdentityDeclaration := { nid_label : string; nid_identity : string }.

Record snapshotFlowChecker := {
  ch_nodeIdentities : gmap string nodeIdentityDeclaration;
  ch_prototypes : gset string;
  ch_devValidationProfiles : gmap string CompiledDevValidationProfile;
  ch_timeoutDepth : Z;
  ch_retryDepth : Z;
  ch_allocated : nat }.

Definition set_identities (ids : gmap string nodeIdentityDeclaration) (c : snapshotFlowChecker) :=
  {| ch_nodeIdentities := ids; ch_prototypes := ch_prototypes c;
     ch_devValidationProfiles := ch_devValidationProfiles c; ch_timeoutDepth := ch_timeoutDepth c;
     ch_retryDepth := ch_retryDepth c; ch_allocated := ch_allocated c |}.
Definition add_depths (timeout retry : Z) (c : snapshotFlowChecker) :=
  {| ch_nodeIdentities := ch_nodeIdentities c; ch_prototypes := ch_prototypes c;
     ch_devValidationProfiles := ch_devValidationProfiles c; ch_timeoutDepth := ch_timeoutDepth c + timeout;
     ch_retryDepth := ch_retryDepth c + retry; ch_allocated := ch_allocated c |}.
Definition set_allocated (n : nat) (c : snapshotFlowChecker) :=
  {| ch_nodeIdentities := ch_nodeIdentities c; ch_prototypes := ch_prototypes c;
     ch_devValidationProfiles := ch_devValidationProfiles c; ch_timeoutDepth := ch_timeoutDepth c;
     ch_retryDepth := ch_retryDepth c; ch_allocated := n |}.

Abbreviation Chk A := (stateful snapshotFlowChecker message A).

(** [&snapshotProducer{...}] *)
Definition new_address : Chk nat := fun c => (Ret (ch_allocated c), set_allocated (S (ch_allocated c)) c).
Definition inside_retry : Chk bool := fun c => (Ret (0 <? ch_retryDepth c), c).
Definition read {A} (f : snapshotFlowChecker -> A) : Chk A := fun c => (Ret (f c), c).

(** The call between the increment and the decrement of a depth. *)
Definition deeper {A} (timeout retry : Z) (m : Chk A) : Chk A :=
  fun c => let '(r, c) := m (add_depths timeout retry c) in (r, add_depths (- timeout) (- retry) c).

Definition raise (err : option message) : Chk unit :=
  match err with Some err => fail err | None => mret () end.

Definition registerNodeIdentity (label nodeID identity : string) : Chk unit :=
  fun c =>
    if blank nodeID then
      (Fail (Msg "workflow: %s: typed node requires a nonblank authored %s" [identity; label]), c)
    else match ch_nodeIdentities c !! nodeID with
    | Some previous =>
        (Fail (Msg "workflow: %s: duplicate %s %q; first declared as %s at %s"
                   [identity; label; nodeID; nid_label previous; nid_identity previous]), c)
    | None =>
        (Ret (), set_identities
           (<[ nodeID := {| nid_label := label; nid_identity := identity |} ]> (ch_nodeIdentities c)) c)
    end.

Definition rejectResourceSourceShadow (entry : snapshotEnvironment) (name path : string) : option message :=
  match entry !! name with
  | Some binding =>
      guard_error (negb (String.eqb (b_resourceSource binding) ""))
        (Msg "workflow: %s: resource source %q cannot be shadowed" [path; b_resourceSource binding])
  | None => None
  end.

Definition bindingIdentity (binding : snapshotBinding) : option string :=
  if b_ambiguous binding || conditional binding then None
  else match b_producer binding with
  | Some producer => Some (producer_key producer)
  | None => if String.eqb (b_writePath binding) "" then None else Some (b_writePath binding)
  end.

(** [sort.Strings] of the keys of a map, with their values. *)
Definition sorted_entries {V} (m : gmap string V) : list (string * V) :=
  omap (fun name => pair name <$> m !! name) (names (dom m)).

Definition sortedUniqueStrings (values : list string) : list string := names (list_to_set values).

(** [validateExactTypedCoverage] (extract.go) *)
Definition validateExactTypedCoverage (label : string) (ordinary typed : list string) : option message :=
  let ordinary := sortedUniqueStrings ordinary in
  let typed := sortedUniqueStrings typed in
  guard_error (negb (bool_decide (ordinary = typed)))
    (Msg "every declared %s must be typed: declared=%v typed=%v" (label :: ordinary ++ typed)).

Definition effectiveTaskArtifactNames (step : TaskStep) : list string * list string :=
  (effectiveTaskInputs step, effectiveTaskOutputs step).

Definition effectiveAgentArtifactNames (step : AgentStep) : list string * list string :=
  (mapped_name (a_InputMapping step) <$> a_Inputs step,
   mapped_name (a_OutputMapping step) <$> a_Outputs step).

Section Checker.
Context `{MapOrder} `{StepChecks}.

(** [MappedSnapshotInputs] and [MappedSnapshotOutputs]: when two names are
    mapped to one, the last in the order of the range is kept. *)
Definition mapped_snapshots {V} (source : gmap string V) (mapping : gmap string string) : gmap string V :=
  foldl (fun mapped p => <[ mapped_name mapping p.1 := p.2 ]> mapped) ∅ (range source).
Definition MappedSnapshotInputs (source : gmap string SnapshotInputConfig) (mapping : gmap string string) :=
  mapped_snapshots source mapping.
Definition MappedSnapshotOutputs (source : gmap string SnapshotOutputConfig) (mapping : gmap string string) :=
  mapped_snapshots source mapping.

(** [humanReviewCandidate]: the candidate, when the agent is a human review. *)
Definition humanReviewCandidate (step : AgentStep) : outcome message (option string) :=
  if negb (existsb (fun p => String.eqb (so_Type p.2) "question/v1") (range (a_SnapshotOutputs step))) then Ret None
  else match filter (fun p => si_Type p.2 = "repository-change/v1"%string) (sorted_entries (a_SnapshotInputs step)) with
  | [] => Ret None
  | [(name, _)] => Ret (Some name)
  | _ => Fail (Msg "human review requires exactly one repository-change/v1 input" [])
  end.

(** [bindingIdentity(entry[name])], when the name is found and exact. *)
Definition exact_identity (entry : snapshotEnvironment) (name : string) : option string :=
  entry !! name ≫= bindingIdentity.

Definition required_binding (inputs : gmap string SnapshotInputConfig) (identity name : string) : option message :=
  guard_error (match inputs !! name with Some declaration => si_Optional declaration | None => true end)
    (Msg "workflow: %s: validation binding %q must be a required typed input" [identity; name]).

Definition has_type (binding : snapshotBinding) (t : string) : bool :=
  b_typed binding && String.eqb (b_typ binding) t.

Definition requireValidation (profiles : gmap string CompiledDevValidationProfile) (entry : snapshotEnvironment)
    (validationName candidateName : string) (inputs : option (gmap string SnapshotInputConfig))
    (inputMapping : gmap string string) (identity : string) : option message :=
  let validationName := mapped_name inputMapping validationName in
  let candidateName := mapped_name inputMapping candidateName in
  let error format := Some (Msg ("workflow: %s: " +:+ format) [identity]) in
  if String.eqb validationName "" then error "authoritative validation is required"
  else match match inputs with
             | Some inputs => first_error [required_binding inputs identity candidateName;
                                           required_binding inputs identity validationName]
             | None => None
             end with
  | Some err => Some err
  | None =>
      match entry !! candidateName with
      | Some candidate =>
          if negb (has_type candidate "repository-change/v1") then error "validation candidate is unavailable"
          else match bindingIdentity candidate with
          | None => error "validation candidate is ambiguous"
          | Some candidateIdentity =>
              match entry !! validationName with
              | Some validation =>
                  match b_validation validation with
                  | Some provenance =>
                      if negb (has_type validation "validation/v1") then
                        error "validation is not authoritative dev validation"
                      else if negb (String.eqb (vp_candidate provenance) candidateIdentity) then
                        error "validation does not dominate the current candidate"
                      else match find (fun p => negb (bool_decide
                                   (exact_identity entry (mapped_name inputMapping p.1) = Some p.2)))
                                 (range (vp_bases provenance)) with
                      | Some (name, _) =>
                          Some (Msg "workflow: %s: validation does not bind current base %q"
                                    [identity; mapped_name inputMapping name])
                      | None =>
                          match profiles !! vp_profile provenance with
                          | Some _ => None
                          | None => error "validation profile is not frozen authority"
                          end
                      end
                  | None => error "validation is not authoritative dev validation"
                  end
              | None => error "validation is not authoritative dev validation"
              end
          end
      | None => error "validation candidate is unavailable"
      end
  end.

(** ** Leaves *)

Definition identity_of (path kind name : string) : string :=
  path +:+ "." +:+ kind +:+ "(" +:+ quoted name +:+ ")".

(** The check of one typed input against the environment. *)
Definition check_input (identity : string) (entry : snapshotEnvironment)
    (p : string * SnapshotInputConfig) : option message :=
  let '(name, declaration) := p in
  let error format args := Some (Msg ("workflow: %s: " +:+ format) (identity :: args)) in
  match under "workflow: %s: input %q: %w" [identity; name] (SnapshotInputConfig_Validate declaration) with
  | Some err => Some err
  | None =>
      match entry !! name with
      | None => error "input %q is unavailable (use before produce or undeclared workflow input)" [name]
      | Some binding =>
          if negb (b_typed binding) then
            if b_ambiguous binding then error "input %q has ambiguous possible writes at %s" [name; b_writePath binding]
            else error "input %q is occupied by an untyped producer at %s" [name; b_writePath binding]
          else if negb (String.eqb (b_typ binding) (si_Type declaration)) then
            error "input %q type mismatch: have %s, require %s" [name; b_typ binding; si_Type declaration]
          else if negb (si_Optional declaration) && conditional binding then
            error "required input %q cannot use a conditional binding" [name]
          else None
      end
  end.

Definition undeclared_input (identity : string) (entry : snapshotEnvironment)
    (typedInputs : gmap string SnapshotInputConfig) (name : string) : option message :=
  match entry !! name with
  | Some binding =>
      guard_error (b_typed binding && negb (bool_decide (is_Some (typedInputs !! name))))
        (Msg "workflow: %s: known typed artifact %q is consumed without input_types declaration" [identity; name])
  | None => None
  end.

Abbreviation writes := (snapshotEnvironment * gmap string snapshotBinding)%type.

Definition write (name : string) (binding : snapshotBinding) (w : writes) : writes :=
  (<[ name := binding ]> w.1, <[ name := binding ]> w.2).

(** The outputs that have no type. *)
Fixpoint ordinary_outputs (identity : string) (entry : snapshotEnvironment)
    (typedOutputs : gmap string SnapshotOutputConfig) (outputs : list string) (w : writes) : Chk writes :=
  match outputs with
  | [] => mret w
  | name :: outputs =>
      _ ← raise (rejectResourceSourceShadow entry name identity);
      ordinary_outputs identity entry typedOutputs outputs
        (match typedOutputs !! name with
         | Some _ => w
         | None =>
             write name {| b_typ := ""; b_presence := snapshotGuaranteed; b_typed := false; b_ambiguous := false;
                           b_producer := None; b_writePath := identity; b_resourceSource := "";
                           b_validation := None |} w
         end)
  end.

(** The identities of the base inputs of a validation. *)
Fixpoint exact_bases (identity : string) (entry : snapshotEnvironment) (bases : list DevValidationBaseInput)
    (acc : gmap string string) : outcome message (gmap string string) :=
  match bases with
  | [] => Ret acc
  | base :: bases =>
      match exact_identity entry (dvb_Name base) with
      | Some id => exact_bases identity entry bases (<[ dvb_Name base := id ]> acc)
      | None => Fail (Msg "workflow: %s: authoritative validation base %q is not exact" [identity; dvb_Name base])
      end
  end.

Definition DevValidationOutput : string := "validation".

(** The authority of a task that is an authoritative development validation, at
    the output that carries it. *)
Definition validating (step : producer_step) (name : string) (declaration : SnapshotOutputConfig)
    : option DevValidationAuthority :=
  match step with
  | PTask task =>
      if String.eqb (so_Type declaration) "validation/v1" && String.eqb name DevValidationOutput
      then t_DevValidationAuthority task else None
  | _ => None
  end.

Definition provenance_of (identity : string) (entry : snapshotEnvironment)
    (authority : DevValidationAuthority) : outcome message validationBindingProvenance :=
  match exact_identity entry (dva_CandidateInput authority) with
  | None => Fail (Msg "workflow: %s: authoritative validation candidate is not exact" [identity])
  | Some candidate =>
      bases ← exact_bases identity entry (dva_BaseInputs authority) ∅;
      Ret {| vp_candidate := candidate; vp_bases := bases; vp_profile := dva_ProfileName authority |}
  end.

Definition lift {A} (m : outcome message A) : Chk A := fun c => (m, c).

(** The binding of one typed output. *)
Definition typed_output (kind functionID identity : string) (step : producer_step) (entry env : snapshotEnvironment)
    (p : string * SnapshotOutputConfig) : Chk snapshotBinding :=
  let '(name, declaration) := p in
  _ ← raise (rejectResourceSourceShadow entry name identity);
  _ ← raise (under "workflow: %s: output %q: %w" [identity; name] (SnapshotOutputConfig_Validate declaration));
  _ ← raise (guard_error (bool_decide (is_Some (env !! name)) && so_Optional declaration)
        (Msg "workflow: %s: optional output %q shadows an existing artifact; its concrete producer would be path-dependent"
             [identity; name]));
  address ← new_address;
  insideRetry ← inside_retry;
  validation ← match validating step name declaration with
               | Some authority => provenance ← lift (provenance_of identity entry authority); mret (Some provenance)
               | None => mret None
               end;
  mret
    {| b_typ := so_Type declaration;
       b_presence := if so_Optional declaration then snapshotConditional else snapshotGuaranteed;
       b_typed := true;
       b_ambiguous := false;
       b_producer := Some
         {| pr_address := address; pr_functionID := functionID; pr_kind := kind; pr_path := identity;
            pr_outputName := name; pr_insideRetry := insideRetry; pr_step := step |};
       b_writePath := identity;
       b_resourceSource := "";
       b_validation := validation |}.

Fixpoint typed_outputs (kind functionID identity : string) (step : producer_step) (entry : snapshotEnvironment)
    (outputs : list (string * SnapshotOutputConfig)) (w : writes) : Chk writes :=
  match outputs with
  | [] => mret w
  | p :: outputs =>
      binding ← typed_output kind functionID identity step entry w.1 p;
      typed_outputs kind functionID identity step entry outputs (write p.1 binding w)
  end.

Definition file_backed (step : producer_step) : bool :=
  match step with PTask task => match t_Config task with None => true | Some _ => false end | _ => false end.

Definition checkLeaf (kind displayName functionID : string) (ordinaryInputs : list string)
    (typedInputs : gmap string SnapshotInputConfig) (ordinaryOutputs : list string)
    (typedOutputs : gmap string SnapshotOutputConfig) (step : producer_step)
    (entry : snapshotEnvironment) (path : string) : Chk snapshotFlow :=
  let identity := identity_of path kind displayName in
  _ ← registerNodeIdentity "function_id" functionID identity;
  _ ← (if file_backed step then mret () else
       raise (under "workflow: %s: %w" [identity] (first_error
         [validateExactTypedCoverage (kind +:+ " input") ordinaryInputs (range typedInputs).*1;
          validateExactTypedCoverage (kind +:+ " output") ordinaryOutputs (range typedOutputs).*1])));
  _ ← each (fun name => raise (undeclared_input identity entry typedInputs name)) (sortedUniqueStrings ordinaryInputs);
  _ ← each (fun p => raise (check_input identity entry p)) (sorted_entries typedInputs);
  w ← ordinary_outputs identity entry typedOutputs (sortedUniqueStrings ordinaryOutputs) (entry, ∅);
  w ← typed_outputs kind functionID identity step entry (sorted_entries typedOutputs) w;
  mret {| fl_env := w.1; fl_produced := w.2; fl_mayProduced := w.2; fl_allProduced := w.2 |}.

Definition checkTask (step : TaskStep) (entry : snapshotEnvironment) (path : string) : Chk snapshotFlow :=
  _ ← raise (guard_error
        (file_backed (PTask step) && bool_decide (t_SnapshotInputs step = ∅) && bool_decide (t_SnapshotOutputs step = ∅) &&
         existsb (fun p => negb (String.eqb (b_resourceSource p.2) "")) (range entry))
        (Msg "workflow: %s.task(%q): cannot prove that a file-backed task preserves resource sources without explicit input_types or output_types"
             [path; t_Name step]));
  let '(inputs, outputs) := effectiveTaskArtifactNames step in
  checkLeaf "task" (t_Name step) (t_FunctionID step) inputs (t_SnapshotInputs step) outputs (t_SnapshotOutputs step)
    (PTask step) entry path.

Definition present {A} (o : option A) : bool := match o with Some _ => true | None => false end.

Definition checkAgent (step : AgentStep) (entry : snapshotEnvironment) (path : string) : Chk snapshotFlow :=
  let '(inputs, outputs) := effectiveAgentArtifactNames step in
  let typedInputs := MappedSnapshotInputs (a_SnapshotInputs step) (a_InputMapping step) in
  flow ← checkLeaf "agent" (a_Name step) (a_FunctionID step) inputs typedInputs outputs
           (MappedSnapshotOutputs (a_SnapshotOutputs step) (a_OutputMapping step)) (PAgent step) entry path;
  let identity := identity_of path "agent" (a_Name step) in
  match humanReviewCandidate step with
  | Ret (Some candidate) =>
      profiles ← read ch_devValidationProfiles;
      _ ← raise (requireValidation profiles entry (a_Validation step) candidate (Some typedInputs)
                   (a_InputMapping step) identity);
      mret flow
  | Ret None =>
      _ ← raise (guard_error (negb (String.eqb (a_Validation step) "") || present (a_ReviewValidation step))
            (Msg "workflow: %s: validation is only valid for a human review" [identity]));
      mret flow
  | Fail err => fail (wrap_message "workflow: %s: %w" [identity] err)
  | Panic => lift Panic
  | NoFuel => lift NoFuel
  end.

(** ** The snapshot steps *)

Definition MergeBaseParameter : string := "expected_base_sha".

(** [publisher.RejectAuthoredMergeBase] (agent/publisher/mergebase.go) *)
Definition RejectAuthoredMergeBase (parameters : gmap string string) : option message :=
  guard_error (present (parameters !! MergeBaseParameter))
    (Msg "%w: %s is server-derived from the bound repository-change/v1 input and must not be authored"
         ["publisher: invalid request"%string; MergeBaseParameter]).

(** A binding that must be there for certain, with an exact type. *)
Definition exact_binding (identity what name type : string) (entry : snapshotEnvironment) : option message :=
  let error format args := Some (Msg ("workflow: %s: " +:+ what +:+ " %q " +:+ format) (identity :: name :: args)) in
  match entry !! name with
  | None => error "is unavailable (use before produce)" []
  | Some binding =>
      if negb (has_type binding type) then error "must have exact type %s" [type]
      else if conditional binding then error "cannot use a conditional binding" []
      else None
  end.

(** The intent a merge publication must be the same as. *)
Definition approval_intent (binding : snapshotBinding) : option MergeApprovalIntent :=
  match b_producer binding with
  | Some producer => match pr_step producer with PAwait await => aw_MergeApproval await | _ => None end
  | None => None
  end.

Definition binds_publication (intent : MergeApprovalIntent) (step : PublishSnapshotStep) : bool :=
  String.eqb (ma_Input intent) (ps_Input step) && String.eqb (ma_Publisher intent) (ps_Publisher step) &&
  String.eqb (ma_Destination intent) (ps_Destination step) &&
  bool_decide (ma_Parameters intent = ps_Parameters step) &&
  String.eqb (ma_ApprovalPolicyVersion intent) (ps_ApprovalPolicyVersion step).

Definition check_merge (identity : string) (step : PublishSnapshotStep) (entry : snapshotEnvironment) : option message :=
  first_error
    [under "workflow: %s: %w" [identity] (RejectAuthoredMergeBase (ps_Parameters step));
     exact_binding identity "approval" (ps_Approval step) "human-answer/v1" entry;
     match entry !! ps_Approval step ≫= approval_intent with
     | None =>
         Some (Msg "workflow: %s: approval %q must be produced by a server-bound merge_approval await_snapshot in this workflow"
                   [identity; ps_Approval step])
     | Some intent =>
         guard_error (negb (binds_publication intent step))
           (Msg "workflow: %s: approval %q does not bind this exact merge publication" [identity; ps_Approval step])
     end].

(** The check of the published input. *)
Definition check_published (identity : string) (step : PublishSnapshotStep) (entry : snapshotEnvironment) : option message :=
  let error format args := Some (Msg ("workflow: %s: input %q " +:+ format) (identity :: ps_Input step :: args)) in
  match entry !! ps_Input step with
  | None => error "is unavailable (use before produce)" []
  | Some binding =>
      if negb (b_typed binding) then
        if b_ambiguous binding then error "has ambiguous possible writes at %s" [b_writePath binding]
        else error "is occupied by an untyped producer at %s" [b_writePath binding]
      else if negb (String.eqb (b_typ binding) (ps_InputType step)) then
        error "type mismatch: have %s, require %s" [b_typ binding; ps_InputType step]
      else if conditional binding then error "cannot use a conditional binding" []
      else None
  end.

Definition checkPublishSnapshot (step : PublishSnapshotStep) (entry : snapshotEnvironment) (path : string)
    : Chk snapshotFlow :=
  let identity := identity_of path "publish_snapshot" (ps_Name step) in
  _ ← registerNodeIdentity "binding name" (ps_Name step) identity;
  _ ← raise (under "workflow: %s: input_type: %w" [identity] (type_error (ps_InputType step)));
  _ ← raise (check_published identity step entry);
  profiles ← read ch_devValidationProfiles;
  _ ← raise (if String.eqb (ps_InputType step) "repository-change/v1" then
               requireValidation profiles entry (ps_Validation step) (ps_Input step) None ∅ identity
             else
               guard_error (negb (String.eqb (ps_Validation step) "") || present (ps_PublishValidation step))
                 (Msg "workflow: %s: validation is only valid for repository-change/v1 publication" [identity]));
  _ ← raise (if String.eqb (ps_Mode step) "merge" then check_merge identity step entry else None);
  mret (emptySnapshotFlow entry).

(** One write on success. *)
Definition single_write (entry : snapshotEnvironment) (name : string) (binding : snapshotBinding) : snapshotFlow :=
  let written := {[ name := binding ]} in
  {| fl_env := <[ name := binding ]> entry; fl_produced := written; fl_mayProduced := written;
     fl_allProduced := written |}.

Definition checkLoadSnapshot (step : LoadSnapshotStep) (entry : snapshotEnvironment) (path : string)
    : Chk snapshotFlow :=
  let identity := identity_of path "load_snapshot" (ls_Name step) in
  _ ← registerNodeIdentity "binding name" (ls_Name step) identity;
  _ ← raise (rejectResourceSourceShadow entry (ls_Name step) identity);
  _ ← raise (guard_error (ls_Optional step && present (entry !! ls_Name step))
        (Msg "workflow: %s: optional load shadows an existing artifact; its value would be path-dependent" [identity]));
  mret (single_write entry (ls_Name step)
    {| b_typ := ls_Type step;
       b_presence := if ls_Optional step then snapshotConditional else snapshotGuaranteed;
       b_typed := true; b_ambiguous := false; b_producer := None; b_writePath := identity;
       b_resourceSource := ""; b_validation := None |}).

Definition checkAwaitSnapshot (step : AwaitSnapshotStep) (entry : snapshotEnvironment) (path : string)
    : Chk snapshotFlow :=
  let identity := identity_of path "await_snapshot" (aw_Name step) in
  _ ← registerNodeIdentity "binding name" (aw_Name step) identity;
  _ ← raise (rejectResourceSourceShadow entry (aw_Name step) identity);
  timeoutDepth ← read ch_timeoutDepth;
  _ ← raise (guard_error (timeoutDepth =? 0)
        (Msg "workflow: %s: an ordinary timeout wrapper is required" [identity]));
  profiles ← read ch_devValidationProfiles;
  _ ← raise
        match aw_MergeApproval step with
        | Some intent =>
            first_error
              [under "workflow: %s: %w" [identity] (RejectAuthoredMergeBase (ma_Parameters intent));
               exact_binding identity "merge approval input" (ma_Input intent) "repository-change/v1" entry;
               requireValidation profiles entry (aw_Validation step) (ma_Input intent) None ∅ identity]
        | None =>
            first_error
              [guard_error (negb (String.eqb (aw_Validation step) "") || present (aw_MergeApprovalValidation step))
                 (Msg "workflow: %s: validation is only valid for merge approval" [identity]);
               exact_binding identity "question" (aw_Question step) "question/v1" entry]
        end;
  _ ← raise (guard_error (negb (String.eqb (aw_Type step) "human-answer/v1"))
        (Msg "workflow: %s: output must have exact type human-answer/v1" [identity]));
  address ← new_address;
  insideRetry ← inside_retry;
  mret (single_write entry (aw_Name step)
    {| b_typ := aw_Type step; b_presence := snapshotGuaranteed; b_typed := true; b_ambiguous := false;
       b_producer := Some
         {| pr_address := address; pr_functionID := ""; pr_kind := "await_snapshot"; pr_path := identity;
            pr_outputName := aw_Name step; pr_insideRetry := insideRetry; pr_step := PAwait step |};
       b_writePath := identity; b_resourceSource := ""; b_validation := None |}).

(** ** Reads that have no type *)

Fixpoint before_slash (s : string) : option string :=
  match s with
  | EmptyString => None
  | String c s => if Ascii.eqb c "/" then Some "" else String c <$> before_slash s
  end.

Abbreviation reads_map := (gmap string string).

Definition record_read (name readPath : string) (reads : reads_map) : reads_map :=
  if blank name then reads
  else match reads !! name with Some _ => reads | None => <[ name := readPath ]> reads end.

Definition recordPathSource (value readPath : string) (reads : reads_map) : reads_map :=
  match before_slash value with Some name => record_read name readPath reads | None => reads end.

Definition record_untyped {V} (typed : gmap string V) (readPath : string) (inputs : list string) (reads : reads_map)
    : reads_map :=
  foldl (fun reads name => match typed !! name with Some _ => reads | None => record_read name readPath reads end)
    reads inputs.

Definition named (path kind name what : string) : string := path +:+ "." +:+ kind +:+ "(" +:+ name +:+ ")" +:+ what.

Definition collect_all (collect : StepConfig -> string -> reads_map -> reads_map) (label : string)
    : nat -> list Step -> reads_map -> reads_map :=
  fix go index steps reads :=
    match steps with
    | [] => reads
    | step :: steps => go (S index) steps (collect (Config step) (indexed label index) reads)
    end.

Fixpoint collect (step : StepConfig) (path : string) (reads : reads_map) : reads_map :=
  match step with
  | STask config =>
      let reads := record_untyped (t_SnapshotInputs config) (named path "task" (t_Name config) ".inputs")
                     (effectiveTaskArtifactNames config).1 reads in
      let reads := record_read (t_ImageArtifactName config) (named path "task" (t_Name config) ".image") reads in
      recordPathSource (t_ConfigPath config) (named path "task" (t_Name config) ".file") reads
  | SAgent config =>
      record_untyped (MappedSnapshotInputs (a_SnapshotInputs config) (a_InputMapping config))
        (named path "agent" (a_Name config) ".inputs") (effectiveAgentArtifactNames config).1 reads
  | SLoadVar config => recordPathSource (lv_File config) (named path "load_var" (lv_Name config) "") reads
  | SDo steps => collect_all collect (path +:+ ".do.steps") 0 steps reads
  | SInParallel steps _ _ => collect_all collect (path +:+ ".in_parallel.steps") 0 steps reads
  | STry step => collect (Config step) (path +:+ ".try") reads
  | SRetry step _ => collect step (path +:+ ".attempts") reads
  | STimeout step _ => collect step (path +:+ ".timeout") reads
  | SOnSuccess step hook => collect (Config hook) (path +:+ ".on_success") (collect step path reads)
  | SOnFailure step hook => collect (Config hook) (path +:+ ".on_failure") (collect step path reads)
  | SOnError step hook => collect (Config hook) (path +:+ ".on_error") (collect step path reads)
  | SOnAbort step hook => collect (Config hook) (path +:+ ".on_abort") (collect step path reads)
  | SEnsure step hook => collect (Config hook) (path +:+ ".ensure") (collect step path reads)
  | SAcross step _ _ => collect step (path +:+ ".across") reads
  | _ => reads
  end.

Definition collectUntypedArtifactReads (step : Step) (path : string) : reads_map := collect (Config step) path ∅.

(** ** Composite steps *)

Section Composite.
Context (check : StepConfig -> snapshotEnvironment -> string -> Chk snapshotFlow).

Definition then_flow (first second : snapshotFlow) : snapshotFlow :=
  {| fl_env := fl_env second;
     fl_produced := mergeProduced (fl_produced first) (fl_produced second);
     fl_mayProduced := mergeMayProduced (fl_mayProduced first) (fl_mayProduced second);
     fl_allProduced := mergeMayProduced (fl_allProduced first) (fl_allProduced second) |}.

(** The loop of [checkSequence]; [flow] is what the steps before have made. *)
Definition check_steps (path : string) : nat -> list Step -> snapshotFlow -> Chk snapshotFlow :=
  fix go index steps flow :=
    match steps with
    | [] => mret flow
    | step :: steps =>
        child ← check (Config step) (fl_env flow) (indexed path index);
        go (S index) steps (then_flow flow child)
    end.

(** The branches of [checkParallel] and the branch that produces each name. *)
Definition producer_conflict (path : string) (index : nat) (branch : snapshotFlow) (producerBranch : gmap string nat)
    : option message :=
  match find (fun name => present (producerBranch !! name)) (names (dom (fl_mayProduced branch))) with
  | Some name =>
      Some (Msg "workflow: %s: parallel branches both produce %q (branches %d and %d)"
                [path; name; pretty (default O (producerBranch !! name)); pretty index])
  | None => None
  end.

Definition check_branches (path : string) (entry : snapshotEnvironment)
    : nat -> list Step -> gmap string nat -> Chk (list snapshotFlow * gmap string nat) :=
  fix go index steps producerBranch :=
    match steps with
    | [] => mret ([], producerBranch)
    | step :: steps =>
        branch ← check (Config step) entry (indexed (path +:+ ".in_parallel.steps") index);
        _ ← raise (producer_conflict path index branch producerBranch);
        '(branches, producerBranch) ←
          go (S index) steps ((const index <$> fl_mayProduced branch) ∪ producerBranch);
        mret (branch :: branches, producerBranch)
    end.
End Composite.

Definition checkSequence (check : StepConfig -> snapshotEnvironment -> string -> Chk snapshotFlow)
    (steps : list Step) (entry : snapshotEnvironment) (path : string) : Chk snapshotFlow :=
  check_steps check path 0 steps (emptySnapshotFlow entry).

(** The first untyped read of a name that another branch may write with a type. *)
Definition untyped_race (path : string) (branches : list snapshotFlow) (readerIndex : nat) (reads : reads_map)
    : option message :=
  head (omap (fun p =>
    let '(name, readPath) := p in
    head (omap (fun w =>
      let '(writerIndex, branch) := w in
      if Nat.eqb writerIndex readerIndex then None
      else match fl_allProduced branch !! name with
      | Some binding =>
          guard_error (b_typed binding)
            (Msg "workflow: %s: parallel branch %d has an untyped read of %q at %s while branch %d may produce that typed snapshot"
                 [path; pretty readerIndex; name; readPath; pretty writerIndex])
      | None => None
      end) (imap pair branches))) (sorted_entries reads)).

Definition untyped_races (path : string) (branches : list snapshotFlow) (reads : list reads_map) : option message :=
  head (omap (fun p => untyped_race path branches p.1 p.2) (imap pair reads)).

Definition branch_map (branches : list snapshotFlow) (f : snapshotFlow -> gmap string snapshotBinding)
    (name : string) (index : nat) : option snapshotBinding :=
  branches !! index ≫= fun branch => f branch !! name.

Definition join_branches (entry : snapshotEnvironment) (branches : list snapshotFlow) (producerBranch : gmap string nat)
    : snapshotFlow :=
  let select f := map_imap (fun name index => branch_map branches f name index) producerBranch in
  {| fl_env := select fl_env ∪ entry;
     fl_produced := select fl_produced;
     fl_mayProduced := select fl_mayProduced;
     fl_allProduced := foldl (fun all branch => mergeMayProduced all (fl_allProduced branch)) ∅ branches |}.

Definition checkParallel (check : StepConfig -> snapshotEnvironment -> string -> Chk snapshotFlow)
    (steps : list Step) (entry : snapshotEnvironment) (path : string) : Chk snapshotFlow :=
  '(branches, producerBranch) ← check_branches check path entry 0 steps ∅;
  let reads := imap (fun index step => collectUntypedArtifactReads step
                       (indexed (path +:+ ".in_parallel.steps") index)) steps in
  _ ← raise (untyped_races path branches reads);
  mret (join_branches entry branches producerBranch).

Definition checkNonSuccessHook (main hook : snapshotFlow) : snapshotFlow :=
  {| fl_env := fl_env main; fl_produced := fl_produced main; fl_mayProduced := fl_mayProduced main;
     fl_allProduced := mergeMayProduced (fl_allProduced main) (fl_allProduced hook) |}.

Definition ensure_flow (main hook : snapshotFlow) : snapshotFlow :=
  {| fl_env := applySuccessfulFlow (fl_env main) hook;
     fl_produced := mergeProduced (fl_produced main) (fl_produced hook);
     fl_mayProduced := mergeMayProduced (fl_mayProduced main) (fl_mayProduced hook);
     fl_allProduced := mergeMayProduced (fl_allProduced main) (fl_allProduced hook) |}.

Definition retry_flow (child : snapshotFlow) : snapshotFlow :=
  {| fl_env := fl_env child; fl_produced := fl_produced child; fl_mayProduced := fl_mayProduced child;
     fl_allProduced := fl_mayProduced child |}.

Definition not_permitted (path kind name why : string) : message :=
  Msg ("workflow: %s." +:+ kind +:+ "(%q): " +:+ why) [path; name].

Fixpoint checkStep (step : StepConfig) (entry : snapshotEnvironment) (path : string) : Chk snapshotFlow :=
  let non_success main hookStep hookName :=
    main ← checkStep main entry path;
    hook ← checkStep hookStep entry (path +:+ hookName);
    mret (checkNonSuccessHook main hook) in
  match step with
  | STask config => checkTask config entry path
  | SAgent config => checkAgent config entry path
  | SGet config => fail (not_permitted path "get" (g_Name config)
      "get is a live-read boundary and is not permitted in schema-version-3 workflow functions; capture the resource version into a snapshot before invocation")
  | SLoadSnapshot config => checkLoadSnapshot config entry path
  | SAwaitSnapshot config => checkAwaitSnapshot config entry path
  | SPublishSnapshot config => checkPublishSnapshot config entry path
  | SRun config =>
      prototypes ← read ch_prototypes;
      if bool_decide (r_Type config ∈ prototypes) then
        fail (Msg "workflow: %s: prototype run steps are not executable in workflow functions" [path])
      else mret (emptySnapshotFlow entry)
  | SPut config => fail (not_permitted path "put" (p_Name config)
      "put is not permitted in schema-version-3 workflow functions; use publish_snapshot for governed outbound effects")
  | SSetPipeline config => fail (not_permitted path "set_pipeline" (sp_Name config)
      "set_pipeline is not permitted in schema-version-3 workflow functions; use publish_snapshot for governed outbound effects")
  | SLoadVar config => fail (not_permitted path "load_var" (lv_Name config)
      "load_var is an untyped snapshot read and is not permitted in schema-version-3 workflow functions; model the value as a typed snapshot input")
  | SDo steps => checkSequence checkStep steps entry (path +:+ ".do.steps")
  | SInParallel steps _ _ => checkParallel checkStep steps entry path
  | STry step =>
      child ← checkStep (Config step) entry (path +:+ ".try");
      mret (conditionalTryFlow entry child)
  | SRetry step _ =>
      child ← deeper 0 1 (checkStep step entry (path +:+ ".attempts"));
      mret (retry_flow child)
  | STimeout step _ => deeper 1 0 (checkStep step entry (path +:+ ".timeout"))
  | SOnSuccess main hook =>
      main ← checkStep main entry path;
      hook ← checkStep (Config hook) (fl_env main) (path +:+ ".on_success");
      mret (then_flow main hook)
  | SOnFailure main hook => non_success main (Config hook) ".on_failure"
  | SOnError main hook => non_success main (Config hook) ".on_error"
  | SOnAbort main hook => non_success main (Config hook) ".on_abort"
  | SEnsure main hook =>
      main ← checkStep main entry path;
      hook ← checkStep (Config hook) (conservativeEnsureEnvironment entry main) (path +:+ ".ensure");
      mret (ensure_flow main hook)
  | SAcross _ _ _ =>
      fail (Msg "workflow: %s: across steps cannot provide exact execution provenance in workflow functions" [path])
  end.

End Checker.
