(* ===== verification/WorkflowFunction.v ===== *)
(** * Type checking a workflow function (agent/workflow/typecheck.go)

    [analyzeFunctionFlow]: the environment of the function's inputs and resource
    sources, the check of its plan and the producer of each public output;
    [AnnotatePublicOutputs], which marks those producers; [ValidateFunction],
    which adds the validator of ordinary pipelines.

    A producer points to a step of the plan.  [registerNodeIdentity] gives every
    node of a plan that is accepted an identity of its own, so the step is found
    again by its function ID (an await by its name). *)
From stdpp Require Import base gmap sets list strings sorting pretty.
From Stdlib Require Import ZArith Ascii Lia.
From S2P Require Import Prelude Vars Repository Parallel ExecWorld GoText Steps StepValidator Planner ConfigValidate WorkflowConfig WorkflowTypes.

Set Warnings "-register-all".
Open Scope Z_scope.

Record publicOutputTarget := { tg_portName : string; tg_producer : snapshotProducer }.

(** ** The entry environment *)

Definition input_binding (index : nat) (input : Port) : snapshotBinding :=
  {| b_typ := port_Type input;
     b_presence := if port_Optional input then snapshotConditional else snapshotGuaranteed;
     b_typed := true; b_ambiguous := false; b_producer := None; b_writePath := indexed "inputs" index;
     b_resourceSource := ""; b_validation := None |}.

Definition source_binding (index : nat) (source : ResourceSource) : snapshotBinding :=
  {| b_typ := rs_Type source; b_presence := snapshotGuaranteed; b_typed := true; b_ambiguous := false;
     b_producer := None; b_writePath := indexed "resource_sources" index; b_resourceSource := rs_Name source;
     b_validation := None |}.

Definition bind_all {A} (name : A -> string) (binding : nat -> A -> snapshotBinding) (l : list A)
    (env : snapshotEnvironment) : snapshotEnvironment :=
  foldl (fun env p => <[ name p.2 := binding p.1 p.2 ]> env) env (imap pair l).

Definition entry_environment (function : FunctionConfig) : snapshotEnvironment :=
  bind_all rs_Name source_binding (fc_ResourceSources function)
    (bind_all port_Name input_binding (fc_Inputs function) ∅).

Definition new_checker (function : FunctionConfig) : snapshotFlowChecker :=
  {| ch_nodeIdentities := ∅;
     ch_prototypes := list_to_set (pt_Name <$> fc_Prototypes function);
     ch_devValidationProfiles :=
       foldl (fun m p => <[ cdp_Name p := p ]> m) ∅ (fc_DevValidationProfiles function);
     ch_timeoutDepth := 0; ch_retryDepth := 0; ch_allocated := 0 |}.

(** ** Public outputs *)

Definition select_output (env : snapshotEnvironment) (index : nat) (output : FunctionOutput)
    (selected : gmap string string) : outcome message snapshotProducer :=
  let port := fo_Port output in
  let error format args :=
    Fail (Msg ("workflow: outputs[%d] %q: " +:+ format) (pretty index :: port_Name port :: args)) in
  match env !! fo_From output with
  | None => error "source %q is unavailable (use before produce)" [fo_From output]
  | Some binding =>
      if negb (b_typed binding) then
        if b_ambiguous binding then
          error "source %q has ambiguous possible writes at %s" [fo_From output; b_writePath binding]
        else error "source %q is occupied by an untyped producer at %s" [fo_From output; b_writePath binding]
      else if negb (String.eqb (b_typ binding) (port_Type port)) then
        error "source %q type mismatch: have %s, require %s" [fo_From output; b_typ binding; port_Type port]
      else if negb (port_Optional port) && conditional binding then
        error "required public output cannot use conditional source %q" [fo_From output]
      else match b_producer binding with
      | None => error "source %q has no concrete typed producer; public input pass-through is unsupported" [fo_From output]
      | Some producer =>
          if pr_insideRetry producer then
            error "public output cannot be produced inside retry until attempt-aware snapshot promotion is implemented" []
          else match selected !! producer_key producer with
          | Some previous =>
              Fail (Msg "workflow: outputs[%d] %q and public output %q select the same internal output %q from %s"
                        [pretty index; port_Name port; previous; fo_From output; pr_path producer])
          | None => Ret producer
          end
      end
  end.

Fixpoint select_outputs (env : snapshotEnvironment) (index : nat) (selected : gmap string string)
    (outputs : list FunctionOutput) : outcome message (list publicOutputTarget) :=
  match outputs with
  | [] => Ret []
  | output :: outputs =>
      let name := port_Name (fo_Port output) in
      producer ← select_output env index output selected;
      targets ← select_outputs env (S index) (<[ producer_key producer := name ]> selected) outputs;
      Ret ({| tg_portName := name; tg_producer := producer |} :: targets)
  end.

Section Function_.
Context `{MapOrder} `{StepChecks} `{ProfileChecks} `{ConfigWorld}.

Definition analyzeFunctionFlow (function : FunctionConfig) : outcome message (list publicOutputTarget) :=
  _ ← FunctionConfig_Validate function;
  _ ← fails (guard_error (negb (bool_decide (length (fc_Resources function) = 0%nat)) &&
                          bool_decide (length (fc_ResourceSources function) = 0%nat))
        (Msg "workflow: resources are live-read boundaries and are not permitted in schema-version-3 workflow functions; capture resource versions into snapshots before invocation" []));
  _ ← fails (guard_error (negb (bool_decide (length (fc_VarSources function) = 0%nat)))
        (Msg "workflow: var_sources are live-read boundaries and are not permitted in schema-version-3 workflow functions; capture their values into snapshots before invocation" []));
  result ← (checkSequence checkStep (fc_Plan function) (entry_environment function) "plan" (new_checker function)).1;
  select_outputs (fl_env result) 0 ∅ (fc_Outputs function).

Definition TypeCheckFunction (function : FunctionConfig) : outcome message unit :=
  _ ← analyzeFunctionFlow function; Ret ().

(** ** The ordinary pipeline of a function *)

Definition source_get (source : ResourceSource) : Step :=
  MkStep (SGet {| g_Name := rs_Name source; g_Resource := rs_Resource source; g_Version := rs_Version source;
                  g_Params := None; g_Passed := []; g_Trigger := rs_Trigger source; g_Tags := [];
                  g_Timeout := ""; g_SkipDownload := false |}) [].

Definition FunctionATCConfig (function : FunctionConfig) : PipelineConfig :=
  {| c_Groups := []; c_VarSources := fc_VarSources function; c_Resources := fc_Resources function;
     c_ResourceTypes := fc_ResourceTypes function; c_Prototypes := fc_Prototypes function;
     c_Jobs := [{| jc_Name := "entry"; jc_OldName := ""; jc_Public := false; jc_DisableManualTrigger := false;
                   jc_Serial := false; jc_Interruptible := false; jc_SerialGroups := []; jc_RawMaxInFlight := 0;
                   jc_BuildLogsToRetain := 0; jc_BuildLogRetention := None; jc_OnSuccess := None;
                   jc_OnFailure := None; jc_OnAbort := None; jc_OnError := None; jc_Ensure := None;
                   jc_PlanSequence := (source_get <$> fc_ResourceSources function) ++ fc_Plan function |}];
     c_Display := None; c_Template := true; c_Params := []; c_RunRetention := None |}.

(** The errors of the validator, as the arguments of one message. *)
Definition error_texts (errors : list (string * list (option string * message))) : list string :=
  errors ≫= fun group => group.1 :: (group.2 ≫= fun e => m_format e.2 :: m_args e.2).

Definition validateOrdinaryFunction (function : FunctionConfig) : list ConfigWarning * option message :=
  let '(warnings, errors) := config_Validate (FunctionATCConfig function) in
  (warnings, match errors with
             | [] => None
             | _ => Some (Msg "workflow: invalid Concourse config:%s" (error_texts errors))
             end).

Definition ValidateFunction (function : FunctionConfig) : outcome (list ConfigWarning * message) (list ConfigWarning) :=
  match TypeCheckFunction function with
  | Ret _ =>
      match validateOrdinaryFunction function with
      | (warnings, None) => Ret warnings
      | (warnings, Some err) => Fail (warnings, err)
      end
  | Fail err => Fail ([], err)
  | Panic => Panic
  | NoFuel => NoFuel
  end.

(** ** Annotating the public outputs *)

(** The logical name of an agent's output. *)
Definition logical_name (mapping : gmap string string) (name : string) : string :=
  match find (fun p => String.eqb p.2 name) (range mapping) with Some p => p.1 | None => name end.

Definition outputConfig (producer : snapshotProducer) : option SnapshotOutputConfig :=
  match pr_step producer with
  | PTask task => t_SnapshotOutputs task !! pr_outputName producer
  | PAgent agent => a_SnapshotOutputs agent !! logical_name (a_OutputMapping agent) (pr_outputName producer)
  | PAwait await =>
      if String.eqb (pr_outputName producer) (aw_Name await) then
        let port := negb (String.eqb (aw_WorkflowPort await) "") in
        Some {| so_Type := aw_Type await; so_Optional := false;
                so_Retention := if port then "workflow" else "";
                so_WorkflowPort := if port then aw_WorkflowPort await else "";
                so_WorkflowDefinitionID := if port then aw_WorkflowDefinitionID await else 0;
                so_WorkflowRunID := if port then aw_WorkflowRunID await else "";
                so_SourceMetadata := "" |}
      else None
  end.

Definition annotated (portName : string) (workflowDefinitionID : Z) (config : SnapshotOutputConfig)
    : SnapshotOutputConfig :=
  {| so_Type := so_Type config; so_Optional := so_Optional config; so_Retention := "workflow";
     so_WorkflowPort := portName; so_WorkflowDefinitionID := workflowDefinitionID;
     so_WorkflowRunID := "((workflow_run_id))"; so_SourceMetadata := so_SourceMetadata config |}.

Abbreviation update := (snapshotProducer * SnapshotOutputConfig)%type.

Fixpoint output_updates (workflowDefinitionID : Z) (targets : list publicOutputTarget)
    : outcome message (list update) :=
  match targets with
  | [] => Ret []
  | target :: targets =>
      let producer := tg_producer target in
      match outputConfig producer with
      | None =>
          Fail (Msg "workflow: internal error: %s %q at %s no longer declares output %q"
                    [pr_kind producer; pr_functionID producer; pr_path producer; pr_outputName producer])
      | Some config =>
          let config := annotated (tg_portName target) workflowDefinitionID config in
          match SnapshotOutputConfig_Validate config with
          | Some err => Fail (wrap_message "workflow: output %q: annotate producer: %w" [tg_portName target] err)
          | None =>
              updates ← output_updates workflowDefinitionID targets;
              Ret ((producer, config) :: updates)
          end
      end
  end.

Definition set_t_SnapshotOutputs (outputs : gmap string SnapshotOutputConfig) (s : TaskStep) : TaskStep :=
  {| t_Name := t_Name s; t_FunctionID := t_FunctionID s;
     t_DevValidationProfile := t_DevValidationProfile s;
     t_DevValidationAuthority := t_DevValidationAuthority s;
     t_MergePreflightAuthority := t_MergePreflightAuthority s;
     t_ResourceCaptureAuthority := t_ResourceCaptureAuthority s; t_Privileged := t_Privileged s;
     t_Hermetic := t_Hermetic s; t_ConfigPath := t_ConfigPath s; t_Limits := t_Limits s;
     t_Requests := t_Requests s; t_Config := t_Config s; t_Params := t_Params s; t_Vars := t_Vars s;
     t_Tags := t_Tags s; t_InputMapping := t_InputMapping s; t_OutputMapping := t_OutputMapping s;
     t_SnapshotInputs := t_SnapshotInputs s; t_SnapshotOutputs := outputs;
     t_ImageArtifactName := t_ImageArtifactName s; t_Timeout := t_Timeout s; t_Sidecars := t_Sidecars s |}.

Definition set_a_SnapshotOutputs (outputs : gmap string SnapshotOutputConfig) (s : AgentStep) : AgentStep :=
  {| a_Name := a_Name s; a_FunctionID := a_FunctionID s; a_Hermetic := a_Hermetic s;
     a_RuntimeImage := a_RuntimeImage s; a_Prompt := a_Prompt s; a_PromptFile := a_PromptFile s;
     a_SystemPromptFile := a_SystemPromptFile s; a_ContextFiles := a_ContextFiles s; a_Model := a_Model s;
     a_MaxTurns := a_MaxTurns s; a_BudgetSliceUSD := a_BudgetSliceUSD s;
     a_SystemPrompt := a_SystemPrompt s; a_Context := a_Context s; a_Skills := a_Skills s;
     a_SkillFiles := a_SkillFiles s; a_Sidecars := a_Sidecars s; a_Inputs := a_Inputs s;
     a_Outputs := a_Outputs s; a_InputMapping := a_InputMapping s; a_OutputMapping := a_OutputMapping s;
     a_Capabilities := a_Capabilities s; a_SnapshotInputs := a_SnapshotInputs s;
     a_SnapshotOutputs := outputs; a_Validation := a_Validation s;
     a_ReviewValidation := a_ReviewValidation s; a_Env := a_Env s; a_Timeout := a_Timeout s;
     a_Limits := a_Limits s; a_Requests := a_Requests s; a_BrokerAuthority := a_BrokerAuthority s;
     a_BrokerAuthorityTrusted := a_BrokerAuthorityTrusted s |}.

Definition set_aw_Workflow (config : SnapshotOutputConfig) (s : AwaitSnapshotStep) : AwaitSnapshotStep :=
  {| aw_Name := aw_Name s; aw_Question := aw_Question s; aw_MergeApproval := aw_MergeApproval s;
     aw_Validation := aw_Validation s; aw_MergeApprovalValidation := aw_MergeApprovalValidation s;
     aw_Type := aw_Type s; aw_OnTimeout := aw_OnTimeout s; aw_DefaultSnapshotID := aw_DefaultSnapshotID s;
     aw_WorkflowPort := so_WorkflowPort config; aw_WorkflowDefinitionID := so_WorkflowDefinitionID config;
     aw_WorkflowRunID := so_WorkflowRunID config |}.

Definition set_fc_Plan (plan : list Step) (s : FunctionConfig) : FunctionConfig :=
  {| fc_SignatureVersion := fc_SignatureVersion s; fc_DispositionOutput := fc_DispositionOutput s;
     fc_Inputs := fc_Inputs s; fc_Outputs := fc_Outputs s; fc_Resources := fc_Resources s;
     fc_ResourceSources := fc_ResourceSources s; fc_ResourceTypes := fc_ResourceTypes s;
     fc_Prototypes := fc_Prototypes s; fc_VarSources := fc_VarSources s; fc_Plan := plan;
     fc_DevValidationProfiles := fc_DevValidationProfiles s;
     fc_DevValidationProvenanceHash := fc_DevValidationProvenanceHash s;
     fc_BrokerProfiles := fc_BrokerProfiles s;
     fc_BrokerProfileProvenanceHash := fc_BrokerProfileProvenanceHash s; fc_SkillFiles := fc_SkillFiles s |}.

(** The write through the producer's pointer, at a task, an agent or an await. *)
Definition update_task (u : update) (step : TaskStep) : TaskStep :=
  match pr_step u.1 with
  | PTask _ => if String.eqb (t_FunctionID step) (pr_functionID u.1)
               then set_t_SnapshotOutputs (<[ pr_outputName u.1 := u.2 ]> (t_SnapshotOutputs step)) step else step
  | _ => step
  end.

Definition update_agent (u : update) (step : AgentStep) : AgentStep :=
  match pr_step u.1 with
  | PAgent _ =>
      if String.eqb (a_FunctionID step) (pr_functionID u.1)
      then set_a_SnapshotOutputs
             (<[ logical_name (a_OutputMapping step) (pr_outputName u.1) := u.2 ]> (a_SnapshotOutputs step)) step
      else step
  | _ => step
  end.

Definition update_await (u : update) (step : AwaitSnapshotStep) : AwaitSnapshotStep :=
  match pr_step u.1 with
  | PAwait await =>
      if String.eqb (aw_Name step) (aw_Name await) then set_aw_Workflow u.2 step else step
  | _ => step
  end.

Fixpoint setOutputConfig (u : update) (step : StepConfig) : StepConfig :=
  let at_step (s : Step) := MkStep (setOutputConfig u (Config s)) (UnknownFields s) in
  match step with
  | STask step => STask (update_task u step)
  | SAgent step => SAgent (update_agent u step)
  | SAwaitSnapshot step => SAwaitSnapshot (update_await u step)
  | STry step => STry (at_step step)
  | SDo steps => SDo (map at_step steps)
  | SInParallel steps limit failFast => SInParallel (map at_step steps) limit failFast
  | SAcross step vars failFast => SAcross (setOutputConfig u step) vars failFast
  | STimeout step duration => STimeout (setOutputConfig u step) duration
  | SRetry step attempts => SRetry (setOutputConfig u step) attempts
  | SOnSuccess step hook => SOnSuccess (setOutputConfig u step) (at_step hook)
  | SOnFailure step hook => SOnFailure (setOutputConfig u step) (at_step hook)
  | SOnAbort step hook => SOnAbort (setOutputConfig u step) (at_step hook)
  | SOnError step hook => SOnError (setOutputConfig u step) (at_step hook)
  | SEnsure step hook => SEnsure (setOutputConfig u step) (at_step hook)
  | _ => step
  end.

Definition update_plan (plan : list Step) (u : update) : list Step :=
  map (fun s : Step => MkStep (setOutputConfig u (Config s)) (UnknownFields s)) plan.

Definition AnnotatePublicOutputs (function : FunctionConfig) (workflowDefinitionID : Z)
    : outcome message FunctionConfig :=
  if workflowDefinitionID <=? 0 then Fail (Msg "workflow: workflow definition ID must be positive" [])
  else
    targets ← analyzeFunctionFlow function;
    _ ← fails (validateOrdinaryFunction function).2;
    updates ← output_updates workflowDefinitionID targets;
    Ret (set_fc_Plan (foldl update_plan (fc_Plan function) updates) function).
End Function_.
