(* ===== verification/WorkflowRun.v ===== *)
(** * Runs of a workflow plan

    What the type checker of workflow functions promises is stated against an
    abstract account of how a plan runs on a store of artifacts: what a step
    reads, what it writes, and how the outcomes of steps compose
    ([atc/exec]: do, in_parallel, try, retry, timeout, hooks and ensure).

    A run succeeds, ends without success (failed, errored, aborted, timed out),
    or is [Stuck]: a step was started although an input it requires was missing,
    an input had another type than the one it declares, or the validation it
    presents was made of another candidate or another base.

    The account admits more runs than there are: a step may be abandoned at any
    time, a leaf that ends without success may have written any of its outputs,
    a retry may repeat any number of times, and while a branch of an in_parallel
    runs, the names the other branches write may change at any time. *)
From stdpp Require Import base gmap sets list strings sorting pretty.
From Stdlib Require Import ZArith Ascii Lia.
From S2P Require Import Prelude Vars Repository Parallel ExecWorld GoText Steps StepValidator Planner ConfigValidate WorkflowConfig WorkflowTypes WorkflowFunction.

Set Warnings "-register-all".

(** ** Artifacts *)

Record artifact := {
  v_type : string;
  v_id : string;
  v_validates : option validationBindingProvenance }.

Abbreviation store := (gmap string artifact).

Inductive result := Succeeded | Unsuccessful | Stuck.
#[export] Instance result_eq_dec : EqDecision result.
Proof. solve_decision. Defined.

(** Only the names in [R] may have changed. *)
Definition interferes (R : gset string) (σ σ' : store) : Prop := forall n, n ∉ R -> σ' !! n = σ !! n.

(** ** Leaves *)

(** What a leaf reads ([true] for an optional input), what it writes ([true] for
    an optional output), what it demands of the store and the artifact it writes
    under a name. *)
Record leaf := {
  l_inputs : gmap string (string * bool);
  l_outputs : gmap string bool;
  l_gate : store -> Prop;
  l_artifact : store -> string -> artifact }.

Definition input_ok (σ : store) (name : string) (declared : string * bool) : Prop :=
  match σ !! name with
  | None => declared.2 = true
  | Some v => v_type v = declared.1
  end.

Definition ready (l : leaf) (σ : store) : Prop :=
  (forall n d, l_inputs l !! n = Some d -> input_ok σ n d) /\ l_gate l σ.

(** The outputs are written; those that are not optional, all of them when
    [complete]. *)
Definition wrote (l : leaf) (complete : bool) (σ σ' : store) : Prop :=
  forall n,
    match l_outputs l !! n with
    | None => σ' !! n = σ !! n
    | Some optional =>
        σ' !! n = Some (l_artifact l σ n) \/ (σ' !! n = σ !! n /\ (complete = true -> optional = true))
    end.

Inductive leaf_runs (R : gset string) (l : leaf) (σ : store) : result -> store -> Prop :=
| leaf_stuck σ1 : interferes R σ σ1 -> ~ ready l σ1 -> leaf_runs R l σ Stuck σ1
| leaf_succeeded σ1 σ2 σ3 :
    interferes R σ σ1 -> ready l σ1 -> wrote l true σ1 σ2 -> interferes R σ2 σ3 ->
    leaf_runs R l σ Succeeded σ3
| leaf_unsuccessful σ1 σ2 σ3 :
    interferes R σ σ1 -> ready l σ1 -> wrote l false σ1 σ2 -> interferes R σ2 σ3 ->
    leaf_runs R l σ Unsuccessful σ3.

(** A validation that is there attests the candidate and the bases that are
    there. *)
Definition attested (σ : store) (mapping : gmap string string) (validation candidate : string) : Prop :=
  forall w, σ !! mapped_name mapping validation = Some w ->
  exists c p, σ !! mapped_name mapping candidate = Some c /\ v_validates w = Some p /\
    vp_candidate p = v_id c /\
    forall name id, vp_bases p !! name = Some id ->
      exists b, σ !! mapped_name mapping name = Some b /\ v_id b = id.

(** What a development validation attests. *)
Definition run_bases (σ : store) (bases : list DevValidationBaseInput) : gmap string string :=
  foldl (fun acc base => match σ !! dvb_Name base with
                         | Some v => <[ dvb_Name base := v_id v ]> acc
                         | None => acc
                         end) ∅ bases.

Definition attest (authority : DevValidationAuthority) (σ : store) : option validationBindingProvenance :=
  c ← σ !! dva_CandidateInput authority;
  Some {| vp_candidate := v_id c; vp_bases := run_bases σ (dva_BaseInputs authority);
          vp_profile := dva_ProfileName authority |}.

(** The artifact a task or an agent writes. *)
Definition produced_artifact (kind functionID identity : string) (step : producer_step)
    (outputs : gmap string SnapshotOutputConfig) (σ : store) (name : string) : artifact :=
  {| v_type := default ""%string (so_Type <$> outputs !! name);
     v_id := kind +:+ NUL +:+ identity +:+ NUL +:+ functionID +:+ NUL +:+ name;
     v_validates := outputs !! name ≫= fun d => validating step name d ≫= fun authority => attest authority σ |}.

Definition input_of (d : SnapshotInputConfig) : string * bool := (si_Type d, si_Optional d).

Section Runs.
Context `{MapOrder}.

Definition required (name type : string) : gmap string (string * bool) := {[ name := (type, false) ]}.

Definition leaf_of (step : StepConfig) (path : string) : option leaf :=
  match step with
  | STask s => Some
      {| l_inputs := input_of <$> t_SnapshotInputs s; l_outputs := so_Optional <$> t_SnapshotOutputs s;
         l_gate := fun _ => True;
         l_artifact := produced_artifact "task" (t_FunctionID s) (identity_of path "task" (t_Name s)) (PTask s)
                         (t_SnapshotOutputs s) |}
  | SAgent s =>
      let outputs := MappedSnapshotOutputs (a_SnapshotOutputs s) (a_OutputMapping s) in Some
      {| l_inputs := input_of <$> MappedSnapshotInputs (a_SnapshotInputs s) (a_InputMapping s);
         l_outputs := so_Optional <$> outputs;
         l_gate := fun σ => match humanReviewCandidate s with
                            | Ret (Some candidate) => attested σ (a_InputMapping s) (a_Validation s) candidate
                            | _ => True
                            end;
         l_artifact := produced_artifact "agent" (a_FunctionID s) (identity_of path "agent" (a_Name s)) (PAgent s)
                         outputs |}
  | SLoadSnapshot s => Some
      {| l_inputs := ∅; l_outputs := {[ ls_Name s := ls_Optional s ]}; l_gate := fun _ => True;
         l_artifact := fun _ _ => {| v_type := ls_Type s; v_id := identity_of path "load_snapshot" (ls_Name s);
                                     v_validates := None |} |}
  | SAwaitSnapshot s => Some
      {| l_inputs := match aw_MergeApproval s with
                     | Some intent => required (ma_Input intent) "repository-change/v1"
                     | None => required (aw_Question s) "question/v1"
                     end;
         l_outputs := {[ aw_Name s := false ]};
         l_gate := fun σ => match aw_MergeApproval s with
                            | Some intent => attested σ ∅ (aw_Validation s) (ma_Input intent)
                            | None => True
                            end;
         l_artifact := fun _ _ =>
           {| v_type := aw_Type s;
              v_id := "await_snapshot" +:+ NUL +:+ identity_of path "await_snapshot" (aw_Name s) +:+ NUL +:+ "" +:+
                      NUL +:+ aw_Name s;
              v_validates := None |} |}
  | SPublishSnapshot s => Some
      {| l_inputs := required (ps_Input s) (ps_InputType s) ∪
           (if String.eqb (ps_Mode s) "merge" then required (ps_Approval s) "human-answer/v1" else ∅);
         l_outputs := ∅;
         l_gate := fun σ => if String.eqb (ps_InputType s) "repository-change/v1"
                            then attested σ ∅ (ps_Validation s) (ps_Input s) else True;
         l_artifact := fun _ _ => {| v_type := ""; v_id := ""; v_validates := None |} |}
  | SRun _ => Some
      {| l_inputs := ∅; l_outputs := ∅; l_gate := fun _ => True;
         l_artifact := fun _ _ => {| v_type := ""; v_id := ""; v_validates := None |} |}
  | _ => None
  end.

(** ** Names *)

(** The names a step may write, on any path. *)
Fixpoint writes_of (step : StepConfig) : gset string :=
  match step with
  | STask s => dom (t_SnapshotOutputs s)
  | SAgent s => dom (MappedSnapshotOutputs (a_SnapshotOutputs s) (a_OutputMapping s))
  | SLoadSnapshot s => {[ ls_Name s ]}
  | SAwaitSnapshot s => {[ aw_Name s ]}
  | STry s => writes_of (Config s)
  | SDo l | SInParallel l _ _ => ⋃ map (fun s : Step => writes_of (Config s)) l
  | SAcross s _ _ | STimeout s _ | SRetry s _ => writes_of s
  | SOnSuccess s h | SOnFailure s h | SOnAbort s h | SOnError s h | SEnsure s h =>
      writes_of s ∪ writes_of (Config h)
  | _ => ∅
  end.

(** The names written under a try. *)
Fixpoint try_writes (step : StepConfig) : gset string :=
  match step with
  | STry s => writes_of (Config s)
  | SDo l | SInParallel l _ _ => ⋃ map (fun s : Step => try_writes (Config s)) l
  | SAcross s _ _ | STimeout s _ | SRetry s _ => try_writes s
  | SOnSuccess s h | SOnFailure s h | SOnAbort s h | SOnError s h | SEnsure s h =>
      try_writes s ∪ try_writes (Config h)
  | _ => ∅
  end.

Definition authority_bases (s : TaskStep) : gset string :=
  match t_DevValidationAuthority s with
  | Some authority => list_to_set (dvb_Name <$> dva_BaseInputs authority)
  | None => ∅
  end.

(** The bases of the development validations of a step. *)
Fixpoint bases_of (step : StepConfig) : gset string :=
  match step with
  | STask s => authority_bases s
  | STry s => bases_of (Config s)
  | SDo l | SInParallel l _ _ => ⋃ map (fun s : Step => bases_of (Config s)) l
  | SAcross s _ _ | STimeout s _ | SRetry s _ => bases_of s
  | SOnSuccess s h | SOnFailure s h | SOnAbort s h | SOnError s h | SEnsure s h =>
      bases_of s ∪ bases_of (Config h)
  | _ => ∅
  end.

(** The names a step reads or writes; [B] are the bases a validation may bind. *)
Fixpoint names_of (B : gset string) (step : StepConfig) : gset string :=
  match step with
  | STask s =>
      dom (t_SnapshotInputs s) ∪ dom (t_SnapshotOutputs s) ∪ authority_bases s ∪
      match t_DevValidationAuthority s with Some authority => {[ dva_CandidateInput authority ]} | None => ∅ end
  | SAgent s =>
      dom (MappedSnapshotInputs (a_SnapshotInputs s) (a_InputMapping s)) ∪
      dom (MappedSnapshotOutputs (a_SnapshotOutputs s) (a_OutputMapping s)) ∪
      {[ mapped_name (a_InputMapping s) (a_Validation s) ]} ∪
      set_map (mapped_name (a_InputMapping s)) (dom (a_SnapshotInputs s) ∪ B)
  | SLoadSnapshot s => {[ ls_Name s ]}
  | SAwaitSnapshot s =>
      {[ aw_Name s; aw_Question s; aw_Validation s ]} ∪ B ∪
      match aw_MergeApproval s with Some intent => {[ ma_Input intent ]} | None => ∅ end
  | SPublishSnapshot s => {[ ps_Input s; ps_Approval s; ps_Validation s ]} ∪ B
  | STry s => names_of B (Config s)
  | SDo l | SInParallel l _ _ => ⋃ map (fun s : Step => names_of B (Config s)) l
  | SAcross s _ _ | STimeout s _ | SRetry s _ => names_of B s
  | SOnSuccess s h | SOnFailure s h | SOnAbort s h | SOnError s h | SEnsure s h =>
      names_of B s ∪ names_of B (Config h)
  | _ => ∅
  end.

(** The names the other branches write. *)
Definition others (l : list Step) (i : nat) : gset string :=
  ⋃ map (fun s : Step => writes_of (Config s)) (delete i l).

(** ** Composition *)

Definition worst (o1 o2 : result) : result :=
  match o1, o2 with
  | Stuck, _ | _, Stuck => Stuck
  | Succeeded, Succeeded => Succeeded
  | _, _ => Unsuccessful
  end.

Section Composite.
Context (run : gset string -> StepConfig -> string -> store -> result -> store -> Prop).

(** Runs one after the other: the first that does not succeed ends them. *)
Definition seq_runs (R : gset string) (path : string) : nat -> list Step -> store -> result -> store -> Prop :=
  fix go index steps σ o σ' :=
    match steps with
    | [] => o = Succeeded /\ interferes R σ σ'
    | step :: steps =>
        exists o1 σ1, run R (Config step) (indexed path index) σ o1 σ1 /\
          match o1 with
          | Succeeded => go (S index) steps σ1 o σ'
          | _ => o = o1 /\ σ' = σ1
          end
    end.

(** Runs beside each other: each branch starts and ends in the same stores. *)
Definition par_runs (R : gset string) (path : string) (all : list Step)
    : nat -> list Step -> store -> result -> store -> Prop :=
  fix go index steps σ o σ' :=
    match steps with
    | [] => o = Succeeded
    | step :: steps =>
        exists o1 o2, run (R ∪ others all index) (Config step) (indexed path index) σ o1 σ' /\
          go (S index) steps σ o2 σ' /\ o = worst o1 o2
    end.
End Composite.

(** The attempts of a retry: what an attempt wrote that did not succeed is
    discarded. *)
Inductive attempts (R : gset string) (body : store -> result -> store -> Prop) : store -> result -> store -> Prop :=
| attempt_done σ o σ' : body σ o σ' -> o <> Unsuccessful -> attempts R body σ o σ'
| attempt_last σ σ1 σ' : body σ Unsuccessful σ1 -> interferes R σ σ' -> attempts R body σ Unsuccessful σ'
| attempt_again σ σ1 σ2 o σ' :
    body σ Unsuccessful σ1 -> interferes R σ σ2 -> attempts R body σ2 o σ' -> attempts R body σ o σ'.

(** A hook that runs when the main step ended without success, or not at all. *)
Definition hook_runs (main hook : store -> result -> store -> Prop) (σ : store) (o : result) (σ' : store) : Prop :=
  exists o1 σ1, main σ o1 σ1 /\
    match o1 with
    | Unsuccessful =>
        (o = Unsuccessful /\ σ' = σ1) \/ exists o2, hook σ1 o2 σ' /\ o = worst Unsuccessful o2
    | _ => o = o1 /\ σ' = σ1
    end.

Fixpoint runs (R : gset string) (step : StepConfig) (path : string) (σ : store) (o : result) (σ' : store) : Prop :=
  (o = Unsuccessful /\ interferes R σ σ') \/
  match step with
  | STask _ | SAgent _ | SLoadSnapshot _ | SAwaitSnapshot _ | SPublishSnapshot _ | SRun _ =>
      exists l, leaf_of step path = Some l /\ leaf_runs R l σ o σ'
  | SDo steps => seq_runs runs R (path +:+ ".do.steps") 0 steps σ o σ'
  | SInParallel steps _ _ =>
      interferes (R ∪ writes_of step) σ σ' /\
      par_runs runs R (path +:+ ".in_parallel.steps") steps 0 steps σ o σ'
  | STry step =>
      exists o1, runs R (Config step) (path +:+ ".try") σ o1 σ' /\
        (o = o1 \/ (o1 = Unsuccessful /\ o = Succeeded))
  | SRetry step _ => attempts R (runs R step (path +:+ ".attempts")) σ o σ'
  | STimeout step _ => runs R step (path +:+ ".timeout") σ o σ'
  | SOnSuccess main hook =>
      exists o1 σ1, runs R main path σ o1 σ1 /\
        match o1 with
        | Succeeded => runs R (Config hook) (path +:+ ".on_success") σ1 o σ'
        | _ => o = o1 /\ σ' = σ1
        end
  | SOnFailure main hook =>
      hook_runs (runs R main path) (runs R (Config hook) (path +:+ ".on_failure")) σ o σ'
  | SOnError main hook =>
      hook_runs (runs R main path) (runs R (Config hook) (path +:+ ".on_error")) σ o σ'
  | SOnAbort main hook =>
      hook_runs (runs R main path) (runs R (Config hook) (path +:+ ".on_abort")) σ o σ'
  | SEnsure main hook =>
      exists o1 σ1, runs R main path σ o1 σ1 /\
        match o1 with
        | Stuck => o = Stuck /\ σ' = σ1
        | _ => exists o2, runs R (Config hook) (path +:+ ".ensure") σ1 o2 σ' /\ o = worst o1 o2
        end
  | _ => False
  end.

(** The run of a function's plan. *)
Definition plan_runs (plan : list Step) (σ : store) (o : result) (σ' : store) : Prop :=
  seq_runs runs ∅ "plan" 0 plan σ o σ'.

(** ** Steps that do not interfere *)

(** A hook for runs without success neither reads nor writes what its main step
    writes; a branch of an in_parallel neither reads nor writes what another
    writes; an ensure hook writes nothing under a try. *)
Definition disjoint_branches (B : gset string) (l : list Step) : bool :=
  forallb (fun i => match l !! i with
                    | Some s => bool_decide (others l i ## names_of B (Config s))
                    | None => true
                    end) (seq 0 (length l)).

Fixpoint noninterfering (B : gset string) (step : StepConfig) : bool :=
  match step with
  | STry s => noninterfering B (Config s)
  | SDo l => forallb (fun s : Step => noninterfering B (Config s)) l
  | SInParallel l _ _ => forallb (fun s : Step => noninterfering B (Config s)) l && disjoint_branches B l
  | SAcross s _ _ | STimeout s _ | SRetry s _ => noninterfering B s
  | SOnSuccess s h => noninterfering B s && noninterfering B (Config h)
  | SOnFailure s h | SOnAbort s h | SOnError s h =>
      noninterfering B s && noninterfering B (Config h) &&
      bool_decide (writes_of s ## names_of B (Config h))
  | SEnsure s h =>
      noninterfering B s && noninterfering B (Config h) && bool_decide (try_writes (Config h) = ∅)
  | _ => true
  end.

Definition plan_bases (plan : list Step) : gset string := ⋃ map (fun s : Step => bases_of (Config s)) plan.

Definition plan_noninterfering (plan : list Step) : bool :=
  forallb (fun s : Step => noninterfering (plan_bases plan) (Config s)) plan.

(** The store a function is invoked with. *)
Definition supplied (function : FunctionConfig) (σ : store) : Prop :=
  forall n, match entry_environment function !! n with
            | None => σ !! n = None
            | Some b =>
                (b_presence b = snapshotGuaranteed -> is_Some (σ !! n)) /\
                forall v, σ !! n = Some v -> v_type v = b_typ b /\ v_id v = b_writePath b
            end.
End Runs.
