(* ===== verification/WorkflowTypesSpec.v ===== *)
(** * Soundness of the type checker of workflow functions

    The shape of the flows the checker computes, its leaves against the runs of
    [WorkflowRun], and the soundness theorem: a plan the checker accepts never
    gets stuck, and what it exports has the declared type. *)
From stdpp Require Import base gmap sets list strings sorting pretty.
From Stdlib Require Import ZArith Ascii Lia.
From S2P Require Import Prelude Vars Repository Parallel ExecWorld GoText Steps StepValidator Planner ConfigValidate WorkflowConfig WorkflowTypes WorkflowFunction WorkflowRun.

Set Warnings "-register-all".

(** ** Inversion of the checks *)

Lemma raise_Ret err c u c' : raise err c = (Ret u, c') <-> err = None /\ c' = c.
Proof.
  destruct err, u; unfold raise, fail, mret, stateful_ret; split; [naive_solver..|intros [= ->]; done|].
  by intros [_ ->].
Qed.

Lemma each_raise_Ret {A} (f : A -> option message) l c u c' :
  each (fun x => raise (f x)) l c = (Ret u, c') -> c' = c /\ forall x, x ∈ l -> f x = None.
Proof.
  induction l as [|x l IH]; cbn; intros Hl; [injection Hl as _ <-; set_solver|].
  apply stateful_bind_Ret in Hl as (? & ? & [Hx ->]%raise_Ret & Hl). apply IH in Hl as [-> Hl]. set_solver.
Qed.

Lemma first_error_None l : first_error l = None <-> Forall (fun e => e = None) l.
Proof. induction l as [|[]]; cbn; rewrite ?Forall_nil, ?Forall_cons; naive_solver. Qed.

Lemma guard_error_None b m : guard_error b m = None <-> b = false.
Proof. by destruct b. Qed.

Lemma under_None f a e : under f a e = None <-> e = None.
Proof. by destruct e. Qed.

(** [chk] takes the equation of a check that returned apart. *)
Ltac chk_step :=
  match goal with
  | H : (_ ≫= _) _ = (Ret _, _) |- _ =>
      let a := fresh "a" in let c := fresh "c" in let H1 := fresh H in
      apply stateful_bind_Ret in H as (a & c & H1 & H)
  | H : raise _ _ = (Ret _, _) |- _ => apply raise_Ret in H as [H ->]
  | H : each (fun x => raise _) _ _ = (Ret _, _) |- _ => apply each_raise_Ret in H as [-> H]
  | H : read _ _ = (Ret _, _) |- _ => injection H as <- <-
  | H : mret _ _ = (Ret _, _) |- _ => injection H as <- <-
  | H : (Ret _, _) = (Ret _, _) |- _ => injection H as <- <-
  | H : lift _ _ = (Ret _, _) |- _ => unfold lift in H; injection H as H <-
  | H : fail _ _ = (Ret _, _) |- _ => discriminate H
  | H : new_address _ = (Ret _, _) |- _ => injection H as <- <-
  | H : inside_retry _ = (Ret _, _) |- _ => injection H as <- <-
  | H : guard_error _ _ = None |- _ => apply guard_error_None in H
  | H : under _ _ _ = None |- _ => apply under_None in H
  | H : first_error _ = None |- _ => apply first_error_None in H; rewrite ?Forall_cons in H; destruct_and? H
  end.
Ltac chk := repeat chk_step.

Lemma elem_of_names (s : gset string) n : n ∈ names s <-> n ∈ s.
Proof. unfold names. by rewrite merge_sort_Permutation, elem_of_elements. Qed.

Lemma NoDup_names (s : gset string) : NoDup (names s).
Proof. unfold names. rewrite merge_sort_Permutation. apply NoDup_elements. Qed.

Lemma elem_of_sorted_entries {V} (m : gmap string V) n d : (n, d) ∈ sorted_entries m <-> m !! n = Some d.
Proof.
  unfold sorted_entries. rewrite list_elem_of_omap. split.
  - intros (k & _ & Hk). destruct (m !! k) eqn:E; cbn in Hk; naive_solver.
  - intros Hn. exists n. rewrite elem_of_names, elem_of_dom, Hn. split; [by eexists|done].
Qed.

Lemma sorted_entries_keys {V} (m : gmap string V) : (sorted_entries m).*1 = names (dom m).
Proof.
  unfold sorted_entries. assert (Hall : Forall (fun n => is_Some (m !! n)) (names (dom m))).
  { apply Forall_forall. intros n Hn. by rewrite elem_of_names, elem_of_dom in Hn. }
  induction Hall as [|n l [d Hd] _ IH]; [done|]. cbn. rewrite Hd. cbn. by rewrite IH.
Qed.

(** ** Leaves *)

Section Leaves.
Context `{MO : MapOrder} `{SC : StepChecks}.

(** The key of a producer. *)
Definition output_key (kind functionID identity name : string) : string :=
  kind +:+ NUL +:+ identity +:+ NUL +:+ functionID +:+ NUL +:+ name.

(** The binding of a typed output. *)
Definition leaf_binding (kind functionID identity : string) (step : producer_step) (entry : snapshotEnvironment)
    (name : string) (d : SnapshotOutputConfig) (b : snapshotBinding) : Prop :=
  b_typ b = so_Type d /\ b_typed b = true /\ b_ambiguous b = false /\
  b_presence b = (if so_Optional d then snapshotConditional else snapshotGuaranteed) /\
  (exists pr, b_producer b = Some pr /\ producer_key pr = output_key kind functionID identity name) /\
  (forall p, b_validation b = Some p ->
     exists authority, validating step name d = Some authority /\ provenance_of identity entry authority = Ret p) /\
  (so_Optional d = true -> entry !! name = None).

Lemma typed_output_inv kind fid identity step entry env name d c b c' :
  typed_output kind fid identity step entry env (name, d) c = (Ret b, c') ->
  env !! name = entry !! name ->
  leaf_binding kind fid identity step entry name d b.
Proof.
  unfold typed_output. intros Hb Henv. chk. cbn in *.
  repeat split; cbn; eauto.
  - intros p ->. destruct (validating step name d) as [authority|]; chk; [|done]. eauto.
  - intros Ho. match goal with H : _ && _ = false |- _ => rewrite Ho, andb_true_r in H; apply bool_decide_eq_false in H end.
    rewrite <- Henv. by apply eq_None_not_Some.
Qed.

Lemma typed_outputs_inv kind fid identity step entry l w c w' c' :
  typed_outputs kind fid identity step entry l w c = (Ret w', c') ->
  NoDup l.*1 -> (forall n, n ∈ l.*1 -> w.1 !! n = entry !! n) ->
  exists W, w' = (W ∪ w.1, W ∪ w.2) /\ (forall n, n ∉ l.*1 -> W !! n = None) /\
    forall n d, (n, d) ∈ l -> exists b, W !! n = Some b /\ leaf_binding kind fid identity step entry n d b.
Proof.
  revert w c. induction l as [|[n d] l IH]; intros w c Hl Hnd Hw; cbn [typed_outputs] in Hl.
  - chk. exists ∅. rewrite !(left_id_L ∅ (∪)). destruct w. set_solver.
  - chk. apply NoDup_cons in Hnd as [Hn Hnd]. apply typed_output_inv in Hl0; [|apply Hw; cbn; set_solver].
    apply IH in Hl as (W & -> & Hout & Hin); [|done|].
    + exists (W ∪ {[ n := a ]}). split; [|split].
      * unfold write. cbn. by rewrite <- !(assoc_L (∪)), <- !insert_union_singleton_l.
      * intros m Hm. cbn in Hm. apply lookup_union_None. split; [apply Hout; set_solver|].
        apply lookup_singleton_ne. set_solver.
      * intros m d' [[= -> ->]|Hm]%elem_of_cons.
        -- exists a. split; [|done]. rewrite lookup_union_r by (by apply Hout). apply lookup_singleton_eq.
        -- destruct (Hin _ _ Hm) as (b & Hb & Hbd). exists b. split; [|done]. by apply lookup_union_Some_l.
    + intros m Hm. cbn. rewrite lookup_insert_ne by (intros ->; done). apply Hw. cbn. set_solver.
Qed.

Lemma ordinary_outputs_typed identity entry tout l w c w' c' :
  ordinary_outputs identity entry tout l w c = (Ret w', c') ->
  (forall n, n ∈ l -> n ∈ dom tout) -> w' = w.
Proof.
  revert w c. induction l as [|n l IH]; intros w c Hl Hdom; cbn [ordinary_outputs] in Hl; chk; [done|].
  apply IH in Hl as ->; [|set_solver]. assert (Hn : n ∈ dom tout) by (apply Hdom; set_solver).
  by apply elem_of_dom in Hn as [d ->].
Qed.

Lemma covered label {V} ordinary (typed : gmap string V) n :
  validateExactTypedCoverage label ordinary (range typed).*1 = None -> n ∈ ordinary -> n ∈ dom typed.
Proof.
  unfold validateExactTypedCoverage. intros Hc%guard_error_None Hn. go_bool.
  assert (Hn' : n ∈ sortedUniqueStrings ordinary) by (unfold sortedUniqueStrings; rewrite elem_of_names; set_solver).
  rewrite Hc in Hn'. unfold sortedUniqueStrings in Hn'. rewrite elem_of_names, elem_of_list_to_set in Hn'.
  rewrite range_perm in Hn'. apply list_elem_of_fmap in Hn' as ([k d] & -> & Hk). apply elem_of_map_to_list in Hk.
  apply elem_of_dom. eauto.
Qed.

Lemma checkLeaf_inv kind name fid oin tin oout tout step entry path c flow c' :
  checkLeaf kind name fid oin tin oout tout step entry path c = (Ret flow, c') ->
  (file_backed step = true -> oout = []) ->
  let identity := identity_of path kind name in
  (forall n d, tin !! n = Some d -> check_input identity entry (n, d) = None) /\
  exists W, flow = {| fl_env := W ∪ entry; fl_produced := W; fl_mayProduced := W; fl_allProduced := W |} /\
    forall n, match tout !! n with
              | None => W !! n = None
              | Some d => exists b, W !! n = Some b /\ leaf_binding kind fid identity step entry n d b
              end.
Proof.
  unfold checkLeaf. intros Hl Hfb. chk.
  assert (Hw : a3 = (entry, ∅)).
  { eapply ordinary_outputs_typed; [exact Hl4|]. intros n Hn. unfold sortedUniqueStrings in Hn.
    rewrite elem_of_names, elem_of_list_to_set in Hn. destruct (file_backed step); [rewrite Hfb in Hn by done; set_solver|].
    chk. by eapply covered. }
  subst a3. split; [intros n d Hd; apply Hl3; by apply elem_of_sorted_entries|].
  apply typed_outputs_inv in Hl5 as (W & -> & Hout & Hin);
    [|rewrite sorted_entries_keys; apply NoDup_names|done].
  exists W. cbn. rewrite (right_id_L ∅ (∪)). split; [done|]. intros n.
  destruct (tout !! n) as [d|] eqn:Hn; [apply Hin; by apply elem_of_sorted_entries|].
  apply Hout. rewrite sorted_entries_keys, elem_of_names. by apply not_elem_of_dom.
Qed.
End Leaves.

(** ** Environments and stores *)

Section Stores.
Context (B : gset string).

(** What a binding says of an artifact under its name. *)
Definition fits (b : snapshotBinding) (v : artifact) : Prop :=
  (b_typed b = true -> v_type v = b_typ b) /\
  forall p, b_validation b = Some p -> dom (vp_bases p) ⊆ B /\ v_validates v = Some p.

(** The store is as the environment says, at the names of [X]. *)
Definition env_ok (X : string -> Prop) (env : snapshotEnvironment) (σ : store) : Prop :=
  forall n, X n ->
    match env !! n with
    | None => σ !! n = None
    | Some b =>
        (b_presence b = snapshotGuaranteed -> is_Some (σ !! n)) /\
        forall v, σ !! n = Some v -> fits b v /\ forall id, bindingIdentity b = Some id -> v_id v = id
    end.

(** What changed is a write of [W], at the names of [X]. *)
Definition written (X : string -> Prop) (W : gmap string snapshotBinding) (σ σ' : store) : Prop :=
  forall n, X n -> σ' !! n = σ !! n \/ exists b v, W !! n = Some b /\ σ' !! n = Some v /\ fits b v.

Lemma fits_merge_l b b' v : fits b v -> fits (mergeBindingAlternatives b b') v.
Proof. intros [Ht _]. split; cbn; [|done]. intros Ha. rewrite Ha. go_bool. auto. Qed.

Lemma fits_merge_r b b' v : fits b' v -> fits (mergeBindingAlternatives b b') v.
Proof.
  intros [Ht _]. split; cbn; [|done]. intros Ha. rewrite Ha. go_bool.
  match goal with H : b_typ b = b_typ b' |- _ => rewrite H end. auto.
Qed.

Lemma env_ok_weaken (X Y : string -> Prop) env σ : (forall n, Y n -> X n) -> env_ok X env σ -> env_ok Y env σ.
Proof. intros HXY Henv n Hn. apply Henv, HXY, Hn. Qed.

Lemma env_ok_same (X : string -> Prop) env σ σ' :
  (forall n, X n -> σ' !! n = σ !! n) -> env_ok X env σ -> env_ok X env σ'.
Proof. intros Heq Henv n Hn. specialize (Henv n Hn). by rewrite Heq. Qed.

Lemma written_same (X : string -> Prop) W σ σ' : (forall n, X n -> σ' !! n = σ !! n) -> written X W σ σ'.
Proof. intros Heq n Hn. left. auto. Qed.

Lemma written_union (X : string -> Prop) W1 W2 σ σ1 σ2 :
  written X W1 σ σ1 -> written X W2 σ1 σ2 -> written X (mergeMayProduced W1 W2) σ σ2.
Proof.
  intros H1 H2 n Hn. unfold mergeMayProduced. rewrite lookup_union_with.
  destruct (H2 n Hn) as [->|(b2 & v & Hb2 & Hv & Hfit)].
  - destruct (H1 n Hn) as [->|(b1 & v & Hb1 & Hv & Hfit)]; [by left|right].
    rewrite Hb1. destruct (W2 !! n) as [b2|]; cbn; eexists _, v; eauto using fits_merge_l.
  - right. rewrite Hb2. destruct (W1 !! n) as [b1|]; cbn; eexists _, v; eauto using fits_merge_r.
Qed.

Lemma written_left (X : string -> Prop) W1 W2 σ σ' : written X W1 σ σ' -> written X (mergeMayProduced W1 W2) σ σ'.
Proof. intros Hw. eapply written_union; [done|]. by apply written_same. Qed.

Lemma written_right (X : string -> Prop) W1 W2 σ σ' : written X W2 σ σ' -> written X (mergeMayProduced W1 W2) σ σ'.
Proof. intros Hw. eapply written_union; [|done]. by apply written_same. Qed.

(** The writes may have happened or not. *)
Lemma env_ok_possible (X : string -> Prop) entry W σ σ' :
  env_ok X entry σ -> written X W σ σ' -> env_ok X (possible_writes entry W) σ'.
Proof.
  intros Henv Hw n Hn. unfold possible_writes. rewrite lookup_merge. specialize (Henv n Hn).
  destruct (Hw n Hn) as [->|(b & v & Hb & -> & Hfit)].
  - destruct (entry !! n) as [b0|], (W !! n) as [b1|]; cbn; [|done| |done].
    + destruct Henv as [Hpres Hval]. split.
      * intros Hp. apply Hpres. unfold conditional in *. cbn in Hp.
        destruct (b_presence b0), (b_presence b1); done.
      * intros v Hv. destruct (Hval v Hv) as [Hfit _]. split; [by apply fits_merge_l|]. by intros id [=].
    + rewrite Henv. done.
  - rewrite Hb. destruct (entry !! n) as [b0|]; cbn.
    + split; [by eexists|]. intros v' [= <-]. split; [by apply fits_merge_r|]. by intros id [=].
    + split; [done|]. intros v' [= <-]. split; [exact Hfit|].
      unfold bindingIdentity. cbn. by rewrite orb_true_r.
Qed.

(** What a checked step guarantees of a run that ends in [σ']. *)
Definition sound_end (X : string -> Prop) (flow : snapshotFlow) (σ : store) (o : result) (σ' : store) : Prop :=
  o <> Stuck /\ written X (fl_allProduced flow) σ σ' /\
  (o = Succeeded -> env_ok X (fl_env flow) σ' /\ written X (fl_mayProduced flow) σ σ').

Definition leaf_flow (entry W : gmap string snapshotBinding) : snapshotFlow :=
  {| fl_env := W ∪ entry; fl_produced := W; fl_mayProduced := W; fl_allProduced := W |}.

(** The writes [W] describe the outputs of a leaf. *)
Definition leaf_writes (X : string -> Prop) (l : leaf) (entry W : gmap string snapshotBinding) : Prop :=
  forall n, match l_outputs l !! n with
            | None => W !! n = None
            | Some optional => exists b, W !! n = Some b /\
                (optional = true -> entry !! n = None) /\ (b_presence b = snapshotGuaranteed -> optional = false) /\
                forall σ, env_ok X entry σ -> fits b (l_artifact l σ n) /\
                  forall id, bindingIdentity b = Some id -> v_id (l_artifact l σ n) = id
            end.

Lemma leaf_written (X : string -> Prop) l entry W complete σ σ' :
  leaf_writes X l entry W -> env_ok X entry σ -> wrote l complete σ σ' -> written X W σ σ'.
Proof.
  intros HW Henv Hw n Hn. specialize (Hw n). specialize (HW n). destruct (l_outputs l !! n) as [opt|]; [|by left].
  destruct HW as (b & Hb & _ & _ & Hart). destruct Hw as [Hv|[Hv _]]; [|by left]. right.
  exists b, (l_artifact l σ n). split; [done|split; [done|]]. by apply Hart.
Qed.

Lemma leaf_env (X : string -> Prop) l entry W σ σ' :
  leaf_writes X l entry W -> env_ok X entry σ -> wrote l true σ σ' -> env_ok X (W ∪ entry) σ'.
Proof.
  intros HW Henv Hw n Hn. specialize (Hw n). specialize (HW n). specialize (Henv n Hn) as Hn'.
  destruct (l_outputs l !! n) as [opt|].
  - destruct HW as (b & Hb & Hopt & Hpres & Hart). rewrite (lookup_union_Some_l _ _ _ _ Hb).
    destruct Hw as [->|[-> Hc]].
    + split; [by eexists|]. intros v [= <-]. by apply Hart.
    + rewrite Hopt in Hn' by auto. rewrite Hn'. split; [|done]. intros Hp%Hpres. by rewrite Hc in Hp.
  - by rewrite lookup_union_r, Hw by done.
Qed.

Lemma leaf_sound R (X : string -> Prop) l entry W σ o σ' :
  (forall n, n ∈ R -> ~ X n) -> env_ok X entry σ ->
  (forall σ, env_ok X entry σ -> ready l σ) -> leaf_writes X l entry W ->
  leaf_runs R l σ o σ' -> sound_end X (leaf_flow entry W) σ o σ'.
Proof.
  intros HR Henv Hready HW Hrun.
  assert (Hi : forall σ σ', interferes R σ σ' -> forall n, X n -> σ' !! n = σ !! n).
  { intros ? ? Hint n Hn. apply Hint. intros Hr. by eapply HR. }
  assert (Hw : forall complete σ1 σ2, interferes R σ σ1 -> wrote l complete σ1 σ2 -> interferes R σ2 σ' ->
    written X W σ σ').
  { intros complete σ1 σ2 H1 H2 H3 n Hn. rewrite (Hi _ _ H3), <- (Hi _ _ H1) by done.
    eapply leaf_written; [done| |done|done]. apply (env_ok_same X _ σ); [by apply Hi|done]. }
  destruct Hrun as [σ1 H1 Hnot|σ1 σ2 σ3 H1 Hr H2 H3|σ1 σ2 σ3 H1 Hr H2 H3].
  - destruct Hnot. apply Hready. eapply env_ok_same; [by apply Hi|done].
  - split; [done|]. split; [by eapply Hw|]. intros _. split; [|by eapply Hw].
    apply (env_ok_same X _ σ2); [by apply Hi|]. eapply leaf_env; [done| |done].
    apply (env_ok_same X _ σ); [by apply Hi|done].
  - split; [done|]. split; [by eapply Hw|done].
Qed.
End Stores.

(** ** The leaves of a plan *)

Section CheckedLeaves.
Context `{MO : MapOrder} `{SC : StepChecks} (B : gset string) (X : string -> Prop).
Implicit Types (entry : snapshotEnvironment) (σ : store).

Lemma exact_identity_run entry σ n id :
  exact_identity entry n = Some id -> X n -> env_ok B X entry σ -> exists v, σ !! n = Some v /\ v_id v = id.
Proof.
  unfold exact_identity. intros Hid Hn Henv. specialize (Henv n Hn). destruct (entry !! n) as [b|]; [|done]. cbn in Hid.
  destruct Henv as [Hp Hv]. destruct Hp as [v Hv'].
  - unfold bindingIdentity, conditional in Hid. destruct (b_presence b); [done|]. by rewrite orb_true_r in Hid.
  - exists v. split; [done|]. by apply Hv.
Qed.

Lemma input_ready identity entry σ n d :
  check_input identity entry (n, d) = None -> X n -> env_ok B X entry σ -> input_ok σ n (input_of d).
Proof.
  intros Hc Hn Henv. specialize (Henv n Hn). unfold input_ok. cbn in *.
  destruct (under _ _ _); [done|]. destruct (entry !! n) as [b|]; [|done].
  destruct (b_typed b) eqn:Ht; cbn in Hc; [|by destruct (b_ambiguous b)].
  destruct (String.eqb _ _) eqn:Htyp; cbn in Hc; [|done]. apply String.eqb_eq in Htyp.
  destruct Henv as [Hp Hv]. destruct (σ !! n) as [v|].
  - rewrite <- Htyp. by apply Hv.
  - unfold conditional in Hc. destruct (si_Optional d); [done|]. cbn in Hc.
    destruct (b_presence b); [|done]. by destruct Hp.
Qed.

Lemma exact_binding_ready identity what entry σ n type :
  exact_binding identity what n type entry = None -> X n -> env_ok B X entry σ -> input_ok σ n (type, false).
Proof.
  intros Hc Hn Henv. specialize (Henv n Hn). unfold exact_binding, input_ok, has_type, conditional in *.
  destruct (entry !! n) as [b|]; [|done]. destruct (b_typed b && _) eqn:Ht; [|done]. go_bool. cbn in Hc.
  destruct Henv as [Hp Hv]. destruct (σ !! n) as [v|]; cbn.
  - subst. by apply Hv.
  - destruct (b_presence b); [|done]. by destruct Hp.
Qed.

Lemma find_None {A} (f : A -> bool) l : find f l = None -> forall x, x ∈ l -> f x = false.
Proof. intros Hf x Hx. apply (find_none f l Hf). by apply list_elem_of_In. Qed.

(** The inversion of [requireValidation]. *)
Lemma requireValidation_inv profiles entry v c inputs mapping identity :
  requireValidation profiles entry v c inputs mapping identity = None ->
  exists id b p, exact_identity entry (mapped_name mapping c) = Some id /\
    entry !! mapped_name mapping v = Some b /\ b_validation b = Some p /\ vp_candidate p = id /\
    forall name base, vp_bases p !! name = Some base -> exact_identity entry (mapped_name mapping name) = Some base.
Proof.
  unfold requireValidation. intros Hr. destruct (String.eqb _ ""); [done|].
  destruct (match inputs with Some _ => _ | None => _ end); [done|].
  unfold exact_identity at 1. destruct (entry !! mapped_name mapping c) as [bc|]; [|done]. cbn.
  destruct (has_type bc _); [|done]. cbn in Hr. destruct (bindingIdentity bc) as [id|]; [|done].
  destruct (entry !! mapped_name mapping v) as [bv|]; [|done].
  destruct (b_validation bv) as [p|] eqn:Hp; [|done]. destruct (has_type bv _); [|done]. cbn in Hr.
  destruct (String.eqb _ id) eqn:Hid; [|done]. cbn in Hr. apply String.eqb_eq in Hid.
  destruct (find _ _) as [[]|] eqn:Hf; [done|]. exists id, bv, p. repeat split; [done..|].
  intros name base Hbase. eapply find_None in Hf; [|rewrite range_perm; by apply elem_of_map_to_list].
  cbn in Hf. go_bool. exact Hf.
Qed.

Lemma attested_ok profiles entry σ v c inputs mapping identity :
  requireValidation profiles entry v c inputs mapping identity = None ->
  X (mapped_name mapping v) -> X (mapped_name mapping c) -> (forall n, n ∈ B -> X (mapped_name mapping n)) ->
  env_ok B X entry σ -> attested σ mapping v c.
Proof.
  intros (id & b & p & Hc & Hb & Hp & Hid & Hbases)%requireValidation_inv Xv Xc XB Henv w Hw.
  destruct (exact_identity_run _ _ _ _ Hc Xc Henv) as (cv & Hcv & Hcid).
  pose proof (Henv _ Xv) as Hv. rewrite Hb in Hv. destruct Hv as [_ Hv].
  destruct (Hv w Hw) as [[_ Hval] _]. destruct (Hval p Hp) as [HB Hw'].
  exists cv, p. repeat split; [done|done|congruence|].
  intros name base Hbase. eapply exact_identity_run; [by apply Hbases| |done].
  apply XB, HB, elem_of_dom. eauto.
Qed.

(** What a validation attests when it runs is what the checker recorded. *)
Lemma exact_bases_run identity entry σ bases acc m :
  exact_bases identity entry bases acc = Ret m -> (forall b, b ∈ bases -> X (dvb_Name b)) -> env_ok B X entry σ ->
  foldl (fun acc base => match σ !! dvb_Name base with
                         | Some v => <[ dvb_Name base := v_id v ]> acc
                         | None => acc
                         end) acc bases = m /\
  dom m ⊆ dom acc ∪ list_to_set (dvb_Name <$> bases).
Proof.
  intros Hm HX Henv. revert acc Hm. induction bases as [|b bases IH]; intros acc Hm; cbn in *; [go_inv; set_solver|].
  destruct (exact_identity entry (dvb_Name b)) as [id|] eqn:Hid; [|done].
  destruct (exact_identity_run _ _ _ _ Hid (HX b (list_elem_of_here _ _)) Henv) as (v & -> & ->).
  apply IH in Hm as [-> Hdom]; [|set_solver]. split; [done|]. rewrite dom_insert in Hdom. set_solver.
Qed.

Lemma attest_ok identity entry σ authority p :
  provenance_of identity entry authority = Ret p -> X (dva_CandidateInput authority) ->
  (forall b, b ∈ dva_BaseInputs authority -> X (dvb_Name b)) -> env_ok B X entry σ ->
  attest authority σ = Some p /\ dom (vp_bases p) ⊆ list_to_set (dvb_Name <$> dva_BaseInputs authority).
Proof.
  unfold provenance_of, attest. intros Hp Xc Xb Henv.
  destruct (exact_identity entry _) as [id|] eqn:Hid; [|done]. go_inv.
  destruct (exact_identity_run _ _ _ _ Hid Xc Henv) as (v & -> & <-). cbn.
  match goal with H : exact_bases _ _ _ _ = Ret _ |- _ => apply (exact_bases_run _ _ σ) in H as [Hf Hdom]; [|done..] end.
  unfold run_bases. rewrite Hf. split; [done|]. set_solver.
Qed.

(** What the check of a leaf establishes. *)
Definition leaf_checked (step : StepConfig) entry (path : string) (flow : snapshotFlow) : Prop :=
  exists l W, leaf_of step path = Some l /\ flow = leaf_flow entry W /\ dom W = writes_of step /\
    (forall σ, env_ok B X entry σ -> ready l σ) /\ leaf_writes B X l entry W.

(** The outputs of a task or an agent. *)
Lemma produced_writes l kind fid identity step outs entry W :
  l_outputs l = so_Optional <$> outs -> l_artifact l = produced_artifact kind fid identity step outs ->
  (forall n, match outs !! n with
             | None => W !! n = None
             | Some d => exists b, W !! n = Some b /\ leaf_binding kind fid identity step entry n d b
             end) ->
  (forall n d authority, outs !! n = Some d -> validating step n d = Some authority ->
     X (dva_CandidateInput authority) /\ (forall b, b ∈ dva_BaseInputs authority -> X (dvb_Name b)) /\
     list_to_set (dvb_Name <$> dva_BaseInputs authority) ⊆ B) ->
  leaf_writes B X l entry W /\ dom W = dom outs.
Proof.
  intros Hout Hart HW Hauth. split.
  - intros n. specialize (HW n). rewrite Hout, lookup_fmap. destruct (outs !! n) as [d|] eqn:Hd; cbn; [|done].
    destruct HW as (b & Hb & Htyp & Htyped & Hamb & Hpres & (pr & Hpr & Hkey) & Hval & Hopt).
    exists b. split; [done|]. split; [done|]. split; [rewrite Hpres; by destruct (so_Optional d)|].
    intros σ Henv. rewrite Hart. unfold fits, produced_artifact. rewrite Hd. cbn. split; [split|].
    + by rewrite Htyp.
    + intros p (a & Ha & Hp)%Hval. rewrite Ha. cbn. destruct (Hauth n d a Hd Ha) as (Xc & Xb & HB).
      destruct (attest_ok _ _ σ _ _ Hp Xc Xb Henv) as [-> Hdom]. set_solver.
    + intros id. unfold bindingIdentity. rewrite Hamb, Hpr. destruct (conditional b); [done|]. cbn.
      intros [= <-]. by rewrite Hkey.
  - apply set_eq. intros n. specialize (HW n). rewrite !elem_of_dom. destruct (outs !! n) as [d|].
    + destruct HW as (b & -> & _). split; by eexists.
    + rewrite HW. done.
Qed.

Lemma checkTask_checked s entry path c flow c' :
  checkTask s entry path c = (Ret flow, c') -> (forall n, n ∈ names_of B (STask s) -> X n) ->
  bases_of (STask s) ⊆ B -> leaf_checked (STask s) entry path flow.
Proof.
  unfold checkTask. intros Hc HX HB. chk. cbn in *. apply checkLeaf_inv in Hc as (Hin & W & -> & HW).
  2: { unfold file_backed, effectiveTaskOutputs. by destruct (t_Config s). }
  eexists _, W. split; [reflexivity|]. split; [reflexivity|].
  edestruct (produced_writes
    {| l_inputs := input_of <$> t_SnapshotInputs s; l_outputs := so_Optional <$> t_SnapshotOutputs s; l_gate := fun _ => True;
       l_artifact := produced_artifact "task" (t_FunctionID s) (identity_of path "task" (t_Name s)) (PTask s) (t_SnapshotOutputs s) |})
    as [Hlw Hdom]; [reflexivity|reflexivity|exact HW| |].
  - intros n d au _ Ha. unfold validating in Ha. destruct (String.eqb (so_Type d) _ && _); [|done].
    unfold authority_bases in *. rewrite Ha in *.
    repeat split; [apply HX; set_solver| |done]. intros b Hb. apply HX.
    rewrite !elem_of_union, elem_of_list_to_set, list_elem_of_fmap. left. right. eauto.
  - split; [exact Hdom|]. split; [|exact Hlw]. intros σ Henv. split; [|done]. cbn. intros n d Hd.
    rewrite lookup_fmap, fmap_Some in Hd. destruct Hd as (d' & Hd & ->).
    eapply input_ready; [by apply Hin| |done]. apply HX. rewrite !elem_of_union, elem_of_dom. eauto.
Qed.

Lemma human_review_input s candidate :
  humanReviewCandidate s = Ret (Some candidate) -> candidate ∈ dom (a_SnapshotInputs s).
Proof.
  unfold humanReviewCandidate. intros Hh. destruct (negb _); [done|].
  destruct (filter _ _) as [|[n d] [|]] eqn:Hf; [done| |done]. injection Hh as <-.
  assert (Hn : (n, d) ∈ [(n, d)]) by set_solver. rewrite <- Hf in Hn.
  apply list_elem_of_filter in Hn as [_ Hn%elem_of_sorted_entries]. apply elem_of_dom. eauto.
Qed.

Lemma checkAgent_checked s entry path c flow c' :
  checkAgent s entry path c = (Ret flow, c') -> (forall n, n ∈ names_of B (SAgent s) -> X n) ->
  leaf_checked (SAgent s) entry path flow.
Proof.
  unfold checkAgent, effectiveAgentArtifactNames. cbv zeta beta iota. intros Hc HX. chk. cbn in HX.
  assert (Hgate : a = flow /\ match humanReviewCandidate s with
      | Ret (Some candidate) => forall σ, env_ok B X entry σ -> attested σ (a_InputMapping s) (a_Validation s) candidate
      | _ => True end).
  { destruct (humanReviewCandidate s) as [[candidate|]|err| |] eqn:Hh; chk; [|done..]. split; [done|]. intros σ Henv.
    pose proof (human_review_input _ _ Hh) as Hin.
    eapply attested_ok; [done| | | |done]; [apply HX; set_solver|apply HX|intros n Hn; apply HX];
      rewrite !elem_of_union; right; apply elem_of_map; set_solver. }
  destruct Hgate as [-> Hgate]. apply checkLeaf_inv in Hc0 as (Hin & W & -> & HW); [|done].
  eexists _, W. split; [reflexivity|]. split; [reflexivity|].
  edestruct (produced_writes (default
    {| l_inputs := ∅; l_outputs := ∅; l_gate := fun _ => True; l_artifact := fun _ _ => {| v_type := ""; v_id := ""; v_validates := None |} |}
    (leaf_of (SAgent s) path))) as [Hlw Hdom]; [reflexivity|reflexivity|exact HW|done|].
  split; [exact Hdom|]. split; [|exact Hlw]. intros σ Henv. split; cbn.
  - intros n d Hd. rewrite lookup_fmap, fmap_Some in Hd. destruct Hd as (d' & Hd & ->).
    eapply input_ready; [by apply Hin| |done]. apply HX. rewrite !elem_of_union, elem_of_dom. eauto.
  - destruct (humanReviewCandidate s) as [[candidate|]|err| |]; auto.
Qed.

Lemma single_write_flow entry n b : single_write entry n b = leaf_flow entry {[ n := b ]}.
Proof. unfold single_write, leaf_flow. by rewrite insert_union_singleton_l. Qed.

Lemma checkLoad_checked s entry path c flow c' :
  checkLoadSnapshot s entry path c = (Ret flow, c') -> leaf_checked (SLoadSnapshot s) entry path flow.
Proof.
  unfold checkLoadSnapshot. intros Hc. chk. eexists _, _. split; [reflexivity|]. split; [apply single_write_flow|].
  split; [cbn; apply dom_singleton_L|]. split; [intros σ Henv; split; cbn; [by intros ? ? ?|done]|].
  intros n. cbn. destruct (decide (n = ls_Name s)) as [->|Hn]; [|by rewrite !lookup_singleton_ne].
  rewrite !lookup_singleton_eq. eexists. split; [reflexivity|]. cbn. split; [|split].
  - intros Ho. rewrite Ho in *. cbn in *. by destruct (entry !! ls_Name s).
  - by destruct (ls_Optional s).
  - intros σ Henv. split; [done|]. intros id. unfold bindingIdentity, conditional. cbn.
    destruct (ls_Optional s); [done|]. by destruct (String.eqb _ "") eqn:?; [|intros [= <-]].
Qed.

Lemma checkAwait_checked s entry path c flow c' :
  checkAwaitSnapshot s entry path c = (Ret flow, c') -> (forall n, n ∈ names_of B (SAwaitSnapshot s) -> X n) ->
  leaf_checked (SAwaitSnapshot s) entry path flow.
Proof.
  unfold checkAwaitSnapshot. intros Hc HX. chk. cbn in HX.
  eexists _, _. split; [reflexivity|]. split; [apply single_write_flow|].
  split; [cbn; apply dom_singleton_L|]. split.
  - intros σ Henv. destruct (aw_MergeApproval s) as [intent|] eqn:Hm; chk; (split; cbn; unfold required).
    + intros n d [<- <-]%lookup_singleton_Some. eapply exact_binding_ready; [done| |done]. apply HX. set_solver.
    + eapply attested_ok; [done| | | |done]; intros; apply HX; unfold mapped_name; rewrite lookup_empty; set_solver.
    + intros n d [<- <-]%lookup_singleton_Some. eapply exact_binding_ready; [done| |done]. apply HX. set_solver.
    + done.
  - intros n. cbn. destruct (decide (n = aw_Name s)) as [->|Hn]; [|by rewrite !lookup_singleton_ne].
    rewrite !lookup_singleton_eq. eexists. split; [reflexivity|]. cbn. split; [done|]. split; [done|].
    intros σ Henv. split; [done|]. by intros id [= <-].
Qed.

Lemma published_ready identity s entry σ :
  check_published identity s entry = None -> X (ps_Input s) -> env_ok B X entry σ ->
  input_ok σ (ps_Input s) (ps_InputType s, false).
Proof.
  unfold check_published, input_ok. intros Hc Hn Henv. specialize (Henv _ Hn).
  destruct (entry !! ps_Input s) as [b|]; [|done].
  destruct (b_typed b) eqn:Ht; cbn in Hc; [|by destruct (b_ambiguous b)].
  destruct (String.eqb _ _) eqn:Htyp; cbn in Hc; [|done]. apply String.eqb_eq in Htyp.
  destruct Henv as [Hp Hv]. destruct (σ !! ps_Input s) as [v|]; cbn.
  - rewrite <- Htyp. by apply Hv.
  - unfold conditional in Hc. destruct (b_presence b); [|done]. by destruct Hp.
Qed.

Lemma empty_flow entry : emptySnapshotFlow entry = leaf_flow entry ∅.
Proof. unfold emptySnapshotFlow, leaf_flow. by rewrite (left_id_L ∅ (∪)). Qed.

Lemma checkPublish_checked s entry path c flow c' :
  checkPublishSnapshot s entry path c = (Ret flow, c') -> (forall n, n ∈ names_of B (SPublishSnapshot s) -> X n) ->
  leaf_checked (SPublishSnapshot s) entry path flow.
Proof.
  unfold checkPublishSnapshot. intros Hc HX. chk. cbn in HX.
  eexists _, _. split; [reflexivity|]. split; [apply empty_flow|]. split; [cbn; apply dom_empty_L|].
  split; [|done]. intros σ Henv. split; cbn; unfold required.
  - intros n d [[<- <-]%lookup_singleton_Some|[_ Hd]]%lookup_union_Some_raw.
    + eapply published_ready; [done| |done]. apply HX. set_solver.
    + destruct (String.eqb (ps_Mode s) _); [|by rewrite lookup_empty in Hd]. unfold check_merge in *. chk.
      apply lookup_singleton_Some in Hd as [<- <-]. eapply exact_binding_ready; [done| |done]. apply HX. set_solver.
  - destruct (String.eqb (ps_InputType s) _); [|done].
    eapply attested_ok; [done| | | |done]; intros; apply HX; unfold mapped_name; rewrite lookup_empty; set_solver.
Qed.
End CheckedLeaves.

(** ** The shape of flows *)

Section Shape.
Context `{MO : MapOrder} `{SC : StepChecks}.

(** The branches of an in_parallel, each checked from the entry, and the branch
    each name is produced by. *)
Definition branches_checked (check : StepConfig -> snapshotEnvironment -> string -> stateful snapshotFlowChecker message snapshotFlow)
    (path : string) (entry : snapshotEnvironment) (i : nat) (steps : list Step) (branches : list snapshotFlow)
    (pb pb' : gmap string nat) : Prop :=
  length branches = length steps /\
  (forall k step, steps !! k = Some step -> exists flow c1 c2, branches !! k = Some flow /\
     check (Config step) entry (indexed (path +:+ ".in_parallel.steps") (i + k)) c1 = (Ret flow, c2)) /\
  pb ⊆ pb' /\
  (forall n j, pb' !! n = Some j -> pb !! n = Some j \/
     exists k flow, branches !! k = Some flow /\ j = (i + k)%nat /\ n ∈ dom (fl_mayProduced flow)) /\
  (forall k flow n, branches !! k = Some flow -> n ∈ dom (fl_mayProduced flow) -> pb' !! n = Some (i + k)%nat).

Lemma producer_conflict_None path i branch pb :
  producer_conflict path i branch pb = None -> forall n, n ∈ dom (fl_mayProduced branch) -> pb !! n = None.
Proof.
  unfold producer_conflict. destruct (find _ _) eqn:Hf; [done|]. intros _ n Hn.
  eapply find_None in Hf; [|by apply elem_of_names]. unfold present in Hf. by destruct (pb !! n).
Qed.

Lemma check_branches_inv check path entry i steps pb c branches pb' c' :
  check_branches check path entry i steps pb c = (Ret (branches, pb'), c') ->
  branches_checked check path entry i steps branches pb pb'.
Proof.
  revert i pb c branches c'. induction steps as [|step steps IH]; intros i pb c branches c' Hc;
    cbn [check_branches] in Hc; chk.
  { repeat split; [set_solver| |naive_solver|]; intros; set_solver. }
  destruct a1 as [bs pb1]. chk.
  apply IH in Hc2 as (Hlen & Hk & Hsub & Hfrom & Hto). pose proof (producer_conflict_None _ _ _ _ Hc1) as Hfresh.
  assert (Hadd : pb ⊆ (const i <$> fl_mayProduced a) ∪ pb).
  { apply map_union_subseteq_r. apply map_disjoint_dom. rewrite dom_fmap_L. intros n Hn Hpb.
    apply elem_of_dom in Hpb as [? Hpb]. rewrite Hfresh in Hpb; done. }
  split; [cbn; lia|]. split; [|split; [by etrans|split]].
  - intros [|k] s Hs; cbn in Hs.
    + injection Hs as <-. eexists a, _, _. split; [done|]. by rewrite Nat.add_0_r.
    + destruct (Hk k s Hs) as (f & d1 & d2 & Hf & Hd). exists f, d1, d2. split; [done|]. by rewrite <- Nat.add_succ_comm.
  - intros n j [Hn|(k & f & Hf & -> & Hn)]%Hfrom.
    + apply lookup_union_Some_raw in Hn as [Hn|[_ Hn]]; [|by left]. right. exists O, a.
      rewrite lookup_fmap, fmap_Some in Hn. destruct Hn as (b & Hb & ->). rewrite elem_of_dom. cbn. split; [done|]. split; [lia|eauto].
    + right. exists (S k), f. cbn. split; [done|]. split; [lia|done].
  - intros [|k] f n Hf Hn; cbn in Hf.
    + injection Hf as <-. eapply lookup_weaken; [|exact Hsub]. apply lookup_union_Some_l. rewrite lookup_fmap.
      apply elem_of_dom in Hn as [b ->]. cbn. f_equal. lia.
    + rewrite <- Nat.add_succ_comm. by eapply Hto.
Qed.

(** Each step of a sequence, by induction on the flow before it. *)
Lemma check_steps_ind check path (P : nat -> list Step -> snapshotFlow -> snapshotFlow -> Prop) :
  (forall i flow, P i [] flow flow) ->
  (forall i step steps flow child flow' c c', check (Config step) (fl_env flow) (indexed path i) c = (Ret child, c') ->
     P (S i) steps (then_flow flow child) flow' -> P i (step :: steps) flow flow') ->
  forall i steps flow c flow' c', check_steps check path i steps flow c = (Ret flow', c') -> P i steps flow flow'.
Proof.
  intros Hnil Hcons i steps. revert i. induction steps as [|step steps IH]; intros i flow c flow' c' Hc;
    cbn [check_steps] in Hc; chk; eauto.
Qed.

Definition is_leaf (step : StepConfig) : bool :=
  match step with
  | STask _ | SAgent _ | SLoadSnapshot _ | SAwaitSnapshot _ | SPublishSnapshot _ | SRun _ => true
  | _ => false
  end.

Lemma checked_leaf B X step entry path c flow c' :
  checkStep step entry path c = (Ret flow, c') -> is_leaf step = true -> (forall n, n ∈ names_of B step -> X n) ->
  bases_of step ⊆ B -> leaf_checked B X step entry path flow.
Proof.
  intros Hc Hleaf HX HB. destruct step; cbn in Hleaf; try done; cbn [checkStep] in Hc.
  - by eapply checkTask_checked.
  - chk. case_bool_decide; [discriminate Hc|]. chk. eexists _, _. split; [reflexivity|]. split; [apply empty_flow|].
    split; [cbn; apply dom_empty_L|]. split; [|done]. intros σ _. split; [|done]. cbn. by intros ? ? ?.
  - by eapply checkAgent_checked.
  - by eapply checkLoad_checked.
  - by eapply checkAwait_checked.
  - by eapply checkPublish_checked.
Qed.

(** The names of a flow. *)
Definition shape (entry : snapshotEnvironment) (writes tried : gset string) (flow : snapshotFlow) : Prop :=
  dom entry ⊆ dom (fl_env flow) /\ dom (fl_produced flow) ⊆ dom (fl_env flow) ∩ dom (fl_mayProduced flow) /\
  dom (fl_mayProduced flow) ⊆ dom (fl_allProduced flow) /\ dom (fl_allProduced flow) ⊆ writes /\
  (tried = ∅ -> dom (fl_mayProduced flow) ⊆ dom (fl_produced flow)).

Lemma dom_mergeMay W1 W2 : dom (mergeMayProduced W1 W2) = dom W1 ∪ dom W2.
Proof.
  unfold mergeMayProduced. apply set_eq. intros n. rewrite elem_of_union, !elem_of_dom, lookup_union_with.
  destruct (W1 !! n), (W2 !! n); cbn; unfold is_Some; naive_solver.
Qed.

Lemma dom_mergeProduced W1 W2 : dom (mergeProduced W1 W2) = dom W2 ∪ dom W1.
Proof. unfold mergeProduced. apply dom_union_L. Qed.

Lemma dom_possible entry W : dom (possible_writes entry W) = dom entry ∪ dom W.
Proof.
  unfold possible_writes. apply set_eq. intros n. rewrite elem_of_union, !elem_of_dom, lookup_merge.
  destruct (entry !! n), (W !! n); cbn; unfold is_Some; naive_solver.
Qed.

Lemma apply_lookup base flow n : applySuccessfulFlow base flow !! n = apply_name flow n (base !! n).
Proof.
  unfold applySuccessfulFlow.
  assert (Hgen : forall l (env : snapshotEnvironment), NoDup l -> foldl (fun env name =>
      partial_alter (fun _ => apply_name flow name (base !! name)) name env) env l !! n =
    if decide (n ∈ l) then apply_name flow n (base !! n) else env !! n).
  { induction l as [|m l IH]; intros env Hnd; [by rewrite decide_False by set_solver|].
    apply NoDup_cons in Hnd as [Hm Hnd]. cbn. rewrite IH by done. destruct (decide (n = m)) as [->|Hne].
    - rewrite (decide_False _ _ Hm), (decide_True _ _ (list_elem_of_here _ _)). by rewrite lookup_partial_alter_eq.
    - rewrite lookup_partial_alter_ne by done. repeat case_decide; set_solver. }
  rewrite Hgen by apply NoDup_names. case_decide as Hn; [done|]. rewrite elem_of_names in Hn.
  apply not_elem_of_dom in Hn. unfold apply_name. by rewrite Hn.
Qed.

Lemma shape_then entry w1 w2 t1 t2 f1 f2 :
  shape entry w1 t1 f1 -> shape (fl_env f1) w2 t2 f2 -> shape entry (w1 ∪ w2) (t1 ∪ t2) (then_flow f1 f2).
Proof.
  intros (A1 & A2 & A3 & A4 & A5) (B1 & B2 & B3 & B4 & B5). unfold shape. cbn.
  rewrite !dom_mergeMay, !dom_mergeProduced. repeat split; [set_solver..|].
  intros Ht. assert (t1 = ∅ /\ t2 = ∅) as [-> ->] by set_solver. set_solver.
Qed.

Lemma shape_steps check path entry0 i steps flow c flow' c' w t :
  (forall s, s ∈ steps -> forall entry p c f c', check (Config s) entry p c = (Ret f, c') ->
     shape entry (writes_of (Config s)) (try_writes (Config s)) f) ->
  check_steps check path i steps flow c = (Ret flow', c') -> shape entry0 w t flow ->
  shape entry0 (w ∪ ⋃ map (fun s : Step => writes_of (Config s)) steps)
    (t ∪ ⋃ map (fun s : Step => try_writes (Config s)) steps) flow'.
Proof.
  revert i flow c w t. induction steps as [|s steps IH]; intros i flow c w t Hs Hc Hf; cbn [check_steps] in Hc; chk; cbn.
  { by rewrite !(right_id_L ∅ (∪)). }
  rewrite !(assoc_L (∪)). eapply IH; [set_solver|done|]. apply shape_then; [done|]. eapply Hs; [set_solver|done].
Qed.

Lemma elem_of_union_map (f : Step -> gset string) n steps :
  n ∈ ⋃ map f steps <-> exists k s, steps !! k = Some s /\ n ∈ f s.
Proof.
  rewrite elem_of_union_list. split.
  - intros (Y & HY & Hn). change (Y ∈ f <$> steps) in HY. apply list_elem_of_fmap in HY as (s & -> & [k Hk]%list_elem_of_lookup). eauto.
  - intros (k & s & Hk & Hn). exists (f s). split; [|done]. change (f s ∈ f <$> steps).
    apply list_elem_of_fmap_2. by eapply list_elem_of_lookup_2.
Qed.

Lemma dom_joined_all n branches W :
  n ∈ dom (foldl (fun all branch => mergeMayProduced all (fl_allProduced branch)) W branches) <->
  n ∈ dom W \/ exists k f, branches !! k = Some f /\ n ∈ dom (fl_allProduced f).
Proof.
  revert W. induction branches as [|b bs IH]; intros W; cbn [foldl].
  { split; [by left|]. intros [?|(k & f & Hk & _)]; done. }
  rewrite IH, dom_mergeMay, elem_of_union. split.
  - intros [[?|?]|(k & f & Hk & Hf)]; [by left|right; by exists O, b|right; by exists (S k), f].
  - intros [?|([|k] & f & Hk & Hf)]; [auto|injection Hk as ->; auto|]. right. eauto.
Qed.

Lemma dom_selected n branches (f : snapshotFlow -> gmap string snapshotBinding) (pb : gmap string nat) :
  n ∈ dom (map_imap (fun name index => branch_map branches f name index) pb) <->
  exists i branch, pb !! n = Some i /\ branches !! i = Some branch /\ n ∈ dom (f branch).
Proof.
  rewrite elem_of_dom, map_lookup_imap. unfold is_Some, branch_map. setoid_rewrite elem_of_dom. unfold is_Some.
  destruct (pb !! n) as [i|]; cbn; [|naive_solver]. destruct (branches !! i) as [b|] eqn:Hb; cbn; [|naive_solver].
  split; [intros [x Hx]; exists i, b; eauto|]. intros (? & ? & [= <-] & ? & ?). simplify_eq. done.
Qed.

Lemma shape_join check path entry steps branches pb :
  (forall s, s ∈ steps -> forall entry p c f c', check (Config s) entry p c = (Ret f, c') ->
     shape entry (writes_of (Config s)) (try_writes (Config s)) f) ->
  branches_checked check path entry 0 steps branches ∅ pb ->
  shape entry (⋃ map (fun s : Step => writes_of (Config s)) steps)
    (⋃ map (fun s : Step => try_writes (Config s)) steps) (join_branches entry branches pb).
Proof.
  intros Hs (Hlen & Hk & _ & Hfrom & Hto).
  assert (Hsh : forall k f, branches !! k = Some f -> exists s, steps !! k = Some s /\
    shape entry (writes_of (Config s)) (try_writes (Config s)) f).
  { intros k f Hf. destruct (lookup_lt_is_Some_2 steps k) as [s Hss]; [rewrite <- Hlen; by eapply lookup_lt_Some|].
    exists s. split; [done|]. destruct (Hk k s Hss) as (f' & c1 & c2 & Hf' & Hck). simplify_eq.
    eapply Hs; [by eapply list_elem_of_lookup_2|done]. }
  unfold shape, join_branches. cbn. rewrite !dom_union_L. split; [set_solver|]. split; [|split; [|split]].
  - intros n (i & b & Hi & Hb & Hn)%dom_selected. rewrite elem_of_intersection, elem_of_union, !dom_selected.
    destruct (Hsh _ _ Hb) as (s & _ & A1 & A2 & _). apply A2, elem_of_intersection in Hn as [Hn Hm].
    split; [left|]; by exists i, b.
  - intros n (i & b & Hi & Hb & Hn)%dom_selected. apply dom_joined_all. right. exists i, b. split; [done|].
    destruct (Hsh _ _ Hb) as (s & _ & _ & _ & A3 & _). by apply A3.
  - intros n [Hn|(k & f & Hf & Hn)]%dom_joined_all; [set_solver|]. destruct (Hsh _ _ Hf) as (s & Hss & _ & _ & _ & A4 & _).
    apply elem_of_union_map. exists k, s. split; [done|]. by apply A4.
  - intros Ht n (i & b & Hi & Hb & Hn)%dom_selected. apply dom_selected. exists i, b.
    destruct (Hsh _ _ Hb) as (s & Hss & _ & _ & _ & _ & A5). split; [done|]. split; [done|]. apply A5; [|done].
    apply set_eq. intros m. split; [|set_solver]. intros Hm. rewrite <- Ht, elem_of_union_map. eauto.
Qed.

Lemma shape_ensure entry w1 w2 t1 t2 main hook :
  shape entry w1 t1 main -> shape (conservativeEnsureEnvironment entry main) w2 t2 hook ->
  shape entry (w1 ∪ w2) (t1 ∪ t2) (ensure_flow main hook).
Proof.
  intros (A1 & A2 & A3 & A4 & A5) (B1 & B2 & B3 & B4 & B5). unfold shape. cbn. rewrite !dom_mergeMay, !dom_mergeProduced.
  assert (Hkeep : dom (fl_env main) ⊆ dom (applySuccessfulFlow (fl_env main) hook)).
  { intros n [b Hb]%elem_of_dom. rewrite elem_of_dom, apply_lookup, Hb. unfold apply_name.
    repeat case_match; by eexists. }
  assert (Hhook : dom (fl_produced hook) ⊆ dom (applySuccessfulFlow (fl_env main) hook)).
  { intros n Hn. assert (Hm : n ∈ dom (fl_mayProduced hook)) by set_solver.
    rewrite elem_of_dom, apply_lookup. unfold apply_name. apply elem_of_dom in Hm as [? ->].
    apply elem_of_dom in Hn as [b ->]. destruct (fl_env hook !! n); by eexists. }
  split; [set_solver|]. split; [set_solver|]. split; [set_solver|]. split; [set_solver|].
  intros Ht. assert (t1 = ∅ /\ t2 = ∅) as [-> ->] by set_solver. set_solver.
Qed.

Lemma shape_hook entry w1 w2 t1 t2 main hook :
  shape entry w1 t1 main -> shape entry w2 t2 hook -> shape entry (w1 ∪ w2) (t1 ∪ t2) (checkNonSuccessHook main hook).
Proof.
  intros (A1 & A2 & A3 & A4 & A5) (B1 & B2 & B3 & B4 & B5). unfold shape. cbn. rewrite !dom_mergeMay.
  split; [done|]. split; [done|]. split; [set_solver|]. split; [set_solver|].
  intros Ht. apply A5. set_solver.
Qed.

Lemma shape_try entry w t child : shape entry w t child -> shape entry w w (conditionalTryFlow entry child).
Proof.
  intros (A1 & A2 & A3 & A4 & A5). unfold shape. cbn. rewrite dom_possible, dom_empty_L.
  split; [set_solver|]. split; [set_solver|]. split; [done|]. split; [done|]. set_solver.
Qed.

Lemma deeper_Ret {A} t r (m : stateful snapshotFlowChecker message A) c a c' :
  deeper t r m c = (Ret a, c') -> exists c1 c2, m c1 = (Ret a, c2).
Proof. unfold deeper. destruct (m _) as [o c2] eqn:Hm. intros [= -> _]. eauto. Qed.

Lemma shape_leaf step entry path c flow c' :
  checkStep step entry path c = (Ret flow, c') -> is_leaf step = true ->
  shape entry (writes_of step) (try_writes step) flow.
Proof.
  intros Hc Hl. destruct (checked_leaf (bases_of step) (fun _ => True) _ _ _ _ _ _ Hc Hl) as (l & W & _ & -> & Hdom & _);
    [done..|]. unfold shape. cbn. rewrite dom_union_L, Hdom. set_solver.
Qed.

Lemma checkStep_shape step entry path c flow c' :
  checkStep step entry path c = (Ret flow, c') -> shape entry (writes_of step) (try_writes step) flow.
Proof.
  revert entry path c flow c'. induction step as [s|s|s|s|s|s|s|s|s|s|s IH|l IH|l n f IH|s vars f IH|s d IH|s n IH|s h IH IHh|s h IH IHh
    |s h IH IHh|s h IH IHh|s h IH IHh] using step_ind; intros entry path c flow c' Hc;
    try (exact (shape_leaf _ _ _ _ _ _ Hc eq_refl));
    cbn [checkStep] in Hc; try (discriminate Hc); chk.
  - eapply shape_try; eauto.
  - unfold checkSequence in Hc. cbn. rewrite Forall_forall in IH.
    eapply (shape_steps _ _ _ _ _ _ _ _ _ ∅ ∅) in Hc.
    + by rewrite !(left_id_L ∅ (∪)) in Hc.
    + intros s Hs. intros. by eapply IH.
    + unfold shape. cbn. set_solver.
  - unfold checkParallel in Hc. chk. destruct a as [branches pb]. chk. rewrite Forall_forall in IH.
    apply check_branches_inv in Hc0. eapply shape_join; [|done]. intros s Hs. intros. by eapply IH.
  - apply deeper_Ret in Hc as (c1 & c2 & Hc). by eapply IH.
  - apply deeper_Ret in Hc0 as (c1 & c2 & Hc). apply IH in Hc as (A1 & A2 & A3 & A4 & A5). unfold shape. cbn. set_solver.
  - apply shape_then; eauto.
  - eapply shape_hook; eauto.
  - eapply shape_hook; eauto.
  - eapply shape_hook; eauto.
  - apply shape_ensure; eauto.
Qed.
End Shape.
