(* ===== verification/WorkflowSound.v ===== *)
(** * A checked workflow never gets stuck

    The soundness of the composite steps and of whole functions, by induction on
    the plan; and the plans that show what the theorem's hypotheses are for:
    plans the checker accepts although a run of them gets stuck. *)
From stdpp Require Import base gmap sets list strings sorting pretty.
From Stdlib Require Import ZArith Ascii Lia.
From S2P Require Import Prelude Vars Repository Parallel ExecWorld GoText Steps StepValidator Planner ConfigValidate WorkflowConfig WorkflowTypes WorkflowFunction WorkflowRun WorkflowTypesSpec.

Set Warnings "-register-all".

(** ** What a run leaves alone *)

Section Frame.
Context `{MO : MapOrder}.

Lemma interferes_refl R σ : interferes R σ σ.
Proof. done. Qed.

Lemma interferes_weaken R R' σ σ' : R ⊆ R' -> interferes R σ σ' -> interferes R' σ σ'.
Proof. intros HR Hi n Hn. apply Hi. set_solver. Qed.

Lemma interferes_trans R σ1 σ2 σ3 : interferes R σ1 σ2 -> interferes R σ2 σ3 -> interferes R σ1 σ3.
Proof. intros H1 H2 n Hn. by rewrite H2, H1. Qed.

Lemma leaf_of_outputs step path l : leaf_of step path = Some l -> dom (l_outputs l) ⊆ writes_of step.
Proof.
  destruct step; cbn; intros [= <-]; cbn; rewrite ?dom_fmap_L, ?dom_singleton_L, ?dom_empty_L; done.
Qed.

Lemma leaf_frame R l W σ o σ' : dom (l_outputs l) ⊆ W -> leaf_runs R l σ o σ' -> interferes (R ∪ W) σ σ'.
Proof.
  intros Hd Hrun n Hn. rewrite not_elem_of_union in Hn. destruct Hn as [HR HW].
  assert (Hout : l_outputs l !! n = None) by (apply not_elem_of_dom; set_solver).
  assert (Hw : forall complete σ1 σ2, wrote l complete σ1 σ2 -> σ2 !! n = σ1 !! n).
  { intros complete σ1 σ2 Hw. specialize (Hw n). by rewrite Hout in Hw. }
  destruct Hrun as [σ1 H1 _|σ1 σ2 σ3 H1 _ H2 H3|σ1 σ2 σ3 H1 _ H2 H3]; [by apply H1|..];
    by rewrite H3, (Hw _ _ _ H2), H1.
Qed.

Lemma seq_frame run R W path i steps σ o σ' :
  (forall s, s ∈ steps -> forall p σ o σ', run R (Config s) p σ o σ' -> interferes (R ∪ W) σ σ') ->
  seq_runs run R path i steps σ o σ' -> interferes (R ∪ W) σ σ'.
Proof.
  revert i σ. induction steps as [|s steps IH]; intros i σ Hs; cbn.
  - intros [_ Hi]. eapply interferes_weaken; [|done]. set_solver.
  - intros (o1 & σ1 & H1 & H2). apply Hs in H1; [|set_solver]. eapply interferes_trans; [exact H1|].
    destruct o1; [|destruct H2 as [_ ->]; apply interferes_refl..]. eapply IH; [|exact H2]. set_solver.
Qed.

Lemma attempts_frame R W body σ o σ' :
  (forall σ o σ', body σ o σ' -> interferes (R ∪ W) σ σ') -> attempts R body σ o σ' -> interferes (R ∪ W) σ σ'.
Proof.
  intros Hb. induction 1 as [σ o σ' H1 _|σ σ1 σ' H1 H2|σ σ1 σ2 o σ' H1 H2 _ IH]; [by eapply Hb|..].
  - eapply interferes_weaken; [|done]. set_solver.
  - eapply interferes_trans; [|exact IH]. eapply interferes_weaken; [|done]. set_solver.
Qed.

Lemma hook_frame R W1 W2 main hook σ o σ' :
  (forall σ o σ', main σ o σ' -> interferes (R ∪ W1) σ σ') ->
  (forall σ o σ', hook σ o σ' -> interferes (R ∪ W2) σ σ') ->
  hook_runs main hook σ o σ' -> interferes (R ∪ (W1 ∪ W2)) σ σ'.
Proof.
  intros Hm Hh (o1 & σ1 & H1 & H2). apply Hm in H1. apply (interferes_weaken _ (R ∪ (W1 ∪ W2))) in H1; [|set_solver].
  destruct o1; [by destruct H2 as [_ ->]| |by destruct H2 as [_ ->]].
  destruct H2 as [[_ ->]|(o2 & H2 & _)]; [done|]. eapply interferes_trans; [exact H1|]. apply Hh in H2.
  eapply interferes_weaken; [|exact H2]. set_solver.
Qed.

(** A run changes nothing but the names it writes and the names others write. *)
Lemma runs_frame step R path σ o σ' : runs R step path σ o σ' -> interferes (R ∪ writes_of step) σ σ'.
Proof.
  revert R path σ o σ'. induction step as [s|s|s|s|s|s|s|s|s|s|s IH|l IH|l n f IH|s vars f IH|s d IH|s n IH|s h IH IHh|s h IH IHh
    |s h IH IHh|s h IH IHh|s h IH IHh] using step_ind; intros R path σ o σ' Hrun; cbn [runs] in Hrun;
    (destruct Hrun as [[_ Hi]|Hrun]; [eapply interferes_weaken; [|exact Hi]; set_solver|]); try done;
    try (destruct Hrun as (l & Hl & Hrun); eapply leaf_frame; [by eapply leaf_of_outputs|exact Hrun]); cbn [writes_of].
  - destruct Hrun as (o1 & Hrun & _). by eapply IH.
  - rewrite Forall_forall in IH. eapply seq_frame; [|exact Hrun]. intros s Hs p σ1 o1 σ2 H1.
    eapply interferes_weaken; [|by eapply IH]. apply union_mono; [done|]. intros n Hn.
    apply list_elem_of_lookup in Hs as [k Hk]. apply elem_of_union_map. eauto.
  - apply Hrun.
  - by eapply IH.
  - eapply attempts_frame; [|exact Hrun]. eauto.
  - destruct Hrun as (o1 & σ1 & H1 & H2). apply IH in H1. apply (interferes_weaken _ (R ∪ (writes_of s ∪ writes_of (Config h)))) in H1; [|set_solver].
    destruct o1; [|by destruct H2 as [_ ->]..]. eapply interferes_trans; [exact H1|]. eapply interferes_weaken; [|by eapply IHh]. set_solver.
  - eapply hook_frame; [..|exact Hrun]; eauto.
  - eapply hook_frame; [..|exact Hrun]; eauto.
  - eapply hook_frame; [..|exact Hrun]; eauto.
  - destruct Hrun as (o1 & σ1 & H1 & H2). apply IH in H1. apply (interferes_weaken _ (R ∪ (writes_of s ∪ writes_of (Config h)))) in H1; [|set_solver].
    destruct o1; [| |by destruct H2 as [_ ->]]; destruct H2 as (o2 & H2 & _);
      (eapply interferes_trans; [exact H1|]; eapply interferes_weaken; [|by eapply IHh]; set_solver).
Qed.
End Frame.

(** ** Soundness of the composite steps *)

Section Sound.
Context `{MO : MapOrder} `{SC : StepChecks} (B : gset string).

Definition step_sound (step : StepConfig) : Prop :=
  forall entry path c flow c' R (X : string -> Prop) σ o σ',
    checkStep step entry path c = (Ret flow, c') -> noninterfering B step = true -> bases_of step ⊆ B ->
    (forall n, n ∈ names_of B step -> X n) -> (forall n, n ∈ R -> ~ X n) -> env_ok B X entry σ ->
    runs R step path σ o σ' -> sound_end B X flow σ o σ'.

Lemma interferes_off R (X : string -> Prop) σ σ' :
  (forall n, n ∈ R -> ~ X n) -> interferes R σ σ' -> forall n, X n -> σ' !! n = σ !! n.
Proof. intros HR Hi n Hn. apply Hi. intros Hr. by eapply HR. Qed.

(** A step that was abandoned. *)
Lemma sound_abandoned R (X : string -> Prop) flow σ σ' :
  (forall n, n ∈ R -> ~ X n) -> interferes R σ σ' -> sound_end B X flow σ Unsuccessful σ'.
Proof. intros HR Hi. split; [done|]. split; [|done]. apply written_same. by eapply interferes_off. Qed.

Lemma sound_then (X : string -> Prop) f1 f2 σ σ1 o σ' :
  sound_end B X f1 σ Succeeded σ1 -> sound_end B X f2 σ1 o σ' -> sound_end B X (then_flow f1 f2) σ o σ'.
Proof.
  intros (_ & Hall & Hok) (Ho & Hall' & Hok'). destruct (Hok eq_refl) as [_ Hmay].
  split; [done|]. split; [by eapply written_union|]. intros Hs. destruct (Hok' Hs) as [Henv Hmay'].
  split; [done|]. by eapply written_union.
Qed.

(** A step that ended without success before the rest of a sequence. *)
Lemma sound_ended (X : string -> Prop) f1 f2 σ o σ' :
  sound_end B X f1 σ o σ' -> o <> Succeeded -> sound_end B X (then_flow f1 f2) σ o σ'.
Proof. intros (Ho & Hall & _) Hs. split; [done|]. split; [by apply written_left|done]. Qed.

Lemma steps_sound path i steps flow c flow' c' R (X : string -> Prop) σ0 σ o σ' :
  (forall s, s ∈ steps -> step_sound (Config s) /\ noninterfering B (Config s) = true /\ bases_of (Config s) ⊆ B /\
     forall n, n ∈ names_of B (Config s) -> X n) ->
  (forall n, n ∈ R -> ~ X n) ->
  check_steps checkStep path i steps flow c = (Ret flow', c') ->
  sound_end B X flow σ0 Succeeded σ -> seq_runs runs R path i steps σ o σ' -> sound_end B X flow' σ0 o σ'.
Proof.
  intros Hs HR. revert i flow c σ. induction steps as [|s steps IH]; intros i flow c σ Hc Hsound Hrun;
    cbn [check_steps] in Hc; chk; cbn in Hrun.
  - destruct Hrun as [-> Hi]. pose proof (interferes_off _ _ _ _ HR Hi) as Heq. destruct Hsound as (_ & Hall & Hok).
    destruct (Hok eq_refl) as [Henv Hmay]. split; [done|]. split; [|intros _; split].
    + intros n Hn. rewrite Heq by done. by apply Hall.
    + by eapply env_ok_same.
    + intros n Hn. rewrite Heq by done. by apply Hmay.
  - destruct Hrun as (o1 & σ1 & H1 & H2). destruct (Hs s (list_elem_of_here _ _)) as (Hss & Hni & Hb & HX).
    assert (Henv : env_ok B X (fl_env flow) σ) by (by apply Hsound).
    pose proof (Hss _ _ _ _ _ _ _ _ _ _ Hc0 Hni Hb HX HR Henv H1) as Hchild.
    destruct o1.
    + eapply IH; [set_solver|exact Hc| |exact H2]. by eapply sound_then.
    + destruct H2 as [-> ->]. assert (Hnow : sound_end B X (then_flow flow a) σ0 Unsuccessful σ1) by (by eapply sound_then).
      clear -Hc Hnow. revert Hnow. refine (check_steps_ind _ _ (fun _ _ flow flow' => sound_end B X flow σ0 Unsuccessful σ1 ->
        sound_end B X flow' σ0 Unsuccessful σ1) _ _ _ _ _ _ _ _ Hc); [done|].
      intros. match goal with H : _ -> ?G |- ?G => apply H end. by apply sound_ended.
    + by destruct Hchild.
Qed.

Lemma attempts_sound R (X : string -> Prop) flow entry body σ o σ' :
  (forall n, n ∈ R -> ~ X n) ->
  (forall σ o σ', env_ok B X entry σ -> body σ o σ' -> sound_end B X flow σ o σ') ->
  env_ok B X entry σ -> attempts R body σ o σ' -> sound_end B X (retry_flow flow) σ o σ'.
Proof.
  intros HR Hb Henv Hrun. induction Hrun as [σ o σ' H1 Ho|σ σ1 σ' H1 H2|σ σ1 σ2 o σ' H1 H2 _ IH].
  - apply Hb in H1 as (Hn & _ & Hok); [|done]. split; [done|]. destruct o; [|done..].
    destruct (Hok eq_refl). split; [done|]. by intros _.
  - by eapply sound_abandoned.
  - pose proof (interferes_off _ _ _ _ HR H2) as Heq. destruct IH as (Ho & Hall & Hok); [by eapply env_ok_same|].
    assert (Hback : forall W, written B X W σ2 σ' -> written B X W σ σ').
    { intros W Hw n Hn. rewrite <- Heq by done. by apply Hw. }
    split; [done|]. split; [by apply Hback|]. intros Hs. destruct (Hok Hs) as [He Hm]. split; [done|]. by apply Hback.
Qed.

Lemma try_sound (X : string -> Prop) flow entry σ o o1 σ' :
  env_ok B X entry σ -> sound_end B X flow σ o1 σ' -> o = o1 \/ (o1 = Unsuccessful /\ o = Succeeded) ->
  sound_end B X (conditionalTryFlow entry flow) σ o σ'.
Proof.
  intros Henv (Ho & Hall & _) Hor. split; [by destruct Hor as [->|[-> ->]]|]. split; [done|]. intros _.
  split; [|done]. by eapply env_ok_possible.
Qed.

(** The hook uses names its main step does not write. *)
Lemma hook_sound R (X : string -> Prop) entry main hook W mainrun hookrun (Y : gset string) σ o σ' :
  (forall n, n ∈ R -> ~ X n) -> (forall n, n ∈ Y -> X n) -> W ## Y ->
  env_ok B X entry σ ->
  (forall σ o σ', env_ok B X entry σ -> mainrun σ o σ' -> sound_end B X main σ o σ') ->
  (forall σ o σ', mainrun σ o σ' -> interferes (R ∪ W) σ σ') ->
  (forall σ o σ', env_ok B (.∈ Y) entry σ -> hookrun σ o σ' -> sound_end B (.∈ Y) hook σ o σ') ->
  (forall σ o σ', hookrun σ o σ' -> interferes (R ∪ Y) σ σ') ->
  hook_runs mainrun hookrun σ o σ' -> sound_end B X (checkNonSuccessHook main hook) σ o σ'.
Proof.
  intros HR HYX HYW Henv Hmain Hframe Hhook Hhframe (o1 & σ1 & H1 & H2).
  pose proof (Hmain _ _ _ Henv H1) as (Ho & Hall & Hok). destruct o1; [destruct H2 as [-> ->]| |done].
  - destruct (Hok eq_refl) as [He Hm]. split; [done|]. split; [by apply written_left|done].
  - assert (HenvY : env_ok B (.∈ Y) entry σ1).
    { apply (env_ok_same B _ _ σ); [|by eapply env_ok_weaken]. intros n Hn. apply (Hframe _ _ _ H1).
      rewrite not_elem_of_union. split; [intros Hr; eapply HR; eauto|set_solver]. }
    destruct H2 as [[-> ->]|(o2 & H2 & ->)]; [split; [done|]; split; [by apply written_left|done]|].
    pose proof (Hhook _ _ _ HenvY H2) as (Ho2 & Hall2 & _). split; [by destruct o2|]. split; [|by destruct o2].
    cbn. eapply written_union; [exact Hall|]. intros n Hn. destruct (decide (n ∈ Y)) as [HY|HY]; [by apply Hall2|].
    left. apply (Hhframe _ _ _ H2). rewrite not_elem_of_union. split; [intros Hr; by eapply HR|done].
Qed.

(** After an ensure hook that writes nothing under a try. *)
Lemma ensure_env (X : string -> Prop) main hook σ1 σ2 :
  dom (fl_produced hook) ⊆ dom (fl_env hook) -> dom (fl_mayProduced hook) ⊆ dom (fl_produced hook) ->
  env_ok B X (fl_env main) σ1 -> env_ok B X (fl_env hook) σ2 -> written B X (fl_mayProduced hook) σ1 σ2 ->
  env_ok B X (applySuccessfulFlow (fl_env main) hook) σ2.
Proof.
  intros Hpe Hmp Hmain Hhook Hw n Hn. rewrite apply_lookup. unfold apply_name.
  destruct (fl_mayProduced hook !! n) as [w|] eqn:Hm.
  - assert (Hp : n ∈ dom (fl_produced hook)) by (apply Hmp; rewrite elem_of_dom; eauto).
    pose proof (Hpe n Hp) as [b Hb]%elem_of_dom. apply elem_of_dom in Hp as [b' Hb'].
    specialize (Hhook n Hn). rewrite Hb', Hb in *. done.
  - specialize (Hmain n Hn). destruct (Hw n Hn) as [->|(b & v & Hb & _)]; [done|congruence].
Qed.

Lemma ensure_sound (X : string -> Prop) main hook σ σ1 o1 o2 σ' :
  dom (fl_produced hook) ⊆ dom (fl_env hook) -> dom (fl_mayProduced hook) ⊆ dom (fl_produced hook) ->
  sound_end B X main σ o1 σ1 -> sound_end B X hook σ1 o2 σ' -> sound_end B X (ensure_flow main hook) σ (worst o1 o2) σ'.
Proof.
  intros Hpe Hmp (Ho1 & Hall1 & Hok1) (Ho2 & Hall2 & Hok2). split; [by destruct o1, o2|].
  split; [by eapply written_union|]. intros Hs. destruct o1, o2; try done.
  destruct (Hok1 eq_refl), (Hok2 eq_refl). split; [|by eapply written_union]. by eapply ensure_env.
Qed.

Lemma par_runs_inv run R path all i steps σ o σ' :
  par_runs run R path all i steps σ o σ' ->
  exists os, (forall k s, steps !! k = Some s -> exists ok, os !! k = Some ok /\
      run (R ∪ others all (i + k)) (Config s) (indexed path (i + k)) σ ok σ') /\
    length os = length steps /\ (o = Stuck -> Stuck ∈ os) /\ (o = Succeeded -> forall ok, ok ∈ os -> ok = Succeeded).
Proof.
  revert i o. induction steps as [|s steps IH]; intros i o Hrun; cbn in Hrun.
  - subst. exists []. split; [by intros ? ? ?|]. split; [done|]. split; [done|]. set_solver.
  - destruct Hrun as (o1 & o2 & H1 & H2 & ->). apply IH in H2 as (os & Hk & Hlen & Hst & Hok).
    exists (o1 :: os). split; [|split; [cbn; lia|split]].
    + intros [|k] s' Hs; cbn in Hs; [injection Hs as <-; exists o1; by rewrite Nat.add_0_r|].
      rewrite <- Nat.add_succ_comm. by apply Hk.
    + destruct o1, o2; cbn; intros; set_solver.
    + destruct o1, o2; cbn; intros; set_solver.
Qed.

Lemma writes_names step : writes_of step ⊆ names_of B step.
Proof.
  assert (Hall : forall l : list Step, Forall (fun s => writes_of (Config s) ⊆ names_of B (Config s)) l ->
    ⋃ map (fun s : Step => writes_of (Config s)) l ⊆ ⋃ map (fun s : Step => names_of B (Config s)) l).
  { intros l IH n (k & s & Hk & Hn)%elem_of_union_map. apply elem_of_union_map. rewrite Forall_lookup in IH.
    exists k, s. split; [done|]. by eapply IH. }
  induction step as [s|s|s|s|s|s|s|s|s|s|s IH|l IH|l n f IH|s vars f IH|s d IH|s n IH|s h IH IHh|s h IH IHh
    |s h IH IHh|s h IH IHh|s h IH IHh] using step_ind; cbn; auto; try done; try (by apply union_mono);
    intros m Hm; rewrite !elem_of_union; auto.
Qed.

(** The branches of an in_parallel. *)
Section Branches.
Context (path : string) (entry : snapshotEnvironment) (steps : list Step) (branches : list snapshotFlow)
  (pb : gmap string nat) (R : gset string) (X : string -> Prop) (σ : store) (o : result) (σ' : store).
Context (Hck : branches_checked checkStep path entry 0 steps branches ∅ pb)
  (Hsteps : forall s, s ∈ steps -> step_sound (Config s) /\ noninterfering B (Config s) = true /\ bases_of (Config s) ⊆ B /\
     forall n, n ∈ names_of B (Config s) -> X n)
  (Hdis : disjoint_branches B steps = true) (HR : forall n, n ∈ R -> ~ X n) (Henv : env_ok B X entry σ)
  (Hframe : interferes (R ∪ ⋃ map (fun s : Step => writes_of (Config s)) steps) σ σ')
  (Hrun : par_runs runs R (path +:+ ".in_parallel.steps") steps 0 steps σ o σ').

Lemma branches_disjoint k s : steps !! k = Some s -> others steps k ## names_of B (Config s).
Proof.
  intros Hk. unfold disjoint_branches in Hdis. rewrite forallb_forall in Hdis. specialize (Hdis k). rewrite Hk in Hdis.
  apply (bool_decide_eq_true_1 _), Hdis, in_seq. apply lookup_lt_Some in Hk. unfold Step in *. lia.
Qed.

Lemma branch_sound k s : steps !! k = Some s ->
  exists flow ok, branches !! k = Some flow /\ sound_end B (.∈ names_of B (Config s)) flow σ ok σ' /\
    (o = Succeeded -> ok = Succeeded) /\ shape entry (writes_of (Config s)) (try_writes (Config s)) flow.
Proof.
  intros Hk. destruct Hck as (_ & Hc & _). destruct (Hc k s Hk) as (flow & c1 & c2 & Hf & Hch).
  destruct (par_runs_inv _ _ _ _ _ _ _ _ _ Hrun) as (os & Hos & _ & _ & Hall). destruct (Hos k s Hk) as (ok & Hok & Hr).
  destruct (Hsteps s) as (Hs & Hni & Hb & HX); [by eapply list_elem_of_lookup_2|].
  exists flow, ok. split; [done|]. split; [|split; [|by eapply checkStep_shape]].
  - eapply Hs; [done..| |by eapply env_ok_weaken|done]. intros n [Hn|Hn]%elem_of_union Hin; [by eapply HR; eauto|].
    pose proof (branches_disjoint k s Hk). set_solver.
  - intros Ho. apply (Hall Ho). by eapply list_elem_of_lookup_2.
Qed.

Lemma joined_written n :
  X n -> σ' !! n = σ !! n \/ exists k s flow, steps !! k = Some s /\ branches !! k = Some flow /\ n ∈ names_of B (Config s).
Proof.
  intros Hn. destruct (decide (n ∈ ⋃ map (fun s : Step => writes_of (Config s)) steps)) as [Hw|Hw].
  - right. apply elem_of_union_map in Hw as (k & s & Hk & Hw). destruct (branch_sound k s Hk) as (flow & _ & Hf & _).
    exists k, s, flow. split; [done|]. split; [done|]. by apply writes_names.
  - left. apply Hframe. rewrite not_elem_of_union. split; [intros Hr; by eapply HR|done].
Qed.

(** No two branches use a name that one of them writes. *)
Lemma writer_unique k k' s s' n :
  steps !! k = Some s -> steps !! k' = Some s' -> n ∈ writes_of (Config s) -> n ∈ names_of B (Config s') -> k = k'.
Proof.
  intros Hk Hk' Hw Hn. destruct (decide (k = k')) as [|Hne]; [done|]. exfalso.
  apply (branches_disjoint k' s' Hk' n); [|done]. unfold others. apply elem_of_union_map.
  destruct (decide (k < k')%nat) as [Hlt|Hlt].
  - exists k, s. by rewrite list_lookup_delete_lt.
  - exists (k - 1)%nat, s. rewrite list_lookup_delete_ge by lia. by replace (S (k - 1)) with k by lia.
Qed.

Lemma joined_fits n k flow b v :
  branches !! k = Some flow -> fl_allProduced flow !! n = Some b -> fits B b v ->
  exists b', fl_allProduced (join_branches entry branches pb) !! n = Some b' /\ fits B b' v.
Proof.
  intros Hk Hb Hfit. cbn.
  assert (Hgen : forall l W, ((exists b, W !! n = Some b /\ fits B b v) \/
      exists k flow b, l !! k = Some flow /\ fl_allProduced flow !! n = Some b /\ fits B b v) ->
    exists b', foldl (fun all branch => mergeMayProduced all (fl_allProduced branch)) W l !! n = Some b' /\ fits B b' v).
  { induction l as [|f l IH]; intros W Hor; [destruct Hor as [?|(? & ? & ? & ? & _)]; done|]. apply IH.
    unfold mergeMayProduced. rewrite lookup_union_with.
    destruct Hor as [(b0 & -> & Hf)|([|k0] & f0 & b0 & Hk0 & Hb0 & Hf)].
    - left. destruct (fl_allProduced f !! n); cbn; eauto using fits_merge_l.
    - left. injection Hk0 as ->. rewrite Hb0. destruct (W !! n); cbn; eauto using fits_merge_r.
    - right. eauto 6. }
  apply Hgen. right. eauto 6.
Qed.

Lemma par_not_stuck : o <> Stuck.
Proof.
  intros ->. destruct (par_runs_inv _ _ _ _ _ _ _ _ _ Hrun) as (os & Hos & Hlos & Hst & _).
  specialize (Hst eq_refl). apply list_elem_of_lookup in Hst as [k Hk].
  destruct (lookup_lt_is_Some_2 steps k) as [s Hs]; [rewrite <- Hlos; by eapply lookup_lt_Some|].
  destruct (Hos k s Hs) as (ok & Hok & Hr). simplify_eq.
  destruct (Hsteps s) as (Hss & Hni & Hb & HX); [by eapply list_elem_of_lookup_2|].
  destruct Hck as (_ & Hc & _). destruct (Hc k s Hs) as (flow & c1 & c2 & Hf & Hch).
  eapply (Hss _ _ _ _ _ _ (.∈ names_of B (Config s))) in Hr as [Hr _]; [done..| |by eapply env_ok_weaken].
  intros n [Hn|Hn]%elem_of_union Hin; [by eapply HR; eauto|]. pose proof (branches_disjoint k s Hs). set_solver.
Qed.

(** The environment after the branches, at one name. *)
Lemma joined_env n : o = Succeeded -> X n ->
  (exists k s flow b, steps !! k = Some s /\ branches !! k = Some flow /\ n ∈ names_of B (Config s) /\
     fl_mayProduced flow !! n = Some b /\ fl_mayProduced (join_branches entry branches pb) !! n = Some b /\
     fl_env (join_branches entry branches pb) !! n = fl_env flow !! n) \/
  (σ' !! n = σ !! n /\ fl_env (join_branches entry branches pb) !! n = entry !! n).
Proof.
  intros Ho Hn. pose proof Hck as (Hlen & _ & _ & Hfrom & Hto). destruct (pb !! n) as [i|] eqn:Hi.
  - left. destruct (Hfrom _ _ Hi) as [He|(k & flow & Hf & -> & Hm)]; [by rewrite lookup_empty in He|]. cbn in Hi.
    destruct (lookup_lt_is_Some_2 steps k) as [s Hs]; [rewrite <- Hlen; by eapply lookup_lt_Some|].
    destruct (branch_sound k s Hs) as (fl & ok & Hf' & _ & _ & Hsh). assert (fl = flow) as -> by congruence.
    pose proof Hm as [b Hb]%elem_of_dom. exists k, s, flow, b. split; [done|]. split; [done|]. split.
    { apply writes_names. destruct Hsh as (_ & _ & A3 & A4 & _). by apply A4, A3. }
    split; [done|]. cbn. rewrite lookup_union, !map_lookup_imap, Hi. cbn. unfold branch_map. rewrite Hf. cbn.
    rewrite Hb. split; [done|]. destruct (fl_env flow !! n) as [b'|] eqn:He; [by destruct (entry !! n)|].
    destruct Hsh as (A1 & _). apply not_elem_of_dom in He. rewrite (left_id_L None _). apply not_elem_of_dom. set_solver.
  - right. split; [|cbn; rewrite lookup_union, map_lookup_imap, Hi; cbn; by rewrite (left_id_L None _)].
    destruct (joined_written n Hn) as [|(k & s & flow & Hk & Hf & Hnm)]; [done|].
    destruct (branch_sound k s Hk) as (flow' & ok & Hf' & (_ & _ & Hok) & Hsucc & _). simplify_eq.
    destruct (Hok (Hsucc eq_refl)) as [_ Hmay]. destruct (Hmay n Hnm) as [|(b & v & Hb & _)]; [done|].
    assert (Hd : n ∈ dom (fl_mayProduced flow)) by (apply elem_of_dom; eauto). specialize (Hto k flow n Hf Hd). congruence.
Qed.

Lemma par_sound : sound_end B X (join_branches entry branches pb) σ o σ'.
Proof.
  split; [exact par_not_stuck|]. split.
  - intros n Hn. destruct (joined_written n Hn) as [|(k & s & flow & Hk & Hf & Hnm)]; [by left|].
    destruct (branch_sound k s Hk) as (flow' & ok & Hf' & (_ & Hall & _) & _). simplify_eq.
    destruct (Hall n Hnm) as [|(b & v & Hb & Hv & Hfit)]; [by left|]. right.
    destruct (joined_fits n k _ b v Hf Hb Hfit) as (b' & Hb' & Hfit'). eauto.
  - intros Ho. split; intros n Hn; (destruct (joined_env n Ho Hn) as [(k & s & flow & b & Hk & Hf & Hnm & Hb & Hjm & Hje)|[Heq Hje]];
      [destruct (branch_sound k s Hk) as (flow' & ok & Hf' & (_ & _ & Hok) & Hsucc & Hsh); simplify_eq;
       destruct (Hok (Hsucc eq_refl)) as [He Hmay]|]).
    + rewrite Hje. by apply He.
    + rewrite Hje, Heq. by apply Henv.
    + destruct (Hmay n Hnm) as [|(b' & v & Hb' & Hv & Hfit)]; [by left|right]. simplify_eq. eauto.
    + by left.
Qed.
End Branches.

Lemma non_success_sound main hook label :
  step_sound main -> step_sound (Config hook) ->
  forall entry path c main_flow c1 hook_flow c2 R (X : string -> Prop) σ o σ',
    checkStep main entry path c = (Ret main_flow, c1) ->
    checkStep (Config hook) entry (path +:+ label) c1 = (Ret hook_flow, c2) ->
    noninterfering B main && noninterfering B (Config hook) &&
      bool_decide (writes_of main ## names_of B (Config hook)) = true ->
    bases_of main ∪ bases_of (Config hook) ⊆ B ->
    (forall n, n ∈ names_of B main ∪ names_of B (Config hook) -> X n) -> (forall n, n ∈ R -> ~ X n) ->
    env_ok B X entry σ ->
    hook_runs (runs R main path) (runs R (Config hook) (path +:+ label)) σ o σ' ->
    sound_end B X (checkNonSuccessHook main_flow hook_flow) σ o σ'.
Proof.
  intros IH IHh entry path c f1 c1 f2 c2 R X σ o σ' H1 H2 Hni HB HX HR Henv Hrun. go_bool.
  assert (HB1 : bases_of main ⊆ B) by set_solver. assert (HB2 : bases_of (Config hook) ⊆ B) by set_solver.
  assert (HX1 : forall n, n ∈ names_of B main -> X n) by set_solver.
  assert (HX2 : forall n, n ∈ names_of B (Config hook) -> X n) by set_solver.
  eapply (hook_sound R X entry f1 f2 (writes_of main) _ _ (names_of B (Config hook))); [done..| | | | |exact Hrun].
  - intros σ0 o0 σ0' He Hr. by eapply IH.
  - intros σ0 o0 σ0' Hr. by eapply runs_frame.
  - intros σ0 o0 σ0' He Hr. eapply IHh; [done..|by auto| |done|exact Hr].
    intros n Hn Hin. eapply HR; eauto.
  - intros σ0 o0 σ0' Hr. eapply interferes_weaken; [|by eapply runs_frame]. apply union_mono; [done|]. apply writes_names.
Qed.

Lemma all_names (l : list Step) (X : string -> Prop) :
  (forall n, n ∈ ⋃ map (fun s : Step => names_of B (Config s)) l -> X n) ->
  forall s, s ∈ l -> forall n, n ∈ names_of B (Config s) -> X n.
Proof. intros HX s [k Hk]%list_elem_of_lookup n Hn. apply HX, elem_of_union_map. eauto. Qed.

Lemma all_bases (l : list Step) :
  ⋃ map (fun s : Step => bases_of (Config s)) l ⊆ B -> forall s, s ∈ l -> bases_of (Config s) ⊆ B.
Proof. intros HB s [k Hk]%list_elem_of_lookup n Hn. apply HB, elem_of_union_map. eauto. Qed.

Lemma all_noninterfering (l : list Step) :
  forallb (fun s : Step => noninterfering B (Config s)) l = true -> forall s, s ∈ l -> noninterfering B (Config s) = true.
Proof. rewrite forallb_forall. intros Hl s Hs. apply Hl. by apply list_elem_of_In. Qed.

Lemma empty_sound (X : string -> Prop) entry σ : env_ok B X entry σ -> sound_end B X (emptySnapshotFlow entry) σ Succeeded σ.
Proof. intros Henv. split; [done|]. split; [by apply written_same|]. intros _. split; [done|]. by apply written_same. Qed.

Lemma checkStep_sound step : step_sound step.
Proof.
  induction step as [s|s|s|s|s|s|s|s|s|s|s IH|l IH|l n f IH|s vars f IH|s d IH|s n IH|s h IH IHh|s h IH IHh
    |s h IH IHh|s h IH IHh|s h IH IHh] using step_ind;
    intros entry path c flow c' R X σ o σ' Hc Hni HB HX HR Henv Hrun; cbn [runs] in Hrun;
    (destruct Hrun as [[-> Hi]|Hrun]; [by eapply sound_abandoned|]); try done;
    try (destruct Hrun as (l & Hl & Hrun);
         destruct (checked_leaf B X _ _ _ _ _ _ Hc eq_refl HX HB) as (l' & W & Hl' & -> & _ & Hready & HW);
         rewrite Hl in Hl'; injection Hl' as <-; by eapply leaf_sound);
    cbn [checkStep noninterfering] in Hc, Hni; cbn [bases_of names_of] in HB, HX; chk.
  - destruct Hrun as (o1 & Hrun & Hor). eapply try_sound; [done| |done]. by eapply IH.
  - unfold checkSequence in Hc. rewrite Forall_forall in IH.
    eapply steps_sound; [|exact HR|exact Hc|by apply empty_sound|exact Hrun]. intros s Hs.
    split; [by apply IH|]. split; [by eapply all_noninterfering|]. split; [by eapply all_bases|]. by eapply all_names.
  - unfold checkParallel in Hc. chk. destruct a as [branches pb]. chk. rewrite Forall_forall in IH.
    apply check_branches_inv in Hc0. go_bool. destruct Hrun as [Hframe Hrun].
    eapply par_sound; [exact Hc0| |done..]. intros s Hs.
    split; [by apply IH|]. split; [by eapply all_noninterfering|]. split; [by eapply all_bases|]. by eapply all_names.
  - apply deeper_Ret in Hc as (c1 & c2 & Hc). by eapply IH.
  - apply deeper_Ret in Hc0 as (c1 & c2 & Hc). eapply attempts_sound; [exact HR| |exact Henv|exact Hrun].
    intros σ0 o0 σ0' He Hr. by eapply IH.
  - apply andb_true_iff in Hni as [Hni Hnih]. destruct Hrun as (o1 & σ1 & H1 & H2).
    assert (Hm : sound_end B X a σ o1 σ1) by (eapply IH; [done|done|set_solver|set_solver|done..]).
    destruct o1; [|by destruct H2 as [-> ->]; apply sound_ended|by destruct Hm]. eapply sound_then; [done|].
    eapply IHh; [done|done|set_solver|set_solver|done|by apply Hm|done].
  - by eapply (non_success_sound s h ".on_failure").
  - by eapply (non_success_sound s h ".on_abort").
  - by eapply (non_success_sound s h ".on_error").
  - rewrite !andb_true_iff in Hni. destruct Hni as [[Hni Hnih] Htry%bool_decide_eq_true].
    destruct Hrun as (o1 & σ1 & H1 & H2).
    assert (Hm : sound_end B X a σ o1 σ1) by (eapply IH; [done|done|set_solver|set_solver|done..]).
    destruct o1; [| |by destruct Hm]; destruct H2 as (o2 & H2 & ->);
      (pose proof (checkStep_shape _ _ _ _ _ _ Hc1) as (_ & A2 & _ & _ & A5);
       eapply ensure_sound; [set_solver|by apply A5|exact Hm|];
       eapply IHh; [done|done|set_solver|set_solver|done| |exact H2];
       eapply env_ok_possible; [done|by apply Hm]).
Qed.
End Sound.

(** ** Functions *)

Section Functions.
Context `{MO : MapOrder} `{SC : StepChecks} `{PC : ProfileChecks}.

(** A binding of the entry. *)
Definition entry_binding (b : snapshotBinding) : Prop :=
  b_typed b = true /\ b_producer b = None /\ b_validation b = None.

Lemma bind_all_entry {A} (name : A -> string) binding l env :
  (forall i x, entry_binding (binding i x)) -> map_Forall (fun _ => entry_binding) env ->
  map_Forall (fun _ => entry_binding) (bind_all name binding l env).
Proof.
  intros Hb. unfold bind_all. generalize (imap pair l). intros ps. revert env.
  induction ps as [|p ps IH]; intros env Henv; [done|]. cbn. apply IH. by apply map_Forall_insert_2.
Qed.

Lemma entry_bindings function : map_Forall (fun _ => entry_binding) (entry_environment function).
Proof. unfold entry_environment. do 2 (apply bind_all_entry; [done|]). apply map_Forall_empty. Qed.

Lemma supplied_ok B function σ : supplied function σ -> env_ok B (fun _ => True) (entry_environment function) σ.
Proof.
  intros Hs n _. specialize (Hs n). destruct (entry_environment function !! n) as [b|] eqn:Hb; [|done].
  destruct (entry_bindings _ _ _ Hb) as (Ht & Hp & Hv). destruct Hs as [Hpres Hval]. split; [done|].
  intros v Hn. destruct (Hval v Hn) as [Htyp Hid]. split; [split; [done|by rewrite Hv]|].
  intros id. unfold bindingIdentity. rewrite Hp. destruct (_ || _); [done|]. destruct (String.eqb _ _); [done|].
  by intros [= <-].
Qed.

Lemma select_output_inv env i output selected pr :
  select_output env i output selected = Ret pr ->
  exists b, env !! fo_From output = Some b /\ b_typed b = true /\ b_typ b = port_Type (fo_Port output) /\
    (port_Optional (fo_Port output) = false -> b_presence b = snapshotGuaranteed) /\ b_producer b = Some pr /\
    pr_insideRetry pr = false /\ selected !! producer_key pr = None.
Proof.
  unfold select_output. destruct (env !! fo_From output) as [b|]; [|done]. intros Hs. exists b. split; [done|].
  destruct (b_typed b); cbn in Hs; [|by destruct (b_ambiguous b)]. split; [done|].
  destruct (String.eqb _ _) eqn:Ht; cbn in Hs; [|done]. split; [by apply String.eqb_eq|].
  destruct (negb _ && _) eqn:Hc; [done|]. split.
  { intros Ho. rewrite Ho in Hc. unfold conditional in Hc. by destruct (b_presence b). }
  destruct (b_producer b) as [pr'|]; [|done]. destruct (pr_insideRetry pr') eqn:Hr; [done|].
  destruct (selected !! producer_key pr') eqn:Hsel; [done|]. by injection Hs as <-.
Qed.

Lemma select_outputs_inv env i selected outputs targets :
  select_outputs env i selected outputs = Ret targets -> forall output, output ∈ outputs ->
  exists j sel pr, select_output env j output sel = Ret pr.
Proof.
  revert i selected targets. induction outputs as [|o outputs IH]; intros i selected targets Hs output Ho; [set_solver|].
  cbn in Hs. go_inv. apply elem_of_cons in Ho as [->|Ho]; eauto.
Qed.

(** What the analysis of a function that is accepted has established. *)
Lemma analyzed function targets :
  analyzeFunctionFlow function = Ret targets ->
  FunctionConfig_Validate function = Ret () /\
  exists flow c, checkSequence checkStep (fc_Plan function) (entry_environment function) "plan" (new_checker function) = (Ret flow, c) /\
    select_outputs (fl_env flow) 0 ∅ (fc_Outputs function) = Ret targets.
Proof.
  unfold analyzeFunctionFlow. intros Ha. go_inv. destruct a. split; [done|].
  destruct (checkSequence _ _ _ _ _) as [[]] eqn:Hc; cbn in *; simplify_eq. eauto.
Qed.

End Functions.

(** ** Node identities and public outputs *)

(** The identities of the nodes of a step, in the order of the check. *)
Fixpoint nodes (step : StepConfig) : list string :=
  match step with
  | STask s => [t_FunctionID s]
  | SAgent s => [a_FunctionID s]
  | SLoadSnapshot s => [ls_Name s]
  | SAwaitSnapshot s => [aw_Name s]
  | SPublishSnapshot s => [ps_Name s]
  | STry s => nodes (Config s)
  | SDo l | SInParallel l _ _ => concat (map (fun s : Step => nodes (Config s)) l)
  | SAcross s _ _ | STimeout s _ | SRetry s _ => nodes s
  | SOnSuccess s h | SOnFailure s h | SOnAbort s h | SOnError s h | SEnsure s h => nodes s ++ nodes (Config h)
  | _ => []
  end.

Definition plan_nodes (plan : list Step) : list string := concat (map (fun s : Step => nodes (Config s)) plan).

Section Nodes.
Context `{MO : MapOrder} `{SC : StepChecks} `{PC : ProfileChecks}.

(** The check went from [c] to [c'] and registered the identities [l]. *)
Definition registers (l : list string) (c c' : snapshotFlowChecker) : Prop :=
  NoDup l /\ (forall x, x ∈ l -> x ∉ dom (ch_nodeIdentities c) /\ blank x = false) /\
  dom (ch_nodeIdentities c') = dom (ch_nodeIdentities c) ∪ list_to_set l.

Definition same_ids (c c' : snapshotFlowChecker) : Prop := ch_nodeIdentities c' = ch_nodeIdentities c.

Lemma same_ids_preorder : PreOrder same_ids.
Proof. split; [done|]. intros c1 c2 c3 H1 H2. unfold same_ids in *. congruence. Qed.
#[local] Existing Instance same_ids_preorder.

Lemma registers_same c c' : same_ids c c' -> registers [] c c'.
Proof. intros Hs. split; [constructor|]. split; [set_solver|]. rewrite Hs. set_solver. Qed.

Lemma registers_app l1 l2 c c1 c2 : registers l1 c c1 -> registers l2 c1 c2 -> registers (l1 ++ l2) c c2.
Proof.
  intros (N1 & F1 & D1) (N2 & F2 & D2). split; [|split].
  - apply NoDup_app. split; [done|]. split; [|done]. intros x H1 H2. apply (F2 x H2). set_solver.
  - intros x [Hx|Hx]%elem_of_app; [by apply F1|]. destruct (F2 x Hx). set_solver.
  - rewrite D2, D1, list_to_set_app_L. set_solver.
Qed.

Lemma registers_more l c c1 c2 : registers l c c1 -> same_ids c1 c2 -> registers l c c2.
Proof. intros H1 H2. rewrite <- (app_nil_r l). eapply registers_app; [done|]. by apply registers_same. Qed.

Lemma registerNodeIdentity_registers label n identity c u c' :
  registerNodeIdentity label n identity c = (Ret u, c') -> registers [n] c c'.
Proof.
  unfold registerNodeIdentity. destruct (blank n) eqn:Hb; [done|].
  destruct (ch_nodeIdentities c !! n) eqn:Hn; [done|]. intros [= _ <-]. split; [apply NoDup_singleton|].
  split; [intros x ->%list_elem_of_singleton; split; [by apply not_elem_of_dom|done]|]. cbn. rewrite dom_insert_L. set_solver.
Qed.

Lemma tracks_Ret {A} R (m : stateful snapshotFlowChecker message A) c r c' : tracks R m -> m c = (r, c') -> R c c'.
Proof. intros Ht Hm. specialize (Ht c). by rewrite Hm in Ht. Qed.

Lemma raise_same err : tracks same_ids (raise err).
Proof. destruct err; by intros c. Qed.

Lemma typed_output_same kind fid identity step entry env p : tracks same_ids (typed_output kind fid identity step entry env p).
Proof.
  destruct p as [n d]. unfold typed_output. repeat (apply tracks_bind; [apply _|apply raise_same|intros ?]).
  apply tracks_bind; [apply _|by intros c|intros ?]. apply tracks_bind; [apply _|by intros c|intros ?].
  apply tracks_bind; [apply _| |intros ?; by intros c].
  destruct (validating _ _ _); [|by intros c]. apply tracks_bind; [apply _|by intros c|intros ?; by intros c].
Qed.

Lemma typed_outputs_same kind fid identity step entry l w : tracks same_ids (typed_outputs kind fid identity step entry l w).
Proof.
  revert w. induction l as [|p l IH]; intros w; [by intros c|]. apply tracks_bind; [apply _|apply typed_output_same|].
  intros b. apply IH.
Qed.

Lemma ordinary_outputs_same identity entry tout l w : tracks same_ids (ordinary_outputs identity entry tout l w).
Proof.
  revert w. induction l as [|n l IH]; intros w; [by intros c|]. apply tracks_bind; [apply _|apply raise_same|].
  intros _. apply IH.
Qed.

Lemma checkLeaf_registers kind name fid oin tin oout tout step entry path c flow c' :
  checkLeaf kind name fid oin tin oout tout step entry path c = (Ret flow, c') -> registers [fid] c c'.
Proof.
  unfold checkLeaf. intros Hl. chk. apply registerNodeIdentity_registers in Hl0.
  assert (c1 = c0) as ->. { destruct (file_backed step); chk; done. }
  eapply registers_more; [exact Hl0|]. etrans; [by eapply (tracks_Ret _ _ _ _ _ (ordinary_outputs_same _ _ _ _ _))|].
  by eapply (tracks_Ret _ _ _ _ _ (typed_outputs_same _ _ _ _ _ _ _)).
Qed.

Lemma leaf_registers step entry path c flow c' :
  checkStep step entry path c = (Ret flow, c') -> is_leaf step = true -> registers (nodes step) c c'.
Proof.
  intros Hc Hl. destruct step; cbn in Hl; try done; cbn [checkStep nodes] in *.
  - unfold checkTask in Hc. chk. cbn in Hc. by eapply checkLeaf_registers.
  - chk. case_bool_decide; [discriminate Hc|]. chk. by apply registers_same.
  - unfold checkAgent, effectiveAgentArtifactNames in Hc. cbv zeta beta iota in Hc. chk. apply checkLeaf_registers in Hc0.
    assert (c' = c0) as ->; [|done]. destruct (humanReviewCandidate _) as [[]| | |]; chk; done.
  - unfold checkLoadSnapshot in Hc. chk. by eapply registerNodeIdentity_registers.
  - unfold checkAwaitSnapshot in Hc. chk. apply registerNodeIdentity_registers in Hc0. by eapply registers_more.
  - unfold checkPublishSnapshot in Hc. chk. by eapply registerNodeIdentity_registers.
Qed.

Lemma steps_register path i steps flow c flow' c' :
  (forall s, s ∈ steps -> forall entry p c f c', checkStep (Config s) entry p c = (Ret f, c') -> registers (nodes (Config s)) c c') ->
  check_steps checkStep path i steps flow c = (Ret flow', c') -> registers (plan_nodes steps) c c'.
Proof.
  revert i flow c. induction steps as [|s steps IH]; intros i flow c Hs Hc; cbn [check_steps] in Hc; chk.
  { by apply registers_same. }
  unfold plan_nodes. cbn. eapply registers_app; [eapply Hs; [set_solver|done]|]. eapply IH; [set_solver|done].
Qed.

Lemma branches_register path entry i steps pb c r c' :
  (forall s, s ∈ steps -> forall entry p c f c', checkStep (Config s) entry p c = (Ret f, c') -> registers (nodes (Config s)) c c') ->
  check_branches checkStep path entry i steps pb c = (Ret r, c') -> registers (plan_nodes steps) c c'.
Proof.
  revert i pb c r c'. induction steps as [|s steps IH]; intros i pb c r c' Hs Hc; cbn [check_branches] in Hc; chk.
  { by apply registers_same. }
  destruct a1 as [bs pb1]. chk. unfold plan_nodes. cbn. eapply registers_app; [eapply Hs; [set_solver|done]|].
  eapply IH; [set_solver|done].
Qed.

Lemma deeper_registers {A} t r (m : stateful snapshotFlowChecker message A) l c a c' :
  deeper t r m c = (Ret a, c') -> (forall c c', m c = (Ret a, c') -> registers l c c') -> registers l c c'.
Proof. unfold deeper. destruct (m _) as [o c2] eqn:Hm. intros [= -> <-] Hr. exact (Hr _ _ Hm). Qed.

Lemma checkStep_registers step entry path c flow c' :
  checkStep step entry path c = (Ret flow, c') -> registers (nodes step) c c'.
Proof.
  revert entry path c flow c'. induction step as [s|s|s|s|s|s|s|s|s|s|s IH|l IH|l n f IH|s vars f IH|s d IH|s n IH|s h IH IHh|s h IH IHh
    |s h IH IHh|s h IH IHh|s h IH IHh] using step_ind; intros entry path c flow c' Hc;
    try (exact (leaf_registers _ _ _ _ _ _ Hc eq_refl));
    cbn [checkStep] in Hc; try (discriminate Hc); chk; cbn [nodes]; eauto using registers_app.
  - rewrite Forall_forall in IH. eapply steps_register; [|exact Hc]. intros s Hs. intros. by eapply IH.
  - unfold checkParallel in Hc. chk. destruct a as [branches pb]. chk. rewrite Forall_forall in IH.
    eapply branches_register; [|exact Hc0]. intros s Hs. intros. by eapply IH.
  - eapply deeper_registers; [exact Hc|]. eauto.
  - eapply deeper_registers; [exact Hc0|]. eauto.
Qed.

(** The nodes of a plan that is accepted have identities of their own, and none
    of them is blank. *)
Theorem node_identities_unique function :
  TypeCheckFunction function = Ret () ->
  NoDup (plan_nodes (fc_Plan function)) /\ Forall (fun n => blank n = false) (plan_nodes (fc_Plan function)).
Proof.
  intros Hcheck. unfold TypeCheckFunction in Hcheck. go_inv. apply analyzed in Hcheck0 as (_ & flow & c & Hseq & _).
  unfold checkSequence in Hseq. apply steps_register in Hseq as (Hnd & Hf & _).
  - split; [done|]. apply Forall_forall. intros n Hn. by apply Hf.
  - intros s Hs. intros. by eapply checkStep_registers.
Qed.

Lemma select_outputs_targets env i selected outputs targets :
  select_outputs env i selected outputs = Ret targets ->
  tg_portName <$> targets = (fun o => port_Name (fo_Port o)) <$> outputs /\
  NoDup ((fun t => producer_key (tg_producer t)) <$> targets) /\
  (forall t, t ∈ targets -> pr_insideRetry (tg_producer t) = false /\ selected !! producer_key (tg_producer t) = None).
Proof.
  revert i selected targets. induction outputs as [|o outputs IH]; intros i selected targets Hs; cbn in Hs; go_inv.
  { split; [done|]. split; [constructor|set_solver]. }
  apply select_output_inv in Hs0 as (b & _ & _ & _ & _ & _ & Hr & Hsel). apply IH in Hs1 as (Hn & Hnd & Hall).
  split; [cbn; by rewrite Hn|]. split.
  - cbn. apply NoDup_cons. split; [|done]. intros (t & Heq & Ht)%list_elem_of_fmap.
    destruct (Hall t Ht) as [_ Hnone]. cbn in Heq. by rewrite <- Heq, lookup_insert_eq in Hnone.
  - intros t [->|Ht]%elem_of_cons; [done|]. destruct (Hall t Ht) as [Hrt Hnone]. split; [done|].
    by apply lookup_insert_None in Hnone as [? _].
Qed.

(** Each public output is given a producer of its own, outside every retry. *)
Theorem public_outputs_selected function targets :
  analyzeFunctionFlow function = Ret targets ->
  tg_portName <$> targets = (fun o => port_Name (fo_Port o)) <$> fc_Outputs function /\
  NoDup ((fun t => producer_key (tg_producer t)) <$> targets) /\
  Forall (fun t => pr_insideRetry (tg_producer t) = false) targets.
Proof.
  intros (_ & flow & c & _ & Hsel)%analyzed. apply select_outputs_targets in Hsel as (Hn & Hnd & Hall).
  split; [done|]. split; [done|]. apply Forall_forall. intros t Ht. by apply Hall.
Qed.
End Nodes.
