(* ===== verification/WorkflowWitness.v ===== *)
(** * Workflows that are checked and run

    A workflow that is accepted and runs, and plans that the checker accepts
    although a run of them gets stuck: the side conditions of
    [checked_function_sound] are what rules them out. *)
From stdpp Require Import base gmap sets list strings sorting pretty.
From Stdlib Require Import ZArith Ascii Lia.
From S2P Require Import Prelude Vars Repository Parallel ExecWorld GoText Steps StepValidator Planner ConfigValidate WorkflowConfig WorkflowTypes WorkflowFunction WorkflowRun WorkflowTypesSpec WorkflowSound.

Set Warnings "-register-all".
Open Scope Z_scope.

Module Sample.

#[export] Instance sample_order : MapOrder := {| range := fun V m => map_to_list m; range_perm := fun V m => reflexivity _ |}.

#[export] Instance sample_steps : StepChecks :=
  {| letter := fun _ => false; duration_ok := fun _ => true; json_Valid := fun _ => true;
     ValidateAuthoredMergeIntent := fun _ => None; publication_Validate := fun _ => None |}.

#[export] Instance sample_profiles : ProfileChecks :=
  {| validateCompiledDevValidationProfile := fun _ => None; DevValidationProvenanceHash := fun _ => Ret "hash"%string;
     validateCompiledBrokerProfile := fun _ => None; BrokerProfileProvenanceHash := fun _ => Ret "hash"%string |}.

Definition input (type : string) (optional : bool) : SnapshotInputConfig :=
  {| si_Type := type; si_Optional := optional |}.
Definition output (type : string) (optional : bool) : SnapshotOutputConfig :=
  {| so_Type := type; so_Optional := optional; so_Retention := ""; so_WorkflowPort := "";
     so_WorkflowDefinitionID := 0; so_WorkflowRunID := ""; so_SourceMetadata := "" |}.

(** An agent that is its own function ID. *)
Definition agent (name : string) (ins : gmap string SnapshotInputConfig) (outs : gmap string SnapshotOutputConfig)
    : AgentStep :=
  {| a_Name := name; a_FunctionID := name; a_Hermetic := false; a_RuntimeImage := ""; a_Prompt := "";
     a_PromptFile := ""; a_SystemPromptFile := ""; a_ContextFiles := []; a_Model := ""; a_MaxTurns := 0;
     a_BudgetSliceUSD := (Eq, ""); a_SystemPrompt := ""; a_Context := ""; a_Skills := [];
     a_SkillFiles := ∅; a_Sidecars := []; a_Inputs := (names (dom ins)); a_Outputs := (names (dom outs));
     a_InputMapping := ∅; a_OutputMapping := ∅; a_Capabilities := []; a_SnapshotInputs := ins;
     a_SnapshotOutputs := outs; a_Validation := ""; a_ReviewValidation := None; a_Env := ∅;
     a_Timeout := ""; a_Limits := None; a_Requests := None; a_BrokerAuthority := [];
     a_BrokerAuthorityTrusted := false |}.

(** A task whose configuration is a file. *)
Definition task (name : string) (ins : gmap string SnapshotInputConfig) (outs : gmap string SnapshotOutputConfig)
    (authority : option DevValidationAuthority) : TaskStep :=
  {| t_Name := name; t_FunctionID := name; t_DevValidationProfile := "";
     t_DevValidationAuthority := authority; t_MergePreflightAuthority := None;
     t_ResourceCaptureAuthority := None; t_Privileged := false; t_Hermetic := false; t_ConfigPath := "";
     t_Limits := None; t_Requests := None; t_Config := None; t_Params := []; t_Vars := None; t_Tags := [];
     t_InputMapping := ∅; t_OutputMapping := ∅; t_SnapshotInputs := ins; t_SnapshotOutputs := outs;
     t_ImageArtifactName := ""; t_Timeout := ""; t_Sidecars := [] |}.

Definition publish (name input type validation : string) : PublishSnapshotStep :=
  {| ps_Name := name; ps_Publisher := ""; ps_Input := input; ps_InputType := type; ps_Destination := "";
     ps_Mode := ""; ps_Parameters := ∅; ps_ApprovalPolicyVersion := ""; ps_Approval := "";
     ps_WorkflowRunID := ""; ps_Validation := validation; ps_PublishValidation := None |}.

Definition step (config : StepConfig) : Step := MkStep config [].

Definition port (name type : string) (optional : bool) : Port :=
  {| port_Name := name; port_Type := type; port_Optional := optional; port_Description := "" |}.

Definition profile (name : string) : CompiledDevValidationProfile :=
  {| cdp_Name := name; cdp_Candidate := {| dvc_Name := "change"; dvc_Type := "repository-change/v1" |};
     cdp_BaseInputs := []; cdp_CapabilityImage := ""; cdp_CapabilityImageDigest := ""; cdp_Command := [];
     cdp_Profile := ""; cdp_ProfileDigest := ""; cdp_ProtectedConfig := ""; cdp_ProtectedConfigDigest := "" |}.

Definition function (inputs : list Port) (outputs : list FunctionOutput) (plan : list Step) : FunctionConfig :=
  {| fc_SignatureVersion := 1; fc_DispositionOutput := ""; fc_Inputs := inputs; fc_Outputs := outputs;
     fc_Resources := []; fc_ResourceSources := []; fc_ResourceTypes := []; fc_Prototypes := []; fc_VarSources := [];
     fc_Plan := plan; fc_DevValidationProfiles := [profile "default"]; fc_DevValidationProvenanceHash := "hash";
     fc_BrokerProfiles := []; fc_BrokerProfileProvenanceHash := ""; fc_SkillFiles := ∅ |}.

Definition art (type id : string) : artifact := {| v_type := type; v_id := id; v_validates := None |}.


(** ** Runs of leaves *)

Definition inputs_okb (l : leaf) (σ : store) : bool :=
  forallb (fun p => match σ !! p.1 with None => p.2.2 | Some v => String.eqb (v_type v) p.2.1 end)
    (map_to_list (l_inputs l)).

Definition complete_writes (l : leaf) (σ : store) : store :=
  map_imap (fun n _ => Some (l_artifact l σ n)) (l_outputs l) ∪ σ.

Lemma inputs_okb_spec l σ :
  inputs_okb l σ = true <-> forall n d, l_inputs l !! n = Some d -> input_ok σ n d.
Proof.
  unfold inputs_okb. rewrite forallb_forall. split.
  - intros Hall n d Hd. specialize (Hall (n, d)). rewrite <- list_elem_of_In, elem_of_map_to_list in Hall.
    specialize (Hall Hd). unfold input_ok. cbn in Hall. destruct (σ !! n); [by apply String.eqb_eq|done].
  - intros Hall [n d] Hin. rewrite <- list_elem_of_In, elem_of_map_to_list in Hin. specialize (Hall n d Hin).
    unfold input_ok in Hall. cbn. destruct (σ !! n); [by apply String.eqb_eq|done].
Qed.

Lemma complete_wrote l σ : wrote l true σ (complete_writes l σ).
Proof.
  intros n. unfold complete_writes. rewrite lookup_union, map_lookup_imap. destruct (l_outputs l !! n); cbn.
  - left. by destruct (σ !! n).
  - by rewrite (left_id_L None _).
Qed.

Lemma leaf_succeeds R s path l σ :
  is_leaf s = true -> leaf_of s path = Some l -> inputs_okb l σ = true -> l_gate l σ ->
  runs R s path σ Succeeded (complete_writes l σ).
Proof.
  intros Hs Hl Hin Hg. assert (Hrun : leaf_runs R l σ Succeeded (complete_writes l σ)).
  { apply (leaf_succeeded _ _ _ σ (complete_writes l σ)); [done| |apply complete_wrote|done].
    split; [by apply inputs_okb_spec|done]. }
  destruct s; try done; right; eauto.
Qed.

(** A leaf whose outputs are optional writes none of them. *)
Lemma leaf_skips R s path l σ :
  is_leaf s = true -> leaf_of s path = Some l -> inputs_okb l σ = true -> l_gate l σ ->
  forallb snd (map_to_list (l_outputs l)) = true -> runs R s path σ Succeeded σ.
Proof.
  intros Hs Hl Hin Hg Hopt. assert (Hrun : leaf_runs R l σ Succeeded σ).
  { apply (leaf_succeeded _ _ _ σ σ); [done| | |done]; [split; [by apply inputs_okb_spec|done]|].
    intros n. destruct (l_outputs l !! n) as [o|] eqn:Ho; [right|done]. split; [done|]. intros _.
    rewrite forallb_forall in Hopt. apply (Hopt (n, o)). by rewrite <- list_elem_of_In, elem_of_map_to_list. }
  destruct s; try done; right; eauto.
Qed.

Lemma leaf_sticks R s path l σ :
  is_leaf s = true -> leaf_of s path = Some l -> inputs_okb l σ = false -> runs R s path σ Stuck σ.
Proof.
  intros Hs Hl Hin. assert (Hrun : leaf_runs R l σ Stuck σ).
  { apply leaf_stuck; [done|]. intros [Hok _]. apply inputs_okb_spec in Hok. congruence. }
  destruct s; try done; right; eauto.
Qed.

Lemma complete_interferes W l σ :
  bool_decide (dom (l_outputs l) ⊆ W) = true -> interferes W σ (complete_writes l σ).
Proof.
  intros Hd%bool_decide_eq_true n Hn. unfold complete_writes. apply lookup_union_r. rewrite map_lookup_imap.
  assert (Hl : l_outputs l !! n = None) by (apply not_elem_of_dom; set_solver). by rewrite Hl.
Qed.

Lemma abandoned R s path σ : runs R s path σ Unsuccessful σ.
Proof. destruct s; left; done. Qed.

Ltac run_leaf := eapply leaf_succeeds; [reflexivity|reflexivity|vm_compute; reflexivity|exact I].

(** ** A hook that reads what its main step has overwritten *)

Definition overwritten_plan : FunctionConfig :=
  function [port "repo" "repository/v1" false] []
    [step (SOnFailure
       (SDo [step (SAgent (agent "rewrite" ∅ {[ "repo"%string := output "repository/v2" false ]}));
             step (SAgent (agent "check" ∅ ∅))])
       (step (SAgent (agent "report" {[ "repo"%string := input "repository/v1" false ]} ∅))))].

Definition supplied_repo : store := {[ "repo"%string := art "repository/v1" "inputs[0]" ]}.

Lemma supplied_singleton f n b v :
  entry_environment f = {[ n := b ]} -> v_type v = b_typ b -> v_id v = b_writePath b -> supplied f {[ n := v ]}.
Proof.
  intros Hf Ht Hid m. rewrite Hf. destruct (decide (m = n)) as [->|Hne].
  - rewrite !lookup_singleton_eq. split; [by eexists|]. by intros ? [= <-].
  - by rewrite !lookup_singleton_ne.
Qed.

Theorem on_failure_stuck :
  TypeCheckFunction overwritten_plan = Ret () /\
  exists σ', supplied overwritten_plan supplied_repo /\ plan_runs (fc_Plan overwritten_plan) supplied_repo Stuck σ'.
Proof.
  split; [vm_compute; reflexivity|]. eexists. split; [by eapply supplied_singleton; [vm_compute; reflexivity|..]|].
  exists Stuck. eexists. split; [|done]. right. exists Unsuccessful. eexists. split.
  - right. exists Succeeded. eexists. split; [run_leaf|]. exists Unsuccessful. eexists. split; [apply abandoned|done].
  - right. exists Stuck. split; [|done]. eapply leaf_sticks; [reflexivity|reflexivity|vm_compute; reflexivity].
Qed.

(** ** A branch that reads what another branch overwrites *)

Definition racing_plan : FunctionConfig :=
  function [port "repo" "repository/v1" false] []
    [step (SInParallel
       [step (SAgent (agent "rewrite" ∅ {[ "repo"%string := output "repository/v2" false ]}));
        step (SAgent (agent "report" {[ "repo"%string := input "repository/v1" false ]} ∅))] 0 false)].

Theorem parallel_stuck :
  TypeCheckFunction racing_plan = Ret () /\
  exists σ', supplied racing_plan supplied_repo /\ plan_runs (fc_Plan racing_plan) supplied_repo Stuck σ'.
Proof.
  split; [vm_compute; reflexivity|]. eexists. split; [by eapply supplied_singleton; [vm_compute; reflexivity|..]|].
  exists Stuck. eexists. split; [|done]. right. split; [|exists Succeeded, Stuck; split; [run_leaf|split; [|reflexivity]]].
  - apply complete_interferes. vm_compute. reflexivity.
  - exists Stuck, Succeeded. split; [|split; reflexivity]. right. eexists. split; [reflexivity|].
    apply leaf_stuck; [apply complete_interferes; vm_compute; reflexivity|].
    intros [Hok%inputs_okb_spec _]. vm_compute in Hok. discriminate Hok.
Qed.

(** ** An ensure hook that may have written *)

(** The hook of the ensure may write [notes], which the environment after it
    does not say; the optional output of the next step is then accepted with
    another type. *)
Definition forgotten_plan : FunctionConfig :=
  function [port "repo" "repository/v1" false] []
    [step (SEnsure (SAgent (agent "work" ∅ ∅))
       (step (STry (step (SAgent (agent "log" ∅ {[ "notes"%string := output "note/v1" false ]}))))));
     step (SAgent (agent "annotate" ∅ {[ "notes"%string := output "note/v2" true ]}));
     step (SAgent (agent "read" {[ "notes"%string := input "note/v2" true ]} ∅))].

Theorem ensure_stuck :
  TypeCheckFunction forgotten_plan = Ret () /\
  exists σ', supplied forgotten_plan supplied_repo /\ plan_runs (fc_Plan forgotten_plan) supplied_repo Stuck σ'.
Proof.
  split; [vm_compute; reflexivity|]. eexists. split; [by eapply supplied_singleton; [vm_compute; reflexivity|..]|].
  exists Succeeded. eexists. split.
  { right. exists Succeeded. eexists. split; [run_leaf|]. exists Succeeded. split; [|reflexivity].
    right. exists Succeeded. split; [run_leaf|by left]. }
  exists Succeeded. eexists. split.
  { eapply leaf_skips; [reflexivity|reflexivity|vm_compute; reflexivity|exact I|vm_compute; reflexivity]. }
  exists Stuck. eexists. split; [eapply leaf_sticks; [reflexivity|reflexivity|vm_compute; reflexivity]|done].
Qed.

(** ** A publication whose validation may be missing *)

Definition authority : DevValidationAuthority :=
  {| dva_ProfileName := "default"; dva_Profile := ""; dva_ProfileDigest := ""; dva_ProtectedConfig := "";
     dva_ProtectedConfigDigest := ""; dva_CapabilityImage := ""; dva_CapabilityImageDigest := "";
     dva_WorkflowDefinitionID := 1; dva_WorkflowVersion := 1; dva_CandidateInput := "change"; dva_BaseInputs := [] |}.

Definition validate : StepConfig :=
  STask (task "validate" {[ "change"%string := input "repository-change/v1" false ]}
    {[ "validation"%string := output "validation/v1" false ]} (Some authority)).

Definition land : StepConfig := SPublishSnapshot (publish "land" "change" "repository-change/v1" "validation").

Definition unvalidated_plan : FunctionConfig :=
  function [port "change" "repository-change/v1" false] [] [step (STry (step validate)); step land].

Definition supplied_change : store := {[ "change"%string := art "repository-change/v1" "inputs[0]" ]}.

(** The validation is made under a try, so it may be missing when the change is
    published; [requireValidation] does not look at its presence. *)
Theorem publish_unvalidated :
  TypeCheckFunction unvalidated_plan = Ret () /\ plan_noninterfering (fc_Plan unvalidated_plan) = true /\
  supplied unvalidated_plan supplied_change /\
  supplied_change !! "validation"%string = None /\
  plan_runs (fc_Plan unvalidated_plan) supplied_change Succeeded supplied_change.
Proof.
  split; [vm_compute; reflexivity|]. split; [vm_compute; reflexivity|].
  split; [by eapply supplied_singleton; [vm_compute; reflexivity|..]|]. split; [reflexivity|].
  exists Succeeded, supplied_change. split; [right; exists Unsuccessful; split; [apply abandoned|by right]|].
  exists Succeeded, supplied_change. split; [|done].
  eapply leaf_skips; [reflexivity|reflexivity|vm_compute; reflexivity| |vm_compute; reflexivity].
  by intros w Hw.
Qed.

(** ** A workflow that is accepted and runs *)

Definition landing : FunctionConfig :=
  function [port "change" "repository-change/v1" false]
    [{| fo_Port := port "verdict" "validation/v1" false; fo_From := "validation" |}]
    [step validate;
     step (SEnsure (SRetry (SAgent (agent "review" {[ "change"%string := input "repository-change/v1" false ]}
                                      {[ "notes"%string := output "note/v1" false ]})) 3)
             (step (SAgent (agent "clean" {[ "notes"%string := input "note/v1" true ]} ∅))));
     step land].

Lemma landing_runs : exists σ', plan_runs (fc_Plan landing) supplied_change Succeeded σ'.
Proof.
  eexists. exists Succeeded. eexists. split; [run_leaf|]. exists Succeeded. eexists. split.
  { right. exists Succeeded. eexists. split.
    - right. eapply attempt_done; [run_leaf|done].
    - exists Succeeded. split; [run_leaf|reflexivity]. }
  exists Succeeded. eexists. split; [|by split].
  eapply leaf_succeeds; [reflexivity|reflexivity|vm_compute; reflexivity|].
  intros w Hw. vm_compute in Hw. injection Hw as <-. eexists _, _.
  split; [vm_compute; reflexivity|]. split; [reflexivity|]. split; [reflexivity|]. by intros name id Hn.
Qed.

End Sample.
