(* ===== verification/ResourceVersions.v ===== *)
(** * The versions of a resource (atc/db/resource_config_scope.go)

    A check hands the versions it found, oldest first, to the scope of the
    resource's configuration.  The order of versions is the column
    [check_order]; saving versions asks the jobs that take the resource to be
    scheduled.

    [json.Marshal] of a version and PostgreSQL's [digest] are parameters. *)
From stdpp Require Import base gmap sets list strings sorting.
From Stdlib Require Import ZArith Lia.
From S2P Require Import Prelude VersionsDB BuildTables Tables JobTables.

Open Scope Z_scope.

Record ScopeTables := {
  sc_scopes : gset Z;
  sc_versions : list VersionRow;
  sc_tables : Tables }.

Inductive scope_error :=
| EmptyVersion
| ForeignKeyViolation.

Definition set_versions (f : list VersionRow -> list VersionRow) (st : ScopeTables) : ScopeTables :=
  {| sc_scopes := sc_scopes st; sc_versions := f (sc_versions st); sc_tables := sc_tables st |}.
Definition set_tables (f : Tables -> Tables) (st : ScopeTables) : ScopeTables :=
  {| sc_scopes := sc_scopes st; sc_versions := sc_versions st; sc_tables := f (sc_tables st) |}.

Section Versions.
Context (json_Marshal : Version -> string) (digest_sha256 : string -> string).

Definition version_sha256 (v : Version) : string := digest_sha256 (json_Marshal v).

(** The row of a version in a scope: [(resource_config_scope_id,
    version_sha256)] is unique. *)
Definition is_row (scope : Z) (sha : string) (row : VersionRow) : bool :=
  (rcv_scope row =? scope) && String.eqb (rcv_sha256 row) sha.

Definition find_row (scope : Z) (sha : string) (rows : list VersionRow) : option VersionRow :=
  head (filter (fun row => is_row scope sha row = true) rows).

Definition inserted (scope : Z) (v : Version) : VersionRow :=
  {| rcv_scope := scope; rcv_version := v; rcv_md5 := None; rcv_sha256 := version_sha256 v; rcv_check_order := 0 |}.

(** [INSERT ... ON CONFLICT DO UPDATE SET metadata ... RETURNING check_order];
    the metadata is not modelled.  Whether the version has no order yet. *)
Definition saveResourceVersion (scope : Z) (v : Version) (tx : ScopeTables)
    : outcome scope_error (bool * ScopeTables) :=
  if bool_decide (v = ∅) then Fail EmptyVersion
  else match find_row scope (version_sha256 v) (sc_versions tx) with
  | Some row => Ret (rcv_check_order row =? 0, tx)
  | None =>
      if bool_decide (scope ∈ sc_scopes tx) then Ret (true, set_versions (fun rows => rows ++ [inserted scope v]) tx)
      else Fail ForeignKeyViolation
  end.

(** [SELECT max(check_order)]: NULL without rows. *)
Definition max_checkorder (scope : Z) (rows : list VersionRow) : option Z :=
  foldr (fun row acc => Some (match acc with Some m => Z.max (rcv_check_order row) m | None => rcv_check_order row end))
    None (filter (fun row => rcv_scope row = scope) rows).

Definition set_check_order (n : Z) (row : VersionRow) : VersionRow :=
  {| rcv_scope := rcv_scope row; rcv_version := rcv_version row; rcv_md5 := rcv_md5 row;
     rcv_sha256 := rcv_sha256 row; rcv_check_order := n |}.

Definition incrementCheckOrder (scope : Z) (sha : string) (rows : list VersionRow) : list VersionRow :=
  match max_checkorder scope rows with
  | Some co =>
      map (fun row => if is_row scope sha row && (rcv_check_order row <=? co) then set_check_order (co + 1) row else row) rows
  | None => rows
  end.

(** [SELECT DISTINCT job_id FROM job_inputs JOIN resources ... ORDER BY job_id
    DESC] *)
Definition jobs_using_scope (scope : Z) (tx : Tables) : list Z :=
  merge_sort Z.ge (remove_dups (ji_job_id <$> filter (fun ji =>
    ji_passed_job_id ji = None /\ (r ← tb_resources tx !! ji_resource_id ji; rr_scope r) = Some scope) (tb_job_inputs tx))).

Definition requestScheduleForJobsUsingResourceConfigScope (now : Z) (scope : Z) (tx : Tables) : Tables :=
  let jobIDs := jobs_using_scope scope tx in
  let tx := foldl (fun tx jID => update_job jID (set_jr_schedule_requested (fun _ => now)) tx) tx jobIDs in
  if (0 <? length jobIDs)%nat then notify (NotifyScheduler jobIDs) tx else tx.

Fixpoint save_all (scope : Z) (versions : list Version) (tx : ScopeTables)
    : outcome scope_error (bool * ScopeTables) :=
  match versions with
  | [] => Ret (false, tx)
  | v :: versions =>
      '(new, tx) ← saveResourceVersion scope v tx;
      '(more, tx) ← save_all scope versions tx;
      Ret (new || more, tx)
  end.

Definition bump_all (scope : Z) (versions : list Version) (rows : list VersionRow) : list VersionRow :=
  foldl (fun rows v => incrementCheckOrder scope (version_sha256 v) rows) rows versions.

(** [saveVersions]: the transaction is committed, or nothing is saved. *)
Definition saveVersions (now : Z) (scope : Z) (versions : list Version) (st : ScopeTables)
    : outcome scope_error bool * ScopeTables :=
  match save_all scope versions st with
  | Ret (containsNewVersion, tx) =>
      (Ret containsNewVersion,
       if (containsNewVersion : bool)
       then set_tables (requestScheduleForJobsUsingResourceConfigScope now scope)
              (set_versions (bump_all scope versions) tx)
       else tx)
  | Fail e => (Fail e, st)
  | Panic => (Panic, st)
  | NoFuel => (NoFuel, st)
  end.

(** [atc.ComponentLidarScanner] *)
Definition ComponentLidarScanner : string := "scanner".

Definition SaveVersions (now : Z) (scope : Z) (versions : list Version) (st : ScopeTables)
    : outcome scope_error unit * ScopeTables :=
  match saveVersions now scope versions st with
  | (Ret containsNewVersion, st) =>
      (Ret (), if (containsNewVersion : bool) then set_tables (notify (NotifyChannel ComponentLidarScanner)) st else st)
  | (Fail e, st) => (Fail e, st)
  | (Panic, st) => (Panic, st)
  | (NoFuel, st) => (NoFuel, st)
  end.

(** [LatestVersion]: rows with the same order come in any order; the list has
    them in one. *)
Definition LatestVersion (scope : Z) (st : ScopeTables) : option VersionRow :=
  head (merge_sort check_order_desc (filter (fun row => rcv_scope row = scope) (sc_versions st))).

Definition FindVersion (scope : Z) (v : Version) (st : ScopeTables) : option VersionRow :=
  find_row scope (version_sha256 v) (sc_versions st).

(** [CopyVersionsFrom]: [INSERT ... SELECT ... ON CONFLICT DO NOTHING]; the
    number of rows inserted. *)
Definition copied (scope source : Z) (rows : list VersionRow) : list VersionRow :=
  map (fun row => {| rcv_scope := scope; rcv_version := rcv_version row; rcv_md5 := rcv_md5 row;
                     rcv_sha256 := rcv_sha256 row; rcv_check_order := rcv_check_order row |})
    (filter (fun row => rcv_scope row = source /\ find_row scope (rcv_sha256 row) rows = None) rows).

Definition CopyVersionsFrom (scope source : Z) (st : ScopeTables) : outcome scope_error nat * ScopeTables :=
  let new := copied scope source (sc_versions st) in
  if bool_decide (scope ∈ sc_scopes st) || bool_decide (new = []) then (Ret (length new), set_versions (fun rows => rows ++ new) st)
  else (Fail ForeignKeyViolation, st).
End Versions.
