(* ===== verification/ResourceVersionsSpec.v ===== *)
(** * The order of versions

    Saving versions appends them, in their order, to the history of the scope,
    or leaves the tables alone when all of them are known. *)
From stdpp Require Import base gmap sets list strings sorting.
From Stdlib Require Import ZArith Lia.
From S2P Require Import Prelude VersionsDB BuildTables Tables JobTables ResourceVersions.

Open Scope Z_scope.

Section Spec.
Context (json_Marshal : Version -> string) (digest_sha256 : string -> string).
Abbreviation sha := (version_sha256 json_Marshal digest_sha256).

Definition row_key (row : VersionRow) : Z * string := (rcv_scope row, rcv_sha256 row).

Lemma is_row_key scope h row : is_row scope h row = true <-> row_key row = (scope, h).
Proof.
  unfold is_row, row_key. rewrite andb_true_iff, Z.eqb_eq, String.eqb_eq. split; [by intros [-> ->]|by intros [= -> ->]].
Qed.

(** Unique keys, and orders that are not negative. *)
Record wf_rows (rows : list VersionRow) : Prop := {
  wf_unique : NoDup (row_key <$> rows);
  wf_orders : Forall (fun row => 0 <= rcv_check_order row) rows;
}.

Lemma find_row_Some scope h rows row :
  find_row scope h rows = Some row -> row ∈ rows /\ row_key row = (scope, h).
Proof.
  unfold find_row. intros H. apply head_Some_elem_of in H. apply list_elem_of_filter in H as [Hr Hin].
  split; [done|]. by apply is_row_key.
Qed.

Lemma find_row_None scope h rows : find_row scope h rows = None -> forall row, row ∈ rows -> row_key row <> (scope, h).
Proof.
  unfold find_row. intros H row Hin Hk. apply head_None in H.
  assert (Hf : row ∈ filter (fun row => is_row scope h row = true) rows) by (apply list_elem_of_filter; by rewrite is_row_key).
  rewrite H in Hf. by apply not_elem_of_nil in Hf.
Qed.

Lemma find_row_unique rows row :
  NoDup (row_key <$> rows) -> row ∈ rows -> find_row (rcv_scope row) (rcv_sha256 row) rows = Some row.
Proof.
  unfold find_row. induction rows as [|r rows IH]; [by intros _ ?%not_elem_of_nil|].
  rewrite fmap_cons, NoDup_cons. intros [Hr Hnd] Hin. rewrite filter_cons. destruct (decide _) as [Hk|Hk].
  - apply is_row_key in Hk. cbn. apply elem_of_cons in Hin as [->|Hin]; [done|]. exfalso. apply Hr.
    apply list_elem_of_fmap. by exists row.
  - apply elem_of_cons in Hin as [->|Hin]; [|auto]. exfalso. apply Hk. by apply is_row_key.
Qed.

(** A row keeps its key. *)
Lemma find_row_map (f : VersionRow -> VersionRow) scope h rows :
  (forall row, row_key (f row) = row_key row) -> find_row scope h (map f rows) = f <$> find_row scope h rows.
Proof.
  intros Hf. unfold find_row. induction rows as [|r rows IH]; [done|]. cbn [map]. rewrite !filter_cons.
  assert (E : is_row scope h (f r) = is_row scope h r).
  { apply eq_true_iff_eq. by rewrite !is_row_key, Hf. }
  rewrite E. destruct (decide _); [done|exact IH].
Qed.

(** ** The greatest order *)

Definition is_max (scope : Z) (rows : list VersionRow) (co : Z) : Prop :=
  (exists row, row ∈ rows /\ rcv_scope row = scope /\ rcv_check_order row = co) /\
  (forall row, row ∈ rows -> rcv_scope row = scope -> rcv_check_order row <= co).

Lemma is_max_unique scope rows co co' : is_max scope rows co -> is_max scope rows co' -> co = co'.
Proof. intros [(r & Hr & Hs & <-) H] [(r' & Hr' & Hs' & <-) H']. apply Z.le_antisymm; auto. Qed.

Lemma max_checkorder_spec scope rows :
  match max_checkorder scope rows with
  | Some co => is_max scope rows co
  | None => forall row, row ∈ rows -> rcv_scope row <> scope
  end.
Proof.
  unfold max_checkorder. induction rows as [|r rows IH]; [by intros row ?%not_elem_of_nil|].
  rewrite filter_cons. destruct (decide (rcv_scope r = scope)) as [Hr|Hr].
  - cbn [foldr]. destruct (foldr _ None _) as [m|].
    + destruct IH as [(row & Hin & Hs & Hm) Hmax]. split.
      * destruct (Z.max_spec (rcv_check_order r) m) as [[_ ->]|[_ ->]]; [exists row|exists r]; set_solver.
      * intros row' [->|Hin']%elem_of_cons Hs'; [lia|]. specialize (Hmax _ Hin' Hs'). lia.
    + split; [exists r; set_solver|]. intros row' [->|Hin']%elem_of_cons Hs'; [lia|]. by apply IH in Hin'.
  - destruct (foldr _ None _) as [m|].
    + destruct IH as [(row & Hin & Hs & Hm) Hmax]. split; [exists row; set_solver|].
      intros row' [->|Hin']%elem_of_cons Hs'; [done|auto].
    + intros row' [->|Hin']%elem_of_cons; [done|auto].
Qed.

Lemma max_checkorder_is scope rows co : is_max scope rows co -> max_checkorder scope rows = Some co.
Proof.
  intros Hm. pose proof (max_checkorder_spec scope rows) as H. destruct (max_checkorder scope rows) as [co'|].
  - f_equal. by eapply is_max_unique.
  - destruct Hm as [(row & Hin & Hs & _) _]. by apply H in Hin.
Qed.

(** ** Bumping *)

Definition bumped (scope : Z) (h : string) (co : Z) (row : VersionRow) : VersionRow :=
  if is_row scope h row then set_check_order (co + 1) row else row.

Lemma bumped_key scope h co row : row_key (bumped scope h co row) = row_key row.
Proof. unfold bumped. by destruct (is_row _ _ _). Qed.

(** The comparison with the greatest order holds for every row. *)
Lemma incrementCheckOrder_is scope h rows co :
  is_max scope rows co -> incrementCheckOrder scope h rows = map (bumped scope h co) rows.
Proof.
  intros Hm. unfold incrementCheckOrder. rewrite (max_checkorder_is _ _ _ Hm). apply map_ext_in. intros row Hin%list_elem_of_In.
  unfold bumped. destruct (is_row scope h row) eqn:Hr; [|done]. apply is_row_key in Hr. injection Hr as Hs _.
  destruct Hm as [_ Hm]. specialize (Hm _ Hin Hs). by rewrite (proj2 (Z.leb_le _ _) Hm).
Qed.

Lemma bumped_max scope h rows co row :
  is_max scope rows co -> find_row scope h rows = Some row -> is_max scope (map (bumped scope h co) rows) (co + 1).
Proof.
  intros [_ Hmax] [Hin Hk]%find_row_Some. split.
  - exists (bumped scope h co row). split; [by apply list_elem_of_fmap_2|]. unfold bumped.
    rewrite (proj2 (is_row_key _ _ _) Hk). injection Hk as Hs _. by split.
  - intros row' (r & -> & Hr)%list_elem_of_fmap Hs. unfold bumped in *. destruct (is_row scope h r); [cbn; lia|].
    specialize (Hmax _ Hr Hs). lia.
Qed.

Lemma find_bumped scope h co rows s g :
  find_row s g (map (bumped scope h co) rows) = bumped scope h co <$> find_row s g rows.
Proof. apply find_row_map, bumped_key. Qed.

Lemma find_bumped_ne scope h co rows s g :
  (s, g) <> (scope, h) -> find_row s g (map (bumped scope h co) rows) = find_row s g rows.
Proof.
  intros Hne. rewrite find_bumped. destruct (find_row s g rows) as [row|] eqn:Hf; [|done]. cbn. f_equal.
  apply find_row_Some in Hf as [_ Hk]. unfold bumped. destruct (is_row scope h row) eqn:Hr; [|done].
  apply is_row_key in Hr. congruence.
Qed.

Definition order_of (scope : Z) (h : string) (rows : list VersionRow) : option Z :=
  rcv_check_order <$> find_row scope h rows.

(** Bumped one after the other, the versions come after all others and in their
    order. *)
Lemma bump_all_orders scope versions rows co :
  is_max scope rows co -> NoDup (sha <$> versions) -> Forall (fun v => is_Some (find_row scope (sha v) rows)) versions ->
  let rows' := bump_all json_Marshal digest_sha256 scope versions rows in
  (forall i v, versions !! i = Some v -> order_of scope (sha v) rows' = Some (co + 1 + Z.of_nat i)) /\
  (forall s g, ~ (s = scope /\ g ∈ sha <$> versions) -> find_row s g rows' = find_row s g rows) /\
  is_max scope rows' (co + Z.of_nat (length versions)).
Proof.
  revert rows co. induction versions as [|v versions IH]; intros rows co Hm Hnd Hall rows'.
  { subst rows'. split; [done|]. split; [done|]. by rewrite Z.add_0_r. }
  rewrite fmap_cons, NoDup_cons in Hnd. destruct Hnd as [Hv Hnd]. apply Forall_cons in Hall as [[row Hrow] Hall].
  subst rows'. unfold bump_all. cbn [foldl]. rewrite (incrementCheckOrder_is _ _ _ _ Hm).
  set (rows1 := map (bumped scope (sha v) co) rows).
  destruct (IH rows1 (co + 1)) as (Ho & Hf & Hmax).
  - by apply (bumped_max _ _ _ _ row).
  - done.
  - eapply Forall_impl; [exact Hall|]. intros w [r Hr]. unfold rows1. rewrite find_bumped, Hr. by eexists.
  - fold (bump_all json_Marshal digest_sha256 scope versions rows1). split_and!.
    + intros [|i] w; cbn; [intros [= <-]|intros Hw].
      * unfold order_of. rewrite Hf by (by intros [_ ?]). unfold rows1. rewrite find_bumped, Hrow. cbn.
        apply find_row_Some in Hrow as [_ Hk]. unfold bumped. rewrite (proj2 (is_row_key _ _ _) Hk). cbn. f_equal. lia.
      * rewrite (Ho _ _ Hw). f_equal. lia.
    + intros s g Hne. rewrite Hf by set_solver. unfold rows1. apply find_bumped_ne. set_solver.
    + cbn [length]. replace (co + Z.of_nat (S (length versions))) with (co + 1 + Z.of_nat (length versions)) by lia. done.
Qed.

(** ** Inserting *)

Lemma find_row_snoc scope h rows x :
  find_row scope h (rows ++ [x]) =
  match find_row scope h rows with
  | Some row => Some row
  | None => if is_row scope h x then Some x else None
  end.
Proof.
  unfold find_row. rewrite filter_app. destruct (filter _ rows); [|done]. rewrite filter_cons.
  destruct (is_row scope h x); cbn; [by rewrite decide_True|by rewrite decide_False].
Qed.

(** What the first loop of [saveVersions] leaves: the rows that were there, and
    rows without an order for the versions that were not. *)
Record inserts (scope : Z) (versions : list Version) (st tx : ScopeTables) : Prop := {
  ins_wf : wf_rows (sc_versions st) -> wf_rows (sc_versions tx);
  ins_tables : sc_tables tx = sc_tables st;
  ins_found : Forall (fun v => is_Some (find_row scope (sha v) (sc_versions tx))) versions;
  ins_kept s g row : find_row s g (sc_versions st) = Some row -> find_row s g (sc_versions tx) = Some row;
  ins_others s g : ~ (s = scope /\ g ∈ sha <$> versions) ->
    find_row s g (sc_versions tx) = find_row s g (sc_versions st);
  ins_zero row : row ∈ sc_versions tx -> row ∈ sc_versions st \/ rcv_check_order row = 0;
  ins_old row : row ∈ sc_versions st -> row ∈ sc_versions tx;
}.

Lemma saveResourceVersion_inserts scope v st new tx :
  saveResourceVersion json_Marshal digest_sha256 scope v st = Ret (new, tx) ->
  inserts scope [v] st tx /\ (new = false -> tx = st).
Proof.
  unfold saveResourceVersion. case_bool_decide; [done|].
  destruct (find_row scope (sha v) (sc_versions st)) as [row|] eqn:Hf.
  - intros [= <- <-]. split; [|done]. split; eauto.
  - case_bool_decide; [|done]. intros [= <- <-]. split; [|done].
    assert (Hk : is_row scope (sha v) (inserted json_Marshal digest_sha256 scope v) = true) by by apply is_row_key.
    split; cbn [set_versions sc_versions sc_tables]; try done.
    + intros [Hu Ho]. split.
      * rewrite fmap_app, NoDup_app. split; [done|]. split; [|apply NoDup_singleton].
        intros k (row & -> & Hin)%list_elem_of_fmap Hx. apply list_elem_of_singleton in Hx.
        eapply find_row_None; [exact Hf|exact Hin|exact Hx].
      * apply Forall_app. split; [done|]. by apply Forall_singleton.
    + apply Forall_singleton. rewrite find_row_snoc, Hf, Hk. eauto.
    + intros s g row Hr. by rewrite find_row_snoc, Hr.
    + intros s g Hne. rewrite find_row_snoc. destruct (find_row s g _); [done|].
      destruct (is_row s g _) eqn:Hr; [|done]. apply is_row_key in Hr. injection Hr as <- <-. exfalso. apply Hne. set_solver.
    + intros row [Hin|Hin]%elem_of_app; [by left|]. apply list_elem_of_singleton in Hin as ->. by right.
    + intros row Hin. apply elem_of_app. by left.
Qed.

Lemma inserts_trans scope v versions st st1 tx :
  inserts scope [v] st st1 -> inserts scope versions st1 tx -> inserts scope (v :: versions) st tx.
Proof.
  intros H1 H2. split.
  - intros Hwf. by apply H2, H1.
  - rewrite (ins_tables _ _ _ _ H2). apply H1.
  - constructor; [|apply H2]. pose proof (ins_found _ _ _ _ H1) as [Hv _]%Forall_cons. destruct Hv as [row Hv].
    exists row. by apply H2.
  - intros s g row Hr. by apply H2, H1.
  - intros s g Hne. rewrite (ins_others _ _ _ _ H2), (ins_others _ _ _ _ H1); [done|set_solver..].
  - intros row [Hin|Hz]%(ins_zero _ _ _ _ H2); [|by right]. by apply (ins_zero _ _ _ _ H1).
  - intros row Hin. by apply H2, H1.
Qed.

Lemma save_all_inserts scope versions st new tx :
  save_all json_Marshal digest_sha256 scope versions st = Ret (new, tx) ->
  inserts scope versions st tx /\ (new = false -> tx = st) /\ (new = true -> versions <> []).
Proof.
  revert st new tx. induction versions as [|v versions IH]; intros st new tx; cbn [save_all].
  { intros [= <- <-]. split; [|done]. split; auto. }
  intros ([n1 st1] & H1%saveResourceVersion_inserts & ([n2 st2] & H2%IH & [= <- <-])%bind_Ret)%bind_Ret.
  destruct H1 as [H1 E1], H2 as (H2 & E2 & _). split; [by eapply inserts_trans|]. split; [|done].
  intros [Hn1 Hn2]%orb_false_iff. rewrite E2, E1 by done. done.
Qed.

Lemma wf_bump_all scope versions rows :
  wf_rows rows -> wf_rows (bump_all json_Marshal digest_sha256 scope versions rows).
Proof.
  revert rows. induction versions as [|v versions IH]; intros rows Hwf; [done|]. unfold bump_all. cbn [foldl]. apply IH.
  pose proof (max_checkorder_spec scope rows) as Hm. destruct (max_checkorder scope rows) as [co|] eqn:Hco.
  - rewrite (incrementCheckOrder_is _ _ _ _ Hm). destruct Hwf as [Hu Ho]. split.
    + rewrite <- list_fmap_compose. erewrite list_fmap_ext; [exact Hu|]. intros i row _. apply bumped_key.
    + apply Forall_map. eapply Forall_impl; [exact Ho|]. intros row Hrow. unfold bumped. destruct (is_row _ _ _); [|done].
      destruct Hm as [(r & Hr & _ & Hr') _]. rewrite Forall_forall in Ho. specialize (Ho _ Hr). cbn. lia.
  - unfold incrementCheckOrder. by rewrite Hco.
Qed.

(** ** Saving *)

(** The first row is one of the rows with the greatest order. *)
Lemma latest_is_max scope st row :
  LatestVersion scope st = Some row ->
  row ∈ sc_versions st /\ rcv_scope row = scope /\
  forall row', row' ∈ sc_versions st -> rcv_scope row' = scope -> rcv_check_order row' <= rcv_check_order row.
Proof.
  unfold LatestVersion. intros H.
  assert (Hs : StronglySorted check_order_desc (merge_sort check_order_desc (filter (fun r => rcv_scope r = scope) (sc_versions st)))).
  { apply StronglySorted_merge_sort; [intros x y z; unfold check_order_desc; lia|intros x y; unfold check_order_desc; lia]. }
  pose proof (merge_sort_Permutation check_order_desc (filter (fun r => rcv_scope r = scope) (sc_versions st))) as Hp.
  destruct (merge_sort _ _) as [|x l]; [done|]. injection H as ->.
  assert (Hin : row ∈ filter (fun r => rcv_scope r = scope) (sc_versions st)) by (rewrite <- Hp; left).
  apply list_elem_of_filter in Hin as [Hr Hin]. split; [done|]. split; [done|]. intros row' Hin' Hr'.
  assert (Hf : row' ∈ row :: l) by (rewrite Hp; by apply list_elem_of_filter).
  apply elem_of_cons in Hf as [->|Hf]; [lia|]. apply StronglySorted_inv in Hs as [_ Hall].
  rewrite Forall_forall in Hall. exact (Hall _ Hf).
Qed.

Lemma latest_exists scope st row : row ∈ sc_versions st -> rcv_scope row = scope -> is_Some (LatestVersion scope st).
Proof.
  intros Hin Hs. unfold LatestVersion.
  assert (Hf : row ∈ merge_sort check_order_desc (filter (fun r => rcv_scope r = scope) (sc_versions st))).
  { rewrite merge_sort_Permutation. by apply list_elem_of_filter. }
  destruct (merge_sort _ _); [by apply not_elem_of_nil in Hf|by eexists].
Qed.

(** The jobs that take the resource directly are asked to be scheduled. *)
Lemma foldl_update_jobs now l tx j row :
  j ∈ l -> tb_jobs tx !! j = Some row ->
  tb_jobs (foldl (fun tx jID => update_job jID (set_jr_schedule_requested (fun _ => now)) tx) tx l) !! j
  = Some (set_jr_schedule_requested (fun _ => now) row).
Proof.
  assert (Hstay : forall l tx, tb_jobs tx !! j = Some (set_jr_schedule_requested (fun _ => now) row) ->
    tb_jobs (foldl (fun tx jID => update_job jID (set_jr_schedule_requested (fun _ => now)) tx) tx l) !! j
    = Some (set_jr_schedule_requested (fun _ => now) row)).
  { clear. induction l as [|x l IH]; intros tx Hj; [done|]. cbn. apply IH. destruct (decide (x = j)) as [->|].
    - cbn. by rewrite lookup_alter_eq, Hj.
    - cbn. by rewrite lookup_alter_ne. }
  revert tx. induction l as [|x l IH]; intros tx Hin Hj; [by apply not_elem_of_nil in Hin|]. cbn.
  destruct (decide (x = j)) as [->|Hne].
  - apply Hstay. cbn. by rewrite lookup_alter_eq, Hj.
  - apply elem_of_cons in Hin as [?|Hin]; [done|]. apply IH; [done|]. cbn. by rewrite lookup_alter_ne.
Qed.

Lemma requested_jobs now scope tx j row :
  j ∈ jobs_using_scope scope tx -> tb_jobs tx !! j = Some row ->
  tb_jobs (requestScheduleForJobsUsingResourceConfigScope now scope tx) !! j
  = Some (set_jr_schedule_requested (fun _ => now) row).
Proof.
  intros Hin Hj. unfold requestScheduleForJobsUsingResourceConfigScope.
  destruct (0 <? _)%nat; cbn; by apply foldl_update_jobs.
Qed.

(** After the versions, the one with the greatest order is the last. *)
Lemma latest_after scope versions rows v co st :
  is_max scope rows co -> NoDup (sha <$> versions) -> Forall (fun v => is_Some (find_row scope (sha v) rows)) versions ->
  sc_versions st = bump_all json_Marshal digest_sha256 scope versions rows -> wf_rows (sc_versions st) ->
  last versions = Some v -> rcv_sha256 <$> LatestVersion scope st = Some (sha v).
Proof.
  intros Hm Hnd Hall Hst Hwf Hlast. destruct (bump_all_orders scope versions rows co Hm Hnd Hall) as (Ho & Hf & Hmax).
  rewrite <- Hst in *. rewrite last_lookup in Hlast. pose proof (lookup_lt_Some _ _ _ Hlast) as Hlen.
  destruct Hmax as [(top & Htop & Hts & Hto) _].
  destruct (latest_exists scope st top Htop Hts) as [row Hrow]. rewrite Hrow. cbn.
  apply latest_is_max in Hrow as (Hin & Hs & Hge). specialize (Hge _ Htop Hts).
  pose proof (find_row_unique _ _ (wf_unique _ Hwf) Hin) as Hfind. rewrite Hs in Hfind.
  destruct (decide (rcv_sha256 row ∈ sha <$> versions)) as [Hl|Hl].
  - apply list_elem_of_lookup in Hl as [i Hi]. rewrite list_lookup_fmap in Hi.
    destruct (versions !! i) as [w|] eqn:Hw; [|done]. injection Hi as Hi.
    pose proof (Ho _ _ Hw) as How. unfold order_of in How. rewrite Hi, Hfind in How. injection How as How.
    apply lookup_lt_Some in Hw as Hlt. assert (i = pred (length versions)) as -> by lia. rewrite Hlast in Hw. congruence.
  - rewrite Hf in Hfind by (by intros [_ ?]). apply find_row_Some in Hfind as [Hin' _].
    destruct Hm as [_ Hm]. specialize (Hm _ Hin' Hs). lia.
Qed.

(** C28: Saving versions a check found appends them, in their order, to the history
    of the scope when at least one of them is new: they get the orders after the
    greatest one, the last becomes the latest version, every other row stays,
    and the jobs that take the resource are asked to be scheduled.  When none
    is new, nothing changes.  The rows stay well formed. *)
Theorem saveVersions_appends now scope versions st containsNewVersion st' :
  wf_rows (sc_versions st) -> NoDup (sha <$> versions) ->
  saveVersions json_Marshal digest_sha256 now scope versions st = (Ret containsNewVersion, st') ->
  wf_rows (sc_versions st') /\
  if containsNewVersion then
    exists co,
      (forall row, row ∈ sc_versions st -> rcv_scope row = scope -> rcv_check_order row <= co) /\
      (forall i v, versions !! i = Some v -> order_of scope (sha v) (sc_versions st') = Some (co + 1 + Z.of_nat i)) /\
      (forall v, last versions = Some v -> rcv_sha256 <$> LatestVersion scope st' = Some (sha v)) /\
      (forall s g, ~ (s = scope /\ g ∈ sha <$> versions) ->
         find_row s g (sc_versions st') = find_row s g (sc_versions st)) /\
      (forall j row, j ∈ jobs_using_scope scope (sc_tables st) -> tb_jobs (sc_tables st) !! j = Some row ->
         tb_jobs (sc_tables st') !! j = Some (set_jr_schedule_requested (fun _ => now) row))
  else st' = st.
Proof.
  intros Hwf Hnd. unfold saveVersions.
  destruct (save_all _ _ scope versions st) as [[new tx]|e| |] eqn:Hs; [|done..]. intros [= <- <-].
  apply save_all_inserts in Hs as (Hins & Hfalse & Hne). pose proof (ins_wf _ _ _ _ Hins Hwf) as Hwf'.
  destruct new; [|rewrite (Hfalse eq_refl); done].
  split; [by apply wf_bump_all|]. specialize (Hne eq_refl). pose proof (ins_found _ _ _ _ Hins) as Hall.
  pose proof (max_checkorder_spec scope (sc_versions tx)) as Hm. destruct (max_checkorder scope _) as [co|].
  - destruct (bump_all_orders scope versions (sc_versions tx) co Hm Hnd Hall) as (Ho & Hf & _).
    exists co. split_and!.
    + intros row Hin Hrs. by apply Hm, Hrs; apply Hins.
    + exact Ho.
    + intros v Hv. by eapply (latest_after _ _ _ _ _ _ Hm Hnd Hall); [done|apply wf_bump_all|].
    + intros s g Hsg. cbn. rewrite Hf by done. by apply Hins.
    + intros j row Hj Hrow. cbn. rewrite (ins_tables _ _ _ _ Hins). by apply requested_jobs.
  - exfalso. destruct versions as [|v versions]; [done|]. apply Forall_cons in Hall as [[row Hrow] _].
    apply find_row_Some in Hrow as [Hin Hk]. injection Hk as Hk _. by apply Hm in Hin.
Qed.
End Spec.

(** ** A history *)

Module History.
(** The members of a version, which tell versions apart. *)
Definition marshal (v : Version) : string := String.concat "," (map (fun p => p.1 +:+ ":" +:+ p.2) (map_to_list v)).
Definition ref (r : string) : Version := {[ "ref"%string := r ]}.

Definition row (scope : Z) (r : string) (order : Z) : VersionRow :=
  {| rcv_scope := scope; rcv_version := ref r; rcv_md5 := None; rcv_sha256 := marshal (ref r); rcv_check_order := order |}.

Definition tables : Tables :=
  {| tb_jobs := ∅; tb_builds := ∅; tb_builds_id_seq := 1; tb_pipelines := ∅; tb_serial_groups := [];
     tb_job_inputs := []; tb_resources := ∅; tb_resource_pins := []; tb_versions := []; tb_next_build_inputs := [];
     tb_next_build_pipes := []; tb_build_inputs := []; tb_build_outputs := []; tb_build_pipes := [];
     tb_successful_build_outputs := []; tb_image_caches := []; tb_status_events := []; tb_notifications := [] |}.

Definition history : ScopeTables :=
  {| sc_scopes := {[ 1; 2 ]}; sc_versions := [row 1 "v1" 1; row 1 "v2" 2; row 2 "old" 9]; sc_tables := tables |}.

(** A check from "v2" finds it again and a newer version. *)
Definition found : list Version := [ref "v2"; ref "v3"].

Lemma saveVersions_appends_witness :
  exists st', saveVersions marshal id 0 1 found history = (Ret true, st') /\
    wf_rows (sc_versions st') /\ rcv_sha256 <$> LatestVersion 1 st' = Some (marshal (ref "v3")).
Proof.
  destruct (saveVersions marshal id 0 1 found history) as [r st'] eqn:Hs.
  assert (Hr : r = Ret true) by (change r with (r, st').1; rewrite <- Hs; vm_compute; reflexivity).
  rewrite Hr in Hs. exists st'. split; [by rewrite Hr|].
  destruct (saveVersions_appends marshal id 0 1 found history true st') as [Hwf (co & _ & _ & Hlast & _)].
  - split; [apply (bool_decide_unpack _); vm_compute; reflexivity|].
    repeat (apply Forall_cons_2; [vm_compute; discriminate|]). apply Forall_nil_2.
  - apply (bool_decide_unpack _). vm_compute. reflexivity.
  - exact Hs.
  - split; [exact Hwf|]. apply (Hlast (ref "v3")). reflexivity.
Defined.

(** Copied versions keep the orders of the scope they come from: an old version
    becomes the latest one of the scope it is copied to. *)
Example copy_takes_over :
  rcv_version <$> LatestVersion 1 history = Some (ref "v2") /\
  rcv_version <$> LatestVersion 1 (CopyVersionsFrom 1 2 history).2 = Some (ref "old") /\
  (CopyVersionsFrom 1 2 history).1 = Ret 1%nat.
Proof. vm_compute. done. Qed.
End History.
