(* ===== verification/Checks.v ===== *)
(** * Checks of resources

    The path of a periodic check inside one web node: the scanner asks the check
    factory for a check ([atc/lidar/scanner.go], [atc/db/check_factory.go]), an
    in-memory build is sent to the tracker ([atc/builds/tracker.go]), the engine
    runs it ([atc/engine/engine.go]) and records how it ended
    ([atc/db/build_in_memory_check.go]).

    Times are nanoseconds; a zero [time.Time] is [None].  Every statement of a
    transaction may fail, as the world's answers say. *)
From stdpp Require Import base gmap sets list strings pretty.
From Stdlib Require Import ZArith Lia.
From S2P Require Import Prelude Tables Vars Repository Parallel ExecWorld Exec Engine GoText Steps StepValidator Planner.

Open Scope Z_scope.

(** ** Checkables (check_factory.go, resource_type.go) *)

Record Checkable := {
  ckb_IsResourceType : bool;
  ckb_ID : Z;
  ckb_Name : string;
  ckb_PipelineID : Z;
  ckb_Type : string;
  ckb_Source : document;
  ckb_Tags : Tags;
  ckb_CheckTimeout : string;
  ckb_CheckEvery : option CheckEvery;
  ckb_LastCheckEndTime : option Z;
  ckb_HasWebhook : bool;
  ckb_ScopeID : Z;
  ckb_PinnedVersion : option Version }.

(** [db.ResourceType]; [dt_ResolvedImage] is what [ResolvedImage] answers. *)
Record DBResourceType := {
  dt_checkable : Checkable;
  dt_Image : string;
  dt_ResolvedImage : string;
  dt_Defaults : document;
  dt_Privileged : bool;
  dt_Params : document }.

(** [t != checkable]: the same row of the same table. *)
Definition same_checkable (t : DBResourceType) (c : Checkable) : bool :=
  ckb_IsResourceType c && (ckb_ID (dt_checkable t) =? ckb_ID c).

Definition Parent (types : list DBResourceType) (c : Checkable) : option DBResourceType :=
  head (filter (fun t =>
    (ckb_PipelineID (dt_checkable t) =? ckb_PipelineID c) && negb (same_checkable t c)
    && String.eqb (ckb_Name (dt_checkable t)) (ckb_Type c) = true) types).

(** [Filter]: the loop goes from a type to its parent. *)
Fixpoint Filter_from (fuel : nat) (types : list DBResourceType) (c : Checkable) : option (list DBResourceType) :=
  match fuel with
  | O => None
  | S fuel =>
      match Parent types c with
      | None => Some []
      | Some t => result ← Filter_from fuel types (dt_checkable t); Some (t :: result)
      end
  end.

Section Factory.
Context `{PlannerWorld}.

Definition Deserialize_type (types : list DBResourceType) (t : DBResourceType) : ResourceType :=
  let c := dt_checkable t in
  let source :=
    match Parent types c with
    | Some parent => Merge (dt_Defaults parent) (ckb_Source c)
    | None =>
        match baseResourceTypeDefaults !! ckb_Type c with
        | Some defaults => Merge defaults (ckb_Source c)
        | None => ckb_Source c
        end
    end in
  {| rt_Name := ckb_Name c; rt_Type := ckb_Type c;
     rt_Image := if String.eqb (dt_Image t) "" then dt_ResolvedImage t else dt_Image t;
     rt_Source := source; rt_Defaults := dt_Defaults t; rt_Privileged := dt_Privileged t;
     rt_CheckEvery := ckb_CheckEvery c; rt_Tags := ckb_Tags c; rt_Params := dt_Params t |}.

Definition Deserialize (types : list DBResourceType) : list ResourceType := map (Deserialize_type types) types.

(** [CheckPlan] of a resource and of a resource type. *)
Definition checkable_CheckPlan (c : Checkable) (imagePlanner : list ResourceType) (from : option Version)
    (interval : CheckEvery) (sourceDefaults : document) (skipInterval skipIntervalRecursively : bool) : planM Plan :=
  fun num =>
    let check image :=
      PlCheck {| ck_Name := ckb_Name c; ck_Type := ckb_Type c; ck_Source := Merge sourceDefaults (ckb_Source c);
                 ck_TypeImage := image; ck_FromVersion := from;
                 ck_Resource := if ckb_IsResourceType c then "" else ckb_Name c;
                 ck_ResourceType := if ckb_IsResourceType c then ckb_Name c else "";
                 ck_Prototype := ""; ck_Interval := interval; ck_SkipInterval := skipInterval;
                 ck_Timeout := if ckb_IsResourceType c then "" else ckb_CheckTimeout c; ck_Tags := ckb_Tags c |} in
    let num := AddInt64 num 1 in
    let id := hex num in
    (Ret (MkPlan id (check (ImageForType imagePlanner id (ckb_Type c) (ckb_Tags c)
                              (skipInterval && skipIntervalRecursively)))), num).

(** ** The interval of a check *)

(** [atc.DefaultWebhookInterval] and [atc.DefaultResourceTypeInterval] are set
    from the command line. *)
Class Intervals := { DefaultWebhookInterval : Z; DefaultResourceTypeInterval : Z }.
Context `{Intervals}.

Definition check_interval (c : Checkable) : CheckEvery :=
  let interval := {| ce_Never := false;
                     ce_Interval := if ckb_HasWebhook c then DefaultWebhookInterval else DefaultCheckInterval |} in
  match ckb_CheckEvery c with
  | Some every => every
  | None =>
      if ckb_IsResourceType c then {| ce_Never := false; ce_Interval := DefaultResourceTypeInterval |} else interval
  end.

(** [time.Now().Before(end.Add(interval))]; the zero time and any interval are
    long past. *)
Definition before_next (now : Z) (last : option Z) (interval : Z) : bool :=
  match last with Some last => now <? last + interval | None => false end.

Definition source_defaults (types : list DBResourceType) (c : Checkable) : document :=
  match Parent types c with
  | Some parent => dt_Defaults parent
  | None => default (Some ∅) (baseResourceTypeDefaults !! ckb_Type c)
  end.

(** The plan of a check that is due: [None] when its interval has not elapsed. *)
Definition due_plan (fuel : nat) (now : Z) (c : Checkable) (types : list DBResourceType) (from : option Version)
    (manuallyTriggered skipIntervalRecursively : bool) : stateful Z plan_error (option Plan) :=
  let interval := check_interval c in
  if negb manuallyTriggered && before_next now (ckb_LastCheckEndTime c) (ce_Interval interval) then mret None
  else
    match Filter_from fuel types c with
    | None => fun num => (NoFuel, num)
    | Some filtered =>
        plan ← checkable_CheckPlan c (Deserialize filtered) from interval (source_defaults types c)
                 manuallyTriggered skipIntervalRecursively;
        mret (Some plan)
    end.
End Factory.

(** ** The tables of in-memory checks *)

Inductive check_event :=
| EvStatus (status : BuildStatus)
| EvOther (name : string).

(** The columns [in_memory_build_id] and [in_memory_build_status] of a
    resource. *)
Record MemColumns := { mc_build_id : option Z; mc_status : option BuildStatus }.

Record ContainerRow := {
  cr_destroying : bool;
  cr_in_memory_build : option (Z * Z) }.

Record CheckDB := {
  db_builds_id_seq : Z;
  db_resources : gmap Z MemColumns;
  db_events : list (Z * Z * check_event);
  db_containers : list ContainerRow;
  db_cache_uses : list (Z * Z) }.

Definition set_db_resources f (db : CheckDB) : CheckDB :=
  {| db_builds_id_seq := db_builds_id_seq db; db_resources := f (db_resources db); db_events := db_events db;
     db_containers := db_containers db; db_cache_uses := db_cache_uses db |}.
Definition set_db_events f (db : CheckDB) : CheckDB :=
  {| db_builds_id_seq := db_builds_id_seq db; db_resources := db_resources db; db_events := f (db_events db);
     db_containers := db_containers db; db_cache_uses := db_cache_uses db |}.
Definition set_db_containers f (db : CheckDB) : CheckDB :=
  {| db_builds_id_seq := db_builds_id_seq db; db_resources := db_resources db; db_events := db_events db;
     db_containers := f (db_containers db); db_cache_uses := db_cache_uses db |}.
Definition set_db_cache_uses f (db : CheckDB) : CheckDB :=
  {| db_builds_id_seq := db_builds_id_seq db; db_resources := db_resources db; db_events := db_events db;
     db_containers := db_containers db; db_cache_uses := f (db_cache_uses db) |}.
Definition set_db_seq n (db : CheckDB) : CheckDB :=
  {| db_builds_id_seq := n; db_resources := db_resources db; db_events := db_events db;
     db_containers := db_containers db; db_cache_uses := db_cache_uses db |}.

(** [inMemoryCheckBuild], with the scope of the [onFinishBuild] around it. *)
Record CheckBuild := {
  mb_id : Z;
  mb_resourceId : Z;
  mb_preId : Z;
  mb_createTime : Z;
  mb_status : BuildStatus;
  mb_endTime : option Z;
  mb_runningInContainer : bool;
  mb_dbInited : bool;
  mb_cacheEvents : list check_event;
  mb_eventIdSeq : Z;
  mb_onFinish : option Z }.

Definition set_mb_id n b :=
  {| mb_id := n; mb_resourceId := mb_resourceId b; mb_preId := mb_preId b; mb_createTime := mb_createTime b;
     mb_status := mb_status b; mb_endTime := mb_endTime b; mb_runningInContainer := mb_runningInContainer b;
     mb_dbInited := mb_dbInited b; mb_cacheEvents := mb_cacheEvents b; mb_eventIdSeq := mb_eventIdSeq b;
     mb_onFinish := mb_onFinish b |}.
Definition set_mb_end status now b :=
  {| mb_id := mb_id b; mb_resourceId := mb_resourceId b; mb_preId := mb_preId b; mb_createTime := mb_createTime b;
     mb_status := status; mb_endTime := Some now; mb_runningInContainer := mb_runningInContainer b;
     mb_dbInited := mb_dbInited b; mb_cacheEvents := mb_cacheEvents b; mb_eventIdSeq := mb_eventIdSeq b;
     mb_onFinish := mb_onFinish b |}.
Definition set_mb_running b :=
  {| mb_id := mb_id b; mb_resourceId := mb_resourceId b; mb_preId := mb_preId b; mb_createTime := mb_createTime b;
     mb_status := mb_status b; mb_endTime := mb_endTime b; mb_runningInContainer := true;
     mb_dbInited := mb_dbInited b; mb_cacheEvents := mb_cacheEvents b; mb_eventIdSeq := mb_eventIdSeq b;
     mb_onFinish := mb_onFinish b |}.
Definition set_mb_inited b :=
  {| mb_id := mb_id b; mb_resourceId := mb_resourceId b; mb_preId := mb_preId b; mb_createTime := mb_createTime b;
     mb_status := mb_status b; mb_endTime := mb_endTime b; mb_runningInContainer := mb_runningInContainer b;
     mb_dbInited := true; mb_cacheEvents := []; mb_eventIdSeq := mb_eventIdSeq b; mb_onFinish := mb_onFinish b |}.
Definition set_mb_cache events b :=
  {| mb_id := mb_id b; mb_resourceId := mb_resourceId b; mb_preId := mb_preId b; mb_createTime := mb_createTime b;
     mb_status := mb_status b; mb_endTime := mb_endTime b; mb_runningInContainer := mb_runningInContainer b;
     mb_dbInited := mb_dbInited b; mb_cacheEvents := events; mb_eventIdSeq := mb_eventIdSeq b;
     mb_onFinish := mb_onFinish b |}.
Definition set_mb_seq n b :=
  {| mb_id := mb_id b; mb_resourceId := mb_resourceId b; mb_preId := mb_preId b; mb_createTime := mb_createTime b;
     mb_status := mb_status b; mb_endTime := mb_endTime b; mb_runningInContainer := mb_runningInContainer b;
     mb_dbInited := mb_dbInited b; mb_cacheEvents := mb_cacheEvents b; mb_eventIdSeq := n;
     mb_onFinish := mb_onFinish b |}.

(** ** In-memory builds (build_in_memory_check.go) *)

(** The build, the tables, and whether each of the next statements fails. *)
Definition MemState : Type := CheckBuild * CheckDB * list bool.
Inductive db_failed := DBFailed.
Abbreviation Mem A := (stateful MemState db_failed A).

Definition get_build : Mem CheckBuild := fun '(b, db, ans) => (Ret b, (b, db, ans)).
Definition set_build (f : CheckBuild -> CheckBuild) : Mem unit := fun '(b, db, ans) => (Ret (), (f b, db, ans)).

(** A statement with a result. *)
Definition query {A} (f : CheckDB -> A * CheckDB) : Mem A :=
  fun '(b, db, ans) =>
    match ans with
    | true :: ans => (Fail DBFailed, (b, db, ans))
    | _ => let '(a, db) := f db in (Ret a, (b, db, tail ans))
    end.
Definition exec (f : CheckDB -> CheckDB) : Mem unit := query (fun db => ((), f db)).

(** [Begin], the statements, [Commit]; a transaction that does not commit is
    rolled back, except for what it took from a sequence. *)
Definition in_tx (body : Mem unit) : Mem unit :=
  fun '(b, db, ans) =>
    let run := exec id ≫= fun _ => body ≫= fun _ => exec id in
    match run (b, db, ans) with
    | (Ret a, st) => (Ret a, st)
    | (r, (b, db', ans)) => (r, (b, set_db_seq (db_builds_id_seq db') db, ans))
    end.

Definition mem_saveEvent (ev : check_event) : Mem unit :=
  b ← get_build;
  let n := mb_eventIdSeq b + 1 in
  _ ← set_build (set_mb_seq n);
  exec (set_db_events (fun l => l ++ [(n, mb_id b, ev)])).

Definition update_resource (b : CheckBuild) (f : MemColumns -> MemColumns) : Mem unit :=
  if mb_resourceId b =? 0 then mret () else exec (set_db_resources (alter f (mb_resourceId b))).

Fixpoint save_cached (events : list check_event) : Mem unit :=
  match events with
  | [] => mret ()
  | ev :: events => _ ← mem_saveEvent ev; save_cached events
  end.

Definition initDbStuff : Mem unit :=
  nextBuildId ← query (fun db => let n := db_builds_id_seq db in (n, set_db_seq (n + 1) db));
  _ ← set_build (set_mb_id nextBuildId);
  b ← get_build;
  _ ← save_cached (mb_cacheEvents b);
  b ← get_build;
  _ ← update_resource b (fun _ => {| mc_build_id := Some (mb_id b); mc_status := Some BuildStatusStarted |});
  set_build set_mb_inited.

Definition init_once : Mem unit :=
  b ← get_build;
  if mb_dbInited b then mret () else initDbStuff.

(** [Bus().Notify] *)
Definition notify_bus : Mem unit := exec id.

Definition OnCheckBuildStart : Mem unit :=
  b ← get_build;
  if mb_runningInContainer b then mret ()
  else
    _ ← set_build set_mb_running;
    _ ← in_tx init_once;
    notify_bus.

Definition mem_SaveEvent (ev : check_event) : Mem unit :=
  b ← get_build;
  if negb (mb_runningInContainer b) then set_build (fun b => set_mb_cache (mb_cacheEvents b ++ [ev]) b)
  else
    _ ← in_tx (mem_saveEvent ev);
    notify_bus.

(** The containers of the build are handed to the reaper. *)
Definition destroy_containers (b : CheckBuild) : list ContainerRow -> list ContainerRow :=
  map (fun c => if bool_decide (cr_in_memory_build c = Some (mb_preId b, mb_createTime b))
                then {| cr_destroying := true; cr_in_memory_build := None |} else c).

Definition mem_Finish (now : Z) (status : BuildStatus) : Mem unit :=
  b ← get_build;
  if negb (mb_runningInContainer b) && bool_decide (status = BuildStatusSucceeded) then mret ()
  else
    _ ← set_build (set_mb_end status now);
    _ ← in_tx (
      _ ← init_once;
      _ ← mem_saveEvent (EvStatus status);
      b ← get_build;
      _ ← update_resource b (fun c => {| mc_build_id := mc_build_id c; mc_status := Some status |});
      _ ← exec (set_db_containers (destroy_containers b));
      exec (set_db_cache_uses (filter (fun p => p <> (mb_preId b, mb_createTime b)))));
    notify_bus.

Definition mem_IsRunning (b : CheckBuild) : bool := match mb_endTime b with None => true | Some _ => false end.

(** [newRunningInMemoryCheckBuild]: the started event is cached. *)
Definition newRunningInMemoryCheckBuild (now preId : Z) (c : Checkable) : CheckBuild :=
  {| mb_id := 0; mb_resourceId := ckb_ID c; mb_preId := preId; mb_createTime := now;
     mb_status := BuildStatusPending; mb_endTime := None; mb_runningInContainer := false;
     mb_dbInited := false; mb_cacheEvents := [EvStatus BuildStatusStarted]; mb_eventIdSeq := -1;
     mb_onFinish := None |}.

Definition set_mb_onFinish scope b :=
  {| mb_id := mb_id b; mb_resourceId := mb_resourceId b; mb_preId := mb_preId b; mb_createTime := mb_createTime b;
     mb_status := mb_status b; mb_endTime := mb_endTime b; mb_runningInContainer := mb_runningInContainer b;
     mb_dbInited := mb_dbInited b; mb_cacheEvents := mb_cacheEvents b; mb_eventIdSeq := mb_eventIdSeq b;
     mb_onFinish := scope |}.

(** ** The check factory and the tracker of a web node *)

(** Where a tracked build is: [Running] in the engine, [Ran] when [Run] has
    returned (with or without a panic) and the tracker still has its key,
    [Leaving] when the key is gone and the deferred function is next. *)
Inductive phase := Running | Ran (panicked : bool) | Leaving (panicked : bool).

(** [w_dropped] are the builds the tracker received and did not run. *)
Record web := {
  w_inFlightChecks : gset Z;
  w_checkBuildsChan : list CheckBuild;
  w_running : gset string;
  w_tracked : gmap nat (string * phase * CheckBuild);
  w_sequence : Z;
  w_planCounter : Z;
  w_db : CheckDB;
  w_dropped : list CheckBuild }.

Definition set_w_inFlight f (w : web) : web :=
  {| w_inFlightChecks := f (w_inFlightChecks w); w_checkBuildsChan := w_checkBuildsChan w; w_running := w_running w;
     w_tracked := w_tracked w; w_sequence := w_sequence w; w_planCounter := w_planCounter w; w_db := w_db w; w_dropped := w_dropped w |}.
Definition set_w_chan f (w : web) : web :=
  {| w_inFlightChecks := w_inFlightChecks w; w_checkBuildsChan := f (w_checkBuildsChan w); w_running := w_running w;
     w_tracked := w_tracked w; w_sequence := w_sequence w; w_planCounter := w_planCounter w; w_db := w_db w; w_dropped := w_dropped w |}.
Definition set_w_running f (w : web) : web :=
  {| w_inFlightChecks := w_inFlightChecks w; w_checkBuildsChan := w_checkBuildsChan w; w_running := f (w_running w);
     w_tracked := w_tracked w; w_sequence := w_sequence w; w_planCounter := w_planCounter w; w_db := w_db w; w_dropped := w_dropped w |}.
Definition set_w_tracked f (w : web) : web :=
  {| w_inFlightChecks := w_inFlightChecks w; w_checkBuildsChan := w_checkBuildsChan w; w_running := w_running w;
     w_tracked := f (w_tracked w); w_sequence := w_sequence w; w_planCounter := w_planCounter w; w_db := w_db w; w_dropped := w_dropped w |}.
Definition set_w_sequence n (w : web) : web :=
  {| w_inFlightChecks := w_inFlightChecks w; w_checkBuildsChan := w_checkBuildsChan w; w_running := w_running w;
     w_tracked := w_tracked w; w_sequence := n; w_planCounter := w_planCounter w; w_db := w_db w; w_dropped := w_dropped w |}.
Definition set_w_planCounter n (w : web) : web :=
  {| w_inFlightChecks := w_inFlightChecks w; w_checkBuildsChan := w_checkBuildsChan w; w_running := w_running w;
     w_tracked := w_tracked w; w_sequence := w_sequence w; w_planCounter := n; w_db := w_db w; w_dropped := w_dropped w |}.
Definition set_w_db db (w : web) : web :=
  {| w_inFlightChecks := w_inFlightChecks w; w_checkBuildsChan := w_checkBuildsChan w; w_running := w_running w;
     w_tracked := w_tracked w; w_sequence := w_sequence w; w_planCounter := w_planCounter w; w_db := db; w_dropped := w_dropped w |}.
Definition drop_build b (w : web) : web :=
  {| w_inFlightChecks := w_inFlightChecks w; w_checkBuildsChan := w_checkBuildsChan w; w_running := w_running w;
     w_tracked := w_tracked w; w_sequence := w_sequence w; w_planCounter := w_planCounter w; w_db := w_db w;
     w_dropped := b :: w_dropped w |}.

Inductive check_error := PlanFailed (e : plan_error) | NotInMemory.

Section Web.
Context `{PlannerWorld, !Intervals}.

(** [CreateInMemoryBuild] of a resource and of a resource type. *)
Definition CreateInMemoryBuild (now : Z) (c : Checkable) (sequence : Z) : option (CheckBuild * Z) :=
  if ckb_IsResourceType c then None
  else Some (newRunningInMemoryCheckBuild now (sequence + 1) c, sequence + 1).

(** The in-memory branch of [TryCreateCheck], which the scanner takes: a
    periodic check of a scope that is in flight is skipped.  The send to the
    channel waits for room, and the call is one step of the node. *)
Definition create_in_memory (now : Z) (c : Checkable) (manuallyTriggered : bool) (w : web)
    : outcome check_error bool * web :=
  let scopeID := ckb_ScopeID c in
  let tracked := negb manuallyTriggered && negb (scopeID =? 0) in
  if tracked && bool_decide (scopeID ∈ w_inFlightChecks w) then (Ret false, w)
  else
    match CreateInMemoryBuild now c (w_sequence w) with
    | None => (Fail NotInMemory, w)
    | Some (build, sequence) =>
        let w := set_w_sequence sequence w in
        let w := if tracked then set_w_inFlight (fun s => {[ scopeID ]} ∪ s) w else w in
        let toSend := if tracked then set_mb_onFinish (Some scopeID) build else build in
        (Ret true, set_w_chan (fun l => l ++ [toSend]) w)
    end.

(** [TryCreateCheck] with [toDB] false: whether a check was created. *)
Definition TryCreateCheck (fuel : nat) (now : Z) (c : Checkable) (types : list DBResourceType) (from : option Version)
    (manuallyTriggered skipIntervalRecursively : bool) (w : web) : outcome check_error bool * web :=
  match due_plan fuel now c types from manuallyTriggered skipIntervalRecursively (w_planCounter w) with
  | (Ret None, num) => (Ret false, set_w_planCounter num w)
  | (Ret (Some _), num) => create_in_memory now c manuallyTriggered (set_w_planCounter num w)
  | (Fail e, num) => (Fail (PlanFailed e), set_w_planCounter num w)
  | (Panic, num) => (Panic, set_w_planCounter num w)
  | (NoFuel, num) => (NoFuel, set_w_planCounter num w)
  end.

(** [scanner.check] *)
Definition scanner_check (fuel : nat) (now : Z) (c : Checkable) (types : list DBResourceType) (w : web) : web :=
  match ckb_CheckEvery c with
  | Some {| ce_Never := true |} => w
  | _ => (TryCreateCheck fuel now c types (ckb_PinnedVersion c) false false w).2
  end.
End Web.

(** [onFinishBuild.Finish]: the scope is no longer in flight, whatever the
    build's [Finish] returned. *)
Definition build_Finish (now : Z) (status : BuildStatus) (ans : list bool) (b : CheckBuild) (w : web) : CheckBuild * web :=
  let '(_, (b, db, _)) := mem_Finish now status (b, w_db w, ans) in
  let w := set_w_db db w in
  (b, match mb_onFinish b with Some scope => set_w_inFlight (fun s => s ∖ {[ scope ]}) w | None => w end).

(** [trackBuild]: the key of the build. *)
Definition track_key (b : CheckBuild) : string :=
  if negb (mb_id b =? 0) then "build-" +:+ pretty (mb_id b) else "resource-" +:+ pretty (mb_resourceId b).

(** [trackBuild] up to the goroutine it starts. *)
Definition trackBuild (g : nat) (b : CheckBuild) (w : web) : web :=
  let id := track_key b in
  if bool_decide (id ∈ w_running w) then drop_build b w
  else set_w_tracked (<[ g := (id, Running, b) ]>) (set_w_running (fun s => {[ id ]} ∪ s) w).

(** What happens to the build inside the engine: the answers of the lock and of
    the constructors, whether the node released it while the plan ran, and how
    the plan ended.  A build that was released has no result. *)
Inductive run_answer :=
| LockFailed
| LockTaken
| StepperFailed (err : error)
| VariablesFailed (err : error)
| Released
| StepDone (result : option step_result)
| RunPanics.

(** What the running step calls on the build. *)
Inductive step_call := CallStart | CallSaveEvent (ev : check_event).

Definition run_call (c : step_call) : Mem unit :=
  match c with CallStart => OnCheckBuildStart | CallSaveEvent ev => mem_SaveEvent ev end.

(** A step goes on or stops after a call that failed: its calls are the ones
    it makes. *)
Fixpoint run_calls (calls : list step_call) (st : MemState) : MemState :=
  match calls with
  | [] => st
  | c :: calls => run_calls calls (run_call c st).2
  end.

(** The result of a plan; a panic is an error. *)
Definition step_outcome (b : CheckBuild) (r : option step_result) : step_result :=
  match r with
  | Some r => r
  | None => (false, Some (PanicError ("panic in running build plan " +:+ pretty (mb_id b))))
  end.

(** [engineBuild.finish] of a check build: the reason of an error that is not
    an abort is saved as an event of the build first. *)
Definition engine_finish (err : option error) (succeeded : bool) (st : MemState) : MemState * BuildStatus :=
  let status := finish_status err succeeded in
  match err with
  | Some _ => (if bool_decide (status = BuildStatusAborted) then st else (mem_SaveEvent (EvOther "error") st).2, status)
  | None => (st, status)
  end.

Definition finish_build (now : Z) (err : option error) (succeeded : bool) (st : MemState) (w : web) : CheckBuild * web :=
  let '(b, db, ans, status) := engine_finish err succeeded st in
  build_Finish now status ans b (set_w_db db w).

(** [engineBuild.Run] of an in-memory build, which [Reload] always finds and
    which has no abort signal; a retriable error of a check ends it. *)
Definition engine_Run (now : Z) (a : run_answer) (calls : list step_call) (ans : list bool) (b : CheckBuild) (w : web)
    : CheckBuild * web :=
  match a with
  | LockFailed | LockTaken | RunPanics => (b, w)
  | _ =>
      if negb (mem_IsRunning b) then (b, w)
      else match a with
      | StepperFailed err | VariablesFailed err => finish_build now (Some err) false (b, w_db w, ans) w
      | StepDone r =>
          let st := run_calls calls (b, w_db w, ans) in
          let '(succeeded, err) := step_outcome st.1.1 r in finish_build now err succeeded st w
      | _ =>
          let st := run_calls calls (b, w_db w, ans) in
          finish_build now (Some (Raised OtherError "build released during drain")) false st w
      end
  end.

(** The deferred function of the goroutine. *)
Definition track_exit (now : Z) (panicked : bool) (ans : list bool) (b : CheckBuild) (w : web) : CheckBuild * web :=
  if panicked || mem_IsRunning b then build_Finish now BuildStatusErrored ans b w else (b, w).

(** ** The steps of a web node *)

Inductive web_event :=
| Scan (now : Z) (c : Checkable) (types : list DBResourceType)
| Receive (g : nat)
| EngineRuns (g : nat) (now : Z) (a : run_answer) (calls : list step_call) (ans : list bool)
| Untrack (g : nat)
| Exit (g : nat) (now : Z) (ans : list bool).

Definition panics (a : run_answer) : bool := match a with RunPanics => true | _ => false end.

Section Steps.
Context `{PlannerWorld, !Intervals} (fuel : nat).

Definition web_step (e : web_event) (w : web) : option web :=
  match e with
  | Scan now c types => Some (scanner_check fuel now c types w)
  | Receive g =>
      match w_checkBuildsChan w, w_tracked w !! g with
      | b :: builds, None => Some (trackBuild g b (set_w_chan (fun _ => builds) w))
      | _, _ => None
      end
  | EngineRuns g now a calls ans =>
      match w_tracked w !! g with
      | Some (id, Running, b) =>
          let '(b, w) := engine_Run now a calls ans b w in
          Some (set_w_tracked (<[ g := (id, Ran (panics a), b) ]>) w)
      | _ => None
      end
  | Untrack g =>
      match w_tracked w !! g with
      | Some (id, Ran panicked, b) =>
          Some (set_w_tracked (<[ g := (id, Leaving panicked, b) ]>) (set_w_running (fun s => s ∖ {[ id ]}) w))
      | _ => None
      end
  | Exit g now ans =>
      match w_tracked w !! g with
      | Some (id, Leaving panicked, b) =>
          let '(_, w) := track_exit now panicked ans b w in Some (set_w_tracked (delete g) w)
      | _ => None
      end
  end.

Fixpoint web_steps (es : list web_event) (w : web) : option web :=
  match es with
  | [] => Some w
  | e :: es => w ← web_step e w; web_steps es w
  end.
End Steps.

Definition started_web (db : CheckDB) : web :=
  {| w_inFlightChecks := ∅; w_checkBuildsChan := []; w_running := ∅; w_tracked := ∅; w_sequence := 0;
     w_planCounter := 0; w_db := db; w_dropped := [] |}.
