(* ===== verification/ChecksSpec.v ===== *)
(** * Correctness of the checks of a web node

    What holds of [Checks]: a scope is in flight only while a build of the node
    is going to clear it, except for a build the tracker dropped; a resource has
    at most one check in the engine; the chain of types of a checkable is finite
    when no type is its own ancestor. *)
From stdpp Require Import base gmap sets list strings pretty.
From Stdlib Require Import ZArith Lia.
From S2P Require Import Prelude Tables Vars Repository Parallel ExecWorld Exec Engine GoText Steps StepValidator Planner Checks.

Open Scope Z_scope.

(** ** What the calls on a build leave alone *)

Definition same_check (b b' : CheckBuild) : Prop :=
  mb_onFinish b' = mb_onFinish b /\ mb_resourceId b' = mb_resourceId b.

Definition same_life (st st' : MemState) : Prop :=
  same_check st.1.1 st'.1.1 /\ mb_endTime st'.1.1 = mb_endTime st.1.1.

#[global] Instance same_check_preorder : PreOrder same_check.
Proof.
  split; [by intros ?|]. intros x y z (H1 & H2) (H3 & H4). split; congruence.
Qed.

#[global] Instance same_life_preorder : PreOrder same_life.
Proof.
  split; [by intros ?; split|]. intros x y z (H1 & H2) (H3 & H4). split; [by etrans|congruence].
Qed.

Create HintDb life.
Definition lives {A} (m : Mem A) : Prop := tracks same_life m.

Lemma lives_ret {A} (a : A) : lives (mret a).
Proof. apply tracks_ret, _. Qed.

Lemma lives_bind {A B} (m : Mem A) (k : A -> Mem B) : lives m -> (forall a, lives (k a)) -> lives (m ≫= k).
Proof. apply tracks_bind, _. Qed.

Lemma lives_get : lives get_build.
Proof. intros [[b db] ans]. by split. Qed.

Lemma lives_set f :
  (forall b, same_check b (f b) /\ mb_endTime (f b) = mb_endTime b) -> lives (set_build f).
Proof. intros H [[b db] ans]. apply H. Qed.

Lemma lives_query {A} (f : CheckDB -> A * CheckDB) : lives (query f).
Proof.
  intros [[b db] ans]. unfold query. destruct ans as [|[] ans]; try by split.
  all: destruct (f db); by split.
Qed.

Lemma lives_exec f : lives (exec f).
Proof. apply lives_query. Qed.

Lemma lives_if {A} (c : bool) (m n : Mem A) : lives m -> lives n -> lives (if c then m else n).
Proof. by destruct c. Qed.

#[export] Hint Resolve lives_ret lives_bind lives_get lives_query lives_exec lives_if : life.
#[export] Hint Extern 1 (lives (set_build _)) => apply lives_set; by intros [] : life.

Lemma lives_tx (m : Mem unit) : lives m -> lives (in_tx m).
Proof.
  intros Hm [[b db] ans]. unfold in_tx.
  assert (H : lives (exec id ≫= fun _ => m ≫= fun _ => exec id)) by auto with life.
  specialize (H (b, db, ans)).
  destruct ((exec id ≫= fun _ => m ≫= fun _ => exec id) (b, db, ans)) as [r [[b' db'] ans']]. by destruct r.
Qed.

Lemma lives_saveEvent ev : lives (mem_saveEvent ev).
Proof. unfold mem_saveEvent. apply lives_bind; [apply lives_get|]. auto with life. Qed.

Lemma lives_cached evs : lives (save_cached evs).
Proof. induction evs; cbn; auto using lives_saveEvent with life. Qed.

Lemma lives_update b f : lives (update_resource b f).
Proof. unfold update_resource. auto with life. Qed.

#[export] Hint Resolve lives_tx lives_saveEvent lives_cached lives_update : life.

Lemma lives_init : lives init_once.
Proof.
  unfold init_once, initDbStuff. apply lives_bind; [apply lives_get|]. intros b.
  apply lives_if; [apply lives_ret|]. apply lives_bind; [apply lives_query|]. intros n.
  auto 10 with life.
Qed.

#[export] Hint Resolve lives_init : life.

Lemma lives_start : lives OnCheckBuildStart.
Proof. unfold OnCheckBuildStart, notify_bus. auto 10 with life. Qed.

Lemma lives_SaveEvent ev : lives (mem_SaveEvent ev).
Proof. unfold mem_SaveEvent, notify_bus. auto 10 with life. Qed.

Lemma lives_calls calls st : same_life st (run_calls calls st).
Proof.
  revert st. induction calls as [|c calls IH]; intros st; cbn; [done|].
  etrans; [|apply IH]. destruct c; cbn; [apply lives_start|apply lives_SaveEvent].
Qed.

(** ** The lives of the builds of a node *)

(** Whether the tracker or the engine is still going to finish a build. *)
Definition pending (ph : phase) (b : CheckBuild) : bool :=
  match ph with Running => true | Ran p | Leaving p => p || mem_IsRunning b end.

(** A scope that a build of the node is going to clear. *)
Definition owned (w : web) (s : Z) : Prop :=
  (exists b, b ∈ w_checkBuildsChan w /\ mb_onFinish b = Some s) \/
  (exists g id ph b, w_tracked w !! g = Some (id, ph, b) /\ mb_onFinish b = Some s /\ pending ph b = true).

(** [w'] is [w] with other tables and without the scopes [X] in flight. *)
Definition cleared (X : gset Z) (w w' : web) : Prop :=
  exists db, w' = set_w_inFlight (fun s => s ∖ X) (set_w_db db w).

Definition scope_of (b : CheckBuild) : gset Z := match mb_onFinish b with Some s => {[ s ]} | None => ∅ end.

Definition same_id (st st' : MemState) : Prop := same_check st.1.1 st'.1.1.

#[global] Instance same_id_preorder : PreOrder same_id.
Proof. split; [by intros ?|]. intros x y z H1 H2. unfold same_id in *. by etrans. Qed.

Lemma lives_same {A} (m : Mem A) : lives m -> tracks same_id m.
Proof. intros H st. apply H. Qed.

Lemma tracked_Finish now status : tracks same_id (mem_Finish now status).
Proof.
  unfold mem_Finish. apply (tracks_bind _); [apply lives_same, lives_get|]. intros b.
  destruct (negb _ && _); [apply (tracks_ret _)|].
  apply (tracks_bind _); [by intros [[b1 db] ans]|]. intros _. apply lives_same. unfold notify_bus. auto 12 with life.
Qed.

Lemma build_Finish_clears now status ans b w b' w' :
  build_Finish now status ans b w = (b', w') -> same_check b b' /\ cleared (scope_of b) w w'.
Proof.
  unfold build_Finish. pose proof (tracked_Finish now status (b, w_db w, ans)) as Hs.
  destruct (mem_Finish now status (b, w_db w, ans)) as [r [[b1 db] ans1]].
  change (same_check b b1) in Hs.
  intros [= <- <-]. split; [done|]. unfold cleared, scope_of. rewrite (proj1 Hs).
  destruct (mb_onFinish b); [by exists db|]. exists db. destruct w. unfold set_w_inFlight, set_w_db. cbn.
  f_equal. set_solver.
Qed.

Lemma cleared_db X db w w' : cleared X (set_w_db db w) w' -> cleared X w w'.
Proof. intros [db' ->]. by exists db'. Qed.

Lemma finish_build_clears now err succeeded st w b' w' :
  finish_build now err succeeded st w = (b', w') -> same_check st.1.1 b' /\ cleared (scope_of st.1.1) w w'.
Proof.
  unfold finish_build. destruct (engine_finish err succeeded st) as [[[b db] ans] status] eqn:E. intros HF.
  apply build_Finish_clears in HF as [Hs Hc]. apply cleared_db in Hc.
  assert (H : same_check st.1.1 b).
  { unfold engine_finish in E. destruct err; [|by injection E as ->].
    case_bool_decide; [by injection E as ->|]. injection E as E _.
    pose proof (lives_SaveEvent (EvOther "error") st) as [Hev _]. by rewrite E in Hev. }
  split; [by etrans|]. unfold scope_of in *. by rewrite (proj1 H) in Hc.
Qed.

(** What a run of the engine does to the node: it leaves it, or it finishes the
    build. *)
Lemma engine_Run_effect now a calls ans b w b' w' :
  engine_Run now a calls ans b w = (b', w') ->
  same_check b b' /\ (b' = b /\ w' = w \/ cleared (scope_of b) w w').
Proof.
  assert (Hcalls : same_check b (run_calls calls (b, w_db w, ans)).1.1) by apply lives_calls.
  assert (Hscope : scope_of (run_calls calls (b, w_db w, ans)).1.1 = scope_of b)
    by (unfold scope_of; by rewrite (proj1 Hcalls)).
  unfold engine_Run. intros HE.
  destruct a, (mem_IsRunning b); cbn [negb] in HE; try (injection HE as <- <-; split; [done|by left]).
  4: destruct (step_outcome _ _) as [succeeded err].
  all: apply finish_build_clears in HE as [Hs Hc].
  all: rewrite ?Hscope in Hc; split; [first [exact Hs | etrans; [exact Hcalls|exact Hs]]|by right].
Qed.

(** ** A scope in flight has a build that clears it *)

Section Node.
Context `{PlannerWorld, !Intervals} (fuel : nat).

(** The build a scan sends. *)
Definition scanned (now : Z) (c : Checkable) (w : web) : CheckBuild :=
  let b := newRunningInMemoryCheckBuild now (w_sequence w + 1) c in
  if ckb_ScopeID c =? 0 then b else set_mb_onFinish (Some (ckb_ScopeID c)) b.

Definition sent (num : Z) (b : CheckBuild) (w : web) : web :=
  set_w_chan (fun l => l ++ [b])
    (set_w_inFlight (fun s => scope_of b ∪ s) (set_w_sequence (w_sequence w + 1) (set_w_planCounter num w))).

(** What a scan does: nothing but to a counter, or one build is sent. *)
Lemma scan_effect now c types w :
  exists num, scanner_check fuel now c types w = set_w_planCounter num w \/
    (ckb_ScopeID c = 0 \/ ckb_ScopeID c ∉ w_inFlightChecks w) /\
    scanner_check fuel now c types w = sent num (scanned now c w) w.
Proof.
  unfold scanner_check. destruct (ckb_CheckEvery c) as [[[] iv]|].
  { exists (w_planCounter w). left. by destruct w. }
  all: unfold TryCreateCheck; destruct (due_plan _ _ _ _ _ _ _ _) as [[[plan|]|e| |] num]; try (exists num; by left).
  all: exists num; unfold create_in_memory, CreateInMemoryBuild, scanned, sent, scope_of; cbn [andb negb].
  all: destruct (Z.eqb_spec (ckb_ScopeID c) 0) as [Es|Es]; cbn [andb negb]; [|case_bool_decide as Hin; [by left|]].
  all: destruct (ckb_IsResourceType c); [by left|right].
  all: split; [by auto|]; cbn; try reflexivity.
  all: destruct w; unfold set_w_chan, set_w_inFlight; cbn; f_equal; set_solver.
Qed.
(** Every build that waits or runs is unfinished, and every scope in flight is
    owned or was lost with a build the tracker dropped. *)
Definition lost (w : web) (s : Z) : Prop := exists b, b ∈ w_dropped w /\ mb_onFinish b = Some s.

Record node_ok (w : web) : Prop := {
  ok_chan : forall b, b ∈ w_checkBuildsChan w -> mb_endTime b = None;
  ok_running : forall g id b, w_tracked w !! g = Some (id, Running, b) -> mb_endTime b = None;
  ok_flight : forall s, s ∈ w_inFlightChecks w -> owned w s \/ lost w s }.

Lemma scope_of_elem b s : s ∈ scope_of b <-> mb_onFinish b = Some s.
Proof. unfold scope_of. destruct (mb_onFinish b); set_solver. Qed.

Lemma scan_ok now c types w : node_ok w -> node_ok (scanner_check fuel now c types w).
Proof.
  intros [Hc Hr Hf]. destruct (scan_effect now c types w) as [num [->|[_ ->]]]; [by split|].
  assert (He : mb_endTime (scanned now c w) = None) by (unfold scanned; by destruct (_ =? _)).
  split; [|exact Hr|].
  - cbn. intros b [Hb|Hb%list_elem_of_singleton]%elem_of_app; [auto|by subst].
  - cbn. intros s [Hs%scope_of_elem|Hs]%elem_of_union.
    + left. left. exists (scanned now c w). split; [cbn; set_solver|done].
    + destruct (Hf s Hs) as [[(b & Hb & E)|Ho]|Hl]; [|left; by right|by right].
      left. left. exists b. split; [cbn; set_solver|done].
Qed.

Lemma receive_ok g b builds w :
  node_ok w -> w_checkBuildsChan w = b :: builds -> w_tracked w !! g = None ->
  node_ok (trackBuild g b (set_w_chan (fun _ => builds) w)).
Proof.
  intros [Hc Hr Hf] Ec Eg. rewrite Ec in Hc. unfold trackBuild. cbn.
  assert (Hc' : forall b', b' ∈ builds -> mb_endTime b' = None) by (intros b' Hb; apply Hc; by right).
  case_bool_decide as Hin.
  - split; cbn; [exact Hc'|exact Hr|]. intros s Hs. destruct (Hf s Hs) as [[(b' & Hb & E)|Ho]|(b' & Hb & E)].
    + rewrite Ec in Hb. apply elem_of_cons in Hb as [->|Hb].
      * right. exists b. split; [cbn; set_solver|done].
      * left. left. by exists b'.
    + left. by right.
    + right. exists b'. split; [cbn; set_solver|done].
  - split; cbn; [exact Hc'| |].
    + intros g' id b'. destruct (decide (g = g')) as [<-|Hne].
      * rewrite lookup_insert_eq. intros [= <- <-]. apply Hc. by left.
      * rewrite lookup_insert_ne by done. apply Hr.
    + intros s Hs. destruct (Hf s Hs) as [[(b' & Hb & E)|(g' & id & ph & b' & Hg & E)]|Hl]; [| |by right].
      * rewrite Ec in Hb. apply elem_of_cons in Hb as [->|Hb]; left; [right|left; by exists b'].
        exists g, (track_key b), Running, b. cbn. by rewrite lookup_insert_eq.
      * left. right. exists g', id, ph, b'. cbn. rewrite lookup_insert_ne by congruence. done.
Qed.

(** A goroutine that moves to its next phase: [X] are the scopes it clears. *)
Lemma move_ok g id ph b ph' b' X w w' :
  node_ok w -> w_tracked w !! g = Some (id, ph, b) -> same_check b b' -> cleared X w w' ->
  ph' <> Running -> (pending ph b = true -> pending ph' b' = true \/ X = scope_of b) ->
  node_ok (set_w_tracked (<[ g := (id, ph', b') ]>) w').
Proof.
  intros [Hc Hr Hf] Eg Hs [db ->] Hph HX. split; [exact Hc| |].
  - intros g' id' b1. cbn. destruct (decide (g = g')) as [<-|Hne].
    + rewrite lookup_insert_eq. congruence.
    + rewrite lookup_insert_ne by done. apply Hr.
  - cbn. intros s [Hin HnX]%elem_of_difference.
    destruct (Hf s Hin) as [[(b1 & Hb & E)|(g' & id' & ph1 & b1 & Hg & E & Hp)]|Hl]; [left; left; by exists b1| |by right].
    left. right. destruct (decide (g = g')) as [<-|Hne].
    + rewrite Eg in Hg. injection Hg as <- <- <-. destruct (HX Hp) as [Hp'| ->].
      * exists g, id, ph', b'. cbn. rewrite lookup_insert_eq. split; [done|]. by rewrite (proj1 Hs).
      * by apply scope_of_elem in E.
    + exists g', id', ph1, b1. cbn. by rewrite lookup_insert_ne.
Qed.
Lemma cleared_refl w : cleared ∅ w w.
Proof. exists (w_db w). destruct w. unfold set_w_inFlight, set_w_db. cbn. f_equal. set_solver. Qed.

Lemma exit_effect now p ans b w b' w' :
  track_exit now p ans b w = (b', w') ->
  cleared (if pending (Leaving p) b then scope_of b else ∅) w w'.
Proof.
  unfold track_exit. cbn [pending]. destruct (p || mem_IsRunning b); intros HE.
  - by apply build_Finish_clears in HE as [_ Hc].
  - injection HE as _ <-. apply cleared_refl.
Qed.

Lemma exit_ok g id p b X w w' :
  node_ok w -> w_tracked w !! g = Some (id, Leaving p, b) -> cleared X w w' ->
  X = (if pending (Leaving p) b then scope_of b else ∅) ->
  node_ok (set_w_tracked (delete g) w').
Proof.
  intros [Hc Hr Hf] Eg [db ->] HX. split; [exact Hc| |].
  - intros g' id' b1. cbn. rewrite lookup_delete_Some. intros [_ Hg]. by eapply Hr.
  - cbn. intros s [Hin HnX]%elem_of_difference.
    destruct (Hf s Hin) as [[(b1 & Hb & E)|(g' & id' & ph1 & b1 & Hg & E & Hp)]|Hl]; [left; left; by exists b1| |by right].
    left. right. exists g', id', ph1, b1. cbn. rewrite lookup_delete_Some. split; [split; [|done]|done].
    intros <-. rewrite Eg in Hg. injection Hg as <- <- <-. apply HnX. rewrite HX, Hp. by apply scope_of_elem.
Qed.

Lemma step_ok e w w' : node_ok w -> web_step fuel e w = Some w' -> node_ok w'.
Proof.
  intros Hok. destruct e as [now c types|g|g now a calls ans|g|g now ans]; cbn.
  - intros [= <-]. by apply scan_ok.
  - destruct (w_checkBuildsChan w) eqn:Ec; [done|]. destruct (w_tracked w !! g) eqn:Eg; [done|].
    intros [= <-]. by apply receive_ok.
  - destruct (w_tracked w !! g) as [[[id []] b]|] eqn:Eg; try done.
    destruct (engine_Run now a calls ans b w) as [b' w1] eqn:ER. intros [= <-].
    pose proof (ok_running w Hok g id b Eg) as He.
    apply engine_Run_effect in ER as [Hs [[-> ->]|Hcl]].
    + eapply (move_ok g id Running b _ b ∅); try done; [apply cleared_refl|].
      intros _. left. cbn. unfold mem_IsRunning. by rewrite He, orb_true_r.
    + eapply (move_ok g id Running b _ b'); try done. by right.
  - destruct (w_tracked w !! g) as [[[id [|p|]] b]|] eqn:Eg; try done. intros [= <-].
    apply (move_ok g id (Ran p) b (Leaving p) b ∅ (set_w_running (fun s => s ∖ {[ id ]}) w));
      [by destruct Hok; split|done|done|apply cleared_refl|done|by left].
  - destruct (w_tracked w !! g) as [[[id [| |p]] b]|] eqn:Eg; try done.
    destruct (track_exit now p ans b w) as [b' w1] eqn:ET. intros [= <-].
    eapply exit_ok; [done..|by eapply exit_effect|done].
Qed.

Lemma steps_ok es w w' : node_ok w -> web_steps fuel es w = Some w' -> node_ok w'.
Proof.
  revert w. induction es as [|e es IH]; intros w Hok; cbn; [by intros [= <-]|].
  destruct (web_step fuel e w) as [w1|] eqn:E; [|done]. apply IH. by eapply step_ok.
Qed.

Lemma started_ok db : node_ok (started_web db).
Proof. split; cbn; intros; [set_solver|done|set_solver]. Qed.
(** C17: At every moment of a web node, a scope that is in flight has a build that
    waits for the tracker, runs, or is about to be finished, and that clears it;
    the exceptions are scopes of builds the tracker dropped.  A node that has
    run all its checks and dropped none has no scope in flight. *)
Theorem in_flight_is_owned db es w :
  web_steps fuel es (started_web db) = Some w ->
  (forall s, s ∈ w_inFlightChecks w -> owned w s \/ lost w s) /\
  (w_checkBuildsChan w = [] -> w_tracked w = ∅ -> w_dropped w = [] -> w_inFlightChecks w = ∅).
Proof.
  intros Hw. apply steps_ok in Hw as [_ _ Hf]; [|apply started_ok]. split; [exact Hf|].
  intros Ec Et Ed. apply set_eq. intros s. split; [|set_solver]. intros Hs.
  destruct (Hf s Hs) as [[(b & Hb & _)|(g & id & ph & b & Hg & _)]|(b & Hb & _)].
  - rewrite Ec in Hb. set_solver.
  - by rewrite Et in Hg.
  - rewrite Ed in Hb. set_solver.
Qed.

(** ** A tracked check ends *)

Lemma cleared_gone X w w' s : cleared X w w' -> s ∈ X -> s ∉ w_inFlightChecks w'.
Proof. intros [db ->]. cbn. set_solver. Qed.

Lemma cleared_tracked X w w' : cleared X w w' -> w_tracked w' = w_tracked w.
Proof. by intros [db ->]. Qed.

Lemma cleared_running X w w' : cleared X w w' -> w_running w' = w_running w.
Proof. by intros [db ->]. Qed.

Lemma cleared_mono X w w' s : cleared X w w' -> s ∉ w_inFlightChecks w -> s ∉ w_inFlightChecks w'.
Proof. intros [db ->]. cbn. set_solver. Qed.

(** After a run, the build is to be finished or its scope is not in flight. *)
Lemma run_leaves now a calls ans b w b1 w1 s :
  mb_endTime b = None -> mb_onFinish b = Some s -> engine_Run now a calls ans b w = (b1, w1) ->
  mb_onFinish b1 = Some s /\ w_tracked w1 = w_tracked w /\ w_running w1 = w_running w /\
  (pending (Leaving (panics a)) b1 = true \/ s ∉ w_inFlightChecks w1).
Proof.
  intros He Eb HR. apply engine_Run_effect in HR as [Hs [[-> ->]|Hc]].
  - cbn [pending]. unfold mem_IsRunning. rewrite He, orb_true_r. auto.
  - rewrite (proj1 Hs), (cleared_tracked _ _ _ Hc), (cleared_running _ _ _ Hc).
    split_and!; try done. right. eapply cleared_gone; [exact Hc|]. by apply scope_of_elem.
Qed.

(** C27: A check that is in the engine clears its scope and leaves the tracker,
    whatever the lock, the step and every statement of the database answer. *)
Theorem tracked_check_clears db es w g id b s :
  web_steps fuel es (started_web db) = Some w ->
  w_tracked w !! g = Some (id, Running, b) -> mb_onFinish b = Some s ->
  forall now a calls ans now' ans',
  exists w', web_steps fuel [EngineRuns g now a calls ans; Untrack g; Exit g now' ans'] w = Some w' /\
    (s ∉ w_inFlightChecks w') /\ (id ∉ w_running w') /\ w_tracked w' !! g = None.
Proof.
  intros Hw Eg Eb now a calls ans now' ans'. apply steps_ok in Hw; [|apply started_ok].
  pose proof (ok_running w Hw g id b Eg) as He.
  destruct (engine_Run now a calls ans b w) as [b1 w1] eqn:ER.
  destruct (run_leaves _ _ _ _ _ _ _ _ _ He Eb ER) as (Eb1 & Et & Er & Hs).
  set (w2 := set_w_tracked (<[ g := (id, Leaving (panics a), b1) ]>)
    (set_w_running (fun s => (s ∖ {[ id ]})) (set_w_tracked (<[ g := (id, Ran (panics a), b1) ]>) w1))).
  destruct (track_exit now' (panics a) ans' b1 w2) as [b2 w3] eqn:EX.
  pose proof (exit_effect _ _ _ _ _ _ _ EX) as Hc.
  exists (set_w_tracked (delete g) w3).
  cbn -[track_exit engine_Run]. rewrite Eg, ER. cbn -[track_exit]. rewrite lookup_insert_eq. cbn -[track_exit].
  rewrite lookup_insert_eq. fold w2. rewrite EX. split; [done|]. split_and!.
  - cbn. destruct Hs as [Hp|Hn]; [|by eapply cleared_mono].
    rewrite Hp in Hc. eapply cleared_gone; [exact Hc|]. by apply scope_of_elem.
  - cbn. rewrite (cleared_running _ _ _ Hc). cbn. set_solver.
  - cbn. apply lookup_delete_eq.
Qed.

(** ** One check of a resource at a time *)

Definition in_tracker (ph : phase) : bool := match ph with Leaving _ => false | _ => true end.

(** A goroutine of the tracker holds the key of its resource, alone. *)
Record keys_ok (w : web) : Prop := {
  keys_chan : forall b, b ∈ w_checkBuildsChan w -> mb_id b = 0;
  keys_held : forall g id ph b, w_tracked w !! g = Some (id, ph, b) -> in_tracker ph = true ->
    id = "resource-" +:+ pretty (mb_resourceId b) /\ id ∈ w_running w;
  keys_alone : forall g g' id ph b ph' b',
    w_tracked w !! g = Some (id, ph, b) -> w_tracked w !! g' = Some (id, ph', b') ->
    in_tracker ph = true -> in_tracker ph' = true -> g = g' }.

Lemma keys_scan now c types w : keys_ok w -> keys_ok (scanner_check fuel now c types w).
Proof.
  intros [Hc Hh Ha]. destruct (scan_effect now c types w) as [num [->|[_ ->]]]; split; try done.
  cbn. intros b [Hb|Hb%list_elem_of_singleton]%elem_of_app; [auto|subst]. unfold scanned. by destruct (_ =? _).
Qed.

Lemma keys_receive g b builds w :
  keys_ok w -> w_checkBuildsChan w = b :: builds ->
  keys_ok (trackBuild g b (set_w_chan (fun _ => builds) w)).
Proof.
  intros [Hc Hh Ha] Ec. rewrite Ec in Hc.
  assert (Hc' : forall b', b' ∈ builds -> mb_id b' = 0) by (intros b' Hb; apply Hc; by right).
  assert (Ek : track_key b = "resource-" +:+ pretty (mb_resourceId b))
    by (unfold track_key; by rewrite (Hc b (list_elem_of_here _ _))).
  unfold trackBuild. cbn. case_bool_decide as Hin; [by split|]. split; cbn; [done| |].
  - intros g' id ph b'. destruct (decide (g = g')) as [<-|Hne].
    + rewrite lookup_insert_eq. intros [= <- <- <-] _. split; [done|set_solver].
    + rewrite lookup_insert_ne by done. intros Hg Hp. destruct (Hh _ _ _ _ Hg Hp). split; [done|set_solver].
  - intros g1 g2 id ph1 b1 ph2 b2. destruct (decide (g = g1)) as [<-|Hne1], (decide (g = g2)) as [<-|Hne2];
      rewrite ?lookup_insert_eq, ?lookup_insert_ne by done; intros H1 H2 Hp1 Hp2; [done| | |by eapply Ha].
    + injection H1 as <- <- <-. by destruct (Hh _ _ _ _ H2 Hp2).
    + injection H2 as <- <- <-. by destruct (Hh _ _ _ _ H1 Hp1).
Qed.

(** A goroutine that moves on, and may give its key back. *)
Lemma keys_move g id ph b ph' b' R w w' :
  keys_ok w -> w_tracked w !! g = Some (id, ph, b) -> in_tracker ph = true -> same_check b b' ->
  w_checkBuildsChan w' = w_checkBuildsChan w -> w_tracked w' = <[ g := (id, ph', b') ]> (w_tracked w) ->
  w_running w' = w_running w ∖ R -> R = (if in_tracker ph' then ∅ else {[ id ]}) -> keys_ok w'.
Proof.
  intros [Hc Hh Ha] Eg Hph Hs Ec Et Er HR. split; rewrite ?Ec, ?Et, ?Er; [done| |].
  - intros g1 id1 ph1 b1. destruct (decide (g = g1)) as [<-|Hne].
    + rewrite lookup_insert_eq. intros [= <- <- <-] Hp. rewrite Hp in HR.
      destruct (Hh _ _ _ _ Eg Hph) as [-> Hin]. rewrite (proj2 Hs). split; [done|set_solver].
    + rewrite lookup_insert_ne by done. intros Hg Hp. destruct (Hh _ _ _ _ Hg Hp) as [-> Hin]. split; [done|].
      apply elem_of_difference. split; [done|]. rewrite HR. destruct (in_tracker ph'); [set_solver|].
      intros Hid%elem_of_singleton. apply Hne. rewrite Hid in Hg. by eapply Ha.
  - intros g1 g2 id1 ph1 b1 ph2 b2. destruct (decide (g = g1)) as [<-|Hne1], (decide (g = g2)) as [<-|Hne2];
      rewrite ?lookup_insert_eq, ?lookup_insert_ne by done; intros H1 H2 Hp1 Hp2; [done| | |by eapply Ha].
    + injection H1 as <- <- <-. by eapply Ha.
    + injection H2 as <- <- <-. by eapply Ha.
Qed.

Lemma keys_step e w w' : keys_ok w -> web_step fuel e w = Some w' -> keys_ok w'.
Proof.
  intros Hok. destruct e as [now c types|g|g now a calls ans|g|g now ans]; cbn.
  - intros [= <-]. by apply keys_scan.
  - destruct (w_checkBuildsChan w) eqn:Ec; [done|]. destruct (w_tracked w !! g) eqn:Eg; [done|].
    intros [= <-]. by apply keys_receive.
  - destruct (w_tracked w !! g) as [[[id []] b]|] eqn:Eg; try done.
    destruct (engine_Run now a calls ans b w) as [b' w1] eqn:ER. intros [= <-].
    apply engine_Run_effect in ER as [Hs Hw].
    eapply (keys_move g id Running b (Ran (panics a)) b' ∅); try done;
      destruct Hw as [[-> ->]|[db ->]]; cbn; try done; by rewrite difference_empty_L.
  - destruct (w_tracked w !! g) as [[[id [|p|]] b]|] eqn:Eg; try done. intros [= <-].
    by apply (keys_move g id (Ran p) b (Leaving p) b {[ id ]} w).
  - destruct (w_tracked w !! g) as [[[id [| |p]] b]|] eqn:Eg; try done.
    destruct (track_exit now p ans b w) as [b' w1] eqn:ET. intros [= <-].
    apply exit_effect in ET as [db ->]. destruct Hok as [Hc Hh Ha]. split; cbn; [done| |].
    + intros g1 id1 ph1 b1 [_ Hg]%lookup_delete_Some. by eapply Hh.
    + intros g1 g2 id1 ph1 b1 ph2 b2 [_ H1]%lookup_delete_Some [_ H2]%lookup_delete_Some. by eapply Ha.
Qed.

Lemma keys_steps es w w' : keys_ok w -> web_steps fuel es w = Some w' -> keys_ok w'.
Proof.
  revert w. induction es as [|e es IH]; intros w Hok; cbn; [by intros [= <-]|].
  destruct (web_step fuel e w) as [w1|] eqn:E; [|done]. apply IH. by eapply keys_step.
Qed.

Lemma keys_started db : keys_ok (started_web db).
Proof. split; cbn; intros; [set_solver|done|done]. Qed.

(** The tracker runs at most one check of a resource at a time, whatever scopes
    and however many builds the scanner creates for it. *)
Theorem one_check_per_resource db es w g g' id id' b b' :
  web_steps fuel es (started_web db) = Some w ->
  w_tracked w !! g = Some (id, Running, b) -> w_tracked w !! g' = Some (id', Running, b') ->
  mb_resourceId b = mb_resourceId b' -> g = g'.
Proof.
  intros Hw Hg Hg' Er. apply keys_steps in Hw as [_ Hh Ha]; [|apply keys_started].
  destruct (Hh _ _ _ _ Hg eq_refl) as [-> _], (Hh _ _ _ _ Hg' eq_refl) as [-> _]. rewrite <- Er in Hg'. by eapply Ha.
Qed.

(** ** A scope nobody clears *)

Record stuck (w : web) (s : Z) : Prop := {
  stuck_flight : s ∈ w_inFlightChecks w;
  stuck_chan : forall b, b ∈ w_checkBuildsChan w -> mb_onFinish b <> Some s;
  stuck_tracked : forall g id ph b, w_tracked w !! g = Some (id, ph, b) -> mb_onFinish b <> Some s }.

Lemma stuck_scan now c types w s : stuck w s -> stuck (scanner_check fuel now c types w) s.
Proof.
  intros [Hf Hc Ht]. destruct (scan_effect now c types w) as [num [->|[Hs ->]]]; split; try done; cbn; [set_solver|].
  intros b [Hb|Hb%list_elem_of_singleton]%elem_of_app; [auto|subst]. unfold scanned.
  destruct (Z.eqb_spec (ckb_ScopeID c) 0); [done|]. cbn. intros [= <-]. naive_solver.
Qed.

Lemma stuck_insert g id ph b X w w' s :
  stuck w s -> cleared X w w' -> X = scope_of b \/ X = ∅ -> mb_onFinish b <> Some s ->
  stuck (set_w_tracked (<[ g := (id, ph, b) ]>) w') s.
Proof.
  intros [Hf Hc Ht] [db ->] HX Hb. split; [|done|]; cbn.
  - apply elem_of_difference. split; [done|]. destruct HX as [->| ->]; [by rewrite scope_of_elem|set_solver].
  - intros g1 id1 ph1 b1. destruct (decide (g = g1)) as [<-|Hne].
    + rewrite lookup_insert_eq. by intros [= <- <- <-].
    + rewrite lookup_insert_ne by done. apply Ht.
Qed.

Lemma stuck_step e w w' s : stuck w s -> web_step fuel e w = Some w' -> stuck w' s.
Proof.
  intros Hst. pose proof Hst as [Hf Hc Ht]. destruct e as [now c types|g|g now a calls ans|g|g now ans]; cbn.
  - intros [= <-]. by apply stuck_scan.
  - destruct (w_checkBuildsChan w) as [|b builds] eqn:Ec; [done|]. destruct (w_tracked w !! g) eqn:Eg; [done|].
    intros [= <-]. unfold trackBuild. cbn.
    assert (Hc' : forall b', b' ∈ builds -> mb_onFinish b' <> Some s) by (intros b' Hb; apply Hc; by right).
    case_bool_decide; [by split|].
    apply (stuck_insert _ _ _ _ ∅ (set_w_running (fun s => {[ track_key b ]} ∪ s) (set_w_chan (fun _ => builds) w)));
      [by split|apply cleared_refl|by right|]. apply Hc. by left.
  - destruct (w_tracked w !! g) as [[[id []] b]|] eqn:Eg; try done.
    destruct (engine_Run now a calls ans b w) as [b' w1] eqn:ER. intros [= <-].
    apply engine_Run_effect in ER as [Hs Hw]. pose proof (Ht _ _ _ _ Eg) as Hb.
    assert (Hsc : scope_of b' = scope_of b) by (unfold scope_of; by rewrite (proj1 Hs)).
    destruct Hw as [[-> ->]|Hcl]; [apply (stuck_insert _ _ _ _ ∅ w); [done|apply cleared_refl|by right|done]|].
    apply (stuck_insert _ _ _ _ (scope_of b) w); [done|done|by left|by rewrite (proj1 Hs)].
  - destruct (w_tracked w !! g) as [[[id [|p|]] b]|] eqn:Eg; try done. intros [= <-].
    apply (stuck_insert _ _ _ _ ∅ (set_w_running (fun s => (s ∖ {[ id ]})) w));
      [by split|apply cleared_refl|by right|by eapply Ht].
  - destruct (w_tracked w !! g) as [[[id [| |p]] b]|] eqn:Eg; try done.
    destruct (track_exit now p ans b w) as [b' w1] eqn:ET. intros [= <-].
    apply exit_effect in ET as [db ->]. split; cbn; [|done|].
    + apply elem_of_difference. split; [done|]. pose proof (Ht _ _ _ _ Eg) as Hb.
      rewrite <- scope_of_elem in Hb. destruct (p || mem_IsRunning b); [done|set_solver].
    + intros g1 id1 ph1 b1 [_ Hg]%lookup_delete_Some. by eapply Ht.
Qed.

Lemma stuck_steps es w w' s : stuck w s -> web_steps fuel es w = Some w' -> stuck w' s.
Proof.
  revert w. induction es as [|e es IH]; intros w Hok; cbn; [by intros [= <-]|].
  destruct (web_step fuel e w) as [w1|] eqn:E; [|done]. apply IH. by eapply stuck_step.
Qed.

Lemma stuck_no_check now c types from skip w s :
  stuck w s -> ckb_ScopeID c = s -> s <> 0 -> (TryCreateCheck fuel now c types from false skip w).1 <> Ret true.
Proof.
  intros [Hf _ _] <- Hs. unfold TryCreateCheck. destruct (due_plan _ _ _ _ _ _ _ _) as [[[plan|]|e| |] num]; try done.
  unfold create_in_memory. apply Z.eqb_neq in Hs. rewrite Hs. cbn [andb negb]. by rewrite bool_decide_true by done.
Qed.
End Node.

(** ** The types of a checkable *)

Lemma Filter_mono fuel fuel' types c l :
  Filter_from fuel types c = Some l -> (length l < fuel')%nat -> Filter_from fuel' types c = Some l.
Proof.
  revert fuel' c l. induction fuel as [|fuel IH]; intros fuel' c l; cbn; [done|].
  destruct fuel' as [|fuel']; [lia|]. cbn. destruct (Parent types c) as [t|]; [|done].
  destruct (Filter_from fuel types (dt_checkable t)) as [l'|] eqn:E; [|done]. cbn. intros [= <-] Hl. cbn in Hl.
  by rewrite (IH fuel' _ _ E ltac:(lia)).
Qed.

Lemma Filter_length fuel types c l : Filter_from fuel types c = Some l -> (length l < fuel)%nat.
Proof.
  revert c l. induction fuel as [|fuel IH]; intros c l; cbn; [done|]. destruct (Parent types c) as [t|].
  - destruct (Filter_from fuel types (dt_checkable t)) as [l'|] eqn:E; [|done]. cbn. intros [= <-]. cbn.
    specialize (IH _ _ E). lia.
  - intros [= <-]. cbn. lia.
Qed.

Lemma Filter_unique fuel fuel' types c l l' :
  Filter_from fuel types c = Some l -> Filter_from fuel' types c = Some l' -> l = l'.
Proof.
  intros H1 H2. apply (Filter_mono _ (S (max (length l) (length l')))) in H1; [|lia].
  apply (Filter_mono _ (S (max (length l) (length l')))) in H2; [|lia]. congruence.
Qed.

(** From a type of the chain, the chain goes on. *)
Lemma Filter_suffix fuel types c l t :
  Filter_from fuel types c = Some l -> t ∈ l ->
  t ∈ types /\ exists l', Filter_from fuel types (dt_checkable t) = Some l' /\ (length l' < length l)%nat.
Proof.
  revert c l. induction fuel as [|fuel IH]; intros c l; cbn -[Parent]; [done|].
  destruct (Parent types c) as [t0|] eqn:Ep; [|by intros [= <-] ?%elem_of_nil].
  destruct (Filter_from fuel types (dt_checkable t0)) as [l0|] eqn:E; [|done]. cbn -[Parent]. intros [= <-] Ht.
  apply elem_of_cons in Ht as [->|Ht].
  - split. { unfold Parent in Ep. apply head_Some_elem_of, list_elem_of_filter in Ep. tauto. }
    exists l0. split; [|cbn; lia].
    apply (Filter_mono fuel (S fuel)); [done|]. apply Filter_length in E. lia.
  - destruct (IH _ _ E Ht) as (Hin & l' & El & Hl). split; [done|]. exists l'. split; [|cbn; lia].
    apply (Filter_mono fuel (S fuel)); [done|]. apply Filter_length in El. lia.
Qed.

Lemma Filter_NoDup fuel types c l : Filter_from fuel types c = Some l -> NoDup l.
Proof.
  revert c l. induction fuel as [|fuel IH]; intros c l; cbn; [done|].
  destruct (Parent types c) as [t|]; [|intros [= <-]; constructor].
  destruct (Filter_from fuel types (dt_checkable t)) as [l0|] eqn:E; [|done]. cbn. intros [= <-].
  constructor; [|by eapply IH]. intros Ht. destruct (Filter_suffix _ _ _ _ _ E Ht) as (_ & l' & El & Hl).
  pose proof (Filter_unique _ _ _ _ _ _ E El). subst. lia.
Qed.

(** When [Filter] returns, it returns after at most one step per type, with
    distinct types of the pipeline: the chain of a checkable is read to its end. *)
Theorem Filter_bounded fuel types c l :
  Filter_from fuel types c = Some l ->
  NoDup l /\ (forall t, t ∈ l -> t ∈ types) /\
  forall fuel', (length types < fuel')%nat -> Filter_from fuel' types c = Some l.
Proof.
  intros HF. pose proof (Filter_NoDup _ _ _ _ HF) as Hnd.
  assert (Hin : forall t, t ∈ l -> t ∈ types) by (intros t Ht; by apply (Filter_suffix _ _ _ _ _ HF)).
  split; [done|]. split; [done|]. intros fuel' Hf. apply (Filter_mono fuel); [done|].
  assert (length l <= length types)%nat by (by apply submseteq_length, NoDup_submseteq). lia.
Qed.

(** ** A node at work *)

Module Node.

#[export] Instance world : PlannerWorld := {
  Marshal p := None; NewDigest _ := None; baseResourceTypeDefaults := ∅; DefaultCheckInterval := 60 }.
#[export] Instance intervals : Intervals := { DefaultWebhookInterval := 60; DefaultResourceTypeInterval := 60 }.

Definition repo (scope : Z) (last : option Z) : Checkable :=
  {| ckb_IsResourceType := false; ckb_ID := 7; ckb_Name := "repo"; ckb_PipelineID := 1; ckb_Type := "git";
     ckb_Source := None; ckb_Tags := []; ckb_CheckTimeout := ""; ckb_CheckEvery := None;
     ckb_LastCheckEndTime := last; ckb_HasWebhook := false; ckb_ScopeID := scope; ckb_PinnedVersion := None |}.

Definition db : CheckDB :=
  {| db_builds_id_seq := 100; db_resources := {[ 7 := {| mc_build_id := None; mc_status := None |} ]};
     db_events := []; db_containers := []; db_cache_uses := [] |}.

Definition done (succeeded : bool) : run_answer := StepDone (Some (succeeded, None)).

(** The node after some events. *)
Definition after (es : list web_event) : web := default (started_web db) (web_steps 1 es (started_web db)).

(** A check in flight. *)
Definition checking : list web_event := [Scan 0 (repo 5 None) []; Receive 0].

Lemma in_flight_is_owned_witness :
  (forall s, s ∈ w_inFlightChecks (after checking) -> owned (after checking) s \/ lost (after checking) s) /\
  bool_decide (5 ∈ w_inFlightChecks (after checking)) = true.
Proof.
  split; [|vm_compute; reflexivity]. apply (in_flight_is_owned 1 db checking). vm_compute. reflexivity.
Defined.

Definition running_check : CheckBuild := set_mb_onFinish (Some 5) (newRunningInMemoryCheckBuild 0 1 (repo 5 None)).

(** Every statement of the database fails. *)
Lemma tracked_check_clears_witness :
  exists w', web_steps 1 [EngineRuns 0 9 (done true) [CallStart] [true; true; true; true]; Untrack 0; Exit 0 10 [true; true]]
    (after checking) = Some w' /\
    (5 ∉ w_inFlightChecks w') /\ ("resource-7" ∉ w_running w') /\ w_tracked w' !! 0%nat = None.
Proof.
  eapply (tracked_check_clears 1 db checking (after checking) 0 "resource-7" running_check 5);
    vm_compute; reflexivity.
Defined.

Lemma one_check_per_resource_witness : (0 = 0)%nat.
Proof.
  apply (one_check_per_resource 1 db checking (after checking) 0 0 "resource-7" "resource-7" running_check running_check);
    vm_compute; reflexivity.
Defined.

(** The first check of a resource, whose scope is set while it runs, is still
    running at the next scan. *)
Definition slow_first_check : list web_event :=
  [Scan 0 (repo 0 None) []; Receive 0; Scan 10 (repo 5 None) []; Receive 1;
   EngineRuns 0 30 (done true) [CallStart] []; Untrack 0; Exit 0 31 []].

Lemma slow_stuck : stuck (after slow_first_check) 5.
Proof.
  split.
  - apply (bool_decide_unpack _). vm_compute. exact I.
  - intros b Hb. assert (E : w_checkBuildsChan (after slow_first_check) = []) by (vm_compute; reflexivity).
    rewrite E in Hb. by apply elem_of_nil in Hb.
  - intros g id ph b. assert (E : w_tracked (after slow_first_check) = ∅) by (vm_compute; reflexivity). by rewrite E.
Qed.

(** A check that the tracker drops blocks its scope: when the first check of a
    resource outlasts a scan, the resource is never checked again by the node,
    although nothing of it waits or runs. *)
Theorem dropped_check_blocks_scope :
  exists es w, web_steps 1 es (started_web db) = Some w /\
    w_checkBuildsChan w = [] /\ w_tracked w = ∅ /\ w_dropped w <> [] /\
    forall es' w' now last types from, web_steps 1 es' w = Some w' ->
      (TryCreateCheck 1 now (repo 5 last) types from false false w').1 <> Ret true.
Proof.
  exists slow_first_check, (after slow_first_check). do 3 (split; [vm_compute; reflexivity|]).
  split; [by vm_compute|].
  intros es' w' now last types from Hw. eapply stuck_no_check; [|reflexivity|done].
  eapply stuck_steps; [apply slow_stuck|exact Hw].
Qed.

(** A check that succeeds without a container of its own, because the interval
    has not elapsed on this scope, is recorded as errored. *)
Example skipped_check_errored :
  let w := after (checking ++ [EngineRuns 0 9 (done true) [] []; Untrack 0; Exit 0 10 []]) in
  db_resources (w_db w) !! 7 = Some {| mc_build_id := Some 100; mc_status := Some BuildStatusErrored |}.
Proof. vm_compute. reflexivity. Qed.

(** Its second [Finish] clears the scope of the check after it. *)
Example skipped_check_clears_other :
  let w := after (checking ++ [EngineRuns 0 9 (done true) [] []; Scan 70 (repo 5 None) []; Untrack 0; Receive 1; Exit 0 71 []]) in
  bool_decide (w_inFlightChecks w = ∅) = true /\
  match w_tracked w !! 1%nat with Some (_, Running, b) => mb_onFinish b = Some 5 | _ => False end.
Proof. vm_compute. auto. Qed.

(** Two types that are each other's type. *)
Definition type_of (id : Z) (name type : string) : DBResourceType :=
  {| dt_checkable := {| ckb_IsResourceType := true; ckb_ID := id; ckb_Name := name; ckb_PipelineID := 1; ckb_Type := type;
       ckb_Source := None; ckb_Tags := []; ckb_CheckTimeout := ""; ckb_CheckEvery := None; ckb_LastCheckEndTime := None;
       ckb_HasWebhook := false; ckb_ScopeID := 0; ckb_PinnedVersion := None |};
     dt_Image := ""; dt_ResolvedImage := ""; dt_Defaults := None; dt_Privileged := false; dt_Params := None |}.

Definition a_of_b := type_of 1 "a" "b".
Definition b_of_a := type_of 2 "b" "a".

(** [Filter] does not return for a resource type whose types form a cycle. *)
Lemma Filter_cycle fuel : Filter_from fuel [a_of_b; b_of_a] (dt_checkable a_of_b) = None.
Proof.
  enough (forall t, t = a_of_b \/ t = b_of_a -> Filter_from fuel [a_of_b; b_of_a] (dt_checkable t) = None) by auto.
  induction fuel as [|fuel IH]; intros t Ht; [done|]. cbn [Filter_from].
  destruct Ht as [->| ->].
  - change (Parent [a_of_b; b_of_a] (dt_checkable a_of_b)) with (Some b_of_a). cbv iota beta.
    by rewrite (IH b_of_a) by auto.
  - change (Parent [a_of_b; b_of_a] (dt_checkable b_of_a)) with (Some a_of_b). cbv iota beta.
    by rewrite (IH a_of_b) by auto.
Qed.

Definition on_git := type_of 3 "a" "git".

Lemma Filter_bounded_witness :
  NoDup [on_git] /\ (forall t, t ∈ [on_git] -> t ∈ [on_git]) /\
  forall fuel', (length [on_git] < fuel')%nat -> Filter_from fuel' [on_git] (dt_checkable (type_of 4 "x" "a")) = Some [on_git].
Proof. apply (Filter_bounded 2). vm_compute. reflexivity. Defined.
End Node.
