(* ===== verification/CheckStep.v ===== *)
(** * The check step

    [CheckStep.run] ([atc/exec/check_step.go]) with its delegate
    ([atc/engine/check_delegate.go]), as a program: a tree of the calls it makes
    on the database, the lock factory, the worker pool and the registry, with a
    branch for every answer.  Programs of several builds are interleaved call by
    call over the tables of the scopes; at any time a checking lock may be lost
    with its connection, and the clock of a node differs from that of the
    database by at most a skew. *)
From stdpp Require Import base gmap sets list strings.
From Stdlib Require Import ZArith Lia.
From S2P Require Import Prelude Vars Steps StepValidator Planner.

Open Scope Z_scope.

(** ** Calls and their answers *)

Inductive call_error := FKViolation | DeadlineExceeded | OtherErr (msg : string).
Abbreviation err := (wrapped call_error).
Definition result (A : Type) : Type := err + A.

(** [db.LastCheck]; times are nanoseconds. *)
Record LastCheck := { lc_StartTime : Z; lc_EndTime : Z; lc_Succeeded : bool }.

Record ImageSpec := { img_URL : string; img_ResourceType : string; img_Privileged : bool; img_artifact : option Z }.
Record BasicAuth := { auth_Username : string; auth_Password : string }.
Inductive scope_user := ForResource | ForResourceType | ForPrototype.

Inductive check_event :=
| InitializeCheck (name : string)
| SelectedWorker (worker : string)
| Starting
| Finish (succeeded : bool)
| Error (message : string).

(** What [resource.Check] returned. *)
Record check_output := { co_versions : list Version; co_ExitStatus : Z; co_err : option err }.

Inductive call :=
| SaveEvent (ev : check_event)
| EvaluateSource (source : document)
| FetchImage (getPlan : Plan) (checkPlan : option Plan) (privileged : bool)
| FindOrCreateResourceConfig (type : string) (source : document) (imageCache : option Z)
| BuildPipeline
| ResourceID (name : string)
| ConfigScope (config : Z) (resource : option Z)
| SetScope (user : scope_user) (name : string) (scope : Z)
| LimiterWait
| GetLastCheck (scope : Z)
| Now
| AcquireCheckingLock (scope : Z)
| ReleaseLock (scope : Z)
| Pause
| LatestVersion (scope : Z)
| OnCheckBuildStart
| UpdateLastCheckStartTime (scope buildId : Z)
| UpdateLastCheckEndTime (scope : Z) (succeeded : bool)
| FindOrSelectWorker
| FindOrCreateContainer (worker : string) (image : ImageSpec)
| ResourceCheck (source : document) (from : option Version)
| Resolve (repository tag : string) (auth : option BasicAuth)
| SaveVersions (scope : Z) (versions : list Version)
| StoreResult (version : Version).

(** [OnCheckBuildStart] answers with the build's ID after it; [Pause] with the
    error of a context that is done. *)
Definition reply (c : call) : Type :=
  match c with
  | SaveEvent _ | StoreResult _ => unit
  | EvaluateSource _ => result document
  | FetchImage _ _ _ => result (ImageSpec * option Z)
  | FindOrCreateResourceConfig _ _ _ | ConfigScope _ _ | OnCheckBuildStart => result Z
  | BuildPipeline | AcquireCheckingLock _ | UpdateLastCheckStartTime _ _ | UpdateLastCheckEndTime _ _ => result bool
  | ResourceID _ => result (option Z)
  | SetScope _ _ _ | LimiterWait | ReleaseLock _ | SaveVersions _ _ | FindOrCreateContainer _ _ => result unit
  | GetLastCheck _ => result LastCheck
  | Now => Z
  | Pause => option err
  | LatestVersion _ => result (option Version)
  | FindOrSelectWorker | Resolve _ _ _ => result string
  | ResourceCheck _ _ => check_output
  end.

(** ** Programs *)

Inductive prog (A : Type) :=
| Done (a : A)
| Throw (e : err)
| OutOfFuel
| Vis (c : call) (k : reply c -> prog A).
Arguments Done {A} a.
Arguments Throw {A} e.
Arguments OutOfFuel {A}.
Arguments Vis {A} c k.

#[global] Instance prog_ret : MRet prog := fun A a => Done a.
#[global] Instance prog_bind : MBind prog :=
  fun A B f => fix go p :=
    match p with
    | Done a => f a
    | Throw e => Throw e
    | OutOfFuel => OutOfFuel
    | Vis c k => Vis c (fun r => go (k r))
    end.

Definition lift {A} (r : result A) : prog A := match r with inl e => Throw e | inr a => Done a end.
Definition do_ (c : call) : prog (reply c) := Vis c Done.

(** [fmt.Errorf("context: %w", err)] *)
Definition wrap_err {A} (context : string) (r : result A) : prog A :=
  match r with inl e => Throw (Wrap context e) | inr a => Done a end.

(** The result of a call that a caller looks at. *)
Fixpoint attempt {A} (p : prog A) : prog (result A) :=
  match p with
  | Done a => Done (inr a)
  | Throw e => Done (inl e)
  | OutOfFuel => OutOfFuel
  | Vis c k => Vis c (fun r => attempt (k r))
  end.

(** [defer]: whatever the body returns, [last] runs. *)
Definition defer {A} (last : prog unit) (body : prog A) : prog A :=
  r ← attempt body; _ ← last; lift r.

Definition IsForeignKeyViolation (e : err) : bool := match unwrap e with FKViolation => true | _ => false end.
Definition IsDeadlineExceeded (e : err) : bool := match unwrap e with DeadlineExceeded => true | _ => false end.

(** ** The check delegate (check_delegate.go) *)

(** The build of a check: when it was created and started, and the resource it
    checks. *)
Record CheckBuildInfo := { cb_CreateTime : Z; cb_StartTime : Z; cb_ResourceID : Z }.

Section Delegate.
Context (build : CheckBuildInfo) (plan : CheckPlan Plan).

Definition IsResourceCheck : bool := negb (String.eqb (ck_Resource _ plan) "").

(** [d.pipeline()]; the flag is whether [cachedPipeline] is set. *)
Definition pipeline (cached : bool) : prog bool :=
  if cached then Done true
  else
    found ← do_ BuildPipeline ≫= wrap_err "get build pipeline";
    if (found : bool) then Done true else Throw (Plain (OtherErr "pipeline not found")).

Definition delegate_FindOrCreateScope (cached : bool) (config : Z) : prog (Z * bool) :=
  '(resource, cached) ←
    (if IsResourceCheck then
       found ← attempt (pipeline cached);
       _ ← wrap_err "get pipeline" found;
       id ← do_ (ResourceID (ck_Resource _ plan)) ≫= wrap_err "get resource";
       match id with
       | None => Throw (Plain (OtherErr ("resource '" +:+ ck_Resource _ plan +:+ "' deleted")))
       | Some id => Done (Some id, true)
       end
     else Done (None, cached));
  scope ← do_ (ConfigScope config resource) ≫= wrap_err "find or create scope";
  Done (scope, cached).

Definition point_one (user : scope_user) (name what : string) (scope : Z) (cached : bool) : prog bool :=
  if String.eqb name "" then Done cached
  else
    found ← attempt (pipeline cached);
    _ ← wrap_err "get pipeline" found;
    _ ← do_ (SetScope user name scope) ≫= wrap_err what;
    Done true.

Definition PointToCheckedConfig (cached : bool) (scope : Z) : prog unit :=
  cached ← point_one ForResource (ck_Resource _ plan) "set resource scope" scope cached;
  cached ← point_one ForResourceType (ck_ResourceType _ plan) "set resource type scope" scope cached;
  _ ← point_one ForPrototype (ck_Prototype _ plan) "set prototype scope" scope cached;
  Done ().

Definition shouldPeriodicCheckRun (scope checkInterval : Z) : prog bool :=
  lastCheck ← do_ (GetLastCheck scope) ≫= lift;
  if ck_SkipInterval _ plan then
    Done (negb (bool_decide (ck_FromVersion _ plan = None) &&
                (lc_Succeeded lastCheck && (cb_CreateTime build <? lc_StartTime lastCheck))))
  else
    now ← do_ Now;
    Done (negb (now <? lc_EndTime lastCheck + checkInterval)).

(** The lock of a check that runs: the one of the scope's config, or
    [NoopLock]. *)
Inductive check_lock := CheckingLock (scope : Z) | NoopLock.

Definition Release (l : check_lock) : prog unit :=
  match l with
  | CheckingLock scope => do_ (ReleaseLock scope) ≫= lift
  | NoopLock => Done ()
  end.

(** The loop of a resource check: [None] is a check that does not run. *)
Fixpoint acquire_loop (fuel : nat) (scope interval : Z) : prog (option check_lock) :=
  match fuel with
  | O => OutOfFuel
  | S fuel =>
      run ← shouldPeriodicCheckRun scope interval;
      if negb run then Done None
      else
        acquired ← do_ (AcquireCheckingLock scope) ≫= wrap_err "acquire lock";
        if (acquired : bool) then
          again ← attempt (shouldPeriodicCheckRun scope interval);
          match again with
          | inl e => _ ← Release (CheckingLock scope); Throw e
          | inr false => _ ← Release (CheckingLock scope); Done None
          | inr true => Done (Some (CheckingLock scope))
          end
        else
          done ← do_ Pause;
          match done with
          | Some e => Throw e
          | None => acquire_loop fuel scope interval
          end
  end.

Definition WaitToRun (fuel : nat) (scope : Z) : prog (option check_lock) :=
  let interval := ce_Interval (ck_Interval _ plan) in
  if negb (ck_SkipInterval _ plan) && ce_Never (ck_Interval _ plan) then Done None
  else
    _ ← (if negb (ck_SkipInterval _ plan) && IsResourceCheck then do_ LimiterWait ≫= wrap_err "rate limit" else Done ());
    if IsResourceCheck then acquire_loop fuel scope interval
    else
      lastCheck ← do_ (GetLastCheck scope) ≫= lift;
      if lc_Succeeded lastCheck then
        if cb_StartTime build <? lc_EndTime lastCheck then Done None
        else
          now ← do_ Now;
          if (now <? lc_EndTime lastCheck + interval) && negb (ck_SkipInterval _ plan) then Done None
          else Done (Some NoopLock)
      else Done (Some NoopLock).

(** The build's ID, for a check that is not nested. *)
Definition UpdateScopeLastCheckStartTime (scope : Z) (nestedCheck : bool) : prog Z :=
  buildId ← (if nestedCheck then Done 0 else do_ OnCheckBuildStart ≫= lift);
  _ ← do_ (UpdateLastCheckStartTime scope buildId) ≫= lift;
  Done buildId.

(** ** The step (check_step.go) *)

(** Whether the step has a resolver, and [time.ParseDuration] of the plan's
    timeout with the error it gives. *)
Context (hasResolver : bool) (ParseDuration : string -> option string).

Definition source_string (source : document) (key : string) : string :=
  match source with
  | Some m => match m !! key with Some (VStr s) => s | _ => "" end
  | None => ""
  end.

Definition resolveNatively (source : document) : prog (list Version) :=
  let repository := source_string source "repository" in
  if String.eqb repository "" then Throw (Plain (OtherErr "native check: missing repository in source"))
  else
    let username := source_string source "username" in
    let auth := if String.eqb username "" then None
                else Some {| auth_Username := username; auth_Password := source_string source "password" |} in
    digest ← do_ (Resolve repository (source_string source "tag") auth)
      ≫= wrap_err ("native check: resolving digest for " +:+ repository);
    Done [ {[ "digest" := digest ]} ].

(** [BeforeSelectWorker] of the build step delegate. *)
Definition BeforeSelectWorker : prog unit :=
  if cb_ResourceID build =? 0 then Done () else _ ← do_ OnCheckBuildStart ≫= lift; Done ().

Definition runCheck (image : ImageSpec) (source : document) (from : option Version) : prog check_output :=
  _ ← BeforeSelectWorker;
  worker ← do_ FindOrSelectWorker ≫= lift;
  _ ← do_ (SaveEvent (SelectedWorker worker));
  _ ← (if String.eqb (ck_Timeout _ plan) "" then Done ()
       else match ParseDuration (ck_Timeout _ plan) with
            | Some e => Throw (Wrap "parse timeout" (Plain (OtherErr e)))
            | None => Done ()
            end);
  _ ← do_ (FindOrCreateContainer worker image) ≫= lift;
  _ ← do_ (SaveEvent Starting);
  do_ (ResourceCheck source from).

(** [versions], [processResult] and [runErr]: a check in a container or a
    native one. *)
Definition run_either (image : ImageSpec) (source : document) (from : option Version) : prog check_output :=
  if hasResolver && String.eqb (ck_Type _ plan) "registry-image" then
    r ← attempt (resolveNatively source);
    Done match r with
         | inl e => {| co_versions := []; co_ExitStatus := 0; co_err := Some e |}
         | inr versions => {| co_versions := versions; co_ExitStatus := 0; co_err := None |}
         end
  else
    r ← attempt (runCheck image source from);
    Done match r with
         | inl e => {| co_versions := []; co_ExitStatus := 0; co_err := Some e |}
         | inr out => out
         end.

(** The part of [run] that holds the lock. *)
Definition run_locked (image : ImageSpec) (source : document) (scope : Z) : prog bool :=
  from ← (match ck_FromVersion _ plan with
          | Some v => Done (Some v)
          | None => do_ (LatestVersion scope) ≫= wrap_err "get latest version"
          end);
  started ← attempt (UpdateScopeLastCheckStartTime scope (negb IsResourceCheck));
  _ ← wrap_err "update check start time" started;
  out ← run_either image source from;
  if negb (co_ExitStatus out =? 0) then
    _ ← do_ (UpdateLastCheckEndTime scope false) ≫= wrap_err "update check end time";
    _ ← do_ (SaveEvent (Finish false));
    Done false
  else
    match co_err out with
    | Some e =>
        _ ← do_ (UpdateLastCheckEndTime scope false) ≫= wrap_err "update check end time";
        if IsDeadlineExceeded e then _ ← do_ (SaveEvent (Error "timeout exceeded")); Done false
        else Throw (Wrap "run check" e)
    | None =>
        saved ← do_ (SaveVersions scope (co_versions out));
        match saved with
        | inl e =>
            if IsForeignKeyViolation e then _ ← do_ (SaveEvent (Finish false)); Done false
            else Throw (Wrap "save versions" e)
        | inr _ =>
            _ ← (match last (co_versions out) with Some v => do_ (StoreResult v) | None => Done () end);
            _ ← do_ (UpdateLastCheckEndTime scope true) ≫= wrap_err "update check end time";
            _ ← do_ (SaveEvent (Finish true));
            Done true
        end
    end.

Definition fetch_image : prog (ImageSpec * option Z) :=
  let image := ck_TypeImage plan in
  if negb (String.eqb (im_ImageRef image) "") then
    Done ({| img_URL := im_ImageRef image; img_ResourceType := ""; img_Privileged := im_Privileged image; img_artifact := None |}, None)
  else match im_GetPlan image with
  | Some get => do_ (FetchImage get (im_CheckPlan image) (im_Privileged image)) ≫= lift
  | None => Done ({| img_URL := ""; img_ResourceType := im_BaseType image; img_Privileged := false; img_artifact := None |}, None)
  end.

Definition run (fuel : nat) : prog bool :=
  _ ← do_ (SaveEvent (InitializeCheck (ck_Name _ plan)));
  source ← do_ (EvaluateSource (ck_Source _ plan)) ≫= wrap_err "resource config creds evaluation";
  '(image, imageCache) ← fetch_image;
  config ← do_ (FindOrCreateResourceConfig (ck_Type _ plan) source imageCache) ≫= wrap_err "create resource config";
  found ← attempt (delegate_FindOrCreateScope false config);
  '(scope, cached) ← wrap_err "create resource config scope" found;
  pointed ← attempt (PointToCheckedConfig cached scope);
  match pointed with
  | inl e =>
      if IsForeignKeyViolation e then _ ← do_ (SaveEvent (Finish false)); Done false
      else Throw (Wrap "update resource config scope" e)
  | inr _ =>
      waited ← attempt (WaitToRun fuel scope);
      lock ← wrap_err "wait" waited;
      match lock with
      | Some l => defer (_ ← attempt (Release l); Done ()) (run_locked image source scope)
      | None =>
          latest ← do_ (LatestVersion scope) ≫= wrap_err "get latest version";
          _ ← (match latest with Some v => do_ (StoreResult v) | None => Done () end);
          _ ← do_ (SaveEvent (Finish true));
          Done true
      end
  end.
End Delegate.

(** ** The tables of the scopes, shared by all nodes (resource_config_scope.go) *)

Record ScopeRow := { sr_start : Z; sr_end : Z; sr_succeeded : bool }.

(** What happened: a check of [pid] started on a scope, [every] its interval if
    it is periodic; it recorded its end; it gave its lock back; its lock was lost
    with the connection to the database that held it. *)
Inductive log_entry :=
| LStart (pid : nat) (scope time : Z) (every : option Z)
| LEnd (pid : nat) (scope time : Z)
| LRelease (pid : nat)
| LLost (pid : nat).

(** The clock is the one [now()] of the database reads; the locks are those of
    resource configs, with their holders. *)
Record tables := {
  tb_clock : Z;
  tb_scopes : gmap Z ScopeRow;
  tb_locks : gmap Z nat;
  tb_log : list log_entry }.

Definition set_row s row t :=
  {| tb_clock := tb_clock t; tb_scopes := <[ s := row ]> (tb_scopes t); tb_locks := tb_locks t; tb_log := tb_log t |}.
Definition set_locks f t :=
  {| tb_clock := tb_clock t; tb_scopes := tb_scopes t; tb_locks := f (tb_locks t); tb_log := tb_log t |}.
Definition add_log e t :=
  {| tb_clock := tb_clock t; tb_scopes := tb_scopes t; tb_locks := tb_locks t; tb_log := e :: tb_log t |}.
Definition set_clock n t :=
  {| tb_clock := n; tb_scopes := tb_scopes t; tb_locks := tb_locks t; tb_log := tb_log t |}.

Definition periodic (plan : CheckPlan Plan) : option Z :=
  if ck_SkipInterval _ plan then None else Some (ce_Interval (ck_Interval _ plan)).

Abbreviation pool := (gmap nat (CheckPlan Plan * prog bool)).

Section Shared.
(** The resource config of a scope, and how far the clock of a node
    ([clock.Now]) may be from that of the database. *)
Context (config_of : Z -> Z) (skew : Z).

(** What a call answers and does to the tables.  Every call may fail; a call
    that is not about the columns and the locks here leaves them alone. *)
Definition perform (pid : nat) (plan : CheckPlan Plan) (c : call) : reply c -> tables -> tables -> Prop :=
  match c return reply c -> tables -> tables -> Prop with
  | GetLastCheck s => fun r t t' => t' = t /\
      match r with
      | inl _ => True
      | inr lc => exists row, tb_scopes t !! s = Some row /\
          lc = {| lc_StartTime := sr_start row; lc_EndTime := sr_end row; lc_Succeeded := sr_succeeded row |}
      end
  | Now => fun r t t' => tb_clock t - skew <= r <= tb_clock t + skew /\ t' = t
  | AcquireCheckingLock s => fun r t t' =>
      match r with
      | inr true => tb_locks t !! config_of s = None /\ t' = set_locks (<[ config_of s := pid ]>) t
      | _ => t' = t
      end
  | ReleaseLock s => fun r t t' =>
      match r with
      | inl _ => t' = t
      | inr _ =>
          t' = add_log (LRelease pid)
                 (if decide (tb_locks t !! config_of s = Some pid) then set_locks (delete (config_of s)) t else t)
      end
  | UpdateLastCheckStartTime s _ => fun r t t' =>
      match r with
      | inr true => exists row, tb_scopes t !! s = Some row /\
          t' = add_log (LStart pid s (tb_clock t) (periodic plan))
                 (set_row s {| sr_start := tb_clock t; sr_end := sr_end row; sr_succeeded := sr_succeeded row |} t)
      | inr false => tb_scopes t !! s = None /\ t' = t
      | inl _ => t' = t
      end
  | UpdateLastCheckEndTime s succeeded => fun r t t' =>
      match r with
      | inr true => exists row, tb_scopes t !! s = Some row /\
          t' = add_log (LEnd pid s (tb_clock t))
                 (set_row s {| sr_start := sr_start row; sr_end := tb_clock t; sr_succeeded := succeeded |} t)
      | inr false => tb_scopes t !! s = None /\ t' = t
      | inl _ => t' = t
      end
  | _ => fun _ t t' => t' = t
  end.

(** The builds of all nodes, call by call: a check of a resource begins, a check
    makes its next call, time passes, a connection breaks and the lock it held is
    free again while its check goes on. *)
Inductive pool_step : pool * tables -> pool * tables -> Prop :=
| step_begin P t pid build plan hasResolver ParseDuration fuel :
    P !! pid = None -> IsResourceCheck plan = true ->
    pool_step (P, t) (<[ pid := (plan, run build plan hasResolver ParseDuration fuel) ]> P, t)
| step_call P t pid plan c k r t' :
    P !! pid = Some (plan, Vis c k) -> perform pid plan c r t t' ->
    pool_step (P, t) (<[ pid := (plan, k r) ]> P, t')
| step_tick P t now :
    tb_clock t <= now -> pool_step (P, t) (P, set_clock now t)
| step_lose P t config pid :
    tb_locks t !! config = Some pid ->
    pool_step (P, t) (P, add_log (LLost pid) (set_locks (delete config) t)).

Definition pool_steps : pool * tables -> pool * tables -> Prop := rtc pool_step.
End Shared.
