(* ===== verification/CheckStepSpec.v ===== *)
(** * Correctness of the check step

    The checks of one resource config whose locks are not lost exclude each other,
    and periodic checks of a scope are apart by their interval, for any number of
    builds on any number of nodes: [run] follows a protocol of the checking lock, and builds that
    follow the protocol keep the log of the scopes in order. *)
From stdpp Require Import base gmap sets list strings.
From Stdlib Require Import ZArith Lia.
From S2P Require Import Prelude Vars Steps StepValidator Planner CheckStep.

Open Scope Z_scope.

(** ** The protocol of the checking lock *)

(** Where a build is: without the lock; with it, and the end of the last check
    it has read since; decided to run; started. *)
Inductive stage := Free | Held (scope : Z) (last : option Z) | Ready (scope : Z) | Started (scope : Z).

Definition holds (σ : stage) (s : Z) : Prop :=
  match σ with Free => False | Held s' _ | Ready s' | Started s' => s' = s end.

Section Protocol.
Context (plan : CheckPlan Plan).
Let interval := ce_Interval (ck_Interval _ plan).

Definition next (σ : stage) (c : call) : reply c -> stage :=
  match c return reply c -> stage with
  | AcquireCheckingLock s => fun r => match r with inr true => Held s None | _ => σ end
  | GetLastCheck s => fun r =>
      match σ, r with
      | Held s' _, inr lc => if s =? s' then Held s' (Some (lc_EndTime lc)) else σ
      | _, _ => σ
      end
  | Now => fun r =>
      match σ with
      | Held s (Some e) => if r <? e + interval then σ else Ready s
      | _ => σ
      end
  | ReleaseLock _ => fun _ => Free
  | UpdateLastCheckStartTime s _ => fun _ => Started s
  | _ => fun _ => σ
  end.

Definition allowed (σ : stage) (c : call) : Prop :=
  match c with
  | AcquireCheckingLock _ => σ = Free
  | ReleaseLock s => holds σ s
  | UpdateLastCheckStartTime s _ => σ = Ready s \/ (ck_SkipInterval _ plan = true /\ exists l, σ = Held s l)
  | UpdateLastCheckEndTime s _ => σ = Started s
  | _ => True
  end.

(** [p] follows the protocol from [σ], and [Q] holds of its result and of where
    it ends. *)
Fixpoint follows {A} (σ : stage) (p : prog A) (Q : result A -> stage -> Prop) : Prop :=
  match p with
  | Done a => Q (inr a) σ
  | Throw e => Q (inl e) σ
  | OutOfFuel => True
  | Vis c k => allowed σ c /\ forall r, follows (next σ c r) (k r) Q
  end.

Lemma follows_mono {A} σ (p : prog A) (Q Q' : result A -> stage -> Prop) :
  (forall r σ', Q r σ' -> Q' r σ') -> follows σ p Q -> follows σ p Q'.
Proof.
  intros HQ. revert σ. induction p as [a|e| |c k IH]; intros σ; cbn; auto.
  intros [Hc Hk]. split; [done|]. intros r. by apply IH.
Qed.

Lemma follows_bind {A B} σ (p : prog A) (f : A -> prog B) Q :
  follows σ p (fun r σ' => match r with inl e => Q (inl e) σ' | inr a => follows σ' (f a) Q end) ->
  follows σ (p ≫= f) Q.
Proof.
  revert σ. induction p as [a|e| |c k IH]; intros σ; cbn; auto.
  intros [Hc Hk]. split; [done|]. intros r. by apply IH.
Qed.

Lemma follows_attempt {A} σ (p : prog A) Q :
  follows σ p (fun r σ' => Q (inr r) σ') -> follows σ (attempt p) Q.
Proof.
  revert σ. induction p as [a|e| |c k IH]; intros σ; cbn; auto.
  intros [Hc Hk]. split; [done|]. intros r. by apply IH.
Qed.

(** A call whose answer is looked at. *)
Lemma follows_do {B} σ c (f : reply c -> prog B) Q :
  allowed σ c -> (forall r, follows (next σ c r) (f r) Q) -> follows σ (do_ c ≫= f) Q.
Proof. by cbn. Qed.
End Protocol.

(** ** Programs that leave the lock alone *)

Definition neutral_call (c : call) : bool :=
  match c with
  | AcquireCheckingLock _ | GetLastCheck _ | Now | ReleaseLock _
  | UpdateLastCheckStartTime _ _ | UpdateLastCheckEndTime _ _ => false
  | _ => true
  end.

(** Those, and the end of a check of [s]. *)
Definition ending_call (s : Z) (c : call) : bool :=
  match c with UpdateLastCheckEndTime s' _ => s' =? s | c => neutral_call c end.

(** All calls of [p] are in [ok]. *)
Fixpoint only {A} (ok : call -> bool) (p : prog A) : Prop :=
  match p with
  | Vis c k => ok c = true /\ forall r, only ok (k r)
  | _ => True
  end.
Abbreviation neutral := (only neutral_call).

Section Only.
Context (ok : call -> bool).

Lemma only_bind {A B} (p : prog A) (f : A -> prog B) : only ok p -> (forall a, only ok (f a)) -> only ok (p ≫= f).
Proof.
  intros Hp Hf. induction p as [a|e| |c k IH]; cbn; auto.
  destruct Hp as [Hc Hk]. split; [done|]. intros r. by apply IH.
Qed.

Lemma only_attempt {A} (p : prog A) : only ok p -> only ok (attempt p).
Proof.
  induction p as [a|e| |c k IH]; cbn; auto. intros [Hc Hk]. split; [done|]. intros r. by apply IH.
Qed.

Lemma only_wrap {A} context (r : result A) : only ok (wrap_err context r).
Proof. by destruct r. Qed.

Lemma only_lift {A} (r : result A) : only ok (lift r).
Proof. by destruct r. Qed.

Lemma only_follows {A} plan σ (p : prog A) :
  (forall c, ok c = true -> allowed plan σ c /\ forall r, next plan σ c r = σ) ->
  only ok p -> follows plan σ p (fun _ σ' => σ' = σ).
Proof.
  intros Hok. induction p as [a|e| |c k IH]; cbn; auto.
  intros [Hc Hk]. destruct (Hok c Hc) as [Ha Hn]. split; [done|]. intros r. rewrite Hn. by apply IH.
Qed.
End Only.

Lemma only_mono {A} (ok ok' : call -> bool) (p : prog A) :
  (forall c, ok c = true -> ok' c = true) -> only ok p -> only ok' p.
Proof. intros Hok. induction p as [a|e| |c k IH]; cbn; auto. intros [Hc Hk]. auto. Qed.

Lemma neutral_follows {A} plan σ (p : prog A) : neutral p -> follows plan σ p (fun _ σ' => σ' = σ).
Proof. apply only_follows. by intros []. Qed.

Lemma ending_follows {A} plan s (p : prog A) :
  only (ending_call s) p -> follows plan (Started s) p (fun _ σ' => σ' = Started s).
Proof.
  apply only_follows. intros []; cbn; try done. intros ->%Z.eqb_eq. done.
Qed.

Ltac neutral :=
  repeat first
    [ exact I | progress intros | apply only_wrap | apply only_lift | apply only_bind | apply only_attempt
    | progress case_match | split; [first [reflexivity | apply Z.eqb_refl]|] | progress cbn ].

Section Components.
Context (build : CheckBuildInfo) (plan : CheckPlan Plan) (hasResolver : bool) (ParseDuration : string -> option string).

Lemma neutral_pipeline cached : neutral (pipeline cached).
Proof. unfold pipeline. neutral. Qed.

Lemma neutral_scope cached config : neutral (delegate_FindOrCreateScope plan cached config).
Proof. unfold delegate_FindOrCreateScope, pipeline. neutral. Qed.

Lemma neutral_point cached scope : neutral (PointToCheckedConfig plan cached scope).
Proof. unfold PointToCheckedConfig, point_one, pipeline. neutral. Qed.

Lemma neutral_image : neutral (fetch_image plan).
Proof. unfold fetch_image. neutral. Qed.

Lemma neutral_run_either image source from : neutral (run_either build plan hasResolver ParseDuration image source from).
Proof. unfold run_either, resolveNatively, runCheck, BeforeSelectWorker. neutral. Qed.

(** A build that is going to run. *)
Definition decided (σ : stage) (s : Z) : Prop :=
  σ = Ready s \/ (ck_SkipInterval _ plan = true /\ exists l, σ = Held s l).

Lemma decided_holds σ s : decided σ s -> holds σ s.
Proof. by intros [->|[_ [l ->]]]. Qed.

Abbreviation interval := (ce_Interval (ck_Interval _ plan)).

Lemma should_run_free s :
  follows plan Free (shouldPeriodicCheckRun build plan s interval) (fun _ σ => σ = Free).
Proof.
  unfold shouldPeriodicCheckRun. apply follows_bind, follows_do; [done|]. intros [e|lc]; cbn; [done|].
  by destruct (ck_SkipInterval Plan plan).
Qed.

Lemma should_run_held s :
  follows plan (Held s None) (shouldPeriodicCheckRun build plan s interval)
    (fun r σ => match r with inr true => decided σ s | _ => holds σ s end).
Proof.
  unfold shouldPeriodicCheckRun. apply follows_bind, follows_do; [done|]. intros [e|lc]; cbn; [done|].
  rewrite Z.eqb_refl. destruct (ck_SkipInterval Plan plan) eqn:Es; cbn.
  - destruct (negb _); [right; eauto|done].
  - split; [done|]. intros now. destruct (now <? lc_EndTime lc + interval); cbn; [done|by left].
Qed.

Lemma release_follows {A} σ s (p : prog A) Q :
  holds σ s -> follows plan Free p Q -> (forall e, Q (inl e) Free) ->
  follows plan σ (Release (CheckingLock s) ≫= fun _ => p) Q.
Proof. intros Hs Hp He. cbn. split; [done|]. intros [e|a]; cbn; auto. Qed.

Lemma acquire_loop_follows fuel s :
  follows plan Free (acquire_loop build plan fuel s interval)
    (fun r σ => match r with
                | inr (Some (CheckingLock s')) => s' = s /\ decided σ s
                | inr (Some NoopLock) => False
                | _ => σ = Free
                end).
Proof.
  induction fuel as [|fuel IH]; [exact I|]. cbn [acquire_loop].
  apply follows_bind. eapply follows_mono; [|apply should_run_free]. intros [e|[]] σ ->; cbn [negb]; [done| |done].
  apply follows_bind, follows_do; [done|]. intros [e|[]]; cbn [follows wrap_err next]; [done| |].
  - apply follows_bind, follows_attempt. eapply follows_mono; [|apply should_run_held].
    intros [e|[]] σ Hσ; [|done|]; by apply release_follows.
  - apply follows_do; [done|]. intros [e|]; [done|]. exact IH.
Qed.

Lemma WaitToRun_follows fuel s :
  IsResourceCheck plan = true ->
  follows plan Free (WaitToRun build plan fuel s)
    (fun r σ => match r with
                | inr (Some (CheckingLock s')) => s' = s /\ decided σ s
                | inr (Some NoopLock) => False
                | _ => σ = Free
                end).
Proof.
  intros Hr. unfold WaitToRun. rewrite Hr. destruct (negb _ && ce_Never _); [done|]. apply follows_bind.
  destruct (negb (ck_SkipInterval Plan plan) && true); [|apply acquire_loop_follows].
  apply follows_do; [done|]. intros [e|[]]; cbn [follows wrap_err next]; [done|]. apply acquire_loop_follows.
Qed.

(** What holds after the calls between the decision and the release. *)
Lemma run_locked_follows image source s σ :
  decided σ s -> IsResourceCheck plan = true ->
  follows plan σ (run_locked build plan hasResolver ParseDuration image source s) (fun _ σ' => holds σ' s).
Proof.
  intros Hd Hr. unfold run_locked. apply follows_bind.
  eapply follows_mono; [|apply neutral_follows; neutral]. intros [e|from] σ' ->; [by apply decided_holds|].
  apply follows_bind, follows_attempt. unfold UpdateScopeLastCheckStartTime. rewrite Hr. cbn [negb].
  apply follows_bind, follows_do; [done|].
  intros [e|id]; cbn [follows lift next wrap_err mbind prog_bind]; [by apply decided_holds|].
  apply follows_bind, follows_do; [exact Hd|].
  intros [e|ok]; cbn [follows lift next wrap_err mbind prog_bind]; [done|].
  eapply follows_mono; [|apply ending_follows]; [by intros r σ' ->|].
  apply only_bind; [|neutral]. eapply only_mono; [|apply neutral_run_either]. by intros [].
Qed.

(** [run] follows the protocol and ends without the lock. *)
Lemma run_follows fuel :
  IsResourceCheck plan = true ->
  follows plan Free (run build plan hasResolver ParseDuration fuel) (fun _ σ => σ = Free).
Proof.
  intros Hr. unfold run. apply follows_do; [done|]. intros ev. cbn [next].
  assert (Hfree : forall {A B} (p : prog A) (f : A -> prog B), neutral p ->
    (forall a, follows plan Free (f a) (fun _ σ => σ = Free)) -> follows plan Free (p ≫= f) (fun _ σ => σ = Free)).
  { intros A B p f Hp Hf. apply follows_bind. eapply follows_mono; [|by apply neutral_follows]. intros [e|a] σ ->; auto. }
  apply Hfree; [neutral|]. intros src. apply Hfree; [apply neutral_image|]. intros [image cache].
  apply Hfree; [neutral|]. intros config. apply Hfree; [apply only_attempt, neutral_scope|]. intros found.
  apply Hfree; [apply only_wrap|]. intros [scope cached].
  apply Hfree; [apply only_attempt, neutral_point|]. intros [e|[]].
  { eapply follows_mono; [|apply neutral_follows; neutral]. by intros. }
  apply follows_bind, follows_attempt. eapply follows_mono; [|by apply WaitToRun_follows].
  intros [e|[[s|]|]] σ Hσ; cbn [wrap_err mbind prog_bind follows]; [done| |done|].
  - destruct Hσ as [-> Hd]. unfold defer. apply follows_bind, follows_attempt.
    eapply follows_mono; [|by apply run_locked_follows]. intros r σ' Hh.
    cbn. split; [done|]. intros [e|a]; cbn; by destruct r.
  - subst σ. eapply follows_mono; [|apply neutral_follows; neutral]. by intros.
Qed.
End Components.

(** ** The log of the scopes *)

(** Process [p] has started a check of [s] and not yet given its lock back; the
    newest entry is first. *)
Fixpoint open_run (p : nat) (s : Z) (log : list log_entry) : Prop :=
  match log with
  | [] => False
  | LStart q s' _ _ :: log => (q = p /\ s' = s) \/ open_run p s log
  | LRelease q :: log => q <> p /\ open_run p s log
  | LEnd _ _ _ :: log | LLost _ :: log => open_run p s log
  end.

(** The lock of process [p] was lost with its connection. *)
Definition lost (p : nat) (log : list log_entry) : Prop := LLost p ∈ log.

Section Pool.
Context (config_of : Z -> Z) (skew : Z).

(** A check that still has its lock starts when no other check of the config
    that still has its lock is open, and, if it is periodic, not before the
    interval after every end recorded by such a check, up to the skew of the
    clocks. *)
Definition start_ok (log : list log_entry) (p : nat) (s time : Z) (every : option Z) : Prop :=
  ~ lost p log ->
  (forall q s', config_of s' = config_of s -> open_run q s' log -> ~ lost q log -> q = p) /\
  (forall I, every = Some I -> forall q e, LEnd q s e ∈ log -> ~ lost q log -> e + I <= time + skew).

Fixpoint log_ok (log : list log_entry) : Prop :=
  match log with
  | [] => True
  | LStart p s time every :: log => start_ok log p s time every /\ log_ok log
  | _ :: log => log_ok log
  end.

(** [x] is not before any end of a check of [s] that still has its lock. *)
Definition after_ends (log : list log_entry) (s x : Z) : Prop :=
  forall q e, LEnd q s e ∈ log -> ~ lost q log -> e <= x.

(** The stages of the processes and the tables agree; [I] are the intervals. *)
Record coherent (σ : nat -> stage) (I : nat -> Z) (t : tables) : Prop := {
  co_lock : forall pid s, holds (σ pid) s -> ~ lost pid (tb_log t) -> tb_locks t !! config_of s = Some pid;
  co_held : forall pid s e, σ pid = Held s (Some e) -> ~ lost pid (tb_log t) -> after_ends (tb_log t) s e;
  co_ready : forall pid s, σ pid = Ready s -> ~ lost pid (tb_log t) ->
    after_ends (tb_log t) s (tb_clock t + skew - I pid);
  co_end : forall q s e, LEnd q s e ∈ tb_log t ->
    e <= tb_clock t /\ exists row, tb_scopes t !! s = Some row /\ e <= sr_end row;
  co_open : forall p s, open_run p s (tb_log t) -> ~ lost p (tb_log t) -> tb_locks t !! config_of s = Some p;
  co_log : log_ok (tb_log t) }.

Definition upd {A} (f : nat -> A) (pid : nat) (x : A) : nat -> A := fun q => if decide (q = pid) then x else f q.

Lemma upd_eq {A} (f : nat -> A) pid x : upd f pid x pid = x.
Proof. unfold upd. by rewrite decide_True. Qed.
Lemma upd_ne {A} (f : nat -> A) pid x q : q <> pid -> upd f pid x q = f q.
Proof. intros. unfold upd. by rewrite decide_False. Qed.

(** Case analysis on whether a process is the one that moves. *)
Ltac upd_case q pid := destruct (decide (q = pid)) as [->|?]; [rewrite ?upd_eq|rewrite ?upd_ne by done].

Lemma lost_cons p x log : ~ lost p (x :: log) -> ~ lost p log /\ x <> LLost p.
Proof. unfold lost. rewrite not_elem_of_cons. naive_solver. Qed.

(** An entry that is not an end. *)
Lemma after_ends_cons x log s b :
  (forall q e, x <> LEnd q s e) -> after_ends log s b -> after_ends (x :: log) s b.
Proof.
  intros Hx Ha q e [<-|He]%elem_of_cons Hl; [by destruct (Hx q e)|].
  apply lost_cons in Hl as [Hl _]. eauto.
Qed.

(** Only one process that did not lose its lock can be in possession of a
    config. *)
Lemma holds_unique σ I t p q s s' :
  coherent σ I t -> holds (σ p) s -> holds (σ q) s' -> ~ lost p (tb_log t) -> ~ lost q (tb_log t) ->
  config_of s = config_of s' -> p = q.
Proof.
  intros Hco Hp Hq Hlp Hlq Hc. apply (co_lock _ _ _ Hco) in Hp; [|done]. apply (co_lock _ _ _ Hco) in Hq; [|done].
  rewrite Hc in Hp. congruence.
Qed.

Lemma coherent_tick σ I t now : coherent σ I t -> tb_clock t <= now -> coherent σ I (set_clock now t).
Proof.
  intros [H1 H2 H3 H4 H5 H6] Hn. split; cbn; try done.
  - intros pid s Hs Hl q e He Hq. specialize (H3 _ _ Hs Hl q e He Hq). lia.
  - intros q s e He. destruct (H4 _ _ _ He) as (? & ?). split; [lia|done].
Qed.

(** A lock is lost. *)
Lemma coherent_lose σ I t config pid :
  coherent σ I t -> tb_locks t !! config = Some pid ->
  coherent σ I (add_log (LLost pid) (set_locks (delete config) t)).
Proof.
  intros [H1 H2 H3 H4 H5 H6] Hc. split; cbn; try done.
  - intros q s Hq [Hl Hne]%lost_cons. specialize (H1 q s Hq Hl). rewrite lookup_delete_ne; [done|]. congruence.
  - intros q s e Hq [Hl _]%lost_cons. apply after_ends_cons; eauto.
  - intros q s Hq [Hl _]%lost_cons. apply after_ends_cons; eauto.
  - intros q s e [?|He]%elem_of_cons; [done|]. by apply H4 in He.
  - intros q s Hq [Hl Hne]%lost_cons. specialize (H5 q s Hq Hl). rewrite lookup_delete_ne; [done|]. congruence.
Qed.

(** A process that reads under the lock. *)
Lemma coherent_read σ I t pid st :
  coherent σ I t -> (forall s, holds st s -> holds (σ pid) s) ->
  (forall s e, st = Held s (Some e) -> ~ lost pid (tb_log t) -> after_ends (tb_log t) s e) ->
  (forall s, st = Ready s -> ~ lost pid (tb_log t) -> after_ends (tb_log t) s (tb_clock t + skew - I pid)) ->
  coherent (upd σ pid st) I t.
Proof.
  intros [H1 H2 H3 H4 H5 H6] Hh He Hr. split; try done.
  - intros q s. upd_case q pid; auto.
  - intros q s e. upd_case q pid; eauto.
  - intros q s. upd_case q pid; eauto.
Qed.

Lemma coherent_acquire σ I t pid s :
  coherent σ I t -> σ pid = Free -> tb_locks t !! config_of s = None ->
  coherent (upd σ pid (Held s None)) I (set_locks (<[ config_of s := pid ]>) t).
Proof.
  intros [H1 H2 H3 H4 H5 H6] Hf Hl. split; cbn; try done.
  - intros q s'. upd_case q pid; [cbn; intros ->; by rewrite lookup_insert_eq|]. intros Hq Hq'.
    specialize (H1 _ _ Hq Hq'). rewrite lookup_insert_ne; [done|]. intros E. congruence.
  - intros q s' e. upd_case q pid; [done|]. apply H2.
  - intros q s'. upd_case q pid; [done|]. apply H3.
  - intros q s' Hq Hq'. specialize (H5 _ _ Hq Hq'). rewrite lookup_insert_ne; [done|]. intros E. congruence.
Qed.

Lemma coherent_release σ I t pid s :
  coherent σ I t ->
  coherent (upd σ pid Free) I
    (add_log (LRelease pid)
       (if decide (tb_locks t !! config_of s = Some pid) then set_locks (delete (config_of s)) t else t)).
Proof.
  intros [H1 H2 H3 H4 H5 H6].
  assert (Hlocks : forall q s', q <> pid -> tb_locks t !! config_of s' = Some q ->
    tb_locks (if decide (tb_locks t !! config_of s = Some pid) then set_locks (delete (config_of s)) t else t)
      !! config_of s' = Some q).
  { intros q s' Hne Hq. case_decide as Hd; [|done]. cbn. rewrite lookup_delete_ne; [done|]. congruence. }
  set (t' := if decide _ then _ else _) in *.
  assert (Hsame : tb_log t' = tb_log t /\ tb_clock t' = tb_clock t /\ tb_scopes t' = tb_scopes t)
    by (unfold t'; by case_decide).
  destruct Hsame as (El & Ec & Es). split; cbn; rewrite ?El, ?Ec, ?Es.
  - intros q s'. upd_case q pid; [done|]. intros Hq [Hl _]%lost_cons. auto.
  - intros q s' e. upd_case q pid; [done|]. intros Hq [Hl _]%lost_cons. apply after_ends_cons; eauto.
  - intros q s'. upd_case q pid; [done|]. intros Hq [Hl _]%lost_cons. apply after_ends_cons; eauto.
  - intros q s' e [?|He]%elem_of_cons; [done|]. by apply H4 in He.
  - intros q s' [Hne Hq] [Hl _]%lost_cons. auto.
  - done.
Qed.

(** A row of a scope whose config [pid] has, with its start. *)
Lemma coherent_start σ I t pid s row every :
  coherent σ I t -> holds (σ pid) s -> tb_scopes t !! s = Some row ->
  (forall i, every = Some i -> ~ lost pid (tb_log t) -> after_ends (tb_log t) s (tb_clock t + skew - i)) ->
  coherent (upd σ pid (Started s)) I
    (add_log (LStart pid s (tb_clock t) every)
       (set_row s {| sr_start := tb_clock t; sr_end := sr_end row; sr_succeeded := sr_succeeded row |} t)).
Proof.
  intros Hco Hs Er Hev. pose proof Hco as [H1 H2 H3 H4 H5 H6]. split; cbn.
  - intros q s'. upd_case q pid; [cbn; intros <-|]; intros Hq; [|intros [Hl _]%lost_cons; auto].
    apply lost_cons in Hq as [Hl _]. auto.
  - intros q s' e. upd_case q pid; [done|]. intros Hq [Hl _]%lost_cons. apply after_ends_cons; eauto.
  - intros q s'. upd_case q pid; [done|]. intros Hq [Hl _]%lost_cons. apply after_ends_cons; eauto.
  - intros q s' e [?|(Hc & r0 & Hr & Hle)%H4]%elem_of_cons; [done|]. split; [done|].
    destruct (decide (s = s')) as [<-|Hne]; [|rewrite lookup_insert_ne by done; eauto].
    rewrite lookup_insert_eq. eexists. split; [done|]. cbn. congruence.
  - intros q s' Hq [Hl _]%lost_cons. destruct Hq as [[-> ->]|Hq]; auto.
  - split; [|done]. intros Hl. split.
    + intros q s' Ec Hq Hlq. specialize (H5 _ _ Hq Hlq). specialize (H1 _ _ Hs Hl). congruence.
    + intros i Ei q e He Hlq. specialize (Hev i Ei Hl q e He Hlq). lia.
Qed.

Lemma coherent_finish σ I t pid s row succeeded :
  coherent σ I t -> σ pid = Started s -> tb_scopes t !! s = Some row ->
  coherent σ I
    (add_log (LEnd pid s (tb_clock t))
       (set_row s {| sr_start := sr_start row; sr_end := tb_clock t; sr_succeeded := succeeded |} t)).
Proof.
  intros Hco Hs Er. pose proof Hco as [H1 H2 H3 H4 H5 H6]. assert (Hp : holds (σ pid) s) by (by rewrite Hs).
  assert (Hother : forall q s' x, holds (σ q) s' -> σ q <> Started s -> ~ lost q (tb_log t) ->
    after_ends (tb_log t) s' x -> after_ends (LEnd pid s (tb_clock t) :: tb_log t) s' x).
  { intros q s' x Hq Hn Hl Ha p e [[= -> -> ->]|He]%elem_of_cons [Hlp _]%lost_cons; [|eauto].
    by destruct (holds_unique _ _ _ _ _ _ _ Hco Hp Hq Hlp Hl eq_refl). }
  split; cbn; try done.
  - intros q s' Hq [Hl _]%lost_cons. auto.
  - intros q s' e Hq [Hl _]%lost_cons. apply (Hother q); rewrite ?Hq; eauto. done.
  - intros q s' Hq [Hl _]%lost_cons. apply (Hother q); rewrite ?Hq; eauto. done.
  - intros q s' e [[= -> -> ->]|(Hc & r0 & Hr & Hle)%H4]%elem_of_cons.
    + split; [lia|]. rewrite lookup_insert_eq. eexists. split; [done|]. cbn. lia.
    + split; [done|]. destruct (decide (s = s')) as [<-|Hne].
      * rewrite lookup_insert_eq. eexists. split; [done|]. cbn. lia.
      * rewrite lookup_insert_ne by done. eauto.
  - intros q s' Hq [Hl _]%lost_cons. auto.
Qed.

Lemma coherent_stay σ I t pid st : coherent σ I t -> st = σ pid -> coherent (upd σ pid st) I t.
Proof. intros Hco ->. apply coherent_read; [done|done| |]; intros; [by eapply co_held|by eapply co_ready]. Qed.

Lemma coherent_drop σ I t pid : coherent σ I t -> coherent (upd σ pid Free) I t.
Proof. intros Hco. by apply coherent_read. Qed.

Lemma coherent_to_started σ I t pid s : coherent σ I t -> holds (σ pid) s -> coherent (upd σ pid (Started s)) I t.
Proof. intros Hco Hs. apply coherent_read; [done| |done|done]. by intros s' <-. Qed.

(** A call that the protocol allows keeps the tables and the stages coherent. *)
Lemma perform_coherent σ I t t' pid plan c r :
  coherent σ I t -> I pid = ce_Interval (ck_Interval _ plan) -> allowed plan (σ pid) c ->
  perform config_of skew pid plan c r t t' -> coherent (upd σ pid (next plan (σ pid) c r)) I t'.
Proof.
  intros Hco HI Hal Hp.
  destruct c; try (cbn in Hp; subst t'; apply coherent_stay; [exact Hco|reflexivity]); cbn in Hp, Hal |- *.
  - (* GetLastCheck *) destruct Hp as [-> Hp]. destruct (σ pid) as [|s' l| |] eqn:Es; try (by apply coherent_stay).
    destruct r as [e|lc]; [by apply coherent_stay|]. destruct Hp as (row & Er & ->). cbn.
    destruct (Z.eqb_spec scope s') as [->|Hne]; [|by apply coherent_stay].
    apply coherent_read; [done|by rewrite Es| |done]. intros s e [= -> <-] _ q e' He _.
    apply (co_end _ _ _ Hco) in He as (_ & row' & Er' & Hle). rewrite Er in Er'. by injection Er' as <-.
  - (* Now *) destruct Hp as [Hr ->]. destruct (σ pid) as [|s' [l|]| |] eqn:Es; try (by apply coherent_stay).
    destruct (Z.ltb_spec r (l + ce_Interval (ck_Interval Plan plan))) as [|Hle]; [by apply coherent_stay|].
    apply coherent_read; [done|by rewrite Es|done|]. intros s [= ->] Hl q e He Hq.
    assert (Hend := co_held _ _ _ Hco _ _ _ Es Hl q e He Hq). rewrite HI. lia.
  - (* AcquireCheckingLock *) destruct r as [e|[]]; [subst; by apply coherent_stay| |subst; by apply coherent_stay].
    destruct Hp as [Hl ->]. by apply coherent_acquire.
  - (* ReleaseLock *) destruct r as [e|u]; [subst; by apply coherent_drop|]. subst t'.
    by apply coherent_release.
  - (* UpdateLastCheckStartTime *)
    assert (Hh : holds (σ pid) scope) by (destruct Hal as [->|[_ [l ->]]]; done).
    destruct r as [e|[]]; [subst; by apply coherent_to_started| |destruct Hp as [_ ->]; by apply coherent_to_started].
    destruct Hp as (row & Er & ->). apply coherent_start; [done|done|done|]. unfold periodic. intros i.
    destruct Hal as [Hr|[-> _]]; [|done]. destruct (ck_SkipInterval Plan plan); [done|]. intros [= <-] Hl.
    rewrite <- HI. by apply (co_ready _ _ _ Hco).
  - (* UpdateLastCheckEndTime *)
    destruct r as [e|[]]; [subst; by apply coherent_stay| |destruct Hp as [_ ->]; by apply coherent_stay].
    destruct Hp as (row & Er & ->). apply coherent_stay; [|done]. by apply coherent_finish.
Qed.

(** ** Any number of builds *)

Definition interval_of (P : pool) (pid : nat) : Z :=
  match P !! pid with Some (plan, _) => ce_Interval (ck_Interval _ plan) | None => 0 end.

Record inv (σ : nat -> stage) (P : pool) (t : tables) : Prop := {
  inv_free : forall pid, P !! pid = None -> σ pid = Free;
  inv_follows : forall pid plan p, P !! pid = Some (plan, p) -> follows plan (σ pid) p (fun _ σ' => σ' = Free);
  inv_coherent : coherent σ (interval_of P) t }.

Lemma coherent_intervals σ I I' t :
  (forall pid s, σ pid = Ready s -> I' pid = I pid) -> coherent σ I t -> coherent σ I' t.
Proof. intros HI [H1 H2 H3 H4 H5 H6]. split; try done. intros pid s Hs. rewrite (HI _ _ Hs). by apply H3. Qed.

Lemma inv_insert σ st P t t' pid plan p :
  inv σ P t -> follows plan st p (fun _ σ' => σ' = Free) -> coherent (upd σ pid st) (interval_of P) t' ->
  (forall s, st = Ready s -> interval_of P pid = ce_Interval (ck_Interval _ plan)) ->
  inv (upd σ pid st) (<[ pid := (plan, p) ]> P) t'.
Proof.
  intros [H1 H2 _] Hf Hco HI. split.
  - intros q. upd_case q pid; [by rewrite lookup_insert_eq|]. rewrite lookup_insert_ne by done. apply H1.
  - intros q plan' p'. upd_case q pid; [rewrite lookup_insert_eq; by intros [= <- <-]|].
    rewrite lookup_insert_ne by done. apply H2.
  - eapply coherent_intervals; [|exact Hco]. intros q s. unfold interval_of at 1.
    upd_case q pid; [rewrite lookup_insert_eq; intros Hs; symmetry; by eapply HI|]. by rewrite lookup_insert_ne.
Qed.

Lemma inv_step σ P t P' t' : inv σ P t -> pool_step config_of skew (P, t) (P', t') -> exists σ', inv σ' P' t'.
Proof.
  intros Hinv Hst. pose proof Hinv as [H1 H2 H3]. inversion Hst as [? ? pid build plan hasR PD fuel Hn Hr|? ? pid plan c k r ? Hp Hperf|? ? now Hle|? ? config pid Hc]; subst.
  - exists (upd σ pid Free). apply (inv_insert σ Free P t'); [done|by apply run_follows| |done].
    by apply coherent_drop.
  - destruct (H2 _ _ _ Hp) as [Hal Hk].
    assert (HI : interval_of P pid = ce_Interval (ck_Interval _ plan)) by (unfold interval_of; by rewrite Hp).
    exists (upd σ pid (next plan (σ pid) c r)). apply (inv_insert σ _ P t); [done|apply Hk| |done].
    by eapply perform_coherent.
  - exists σ. split; [done|done|]. by apply coherent_tick.
  - exists σ. split; [done|done|]. by apply coherent_lose.
Qed.

Definition fresh (clock : Z) (scopes : gmap Z ScopeRow) : pool * tables :=
  (∅, {| tb_clock := clock; tb_scopes := scopes; tb_locks := ∅; tb_log := [] |}).

Lemma inv_steps clock scopes st : pool_steps config_of skew (fresh clock scopes) st -> exists σ, inv σ st.1 st.2.
Proof.
  intros Hst. cut (exists σ, inv σ (fresh clock scopes).1 (fresh clock scopes).2).
  - revert Hst. generalize (fresh clock scopes). intros st0 Hst. induction Hst as [|[P t] [P1 t1] st2 Hs _ IH]; [done|].
    intros [σ Hσ]. apply IH. by eapply inv_step.
  - exists (fun _ => Free). split; [done|done|]. split; cbn; intros; try done. set_solver.
Qed.

Lemma log_ok_at l1 p s time every l2 : log_ok (l1 ++ LStart p s time every :: l2) -> start_ok l2 p s time every.
Proof. induction l1 as [|[] l1 IH]; cbn; tauto. Qed.

(** C7: Whatever builds check resources on however many nodes, in whatever order
    their calls are made, whichever calls fail, and whichever locks are lost with
    their connections: a check whose lock was not lost starts only when no other
    check of its config is open (has started, and has neither given its lock back
    nor lost it), and, if it is periodic, only when its interval has passed since
    every end recorded for the scope by a check that did not lose its lock, up to
    the difference [skew] of the clocks of a node and of the database.  A check
    whose lock is lost goes on, and excludes no other one. *)
Theorem checks_exclusive_and_spaced clock scopes P t l1 p s time every l2 :
  pool_steps config_of skew (fresh clock scopes) (P, t) ->
  tb_log t = l1 ++ LStart p s time every :: l2 ->
  ~ lost p l2 ->
  (forall q s', config_of s' = config_of s -> open_run q s' l2 -> ~ lost q l2 -> q = p) /\
  (forall i, every = Some i -> forall q e, LEnd q s e ∈ l2 -> ~ lost q l2 -> e + i <= time + skew).
Proof.
  intros Hst El. apply inv_steps in Hst as [σ [_ _ Hco]]. pose proof (co_log _ _ _ Hco) as Hlog. cbn in Hlog.
  rewrite El in Hlog. by apply log_ok_at in Hlog.
Qed.

End Pool.

(** ** Two checks of a scope *)

Module Trace.

Definition config_of (s : Z) : Z := s.

(** Every call succeeds; the check finds one version. *)
Definition answer (c : call) (t : tables) : reply c :=
  match c return reply c with
  | SaveEvent _ | StoreResult _ => ()
  | EvaluateSource source => inr source
  | FetchImage _ _ _ => inl (Plain (OtherErr "no image"))
  | FindOrCreateResourceConfig _ _ _ => inr 3
  | ConfigScope _ _ => inr 5
  | OnCheckBuildStart => inr 100
  | BuildPipeline => inr true
  | AcquireCheckingLock s => inr match tb_locks t !! config_of s with Some _ => false | None => true end
  | UpdateLastCheckStartTime s _ | UpdateLastCheckEndTime s _ =>
      inr match tb_scopes t !! s with Some _ => true | None => false end
  | ResourceID _ => inr (Some 7)
  | SetScope _ _ _ | LimiterWait | ReleaseLock _ | SaveVersions _ _ | FindOrCreateContainer _ _ => inr ()
  | GetLastCheck s =>
      match tb_scopes t !! s with
      | Some row => inr {| lc_StartTime := sr_start row; lc_EndTime := sr_end row; lc_Succeeded := sr_succeeded row |}
      | None => inl (Plain (OtherErr "no rows"))
      end
  | Now => tb_clock t + 5
  | Pause => None
  | LatestVersion _ => inr None
  | FindOrSelectWorker => inr "w"
  | Resolve _ _ _ => inr "sha256:1"
  | ResourceCheck _ _ => {| co_versions := [ {[ "ref" := "1" ]} ]; co_ExitStatus := 0; co_err := None |}
  end.

Definition effect (pid : nat) (plan : CheckPlan Plan) (c : call) (t : tables) : tables :=
  match c with
  | AcquireCheckingLock s =>
      match tb_locks t !! config_of s with Some _ => t | None => set_locks (<[ config_of s := pid ]>) t end
  | ReleaseLock s =>
      add_log (LRelease pid)
        (if decide (tb_locks t !! config_of s = Some pid) then set_locks (delete (config_of s)) t else t)
  | UpdateLastCheckStartTime s _ =>
      match tb_scopes t !! s with
      | Some row =>
          add_log (LStart pid s (tb_clock t) (periodic plan))
            (set_row s {| sr_start := tb_clock t; sr_end := sr_end row; sr_succeeded := sr_succeeded row |} t)
      | None => t
      end
  | UpdateLastCheckEndTime s succeeded =>
      match tb_scopes t !! s with
      | Some row =>
          add_log (LEnd pid s (tb_clock t))
            (set_row s {| sr_start := sr_start row; sr_end := tb_clock t; sr_succeeded := succeeded |} t)
      | None => t
      end
  | _ => t
  end.

Lemma answer_performs pid plan c t : perform config_of 5 pid plan c (answer c t) t (effect pid plan c t).
Proof.
  destruct c; cbn; try done.
  - split; [done|]. destruct (tb_scopes t !! scope); [by eexists|done].
  - split; [lia|done].
  - by destruct (tb_locks t !! config_of scope).
  - destruct (tb_scopes t !! scope); [by eexists|done].
  - destruct (tb_scopes t !! scope); [by eexists|done].
Qed.

(** One build makes its next calls. *)
Fixpoint go (n : nat) (pid : nat) (st : pool * tables) : pool * tables :=
  match n with
  | O => st
  | S n =>
      match st.1 !! pid with
      | Some (plan, Vis c k) => go n pid (<[ pid := (plan, k (answer c st.2)) ]> st.1, effect pid plan c st.2)
      | _ => st
      end
  end.

Lemma go_steps n pid st : pool_steps config_of 5 st (go n pid st).
Proof.
  revert st. induction n as [|n IH]; intros [P t]; cbn; [apply rtc_refl|].
  destruct (P !! pid) as [[plan [| | |c k]]|] eqn:E; try apply rtc_refl.
  eapply rtc_l; [|apply IH]. eapply step_call; [exact E|]. apply answer_performs.
Qed.

Definition plan : CheckPlan Plan :=
  {| ck_Name := "repo"; ck_Type := "git"; ck_Source := None;
     ck_TypeImage := {| im_CheckPlan := None; im_GetPlan := None; im_BaseType := "git"; im_ImageRef := ""; im_Privileged := false |};
     ck_FromVersion := None; ck_Resource := "repo"; ck_ResourceType := ""; ck_Prototype := "";
     ck_Interval := {| ce_Never := false; ce_Interval := 60 |}; ck_SkipInterval := false; ck_Timeout := ""; ck_Tags := [] |}.
Definition build : CheckBuildInfo := {| cb_CreateTime := 0; cb_StartTime := 0; cb_ResourceID := 7 |}.
Definition trace_check : prog bool := run build plan false (fun _ => None) 2.

(** Build 0 checks; build 1 begins while it has the lock, and runs after its
    interval by the clock of its node, which is 5 s ahead. *)
Definition begun : pool * tables :=
  (<[ 1%nat := (plan, trace_check) ]> (<[ 0%nat := (plan, trace_check) ]> ∅),
   {| tb_clock := 100; tb_scopes := {[ 5 := {| sr_start := 0; sr_end := 0; sr_succeeded := true |} ]}; tb_locks := ∅; tb_log := [] |}).
Definition first : pool * tables := go 40 0 (go 12 1 (go 14 0 begun)).
Definition last : pool * tables := go 40 1 (first.1, set_clock 155 first.2).

Lemma last_reached : pool_steps config_of 5 (fresh 100 {[ 5 := {| sr_start := 0; sr_end := 0; sr_succeeded := true |} ]}) last.
Proof.
  unfold pool_steps. transitivity begun.
  { eapply rtc_l; [by apply (step_begin _ _ _ _ 0 build plan false (fun _ => None) 2)|].
    apply rtc_once. by apply (step_begin _ _ _ _ 1 build plan false (fun _ => None) 2). }
  transitivity first; [do 2 (etransitivity; [|apply go_steps]); apply go_steps|].
  transitivity (first.1, set_clock 155 first.2); [|apply go_steps].
  apply rtc_once. assert (Hclock : tb_clock first.2 <= 155) by (by vm_compute). revert Hclock.
  generalize first. intros [P t] Hclock. by apply step_tick.
Qed.

Lemma checks_exclusive_and_spaced_witness :
  let before := [LRelease 0; LEnd 0 5 100; LStart 0 5 100 (Some 60)] in
  (forall q s', s' = 5 -> open_run q s' before -> ~ lost q before -> q = 1%nat) /\
  (forall i, Some 60 = Some i -> forall q e, LEnd q 5 e ∈ before -> ~ lost q before -> e + i <= 155 + 5).
Proof.
  apply (checks_exclusive_and_spaced config_of 5 100 {[ 5 := {| sr_start := 0; sr_end := 0; sr_succeeded := true |} ]}
           last.1 last.2 [LRelease 1; LEnd 1 5 155] 1 5 155 (Some 60)).
  - rewrite <- (surjective_pairing last). exact last_reached.
  - vm_compute. reflexivity.
  - unfold lost. rewrite !elem_of_cons. intros [|[|[|[]%elem_of_nil]]]; discriminate.
Defined.

(** When the connection that holds the lock of build 0 breaks, build 1 checks
    the scope while build 0 still does. *)
Definition overlapping : pool * tables :=
  let before := go 20 0 begun in
  go 20 1 (before.1, add_log (LLost 0) (set_locks (delete 5) before.2)).

Example lost_lock_overlaps :
  tb_log overlapping.2 = [LStart 1 5 100 (Some 60); LLost 0; LStart 0 5 100 (Some 60)].
Proof. vm_compute. reflexivity. Qed.
End Trace.
