(* ===== verification/Scanner.v ===== *)
(** * The scanner

    [atc/lidar/scanner.go]: a scan resolves resource types and registry images
    natively, through the registry's API, and asks the check factory for a check
    of every other resource.  The native part is a program over the calls of
    [CheckStep]; a resource or type whose resolution fails or panics does not
    stop the scan. *)
From stdpp Require Import base gmap sets list strings.
From Stdlib Require Import ZArith Lia.
From S2P Require Import Prelude Tables Vars Steps StepValidator Planner Checks CheckStep.

Open Scope Z_scope.

Section Scanner.
Context `{PlannerWorld, !Intervals}.

(** An error is logged and ends the resolution. *)
Definition logged (p : prog unit) : prog unit := _ ← attempt p; Done ().

(** The resolution of a digest and what is saved of it; the scope is pointed to
    first. *)
Definition resolve_and_save (user : scope_user) (name : string) (source : document) : prog unit :=
  let repository := source_string source "repository" in
  if String.eqb repository "" then Throw (Plain (OtherErr "missing-repository-in-source"))
  else
    let username := source_string source "username" in
    let auth := if String.eqb username "" then None
                else Some {| auth_Username := username; auth_Password := source_string source "password" |} in
    digest ← do_ (Resolve repository (source_string source "tag") auth) ≫= lift;
    config ← do_ (FindOrCreateResourceConfig "registry-image" source None) ≫= lift;
    scope ← do_ (ConfigScope config None) ≫= lift;
    _ ← do_ (SetScope user name scope) ≫= lift;
    _ ← do_ (SaveVersions scope [ {[ "digest" := digest ]} ]) ≫= lift;
    _ ← do_ (UpdateLastCheckEndTime scope true) ≫= lift;
    Done ().

Definition never (c : Checkable) : bool := match ckb_CheckEvery c with Some every => ce_Never every | None => false end.

(** [!last.IsZero() && time.Now().Before(last.Add(interval))] *)
Definition within (last : option Z) (interval : Z) : prog bool :=
  match last with
  | None => Done false
  | Some last => now ← do_ Now; Done (now <? last + interval)
  end.

Definition resolveResourceType (rt : DBResourceType) : prog unit :=
  let c := dt_checkable rt in
  if negb (String.eqb (dt_Image rt) "") || never c then Done ()
  else
    let interval := match ckb_CheckEvery c with Some every => ce_Interval every | None => DefaultResourceTypeInterval end in
    early ← within (ckb_LastCheckEndTime c) interval;
    if (early : bool) then Done () else logged (resolve_and_save ForResourceType (ckb_Name c) (ckb_Source c)).

(** The interval of a resource: a [check_every] of zero is not used. *)
Definition native_interval (c : Checkable) : Z :=
  match ckb_CheckEvery c with
  | Some every => if 0 <? ce_Interval every then ce_Interval every else DefaultCheckInterval
  | None => DefaultCheckInterval
  end.

Definition resolveResource (c : Checkable) : prog unit :=
  if never c then Done ()
  else
    early ← (if 0 <? native_interval c then within (ckb_LastCheckEndTime c) (native_interval c) else Done false);
    if (early : bool) then Done () else logged (resolve_and_save ForResource (ckb_Name c) (ckb_Source c)).

(** What a scan does with a resource: it resolves it, or asks for a check. *)
Inductive scan_action := Natively (p : prog unit) | ByCheck (types : list DBResourceType).

Definition scan_resource (hasResolver : bool) (types : gmap Z (list DBResourceType)) (c : Checkable) : scan_action :=
  if hasResolver && String.eqb (ckb_Type c) "registry-image" then Natively (resolveResource c)
  else ByCheck (default [] (types !! ckb_PipelineID c)).

(** The work of [Run]: the types first, if there is a resolver, then the
    resources, in any order. *)
Definition scan_types (hasResolver : bool) (types : gmap Z (list DBResourceType)) : list (prog unit) :=
  if hasResolver then map resolveResourceType (concat (map snd (map_to_list types))) else [].

Definition scan_resources (hasResolver : bool) (types : gmap Z (list DBResourceType)) (resources : list Checkable)
    : list (Checkable * scan_action) :=
  map (fun c => (c, scan_resource hasResolver types c)) resources.
End Scanner.

(** ** Histories *)

(** A call and its answer. *)
Definition exchange : Type := { c : call & reply c }.

(** Every history of [p] that continues [h], the newest exchange first,
    satisfies [Φ]. *)
Fixpoint every_history {A} (h : list exchange) (p : prog A) (Φ : list exchange -> Prop) : Prop :=
  Φ h /\ match p with Vis c k => forall r, every_history (existT c r :: h) (k r) Φ | _ => True end.

(** A digest is resolved only when the check is due; an end is recorded only
    when the versions were saved, and both for the scope that was pointed to. *)
Definition native_ok (c : Checkable) (i : Z) (h : list exchange) : Prop :=
  match h with
  | existT (Resolve _ _ _) _ :: h =>
      forall last, ckb_LastCheckEndTime c = Some last -> 0 < i ->
      exists now, h = [existT Now now] /\ last + i <= now
  | existT (SaveVersions scope versions) _ :: h =>
      exists digest user r source auth tag config rest, versions = [ {[ "digest" := digest ]} ] /\
        h = existT (SetScope user (ckb_Name c) scope) r :: existT (ConfigScope config None) (inr scope)
            :: existT (FindOrCreateResourceConfig "registry-image" (ckb_Source c) None) (inr config)
            :: existT (Resolve source tag auth) (inr digest) :: rest
  | existT (UpdateLastCheckEndTime scope succeeded) _ :: h =>
      succeeded = true /\ exists versions rest, h = existT (SaveVersions scope versions) (inr ()) :: rest
  | existT (Now | FindOrCreateResourceConfig _ _ _ | ConfigScope _ _ | SetScope _ _ _) _ :: _ | [] => True
  | _ => False
  end.

Lemma save_history c i h user :
  (forall last, ckb_LastCheckEndTime c = Some last -> 0 < i -> exists now, h = [existT Now now] /\ last + i <= now) ->
  native_ok c i h ->
  every_history h (logged (resolve_and_save user (ckb_Name c) (ckb_Source c))) (native_ok c i).
Proof.
  intros Hdue Hh. unfold logged, resolve_and_save. destruct (String.eqb _ ""); [by cbn|].
  set (auth := if String.eqb _ "" then None else _). clearbody auth.
  cbn. split; [done|]. intros [e|digest]; cbn; (split; [done|]); [done|].
  intros [e|config]; cbn; (split; [done|]); [done|].
  intros [e|scope]; cbn; (split; [done|]); [done|].
  intros [e|[]]; cbn; (split; [done|]); [done|].
  intros [e|[]]; cbn; (split; [by repeat eexists|]); [done|].
  intros [e|b]; cbn; (split; [by repeat eexists|done]).
Qed.

Section Native.
Context `{PlannerWorld, !Intervals}.

(** A resource of a registry image is resolved only when its interval has passed
    since the end of its last check, and every call the scanner makes for it is
    in order: the digest, the config, the scope, then the version that was
    resolved is saved below that scope, then the end of the check. *)
Theorem resolveResource_history c : every_history [] (resolveResource c) (native_ok c (native_interval c)).
Proof.
  unfold resolveResource. destruct (never c); [by cbn|].
  destruct (Z.ltb_spec 0 (native_interval c)) as [Hi|Hi].
  - unfold within. destruct (ckb_LastCheckEndTime c) as [last|] eqn:El.
    + cbn. split; [done|]. intros now. destruct (Z.ltb_spec now (last + native_interval c)); [by cbn|].
      apply save_history; [|done]. intros last'. rewrite El. intros [= <-] _. by exists now.
    + cbn. apply save_history; [|done]. intros last. by rewrite El.
  - cbn. apply save_history; [|done]. intros. lia.
Qed.

Lemma resolveResourceType_history rt :
  every_history [] (resolveResourceType rt)
    (native_ok (dt_checkable rt)
       match ckb_CheckEvery (dt_checkable rt) with Some every => ce_Interval every | None => DefaultResourceTypeInterval end).
Proof.
  unfold resolveResourceType. destruct (_ || _); [by cbn|]. set (i := match ckb_CheckEvery _ with Some _ => _ | None => _ end).
  unfold within. destruct (ckb_LastCheckEndTime (dt_checkable rt)) as [last|] eqn:El.
  - cbn. split; [done|]. intros now. destruct (Z.ltb_spec now (last + i)); [by cbn|].
    apply save_history; [|done]. intros last'. rewrite El. intros [= <-] _. by exists now.
  - cbn. apply save_history; [|done]. intros last. by rewrite El.
Qed.
End Native.
