(* ===== verification/Containers.v ===== *)
(** * Containers and their pods

    The table of containers and its repository ([atc/db/container.go],
    [atc/db/container_repository.go]), and the pods of a Kubernetes namespace
    they stand for.  A row goes from creating to created or failed and ends in
    destroying, from where it is only deleted.  Times are nanoseconds. *)
From stdpp Require Import base gmap sets list strings sorting pretty.
From Stdlib Require Import ZArith Lia.
From S2P Require Import Prelude.

Open Scope Z_scope.

(** ** Rows *)

Inductive ContainerState := Creating | Created | Destroying | Failed.

#[global] Instance ContainerState_eq_dec : EqDecision ContainerState.
Proof. solve_decision. Defined.

(** [ct_in_memory] are [in_memory_build_id] and [in_memory_build_create_time]. *)
Record Container := {
  ct_id : Z;
  ct_handle : string;
  ct_worker : string;
  ct_state : ContainerState;
  ct_missing_since : option Z;
  ct_last_hijack : option Z;
  ct_build_id : option Z;
  ct_check_session : option Z;
  ct_in_memory : option (Z * Z);
  ct_meta_type : string }.

Definition set_ct_state s c :=
  {| ct_id := ct_id c; ct_handle := ct_handle c; ct_worker := ct_worker c; ct_state := s;
     ct_missing_since := ct_missing_since c; ct_last_hijack := ct_last_hijack c; ct_build_id := ct_build_id c;
     ct_check_session := ct_check_session c; ct_in_memory := ct_in_memory c; ct_meta_type := ct_meta_type c |}.
Definition set_ct_missing m c :=
  {| ct_id := ct_id c; ct_handle := ct_handle c; ct_worker := ct_worker c; ct_state := ct_state c;
     ct_missing_since := m; ct_last_hijack := ct_last_hijack c; ct_build_id := ct_build_id c;
     ct_check_session := ct_check_session c; ct_in_memory := ct_in_memory c; ct_meta_type := ct_meta_type c |}.
Definition set_ct_hijack h c :=
  {| ct_id := ct_id c; ct_handle := ct_handle c; ct_worker := ct_worker c; ct_state := ct_state c;
     ct_missing_since := ct_missing_since c; ct_last_hijack := h; ct_build_id := ct_build_id c;
     ct_check_session := ct_check_session c; ct_in_memory := ct_in_memory c; ct_meta_type := ct_meta_type c |}.
Definition set_ct_in_memory m c :=
  {| ct_id := ct_id c; ct_handle := ct_handle c; ct_worker := ct_worker c; ct_state := ct_state c;
     ct_missing_since := ct_missing_since c; ct_last_hijack := ct_last_hijack c; ct_build_id := ct_build_id c;
     ct_check_session := ct_check_session c; ct_in_memory := m; ct_meta_type := ct_meta_type c |}.

(** A pod of the namespace: its labels for the worker, the container and the
    build, whether it has the exit-status annotation, and whether it is being
    deleted. *)
Record Pod := {
  pod_name : string;
  pod_worker : string;
  pod_handle : string;
  pod_build : string;
  pod_exited : bool;
  pod_terminating : bool }.

(** The status of a build, as far as the collectors look at it. *)
Inductive build_life := Pending | Started | Finished.

#[global] Instance build_life_eq_dec : EqDecision build_life.
Proof. solve_decision. Defined.

(** The database and the cluster. *)
Record cluster := {
  cl_now : Z;
  cl_containers : list Container;
  cl_next_id : Z;
  cl_builds : gmap Z (build_life * bool);
  cl_workers_stalled : gmap string bool;
  cl_pods : list Pod }.

Definition set_containers f (s : cluster) : cluster :=
  {| cl_now := cl_now s; cl_containers := f (cl_containers s); cl_next_id := cl_next_id s; cl_builds := cl_builds s;
     cl_workers_stalled := cl_workers_stalled s; cl_pods := cl_pods s |}.
Definition set_pods f (s : cluster) : cluster :=
  {| cl_now := cl_now s; cl_containers := cl_containers s; cl_next_id := cl_next_id s; cl_builds := cl_builds s;
     cl_workers_stalled := cl_workers_stalled s; cl_pods := f (cl_pods s) |}.
Definition set_builds f (s : cluster) : cluster :=
  {| cl_now := cl_now s; cl_containers := cl_containers s; cl_next_id := cl_next_id s; cl_builds := f (cl_builds s);
     cl_workers_stalled := cl_workers_stalled s; cl_pods := cl_pods s |}.
Definition set_next_id n (s : cluster) : cluster :=
  {| cl_now := cl_now s; cl_containers := cl_containers s; cl_next_id := n; cl_builds := cl_builds s;
     cl_workers_stalled := cl_workers_stalled s; cl_pods := cl_pods s |}.
Definition set_now n (s : cluster) : cluster :=
  {| cl_now := n; cl_containers := cl_containers s; cl_next_id := cl_next_id s; cl_builds := cl_builds s;
     cl_workers_stalled := cl_workers_stalled s; cl_pods := cl_pods s |}.

(** [UPDATE containers SET ... WHERE p]: the table and the rows affected. *)
Definition update (p : Container -> bool) (f : Container -> Container) (s : cluster) : nat * cluster :=
  (length (filter (fun c => p c = true) (cl_containers s)),
   set_containers (map (fun c => if p c then f c else c)) s).

(** [DELETE FROM containers WHERE p] *)
Definition delete_rows (p : Container -> bool) (s : cluster) : nat * cluster :=
  (length (filter (fun c => p c = true) (cl_containers s)),
   set_containers (filter (fun c => p c = false)) s).

Definition in_state (st : ContainerState) (c : Container) : bool := bool_decide (ct_state c = st).

(** ** One container (container.go) *)

(** A transition that affects no row says that the container disappeared. *)
Definition transition (p : Container -> bool) (f : Container -> Container) (s : cluster) : bool * cluster :=
  let '(n, s') := update p f s in (negb (n =? 0)%nat, s').

Definition creating_Created (id : Z) : cluster -> bool * cluster :=
  transition (fun c => (ct_id c =? id) && (in_state Creating c || in_state Created c)) (set_ct_state Created).

Definition creating_Failed (id : Z) : cluster -> bool * cluster :=
  transition (fun c => (ct_id c =? id) && (in_state Creating c || in_state Failed c)) (set_ct_state Failed).

Definition created_Destroying (id : Z) : cluster -> bool * cluster :=
  transition (fun c => (ct_id c =? id) && (in_state Destroying c || in_state Created c)) (set_ct_state Destroying).

Definition UpdateLastHijack (id : Z) (s : cluster) : bool * cluster :=
  transition (fun c => (ct_id c =? id) && in_state Created c) (set_ct_hijack (Some (cl_now s))) s.

Definition destroying_Destroy (id : Z) (s : cluster) : bool * cluster :=
  let '(n, s') := delete_rows (fun c => (ct_id c =? id) && in_state Destroying c) s in (negb (n =? 0)%nat, s').

Definition failed_Destroy (id : Z) (s : cluster) : bool * cluster :=
  let '(n, s') := delete_rows (fun c => (ct_id c =? id) && in_state Failed c) s in (negb (n =? 0)%nat, s').

(** [CreateContainer] of a worker: the row of an owner with a new handle. *)
Definition CreateContainer (handle worker meta_type : string) (build session : option Z) (in_memory : option (Z * Z))
    (s : cluster) : cluster :=
  let c := {| ct_id := cl_next_id s; ct_handle := handle; ct_worker := worker; ct_state := Creating;
              ct_missing_since := None; ct_last_hijack := None; ct_build_id := build; ct_check_session := session;
              ct_in_memory := in_memory; ct_meta_type := meta_type |} in
  set_next_id (cl_next_id s + 1) (set_containers (fun l => l ++ [c]) s).

(** ** The repository (container_repository.go) *)

Definition diff (a b : list string) : list string := filter (fun x => x ∉ b) a.

Definition queryContainerHandles (p : Container -> bool) (s : cluster) : list string :=
  map ct_handle (filter (fun c => p c = true) (cl_containers s)).

(** [handle IN handles]; an empty list is false. *)
Definition handle_in (handles : list string) (c : Container) : bool := bool_decide (ct_handle c ∈ handles).

Definition UpdateContainersMissingSince (worker : string) (reported : list string) (s : cluster) : cluster :=
  let '(_, s) := update (fun c => bool_decide (is_Some (ct_missing_since c)) && handle_in reported c) (set_ct_missing None) s in
  let dbHandles := queryContainerHandles
    (fun c => String.eqb (ct_worker c) worker && bool_decide (ct_missing_since c = None)) s in
  let handles := diff dbHandles reported in
  (update (fun c => handle_in handles c && negb (in_state Creating c)) (set_ct_missing (Some (cl_now s))) s).2.

Definition FindDestroyingContainers (worker : string) (s : cluster) : list string :=
  queryContainerHandles (fun c => in_state Destroying c && String.eqb (ct_worker c) worker) s.

Definition RemoveMissingContainers (gracePeriod : Z) (s : cluster) : nat * cluster :=
  delete_rows (fun c =>
    in_state Created c &&
    match cl_workers_stalled s !! ct_worker c with Some stalled => negb stalled | None => false end &&
    match ct_missing_since c with Some m => gracePeriod <? cl_now s - m | None => false end) s.

Definition RemoveDestroyingContainers (worker : string) (handlesToIgnore : list string) (s : cluster) : nat * cluster :=
  delete_rows (fun c => String.eqb (ct_worker c) worker && negb (handle_in handlesToIgnore c) && in_state Destroying c) s.

(** The owner of a container is gone, or its build cannot be intercepted any
    more. *)
Definition orphaned (s : cluster) (c : Container) : bool :=
  match ct_build_id c with
  | None => bool_decide (ct_check_session c = None) && bool_decide (ct_in_memory c = None)
  | Some b => match cl_builds s !! b with Some (_, interceptible) => negb interceptible | None => false end
  end.

(** The creating, created and destroying containers among them. *)
Definition FindOrphanedContainers (s : cluster) : list Container * list Container * list Container :=
  let rows := filter (fun c => orphaned s c = true) (cl_containers s) in
  (filter (fun c => in_state Creating c = true) rows, filter (fun c => in_state Created c = true) rows,
   filter (fun c => in_state Destroying c = true) rows).

Definition DestroyFailedContainers : cluster -> nat * cluster := update (in_state Failed) (set_ct_state Destroying).

(** The rows that are inserted; [None] when a handle exists already. *)
Fixpoint insert_destroying (worker : string) (handles : list string) (s : cluster) : option cluster :=
  match handles with
  | [] => Some s
  | h :: handles =>
      if bool_decide (h ∈ map ct_handle (cl_containers s)) then None
      else insert_destroying worker handles
        (set_next_id (cl_next_id s + 1) (set_containers (fun l => l ++
          [{| ct_id := cl_next_id s; ct_handle := h; ct_worker := worker; ct_state := Destroying; ct_missing_since := None;
              ct_last_hijack := None; ct_build_id := None; ct_check_session := None; ct_in_memory := None; ct_meta_type := "" |}]) s))
  end.

Definition DestroyUnknownContainers (worker : string) (reported : list string) (s : cluster) : option (nat * cluster) :=
  let dbHandles := queryContainerHandles (fun c => String.eqb (ct_worker c) worker) s in
  let unknown := diff reported dbHandles in
  s' ← insert_destroying worker unknown s;
  Some (length unknown, s').

Definition minute : Z := 60 * 1000000000.

Definition dirty (s : cluster) (c : Container) : bool :=
  match ct_in_memory c with Some (_, created) => 5 * minute <? cl_now s - created | None => false end.

Definition DestroyDirtyInMemoryBuildContainers (s : cluster) : nat * cluster :=
  update (dirty s) (fun c => set_ct_in_memory None (set_ct_state Destroying c)) s.

Definition meta_type_check : string := "check".

Definition ranked (c : Container) : bool :=
  in_state Created c && String.eqb (ct_meta_type c) meta_type_check && bool_decide (is_Some (ct_check_session c)).

(** [ROW_NUMBER()] of a container among the ranked ones of its session, the
    newest first. *)
Definition row_number (s : cluster) (c : Container) : nat :=
  S (length (filter (fun d => ranked d && bool_decide (ct_check_session d = ct_check_session c) && (ct_id c <? ct_id d) = true)
               (cl_containers s))).

Definition hijacked_recently (s : cluster) (gracePeriod : Z) (c : Container) : bool :=
  match ct_last_hijack c with Some h => negb (gracePeriod <? cl_now s - h) | None => false end.

Definition DestroyExcessCheckContainers (maxPerResource : nat) (hijackGracePeriod : Z) (s : cluster) : nat * cluster :=
  update (fun c => ranked c && (maxPerResource <? row_number s c)%nat && negb (hijacked_recently s hijackGracePeriod c))
    (set_ct_state Destroying) s.
