(* ===== verification/Reaper.v ===== *)
(** * The reaper of pods and the collector of containers

    [atc/worker/jetbridge/reaper.go], [atc/gc/destroyer.go] and
    [atc/gc/container_collector.go].  Between any two calls of the reaper the
    rest of the system makes the steps of a schedule: builds start and end,
    steps create containers and pods, the collector marks containers, pods exit
    and vanish. *)
From stdpp Require Import base gmap sets list strings pretty.
From Stdlib Require Import ZArith Lia.
From S2P Require Import Prelude Containers.

Open Scope Z_scope.

(** ** The rest of the system *)

(** The cluster, the handles that were given out, and the container and the
    build label of every name a pod ever had: the name of a pod is a function of
    the metadata and the handle of its container. *)
Record world := {
  wd_cluster : cluster;
  wd_handles : gset string;
  wd_names : gmap string (string * string) }.

Definition on_cluster (f : cluster -> cluster) (w : world) : world :=
  {| wd_cluster := f (wd_cluster w); wd_handles := wd_handles w; wd_names := wd_names w |}.

(** The label of a build: [strconv.Itoa]; none for a build without an ID. *)
Definition build_label (b : option Z) : string := match b with Some b => pretty b | None => "" end.

Inductive event :=
| NewContainer (handle worker meta_type : string) (build session : option Z) (in_memory : option (Z * Z))
| MarkCreated (id : Z)
| MarkFailed (id : Z)
| MarkDestroying (id : Z)
| Hijack (id : Z)
| DestroyRow (id : Z)
| DestroyFailedRow (id : Z)
| FinishInMemory (preId createTime : Z)
| CreatePod (name worker handle : string) (build : option Z)
| PodExits (name : string)
| PodGone (name : string)
| BuildStarts (b : Z)
| BuildFinishes (b : Z)
| BuildUninterceptible (b : Z)
| CollectMissing (gracePeriod : Z)
| CollectFailed
| CollectDirty
| CollectExcess (maxPerResource : nat) (hijackGracePeriod : Z)
| Tick (now : Z).

Definition pod_named (name : string) (p : Pod) : bool := String.eqb (pod_name p) name.

Definition started (s : cluster) (b : Z) : bool :=
  match cl_builds s !! b with Some (Started, _) => true | _ => false end.

(** When a step can be made: a handle is new; a pod is created by a running
    build, or once by a build without an ID, under the name of its container;
    builds start and finish once.  A pod may go away at any time: its step, a
    later run of its container, an eviction or the reaper deleted it. *)
Definition can (e : event) (w : world) : bool :=
  let s := wd_cluster w in
  match e with
  | NewContainer handle _ _ _ _ _ =>
      negb (String.eqb handle "") && bool_decide (handle ∉ wd_handles w) && bool_decide (wd_names w !! handle = None)
  | CreatePod name _ handle build =>
      bool_decide (handle ∈ wd_handles w) && negb (existsb (pod_named name) (cl_pods s)) &&
      match wd_names w !! name with
      | None => bool_decide (name ∈ wd_handles w -> name = handle)
      | Some (handle', label) => String.eqb handle handle' && String.eqb (build_label build) label && negb (String.eqb label "")
      end &&
      match build with Some b => started s b | None => true end
  | BuildStarts b => match cl_builds s !! b with None | Some (Pending, _) => true | _ => false end
  | BuildFinishes b => started s b
  | Tick now => cl_now s <=? now
  | _ => true
  end.

Definition set_pod_exited (p : Pod) : Pod :=
  {| pod_name := pod_name p; pod_worker := pod_worker p; pod_handle := pod_handle p; pod_build := pod_build p;
     pod_exited := true; pod_terminating := pod_terminating p |}.
Definition set_pod_terminating (p : Pod) : Pod :=
  {| pod_name := pod_name p; pod_worker := pod_worker p; pod_handle := pod_handle p; pod_build := pod_build p;
     pod_exited := pod_exited p; pod_terminating := true |}.

Definition on_pod (name : string) (f : Pod -> Pod) : cluster -> cluster :=
  set_pods (map (fun p => if pod_named name p then f p else p)).

Definition occurs (e : event) (w : world) : world :=
  match e with
  | NewContainer handle worker meta build session in_memory =>
      {| wd_cluster := CreateContainer handle worker meta build session in_memory (wd_cluster w);
         wd_handles := {[ handle ]} ∪ wd_handles w; wd_names := wd_names w |}
  | MarkCreated id => on_cluster (fun s => (creating_Created id s).2) w
  | MarkFailed id => on_cluster (fun s => (creating_Failed id s).2) w
  | MarkDestroying id => on_cluster (fun s => (created_Destroying id s).2) w
  | Hijack id => on_cluster (fun s => (UpdateLastHijack id s).2) w
  | DestroyRow id => on_cluster (fun s => (destroying_Destroy id s).2) w
  | DestroyFailedRow id => on_cluster (fun s => (failed_Destroy id s).2) w
  | FinishInMemory preId createTime =>
      on_cluster (fun s => (update (fun c => bool_decide (ct_in_memory c = Some (preId, createTime)))
                              (fun c => set_ct_in_memory None (set_ct_state Destroying c)) s).2) w
  | CreatePod name worker handle build =>
      let p := {| pod_name := name; pod_worker := worker; pod_handle := handle; pod_build := build_label build;
                  pod_exited := false; pod_terminating := false |} in
      {| wd_cluster := set_pods (fun l => l ++ [p]) (wd_cluster w); wd_handles := wd_handles w;
         wd_names := <[ name := (handle, build_label build) ]> (wd_names w) |}
  | PodExits name => on_cluster (on_pod name set_pod_exited) w
  | PodGone name => on_cluster (set_pods (filter (fun p => pod_named name p = false))) w
  | BuildStarts b => on_cluster (set_builds (<[ b := (Started, true) ]>)) w
  | BuildFinishes b => on_cluster (set_builds (alter (fun '(_, i) => (Finished, i)) b)) w
  | BuildUninterceptible b => on_cluster (set_builds (alter (fun '(l, _) => (l, false)) b)) w
  | CollectMissing g => on_cluster (fun s => (RemoveMissingContainers g s).2) w
  | CollectFailed => on_cluster (fun s => (DestroyFailedContainers s).2) w
  | CollectDirty => on_cluster (fun s => (DestroyDirtyInMemoryBuildContainers s).2) w
  | CollectExcess n g => on_cluster (fun s => (DestroyExcessCheckContainers n g s).2) w
  | Tick now => on_cluster (set_now now) w
  end.

(** A step that cannot be made is not made. *)
Definition happen (w : world) (e : event) : world := if can e w then occurs e w else w.

(** ** The reaper's calls *)

(** What happens before each of the next calls, and whether the call fails; the
    pods the reaper asked to delete, with the world it asked in. *)
Record reap_state := {
  rp_world : world;
  rp_schedule : list (list event * bool);
  rp_deleted : list (string * world) }.

Definition R (A : Type) : Type := stateful reap_state string A.

Definition set_world w (st : reap_state) : reap_state :=
  {| rp_world := w; rp_schedule := rp_schedule st; rp_deleted := rp_deleted st |}.

(** The steps before a call, and whether it fails. *)
Definition before_call (st : reap_state) : bool * reap_state :=
  match rp_schedule st with
  | [] => (false, st)
  | (es, fails) :: schedule =>
      (fails, {| rp_world := fold_left happen es (rp_world st); rp_schedule := schedule; rp_deleted := rp_deleted st |})
  end.

(** A call with a result. *)
Definition call {A} (what : string) (f : cluster -> option (A * cluster)) : R A :=
  fun st =>
    let '(fails, st) := before_call st in
    if fails then (Fail what, st)
    else match f (wd_cluster (rp_world st)) with
    | Some (a, s) => (Ret a, set_world (on_cluster (fun _ => s) (rp_world st)) st)
    | None => (Fail what, st)
    end.

Definition read {A} (what : string) (f : cluster -> A) : R A := call what (fun s => Some (f s, s)).
Definition write (what : string) (f : cluster -> cluster) : R unit := call what (fun s => Some ((), f s)).

(** [Pods.Delete]: a pod that is not found is not an error. *)
Definition DeletePod (name : string) : R unit :=
  fun st =>
    let '(fails, st) := before_call st in
    let st := {| rp_world := rp_world st; rp_schedule := rp_schedule st; rp_deleted := (name, rp_world st) :: rp_deleted st |} in
    if fails then (Fail name, st)
    else (Ret (), set_world (on_cluster (on_pod name set_pod_terminating) (rp_world st)) st).

(** A call whose failure is handled. *)
Definition try_ {A} (m : R A) : R (option A) :=
  fun st => match m st with (Ret a, st) => (Ret (Some a), st) | (_, st) => (Ret None, st) end.

(** A failure that is logged. *)
Definition quietly (m : R unit) : R unit := _ ← try_ m; mret ().

(** ** The reaper (reaper.go) *)

(** The builds that are started, by their labels. *)
Definition GetAllStartedBuilds (s : cluster) : gset string :=
  list_to_set (map (fun '(b, _) => pretty b)
    (filter (fun '(_, (life, _)) => life = Started) (map_to_list (cl_builds s)))).

(** The completed pods to delete now, and those to keep. *)
Definition splitCompletedPods (hasLookup : bool) (completed : list Pod) : R (list Pod * list Pod) :=
  if existsb (fun p => negb (String.eqb (pod_build p) "")) completed then
    if negb hasLookup then mret ([], completed)
    else
      running ← try_ (read "failed-to-list-started-builds" GetAllStartedBuilds);
      mret match running with
           | Some running =>
               (filter (fun p => pod_build p ∉ running) completed, filter (fun p => pod_build p ∈ running) completed)
           | None => ([], completed)
           end
  else mret (completed, []).

Fixpoint delete_quietly (pods : list Pod) : R unit :=
  match pods with
  | [] => mret ()
  | p :: pods => _ ← quietly (DeletePod (pod_name p)); delete_quietly pods
  end.

(** The handle of a pod's container; a pod without the label is named after
    it. *)
Definition handle_of (p : Pod) : string := if String.eqb (pod_handle p) "" then pod_name p else pod_handle p.

(** [handleToPodName]: a later pod replaces an earlier one. *)
Definition handleToPodName (pods : list Pod) : gmap string string :=
  fold_left (fun m p => <[ handle_of p := pod_name p ]> m) pods ∅.

(** [destroyer.DestroyContainers] *)
Definition DestroyContainers (worker : string) (handles : list string) : R unit :=
  if String.eqb worker "" then fail "worker-name-must-be-provided"
  else _ ← call "destroying containers" (fun s => Some (RemoveDestroyingContainers worker handles s)); mret ().

Fixpoint delete_destroying (names : gmap string string) (handles : list string) : R unit :=
  match handles with
  | [] => mret ()
  | h :: handles => _ ← DeletePod (default h (names !! h)); delete_destroying names handles
  end.

(** [Reaper.Run], up to the cleanup of secrets and artifacts, which is best
    effort. *)
Definition reaper_Run (hasLookup : bool) (worker : string) : R unit :=
  pods ← read "listing pods" (fun s => filter (fun p => pod_worker p = worker) (cl_pods s));
  let completed := filter (fun p => pod_exited p = true) pods in
  let others := filter (fun p => pod_exited p = false) pods in
  '(reapNow, retained) ← splitCompletedPods hasLookup completed;
  _ ← delete_quietly reapNow;
  let remaining := others ++ retained in
  let handles := map handle_of remaining in
  _ ← write "updating containers missing since" (UpdateContainersMissingSince worker handles);
  _ ← DestroyContainers worker handles;
  _ ← call "destroying unknown containers" (DestroyUnknownContainers worker handles);
  destroying ← read "finding destroying containers" (FindDestroyingContainers worker);
  delete_destroying (handleToPodName remaining) destroying.

(** ** The collector (container_collector.go) *)

Definition maxCheckContainersPerResource : nat := 1.

(** [time.Since(LastHijack) > grace]; a container that was never hijacked has
    the zero time. *)
Definition hijack_over (s : cluster) (gracePeriod : Z) (c : Container) : bool :=
  match ct_last_hijack c with Some h => gracePeriod <? cl_now s - h | None => true end.

(** The transitions of the containers that were found; one that fails is
    logged. *)
Fixpoint destroy_found (gracePeriod : Z) (found : list Container) : R unit :=
  match found with
  | [] => mret ()
  | c :: found =>
      _ ← (fun st =>
             if hijack_over (wd_cluster (rp_world st)) gracePeriod c
             then quietly (write "failed-to-transition" (fun s => (created_Destroying (ct_id c) s).2)) st
             else (Ret (), st));
      destroy_found gracePeriod found
  end.

Definition cleanupOrphanedContainers (hijackGracePeriod : Z) : R unit :=
  _ ← call "failed-to-destroy-dirty-in-memory-build-containers" (fun s => Some (DestroyDirtyInMemoryBuildContainers s));
  '(_, created, _) ← read "failed-to-get-orphaned-containers-for-deletion" FindOrphanedContainers;
  destroy_found hijackGracePeriod created.

(** The errors so far: every part runs, whatever the ones before it returned. *)
Definition collect (m : R unit) (errs : list string) : R (list string) :=
  fun st => match m st with (Fail e, st) => (Ret (errs ++ [e]), st) | (_, st) => (Ret errs, st) end.

(** The errors of a run. *)
Definition collector_Run (missingGracePeriod hijackGracePeriod : Z) : R (list string) :=
  errs ← collect (cleanupOrphanedContainers hijackGracePeriod) [];
  errs ← collect (_ ← call "failed-to-find-failed-containers-for-deletion"
                        (fun s => Some (DestroyFailedContainers s)); mret ()) errs;
  errs ← collect (_ ← call "failed-to-clean-up-missing-containers"
                        (fun s => Some (RemoveMissingContainers missingGracePeriod s)); mret ()) errs;
  collect (_ ← call "failed-to-destroy-excess-check-containers"
                 (fun s => Some (DestroyExcessCheckContainers maxCheckContainersPerResource hijackGracePeriod s)); mret ()) errs.
