(* ===== verification/ReaperSpec.v ===== *)
(** * Correctness of the reaper

    Whatever the rest of the system does between its calls, the reaper asks to
    delete only pods that nothing needs: their build is over, or their container
    is being destroyed or gone.  A sweep that nothing disturbs leaves no pod
    without a container that is in use, and no exited pod of a build that is
    over. *)
From stdpp Require Import base gmap sets list strings pretty.
From Stdlib Require Import ZArith Lia.
From S2P Require Import Prelude Containers Reaper.

Open Scope Z_scope.

(** ** What is true of every world *)

(** No container of this handle is in use. *)
Definition dead (w : world) (h : string) : Prop :=
  h ∈ wd_handles w /\ forall c, c ∈ cl_containers (wd_cluster w) -> ct_handle c = h -> ct_state c = Destroying.

(** A label of a build that was started, and of one that is over. *)
Definition known (w : world) (l : string) : Prop :=
  exists b life i, l = pretty b /\ cl_builds (wd_cluster w) !! b = Some (life, i) /\ life <> Pending.
Definition over (w : world) (l : string) : Prop :=
  exists b i, l = pretty b /\ cl_builds (wd_cluster w) !! b = Some (Finished, i).

(** A name of a build without an ID whose pod has exited. *)
Definition exited (w : world) (n : string) : Prop :=
  (exists h, wd_names w !! n = Some (h, "")) /\
  forall p, p ∈ cl_pods (wd_cluster w) -> pod_name p = n -> pod_exited p = true.

Record world_ok (w : world) : Prop := {
  wo_rows : NoDup (map ct_handle (cl_containers (wd_cluster w)));
  wo_handles : forall c, c ∈ cl_containers (wd_cluster w) -> ct_handle c ∈ wd_handles w;
  wo_nonempty : "" ∉ wd_handles w;
  wo_unique : NoDup (map pod_name (cl_pods (wd_cluster w)));
  wo_pods : forall p, p ∈ cl_pods (wd_cluster w) -> wd_names w !! pod_name p = Some (pod_handle p, pod_build p);
  wo_names : forall n h l, wd_names w !! n = Some (h, l) -> h ∈ wd_handles w /\ (n ∈ wd_handles w -> n = h);
  wo_labels : forall n h l, wd_names w !! n = Some (h, l) -> l = "" \/ known w l }.

(** [w'] comes after [w]. *)
Record evolves (w w' : world) : Prop := {
  ev_ok : world_ok w';
  ev_handles : wd_handles w ⊆ wd_handles w';
  ev_names : wd_names w ⊆ wd_names w';
  ev_dead : forall h, dead w h -> dead w' h;
  ev_known : forall l, known w l -> known w' l;
  ev_over : forall l, over w l -> over w' l;
  ev_exited : forall n, exited w n -> exited w' n }.

Lemma evolves_same w : world_ok w -> evolves w w.
Proof. by split. Qed.

Lemma evolves_then w1 w2 w3 : evolves w1 w2 -> evolves w2 w3 -> evolves w1 w3.
Proof.
  intros [] []. split; auto; etrans; eauto.
Qed.

(** ** Changes of the table of containers *)

(** The rows of [l'] are rows of [l] whose state did not come back from
    destroying, or destroying rows of known handles. *)
Definition rows_after (H : gset string) (l l' : list Container) : Prop :=
  NoDup (map ct_handle l') /\
  forall c', c' ∈ l' ->
    (exists c, c ∈ l /\ ct_handle c' = ct_handle c /\ (ct_state c = Destroying -> ct_state c' = Destroying)) \/
    (ct_state c' = Destroying /\ ct_handle c' ∈ H).

Lemma rows_update H p f (s : cluster) :
  (forall c, ct_handle (f c) = ct_handle c) -> (forall c, p c = true -> ct_state c = Destroying -> ct_state (f c) = Destroying) ->
  NoDup (map ct_handle (cl_containers s)) -> rows_after H (cl_containers s) (cl_containers (update p f s).2).
Proof.
  intros Hh Hs Hnd. cbn. split.
  - rewrite map_map. erewrite map_ext; [exact Hnd|]. intros c. cbn. by destruct (p c).
  - intros c' (c & -> & Hc)%list_elem_of_fmap. left. exists c. destruct (p c) eqn:Ep; auto.
Qed.

Lemma rows_delete H p (s : cluster) :
  NoDup (map ct_handle (cl_containers s)) -> rows_after H (cl_containers s) (cl_containers (delete_rows p s).2).
Proof.
  intros Hnd. cbn. split.
  - eapply sublist_NoDup; [exact Hnd|]. apply (fmap_sublist ct_handle), sublist_filter.
  - intros c' [_ Hc]%list_elem_of_filter. left. by exists c'.
Qed.

Definition builds_after (m m' : gmap Z (build_life * bool)) : Prop :=
  forall b life i, m !! b = Some (life, i) -> life <> Pending ->
  exists life' i', m' !! b = Some (life', i') /\ life' <> Pending /\ (life = Finished -> life' = Finished).

Definition pods_after (l l' : list Pod) : Prop :=
  NoDup (map pod_name l') /\ forall p', p' ∈ l' -> exists p, p ∈ l /\ pod_name p' = pod_name p /\ pod_handle p' = pod_handle p /\
    pod_build p' = pod_build p /\ (pod_exited p = true -> pod_exited p' = true).

Lemma builds_after_refl m : builds_after m m.
Proof. intros b life i Hb Hl. eauto 6. Qed.

Lemma pods_after_refl l : NoDup (map pod_name l) -> pods_after l l.
Proof. intros Hnd. split; [done|]. intros p Hp. exists p. auto. Qed.

Lemma rows_after_refl H l : NoDup (map ct_handle l) -> rows_after H l l.
Proof. intros Hnd. split; [done|]. intros c Hc. left. exists c. auto. Qed.

Lemma known_after w w' l :
  builds_after (cl_builds (wd_cluster w)) (cl_builds (wd_cluster w')) -> known w l -> known w' l.
Proof. intros Hb (b & life & i & -> & E & Hl). destruct (Hb _ _ _ E Hl) as (life' & i' & ? & ? & _). by exists b, life', i'. Qed.

Lemma over_after w w' l :
  builds_after (cl_builds (wd_cluster w)) (cl_builds (wd_cluster w')) -> over w l -> over w' l.
Proof.
  intros Hb (b & i & -> & E). destruct (Hb _ _ _ E) as (life' & i' & E' & _ & Hf); [done|].
  exists b, i'. split; [done|]. rewrite E'. by rewrite Hf.
Qed.

(** A change of the cluster that forgets nothing. *)
Lemma evolves_cluster w f :
  world_ok w ->
  rows_after (wd_handles w) (cl_containers (wd_cluster w)) (cl_containers (f (wd_cluster w))) ->
  builds_after (cl_builds (wd_cluster w)) (cl_builds (f (wd_cluster w))) ->
  pods_after (cl_pods (wd_cluster w)) (cl_pods (f (wd_cluster w))) ->
  evolves w (on_cluster f w).
Proof.
  intros [H1 H2 H3 H7 H4 H5 H6] [Hnd Hrows] Hb [Hnp Hp].
  assert (Hk : forall l, known w l -> known (on_cluster f w) l) by (intros l; by apply known_after).
  split; [split; cbn|done|done| |exact Hk| |].
  - exact Hnd.
  - intros c' Hc'. destruct (Hrows _ Hc') as [(c & Hc & -> & _)|[_ Hh]]; auto.
  - exact H3.
  - exact Hnp.
  - intros p' Hp'. destruct (Hp _ Hp') as (p & Hin & -> & -> & -> & _). by apply H4.
  - exact H5.
  - intros n h l Hn. destruct (H6 _ _ _ Hn) as [->|Hl]; auto.
  - intros h [Hh Hd]. split; [done|]. cbn. intros c' Hc' E.
    destruct (Hrows _ Hc') as [(c & Hc & Ec & Hs)|[Hs _]]; [|done]. apply Hs, Hd; [done|congruence].
  - intros l. by apply over_after.
  - intros n [Hn Hx]. split; [done|]. cbn. intros p' Hp' E. destruct (Hp _ Hp') as (p & Hin & Ep & _ & _ & Hpx).
    apply Hpx, Hx; [done|congruence].
Qed.

(** A change of the containers only. *)
Lemma evolves_rows w f :
  world_ok w -> (forall s, cl_builds (f s) = cl_builds s) -> (forall s, cl_pods (f s) = cl_pods s) ->
  rows_after (wd_handles w) (cl_containers (wd_cluster w)) (cl_containers (f (wd_cluster w))) ->
  evolves w (on_cluster f w).
Proof.
  intros Hok Hb Hp Hr. apply evolves_cluster; [done|done|rewrite Hb; apply builds_after_refl|rewrite Hp; apply pods_after_refl; by destruct Hok].
Qed.

(** Rows that [f] moves to a state without leaving destroying. *)
Lemma evolves_update w g p (f : cluster -> Container -> Container) :
  world_ok w -> (forall s, g s = (update (p s) (f s) s).2) -> (forall s c, ct_handle (f s c) = ct_handle c) ->
  (forall s c, p s c = true -> ct_state c = Destroying -> ct_state (f s c) = Destroying) ->
  evolves w (on_cluster g w).
Proof.
  intros Hok Hg Hh Hs. apply evolves_rows; [done|by intros s; rewrite Hg|by intros s; rewrite Hg|].
  rewrite Hg. apply rows_update; [done|by apply Hs|]. by destruct Hok.
Qed.

Lemma evolves_delete w g p :
  world_ok w -> (forall s, g s = (delete_rows (p s) s).2) -> evolves w (on_cluster g w).
Proof.
  intros Hok Hg. apply evolves_rows; [done|by intros s; rewrite Hg|by intros s; rewrite Hg|].
  rewrite Hg. apply rows_delete. by destruct Hok.
Qed.

Lemma evolves_pods w f :
  world_ok w -> pods_after (cl_pods (wd_cluster w)) (f (cl_pods (wd_cluster w))) -> evolves w (on_cluster (set_pods f) w).
Proof. intros Hok Hp. apply evolves_cluster; [done|apply rows_after_refl; by destruct Hok|apply builds_after_refl|done]. Qed.

Lemma evolves_builds w f :
  world_ok w -> builds_after (cl_builds (wd_cluster w)) (f (cl_builds (wd_cluster w))) -> evolves w (on_cluster (set_builds f) w).
Proof. intros Hok Hp. apply evolves_cluster; [done|apply rows_after_refl; by destruct Hok|done|apply pods_after_refl; by destruct Hok]. Qed.

Lemma pods_after_map name (f : Pod -> Pod) l :
  (forall p, pod_name (f p) = pod_name p /\ pod_handle (f p) = pod_handle p /\ pod_build (f p) = pod_build p /\
     (pod_exited p = true -> pod_exited (f p) = true)) ->
  NoDup (map pod_name l) -> pods_after l (map (fun p => if pod_named name p then f p else p) l).
Proof.
  intros Hf Hnd. split.
  { rewrite map_map. erewrite map_ext; [exact Hnd|]. intros p. cbn. destruct (pod_named name p); [apply Hf|done]. }
  intros p' (p & -> & Hp)%list_elem_of_fmap. exists p. split; [done|]. destruct (pod_named name p); [apply Hf|auto].
Qed.

(** ** Every step of the rest of the system *)

(** A transition of one row that starts from other states than destroying. *)
Lemma not_destroying id a b c :
  a <> Destroying -> b <> Destroying ->
  (ct_id c =? id) && (in_state a c || in_state b c) = true -> ct_state c = Destroying -> False.
Proof.
  intros Ha Hb [_ Hs]%andb_true_iff E. unfold in_state in Hs. rewrite E in Hs.
  apply orb_true_iff in Hs as [Hs|Hs]; apply bool_decide_eq_true in Hs; congruence.
Qed.

Lemma new_container_evolves handle worker meta build session in_memory w :
  let e := NewContainer handle worker meta build session in_memory in
  world_ok w -> can e w = true -> evolves w (occurs e w).
Proof.
  intros e [H1 H2 H3 H7 H4 H5 H6]. cbn. rewrite !andb_true_iff, !bool_decide_eq_true, negb_true_iff, String.eqb_neq.
  intros [[Hne Hfresh] Hname].
  assert (Hk : forall l, known w l -> known (occurs e w) l) by (intros l; by apply known_after, builds_after_refl).
  split; [split; cbn|set_solver|done| |exact Hk| |done].
  - rewrite map_app. cbn. apply NoDup_app. split; [done|]. split; [|apply NoDup_singleton].
    intros x (c & -> & Hc)%list_elem_of_fmap Hx%list_elem_of_singleton. rewrite <- Hx in Hfresh. by apply Hfresh, H2.
  - intros c [Hc|Hc%list_elem_of_singleton]%elem_of_app; [set_solver|]. subst. cbn. set_solver.
  - set_solver.
  - exact H7.
  - exact H4.
  - intros n h l Hn. destruct (H5 _ _ _ Hn) as [Hh Hnh]. split; [set_solver|].
    intros [->%elem_of_singleton|Hin]%elem_of_union; [congruence|auto].
  - intros n h l Hn. destruct (H6 _ _ _ Hn); auto.
  - intros h [Hh Hd]. split; [set_solver|]. cbn. intros c [Hc|Hc%list_elem_of_singleton]%elem_of_app E; [auto|].
    subst. cbn in *. set_solver.
  - intros l. apply over_after, builds_after_refl.
Qed.

Lemma create_pod_evolves name worker handle build w :
  let e := CreatePod name worker handle build in
  world_ok w -> can e w = true -> evolves w (occurs e w).
Proof.
  intros e [H1 H2 H3 H7 H4 H5 H6]. cbn. rewrite !andb_true_iff, bool_decide_eq_true. intros [[[Hh Hnew] Hname] Hb].
  assert (Hsame : forall h l, wd_names w !! name = Some (h, l) -> h = handle /\ l = build_label build /\ l <> "").
  { intros h l E. rewrite E in Hname. rewrite !andb_true_iff, !String.eqb_eq, negb_true_iff, String.eqb_neq in Hname.
    naive_solver. }
  assert (Hlabel : build_label build = "" \/ known w (build_label build)).
  { destruct build as [b|]; [right|by left]. unfold started in Hb. cbn.
    destruct (cl_builds (wd_cluster w) !! b) as [[life i]|] eqn:E; [|done]. exists b, life, i. by destruct life. }
  assert (Hk : forall l, known w l -> known (occurs e w) l) by (intros l; by apply known_after, builds_after_refl).
  assert (Hnames : wd_names w ⊆ <[ name := (handle, build_label build) ]> (wd_names w)).
  { apply map_subseteq_spec. intros n [h l] E. destruct (decide (name = n)) as [<-|Hn]; [|by rewrite lookup_insert_ne].
    destruct (Hsame _ _ E) as (-> & -> & _). apply lookup_insert_eq. }
  split; [split; cbn|done|exact Hnames|done|exact Hk| |].
  - exact H1.
  - exact H2.
  - exact H3.
  - rewrite map_app. cbn. apply NoDup_app. split; [done|]. split; [|apply NoDup_singleton].
    intros x (p & -> & Hp)%list_elem_of_fmap Hx%list_elem_of_singleton. apply negb_true_iff in Hnew.
    apply (not_true_iff_false _) in Hnew. apply Hnew. apply existsb_exists. exists p.
    split; [by apply list_elem_of_In|]. apply String.eqb_eq. done.
  - intros p [Hp|Hp%list_elem_of_singleton]%elem_of_app; [|subst; apply lookup_insert_eq].
    eapply lookup_weaken; [by apply H4|exact Hnames].
  - intros n h l. destruct (decide (name = n)) as [<-|Hn]; [|rewrite lookup_insert_ne by done; apply H5].
    rewrite lookup_insert_eq. intros [= <- <-]. split; [done|]. intros Hin.
    destruct (wd_names w !! name) as [[h l]|] eqn:E; [|by apply bool_decide_eq_true in Hname; apply Hname].
    destruct (Hsame _ _ eq_refl) as (-> & _). by apply (H5 _ _ _ E).
  - intros n h l. destruct (decide (name = n)) as [<-|Hn].
    + rewrite lookup_insert_eq. intros [= <- <-]. destruct Hlabel; auto.
    + rewrite lookup_insert_ne by done. intros Hl. destruct (H6 _ _ _ Hl); auto.
  - intros l. apply over_after, builds_after_refl.
  - intros n [[h Hn] Hx]. split; [exists h; by eapply lookup_weaken|]. cbn.
    intros p [Hp|Hp%list_elem_of_singleton]%elem_of_app E; [by apply Hx|]. subst p. cbn in E. subst n. by destruct (Hsame _ _ Hn) as (_ & _ & ?).
Qed.

Lemma happen_evolves w e : world_ok w -> evolves w (happen w e).
Proof.
  intros Hok. unfold happen. destruct (can e w) eqn:Hcan; [|by apply evolves_same].
  destruct e; cbn [occurs].
  - by apply new_container_evolves.
  - eapply evolves_update; [done|by intros|done|]. cbn. intros _ c Hp Hd. by destruct (not_destroying id Creating Created c).
  - eapply evolves_update; [done|by intros|done|]. cbn. intros _ c Hp Hd. by destruct (not_destroying id Creating Failed c).
  - by eapply evolves_update; [done|by intros| |].
  - by eapply (evolves_update _ _ _ (fun s => set_ct_hijack (Some (cl_now s)))); [done|by intros| |].
  - by eapply evolves_delete; [done|by intros].
  - by eapply evolves_delete; [done|by intros].
  - by eapply evolves_update; [done|by intros| |].
  - by apply create_pod_evolves.
  - apply evolves_pods; [done|]. apply pods_after_map; [by intros []|by destruct Hok].
  - apply evolves_pods; [done|]. split; [|intros p [_ Hp]%list_elem_of_filter; exists p; auto].
    eapply sublist_NoDup; [by destruct Hok|]. apply (fmap_sublist pod_name), sublist_filter.
  - apply evolves_builds; [done|]. intros b' life i E Hl. destruct (decide (b = b')) as [<-|Hn].
    + cbn in Hcan. rewrite E in Hcan. by destruct life.
    + rewrite lookup_insert_ne by done. eauto 6.
  - apply evolves_builds; [done|]. intros b' life i E Hl. destruct (decide (b = b')) as [<-|Hn].
    + rewrite lookup_alter_eq, E. cbn. eauto 6.
    + rewrite lookup_alter_ne by done. eauto 6.
  - apply evolves_builds; [done|]. intros b' life i E Hl. destruct (decide (b = b')) as [<-|Hn].
    + rewrite lookup_alter_eq, E. cbn. eauto 6.
    + rewrite lookup_alter_ne by done. eauto 6.
  - by eapply (evolves_delete _ _ (fun s c => _)); [done|by intros].
  - by eapply evolves_update; [done|by intros| |].
  - by eapply (evolves_update _ _ dirty (fun _ c => set_ct_in_memory None (set_ct_state Destroying c))); [done|by intros| |].
  - by eapply (evolves_update _ _ (fun s c => _) (fun _ => set_ct_state Destroying)); [done|by intros| |].
  - apply evolves_cluster; [done|apply rows_after_refl; by destruct Hok|apply builds_after_refl|apply pods_after_refl; by destruct Hok].
Qed.

Lemma happens_evolve es w : world_ok w -> evolves w (fold_left happen es w).
Proof.
  revert w. induction es as [|e es IH]; intros w Hok; cbn; [by apply evolves_same|].
  pose proof (happen_evolves w e Hok) as He. eapply evolves_then; [exact He|]. apply IH. by destruct He.
Qed.

(** ** Pods that nothing needs *)

(** The pod has exited and belongs to no build that could read its result, or
    its build is over, or its container is not in use. *)
Definition reapable (w : world) (p : Pod) : Prop :=
  (pod_build p = "" /\ pod_exited p = true) \/ over w (pod_build p) \/ dead w (pod_handle p).

(** Every pod that ever gets this name is reapable from now on. *)
Definition doomed (w : world) (n : string) : Prop :=
  dead w n \/
  exists h l, wd_names w !! n = Some (h, l) /\ ((l = "" /\ exited w n) \/ over w l \/ dead w h).

Lemma doomed_evolves w w' n : evolves w w' -> doomed w n -> doomed w' n.
Proof.
  intros [_ _ Hn Hd _ Ho Hx] [H|(h & l & E & H)]; [left; auto|right].
  exists h, l. split; [by eapply lookup_weaken|]. naive_solver.
Qed.

Lemma doomed_reapable w n p :
  world_ok w -> doomed w n -> p ∈ cl_pods (wd_cluster w) -> pod_name p = n -> reapable w p.
Proof.
  intros [H1 H2 H3 H7 H4 H5 H6] Hd Hp <-. pose proof (H4 _ Hp) as E. destruct Hd as [Hd|(h & l & E' & Hl)].
  - right. right. destruct (H5 _ _ _ E) as [_ Hn]. rewrite <- Hn; [done|]. apply Hd.
  - rewrite E in E'. injection E' as <- <-. destruct Hl as [[El Hx]|[Ho|Hd]]; [left|right; by left|right; by right].
    split; [done|]. by apply Hx.
Qed.

Definition log_safe (log : list (string * world)) : Prop :=
  forall n w, (n, w) ∈ log -> forall p, p ∈ cl_pods (wd_cluster w) -> pod_name p = n -> reapable w p.

(** [m] keeps the world in order and deletes only reapable pods; [Q] holds of
    what it returns. *)
Definition triple {A} (P : world -> Prop) (m : R A) (Q : A -> world -> Prop) : Prop :=
  forall st, world_ok (rp_world st) -> log_safe (rp_deleted st) -> P (rp_world st) ->
  evolves (rp_world st) (rp_world (m st).2) /\ log_safe (rp_deleted (m st).2) /\
  forall a, (m st).1 = Ret a -> Q a (rp_world (m st).2).

(** What stays true once it is true. *)
Definition stable (F : world -> Prop) : Prop := forall w w', evolves w w' -> F w -> F w'.

Lemma triple_ret {A} (a : A) P : triple P (mret a) (fun b w => b = a /\ P w).
Proof. intros st Hok Hl HP. split; [by apply evolves_same|]. split; [done|]. cbn. by intros ? [= <-]. Qed.

Lemma triple_bind {A B} P (m : R A) (f : A -> R B) Q Q' :
  triple P m Q -> (forall a, triple (Q a) (f a) Q') -> triple P (m ≫= f) Q'.
Proof.
  intros Hm Hf st Hok Hl HP. destruct (Hm st Hok Hl HP) as (He & Hl' & HQ). unfold mbind, stateful_bind.
  destruct (m st) as [[a|e| |] st'] eqn:E; cbn in *; try (split; [done|]; split; [done|]; by intros).
  destruct (Hf a st') as (He' & Hl'' & HQ'); [by destruct He|done|by apply HQ|].
  split; [by eapply evolves_then|]. done.
Qed.

Lemma triple_conseq {A} (P P' : world -> Prop) (m : R A) (Q Q' : A -> world -> Prop) :
  (forall w, world_ok w -> P' w -> P w) -> (forall a w, Q a w -> Q' a w) -> triple P m Q -> triple P' m Q'.
Proof. intros HP HQ Hm st Hok Hl HP'. destruct (Hm st) as (? & ? & ?); auto. Qed.

(** A stable fact survives. *)
Lemma triple_frame {A} F P (m : R A) Q :
  stable F -> triple P m Q -> triple (fun w => P w /\ F w) m (fun a w => Q a w /\ F w).
Proof.
  intros HF Hm st Hok Hl [HP HFw]. destruct (Hm st Hok Hl HP) as (He & Hl' & HQ).
  split; [done|]. split; [done|]. intros a Ea. split; [by apply HQ|]. by apply (HF _ _ He).
Qed.

Lemma triple_try {A} P (m : R A) (Q : A -> world -> Prop) :
  triple P m Q -> triple P (try_ m) (fun r w => match r with Some a => Q a w | None => True end).
Proof.
  intros Hm st Hok Hl HP. destruct (Hm st Hok Hl HP) as (He & Hl' & HQ). unfold try_.
  destruct (m st) as [[] st']; cbn in *; split; try done; split; try done; intros ? [= <-]; auto.
Qed.

Lemma triple_quietly P (m : R unit) Q : triple P m Q -> triple P (quietly m) (fun _ _ => True).
Proof.
  intros Hm. eapply triple_bind; [by apply triple_try|]. intros r.
  eapply triple_conseq; [| |apply (triple_ret () (fun _ => True))]; done.
Qed.

Lemma before_call_evolves st :
  world_ok (rp_world st) ->
  evolves (rp_world st) (rp_world (before_call st).2) /\ rp_deleted (before_call st).2 = rp_deleted st.
Proof.
  intros Hok. unfold before_call. destruct (rp_schedule st) as [|[es fails] sched]; cbn; [by split; [apply evolves_same|]|].
  split; [by apply happens_evolve|done].
Qed.

(** A call that changes the cluster by [f] after the steps of the schedule. *)
Lemma triple_call {A} P what (f : cluster -> option (A * cluster)) (Q : A -> world -> Prop) :
  stable P ->
  (forall w a s, world_ok w -> P w -> f (wd_cluster w) = Some (a, s) ->
     evolves w (on_cluster (fun _ => s) w) /\ Q a (on_cluster (fun _ => s) w)) ->
  triple P (call what f) Q.
Proof.
  intros HPs Hf st Hok Hl HP. destruct (before_call_evolves st Hok) as [He Ed]. unfold call.
  destruct (before_call st) as [fails st1]. cbn in He, Ed.
  destruct fails; [by rewrite <- Ed in Hl|].
  destruct (f (wd_cluster (rp_world st1))) as [[a s]|] eqn:Ef; [|by rewrite <- Ed in Hl].
  destruct (Hf (rp_world st1) a s) as [He' HQ]; [by destruct He|by apply (HPs _ _ He)|done|]. cbn.
  split; [by eapply evolves_then|]. split; [by rewrite Ed|]. by intros ? [= <-].
Qed.

Lemma triple_read {A} P what (f : cluster -> A) (Q : A -> world -> Prop) :
  stable P -> (forall w, world_ok w -> P w -> Q (f (wd_cluster w)) w) -> triple P (read what f) Q.
Proof.
  intros HPs Hf. apply triple_call; [done|]. intros w a s Hok HP [= <- <-].
  assert (E : on_cluster (fun _ => wd_cluster w) w = w) by (by destruct w). rewrite E.
  split; [by apply evolves_same|auto].
Qed.

Lemma triple_write P what f (Q : world -> Prop) :
  stable P -> (forall w, world_ok w -> P w -> evolves w (on_cluster f w) /\ Q (on_cluster f w)) ->
  triple P (write what f) (fun _ => Q).
Proof. intros HPs Hf. apply triple_call; [done|]. intros w a s Hok HP [= <- <-]. by apply Hf. Qed.

Lemma triple_DeletePod n : triple (fun w => doomed w n) (DeletePod n) (fun _ _ => True).
Proof.
  intros st Hok Hl Hd. destruct (before_call_evolves st Hok) as [He Ed]. unfold DeletePod.
  destruct (before_call st) as [fails st1]. cbn in He, Ed.
  assert (Hl' : log_safe ((n, rp_world st1) :: rp_deleted st1)).
  { intros n' w' [[= -> ->]|Hin]%elem_of_cons; [|rewrite Ed in Hin; by apply Hl].
    intros p. apply doomed_reapable; [by destruct He|by eapply doomed_evolves]. }
  destruct fails; cbn; [done|]. split; [|done].
  eapply evolves_then; [exact He|]. apply evolves_pods; [by destruct He|].
  apply pods_after_map; [by intros []|]. by destruct He as [[] _].
Qed.

(** ** The parts of a sweep *)

(** What is known of pods once they have been listed. *)
Definition listed (pods : list Pod) (w : world) : Prop :=
  forall p, p ∈ pods ->
    wd_names w !! pod_name p = Some (pod_handle p, pod_build p) /\ pod_handle p ∈ wd_handles w /\ pod_handle p <> "" /\
    (pod_build p = "" \/ known w (pod_build p)) /\ (pod_exited p = true -> pod_build p = "" -> exited w (pod_name p)).

Lemma listed_stable pods : stable (listed pods).
Proof.
  intros w w' [_ Hh Hn _ Hk _ Hx] Hl p Hp. destruct (Hl p Hp) as (E & Hin & Hne & Hb & He).
  split; [by eapply lookup_weaken|]. naive_solver.
Qed.

Lemma listed_sub pods pods' w : (forall p, p ∈ pods' -> p ∈ pods) -> listed pods w -> listed pods' w.
Proof. intros Hs Hl p Hp. by apply Hl, Hs. Qed.

Lemma stable_and P Q : stable P -> stable Q -> stable (fun w => P w /\ Q w).
Proof. intros HP HQ w w' He [? ?]. split; eauto. Qed.

Lemma stable_true : stable (fun _ => True).
Proof. done. Qed.

Lemma stable_all {A} (l : list A) (F : A -> world -> Prop) :
  (forall a, stable (F a)) -> stable (fun w => forall a, a ∈ l -> F a w).
Proof. intros HF w w' He Hl a Ha. eapply HF; eauto. Qed.

Lemma doomed_stable n : stable (fun w => doomed w n).
Proof. intros w w' He. by apply doomed_evolves. Qed.

Lemma dead_stable h : stable (fun w => dead w h).
Proof. intros w w' []. auto. Qed.

Lemma NoDup_name l (p q : Pod) : NoDup (map pod_name l) -> p ∈ l -> q ∈ l -> pod_name p = pod_name q -> p = q.
Proof.
  induction l as [|x l IH]; cbn; [by intros _ ?%elem_of_nil|].
  intros [Hx Hnd]%NoDup_cons [->|Hp]%elem_of_cons [->|Hq]%elem_of_cons E; auto; exfalso; apply Hx.
  - rewrite E. by apply list_elem_of_fmap_2.
  - rewrite <- E. by apply list_elem_of_fmap_2.
Qed.

Lemma list_pods_triple worker what :
  triple (fun _ => True) (read what (fun s => filter (fun p => pod_worker p = worker) (cl_pods s))) listed.
Proof.
  apply triple_read; [done|]. intros w [H1 H2 H3 H7 H4 H5 H6] _ p [_ Hp]%list_elem_of_filter.
  pose proof (H4 _ Hp) as E. destruct (H5 _ _ _ E) as [Hh _]. split_and!; [done|done|congruence|by eapply H6|].
  intros Hx Hb. split; [exists (pod_handle p); by rewrite <- Hb|]. intros q Hq Eq.
  by rewrite (NoDup_name _ q p H7 Hq Hp Eq).
Qed.

Lemma started_running s b i : cl_builds s !! b = Some (Started, i) -> pretty b ∈ GetAllStartedBuilds s.
Proof.
  intros E. unfold GetAllStartedBuilds. apply elem_of_list_to_set, list_elem_of_fmap. exists (b, (Started, i)).
  split; [done|]. apply list_elem_of_filter. split; [done|]. by apply elem_of_map_to_list.
Qed.

Lemma split_triple hasLookup completed :
  (forall p, p ∈ completed -> pod_exited p = true) ->
  triple (listed completed) (splitCompletedPods hasLookup completed)
    (fun r w => (forall p, p ∈ r.1 -> doomed w (pod_name p)) /\ (forall p, p ∈ r.2 -> p ∈ completed)).
Proof.
  intros Hx. unfold splitCompletedPods.
  assert (Hunlabelled : forall w p, listed completed w -> p ∈ completed -> pod_build p = "" -> doomed w (pod_name p)).
  { intros w p Hl Hp Hb. destruct (Hl p Hp) as (E & _ & _ & _ & He). right.
    exists (pod_handle p), (pod_build p). split; [done|]. left. split; [done|]. apply He; [by apply Hx|done]. }
  destruct (existsb _ _) eqn:Eb.
  - destruct hasLookup; cbn [negb].
    + eapply triple_bind.
      { apply triple_try, (triple_read _ _ _ (fun running w =>
          (forall p, p ∈ completed -> pod_build p ∉ running -> doomed w (pod_name p)))); [apply listed_stable|].
        intros w Hok Hl p Hp Hrun. destruct (Hl p Hp) as (E & _ & _ & [Hb|(b & life & i & Eb' & Ebl & Hlife)] & _); [by apply Hunlabelled|].
        right. exists (pod_handle p), (pod_build p). split; [done|]. right. left. exists b, i.
        destruct life; [done| |done]. rewrite Eb' in Hrun. by destruct Hrun; eapply started_running. }
      intros [running|]; (eapply triple_conseq; [intros w _ H; exact H| |apply triple_ret]); intros r w [-> H]; cbn.
      * split; [|by intros p [_ Hp]%list_elem_of_filter]. intros p [Hr Hp]%list_elem_of_filter. by apply H.
      * split; [by intros p ?%elem_of_nil|done].
    + eapply triple_conseq; [intros w _ H; exact H| |apply triple_ret]. intros r w [-> _]. cbn.
      split; [by intros p ?%elem_of_nil|done].
  - eapply triple_conseq; [intros w _ H; exact H| |apply triple_ret]. intros r w [-> Hl]. cbn.
    split; [|by intros p ?%elem_of_nil]. intros p Hp. apply Hunlabelled; [done|done|].
    destruct (String.eqb (pod_build p) "") eqn:E; [by apply String.eqb_eq|].
    exfalso. rewrite <- not_true_iff_false in Eb. apply Eb, existsb_exists. exists p.
    split; [by apply list_elem_of_In|]. by rewrite E.
Qed.

Lemma delete_quietly_triple pods :
  triple (fun w => forall p, p ∈ pods -> doomed w (pod_name p)) (delete_quietly pods) (fun _ _ => True).
Proof.
  induction pods as [|p pods IH]; cbn [delete_quietly].
  { eapply triple_conseq; [| |apply (triple_ret () (fun _ => True))]; done. }
  eapply triple_bind.
  - eapply triple_conseq; [| |apply (triple_frame (fun w => forall q, q ∈ pods -> doomed w (pod_name q)))].
    + intros w _ H. split; [exact (H p (list_elem_of_here _ _))|]. intros q Hq. apply H. by right.
    + by intros a w H; exact H.
    + apply stable_all. intros q. apply doomed_stable.
    + apply triple_quietly with (Q := fun _ _ => True), triple_DeletePod.
  - intros a. eapply triple_conseq; [| |exact IH]; [by intros w _ [_ H]|done].
Qed.

Lemma missing_evolves worker handles w :
  world_ok w -> evolves w (on_cluster (UpdateContainersMissingSince worker handles) w).
Proof.
  intros Hok.
  set (g1 := fun s => (update (fun c => bool_decide (is_Some (ct_missing_since c)) && handle_in handles c) (set_ct_missing None) s).2).
  set (missing := fun s c => handle_in (diff (queryContainerHandles
    (fun c => String.eqb (ct_worker c) worker && bool_decide (ct_missing_since c = None)) s) handles) c && negb (in_state Creating c)).
  set (g2 := fun s => (update (missing s) (set_ct_missing (Some (cl_now s))) s).2).
  change (evolves w (on_cluster g2 (on_cluster g1 w))).
  assert (H1 : evolves w (on_cluster g1 w)).
  { by eapply (evolves_update _ _ (fun _ => _) (fun _ => set_ct_missing None)); [done|by intros| |]. }
  eapply evolves_then; [exact H1|].
  by eapply (evolves_update _ _ missing (fun s => set_ct_missing (Some (cl_now s)))); [apply H1|by intros| |].
Qed.

Lemma insert_destroying_rows worker handles H s s' :
  insert_destroying worker handles s = Some s' -> NoDup (map ct_handle (cl_containers s)) ->
  (forall h, h ∈ handles -> h ∈ H) ->
  rows_after H (cl_containers s) (cl_containers s') /\ cl_builds s' = cl_builds s /\ cl_pods s' = cl_pods s.
Proof.
  revert s. induction handles as [|h handles IH]; intros s; cbn.
  { intros [= <-] Hnd _. split; [by apply rows_after_refl|done]. }
  case_bool_decide as Hin; [done|]. intros Hins Hnd HH. apply IH in Hins as ([Hnd' Hr] & Eb & Ep).
  - split; [|done]. split; [done|]. intros c' Hc'. destruct (Hr _ Hc') as [(c & Hc & Eh & Es)|Hd]; [|by right].
    cbn in Hc. apply elem_of_app in Hc as [Hc|Hc%list_elem_of_singleton]; [left; by exists c|].
    subst c. cbn in Eh, Es. right. rewrite Eh. split; [by apply Es|]. apply HH. by left.
  - cbn. rewrite map_app. apply NoDup_app. split; [done|]. split; [|apply NoDup_singleton].
    by intros x Hx Hh%list_elem_of_singleton; subst.
  - intros x Hx. apply HH. by right.
Qed.

Lemma unknown_evolves worker handles w n s' :
  world_ok w -> (forall h, h ∈ handles -> h ∈ wd_handles w) ->
  DestroyUnknownContainers worker handles (wd_cluster w) = Some (n, s') -> evolves w (on_cluster (fun _ => s') w).
Proof.
  intros Hok HH. unfold DestroyUnknownContainers. destruct (insert_destroying _ _ _) as [s1|] eqn:E; [|done].
  intros [= <- <-]. eapply insert_destroying_rows in E as (Hr & Eb & Ep); [|by destruct Hok|].
  - apply evolves_cluster; [done|exact Hr|rewrite Eb; apply builds_after_refl|rewrite Ep; apply pods_after_refl; by destruct Hok].
  - intros h [_ Hh]%list_elem_of_filter. by apply HH.
Qed.

(** Handles of destroying rows are dead: no other row has them. *)
Lemma find_destroying_dead worker w h :
  world_ok w -> h ∈ FindDestroyingContainers worker (wd_cluster w) -> dead w h.
Proof.
  intros [H1 H2 _ _ _ _ _] (c & -> & Hc)%list_elem_of_fmap. apply list_elem_of_filter in Hc as [Hs Hc].
  apply andb_true_iff in Hs as [Hs%bool_decide_eq_true _]. split; [by apply H2|]. intros c' Hc' E.
  assert (c' = c) as ->; [|done]. revert H1 Hc Hc' E. generalize (cl_containers (wd_cluster w)) as l.
  induction l as [|x l IH]; cbn; [by intros _ ?%elem_of_nil|].
  intros [Hx Hnd]%NoDup_cons [->|Hc]%elem_of_cons [->|Hc']%elem_of_cons E; auto; exfalso; apply Hx.
  - rewrite <- E. by apply list_elem_of_fmap_2.
  - rewrite E. by apply list_elem_of_fmap_2.
Qed.

Lemma handleToPodName_spec pods h n :
  handleToPodName pods !! h = Some n -> exists p, p ∈ pods /\ handle_of p = h /\ pod_name p = n.
Proof.
  unfold handleToPodName.
  cut (forall m : gmap string string, (forall h n, m !! h = Some n -> exists p, p ∈ pods /\ handle_of p = h /\ pod_name p = n) ->
    forall l, (forall p, p ∈ l -> p ∈ pods) ->
    fold_left (fun m p => <[ handle_of p := pod_name p ]> m) l m !! h = Some n ->
    exists p, p ∈ pods /\ handle_of p = h /\ pod_name p = n).
  { intros Hc. apply (Hc ∅); [|done]. intros h' n'. by rewrite lookup_empty. }
  intros m Hm l. revert m Hm. induction l as [|p l IH]; intros m Hm Hl; cbn; [apply Hm|].
  apply IH; [|intros q Hq; apply Hl; by right]. intros h' n'. destruct (decide (handle_of p = h')) as [<-|Hne].
  - rewrite lookup_insert_eq. intros [= <-]. exists p. split; [|done]. apply Hl. by left.
  - rewrite lookup_insert_ne by done. apply Hm.
Qed.

Lemma listed_handle pods w p : listed pods w -> p ∈ pods -> handle_of p = pod_handle p /\ pod_handle p ∈ wd_handles w.
Proof.
  intros Hl Hp. destruct (Hl p Hp) as (_ & Hh & Hne & _). split; [|done]. unfold handle_of.
  by destruct (String.eqb_spec (pod_handle p) "").
Qed.

Lemma delete_destroying_triple pods handles :
  triple (fun w => listed pods w /\ forall h, h ∈ handles -> dead w h)
    (delete_destroying (handleToPodName pods) handles) (fun _ _ => True).
Proof.
  induction handles as [|h handles IH]; cbn [delete_destroying].
  { eapply triple_conseq; [| |apply (triple_ret () (fun _ => True))]; done. }
  eapply triple_bind.
  - eapply triple_conseq; [| |apply (triple_frame (fun w => listed pods w /\ forall h, h ∈ handles -> dead w h)
      (fun w => doomed w (default h (handleToPodName pods !! h))))].
    + intros w _ [Hl H]. split; [|split; [done|intros h' Hh'; apply H; by right]].
      assert (Hd : dead w h) by (apply H; by left).
      destruct (handleToPodName pods !! h) as [n|] eqn:E; cbn; [|by left].
      apply handleToPodName_spec in E as (p & Hp & Eh & <-). right.
      destruct (Hl p Hp) as (En & _). destruct (listed_handle _ _ _ Hl Hp) as [Eh' _].
      exists (pod_handle p), (pod_build p). split; [done|]. right. right. congruence.
    + by intros a w H; exact H.
    + apply stable_and; [apply listed_stable|]. apply stable_all. intros h'. apply dead_stable.
    + apply triple_DeletePod.
  - intros a. eapply triple_conseq; [| |exact IH]; [by intros w _ [_ H]|done].
Qed.

Lemma DestroyContainers_triple F worker handles : stable F -> triple F (DestroyContainers worker handles) (fun _ => F).
Proof.
  intros HF. unfold DestroyContainers. destruct (String.eqb worker "").
  { intros st Hok Hl HP. split; [by apply evolves_same|]. split; [done|]. by intros a Ha. }
  eapply triple_bind.
  - apply (triple_call F _ _ (fun _ => F)); [done|]. intros w n s Hok HFw [= <- <-].
    assert (He : evolves w (on_cluster (fun s => (RemoveDestroyingContainers worker handles s).2) w))
      by (by eapply (evolves_delete _ _ (fun s c => _)); [done|by intros]).
    split; [exact He|]. by apply (HF _ _ He).
  - intros n. eapply triple_conseq; [| |apply (triple_ret () F)]; [done|by intros ? ? [_ ?]].
Qed.

Lemma reaper_triple hasLookup worker : triple (fun _ => True) (reaper_Run hasLookup worker) (fun _ _ => True).
Proof.
  unfold reaper_Run. eapply triple_bind; [apply list_pods_triple|]. intros pods.
  set (completed := filter (fun p => pod_exited p = true) pods). set (others := filter (fun p => pod_exited p = false) pods).
  eapply triple_bind.
  { eapply triple_conseq; [| |apply (triple_frame (listed pods) (listed completed)), (split_triple hasLookup completed)].
    - intros w _ Hl. split; [|exact Hl]. eapply listed_sub; [|exact Hl]. by intros p [_ Hp]%list_elem_of_filter.
    - intros a w H. exact H.
    - apply listed_stable.
    - by intros p [Hx _]%list_elem_of_filter. }
  intros [reapNow retained]. cbn [fst snd]. set (remaining := others ++ retained).
  eapply (triple_bind _ _ _ (fun _ => listed remaining)).
  { intros st Hok Hl [[Hd Hsub] Hlp]. revert st Hok Hl Hd Hlp.
    enough (triple (fun w => (forall p, p ∈ reapNow -> doomed w (pod_name p)) /\ listed pods w)
      (delete_quietly reapNow) (fun _ => listed remaining)) as Ht by (intros; by apply Ht).
    eapply triple_conseq; [by intros w _ H; exact H| |apply triple_frame, delete_quietly_triple; apply listed_stable].
    intros a w [_ Hlp]. eapply listed_sub; [|exact Hlp].
    intros p [[_ Hp]%list_elem_of_filter|Hp]%elem_of_app; [done|]. apply Hsub in Hp. by apply list_elem_of_filter in Hp as [_ Hp]. }
  intros _u. set (handles := map handle_of remaining). pose proof (listed_stable remaining) as Hst.
  eapply (triple_bind _ _ _ (fun _ => listed remaining)).
  { apply triple_write; [done|]. intros w Hok Hl. pose proof (missing_evolves worker handles w Hok) as He.
    split; [exact He|]. by apply (Hst _ _ He). }
  intros _u0. eapply triple_bind; [by apply (DestroyContainers_triple (listed remaining))|]. intros _u1.
  eapply (triple_bind _ _ _ (fun _ => listed remaining)).
  { apply triple_call; [done|]. intros w n s Hok Hl Hs.
    assert (He : evolves w (on_cluster (fun _ => s) w)).
    { eapply unknown_evolves; [done| |exact Hs]. intros h (p & -> & Hp)%list_elem_of_fmap.
      destruct (listed_handle _ _ _ Hl Hp) as [-> Hin]. done. }
    split; [exact He|]. by apply (Hst _ _ He). }
  intros _u2. eapply triple_bind; [|apply delete_destroying_triple].
  apply (triple_read _ _ _ (fun destroying w => listed remaining w /\ forall h, h ∈ destroying -> dead w h)); [done|].
  intros w Hok Hl. split; [done|]. intros h Hh. by eapply find_destroying_dead.
Qed.

(** C8: Whatever happens in the database and in the cluster between the calls of a
    sweep, and whichever calls fail: at the moment the reaper asks for a pod to
    be deleted, the pod has exited and belongs to no build, or its build is over,
    or no container of its handle is in use.  The name of a pod without a build is
    taken to be used once. *)
Theorem reaper_deletes_only_reapable hasLookup worker st n w p :
  world_ok (rp_world st) -> rp_deleted st = [] ->
  (n, w) ∈ rp_deleted (reaper_Run hasLookup worker st).2 ->
  p ∈ cl_pods (wd_cluster w) -> pod_name p = n -> reapable w p.
Proof.
  intros Hok Hd Hin. destruct (reaper_triple hasLookup worker st Hok) as (_ & Hl & _); [|done|by apply Hl].
  rewrite Hd. by intros ? ? ?%elem_of_nil.
Qed.

(** ** A sweep that nothing disturbs *)

Definition rp_cluster (st : reap_state) : cluster := wd_cluster (rp_world st).

(** [m] returns [a] and leaves the cluster [s], with nothing scheduled. *)
Definition quiet {A} (m : R A) (st : reap_state) (a : A) (s : cluster) : Prop :=
  exists st', m st = (Ret a, st') /\ rp_schedule st' = [] /\ rp_cluster st' = s.

Lemma quiet_bind {A B} (m : R A) (f : A -> R B) st a s b s' :
  quiet m st a s -> (forall st', rp_schedule st' = [] -> rp_cluster st' = s -> quiet (f a) st' b s') -> quiet (m ≫= f) st b s'.
Proof.
  intros (st' & E & Hs & Hc) Hf. destruct (Hf st' Hs Hc) as (st'' & E' & ? & ?). exists st''.
  unfold mbind, stateful_bind. by rewrite E, E'.
Qed.

Lemma quiet_ret {A} (a : A) st : rp_schedule st = [] -> quiet (mret a) st a (rp_cluster st).
Proof. intros Hs. by exists st. Qed.

Lemma quiet_call {A} what f st (a : A) s :
  rp_schedule st = [] -> f (rp_cluster st) = Some (a, s) -> quiet (call what f) st a s.
Proof.
  intros Hs Hf. unfold quiet, call, before_call. rewrite Hs. unfold rp_cluster in Hf. rewrite Hf. by eexists.
Qed.

Lemma quiet_read {A} what (f : cluster -> A) st :
  rp_schedule st = [] -> quiet (read what f) st (f (rp_cluster st)) (rp_cluster st).
Proof. intros Hs. by apply quiet_call. Qed.

Lemma quiet_try {A} (m : R A) st a s : quiet m st a s -> quiet (try_ m) st (Some a) s.
Proof. intros (st' & E & ?). exists st'. unfold try_. by rewrite E. Qed.

Lemma quiet_quietly (m : R unit) st s : quiet m st () s -> quiet (quietly m) st () s.
Proof.
  intros Hm. eapply quiet_bind; [by apply quiet_try|]. intros st' Hs <-. by apply quiet_ret.
Qed.

(** The pods of these names are being deleted. *)
Definition kill (names : list string) (p : Pod) : Pod :=
  if bool_decide (pod_name p ∈ names) then set_pod_terminating p else p.

Lemma kill_nil p : kill [] p = p.
Proof. done. Qed.

Lemma kill_name names p : pod_name (kill names p) = pod_name p.
Proof. unfold kill. by case_bool_decide. Qed.

Lemma kill_cons n names p : kill names (if pod_named n p then set_pod_terminating p else p) = kill (n :: names) p.
Proof.
  unfold kill, pod_named. destruct (String.eqb_spec (pod_name p) n) as [E|E]; cbn [pod_name set_pod_terminating].
  - rewrite (bool_decide_true (pod_name p ∈ n :: names)) by (rewrite E; by left). by case_bool_decide.
  - assert (Hiff : pod_name p ∈ n :: names <-> pod_name p ∈ names) by (rewrite elem_of_cons; naive_solver).
    by rewrite (bool_decide_ext _ _ Hiff).
Qed.

Lemma set_pods_compose f g s : set_pods f (set_pods g s) = set_pods (fun l => f (g l)) s.
Proof. done. Qed.

Lemma set_pods_map_ext f g s : (forall p, f p = g p) -> set_pods (map f) s = set_pods (map g) s.
Proof. intros H. unfold set_pods. f_equal. by apply map_ext. Qed.

Lemma kill_step n names s : set_pods (map (kill names)) (on_pod n set_pod_terminating s) = set_pods (map (kill (n :: names))) s.
Proof.
  unfold on_pod. rewrite set_pods_compose. unfold set_pods. f_equal. rewrite map_map. apply map_ext, kill_cons.
Qed.

Lemma set_pods_id s : set_pods (map (kill [])) s = s.
Proof. destruct s as [? ? ? ? ? pods]. unfold set_pods. cbn. f_equal. induction pods; cbn; [done|]. by f_equal. Qed.

Lemma quiet_DeletePod n st : rp_schedule st = [] -> quiet (DeletePod n) st () (on_pod n set_pod_terminating (rp_cluster st)).
Proof. intros Hs. unfold quiet, DeletePod, before_call. rewrite Hs. by eexists. Qed.

Lemma quiet_delete_quietly pods st :
  rp_schedule st = [] ->
  quiet (delete_quietly pods) st () (set_pods (map (kill (map pod_name pods))) (rp_cluster st)).
Proof.
  revert st. induction pods as [|p pods IH]; intros st Hs; cbn [delete_quietly map].
  { rewrite set_pods_id. by apply quiet_ret. }
  rewrite <- kill_step. eapply quiet_bind.
  - by apply quiet_quietly, quiet_DeletePod.
  - intros st' Hs' <-. by apply IH.
Qed.

Lemma quiet_delete_destroying names handles st :
  rp_schedule st = [] ->
  quiet (delete_destroying names handles) st ()
    (set_pods (map (kill (map (fun h => default h (names !! h)) handles))) (rp_cluster st)).
Proof.
  revert st. induction handles as [|h handles IH]; intros st Hs; cbn [delete_destroying map].
  { rewrite set_pods_id. by apply quiet_ret. }
  rewrite <- kill_step. eapply quiet_bind; [by apply quiet_DeletePod|]. intros st' Hs' <-. by apply IH.
Qed.

(** A completed pod is kept for its build: the build is started, or the reaper
    cannot look builds up and some completed pod has one. *)
Definition kept_for_build (hasLookup : bool) (s : cluster) (completed : list Pod) (p : Pod) : Prop :=
  if hasLookup then pod_build p ∈ GetAllStartedBuilds s
  else exists q, q ∈ completed /\ pod_build q <> "".

(** The split of the completed pods: none is forgotten, and one is kept only for
    its build. *)
Lemma quiet_split hasLookup completed s :
  exists reap retain,
    (forall st, rp_schedule st = [] -> rp_cluster st = s -> quiet (splitCompletedPods hasLookup completed) st (reap, retain) s) /\
    retain `sublist_of` completed /\ (forall p, p ∈ completed -> p ∈ reap \/ p ∈ retain) /\
    forall p, p ∈ retain -> kept_for_build hasLookup s completed p.
Proof.
  unfold splitCompletedPods, kept_for_build. destruct (existsb _ _) eqn:Hany; [destruct hasLookup; cbn [negb]|].
  - set (running := GetAllStartedBuilds s).
    exists (filter (fun p => pod_build p ∉ running) completed), (filter (fun p => pod_build p ∈ running) completed).
    split; [|split; [apply sublist_filter|split]].
    + intros st Hs Hst. eapply quiet_bind; [by apply quiet_try, quiet_read|]. rewrite Hst. intros st' Hs' Hc. by exists st'.
    + intros p Hp. destruct (decide (pod_build p ∈ running)); [right|left]; by apply list_elem_of_filter.
    + by intros p [Hp _]%list_elem_of_filter.
  - exists [], completed. split; [intros st Hs <-; by apply quiet_ret|]. split; [done|]. split; [by right|]. intros p _.
    apply existsb_exists in Hany as (q & Hq & Hl). exists q. split; [by apply list_elem_of_In|].
    by apply negb_true_iff, String.eqb_neq in Hl.
  - exists completed, []. split; [intros st Hs <-; by apply quiet_ret|]. split; [apply sublist_nil_l|].
    split; [by left|]. by intros p ?%elem_of_nil.
Qed.

Lemma insert_destroying_ok worker handles s :
  NoDup handles -> (forall h, h ∈ handles -> h ∉ map ct_handle (cl_containers s)) ->
  exists s', insert_destroying worker handles s = Some s' /\ cl_pods s' = cl_pods s /\
    (forall c, c ∈ cl_containers s -> c ∈ cl_containers s') /\
    (forall h, h ∈ handles -> h ∈ FindDestroyingContainers worker s').
Proof.
  revert s. induction handles as [|h handles IH]; intros s Hnd Hnew; cbn.
  { exists s. split_and!; try done. by intros h ?%elem_of_nil. }
  apply NoDup_cons in Hnd as [Hh Hnd]. rewrite bool_decide_false by (apply Hnew; by left).
  match goal with |- context [insert_destroying _ _ ?t] => set (s1 := t) end.
  destruct (IH s1 Hnd) as (s' & E & Ep & Hrows & Hd).
  { intros h' Hh'. cbn. rewrite map_app. intros [Hin|Hin%list_elem_of_singleton]%elem_of_app; [|cbn in Hin; congruence].
    revert Hin. apply Hnew. by right. }
  exists s'. split_and!; [done|done| |].
  - intros c Hc. apply Hrows. apply elem_of_app. by left.
  - intros h' [->|Hh']%elem_of_cons; [|auto]. unfold FindDestroyingContainers, queryContainerHandles.
    apply list_elem_of_fmap. eexists. split; [|apply list_elem_of_filter; split; [|apply Hrows, elem_of_app; right; by left]].
    + done.
    + cbn. by rewrite String.eqb_refl.
Qed.

Lemma handleToPodName_elem pods p :
  NoDup (map handle_of pods) -> p ∈ pods -> handleToPodName pods !! handle_of p = Some (pod_name p).
Proof.
  unfold handleToPodName. intros Hnd Hp.
  cut (forall l (m : gmap string string), NoDup (map handle_of l) ->
    p ∈ l \/ ((handle_of p ∉ map handle_of l) /\ m !! handle_of p = Some (pod_name p)) ->
    fold_left (fun m p => <[ handle_of p := pod_name p ]> m) l m !! handle_of p = Some (pod_name p)); [auto|].
  clear. induction l as [|q l IH]; intros m Hnd Hp; cbn.
  { by destruct Hp as [?%elem_of_nil|[_ ?]]. }
  cbn in Hnd. apply NoDup_cons in Hnd as [Hq Hnd]. apply IH; [done|]. destruct Hp as [[->|Hp]%elem_of_cons|[Hn Hm]].
  - right. split; [done|]. apply lookup_insert_eq.
  - by left.
  - right. cbn in Hn. apply not_elem_of_cons in Hn as [Hne Hn]. split; [done|]. by rewrite lookup_insert_ne.
Qed.

(** Rows of [s'] are rows of [s], with the same handle, worker and state. *)
Definition sub_rows (s s' : cluster) : Prop :=
  forall c', c' ∈ cl_containers s' -> exists c, c ∈ cl_containers s /\ ct_handle c' = ct_handle c /\
    ct_worker c' = ct_worker c /\ ct_state c' = ct_state c.

Lemma sub_rows_missing worker handles s : sub_rows s (UpdateContainersMissingSince worker handles s).
Proof.
  intros c' Hc'. unfold UpdateContainersMissingSince, update in Hc'. cbn in Hc'. rewrite map_map in Hc'.
  apply list_elem_of_fmap in Hc' as (c & -> & Hc). exists c. split; [done|].
  destruct (_ && _); destruct (_ && _); done.
Qed.

Lemma sub_rows_remove worker handles s : sub_rows s (RemoveDestroyingContainers worker handles s).2.
Proof. intros c' [_ Hc']%list_elem_of_filter. by exists c'. Qed.

Lemma NoDup_handle l (p q : Pod) : NoDup (map handle_of l) -> p ∈ l -> q ∈ l -> handle_of p = handle_of q -> p = q.
Proof.
  induction l as [|x l IH]; cbn; [by intros _ ?%elem_of_nil|].
  intros [Hx Hnd]%NoDup_cons [->|Hp]%elem_of_cons [->|Hq]%elem_of_cons E; auto; exfalso; apply Hx.
  - rewrite E. by apply list_elem_of_fmap_2.
  - rewrite <- E. by apply list_elem_of_fmap_2.
Qed.

(** The pods a sweep reports have different handles. *)
Lemma remaining_handles pods retained :
  NoDup (map handle_of pods) -> retained `sublist_of` filter (fun p => pod_exited p = true) pods ->
  NoDup (map handle_of (filter (fun p => pod_exited p = false) pods ++ retained)).
Proof.
  intros Hnd Hsub. rewrite map_app. apply NoDup_app. split; [|split].
  - eapply sublist_NoDup; [exact Hnd|]. apply (fmap_sublist handle_of), sublist_filter.
  - intros h (p & -> & [Hx Hp]%list_elem_of_filter)%list_elem_of_fmap (q & E & Hq)%list_elem_of_fmap.
    eapply elem_of_sublist in Hq; [|exact Hsub]. apply list_elem_of_filter in Hq as [Hqx Hq].
    rewrite (NoDup_handle _ p q Hnd Hp Hq E) in Hx. congruence.
  - eapply sublist_NoDup; [exact Hnd|]. apply (fmap_sublist handle_of). etrans; [exact Hsub|apply sublist_filter].
Qed.

(** The rows of the reported pods after the unknown ones were inserted: a pod
    whose container is not being destroyed had a row in use, and none of its rows
    is being destroyed. *)
Lemma unknown_known worker handles s :
  NoDup handles -> (forall c, c ∈ cl_containers s -> ct_handle c ∈ handles -> ct_worker c = worker) ->
  exists n s', DestroyUnknownContainers worker handles s = Some (n, s') /\ cl_pods s' = cl_pods s /\
    forall h, h ∈ handles -> h ∉ FindDestroyingContainers worker s' ->
      (exists c, c ∈ cl_containers s /\ c ∈ cl_containers s' /\ ct_handle c = h /\ ct_state c <> Destroying) /\
      forall c, c ∈ cl_containers s' -> ct_handle c = h -> ct_worker c = worker -> ct_state c <> Destroying.
Proof.
  intros Hnd Hw. unfold DestroyUnknownContainers.
  set (db := queryContainerHandles (fun c => String.eqb (ct_worker c) worker) s).
  assert (Hdb : forall h, h ∈ handles -> h ∉ db -> h ∉ map ct_handle (cl_containers s)).
  { intros h Hh Hn (c & -> & Hc)%list_elem_of_fmap. apply Hn. apply list_elem_of_fmap. exists c. split; [done|].
    apply list_elem_of_filter. split; [|done]. apply String.eqb_eq. by apply Hw. }
  destruct (insert_destroying_ok worker (diff handles db) s) as (s' & E & Ep & Hrows & Hd).
  { eapply sublist_NoDup; [exact Hnd|]. apply sublist_filter. }
  { intros h [Hn Hh]%list_elem_of_filter. by apply Hdb. }
  exists (length (diff handles db)), s'. rewrite E. split; [done|]. split; [done|]. intros h Hh Hnd'.
  destruct (decide (h ∈ db)) as [Hin|Hn]; [|by destruct Hnd'; apply Hd, list_elem_of_filter].
  apply list_elem_of_fmap in Hin as (c & -> & Hc). apply list_elem_of_filter in Hc as [Hwc Hc].
  assert (Hfree : forall c', c' ∈ cl_containers s' -> ct_handle c' = ct_handle c -> ct_worker c' = worker ->
    ct_state c' <> Destroying).
  { intros c' Hc' Eh Ew Es. apply Hnd', list_elem_of_fmap. exists c'. split; [done|]. apply list_elem_of_filter.
    split; [|done]. unfold in_state. by rewrite bool_decide_true, Ew, String.eqb_refl. }
  split; [|exact Hfree]. exists c. split_and!; [done|by apply Hrows|done|]. apply Hfree; [by apply Hrows|done|].
  by apply String.eqb_eq.
Qed.

Lemma kill_alive names p : pod_terminating (kill names p) = false -> (pod_name p ∉ names) /\ kill names p = p.
Proof. unfold kill. by case_bool_decide. Qed.

(** The cluster after a sweep that found [reap] and [remaining] and inserted the
    unknown containers. *)
Definition after_missing (worker : string) (reap remaining : list Pod) (s : cluster) : cluster :=
  (RemoveDestroyingContainers worker (map handle_of remaining)
    (UpdateContainersMissingSince worker (map handle_of remaining) (set_pods (map (kill (map pod_name reap))) s))).2.

Lemma sweep_runs hasLookup worker st s reap retain n s4 :
  let pods := filter (fun p => pod_worker p = worker) (cl_pods s) in
  let remaining := filter (fun p => pod_exited p = false) pods ++ retain in
  rp_schedule st = [] -> rp_cluster st = s -> worker <> "" ->
  (forall st, rp_schedule st = [] -> rp_cluster st = s ->
     quiet (splitCompletedPods hasLookup (filter (fun p => pod_exited p = true) pods)) st (reap, retain) s) ->
  DestroyUnknownContainers worker (map handle_of remaining) (after_missing worker reap remaining s) = Some (n, s4) ->
  quiet (reaper_Run hasLookup worker) st ()
    (set_pods (map (kill (map (fun h => default h (handleToPodName remaining !! h)) (FindDestroyingContainers worker s4)))) s4).
Proof.
  intros pods remaining Hs <- Hwk Hsplit E. unfold reaper_Run.
  eapply quiet_bind; [by apply quiet_read|]. intros st1 Hs1 Hc1. fold pods.
  eapply quiet_bind; [by apply Hsplit|]. intros st2 Hs2 Hc2. fold remaining. rewrite <- Hc2 in E.
  eapply quiet_bind; [by apply quiet_delete_quietly|]. intros st3 Hs3 Hc3.
  eapply quiet_bind; [by apply quiet_call|]. intros st4 Hs4 Hc4. rewrite Hc3 in Hc4.
  eapply quiet_bind.
  { unfold DestroyContainers. rewrite (proj2 (String.eqb_neq _ _) Hwk).
    eapply quiet_bind; [by apply quiet_call; [done|rewrite Hc4; reflexivity]|]. intros st5 Hs5 Hc5. by exists st5. }
  intros st5 Hs5 Hc5. eapply quiet_bind; [apply quiet_call; [done|by rewrite Hc5]|].
  intros st6 Hs6 Hc6. eapply quiet_bind; [by apply quiet_read|]. intros st7 Hs7 Hc7. rewrite Hc6 in *.
  rewrite <- Hc7. by apply quiet_delete_destroying.
Qed.

(** C9: A sweep that no other step and no failure disturbs returns, for a worker
    whose pods have different handles, which no container of another worker has.
    Every pod of the worker that is not being deleted afterwards had a container
    in use when the sweep began and has it still, and none that is being
    destroyed; and if it has exited, its build is started, or the reaper has no
    lookup of builds and some exited pod has a build.  So the exited pods of
    builds that are over, the pods of containers being destroyed and the pods
    without a container are all being deleted. *)
Theorem clean_sweep hasLookup worker st :
  rp_schedule st = [] -> worker <> "" ->
  let s := rp_cluster st in
  let pods := filter (fun p => pod_worker p = worker) (cl_pods s) in
  NoDup (map handle_of pods) ->
  (forall c p, c ∈ cl_containers s -> p ∈ pods -> ct_handle c = handle_of p -> ct_worker c = worker) ->
  exists st', reaper_Run hasLookup worker st = (Ret (), st') /\
    forall p, p ∈ cl_pods (rp_cluster st') -> pod_worker p = worker -> pod_terminating p = false ->
      p ∈ pods /\
      (pod_exited p = true ->
         kept_for_build hasLookup s (filter (fun p => pod_exited p = true) pods) p) /\
      (exists c, c ∈ cl_containers s /\ ct_handle c = handle_of p /\ ct_state c <> Destroying) /\
      (exists c, c ∈ cl_containers (rp_cluster st') /\ ct_handle c = handle_of p /\ ct_state c <> Destroying) /\
      (forall c, c ∈ cl_containers (rp_cluster st') -> ct_handle c = handle_of p -> ct_worker c = worker ->
         ct_state c <> Destroying).
Proof.
  intros Hs Hwk s pods Hnd Hw.
  destruct (quiet_split hasLookup (filter (fun p => pod_exited p = true) pods) s) as (reap & retain & Hq & Hsub & Hall & Hkept).
  set (remaining := filter (fun p => pod_exited p = false) pods ++ retain).
  assert (Hrem : forall p, p ∈ remaining -> p ∈ pods).
  { intros p [[_ Hp]%list_elem_of_filter|Hp]%elem_of_app; [done|].
    eapply elem_of_sublist in Hp; [|exact Hsub]. by apply list_elem_of_filter in Hp as [_ ?]. }
  pose proof (remaining_handles pods retain Hnd Hsub) as Hndh.
  destruct (unknown_known worker (map handle_of remaining) (after_missing worker reap remaining s))
    as (n & s4 & E4 & Ep4 & Hknown); [exact Hndh| |].
  { intros c3 (c2 & (c & Hc & Eh & Ew & _)%sub_rows_missing & Eh2 & Ew2 & _)%sub_rows_remove (p & Ehp & Hp)%list_elem_of_fmap.
    rewrite Ew2, Ew. apply (Hw c p); [exact Hc|by apply Hrem|congruence]. }
  destruct (sweep_runs hasLookup worker st s reap retain n s4 Hs eq_refl Hwk Hq E4) as (st' & Erun & _ & Hfinal).
  exists st'. split; [exact Erun|]. rewrite Hfinal. cbn. fold pods remaining.
  intros p (p4 & -> & Hp4)%list_elem_of_fmap Hpw Ht. destruct (kill_alive _ _ Ht) as [Hn4 Ek]. rewrite Ek in *. clear Ek.
  rewrite Ep4 in Hp4. apply list_elem_of_fmap in Hp4 as (p0 & -> & Hp0).
  destruct (kill_alive _ _ Ht) as [Hn1 Ek]. rewrite Ek in *. clear Ek.
  assert (Hpods : p0 ∈ pods) by (by apply list_elem_of_filter).
  assert (Hin : p0 ∈ remaining).
  { apply elem_of_app. destruct (pod_exited p0) eqn:Ex; [right|left; by apply list_elem_of_filter].
    destruct (Hall p0) as [Hr|Hr]; [by apply list_elem_of_filter| |done]. destruct Hn1. by apply list_elem_of_fmap_2. }
  destruct (Hknown (handle_of p0)) as [(c3 & Hc3 & Hc4 & Eh & Est) Hfree]; [by apply list_elem_of_fmap_2| |].
  { intros Hd. apply Hn4. apply list_elem_of_fmap.
    exists (handle_of p0). split; [|done]. by rewrite (handleToPodName_elem remaining p0 Hndh Hin). }
  split; [done|]. split; [|split; [|split; [by exists c3|exact Hfree]]].
  - intros Hx. apply Hkept. apply elem_of_app in Hin as [[Hx' _]%list_elem_of_filter|Hin]; [congruence|done].
  - apply sub_rows_remove in Hc3 as (c2 & (c & Hc & F1 & _ & F2)%sub_rows_missing & F3 & _ & F4).
    exists c. split_and!; [exact Hc|congruence..].
Qed.

(** ** A cluster at work *)

Module Sweep.

Definition empty : world :=
  {| wd_cluster := {| cl_now := 0; cl_containers := []; cl_next_id := 1; cl_builds := ∅; cl_workers_stalled := ∅; cl_pods := [] |};
     wd_handles := ∅; wd_names := ∅ |}.

(** A step of build 7 and a check without a build ID are running. *)
Definition busy : world :=
  fold_left happen
    [BuildStarts 7; NewContainer "h1" "k8s" "task" (Some 7) None None; MarkCreated 1; CreatePod "task-pod" "k8s" "h1" (Some 7);
     NewContainer "h2" "k8s" "check" None None (Some (1, 0)); MarkCreated 2; CreatePod "check-pod" "k8s" "h2" None] empty.

Lemma busy_ok : world_ok busy.
Proof.
  assert (He : world_ok empty).
  { split; cbn; intros; try apply NoDup_nil_2; set_solver. }
  apply (happens_evolve _ _ He).
Qed.

(** The check exits before the sweep, the task while the reaper looks up the
    builds. *)
Definition sweep : reap_state :=
  {| rp_world := fold_left happen [PodExits "check-pod"] busy;
     rp_schedule := [([], false); ([PodExits "task-pod"; BuildFinishes 7], false)]; rp_deleted := [] |}.

Definition deletion : string * world := default ("", empty) (head (rp_deleted (reaper_Run true "k8s" sweep).2)).

Lemma reaper_deletes_only_reapable_witness :
  deletion.1 = "check-pod" /\
  forall p, p ∈ cl_pods (wd_cluster deletion.2) -> pod_name p = "check-pod" -> reapable deletion.2 p.
Proof.
  split; [vm_compute; reflexivity|]. intros p Hp Hn.
  apply (reaper_deletes_only_reapable true "k8s" sweep deletion.1 deletion.2 p).
  - apply (happens_evolve [PodExits "check-pod"] busy busy_ok).
  - reflexivity.
  - vm_compute. left.
  - exact Hp.
  - rewrite Hn. vm_compute. reflexivity.
Defined.

(** Both pods have exited and their build is over; the pod of another build runs. *)
Definition undisturbed : reap_state :=
  {| rp_world := fold_left happen
       [BuildStarts 8; NewContainer "h3" "k8s" "task" (Some 8) None None; MarkCreated 3; CreatePod "other-pod" "k8s" "h3" (Some 8);
        PodExits "task-pod"; PodExits "check-pod"; BuildFinishes 7] busy;
     rp_schedule := []; rp_deleted := [] |}.

Lemma clean_sweep_witness :
  let s := rp_cluster undisturbed in
  let pods := filter (fun p => pod_worker p = "k8s") (cl_pods s) in
  map fst (rp_deleted (reaper_Run true "k8s" undisturbed).2) = ["check-pod"; "task-pod"] /\
  exists st', reaper_Run true "k8s" undisturbed = (Ret (), st') /\
    forall p, p ∈ cl_pods (rp_cluster st') -> pod_worker p = "k8s" -> pod_terminating p = false ->
      p ∈ pods /\
      (pod_exited p = true -> kept_for_build true s (filter (fun p => pod_exited p = true) pods) p) /\
      (exists c, c ∈ cl_containers s /\ ct_handle c = handle_of p /\ ct_state c <> Destroying) /\
      (exists c, c ∈ cl_containers (rp_cluster st') /\ ct_handle c = handle_of p /\ ct_state c <> Destroying) /\
      (forall c, c ∈ cl_containers (rp_cluster st') -> ct_handle c = handle_of p -> ct_worker c = "k8s" ->
         ct_state c <> Destroying).
Proof.
  cbn zeta. split; [vm_compute; reflexivity|]. apply (clean_sweep true "k8s" undisturbed).
  - reflexivity.
  - discriminate.
  - apply (bool_decide_unpack _). vm_compute. exact I.
  - intros c p Hc _ _. assert (Hall : forallb (fun c => String.eqb (ct_worker c) "k8s") (cl_containers (rp_cluster undisturbed)) = true)
      by (vm_compute; reflexivity).
    apply String.eqb_eq. rewrite forallb_forall in Hall. by apply Hall, list_elem_of_In.
Defined.

(** The reaper deletes by name: a pod without a build that was listed as exited,
    and that a repeated check of its container has replaced since, is deleted
    while it runs. *)
Example replaced_pod_killed :
  let listed := {| pod_name := "check-pod"; pod_worker := "k8s"; pod_handle := "h2"; pod_build := "";
                   pod_exited := true; pod_terminating := false |} in
  let st := (delete_quietly [listed] {| rp_world := busy; rp_schedule := []; rp_deleted := [] |}).2 in
  map (fun p => (pod_exited p, pod_terminating p))
    (filter (fun p => pod_name p = "check-pod") (cl_pods (rp_cluster st))) = [(false, true)].
Proof. vm_compute. reflexivity. Qed.

(** A check that takes six minutes: its pod is deleted while it runs. *)
Definition slow_check : reap_state :=
  {| rp_world := fold_left happen [Tick (6 * minute); CollectDirty] busy; rp_schedule := []; rp_deleted := [] |}.

Example slow_check_killed :
  match head (rp_deleted (reaper_Run true "k8s" slow_check).2) with
  | Some (n, w) => n = "check-pod" /\ map pod_exited (filter (fun p => pod_name p = n) (cl_pods (wd_cluster w))) = [false]
  | None => False
  end.
Proof. vm_compute. auto. Qed.
End Sweep.
