(* ===== verification/DaemonPaths.v ===== *)
(** * Paths and keys of the artifact daemon (cmd/artifact-daemon)

    The lexical part of Go's [path/filepath] on Unix ([Clean], [Join], [Rel])
    and the checks the daemon makes with it: canonical keys, the namespaces it
    reserves, containment below a directory ([security.go]), the path a request
    names and the step handle that guards a path ([server.go], [mirror.go]).

    The daemon names the lock of a directory in three ways: the sweeper by the
    name of the directory, the mirror by [keyHandle] of the key, the handlers by
    [stepHandle] of the path.  [stepHandle_of_key] shows that they agree. *)
From stdpp Require Import base list strings.
From Stdlib Require Import ZArith Ascii Lia.
From S2P Require Import Prelude GoText.

(** ** Slashes *)

Definition slash : ascii := "/".

Fixpoint has_byte (c : ascii) (s : string) : bool :=
  match s with
  | EmptyString => false
  | String d s => Ascii.eqb c d || has_byte c s
  end.

(** [strings.Split(s, "/")] *)
Fixpoint Split (s : string) : list string :=
  match s with
  | EmptyString => [""]
  | String c s =>
      if Ascii.eqb c slash then "" :: Split s
      else match Split s with
           | x :: xs => String c x :: xs
           | [] => [String c ""]
           end
  end.

(** [strings.Join(l, "/")] *)
Definition join_slash (l : list string) : string := String.concat "/" l.

Definition HasPrefix (s prefix : string) : bool := String.prefix prefix s.

(** [strings.TrimPrefix] *)
Definition TrimPrefix (s prefix : string) : string :=
  if String.prefix prefix s then String.substring (String.length prefix) (String.length s) s else s.

Definition IsAbs (s : string) : bool := HasPrefix s "/".

(** ** filepath.Clean, Join and Rel *)

(** One element of the path: empty and [.] elements vanish, [..] takes the
    element before it away; the elements so far, the last one first. *)
Definition clean_step (rooted : bool) (out : list string) (seg : string) : list string :=
  if String.eqb seg "" || String.eqb seg "." then out
  else if String.eqb seg ".." then
    match out with
    | top :: out' => if String.eqb top ".." then ".." :: out else out'
    | [] => if rooted then [] else [".."]
    end
  else seg :: out.

Definition parts (path : string) : list string := rev (foldl (clean_step (IsAbs path)) [] (Split path)).

Definition render (rooted : bool) (segs : list string) : string :=
  if rooted then "/" +:+ join_slash segs
  else match segs with [] => "." | _ => join_slash segs end.

Definition Clean (path : string) : string := render (IsAbs path) (parts path).

Fixpoint Join (elems : list string) : string :=
  match elems with
  | [] => ""
  | e :: rest => if String.eqb e "" then Join rest else Clean (join_slash elems)
  end.

Fixpoint strip_common (base targ : list string) : list string * list string :=
  match base, targ with
  | b :: base', t :: targ' => if String.eqb b t then strip_common base' targ' else (base, targ)
  | _, _ => (base, targ)
  end.

(** The target below the base; [None] is the error. *)
Definition Rel (basepath targpath : string) : option string :=
  if String.eqb (Clean targpath) (Clean basepath) then Some "."
  else if negb (Bool.eqb (IsAbs basepath) (IsAbs targpath)) then None
  else
    let targ := if String.eqb (Clean targpath) "." then ["."] else parts targpath in
    match strip_common (parts basepath) targ with
    | (".." :: _, _ :: _) => None
    | (base, targ) => Some (join_slash (((fun _ => "..") <$> base) ++ targ))
    end.


(** ** Checks of keys and paths *)

Definition unsafe_segment (s : string) : bool := String.eqb s "" || String.eqb s "." || String.eqb s "..".

(** [true]: no error. *)
Definition validateCanonicalRelativeKey (key : string) : bool :=
  negb (String.eqb key "" || has_byte "\" key || has_byte "000" key || HasPrefix key "/" ||
        negb (String.eqb (Clean key) key))
  && negb (existsb unsafe_segment (Split key)).

Definition snapshotNamespaceKey (key : string) : bool := String.eqb key "snapshots" || HasPrefix key "snapshots/".

Definition daemonStagingDirectory : string := ".artifact-daemon-staging".

Definition daemonPrivateNamespaceKey (key : string) : bool :=
  String.eqb key daemonStagingDirectory || HasPrefix key (daemonStagingDirectory +:+ "/").

Definition pathsOverlap (first second : string) : bool :=
  let first := Clean first in
  let second := Clean second in
  String.eqb first second || HasPrefix first (second +:+ "/") || HasPrefix second (first +:+ "/").

Definition pathBelow (base candidate : string) : option string :=
  if String.eqb candidate "" || has_byte "000" candidate || negb (IsAbs candidate)
     || negb (String.eqb (Clean candidate) candidate)
  then None
  else match Rel (Clean base) candidate with
       | Some rel =>
           if String.eqb rel "." || String.eqb rel ".." || HasPrefix rel "../" || IsAbs rel then None else Some rel
       | None => None
       end.

(** [url.PathEscape]: a byte stays when it may stand in a segment of a path. *)
Definition hex_digit (n : N) : ascii := ascii_of_N (if (n <? 10)%N then 48 + n else 55 + n)%N.

Definition segment_byte (c : ascii) : bool :=
  let b := byte_of c in
  (between 48 57 b || between 65 90 b || between 97 122 b ||
   existsb (Ascii.eqb c) ["-"; "_"; "."; "~"; "$"; "&"; "+"; "="; ":"; "@"]%char)%bool.

Fixpoint PathEscape (s : string) : string :=
  match s with
  | EmptyString => ""
  | String c s =>
      if segment_byte c then String c (PathEscape s)
      else String "%" (String (hex_digit (N_of_ascii c / 16)) (String (hex_digit (N_of_ascii c mod 16)) (PathEscape s)))
  end.

Definition canonicalEscapedKey (key : string) : option string :=
  if validateCanonicalRelativeKey key then Some (join_slash (PathEscape <$> Split key)) else None.

Definition canonicalRequestKey (rPath escapedPath prefix : string) : option string :=
  if negb (HasPrefix rPath prefix) || negb (HasPrefix escapedPath prefix) then None
  else
    let key := TrimPrefix rPath prefix in
    let escapedKey := TrimPrefix escapedPath prefix in
    match canonicalEscapedKey key with
    | Some canonicalEscaped => if String.eqb escapedKey canonicalEscaped then Some key else None
    | None => None
    end.

Definition snapshotKeyPrefix : string := "snapshots/sha256/".
Definition snapshotKey (digest : string) : string := snapshotKeyPrefix +:+ digest +:+ ".tar".

(** ** The server's paths *)

Section Server.
Context (storagePath : string).

Definition stepsRoot : string := Join [storagePath; "steps"].

(** The path of [/artifacts/{key}]; a request is its path and its escaped path. *)
Definition artifactPath (rPath escapedPath : string) : option string :=
  let escaped := TrimPrefix escapedPath "/artifacts/" in
  let key := TrimPrefix rPath "/artifacts/" in
  if String.eqb key rPath || String.eqb key "" || String.eqb escaped escapedPath then None
  else match canonicalEscapedKey key with
       | None => None
       | Some canonicalEscaped =>
           if negb (String.eqb escaped canonicalEscaped) then None
           else if daemonPrivateNamespaceKey key then None
           else if IsAbs key then None
           else
             let joined := Join [storagePath; key] in
             match Rel storagePath joined with
             | Some rel =>
                 if String.eqb rel "." || String.eqb rel ".." || HasPrefix rel "../" then None else Some joined
             | None => None
             end
       end.

(** The lock that guards a path. *)
Definition stepHandle (path : string) : string :=
  match Rel stepsRoot path with
  | Some rel =>
      if String.eqb rel "." || String.eqb rel ".." || HasPrefix rel "../" then path
      else match Split rel with handle :: _ => handle | [] => path end
  | None => path
  end.
End Server.

Fixpoint index_byte (c : ascii) (s : string) : option nat :=
  match s with
  | EmptyString => None
  | String d s => if Ascii.eqb c d then Some O else S <$> index_byte c s
  end.

Definition keyHandle (key : string) : string :=
  match index_byte slash key with
  | Some (S i) => String.substring 0 (S i) key
  | _ => key
  end.

(** ** Examples of the library's documentation *)

Example Clean_examples :
  Clean <$> ["a//b/../c/."; "/../a"; "../../x"; ""; "/"; "a/.."; "./a"] =
  ["a/c"; "/a"; "../../x"; "."; "/"; "."; "a"].
Proof. reflexivity. Qed.

Example Rel_examples :
  [Rel "/a" "/a/b/c"; Rel "/a" "/b/c"; Rel "/a" "b"; Rel "a" "."; Rel ".." "a"; Rel "a/b" "a/b"] =
  [Some "b/c"; Some "../b/c"; None; Some "../."; None; Some "."].
Proof. reflexivity. Qed.

(** ** Splitting and cleaning *)

Definition plain (s : string) : Prop := has_byte slash s = false.
Definition safe (s : string) : Prop := plain s /\ unsafe_segment s = false.

Lemma Split_cons s : exists x xs, Split s = x :: xs.
Proof.
  induction s as [|c s (x & xs & IH)]; cbn; [eauto|]. rewrite IH. destruct (Ascii.eqb c slash); eauto.
Qed.

Lemma Split_app a b : Split (a +:+ String slash b) = Split a ++ Split b.
Proof.
  induction a as [|c a IH]; [done|]. change (String c a +:+ String slash b) with (String c (a +:+ String slash b)). cbn [Split].
  rewrite IH. destruct (Split_cons a) as (x & xs & ->). by destruct (Ascii.eqb c slash).
Qed.

Lemma Split_plain s : plain s -> Split s = [s].
Proof.
  unfold plain. induction s as [|c s IH]; [done|]. cbn [Split has_byte]. intros [Hc Hs]%orb_false_iff. rewrite Ascii.eqb_sym in Hc.
  by rewrite Hc, IH.
Qed.

Lemma Split_all_plain s : Forall plain (Split s).
Proof.
  induction s as [|c s IH]; cbn [Split]; [by repeat constructor|]. destruct (Ascii.eqb c slash) eqn:Hc; [by constructor|].
  destruct (Split s) as [|x xs]; inversion IH; subst; (constructor; [|done]); unfold plain in *; cbn [has_byte];
    rewrite Ascii.eqb_sym, Hc; done.
Qed.

Lemma join_slash_cons x y l : join_slash (x :: y :: l) = x +:+ String slash (join_slash (y :: l)).
Proof. done. Qed.

Lemma Split_join l : l <> [] -> Forall plain l -> Split (join_slash l) = l.
Proof.
  induction l as [|x l IH]; [done|]. intros _ [Hx Hl]%Forall_cons. destruct l as [|y l]; [by apply Split_plain|].
  rewrite join_slash_cons, Split_app, IH by done. by rewrite Split_plain.
Qed.

Lemma join_Split s : join_slash (Split s) = s.
Proof.
  induction s as [|c s IH]; [done|]. cbn [Split]. destruct (Split_cons s) as (x & xs & Hs). rewrite Hs in *.
  destruct (Ascii.eqb c slash) eqn:Hc.
  - apply Ascii.eqb_eq in Hc as ->. rewrite join_slash_cons, IH. done.
  - rewrite <- IH. by destruct xs.
Qed.

Lemma foldl_safe rooted out l : Forall safe l -> foldl (clean_step rooted) out l = rev l ++ out.
Proof.
  revert out. induction l as [|x l IH]; [done|]. intros out [[_ Hx] Hl]%Forall_cons. cbn [foldl rev].
  rewrite IH, <- app_assoc by done. f_equal. unfold clean_step. unfold unsafe_segment in Hx.
  apply orb_false_iff in Hx as [-> ->]. done.
Qed.

(** What [Clean] leaves: leading [..] of a relative path, then safe elements. *)
Definition cleaned (rooted : bool) (l : list string) : Prop :=
  exists k l', l = replicate k ".." ++ l' /\ Forall safe l' /\ (rooted = true -> k = O).

Lemma foldl_dots out k : (forall x out', out = x :: out' -> x = "..") ->
  foldl (clean_step false) out (replicate k "..") = replicate k ".." ++ out.
Proof.
  revert out. induction k as [|k IH]; intros out Hout; [done|]. cbn [replicate foldl].
  assert (clean_step false out ".." = ".." :: out) as ->.
  { unfold clean_step. cbn. destruct out as [|x out']; [done|]. by rewrite (Hout x out' eq_refl). }
  rewrite IH by (intros ? ? [= <- <-]; done). change (".." :: out) with ([".."] ++ out). rewrite app_assoc. f_equal.
  change (replicate k ".." ++ replicate 1 ".." = replicate (S k) ".."). rewrite <- replicate_add. by rewrite Nat.add_comm.
Qed.

Lemma cleaned_fixed rooted l : cleaned rooted l -> rev (foldl (clean_step rooted) [] l) = l.
Proof.
  intros (k & l' & -> & Hl & Hk). rewrite foldl_app, foldl_safe by done. rewrite rev_app_distr, rev_involutive. f_equal.
  destruct rooted; [by rewrite Hk|]. rewrite foldl_dots, app_nil_r by done.
  rewrite rev_alt. apply reverse_replicate.
Qed.

Lemma cleaned_step rooted out seg :
  plain seg -> cleaned rooted (rev out) -> cleaned rooted (rev (clean_step rooted out seg)).
Proof.
  intros Hp (k & l & Hout & Hl & Hk). unfold clean_step. destruct (String.eqb seg "") eqn:H1; [by exists k, l|].
  destruct (String.eqb seg ".") eqn:H2; [by exists k, l|]. cbn [orb]. destruct (String.eqb seg "..") eqn:H3.
  - destruct out as [|top out].
    + destruct rooted; [by exists O, []|]. exists 1%nat, []. repeat split; [by constructor|done].
    + cbn [rev] in *. destruct l as [|z l _] using rev_ind.
      * rewrite app_nil_r in Hout. destruct k as [|k]; [by destruct (rev out)|].
        rewrite replicate_S_end in Hout. apply app_inj_tail in Hout as [Hout ->]. cbn. rewrite Hout.
        exists (S (S k)), []. rewrite app_nil_r. repeat split; [|constructor|intros ?; by specialize (Hk H)].
        by rewrite <- !replicate_S_end.
      * rewrite app_assoc in Hout. apply app_inj_tail in Hout as [Hout ->]. apply Forall_app in Hl as [Hl [[_ Hz] _]%Forall_cons].
        unfold unsafe_segment in Hz. apply orb_false_iff in Hz as [_ ->]. by exists k, l.
  - cbn [rev]. rewrite Hout. exists k, (l ++ [seg]). rewrite app_assoc. repeat split; [|done].
    apply Forall_app. repeat split; [done|]. constructor; [|constructor]. split; [done|]. unfold unsafe_segment. by rewrite H1, H2, H3.
Qed.

Lemma parts_cleaned path : cleaned (IsAbs path) (parts path).
Proof.
  unfold parts. assert (Hs := Split_all_plain path). generalize dependent (Split path). intros l Hl.
  assert (H0 : cleaned (IsAbs path) (rev [])) by (exists O, []; repeat split; constructor).
  generalize dependent (@nil string). induction Hl as [|x l Hx Hl IH]; intros out Hout; [done|]. by apply IH, cleaned_step.
Qed.

Lemma cleaned_plain rooted l : cleaned rooted l -> Forall plain l.
Proof.
  intros (k & l' & -> & Hl & _). apply Forall_app. split; [by apply Forall_replicate|].
  eapply Forall_impl; [exact Hl|]. by intros s [].
Qed.

Lemma safe_nonempty s : safe s -> exists c s', s = String c s' /\ c <> slash.
Proof.
  intros [Hp Hs]. destruct s as [|c s]; [done|]. exists c, s. split; [done|]. intros ->. done.
Qed.

Lemma IsAbs_render rooted l : cleaned rooted l -> IsAbs (render rooted l) = rooted.
Proof.
  intros (k & l' & -> & Hl & Hk). destruct rooted.
  - cbn. by destruct (join_slash _).
  - destruct k as [|k]; [|by destruct k, l'].
    cbn [replicate app]. destruct Hl as [|x l' Hx Hl]; [done|]. destruct (safe_nonempty x Hx) as (c & s & -> & Hc).
    assert (exists s', join_slash (String c s :: l') = String c s') as [s' Hs'] by (destruct l'; eauto).
    cbn [render]. rewrite Hs'. unfold IsAbs, HasPrefix. cbn [String.prefix]. destruct (ascii_dec "/" c) as [<-|]; [by destruct Hc|done].
Qed.

Lemma parts_render rooted l : cleaned rooted l -> parts (render rooted l) = l.
Proof.
  intros Hl. unfold parts. rewrite IsAbs_render by done. pose proof (cleaned_plain _ _ Hl) as Hp.
  destruct rooted, l as [|x l]; [done| |done|].
  - cbn [render]. change ("/" +:+ join_slash (x :: l)) with ("" +:+ String slash (join_slash (x :: l))).
    rewrite Split_app, Split_join by done. change (rev (foldl (clean_step true) [] (x :: l)) = x :: l). by apply cleaned_fixed.
  - cbn [render]. rewrite Split_join by done. by apply cleaned_fixed.
Qed.

Lemma parts_Clean path : parts (Clean path) = parts path.
Proof. apply parts_render, parts_cleaned. Qed.

Lemma IsAbs_Clean path : IsAbs (Clean path) = IsAbs path.
Proof. apply IsAbs_render, parts_cleaned. Qed.

Lemma Clean_Clean path : Clean (Clean path) = Clean path.
Proof. unfold Clean at 1. by rewrite parts_Clean, IsAbs_Clean. Qed.

(** ** Joining safe elements *)

Definition safe_path (s : string) : Prop := Forall safe (Split s).

Lemma Split_join_paths l : l <> [] -> Split (join_slash l) = mjoin (Split <$> l).
Proof.
  induction l as [|x l IH]; [done|]. intros _. destruct l as [|y l]; [cbn; by rewrite app_nil_r|].
  rewrite join_slash_cons, Split_app, IH by done. done.
Qed.

Lemma safe_path_nonempty s : safe_path s -> s <> "".
Proof. intros Hs ->. apply Forall_cons in Hs as [[_ Hs] _]. done. Qed.

Lemma IsAbs_app s t : s <> "" -> IsAbs (s +:+ t) = IsAbs s.
Proof. destruct s as [|c s]; [done|]. intros _. unfold IsAbs, HasPrefix. change (String c s +:+ t) with (String c (s +:+ t)).
  cbn [String.prefix]. destruct (ascii_dec "/" c); [|done]. by destruct s, t. Qed.

Lemma render_Split s : render false (Split s) = s.
Proof. destruct (Split_cons s) as (x & xs & Hx). rewrite <- (join_Split s) at 2. by rewrite Hx. Qed.

Lemma safe_cleaned rooted l : Forall safe l -> cleaned rooted l.
Proof. intros Hl. by exists O, l. Qed.

Lemma IsAbs_safe s : safe_path s -> IsAbs s = false.
Proof. intros Hs. rewrite <- (render_Split s). by apply IsAbs_render, safe_cleaned. Qed.

Lemma safe_paths l : Forall safe_path l -> Forall safe (mjoin (Split <$> l)).
Proof. induction 1 as [|x l Hx Hl IH]; [constructor|]. cbn. by apply Forall_app. Qed.

(** The elements of [Join(storage, l...)]. *)
Lemma Join_safe storage l :
  l <> [] -> Forall safe_path l ->
  IsAbs (Join (storage :: l)) = IsAbs storage /\ parts (Join (storage :: l)) = parts storage ++ mjoin (Split <$> l).
Proof.
  intros Hne Hl. pose proof (safe_paths l Hl) as Hsafe. cbn [Join]. destruct (String.eqb_spec storage "") as [->|Hs].
  - destruct Hl as [|x l Hx Hl]; [done|]. cbn [Join]. pose proof (safe_path_nonempty x Hx) as Hx'.
    apply String.eqb_neq in Hx' as ->. change (parts "") with (@nil string). cbn [app].
    rewrite parts_Clean, IsAbs_Clean. assert (Habs : IsAbs (join_slash (x :: l)) = false).
    { destruct l as [|y l]; [by apply IsAbs_safe|]. rewrite join_slash_cons, IsAbs_app by by apply safe_path_nonempty.
      by apply IsAbs_safe. }
    split; [done|]. unfold parts. rewrite Habs, Split_join_paths by done. by apply cleaned_fixed, safe_cleaned.
  - destruct l as [|y l]; [done|]. rewrite parts_Clean, IsAbs_Clean, join_slash_cons, IsAbs_app by done. split; [done|].
    unfold parts at 1. rewrite IsAbs_app, Split_app, Split_join_paths, foldl_app, foldl_safe by done.
    by rewrite rev_app_distr, rev_involutive.
Qed.

(** ** Canonical keys *)

Lemma canonical_safe key : validateCanonicalRelativeKey key = true -> safe_path key.
Proof.
  unfold validateCanonicalRelativeKey. intros [_ H]%andb_true_iff. apply negb_true_iff in H.
  pose proof (Split_all_plain key) as Hp. unfold safe_path. revert H Hp. induction (Split key) as [|x l IH]; [constructor|].
  cbn. intros [Hx Hl]%orb_false_iff [Hpx Hpl]%Forall_cons. constructor; [done|]. by apply IH.
Qed.

Lemma index_byte_plain s t : plain s -> index_byte slash (s +:+ String slash t) = Some (String.length s).
Proof.
  unfold plain. induction s as [|c s IH]; [done|]. intros [Hc Hs]%orb_false_iff.
  change (index_byte slash (String c (s +:+ String slash t)) = Some (S (String.length s))).
  cbn [index_byte]. by rewrite Hc, (IH Hs).
Qed.

Lemma index_byte_none s : plain s -> index_byte slash s = None.
Proof. unfold plain. induction s as [|c s IH]; [done|]. intros [Hc Hs]%orb_false_iff. cbn [index_byte]. by rewrite Hc, IH. Qed.

Lemma substring_prefix s t : String.substring 0 (String.length s) (s +:+ t) = s.
Proof. induction s as [|c s IH]; [by destruct t|].
  change (String c (String.substring 0 (String.length s) (s +:+ t)) = String c s). by rewrite IH. Qed.

Lemma keyHandle_safe key : safe_path key -> exists rest, Split key = keyHandle key :: rest.
Proof.
  unfold safe_path, keyHandle. destruct (Split_cons key) as (x & xs & Hx). rewrite Hx. intros [Hs Hxs]%Forall_cons. exists xs.
  f_equal. rewrite <- (join_Split key), Hx. destruct xs as [|y xs].
  - change (join_slash [x]) with x. rewrite index_byte_none; [done|apply Hs].
  - rewrite join_slash_cons, index_byte_plain by apply Hs. destruct (safe_nonempty x Hs) as (c & s & -> & _).
    change (String.length (String c s)) with (S (String.length s)). symmetry. apply (substring_prefix (String c s)).
Qed.

(** ** The lock of a path *)

Lemma strip_common_app l m : strip_common l (l ++ m) = ([], m).
Proof. induction l as [|x l IH]; [by destruct m|]. cbn. by rewrite String.eqb_refl. Qed.

Lemma steps_safe : safe_path "steps".
Proof. by repeat constructor. Qed.

Lemma stepsRoot_parts storage :
  IsAbs (stepsRoot storage) = IsAbs storage /\ parts (stepsRoot storage) = parts storage ++ ["steps"].
Proof. apply (Join_safe storage ["steps"]); [done|]. repeat constructor. Qed.

(** A path below a base. *)
Lemma Rel_below base path l :
  l <> [] -> Forall safe l -> IsAbs path = IsAbs base -> parts path = parts base ++ l -> Rel base path = Some (join_slash l).
Proof.
  intros Hne Hl Habs Hp. unfold Rel. rewrite Habs, Bool.eqb_reflx. cbn [negb].
  assert (Clean path <> Clean base) as ->%String.eqb_neq.
  { intros Heq%(f_equal parts). rewrite !parts_Clean, Hp in Heq. rewrite <- (app_nil_r (parts base)) in Heq at 2.
    by apply (inj _) in Heq. }
  assert (Clean path <> ".") as ->%String.eqb_neq.
  { intros Heq%(f_equal parts). rewrite parts_Clean, Hp in Heq. change (parts ".") with (@nil string) in Heq.
    by apply app_eq_nil in Heq as [_ ->]. }
  by rewrite Hp, strip_common_app.
Qed.

Lemma head_not_up s x l : Split s = x :: l -> unsafe_segment x = false ->
  String.eqb s "." = false /\ String.eqb s ".." = false /\ HasPrefix s "../" = false.
Proof.
  intros Hs Hx. split; [|split]; [apply String.eqb_neq; intros ->; by injection Hs as <- _..|].
  apply not_true_iff_false. intros H. destruct s as [|c1 [|c2 [|c3 s]]]; try done;
    unfold HasPrefix in H; cbn [String.prefix] in H; repeat (destruct (ascii_dec _ _) as [<-|]; [|done]); try done.
  cbn in Hs. by injection Hs as <- _.
Qed.

Lemma stepHandle_parts storage path x l :
  Forall safe (x :: l) -> IsAbs path = IsAbs storage -> parts path = parts storage ++ "steps" :: x :: l ->
  stepHandle storage path = x.
Proof.
  intros Hl Habs Hp. destruct (stepsRoot_parts storage) as [Hr Hrp]. unfold stepHandle.
  assert (Hsplit : Split (join_slash (x :: l)) = x :: l).
  { apply Split_join; [done|]. eapply Forall_impl; [exact Hl|]. by intros s []. }
  rewrite (Rel_below _ _ (x :: l)); [|done|done|by rewrite Habs|by rewrite Hp, Hrp, <- app_assoc].
  apply Forall_cons in Hl as [[_ Hx] _]. destruct (head_not_up _ _ _ Hsplit Hx) as (-> & -> & ->). by rewrite Hsplit.
Qed.

(** The handlers and the mirror name the same lock for a key. *)
Lemma stepHandle_of_key storage key :
  safe_path key -> stepHandle storage (Join [storage; "steps"; key]) = keyHandle key.
Proof.
  intros Hk. destruct (keyHandle_safe key Hk) as [rest Hr].
  destruct (Join_safe storage ["steps"; key]) as [Ha Hp]; [done|by repeat constructor|]. unfold safe_path in Hk. rewrite Hr in Hk.
  apply (stepHandle_parts storage _ _ rest); [done..|]. rewrite Hp. cbn. by rewrite Hr, app_nil_r.
Qed.

(** The handlers and the sweeper name the same lock for a directory. *)
Lemma stepHandle_of_dir storage handle : safe handle -> stepHandle storage (Join [stepsRoot storage; handle]) = handle.
Proof.
  intros Hh. assert (Hs : Split handle = [handle]) by (apply Split_plain, Hh).
  destruct (Join_safe (stepsRoot storage) [handle]) as [Ha Hp]; [done|constructor; [|constructor]; unfold safe_path; rewrite Hs; by constructor|].
  destruct (stepsRoot_parts storage) as [Hr Hrp].
  apply (stepHandle_parts storage _ _ []); [by constructor|by rewrite Ha|]. rewrite Hp, Hrp, <- app_assoc. cbn. by rewrite Hs.
Qed.

Lemma Clean_stepsRoot storage : Clean (stepsRoot storage) = stepsRoot storage.
Proof.
  unfold stepsRoot. cbn [Join]. destruct (String.eqb storage ""); [done|]. apply Clean_Clean.
Qed.

(** The lock of a path strictly below the steps has no slash. *)
Lemma stepHandle_plain storage path rel : pathBelow (stepsRoot storage) path = Some rel -> plain (stepHandle storage path).
Proof.
  unfold pathBelow, stepHandle. destruct (_ || _); [done|]. rewrite Clean_stepsRoot.
  destruct (Rel (stepsRoot storage) path) as [rel'|]; [|done].
  pose proof (Split_all_plain rel') as Hp. destruct (Split_cons rel') as (x & xs & Hx). rewrite Hx in *.
  apply Forall_cons in Hp as [Hp _]. by destruct (String.eqb rel' "."), (String.eqb rel' ".."), (HasPrefix rel' "../").
Qed.

(** ** Paths below the steps *)

Lemma strip_common_spec base targ b t :
  strip_common base targ = (b, t) -> exists common, base = common ++ b /\ targ = common ++ t.
Proof.
  revert targ. induction base as [|x base IH]; intros targ H; [exists []; by injection H as <- <-|].
  destruct targ as [|y targ]; [exists []; by injection H as <- <-|]. cbn in H. destruct (String.eqb_spec x y) as [->|].
  - apply IH in H as (common & -> & ->). by exists (y :: common).
  - exists []. by injection H as <- <-.
Qed.

Lemma join_up l : exists s, join_slash (".." :: l) = ".." /\ l = [] \/ join_slash (".." :: l) = "../" +:+ s.
Proof. destruct l as [|x l]; [by exists ""; left|]. exists (join_slash (x :: l)). by right. Qed.

(** The elements of a path that the daemon accepts below the steps. *)
Lemma pathBelow_parts base path rel :
  pathBelow base path = Some rel ->
  IsAbs path = IsAbs base /\ exists x l, Forall safe (x :: l) /\ parts path = parts base ++ x :: l.
Proof.
  unfold pathBelow. destruct (_ || _) eqn:Hc; [done|]. apply orb_false_iff in Hc as [Hc _].
  apply orb_false_iff in Hc as [_ Habs%negb_false_iff]. unfold Rel. rewrite Clean_Clean, IsAbs_Clean, parts_Clean.
  destruct (String.eqb_spec (Clean path) (Clean base)) as [|Hne]; [done|].
  destruct (Bool.eqb_spec (IsAbs base) (IsAbs path)) as [Ha|]; [|done]. cbn [negb].
  assert (Clean path <> ".") as ->%String.eqb_neq. { intros H%(f_equal IsAbs). by rewrite IsAbs_Clean, Habs in H. }
  destruct (strip_common (parts base) (parts path)) as [b t] eqn:Hs. apply strip_common_spec in Hs as (common & Hb & Ht).
  pose proof (parts_cleaned path) as (k & l' & Hp & Hsafe & Hk). rewrite (Hk Habs) in Hp. cbn in Hp.
  destruct b as [|u b].
  - rewrite app_nil_r in Hb. subst common. intros _. split; [done|]. destruct t as [|x l].
    + destruct Hne. unfold Clean. by rewrite Ha, Ht, app_nil_r.
    + exists x, l. split; [|done]. rewrite <- Hp, Ht in Hsafe. by apply Forall_app in Hsafe as [_ ?].
  - match goal with |- context [match ?m with Some _ => _ | None => None end] =>
      assert (m = None \/ m = Some (join_slash (".." :: ((fun _ => "..") <$> b) ++ t))) as [-> | ->]
        by (repeat case_match; auto) end; [done|].
    destruct (join_up (((fun _ => "..") <$> b) ++ t)) as (s & [[-> _]| ->]); [done|].
    assert (HasPrefix ("../" +:+ s) "../" = true) as -> by (by destruct s). by rewrite orb_true_r.
Qed.

Lemma prefix_cons_head (B l : list string) x h :
  (B ++ x :: l) `prefix_of` (B ++ [h]) \/ (B ++ [h]) `prefix_of` (B ++ x :: l) -> x = h.
Proof.
  intros [H|H]; apply prefix_app_inv in H; destruct H as [k H]; by injection H.
Qed.
