(* ===== verification/ReadGuard.v ===== *)
(** * The read guard of the artifact daemon (cmd/artifact-daemon/guard.go)

    One reader-writer lock per step handle, made when the first goroutine asks
    for it and dropped from the table with the last: [acquire] and [release]
    count the goroutines that refer to it.  Here are the lock table, the
    [sync.RWMutex] it is made of, the [Begin...] functions with the operations of
    the daemon that call them (server.go, mirror.go, sweeper.go), and the
    goroutines that interleave them, one atomic call at a time.

    A [sync.RWMutex] is the goroutine that has its writer's mutex, the readers it
    admitted and the readers that wait for the writer to leave.  [Lock] takes the
    mutex, which turns later readers away, and waits for the readers before it;
    [Unlock] admits every reader that waits.  A [Begin...Context] function polls
    [TryRLock] or [TryLock] and gives up when its context is done. *)
From stdpp Require Import base gmap sets list strings.
From Stdlib Require Import ZArith Lia.
From S2P Require Import Prelude DaemonPaths.

Open Scope Z_scope.

(** ** sync.RWMutex *)

Record RWMutex := {
  rw_writer : option nat;
  rw_readers : gset nat;
  rw_waiting : gset nat }.

Definition unlocked : RWMutex := {| rw_writer := None; rw_readers := ∅; rw_waiting := ∅ |}.

Definition admit_reader (t : nat) (m : RWMutex) : RWMutex :=
  {| rw_writer := rw_writer m; rw_readers := {[ t ]} ∪ rw_readers m; rw_waiting := rw_waiting m |}.
Definition park_reader (t : nat) (m : RWMutex) : RWMutex :=
  {| rw_writer := rw_writer m; rw_readers := rw_readers m; rw_waiting := {[ t ]} ∪ rw_waiting m |}.
Definition claim_writer (t : nat) (m : RWMutex) : RWMutex :=
  {| rw_writer := Some t; rw_readers := rw_readers m; rw_waiting := rw_waiting m |}.
Definition RUnlock (t : nat) (m : RWMutex) : RWMutex :=
  {| rw_writer := rw_writer m; rw_readers := rw_readers m ∖ {[ t ]}; rw_waiting := rw_waiting m |}.
Definition Unlock (m : RWMutex) : RWMutex :=
  {| rw_writer := None; rw_readers := rw_readers m ∪ rw_waiting m; rw_waiting := ∅ |}.

Definition no_readers (m : RWMutex) : bool := bool_decide (rw_readers m = ∅).
Definition no_writer (m : RWMutex) : bool := bool_decide (rw_writer m = None).

(** ** The table of locks *)

Record handleLock := { refs : Z; mu : RWMutex }.

Record Guard := { g_locks : gmap string nat; g_heap : gmap nat handleLock }.

Definition NewReadGuard : Guard := {| g_locks := ∅; g_heap := ∅ |}.

Definition lock_at (g : Guard) (l : nat) : handleLock := default {| refs := 0; mu := unlocked |} (g_heap g !! l).
Definition set_lock (l : nat) (k : handleLock) (g : Guard) : Guard :=
  {| g_locks := g_locks g; g_heap := <[ l := k ]> (g_heap g) |}.
Definition on_mutex (f : RWMutex -> RWMutex) (l : nat) (g : Guard) : Guard :=
  set_lock l {| refs := refs (lock_at g l); mu := f (mu (lock_at g l)) |} g.

(** The lock of a handle, a new one when the table has none, and its count. *)
Definition acquire (handle : string) (g : Guard) : nat * Guard :=
  match g_locks g !! handle with
  | Some l => (l, set_lock l {| refs := refs (lock_at g l) + 1; mu := mu (lock_at g l) |} g)
  | None =>
      let l := fresh (dom (g_heap g)) in
      (l, {| g_locks := <[ handle := l ]> (g_locks g); g_heap := <[ l := {| refs := 1; mu := unlocked |} ]> (g_heap g) |})
  end.

Definition release (handle : string) (l : nat) (g : Guard) : Guard :=
  let n := refs (lock_at g l) - 1 in
  let g := set_lock l {| refs := n; mu := mu (lock_at g l) |} g in
  if n =? 0 then {| g_locks := delete handle (g_locks g); g_heap := g_heap g |} else g.

(** ** The Begin functions *)

Inductive side := Shared | Exclusive.
(** [RLock] and [Lock], or [waitForGuard] with [TryRLock] and [TryLock]. *)
Inductive manner := Blocking | Polling.
Record request := { rq_handle : string; rq_side : side; rq_manner : manner }.

#[global] Instance side_eq_dec : EqDecision side.
Proof. solve_decision. Defined.

Definition BeginRead (handle : string) : list request :=
  [ {| rq_handle := handle; rq_side := Shared; rq_manner := Blocking |} ].
Definition BeginReadContext (handle : string) : list request :=
  [ {| rq_handle := handle; rq_side := Shared; rq_manner := Polling |} ].
Definition BeginSweep (handle : string) : list request :=
  [ {| rq_handle := handle; rq_side := Exclusive; rq_manner := Blocking |} ].
Definition BeginSweepContext (handle : string) : list request :=
  [ {| rq_handle := handle; rq_side := Exclusive; rq_manner := Polling |} ].

(** Two locks, the lexically smaller handle first whatever its side. *)
Definition BeginResolveContext (sourceHandle destinationHandle : string) : list request :=
  if String.eqb sourceHandle destinationHandle then BeginSweepContext sourceHandle
  else
    let first := BeginReadContext sourceHandle in
    let second := BeginSweepContext destinationHandle in
    if String.ltb destinationHandle sourceHandle then second ++ first else first ++ second.

(** ** The operations on the directories

    All take the locks of the handles they touch, except [PUT /artifacts/], which
    takes none. *)

Inductive op :=
| OpenArtifact (path : string)
| MirrorWalk (key : string)
| SweepDir (handle : string)
| StreamIn (key : string)
| DeleteArtifact (key : string)
| PutArtifact (key : string)
| ResolveCopy (source dest : string)
| Publish (dest : string)
| ReadSnapshot (digest : string)
| WriteSnapshot (digest : string)
| MaterializeSnapshot (digest dest : string).

Section Daemon.
Context (storage : string).

Definition steps_path (key : string) : string := Join [storage; "steps"; key].
Definition artifact_path (key : string) : string := Join [storage; key].

(** The locks each operation takes, in order. *)
Definition openArtifact_locks (path : string) : list request := BeginReadContext (stepHandle storage path).
Definition mirrorWalk_locks (key : string) : list request := BeginRead (keyHandle key).
Definition removeStepDir_locks (handle : string) : list request := BeginSweep handle.
Definition streamIn_locks (key : string) : list request := BeginSweep (stepHandle storage (steps_path key)).
Definition deleteArtifact_locks (key : string) : list request := BeginSweep (stepHandle storage (artifact_path key)).
Definition resolveCopy_locks (source dest : string) : list request :=
  BeginResolveContext (stepHandle storage source) (stepHandle storage dest).
Definition publish_locks (dest : string) : list request := BeginSweepContext (stepHandle storage dest).
Definition readSnapshot_locks (digest : string) : list request := BeginRead (snapshotKey digest).
Definition writeSnapshot_locks (digest : string) : list request := BeginSweep (snapshotKey digest).
Definition materializeSnapshot_locks (digest dest : string) : list request :=
  BeginRead (snapshotKey digest) ++ publish_locks dest.

Definition requests (o : op) : list request :=
  match o with
  | OpenArtifact path => openArtifact_locks path
  | MirrorWalk key => mirrorWalk_locks key
  | SweepDir handle => removeStepDir_locks handle
  | StreamIn key => streamIn_locks key
  | DeleteArtifact key => deleteArtifact_locks key
  | PutArtifact _ => []
  | ResolveCopy source dest => resolveCopy_locks source dest
  | Publish dest => publish_locks dest
  | ReadSnapshot digest => readSnapshot_locks digest
  | WriteSnapshot digest => writeSnapshot_locks digest
  | MaterializeSnapshot digest dest => materializeSnapshot_locks digest dest
  end.

Definition below_steps (path : string) : bool := bool_decide (is_Some (pathBelow (stepsRoot storage) path)).
Definition entry_name (s : string) : bool := negb (has_byte slash s) && negb (unsafe_segment s).

(** What the code checked before it asked for the locks: keys are canonical, a
    directory entry is a name, sources and destinations lie below the steps. *)
Definition checked (o : op) : bool :=
  match o with
  | OpenArtifact _ | ReadSnapshot _ | WriteSnapshot _ => true
  | MirrorWalk key | StreamIn key | DeleteArtifact key | PutArtifact key => validateCanonicalRelativeKey key
  | SweepDir handle => entry_name handle
  | ResolveCopy source dest => below_steps source && below_steps dest
  | Publish dest | MaterializeSnapshot _ dest => below_steps dest
  end.

(** Whether one path lies at or below the other. *)
Definition overlaps (p q : list string) : bool := bool_decide (p `prefix_of` q) || bool_decide (q `prefix_of` p).
Definition under_handle (path handle : string) : bool :=
  overlaps (parts path) (parts (stepsRoot storage) ++ [handle]).

(** The operations that remove or replace the files of a handle's directory. *)
Definition replaces (o : op) (handle : string) : bool :=
  match o with
  | SweepDir h => String.eqb h handle
  | StreamIn key => under_handle (steps_path key) handle
  | DeleteArtifact key | PutArtifact key => under_handle (artifact_path key) handle
  | ResolveCopy _ dest | Publish dest | MaterializeSnapshot _ dest => under_handle dest handle
  | OpenArtifact _ | MirrorWalk _ | ReadSnapshot _ | WriteSnapshot _ => false
  end.

(** The operations that read them. *)
Definition reads (o : op) (handle : string) : bool :=
  match o with
  | OpenArtifact path | ResolveCopy path _ => String.eqb (stepHandle storage path) handle
  | MirrorWalk key => String.eqb (keyHandle key) handle
  | _ => false
  end.

(** ** Goroutines *)

(** Before [acquire]; before [RLock], [Lock] or the next [try] of [waitForGuard];
    parked in [RLock] or waiting for the readers in [Lock]; with all the locks;
    in the release functions, before an unlock or before [release]. *)
Inductive pc :=
| Entering (q : request) (rest : list request)
| Locking (q : request) (l : nat) (rest : list request)
| Blocked (q : request) (l : nat) (rest : list request)
| Inside
| Leaving
| Dropping (handle : string) (l : nat).

Record held := { h_handle : string; h_lock : nat; h_side : side }.

Record goroutine := {
  gr_op : op;
  gr_held : list held;
  gr_pc : pc;
  gr_cancelled : bool }.

Definition with_pc (p : pc) (g : goroutine) : goroutine :=
  {| gr_op := gr_op g; gr_held := gr_held g; gr_pc := p; gr_cancelled := gr_cancelled g |}.

(** The lock is taken: on to the next, or to the body. *)
Definition granted (q : request) (l : nat) (rest : list request) (g : goroutine) : goroutine :=
  {| gr_op := gr_op g;
     gr_held := {| h_handle := rq_handle q; h_lock := l; h_side := rq_side q |} :: gr_held g;
     gr_pc := match rest with [] => Inside | q :: rest => Entering q rest end;
     gr_cancelled := gr_cancelled g |}.

(** [st_disk]: the files of the directories under the steps. *)
Record daemon := {
  st_guard : Guard;
  st_gos : gmap nat goroutine;
  st_disk : gmap string (gmap string string) }.

Definition started (disk : gmap string (gmap string string)) : daemon :=
  {| st_guard := NewReadGuard; st_gos := ∅; st_disk := disk |}.

Definition update (st : daemon) (guard : Guard) (t : nat) (g : goroutine) : daemon :=
  {| st_guard := guard; st_gos := <[ t := g ]> (st_gos st); st_disk := st_disk st |}.
Definition gone (st : daemon) (t : nat) : daemon :=
  {| st_guard := st_guard st; st_gos := delete t (st_gos st); st_disk := st_disk st |}.

Definition lock_step (st : daemon) (t : nat) (g : goroutine) (q : request) (l : nat) (rest : list request)
    : option daemon :=
  let guard := st_guard st in
  let m := mu (lock_at guard l) in
  match rq_manner q, rq_side q with
  | Blocking, Shared =>
      Some (if no_writer m then update st (on_mutex (admit_reader t) l guard) t (granted q l rest g)
            else update st (on_mutex (park_reader t) l guard) t (with_pc (Blocked q l rest) g))
  | Blocking, Exclusive =>
      if no_writer m then
        Some (update st (on_mutex (claim_writer t) l guard) t
                (if no_readers m then granted q l rest g else with_pc (Blocked q l rest) g))
      else None
  | Polling, s =>
      Some (if gr_cancelled g then update st guard t (with_pc (Dropping (rq_handle q) l) g)
            else match s with
                 | Shared =>
                     if no_writer m then update st (on_mutex (admit_reader t) l guard) t (granted q l rest g) else st
                 | Exclusive =>
                     if no_writer m && no_readers m
                     then update st (on_mutex (claim_writer t) l guard) t (granted q l rest g) else st
                 end)
  end.

(** The next atomic call of a goroutine; [None] when it is blocked or runs its body. *)
Definition next (st : daemon) (t : nat) (g : goroutine) : option daemon :=
  let guard := st_guard st in
  match gr_pc g with
  | Entering q rest =>
      let '(l, guard) := acquire (rq_handle q) guard in Some (update st guard t (with_pc (Locking q l rest) g))
  | Locking q l rest => lock_step st t g q l rest
  | Blocked q l rest =>
      let m := mu (lock_at guard l) in
      match rq_side q with
      | Shared => if bool_decide (t ∈ rw_readers m) then Some (update st guard t (granted q l rest g)) else None
      | Exclusive => if no_readers m then Some (update st guard t (granted q l rest g)) else None
      end
  | Inside => None
  | Leaving =>
      match gr_held g with
      | [] => Some (gone st t)
      | h :: rest =>
          Some (update st (on_mutex (match h_side h with Shared => RUnlock t | Exclusive => Unlock end) (h_lock h) guard) t
                  {| gr_op := gr_op g; gr_held := rest; gr_pc := Dropping (h_handle h) (h_lock h);
                     gr_cancelled := gr_cancelled g |})
      end
  | Dropping handle l => Some (update st (release handle l guard) t (with_pc Leaving g))
  end.

(** [Begin]: a goroutine starts an operation.  [Cancel]: its context is done.
    [Finish]: its body ends, or [materializeLocalSnapshot] returns between its two
    locks.  [Replace]: its body changes the files of a directory. *)
Inductive event :=
| Begin (t : nat) (o : op)
| Next (t : nat)
| Cancel (t : nat)
| Finish (t : nat)
| Replace (t : nat) (handle : string) (files : option (gmap string string)).

Definition may_finish (g : goroutine) : bool :=
  match gr_pc g, gr_op g with
  | Inside, _ => true
  | Entering _ _, MaterializeSnapshot _ _ => negb (bool_decide (gr_held g = []))
  | _, _ => false
  end.

Definition advances (e : event) (st : daemon) : option daemon :=
  match e with
  | Begin t o =>
      match st_gos st !! t with
      | None =>
          if checked o
          then Some (update st (st_guard st) t
                 {| gr_op := o; gr_held := []; gr_cancelled := false;
                    gr_pc := match requests o with [] => Inside | q :: rest => Entering q rest end |})
          else None
      | Some _ => None
      end
  | Next t => g ← st_gos st !! t; next st t g
  | Cancel t =>
      g ← st_gos st !! t;
      Some (update st (st_guard st) t {| gr_op := gr_op g; gr_held := gr_held g; gr_pc := gr_pc g; gr_cancelled := true |})
  | Finish t =>
      g ← st_gos st !! t;
      if may_finish g then Some (update st (st_guard st) t (with_pc Leaving g)) else None
  | Replace t handle files =>
      g ← st_gos st !! t;
      match gr_pc g with
      | Inside =>
          if replaces (gr_op g) handle
          then Some {| st_guard := st_guard st; st_gos := st_gos st;
                       st_disk := match files with
                                  | Some files => <[ handle := files ]> (st_disk st)
                                  | None => delete handle (st_disk st)
                                  end |}
          else None
      | _ => None
      end
  end.

Fixpoint trace (es : list event) (st : daemon) : option daemon :=
  match es with
  | [] => Some st
  | e :: es => st' ← advances e st; trace es st'
  end.

Inductive reachable : daemon -> Prop :=
| reachable_started disk : reachable (started disk)
| reachable_advances st e st' : reachable st -> advances e st = Some st' -> reachable st'.

Lemma trace_reaches es st st' : reachable st -> trace es st = Some st' -> reachable st'.
Proof.
  revert st. induction es as [|e es IH]; intros st Hst H; [by injection H as <-|]. cbn in H.
  apply bind_Some in H as (st1 & H1 & H). apply (IH st1); [by eapply reachable_advances|done].
Qed.
End Daemon.
