(* ===== verification/ReadGuardInv.v ===== *)
(** * The invariant of the read guard

    Kept by every step of the interleaved operations of the daemon: the table has
    one lock object per handle as long as a goroutine refers to it, its count is
    the number of those goroutines, the state of each [sync.RWMutex] is what the
    goroutines hold and wait for, and every goroutine takes its locks in one order
    and holds, while its body runs, the locks of its operation. *)
From stdpp Require Import sorting.
From stdpp Require Import base gmap sets list strings functions.
From Stdlib Require Import ZArith Ascii Lia.
From S2P Require Import Prelude DaemonPaths ReadGuard.

Open Scope Z_scope.

(** ** The reader-writer lock *)

(** What a goroutine is to a lock. *)
Inductive role := Holds (s : side) | Parked (s : side).

Definition lock_role_ok (m : RWMutex) (t : nat) (r : option role) : Prop :=
  match r with
  | None => (t ∉ rw_readers m) /\ rw_writer m <> Some t /\ t ∉ rw_waiting m
  | Some (Holds Shared) => (t ∈ rw_readers m) /\ rw_writer m <> Some t /\ t ∉ rw_waiting m
  | Some (Holds Exclusive) => rw_writer m = Some t /\ (rw_readers m = ∅) /\ t ∉ rw_waiting m
  | Some (Parked Shared) =>
      rw_writer m <> Some t /\ (((t ∈ rw_readers m) /\ t ∉ rw_waiting m) \/ ((t ∉ rw_readers m) /\ t ∈ rw_waiting m))
  | Some (Parked Exclusive) => rw_writer m = Some t /\ (t ∉ rw_readers m) /\ t ∉ rw_waiting m
  end.

Definition mutex_ok (m : RWMutex) (R : nat -> option role) : Prop :=
  (forall t, lock_role_ok m t (R t)) /\ (rw_writer m = None -> rw_waiting m = ∅).

Lemma mutex_ok_ext m R R' : (forall t, R t = R' t) -> mutex_ok m R -> mutex_ok m R'.
Proof. intros H [Hm Hp]. split; [intros t; by rewrite <- H|done]. Qed.

(** Where the role of one goroutine changed: what held of it and of any other. *)
Ltac roles Hm t :=
  let t' := fresh "t" in
  let Ht := fresh "Ht" in
  let Ht' := fresh "Ht" in
  destruct Hm as [Hm Hp]; split; cbn;
  [intros t'; pose proof (Hm t) as Ht; pose proof (Hm t') as Ht'; clear Hm;
   destruct (decide (t = t')) as [<-|];
   rewrite ?fn_lookup_insert, ?fn_lookup_insert_ne by done;
   [clear Ht'|match goal with R : nat -> option role |- _ => destruct (R t') as [[[]|[]]|] end];
   repeat match goal with H : _ = Some _ |- _ => rewrite H in Ht end;
   repeat match goal with H : ?R t = None |- _ => rewrite H in Ht end; cbn in *|specialize (Hm t)];
  try set_solver.

Section Mutex.
Context (m : RWMutex) (R : nat -> option role) (t : nat).

Lemma admit_ok : mutex_ok m R -> R t = None -> rw_writer m = None -> mutex_ok (admit_reader t m) (<[ t := Some (Holds Shared) ]> R).
Proof. intros Hm Ht Hw. roles Hm t. Qed.

Lemma park_ok : mutex_ok m R -> R t = None -> rw_writer m <> None -> mutex_ok (park_reader t m) (<[ t := Some (Parked Shared) ]> R).
Proof. intros Hm Ht Hw. roles Hm t. Qed.

Lemma claim_ok : mutex_ok m R -> R t = None -> rw_writer m = None -> mutex_ok (claim_writer t m) (<[ t := Some (Parked Exclusive) ]> R).
Proof. intros Hm Ht Hw. roles Hm t. Qed.

Lemma take_ok : mutex_ok m R ->
  R t = None -> rw_writer m = None -> rw_readers m = ∅ -> mutex_ok (claim_writer t m) (<[ t := Some (Holds Exclusive) ]> R).
Proof. intros Hm Ht Hw Hr. roles Hm t. Qed.

Lemma woken_reader_ok : mutex_ok m R -> R t = Some (Parked Shared) -> t ∈ rw_readers m -> mutex_ok m (<[ t := Some (Holds Shared) ]> R).
Proof. intros Hm Ht Hr. roles Hm t. Qed.

Lemma woken_writer_ok : mutex_ok m R -> R t = Some (Parked Exclusive) -> rw_readers m = ∅ -> mutex_ok m (<[ t := Some (Holds Exclusive) ]> R).
Proof. intros Hm Ht Hr. roles Hm t. Qed.

Lemma RUnlock_ok : mutex_ok m R -> R t = Some (Holds Shared) -> mutex_ok (RUnlock t m) (<[ t := None ]> R).
Proof. intros Hm Ht. roles Hm t. Qed.

Lemma Unlock_ok : mutex_ok m R -> R t = Some (Holds Exclusive) -> mutex_ok (Unlock m) (<[ t := None ]> R).
Proof. intros Hm Ht. roles Hm t. Qed.
End Mutex.

(** ** The order of locks *)

(** Locks of snapshots come before locks of step handles, which have no slash;
    else the order is that of the handles. *)
Definition rank (handle : string) : string := String (if has_byte slash handle then "0" else "1")%char handle.
Definition before (h h' : string) : Prop := strict String.le (rank h) (rank h').

#[global] Instance before_dec h h' : Decision (before h h').
Proof. unfold before. apply _. Defined.
#[global] Instance before_trans : Transitive before.
Proof. intros x y z. unfold before. apply transitivity. Qed.
Lemma before_irrefl h : ~ before h h.
Proof. intros [H H']. done. Qed.

Lemma rank_le c h h' : String.le (String c h) (String c h') <-> String.le h h'.
Proof.
  unfold String.le, String.leb. cbn [String.compare]. assert (Ascii.compare c c = Eq) as ->; [|done].
  unfold Ascii.compare. apply N.compare_refl.
Qed.

Lemma before_plain h h' : plain h -> plain h' -> h <> h' -> String.ltb h' h = false -> before h h'.
Proof.
  intros Hp Hp' Hne Hlt. unfold before, rank. rewrite Hp, Hp'. rewrite strict_spec_alt, !rank_le.
  split; [|by intros [= ->]]. unfold String.le, String.leb, String.ltb in *. rewrite String.compare_antisym.
  by destruct (String.compare h' h).
Qed.

Lemma before_snapshot digest h : plain h -> before (snapshotKey digest) h.
Proof.
  intros Hp. unfold before, rank. rewrite Hp. rewrite strict_spec_alt. change (has_byte slash (snapshotKey digest)) with true.
  by split.
Qed.

Lemma sorted_pair h h' : before h h' -> StronglySorted before [h; h'].
Proof. intros H. constructor; [by repeat constructor|]. by constructor. Qed.

Section Requests.
Context (storage : string).

Lemma below_plain path : below_steps storage path = true -> plain (stepHandle storage path).
Proof. unfold below_steps. rewrite bool_decide_eq_true. intros [rel H]. by eapply stepHandle_plain. Qed.

(** Every operation takes its locks in the order. *)
Lemma requests_sorted o : checked storage o = true -> StronglySorted before (rq_handle <$> requests storage o).
Proof.
  destruct o; cbn; intros Hc; try by repeat constructor.
  - apply andb_true_iff in Hc as [Hs Hd]. apply below_plain in Hs, Hd. unfold resolveCopy_locks, BeginResolveContext.
    destruct (String.eqb_spec (stepHandle storage source) (stepHandle storage dest)) as [|Hne]; [by repeat constructor|].
    destruct (String.ltb _ _) eqn:Hlt; apply sorted_pair; [|by apply before_plain].
    apply before_plain; [done..|by apply not_eq_sym|]. unfold String.ltb in *. rewrite String.compare_antisym.
    by destruct (String.compare _ _).
  - apply below_plain in Hc. by apply sorted_pair, before_snapshot.
Qed.
End Requests.

(** ** The invariant *)

(** The locks a goroutine refers to. *)
Definition held_uses (hs : list held) : list (string * nat) := (fun h => (h_handle h, h_lock h)) <$> hs.
Definition pc_uses (p : pc) : list (string * nat) :=
  match p with
  | Locking q l _ | Blocked q l _ => [(rq_handle q, l)]
  | Dropping h l => [(h, l)]
  | Entering _ _ | Inside | Leaving => []
  end.
Definition uses (g : goroutine) : list (string * nat) := pc_uses (gr_pc g) ++ held_uses (gr_held g).

(** The handles it has and will have, the last it took first. *)
Definition pc_handles (p : pc) : list string :=
  match p with
  | Entering q rest | Locking q _ rest | Blocked q _ rest => rq_handle <$> q :: rest
  | Dropping h _ => [h]
  | Inside | Leaving => []
  end.
Definition chain (g : goroutine) : list string := rev (h_handle <$> gr_held g) ++ pc_handles (gr_pc g).

Fixpoint held_role (l : nat) (hs : list held) : option role :=
  match hs with
  | [] => None
  | h :: hs => if decide (h_lock h = l) then Some (Holds (h_side h)) else held_role l hs
  end.

Definition lock_role (l : nat) (g : goroutine) : option role :=
  match gr_pc g with
  | Blocked q l' _ => if decide (l' = l) then Some (Parked (rq_side q)) else held_role l (gr_held g)
  | _ => held_role l (gr_held g)
  end.

Definition roles_of (l : nat) (gos : gmap nat goroutine) : nat -> option role := fun t => gos !! t ≫= lock_role l.

Definition uses_lock (l : nat) (g : goroutine) : bool := bool_decide (l ∈ (uses g).*2).
Definition count (l : nat) (gos : gmap nat goroutine) : nat := size (filter (fun p => uses_lock l p.2 = true) gos).

Record go_ok (g : goroutine) (guard : Guard) : Prop := {
  go_sorted : StronglySorted before (chain g);
  go_table h l : (h, l) ∈ uses g -> g_locks guard !! h = Some l }.

Record table_ok (guard : Guard) : Prop := {
  table_inj h h' l : g_locks guard !! h = Some l -> g_locks guard !! h' = Some l -> h = h';
  table_heap h l : g_locks guard !! h = Some l -> l ∈ dom (g_heap guard);
  table_live h l : g_locks guard !! h = Some l -> refs (lock_at guard l) <> 0 }.

Record lock_ok (guard : Guard) (gos : gmap nat goroutine) (l : nat) : Prop := {
  lock_refs : refs (lock_at guard l) = Z.of_nat (count l gos);
  lock_mutex : mutex_ok (mu (lock_at guard l)) (roles_of l gos) }.

Record guarded (guard : Guard) (gos : gmap nat goroutine) : Prop := {
  inv_go t g : gos !! t = Some g -> go_ok g guard;
  inv_table : table_ok guard;
  inv_lock l : lock_ok guard gos l }.

(** ** Counting references *)

Lemma count_split l gos t g :
  gos !! t = Some g -> count l gos = (count l (delete t gos) + Nat.b2n (uses_lock l g))%nat.
Proof.
  intros Hg. rewrite <- (insert_delete_id gos t g Hg) at 1. unfold count. destruct (uses_lock l g) eqn:Hu.
  - rewrite map_filter_insert_True by done. rewrite map_size_insert_None; [cbn; lia|].
    apply map_lookup_filter_None. left. apply lookup_delete_eq.
  - rewrite map_filter_insert_False by (cbn; congruence). rewrite delete_delete_eq. cbn. lia.
Qed.

Lemma count_insert l gos t g g' :
  gos !! t = Some g -> (count l (<[ t := g' ]> gos) + Nat.b2n (uses_lock l g) = count l gos + Nat.b2n (uses_lock l g'))%nat.
Proof.
  intros Hg. rewrite (count_split l gos t g Hg), (count_split l _ t g' (lookup_insert_eq _ _ _)).
  rewrite delete_insert_eq. lia.
Qed.

Lemma count_pos l gos t g : gos !! t = Some g -> uses_lock l g = true -> (0 < count l gos)%nat.
Proof. intros Hg Hu. rewrite (count_split l gos t g Hg), Hu. cbn. lia. Qed.

Lemma count_zero l gos : (forall t g, gos !! t = Some g -> uses_lock l g = false) -> count l gos = O.
Proof.
  intros H. unfold count. rewrite map_empty_filter_2; [done|]. intros t g Hg. cbn. by rewrite (H t g Hg).
Qed.

Lemma uses_lock_perm l g g' : uses g' ≡ₚ uses g -> uses_lock l g' = uses_lock l g.
Proof. intros H. unfold uses_lock. apply bool_decide_ext. by rewrite H. Qed.

Lemma uses_lock_elem l g : uses_lock l g = true <-> exists h, (h, l) ∈ uses g.
Proof.
  unfold uses_lock. rewrite bool_decide_eq_true, list_elem_of_fmap. split.
  - intros ([h l'] & -> & Hu). eauto.
  - intros [h Hu]. exists (h, l). done.
Qed.

(** The role of one goroutine changes. *)
Lemma roles_of_insert l gos t g t' : roles_of l (<[ t := g ]> gos) t' = (<[ t := lock_role l g ]> (roles_of l gos)) t'.
Proof.
  unfold roles_of. destruct (decide (t = t')) as [<-|].
  - by rewrite lookup_insert_eq, fn_lookup_insert.
  - by rewrite lookup_insert_ne, fn_lookup_insert_ne.
Qed.

Lemma roles_of_same l gos t g t' :
  roles_of l gos t = lock_role l g -> roles_of l (<[ t := g ]> gos) t' = roles_of l gos t'.
Proof.
  intros H. rewrite roles_of_insert. destruct (decide (t = t')) as [<-|]; by rewrite ?fn_lookup_insert, ?fn_lookup_insert_ne.
Qed.

Lemma roles_of_lookup l gos t g : gos !! t = Some g -> roles_of l gos t = lock_role l g.
Proof. unfold roles_of. by intros ->. Qed.

(** ** Steps of the invariant *)

(** A goroutine goes on with the same locks; at most one mutex changed, and with
    it what the goroutine is to it. *)
Lemma guarded_step guard guard' gos t g g' l :
  guarded guard gos -> gos !! t = Some g ->
  g_locks guard' = g_locks guard -> dom (g_heap guard) ⊆ dom (g_heap guard') ->
  (forall l', refs (lock_at guard' l') = refs (lock_at guard l')) ->
  (forall l', l' <> l -> mu (lock_at guard' l') = mu (lock_at guard l')) ->
  uses g' ≡ₚ uses g -> StronglySorted before (chain g') ->
  (forall l', l' <> l -> lock_role l' g' = lock_role l' g) ->
  mutex_ok (mu (lock_at guard' l)) (<[ t := lock_role l g' ]> (roles_of l gos)) ->
  guarded guard' (<[ t := g' ]> gos).
Proof.
  intros [Hgo [Hinj Hheap Hlive] Hlock] Hg Hlocks Hdom Hrefs Hmu Huses Hsorted Hroles Hok. split.
  - intros t' g1. rewrite lookup_insert_Some. intros [[<- <-]|[Hne Hg1]].
    + split; [done|]. intros h l'. rewrite Huses, Hlocks. by apply (Hgo t g Hg).
    + destruct (Hgo t' g1 Hg1) as [Hs Ht]. split; [done|]. by rewrite Hlocks.
  - split; setoid_rewrite Hlocks; [done|set_solver|]. intros h l'. rewrite Hrefs. apply Hlive.
  - intros l'. split.
    + rewrite Hrefs, (lock_refs _ _ _ (Hlock l')). f_equal. pose proof (count_insert l' gos t g g' Hg) as Hc.
      rewrite (uses_lock_perm l' g g' Huses) in Hc. lia.
    + destruct (decide (l' = l)) as [->|Hne].
      * eapply mutex_ok_ext; [|exact Hok]. intros t'. by rewrite roles_of_insert.
      * rewrite Hmu by done. eapply mutex_ok_ext; [|apply (lock_mutex _ _ _ (Hlock l'))].
        intros t'. symmetry. apply roles_of_same. by rewrite (roles_of_lookup _ _ _ _ Hg), Hroles.
Qed.

Lemma lock_at_set guard l k l' : lock_at (set_lock l k guard) l' = if decide (l' = l) then k else lock_at guard l'.
Proof.
  unfold lock_at, set_lock. cbn. case_decide as H; [subst; by rewrite lookup_insert_eq|by rewrite lookup_insert_ne by congruence].
Qed.

Lemma guarded_mutex guard gos t g g' l f :
  guarded guard gos -> gos !! t = Some g ->
  uses g' ≡ₚ uses g -> StronglySorted before (chain g') ->
  (forall l', l' <> l -> lock_role l' g' = lock_role l' g) ->
  mutex_ok (f (mu (lock_at guard l))) (<[ t := lock_role l g' ]> (roles_of l gos)) ->
  guarded (on_mutex f l guard) (<[ t := g' ]> gos).
Proof.
  intros Hinv Hg Hu Hs Hr Hok. eapply (guarded_step guard _ gos t g g' l); try done.
  - unfold on_mutex, set_lock. cbn. rewrite dom_insert_L. set_solver.
  - intros l'. unfold on_mutex. rewrite lock_at_set. by case_decide; subst.
  - intros l' Hne. unfold on_mutex. rewrite lock_at_set. by rewrite decide_False.
  - unfold on_mutex. rewrite lock_at_set. by rewrite decide_True.
Qed.

Lemma guarded_same guard gos t g g' :
  guarded guard gos -> gos !! t = Some g ->
  uses g' ≡ₚ uses g -> StronglySorted before (chain g') -> (forall l, lock_role l g' = lock_role l g) ->
  guarded guard (<[ t := g' ]> gos).
Proof.
  intros Hinv Hg Hu Hs Hr. eapply (guarded_step guard guard gos t g g' O); try done.
  eapply mutex_ok_ext; [|apply (lock_mutex _ _ _ (inv_lock _ _ Hinv O))]. intros t'.
  rewrite <- roles_of_insert. symmetry. apply roles_of_same. by rewrite (roles_of_lookup _ _ _ _ Hg), Hr.
Qed.

(** A goroutine that refers to no lock comes or goes. *)
Lemma guarded_begin guard gos t g :
  guarded guard gos -> gos !! t = None -> uses g = [] -> StronglySorted before (chain g) -> (forall l, lock_role l g = None) ->
  guarded guard (<[ t := g ]> gos).
Proof.
  intros [Hgo Htable Hlock] Hg Hu Hs Hr. split; [|done|].
  - intros t' g1. rewrite lookup_insert_Some. intros [[<- <-]|[Hne Hg1]]; [|by eapply Hgo].
    split; [done|]. intros h l. rewrite Hu. by intros ?%not_elem_of_nil.
  - intros l. destruct (Hlock l) as [Href Hmu]. split.
    + rewrite Href, (count_split l _ t g (lookup_insert_eq _ _ _)), delete_insert_id by done.
      unfold uses_lock. rewrite Hu, bool_decide_eq_false_2 by set_solver. cbn. lia.
    + eapply mutex_ok_ext; [|exact Hmu]. intros t'. symmetry. apply roles_of_same. rewrite Hr. unfold roles_of. by rewrite Hg.
Qed.

Lemma guarded_gone guard gos t g :
  guarded guard gos -> gos !! t = Some g -> uses g = [] -> (forall l, lock_role l g = None) -> guarded guard (delete t gos).
Proof.
  intros [Hgo Htable Hlock] Hg Hu Hr. split; [|done|].
  - intros t' g1. rewrite lookup_delete_Some. intros [_ Hg1]. by eapply Hgo.
  - intros l. destruct (Hlock l) as [Href Hmu]. split.
    + rewrite Href, (count_split l _ t g Hg). unfold uses_lock. rewrite Hu, bool_decide_eq_false_2 by set_solver. cbn. lia.
    + eapply mutex_ok_ext; [|exact Hmu]. intros t'. unfold roles_of. destruct (decide (t = t')) as [<-|].
      * rewrite Hg, lookup_delete_eq. apply Hr.
      * by rewrite lookup_delete_ne.
Qed.

(** ** Locks of one goroutine are distinct *)

Lemma sorted_NoDup l : StronglySorted before l -> NoDup l.
Proof.
  induction 1 as [|x l Hs IH Hx]; constructor; [|done]. intros Hin. rewrite Forall_forall in Hx.
  exact (before_irrefl x (Hx x (proj1 (list_elem_of_In _ _) Hin))).
Qed.

Lemma held_role_None l hs : (forall h, h ∈ hs -> h_lock h <> l) -> held_role l hs = None.
Proof.
  induction hs as [|h hs IH]; intros H; [done|]. cbn. rewrite decide_False by (apply H; constructor).
  apply IH. intros h' Hh'. apply H. by constructor.
Qed.

Lemma held_in_uses g h : h ∈ gr_held g -> (h_handle h, h_lock h) ∈ uses g.
Proof. intros Hh. apply elem_of_app. right. by apply (list_elem_of_fmap_2 (fun h => (h_handle h, h_lock h))).  Qed.

Section Distinct.
Context (guard : Guard) (g : goroutine) (Hgo : go_ok g guard) (Htable : table_ok guard).

Lemma same_lock h h' l : (h, l) ∈ uses g -> (h', l) ∈ uses g -> h = h'.
Proof. intros Hh Hh'. apply (go_table _ _ Hgo) in Hh, Hh'. by eapply table_inj. Qed.

(** The lock it waits for, or lets go, is not one it holds. *)
Lemma pending_not_held h l rest : pc_uses (gr_pc g) = [(h, l)] -> pc_handles (gr_pc g) = h :: rest ->
  held_role l (gr_held g) = None.
Proof.
  intros Hu Hc. apply held_role_None. intros x Hx Hl. pose proof (sorted_NoDup _ (go_sorted _ _ Hgo)) as Hnd.
  unfold chain in Hnd. apply list.NoDup_app in Hnd as (_ & Hnd & _). apply (Hnd (h_handle x)).
  - rewrite list_elem_of_In, <- in_rev, <- list_elem_of_In. by apply list_elem_of_fmap_2.
  - rewrite Hc, (same_lock (h_handle x) h l); [constructor|rewrite <- Hl; by apply held_in_uses|].
    unfold uses. rewrite Hu. constructor.
Qed.

Lemma top_not_below x rest : gr_held g = x :: rest -> held_role (h_lock x) rest = None.
Proof.
  intros Hh. apply held_role_None. intros y Hy Hl. pose proof (sorted_NoDup _ (go_sorted _ _ Hgo)) as Hnd.
  unfold chain in Hnd. apply list.NoDup_app in Hnd as (Hnd & _ & _). rewrite Hh in Hnd. cbn in Hnd.
  apply list.NoDup_app in Hnd as (_ & Hnd & _). apply (Hnd (h_handle y)).
  - rewrite list_elem_of_In, <- in_rev, <- list_elem_of_In. by apply list_elem_of_fmap_2.
  - rewrite (same_lock (h_handle y) (h_handle x) (h_lock x)); [constructor| |].
    + rewrite <- Hl. apply held_in_uses. rewrite Hh. by constructor.
    + apply held_in_uses. rewrite Hh. constructor.
Qed.
End Distinct.

(** ** The table *)

Lemma held_role_elem l hs r : held_role l hs = Some r -> exists h, h ∈ hs /\ h_lock h = l.
Proof.
  induction hs as [|x hs IH]; [done|]. cbn. case_decide as Hx; [intros _; exists x; split; [constructor|done]|].
  intros (h & Hin & Hl)%IH. exists h. split; [by constructor|done].
Qed.

Lemma held_role_uses l g : held_role l (gr_held g) <> None -> uses_lock l g = true.
Proof.
  intros H. apply uses_lock_elem. destruct (held_role l (gr_held g)) eqn:Hr; [|done].
  destruct (held_role_elem _ _ _ Hr) as (h & Hin & <-). exists (h_handle h). by apply held_in_uses.
Qed.

Lemma role_uses l g : lock_role l g <> None -> uses_lock l g = true.
Proof.
  intros H. unfold lock_role in H. destruct (gr_pc g) eqn:Hpc; try by apply held_role_uses. case_decide as Hl; [|by apply held_role_uses].
  subst. apply uses_lock_elem. exists (rq_handle q). unfold uses. rewrite Hpc. constructor.
Qed.

Lemma unlocked_ok R : (forall t, R t = None) -> mutex_ok unlocked R.
Proof. intros H. split; [|done]. intros t. rewrite H. cbn. set_solver. Qed.

Lemma unused_roles l gos t : count l gos = O -> roles_of l gos t = None.
Proof.
  intros Hc. unfold roles_of. destruct (gos !! t) as [g|] eqn:Hg; [|done]. cbn. destruct (lock_role l g) eqn:Hr; [|done].
  pose proof (count_pos l gos t g Hg). rewrite role_uses in H by congruence. specialize (H eq_refl). lia.
Qed.

Lemma fresh_unused guard gos l : guarded guard gos -> l ∉ dom (g_heap guard) -> count l gos = O.
Proof.
  intros [Hgo Htable _] Hl. apply count_zero. intros t g Hg. apply not_true_iff_false. intros [h Hu]%uses_lock_elem.
  apply Hl. eapply table_heap; [done|]. by eapply (go_table _ _ (Hgo t g Hg)).
Qed.

Lemma uses_with_pc p g : uses (with_pc p g) = pc_uses p ++ held_uses (gr_held g).
Proof. done. Qed.

Lemma uses_lock_cons g l h l' g' : uses g' = (h, l') :: uses g -> uses_lock l g' = bool_decide (l = l') || uses_lock l g.
Proof.
  intros Hu. unfold uses_lock. rewrite Hu. cbn. rewrite <- bool_decide_or. apply bool_decide_ext. set_solver.
Qed.

Section Table.
Context (guard : Guard) (gos : gmap nat goroutine) (t : nat) (g : goroutine).
Context (Hinv : guarded guard gos) (Hg : gos !! t = Some g).

(** A lock of a handle the goroutine waits for next is not one it refers to. *)
Lemma next_unused q rest l :
  gr_pc g = Entering q rest -> g_locks guard !! rq_handle q = Some l -> uses_lock l g = false.
Proof.
  intros Hpc Hl. apply not_true_iff_false. intros [h Hu]%uses_lock_elem. destruct (inv_go _ _ Hinv t g Hg) as [Hs Ht].
  assert (h = rq_handle q) as ->. { eapply table_inj; [apply Hinv|by apply Ht|done]. }
  unfold uses in Hu. rewrite Hpc in Hu. apply list_elem_of_fmap in Hu as (x & [= Hq ->] & Hx).
  unfold chain in Hs. rewrite Hpc in Hs. apply sorted_NoDup, list.NoDup_app in Hs as (_ & Hs & _). apply (Hs (rq_handle q)).
  - rewrite list_elem_of_In, <- in_rev, <- list_elem_of_In, Hq. by apply list_elem_of_fmap_2.
  - constructor.
Qed.

(** One more, or one less, goroutine refers to [l]. *)
Lemma count_used l g' :
  uses_lock l g = false -> uses_lock l g' = true -> count l (<[ t := g' ]> gos) = S (count l gos).
Proof. intros Hu Hu'. pose proof (count_insert l gos t g g' Hg) as H. rewrite Hu, Hu' in H. cbn in H. lia. Qed.

Lemma count_dropped l g' :
  uses_lock l g = true -> uses_lock l g' = false -> count l gos = S (count l (<[ t := g' ]> gos)).
Proof. intros Hu Hu'. pose proof (count_insert l gos t g g' Hg) as H. rewrite Hu, Hu' in H. cbn in H. lia. Qed.

Lemma count_kept l g' : uses_lock l g' = uses_lock l g -> count l (<[ t := g' ]> gos) = count l gos.
Proof. intros Hu. pose proof (count_insert l gos t g g' Hg) as H. rewrite Hu in H. lia. Qed.

Lemma roles_kept l g' : lock_role l g' = lock_role l g -> mutex_ok (mu (lock_at guard l)) (roles_of l (<[ t := g' ]> gos)).
Proof.
  intros Hr. eapply mutex_ok_ext; [|apply (inv_lock _ _ Hinv l)]. intros t'. symmetry. apply roles_of_same.
  by rewrite Hr; apply roles_of_lookup.
Qed.
End Table.

Section Acquire.
Context (guard : Guard) (gos : gmap nat goroutine) (t : nat) (g : goroutine).
Context (Hinv : guarded guard gos) (Hg : gos !! t = Some g).
Context (q : request) (rest : list request) (Hpc : gr_pc g = Entering q rest).

Definition entered (l : nat) : goroutine := with_pc (Locking q l rest) g.

Lemma entered_uses l : uses (entered l) = (rq_handle q, l) :: uses g.
Proof. unfold uses, entered. cbn. by rewrite Hpc. Qed.

Lemma entered_role l l' : lock_role l' (entered l) = lock_role l' g.
Proof. unfold lock_role, entered. cbn. by rewrite Hpc. Qed.

Lemma entered_ok guard' l :
  g_locks guard' !! rq_handle q = Some l -> (forall h l, g_locks guard !! h = Some l -> g_locks guard' !! h = Some l) ->
  forall t' g', (<[ t := entered l ]> gos) !! t' = Some g' -> go_ok g' guard'.
Proof.
  intros Hl Hmono t' g'. rewrite lookup_insert_Some. intros [[<- <-]|[_ Hg']].
  - destruct (inv_go _ _ Hinv t g Hg) as [Hs Ht]. split.
    + unfold chain, entered in *. by rewrite Hpc in Hs.
    + intros h l'. rewrite entered_uses. intros [[= -> ->]|Hu]%elem_of_cons; [done|]. by apply Hmono, Ht.
  - destruct (inv_go _ _ Hinv t' g' Hg') as [Hs Ht]. split; [done|]. intros h l' Hu. by apply Hmono, Ht.
Qed.

Lemma acquire_known l :
  g_locks guard !! rq_handle q = Some l ->
  guarded (set_lock l {| refs := refs (lock_at guard l) + 1; mu := mu (lock_at guard l) |} guard) (<[ t := entered l ]> gos).
Proof.
  intros Hl. pose proof (next_unused _ _ _ _ Hinv Hg _ _ _ Hpc Hl) as Hunused. split.
  - by apply entered_ok.
  - destruct (inv_table _ _ Hinv) as [Hinj Hheap Hlive]. split; cbn; [done| |].
    + intros h l' Hh. rewrite dom_insert_L. apply Hheap in Hh. set_solver.
    + intros h l' Hh. rewrite lock_at_set. case_decide; [subst; cbn|by eapply Hlive].
      rewrite (lock_refs _ _ _ (inv_lock _ _ Hinv l)). lia.
  - intros l'. pose proof (lock_refs _ _ _ (inv_lock _ _ Hinv l')) as Hrefs. pose proof (entered_uses l) as Hu.
    split; rewrite lock_at_set; case_decide as Hd; [subst l'; cbn| |subst l'; cbn|].
    + rewrite Hrefs, (count_used gos t g Hg l _ Hunused); [lia|]. by rewrite (uses_lock_cons _ _ _ _ _ Hu), bool_decide_true.
    + rewrite Hrefs, (count_kept gos t g Hg); [done|]. by rewrite (uses_lock_cons _ _ _ _ _ Hu), bool_decide_false.
    + by apply (roles_kept _ _ t g Hinv Hg), entered_role.
    + by apply (roles_kept _ _ t g Hinv Hg), entered_role.
Qed.

Lemma acquire_new :
  g_locks guard !! rq_handle q = None ->
  let l := fresh (dom (g_heap guard)) in
  guarded {| g_locks := <[ rq_handle q := l ]> (g_locks guard);
             g_heap := <[ l := {| refs := 1; mu := unlocked |} ]> (g_heap guard) |} (<[ t := entered l ]> gos).
Proof.
  intros Hl l. assert (Hfresh : l ∉ dom (g_heap guard)) by apply is_fresh. pose proof (fresh_unused _ _ _ Hinv Hfresh) as Hzero.
  destruct (inv_table _ _ Hinv) as [Hinj Hheap Hlive].
  assert (Hnew : forall h, g_locks guard !! h <> Some l) by (intros h Hh; by apply Hfresh, (Hheap h)).
  assert (Hat : forall locks l', lock_at {| g_locks := locks; g_heap := <[ l := {| refs := 1; mu := unlocked |} ]> (g_heap guard) |} l'
                = if decide (l' = l) then {| refs := 1; mu := unlocked |} else lock_at guard l').
  { intros locks l'. apply (lock_at_set guard l _ l'). }
  split.
  - apply entered_ok; cbn; [by rewrite lookup_insert_eq|]. intros h l' Hh. rewrite lookup_insert_ne; [done|]. intros <-. congruence.
  - split; cbn.
    + intros h h' l'. rewrite !lookup_insert_Some. naive_solver.
    + intros h l'. rewrite lookup_insert_Some, dom_insert_L. intros [[_ <-]|[_ Hh]]; [set_solver|]. apply Hheap in Hh. set_solver.
    + intros h l'. rewrite lookup_insert_Some, Hat. case_decide; [done|]. intros [[_ <-]|[_ Hh]]; [done|]. by eapply Hlive.
  - intros l'. pose proof (entered_uses l) as Hu. split; rewrite Hat; case_decide as Hd; [subst l'; cbn| |subst l'; cbn|].
    + rewrite (count_used gos t g Hg l); [lia| |by rewrite (uses_lock_cons _ _ _ _ _ Hu), bool_decide_true].
      apply not_true_iff_false. intros Hul. pose proof (count_pos l gos t g Hg Hul). lia.
    + rewrite (lock_refs _ _ _ (inv_lock _ _ Hinv l')), (count_kept gos t g Hg); [done|].
      by rewrite (uses_lock_cons _ _ _ _ _ Hu), bool_decide_false.
    + apply unlocked_ok. intros t'. rewrite roles_of_same by (rewrite entered_role; by apply roles_of_lookup). by apply unused_roles.
    + by apply (roles_kept _ _ t g Hinv Hg), entered_role.
Qed.

Lemma acquire_guarded l guard' :
  acquire (rq_handle q) guard = (l, guard') -> guarded guard' (<[ t := with_pc (Locking q l rest) g ]> gos).
Proof.
  unfold acquire. destruct (g_locks guard !! rq_handle q) as [l'|] eqn:Hl; intros [= <- <-];
    [by apply acquire_known|by apply acquire_new].
Qed.
End Acquire.

Section Release.
Context (guard : Guard) (gos : gmap nat goroutine) (t : nat) (g : goroutine).
Context (Hinv : guarded guard gos) (Hg : gos !! t = Some g).
Context (h : string) (l : nat) (Hpc : gr_pc g = Dropping h l).

Definition dropped : goroutine := with_pc Leaving g.

Lemma dropped_uses : uses g = (h, l) :: uses dropped.
Proof. unfold uses, dropped. cbn. by rewrite Hpc. Qed.

Lemma dropped_role l' : lock_role l' dropped = lock_role l' g.
Proof. unfold lock_role, dropped. cbn. by rewrite Hpc. Qed.

Lemma dropped_unused : uses_lock l dropped = false.
Proof.
  apply not_true_iff_false. intros [h' Hu]%uses_lock_elem. destruct (inv_go _ _ Hinv t g Hg) as [Hs Ht].
  assert (h' = h) as ->. { eapply table_inj; [apply Hinv|apply Ht|apply Ht]; rewrite dropped_uses; by constructor. }
  apply list_elem_of_fmap in Hu as (x & [= Hq _] & Hx).
  unfold chain in Hs. rewrite Hpc in Hs. apply sorted_NoDup, list.NoDup_app in Hs as (_ & Hs & _). apply (Hs h); [|constructor].
  rewrite list_elem_of_In, <- in_rev, <- list_elem_of_In, Hq. by apply list_elem_of_fmap_2.
Qed.

Lemma dropped_count : count l gos = S (count l (<[ t := dropped ]> gos)).
Proof.
  apply (count_dropped gos t g Hg); [|apply dropped_unused]. rewrite (uses_lock_cons dropped l _ _ _ dropped_uses).
  by rewrite bool_decide_true.
Qed.

Lemma dropped_go_ok guard' :
  (forall h' l', g_locks guard !! h' = Some l' -> (0 < count l' (<[ t := dropped ]> gos))%nat -> g_locks guard' !! h' = Some l') ->
  forall t' g', (<[ t := dropped ]> gos) !! t' = Some g' -> go_ok g' guard'.
Proof.
  intros Hkeep t' g' Hg'. assert (Hcount : forall h' l', (h', l') ∈ uses g' -> (0 < count l' (<[ t := dropped ]> gos))%nat).
  { intros h' l' Hu. apply (count_pos l' _ t' g' Hg'), uses_lock_elem. eauto. }
  revert Hg'. rewrite lookup_insert_Some. intros [[<- <-]|[_ Hg']].
  - destruct (inv_go _ _ Hinv t g Hg) as [Hs Ht]. split.
    + unfold chain, dropped in *. rewrite Hpc in Hs. cbn. rewrite app_nil_r. by apply StronglySorted_app_1_l in Hs.
    + intros h' l' Hu. apply Hkeep; [|by eapply Hcount]. apply Ht. rewrite dropped_uses. by constructor.
  - destruct (inv_go _ _ Hinv t' g' Hg') as [Hs Ht]. split; [done|]. intros h' l' Hu. apply Hkeep; [by apply Ht|by eapply Hcount].
Qed.
Lemma dropped_locks guard' l' :
  (forall l', lock_at guard' l' = if decide (l' = l) then {| refs := refs (lock_at guard l) - 1; mu := mu (lock_at guard l) |}
                                  else lock_at guard l') ->
  lock_ok guard' (<[ t := dropped ]> gos) l'.
Proof.
  intros Hat. pose proof (lock_refs _ _ _ (inv_lock _ _ Hinv l')) as Hrefs. split; rewrite Hat; case_decide as Hd;
    [subst l'; cbn| |subst l'; cbn|].
  - rewrite Hrefs, dropped_count. lia.
  - rewrite Hrefs, (count_kept gos t g Hg); [done|].
    by rewrite (uses_lock_cons dropped l' _ _ _ dropped_uses), bool_decide_false.
  - by apply (roles_kept _ _ t g Hinv Hg), dropped_role.
  - by apply (roles_kept _ _ t g Hinv Hg), dropped_role.
Qed.

Lemma release_guarded : guarded (release h l guard) (<[ t := with_pc Leaving g ]> gos).
Proof.
  destruct (inv_table _ _ Hinv) as [Hinj Hheap Hlive]. pose proof (lock_refs _ _ _ (inv_lock _ _ Hinv l)) as Hrefs.
  rewrite dropped_count in Hrefs. fold dropped.
  assert (Hh : g_locks guard !! h = Some l) by (apply (inv_go _ _ Hinv t g Hg); rewrite dropped_uses; constructor).
  assert (Hdom : forall h' l' k, g_locks guard !! h' = Some l' -> l' ∈ dom (<[ l := k ]> (g_heap guard))).
  { intros h' l' k Hh'. rewrite dom_insert_L. apply Hheap in Hh'. set_solver. }
  unfold release. case_match eqn:Hz.
  - apply Z.eqb_eq in Hz. split.
    + apply dropped_go_ok. cbn. intros h' l' Hh' Hpos. rewrite lookup_delete_ne; [done|]. intros <-.
      rewrite Hh in Hh'. injection Hh' as <-. lia.
    + split; cbn; intros h' *; rewrite !lookup_delete_Some; [naive_solver|intros [_ Hh']; by eapply Hdom|].
      intros [Hne Hh']. unfold lock_at. cbn. rewrite lookup_insert_ne by (intros <-; by apply Hne, (Hinj _ _ l)). by eapply Hlive.
    + intros l'. apply dropped_locks. intros l1. apply (lock_at_set guard l _ l1).
  - apply Z.eqb_neq in Hz. split.
    + by apply dropped_go_ok.
    + split; cbn; [done|intros h' l' Hh'; by eapply Hdom|]. intros h' l' Hh'. rewrite lock_at_set.
      case_decide; [done|]. by eapply Hlive.
    + intros l'. apply dropped_locks. intros l1. apply (lock_at_set guard l _ l1).
Qed.
End Release.

(** ** Every step keeps the invariant *)

Section Steps.
Context (st : daemon) (t : nat) (g : goroutine).
Context (Hinv : guarded (st_guard st) (st_gos st)) (Hg : st_gos st !! t = Some g).

Lemma go_inv : go_ok g (st_guard st).
Proof. by apply (inv_go _ _ Hinv t). Qed.

Lemma mutex_inv l : mutex_ok (mu (lock_at (st_guard st) l)) (roles_of l (st_gos st)).
Proof. apply (inv_lock _ _ Hinv l). Qed.

Lemma granted_uses q l rest : pc_uses (gr_pc g) = [(rq_handle q, l)] -> uses (granted q l rest g) ≡ₚ uses g.
Proof. intros Hu. unfold uses, granted. cbn. rewrite Hu. by destruct rest. Qed.

Lemma granted_chain q l rest : pc_handles (gr_pc g) = rq_handle <$> q :: rest -> chain (granted q l rest g) = chain g.
Proof. intros Hc. unfold chain, granted. cbn. rewrite Hc, <- app_assoc. cbn. by destruct rest. Qed.

Lemma granted_role q l rest l' :
  lock_role l' (granted q l rest g) = if decide (l = l') then Some (Holds (rq_side q)) else held_role l' (gr_held g).
Proof. unfold lock_role, granted. by destruct rest. Qed.

Section Wait.
Context (q : request) (l : nat) (rest : list request).
Context (Hpc : gr_pc g = Locking q l rest \/ gr_pc g = Blocked q l rest).

Lemma wait_uses : pc_uses (gr_pc g) = [(rq_handle q, l)].
Proof. by destruct Hpc as [-> | ->]. Qed.

Lemma wait_handles : pc_handles (gr_pc g) = rq_handle <$> q :: rest.
Proof. by destruct Hpc as [-> | ->]. Qed.

Lemma wait_free : held_role l (gr_held g) = None.
Proof. eapply pending_not_held; [apply go_inv|apply Hinv|apply wait_uses|apply wait_handles]. Qed.

Lemma wait_other l' : l' <> l -> lock_role l' g = held_role l' (gr_held g).
Proof. intros Hne. unfold lock_role. destruct Hpc as [-> | ->]; [done|]. by rewrite decide_False. Qed.

(** The goroutine gets the lock, with what its mutex becomes. *)
Lemma grant_guarded f :
  mutex_ok (f (mu (lock_at (st_guard st) l))) (<[ t := Some (Holds (rq_side q)) ]> (roles_of l (st_gos st))) ->
  guarded (on_mutex f l (st_guard st)) (<[ t := granted q l rest g ]> (st_gos st)).
Proof.
  intros Hok. eapply guarded_mutex; [done|done|by apply granted_uses, wait_uses| | |].
  - rewrite granted_chain by apply wait_handles. apply go_inv.
  - intros l' Hne. by rewrite granted_role, decide_False, wait_other.
  - by rewrite granted_role, decide_True.
Qed.

Lemma wake_guarded :
  mutex_ok (mu (lock_at (st_guard st) l)) (<[ t := Some (Holds (rq_side q)) ]> (roles_of l (st_gos st))) ->
  guarded (st_guard st) (<[ t := granted q l rest g ]> (st_gos st)).
Proof.
  intros Hok. eapply (guarded_step _ _ _ _ _ _ l); try done; [by apply granted_uses, wait_uses| | |].
  - rewrite granted_chain by apply wait_handles. apply go_inv.
  - intros l' Hne. by rewrite granted_role, decide_False, wait_other.
  - by rewrite granted_role, decide_True.
Qed.
End Wait.

Section Lock.
Context (q : request) (l : nat) (rest : list request) (Hpc : gr_pc g = Locking q l rest).

Lemma no_role : roles_of l (st_gos st) t = None.
Proof.
  rewrite (roles_of_lookup _ _ _ _ Hg). unfold lock_role. rewrite Hpc. eapply wait_free. by left.
Qed.

(** The goroutine waits inside the mutex. *)
Lemma block_guarded f :
  mutex_ok (f (mu (lock_at (st_guard st) l))) (<[ t := Some (Parked (rq_side q)) ]> (roles_of l (st_gos st))) ->
  guarded (on_mutex f l (st_guard st)) (<[ t := with_pc (Blocked q l rest) g ]> (st_gos st)).
Proof.
  intros Hok. eapply guarded_mutex; [done|done| | | |].
  - unfold uses. by rewrite Hpc.
  - pose proof (go_sorted _ _ go_inv) as Hs. unfold chain in *. by rewrite Hpc in Hs.
  - intros l' Hne. unfold lock_role. cbn. rewrite Hpc. by rewrite decide_False.
  - unfold lock_role. cbn. by rewrite decide_True.
Qed.

Lemma give_up_guarded : guarded (st_guard st) (<[ t := with_pc (Dropping (rq_handle q) l) g ]> (st_gos st)).
Proof.
  eapply guarded_same; [done|done| | |].
  - unfold uses. by rewrite Hpc.
  - pose proof (go_sorted _ _ go_inv) as Hs. unfold chain in *. rewrite Hpc in Hs. cbn in *.
    rewrite (cons_middle (rq_handle q)), app_assoc in Hs. by apply StronglySorted_app_1_l in Hs.
  - intros l'. unfold lock_role. cbn. by rewrite Hpc.
Qed.
End Lock.
End Steps.

Section Preservation.
Context (storage : string).

Lemma lock_step_guarded st t g q l rest st' :
  guarded (st_guard st) (st_gos st) -> st_gos st !! t = Some g -> gr_pc g = Locking q l rest ->
  lock_step st t g q l rest = Some st' -> guarded (st_guard st') (st_gos st').
Proof.
  intros Hinv Hg Hpc. pose proof (no_role st t g Hinv Hg _ _ _ Hpc) as Hnone. pose proof (mutex_inv st Hinv l) as Hm.
  assert (Hgrant := fun f => grant_guarded st t g Hinv Hg q l rest (or_introl Hpc) f).
  assert (Hblock := fun f => block_guarded st t g Hinv Hg q l rest Hpc f).
  unfold lock_step, no_writer, no_readers. destruct (rq_manner q), (rq_side q) eqn:Hside.
  - case_bool_decide as Hw; intros [= <-]; [apply Hgrant|apply Hblock]; [by apply admit_ok|by apply park_ok].
  - case_bool_decide as Hw; intros [= <-]. case_bool_decide as Hr; [apply Hgrant|apply Hblock]; [by apply take_ok|by apply claim_ok].
  - destruct (gr_cancelled g); intros [= <-]; [exact (give_up_guarded st t g Hinv Hg q l rest Hpc)|].
    case_bool_decide as Hw; [|done]. apply Hgrant. by apply admit_ok.
  - destruct (gr_cancelled g); intros [= <-]; [exact (give_up_guarded st t g Hinv Hg q l rest Hpc)|].
    case_bool_decide as Hw; [|done]. case_bool_decide as Hr; [|done]. apply Hgrant. by apply take_ok.
Qed.

Lemma blocked_guarded st t g q l rest st' :
  guarded (st_guard st) (st_gos st) -> st_gos st !! t = Some g -> gr_pc g = Blocked q l rest ->
  next st t g = Some st' -> guarded (st_guard st') (st_gos st').
Proof.
  intros Hinv Hg Hpc. pose proof (mutex_inv st Hinv l) as Hm. unfold next, no_readers. rewrite Hpc.
  assert (Hrole : roles_of l (st_gos st) t = Some (Parked (rq_side q))).
  { rewrite (roles_of_lookup _ _ _ _ Hg). unfold lock_role. rewrite Hpc. by rewrite decide_True. }
  destruct (rq_side q) eqn:Hside; case_bool_decide as Hr; intros [= <-];
    apply (wake_guarded st t g Hinv Hg q l rest (or_intror Hpc)); rewrite Hside.
  - by apply woken_reader_ok.
  - by apply woken_writer_ok.
Qed.

Lemma unlock_guarded st t g x rest :
  guarded (st_guard st) (st_gos st) -> st_gos st !! t = Some g -> gr_pc g = Leaving -> gr_held g = x :: rest ->
  guarded (on_mutex (match h_side x with Shared => RUnlock t | Exclusive => Unlock end) (h_lock x) (st_guard st))
    (<[ t := {| gr_op := gr_op g; gr_held := rest; gr_pc := Dropping (h_handle x) (h_lock x);
                gr_cancelled := gr_cancelled g |} ]> (st_gos st)).
Proof.
  intros Hinv Hg Hpc Hheld. pose proof (mutex_inv st Hinv (h_lock x)) as Hm. pose proof (go_inv st t g Hinv Hg) as Hgo.
  assert (Hrole : roles_of (h_lock x) (st_gos st) t = Some (Holds (h_side x))).
  { rewrite (roles_of_lookup _ _ _ _ Hg). unfold lock_role. rewrite Hpc, Hheld. cbn. by rewrite decide_True. }
  eapply guarded_mutex; [done|done| | | |].
  - unfold uses. by rewrite Hpc, Hheld.
  - pose proof (go_sorted _ _ Hgo) as Hs. unfold chain in *. rewrite Hpc, Hheld in Hs. cbn in *. by rewrite app_nil_r in Hs.
  - intros l' Hne. unfold lock_role. cbn. rewrite Hpc, Hheld. cbn. by rewrite decide_False.
  - unfold lock_role. cbn. rewrite (top_not_below _ _ Hgo (inv_table _ _ Hinv) x rest Hheld).
    destruct (h_side x); [by apply RUnlock_ok|by apply Unlock_ok].
Qed.

Lemma next_guarded st t g st' :
  guarded (st_guard st) (st_gos st) -> st_gos st !! t = Some g -> next st t g = Some st' ->
  guarded (st_guard st') (st_gos st').
Proof.
  intros Hinv Hg Hnext. destruct (gr_pc g) as [q rest|q l rest|q l rest| | |h l] eqn:Hpc.
  - unfold next in Hnext. rewrite Hpc in Hnext. destruct (acquire _ _) as [l guard] eqn:Ha. injection Hnext as <-.
    by eapply acquire_guarded.
  - unfold next in Hnext. rewrite Hpc in Hnext. by eapply lock_step_guarded.
  - by eapply blocked_guarded.
  - unfold next in Hnext. by rewrite Hpc in Hnext.
  - unfold next in Hnext. rewrite Hpc in Hnext. destruct (gr_held g) as [|x rest] eqn:Hh; injection Hnext as <-.
    + apply (guarded_gone _ _ t g); [done|done| |]; [unfold uses|intros l; unfold lock_role]; by rewrite Hpc, Hh.
    + by apply unlock_guarded.
  - unfold next in Hnext. rewrite Hpc in Hnext. injection Hnext as <-. by apply release_guarded.
Qed.

Lemma finish_guarded guard gos t g :
  guarded guard gos -> gos !! t = Some g -> may_finish g = true -> guarded guard (<[ t := with_pc Leaving g ]> gos).
Proof.
  intros Hinv Hg Hf. assert (Hpc : gr_pc g = Inside \/ exists q rest, gr_pc g = Entering q rest).
  { unfold may_finish in Hf. destruct (gr_pc g); eauto; done. }
  eapply guarded_same; [done|done| | |].
  - unfold uses. by destruct Hpc as [-> |(q & rest & ->)].
  - pose proof (go_sorted _ _ (inv_go _ _ Hinv t g Hg)) as Hs. unfold chain in *. apply StronglySorted_app_1_l in Hs.
    cbn. by rewrite app_nil_r.
  - intros l. unfold lock_role. by destruct Hpc as [-> |(q & rest & ->)].
Qed.

Lemma advances_guarded e st st' :
  guarded (st_guard st) (st_gos st) -> advances storage e st = Some st' -> guarded (st_guard st') (st_gos st').
Proof.
  intros Hinv H. destruct e as [t o|t|t|t|t handle files]; cbn in H.
  - destruct (st_gos st !! t) eqn:Hg; [done|]. destruct (checked storage o) eqn:Hc; [|done]. injection H as <-.
    pose proof (requests_sorted storage o Hc) as Hs.
    destruct (requests storage o) as [|q rest]; apply guarded_begin; try done; by repeat constructor.
  - apply bind_Some in H as (g & Hg & H). by eapply next_guarded.
  - apply bind_Some in H as (g & Hg & [= <-]). cbn. by eapply guarded_same; [..|apply (inv_go _ _ Hinv t g Hg)|].
  - apply bind_Some in H as (g & Hg & H). destruct (may_finish g) eqn:Hf; [|done]. injection H as <-. by apply finish_guarded.
  - apply bind_Some in H as (g & Hg & H). destruct (gr_pc g); try done. destruct (replaces storage (gr_op g) handle); [|done].
    by injection H as <-.
Qed.

Lemma started_guarded disk : guarded (st_guard (started disk)) (st_gos (started disk)).
Proof.
  assert (Hempty : forall l, lock_at NewReadGuard l = {| refs := 0; mu := unlocked |}) by done.
  cbn [started st_guard st_gos]. split; [intros t g; by rewrite lookup_empty|split; by intros *; cbn|].
  intros l. split; rewrite Hempty; [by rewrite count_zero by (intros t g; by rewrite lookup_empty)|].
  apply unlocked_ok. intros t. unfold roles_of. by rewrite lookup_empty.
Qed.

Lemma reachable_guarded st : reachable storage st -> guarded (st_guard st) (st_gos st).
Proof. induction 1 as [disk|st e st' _ IH H]; [apply started_guarded|]. by eapply advances_guarded. Qed.
End Preservation.

(** ** What an operation holds while its body runs *)

Definition wanted (q : request) : string * side := (rq_handle q, rq_side q).
Definition taken (h : held) : string * side := (h_handle h, h_side h).

Section Ops.
Context (storage : string).

(** The locks taken and to take are those of the operation. *)
Definition on_plan (g : goroutine) : Prop :=
  let asked := rev (taken <$> gr_held g) in
  match gr_pc g with
  | Entering q rest | Locking q _ rest | Blocked q _ rest => asked ++ (wanted <$> q :: rest) = wanted <$> requests storage (gr_op g)
  | Inside => asked = wanted <$> requests storage (gr_op g)
  | Leaving | Dropping _ _ => True
  end.

Definition op_ok (g : goroutine) : Prop := checked storage (gr_op g) = true /\ on_plan g.

Lemma granted_on_plan g q l rest :
  op_ok g -> gr_pc g = Locking q l rest \/ gr_pc g = Blocked q l rest -> op_ok (granted q l rest g).
Proof.
  intros [Hc Hp] Hpc. split; [done|]. unfold on_plan, granted in *. cbn. destruct Hpc as [Hpc|Hpc]; rewrite Hpc in Hp; cbn in Hp;
    destruct rest as [|q' rest]; cbn in *; by rewrite <- ?app_assoc.
Qed.

Lemma next_op_ok st t g st' t' g' :
  op_ok g -> next st t g = Some st' -> st_gos st' !! t' = Some g' -> st_gos st !! t' = Some g' \/ op_ok g'.
Proof.
  intros Hok Hnext Hg'. assert (Hupdate : forall guard g1, op_ok g1 -> st' = update st guard t g1 -> st_gos st !! t' = Some g' \/ op_ok g').
  { intros guard g1 Hok1 ->. revert Hg'. unfold update. cbn. rewrite lookup_insert_Some. naive_solver. }
  unfold next in Hnext. destruct (gr_pc g) as [q rest|q l rest|q l rest| | |h l] eqn:Hpc; [| | |done| |].
  - destruct (acquire _ _) as [l guard]. injection Hnext as <-. eapply Hupdate; [|done]. destruct Hok as [Hc Hp]. split; [done|].
    unfold on_plan in *. by rewrite Hpc in Hp.
  - assert (Hgr := granted_on_plan g q l rest Hok (or_introl Hpc)).
    assert (Hbl : op_ok (with_pc (Blocked q l rest) g)).
    { destruct Hok as [Hc Hp]. split; [done|]. unfold on_plan in *. by rewrite Hpc in Hp. }
    assert (Hdr : op_ok (with_pc (Dropping (rq_handle q) l) g)) by (by destruct Hok).
    unfold lock_step in Hnext. repeat case_match; simplify_eq; by eauto.
  - assert (Hgr := granted_on_plan g q l rest Hok (or_intror Hpc)). repeat case_match; simplify_eq; by eauto.
  - destruct Hok as [Hc _]. destruct (gr_held g) as [|x rest]; injection Hnext as <-;
      [|eapply Hupdate; [|reflexivity]; by split].
    left. unfold gone in Hg'. cbn in Hg'. apply lookup_delete_Some in Hg'. by destruct Hg'.
  - injection Hnext as <-. eapply Hupdate; [|done]. by destruct Hok.
Qed.

Lemma advances_op_ok e st st' :
  (forall t g, st_gos st !! t = Some g -> op_ok g) -> advances storage e st = Some st' ->
  forall t g, st_gos st' !! t = Some g -> op_ok g.
Proof.
  intros Hok H t' g' Hg'. destruct e as [t o|t|t|t|t handle files]; cbn in H.
  - destruct (st_gos st !! t); [done|]. destruct (checked storage o) eqn:Hc; [|done].
    injection H as <-. cbn in Hg'. rewrite lookup_insert_Some in Hg'.
    destruct Hg' as [[_ <-]|[_ Hg']]; [|by eapply Hok]. split; [done|]. unfold on_plan. cbn.
    by destruct (requests storage o).
  - apply bind_Some in H as (g & Hg & H). destruct (next_op_ok st t g st' t' g' (Hok t g Hg) H Hg'); [by eapply Hok|done].
  - apply bind_Some in H as (g & Hg & [= <-]). cbn in Hg'. rewrite lookup_insert_Some in Hg'.
    destruct Hg' as [[_ <-]|[_ Hg']]; [|by eapply Hok]. exact (Hok t g Hg).
  - apply bind_Some in H as (g & Hg & H). destruct (may_finish g); [|done]. injection H as <-. cbn in Hg'.
    rewrite lookup_insert_Some in Hg'. destruct Hg' as [[_ <-]|[_ Hg']]; [|by eapply Hok]. split; [apply (Hok t g Hg)|done].
  - apply bind_Some in H as (g & Hg & H). destruct (gr_pc g); try done. destruct (replaces _ _ _); [|done].
    injection H as <-. by eapply Hok.
Qed.

Lemma reachable_op_ok st : reachable storage st -> forall t g, st_gos st !! t = Some g -> op_ok g.
Proof.
  induction 1 as [disk|st e st' _ IH H]; [intros t g; cbn; by rewrite lookup_empty|]. by eapply advances_op_ok.
Qed.

(** ** Locks of the operations that replace and read *)

Lemma under_steps_head path x l h :
  parts path = parts storage ++ "steps" :: x :: l -> under_handle storage path h = true -> x = h.
Proof.
  intros Hp H. unfold under_handle, overlaps in H. destruct (stepsRoot_parts storage) as [_ Hr].
  assert (Hp' : parts path = (parts storage ++ ["steps"]) ++ x :: l) by (by rewrite <- app_assoc).
  rewrite Hp', Hr in H. apply orb_true_iff in H. rewrite !bool_decide_eq_true in H.
  by eapply prefix_cons_head.
Qed.

Lemma below_locked path h :
  below_steps storage path = true -> under_handle storage path h = true -> stepHandle storage path = h.
Proof.
  unfold below_steps. rewrite bool_decide_eq_true. intros [rel Hrel] Hu.
  apply pathBelow_parts in Hrel as (Habs & x & l & Hsafe & Hp). destruct (stepsRoot_parts storage) as [Hr Hrp].
  rewrite Hrp, <- app_assoc in Hp. rewrite (stepHandle_parts storage path x l); [|done|by rewrite Habs|done].
  exact (under_steps_head path x l h Hp Hu).
Qed.

Lemma stream_locked key h :
  safe_path key -> under_handle storage (steps_path storage key) h = true -> stepHandle storage (steps_path storage key) = h.
Proof.
  intros Hk Hu. unfold steps_path in *. rewrite stepHandle_of_key by done. destruct (keyHandle_safe key Hk) as [rest Hr].
  destruct (Join_safe storage ["steps"; key]) as [_ Hp]; [done|by repeat constructor|]. cbn in Hp. rewrite Hr, app_nil_r in Hp.
  by eapply under_steps_head.
Qed.

Lemma delete_locked key h :
  safe_path key -> key <> "steps" -> under_handle storage (artifact_path storage key) h = true ->
  stepHandle storage (artifact_path storage key) = h.
Proof.
  intros Hk Hne Hu. unfold artifact_path in *. destruct (Join_safe storage [key]) as [Ha Hp]; [done|by repeat constructor|].
  cbn [fmap list_fmap mjoin list_join] in Hp. rewrite app_nil_r in Hp. unfold safe_path in Hk.
  destruct (Split_cons key) as (x & l & Hx). rewrite Hx in Hp, Hk.
  assert (x = "steps") as ->.
  { unfold under_handle, overlaps in Hu. destruct (stepsRoot_parts storage) as [_ Hr]. rewrite Hp, Hr, <- app_assoc in Hu.
    apply orb_true_iff in Hu. rewrite !bool_decide_eq_true in Hu.
    destruct Hu as [[k Hk']|[k Hk']]; rewrite <- !app_assoc in Hk'; apply app_inv_head in Hk'; by injection Hk'. }
  destruct l as [|y l]; [destruct Hne; by rewrite <- (join_Split key), Hx|].
  apply Forall_inv_tail in Hk. rewrite (stepHandle_parts storage _ y l) by done. by eapply under_steps_head.
Qed.

(** What replaces the files of a handle without its lock: [DELETE
    /artifacts/steps], which removes the directories of all the handles, and a
    [PUT /artifacts/] to a path under it. *)
Definition unguarded (o : op) (handle : string) : bool :=
  match o with
  | DeleteArtifact key => String.eqb key "steps"
  | PutArtifact key => under_handle storage (artifact_path storage key) handle
  | _ => false
  end.

Lemma replaces_locked o h :
  checked storage o = true -> unguarded o h = false -> replaces storage o h = true ->
  (h, Exclusive) ∈ wanted <$> requests storage o.
Proof.
  intros Hc Hne Hr. destruct o; try done; cbn [checked replaces requests unguarded] in *.
  - apply String.eqb_eq in Hr as ->. apply list_elem_of_here.
  - unfold streamIn_locks. rewrite (stream_locked key h); [apply list_elem_of_here|by apply canonical_safe|done].
  - unfold deleteArtifact_locks. rewrite (delete_locked key h); [apply list_elem_of_here|by apply canonical_safe|by apply String.eqb_neq in Hne|done].
  - congruence.
  - apply andb_true_iff in Hc as [_ Hc]. unfold resolveCopy_locks, BeginResolveContext. rewrite (below_locked dest h Hc Hr).
    destruct (String.eqb_spec (stepHandle storage source) h) as [->|]; [apply list_elem_of_here|]. case_match; cbn; set_solver.
  - unfold publish_locks. rewrite (below_locked dest h Hc Hr). apply list_elem_of_here.
  - unfold materializeSnapshot_locks, publish_locks. rewrite (below_locked dest h Hc Hr). set_solver.
Qed.

Lemma reads_locked o h : reads storage o h = true -> exists s, (h, s) ∈ wanted <$> requests storage o.
Proof.
  intros Hr. destruct o; try done; cbn [reads requests] in *; apply String.eqb_eq in Hr as <-;
    [eexists; apply list_elem_of_here..|].
  unfold resolveCopy_locks, BeginResolveContext. repeat case_match; cbn; [exists Exclusive|exists Shared|exists Shared]; set_solver.
Qed.
End Ops.
