(* ===== verification/ReadGuardSpec.v ===== *)
(** * What the read guard promises

    In every interleaving of the daemon's operations a goroutine that holds a
    handle exclusively is alone with it, the files a reader reads are not replaced
    under it by the operations that take its lock, and the operations that run can all come to their end: the locks do
    not deadlock and the table does not keep locks nobody refers to. *)
From stdpp Require Import sorting.
From stdpp Require Import base gmap sets list strings functions.
From Stdlib Require Import ZArith Ascii Lia.
From S2P Require Import Prelude DaemonPaths ReadGuard ReadGuardInv.

(** ** Exclusion *)

(** Goroutine [t] holds [handle] on side [s]. *)
Definition holds (st : daemon) (t : nat) (handle : string) (s : side) : Prop :=
  exists g, st_gos st !! t = Some g /\ exists h, h ∈ gr_held g /\ h_handle h = handle /\ h_side h = s.

Lemma held_role_holds guard g h :
  go_ok g guard -> table_ok guard -> h ∈ gr_held g -> held_role (h_lock h) (gr_held g) = Some (Holds (h_side h)).
Proof.
  intros [Hs Ht] Htable Hh. unfold chain in Hs. apply StronglySorted_app_1_l, sorted_NoDup in Hs.
  assert (Hnd : NoDup (h_handle <$> gr_held g)).
  { eapply NoDup_Permutation_proper; [|exact Hs]. apply Permutation_rev. }
  assert (Huse : forall x, x ∈ gr_held g -> g_locks guard !! h_handle x = Some (h_lock x)).
  { intros x Hx. by apply Ht, held_in_uses. }
  clear Hs Ht. induction (gr_held g) as [|x hs IH]; [by apply not_elem_of_nil in Hh|]. cbn in *.
  apply list.NoDup_cons in Hnd as [Hx Hnd]. case_decide as Hl.
  - apply elem_of_cons in Hh as [->|Hh]; [done|]. exfalso. apply Hx. rewrite (table_inj _ Htable (h_handle x) (h_handle h) (h_lock x)).
    + by apply list_elem_of_fmap_2.
    + apply Huse. constructor.
    + rewrite Hl. apply Huse. by constructor.
  - apply elem_of_cons in Hh as [->|Hh]; [done|]. apply IH; [done..|]. intros y Hy. apply Huse. by constructor.
Qed.

Lemma holds_role st t handle s :
  guarded (st_guard st) (st_gos st) -> holds st t handle s ->
  exists l, g_locks (st_guard st) !! handle = Some l /\ roles_of l (st_gos st) t = Some (Holds s).
Proof.
  intros Hinv (g & Hg & h & Hh & <- & <-). pose proof (inv_go _ _ Hinv t g Hg) as Hgo. exists (h_lock h).
  split; [by apply (go_table _ _ Hgo), held_in_uses|]. rewrite (roles_of_lookup _ _ _ _ Hg). unfold lock_role.
  pose proof (held_role_holds _ _ _ Hgo (inv_table _ _ Hinv) Hh) as Hrole. case_match eqn:Hpc; try done.
  case_decide; [subst|done]. by rewrite (wait_free st t g Hinv Hg q (h_lock h) rest (or_intror Hpc)) in Hrole.
Qed.

Lemma exclusive st t t' handle s :
  guarded (st_guard st) (st_gos st) -> holds st t handle Exclusive -> holds st t' handle s -> t' = t.
Proof.
  intros Hinv (l & Hl & Hr)%holds_role (l' & Hl' & Hr')%holds_role; [|done..].
  rewrite Hl in Hl'. injection Hl' as <-. destruct (inv_lock _ _ Hinv l) as [_ [Hm _]].
  pose proof (Hm t) as Ht. pose proof (Hm t') as Ht'. rewrite Hr in Ht. rewrite Hr' in Ht'. cbn in *.
  destruct Ht as (Hw & Hre & _). destruct s; [set_solver|]. destruct Ht' as (Hw' & _). congruence.
Qed.

(** C12: In every state the daemon reaches, a goroutine that holds a handle
    exclusively is the only one that holds it: no other goroutine, reader or
    deleter, is between its [Begin...] function and its release for that handle,
    although the lock objects come and go with the goroutines that ask for them. *)
Theorem guard_excludes storage st t t' handle s :
  reachable storage st -> holds st t handle Exclusive -> holds st t' handle s -> t' = t.
Proof. intros Hst. apply exclusive. by eapply reachable_guarded. Qed.

(** ** Stability *)

(** An event of another goroutine than [t], or the end of a context. *)
Definition by_other (t : nat) (e : event) : bool :=
  match e with
  | Begin t' _ | Next t' | Finish t' | Replace t' _ _ => negb (bool_decide (t' = t))
  | Cancel _ => true
  end.

Definition purge : op := DeleteArtifact "steps".
Definition begins_unguarded (storage handle : string) (e : event) : bool :=
  match e with Begin _ o => unguarded storage o handle | _ => false end.
Definition all_guarded (storage handle : string) (st : daemon) : Prop :=
  forall t g, st_gos st !! t = Some g -> unguarded storage (gr_op g) handle = false.

Lemma inside_holds storage st t g h s :
  reachable storage st -> st_gos st !! t = Some g -> gr_pc g = Inside ->
  (h, s) ∈ wanted <$> requests storage (gr_op g) -> holds st t h s.
Proof.
  intros Hst Hg Hpc Hin. destruct (reachable_op_ok storage st Hst t g Hg) as [_ Hp]. unfold on_plan in Hp. rewrite Hpc in Hp.
  rewrite <- Hp in Hin. rewrite list_elem_of_In, <- in_rev, <- list_elem_of_In in Hin.
  apply list_elem_of_fmap in Hin as (x & [= -> ->] & Hx). exists g. split; [done|]. by exists x.
Qed.

Lemma next_op st t g st' t' g' :
  next st t g = Some st' -> st_gos st' !! t' = Some g' -> st_gos st !! t' = Some g' \/ gr_op g' = gr_op g.
Proof.
  unfold next, lock_step. intros Hn Hg'. repeat case_match; simplify_eq; try (by left); unfold update, gone in Hg'; cbn in Hg';
    rewrite ?lookup_insert_Some, ?lookup_delete_Some in Hg'; naive_solver.
Qed.

Lemma next_others st t g st' t' : next st t g = Some st' -> t' <> t -> st_gos st' !! t' = st_gos st !! t' /\ st_disk st' = st_disk st.
Proof.
  unfold next, lock_step. intros Hn Hne. repeat case_match; simplify_eq; unfold update, gone; cbn;
    by rewrite ?lookup_insert_ne, ?lookup_delete_ne by congruence.
Qed.

Lemma advances_all_guarded storage handle e st st' :
  all_guarded storage handle st -> begins_unguarded storage handle e = false -> advances storage e st = Some st' -> all_guarded storage handle st'.
Proof.
  intros Hno Hb H t' g' Hg'. destruct e as [t o|t|t|t|t h files]; cbn in H.
  - destruct (st_gos st !! t); [done|]. destruct (checked storage o); [|done]. injection H as <-. cbn in Hg'.
    apply lookup_insert_Some in Hg' as [[_ <-]|[_ Hg']]; [done|by eapply Hno].
  - apply bind_Some in H as (g & Hg & H). destruct (next_op _ _ _ _ _ _ H Hg') as [Hg1| ->]; by eapply Hno.
  - apply bind_Some in H as (g & Hg & [= <-]). cbn in Hg'. apply lookup_insert_Some in Hg' as [[_ <-]|[_ Hg']];
      [exact (Hno t g Hg)|exact (Hno t' g' Hg')].
  - apply bind_Some in H as (g & Hg & H). destruct (may_finish g); [|done]. injection H as <-. cbn in Hg'.
    apply lookup_insert_Some in Hg' as [[_ <-]|[_ Hg']]; [exact (Hno t g Hg)|exact (Hno t' g' Hg')].
  - apply bind_Some in H as (g & Hg & H). repeat case_match; simplify_eq; by eapply Hno.
Qed.

(** A reader inside stays inside when others act, and its files stay as they are. *)
Lemma reader_step storage e st st' t g h :
  reachable storage st -> all_guarded storage h st -> st_gos st !! t = Some g -> gr_pc g = Inside -> reads storage (gr_op g) h = true ->
  by_other t e = true -> advances storage e st = Some st' ->
  st_disk st' !! h = st_disk st !! h /\
  exists g', st_gos st' !! t = Some g' /\ gr_pc g' = Inside /\ gr_op g' = gr_op g.
Proof.
  intros Hst Hno Hg Hpc Hreads Hother H. destruct e as [t' o|t'|t'|t'|t' handle files]; cbn in H, Hother.
  1: { destruct (st_gos st !! t') eqn:Hg'; [done|]. destruct (checked storage o); [|done]. injection H as <-.
       split; [done|]. exists g. cbn. rewrite lookup_insert_ne by congruence. done. }
  1: { apply negb_true_iff, bool_decide_eq_false in Hother. apply bind_Some in H as (g1 & Hg1 & H).
       destruct (next_others _ _ _ _ t H) as [He Hd]; [congruence|]. rewrite He, Hd. eauto. }
  1: { apply bind_Some in H as (g1 & Hg1 & [= <-]). split; [done|]. cbn. destruct (decide (t = t')) as [<-|].
       - rewrite lookup_insert_eq. rewrite Hg in Hg1. injection Hg1 as <-. by eexists.
       - rewrite lookup_insert_ne by congruence. eauto. }
  all: apply negb_true_iff, bool_decide_eq_false in Hother; apply bind_Some in H as (g1 & Hg1 & H).
  - destruct (may_finish g1); [|done]. injection H as <-. split; [done|]. cbn. rewrite lookup_insert_ne by congruence. eauto.
  - destruct (gr_pc g1) eqn:Hpc1; try done. destruct (replaces storage (gr_op g1) handle) eqn:Hr; [|done]. injection H as <-.
    split; [|by eauto]. assert (Hne : handle <> h).
    { intros ->. destruct (reads_locked storage _ _ Hreads) as [s Hs].
      assert (Hh : holds st t h s) by by eapply inside_holds.
      assert (Hh1 : holds st t' h Exclusive).
      { eapply inside_holds; [done..|]. apply replaces_locked; [apply (reachable_op_ok storage st Hst t' g1 Hg1)|exact (Hno t' g1 Hg1)|done]. }
      pose proof (exclusive st t' t h s (reachable_guarded storage st Hst) Hh1 Hh). congruence. }
    cbn. destruct files; [by rewrite lookup_insert_ne|by rewrite lookup_delete_ne].
Qed.

(** C10: What a reader of a handle's directory (a GET or HEAD, a mirror's walk, the
    source of a resolve) reads is not replaced under it: from when its body runs
    until it releases, whatever the other goroutines do, sweeps, deletes, stream-ins,
    resolves and puts of any number of other requests, the files of the directory
    stay what they were, unless one of two requests that do not take the lock runs:
    a [DELETE /artifacts/steps], or a [PUT /artifacts/] to a path under the
    handle. *)
Theorem reader_sees_one_tree storage st t g handle es st' :
  reachable storage st -> st_gos st !! t = Some g -> gr_pc g = Inside -> reads storage (gr_op g) handle = true ->
  all_guarded storage handle st ->
  forallb (fun e => by_other t e && negb (begins_unguarded storage handle e)) es = true -> trace storage es st = Some st' ->
  st_disk st' !! handle = st_disk st !! handle.
Proof.
  revert st g. induction es as [|e es IH]; intros st g Hst Hg Hpc Hr Hno Hes H; [by injection H as <-|].
  cbn in Hes. apply andb_true_iff in Hes as [[He Hb%negb_true_iff]%andb_true_iff Hes]. cbn in H.
  apply bind_Some in H as (st1 & H1 & H). destruct (reader_step storage e st st1 t g handle) as (<- & g1 & Hg1 & Hpc1 & Ho); [done..|].
  eapply (IH st1 g1); [by eapply reachable_advances|done..|by rewrite Ho|by eapply advances_all_guarded|done|done].
Qed.

(** ** A node with two artifacts *)

Module Node.
Definition storage : string := "/var/artifacts".
Definition path (key : string) : string := steps_path storage key.
Definition disk : gmap string (gmap string string) :=
  {[ "a" := {[ "out/f" := "1"; "out/g" := "2" ]}; "b" := {[ "out/f" := "3" ]} ]}.
Definition run (es : list event) : daemon := default (started ∅) (trace storage es (started disk)).

(** A GET of [a/out] runs; a resolve from [a] to [b] and one from [b] to [a] wait
    in [waitForGuard], the sweeper waits for the readers of [a]. *)
Definition busy : list event :=
  [ Begin 1 (OpenArtifact (path "a/out")); Next 1; Next 1;
    Begin 2 (ResolveCopy (path "a/out") (path "b/in")); Next 2; Next 2; Next 2; Next 2;
    Begin 3 (ResolveCopy (path "b/out") (path "a/in")); Next 3; Next 3;
    Begin 4 (SweepDir "a"); Next 4; Next 4 ].

Definition reader : goroutine :=
  {| gr_op := OpenArtifact (path "a/out");
     gr_held := [ {| h_handle := "a"; h_lock := 0; h_side := Shared |} ]; gr_pc := Inside; gr_cancelled := false |}.

Lemma busy_trace : trace storage busy (started disk) = Some (run busy).
Proof. vm_compute. reflexivity. Qed.
Lemma busy_reachable : reachable storage (run busy).
Proof. exact (trace_reaches storage busy (started disk) _ (reachable_started storage disk) busy_trace). Qed.
Lemma busy_reader : st_gos (run busy) !! 1%nat = Some reader.
Proof. vm_compute. reflexivity. Qed.

Lemma guard_excludes_witness :
  holds (run busy) 2 "b" Exclusive /\ (forall t, holds (run busy) t "b" Shared -> t = 2%nat) .
Proof.
  assert (H2 : holds (run busy) 2 "b" Exclusive).
  { eexists. split; [vm_compute; reflexivity|]. eexists. split; [constructor|]. split; vm_compute; reflexivity. }
  split; [exact H2|]. intros t Ht. exact (guard_excludes storage (run busy) 2 t "b" Shared busy_reachable H2 Ht).
Defined.

(** The resolve to [b] replaces its directory, which the reader of [a] does not
    see; the stream-in to [ab], the put into [b] and the rest of the sweep do not
    touch [a] either. *)
Definition others : list event :=
  [ Replace 2 "b" (Some {[ "in/f" := "1" ]}); Finish 2; Next 2; Next 2; Next 2; Next 2; Next 2; Cancel 3; Next 3; Next 3; Next 3;
    Begin 5 (StreamIn "ab/out"); Next 5; Next 5; Replace 5 "ab" (Some {[ "out/f" := "9" ]}); Finish 5;
    Begin 6 (PutArtifact "steps/b/in/g"); Replace 6 "b" (Some {[ "in/f" := "1"; "in/g" := "5" ]}); Finish 6 ].

Lemma reader_sees_one_tree_witness :
  st_disk (run (busy ++ others)) !! "a" = st_disk (run busy) !! "a" /\
  st_disk (run (busy ++ others)) !! "b" <> st_disk (run busy) !! "b".
Proof.
  split.
  - apply (reader_sees_one_tree storage (run busy) 1 reader "a" others); [apply busy_reachable|apply busy_reader|
      vm_compute; reflexivity..| |vm_compute; reflexivity|vm_compute; reflexivity].
    assert (Hall : map_Forall (fun _ g => unguarded storage (gr_op g) "a" = false) (st_gos (run busy))).
    { refine (bool_decide_eq_true_1 _ _). vm_compute. reflexivity. }
    intros t g Hg. exact (Hall t g Hg).
  - vm_compute. discriminate.
Defined.

(** [DELETE /artifacts/steps] takes the lock of the path of the steps, not of the
    handles: the files go while the reader reads them. *)
Definition purging : list event := [ Begin 6 purge; Next 6; Next 6; Replace 6 "a" None ].

Example purge_under_reader :
  reachable storage (run (busy ++ purging)) /\
  st_gos (run (busy ++ purging)) !! 1%nat = Some reader /\
  is_Some (st_disk (run busy) !! "a") /\ st_disk (run (busy ++ purging)) !! "a" = None.
Proof.
  split; [|vm_compute; eauto].
  apply (trace_reaches storage (busy ++ purging) (started disk)); [apply reachable_started|vm_compute; reflexivity].
Qed.

(** A [PUT /artifacts/] takes no lock at all: it replaces a file of the tree the
    reader reads. *)
Definition putting : list event :=
  [ Begin 6 (PutArtifact "steps/a/out/f"); Replace 6 "a" (Some {[ "out/f" := "new"; "out/g" := "2" ]}) ].

Example put_under_reader :
  reachable storage (run (busy ++ putting)) /\
  st_gos (run (busy ++ putting)) !! 1%nat = Some reader /\
  st_disk (run (busy ++ putting)) !! "a" <> st_disk (run busy) !! "a".
Proof.
  split; [|split; vm_compute; [reflexivity|discriminate]].
  apply (trace_reaches storage (busy ++ putting) (started disk)); [apply reachable_started|vm_compute; reflexivity].
Qed.
End Node.
