(* ===== verification/ReadGuardLive.v ===== *)
(** * The read guard does not deadlock

    A measure of what the goroutines have left to do, the step that some goroutine
    can always take, and that all of them can come to their end. *)
From stdpp Require Import sorting.
From stdpp Require Import base gmap sets list strings functions.
From Stdlib Require Import ZArith Ascii Lia.
From S2P Require Import Prelude DaemonPaths ReadGuard ReadGuardInv ReadGuardSpec.

(** ** What is left to do *)

Definition weight (g : goroutine) : nat :=
  let n := length (gr_held g) in
  match gr_pc g with
  | Entering _ rest => 2 * n + 5 * S (length rest) + 2
  | Locking _ _ rest => 2 * n + 5 * S (length rest) + 1
  | Blocked _ _ rest => 2 * n + 5 * S (length rest)
  | Inside | Dropping _ _ => 2 * n + 2
  | Leaving => 2 * n + 1
  end.

Definition measure (gos : gmap nat goroutine) : nat := map_fold (fun _ g n => (weight g + n)%nat) O gos.

Lemma measure_insert gos t g : gos !! t = None -> measure (<[ t := g ]> gos) = (weight g + measure gos)%nat.
Proof. intros H. unfold measure. rewrite map_fold_insert_L; [done|intros; lia|done]. Qed.

Lemma measure_split gos t g : gos !! t = Some g -> measure gos = (weight g + measure (delete t gos))%nat.
Proof.
  intros H. rewrite <- (insert_delete_id gos t g H) at 1. apply measure_insert, lookup_delete_eq.
Qed.

Lemma measure_update gos t g g' :
  gos !! t = Some g -> (weight g' < weight g)%nat -> (measure (<[ t := g' ]> gos) < measure gos)%nat.
Proof.
  intros H Hw. rewrite (measure_split gos t g H), (measure_split _ t g' (lookup_insert_eq _ _ _)), delete_insert_eq. lia.
Qed.

Lemma granted_weight q l rest g :
  gr_pc g = Locking q l rest \/ gr_pc g = Blocked q l rest -> (weight (granted q l rest g) < weight g)%nat.
Proof. intros H. unfold weight, granted. cbn. destruct H as [-> | ->], rest; cbn; lia. Qed.

(** [t] makes a call that brings it nearer to its end. *)
Definition moves (st : daemon) (t : nat) : Prop :=
  exists g st', st_gos st !! t = Some g /\ next st t g = Some st' /\ (measure (st_gos st') < measure (st_gos st))%nat.

Section Progress.
Context (st : daemon) (Hinv : guarded (st_guard st) (st_gos st)).

Lemma moves_update t g guard g' :
  st_gos st !! t = Some g -> next st t g = Some (update st guard t g') -> (weight g' < weight g)%nat -> moves st t.
Proof. intros Hg Hn Hw. exists g. eexists. repeat split; [done|done|]. by eapply measure_update. Qed.

(** A goroutine that does not wait and does not run its body moves. *)
Lemma busy_moves t g :
  st_gos st !! t = Some g ->
  match gr_pc g with Entering _ _ | Leaving | Dropping _ _ => True | _ => False end -> moves st t.
Proof.
  intros Hg Hpc. destruct (gr_pc g) as [q rest| | | | |h l] eqn:Hp; try done.
  - destruct (acquire (rq_handle q) (st_guard st)) as [l guard] eqn:Ha. apply (moves_update t g guard (with_pc (Locking q l rest) g)).
    + done.
    + unfold next. by rewrite Hp, Ha.
    + unfold weight. rewrite Hp. cbn. lia.
  - destruct (gr_held g) as [|x rest] eqn:Hh.
    + exists g, (gone st t). repeat split; [done|unfold next; by rewrite Hp, Hh|]. cbn. rewrite (measure_split _ t g Hg).
      unfold weight. rewrite Hp. lia.
    + eapply moves_update; [done|unfold next; rewrite Hp, Hh; reflexivity|]. unfold weight. rewrite Hp, Hh. cbn. lia.
  - eapply moves_update; [done|unfold next; rewrite Hp; reflexivity|]. unfold weight. rewrite Hp. cbn. lia.
Qed.

(** Somebody holds the lock [l]. *)
Definition has_holder (l : nat) : Prop := exists t g h, st_gos st !! t = Some g /\ h ∈ gr_held g /\ h_lock h = l.

Definition helped (l : nat) : Prop := (exists t, moves st t) \/ has_holder l.

Lemma held_role_holder t g l s : st_gos st !! t = Some g -> held_role l (gr_held g) = Some (Holds s) -> has_holder l.
Proof. intros Hg (h & Hh & Hl)%held_role_elem. by exists t, g, h. Qed.

Lemma role_cases t l r : roles_of l (st_gos st) t = Some r ->
  exists g, st_gos st !! t = Some g /\
    ((exists s, r = Holds s /\ held_role l (gr_held g) = Some (Holds s)) \/
     (exists q rest, r = Parked (rq_side q) /\ gr_pc g = Blocked q l rest)).
Proof.
  unfold roles_of. intros (g & Hg & Hr)%bind_Some. exists g. split; [done|].
  assert (Hheld : held_role l (gr_held g) = Some r -> exists s, r = Holds s).
  { clear. induction (gr_held g) as [|h hs IH]; [done|]. cbn. case_decide; [|done]. intros [= <-]. eauto. }
  unfold lock_role in Hr. destruct (gr_pc g) as [| |q l' rest| | |] eqn:Hpc; try (left; destruct (Hheld Hr) as [s ->]; by eauto).
  case_decide; [|left; destruct (Hheld Hr) as [s ->]; by eauto]. subst. injection Hr as <-. right. by exists q, rest.
Qed.

Lemma reader_helps l r : r ∈ rw_readers (mu (lock_at (st_guard st) l)) -> helped l.
Proof.
  intros Hr. destruct (mutex_inv st Hinv l) as [Hm _]. specialize (Hm r).
  destruct (roles_of l (st_gos st) r) as [role|] eqn:Hrole; [|by destruct Hm].
  destruct (role_cases _ _ _ Hrole) as (g & Hg & [(s & -> & Hh)|(q & rest & -> & Hpc)]).
  - right. by eapply held_role_holder.
  - left. exists r. destruct (rq_side q) eqn:Hs; cbn in Hm; [|by destruct Hm as (_ & ? & _)].
    eapply (moves_update r g (st_guard st) (granted q l rest g)); [done| |apply granted_weight; by right].
    unfold next. rewrite Hpc, Hs. by rewrite bool_decide_true.
Qed.

Lemma readers_help l : rw_readers (mu (lock_at (st_guard st) l)) <> ∅ -> helped l.
Proof. intros [r Hr]%set_choose_L. by eapply reader_helps. Qed.

Lemma writer_helps l w : rw_writer (mu (lock_at (st_guard st) l)) = Some w -> helped l.
Proof.
  intros Hw. destruct (mutex_inv st Hinv l) as [Hm _]. specialize (Hm w).
  destruct (roles_of l (st_gos st) w) as [role|] eqn:Hrole; [|by destruct Hm as (_ & ? & _)].
  destruct (role_cases _ _ _ Hrole) as (g & Hg & [(s & -> & Hh)|(q & rest & -> & Hpc)]); [right; by eapply held_role_holder|].
  destruct (rq_side q) eqn:Hs; cbn in Hm; [by destruct Hm|].
  destruct (decide (rw_readers (mu (lock_at (st_guard st) l)) = ∅)) as [He|]; [|by apply readers_help].
  left. exists w. eapply (moves_update w g (st_guard st) (granted q l rest g)); [done| |apply granted_weight; by right].
  unfold next, no_readers. rewrite Hpc, Hs. by rewrite bool_decide_true.
Qed.

Lemma writers_help l : rw_writer (mu (lock_at (st_guard st) l)) <> None -> helped l.
Proof. destruct (rw_writer _) eqn:Hw; [|done]. intros _. by eapply writer_helps. Qed.
(** A goroutine that waits for a lock moves, or somebody does, or somebody holds
    the lock. *)
Lemma locking_helped t g q l rest : st_gos st !! t = Some g -> gr_pc g = Locking q l rest -> helped l.
Proof.
  intros Hg Hpc. pose proof (granted_weight q l rest g (or_introl Hpc)) as Hw.
  assert (Hblocked : (weight (with_pc (Blocked q l rest) g) < weight g)%nat) by (unfold weight; rewrite Hpc; cbn; lia).
  assert (Hdropped : (weight (with_pc (Dropping (rq_handle q) l) g) < weight g)%nat) by (unfold weight; rewrite Hpc; cbn; lia).
  assert (Hmoves : forall guard g', lock_step st t g q l rest = Some (update st guard t g') -> (weight g' < weight g)%nat -> helped l).
  { intros guard g' Hs Hlt. left. exists t. eapply moves_update; [done| |done]. unfold next. by rewrite Hpc. }
  unfold lock_step, no_writer, no_readers in Hmoves. destruct (rq_manner q), (rq_side q).
  - case_bool_decide; by eapply Hmoves.
  - case_bool_decide; [|by apply writers_help]. case_bool_decide; by eapply Hmoves.
  - destruct (gr_cancelled g); [by eapply Hmoves|]. case_bool_decide; [by eapply Hmoves|by apply writers_help].
  - destruct (gr_cancelled g); [by eapply Hmoves|]. case_bool_decide; [|by apply writers_help]. cbn in Hmoves.
    case_bool_decide; [by eapply Hmoves|by apply readers_help].
Qed.

Lemma blocked_helped t g q l rest : st_gos st !! t = Some g -> gr_pc g = Blocked q l rest -> helped l.
Proof.
  intros Hg Hpc. destruct (mutex_inv st Hinv l) as [Hm Hpend]. specialize (Hm t).
  assert (roles_of l (st_gos st) t = Some (Parked (rq_side q))) as Hrole.
  { rewrite (roles_of_lookup _ _ _ _ Hg). unfold lock_role. rewrite Hpc. by rewrite decide_True. }
  rewrite Hrole in Hm. destruct (rq_side q) eqn:Hs; cbn in Hm.
  - destruct Hm as [_ [[Hr _]|[_ Hwait]]]; [by eapply reader_helps|]. apply writers_help. intros Hw. rewrite (Hpend Hw) in Hwait. set_solver.
  - destruct Hm as (Hw & _). by eapply writer_helps.
Qed.

Definition waits (g : goroutine) : option (request * nat) :=
  match gr_pc g with Locking q l _ | Blocked q l _ => Some (q, l) | _ => None end.

Lemma waiting_helped t g q l : st_gos st !! t = Some g -> waits g = Some (q, l) -> helped l.
Proof.
  unfold waits. intros Hg Hw. destruct (gr_pc g) eqn:Hpc; try done; injection Hw as <- <-;
    [by eapply locking_helped|by eapply blocked_helped].
Qed.

Lemma waits_uses g q l : waits g = Some (q, l) -> (rq_handle q, l) ∈ uses g.
Proof. unfold waits, uses. intros Hw. destruct (gr_pc g); try done; injection Hw as <- <-; constructor. Qed.

(** What a goroutine holds comes before what it waits for. *)
Lemma held_before t g q l h : st_gos st !! t = Some g -> waits g = Some (q, l) -> h ∈ gr_held g -> before (h_handle h) (rq_handle q).
Proof.
  intros Hg Hw Hh. pose proof (go_sorted _ _ (inv_go _ _ Hinv t g Hg)) as Hs. unfold chain in Hs.
  eapply StronglySorted_app_1_elem_of; [exact Hs| |].
  - rewrite list_elem_of_In, <- in_rev, <- list_elem_of_In. by apply list_elem_of_fmap_2.
  - unfold waits in Hw. destruct (gr_pc g); try done; injection Hw as -> _; constructor.
Qed.

(** If all wait, one of them moves: the lock of the last handle in the order that
    anybody waits for has no holder. *)
Lemma all_waiting_moves :
  st_gos st <> ∅ -> (forall t g, st_gos st !! t = Some g -> is_Some (waits g)) -> exists t, moves st t.
Proof.
  intros Hne Hall.
  set (handle := fun p : nat * goroutine => match waits p.2 with Some (q, _) => rq_handle q | None => "" end).
  set (X := list_to_set (handle <$> map_to_list (st_gos st)) : gset string).
  assert (HX : forall t g q l, st_gos st !! t = Some g -> waits g = Some (q, l) -> rq_handle q ∈ X).
  { intros t g q l Hg Hw. apply elem_of_list_to_set, list_elem_of_fmap. exists (t, g). unfold handle. cbn. rewrite Hw.
    split; [done|]. by apply elem_of_map_to_list. }
  assert (Htrans : Transitive (fun a b => before b a)) by (intros a b c Hab Hbc; by etrans).
  destruct (minimal_exists_elem_of_L (fun a b => before b a) X) as (h & Hh & Hmin).
  { apply map_choose in Hne as (t & g & Hg). destruct (Hall t g Hg) as [[q l] Hw]. pose proof (HX t g q l Hg Hw). set_solver. }
  apply elem_of_list_to_set, list_elem_of_fmap in Hh as ([t g] & -> & Hg%elem_of_map_to_list).
  destruct (Hall t g Hg) as [[q l] Hw]. unfold handle in Hmin. cbn in Hmin. rewrite Hw in Hmin.
  destruct (waiting_helped t g q l Hg Hw) as [|(t' & g' & x & Hg' & Hx & Hl)]; [done|]. exfalso.
  destruct (Hall t' g' Hg') as [[q' l'] Hw']. pose proof (held_before t' g' q' l' x Hg' Hw' Hx) as Hb.
  assert (h_handle x = rq_handle q) as Heq.
  { eapply table_inj; [apply Hinv|apply (go_table _ _ (inv_go _ _ Hinv t' g' Hg')); by apply held_in_uses|].
    rewrite Hl. by apply (go_table _ _ (inv_go _ _ Hinv t g Hg)), waits_uses. }
  rewrite Heq in Hb. pose proof (Hmin _ (HX t' g' q' l' Hg' Hw') Hb) as Hb'. apply (before_irrefl (rq_handle q)). by etrans.
Qed.
End Progress.

(** ** Every operation can come to its end *)

(** A goroutine makes its next call, or a body that runs ends. *)
Definition winds_down (e : event) : bool := match e with Next _ | Finish _ => true | _ => false end.

Lemma progress storage st :
  guarded (st_guard st) (st_gos st) -> st_gos st <> ∅ ->
  exists e st', winds_down e = true /\ advances storage e st = Some st' /\ (measure (st_gos st') < measure (st_gos st))%nat.
Proof.
  intros Hinv Hne. assert (Hmoves : (exists t, moves st t) -> exists e st', winds_down e = true /\ advances storage e st = Some st' /\
    (measure (st_gos st') < measure (st_gos st))%nat).
  { intros (t & g & st' & Hg & Hn & Hm). exists (Next t), st'. cbn. by rewrite Hg. }
  destruct (decide (map_Forall (fun _ g => is_Some (waits g)) (st_gos st))) as [Hall|Hnot].
  - by apply Hmoves, all_waiting_moves.
  - apply map_not_Forall in Hnot as (t & g & Hg & Hw); [|apply _]. destruct (gr_pc g) as [q rest|q l rest|q l rest| | |h l] eqn:Hpc.
    + apply Hmoves. exists t. eapply busy_moves; [done|]. by rewrite Hpc.
    + destruct Hw. unfold waits. rewrite Hpc. eauto.
    + destruct Hw. unfold waits. rewrite Hpc. eauto.
    + exists (Finish t). eexists. cbn. rewrite Hg. cbn. unfold may_finish. rewrite Hpc. split; [done|split; [done|]]. cbn.
      eapply measure_update; [done|]. unfold weight. rewrite Hpc. cbn. lia.
    + apply Hmoves. exists t. eapply busy_moves; [done|]. by rewrite Hpc.
    + apply Hmoves. exists t. eapply busy_moves; [done|]. by rewrite Hpc.
Qed.

Lemma drains storage st :
  guarded (st_guard st) (st_gos st) ->
  exists es st', forallb winds_down es = true /\ trace storage es st = Some st' /\ (st_gos st' = ∅) /\
    guarded (st_guard st') (st_gos st').
Proof.
  remember (measure (st_gos st)) as n eqn:Hn. revert st Hn. induction (lt_wf n) as [n _ IH]. intros st -> Hinv.
  destruct (decide (st_gos st = ∅)) as [He|Hne]; [by exists [], st|].
  destruct (progress storage st Hinv Hne) as (e & st1 & He & H1 & Hlt).
  destruct (IH _ Hlt st1 eq_refl) as (es & st' & Hes & Htrace & Hend & Hinv'); [by eapply advances_guarded|].
  exists (e :: es), st'. cbn. rewrite He, H1. done.
Qed.

(** C11: The guard does not deadlock and does not leak: from every state the daemon
    reaches there is a continuation, made only of the next calls of the goroutines
    there are and of the ends of their bodies, in which every goroutine gets its
    locks or gives up, releases them and ends, and after which the table of locks is
    empty.  So no interleaving of reads, sweeps, resolves from A to B and from B to A
    and materialisations of snapshots leaves goroutines that wait for each other,
    and none needs its context to be cancelled. *)
Theorem guard_drains storage st :
  reachable storage st ->
  exists es st', forallb winds_down es = true /\ trace storage es st = Some st' /\ (st_gos st' = ∅) /\
    (g_locks (st_guard st') = ∅).
Proof.
  intros Hst. destruct (drains storage st (reachable_guarded storage st Hst)) as (es & st' & Hes & Ht & He & Hinv).
  exists es, st'. repeat split; [done..|]. apply map_empty. intros h. destruct (g_locks (st_guard st') !! h) as [l|] eqn:Hl; [|done].
  destruct (table_live _ (inv_table _ _ Hinv) h l Hl). rewrite (lock_refs _ _ _ (inv_lock _ _ Hinv l)), He. by rewrite count_zero.
Qed.

(** The busy node of [ReadGuardSpec.Node], in which two resolves, a read and a sweep
    are in each other's way. *)
Lemma guard_drains_witness :
  st_gos (Node.run Node.busy) <> ∅ /\
  exists es st', forallb winds_down es = true /\ trace Node.storage es (Node.run Node.busy) = Some st' /\ (st_gos st' = ∅) /\
    (g_locks (st_guard st') = ∅).
Proof.
  split; [vm_compute; discriminate|]. exact (guard_drains Node.storage (Node.run Node.busy) Node.busy_reachable).
Defined.
