(* ===== verification/DaemonRegistry.v ===== *)
(** * The registry and the sweeper of the artifact daemon (cmd/artifact-daemon)

    The registry maps the keys of artifacts to paths on the node
    ([registry.go]); the entries the ATC registered as aliases are kept in a file
    ([alias_store.go]) and read back when the daemon starts ([main.go]).  A change
    of the aliases holds [persistMu] from the change in memory to the end of the
    save, while plain registrations go on; here the change, the snapshot and the
    save are separate steps, between which the others and a crash may come.  The
    sweeper ([sweeper.go]) removes step directories and forgets what the registry
    and the mirror ([mirror.go]) know of them. *)
From stdpp Require Import base gmap sets list strings.
From Stdlib Require Import ZArith Ascii Lia.
From S2P Require Import Prelude DaemonPaths.

(** ** The registry in memory *)

Record Registry := { entries : gmap string string; aliases : gmap string string }.

Definition NewRegistry : Registry := {| entries := ∅; aliases := ∅ |}.

Definition Register (key localPath : string) (r : Registry) : Registry :=
  {| entries := <[ key := localPath ]> (entries r); aliases := aliases r |}.

Definition RegisterIfAbsent (key localPath : string) (r : Registry) : bool * Registry :=
  match entries r !! key with
  | Some _ => (false, r)
  | None => (true, Register key localPath r)
  end.

Definition Lookup (key : string) (r : Registry) : option string := entries r !! key.
Definition Len (r : Registry) : nat := size (entries r).
Definition Keys (r : Registry) : list string := (map_to_list (entries r)).*1.

(** The changes of the alias functions: the registry they leave, and whether they
    go on to [persistAliasesLocked]. *)
Definition alias_insert (key localPath : string) (r : Registry) : Registry :=
  {| entries := <[ key := localPath ]> (entries r); aliases := <[ key := localPath ]> (aliases r) |}.
Definition forget (key : string) (r : Registry) : Registry :=
  {| entries := delete key (entries r); aliases := delete key (aliases r) |}.

Definition RegisterAlias (key localPath : string) (r : Registry) : Registry * bool := (alias_insert key localPath r, true).

Definition Remove (key : string) (r : Registry) : Registry * bool :=
  (forget key r, bool_decide (is_Some (aliases r !! key))).

Definition RemoveIf (key expectedPath : string) (r : Registry) : Registry * bool :=
  if bool_decide (entries r !! key = Some expectedPath) then Remove key r else (r, false).

(** [strings.HasPrefix(path, dirPath)] of every entry; an alias goes with its entry. *)
Definition matches (dirPath : string) (p : string * string) : bool := HasPrefix p.2 dirPath.
Definition RemoveByPath (dirPath : string) (r : Registry) : Registry * bool :=
  let gone := filter (fun p => matches dirPath p = true) (entries r) in
  ({| entries := filter (fun p => matches dirPath p = false) (entries r);
      aliases := filter (fun p => gone !! p.1 = None) (aliases r) |},
   existsb (fun key => bool_decide (is_Some (aliases r !! key))) (map_to_list gone).*1).

(** ** The start of the daemon *)

(** What a start finds on the node: the directories under the steps with the
    entries below them ([None]: it cannot be read), each a name and whether it is
    a directory; whether a path exists; whether the file of the aliases can be
    read. *)
Record Host := {
  steps_dir : option (list (string * bool * option (list (string * bool))));
  exists_path : string -> bool;
  aliases_readable : bool }.

Section Start.
Context (storagePath : string).

Definition scan_output (handle : string) (r : Registry) (output : string * bool) : Registry :=
  if output.2 then Register (handle +:+ "/" +:+ output.1) (Join [Join [stepsRoot storagePath; handle]; output.1]) r else r.

Definition scan_handle (r : Registry) (entry : string * bool * option (list (string * bool))) : Registry :=
  let '(handle, isDir, outputs) := entry in
  if isDir then match outputs with Some outputs => foldl (scan_output handle) r outputs | None => r end else r.

Definition ScanHostPath (h : Host) (r : Registry) : Registry :=
  match steps_dir h with Some dirs => foldl scan_handle r dirs | None => r end.

(** [AliasStore.Load]: the aliases of the file whose paths exist.  [None] is an
    error. *)
Definition Load (h : Host) (file : option (gmap string string)) : option (gmap string string) :=
  match file with
  | None => Some ∅
  | Some raw => if aliases_readable h then Some (filter (fun p => exists_path h p.2 = true) raw) else None
  end.

Definition LoadAliases (h : Host) (file : option (gmap string string)) (r : Registry) : Registry :=
  match Load h file with
  | Some loaded => {| entries := loaded ∪ entries r; aliases := loaded ∪ aliases r |}
  | None => r
  end.

Definition boot (h : Host) (file : option (gmap string string)) : Registry :=
  LoadAliases h file (ScanHostPath h NewRegistry).

(** ** The daemon as it runs *)

(** Who has [persistMu]: nobody, a call that changed the aliases, a call that took
    its snapshot. *)
Inductive persisting := Free | Changed | Snapped (snapshot : gmap string string).

Record node := { nd_registry : Registry; nd_file : option (gmap string string); nd_persist : persisting }.

(** [Save]: the temporary file replaces the file by a rename, or an error leaves
    the file as it was. *)
Definition Save (works : bool) (snapshot : gmap string string) (file : option (gmap string string)) : option (gmap string string) :=
  if works then Some snapshot else file.

Inductive call :=
| Registers (key path : string)
| RegistersIfAbsent (key path : string)
| Aliases (key path : string)
| Removes (key : string)
| RemovesIf (key path : string)
| RemovesByPath (dir : string)
| TakesSnapshot
| Saves (works : bool)
| Restarts (h : Host).

Definition with_registry (r : Registry) (nd : node) : node :=
  {| nd_registry := r; nd_file := nd_file nd; nd_persist := nd_persist nd |}.

Definition changes (rp : Registry * bool) (nd : node) : option node :=
  match nd_persist nd with
  | Free => Some {| nd_registry := rp.1; nd_file := nd_file nd; nd_persist := if rp.2 then Changed else Free |}
  | _ => None
  end.

Definition step (c : call) (nd : node) : option node :=
  let r := nd_registry nd in
  match c with
  | Registers key path => Some (with_registry (Register key path r) nd)
  | RegistersIfAbsent key path => Some (with_registry (RegisterIfAbsent key path r).2 nd)
  | Aliases key path => changes (RegisterAlias key path r) nd
  | Removes key => changes (Remove key r) nd
  | RemovesIf key path => changes (RemoveIf key path r) nd
  | RemovesByPath dir => changes (RemoveByPath dir r) nd
  | TakesSnapshot =>
      match nd_persist nd with
      | Changed => Some {| nd_registry := r; nd_file := nd_file nd; nd_persist := Snapped (aliases r) |}
      | _ => None
      end
  | Saves works =>
      match nd_persist nd with
      | Snapped snapshot => Some {| nd_registry := r; nd_file := Save works snapshot (nd_file nd); nd_persist := Free |}
      | _ => None
      end
  | Restarts h => Some {| nd_registry := boot h (nd_file nd); nd_file := nd_file nd; nd_persist := Free |}
  end.

Fixpoint runs (cs : list call) (nd : node) : option node :=
  match cs with
  | [] => Some nd
  | c :: cs => nd' ← step c nd; runs cs nd'
  end.
End Start.

(** ** The sweeper *)

(** What the mirror knows of the copies of a key: the outcome on each peer. *)
Abbreviation mirror_status := (gmap string (gmap string string)) (only parsing).

Definition ForgetHandle (handle : string) (status : mirror_status) : mirror_status :=
  filter (fun p => HasPrefix p.1 (handle +:+ "/") = false) status.

(** The step directories with the times of their last change, the legacy files,
    the registry and the status map. *)
Record store := {
  s_steps : gmap string Z;
  s_legacy : gmap string Z;
  s_registry : Registry;
  s_status : mirror_status }.

Section Sweep.
Context (storagePath : string).
(** Whether a removal from the disk works. *)
Context (removes : string -> bool).

Definition handleDir (handle : string) : string := Join [stepsRoot storagePath; handle].

(** Under the exclusive lock of the handle. *)
Definition removeStepDir (handle : string) (cutoff : Z) (s : store) : bool * store :=
  match s_steps s !! handle with
  | None => (false, s)
  | Some mtime =>
      if negb (mtime <? cutoff)%Z then (false, s)
      else if negb (removes (handleDir handle)) then (false, s)
      else (true, {| s_steps := delete handle (s_steps s); s_legacy := s_legacy s;
                     s_registry := (RemoveByPath (handleDir handle) (s_registry s)).1;
                     s_status := ForgetHandle handle (s_status s) |})
  end.

(** What the listing said of an entry is its name, whether it is a directory and
    its time of change unless it cannot be read; [meanwhile] is what the rest of the
    daemon and the tasks did before the lock was acquired. *)
Definition sweep_entry (cutoff : Z) (meanwhile : store -> store) (s : store) (entry : string * bool * option Z) : store :=
  match entry with
  | (handle, true, Some mtime) => if (mtime <? cutoff)%Z then (removeStepDir handle cutoff (meanwhile s)).2 else s
  | _ => s
  end.

Definition sweep_legacy (cutoff : Z) (s : store) (entry : string * bool * option Z) : store :=
  match entry with
  | (name, false, Some mtime) =>
      if (mtime <? cutoff)%Z && removes (Join [storagePath; "artifacts"; name])
      then {| s_steps := s_steps s; s_legacy := delete name (s_legacy s); s_registry := s_registry s; s_status := s_status s |}
      else s
  | _ => s
  end.

Definition sweep (now ttl : Z) (meanwhile : store -> store) (steps legacy : option (list (string * bool * option Z))) (s : store) : store :=
  let cutoff := (now - ttl)%Z in
  let s := match steps with Some l => foldl (sweep_entry cutoff meanwhile) s l | None => s end in
  match legacy with Some l => foldl (sweep_legacy cutoff) s l | None => s end.
End Sweep.
