(* ===== verification/DaemonRegistrySpec.v ===== *)
(** * Aliases survive restarts, and what a sweep leaves

    Once the call that registers an alias has saved it, the alias is what a lookup
    finds, through the other calls of the daemon, failed saves and restarts, until
    somebody changes it; a swept directory leaves nothing behind in the registry
    and the status of the mirror.  Examples show where the code does more or less
    than that. *)
From stdpp Require Import base gmap sets list strings.
From Stdlib Require Import ZArith Ascii Lia.
From S2P Require Import Prelude DaemonPaths DaemonRegistry.

(** ** Aliases *)

Definition restarts (c : call) : bool := match c with Restarts _ => true | _ => false end.

(** The call does not change the alias [key] of [path], and a restart finds the
    path and can read the file. *)
Definition keeps (key path : string) (c : call) : bool :=
  match c with
  | Registers key' _ | Aliases key' _ | Removes key' => negb (String.eqb key' key)
  | RemovesIf key' path' => negb (String.eqb key' key && String.eqb path' path)
  | RemovesByPath dir => negb (HasPrefix path dir)
  | RegistersIfAbsent _ _ | TakesSnapshot | Saves _ => true
  | Restarts h => aliases_readable h && exists_path h path
  end.

Section Alias.
Context (storage key path : string).

Definition snapped (nd : node) : Prop :=
  match nd_persist nd with Snapped snapshot => snapshot !! key = Some path | Free | Changed => True end.

(** The alias in memory, and in the snapshot that is about to be saved. *)
Definition known (nd : node) : Prop :=
  entries (nd_registry nd) !! key = Some path /\ aliases (nd_registry nd) !! key = Some path /\ snapped nd.

Definition saved (nd : node) : Prop := exists file, nd_file nd = Some file /\ file !! key = Some path.

Lemma RemoveByPath_keeps r dir :
  entries r !! key = Some path -> aliases r !! key = Some path -> HasPrefix path dir = false ->
  entries (RemoveByPath dir r).1 !! key = Some path /\ aliases (RemoveByPath dir r).1 !! key = Some path.
Proof.
  intros He Ha Hp. cbn. rewrite !map_lookup_filter_Some. repeat split; [done..|]. apply map_lookup_filter_None. right.
  cbn. intros path' Hpath. rewrite He in Hpath. injection Hpath as <-. unfold HasPrefix in Hp. by rewrite Hp.
Qed.

Lemma forget_keeps r key' :
  key' <> key -> entries r !! key = Some path -> aliases r !! key = Some path ->
  entries (forget key' r) !! key = Some path /\ aliases (forget key' r) !! key = Some path.
Proof. intros Hne He Ha. cbn. by rewrite !lookup_delete_ne. Qed.

Lemma changes_known rp nd nd' :
  changes rp nd = Some nd' -> entries rp.1 !! key = Some path -> aliases rp.1 !! key = Some path -> known nd'.
Proof.
  unfold changes. intros H He Ha. destruct (nd_persist nd); try done. injection H as <-. unfold known, snapped. cbn. by destruct rp.2.
Qed.

(** A call that is no restart keeps what is known. *)
Lemma step_known c nd nd' :
  known nd -> keeps key path c = true -> restarts c = false -> step storage c nd = Some nd' -> known nd'.
Proof.
  intros (He & Ha & Hs) Hk Hr H. destruct c as [k p|k p|k p|k|k p|dir| |works|h]; cbn in H, Hk; try done.
  - apply negb_true_iff, String.eqb_neq in Hk. injection H as <-. repeat split; [|done..]. cbn. by rewrite lookup_insert_ne.
  - injection H as <-. unfold known, RegisterIfAbsent. case_match eqn:Hl; [done|]. repeat split; [|done..]. cbn.
    rewrite lookup_insert_ne; [done|]. intros ->. congruence.
  - apply negb_true_iff, String.eqb_neq in Hk. eapply changes_known; [exact H|cbn; by rewrite lookup_insert_ne..].
  - apply negb_true_iff, String.eqb_neq in Hk. eapply changes_known; [exact H|by apply forget_keeps..].
  - eapply changes_known; [exact H|..]; unfold RemoveIf; case_bool_decide as Hb; try done;
      (apply forget_keeps; [|done..]); intros ->; rewrite He in Hb; injection Hb as <-; by rewrite !String.eqb_refl in Hk.
  - apply negb_true_iff in Hk. eapply changes_known; [exact H|by apply RemoveByPath_keeps..].
  - destruct (nd_persist nd); try done. injection H as <-. done.
  - destruct (nd_persist nd) eqn:Hp; try done. injection H as <-. done.
Qed.

Lemma step_saved c nd nd' : known nd -> saved nd -> restarts c = false -> step storage c nd = Some nd' -> saved nd'.
Proof.
  intros (_ & _ & Hs) Hf Hr H. unfold saved in *.
  assert (Hsame : nd_file nd' = nd_file nd -> saved nd') by (unfold saved; by intros ->).
  destruct c as [k p|k p|k p|k|k p|dir| |works|h]; cbn in H; try done; try (by injection H as <-);
    try (unfold changes in H; destruct (nd_persist nd); try done; by injection H as <-).
  unfold snapped in Hs. destruct (nd_persist nd) as [| |snapshot]; try done. injection H as <-. cbn. destruct works; [|done].
  by exists snapshot.
Qed.

Lemma restart_known h nd : saved nd -> keeps key path (Restarts h) = true ->
  known {| nd_registry := boot storage h (nd_file nd); nd_file := nd_file nd; nd_persist := Free |}.
Proof.
  intros (file & Hfile & Hk) [Hread Hex]%andb_true_iff. unfold known, boot, LoadAliases, Load. cbn. rewrite Hfile, Hread. cbn.
  assert (Hl : filter (fun p => exists_path h p.2 = true) file !! key = Some path) by by apply map_lookup_filter_Some.
  split; [|split]; [by apply lookup_union_Some_l..|done].
Qed.

Lemma runs_known cs nd nd' :
  known nd -> forallb (fun c => keeps key path c && negb (restarts c)) cs = true -> runs storage cs nd = Some nd' -> known nd'.
Proof.
  revert nd. induction cs as [|c cs IH]; intros nd Hn Hc H; [by injection H as <-|]. cbn in Hc, H.
  apply andb_true_iff in Hc as [[Hk Hr%negb_true_iff]%andb_true_iff Hc]. apply bind_Some in H as (nd1 & H1 & H).
  apply (IH nd1); [by eapply step_known|done|done].
Qed.

Lemma runs_saved cs nd nd' :
  known nd -> saved nd -> forallb (keeps key path) cs = true -> runs storage cs nd = Some nd' -> known nd' /\ saved nd'.
Proof.
  revert nd. induction cs as [|c cs IH]; intros nd Hn Hs Hc H; [by injection H as <-|]. cbn in Hc, H.
  apply andb_true_iff in Hc as [Hk Hc]. apply bind_Some in H as (nd1 & H1 & H). destruct (restarts c) eqn:Hr.
  - destruct c; try done. cbn in H1. injection H1 as <-. eapply IH; [by apply restart_known| |done|done]. exact Hs.
  - apply (IH nd1); [by eapply step_known|by eapply step_saved|done|done].
Qed.

Lemma runs_app cs cs' nd : runs storage (cs ++ cs') nd = runs storage cs nd ≫= runs storage cs'.
Proof. revert nd. induction cs as [|c cs IH]; intros nd; [done|]. cbn. destruct (step storage c nd); [apply IH|done]. Qed.
End Alias.

(** C31: An alias survives restarts: once [RegisterAlias] has changed the map, taken
    its snapshot and saved it with success (it also returns when its save fails, and
    a restart then loses the alias), whatever other calls came in between, every lookup of
    the key finds the path, also after other registrations and removals, saves that
    fail and any number of crashes and restarts, as long as nobody changes the entry
    of that key, the path exists and the file can be read. *)
Theorem alias_survives storage key path nd during waiting after nd' :
  forallb (fun c => keeps key path c && negb (restarts c)) (during ++ waiting) = true ->
  forallb (keeps key path) after = true ->
  runs storage (Aliases key path :: during ++ TakesSnapshot :: waiting ++ Saves true :: after) nd = Some nd' ->
  Lookup key (nd_registry nd') = Some path.
Proof.
  rewrite forallb_app. intros [Hd Hw]%andb_true_iff Ha H. cbn [runs] in H. apply bind_Some in H as (nd1 & H1 & H).
  assert (Hk1 : known key path nd1) by (eapply changes_known; [exact H1|cbn; apply lookup_insert_eq..]).
  rewrite runs_app in H. apply bind_Some in H as (nd2 & H2 & H). pose proof (runs_known _ _ _ _ _ _ Hk1 Hd H2) as Hk2.
  cbn [runs] in H. apply bind_Some in H as (nd3 & H3 & H).
  assert (Hk3 : known key path nd3) by (eapply (step_known storage key path TakesSnapshot); [exact Hk2|done..|exact H3]).
  rewrite runs_app in H. apply bind_Some in H as (nd4 & H4 & H). pose proof (runs_known _ _ _ _ _ _ Hk3 Hw H4) as Hk4.
  cbn [runs] in H. apply bind_Some in H as (nd5 & H5 & H).
  assert (Hk5 : known key path nd5) by (eapply (step_known storage key path (Saves true)); [exact Hk4|done..|exact H5]).
  assert (Hs5 : saved key path nd5).
  { cbn in H5. destruct Hk4 as (_ & _ & Hs). unfold snapped in Hs. destruct (nd_persist nd4) as [| |snapshot]; try done.
    injection H5 as <-. by exists snapshot. }
  by destruct (runs_saved _ _ _ _ _ _ Hk5 Hs5 Ha H) as [[He _] _].
Qed.

(** ** Sweeps *)

(** What a removed directory leaves: no entry with a path below it, no status of a
    key of the handle, and no alias without an entry that had one before. *)
Lemma removeStepDir_forgets storage removes handle cutoff s s' :
  removeStepDir storage removes handle cutoff s = (true, s') ->
  s_steps s' !! handle = None /\
  (forall key path, entries (s_registry s') !! key = Some path -> HasPrefix path (handleDir storage handle) = false) /\
  (forall output, s_status s' !! (handle +:+ "/" +:+ output) = None).
Proof.
  unfold removeStepDir. intros H. repeat case_match; simplify_eq. cbn. split; [|split].
  - apply lookup_delete_eq.
  - intros key path [_ Hm]%map_lookup_filter_Some. exact Hm.
  - intros output. apply map_lookup_filter_None. right. intros peers _. cbn.
    assert (Hp : forall a b, HasPrefix (a +:+ b) a = true).
    { induction a as [|c a IH]; [by destruct b|]. intros b. unfold HasPrefix. change (String c a +:+ b) with (String c (a +:+ b)).
      cbn [String.prefix]. by destruct (ascii_dec c c); [apply IH|]. }
    specialize (Hp (handle +:+ "/") output). unfold HasPrefix in Hp. rewrite string_app_assoc in Hp. congruence.
Qed.

(** A directory that a reader touched after the listing is spared. *)
Lemma removeStepDir_spares storage removes handle cutoff s mtime :
  s_steps s !! handle = Some mtime -> (cutoff <= mtime)%Z -> removeStepDir storage removes handle cutoff s = (false, s).
Proof. intros Hm Hc. unfold removeStepDir. rewrite Hm. by rewrite (proj2 (Z.ltb_ge _ _) Hc). Qed.

(** ** A node that restarts and sweeps *)

Module Disk.
Definition storage : string := "/var/artifacts".
Definition dir (handle : string) : string := handleDir storage handle.
Definition empty : node := {| nd_registry := NewRegistry; nd_file := None; nd_persist := Free |}.

(** A start that finds the outputs of [a] and [ab]. *)
Definition host : Host :=
  {| steps_dir := Some [("a", true, Some [("out", true); ("log", false)]); ("ab", true, Some [("out", true)]); ("x", false, None)];
     exists_path := fun p => HasPrefix p (dir "a"); aliases_readable := true |}.

Definition during : list call := [ Registers "ab/out" (dir "ab/out"); RegistersIfAbsent "vol-1" (dir "ab") ].
Definition after : list call :=
  [ Aliases "vol-2" (dir "ab/out"); TakesSnapshot; Saves false; Removes "vol-2"; Restarts host; RemovesByPath (dir "ab") ].
Definition registered : list call :=
  Aliases "vol-1" (dir "a/out") :: during ++ TakesSnapshot :: [] ++ Saves true :: after.

Definition final : node := default empty (runs storage registered empty).

Lemma alias_survives_witness : Lookup "vol-1" (nd_registry final) = Some "/var/artifacts/steps/a/out".
Proof.
  apply (alias_survives storage "vol-1" (dir "a/out") empty during [] after final); vm_compute; reflexivity.
Defined.

(** [RegisterAlias] logs the failure of its save and returns: a restart loses the
    alias. *)
Example unsaved_alias_lost :
  let cs := [ Aliases "vol-1" (dir "a/out"); TakesSnapshot; Saves false ] in
  (Lookup "vol-1" ∘ nd_registry <$> runs storage cs empty) = Some (Some (dir "a/out")) /\
  (Lookup "vol-1" ∘ nd_registry <$> runs storage (cs ++ [Restarts host]) empty) = Some None.
Proof. vm_compute. done. Qed.

(** [RemoveByPath] compares text, not paths: the sweep of [a] also takes the entries
    and the aliases of [ab], whose directory stays. *)
Example sweep_takes_sibling :
  let s := {| s_steps := {[ "a" := 0%Z; "ab" := 100%Z ]}; s_legacy := ∅;
              s_registry := alias_insert "vol-2" (dir "ab/out") NewRegistry; s_status := ∅ |} in
  let s' := sweep storage (fun _ => true) 100 50 id (Some [("a", true, Some 0%Z); ("ab", true, Some 100%Z)]) None s in
  s_steps s' !! "ab" = Some 100%Z /\ Lookup "vol-2" (s_registry s) = Some (dir "ab/out") /\ Lookup "vol-2" (s_registry s') = None.
Proof. vm_compute. done. Qed.

(** A plain registration of a key that is an alias changes the entry but not the
    alias: after a restart a lookup finds the old path again. *)
Example stream_in_undone_by_restart :
  let cs := [ Aliases "a/out" (dir "a/old"); TakesSnapshot; Saves true; Registers "a/out" (dir "a/out") ] in
  (Lookup "a/out" ∘ nd_registry <$> runs storage cs empty) = Some (Some (dir "a/out")) /\
  (Lookup "a/out" ∘ nd_registry <$> runs storage (cs ++ [Restarts host]) empty) = Some (Some (dir "a/old")).
Proof. vm_compute. done. Qed.
End Disk.
