(* ===== verification/Mirror.v ===== *)
(** * The mirror of the artifact daemon (cmd/artifact-daemon/mirror.go)

    The choice of the peers that get a copy of an artifact, the status of the
    copies and the evacuation of a node that is about to go, and the pool of
    workers that make the copies, as the steps of its goroutines.  The transfer of
    a directory to a peer is the function [put] with the outcome of the peer. *)
From stdpp Require Import sorting.
From stdpp Require Import base gmap sets list strings.
From Stdlib Require Import ZArith Ascii Lia.
From S2P Require Import Prelude GoText DaemonPaths DaemonRegistry.

Open Scope Z_scope.

(** ** The choice of peers *)

(** [fnv.New64a]: xor with the byte, times the prime, modulo 2^64. *)
Fixpoint fnv64a (h : Z) (s : string) : Z :=
  match s with
  | EmptyString => h
  | String c s => fnv64a (Z.lxor h (byte_of c) * 1099511628211 mod 2 ^ 64) s
  end.
Definition Sum64 (key : string) : Z := fnv64a 14695981039346656037 key.

Definition Select (key : string) (peers : list string) (replicas : Z) : list string :=
  if (replicas =? 0) || bool_decide (peers = []) then []
  else
    let sorted := merge_sort String.le peers in
    if replicas <? 0 then sorted
    else
      let want := replicas - 1 in
      if want <=? 0 then []
      else if Z.of_nat (length sorted) <=? want then sorted
      else
        let start := Z.to_nat (Sum64 key mod Z.of_nat (length sorted)) in
        (fun i => default "" (sorted !! ((start + i) mod length sorted)%nat)) <$> seq 0 (Z.to_nat want).

(** ** The status of the copies and the evacuation *)

Inductive outcome_status := ok | rejected | unreachable.
Definition status_text (o : outcome_status) : string :=
  match o with ok => "ok" | rejected => "rejected" | unreachable => "unreachable" end.

Definition recordStatus (key : string) (outcomes : list (string * outcome_status)) (status : gmap string (gmap string string))
    : gmap string (gmap string string) :=
  <[ key := foldl (fun m o => <[ o.1 := status_text o.2 ]> m) (default ∅ (status !! key)) outcomes ]> status.

Definition isAtLeastOnePeerOK (status : gmap string (gmap string string)) (key : string) : bool :=
  existsb (fun p => String.eqb p.2 "ok") (map_to_list (default ∅ (status !! key))).

Section Evacuate.
(** The peers that answer, what becomes of a transfer to one of them, and whether
    the directory of a key can be opened. *)
Context (peerIPs : option (list string)) (put : string -> string -> outcome_status) (opens : string -> bool).
Context (replicas : Z).

(** [mirrorJob.Run]: one transfer per peer. *)
Definition job_Run (key : string) (peers : list string) : list (string * outcome_status) := (fun p => (p, put key p)) <$> peers.

Definition mirror_valid (key : string) : bool := validateCanonicalRelativeKey key && negb (snapshotNamespaceKey key).

(** [run] and [evacuateOne] differ in what they log. *)
Definition mirror_run (key : string) (status : gmap string (gmap string string)) : gmap string (gmap string string) :=
  if negb (mirror_valid key) || negb (opens key) then status
  else match peerIPs with
       | None => status
       | Some ips =>
           match Select key ips replicas with
           | [] => status
           | chosen => recordStatus key (job_Run key chosen) status
           end
       end.

(** The directories [steps/{handle}/{output}] without a peer that has a copy: the
    listing of the steps, each handle with its outputs. *)
Definition unmirrored (status : gmap string (gmap string string)) (handle : string) (outputs : list string) : list string :=
  if validateCanonicalRelativeKey handle
  then filter (fun key => opens key && negb (isAtLeastOnePeerOK status key) = true) ((fun o => handle +:+ "/" +:+ o) <$> outputs)
  else [].

Definition findUnmirroredKeys (steps : list (string * list string)) (status : gmap string (gmap string string)) : list string :=
  mjoin ((fun e => unmirrored status e.1 e.2) <$> steps).

(** The pool has stopped; [budget] transfers fit in the time there is. *)
Definition Evacuate (budget : nat) (steps : list (string * list string)) (status : gmap string (gmap string string))
    : gmap string (gmap string string) :=
  foldl (fun s key => mirror_run key s) status (take budget (findUnmirroredKeys steps status)).
End Evacuate.

(** ** The pool of workers *)

(** A worker waits for work, runs a job, or has exited. *)
Inductive worker := Waiting | Running (job : nat) | Exited.

(** [p_submitting]: the calls of [Submit] past their first look at [done]. *)
Record pool := {
  p_work : list nat;
  p_done : bool;
  p_workers : list worker;
  p_submitting : gset nat;
  p_accepted : list nat;
  p_ran : list nat }.

Definition queue_size : nat := 64.

Definition NewWorkerPool (concurrency : Z) : pool :=
  {| p_work := []; p_done := false; p_workers := replicate (Z.to_nat (if concurrency <=? 0 then 1 else concurrency)) Waiting;
     p_submitting := ∅; p_accepted := []; p_ran := [] |}.

Inductive pool_event :=
| SubmitLooks (job : nat)
| SubmitSends (job : nat)
| SubmitRefused (job : nat)
| Stop
| Takes (w : nat)
| Ends (w : nat)
| Exits (w : nat).

Definition worker_step (e : pool_event) (p : pool) : option pool :=
  match e with
  | SubmitLooks job =>
      if p_done p then None
      else Some {| p_work := p_work p; p_done := p_done p; p_workers := p_workers p; p_submitting := {[ job ]} ∪ p_submitting p;
                   p_accepted := p_accepted p; p_ran := p_ran p |}
  | SubmitSends job =>
      if bool_decide (job ∈ p_submitting p) && (length (p_work p) <? queue_size)%nat
      then Some {| p_work := p_work p ++ [job]; p_done := p_done p; p_workers := p_workers p;
                   p_submitting := p_submitting p ∖ {[ job ]}; p_accepted := job :: p_accepted p; p_ran := p_ran p |}
      else None
  | SubmitRefused job =>
      if bool_decide (job ∈ p_submitting p) && p_done p
      then Some {| p_work := p_work p; p_done := p_done p; p_workers := p_workers p;
                   p_submitting := p_submitting p ∖ {[ job ]}; p_accepted := p_accepted p; p_ran := p_ran p |}
      else None
  | Stop =>
      Some {| p_work := p_work p; p_done := true; p_workers := p_workers p; p_submitting := p_submitting p;
              p_accepted := p_accepted p; p_ran := p_ran p |}
  | Takes w =>
      match p_workers p !! w, p_work p with
      | Some Waiting, job :: work =>
          Some {| p_work := work; p_done := p_done p; p_workers := <[ w := Running job ]> (p_workers p);
                  p_submitting := p_submitting p; p_accepted := p_accepted p; p_ran := p_ran p |}
      | _, _ => None
      end
  | Ends w =>
      match p_workers p !! w with
      | Some (Running job) =>
          Some {| p_work := p_work p; p_done := p_done p; p_workers := <[ w := Waiting ]> (p_workers p);
                  p_submitting := p_submitting p; p_accepted := p_accepted p; p_ran := job :: p_ran p |}
      | _ => None
      end
  | Exits w =>
      match p_workers p !! w, p_work p with
      | Some Waiting, [] =>
          if p_done p
          then Some {| p_work := []; p_done := true; p_workers := <[ w := Exited ]> (p_workers p);
                       p_submitting := p_submitting p; p_accepted := p_accepted p; p_ran := p_ran p |}
          else None
      | _, _ => None
      end
  end.

Fixpoint pool_runs (es : list pool_event) (p : pool) : option pool :=
  match es with
  | [] => Some p
  | e :: es => p' ← worker_step e p; pool_runs es p'
  end.
