(* ===== verification/MirrorSpec.v ===== *)
(** * What the mirror promises

    The peers of a key are distinct peers, as many as were asked for if there are
    so many, and the same whatever the order in which they were discovered; an
    evacuation that is not cut short leaves a copy of every artifact it found
    without one, if the peers take them.  Two examples show what can be lost. *)
From stdpp Require Import sorting.
From stdpp Require Import base gmap sets list strings.
From Stdlib Require Import ZArith Ascii Lia.
From S2P Require Import Prelude GoText DaemonPaths DaemonRegistry Mirror.

Open Scope Z_scope.

(** ** Selection *)

Lemma sort_same (l l' : list string) : l ≡ₚ l' -> merge_sort String.le l = merge_sort String.le l'.
Proof.
  intros H. apply (Sorted_unique String.le); [apply Sorted_merge_sort, _..|]. by rewrite !merge_sort_Permutation.
Qed.

(** The elements at [want] positions from [start] on, around the end. *)
Lemma mod_distinct n start i j :
  (i < n)%nat -> (j < n)%nat -> ((start + i) mod n = (start + j) mod n)%nat -> i = j.
Proof.
  intros Hi Hj H. destruct (decide (n = 0)%nat) as [->|Hn]; [lia|].
  assert (Hw : forall a b, (a <= b)%nat -> (b < n)%nat -> ((start + a) mod n = (start + b) mod n)%nat -> a = b).
  { intros a b Hab Hb Heq. pose proof (Nat.div_mod_eq (start + a) n). pose proof (Nat.div_mod_eq (start + b) n).
    assert (n * ((start + b) / n - (start + a) / n) = b - a)%nat by nia. destruct ((start + b) / n - (start + a) / n)%nat eqn:Hd; nia. }
  destruct (decide (i <= j)%nat); [by apply Hw|symmetry; apply Hw; [lia|done|done]].
Qed.

Definition around (sorted : list string) (start want : nat) : list string :=
  (fun i => default "" (sorted !! ((start + i) mod length sorted)%nat)) <$> seq 0 want.

Lemma around_spec sorted start want :
  (want < length sorted)%nat -> NoDup sorted -> NoDup (around sorted start want) /\ around sorted start want ⊆ sorted.
Proof.
  intros Hw Hnd. assert (Hlook : forall i, exists x, sorted !! ((start + i) mod length sorted)%nat = Some x).
  { intros i. apply lookup_lt_is_Some_2. apply Nat.mod_upper_bound. lia. }
  split.
  - unfold around. apply NoDup_fmap_2_strong; [|apply NoDup_seq]. intros i j Hi%elem_of_seq Hj%elem_of_seq Heq.
    destruct (Hlook i) as [x Hx], (Hlook j) as [y Hy]. rewrite Hx, Hy in Heq. cbn in Heq. subst y.
    apply (mod_distinct (length sorted) start); [lia..|]. by eapply NoDup_lookup.
  - intros x Hx. apply list_elem_of_fmap in Hx as (i & -> & _). destruct (Hlook i) as [x Hx]. rewrite Hx. cbn.
    by eapply list_elem_of_lookup_2.
Qed.

(** How many peers a number of replicas asks for. *)
Definition asked (replicas : Z) (n : nat) : nat :=
  if replicas =? 0 then O else if replicas <? 0 then n else Nat.min (Z.to_nat (replicas - 1)) n.

Lemma Select_permutation key peers peers' replicas : peers ≡ₚ peers' -> Select key peers replicas = Select key peers' replicas.
Proof.
  intros H. unfold Select. rewrite (sort_same _ _ H). assert (bool_decide (peers = []) = bool_decide (peers' = [])) as ->; [|done].
  apply bool_decide_ext. split; intros ->; [by apply Permutation_nil_l in H|by apply Permutation_nil_r in H].
Qed.

Lemma Select_chooses key peers replicas :
  NoDup peers ->
  NoDup (Select key peers replicas) /\ Select key peers replicas ⊆ peers /\
  length (Select key peers replicas) = asked replicas (length peers).
Proof.
  intros Hnd. pose proof (merge_sort_Permutation String.le peers) as Hp.
  assert (Hsort : NoDup (merge_sort String.le peers)) by by rewrite Hp.
  assert (Hsub : merge_sort String.le peers ⊆ peers) by (intros x; by rewrite Hp).
  assert (Hlen : length (merge_sort String.le peers) = length peers) by by rewrite Hp.
  assert (Hnil : NoDup (@nil string) /\ [] ⊆ peers) by (split; [constructor|intros x Hx; by apply not_elem_of_nil in Hx]).
  unfold Select, asked. destruct (Z.eqb_spec replicas 0); [by destruct Hnil|]. cbn [orb].
  case_bool_decide as He; [subst peers; destruct Hnil; repeat split; [done..|]; destruct (replicas <? 0); cbn; lia|].
  destruct (Z.ltb_spec replicas 0); [done|]. destruct (Z.leb_spec (replicas - 1) 0).
  { destruct Hnil. repeat split; [done..|]. cbn. lia. }
  destruct (Z.leb_spec (Z.of_nat (length (merge_sort String.le peers))) (replicas - 1)); [repeat split; [done..|lia]|].
  destruct (around_spec (merge_sort String.le peers)
              (Z.to_nat (Sum64 key mod Z.of_nat (length (merge_sort String.le peers)))) (Z.to_nat (replicas - 1))) as [Hr1 Hr2]; [lia|done|].
  split; [exact Hr1|]. split; [by etrans|]. rewrite length_fmap, length_seq. lia.
Qed.

(** ** Evacuation *)

Section Evacuation.
Context (ips : list string) (put : string -> string -> outcome_status) (opens : string -> bool) (replicas : Z).

Lemma recordStatus_ok key outcomes status :
  outcomes <> [] -> Forall (fun o => o.2 = ok) outcomes -> isAtLeastOnePeerOK (recordStatus key outcomes status) key = true.
Proof.
  intros Hne Hok. unfold isAtLeastOnePeerOK, recordStatus. rewrite lookup_insert_eq. cbn [default].
  destruct outcomes as [|o outcomes _] using rev_ind; [done|]. rewrite foldl_app. cbn [foldl].
  apply Forall_app in Hok as [_ Ho%Forall_inv]. apply existsb_exists. exists (o.1, "ok"). split; [|done].
  apply list_elem_of_In, elem_of_map_to_list. rewrite Ho. apply lookup_insert_eq.
Qed.

Lemma isAtLeastOnePeerOK_other key key' outcomes status :
  key <> key' -> isAtLeastOnePeerOK (recordStatus key outcomes status) key' = isAtLeastOnePeerOK status key'.
Proof. intros Hne. unfold isAtLeastOnePeerOK, recordStatus. by rewrite lookup_insert_ne. Qed.

(** Every peer takes what it is sent, and there is one to send to. *)
Context (Htake : forall key peer, put key peer = ok) (Hips : NoDup ips) (Hask : (0 < asked replicas (length ips))%nat).

Lemma mirror_run_ok key status :
  mirror_valid key = true -> opens key = true -> isAtLeastOnePeerOK (mirror_run (Some ips) put opens replicas key status) key = true.
Proof.
  intros Hv Ho. unfold mirror_run. rewrite Hv, Ho. cbn [negb orb].
  destruct (Select_chooses key ips replicas Hips) as (_ & _ & Hl). destruct (Select key ips replicas) as [|p ps]; [cbn in Hl; lia|].
  apply recordStatus_ok; [done|]. unfold job_Run. apply Forall_fmap, list.Forall_true. intros x. apply Htake.
Qed.

Lemma mirror_run_mono key key' status :
  isAtLeastOnePeerOK status key' = true -> isAtLeastOnePeerOK (mirror_run (Some ips) put opens replicas key status) key' = true.
Proof.
  intros H. destruct (decide (key = key')) as [<-|Hne].
  - destruct (mirror_valid key) eqn:Hv, (opens key) eqn:Ho; [by apply mirror_run_ok|..]; unfold mirror_run; by rewrite Hv, ?Ho.
  - unfold mirror_run. repeat case_match; try done; by rewrite isAtLeastOnePeerOK_other.
Qed.

Lemma foldl_mono keys status key :
  isAtLeastOnePeerOK status key = true ->
  isAtLeastOnePeerOK (foldl (fun s k => mirror_run (Some ips) put opens replicas k s) status keys) key = true.
Proof. revert status. induction keys as [|k keys IH]; intros status H; [done|]. by apply IH, mirror_run_mono. Qed.

(** An evacuation with enough time leaves no artifact without a copy. *)
Lemma Evacuate_copies budget steps status handle outputs output :
  (handle, outputs) ∈ steps -> output ∈ outputs -> validateCanonicalRelativeKey handle = true ->
  mirror_valid (handle +:+ "/" +:+ output) = true -> opens (handle +:+ "/" +:+ output) = true ->
  (length (findUnmirroredKeys opens steps status) <= budget)%nat ->
  isAtLeastOnePeerOK (Evacuate (Some ips) put opens replicas budget steps status) (handle +:+ "/" +:+ output) = true.
Proof.
  intros Hs Ho Hh Hv Hop Hb. unfold Evacuate. rewrite take_ge by done. set (key := handle +:+ "/" +:+ output) in *.
  destruct (isAtLeastOnePeerOK status key) eqn:Hk; [by apply foldl_mono|].
  assert (Hin : key ∈ findUnmirroredKeys opens steps status).
  { apply list_elem_of_join. exists (unmirrored opens status handle outputs). split.
    - unfold unmirrored. rewrite Hh. apply list_elem_of_filter. rewrite Hop, Hk. split; [done|]. by apply (list_elem_of_fmap_2 (fun o => handle +:+ "/" +:+ o)).
    - by apply (list_elem_of_fmap_2 (fun e => unmirrored opens status e.1 e.2) steps (handle, outputs)). }
  generalize dependent (findUnmirroredKeys opens steps status). intros keys _ Hin. clear Hk. revert status.
  induction keys as [|k keys IH]; intros status; [by apply not_elem_of_nil in Hin|]. cbn.
  apply elem_of_cons in Hin as [<-|Hin]; [|by apply IH]. by apply foldl_mono, mirror_run_ok.
Qed.
End Evacuation.

(** ** What can be lost *)

(** [Submit] looked at [done] before [Stop]; the worker found no work and left; the
    send into the buffer is as ready as [done]: the job is accepted and never run. *)
Example accepted_after_drain :
  (fun p => (p_accepted p, p_ran p, p_workers p)) <$>
    pool_runs [SubmitLooks 7; Stop; Exits 0; SubmitSends 7] (NewWorkerPool 1) = Some ([7%nat], [], [Exited]).
Proof. reflexivity. Qed.

(** The outcome of an earlier upload of a key counts for the upload that replaced
    it: a node that goes before it mirrored the new files does not evacuate them. *)
Example replaced_not_evacuated :
  let status := mirror_run (Some ["10.0.0.2"]) (fun _ _ => ok) (fun _ => true) 2 "a/out" ∅ in
  findUnmirroredKeys (fun _ => true) [("a", ["out"; "log"])] status = ["a/log"].
Proof. vm_compute. reflexivity. Qed.
